(* ===== verification/_CoqProject ===== *)
-Q . S2P
Prelude.v
Ordering.v
Tensor.v
SparseMatrix.v
SparseFacts.v
SparseCanon.v
SparseProps.v
RoundLayout.v
PcmSort.v
PcmColumns.v
PcmProps.v
PcmText.v
Rates.v
DetectorErrorModel.v
DemFacts.v
DemProps.v
Decoder.v
DecoderProps.v
HetMap.v
Lut.v
LutProps.v
SlidingWindow.v
SlidingStep.v
SlidingRun.v
SlidingBuild.v
SlidingProps.v
SlidingLut.v
Graph.v
GraphProps.v
SurfaceCode.v
SurfaceFacts.v
SurfaceProps.v
SurfaceSchedule.v
StabilizerUtils.v
StabilizerProps.v
Codes.v
ThreadPool.v
ThreadPoolInv.v
ThreadPoolCaller.v
ThreadPoolProps.v
ThreadPoolLive.v
ExtendedDem.v
ExtendedFacts.v
ExtendedChunk.v
ExtendedStitch.v
ExtendedChain.v
ExtendedAll.v
ExtendedProps.v
ExtendedClose.v
ExtendedMerge.v
ExtendedStreams.v
ChunkSpec.v
ExperimentTemplate.v
TemplateFacts.v
TemplateProps.v
WindowRequest.v
WindowRequestFacts.v
WindowModel.v
WindowWorkload.v
Commitment.v
WorkloadFacts.v
WindowShot.v
WindowPlace.v
WindowBuild.v
ShotRun.v
CommitFacts.v
CommitRun.v
CommitProps.v
WindowProps.v
Ingest.v
IngestRounds.v
IngestViews.v
IngestLayout.v
IngestRun.v
IngestProps.v
WindowVariants.v
DecodeWindow.v
DecodeFire.v
DecodeProps.v
