(* ===== verification/Prelude.v ===== *)
(** * Verification of the CUDA-Q QEC host library

    This development models the host side of CUDA-Q QEC (src/libs/qec and the
    parts of src/libs/core it stands on) and proves what makes it correct.

    ** The program

    A quantum code is a list of stabilizers and observables ([code] and its
    three built-in classes), turned into parity-check matrices by
    [to_parity_matrix].  A detector error model (DEM), read from Stim's text
    format, is a parity-check matrix with observables and rates, one column per
    error mechanism; [canonicalize_for_rounds] merges and sorts its columns.
    A long experiment is a chain of chunks ([extended_dem]), contracted along
    their seams into one model or streamed round by round.  A chunk
    specification ([dem_chunks_spec]) names the phases of such a chain; an
    [experiment_template] answers for shots of any length, without expanding
    them, which chunk a round has and where its rows and columns start.  A
    decoding task cuts a shot into windows: a [window_request] describes a
    layer of windows, [window_from_dem_chunks] builds the model of one, and
    [solve_window] decodes it, commits part of its faults and sends what other
    windows need to know; [validate_commitment] decides whether the windows of
    all layers together decode the shot.  At run time the [ingest_core] of a
    task takes the raw measurements record by record, cuts them into rounds,
    forms each round's detectors once into a ring, and hands every layer's
    windows over as views of the ring; the [decode_window_core] of a layer fires
    them: windows in the same place relative to the ends of the shot are one
    variant, and the model of a variant, built once, decodes every instance of
    it, in several slots at once.
    A decoder is built from such a model, receives syndromes of a shot in
    pieces, and returns corrections.  The lookup-table decoder answers from a
    precomputed table; the sliding-window decoder cuts the matrix into
    overlapping round windows, runs an inner decoder on each, commits the part
    that leaves the window and corrects the syndrome of the next one.  The
    sparse matrix, the tensor, the options map, the graph and the fork-join
    thread pool are the infrastructure under it.

    ** Conventions

    A C++ function is a Rocq function to [res]: a value, a thrown standard
    exception (with the fixed part of its message) or [Undef] for undefined
    behaviour (an index outside a vector, a division by zero, a loop that does
    not end).  Unsigned integers are naturals, with the wrap-around of casts and
    of narrow arithmetic written out by [u8], [u32], [u64], [u32_sub], [u64_sub].
    [for_u] and [foldM] are the loops.  [returns m Q] is total correctness.
    [std::sort] is a merge sort with the caller's comparator; where the
    comparator is total, the sorted list is shown to be unique, elsewhere the
    theorems hold for any order of equal elements they mention.

    ** Files

    - Prelude, Ordering: results, machine widths, loops, sorting with a
      comparator, counting sort.
    - Tensor: [tensor<uint8_t>] (libs/core tensor.h, xtensor_impl.cpp), shape and
      checked access.
    - SparseMatrix, SparseFacts, SparseCanon, SparseProps:
      sparse_binary_matrix.cpp.  Constructors accept exactly the well-formed
      inputs; conversions between the two layouts, nested lists and dense
      tensors are inverse where they can be and preserve every stored position;
      [canonicalize] keeps the odd entries.
    - RoundLayout (round_layout.h), PcmSort, PcmColumns, PcmProps, PcmText
      (pcm_utils.cpp): the partition of rows into rounds, the column order and
      its uniqueness, column windows of a round range in both overloads, and the
      text encodings with their round trips.
    - Rates, DetectorErrorModel, DemFacts, DemProps:
      detector_error_model.cpp.  The columns of a parsed model, the agreement of
      its dense and sparse projections, and [canonicalize_for_rounds] with the
      merged rates as XOR probabilities of the exclusive sets of their error ids.  Stim's parser is a parameter.
    - Decoder, DecoderProps: decoder_init.cpp and the shot buffer of
      decoder.cpp.  Inputs are accepted exactly when their sizes agree; a
      decoder fed in arbitrary pieces refines one fed whole shots.
    - HetMap: heterogeneous_map.h and type_traits.h.
    - Lut, LutProps: decoders/lut.cpp.  Decoding returns a
      minimum-weight explanation exactly when one within the depth exists.
    - SlidingWindow, SlidingStep, SlidingRun, SlidingBuild, SlidingProps, SlidingLut: decoders/sliding_window.cpp.  The
      inner decoder is an interface; over inner decoders that explain their
      syndrome, a converged window sequence explains the whole syndrome (error
      frames, hard detectors, the default straddling, windows of two rounds or
      more, mechanisms within two consecutive rounds).  SlidingLut shows the
      lookup-table decoder meets the interface.
    - Graph, GraphProps: libs/core graph.cpp.  The adjacency lists refine an
      abstract undirected weighted graph, degrees and the multiplicity of
      neighbours included; the connectivity test decides it.
    - SurfaceCode, SurfaceFacts, SurfaceProps, SurfaceSchedule:
      codes/surface_code.cpp.  For every orientation and distance the
      stabilizers and observables form a valid code, and the CNOT schedules are
      free of conflicts.
    - StabilizerUtils, StabilizerProps: stabilizer_utils.cpp.  The parity matrix
      is the symplectic form of the words.  Codes:
      code.cpp, steane.cpp, repetition.cpp, the constructor of [surface_code] and
      the documented contract between schedules and parity matrices.
    - ThreadPool, ThreadPoolInv, ThreadPoolCaller, ThreadPoolProps, ThreadPoolLive: decoding_task/
      thread_pool.cpp and .h as an interleaving transition system: fork-join
      semantics, absence of races on the work descriptor, and progress by a
      decreasing measure with no stuck state (no lost wake-up).
    - ExtendedDem, ExtendedMerge: extended_dem.cpp, chunks with named seams.
      ExtendedFacts, ExtendedChunk, ExtendedStitch, ExtendedChain, ExtendedAll
      build up to ExtendedProps (which chains [dem_stitch_all] accepts, and that
      its one pass is the left fold of [dem_stitch]) and ExtendedClose (three ways to close a
      chain agree).  ExtendedStreams: round labels and observable maps describe
      the closed chain.  ExtendedMerge also shows that merging duplicate columns
      keeps the supports and, with the XOR rule, their distribution.
    - ChunkSpec (extended_dem.cpp): chunk and phase
      specifications, their validation and expansion.  ExperimentTemplate,
      TemplateFacts, TemplateProps
      (decoding_task_experiment_template.cpp): the closed-form answers of a
      template are those of the expanded specification when its repeating phase
      lies on the chain ([joined_spec]).
    - WindowRequest, WindowModel, WindowWorkload
      (decoding_task_decoding_window.cpp): requests, the window model and the
      workload.  WindowRequestFacts, WindowShot, WindowPlace,
      WindowBuild, WorkloadFacts build up to
      WindowProps: which windows a request has, and that a window decodes its
      part of the shot.
    - Commitment (decoding_task_commitment.cpp): schedules of windows and the
      checks F1, F3 and F4 on probe shots.  ShotRun,
      CommitFacts, CommitRun lead to CommitProps: the
      windows of an accepted schedule, fired in any order that respects their
      sends, decode the whole shot.  An example there runs two layers on a memory
      experiment and shows a schedule that is accepted although one round
      reaches a window twice; the theorem excludes it by [delivers_once].
    - Ingest (decoding_task_ingest_core.cpp and .h): the constructor, [enqueue],
      [poll], [release], [reset], the spans and [copy_window], over flat buffers;
      the members fixed at construction are an [ingest_layout], those that change
      an [ingest_core].  IngestRounds: cutting, the readout round, and forming
      detectors.  IngestViews: the invariant of the core, the ring's room and the
      hand-over of windows.  IngestLayout: what the constructor's checks on the
      shortest shots say of every shot.  IngestRun: runs of operations as a client
      issues them, the sizing of the ring, and a client that returns its views.
      IngestProps: the windows handed over are those of the shot that FINAL
      fixes, views out stay readable, records of a shot are never refused, and
      nothing stalls.
    - WindowVariants: the keys that [variant_instances] lists are those of the
      shots of every length, and windows with one key are one window up to a
      shift, so that building one and comparing two ([check_translation_invariance])
      speaks for all.
    - DecodeWindow (decoding_task_decode_window_core.cpp and .h, and
      [make_window_decoder]): the members fixed at construction are a
      [decode_layout], those that change a [decode_core]; a [window_fire] refers to
      the buffers of its variant as the code's spans and pointers do; [fire] is
      [fire_begin] then [fire_end], between which other slots may act.
      DecodeFire: overlapping fires and resets as a step relation with its
      invariant, the sizes of the buffers, and a fire of an accepted window.
      DecodeProps: overlapping fires do not interfere, and a window as the ingest
      core hands it over, with the sends of its producers, is decoded as
      [receive_send] and [solve_window] decode the window built for that shot.

    ** Bounds and fuel

    Functions are total.  A loop that is not structural has fuel that its
    theorem proves enough: one level per node for the depth-first search of the
    graph, 2^n permutations of an n-bit mask for the lookup table, two levels
    for the self-call of the sliding window's [decode_batch], the remaining
    length of the order for the shot buffer, the combined length of two columns
    for their comparison, two steps per connection for the walk along the phases
    of a chunk specification, one step per measurement for the cut of a record
    and one per index left for [poll]; running out is [Undef] or [None], which the
    theorems exclude.  Size hypotheses are those
    of the machine types: a product or a sum that the code computes in 32 or 64
    bits does not wrap.  The surface code theorems assume that the squared grid
    length fits 32 bits.  [int64_t] rounds are integers: the requests that
    pass the checks keep them within 2^31 of zero, so that no sum of them wraps.
    The index of a window has no such bound: [place_window] computes its anchor
    and clips its zones at the width of the type, a sum outside it being
    undefined behaviour ([window_anchor], [clip_checked]).  [window_variant] and
    the fire of the decode_window core form the same sum in integers; on the
    windows of a shot of fewer than 2^62 rounds it is shown to fit.  The window
    theorems assume that the rows and columns of the shot fit 32 bits
    ([spec_shot]).  The ingest theorems assume that a shot's measurements and rows
    fit the index type ([shots_fit]) and fewer than 2^63 measurements in a run;
    that the ring's size does not wrap is proved for widths, pools and spans below
    2^30 ([modest]).  Fewer than 2^64 steps keep the fire count of a variant from
    wrapping.  The thread pool has any number of threads and any
    interleaving of single shared accesses under sequential consistency; its
    callbacks return or throw.  The claims of the decode_window core are
    sequentially consistent too, and its caller keeps the documented order: a slot
    in flight is neither fired nor reset.

    ** Not modelled

    Third-party code is a parameter with the behaviour the code relies on:
    Stim's parser, CUDA-Q's spin operators, the inner decoders, the iteration
    order of hash maps, thread creation and CPU affinity.  Error rates are an
    algebra with instances for IEEE doubles (what the code runs) and rationals
    (where the XOR law is exact); weights of graph edges and floating-point
    options are opaque.  The decode_window core takes the windows of the data
    artifact store as an argument; [decode_setup] says they are the windows built
    at the listed instances.  Not modelled: quantum kernels and simulators (experiments.cpp), logging and
    timing, printing, plugins over TensorRT, PyMatching and Chromobius, the
    Python bindings, and the realtime server with its YAML configuration and
    device code.  Still open: the clause of [max_ready_per_record] on indices per record; of extended_dem.cpp the construction of chunks from
    CSS matrices and the compact chain; of the decoding tasks the graph with its
    topology checks, node kinds and executor (decoding_task_graph*.cpp); the
    data artifact store with its hashes; that the
    probe shots of [validate_commitment] stand for all longer shots; and of
    pcm_utils.cpp the random generators and
    [pcm_extend_to_n_rounds]. *)

From stdpp Require Export base list list_numbers numbers strings gmap sorting sets.
From Stdlib Require Export ZArith Lia.

#[global] Set Default Goal Selector "!".

(** ** Results of C++ functions

    A function returns a value, throws one of the standard exceptions (with
    the fixed part of its message) or runs into undefined behaviour: an index
    outside a [std::vector], a division by zero. *)

Inductive exn : Type :=
  | InvalidArgument (msg : string)
  | RuntimeError (msg : string)
  | LogicError (msg : string)
  | OutOfRange (msg : string)
  | OverflowError (msg : string).

Inductive res (A : Type) : Type :=
  | Ok (a : A)
  | Throw (e : exn)
  | Undef.
Arguments Ok {A} a.
Arguments Throw {A} e.
Arguments Undef {A}.

#[global] Instance exn_eq_dec : EqDecision exn.
Proof. solve_decision. Defined.
#[global] Instance res_eq_dec {A} `{EqDecision A} : EqDecision (res A).
Proof. solve_decision. Defined.

#[global] Instance res_ret : MRet res := λ A a, Ok a.
#[global] Instance res_bind : MBind res := λ A B k m,
  match m with Ok a => k a | Throw e => Throw e | Undef => Undef end.

(** [if (cond) throw e;] *)
Definition throw_if (b : bool) (e : exn) : res unit :=
  if b then Throw e else Ok tt.

(** [v\[i\]] read and write on a [std::vector]. *)
Definition vget {A} (v : list A) (i : nat) : res A :=
  match v !! i with Some x => Ok x | None => Undef end.
Definition vset {A} (v : list A) (i : nat) (x : A) : res (list A) :=
  if decide (i < length v) then Ok (<[i:=x]> v) else Undef.

(** Loops. [foldM] is a range-for with a mutable state, [for_u lo hi] is
    [for (i = lo; i < hi; ++i)]. *)
Fixpoint foldM {S B} (f : B → S → res S) (l : list B) (s : S) : res S :=
  match l with
  | [] => Ok s
  | b :: l => s' ← f b s; foldM f l s'
  end.
Definition for_u {S} (lo hi : nat) (f : nat → S → res S) (s : S) : res S :=
  foldM f (seq lo (hi - lo)) s.

(** ** Machine widths

    Unsigned values are naturals; the wrap-around of a cast or of an
    operation in a narrower type is written out with [u8], [u32], [u64]. *)

Definition wrap (w : Z) (n : nat) : nat := Z.to_nat (Z.of_nat n mod 2 ^ w)%Z.
Abbreviation u8 := (wrap 8).
Abbreviation u32 := (wrap 32).
Abbreviation u64 := (wrap 64).
Definition u64_sub (a b : nat) : nat :=
  Z.to_nat ((Z.of_nat a - Z.of_nat b) mod 2 ^ 64)%Z.
Definition u32_sub (a b : nat) : nat :=
  Z.to_nat ((Z.of_nat a - Z.of_nat b) mod 2 ^ 32)%Z.
Definition fits (w : Z) (n : nat) : bool := (Z.of_nat n <? 2 ^ w)%Z.
Definition UINT32_MAX : Z := (2 ^ 32 - 1)%Z.

Lemma fits_lt w n : fits w n = true ↔ (Z.of_nat n < 2 ^ w)%Z.
Proof. unfold fits. by rewrite Z.ltb_lt. Qed.

Lemma wrap_small w n : (Z.of_nat n < 2 ^ w)%Z → wrap w n = n.
Proof. intros H. unfold wrap. rewrite Z.mod_small; lia. Qed.

Lemma wrap_lt w n : (0 ≤ w)%Z → (Z.of_nat (wrap w n) < 2 ^ w)%Z.
Proof.
  intros Hw. unfold wrap.
  assert (0 < 2 ^ w)%Z by (apply Z.pow_pos_nonneg; lia).
  pose proof (Z.mod_pos_bound (Z.of_nat n) (2 ^ w)). lia.
Qed.

Lemma u64_sub_le a b : b ≤ a → (Z.of_nat a < 2 ^ 64)%Z → u64_sub a b = a - b.
Proof. intros H1 H2. unfold u64_sub. rewrite Z.mod_small; lia. Qed.

Lemma u32_sub_le a b : b ≤ a → (Z.of_nat a < 2 ^ 32)%Z → u32_sub a b = a - b.
Proof. intros H1 H2. unfold u32_sub. rewrite Z.mod_small; lia. Qed.

(** ** Total correctness of a computation *)

Definition returns {A} (m : res A) (Q : A → Prop) : Prop :=
  ∃ a, m = Ok a ∧ Q a.

Lemma returns_ok {A} (a : A) (Q : A → Prop) : Q a → returns (Ok a) Q.
Proof. intros. by exists a. Qed.
Lemma returns_ret {A} (a : A) (Q : A → Prop) : Q a → returns (mret a) Q.
Proof. intros. by exists a. Qed.
Lemma returns_mono {A} (m : res A) (P Q : A → Prop) :
  returns m P → (∀ a, P a → Q a) → returns m Q.
Proof. intros (a&?&?) HPQ. exists a. auto. Qed.
Lemma returns_bind {A B} (m : res A) (k : A → res B) (P : A → Prop) Q :
  returns m P → (∀ a, P a → returns (k a) Q) → returns (m ≫= k) Q.
Proof. intros (a&->&HP) Hk. simpl. by apply Hk. Qed.
Lemma returns_inv {A} (m : res A) (Q : A → Prop) a :
  returns m Q → m = Ok a → Q a.
Proof. intros (a'&->&?) [= ->]. done. Qed.

Lemma vget_ok {A} (v : list A) i x : v !! i = Some x → vget v i = Ok x.
Proof. unfold vget. by intros ->. Qed.
Lemma vset_ok {A} (v : list A) i x : i < length v → vset v i x = Ok (<[i:=x]> v).
Proof. intros. unfold vset. by rewrite decide_True. Qed.
Lemma returns_vget {A} (v : list A) i x (Q : A → Prop) :
  v !! i = Some x → Q x → returns (vget v i) Q.
Proof. intros ??. exists x. by rewrite (vget_ok _ _ x). Qed.
Lemma returns_vset {A} (v : list A) i x (Q : list A → Prop) :
  i < length v → Q (<[i:=x]> v) → returns (vset v i x) Q.
Proof. intros ??. exists (<[i:=x]> v). by rewrite vset_ok. Qed.

Lemma returns_vget_bind {A B} (v : list A) i x (k : A → res B) Q :
  v !! i = Some x → returns (k x) Q → returns (vget v i ≫= k) Q.
Proof. intros Hi ?. by rewrite (vget_ok _ _ _ Hi). Qed.
Lemma returns_vset_bind {A B} (v : list A) i x (k : list A → res B) Q :
  i < length v → returns (k (<[i:=x]> v)) Q → returns (vset v i x ≫= k) Q.
Proof. intros Hi ?. by rewrite (vset_ok _ _ _ Hi). Qed.
Lemma returns_guard {B} b e (k : unit → res B) Q :
  b = false → returns (k tt) Q → returns (throw_if b e ≫= k) Q.
Proof. by intros ->. Qed.

Lemma bind_ok {A B} (m : res A) (k : A → res B) b :
  m ≫= k = Ok b ↔ ∃ a, m = Ok a ∧ k a = Ok b.
Proof. destruct m; naive_solver. Qed.
Lemma throw_if_ok b e u : throw_if b e = Ok u ↔ b = false.
Proof. destruct b, u; naive_solver. Qed.

(** The loop rules: an invariant indexed by the elements already visited. *)
Lemma foldM_inv {S B} (f : B → S → res S) (I : list B → S → Prop) l s :
  I [] s →
  (∀ pre b post s, l = pre ++ b :: post → I pre s →
     returns (f b s) (I (pre ++ [b]))) →
  returns (foldM f l s) (I l).
Proof.
  intros H0 Hstep.
  cut (∀ post pre s, l = pre ++ post → I pre s → returns (foldM f post s) (I l)).
  { intros Hc. by apply (Hc l []). }
  induction post as [|b post IH]; intros pre s' -> Hpre; simpl.
  - rewrite app_nil_r in *. by apply returns_ok.
  - eapply returns_bind; [by eapply Hstep|].
    intros a Ha. apply (IH (pre ++ [b])); [|done].
    by rewrite <-app_assoc.
Qed.

Lemma for_u_inv {S} lo hi (f : nat → S → res S) (I : nat → S → Prop) s :
  lo ≤ hi → I lo s →
  (∀ i s, lo ≤ i < hi → I i s → returns (f i s) (I (i + 1))) →
  returns (for_u lo hi f s) (I hi).
Proof.
  intros Hle H0 Hstep. unfold for_u.
  eapply returns_mono.
  - apply (foldM_inv _ (λ pre s, I (lo + length pre) s)).
    { simpl. by rewrite Nat.add_0_r. }
    intros pre b post s' Hl Hpre.
    assert (seq lo (hi - lo) !! length pre = Some b) as Hb.
    { rewrite Hl. by rewrite list_lookup_middle. }
    apply lookup_seq in Hb as [-> Hlt].
    rewrite length_app. simpl. rewrite Nat.add_assoc.
    apply Hstep; [lia|done].
  - intros a. rewrite length_seq. by replace (lo + (hi - lo)) with hi by lia.
Qed.

(** A loop that writes one element per step fills the vector. *)
Lemma fill_loop {A} (l : list A) z (step : nat → list A → res (list A)) :
  (∀ i x out, l !! i = Some x → step i out = vset out i x) →
  for_u 0 (length l) step (replicate (length l) z) = Ok l.
Proof.
  intros Hstep.
  destruct (for_u_inv 0 (length l) step
    (λ j out, out = take j l ++ replicate (length l - j) z) (replicate (length l) z)) as (out&->&->).
  - lia.
  - by rewrite Nat.sub_0_r.
  - intros j out Hj ->. destruct (lookup_lt_is_Some_2 l j) as [x Hx]; [lia|].
    rewrite (Hstep j x _ Hx).
    apply returns_vset; [rewrite length_app, length_take, length_replicate; lia|].
    replace (length l - j) with (S (length l - (j + 1))) by lia.
    rewrite insert_app_r_alt, length_take by (rewrite length_take; lia).
    replace (j - j `min` length l) with 0 by lia. cbn [replicate insert list_insert].
    by rewrite Nat.add_1_r, (take_S_r _ _ x), <-app_assoc by done.
  - by rewrite Nat.sub_diag, firstn_all, app_nil_r.
Qed.

(** Partial correctness: an invariant of every step that returns. *)
Lemma foldM_preserve {S B} (f : B → S → res S) (I : S → Prop) l s s' :
  (∀ b s s', b ∈ l → I s → f b s = Ok s' → I s') → I s → foldM f l s = Ok s' → I s'.
Proof.
  revert s. induction l as [|b l IH]; intros s Hstep HI Hf; simpl in Hf; [congruence|].
  destruct (f b s) as [s1| |] eqn:E; try done. apply (IH s1); [| |done].
  - intros b' ? ? ?. apply Hstep. by right.
  - apply (Hstep b s); [by left|done|done].
Qed.

Lemma foldM_app {S B} (f : B → S → res S) l1 l2 s :
  foldM f (l1 ++ l2) s = (s' ← foldM f l1 s; foldM f l2 s').
Proof.
  revert s. induction l1 as [|b l1 IH]; intros s; simpl; [done|].
  destruct (f b s); simpl; auto.
Qed.

Lemma foldM_ext {S B} (f g : B → S → res S) l s :
  (∀ b s, b ∈ l → f b s = g b s) → foldM f l s = foldM g l s.
Proof.
  revert s. induction l as [|b l IH]; intros s H; simpl; [done|].
  rewrite H by set_solver. destruct (g b s); simpl; auto.
  apply IH. set_solver.
Qed.

Lemma foldM_map {S B C} (f : C → S → res S) (h : B → C) l s :
  foldM f (h <$> l) s = foldM (λ b, f (h b)) l s.
Proof.
  revert s. induction l as [|b l IH]; intros s; simpl; [done|].
  destruct (f (h b) s); simpl; auto.
Qed.

Lemma foldM_pure {S B} (f : B → S → res S) (g : S → B → S) l s :
  (∀ b s, b ∈ l → f b s = Ok (g s b)) → foldM f l s = Ok (foldl g s l).
Proof.
  revert s. induction l as [|b l IH]; intros s H; simpl; [done|].
  rewrite H by set_solver. simpl. apply IH. set_solver.
Qed.

(** A guard loop [for (x : l) if (bad x) throw e;] passes iff no element is
    bad. *)
Lemma foldM_guard {B} (bad : B → bool) e l :
  foldM (λ b _, throw_if (bad b) e) l tt =
    if existsb bad l then Throw e else Ok tt.
Proof.
  induction l as [|b l IH]; simpl; [done|].
  destruct (bad b); simpl; auto.
Qed.

(** [res_step] runs one monadic step of a goal [returns m Q]. *)
Ltac res_step :=
  lazymatch goal with
  | |- returns (vget _ _ ≫= _) _ => eapply returns_vget_bind
  | |- returns (vset _ _ _ ≫= _) _ => eapply returns_vset_bind
  | |- returns (throw_if _ _ ≫= _) _ => apply returns_guard
  | |- returns (_ ≫= _) _ => eapply returns_bind
  | |- returns (mret _) _ => apply returns_ret
  | |- returns (Ok _) _ => apply returns_ok
  | |- returns (vget _ _) _ => eapply returns_vget
  | |- returns (vset _ _ _) _ => eapply returns_vset
  | |- returns (for_u _ _ _ _) _ => eapply for_u_inv
  end.

(** [res_inv H] inverts [m ≫= k = Ok b] as far as it goes. *)
Ltac res_inv H :=
  repeat match type of H with
  | _ ≫= _ = Ok _ =>
      let a := fresh "x" in let Ha := fresh "E" in
      apply bind_ok in H as (a & Ha & H)
  | Ok _ = Ok _ => injection H as H
  end.

Create HintDb qec.
#[export] Hint Resolve returns_ok returns_ret : qec.

(** ** Functions that check their arguments

    [decides m P a]: [m] returns [a] exactly when [P] holds and otherwise
    throws [std::invalid_argument]; it never runs into undefined behaviour. *)

Definition rejects {A} (m : res A) : Prop := ∃ msg, m = Throw (InvalidArgument msg).

Definition decides {A} (m : res A) (P : Prop) (a : A) : Prop :=
  (P ∧ m = Ok a) ∨ (¬ P ∧ rejects m).

Lemma decides_ok {A} (a : A) : decides (Ok a) True a.
Proof. by left. Qed.
Lemma decides_iff {A} (m : res A) P Q a : decides m P a → (P ↔ Q) → decides m Q a.
Proof. unfold decides. intros H HPQ. by rewrite <-HPQ. Qed.
Lemma decides_bind {A B} (m : res A) (k : A → res B) P Q a b :
  decides m P a → (P → decides (k a) Q b) → decides (m ≫= k) (P ∧ Q) b.
Proof.
  intros [[HP ->]|[HP [msg ->]]] Hk; simpl.
  - destruct (Hk HP) as [[HQ ->]|[HQ Hr]]; [by left|]. right. naive_solver.
  - right. split; [naive_solver|]. by exists msg.
Qed.
Lemma decides_throw_if b msg : decides (throw_if b (InvalidArgument msg)) (b = false) tt.
Proof. destruct b; [right|by left]. split; [done|]. by exists msg. Qed.
Lemma decides_foldM {B} (f : B → unit → res unit) (P : B → Prop) l :
  (∀ b, b ∈ l → decides (f b tt) (P b) tt) →
  decides (foldM f l tt) (∀ b, b ∈ l → P b) tt.
Proof.
  induction l as [|b l IH]; intros H; simpl; [left; set_solver|].
  eapply decides_iff; [eapply decides_bind with (P := P b)|].
  - apply H. set_solver.
  - intros _. apply IH. intros b' ?. apply H. set_solver.
  - set_solver.
Qed.
Lemma decides_for_u lo hi (f : nat → unit → res unit) (P : nat → Prop) :
  (∀ i, lo ≤ i < hi → decides (f i tt) (P i) tt) →
  decides (for_u lo hi f tt) (∀ i, lo ≤ i < hi → P i) tt.
Proof.
  intros H. eapply decides_iff; [apply decides_foldM with (P := P)|].
  - intros i Hi%elem_of_seq. apply H. lia.
  - split; intros Hall i Hi; apply Hall; [apply elem_of_seq|apply elem_of_seq in Hi]; lia.
Qed.
Lemma decides_returns {A} (m : res A) P a : decides m P a → P → m = Ok a.
Proof. intros [[_ ?]|[? _]]; done. Qed.
Lemma decides_defined {A} (m : res A) P a : decides m P a → m ≠ Undef.
Proof. intros [[_ ->]|[_ [? ->]]]; done. Qed.
(** The same with a state that does not depend on the checks. *)
Lemma decides_foldM_state {S B} (f : B → S → res S) (P : B → Prop) (st : list B → S) l :
  (∀ pre b post, l = pre ++ b :: post → decides (f b (st pre)) (P b) (st (pre ++ [b]))) →
  decides (foldM f l (st [])) (∀ b, b ∈ l → P b) (st l).
Proof.
  intros H.
  cut (∀ post pre, l = pre ++ post →
         decides (foldM f post (st pre)) (∀ b, b ∈ post → P b) (st l)).
  { intros Hc. by apply (Hc l []). }
  induction post as [|b post IH]; intros pre Hl; simpl.
  - rewrite app_nil_r in Hl. subst. left. set_solver.
  - eapply decides_iff; [eapply decides_bind; [by apply (H pre b post)|]|].
    + intros _. apply IH. by rewrite <-app_assoc.
    + set_solver.
Qed.
Lemma decides_for_u_state {S} n (f : nat → S → res S) (P : nat → Prop) (st : nat → S) :
  (∀ i, i < n → decides (f i (st i)) (P i) (st (i + 1))) →
  decides (for_u 0 n f (st 0)) (∀ i, i < n → P i) (st n).
Proof.
  intros H. unfold for_u. rewrite Nat.sub_0_r.
  pose proof (decides_foldM_state f P (λ l, st (length l)) (seq 0 n)) as Hd.
  cbv beta in Hd. rewrite length_seq in Hd. cbn [length] in Hd. eapply decides_iff; [apply Hd|].
  - intros pre b post Hl. rewrite length_app. cbn [length].
    assert (seq 0 n !! length pre = Some b) as Hb by (rewrite Hl; by rewrite list_lookup_middle).
    apply lookup_seq in Hb as [-> Hlt]. by apply H.
  - split; intros Hall i Hi; apply Hall; [apply elem_of_seq|apply elem_of_seq in Hi]; lia.
Qed.

(** ** Lists *)

Lemma filter_ext_in {A} (P Q : A → Prop) `{∀ x, Decision (P x), ∀ x, Decision (Q x)} (l : list A) :
  (∀ x, x ∈ l → P x ↔ Q x) → filter P l = filter Q l.
Proof.
  induction l as [|x l IH]; intros HPQ; [done|]. rewrite !filter_cons, IH by set_solver.
  assert (P x ↔ Q x) by (apply HPQ; set_solver). repeat case_decide; tauto.
Qed.
