(* ===== verification/Ordering.v ===== *)
(** * Sorting with a comparator

    [std::sort] is modelled by a merge sort with the caller's comparator.  If
    the comparator is a strict total order on the elements of the range, every
    correct sort returns the same list; this file proves that, and gives the
    lexicographic order used by the column comparator. *)

From S2P Require Import Prelude.

(** [!(comp(b, a))]: the relation a sort establishes between neighbours. *)
Definition not_after {A} (less : A → A → res bool) (a b : A) : Prop := less b a ≠ Ok true.

#[global] Instance not_after_dec {A} (less : A → A → res bool) a b : Decision (not_after less a b).
Proof. unfold not_after. apply _. Defined.

Definition std_sort {A} (less : A → A → res bool) (l : list A) : list A :=
  merge_sort (not_after less) l.

(** ** Merge sort depends on the order of the sorted elements only *)
Section ext.
Context {A} (R R' : relation A) `{∀ x y, Decision (R x y), ∀ x y, Decision (R' x y)}.
Context (P : A → Prop).
Hypothesis agree : ∀ x y, P x → P y → R x y ↔ R' x y.

Lemma list_merge_ext l1 l2 :
  Forall P l1 → Forall P l2 →
  list_merge R l1 l2 = list_merge R' l1 l2 ∧ Forall P (list_merge R l1 l2).
Proof using agree.
  intros H1. revert l2. induction H1 as [|x l1 Hx H1 IH1]; intros l2 H2; [by rewrite !list_merge_nil_l|].
  induction H2 as [|y l2 Hy H2 IH2]; [by split; [|constructor]|].
  rewrite !list_merge_cons.
  destruct (decide (R x y)) as [HR|HR], (decide (R' x y)) as [HR'|HR'].
  - destruct (IH1 (y :: l2)) as [-> ?]; [by constructor|]. by split; [|constructor].
  - by apply agree in HR.
  - by apply agree in HR'.
  - destruct IH2 as [-> ?]. by split; [|constructor].
Qed.

Abbreviation stack_ok := (Forall (λ o : option (list A), ∀ l, o = Some l → Forall P l)).

Lemma merge_list_to_stack_ext st l :
  stack_ok st → Forall P l →
  merge_list_to_stack R st l = merge_list_to_stack R' st l ∧ stack_ok (merge_list_to_stack R st l).
Proof using agree.
  intros Hst. revert l. induction Hst as [|o st Ho Hst IH]; intros l Hl; simpl.
  - split; [done|]. repeat constructor. naive_solver.
  - destruct o as [l'|].
    + destruct (list_merge_ext l' l) as [E HP]; [by apply Ho|done|].
      destruct (IH (list_merge R l' l) HP) as [E' ?]. rewrite E', E.
      split; [done|]. constructor; [done|]. by rewrite <-E, <-E'.
    + split; [done|]. constructor; [naive_solver|done].
Qed.

Lemma merge_stack_ext st :
  stack_ok st → merge_stack R st = merge_stack R' st ∧ Forall P (merge_stack R st).
Proof using agree.
  induction 1 as [|o st Ho Hst [IH1 IH2]]; simpl; [done|]. destruct o as [l|]; [|done].
  rewrite <-IH1. apply list_merge_ext; [by apply Ho|done].
Qed.

Lemma merge_sort_ext l : Forall P l → merge_sort R l = merge_sort R' l.
Proof using agree.
  intros Hl. unfold merge_sort. assert (stack_ok ([] : list (option (list A)))) as Hst by constructor.
  revert Hst. generalize ([] : list (option (list A))). induction Hl as [|x l Hx Hl IH]; intros st Hst; simpl.
  - by apply merge_stack_ext.
  - destruct (merge_list_to_stack_ext st [x]) as [E ?]; [done|by constructor|]. rewrite <-E. by apply IH.
Qed.
End ext.

(** ** Strict total orders *)

Record strict_total {A} (less : A → A → bool) (P : A → Prop) : Prop := {
  less_irrefl x : P x → less x x = false;
  less_trans x y z : P x → P y → P z → less x y = true → less y z = true → less x z = true;
  less_total x y : P x → P y → x ≠ y → less x y = true ∨ less y x = true
}.

Section sort.
Context {A} `{EqDecision A} (less : A → A → res bool) (lt : A → A → bool) (l : list A).
Hypothesis less_ok : ∀ x y, x ∈ l → y ∈ l → less x y = Ok (lt x y).
Hypothesis order : strict_total lt (.∈ l).

(** A total preorder on the whole type that agrees with the comparator on
    the range. *)
Definition le_on (x y : A) : Prop := x ∉ l ∨ (x ∈ l ∧ y ∈ l ∧ lt y x = false).

#[local] Instance le_on_dec x y : Decision (le_on x y).
Proof. unfold le_on. apply _. Defined.

#[local] Instance le_on_total : Total le_on.
Proof using order EqDecision0.
  intros x y. unfold le_on. destruct (decide (x ∈ l)), (decide (y ∈ l)); [|tauto..].
  destruct (lt y x) eqn:E1, (lt x y) eqn:E2; [|tauto..].
  pose proof (less_trans _ _ order x y x) as Ht. pose proof (less_irrefl _ _ order x) as Hi.
  rewrite Hi in Ht by done. exfalso. cut (false = true); [done|]. auto.
Qed.

#[local] Instance le_on_trans : Transitive le_on.
Proof using order EqDecision0.
  intros x y z [?|(Hx&Hy&Hxy)] Hyz; [by left|]. destruct Hyz as [?|(_&Hz&Hyz)]; [done|].
  right. split_and!; [done..|]. destruct (lt z x) eqn:E; [|done].
  destruct (decide (y = x)) as [->|Hne]; [congruence|].
  destruct (less_total _ _ order y x Hy Hx Hne) as [?|Hlt]; [congruence|].
  pose proof (less_trans _ _ order z x y). destruct (lt z y) eqn:E'; [done|]. naive_solver.
Qed.

Lemma std_sort_le : std_sort less l = merge_sort le_on l.
Proof using less_ok EqDecision0.
  unfold std_sort. apply (merge_sort_ext _ _ (.∈ l)).
  - intros x y Hx Hy. unfold not_after, le_on. rewrite less_ok by done.
    destruct (lt y x); naive_solver.
  - by apply Forall_forall.
Qed.

Lemma std_sort_perm : std_sort less l ≡ₚ l.
Proof using Type. apply merge_sort_Permutation. Qed.

Lemma strict_of_le m :
  NoDup m → m ⊆ l → StronglySorted le_on m → StronglySorted (λ x y, lt x y = true) m.
Proof using order less_ok EqDecision0.
  intros Hnd Hsub Hs. induction Hs as [|x m Hs IH Hall]; constructor; apply NoDup_cons in Hnd as [Hx Hnd].
  - apply IH; set_solver.
  - rewrite Forall_forall in *. intros y Hy. destruct (Hall y Hy) as [Hn|(_&_&Hle)]; [set_solver|].
    destruct (less_total _ _ order x y) as [?|?]; [set_solver..|done|]. congruence.
Qed.

(** The result is strictly increasing when the range has no repetition. *)
Lemma std_sort_sorted : NoDup l → StronglySorted (λ x y, lt x y = true) (std_sort less l).
Proof using order less_ok EqDecision0.
  intros Hnd. apply strict_of_le.
  - by rewrite std_sort_perm.
  - intros x. by rewrite std_sort_perm.
  - rewrite std_sort_le. apply StronglySorted_merge_sort; apply _.
Qed.

(** ... and it is the only strictly increasing permutation of the range. *)
Lemma std_sort_unique m :
  NoDup l → m ≡ₚ l → StronglySorted (λ x y, lt x y = true) m → m = std_sort less l.
Proof using order less_ok EqDecision0.
  intros Hnd Hm Hs. eapply (StronglySorted_unique_strong (λ x y, lt x y = true)).
  - intros x y Hx Hy Hxy Hyx. rewrite Hm in Hx. rewrite std_sort_perm in Hy.
    pose proof (less_trans _ _ order x y x Hx Hy Hx Hxy Hyx) as H.
    by rewrite (less_irrefl _ _ order x) in H.
  - done.
  - by apply std_sort_sorted.
  - by rewrite Hm, std_sort_perm.
Qed.
End sort.

(** ** Lexicographic comparison *)

Fixpoint lex (l1 l2 : list nat) : comparison :=
  match l1, l2 with
  | [], [] => Eq
  | [], _ => Lt
  | _, [] => Gt
  | x :: l1, y :: l2 => match Nat.compare x y with Eq => lex l1 l2 | c => c end
  end.

(** Ties are broken by the index. *)
Definition tie (c : comparison) (a b : nat) : bool :=
  match c with Lt => true | Gt => false | Eq => a <? b end.

Lemma lex_cons x y l1 l2 :
  lex (x :: l1) (y :: l2) = if x =? y then lex l1 l2 else if x <? y then Lt else Gt.
Proof.
  simpl. destruct (Nat.compare_spec x y) as [->|H|H].
  - by rewrite Nat.eqb_refl.
  - rewrite (proj2 (Nat.eqb_neq x y)), (proj2 (Nat.ltb_lt x y)) by lia. done.
  - rewrite (proj2 (Nat.eqb_neq x y)), (proj2 (Nat.ltb_ge x y)) by lia. done.
Qed.

Lemma tie_ltb (x y a b : nat) : tie (if x <? y then Lt else Gt) a b = (x <? y).
Proof. by destruct (x <? y). Qed.

Lemma lex_refl l : lex l l = Eq.
Proof. induction l as [|x l IH]; [done|]. simpl. by rewrite Nat.compare_refl. Qed.

Lemma lex_eq l1 l2 : lex l1 l2 = Eq → l1 = l2.
Proof.
  revert l2. induction l1 as [|x l1 IH]; intros [|y l2]; try done.
  rewrite lex_cons. destruct (Nat.eqb_spec x y) as [->|]; [|by destruct (x <? y)].
  intros H. f_equal. by apply IH.
Qed.

Lemma lex_opp l1 l2 : lex l2 l1 = CompOpp (lex l1 l2).
Proof.
  revert l2. induction l1 as [|x l1 IH]; intros [|y l2]; try done.
  simpl. rewrite Nat.compare_antisym. destruct (Nat.compare x y); simpl; auto.
Qed.

Lemma lex_trans l1 l2 l3 : lex l1 l2 = Lt → lex l2 l3 = Lt → lex l1 l3 = Lt.
Proof.
  revert l2 l3. induction l1 as [|x l1 IH]; intros [|y l2] [|z l3]; try done.
  rewrite !lex_cons.
  destruct (Nat.eqb_spec x y), (Nat.eqb_spec y z), (Nat.eqb_spec x z),
    (Nat.ltb_spec x y), (Nat.ltb_spec y z), (Nat.ltb_spec x z); subst; try done; try lia.
  apply IH.
Qed.

(** Indices ordered by a key and then by themselves. *)
Lemma tie_strict_total (key : nat → list nat) (P : nat → Prop) :
  strict_total (λ a b, tie (lex (key a) (key b)) a b) P.
Proof.
  split.
  - intros x _. rewrite lex_refl. simpl. apply Nat.ltb_irrefl.
  - intros x y z _ _ _ Hxy Hyz. unfold tie in *.
    destruct (lex (key x) (key y)) eqn:E1; [|clear Hxy|done];
      (destruct (lex (key y) (key z)) eqn:E2; [|clear Hyz|done]).
    + apply lex_eq in E1, E2. rewrite E1, E2, lex_refl.
      rewrite Nat.ltb_lt in *. lia.
    + apply lex_eq in E1. by rewrite E1, E2.
    + apply lex_eq in E2. by rewrite <-E2, E1.
    + by rewrite (lex_trans _ _ _ E1 E2).
  - intros x y _ _ Hne. unfold tie. rewrite (lex_opp (key x) (key y)).
    destruct (lex (key x) (key y)); simpl; rewrite ?Nat.ltb_lt; [lia|by left|by right].
Qed.

(** * Counting-sort compression of a list of keyed entries

    [sparse_binary_matrix] converts between layouts, and the Stim projection
    builds its observable rows, by the same three loops: count the entries of
    each key, take the prefix sums, then write every value at the next free
    slot of its key.  This file holds those loops and proves what they
    compute; [SparseMatrix] and [DetectorErrorModel] use them. *)

(** An entry is a (key, value) pair. *)
Abbreviation entry := (nat * nat)%type.

Definition slice {A} (l : list A) (lo hi : nat) : list A := take (hi - lo) (drop lo l).

(** The values of key [k], in order of appearance. *)
Definition keyed (k : nat) (E : list entry) : list nat :=
  snd <$> filter (λ e, e.1 = k) E.

(** The number of entries with a key below [k]. *)
Definition below (k : nat) (E : list entry) : nat :=
  length (filter (λ e, e.1 < k) E).

(** ** The loops *)

Definition count_step (k : nat) (cnt : list nat) : res (list nat) :=
  x ← vget cnt k;
  vset cnt k (u32 (x + 1)).

Definition prefix_sums (n : nat) (cnt : list nat) : res (list nat) :=
  for_u 0 n (λ j ptr,
    a ← vget ptr j;
    c ← vget cnt j;
    vset ptr (j + 1) (u32 (a + c))) (replicate (n + 1) 0).

Definition scatter_step (ptr : list nat) (e : entry)
    (st : list nat * list nat) : res (list nat * list nat) :=
  let '(out, cnt) := st in
  p ← vget ptr e.1;
  x ← vget cnt e.1;
  out' ← vset out (u32 (p + x)) e.2;
  cnt' ← vset cnt e.1 (u32 (x + 1));
  Ok (out', cnt').

(** ** Slices, keyed values and prefix counts *)

Lemma lookup_slice {A} (l : list A) lo hi i :
  i < hi - lo → slice l lo hi !! i = l !! (lo + i).
Proof. intros. unfold slice. rewrite lookup_take_lt by lia. by rewrite lookup_drop. Qed.

Lemma length_slice {A} (l : list A) lo hi :
  hi ≤ length l → length (slice l lo hi) = hi - lo.
Proof. intros. unfold slice. rewrite length_take, length_drop. lia. Qed.

Lemma slice_eq {A} (l m : list A) lo hi :
  hi ≤ length l → length m = hi - lo →
  (∀ i x, m !! i = Some x → l !! (lo + i) = Some x) → slice l lo hi = m.
Proof.
  intros Hhi Hm H. apply list_eq_same_length with (hi - lo);
    [done|by rewrite length_slice|].
  intros i x y Hi Hx Hy. rewrite lookup_slice in Hx by lia.
  apply H in Hy. congruence.
Qed.

Lemma keyed_app k E1 E2 : keyed k (E1 ++ E2) = keyed k E1 ++ keyed k E2.
Proof. unfold keyed. by rewrite list.filter_app, fmap_app. Qed.

Lemma keyed_single k e : keyed k [e] = if decide (e.1 = k) then [e.2] else [].
Proof. unfold keyed. rewrite filter_cons, filter_nil. by case_decide. Qed.

Lemma below_app k E1 E2 : below k (E1 ++ E2) = below k E1 + below k E2.
Proof. unfold below. by rewrite list.filter_app, length_app. Qed.

Lemma below_cons k e E : below k (e :: E) = (if decide (e.1 < k) then 1 else 0) + below k E.
Proof. unfold below. rewrite filter_cons. by case_decide. Qed.

Lemma below_0 E : below 0 E = 0.
Proof. induction E as [|e E IH]; [done|]. rewrite below_cons, IH. case_decide; lia. Qed.

Lemma below_S k E : below (k + 1) E = below k E + length (keyed k E).
Proof.
  induction E as [|e E IH]; [done|].
  change (e :: E) with ([e] ++ E) at 3.
  rewrite !below_cons, keyed_app, keyed_single, length_app, IH.
  repeat case_decide; simpl; lia.
Qed.

Lemma below_mono j k E : j ≤ k → below j E ≤ below k E.
Proof.
  induction 1 as [|k ? IH]; [done|].
  rewrite <-Nat.add_1_r, below_S. lia.
Qed.

Lemma below_all n E : Forall (λ e, e.1 < n) E → below n E = length E.
Proof.
  induction 1 as [|e E He _ IH]; [done|].
  rewrite below_cons, decide_True, IH; done.
Qed.

Lemma length_keyed_le k E : length (keyed k E) ≤ length E.
Proof. unfold keyed. rewrite length_fmap. apply length_filter. Qed.

Lemma elem_of_keyed k v E : v ∈ keyed k E ↔ (k, v) ∈ E.
Proof.
  unfold keyed. rewrite list_elem_of_fmap. split.
  - intros ([k' v']&->&H). apply list_elem_of_filter in H as [<- ?]. done.
  - intros. exists (k, v). split; [done|]. by apply list_elem_of_filter.
Qed.

(** ** What the loops compute *)

Definition counts (n : nat) (E : list entry) : list nat :=
  (λ k, length (keyed k E)) <$> seq 0 n.

Lemma lookup_counts n E k :
  k < n → counts n E !! k = Some (length (keyed k E)).
Proof. intros. unfold counts. rewrite list_lookup_fmap, lookup_seq_lt; done. Qed.

Lemma length_counts n E : length (counts n E) = n.
Proof. unfold counts. by rewrite length_fmap, length_seq. Qed.

Lemma counts_nil n : counts n [] = replicate n 0.
Proof.
  apply list_eq_same_length with n;
    [by rewrite length_replicate|by rewrite length_counts|].
  intros i x y Hi Hx Hy. rewrite lookup_counts in Hx by done.
  apply lookup_replicate in Hy as [-> _]. by injection Hx.
Qed.

Lemma counts_snoc n E e :
  e.1 < n → counts n (E ++ [e]) = <[e.1 := length (keyed e.1 E) + 1]> (counts n E).
Proof.
  intros He. apply list_eq_same_length with n;
    [by rewrite length_insert, length_counts|by rewrite length_counts|].
  intros i x y Hi Hx Hy. rewrite lookup_counts in Hx by done.
  rewrite keyed_app, keyed_single, length_app in Hx.
  destruct (decide (e.1 = i)) as [<-|Hne]; simpl in *.
  - rewrite list_lookup_insert_eq in Hy by (by rewrite length_counts). congruence.
  - rewrite list_lookup_insert_ne, lookup_counts in Hy by done.
    rewrite Nat.add_0_r in Hx. congruence.
Qed.

Lemma split_entry n E pre e post :
  Forall (λ e : entry, e.1 < n) E → E = pre ++ e :: post → e.1 < n ∧ length pre < length E.
Proof.
  intros Hk ->. split.
  - by apply Forall_app in Hk as [_ [? _]%Forall_cons_1].
  - rewrite length_app. simpl. lia.
Qed.

(** Counting does not wrap as long as no single key overflows. *)
Lemma count_loop n E :
  Forall (λ e : entry, e.1 < n) E →
  (∀ k, k < n → (Z.of_nat (length (keyed k E)) < 2 ^ 32)%Z) →
  foldM (λ e, count_step e.1) E (replicate n 0) = Ok (counts n E).
Proof.
  intros Hk Hz.
  destruct (foldM_inv (λ e, count_step e.1) (λ pre s, s = counts n pre)
              E (replicate n 0)) as (s&->&->); [by rewrite counts_nil| |done].
  intros pre e post s Hl ->.
  destruct (split_entry _ _ _ _ _ Hk Hl) as [He _].
  unfold count_step. res_step; [by apply lookup_counts|]. rewrite wrap_small.
  - res_step; [by rewrite length_counts|]. by rewrite counts_snoc.
  - specialize (Hz e.1 He). rewrite Hl in Hz. change (e :: post) with ([e] ++ post) in Hz.
    rewrite !keyed_app, keyed_single, decide_True, !length_app in Hz by done.
    cbn [length] in Hz. lia.
Qed.

Section compress.
Context (n : nat) (E : list entry).
Hypothesis keys_ok : Forall (λ e, e.1 < n) E.
Hypothesis size_ok : (Z.of_nat (length E) < 2 ^ 32)%Z.

Lemma keyed_fits k : k < n → (Z.of_nat (length (keyed k E)) < 2 ^ 32)%Z.
Proof using size_ok. pose proof (length_keyed_le k E). lia. Qed.

Lemma prefix_loop :
  prefix_sums n (counts n E) = Ok ((λ k, below k E) <$> seq 0 (n + 1)).
Proof.
  unfold prefix_sums.
  destruct (for_u_inv 0 n (λ j ptr, a ← vget ptr j; c ← vget (counts n E) j;
              vset ptr (j + 1) (u32 (a + c)))
     (λ j ptr, length ptr = n + 1 ∧ ∀ i, i ≤ j → ptr !! i = Some (below i E))
     (replicate (n + 1) 0)) as (ptr&->&Hlen&Hptr).
  - lia.
  - rewrite length_replicate. split; [done|]. intros i Hi.
    assert (i = 0) as -> by lia. rewrite below_0, lookup_replicate. split; [done|lia].
  - intros j ptr Hj [Hlen Hptr].
    res_step; [by apply (Hptr j)|].
    res_step; [apply lookup_counts; lia|]. rewrite <-below_S.
    assert (below (j + 1) E ≤ length E) by (unfold below; apply length_filter).
    rewrite wrap_small by lia.
    res_step; [lia|]. rewrite length_insert. split; [done|]. intros i Hi.
    destruct (decide (i = j + 1)) as [->|].
    + rewrite list_lookup_insert_eq by lia. done.
    + rewrite list_lookup_insert_ne by done. apply Hptr. lia.
  - f_equal. apply list_eq_same_length with (n + 1);
      [by rewrite length_fmap, length_seq|done|].
    intros i x y Hi Hx Hy. rewrite Hptr in Hx by lia.
    rewrite list_lookup_fmap, lookup_seq_lt in Hy by lia. simpl in *. congruence.
Qed.

Definition offsets : list nat := (λ k, below k E) <$> seq 0 (n + 1).

Lemma lookup_offsets k : k ≤ n → offsets !! k = Some (below k E).
Proof. intros. unfold offsets. rewrite list_lookup_fmap, lookup_seq_lt by lia. done. Qed.

(** Slots of different (key, rank) pairs are different. *)
Lemma slots_disjoint k x k' x' :
  x < length (keyed k E) → x' < length (keyed k' E) →
  below k E + x = below k' E + x' → k = k' ∧ x = x'.
Proof.
  intros Hx Hx' Heq.
  destruct (lt_eq_lt_dec k k') as [[H|<-]|H].
  - pose proof (below_mono (k + 1) k' E) as Hm. rewrite below_S in Hm. lia.
  - split; [done|lia].
  - pose proof (below_mono (k' + 1) k E) as Hm. rewrite below_S in Hm. lia.
Qed.

Lemma slot_bound k x : k < n → x < length (keyed k E) → below k E + x < length E.
Proof.
  intros. pose proof (below_mono (k + 1) n E) as Hm.
  rewrite below_S, (below_all n) in Hm by done. lia.
Qed.

Definition placed (pre : list entry) (out : list nat) : Prop :=
  length out = length E ∧
  ∀ k x v, k < n → keyed k pre !! x = Some v → out !! (below k E + x) = Some v.

Lemma placed_step pre e post out :
  E = pre ++ e :: post → placed pre out →
  below e.1 E + length (keyed e.1 pre) < length E ∧
  placed (pre ++ [e]) (<[below e.1 E + length (keyed e.1 pre) := e.2]> out).
Proof.
  intros HE [Hlen Hout].
  destruct (split_entry _ _ _ _ _ keys_ok HE) as [He _].
  assert (∀ k, length (keyed k (pre ++ [e])) ≤ length (keyed k E)) as Hle.
  { intros k. rewrite HE. change (e :: post) with ([e] ++ post).
    rewrite app_assoc, (keyed_app k _ post), (length_app _ (keyed k post)). lia. }
  pose proof (Hle e.1) as Hlt.
  rewrite keyed_app, keyed_single, decide_True, length_app in Hlt by done.
  simpl in Hlt. split; [apply slot_bound; lia|].
  split; [by rewrite length_insert|]. intros k x v Hk Hv.
  rewrite keyed_app, keyed_single in Hv.
  destruct (decide (k = e.1 ∧ x = length (keyed e.1 pre))) as [[-> ->]|Hne].
  - rewrite list_lookup_insert_eq by (rewrite Hlen; apply slot_bound; lia).
    rewrite decide_True, lookup_app_r, Nat.sub_diag in Hv by done. done.
  - assert (keyed k pre !! x = Some v) as Hpre.
    { apply lookup_app_Some in Hv as [?|[Hge Hv]]; [done|].
      case_decide as Hd; [|done].
      apply list_lookup_singleton_Some in Hv as [? _]. subst. lia. }
    rewrite list_lookup_insert_ne; [by apply Hout|].
    intros Heq. apply slots_disjoint in Heq; [naive_solver|lia|].
    apply lookup_lt_Some in Hpre. pose proof (Hle k) as Hk'.
    rewrite keyed_app, length_app in Hk'. lia.
Qed.

(** The compressed output: the slice between two consecutive offsets holds
    exactly the values of that key, in order of appearance. *)
Lemma scatter_loop :
  returns (foldM (scatter_step offsets) E (replicate (length E) 0, replicate n 0))
    (λ st, length st.1 = length E ∧
       ∀ k, k < n → slice st.1 (below k E) (below (k + 1) E) = keyed k E).
Proof.
  eapply returns_mono.
  - apply (foldM_inv _ (λ pre st, placed pre st.1 ∧ st.2 = counts n pre)).
    + split; [|by rewrite counts_nil]. split; [apply length_replicate|]. done.
    + intros pre e post [out cnt] HE [Hp Hc]. simpl in Hp, Hc. subst cnt.
      destruct (placed_step pre e post out HE Hp) as [Hlt Hp'].
      destruct (split_entry _ _ _ _ _ keys_ok HE) as [He Hpre].
      cbv beta iota delta [scatter_step].
      res_step; [apply lookup_offsets; lia|].
      res_step; [by apply lookup_counts|].
      rewrite (wrap_small 32 (below e.1 E + _)) by lia.
      res_step; [destruct Hp as [-> _]; lia|].
      pose proof (length_keyed_le e.1 pre).
      rewrite (wrap_small 32 (length (keyed e.1 pre) + 1)) by lia.
      res_step; [rewrite length_counts; lia|]. res_step. simpl. split; [done|]. by rewrite counts_snoc.
  - intros [out cnt] [[Hlen Hp] _]. simpl in *. split; [done|]. intros k Hk.
    apply slice_eq.
    + pose proof (below_mono (k + 1) n E) as Hm. rewrite (below_all n) in Hm by done. lia.
    + rewrite below_S. lia.
    + intros i x Hx. by apply Hp.
Qed.
End compress.
