(* ===== verification/Tensor.v ===== *)
(** * Dense tensors of bytes

    Model of [cudaqx::tensor<uint8_t>] (libs/core/include/cuda-qx/core/tensor.h)
    over its xtensor back end (libs/core/lib/tensor_impls/xtensor_impl.cpp): a
    shape and the row-major element buffer behind [data()].  [at] checks its
    indices; the pointer walks [&t.at({r, 0})\[c\]] of the PCM code are reads of
    the buffer.  The axis swap itself is done by the xtensor library: it is the
    class [XtTranspose], with the element-wise law the library documents. *)

From S2P Require Import Prelude.

Record tensor := mk_tensor { t_shape : list nat; t_data : list nat }.

#[global] Instance tensor_eq_dec : EqDecision tensor.
Proof. solve_decision. Defined.

Definition rank (t : tensor) : nat := length (t_shape t).

Definition shape_size (shape : list nat) : nat := foldl Nat.mul 1 shape.

Definition size (t : tensor) : nat :=
  if decide (rank t = 0) then 0 else shape_size (t_shape t).

(** [tensor(shape)]: a value-initialised buffer; an empty shape has none. *)
Definition tensor_of_shape (shape : list nat) : tensor :=
  match shape with
  | [] => mk_tensor [] []
  | _ => mk_tensor shape (replicate (shape_size shape) 0)
  end.

Fixpoint in_bounds (idxs shape : list nat) : bool :=
  match idxs, shape with
  | i :: idxs, n :: shape => if n <=? i then false else in_bounds idxs shape
  | _, _ => true
  end.

Definition validIndices (t : tensor) (idxs : list nat) : bool :=
  if negb (length idxs =? length (t_shape t)) then false
  else in_bounds idxs (t_shape t).

(** Row-major position of an element, as [dump_bits] walks the buffer. *)
Definition offset (shape idxs : list nat) : nat :=
  foldl (λ acc e, acc * e.1 + e.2) 0 (zip shape idxs).

(** [const at]: the address of the element, as an index into the buffer. *)
Definition addr (t : tensor) (idxs : list nat) : res nat :=
  if negb (validIndices t idxs)
  then Throw (RuntimeError "Invalid constant tensor indices: ")
  else Ok (offset (t_shape t) idxs).

Definition at_ (t : tensor) (idxs : list nat) : res nat :=
  p ← addr t idxs;
  vget (t_data t) p.

(** The non-const overload, with its own rank check. *)
Definition addr_mut (t : tensor) (idxs : list nat) : res nat :=
  _ ← throw_if (negb (length idxs =? rank t))
        (RuntimeError "Invalid indices provided to tensor::at(), size must be equal to rank.");
  _ ← throw_if (negb (validIndices t idxs)) (RuntimeError "Invalid tensor indices: ");
  Ok (offset (t_shape t) idxs).

(** [t.at(idxs) = x] *)
Definition set_at (t : tensor) (idxs : list nat) (x : nat) : res tensor :=
  p ← addr_mut t idxs;
  d ← vset (t_data t) p x;
  Ok (mk_tensor (t_shape t) d).

(** [memcpy(dst + dpos, src + spos, n)] between two buffers. *)
Definition copy_into (dst : list nat) (dpos : nat) (src : list nat) (spos n : nat) : res (list nat) :=
  if decide (dpos + n ≤ length dst ∧ spos + n ≤ length src)
  then Ok (take dpos dst ++ take n (drop spos src) ++ drop (dpos + n) dst)
  else Undef.

(** The axis permutation [xt::transpose(x, {1, 0})] of an [r x c] buffer. *)
Class XtTranspose := {
  xt_transpose : nat → nat → list nat → list nat;
  xt_transpose_length r c d : length d = r * c → length (xt_transpose r c d) = r * c;
  xt_transpose_lookup r c d i j :
    length d = r * c → i < r → j < c →
    xt_transpose r c d !! (j * r + i) = d !! (i * c + j)
}.

Definition transpose `{XtTranspose} (t : tensor) : res tensor :=
  match t_shape t with
  | [r; c] => Ok (mk_tensor [c; r] (xt_transpose r c (t_data t)))
  | _ => Throw (RuntimeError "Transpose requires rank-2 tensors")
  end.

(** ** Rank-2 tensors *)

Definition wf2 (r c : nat) (t : tensor) : Prop :=
  t_shape t = [r; c] ∧ length (t_data t) = r * c.

Definition elem2 (t : tensor) (i j : nat) : option nat :=
  match t_shape t with
  | [r; c] => if decide (i < r ∧ j < c) then t_data t !! (i * c + j) else None
  | _ => None
  end.

Lemma offset2 r c i j : offset [r; c] [i; j] = i * c + j.
Proof. unfold offset. simpl. lia. Qed.

Lemma index2_inj c i j i' j' :
  j < c → j' < c → i * c + j = i' * c + j' → i = i' ∧ j = j'.
Proof.
  intros Hj Hj' H.
  assert (i = i') as -> by (destruct (lt_eq_lt_dec i i') as [[?|?]|?]; [nia|done|nia]).
  split; [done|lia].
Qed.

Lemma index2_bound r c i j : i < r → j < c → i * c + j < r * c.
Proof. nia. Qed.

Lemma valid2 t r c i j :
  t_shape t = [r; c] → i < r → j < c → validIndices t [i; j] = true.
Proof.
  intros Hs Hi Hj. unfold validIndices. rewrite Hs. simpl.
  by rewrite !(proj2 (Nat.leb_gt _ _)) by done.
Qed.

Lemma wf2_zeros r c : wf2 r c (tensor_of_shape [r; c]).
Proof. split; [done|]. simpl. rewrite length_replicate. unfold shape_size. simpl. lia. Qed.

Lemma elem2_zeros r c i j : i < r → j < c → elem2 (tensor_of_shape [r; c]) i j = Some 0.
Proof.
  intros Hi Hj. unfold elem2. simpl. rewrite decide_True by done.
  apply lookup_replicate. split; [done|]. unfold shape_size. simpl. nia.
Qed.

Lemma elem2_is_some r c t i j : wf2 r c t → i < r → j < c → is_Some (elem2 t i j).
Proof.
  intros [Hs Hl] Hi Hj. unfold elem2. rewrite Hs, decide_True by done.
  apply lookup_lt_is_Some. rewrite Hl. by apply index2_bound.
Qed.

Lemma elem2_bounds r c t i j x :
  wf2 r c t → elem2 t i j = Some x → i < r ∧ j < c.
Proof. intros [Hs _]. unfold elem2. rewrite Hs. by case_decide. Qed.

Lemma at2_ok r c t i j x : wf2 r c t → elem2 t i j = Some x → at_ t [i; j] = Ok x.
Proof.
  intros Hwf Hx. destruct (elem2_bounds _ _ _ _ _ _ Hwf Hx) as [Hi Hj].
  destruct Hwf as [Hs Hl]. unfold at_, addr.
  rewrite (valid2 t r c) by done. simpl. rewrite Hs, offset2. apply vget_ok.
  unfold elem2 in Hx. by rewrite Hs, decide_True in Hx by done.
Qed.

Lemma addr_mut2 r c t i j : wf2 r c t → i < r → j < c → addr_mut t [i; j] = Ok (i * c + j).
Proof.
  intros [Hs Hl] Hi Hj. unfold addr_mut, rank. rewrite (valid2 t r c), Hs, offset2 by done. done.
Qed.

Lemma set2_returns r c t i j x :
  wf2 r c t → i < r → j < c →
  returns (set_at t [i; j] x) (λ t', wf2 r c t' ∧
    ∀ i' j', elem2 t' i' j' = if decide (i = i' ∧ j = j') then Some x else elem2 t i' j').
Proof.
  intros [Hs Hl] Hi Hj. unfold set_at. rewrite (addr_mut2 r c) by (done || by split).
  cbn [mbind res_bind].
  pose proof (index2_bound r c i j Hi Hj) as Hb.
  res_step; [lia|]. res_step.
  split; [split; simpl; [done|by rewrite length_insert]|]. intros i' j'.
  unfold elem2. simpl. rewrite Hs. destruct (decide (i' < r ∧ j' < c)) as [[??]|Hn].
  - destruct (decide (i = i' ∧ j = j')) as [[-> ->]|Hne].
    + apply list_lookup_insert_eq. lia.
    + apply list_lookup_insert_ne. intros E. apply index2_inj in E; naive_solver.
  - rewrite decide_False; [done|]. intros [-> ->]. by apply Hn.
Qed.

(** The row pointer [&t.at({r, 0})]. *)
Lemma addr_row r c t i : wf2 r c t → i < r → 0 < c → addr t [i; 0] = Ok (i * c).
Proof.
  intros [Hs Hl] Hi Hc. unfold addr. rewrite (valid2 t r c) by done. simpl.
  rewrite Hs, offset2. f_equal. lia.
Qed.

Lemma row_read r c t i j :
  wf2 r c t → i < r → j < c → t_data t !! (i * c + j) = elem2 t i j.
Proof. intros [Hs Hl] Hi Hj. unfold elem2. by rewrite Hs, decide_True by done. Qed.

Lemma lookup_copy_into dst dpos src spos n :
  dpos + n ≤ length dst → spos + n ≤ length src →
  ∃ out, copy_into dst dpos src spos n = Ok out ∧ length out = length dst ∧
    ∀ p, out !! p = if decide (dpos ≤ p < dpos + n) then src !! (spos + (p - dpos)) else dst !! p.
Proof.
  intros Hd Hs. unfold copy_into. rewrite decide_True by done. eexists. split; [done|].
  split. { rewrite !length_app, !length_take, !length_drop. lia. }
  intros p. destruct (decide (dpos ≤ p < dpos + n)) as [[??]|Hp].
  - rewrite lookup_app_r by (rewrite length_take; lia).
    rewrite lookup_app_l by (rewrite !length_take, length_drop; lia).
    rewrite !length_take, lookup_take_lt, lookup_drop by lia. f_equal. lia.
  - destruct (decide (p < dpos)).
    + rewrite lookup_app_l, lookup_take_lt by (rewrite ?length_take; lia). done.
    + rewrite !lookup_app_r by (rewrite ?length_take, ?length_drop; lia).
      rewrite !length_take, length_drop, lookup_drop. f_equal. lia.
Qed.

Lemma transpose_spec `{XtTranspose} r c t :
  wf2 r c t → returns (transpose t) (λ t', wf2 c r t' ∧ ∀ i j, elem2 t' j i = elem2 t i j).
Proof.
  intros [Hs Hl]. unfold transpose. rewrite Hs. res_step. split.
  - split; [done|]. simpl. rewrite xt_transpose_length by done. lia.
  - intros i j. unfold elem2. simpl. rewrite Hs.
    destruct (decide (i < r ∧ j < c)) as [[??]|].
    + rewrite decide_True by done. by apply xt_transpose_lookup.
    + by rewrite decide_False by naive_solver.
Qed.

Lemma tensor2_ext r c t t' :
  wf2 r c t → wf2 r c t' → (∀ i j, i < r → j < c → elem2 t i j = elem2 t' i j) → t = t'.
Proof.
  destruct t as [s d], t' as [s' d']. intros [Hs Hl] [Hs' Hl'] H. simpl in *. subst.
  f_equal. apply list_eq_same_length with (r * c); [done|done|].
  intros p x y Hp Hx Hy.
  assert (0 < c) by (destruct c; lia).
  specialize (H (p / c) (p mod c)). unfold elem2 in H. simpl in H.
  assert (p / c < r) by (apply Nat.Div0.div_lt_upper_bound; lia).
  assert (p mod c < c) by (apply Nat.mod_upper_bound; lia).
  rewrite !decide_True in H by done.
  replace (p / c * c + p mod c) with p in H by (rewrite (Nat.div_mod_eq p c) at 1; lia).
  rewrite Hx, Hy in H. naive_solver.
Qed.

(** A concrete transposition, for evaluating the model. *)
Definition transpose_rows (r c : nat) (d : list nat) : list nat :=
  (λ p, default 0 (d !! ((p mod r) * c + p / r))) <$> seq 0 (r * c).

#[export] Program Instance xt_transpose_rows : XtTranspose :=
  {| xt_transpose := transpose_rows |}.
Next Obligation. intros. unfold transpose_rows. by rewrite length_fmap, length_seq. Qed.
Next Obligation.
  intros r c d i j Hl Hi Hj. unfold transpose_rows.
  rewrite list_lookup_fmap, lookup_seq_lt by nia. cbn [fmap option_fmap option_map].
  rewrite Nat.add_0_l, (Nat.add_comm (j * r) i), Nat.Div0.mod_add, Nat.mod_small, Nat.div_add,
    Nat.div_small, Nat.add_0_l by lia.
  destruct (lookup_lt_is_Some_2 d (i * c + j)) as [x Hx]; [nia|]. by rewrite Hx.
Qed.
