(* ===== verification/SparseMatrix.v ===== *)
(** * Sparse binary matrices

    Model of [cudaq::qec::sparse_binary_matrix]
    (libs/qec/lib/sparse_binary_matrix.cpp and its header): the compressed
    column/row storage, every constructor with its checks, the conversions
    between layouts, to nested lists and to dense tensors, the GF(2)
    canonical form and the sortedness check.

    A well-formed matrix is determined by its layout, its dimensions and its
    groups (the index list of each column or row): [represents m gs].  The
    theorems are stated through that abstraction. *)

From S2P Require Import Prelude Ordering Tensor.

Inductive sparse_binary_matrix_layout := csc | csr.

#[global] Instance layout_eq_dec : EqDecision sparse_binary_matrix_layout.
Proof. solve_decision. Defined.

Record sparse_binary_matrix := mk_sparse {
  layout_ : sparse_binary_matrix_layout;
  num_rows_ : nat;
  num_cols_ : nat;
  ptr_ : list nat;
  indices_ : list nat
}.

#[global] Instance sparse_eq_dec : EqDecision sparse_binary_matrix.
Proof. solve_decision. Defined.

(** The default-constructed matrix. *)
Definition sparse_empty : sparse_binary_matrix := mk_sparse csc 0 0 [] [].

Definition is_csc (m : sparse_binary_matrix) : bool := bool_decide (layout_ m = csc).
Definition num_groups (m : sparse_binary_matrix) : nat :=
  if is_csc m then num_cols_ m else num_rows_ m.
Definition index_bound (m : sparse_binary_matrix) : nat :=
  if is_csc m then num_rows_ m else num_cols_ m.
Definition num_nnz (m : sparse_binary_matrix) : nat := u32 (length (indices_ m)).

Definition throw_if_nnz_exceeds_index_range (nnz : nat) (context : string) : res unit :=
  throw_if (bool_decide (UINT32_MAX < Z.of_nat nnz)%Z)
    (InvalidArgument (context +:+ ": nnz exceeds index_type (uint32_t) range")).

(** [begin + lo .. begin + hi] of a vector. *)
Definition vslice {A} (v : list A) (lo hi : nat) : res (list A) :=
  if decide (lo ≤ hi ≤ length v) then Ok (slice v lo hi) else Undef.

(** ** Checks *)

Definition validate_sorted_unique_indices (m : sparse_binary_matrix) (whr : string) : res unit :=
  let num_groups := num_groups m in
  let index_bound := index_bound m in
  let ptr_ := ptr_ m in
  let indices_ := indices_ m in
  if bool_decide (num_groups = 0 ∧ ptr_ = [] ∧ indices_ = []) then Ok tt else
  _ ← throw_if (negb (length ptr_ =? num_groups + 1))
        (InvalidArgument (whr +:+ ": sparse pointer array has invalid size"));
  front ← vget ptr_ 0;
  _ ← throw_if (negb (front =? 0))
        (InvalidArgument (whr +:+ ": sparse pointer array must start at zero"));
  back ← vget ptr_ (length ptr_ - 1);
  _ ← throw_if (negb (back =? length indices_))
        (InvalidArgument (whr +:+ ": sparse pointer array must end at nnz"));
  for_u 0 num_groups (λ group _,
    begin ← vget ptr_ group;
    end_ ← vget ptr_ (group + 1);
    _ ← throw_if ((end_ <? begin) || (length indices_ <? end_))
          (InvalidArgument (whr +:+ ": sparse pointer array is not monotonic"));
    for_u begin end_ (λ p _,
      idx ← vget indices_ p;
      _ ← throw_if (index_bound <=? idx)
            (InvalidArgument (whr +:+ ": sparse index out of range"));
      if begin <? p then
        prev ← vget indices_ (p - 1);
        throw_if (idx <=? prev)
          (InvalidArgument (whr +:+ ": sparse indices must be strictly increasing within each "
             +:+ (if is_csc m then "column" else "row")))
      else Ok tt) tt) tt.

(** ** Constructors *)

Definition from_csc (num_rows num_cols : nat) (col_ptrs row_indices : list nat)
    : res sparse_binary_matrix :=
  _ ← throw_if (negb (length col_ptrs =? num_cols + 1))
        (InvalidArgument "sparse_binary_matrix::from_csc: col_ptrs must have size num_cols + 1");
  front ← vget col_ptrs 0;
  _ ← throw_if (negb (front =? 0))
        (InvalidArgument "sparse_binary_matrix::from_csc: col_ptrs[0] must be zero");
  _ ← for_u 1 (num_cols + 1) (λ j _,
        a ← vget col_ptrs (j - 1);
        b ← vget col_ptrs j;
        throw_if (b <? a)
          (InvalidArgument "sparse_binary_matrix::from_csc: col_ptrs must be non-decreasing")) tt;
  _ ← throw_if_nnz_exceeds_index_range (length row_indices) "sparse_binary_matrix::from_csc";
  let nnz := u32 (length row_indices) in
  back ← vget col_ptrs (length col_ptrs - 1);
  _ ← throw_if (negb (back =? nnz))
        (InvalidArgument "sparse_binary_matrix::from_csc: last col_ptr must equal nnz (row_indices.size())");
  _ ← foldM (λ idx _, throw_if (num_rows <=? idx)
        (InvalidArgument "sparse_binary_matrix::from_csc: row index out of range")) row_indices tt;
  Ok (mk_sparse csc num_rows num_cols col_ptrs row_indices).

Definition from_csr (num_rows num_cols : nat) (row_ptrs col_indices : list nat)
    : res sparse_binary_matrix :=
  _ ← throw_if (negb (length row_ptrs =? num_rows + 1))
        (InvalidArgument "sparse_binary_matrix::from_csr: row_ptrs must have size num_rows + 1");
  front ← vget row_ptrs 0;
  _ ← throw_if (negb (front =? 0))
        (InvalidArgument "sparse_binary_matrix::from_csr: row_ptrs[0] must be zero");
  _ ← for_u 1 (num_rows + 1) (λ i _,
        a ← vget row_ptrs (i - 1);
        b ← vget row_ptrs i;
        throw_if (b <? a)
          (InvalidArgument "sparse_binary_matrix::from_csr: row_ptrs must be non-decreasing")) tt;
  _ ← throw_if_nnz_exceeds_index_range (length col_indices) "sparse_binary_matrix::from_csr";
  let nnz := u32 (length col_indices) in
  back ← vget row_ptrs (length row_ptrs - 1);
  _ ← throw_if (negb (back =? nnz))
        (InvalidArgument "sparse_binary_matrix::from_csr: last row_ptr must equal nnz (col_indices.size())");
  _ ← foldM (λ idx _, throw_if (num_cols <=? idx)
        (InvalidArgument "sparse_binary_matrix::from_csr: column index out of range")) col_indices tt;
  Ok (mk_sparse csr num_rows num_cols row_ptrs col_indices).

(** The loop shared by the nested constructors: append a group's indices,
    rejecting one at or above [bound]. *)
Definition push_group (bound : nat) (e : exn) (group out : list nat) : res (list nat) :=
  foldM (λ r out, _ ← throw_if (bound <=? r) e; Ok (out ++ [r])) group out.

Definition from_nested_csc (num_rows num_cols : nat) (nested : list (list nat))
    : res sparse_binary_matrix :=
  _ ← throw_if (negb (length nested =? num_cols))
        (InvalidArgument "sparse_binary_matrix::from_nested_csc: nested.size() must equal num_cols");
  col_ptrs ← vset (replicate (u32 (num_cols + 1)) 0) 0 0;
  let nnz_accum := foldl (λ acc col, u64 (acc + length col)) 0 nested in
  _ ← throw_if_nnz_exceeds_index_range nnz_accum "sparse_binary_matrix::from_nested_csc";
  st ← for_u 0 num_cols (λ j st,
        let '(col_ptrs, row_indices) := st in
        col ← vget nested j;
        row_indices ← push_group num_rows
          (InvalidArgument "sparse_binary_matrix::from_nested_csc: row index out of range")
          col row_indices;
        col_ptrs ← vset col_ptrs (u32 (j + 1)) (u32 (length row_indices));
        Ok (col_ptrs, row_indices)) (col_ptrs, []);
  Ok (mk_sparse csc num_rows num_cols st.1 st.2).

Definition from_nested_csr (num_rows num_cols : nat) (nested : list (list nat))
    : res sparse_binary_matrix :=
  _ ← throw_if (negb (length nested =? num_rows))
        (InvalidArgument "sparse_binary_matrix::from_nested_csr: nested.size() must equal num_rows");
  row_ptrs ← vset (replicate (u32 (num_rows + 1)) 0) 0 0;
  let nnz_accum := foldl (λ acc rw, u64 (acc + length rw)) 0 nested in
  _ ← throw_if_nnz_exceeds_index_range nnz_accum "sparse_binary_matrix::from_nested_csr";
  st ← for_u 0 num_rows (λ i st,
        let '(row_ptrs, col_indices) := st in
        rw ← vget nested i;
        col_indices ← push_group num_cols
          (InvalidArgument "sparse_binary_matrix::from_nested_csr: column index out of range")
          rw col_indices;
        row_ptrs ← vset row_ptrs (u32 (i + 1)) (u32 (length col_indices));
        Ok (row_ptrs, col_indices)) (row_ptrs, []);
  Ok (mk_sparse csr num_rows num_cols st.1 st.2).

(** ** Canonical form *)

Fixpoint run_length (val : nat) (read : list nat) : nat :=
  match read with
  | x :: read => if x =? val then S (run_length val read) else 0
  | [] => 0
  end.

(** The [while (read != scratch.end())] loop; one run per iteration, so the
    length of the list is enough fuel. *)
Fixpoint collapse_runs (fuel : nat) (read out : list nat) : list nat :=
  match fuel, read with
  | S fuel, val :: _ =>
      let run := run_length val read in
      collapse_runs fuel (drop run read) (if Nat.odd run then out ++ [val] else out)
  | _, _ => out
  end.

Definition canonicalize (m : sparse_binary_matrix) : res sparse_binary_matrix :=
  let num_groups := num_groups m in
  let ptr_is_valid := length (ptr_ m) =? num_groups + 1 in
  st ← for_u 0 (if ptr_is_valid then num_groups else 0) (λ g st,
        let '(new_ptr, new_idx) := st in
        begin ← vget (ptr_ m) g;
        end_ ← vget (ptr_ m) (g + 1);
        scratch ← vslice (indices_ m) begin end_;
        let scratch := merge_sort (≤) scratch in
        let new_idx := collapse_runs (length scratch) scratch new_idx in
        new_ptr ← vset new_ptr (g + 1) (u32 (length new_idx));
        Ok (new_ptr, new_idx)) (replicate (num_groups + 1) 0, []);
  if is_csc m then from_csc (num_rows_ m) (num_cols_ m) st.1 st.2
  else from_csr (num_rows_ m) (num_cols_ m) st.1 st.2.

(** ** Conversions *)

(** [for (g < n) for (p = ptr_\[g\]; p < ptr_\[g + 1\]; ++p) body g indices_\[p\]] *)
Definition for_entries {S} (m : sparse_binary_matrix) (n : nat)
    (body : nat → nat → S → res S) (s : S) : res S :=
  for_u 0 n (λ g s,
    lo ← vget (ptr_ m) g;
    hi ← vget (ptr_ m) (g + 1);
    for_u lo hi (λ p s, idx ← vget (indices_ m) p; body g idx s) s) s.

(** The count / prefix sum / scatter body of [to_csc] and [to_csr]: [n_in]
    groups are regrouped by index into [n_out] groups. *)
Definition regroup (m : sparse_binary_matrix) (n_in n_out : nat) : res (list nat * list nat) :=
  nnz ← for_entries m n_in (λ _ idx, count_step idx) (replicate n_out 0);
  ptrs ← prefix_sums n_out nnz;
  st ← for_entries m n_in (λ g idx, scatter_step ptrs (idx, g))
         (replicate (length (indices_ m)) 0, replicate n_out 0);
  Ok (ptrs, st.1).

Definition to_csc (m : sparse_binary_matrix) : res sparse_binary_matrix :=
  if is_csc m then Ok (mk_sparse csc (num_rows_ m) (num_cols_ m) (ptr_ m) (indices_ m)) else
  r ← regroup m (num_rows_ m) (num_cols_ m);
  Ok (mk_sparse csc (num_rows_ m) (num_cols_ m) r.1 r.2).

Definition to_csr (m : sparse_binary_matrix) : res sparse_binary_matrix :=
  if is_csc m then
    r ← regroup m (num_cols_ m) (num_rows_ m);
    Ok (mk_sparse csr (num_rows_ m) (num_cols_ m) r.1 r.2)
  else Ok (mk_sparse csr (num_rows_ m) (num_cols_ m) (ptr_ m) (indices_ m)).

Definition to_dense (m : sparse_binary_matrix) : res tensor :=
  let dense := tensor_of_shape [num_rows_ m; num_cols_ m] in
  if num_cols_ m =? 0 then Ok dense else
  if is_csc m then for_entries m (num_cols_ m) (λ j i dense, set_at dense [i; j] 1) dense
  else for_entries m (num_rows_ m) (λ i j dense, set_at dense [i; j] 1) dense.

(** [out\[i\].assign(indices_.begin() + ptr_\[i\], indices_.begin() + ptr_\[i + 1\])] *)
Definition assign_groups (m : sparse_binary_matrix) (n : nat) : res (list (list nat)) :=
  for_u 0 n (λ g out,
    lo ← vget (ptr_ m) g;
    hi ← vget (ptr_ m) (g + 1);
    s ← vslice (indices_ m) lo hi;
    vset out g s) (replicate n []).

(** [out\[idx\].push_back(g)] *)
Definition push_at {A} (out : list (list A)) (idx : nat) (g : A) : res (list (list A)) :=
  l ← vget out idx;
  vset out idx (l ++ [g]).

Definition push_transposed (m : sparse_binary_matrix) (n_in n_out : nat) : res (list (list nat)) :=
  for_entries m n_in (λ g idx out, push_at out idx g) (replicate n_out []).

Definition to_nested_csc (m : sparse_binary_matrix) : res (list (list nat)) :=
  if is_csc m then assign_groups m (num_cols_ m)
  else push_transposed m (num_rows_ m) (num_cols_ m).

Definition to_nested_csr (m : sparse_binary_matrix) : res (list (list nat)) :=
  if is_csc m then push_transposed m (num_cols_ m) (num_rows_ m)
  else assign_groups m (num_rows_ m).

(** ** Construction from a dense tensor *)

(** [for (r < rows) { row_ptr = &dense.at({r, 0}); for (c < cols) if
    (row_ptr\[c\]) body r c }] *)
Definition for_nonzeros {S} (dense : tensor) (rows cols : nat)
    (body : nat → nat → S → res S) (s : S) : res S :=
  for_u 0 rows (λ r s,
    row_ptr ← addr dense [r; 0];
    for_u 0 cols (λ c s,
      x ← vget (t_data dense) (row_ptr + c);
      if x =? 0 then Ok s else body r c s) s) s.

Definition sum_sizes (l : list nat) : nat := foldl (λ acc x, u64 (acc + x)) 0 l.

Definition of_dense (dense : tensor) (layout : sparse_binary_matrix_layout)
    : res sparse_binary_matrix :=
  match t_shape dense with
  | [nrows; ncols] =>
      _ ← throw_if (bool_decide (UINT32_MAX < Z.of_nat nrows ∨ UINT32_MAX < Z.of_nat ncols)%Z)
            (InvalidArgument "sparse_binary_matrix: dense PCM dimensions exceed index_type range");
      if (nrows =? 0) || (ncols =? 0) then
        let num_groups := if bool_decide (layout = csc) then ncols else nrows in
        Ok (mk_sparse layout nrows ncols (replicate (num_groups + 1) 0) [])
      else if bool_decide (layout = csc) then
        col_nnz ← for_nonzeros dense nrows ncols (λ _ c, count_step c) (replicate ncols 0);
        _ ← throw_if_nnz_exceeds_index_range (sum_sizes col_nnz) "sparse_binary_matrix(dense,to CSC)";
        ptr ← prefix_sums ncols col_nnz;
        back ← vget ptr (length ptr - 1);
        st ← for_nonzeros dense nrows ncols (λ r c, scatter_step ptr (c, u32 r))
               (replicate back 0, replicate ncols 0);
        Ok (mk_sparse csc nrows ncols ptr st.1)
      else
        row_nnz ← for_nonzeros dense nrows ncols (λ r _, count_step r) (replicate nrows 0);
        _ ← throw_if_nnz_exceeds_index_range (sum_sizes row_nnz) "sparse_binary_matrix(dense,to CSR)";
        ptr ← prefix_sums nrows row_nnz;
        back ← vget ptr (length ptr - 1);
        st ← for_nonzeros dense nrows ncols (λ r c, scatter_step ptr (r, u32 c))
               (replicate back 0, replicate nrows 0);
        Ok (mk_sparse csr nrows ncols ptr st.1)
  | _ => Throw (InvalidArgument "sparse_binary_matrix: dense PCM tensor must have rank 2")
  end.
