(* ===== verification/SparseFacts.v ===== *)
(** * Sparse binary matrices: the abstraction and the conversions

    A matrix stands for the list of its groups.  This file relates the
    compressed arrays to that list, proves what every constructor and
    conversion of [SparseMatrix] computes on it, and derives the round trips
    between CSC, CSR, nested and dense forms. *)

From S2P Require Import Prelude Ordering Tensor SparseMatrix.

(** ** Groups of a compressed matrix *)

Definition psum (gs : list (list nat)) (k : nat) : nat := length (concat (take k gs)).
Definition ptrs_of (gs : list (list nat)) : list nat := psum gs <$> seq 0 (length gs + 1).

Definition represents (m : sparse_binary_matrix) (gs : list (list nat)) : Prop :=
  length gs = num_groups m ∧ ptr_ m = ptrs_of gs ∧ indices_ m = concat gs.

(** Well-formedness: the arrays represent [gs], indices are in range and the
    dimensions and the number of entries fit [index_type]. *)
Record wf (m : sparse_binary_matrix) (gs : list (list nat)) : Prop := {
  wf_rep : represents m gs;
  wf_bound : Forall (Forall (λ i, i < index_bound m)) gs;
  wf_rows : (Z.of_nat (num_rows_ m) < 2 ^ 32)%Z;
  wf_cols : (Z.of_nat (num_cols_ m) < 2 ^ 32)%Z;
  wf_nnz : (Z.of_nat (length (concat gs)) < 2 ^ 32)%Z
}.

Lemma psum_0 gs : psum gs 0 = 0.
Proof. done. Qed.
Lemma psum_S gs k l : gs !! k = Some l → psum gs (k + 1) = psum gs k + length l.
Proof.
  intros Hk. unfold psum. rewrite Nat.add_1_r, (take_S_r _ _ l) by done.
  rewrite concat_app, length_app. simpl. rewrite app_nil_r. done.
Qed.
Lemma psum_all gs k : length gs ≤ k → psum gs k = length (concat gs).
Proof. intros. unfold psum. by rewrite take_ge. Qed.
Lemma psum_le gs k : psum gs k ≤ length (concat gs).
Proof.
  unfold psum. rewrite <-(take_drop k gs) at 2. rewrite concat_app, length_app. lia.
Qed.
Lemma psum_mono gs j k : j ≤ k → psum gs j ≤ psum gs k.
Proof.
  intros. unfold psum. replace (take j gs) with (take j (take k gs)).
  - apply (psum_le (take k gs) j).
  - rewrite take_take. f_equal. lia.
Qed.

Lemma length_ptrs_of gs : length (ptrs_of gs) = length gs + 1.
Proof. unfold ptrs_of. by rewrite length_fmap, length_seq. Qed.
Lemma lookup_ptrs_of gs k : k ≤ length gs → ptrs_of gs !! k = Some (psum gs k).
Proof. intros. unfold ptrs_of. by rewrite list_lookup_fmap, lookup_seq_lt by lia. Qed.

Lemma vget_ptrs_of gs k : k ≤ length gs → vget (ptrs_of gs) k = Ok (psum gs k).
Proof. intros. by apply vget_ok, lookup_ptrs_of. Qed.

Lemma concat_lookup gs k l i x :
  gs !! k = Some l → l !! i = Some x → concat gs !! (psum gs k + i) = Some x.
Proof.
  intros Hk Hi. rewrite <-(take_drop_middle gs k l Hk), concat_app. simpl.
  unfold psum. rewrite take_app_le, take_take, Nat.min_id by
    (rewrite length_take; apply lookup_lt_Some in Hk; lia).
  rewrite lookup_app_r, lookup_app_l.
  - by replace (_ + i - _) with i by lia.
  - apply lookup_lt_Some in Hi. lia.
  - lia.
Qed.

Lemma slice_concat gs k l :
  gs !! k = Some l → slice (concat gs) (psum gs k) (psum gs (k + 1)) = l.
Proof.
  intros Hk. rewrite (psum_S gs k l) by done. apply slice_eq.
  - rewrite <-(psum_S gs k l) by done. apply psum_le.
  - lia.
  - intros i x Hx. by eapply concat_lookup.
Qed.

(** Slices between increasing cut points concatenate to the list. *)
Lemma concat_slices {A} (v : list A) (p : nat → nat) n :
  p 0 = 0 → (∀ k, k < n → p k ≤ p (k + 1)) →
  concat ((λ k, slice v (p k) (p (k + 1))) <$> seq 0 n) = take (p n) v.
Proof.
  intros H0. induction n as [|n IH]; intros Hm; [by rewrite H0|].
  rewrite seq_S, fmap_app, concat_app, IH by (intros; apply Hm; lia).
  simpl. rewrite app_nil_r. specialize (Hm n). rewrite Nat.add_1_r in *.
  unfold slice. rewrite <-(take_drop (p n) (take (p (S n)) v)).
  rewrite take_take, skipn_firstn_comm. f_equal; f_equal; lia.
Qed.

(** The entries of a matrix as (index, group) pairs, in storage order. *)
Fixpoint entries_from (k : nat) (gs : list (list nat)) : list entry :=
  match gs with
  | [] => []
  | l :: gs => ((λ j, (j, k)) <$> l) ++ entries_from (S k) gs
  end.
Abbreviation entries_of := (entries_from 0).

Lemma length_entries k gs : length (entries_from k gs) = length (concat gs).
Proof.
  revert k. induction gs as [|l gs IH]; intros k; simpl; [done|].
  by rewrite !length_app, length_fmap, IH.
Qed.

Lemma entries_bound k gs b :
  Forall (Forall (λ i, i < b)) gs → Forall (λ e, e.1 < b) (entries_from k gs).
Proof.
  intros H. revert k. induction H as [|l gs Hl _ IH]; intros k; simpl; [done|].
  apply Forall_app; split; [|done]. by apply Forall_fmap.
Qed.

Lemma elem_of_entries k gs j g :
  (j, g) ∈ entries_from k gs ↔ ∃ l, k ≤ g ∧ gs !! (g - k) = Some l ∧ j ∈ l.
Proof.
  revert k. induction gs as [|l gs IH]; intros k; simpl.
  - set_solver.
  - rewrite elem_of_app, list_elem_of_fmap, IH. split.
    + intros [(?&[= -> ->]&?)|(l'&?&Hl&?)].
      * exists l. by rewrite Nat.sub_diag.
      * exists l'. split; [lia|]. by replace (g - k) with (S (g - S k)) by lia.
    + intros (l'&?&Hl&?). destruct (decide (g = k)) as [->|].
      * rewrite Nat.sub_diag in Hl. simplify_eq/=. left. by exists j.
      * right. exists l'. replace (g - k) with (S (g - S k)) in Hl by lia.
        split; [lia|done].
Qed.

(** ** Loops over the entries *)

Lemma for_u_slice {S} (v l : list nat) lo (body : nat → S → res S) s :
  (∀ i x, l !! i = Some x → v !! (lo + i) = Some x) →
  for_u lo (lo + length l) (λ p s, idx ← vget v p; body idx s) s = foldM body l s.
Proof.
  unfold for_u. replace (lo + length l - lo) with (length l) by lia.
  revert lo s. induction l as [|x l IH]; intros lo s H; simpl; [done|].
  rewrite (vget_ok _ _ x); simpl.
  2:{ specialize (H 0 x eq_refl). by rewrite Nat.add_0_r in H. }
  destruct (body x s); simpl; [|done..].
  apply IH. intros i y Hy. specialize (H (Datatypes.S i) y Hy).
  by rewrite Nat.add_succ_comm.
Qed.

(** The loop over the stored entries of one group. *)
Lemma for_group {S} m gs k l (f : nat → S → res S) s :
  represents m gs → gs !! k = Some l →
  (lo ← vget (ptr_ m) k; hi ← vget (ptr_ m) (k + 1);
   for_u lo hi (λ p s, e ← vget (indices_ m) p; f e s) s) = foldM f l s.
Proof.
  intros (_&Hp&Hi) Hl. pose proof (lookup_lt_Some _ _ _ Hl).
  rewrite Hp, !vget_ptrs_of by lia. cbn [mbind res_bind]. rewrite Hi, (psum_S gs k l Hl).
  apply for_u_slice. intros j x. by apply concat_lookup.
Qed.

Lemma for_entries_fold {S} m gs (body : nat → nat → S → res S) s :
  represents m gs →
  for_entries m (length gs) body s = foldM (λ e, body e.2 e.1) (entries_of gs) s.
Proof.
  intros (_&Hp&Hi). unfold for_entries, for_u. rewrite Nat.sub_0_r.
  cut (∀ post pre s, gs = pre ++ post →
    foldM (λ g s, lo ← vget (ptr_ m) g; hi ← vget (ptr_ m) (g + 1);
             for_u lo hi (λ p s, idx ← vget (indices_ m) p; body g idx s) s)
      (seq (length pre) (length post)) s =
    foldM (λ e, body e.2 e.1) (entries_from (length pre) post) s).
  { intros Hc. by apply (Hc gs []). }
  induction post as [|l post IH]; intros pre s' Hgs; [done|].
  assert (gs !! length pre = Some l) as Hl.
  { rewrite Hgs. by rewrite list_lookup_middle. }
  assert (length pre < length gs) by (by apply lookup_lt_Some in Hl).
  cbn [length seq foldM entries_from].
  rewrite Hp, !vget_ptrs_of by lia. cbn [mbind res_bind].
  rewrite (psum_S gs _ l), foldM_app, foldM_map by done.
  rewrite Hi, (for_u_slice _ l _ (body (length pre))).
  2:{ intros i x Hx. by apply (concat_lookup gs _ l). }
  replace (foldM (λ b, body (b, length pre).2 (b, length pre).1) l s')
    with (foldM (body (length pre)) l s') by done.
  destruct (foldM (body (length pre)) l s') as [s''| |]; simpl; [|done..].
  specialize (IH (pre ++ [l]) s'').
  rewrite length_app, <-app_assoc, Nat.add_1_r, Hp, Hi in IH. by apply IH.
Qed.

(** ** Regrouping by index *)

(** Grouping entries by key. *)
Definition by_key (n : nat) (E : list entry) : list (list nat) :=
  (λ j, keyed j E) <$> seq 0 n.

Lemma length_by_key n E : length (by_key n E) = n.
Proof. unfold by_key. by rewrite length_fmap, length_seq. Qed.

Lemma lookup_by_key n E j : j < n → by_key n E !! j = Some (keyed j E).
Proof. intros. unfold by_key. by rewrite list_lookup_fmap, lookup_seq_lt by lia. Qed.

Lemma psum_by_key n E k : k ≤ n → psum (by_key n E) k = below k E.
Proof.
  induction k as [|k IH]; intros Hk; [by rewrite below_0|].
  rewrite <-Nat.add_1_r, below_S, <-IH by lia. apply psum_S, lookup_by_key. lia.
Qed.

Lemma ptrs_by_key n E : ptrs_of (by_key n E) = offsets n E.
Proof.
  apply list_eq_same_length with (n + 1).
  - unfold offsets. by rewrite length_fmap, length_seq.
  - by rewrite length_ptrs_of, length_by_key.
  - intros k x y Hk Hx Hy. rewrite lookup_ptrs_of in Hx by (rewrite length_by_key; lia).
    rewrite lookup_offsets in Hy by lia. rewrite psum_by_key in Hx by lia. congruence.
Qed.

Lemma length_concat_by_key n E :
  Forall (λ e, e.1 < n) E → length (concat (by_key n E)) = length E.
Proof.
  intros Hb. rewrite <-(psum_all _ n) by (by rewrite length_by_key).
  by rewrite psum_by_key, below_all by done.
Qed.

Lemma concat_by_key n E out :
  Forall (λ e, e.1 < n) E → length out = length E →
  (∀ k, k < n → slice out (below k E) (below (k + 1) E) = keyed k E) →
  out = concat (by_key n E).
Proof.
  intros Hb Hlen Hsl. unfold by_key.
  rewrite (Forall_fmap_ext_1 _ (λ k, slice out (below k E) (below (k + 1) E))).
  - rewrite (concat_slices out (λ k, below k E)).
    + by rewrite below_all, <-Hlen, firstn_all by done.
    + apply below_0.
    + intros. apply below_mono. lia.
  - apply Forall_forall. intros k Hk. apply elem_of_seq in Hk. symmetry. apply Hsl. lia.
Qed.

(** Counting, prefix sums and scatter together compress by key. *)
Lemma compress_spec n E :
  Forall (λ e, e.1 < n) E → (Z.of_nat (length E) < 2 ^ 32)%Z →
  prefix_sums n (counts n E) = Ok (ptrs_of (by_key n E)) ∧
  returns (foldM (scatter_step (ptrs_of (by_key n E))) E (replicate (length E) 0, replicate n 0))
    (λ st, st.1 = concat (by_key n E)).
Proof.
  intros Hk Hz. rewrite ptrs_by_key. split; [by apply prefix_loop|].
  eapply returns_mono; [by apply scatter_loop|].
  intros [out cnt] [Hlen Hsl]. by apply concat_by_key.
Qed.

(** The groups of the other layout: group [j] lists the groups that mention
    index [j], in order, once per mention. *)
Definition transposed (n : nat) (gs : list (list nat)) : list (list nat) :=
  by_key n (entries_of gs).

Lemma length_transposed n gs : length (transposed n gs) = n.
Proof. apply length_by_key. Qed.

Lemma lookup_transposed n gs j :
  j < n → transposed n gs !! j = Some (keyed j (entries_of gs)).
Proof. apply lookup_by_key. Qed.

Lemma length_concat_transposed n gs :
  Forall (Forall (λ i, i < n)) gs → length (concat (transposed n gs)) = length (concat gs).
Proof.
  intros Hb. unfold transposed. rewrite length_concat_by_key by (by apply entries_bound).
  apply length_entries.
Qed.

Lemma regroup_spec m gs n :
  represents m gs → Forall (Forall (λ i, i < n)) gs →
  (Z.of_nat (length (concat gs)) < 2 ^ 32)%Z →
  regroup m (length gs) n = Ok (ptrs_of (transposed n gs), concat (transposed n gs)).
Proof.
  intros Hr Hb Hz. unfold regroup.
  pose proof (entries_bound 0 gs n Hb) as Hkeys.
  assert (Z.of_nat (length (entries_of gs)) < 2 ^ 32)%Z as Hsz by (by rewrite length_entries).
  rewrite (for_entries_fold m gs) by done.
  rewrite (count_loop n (entries_of gs)) by (done || by apply keyed_fits). cbn [mbind res_bind].
  destruct (compress_spec n (entries_of gs)) as [-> (st&Hloop&Hst)]; [done..|].
  cbn [mbind res_bind]. rewrite (for_entries_fold m gs) by done.
  destruct Hr as (_&_&Hi). rewrite length_entries in Hloop. rewrite Hi.
  rewrite (foldM_ext _ (scatter_step (ptrs_of (by_key n (entries_of gs))))) by (by intros [k v] s _).
  rewrite Hloop. cbn [mbind res_bind]. by rewrite Hst.
Qed.

(** ** Changing the layout *)

Definition other (m : sparse_binary_matrix) : sparse_binary_matrix_layout :=
  if is_csc m then csr else csc.

Definition of_groups (lay : sparse_binary_matrix_layout) (r c : nat) (gs : list (list nat)) :=
  mk_sparse lay r c (ptrs_of gs) (concat gs).

Lemma wf_of_groups lay r c gs :
  length gs = (if bool_decide (lay = csc) then c else r) →
  Forall (Forall (λ i, i < if bool_decide (lay = csc) then r else c)) gs →
  (Z.of_nat r < 2 ^ 32)%Z → (Z.of_nat c < 2 ^ 32)%Z →
  (Z.of_nat (length (concat gs)) < 2 ^ 32)%Z →
  wf (of_groups lay r c gs) gs.
Proof. intros. split; [split|..]; done. Qed.

Lemma wf_eq m gs : wf m gs → m = of_groups (layout_ m) (num_rows_ m) (num_cols_ m) gs.
Proof. intros [(_&Hp&Hi) _ _ _ _]. destruct m; simpl in *. unfold of_groups. by subst. Qed.

Lemma wf_groups_unique m gs gs' : represents m gs → represents m gs' → gs = gs'.
Proof.
  intros (Hl&Hp&Hi) (Hl'&Hp'&Hi').
  apply list_eq_same_length with (length gs); [by rewrite Hl, Hl'|done|].
  intros k x y Hk Hx Hy.
  assert (∀ j, j ≤ length gs → psum gs j = psum gs' j) as Hj.
  { intros j Hj. rewrite Hp' in Hp.
    assert (ptrs_of gs' !! j = ptrs_of gs !! j) as E by (by rewrite Hp).
    rewrite !lookup_ptrs_of in E by lia. congruence. }
  rewrite <-(slice_concat gs k x), <-(slice_concat gs' k y) by done.
  rewrite <-Hi, <-Hi', !Hj by lia. done.
Qed.

Lemma transposed_bound n gs : Forall (Forall (λ i, i < length gs)) (transposed n gs).
Proof.
  unfold transposed, by_key. apply Forall_fmap, Forall_forall. intros j _.
  apply Forall_forall. intros g Hg. apply elem_of_keyed in Hg.
  apply elem_of_entries in Hg as (l&_&Hl&_). apply lookup_lt_Some in Hl. lia.
Qed.

Lemma wf_transposed m gs :
  wf m gs →
  wf (of_groups (other m) (num_rows_ m) (num_cols_ m) (transposed (index_bound m) gs))
     (transposed (index_bound m) gs).
Proof.
  intros [(Hl&Hp&Hi) Hb Hr Hc Hz]. apply wf_of_groups.
  - rewrite length_transposed. unfold other, index_bound. by destruct (is_csc m).
  - pose proof (transposed_bound (index_bound m) gs) as Ht. rewrite Hl in Ht.
    unfold other, num_groups in *. by destruct (is_csc m).
  - done.
  - done.
  - by rewrite length_concat_transposed.
Qed.

Lemma to_csc_spec m gs :
  wf m gs →
  to_csc m = Ok (if is_csc m then m
                 else of_groups csc (num_rows_ m) (num_cols_ m) (transposed (num_cols_ m) gs)).
Proof.
  intros Hwf. unfold to_csc. destruct (is_csc m) eqn:E.
  - destruct m. unfold is_csc in E. apply bool_decide_eq_true in E. simpl in *. by subst.
  - destruct Hwf as [Hr Hb _ _ Hz].
    unfold index_bound in Hb. rewrite E in Hb.
    assert (num_rows_ m = length gs) as ->.
    { destruct Hr as (Hl&_). unfold num_groups in Hl. by rewrite E in Hl. }
    by rewrite (regroup_spec m gs).
Qed.

Lemma to_csr_spec m gs :
  wf m gs →
  to_csr m = Ok (if is_csc m
                 then of_groups csr (num_rows_ m) (num_cols_ m) (transposed (num_rows_ m) gs)
                 else m).
Proof.
  intros Hwf. unfold to_csr. destruct (is_csc m) eqn:E.
  - destruct Hwf as [Hr Hb _ _ Hz].
    unfold index_bound in Hb. rewrite E in Hb.
    assert (num_cols_ m = length gs) as ->.
    { destruct Hr as (Hl&_). unfold num_groups in Hl. by rewrite E in Hl. }
    by rewrite (regroup_spec m gs).
  - destruct m as [[]]; [done|]. done.
Qed.

(** ** The checked constructors *)

Section from_compressed.
(** The five conditions [from_csc] and [from_csr] test. *)
Definition compressed_ok (n bound : nat) (ptrs idxs : list nat) : Prop :=
  length ptrs = n + 1 ∧ ptrs !! 0 = Some 0 ∧
  (∀ j, 1 ≤ j < n + 1 → ∀ a b, ptrs !! (j - 1) = Some a → ptrs !! j = Some b → a ≤ b) ∧
  (Z.of_nat (length idxs) < 2 ^ 32)%Z ∧ ptrs !! n = Some (length idxs) ∧
  ∀ i, i ∈ idxs → i < bound.

Definition cut (ptrs : list nat) (k : nat) : nat := default 0 (ptrs !! k).

Lemma cut_mono p n k d :
  (∀ k, k < n → cut p k ≤ cut p (k + 1)) → k + d ≤ n → cut p k ≤ cut p (k + d).
Proof.
  intros Hm. induction d as [|d IH]; intros Hd; [by rewrite Nat.add_0_r|].
  replace (k + S d) with (k + d + 1) by lia.
  etrans; [apply IH; lia|apply Hm; lia].
Qed.

(** Checked arrays cut the index list into groups. *)
Lemma groups_of_compressed n bound ptrs idxs :
  compressed_ok n bound ptrs idxs →
  ∃ gs, length gs = n ∧ ptrs = ptrs_of gs ∧ idxs = concat gs ∧
        Forall (Forall (λ i, i < bound)) gs ∧ (Z.of_nat (length idxs) < 2 ^ 32)%Z.
Proof.
  intros (Hlen&H0&Hm&Hz&Hlast&Hb).
  assert (∀ k, k ≤ n → ptrs !! k = Some (cut ptrs k)) as Hcut.
  { intros k Hk. unfold cut. destruct (lookup_lt_is_Some_2 ptrs k) as [x ->]; [lia|done]. }
  set (gs := (λ k, slice idxs (cut ptrs k) (cut ptrs (k + 1))) <$> seq 0 n).
  assert (∀ k, k < n → cut ptrs k ≤ cut ptrs (k + 1)) as Hmono.
  { intros k Hk. apply (Hm (k + 1)); [lia| |]; [|apply Hcut; lia].
    replace (k + 1 - 1) with k by lia. apply Hcut. lia. }
  assert (cut ptrs 0 = 0) as Hc0 by (unfold cut; by rewrite H0).
  assert (cut ptrs n = length idxs) as Hcn by (unfold cut; by rewrite Hlast).
  assert (concat gs = idxs) as Hconc.
  { unfold gs. rewrite (concat_slices idxs (cut ptrs)) by done. by rewrite Hcn, firstn_all. }
  assert (∀ k, k ≤ n → psum gs k = cut ptrs k) as Hps.
  { intros k Hk. unfold psum, gs. rewrite <-fmap_take, take_seq.
    rewrite (concat_slices idxs (cut ptrs)), length_take; [|done|intros; apply Hmono; lia].
    replace (k `min` n) with k by lia.
    pose proof (cut_mono ptrs n k (n - k) Hmono) as Hup.
    replace (k + (n - k)) with n in Hup by lia. lia. }
  assert (length gs = n) as Hgs by (unfold gs; by rewrite length_fmap, length_seq).
  exists gs. split_and!; [done| |done| |done].
  - apply list_eq_same_length with (n + 1); [by rewrite length_ptrs_of, Hgs|done|].
    intros k x y Hk Hx Hy. rewrite Hcut in Hx by lia.
    rewrite lookup_ptrs_of, Hps in Hy by lia. congruence.
  - rewrite <-Hconc in Hb. apply Forall_forall. intros l Hl. apply Forall_forall.
    intros i Hi. apply Hb. apply list_elem_of_In, in_concat.
    exists l. by rewrite <-!list_elem_of_In.
Qed.

Lemma compressed_ok_groups n bound ptrs idxs :
  compressed_ok n bound ptrs idxs ↔
  ∃ gs, length gs = n ∧ ptrs = ptrs_of gs ∧ idxs = concat gs ∧
        Forall (Forall (λ i, i < bound)) gs ∧ (Z.of_nat (length idxs) < 2 ^ 32)%Z.
Proof.
  split; [apply groups_of_compressed|].
  intros (gs&Hgs&->&->&Hb&Hz). split_and!.
  - by rewrite length_ptrs_of, Hgs.
  - by rewrite lookup_ptrs_of by lia.
  - intros j Hj a b Ha Hb'. rewrite lookup_ptrs_of in Ha, Hb' by lia.
    simplify_eq. apply psum_mono. lia.
  - done.
  - rewrite lookup_ptrs_of, psum_all by lia. done.
  - intros i Hi%list_elem_of_In. apply in_concat in Hi as (l&Hl&Hi).
    rewrite Forall_forall in Hb. apply list_elem_of_In, Hb in Hl.
    rewrite Forall_forall in Hl. by apply Hl, list_elem_of_In.
Qed.

(** The shared checking sequence. *)
Lemma decides_monotone n ptrs msg :
  length ptrs = n + 1 →
  decides (for_u 1 (n + 1) (λ j _, a ← vget ptrs (j - 1); b ← vget ptrs j;
             throw_if (b <? a) (InvalidArgument msg)) tt)
    (∀ j, 1 ≤ j < n + 1 → ∀ a b, ptrs !! (j - 1) = Some a → ptrs !! j = Some b → a ≤ b) tt.
Proof.
  intros Hlen. apply decides_for_u. intros j Hj.
  destruct (lookup_lt_is_Some_2 ptrs (j - 1)) as [x Hx]; [lia|].
  destruct (lookup_lt_is_Some_2 ptrs j) as [y Hy]; [lia|].
  rewrite (vget_ok _ (j - 1) x), (vget_ok _ j y) by done. cbn [mbind res_bind].
  eapply decides_iff; [apply decides_throw_if|]. rewrite Nat.ltb_ge. naive_solver.
Qed.

Lemma decides_in_range bound idxs msg :
  decides (foldM (λ idx _, throw_if (bound <=? idx) (InvalidArgument msg)) idxs tt)
    (∀ i, i ∈ idxs → i < bound) tt.
Proof.
  apply decides_foldM. intros i _. eapply decides_iff; [apply decides_throw_if|].
  apply Nat.leb_gt.
Qed.

Lemma decides_nnz nnz ctx :
  decides (throw_if_nnz_exceeds_index_range nnz ctx) (Z.of_nat nnz < 2 ^ 32)%Z tt.
Proof.
  eapply decides_iff; [apply decides_throw_if|].
  rewrite bool_decide_eq_false. unfold UINT32_MAX. lia.
Qed.

Lemma decides_eqb (x y : nat) msg :
  decides (throw_if (negb (x =? y)) (InvalidArgument msg)) (x = y) tt.
Proof.
  eapply decides_iff; [apply decides_throw_if|]. rewrite negb_false_iff. apply Nat.eqb_eq.
Qed.

Lemma decides_compressed {A} n bound ptrs idxs m1 m2 m3 m4 m5 m6 (a : A) :
  decides
    (_ ← throw_if (negb (length ptrs =? n + 1)) (InvalidArgument m1);
     front ← vget ptrs 0;
     _ ← throw_if (negb (front =? 0)) (InvalidArgument m2);
     _ ← for_u 1 (n + 1) (λ j _, a ← vget ptrs (j - 1); b ← vget ptrs j;
           throw_if (b <? a) (InvalidArgument m3)) tt;
     _ ← throw_if_nnz_exceeds_index_range (length idxs) m4;
     back ← vget ptrs (length ptrs - 1);
     _ ← throw_if (negb (back =? u32 (length idxs))) (InvalidArgument m5);
     _ ← foldM (λ idx _, throw_if (bound <=? idx) (InvalidArgument m6)) idxs tt;
     Ok a) (compressed_ok n bound ptrs idxs) a.
Proof.
  unfold compressed_ok. eapply decides_bind; [apply decides_eqb|].
  intros Hlen. destruct (lookup_lt_is_Some_2 ptrs 0) as [x Hx]; [lia|].
  rewrite (vget_ok _ 0 x) by done. cbn [mbind res_bind].
  eapply decides_bind; [eapply decides_iff; [apply decides_eqb|]|].
  { rewrite Hx. by split; [intros ->|intros [= ->]]. }
  intros _. eapply decides_bind; [by apply decides_monotone|].
  intros _. eapply decides_bind; [apply decides_nnz|].
  intros Hz. destruct (lookup_lt_is_Some_2 ptrs n) as [y Hy]; [lia|].
  rewrite (vget_ok _ (length ptrs - 1) y) by (by rewrite Hlen, Nat.add_sub).
  cbn [mbind res_bind]. rewrite wrap_small by done.
  eapply decides_bind; [eapply decides_iff; [apply decides_eqb|]|].
  { rewrite Hy. by split; [intros ->|intros [= ->]]. }
  intros _. eapply decides_iff; [eapply decides_bind; [apply decides_in_range|]|].
  - intros _. apply decides_ok.
  - tauto.
Qed.
End from_compressed.

(** [from_csc] accepts exactly the arrays of a well-formed CSC matrix. *)
Lemma from_csc_decides r c ptrs idxs :
  decides (from_csc r c ptrs idxs) (compressed_ok c r ptrs idxs) (mk_sparse csc r c ptrs idxs).
Proof. apply decides_compressed. Qed.

Lemma from_csr_decides r c ptrs idxs :
  decides (from_csr r c ptrs idxs) (compressed_ok r c ptrs idxs) (mk_sparse csr r c ptrs idxs).
Proof. apply decides_compressed. Qed.

(** ** The nested constructors *)

Lemma push_group_decides bound msg group out :
  decides (push_group bound (InvalidArgument msg) group out)
    (∀ i, i ∈ group → i < bound) (out ++ group).
Proof.
  unfold push_group.
  pose proof (decides_foldM_state
    (λ r out, _ ← throw_if (bound <=? r) (InvalidArgument msg); Ok (out ++ [r]))
    (λ i, i < bound) (λ pre, out ++ pre) group) as H.
  simpl in H. rewrite app_nil_r in H. apply H. intros pre b post _.
  eapply decides_iff; [eapply decides_bind; [apply decides_throw_if|]|].
  - intros _. rewrite <-app_assoc. apply decides_ok.
  - rewrite Nat.leb_gt. tauto.
Qed.

Lemma nnz_accum_spec (nested : list (list nat)) :
  (Z.of_nat (length (concat nested)) < 2 ^ 64)%Z →
  foldl (λ acc col, u64 (acc + length col)) 0 nested = length (concat nested).
Proof.
  intros H. cut (∀ k, (Z.of_nat (k + length (concat nested)) < 2 ^ 64)%Z →
    foldl (λ acc col, u64 (acc + length col)) k nested = k + length (concat nested)).
  { intros Hc. by apply (Hc 0). }
  clear H. induction nested as [|col nested IH]; intros k H; cbn [foldl concat] in *.
  - simpl. lia.
  - rewrite length_app in *. rewrite wrap_small by lia. rewrite IH by lia. lia.
Qed.

(** The pointer array while the first [j] groups are written. *)
Definition ptrs_upto (gs : list (list nat)) (j : nat) : list nat :=
  (λ k, if k <=? j then psum gs k else 0) <$> seq 0 (length gs + 1).

Lemma lookup_ptrs_upto gs j k :
  k ≤ length gs → ptrs_upto gs j !! k = Some (if k <=? j then psum gs k else 0).
Proof. intros. unfold ptrs_upto. by rewrite list_lookup_fmap, lookup_seq_lt by lia. Qed.

Lemma length_ptrs_upto gs j : length (ptrs_upto gs j) = length gs + 1.
Proof. unfold ptrs_upto. by rewrite length_fmap, length_seq. Qed.

Lemma ptrs_upto_0 gs : ptrs_upto gs 0 = replicate (length gs + 1) 0.
Proof.
  apply list_eq_same_length with (length gs + 1);
    [apply length_replicate|apply length_ptrs_upto|].
  intros k x y Hk Hx Hy. rewrite lookup_ptrs_upto in Hx by lia.
  apply lookup_replicate in Hy as [-> _]. destruct k; naive_solver.
Qed.

Lemma ptrs_upto_all gs : ptrs_upto gs (length gs) = ptrs_of gs.
Proof.
  apply list_eq_same_length with (length gs + 1);
    [apply length_ptrs_of|apply length_ptrs_upto|].
  intros k x y Hk Hx Hy. rewrite lookup_ptrs_upto in Hx by lia.
  rewrite lookup_ptrs_of in Hy by lia.
  by rewrite (proj2 (Nat.leb_le k (length gs))), Hy in Hx by lia; injection Hx.
Qed.

Lemma ptrs_upto_S gs j :
  j < length gs → <[j + 1 := psum gs (j + 1)]> (ptrs_upto gs j) = ptrs_upto gs (j + 1).
Proof.
  intros Hj. apply list_eq_same_length with (length gs + 1);
    [apply length_ptrs_upto|by rewrite length_insert, length_ptrs_upto|].
  intros k x y Hk Hx Hy. rewrite lookup_ptrs_upto in Hy by lia.
  destruct (decide (j + 1 = k)) as [<-|Hne].
  - rewrite list_lookup_insert_eq in Hx by (rewrite length_ptrs_upto; lia).
    rewrite Nat.leb_refl in Hy. congruence.
  - rewrite list_lookup_insert_ne, lookup_ptrs_upto in Hx by (done || lia).
    assert ((k <=? j) = (k <=? j + 1)) as E.
    { apply eq_true_iff_eq. rewrite !Nat.leb_le. lia. }
    rewrite E in Hx. congruence.
Qed.

(** Appending group by group writes the pointers and the indices of the
    groups. *)
Lemma nested_loop_decides n bound msg (nested : list (list nat)) :
  length nested = n → (Z.of_nat (n + 1) < 2 ^ 32)%Z →
  (Z.of_nat (length (concat nested)) < 2 ^ 32)%Z →
  decides
    (for_u 0 n (λ j st,
        let '(ptrs, idxs) := st in
        grp ← vget nested j;
        idxs ← push_group bound (InvalidArgument msg) grp idxs;
        ptrs ← vset ptrs (u32 (j + 1)) (u32 (length idxs));
        Ok (ptrs, idxs)) (replicate (n + 1) 0, []))
    (∀ i, i < n → ∀ grp, nested !! i = Some grp → ∀ x, x ∈ grp → x < bound)
    (ptrs_of nested, concat nested).
Proof.
  intros Hn Hn1 Hz. rewrite <-ptrs_upto_all, <-Hn, <-ptrs_upto_0.
  replace (concat nested) with (concat (take (length nested) nested)) by (by rewrite firstn_all).
  apply (decides_for_u_state (length nested) _ _
           (λ j, (ptrs_upto nested j, concat (take j nested)))).
  intros j Hj. cbv beta iota.
  destruct (lookup_lt_is_Some_2 nested j Hj) as [grp Hgrp].
  rewrite (vget_ok _ j grp) by done. cbn [mbind res_bind].
  eapply decides_iff; [eapply decides_bind; [apply push_group_decides|]|].
  - intros _. pose proof (psum_le nested (j + 1)) as Hle.
    replace (concat (take j nested) ++ grp) with (concat (take (j + 1) nested)).
    2:{ rewrite Nat.add_1_r, (take_S_r _ _ grp), concat_app by done. simpl. by rewrite app_nil_r. }
    fold (psum nested (j + 1)). rewrite !wrap_small by lia.
    rewrite vset_ok by (rewrite length_ptrs_upto; lia). cbn [mbind res_bind].
    rewrite ptrs_upto_S by done. apply decides_ok.
  - rewrite Hgrp. split; [intros [H _] ? [= <-]; done|]. intros H. split; [|done]. by apply H.
Qed.

(** The nested constructors accept exactly a list of the right length whose
    indices are in range and whose total size fits [index_type]. *)
Definition nested_ok (n bound : nat) (nested : list (list nat)) : Prop :=
  length nested = n ∧ (Z.of_nat (length (concat nested)) < 2 ^ 32)%Z ∧
  Forall (Forall (λ i, i < bound)) nested.

Lemma decides_nested {A} n bound m1 m2 m3 nested (mk : list nat * list nat → A) :
  (Z.of_nat (n + 1) < 2 ^ 32)%Z → (Z.of_nat (length (concat nested)) < 2 ^ 64)%Z →
  decides
    (_ ← throw_if (negb (length nested =? n)) (InvalidArgument m1);
     ptrs ← vset (replicate (u32 (n + 1)) 0) 0 0;
     _ ← throw_if_nnz_exceeds_index_range
           (foldl (λ acc col, u64 (acc + length col)) 0 nested) m2;
     st ← for_u 0 n (λ j st,
        let '(ptrs, idxs) := st in
        grp ← vget nested j;
        idxs ← push_group bound (InvalidArgument m3) grp idxs;
        ptrs ← vset ptrs (u32 (j + 1)) (u32 (length idxs));
        Ok (ptrs, idxs)) (ptrs, []);
     Ok (mk st)) (nested_ok n bound nested) (mk (ptrs_of nested, concat nested)).
Proof.
  intros Hn1 Hz64. unfold nested_ok. eapply decides_bind; [apply decides_eqb|]. intros Hn.
  rewrite wrap_small, vset_ok by (rewrite ?length_replicate; lia). cbn [mbind res_bind].
  rewrite list_insert_id by (apply lookup_replicate; split; [done|lia]).
  rewrite nnz_accum_spec by done. eapply decides_bind; [apply decides_nnz|]. intros Hz.
  eapply decides_iff; [eapply decides_bind; [by apply nested_loop_decides|]|].
  - intros _. apply decides_ok.
  - split.
    + intros [H _]. apply Forall_forall. intros l Hl. apply Forall_forall.
      apply list_elem_of_lookup in Hl as [i Hi]. apply (H i); [|done].
      apply lookup_lt_Some in Hi. lia.
    + intros H. split; [|done]. intros i _ grp Hgrp x Hx.
      rewrite Forall_forall in H. apply list_elem_of_lookup_2, H in Hgrp.
      rewrite Forall_forall in Hgrp. by apply Hgrp.
Qed.

Lemma from_nested_csc_decides r c nested :
  (Z.of_nat (c + 1) < 2 ^ 32)%Z → (Z.of_nat (length (concat nested)) < 2 ^ 64)%Z →
  decides (from_nested_csc r c nested) (nested_ok c r nested) (of_groups csc r c nested).
Proof. apply (decides_nested c r _ _ _ nested (λ st, mk_sparse csc r c st.1 st.2)). Qed.

Lemma from_nested_csr_decides r c nested :
  (Z.of_nat (r + 1) < 2 ^ 32)%Z → (Z.of_nat (length (concat nested)) < 2 ^ 64)%Z →
  decides (from_nested_csr r c nested) (nested_ok r c nested) (of_groups csr r c nested).
Proof. apply (decides_nested r c _ _ _ nested (λ st, mk_sparse csr r c st.1 st.2)). Qed.

(** ** Nested lists *)

Lemma assign_groups_spec m gs :
  represents m gs → assign_groups m (length gs) = Ok gs.
Proof.
  intros (_&Hp&Hi). unfold assign_groups.
  apply fill_loop. intros j l out Hl. pose proof (lookup_lt_Some _ _ _ Hl).
  rewrite Hp, !vget_ptrs_of by lia. cbn [mbind res_bind].
  unfold vslice. rewrite Hi, decide_True.
  2:{ split; [apply psum_mono; lia|apply psum_le]. }
  cbn [mbind res_bind]. by rewrite (slice_concat gs j l).
Qed.

(** Appending every value to the list of its key groups by key. *)
Lemma push_loop n (E : list entry) :
  Forall (λ e, e.1 < n) E →
  foldM (λ e out, push_at out e.1 e.2) E (replicate n []) = Ok (by_key n E).
Proof.
  intros Hk.
  destruct (foldM_inv (λ e out, push_at out e.1 e.2) (λ pre out, out = by_key n pre) E (replicate n []))
    as (out&->&->); [| |done].
  - apply list_eq_same_length with n; [by rewrite length_by_key|by rewrite length_replicate|].
    intros j x y Hj Hx Hy. apply lookup_replicate in Hx as [-> _].
    rewrite lookup_by_key in Hy by lia. by injection Hy.
  - intros pre e post out HE ->. destruct (split_entry _ _ _ _ _ Hk HE) as [He _].
    unfold push_at. res_step; [by apply lookup_by_key|].
    res_step; [by rewrite length_by_key|].
    apply list_eq_same_length with n;
      [by rewrite length_by_key|by rewrite length_insert, length_by_key|].
    intros j x y Hj Hx Hy. rewrite lookup_by_key, keyed_app, keyed_single in Hy by lia.
    destruct (decide (e.1 = j)) as [<-|Hne].
    + rewrite list_lookup_insert_eq in Hx by (by rewrite length_by_key). congruence.
    + rewrite list_lookup_insert_ne, lookup_by_key in Hx by (done || lia).
      rewrite app_nil_r in Hy. congruence.
Qed.

Lemma push_transposed_spec m gs n :
  represents m gs → Forall (Forall (λ i, i < n)) gs →
  push_transposed m (length gs) n = Ok (transposed n gs).
Proof.
  intros Hr Hb. unfold push_transposed. rewrite (for_entries_fold m gs) by done.
  by apply push_loop, entries_bound.
Qed.

Lemma wf_num_groups m gs : wf m gs → length gs = num_groups m.
Proof. by intros [(?&_) _ _ _ _]. Qed.

Lemma to_nested_csc_spec m gs :
  wf m gs → to_nested_csc m = Ok (if is_csc m then gs else transposed (num_cols_ m) gs).
Proof.
  intros Hwf. pose proof (wf_num_groups m gs Hwf) as Hl. destruct Hwf as [Hr Hb _ _ _].
  unfold to_nested_csc. unfold num_groups, index_bound in *.
  destruct (is_csc m); rewrite <-Hl; [by apply assign_groups_spec|by apply push_transposed_spec].
Qed.

Lemma to_nested_csr_spec m gs :
  wf m gs → to_nested_csr m = Ok (if is_csc m then transposed (num_rows_ m) gs else gs).
Proof.
  intros Hwf. pose proof (wf_num_groups m gs Hwf) as Hl. destruct Hwf as [Hr Hb _ _ _].
  unfold to_nested_csr. unfold num_groups, index_bound in *.
  destruct (is_csc m); rewrite <-Hl; [by apply push_transposed_spec|by apply assign_groups_spec].
Qed.

(** ** What regrouping preserves *)

Definition occ (x : nat) (l : list nat) : nat := count_occ Nat.eq_dec l x.

Lemma occ_app x l1 l2 : occ x (l1 ++ l2) = occ x l1 + occ x l2.
Proof. unfold occ. apply count_occ_app. Qed.

(** Multiplicities of entries survive the change of layout. *)
Lemma occ_keyed k gs g j :
  occ g (keyed j (entries_from k gs)) =
    if decide (k ≤ g) then match gs !! (g - k) with Some l => occ j l | None => 0 end else 0.
Proof.
  unfold occ. revert k. induction gs as [|l gs IH]; intros k; simpl; [by case_decide|].
  rewrite keyed_app, count_occ_app, IH.
  assert (∀ l, count_occ Nat.eq_dec (keyed j ((λ j, (j, k)) <$> l)) g =
               if decide (g = k) then count_occ Nat.eq_dec l j else 0) as ->.
  { clear. induction l as [|x l IH]; [by case_decide|].
    change ((λ j, (j, k)) <$> x :: l) with ([(x, k)] ++ ((λ j, (j, k)) <$> l)).
    rewrite keyed_app, count_occ_app, IH, keyed_single. simpl.
    destruct (decide (x = j)) as [->|], (decide (g = k)) as [->|];
      simpl; repeat destruct (Nat.eq_dec _ _); simpl; try lia; congruence. }
  destruct (decide (g = k)) as [->|].
  - rewrite Nat.sub_diag, (decide_True (P := k ≤ k)), (decide_False (P := S k ≤ k)) by lia. simpl. lia.
  - destruct (decide (k ≤ g)).
    + rewrite decide_True by lia. by replace (g - k) with (S (g - S k)) by lia.
    + by rewrite decide_False by lia.
Qed.

Lemma keyed_sorted k gs j :
  StronglySorted (≤) (keyed j (entries_from k gs)) ∧ Forall (λ g, k ≤ g) (keyed j (entries_from k gs)).
Proof.
  revert k. induction gs as [|l gs IH]; intros k; [by split; constructor|].
  cbn [entries_from]. rewrite keyed_app.
  destruct (IH (S k)) as [Hs Hge].
  assert (Forall (λ g, g = k) (keyed j ((λ j, (j, k)) <$> l))) as Hk.
  { apply Forall_forall. intros g Hg%elem_of_keyed. apply list_elem_of_fmap in Hg as (?&[= _ ->]&_). done. }
  split.
  - induction Hk as [|g ks -> Hk IHk]; [done|]. cbn [app]. constructor; [done|].
    apply Forall_app. split; eapply Forall_impl; [exact Hk|simpl; lia|exact Hge|simpl; lia].
  - apply Forall_app. split; eapply Forall_impl; [exact Hk|simpl; lia|exact Hge|simpl; lia].
Qed.

(** Regrouping twice sorts every group. *)
Lemma transposed_twice gs n :
  Forall (Forall (λ i, i < n)) gs →
  transposed (length gs) (transposed n gs) = merge_sort (≤) <$> gs.
Proof.
  intros Hb. apply list_eq_same_length with (length gs);
    [by rewrite length_fmap|by rewrite length_transposed|].
  intros g x y Hg Hx Hy. rewrite lookup_transposed in Hx by done.
  apply list_lookup_fmap_Some in Hy as (l&->&Hl). injection Hx as <-.
  apply (StronglySorted_unique (≤)).
  - apply keyed_sorted.
  - apply StronglySorted_merge_sort; apply _.
  - rewrite merge_sort_Permutation. apply (Permutation_count_occ Nat.eq_dec). intros j.
    fold (occ j (keyed g (entries_of (transposed n gs)))). fold (occ j l).
    rewrite occ_keyed, decide_True, Nat.sub_0_r by lia.
    destruct (decide (j < n)).
    + rewrite lookup_transposed, occ_keyed, decide_True, Nat.sub_0_r, Hl by lia. done.
    + rewrite lookup_ge_None_2 by (rewrite length_transposed; lia).
      unfold occ. symmetry. apply count_occ_not_In. rewrite <-list_elem_of_In. intros Hj.
      rewrite Forall_forall in Hb. apply list_elem_of_lookup_2, Hb in Hl.
      rewrite Forall_forall in Hl. apply Hl in Hj. lia.
Qed.
