(* ===== verification/SparseCanon.v ===== *)
(** * Sparse binary matrices: GF(2) canonical form and the sortedness check

    [canonicalize] sorts every group and keeps an index iff it occurs an odd
    number of times; [validate_sorted_unique_indices] accepts exactly the
    matrices whose groups are strictly increasing. *)

From S2P Require Import Prelude Ordering Tensor SparseMatrix SparseFacts.

(** The canonical form of one group. *)
Definition canon (l : list nat) : list nat :=
  let scratch := merge_sort (≤) l in collapse_runs (length scratch) scratch [].

Lemma collapse_runs_acc fuel read out :
  collapse_runs fuel read out = out ++ collapse_runs fuel read [].
Proof.
  revert read out. induction fuel as [|fuel IH]; intros read out; simpl.
  - by rewrite app_nil_r.
  - destruct read as [|val read]; [by rewrite app_nil_r|].
    rewrite IH, (IH _ (if Nat.odd _ then _ else _)). destruct (Nat.odd _); [|done].
    by rewrite app_assoc.
Qed.

(** The first run of a sorted list: all copies of its head. *)
Lemma run_split val read :
  StronglySorted (≤) (val :: read) →
  ∃ n tl, val :: read = replicate (S n) val ++ tl ∧
          run_length val (val :: read) = S n ∧
          StronglySorted (≤) tl ∧ Forall (λ x, val < x) tl.
Proof.
  revert val. induction read as [|x read IH]; intros val Hs.
  - exists 0, []. simpl. rewrite Nat.eqb_refl. split_and!; [done..|constructor|constructor].
  - inversion_clear Hs as [|? ? Hs' Hall]. inversion_clear Hall as [|? ? Hx Hall'].
    cbn [run_length]. rewrite Nat.eqb_refl. destruct (Nat.eqb_spec x val) as [->|Hne].
    + destruct (IH val Hs') as (n&tl&Heq&Hrun&?&?).
      cbn [run_length] in Hrun. rewrite Nat.eqb_refl in Hrun.
      exists (S n), tl. split_and!; [|by rewrite Hrun|done|done].
      rewrite Heq. done.
    + exists 0, (x :: read). split_and!; [done|done|done|].
      inversion_clear Hs' as [|? ? _ Hge].
      constructor; [lia|]. eapply Forall_impl; [exact Hge|]. simpl. lia.
Qed.

Lemma occ_replicate n val : occ val (replicate n val) = n.
Proof.
  unfold occ. induction n as [|n IH]; simpl; [done|].
  destruct (Nat.eq_dec val val); [by rewrite IH|done].
Qed.

Lemma occ_absent x l : x ∉ l → occ x l = 0.
Proof. intros H. apply count_occ_not_In. by rewrite <-list_elem_of_In. Qed.

Lemma collapse_spec fuel read :
  StronglySorted (≤) read → length read ≤ fuel →
  StronglySorted (<) (collapse_runs fuel read []) ∧
  ∀ x, x ∈ collapse_runs fuel read [] ↔ Nat.odd (occ x read) = true.
Proof.
  revert read. induction fuel as [|fuel IH]; intros read Hs Hf.
  { destruct read; [|simpl in Hf; lia]. split; [constructor|].
    intros x. simpl. split; [set_solver|done]. }
  destruct read as [|val read]; [split; [constructor|]; intros x; simpl; split; [set_solver|done]|].
  destruct (run_split val read Hs) as (n&tl&Heq&Hrun&Htl&Hgt).
  cbn [collapse_runs]. rewrite Hrun, Heq, collapse_runs_acc, drop_app_length' by
    (by rewrite length_replicate).
  assert (length tl ≤ fuel) as Hlen.
  { apply (f_equal length) in Heq. rewrite length_app, length_replicate in Heq. simpl in *. lia. }
  destruct (IH tl Htl Hlen) as [Hss Hmem].
  assert (∀ x, x ∈ collapse_runs fuel tl [] → val < x) as Hgt'.
  { intros x Hx. apply Hmem in Hx. rewrite Forall_forall in Hgt. apply Hgt.
    destruct (decide (x ∈ tl)) as [?|Hn]; [done|]. by rewrite occ_absent in Hx by done. }
  assert (occ val tl = 0) as Hval0.
  { apply occ_absent. rewrite Forall_forall in Hgt. intros Hv. specialize (Hgt _ Hv). lia. }
  split.
  - destruct (Nat.odd (S n)); [|done]. constructor; [done|]. by apply Forall_forall.
  - intros x. rewrite elem_of_app, Hmem. unfold occ. rewrite count_occ_app.
    fold (occ x (replicate (S n) val)) (occ x tl).
    destruct (decide (x = val)) as [->|Hne].
    + rewrite occ_replicate, Hval0, Nat.add_0_r. simpl (Nat.odd 0).
      destruct (Nat.odd (S n)) eqn:E; set_solver.
    + rewrite (occ_absent x (replicate _ _)).
      2:{ intros H%elem_of_replicate. naive_solver. }
      destruct (Nat.odd (S n)); set_solver.
Qed.

Lemma canon_spec l :
  StronglySorted (<) (canon l) ∧ ∀ x, x ∈ canon l ↔ Nat.odd (occ x l) = true.
Proof.
  unfold canon. destruct (collapse_spec (length (merge_sort (≤) l)) (merge_sort (≤) l)) as [Hs Hm].
  - apply StronglySorted_merge_sort; apply _.
  - done.
  - split; [done|]. intros x. rewrite Hm. unfold occ.
    by rewrite (proj1 (Permutation_count_occ Nat.eq_dec _ _) (merge_sort_Permutation (≤) l)).
Qed.

(** Strictly increasing lists are determined by their elements. *)
Lemma sorted_lt_nodup l : StronglySorted (<) l → NoDup l.
Proof.
  induction 1 as [|x l _ IH Hall]; constructor; [|done].
  intros Hx. rewrite Forall_forall in Hall. apply Hall in Hx. lia.
Qed.

Lemma sorted_lt_le l : StronglySorted (<) l → StronglySorted (≤) l.
Proof.
  induction 1 as [|x l _ IH Hall]; constructor; [done|].
  eapply Forall_impl; [exact Hall|]. simpl. lia.
Qed.

Lemma sorted_lt_ext l l' :
  StronglySorted (<) l → StronglySorted (<) l' → (∀ x, x ∈ l ↔ x ∈ l') → l = l'.
Proof.
  intros Hl Hl' H. apply (StronglySorted_unique (≤)); [by apply sorted_lt_le..|].
  apply NoDup_Permutation; [by apply sorted_lt_nodup..|done].
Qed.

Lemma occ_nodup l x : NoDup l → Nat.odd (occ x l) = true ↔ x ∈ l.
Proof.
  intros Hnd. unfold occ. destruct (decide (x ∈ l)) as [Hx|Hx].
  - rewrite (proj1 (NoDup_count_occ' Nat.eq_dec l)); [done|by apply NoDup_ListNoDup|].
    by apply list_elem_of_In.
  - fold (occ x l). by rewrite occ_absent.
Qed.

(** A strictly increasing group is its own canonical form. *)
Lemma canon_id l : StronglySorted (<) l → canon l = l.
Proof.
  intros Hl. destruct (canon_spec l) as [Hs Hm]. apply sorted_lt_ext; [done|done|].
  intros x. rewrite Hm. by apply occ_nodup, sorted_lt_nodup.
Qed.

Lemma canon_idemp l : canon (canon l) = canon l.
Proof. apply canon_id, canon_spec. Qed.

Lemma canon_bound b l : Forall (λ i, i < b) l → Forall (λ i, i < b) (canon l).
Proof.
  intros Hl. apply Forall_forall. intros x Hx. apply canon_spec in Hx.
  rewrite Forall_forall in Hl. apply Hl. destruct (decide (x ∈ l)); [done|].
  by rewrite occ_absent in Hx.
Qed.

Lemma length_canon l : length (canon l) ≤ length l.
Proof.
  destruct (canon_spec l) as [Hs Hm].
  apply (submseteq_length (canon l) l), NoDup_submseteq; [by apply sorted_lt_nodup|].
  intros x Hx. apply Hm in Hx. destruct (decide (x ∈ l)); [done|]. by rewrite occ_absent in Hx.
Qed.

(** ** [canonicalize] *)

Lemma concat_canon_le gs : length (concat (canon <$> gs)) ≤ length (concat gs).
Proof.
  induction gs as [|l gs IH]; cbn [fmap list_fmap concat]; [done|].
  rewrite !length_app. pose proof (length_canon l). lia.
Qed.

Lemma canonicalize_loop m gs :
  represents m gs → (Z.of_nat (length (concat gs)) < 2 ^ 32)%Z →
  for_u 0 (length gs) (λ g st,
    let '(new_ptr, new_idx) := st in
    begin ← vget (ptr_ m) g;
    end_ ← vget (ptr_ m) (g + 1);
    scratch ← vslice (indices_ m) begin end_;
    let scratch := merge_sort (≤) scratch in
    let new_idx := collapse_runs (length scratch) scratch new_idx in
    new_ptr ← vset new_ptr (g + 1) (u32 (length new_idx));
    Ok (new_ptr, new_idx)) (replicate (length gs + 1) 0, [])
  = Ok (ptrs_of (canon <$> gs), concat (canon <$> gs)).
Proof.
  intros (_&Hp&Hi) Hz. set (cs := canon <$> gs).
  assert (length cs = length gs) as Hlen by apply length_fmap.
  destruct (for_u_inv 0 (length gs) (λ g st,
    let '(new_ptr, new_idx) := st in
    begin ← vget (ptr_ m) g; end_ ← vget (ptr_ m) (g + 1);
    scratch ← vslice (indices_ m) begin end_;
    let scratch := merge_sort (≤) scratch in
    let new_idx := collapse_runs (length scratch) scratch new_idx in
    new_ptr ← vset new_ptr (g + 1) (u32 (length new_idx)); Ok (new_ptr, new_idx))
    (λ j st, st = (ptrs_upto cs j, concat (take j cs))) (replicate (length gs + 1) 0, []))
    as (st&->&->).
  - lia.
  - by rewrite ptrs_upto_0, Hlen.
  - intros j st Hj ->. destruct (lookup_lt_is_Some_2 gs j) as [l Hl]; [lia|].
    cbv beta iota zeta.
    rewrite Hp, !vget_ptrs_of by lia. cbn [mbind res_bind].
    unfold vslice. rewrite Hi, decide_True by (split; [apply psum_mono; lia|apply psum_le]).
    cbn [mbind res_bind]. rewrite (slice_concat gs j l), collapse_runs_acc by done.
    fold (canon l). assert (cs !! j = Some (canon l)) as Hcs
      by (unfold cs; by rewrite list_lookup_fmap, Hl).
    replace (concat (take j cs) ++ canon l) with (concat (take (j + 1) cs)).
    2:{ rewrite Nat.add_1_r, (take_S_r _ _ (canon l)), concat_app by done. simpl.
        by rewrite app_nil_r. }
    fold (psum cs (j + 1)). pose proof (psum_le cs (j + 1)). pose proof (concat_canon_le gs) as Hle.
    fold cs in Hle. rewrite wrap_small by lia.
    res_step; [rewrite length_ptrs_upto; lia|]. res_step.
    by rewrite ptrs_upto_S by lia.
  - by rewrite <-Hlen, ptrs_upto_all, firstn_all.
Qed.

Definition with_groups (m : sparse_binary_matrix) (gs : list (list nat)) :=
  of_groups (layout_ m) (num_rows_ m) (num_cols_ m) gs.

Lemma wf_canon m gs : wf m gs → wf (with_groups m (canon <$> gs)) (canon <$> gs).
Proof.
  intros [(Hl&Hp&Hi) Hb Hr Hc Hz]. unfold with_groups. apply wf_of_groups; [| |done|done|].
  - rewrite length_fmap. done.
  - apply Forall_fmap. eapply Forall_impl; [exact Hb|]. intros l Hl'. by apply canon_bound.
  - pose proof (concat_canon_le gs). lia.
Qed.

Lemma canonicalize_spec m gs :
  wf m gs → canonicalize m = Ok (with_groups m (canon <$> gs)).
Proof.
  intros Hwf. pose proof (wf_num_groups m gs Hwf) as Hl.
  pose proof (wf_canon m gs Hwf) as [Hrep' Hb' _ _ Hz'].
  destruct Hwf as [Hrep Hb Hr Hc Hz].
  unfold canonicalize. destruct Hrep as (Hl0&Hp&Hi).
  rewrite Hp, length_ptrs_of, <-Hl, Nat.eqb_refl, <-Hp.
  pose proof (canonicalize_loop m gs (conj Hl0 (conj Hp Hi)) Hz) as Hloop.
  cbv zeta in Hloop |- *. rewrite Hloop. cbn [mbind res_bind fst snd].
  assert (compressed_ok (num_groups m) (index_bound m) (ptrs_of (canon <$> gs)) (concat (canon <$> gs)))
    as Hok.
  { apply compressed_ok_groups. exists (canon <$> gs). rewrite length_fmap. done. }
  unfold with_groups, of_groups, num_groups, index_bound in *.
  destruct m as [[] r c p i]; cbn in *.
  - by eapply decides_returns; [apply from_csc_decides|].
  - by eapply decides_returns; [apply from_csr_decides|].
Qed.

(** ** [validate_sorted_unique_indices] *)

Lemma sorted_lt_lookup l :
  StronglySorted (<) l ↔
  ∀ i x y, l !! i = Some x → l !! (S i) = Some y → x < y.
Proof.
  split.
  - induction 1 as [|a l Hs IH Hall]; intros i x y Hx Hy; [done|].
    destruct i as [|i]; [|by apply (IH i)]. simpl in *. simplify_eq.
    rewrite Forall_forall in Hall. by eapply Hall, list_elem_of_lookup_2.
  - intros H. apply Sorted_StronglySorted; [intros ???; lia|].
    induction l as [|a l IH]; constructor.
    + apply IH. intros i x y. apply (H (S i)).
    + destruct l as [|b l]; constructor. by apply (H 0).
Qed.

Lemma group_check_decides bound (v : list nat) lo (l : list nat) m1 m2 :
  (∀ i x, l !! i = Some x → v !! (lo + i) = Some x) → Forall (λ i, i < bound) l →
  decides (for_u lo (lo + length l) (λ p _,
      idx ← vget v p;
      _ ← throw_if (bound <=? idx) (InvalidArgument m1);
      if lo <? p then prev ← vget v (p - 1); throw_if (idx <=? prev) (InvalidArgument m2)
      else Ok tt) tt) (StronglySorted (<) l) tt.
Proof.
  intros Hv Hb.
  eapply decides_iff; [apply decides_for_u with
    (P := λ p, ∀ x y, lo < p → v !! (p - 1) = Some x → v !! p = Some y → x < y)|].
  - intros p Hp. destruct (lookup_lt_is_Some_2 l (p - lo)) as [x Hx]; [lia|].
    pose proof (Hv _ _ Hx) as Hvx. replace (lo + (p - lo)) with p in Hvx by lia.
    rewrite (vget_ok _ p x) by done. cbn [mbind res_bind].
    eapply decides_iff; [eapply decides_bind with
      (Q := ∀ x y, lo < p → v !! (p - 1) = Some x → v !! p = Some y → x < y);
      [apply decides_throw_if|]|].
    + intros _. destruct (Nat.ltb_spec lo p) as [Hlt|Hge].
      * destruct (lookup_lt_is_Some_2 l (p - 1 - lo)) as [y Hy]; [lia|].
        pose proof (Hv _ _ Hy) as Hvy. replace (lo + (p - 1 - lo)) with (p - 1) in Hvy by lia.
        rewrite (vget_ok _ (p - 1) y) by done. cbn [mbind res_bind].
        eapply decides_iff; [apply decides_throw_if|].
        rewrite Nat.leb_gt, Hvx, Hvy. naive_solver.
      * eapply decides_iff; [apply decides_ok|]. split; [|done]. intros _ ???. lia.
    + rewrite Nat.leb_gt. rewrite Forall_forall in Hb. apply list_elem_of_lookup_2, Hb in Hx.
      tauto.
  - rewrite sorted_lt_lookup. split.
    + intros H i x y Hx Hy. apply (H (lo + S i)); [|lia| |by apply Hv].
      * apply lookup_lt_Some in Hy. lia.
      * replace (lo + S i - 1) with (lo + i) by lia. by apply Hv.
    + intros H p Hp x y Hlt Hx Hy.
      destruct (lookup_lt_is_Some_2 l (p - 1 - lo)) as [x' Hx']; [lia|].
      destruct (lookup_lt_is_Some_2 l (p - lo)) as [y' Hy']; [lia|].
      pose proof (Hv _ _ Hx') as Hvx. pose proof (Hv _ _ Hy') as Hvy.
      replace (lo + (p - 1 - lo)) with (p - 1) in Hvx by lia.
      replace (lo + (p - lo)) with p in Hvy by lia. simplify_eq.
      apply (H (p - 1 - lo)); [done|]. by replace (S (p - 1 - lo)) with (p - lo) by lia.
Qed.

Lemma validate_decides m gs whr :
  wf m gs →
  decides (validate_sorted_unique_indices m whr) (Forall (StronglySorted (<)) gs) tt.
Proof.
  intros Hwf. pose proof (wf_num_groups m gs Hwf) as Hl.
  destruct Hwf as [(_&Hp&Hi) Hb _ _ _]. unfold validate_sorted_unique_indices. cbv zeta.
  rewrite bool_decide_eq_false_2.
  2:{ intros (_&H&_). rewrite Hp in H. apply (f_equal length) in H.
      rewrite length_ptrs_of in H. simpl in H. lia. }
  rewrite Hp, Hi, length_ptrs_of, Hl, Nat.eqb_refl. cbn [negb throw_if mbind res_bind].
  rewrite <-Hl, Nat.add_sub, !vget_ptrs_of, psum_0, psum_all by lia.
  cbn [negb throw_if mbind res_bind Nat.eqb]. rewrite Nat.eqb_refl.
  cbn [negb throw_if mbind res_bind].
  eapply decides_iff; [apply decides_for_u with
    (P := λ g, ∀ l, gs !! g = Some l → StronglySorted (<) l)|].
  - intros g Hg. destruct (lookup_lt_is_Some_2 gs g) as [l Hlg]; [lia|].
    rewrite !vget_ptrs_of by lia. cbn [mbind res_bind].
    rewrite (psum_S gs g l) by done.
    pose proof (psum_le gs (g + 1)) as Hle. rewrite (psum_S gs g l) in Hle by done.
    rewrite (proj2 (Nat.ltb_ge (psum gs g + length l) (psum gs g))) by lia.
    rewrite (proj2 (Nat.ltb_ge (length (concat gs)) _)) by lia.
    cbn [orb throw_if mbind res_bind].
    eapply decides_iff; [apply group_check_decides|].
    + intros i x Hx. by apply (concat_lookup gs g l).
    + rewrite Forall_forall in Hb. by eapply Hb, list_elem_of_lookup_2.
    + rewrite Hlg. naive_solver.
  - rewrite Forall_forall. split.
    + intros H l Hl'%list_elem_of_lookup. destruct Hl' as [g Hg]. apply (H g); [|done].
      apply lookup_lt_Some in Hg. lia.
    + intros H g _ l Hg. by eapply H, list_elem_of_lookup_2.
Qed.

(** * Sparse binary matrices and dense tensors

    [to_dense] writes a 1 at every stored entry; the dense constructor lists
    the non-zero elements of every column (or row) in ascending order.  The
    two are inverse on 0/1 tensors and on sorted matrices. *)

(** ** [to_dense] *)

(** Element (row [i], column [j]) is stored. *)
Definition mentions (m : sparse_binary_matrix) (gs : list (list nat)) (i j : nat) : Prop :=
  if is_csc m then (i, j) ∈ entries_of gs else (j, i) ∈ entries_of gs.

#[global] Instance mentions_dec m gs i j : Decision (mentions m gs i j).
Proof. unfold mentions. destruct (is_csc m); apply _. Defined.

Definition bit (P : Prop) `{Decision P} : nat := if decide P then 1 else 0.

Lemma bit_iff P Q `{Decision P, Decision Q} : (P ↔ Q) → bit P = bit Q.
Proof. intros. unfold bit. repeat case_decide; tauto. Qed.

Lemma mentions_group m gs i j :
  mentions m gs i j ↔
  ∃ l, gs !! (if is_csc m then j else i) = Some l ∧ (if is_csc m then i else j) ∈ l.
Proof.
  unfold mentions. destruct (is_csc m); rewrite elem_of_entries, Nat.sub_0_r.
  - split; intros (l&?); exists l; naive_solver lia.
  - split; intros (l&?); exists l; naive_solver lia.
Qed.

(** [d] is the 0/1 tensor whose ones are the positions [P]. *)
Definition ones_at (r c : nat) (P : list entry) (d : tensor) : Prop :=
  wf2 r c d ∧ ∀ i j, i < r → j < c → elem2 d i j = Some (bit ((i, j) ∈ P)).

(** The element-writing loop, for positions [pos e]. *)
Lemma write_ones r c (E : list entry) (pos : entry → entry) :
  Forall (λ e, (pos e).1 < r ∧ (pos e).2 < c) E →
  returns (foldM (λ e d, set_at d [(pos e).1; (pos e).2] 1) E (tensor_of_shape [r; c]))
    (ones_at r c (pos <$> E)).
Proof.
  intros HE.
  apply (foldM_inv (λ e d, set_at d [(pos e).1; (pos e).2] 1) (λ pre, ones_at r c (pos <$> pre))).
  - split; [apply wf2_zeros|]. intros i j Hi Hj. by rewrite elem2_zeros.
  - intros pre e post d -> [Hwf Hd].
    apply Forall_app in HE as [_ [[Hr Hc] _]%Forall_cons_1].
    eapply returns_mono; [by apply set2_returns|].
    intros d' [Hwf' Hd']. split; [done|]. intros i j Hi Hj.
    rewrite Hd', Hd by done. rewrite fmap_app. cbn [fmap list_fmap]. unfold bit.
    destruct (pos e) as [x y] eqn:E; simpl. repeat case_decide; set_solver.
Qed.

Lemma entries_in_range m gs :
  wf m gs → Forall (λ e, e.1 < index_bound m ∧ e.2 < num_groups m) (entries_of gs).
Proof.
  intros Hwf. apply Forall_forall. intros [i g] Hig.
  pose proof (entries_bound 0 gs _ (wf_bound _ _ Hwf)) as Hb. rewrite Forall_forall in Hb.
  split; [by apply (Hb _ Hig)|]. apply elem_of_entries in Hig as (l&_&Hl&_).
  rewrite <-(wf_num_groups m gs) by done. apply lookup_lt_Some in Hl. simpl. lia.
Qed.

Lemma to_dense_returns m gs :
  wf m gs →
  returns (to_dense m) (λ d, wf2 (num_rows_ m) (num_cols_ m) d ∧
    ∀ i j, i < num_rows_ m → j < num_cols_ m → elem2 d i j = Some (bit (mentions m gs i j))).
Proof.
  intros Hwf. pose proof (entries_in_range m gs Hwf) as HE.
  pose proof (wf_num_groups m gs Hwf) as Hl.
  unfold to_dense. destruct (Nat.eqb_spec (num_cols_ m) 0) as [Hz|Hnz].
  { res_step. split; [apply wf2_zeros|]. lia. }
  unfold index_bound, num_groups in *. destruct (is_csc m) eqn:Hcsc.
  - rewrite <-Hl at 1. rewrite (for_entries_fold m gs) by apply Hwf.
    eapply returns_mono; [apply (write_ones _ _ (entries_of gs) id); exact HE|].
    intros d [Hd He]. split; [done|]. intros i j Hi Hj. rewrite He by done. f_equal.
    apply bit_iff. unfold mentions. by rewrite Hcsc, list_fmap_id.
  - rewrite <-Hl at 1. rewrite (for_entries_fold m gs) by apply Hwf.
    eapply returns_mono; [apply (write_ones _ _ (entries_of gs) (λ e, (e.2, e.1)))|].
    { eapply Forall_impl; [exact HE|]. simpl. tauto. }
    intros d [Hd He]. split; [done|]. intros i j Hi Hj. rewrite He by done. f_equal.
    apply bit_iff. unfold mentions. rewrite Hcsc, list_elem_of_fmap. split.
    + by intros ([a b]&[= -> ->]&?).
    + intros. by exists (j, i).
Qed.

(** ** The dense constructor *)

Definition nonzero (d : tensor) (i j : nat) : bool := bool_decide (elem2 d i j ≠ Some 0).

(** The non-zero positions in row-major order. *)
Definition nz_row (d : tensor) (c i : nat) : list nat := filter (nonzero d i) (seq 0 c).
Definition nz_col (d : tensor) (r j : nat) : list nat := filter (λ i, nonzero d i j) (seq 0 r).
Definition nz (d : tensor) (r c : nat) : list entry :=
  seq 0 r ≫= λ i, (λ j, (i, j)) <$> nz_row d c i.

Lemma foldM_filter {S B} (f : B → S → res S) (p : B → bool) l s :
  foldM (λ b s, if p b then f b s else Ok s) l s = foldM f (filter p l) s.
Proof.
  revert s. induction l as [|b l IH]; intros s; [done|].
  rewrite filter_cons. cbn [foldM]. destruct (p b) eqn:E; simpl.
  - destruct (f b s); simpl; auto.
  - apply IH.
Qed.

Lemma foldM_bind {S B C} (f : C → S → res S) (h : B → list C) l s :
  foldM f (l ≫= h) s = foldM (λ b, foldM f (h b)) l s.
Proof.
  revert s. induction l as [|b l IH]; intros s; [done|].
  cbn [mbind list_bind foldM]. rewrite foldM_app. destruct (foldM f (h b) s); simpl; auto.
Qed.

Lemma for_nonzeros_fold {S} d r c (body : nat → nat → S → res S) s :
  wf2 r c d → 0 < c →
  for_nonzeros d r c body s = foldM (λ e, body e.1 e.2) (nz d r c) s.
Proof.
  intros Hwf Hc. unfold for_nonzeros, for_u, nz. rewrite !Nat.sub_0_r, foldM_bind.
  apply foldM_ext. intros i s' Hi%elem_of_seq.
  rewrite (addr_row r c) by (done || lia). cbn [mbind res_bind].
  rewrite foldM_map. unfold nz_row. rewrite <-foldM_filter. apply foldM_ext. intros j s'' Hj%elem_of_seq.
  destruct (elem2_is_some r c d i j) as [x Hx]; [done|lia|lia|].
  rewrite (vget_ok _ _ x) by (rewrite (row_read r c) by (done || lia); done).
  cbn [mbind res_bind]. unfold nonzero. rewrite Hx.
  destruct (Nat.eqb_spec x 0) as [->|Hne].
  - by rewrite bool_decide_eq_false_2 by naive_solver.
  - rewrite bool_decide_eq_true_2; [done|]. congruence.
Qed.

Lemma elem_of_nz d r c i j :
  (i, j) ∈ nz d r c ↔ i < r ∧ j < c ∧ nonzero d i j = true.
Proof.
  unfold nz. rewrite list_elem_of_bind. split.
  - intros (i'&H&Hi%elem_of_seq). apply list_elem_of_fmap in H as (j'&[= -> ->]&H).
    apply list_elem_of_filter in H as [Hn Hj%elem_of_seq].
    apply Is_true_true in Hn. split_and!; [lia|lia|done].
  - intros (?&?&?). exists i. rewrite elem_of_seq. split; [|lia].
    apply list_elem_of_fmap. exists j. split; [done|]. apply list_elem_of_filter.
    rewrite elem_of_seq. split; [by apply Is_true_true|lia].
Qed.

Lemma filter_const_false {A} (P : A → Prop) `{∀ x, Decision (P x)} (l : list A) :
  (∀ x, x ∈ l → ¬ P x) → filter P l = [].
Proof. intros Hn. induction l as [|x l IH]; [done|]. rewrite filter_cons_False, IH; set_solver. Qed.
Lemma filter_const_true {A} (P : A → Prop) `{∀ x, Decision (P x)} (l : list A) :
  (∀ x, x ∈ l → P x) → filter P l = l.
Proof. intros Hn. induction l as [|x l IH]; [done|]. rewrite filter_cons_True, IH; set_solver. Qed.

Lemma keyed_same k (f : nat → entry) l : (∀ x, (f x).1 = k) → keyed k (f <$> l) = (snd ∘ f) <$> l.
Proof.
  intros Hf. unfold keyed. rewrite filter_const_true, <-list_fmap_compose; [done|].
  intros e (x&->&_)%list_elem_of_fmap. apply Hf.
Qed.
Lemma keyed_none k (f : nat → entry) l : (∀ x, (f x).1 ≠ k) → keyed k (f <$> l) = [].
Proof.
  intros Hf. unfold keyed. rewrite filter_const_false; [done|].
  intros e (x&->&_)%list_elem_of_fmap. apply Hf.
Qed.

Lemma keyed_rows d r c k :
  keyed k (nz d r c) = if decide (k < r) then nz_row d c k else [].
Proof.
  unfold nz. induction r as [|r IH]; [by case_decide; [lia|]|].
  rewrite seq_S, bind_app, keyed_app, IH. simpl. rewrite app_nil_r.
  destruct (decide (k = r)) as [->|Hne].
  - rewrite decide_False, decide_True by lia. rewrite keyed_same by done. apply list_fmap_id.
  - rewrite keyed_none by (simpl; lia). rewrite app_nil_r.
    repeat case_decide; (done || lia).
Qed.

Definition swap (e : entry) : entry := (e.2, e.1).

Lemma keyed_cols d r c k :
  keyed k (swap <$> nz d r c) = if decide (k < c) then nz_col d r k else [].
Proof.
  unfold nz, nz_col. induction r as [|r IH]; [by case_decide|].
  rewrite !seq_S, bind_app, fmap_app, keyed_app, IH, list.filter_app. simpl.
  rewrite app_nil_r, <-list_fmap_compose, filter_cons, filter_nil. unfold nz_row.
  cut (∀ n, keyed k ((swap ∘ (λ j, (r, j))) <$> filter (nonzero d r) (seq 0 n)) =
     if decide (k < n) then (if nonzero d r k then [r] else []) else []).
  { intros Hc. rewrite Hc. repeat case_decide; try done.
    all: destruct (nonzero d r k); try done; by rewrite app_nil_r. }
  intros n. induction n as [|n IHn]; [by rewrite decide_False by lia|].
  rewrite seq_S, list.filter_app, fmap_app, keyed_app, IHn, filter_cons, filter_nil. simpl.
  replace (if decide (nonzero d r n) then [n] else []) with (if nonzero d r n then [n] else [])
    by (by destruct (nonzero d r n)).
  destruct (decide (k = n)) as [->|Hne].
  - rewrite (decide_False (P := n < n)), (decide_True (P := n < S n)) by lia.
    destruct (nonzero d r n); simpl; [|done].
    rewrite keyed_single, decide_True by done. done.
  - assert (keyed k ((swap ∘ (λ j, (r, j))) <$> (if nonzero d r n then [n] else [])) = []) as ->.
    { destruct (nonzero d r n); [|done]. cbn [fmap list_fmap].
      rewrite keyed_single, decide_False; [done|]. simpl. lia. }
    rewrite app_nil_r. destruct (decide (k < n)).
    + by rewrite (decide_True (P := k < S n)) by lia.
    + by rewrite (decide_False (P := k < S n)) by lia.
Qed.

Definition dense_groups (lay : sparse_binary_matrix_layout) (d : tensor) (r c : nat) :=
  if bool_decide (lay = csc) then nz_col d r <$> seq 0 c else nz_row d c <$> seq 0 r.

Lemma by_key_rows d r c : by_key r (nz d r c) = dense_groups csr d r c.
Proof.
  apply list_fmap_ext. intros k i [-> Hi]%lookup_seq. by rewrite keyed_rows, decide_True by lia.
Qed.
Lemma by_key_cols d r c : by_key c (swap <$> nz d r c) = dense_groups csc d r c.
Proof.
  apply list_fmap_ext. intros k i [-> Hi]%lookup_seq. by rewrite keyed_cols, decide_True by lia.
Qed.

Lemma sum_sizes_acc l a :
  (Z.of_nat (a + sum_list l) < 2 ^ 64)%Z → foldl (λ acc x, u64 (acc + x)) a l = a + sum_list l.
Proof.
  revert a. induction l as [|x l IH]; intros a H; cbn [foldl] in *;
    [change (sum_list []) with 0; lia|].
  change (sum_list (x :: l)) with (x + sum_list l) in *.
  rewrite (wrap_small 64 (a + x)), IH by lia. lia.
Qed.

Lemma sum_counts n E : sum_list (counts n E) = below n E.
Proof.
  induction n as [|n IH]; [by rewrite below_0|].
  unfold counts in *. rewrite seq_S, fmap_app, sum_list_with_app, IH. cbn.
  rewrite <-Nat.add_1_r, below_S. lia.
Qed.

Lemma sum_sizes_counts n E :
  Forall (λ e, e.1 < n) E → (Z.of_nat (length E) < 2 ^ 64)%Z →
  sum_sizes (counts n E) = length E.
Proof.
  intros Hk Hz. unfold sum_sizes.
  rewrite sum_sizes_acc; rewrite sum_counts, below_all by done; [done|lia].
Qed.

(** Count, check the total, take prefix sums and scatter: the body both
    layouts share. *)
Lemma compress_decides n (E : list entry) ctx (mk : list nat → list nat → sparse_binary_matrix)
    (cnt : res (list nat)) (scatter : list nat → list nat * list nat → res (list nat * list nat)) :
  cnt = foldM (λ e, count_step e.1) E (replicate n 0) →
  (∀ ptr s, scatter ptr s = foldM (scatter_step ptr) E s) →
  Forall (λ e, e.1 < n) E → (Z.of_nat (length E) < 2 ^ 64)%Z →
  (∀ k, k < n → (Z.of_nat (length (keyed k E)) < 2 ^ 32)%Z) →
  decides
    (nnz ← cnt;
     _ ← throw_if_nnz_exceeds_index_range (sum_sizes nnz) ctx;
     ptr ← prefix_sums n nnz;
     back ← vget ptr (length ptr - 1);
     st ← scatter ptr (replicate back 0, replicate n 0);
     Ok (mk ptr st.1))
    (Z.of_nat (length E) < 2 ^ 32)%Z
    (mk (ptrs_of (by_key n E)) (concat (by_key n E))).
Proof.
  intros -> Hsc Hk Hz Hc. rewrite count_loop by done. cbn [mbind res_bind].
  rewrite sum_sizes_counts by done.
  eapply decides_iff; [eapply decides_bind; [apply decides_nnz|]|].
  - intros Hnnz. destruct (compress_spec n E Hk Hnnz) as [-> (st&Hst&Heq)]. cbn [mbind res_bind].
    rewrite length_ptrs_of, length_by_key, Nat.add_sub.
    rewrite vget_ptrs_of by (by rewrite length_by_key). cbn [mbind res_bind].
    rewrite psum_by_key, below_all, Hsc, Hst by done. cbn [mbind res_bind]. rewrite Heq. apply decides_ok.
  - tauto.
Qed.

Lemma length_nz_row d c i : length (nz_row d c i) ≤ c.
Proof. unfold nz_row. rewrite length_filter. by rewrite length_seq. Qed.
Lemma length_nz_col d r j : length (nz_col d r j) ≤ r.
Proof. unfold nz_col. rewrite length_filter. by rewrite length_seq. Qed.
Lemma length_nz d r c : length (nz d r c) ≤ r * c.
Proof.
  unfold nz. induction r as [|r IH]; [done|].
  rewrite seq_S, bind_app, length_app. simpl. rewrite app_nil_r, length_fmap.
  pose proof (length_nz_row d c r). lia.
Qed.

Lemma nz_rows_bound d r c : Forall (λ e, e.1 < r) (nz d r c).
Proof. apply Forall_forall. intros [i j] (?&?&?)%elem_of_nz. done. Qed.
Lemma nz_cols_bound d r c : Forall (λ e, e.1 < c) (swap <$> nz d r c).
Proof. apply Forall_fmap, Forall_forall. intros [i j] (?&?&?)%elem_of_nz. done. Qed.

(** The number of stored entries of the dense constructor. *)
Definition nnz_of (d : tensor) (r c : nat) : nat := length (nz d r c).

Definition dense_ok (d : tensor) (r c : nat) : Prop :=
  (Z.of_nat r < 2 ^ 32)%Z ∧ (Z.of_nat c < 2 ^ 32)%Z ∧ (Z.of_nat (nnz_of d r c) < 2 ^ 32)%Z.

Lemma dense_groups_empty lay d r c :
  r = 0 ∨ c = 0 →
  dense_groups lay d r c = replicate (if bool_decide (lay = csc) then c else r) [].
Proof.
  intros H. unfold dense_groups.
  case_bool_decide; destruct H as [->| ->]; try done.
  all: rewrite (const_fmap _ _ []) by done; by rewrite length_seq.
Qed.

Lemma concat_replicate_nil {A} n : concat (replicate n (@nil A)) = [].
Proof. induction n as [|n IH]; [done|]. simpl. done. Qed.

Lemma ptrs_of_empty n : ptrs_of (replicate n []) = replicate (n + 1) 0.
Proof.
  apply list_eq_same_length with (n + 1);
    [by rewrite length_replicate|by rewrite length_ptrs_of, length_replicate|].
  intros k x y Hk Hx [-> _]%lookup_replicate.
  rewrite lookup_ptrs_of in Hx by (rewrite length_replicate; lia).
  unfold psum in Hx. rewrite take_replicate, concat_replicate_nil in Hx. by injection Hx.
Qed.

Lemma of_dense_decides d lay r c :
  wf2 r c d →
  decides (of_dense d lay) (dense_ok d r c) (of_groups lay r c (dense_groups lay d r c)).
Proof.
  intros Hwf. unfold of_dense. rewrite (proj1 Hwf).
  eapply decides_iff; [eapply decides_bind with (Q := (Z.of_nat (nnz_of d r c) < 2 ^ 32)%Z);
    [apply decides_throw_if|]|].
  2:{ rewrite bool_decide_eq_false. unfold dense_ok, UINT32_MAX. split; intros; lia. }
  rewrite bool_decide_eq_false. unfold UINT32_MAX. intros Hdim.
  destruct ((r =? 0) || (c =? 0)) eqn:Hz.
  { apply orb_true_iff in Hz. rewrite !Nat.eqb_eq in Hz. unfold of_groups.
    rewrite dense_groups_empty, ptrs_of_empty, concat_replicate_nil by done.
    pose proof (length_nz d r c). unfold nnz_of.
    eapply decides_iff; [apply decides_ok|]. split; [|done]. intros _. nia. }
  apply orb_false_iff in Hz. rewrite !Nat.eqb_neq in Hz.
  assert (Z.of_nat (length (nz d r c)) < 2 ^ 64)%Z as Hlen.
  { pose proof (length_nz d r c). nia. }
  unfold of_groups. destruct lay.
  - rewrite <-by_key_cols, bool_decide_eq_true_2 by done.
    unfold nnz_of. rewrite <-(length_fmap swap (nz d r c)).
    apply (compress_decides c (swap <$> nz d r c) _ (mk_sparse csc r c) _
             (λ ptr, for_nonzeros d r c (λ i j, scatter_step ptr (j, u32 i)))); rewrite ?length_fmap.
    + rewrite (for_nonzeros_fold d r c) by (done || lia). by rewrite foldM_map.
    + intros ptr s. rewrite (for_nonzeros_fold d r c), foldM_map by (done || lia).
      apply foldM_ext. intros [i j] s' (?&?&?)%elem_of_nz. simpl fst. by rewrite wrap_small by lia.
    + apply nz_cols_bound.
    + done.
    + intros k Hk. rewrite keyed_cols, decide_True by done. pose proof (length_nz_col d r k). lia.
  - rewrite <-by_key_rows, bool_decide_eq_false_2 by done.
    apply (compress_decides r (nz d r c) _ (mk_sparse csr r c) _
             (λ ptr, for_nonzeros d r c (λ i j, scatter_step ptr (i, u32 j)))).
    + by rewrite (for_nonzeros_fold d r c) by (done || lia).
    + intros ptr s. rewrite (for_nonzeros_fold d r c) by (done || lia).
      apply foldM_ext. intros [i j] s' (?&?&?)%elem_of_nz. simpl snd. by rewrite wrap_small by lia.
    + apply nz_rows_bound.
    + done.
    + intros k Hk. rewrite keyed_rows, decide_True by done. pose proof (length_nz_row d c k). lia.
Qed.
