(* ===== verification/SparseProps.v ===== *)
(** * Sparse binary matrices: correctness

    The theorems about [SparseMatrix] as a whole: which arrays the
    constructors accept, that conversions preserve the matrix, the GF(2)
    canonical form and the round trips. *)

From S2P Require Import Prelude Ordering Tensor SparseMatrix SparseFacts SparseCanon.

(** The number of times row [i], column [j] is stored. *)
Definition multiplicity (m : sparse_binary_matrix) (gs : list (list nat)) (i j : nat) : nat :=
  if is_csc m then match gs !! j with Some l => occ i l | None => 0 end
  else match gs !! i with Some l => occ j l | None => 0 end.

Abbreviation sorted_groups := (Forall (StronglySorted (<))).

#[global] Instance wf_dec m gs : Decision (wf m gs).
Proof.
  refine (cast_if (decide (((length gs = num_groups m ∧ ptr_ m = ptrs_of gs ∧ indices_ m = concat gs) ∧
    Forall (Forall (λ i, i < index_bound m)) gs) ∧ (Z.of_nat (num_rows_ m) < 2 ^ 32)%Z ∧
    (Z.of_nat (num_cols_ m) < 2 ^ 32)%Z ∧ (Z.of_nat (length (concat gs)) < 2 ^ 32)%Z))).
  - constructor; unfold represents; tauto.
  - intros [? ? ? ? ?]. unfold represents in *. tauto.
Defined.

(** ** Helper lemmas *)

Lemma multiplicity_transposed m gs i j :
  wf m gs → i < num_rows_ m → j < num_cols_ m →
  multiplicity (of_groups (other m) (num_rows_ m) (num_cols_ m) (transposed (index_bound m) gs))
    (transposed (index_bound m) gs) i j = multiplicity m gs i j.
Proof.
  intros Hwf Hi Hj. unfold multiplicity, other, index_bound. destruct (is_csc m).
  - change (is_csc (of_groups csr _ _ _)) with false. cbv iota.
    rewrite lookup_transposed by done. by rewrite occ_keyed, decide_True, Nat.sub_0_r by lia.
  - change (is_csc (of_groups csc _ _ _)) with true. cbv iota.
    rewrite lookup_transposed by done. by rewrite occ_keyed, decide_True, Nat.sub_0_r by lia.
Qed.

Lemma sorted_transposed n gs : sorted_groups gs → sorted_groups (transposed n gs).
Proof.
  intros Hs. apply Forall_forall. intros l (j&Hl)%list_elem_of_lookup.
  pose proof (lookup_lt_Some _ _ _ Hl) as Hj. rewrite length_transposed in Hj.
  rewrite lookup_transposed in Hl by done. injection Hl as <-.
  destruct (keyed_sorted 0 gs j) as [Hle _].
  assert (NoDup (keyed j (entries_of gs))) as Hnd.
  { apply NoDup_ListNoDup, (NoDup_count_occ Nat.eq_dec). intros g.
    fold (occ g (keyed j (entries_of gs))). rewrite occ_keyed, decide_True, Nat.sub_0_r by lia.
    destruct (gs !! g) as [l|] eqn:Hg; [|lia].
    rewrite Forall_forall in Hs. apply list_elem_of_lookup_2, Hs, sorted_lt_nodup in Hg.
    by apply NoDup_count_occ, NoDup_ListNoDup. }
  revert Hle Hnd. generalize (keyed j (entries_of gs)). clear. intros l.
  induction 1 as [|x l Hs IH Hall]; intros Hnd; constructor; apply NoDup_cons in Hnd as [Hx Hnd].
  - by apply IH.
  - apply Forall_forall. intros y Hy. rewrite Forall_forall in Hall. specialize (Hall y Hy).
    destruct (decide (x = y)) as [->|]; [done|lia].
Qed.

Lemma sort_sorted gs : sorted_groups gs → merge_sort (≤) <$> gs = gs.
Proof.
  intros Hs. rewrite <-(list_fmap_id gs) at 2. apply list_fmap_ext. intros i l Hl.
  rewrite Forall_forall in Hs. apply list_elem_of_lookup_2, Hs, sorted_lt_le in Hl.
  apply (StronglySorted_unique (≤)); [apply StronglySorted_merge_sort; apply _|done|].
  apply merge_sort_Permutation.
Qed.

Lemma compressed_ok_wf lay r c ptrs idxs :
  (Z.of_nat r < 2 ^ 32)%Z → (Z.of_nat c < 2 ^ 32)%Z →
  compressed_ok (if bool_decide (lay = csc) then c else r)
    (if bool_decide (lay = csc) then r else c) ptrs idxs ↔
  ∃ gs, wf (mk_sparse lay r c ptrs idxs) gs.
Proof.
  intros Hr Hc. rewrite compressed_ok_groups. split.
  - intros (gs&?). exists gs. split; [split_and!|..]; naive_solver.
  - intros (gs&[(?&?&?) ? ? ? ?]). exists gs. naive_solver.
Qed.

(** The dense rows and columns are in range and strictly increasing. *)
Lemma seq_sorted n k : StronglySorted (<) (seq k n).
Proof.
  revert k. induction n as [|n IH]; intros k; constructor; [done|].
  apply Forall_forall. intros x Hx%elem_of_seq. lia.
Qed.

Lemma filter_sorted (P : nat → Prop) `{∀ x, Decision (P x)} l :
  StronglySorted (<) l → StronglySorted (<) (filter P l).
Proof.
  induction 1 as [|x l Hs IH Hall]; [constructor|]. rewrite filter_cons. case_decide; [|done].
  constructor; [done|]. rewrite Forall_forall in *. intros y [_ Hy]%list_elem_of_filter. by apply Hall.
Qed.

Lemma dense_groups_sorted lay d r c : sorted_groups (dense_groups lay d r c).
Proof.
  unfold dense_groups.
  case_bool_decide; apply Forall_fmap, Forall_forall; intros; apply filter_sorted, seq_sorted.
Qed.

Lemma mentions_dense lay d r c i j :
  mentions (of_groups lay r c (dense_groups lay d r c)) (dense_groups lay d r c) i j ↔
  i < r ∧ j < c ∧ nonzero d i j = true.
Proof.
  rewrite mentions_group. unfold dense_groups, is_csc, of_groups. cbn [layout_].
  case_bool_decide; setoid_rewrite list_lookup_fmap; split.
  - intros (l&Hl&Hi). destruct (seq 0 c !! j) as [j'|] eqn:Hj; [|done].
    apply lookup_seq in Hj as [-> Hj]. injection Hl as <-.
    apply list_elem_of_filter in Hi as [Hn Hi%elem_of_seq]. apply Is_true_true in Hn.
    split_and!; [lia|lia|done].
  - intros (Hi&Hj&Hn). rewrite lookup_seq_lt by done. eexists. split; [done|].
    apply list_elem_of_filter. rewrite elem_of_seq. split; [by apply Is_true_true|lia].
  - intros (l&Hl&Hi). destruct (seq 0 r !! i) as [j'|] eqn:Hj; [|done].
    apply lookup_seq in Hj as [-> Hj]. injection Hl as <-.
    apply list_elem_of_filter in Hi as [Hn Hi%elem_of_seq]. apply Is_true_true in Hn.
    split_and!; [lia|lia|done].
  - intros (Hi&Hj&Hn). rewrite lookup_seq_lt by done. eexists. split; [done|].
    apply list_elem_of_filter. rewrite elem_of_seq. split; [by apply Is_true_true|lia].
Qed.

Lemma length_concat_dense lay d r c :
  length (concat (dense_groups lay d r c)) = nnz_of d r c.
Proof.
  destruct lay; [rewrite <-by_key_cols|rewrite <-by_key_rows].
  - rewrite length_concat_by_key by apply nz_cols_bound. apply length_fmap.
  - by rewrite length_concat_by_key by apply nz_rows_bound.
Qed.

Lemma wf_dense lay d r c :
  dense_ok d r c → wf (of_groups lay r c (dense_groups lay d r c)) (dense_groups lay d r c).
Proof.
  intros (Hr&Hc&Hn). apply wf_of_groups; [| |done|done|by rewrite length_concat_dense].
  - unfold dense_groups. by case_bool_decide; rewrite length_fmap, length_seq.
  - unfold dense_groups. case_bool_decide.
    all: apply Forall_fmap, Forall_forall; intros x _; apply Forall_forall.
    all: intros y [_ Hy%elem_of_seq]%list_elem_of_filter; lia.
Qed.

(** Groups with the same members, sorted, are equal. *)
Lemma groups_ext gs gs' :
  length gs = length gs' → sorted_groups gs → sorted_groups gs' →
  (∀ k l l', gs !! k = Some l → gs' !! k = Some l' → ∀ x, x ∈ l ↔ x ∈ l') → gs = gs'.
Proof.
  intros Hlen Hs Hs' H. apply list_eq_same_length with (length gs); [done|done|].
  intros k x y _ Hx Hy. rewrite Forall_forall in Hs, Hs'.
  apply sorted_lt_ext; [by eapply Hs, list_elem_of_lookup_2|by eapply Hs', list_elem_of_lookup_2|].
  by apply (H k).
Qed.

(** ** Theorems *)

(** C31. [from_csc] and [from_csr] accept exactly the arrays that are the
    compressed form of some list of in-range groups, return them unchanged,
    and reject every other input with [std::invalid_argument]; no input makes
    them read out of bounds. *)
Theorem compressed_constructors_decide r c ptrs idxs :
  (Z.of_nat r < 2 ^ 32)%Z → (Z.of_nat c < 2 ^ 32)%Z →
  decides (from_csc r c ptrs idxs)
    (∃ gs, wf (mk_sparse csc r c ptrs idxs) gs) (mk_sparse csc r c ptrs idxs) ∧
  decides (from_csr r c ptrs idxs)
    (∃ gs, wf (mk_sparse csr r c ptrs idxs) gs) (mk_sparse csr r c ptrs idxs).
Proof.
  intros Hr Hc. split.
  - eapply decides_iff; [apply from_csc_decides|]. by apply (compressed_ok_wf csc).
  - eapply decides_iff; [apply from_csr_decides|]. by apply (compressed_ok_wf csr).
Qed.

Lemma compressed_constructors_decide_witness :
  from_csc 3 2 [0; 2; 3] [0; 2; 1] = Ok (mk_sparse csc 3 2 [0; 2; 3] [0; 2; 1]) ∧
  decides (from_csc 3 2 [0; 2; 3] [0; 2; 1])
    (∃ gs, wf (mk_sparse csc 3 2 [0; 2; 3] [0; 2; 1]) gs) (mk_sparse csc 3 2 [0; 2; 3] [0; 2; 1]).
Proof.
  split; [reflexivity|].
  apply (compressed_constructors_decide 3 2 [0; 2; 3] [0; 2; 1]); reflexivity.
Defined.

(** C32. The nested constructors accept exactly the nested lists of the right
    length with in-range indices whose total fits [index_type], and converting
    the result back to the same nested form returns the input unchanged. *)
Theorem nested_round_trip r c nested :
  (Z.of_nat (r + 1) < 2 ^ 32)%Z → (Z.of_nat (c + 1) < 2 ^ 32)%Z →
  (Z.of_nat (length (concat nested)) < 2 ^ 64)%Z →
  decides (from_nested_csc r c nested ≫= to_nested_csc) (nested_ok c r nested) nested ∧
  decides (from_nested_csr r c nested ≫= to_nested_csr) (nested_ok r c nested) nested.
Proof.
  intros Hr Hc Hz. split.
  - eapply decides_iff; [eapply decides_bind with (Q := True); [by apply from_nested_csc_decides|]|tauto].
    intros (Hl&Hn&Hb). rewrite (to_nested_csc_spec _ nested).
    + apply decides_ok.
    + apply wf_of_groups; (done || lia).
  - eapply decides_iff; [eapply decides_bind with (Q := True); [by apply from_nested_csr_decides|]|tauto].
    intros (Hl&Hn&Hb). rewrite (to_nested_csr_spec _ nested).
    + apply decides_ok.
    + apply wf_of_groups; (done || lia).
Qed.

Lemma nested_round_trip_witness :
  (from_nested_csc 3 2 [[0; 2]; [1]] ≫= to_nested_csc) = Ok [[0; 2]; [1]] ∧
  decides (from_nested_csc 3 2 [[0; 2]; [1]] ≫= to_nested_csc)
    (nested_ok 2 3 [[0; 2]; [1]]) [[0; 2]; [1]].
Proof. split; [reflexivity|]. apply (nested_round_trip 3 2 [[0; 2]; [1]]); reflexivity. Defined.

(** C30. Converting to the other layout returns a well-formed matrix of that
    layout and the same dimensions in which every position (row, column) is
    stored exactly as many times as before; duplicates are neither lost nor
    invented. *)
Theorem conversion_preserves_multiplicity m gs :
  wf m gs →
  returns (if is_csc m then to_csr m else to_csc m) (λ m',
    layout_ m' = other m ∧ num_rows_ m' = num_rows_ m ∧ num_cols_ m' = num_cols_ m ∧
    ∃ gs', wf m' gs' ∧ ∀ i j, i < num_rows_ m → j < num_cols_ m →
      multiplicity m' gs' i j = multiplicity m gs i j).
Proof.
  intros Hwf. pose proof (wf_transposed m gs Hwf) as Hwf'.
  pose proof (multiplicity_transposed m gs) as Hm.
  unfold other, index_bound in *. destruct (is_csc m) eqn:E.
  - rewrite (to_csr_spec m gs Hwf), E. apply returns_ok. split_and!; [done..|].
    eexists. split; [exact Hwf'|]. auto.
  - rewrite (to_csc_spec m gs Hwf), E. apply returns_ok. split_and!; [done..|].
    eexists. split; [exact Hwf'|]. auto.
Qed.

Definition example_csc : sparse_binary_matrix := of_groups csc 3 2 [[0; 2]; [1; 2]].

Lemma conversion_preserves_multiplicity_witness :
  to_csr example_csc = Ok (mk_sparse csr 3 2 [0; 1; 2; 4] [0; 1; 0; 1]) ∧
  returns (to_csr example_csc) (λ m', layout_ m' = csr).
Proof.
  split; [reflexivity|].
  eapply returns_mono; [apply (conversion_preserves_multiplicity example_csc [[0; 2]; [1; 2]])|].
  - apply (bool_decide_unpack _). vm_compute. exact I.
  - intros m' (H&_). exact H.
Defined.

(** On a matrix whose groups are strictly increasing, converting to the
    other layout and back returns the same matrix, array for array. *)
Theorem layout_round_trip m gs :
  wf m gs → sorted_groups gs →
  (if is_csc m then to_csr m ≫= to_csc else to_csc m ≫= to_csr) = Ok m.
Proof.
  intros Hwf Hs. pose proof (wf_transposed m gs Hwf) as Hwf'.
  pose proof (transposed_twice gs (index_bound m) (wf_bound _ _ Hwf)) as Htt.
  rewrite sort_sorted in Htt by done. rewrite (wf_num_groups m gs Hwf) in Htt.
  pose proof (wf_eq m gs Hwf) as Heq. unfold other, index_bound, num_groups in *.
  destruct (is_csc m) eqn:E.
  - rewrite (to_csr_spec m gs Hwf), E. cbn [mbind res_bind].
    rewrite (to_csc_spec _ _ Hwf').
    change (is_csc (of_groups csr _ _ _)) with false. cbv iota.
    change (num_cols_ (of_groups csr _ _ _)) with (num_cols_ m). rewrite Htt.
    unfold is_csc in E. apply bool_decide_eq_true in E. rewrite E in Heq. f_equal. symmetry. exact Heq.
  - rewrite (to_csc_spec m gs Hwf), E. cbn [mbind res_bind].
    rewrite (to_csr_spec _ _ Hwf').
    change (is_csc (of_groups csc _ _ _)) with true. cbv iota.
    change (num_rows_ (of_groups csc _ _ _)) with (num_rows_ m). rewrite Htt.
    unfold is_csc in E. apply bool_decide_eq_false in E.
    destruct (layout_ m); [done|]. f_equal. symmetry. exact Heq.
Qed.

Lemma layout_round_trip_witness : (to_csr example_csc ≫= to_csc) = Ok example_csc.
Proof.
  apply (layout_round_trip example_csc [[0; 2]; [1; 2]]).
  - apply (bool_decide_unpack _). vm_compute. exact I.
  - repeat constructor.
Defined.

(** The dense constructor accepts exactly the rank-2 tensors whose
    dimensions and number of non-zeros fit [index_type], in either layout, and
    [to_dense] of the result is the tensor itself when its elements are bits
    (in general, 1 where the element is non-zero). *)
Theorem dense_round_trip d lay r c :
  wf2 r c d → (∀ i j x, elem2 d i j = Some x → x ≤ 1) →
  decides (of_dense d lay ≫= to_dense) (dense_ok d r c) d.
Proof.
  intros Hwf Hbits.
  eapply decides_iff; [eapply decides_bind with (Q := True); [by apply of_dense_decides|]|tauto].
  intros Hok. pose proof (wf_dense lay d r c Hok) as Hwfm.
  destruct (to_dense_returns _ _ Hwfm) as (d'&->&Hwf'&He). left. split; [done|]. f_equal.
  apply (tensor2_ext r c); [done|done|]. intros i j Hi Hj.
  rewrite He by done. destruct (elem2_is_some r c d i j Hwf Hi Hj) as [x Hx].
  specialize (Hbits i j x Hx). rewrite Hx. f_equal. unfold bit.
  case_decide as Hm; rewrite mentions_dense in Hm; unfold nonzero in Hm; rewrite Hx in Hm.
  - destruct Hm as (_&_&Hm). apply bool_decide_eq_true in Hm. destruct x; [done|lia].
  - destruct x; [done|]. exfalso. apply Hm. split_and!; [done..|]. by apply bool_decide_eq_true.
Qed.

Definition example_dense : tensor := mk_tensor [2; 3] [0; 1; 1; 1; 0; 1].

Lemma dense_round_trip_witness :
  decides (of_dense example_dense csr ≫= to_dense) (dense_ok example_dense 2 3) example_dense ∧
  of_dense example_dense csr = Ok (mk_sparse csr 2 3 [0; 2; 4] [1; 2; 0; 2]).
Proof.
  split; [|reflexivity]. apply (dense_round_trip example_dense csr 2 3).
  - split; reflexivity.
  - intros i j x. unfold elem2. cbn [t_shape example_dense]. case_decide as H; [|discriminate].
    destruct i as [|[|i]], j as [|[|[|j]]]; cbn; intros; simplify_eq; lia.
Defined.

(** A matrix with strictly increasing groups is recovered, array for
    array, from its dense form. *)
Theorem sparse_round_trip m gs :
  wf m gs → sorted_groups gs →
  returns (to_dense m) (λ d, of_dense d (layout_ m) = Ok m).
Proof.
  intros Hwf Hs. destruct (to_dense_returns m gs Hwf) as (d&->&Hwf2&He). apply returns_ok.
  assert (∀ i j, i < num_rows_ m → j < num_cols_ m → nonzero d i j = true ↔ mentions m gs i j) as Hnz.
  { intros i j Hi Hj. unfold nonzero. rewrite He, bool_decide_eq_true by done.
    unfold bit. case_decide; naive_solver. }
  assert (dense_groups (layout_ m) d (num_rows_ m) (num_cols_ m) = gs) as Hgs.
  { pose proof (wf_num_groups m gs Hwf) as Hlen.
    apply groups_ext; [|apply dense_groups_sorted|done|].
    - rewrite Hlen. unfold dense_groups, num_groups, is_csc.
      by case_bool_decide; rewrite length_fmap, length_seq.
    - intros k l l' Hl Hl' x. pose proof (entries_in_range m gs Hwf) as Hr.
      pose proof (lookup_lt_Some _ _ _ Hl') as Hk. rewrite Hlen in Hk.
      rewrite Forall_forall in Hr. specialize (Hr (x, k)). rewrite elem_of_entries in Hr.
      rewrite Nat.sub_0_r in Hr. unfold index_bound, num_groups, is_csc, dense_groups in *.
      case_bool_decide as Hlay; rewrite list_lookup_fmap, lookup_seq_lt in Hl by done;
        injection Hl as <-; unfold nz_col, nz_row; rewrite list_elem_of_filter, elem_of_seq, Is_true_true.
      + specialize (Hnz x k). rewrite mentions_group in Hnz. unfold is_csc in Hnz.
        rewrite bool_decide_eq_true_2 in Hnz by done. naive_solver lia.
      + specialize (Hnz k x). rewrite mentions_group in Hnz. unfold is_csc in Hnz.
        rewrite bool_decide_eq_false_2 in Hnz by done. naive_solver lia. }
  destruct Hwf as [Hrep Hb Hr Hc Hz]. pose proof (of_dense_decides d (layout_ m) _ _ Hwf2) as Hd.
  rewrite Hgs, <-(wf_eq m gs) in Hd by done. eapply decides_returns; [exact Hd|].
  unfold dense_ok. rewrite <-(length_concat_dense (layout_ m)), Hgs. done.
Qed.

Lemma sparse_round_trip_witness :
  returns (to_dense example_csc) (λ d, of_dense d csc = Ok example_csc).
Proof.
  apply (sparse_round_trip example_csc [[0; 2]; [1; 2]]).
  - apply (bool_decide_unpack _). vm_compute. exact I.
  - repeat constructor.
Defined.

(** [canonicalize] returns a matrix of the same layout and dimensions
    whose groups are strictly increasing, in which a position is stored iff it
    was stored an odd number of times (the matrix over GF(2) is unchanged);
    it passes [validate_sorted_unique_indices] and canonicalising again
    changes nothing. *)
Theorem canonicalize_correct m gs whr :
  wf m gs →
  returns (canonicalize m) (λ m', ∃ gs', wf m' gs' ∧ sorted_groups gs' ∧
    layout_ m' = layout_ m ∧ num_rows_ m' = num_rows_ m ∧ num_cols_ m' = num_cols_ m ∧
    (∀ i j, mentions m' gs' i j ↔ Nat.odd (multiplicity m gs i j) = true) ∧
    validate_sorted_unique_indices m' whr = Ok tt ∧ canonicalize m' = Ok m').
Proof.
  intros Hwf. rewrite (canonicalize_spec m gs) by done. apply returns_ok.
  exists (canon <$> gs). pose proof (wf_canon m gs Hwf) as Hwf'.
  assert (sorted_groups (canon <$> gs)) as Hs by (apply Forall_fmap, Forall_forall; intros; apply canon_spec).
  split_and!; try done.
  - intros i j. rewrite mentions_group. unfold multiplicity.
    change (is_csc (with_groups m (canon <$> gs))) with (is_csc m).
    destruct (is_csc m); setoid_rewrite list_lookup_fmap.
    + destruct (gs !! j) as [l|]; [|naive_solver].
      setoid_rewrite <-(proj2 (canon_spec l)). naive_solver.
    + destruct (gs !! i) as [l|]; [|naive_solver].
      setoid_rewrite <-(proj2 (canon_spec l)). naive_solver.
  - by eapply decides_returns; [apply validate_decides|].
  - rewrite (canonicalize_spec _ (canon <$> gs)) by done. f_equal.
    unfold with_groups. cbn [layout_ num_rows_ num_cols_ of_groups]. f_equal.
    rewrite <-list_fmap_compose. apply list_fmap_ext. intros k l _. apply canon_idemp.
Qed.

Definition example_dup : sparse_binary_matrix := of_groups csr 2 4 [[3; 1; 3; 3]; [2; 2]].

Lemma canonicalize_correct_witness :
  canonicalize example_dup = Ok (of_groups csr 2 4 [[1; 3]; []]) ∧
  returns (canonicalize example_dup) (λ m', num_cols_ m' = 4).
Proof.
  split; [reflexivity|].
  eapply returns_mono; [apply (canonicalize_correct example_dup [[3; 1; 3; 3]; [2; 2]] "w")|].
  - apply (bool_decide_unpack _). vm_compute. exact I.
  - intros m' (gs'&_&_&_&_&H&_). exact H.
Defined.

(** [validate_sorted_unique_indices] accepts a well-formed matrix exactly
    when every column (or row) is strictly increasing, and otherwise throws
    [std::invalid_argument]. *)
Theorem validate_sorted_unique_decides m gs whr :
  wf m gs → decides (validate_sorted_unique_indices m whr) (sorted_groups gs) tt.
Proof. apply validate_decides. Qed.

Lemma validate_sorted_unique_decides_witness :
  decides (validate_sorted_unique_indices example_dup "w")
    (sorted_groups [[3; 1; 3; 3]; [2; 2]]) tt.
Proof.
  apply (validate_sorted_unique_decides example_dup [[3; 1; 3; 3]; [2; 2]] "w").
  apply (bool_decide_unpack _). vm_compute. exact I.
Defined.
