(* ===== verification/RoundLayout.v ===== *)
(** * Round layouts

    Model of [details::round_layout] (libs/qec/lib/round_layout.h, implemented
    in pcm_utils.cpp): detector rows are laid out as [B | S | ... | S | B], or
    uniformly when [B] is 0 or [S].  [size_t] arithmetic wraps at 64 bits. *)

From S2P Require Import Prelude.

(** Unsigned division; dividing by zero is undefined. *)
Definition udiv (a b : nat) : res nat := if b =? 0 then Undef else Ok (a / b).

Record round_layout := mk_layout {
  lay_S : nat;
  lay_B : nat;
  lay_num_rows : nat;
  lay_num_rounds : nat;
  lay_boundary : bool
}.

Definition make_round_layout (num_syndromes_per_round num_boundary_syndromes total_rows : nat)
    : res round_layout :=
  let '(s, b, rows) := (num_syndromes_per_round, num_boundary_syndromes, total_rows) in
  let boundary := negb (b =? 0) && negb (b =? s) in
  rounds ← (if negb boundary then udiv rows s
            else if u64 (2 * b) <=? rows then
              q ← udiv (u64_sub rows (u64 (2 * b))) s;
              Ok (u64 (q + 2))
            else Ok 0);
  Ok (mk_layout s b rows rounds boundary).

Definition round_start (l : round_layout) (r : nat) : nat :=
  if negb (lay_boundary l) then u64 (r * lay_S l)
  else if r =? 0 then 0
  else if lay_num_rounds l <=? r then lay_num_rows l
  else u64 (lay_B l + (r - 1) * lay_S l).

Definition round_width (l : round_layout) (r : nat) : nat :=
  u64_sub (round_start l (r + 1)) (round_start l r).

Definition row_to_round (l : round_layout) (row : nat) : res nat :=
  if negb (lay_boundary l) then udiv row (lay_S l)
  else if row <? lay_B l then Ok 0
  else if u64_sub (lay_num_rows l) (lay_B l) <=? row then Ok (u64_sub (lay_num_rounds l) 1)
  else q ← udiv (row - lay_B l) (lay_S l); Ok (u64 (1 + q)).

(** ** Consistent layouts

    The parameters the callers accept: [uint32_t] widths with a non-zero
    interior round, the boundary no wider than an interior round, and rows
    that split evenly into rounds. *)
Record consistent (s b rows : nat) : Prop := {
  cons_S : 0 < s;
  cons_B : b ≤ s;
  cons_u32 : (Z.of_nat s < 2 ^ 32)%Z;
  cons_rows_u32 : (Z.of_nat rows < 2 ^ 32)%Z;
  cons_rows : if (b =? 0) || (b =? s) then rows mod s = 0
              else 2 * b ≤ rows ∧ (rows - 2 * b) mod s = 0
}.

#[global] Instance if_dec (c : bool) (P Q : Prop) `{Decision P, Decision Q} :
  Decision (if c then P else Q).
Proof. destruct c; assumption. Defined.

#[global] Instance consistent_dec s b rows : Decision (consistent s b rows).
Proof.
  refine (cast_if (decide ((0 < s ∧ b ≤ s) ∧ ((Z.of_nat s < 2 ^ 32)%Z ∧ (Z.of_nat rows < 2 ^ 32)%Z) ∧
    (if (b =? 0) || (b =? s) then rows mod s = 0 else 2 * b ≤ rows ∧ (rows - 2 * b) mod s = 0)))).
  - constructor; tauto.
  - intros [????H]. tauto.
Defined.

(** The number of rounds of the layout, and the specification of its rows:
    round [r] covers the rows from [start r] on. *)
Definition rounds_of (s b rows : nat) : nat :=
  if (b =? 0) || (b =? s) then rows / s else (rows - 2 * b) / s + 2.

Definition the_layout (s b rows : nat) : round_layout :=
  mk_layout s b rows (rounds_of s b rows) (negb ((b =? 0) || (b =? s))).

Lemma udiv_ok a b : 0 < b → udiv a b = Ok (a / b).
Proof. intros. unfold udiv. by rewrite (proj2 (Nat.eqb_neq b 0)) by lia. Qed.

Lemma make_round_layout_ok s b rows :
  consistent s b rows → make_round_layout s b rows = Ok (the_layout s b rows).
Proof.
  intros [Hs Hb Hs32 Hr32 Hrows]. unfold make_round_layout, the_layout, rounds_of.
  rewrite <-negb_orb. destruct ((b =? 0) || (b =? s)); cbn [negb].
  - by rewrite udiv_ok by done.
  - destruct Hrows as [H2b Hmod]. rewrite (wrap_small 64 (2 * b)) by lia.
    rewrite (proj2 (Nat.leb_le _ _)) by lia.
    rewrite u64_sub_le, udiv_ok by lia. cbn [mbind res_bind]. rewrite wrap_small; [done|].
    assert ((rows - 2 * b) / s ≤ rows - 2 * b) by (apply Nat.Div0.div_le_upper_bound; nia). lia.
Qed.

(** Rows of a boundary layout: [B + n * S + B]. *)
Lemma consistent_rows s b rows :
  consistent s b rows →
  if (b =? 0) || (b =? s) then rows = rounds_of s b rows * s
  else ∃ n, rows = b + n * s + b ∧ rounds_of s b rows = n + 2.
Proof.
  intros [Hs Hb _ _ Hrows]. unfold rounds_of. destruct ((b =? 0) || (b =? s)).
  - rewrite (Nat.div_mod_eq rows s) at 1. lia.
  - destruct Hrows as [H2b Hmod]. exists ((rows - 2 * b) / s). split; [|done].
    pose proof (Nat.div_mod_eq (rows - 2 * b) s). lia.
Qed.

Lemma div_range a s q : 0 < s → a / s = q ↔ q * s ≤ a < (q + 1) * s.
Proof.
  intros Hs. split.
  - intros <-. pose proof (Nat.div_mod_eq a s). pose proof (Nat.mod_upper_bound a s). nia.
  - intros [? ?]. symmetry. apply (Nat.div_unique a s q (a - q * s)); nia.
Qed.

Section layout.
Context (s b rows : nat).
Hypothesis Hcons : consistent s b rows.
Let l := the_layout s b rows.

(** [round_start] without wrap-around. *)
Lemma round_start_val r :
  r ≤ rounds_of s b rows →
  round_start l r =
    if (b =? 0) || (b =? s) then r * s
    else if r =? 0 then 0 else if rounds_of s b rows <=? r then rows else b + (r - 1) * s.
Proof using Hcons.
  intros Hr. pose proof (consistent_rows _ _ _ Hcons) as Hrows. destruct Hcons as [Hs Hb Hs32 Hr32 _].
  unfold round_start, l, the_layout. cbn.
  destruct ((b =? 0) || (b =? s)); cbn [negb].
  - rewrite wrap_small; [done|]. nia.
  - destruct Hrows as (n&->&Hn). rewrite Hn in *. destruct (Nat.eqb_spec r 0); [done|].
    destruct (Nat.leb_spec (n + 2) r); [done|]. rewrite wrap_small; [done|]. nia.
Qed.

Lemma round_start_end : round_start l (rounds_of s b rows) = rows.
Proof using Hcons.
  rewrite round_start_val by done. pose proof (consistent_rows _ _ _ Hcons) as Hrows.
  destruct ((b =? 0) || (b =? s)); [lia|]. destruct Hrows as (n&?&->).
  rewrite (proj2 (Nat.eqb_neq _ _)), Nat.leb_refl by lia. done.
Qed.

Lemma round_start_0 : round_start l 0 = 0.
Proof using Hcons. rewrite round_start_val by lia. by destruct ((b =? 0) || (b =? s)). Qed.

(** The width of a round: [B] at the two ends of a boundary layout, [S]
    elsewhere. *)
Lemma round_start_S r :
  r < rounds_of s b rows →
  round_start l (r + 1) = round_start l r +
    (if (b =? 0) || (b =? s) then s
     else if (r =? 0) || (r + 1 =? rounds_of s b rows) then b else s).
Proof using Hcons.
  intros Hr. rewrite !round_start_val by lia. pose proof (consistent_rows _ _ _ Hcons) as Hrows.
  destruct ((b =? 0) || (b =? s)); [lia|]. destruct Hrows as (n&Hn&Hm). rewrite Hm in *.
  destruct (Nat.eqb_spec (r + 1) 0); [lia|]. rewrite Nat.add_sub.
  destruct (Nat.leb_spec (n + 2) (r + 1)), (Nat.leb_spec (n + 2) r), (Nat.eqb_spec r 0),
    (Nat.eqb_spec (r + 1) (n + 2)); cbn [orb]; try lia; subst; try nia.
Qed.

Lemma round_start_mono r r' :
  r ≤ r' → r' ≤ rounds_of s b rows → round_start l r ≤ round_start l r'.
Proof using Hcons.
  induction 1 as [|r' ? IH]; intros Hr'; [done|].
  rewrite <-Nat.add_1_r, round_start_S by lia. specialize (IH ltac:(lia)). lia.
Qed.

Lemma round_start_u32 r : r ≤ rounds_of s b rows → round_start l r ≤ rows.
Proof using Hcons. intros. rewrite <-round_start_end. by apply round_start_mono. Qed.

Lemma row_to_round_ok row :
  row < rows →
  ∃ r, row_to_round l row = Ok r ∧ r < rounds_of s b rows ∧
       round_start l r ≤ row < round_start l (r + 1).
Proof using Hcons.
  intros Hrow. pose proof (consistent_rows _ _ _ Hcons) as Hrows. pose proof Hcons as [Hs Hb Hs32 Hr32 _].
  unfold row_to_round. cbn [l the_layout lay_boundary lay_S lay_B lay_num_rows lay_num_rounds].
  destruct ((b =? 0) || (b =? s)) eqn:E; cbn [negb].
  - rewrite udiv_ok by done. exists (row / s). pose proof (proj1 (div_range row s _ Hs) eq_refl) as Hd.
    assert (row / s < rounds_of s b rows) by nia. split_and!; [done|done| |].
    all: rewrite round_start_val, E by lia; lia.
  - destruct Hrows as (n&Hn&Hm). destruct (Nat.ltb_spec row b).
    { exists 0. rewrite Hm. split_and!; [done|lia|rewrite round_start_0; lia|].
      rewrite round_start_val, E, Hm by lia. cbn.
      destruct (Nat.leb_spec (n + 2) 1); lia. }
    rewrite !u64_sub_le by nia. destruct (Nat.leb_spec (rows - b) row).
    { exists (n + 1). rewrite Hm. split_and!; [f_equal; lia|lia| |].
      - rewrite round_start_val, E, Hm by lia.
        destruct (Nat.eqb_spec (n + 1) 0), (Nat.leb_spec (n + 2) (n + 1)); try lia; nia.
      - replace (n + 1 + 1) with (rounds_of s b rows) by lia. by rewrite round_start_end. }
    rewrite udiv_ok by done. cbn [mbind res_bind].
    pose proof (proj1 (div_range (row - b) s _ Hs) eq_refl) as Hd. set (q := (row - b) / s) in *.
    assert (q < n) by nia. exists (1 + q). rewrite wrap_small by nia.
    split_and!; [done|lia| |]; rewrite round_start_val, E, Hm by lia.
    + destruct (Nat.eqb_spec (1 + q) 0), (Nat.leb_spec (n + 2) (1 + q)); try lia; nia.
    + destruct (Nat.eqb_spec (1 + q + 1) 0), (Nat.leb_spec (n + 2) (1 + q + 1)); try lia; nia.
Qed.
End layout.

Lemma round_unique s b rows row r r' :
  consistent s b rows → r < rounds_of s b rows → r' < rounds_of s b rows →
  round_start (the_layout s b rows) r ≤ row < round_start (the_layout s b rows) (r + 1) →
  round_start (the_layout s b rows) r' ≤ row < round_start (the_layout s b rows) (r' + 1) →
  r = r'.
Proof.
  intros Hc Hr Hr' H H'. destruct (lt_eq_lt_dec r r') as [[Hlt|?]|Hlt]; [|done|].
  - pose proof (round_start_mono s b rows Hc (r + 1) r'). lia.
  - pose proof (round_start_mono s b rows Hc (r' + 1) r). lia.
Qed.

(** ** Theorems *)

(** For every consistent layout the constructor succeeds, [round_start]
    runs from 0 to the number of rows, every round has its documented width
    ([B] for the first and last round of a boundary layout, [S] otherwise),
    and [row_to_round] returns the one round whose row range contains the
    row. *)
Theorem round_layout_correct s b rows :
  consistent s b rows →
  returns (make_round_layout s b rows) (λ l,
    round_start l 0 = 0 ∧ round_start l (lay_num_rounds l) = rows ∧
    (∀ r, r < lay_num_rounds l → round_width l r =
       if lay_boundary l && ((r =? 0) || (r + 1 =? lay_num_rounds l)) then b else s) ∧
    (∀ row r, row < rows → r < lay_num_rounds l →
       row_to_round l row = Ok r ↔ round_start l r ≤ row < round_start l (r + 1))).
Proof.
  intros Hc. rewrite make_round_layout_ok by done. apply returns_ok.
  split_and!; [by apply round_start_0|by apply round_start_end| |].
  - intros r Hr. unfold round_width. pose proof (cons_rows_u32 _ _ _ Hc).
    pose proof (round_start_u32 s b rows Hc (r + 1)) as Hle. cbn [the_layout lay_num_rounds] in Hr.
    rewrite u64_sub_le; [|apply round_start_mono; (done || lia)|lia].
    rewrite round_start_S by done. cbn [the_layout lay_boundary lay_num_rounds].
    destruct ((b =? 0) || (b =? s)); cbn [negb andb]; [lia|].
    destruct ((r =? 0) || (r + 1 =? rounds_of s b rows)); lia.
  - intros row r Hrow Hr. destruct (row_to_round_ok s b rows Hc row Hrow) as (r'&->&Hr'&Hrng).
    split; [intros [= ->]; done|]. intros H. f_equal. by apply (round_unique s b rows row).
Qed.

Lemma round_layout_correct_witness :
  returns (make_round_layout 4 2 12) (λ l, round_start l (lay_num_rounds l) = 12) ∧
  make_round_layout 4 2 12 = Ok (mk_layout 4 2 12 4 true).
Proof.
  split; [|reflexivity]. eapply returns_mono; [apply (round_layout_correct 4 2 12)|].
  - apply (bool_decide_unpack _). vm_compute. exact I.
  - intros l (_&H&_). exact H.
Defined.
