(* ===== verification/PcmSort.v ===== *)
(** * Topological column order of a parity check matrix

    Model of [sorted_pcm_column_indices_impl] and its overloads, of
    [pcm_is_sorted] and of [dense_to_sparse] (libs/qec/lib/pcm_utils.cpp).

    The comparator walks two columns from both ends at once.  The file proves
    that it is the lexicographic order on the sequence (first round, last
    round, first row, last row, second row, second to last row, ...), a
    prefix coming first and ties broken by the column index; so it is a strict
    total order, and [std::sort] can return only one list. *)

From S2P Require Import Prelude Ordering Tensor SparseMatrix SparseFacts SparseCanon RoundLayout.

(** ** The comparator *)

(** The [do { ... } while (true)] loop.  The iterators are positions; every
    iteration shortens both ranges, so the length of the first column is
    enough fuel. *)
Fixpoint ping_pong (fuel a b : nat) (a_vec b_vec : list nat)
    (a_head a_tail b_head b_tail : nat) : res bool :=
  match fuel with
  | 0 => Undef
  | S fuel =>
      x ← vget a_vec a_head;
      y ← vget b_vec b_head;
      if negb (x =? y) then Ok (x <? y) else
      if (a_head =? a_tail) && negb (b_head =? b_tail) then Ok true else
      if negb (a_head =? a_tail) && (b_head =? b_tail) then Ok false else
      if (a_head =? a_tail) && (b_head =? b_tail) then Ok (a <? b) else
      x' ← vget a_vec a_tail;
      y' ← vget b_vec b_tail;
      if negb (x' =? y') then Ok (x' <? y') else
      let a_head := a_head + 1 in
      let b_head := b_head + 1 in
      if (a_head =? a_tail) && negb (b_head =? b_tail) then Ok true else
      if negb (a_head =? a_tail) && (b_head =? b_tail) then Ok false else
      if (a_head =? a_tail) && (b_head =? b_tail) then Ok (a <? b) else
      ping_pong fuel a b a_vec b_vec a_head (a_tail - 1) b_head (b_tail - 1)
  end.

Definition column_less (row_indices : list (list nat)) (use_rounds : bool)
    (round_of : nat → nat) (a b : nat) : res bool :=
  a_vec ← vget row_indices a;
  b_vec ← vget row_indices b;
  if (length a_vec =? 0) && negb (length b_vec =? 0) then Ok true else
  if negb (length a_vec =? 0) && (length b_vec =? 0) then Ok false else
  if (length a_vec =? 0) && (length b_vec =? 0) then Ok (a <? b) else
  let a_tail := length a_vec - 1 in
  let b_tail := length b_vec - 1 in
  a_first ← vget a_vec 0;
  a_last ← vget a_vec a_tail;
  b_first ← vget b_vec 0;
  b_last ← vget b_vec b_tail;
  if use_rounds && negb (round_of a_first =? round_of b_first)
  then Ok (round_of a_first <? round_of b_first) else
  if use_rounds && negb (round_of a_last =? round_of b_last)
  then Ok (round_of a_last <? round_of b_last) else
  ping_pong (length a_vec) a b a_vec b_vec 0 a_tail 0 b_tail.

Definition sorted_pcm_column_indices_impl (row_indices : list (list nat)) (use_rounds : bool)
    (round_of : nat → nat) : list nat :=
  std_sort (column_less row_indices use_rounds round_of)
    (u32 <$> seq 0 (length row_indices)).

Definition get_sorted_pcm_column_indices (row_indices : list (list nat))
    (num_syndromes_per_round : nat) : list nat :=
  sorted_pcm_column_indices_impl row_indices (0 <? num_syndromes_per_round)
    (λ r, r / num_syndromes_per_round).

Definition boundary_round_of (num_syndromes_per_round num_boundary_syndromes r : nat) : nat :=
  if r <? num_boundary_syndromes then 0
  else u32 (1 + (r - num_boundary_syndromes) / num_syndromes_per_round).

Definition get_sorted_pcm_column_indices_boundary (row_indices : list (list nat))
    (num_syndromes_per_round num_boundary_syndromes : nat) : res (list nat) :=
  _ ← throw_if (num_syndromes_per_round =? 0)
        (InvalidArgument "get_sorted_pcm_column_indices: num_syndromes_per_round must be non-zero when num_boundary_syndromes is specified");
  _ ← throw_if (num_syndromes_per_round <? num_boundary_syndromes)
        (InvalidArgument "get_sorted_pcm_column_indices: num_boundary_syndromes must be <= num_syndromes_per_round");
  Ok (sorted_pcm_column_indices_impl row_indices true
        (boundary_round_of num_syndromes_per_round num_boundary_syndromes)).

(** [for (c < num_cols) if (column_indices\[c\] != c) return false;] *)
Fixpoint indices_are_iota (c : nat) (n : nat) (column_indices : list nat) : res bool :=
  match n with
  | 0 => Ok true
  | S n => x ← vget column_indices c;
           if negb (x =? c) then Ok false else indices_are_iota (c + 1) n column_indices
  end.

Definition pcm_is_sorted (sparse_pcm : list (list nat)) (num_syndromes_per_round : nat) : res bool :=
  indices_are_iota 0 (length sparse_pcm)
    (get_sorted_pcm_column_indices sparse_pcm num_syndromes_per_round).

Definition pcm_is_sorted_boundary (sparse_pcm : list (list nat))
    (num_syndromes_per_round num_boundary_syndromes : nat) : res bool :=
  column_indices ← get_sorted_pcm_column_indices_boundary sparse_pcm
                     num_syndromes_per_round num_boundary_syndromes;
  indices_are_iota 0 (length sparse_pcm) column_indices.

(** ** Dense overloads *)

Definition dense_to_sparse (pcm : tensor) : res (list (list nat)) :=
  match t_shape pcm with
  | [num_rows; num_cols] =>
      for_nonzeros pcm num_rows num_cols
        (λ r c row_indices, push_at row_indices c (u32 r)) (replicate num_cols [])
  | _ => Throw (InvalidArgument "dense_to_sparse: PCM must be a 2D tensor")
  end.

Definition get_sorted_pcm_column_indices_dense (pcm : tensor) (num_syndromes_per_round : nat)
    : res (list nat) :=
  _ ← throw_if (negb (rank pcm =? 2))
        (InvalidArgument "get_sorted_pcm_column_indices: PCM must be a 2D tensor");
  row_indices ← dense_to_sparse pcm;
  Ok (get_sorted_pcm_column_indices row_indices num_syndromes_per_round).

Definition pcm_is_sorted_dense (pcm : tensor) (num_syndromes_per_round : nat) : res bool :=
  _ ← throw_if (negb (rank pcm =? 2))
        (InvalidArgument "pcm_is_sorted: PCM must be a 2D tensor");
  column_indices ← get_sorted_pcm_column_indices_dense pcm num_syndromes_per_round;
  num_cols ← vget (t_shape pcm) 1;
  indices_are_iota 0 num_cols column_indices.

(** ** The order the comparator implements *)

(** First, last, second, second to last, ... *)
Fixpoint interleave (fuel : nat) (l : list nat) : list nat :=
  match fuel, l with
  | S fuel, x :: l => x :: interleave fuel (reverse l)
  | _, _ => []
  end.
Definition both_ends (l : list nat) : list nat := interleave (length l) l.

Definition column_key (use_rounds : bool) (round_of : nat → nat) (col : list nat) : list nat :=
  match col with
  | [] => []
  | x :: _ => (if use_rounds then [round_of x; round_of (List.last col 0)] else []) ++ both_ends col
  end.

Lemma interleave_fuel n m l : length l ≤ n → length l ≤ m → interleave n l = interleave m l.
Proof.
  revert m l. induction n as [|n IH]; intros m l Hn Hm; destruct l as [|x l]; simpl in *;
    try (destruct m; done || lia).
  destruct m as [|m]; [lia|]. simpl. f_equal. apply IH; rewrite length_reverse; lia.
Qed.

Lemma both_ends_cons x l : both_ends (x :: l) = x :: both_ends (reverse l).
Proof.
  unfold both_ends. simpl. f_equal. apply interleave_fuel; rewrite length_reverse; lia.
Qed.

Lemma both_ends_perm l : both_ends l ≡ₚ l.
Proof.
  remember (length l) as n eqn:E. revert l E. induction n as [|n IH]; intros [|x l] E; try done.
  rewrite both_ends_cons. simpl in E. rewrite IH by (rewrite length_reverse; lia).
  by rewrite reverse_Permutation.
Qed.

(** Head and tail of the remaining range. *)
Lemma both_ends_two x l y : both_ends (x :: l ++ [y]) = x :: y :: both_ends l.
Proof.
  rewrite both_ends_cons, reverse_app. simpl. rewrite both_ends_cons, reverse_involutive. done.
Qed.

Lemma both_ends_one x : both_ends [x] = [x].
Proof. done. Qed.

(** A non-empty range is one element or a head, a middle and a tail. *)
Lemma ends_cases (l : list nat) : l = [] ∨ (∃ x, l = [x]) ∨ (∃ x mid y, l = x :: mid ++ [y]).
Proof.
  destruct l as [|x l]; [by left|]. right. destruct l as [|y l] using rev_ind; [left|right]; eauto.
Qed.

Lemma lookup_mid {A} (p q l : list A) i : i < length l → (p ++ l ++ q) !! (length p + i) = l !! i.
Proof. intros. rewrite lookup_app_r, lookup_app_l by lia. f_equal. lia. Qed.

(** The positions of the remaining range [la] inside [pa ++ la ++ qa]. *)
Definition spans (v la : list nat) (h t : nat) : Prop :=
  ∃ pa qa, v = pa ++ la ++ qa ∧ h = length pa ∧ t + 1 = length pa + length la.

Lemma spans_head v x l h t : spans v (x :: l) h t → vget v h = Ok x.
Proof.
  intros (pa&qa&->&->&_). apply vget_ok. rewrite <-(Nat.add_0_r (length pa)).
  by rewrite lookup_mid by (simpl; lia).
Qed.
Lemma spans_tail v l y h t : spans v (l ++ [y]) h t → vget v t = Ok y.
Proof.
  intros (pa&qa&->&->&Ht). rewrite length_app in Ht. simpl in Ht. apply vget_ok.
  replace t with (length pa + length l) by lia. rewrite lookup_mid by (rewrite length_app; simpl; lia).
  by rewrite list_lookup_middle.
Qed.
Lemma spans_single v x h t : spans v [x] h t → h = t.
Proof. intros (pa&qa&->&->&Ht). simpl in Ht. lia. Qed.
Lemma spans_two v x mid y h t :
  spans v (x :: mid ++ [y]) h t → h ≠ t ∧ (h + 1 = t ↔ mid = []) ∧ (mid ≠ [] → spans v mid (h + 1) (t - 1)).
Proof.
  intros (pa&qa&->&->&Ht). rewrite length_cons, length_app in Ht. simpl in Ht. split_and!; [lia| |].
  - split; [|intros ->; simpl in *; lia]. intros <-. destruct mid; [done|simpl in Ht; lia].
  - intros Hm. assert (0 < length mid) by (destruct mid; [done|simpl; lia]).
    exists (pa ++ [x]), ([y] ++ qa). rewrite <-!app_assoc, length_app. simpl. split_and!; [|done|lia].
    by rewrite <-app_assoc.
Qed.

Ltac decide_eqb :=
  repeat match goal with
  | |- context [?a =? ?b] =>
      first [rewrite (proj2 (Nat.eqb_eq a b)) by (assumption || (symmetry; assumption) || lia)
            |rewrite (proj2 (Nat.eqb_neq a b)) by (assumption || lia)]
  end; cbn [negb andb].

Lemma ping_pong_spec fuel a b av bv la lb ah at_ bh bt :
  la ≠ [] → lb ≠ [] → length la ≤ fuel → spans av la ah at_ → spans bv lb bh bt →
  ping_pong fuel a b av bv ah at_ bh bt = Ok (tie (lex (both_ends la) (both_ends lb)) a b).
Proof.
  revert la lb ah at_ bh bt. induction fuel as [|fuel IH]; intros la lb ah at_ bh bt Hla Hlb Hf Ha Hb.
  { destruct la; [done|simpl in Hf; lia]. }
  destruct (ends_cases la) as [->|[[x ->]|(x&mida&x'&->)]]; [done|..];
    (destruct (ends_cases lb) as [->|[[y ->]|(y&midb&y'&->)]]; [done|..]);
    cbn [ping_pong]; rewrite (spans_head _ _ _ _ _ Ha), (spans_head _ _ _ _ _ Hb);
    cbn [mbind res_bind]; rewrite ?both_ends_one, ?both_ends_two, lex_cons;
    (destruct (x =? y); cbn [negb]; [|by rewrite tie_ltb]).
  - apply spans_single in Ha as ->. apply spans_single in Hb as ->. by decide_eqb.
  - apply spans_single in Ha as ->. apply spans_two in Hb as (?&_&_). by decide_eqb.
  - apply spans_single in Hb as ->. apply spans_two in Ha as (?&_&_). by decide_eqb.
  - pose proof (spans_tail av (x :: mida) x' _ _ Ha) as Hta.
    pose proof (spans_tail bv (y :: midb) y' _ _ Hb) as Htb.
    apply spans_two in Ha as (Ha1&Ha2&Ha3). apply spans_two in Hb as (Hb1&Hb2&Hb3).
    decide_eqb. rewrite Hta, Htb. cbn [mbind res_bind]. rewrite lex_cons.
    destruct (x' =? y'); cbn [negb]; [|by rewrite tie_ltb].
    destruct mida as [|xa mida], midb as [|yb midb].
    + rewrite (proj2 Ha2), (proj2 Hb2) by done. by decide_eqb.
    + rewrite (proj2 Ha2) by done. assert (bh + 1 ≠ bt) by (intros ?%Hb2; done). by decide_eqb.
    + rewrite (proj2 Hb2) by done. assert (ah + 1 ≠ at_) by (intros ?%Ha2; done). by decide_eqb.
    + assert (ah + 1 ≠ at_) by (intros ?%Ha2; done). assert (bh + 1 ≠ bt) by (intros ?%Hb2; done).
      decide_eqb. apply IH; [done|done| |by apply Ha3|by apply Hb3].
      rewrite length_cons, length_app in Hf. simpl in *. lia.
Qed.

Lemma lex_app_same p l1 l2 : lex (p ++ l1) (p ++ l2) = lex l1 l2.
Proof. induction p as [|x p IH]; [done|]. simpl. by rewrite Nat.compare_refl. Qed.

Lemma last_lookup (l : list nat) : l ≠ [] → l !! (length l - 1) = Some (List.last l 0).
Proof.
  intros Hl. destruct l as [|x l] using rev_ind; [done|].
  rewrite length_app. simpl. rewrite Nat.add_sub, list_lookup_middle by done.
  by rewrite List.last_last.
Qed.

Lemma column_less_spec cols use_rounds round_of a b va vb :
  cols !! a = Some va → cols !! b = Some vb →
  column_less cols use_rounds round_of a b =
    Ok (tie (lex (column_key use_rounds round_of va) (column_key use_rounds round_of vb)) a b).
Proof.
  intros Ha Hb. unfold column_less. rewrite (vget_ok _ _ _ Ha), (vget_ok _ _ _ Hb). cbn [mbind res_bind].
  assert (∀ v : list nat, v ≠ [] → spans v v 0 (length v - 1)) as Hspan.
  { intros v Hv. exists [], []. rewrite app_nil_r. simpl.
    assert (0 < length v) by (destruct v; [done|simpl; lia]). split_and!; (done || lia). }
  destruct va as [|x va], vb as [|y vb].
  - done.
  - unfold column_key. simpl. by destruct use_rounds.
  - unfold column_key. simpl. by destruct use_rounds.
  - assert (x :: va ≠ []) as Hva by done. assert (y :: vb ≠ []) as Hvb by done.
    revert Hva Hvb. set (va' := x :: va). set (vb' := y :: vb). intros Hva Hvb.
    cbn [length va' vb' Nat.eqb negb andb]. fold va' vb'.
    change (Datatypes.S (length va)) with (length va').
    change (Datatypes.S (length vb)) with (length vb').
    rewrite !(vget_ok _ _ _ (last_lookup _ Hva)), !(vget_ok _ _ _ (last_lookup _ Hvb)).
    change (vget va' 0) with (Ok x). change (vget vb' 0) with (Ok y). cbn [mbind res_bind].
    change (column_key use_rounds round_of va') with
      ((if use_rounds then [round_of x; round_of (List.last va' 0)] else []) ++ both_ends va').
    change (column_key use_rounds round_of vb') with
      ((if use_rounds then [round_of y; round_of (List.last vb' 0)] else []) ++ both_ends vb').
    rewrite (ping_pong_spec _ _ _ _ _ va' vb') by auto. destruct use_rounds; [|done].
    cbn [andb app]. rewrite !lex_cons.
    destruct (round_of x =? round_of y); cbn [negb]; [|by rewrite tie_ltb].
    destruct (round_of (List.last va' 0) =? round_of (List.last vb' 0)); cbn [negb]; [done|by rewrite tie_ltb].
Qed.

(** ** The sorted order *)

Section order.
Context (cols : list (list nat)) (use_rounds : bool) (round_of : nat → nat).
Hypothesis cols_fit : (Z.of_nat (length cols) < 2 ^ 32)%Z.

Definition key_of (a : nat) : list nat := column_key use_rounds round_of (default [] (cols !! a)).
Definition col_lt (a b : nat) : bool := tie (lex (key_of a) (key_of b)) a b.

Lemma iota_fits : u32 <$> seq 0 (length cols) = seq 0 (length cols).
Proof using cols_fit.
  rewrite <-(list_fmap_id (seq _ _)) at 2. apply list_fmap_ext. intros i x [-> ?]%lookup_seq.
  apply wrap_small. unfold id. lia.
Qed.

Lemma column_less_lt a b :
  a ∈ seq 0 (length cols) → b ∈ seq 0 (length cols) →
  column_less cols use_rounds round_of a b = Ok (col_lt a b).
Proof using Type.
  intros Ha%elem_of_seq Hb%elem_of_seq.
  destruct (lookup_lt_is_Some_2 cols a) as [va Hva]; [lia|].
  destruct (lookup_lt_is_Some_2 cols b) as [vb Hvb]; [lia|].
  rewrite (column_less_spec _ _ _ _ _ va vb) by done. unfold col_lt, key_of.
  by rewrite Hva, Hvb.
Qed.

Lemma col_lt_order P : strict_total col_lt P.
Proof using Type. apply (tie_strict_total key_of). Qed.

Lemma sorted_perm :
  sorted_pcm_column_indices_impl cols use_rounds round_of ≡ₚ seq 0 (length cols).
Proof using cols_fit. unfold sorted_pcm_column_indices_impl. by rewrite std_sort_perm, iota_fits. Qed.

Lemma sorted_strict :
  StronglySorted (λ a b, col_lt a b = true) (sorted_pcm_column_indices_impl cols use_rounds round_of).
Proof using cols_fit.
  unfold sorted_pcm_column_indices_impl. rewrite iota_fits.
  apply std_sort_sorted; [apply column_less_lt|apply col_lt_order|apply NoDup_seq].
Qed.

Lemma sorted_unique order :
  order ≡ₚ seq 0 (length cols) → StronglySorted (λ a b, col_lt a b = true) order →
  order = sorted_pcm_column_indices_impl cols use_rounds round_of.
Proof using cols_fit.
  intros. unfold sorted_pcm_column_indices_impl. rewrite iota_fits.
  apply (std_sort_unique _ col_lt); [apply column_less_lt|apply col_lt_order|apply NoDup_seq|done|done].
Qed.
End order.

(** ** [pcm_is_sorted] *)

Lemma indices_are_iota_spec n c idx :
  length idx = c + n → indices_are_iota c n idx = Ok (bool_decide (drop c idx = seq c n)).
Proof.
  revert c. induction n as [|n IH]; intros c Hl; simpl.
  - rewrite drop_ge by lia. by rewrite bool_decide_eq_true_2.
  - destruct (lookup_lt_is_Some_2 idx c) as [x Hx]; [lia|].
    rewrite (vget_ok _ _ _ Hx). cbn [mbind res_bind]. rewrite (drop_S _ x) by done.
    destruct (Nat.eqb_spec x c) as [->|Hne]; cbn [negb].
    + rewrite IH by lia. rewrite Nat.add_1_r. f_equal. apply bool_decide_ext. split; [by intros -> | by intros [= ->] ].
    + by rewrite bool_decide_eq_false_2 by congruence.
Qed.

Definition in_order (cols : list (list nat)) (use_rounds : bool) (round_of : nat → nat) : Prop :=
  ∀ c, c + 1 < length cols →
    lex (key_of cols use_rounds round_of c) (key_of cols use_rounds round_of (c + 1)) ≠ Gt.

Lemma sorted_iota_in_order cols use_rounds round_of :
  (Z.of_nat (length cols) < 2 ^ 32)%Z →
  sorted_pcm_column_indices_impl cols use_rounds round_of = seq 0 (length cols) ↔
  in_order cols use_rounds round_of.
Proof.
  intros Hfit. set (lt := col_lt cols use_rounds round_of).
  assert (∀ c, lt c (c + 1) = true ↔
    lex (key_of cols use_rounds round_of c) (key_of cols use_rounds round_of (c + 1)) ≠ Gt) as Hstep.
  { intros c. unfold lt, col_lt, tie. destruct (lex _ _); try done.
    rewrite Nat.ltb_lt. split; [done|lia]. }
  split.
  - intros Heq c Hc. apply Hstep. pose proof (sorted_strict cols use_rounds round_of Hfit) as Hs.
    rewrite Heq in Hs. replace (length cols) with (c + (length cols - c)) in Hs by lia.
    rewrite seq_app in Hs. simpl in Hs. apply StronglySorted_app_1_r in Hs.
    replace (length cols - c) with (S (S (length cols - c - 2))) in Hs by lia.
    simpl in Hs. inversion_clear Hs as [|? ? _ Hall]. inversion_clear Hall as [|? ? H _].
    by rewrite Nat.add_1_r.
  - intros Hord. symmetry. apply sorted_unique; [done|done|].
    apply Sorted_StronglySorted.
    { intros x y z. apply (less_trans _ _ (col_lt_order cols use_rounds round_of (λ _, True))); done. }
    cut (∀ n k, k + n = length cols → Sorted (λ a b, lt a b = true) (seq k n)); [intros Hc; by apply Hc|].
    induction n as [|n IH]; intros k Hk; simpl; constructor; [apply IH; lia|].
    destruct n as [|n]; constructor. rewrite <-Nat.add_1_r. apply Hstep, Hord. lia.
Qed.

Lemma pcm_is_sorted_spec cols s :
  (Z.of_nat (length cols) < 2 ^ 32)%Z →
  returns (pcm_is_sorted cols s) (λ b, b = true ↔ in_order cols (0 <? s) (λ r, r / s)).
Proof.
  intros Hfit. unfold pcm_is_sorted, get_sorted_pcm_column_indices.
  pose proof (sorted_perm cols (0 <? s) (λ r, r / s) Hfit) as Hp.
  rewrite indices_are_iota_spec.
  - apply returns_ok. by rewrite bool_decide_eq_true, <-sorted_iota_in_order.
  - rewrite Hp. by rewrite length_seq.
Qed.

(** ** [dense_to_sparse] *)

Lemma dense_to_sparse_ok r c d :
  wf2 r c d → 0 < c → (Z.of_nat r < 2 ^ 32)%Z → dense_to_sparse d = Ok (dense_groups csc d r c).
Proof.
  intros Hwf Hc Hr. unfold dense_to_sparse. rewrite (proj1 Hwf), (for_nonzeros_fold d r c) by done.
  rewrite (foldM_ext _ (λ e out, push_at out (swap e).1 (swap e).2)).
  - rewrite <-foldM_map with (f := λ e out, push_at out e.1 e.2). rewrite push_loop by apply nz_cols_bound.
    by rewrite by_key_cols.
  - intros [i j] out (?&?&?)%elem_of_nz. simpl. by rewrite wrap_small by lia.
Qed.

(** ** Theorems *)

(** C37. The column comparator is defined on every pair of columns and is the
    lexicographic order on (first round, last round, first row, last row,
    second row, second to last row, ...), empty columns first, a prefix first
    and ties broken by the column index. *)
Theorem column_less_lexicographic cols use_rounds round_of a b va vb :
  cols !! a = Some va → cols !! b = Some vb →
  column_less cols use_rounds round_of a b =
    Ok (tie (lex (column_key use_rounds round_of va) (column_key use_rounds round_of vb)) a b).
Proof. apply column_less_spec. Qed.

Lemma column_less_lexicographic_witness :
  column_less [[1; 4; 5]; [1; 3; 5]] true (λ r, r / 2) 0 1 = Ok false ∧
  column_less [[1; 4; 5]; [1; 3; 5]] true (λ r, r / 2) 0 1 =
    Ok (tie (lex [0; 2; 1; 5; 4] [0; 2; 1; 5; 3]) 0 1).
Proof.
  split; [reflexivity|].
  apply (column_less_lexicographic [[1; 4; 5]; [1; 3; 5]] true (λ r, r / 2) 0 1 [1; 4; 5] [1; 3; 5]);
    reflexivity.
Defined.

(** The column order returned for a PCM with fewer than 2^32 columns is
    the unique permutation of all column indices that is strictly increasing
    for the comparator, whichever sorting algorithm [std::sort] uses. *)
Theorem sorted_column_indices_unique cols use_rounds round_of :
  (Z.of_nat (length cols) < 2 ^ 32)%Z →
  let less a b := column_less cols use_rounds round_of a b = Ok true in
  let order := sorted_pcm_column_indices_impl cols use_rounds round_of in
  order ≡ₚ seq 0 (length cols) ∧ StronglySorted less order ∧
  ∀ order', order' ≡ₚ seq 0 (length cols) → StronglySorted less order' → order' = order.
Proof.
  intros Hfit less order.
  assert (∀ l, l ≡ₚ seq 0 (length cols) →
    StronglySorted less l ↔ StronglySorted (λ a b, col_lt cols use_rounds round_of a b = true) l) as Hiff.
  { intros l Hl. assert (∀ x, x ∈ l → x ∈ seq 0 (length cols)) as Hin by (intros x; by rewrite Hl).
    clear Hl. induction l as [|x l IH]; [split; constructor|].
    rewrite !StronglySorted_cons, IH, !Forall_forall by set_solver.
    split; intros [H ?]; (split; [|done]); intros y Hy; specialize (H y Hy); unfold less in *;
      rewrite column_less_lt in * by (apply Hin; set_solver); congruence. }
  pose proof (sorted_perm cols use_rounds round_of Hfit) as Hp. split_and!; [done| |].
  - rewrite Hiff by done. by apply sorted_strict.
  - intros order' Hp' Hs. apply sorted_unique; [done|done|]. by rewrite <-Hiff.
Qed.

Lemma sorted_column_indices_unique_witness :
  sorted_pcm_column_indices_impl [[2; 3]; []; [0; 2]; [0; 1]] true (λ r, r / 2) = [1; 3; 2; 0] ∧
  sorted_pcm_column_indices_impl [[2; 3]; []; [0; 2]; [0; 1]] true (λ r, r / 2) ≡ₚ seq 0 4.
Proof.
  split; [reflexivity|].
  apply (sorted_column_indices_unique [[2; 3]; []; [0; 2]; [0; 1]] true (λ r, r / 2)). reflexivity.
Defined.

(** [pcm_is_sorted] answers true exactly when no column is greater than
    its successor in that order. *)
Theorem pcm_is_sorted_iff cols s :
  (Z.of_nat (length cols) < 2 ^ 32)%Z →
  returns (pcm_is_sorted cols s) (λ b, b = true ↔ in_order cols (0 <? s) (λ r, r / s)).
Proof. apply pcm_is_sorted_spec. Qed.

Lemma pcm_is_sorted_iff_witness :
  returns (pcm_is_sorted [[0; 1]; [0; 2]; [2; 3]] 2)
    (λ b, b = true ↔ in_order [[0; 1]; [0; 2]; [2; 3]] true (λ r, r / 2)) ∧
  pcm_is_sorted [[0; 1]; [0; 2]; [2; 3]] 2 = Ok true.
Proof.
  split; [|reflexivity]. apply (pcm_is_sorted_iff [[0; 1]; [0; 2]; [2; 3]] 2). reflexivity.
Defined.
