(* ===== verification/PcmColumns.v ===== *)
(** * Column selection and reordering of parity check matrices

    Model of [reorder_pcm_columns], [sort_pcm_columns], the round-window
    extraction [get_pcm_for_rounds] (dense and sparse) and their checks
    (libs/qec/lib/pcm_utils.cpp). *)

From S2P Require Import Prelude Ordering Tensor SparseMatrix SparseFacts SparseCanon RoundLayout PcmSort.

(** ** Reordering *)

(** [row_end] is a [uint32_t] whose default is the largest value, so it is
    kept as an integer; the result is (clamped last row, rows to copy). *)
Definition validate_reorder_pcm_columns_rows (num_rows row_begin : nat) (row_end : Z)
    : res (nat * nat) :=
  _ ← throw_if (row_end <? Z.of_nat row_begin)%Z
        (InvalidArgument "reorder_pcm_columns: row_begin must be less than or equal to row_end");
  if num_rows =? 0 then
    _ ← throw_if (negb (row_begin =? 0))
          (InvalidArgument "reorder_pcm_columns: row_begin is greater than the number of rows in PCM");
    Ok (0, 0)
  else
    _ ← throw_if (num_rows <=? row_begin)
          (InvalidArgument "reorder_pcm_columns: row_begin is greater than the number of rows in PCM");
    let last_row := if (UINT32_MAX <? Z.of_nat (num_rows - 1))%Z then UINT32_MAX
                    else Z.of_nat (num_rows - 1) in
    let clamped_row_end := Z.to_nat (Z.min row_end last_row) in
    Ok (clamped_row_end, u32 (clamped_row_end - row_begin + 1)).

Definition validate_reorder_pcm_columns_column_order (column_order : list nat) (num_cols : nat)
    : res unit :=
  foldM (λ c _, throw_if (num_cols <=? c)
    (InvalidArgument "reorder_pcm_columns: column_order contains a column index that is greater than the number of columns in PCM"))
    column_order tt.

Definition reorder_pcm_columns `{XtTranspose} (pcm : tensor) (column_order : list nat)
    (row_begin : nat) (row_end : Z) : res tensor :=
  match t_shape pcm with
  | [num_rows; num_cols] =>
      let new_num_cols := length column_order in
      bounds ← validate_reorder_pcm_columns_rows num_rows row_begin row_end;
      _ ← validate_reorder_pcm_columns_column_order column_order num_cols;
      if bounds.2 =? 0 then Ok (tensor_of_shape [0; new_num_cols]) else
      transposed_pcm ← transpose pcm;
      new_pcm_t ← for_u 0 new_num_cols (λ c new_pcm_t,
        oc ← vget column_order c;
        orig_col ← addr_mut transposed_pcm [oc; row_begin];
        new_col ← addr_mut new_pcm_t [c; 0];
        d ← copy_into (t_data new_pcm_t) new_col (t_data transposed_pcm) orig_col bounds.2;
        Ok (mk_tensor (t_shape new_pcm_t) d)) (tensor_of_shape [new_num_cols; bounds.2]);
      transpose new_pcm_t
  | _ => Throw (InvalidArgument "reorder_pcm_columns: PCM must be a 2D tensor")
  end.

Definition reorder_pcm_columns_sparse (pcm : sparse_binary_matrix) (column_order : list nat)
    (row_begin : nat) (row_end : Z) : res sparse_binary_matrix :=
  _ ← throw_if (UINT32_MAX <? Z.of_nat (length column_order))%Z
        (InvalidArgument "reorder_pcm_columns: output column count exceeds index_type range");
  bounds ← validate_reorder_pcm_columns_rows (num_rows_ pcm) row_begin row_end;
  _ ← validate_reorder_pcm_columns_column_order column_order (num_cols_ pcm);
  if bounds.2 =? 0 then
    from_nested_csc 0 (u32 (length column_order)) (replicate (length column_order) [])
  else
    csc ← to_csc pcm;
    nested ← for_u 0 (length column_order) (λ out_c nested,
      orig_c ← vget column_order out_c;
      lo ← vget (ptr_ csc) orig_c;
      hi ← vget (ptr_ csc) (u32 (orig_c + 1));
      for_u lo hi (λ p nested,
        row ← vget (indices_ csc) p;
        if (row_begin <=? row) && (row <=? bounds.1) then push_at nested out_c (row - row_begin)
        else Ok nested) nested) (replicate (length column_order) []);
    from_nested_csc (u32 bounds.2) (u32 (length column_order)) nested.

Definition sort_pcm_columns `{XtTranspose} (pcm : tensor) (num_syndromes_per_round : nat)
    : res tensor :=
  column_order ← get_sorted_pcm_column_indices_dense pcm num_syndromes_per_round;
  reorder_pcm_columns pcm column_order 0 UINT32_MAX.

(** ** Round windows *)

Definition validate_pcm_for_rounds_params
    (num_syndromes_per_round num_boundary_syndromes start_round end_round num_rows : nat)
    : res unit :=
  _ ← throw_if (num_syndromes_per_round =? 0)
        (InvalidArgument "get_pcm_for_rounds: num_syndromes_per_round must be greater than 0");
  _ ← throw_if (num_syndromes_per_round <? num_boundary_syndromes)
        (InvalidArgument "get_pcm_for_rounds: num_boundary_syndromes must be <= num_syndromes_per_round");
  layout ← make_round_layout num_syndromes_per_round num_boundary_syndromes num_rows;
  _ ← throw_if (lay_boundary layout &&
                ((num_rows <? u32 (2 * num_boundary_syndromes)) ||
                 negb (u64_sub num_rows (u32 (2 * num_boundary_syndromes))
                         mod num_syndromes_per_round =? 0)))
        (InvalidArgument "get_pcm_for_rounds: number of PCM rows is inconsistent with the given num_syndromes_per_round and num_boundary_syndromes");
  _ ← throw_if (lay_num_rounds layout <=? end_round)
        (InvalidArgument "get_pcm_for_rounds: end_round is greater than the last round index");
  throw_if (num_rows <=? round_start layout start_round)
    (InvalidArgument "get_pcm_for_rounds: first_row_to_keep is greater than the number of rows in PCM").

(** Whether a column with the given round span belongs to the window. *)
Definition column_in_range (start_round end_round : nat)
    (straddle_start_round straddle_end_round : bool) (first_round last_round : nat) : bool :=
  if (last_round <? start_round) || (end_round <? first_round) then false else
  ((start_round <=? first_round) && (last_round <=? end_round)) ||
  (straddle_start_round && (first_round <=? start_round) && (start_round <=? last_round)) ||
  (straddle_end_round && (first_round <=? end_round) && (end_round <=? last_round)).

Definition select_pcm_columns_for_round_range (row_indices : list (list nat))
    (layout : round_layout) (start_round end_round : nat)
    (straddle_start_round straddle_end_round : bool) : res (list nat * Z * nat) :=
  columns ← for_u 0 (length row_indices) (λ c columns,
    col ← vget row_indices c;
    if bool_decide (col = []) then Ok columns else
    front ← vget col 0;
    first_round ← row_to_round layout front;
    back ← vget col (length col - 1);
    last_round ← row_to_round layout back;
    Ok (if column_in_range start_round end_round straddle_start_round straddle_end_round
             first_round last_round
        then columns ++ [u32 c] else columns)) [];
  match columns with
  | [] => Ok ([], UINT32_MAX, 0)
  | c :: _ => Ok (columns, Z.of_nat c, List.last columns 0)
  end.

Definition get_pcm_for_rounds `{XtTranspose} (pcm : tensor)
    (num_syndromes_per_round start_round end_round : nat)
    (straddle_start_round straddle_end_round : bool) (num_boundary_syndromes : nat)
    : res (tensor * Z * nat) :=
  num_rows ← vget (t_shape pcm) 0;
  _ ← validate_pcm_for_rounds_params num_syndromes_per_round num_boundary_syndromes
        start_round end_round num_rows;
  layout ← make_round_layout num_syndromes_per_round num_boundary_syndromes num_rows;
  let first_row_to_keep := round_start layout start_round in
  let last_row_to_keep := u64_sub (round_start layout (u32 (end_round + 1))) 1 in
  row_indices ← dense_to_sparse pcm;
  sel ← select_pcm_columns_for_round_range row_indices layout start_round end_round
          straddle_start_round straddle_end_round;
  sub ← reorder_pcm_columns pcm sel.1.1 (u32 first_row_to_keep) (Z.of_nat (u32 last_row_to_keep));
  Ok (sub, sel.1.2, sel.2).

Definition get_pcm_for_rounds_sparse (pcm : sparse_binary_matrix)
    (num_syndromes_per_round start_round end_round : nat)
    (straddle_start_round straddle_end_round pcm_is_canonical : bool)
    (num_boundary_syndromes : nat) : res (tensor * Z * nat) :=
  _ ← validate_pcm_for_rounds_params num_syndromes_per_round num_boundary_syndromes
        start_round end_round (num_rows_ pcm);
  layout ← make_round_layout num_syndromes_per_round num_boundary_syndromes (num_rows_ pcm);
  let first_row_to_keep := u32 (round_start layout start_round) in
  let last_row_to_keep := u32 (u64_sub (round_start layout (u32 (end_round + 1))) 1) in
  row_indices ← (if pcm_is_canonical : bool then to_nested_csc pcm
                 else m ← canonicalize pcm; to_nested_csc m);
  sel ← select_pcm_columns_for_round_range row_indices layout start_round end_round
          straddle_start_round straddle_end_round;
  let num_rows_to_copy :=
    Z.to_nat ((Z.of_nat last_row_to_keep - Z.of_nat first_row_to_keep + 1) mod 2 ^ 32)%Z in
  dense_sub ← for_u 0 (length sel.1.1) (λ out_c dense_sub,
    orig_col ← vget sel.1.1 out_c;
    rows ← vget row_indices orig_col;
    foldM (λ row dense_sub,
      if (first_row_to_keep <=? row) && (row <=? last_row_to_keep)
      then set_at dense_sub [row - first_row_to_keep; out_c] 1 else Ok dense_sub) rows dense_sub)
    (tensor_of_shape [num_rows_to_copy; length sel.1.1]);
  Ok (dense_sub, sel.1.2, sel.2).

(** ** Reordering: what it computes *)

(** The last row kept and the number of rows copied. *)
Definition row_last (num_rows : nat) (row_end : Z) : nat :=
  Z.to_nat (Z.min row_end (Z.of_nat (num_rows - 1))).
Definition rows_copied (num_rows row_begin : nat) (row_end : Z) : nat :=
  row_last num_rows row_end - row_begin + 1.

Definition reorder_ok (num_rows num_cols : nat) (order : list nat) (row_begin : nat) (row_end : Z) : Prop :=
  (Z.of_nat row_begin ≤ row_end)%Z ∧ row_begin < num_rows ∧ Forall (λ c, c < num_cols) order.

Lemma row_last_bound num_rows row_begin row_end :
  row_begin < num_rows → (Z.of_nat row_begin ≤ row_end)%Z →
  row_begin ≤ row_last num_rows row_end < num_rows.
Proof. unfold row_last. lia. Qed.

Lemma rows_decides num_rows row_begin row_end :
  0 < num_rows → (Z.of_nat num_rows < 2 ^ 32)%Z →
  decides (validate_reorder_pcm_columns_rows num_rows row_begin row_end)
    ((Z.of_nat row_begin ≤ row_end)%Z ∧ row_begin < num_rows)
    (row_last num_rows row_end, rows_copied num_rows row_begin row_end).
Proof.
  intros H0 Hfit. unfold validate_reorder_pcm_columns_rows.
  eapply decides_iff; [eapply decides_bind with (Q := row_begin < num_rows); [apply decides_throw_if|]|].
  2:{ by rewrite Z.ltb_ge. }
  intros Hle. rewrite (proj2 (Nat.eqb_neq _ _)) by lia.
  eapply decides_iff; [eapply decides_bind with (Q := True); [apply decides_throw_if|]|].
  2:{ rewrite Nat.leb_gt. tauto. }
  rewrite Nat.leb_gt. intros Hlt. apply Z.ltb_ge in Hle.
  rewrite (proj2 (Z.ltb_ge _ _)) by (unfold UINT32_MAX; lia).
  pose proof (row_last_bound num_rows row_begin row_end Hlt Hle).
  fold (row_last num_rows row_end). rewrite wrap_small by lia. apply decides_ok.
Qed.

Lemma order_decides order num_cols :
  decides (validate_reorder_pcm_columns_column_order order num_cols) (Forall (λ c, c < num_cols) order) tt.
Proof.
  eapply decides_iff; [apply (decides_foldM _ (λ c, c < num_cols))|by rewrite Forall_forall].
  intros c _. eapply decides_iff; [apply decides_throw_if|]. by rewrite Nat.leb_gt.
Qed.

(** One iteration: column [c] of the transposed result receives the copied
    rows of source column [oc]. *)
Lemma copy_column r c n k t new oc pos :
  wf2 c r t → wf2 k n new → 0 < n → oc < c → pos < k → ∀ b, b + n ≤ r →
  returns (orig_col ← addr_mut t [oc; b];
           new_col ← addr_mut new [pos; 0];
           d ← copy_into (t_data new) new_col (t_data t) orig_col n;
           Ok (mk_tensor (t_shape new) d))
    (λ new', wf2 k n new' ∧ ∀ x i, x < k → i < n →
       elem2 new' x i = if decide (x = pos) then elem2 t oc (b + i) else elem2 new x i).
Proof.
  intros Ht Hnew Hn Hoc Hpos b Hb. rewrite (addr_mut2 c r t) by (done || lia).
  rewrite (addr_mut2 k n new) by (done || lia). cbn [mbind res_bind].
  destruct (lookup_copy_into (t_data new) (pos * n + 0) (t_data t) (oc * r + b) n) as (out&->&Hlen&Hout).
  { rewrite (proj2 Hnew). nia. } { rewrite (proj2 Ht). nia. }
  cbn [mbind res_bind]. apply returns_ok. split; [split; cbn; [apply Hnew|by rewrite Hlen, (proj2 Hnew)]|].
  intros x i Hx Hi. rewrite <-(row_read k n _ x i) by
    (done || (split; [apply Hnew|cbn; by rewrite Hlen, (proj2 Hnew)])).
  cbn [t_data]. rewrite Hout. case_decide as Hr; case_decide as Hxp; subst.
  - rewrite <-(row_read c r) by (done || lia). f_equal. lia.
  - exfalso. nia.
  - exfalso. nia.
  - by apply (row_read k n).
Qed.

Section reorder_dense.
Context `{XtTranspose} (r c : nat) (d : tensor) (order : list nat) (b : nat) (e : Z).
Hypothesis (Hwf : wf2 r c d) (Hr0 : 0 < r) (Hr : (Z.of_nat r < 2 ^ 32)%Z).
Hypothesis Hok : reorder_ok r c order b e.
Let n := rows_copied r b e.

Definition reordered (t : tensor) : Prop :=
  wf2 n (length order) t ∧
  ∀ i k oc, i < n → order !! k = Some oc → elem2 t i k = elem2 d (b + i) oc.

Lemma reorder_dense_returns : returns (reorder_pcm_columns d order b e) reordered.
Proof using All.
  destruct Hok as (Hbe&Hb&Hord). unfold reorder_pcm_columns. rewrite (proj1 Hwf).
  pose proof (row_last_bound r b e Hb Hbe) as Hlast.
  rewrite (decides_returns _ _ _ (rows_decides r b e Hr0 Hr)) by done. cbn [mbind res_bind].
  rewrite (decides_returns _ _ _ (order_decides order c)) by done. cbn [mbind res_bind fst snd].
  fold n. assert (b + n ≤ r) as Hn by (unfold n, rows_copied; lia).
  assert (0 < n) as Hn0 by (unfold n, rows_copied; lia).
  rewrite (proj2 (Nat.eqb_neq n 0)) by lia.
  destruct (transpose_spec r c d Hwf) as (t&->&Ht&Het). cbn [mbind res_bind].
  eapply returns_bind; [apply (for_u_inv 0 (length order) _ (λ k new, wf2 (length order) n new ∧
    ∀ x i oc, x < k → i < n → order !! x = Some oc → elem2 new x i = elem2 d (b + i) oc))|].
  - lia.
  - split; [apply wf2_zeros|]. lia.
  - intros k new Hk [Hnew Helem]. destruct (lookup_lt_is_Some_2 order k) as [oc Hoc]; [lia|].
    rewrite (vget_ok _ _ _ Hoc). cbn [mbind res_bind].
    assert (oc < c) by (rewrite Forall_forall in Hord; by eapply Hord, list_elem_of_lookup_2).
    eapply returns_mono; [apply (copy_column r c n (length order) t new oc k); (done || lia)|].
    intros new' [Hnew' He']. split; [done|]. intros x i oc' Hx Hi Hoc'.
    assert (x < length order) by (by eapply lookup_lt_Some).
    rewrite He' by done. case_decide; subst.
    + rewrite Hoc in Hoc'. injection Hoc' as <-. by rewrite Het.
    + apply Helem; [lia|done|done].
  - intros new [Hnew Helem]. destruct (transpose_spec _ _ new Hnew) as (t'&->&Ht'&Het').
    apply returns_ok. split; [done|]. intros i k oc Hi Hoc. rewrite Het'.
    apply Helem; [by eapply lookup_lt_Some|done|done].
Qed.
End reorder_dense.

(** ** The sparse overload *)

(** Rows [b .. last] of a column, renumbered from 0. *)
Definition window_rows (b last : nat) (col : list nat) : list nat :=
  (λ row, row - b) <$> filter (λ row, b ≤ row ∧ row ≤ last) col.

Lemma elem_of_window_rows b last col i :
  i ∈ window_rows b last col ↔ b + i ∈ col ∧ b + i ≤ last.
Proof.
  unfold window_rows. rewrite list_elem_of_fmap. split.
  - intros (row&->&[[??] ?]%list_elem_of_filter). replace (b + (row - b)) with row by lia. done.
  - intros [? ?]. exists (b + i). split; [lia|]. apply list_elem_of_filter. split; [lia|done].
Qed.

Lemma push_window b last k col (nested : list (list nat)) l :
  nested !! k = Some l →
  foldM (λ row nested, if (b <=? row) && (row <=? last) then push_at nested k (row - b)
                       else Ok nested) col nested =
  Ok (<[k := l ++ window_rows b last col]> nested).
Proof.
  revert nested l. induction col as [|row col IH]; intros nested l Hl; simpl.
  { unfold window_rows. simpl. rewrite app_nil_r, list_insert_id; done. }
  unfold window_rows. rewrite filter_cons.
  destruct (Nat.leb_spec b row), (Nat.leb_spec row last); cbn [andb].
  2-4: rewrite decide_False by lia; cbn [mbind res_bind]; by apply IH.
  rewrite decide_True by done. unfold push_at. rewrite (vget_ok _ _ _ Hl). cbn [mbind res_bind].
  pose proof (lookup_lt_Some _ _ _ Hl). rewrite vset_ok by done. cbn [mbind res_bind].
  rewrite (IH _ (l ++ [row - b])) by (by rewrite list_lookup_insert_eq).
  by rewrite list_insert_insert_eq, <-app_assoc.
Qed.

(** Column lists of a matrix in either layout. *)
Definition columns_of (m : sparse_binary_matrix) (gs : list (list nat)) : list (list nat) :=
  if is_csc m then gs else transposed (num_cols_ m) gs.

Lemma to_csc_columns m gs :
  wf m gs → ∃ m', to_csc m = Ok m' ∧ wf m' (columns_of m gs) ∧ is_csc m' = true ∧
    num_rows_ m' = num_rows_ m ∧ num_cols_ m' = num_cols_ m.
Proof.
  intros Hwf. rewrite (to_csc_spec m gs Hwf). unfold columns_of.
  pose proof (wf_transposed m gs Hwf) as Ht. unfold other, index_bound in Ht.
  destruct (is_csc m) eqn:E; (eexists; split; [done|]); done.
Qed.

Lemma length_columns m gs : wf m gs → length (columns_of m gs) = num_cols_ m.
Proof.
  intros Hwf. unfold columns_of. pose proof (wf_num_groups m gs Hwf) as Hl. unfold num_groups in Hl.
  destruct (is_csc m); [done|apply length_transposed].
Qed.

Lemma mentions_columns m gs i j :
  wf m gs → i < num_rows_ m → j < num_cols_ m →
  mentions m gs i j ↔ ∃ l, columns_of m gs !! j = Some l ∧ i ∈ l.
Proof.
  intros Hwf Hi Hj. rewrite mentions_group. unfold columns_of. destruct (is_csc m); [done|].
  rewrite lookup_transposed by done. split.
  - intros (l&Hl&Hin). eexists. split; [done|]. apply elem_of_keyed, elem_of_entries.
    exists l. rewrite Nat.sub_0_r. split_and!; [lia|done|done].
  - intros (l&[= <-]&Hin). apply elem_of_keyed, elem_of_entries in Hin as (l&_&Hl&?).
    rewrite Nat.sub_0_r in Hl. eauto.
Qed.

(** The columns of the reordered matrix. *)
Definition reordered_columns (cols : list (list nat)) (order : list nat) (b last : nat) : list (list nat) :=
  (λ oc, window_rows b last (default [] (cols !! oc))) <$> order.

Definition replaced_upto {A} (k : nat) (W nested : list (list A)) : Prop :=
  length nested = length W ∧
  (∀ x, x < k → nested !! x = W !! x) ∧ (∀ x, k ≤ x < length W → nested !! x = Some []).

Lemma replaced_step {A} k (W nested : list (list A)) w :
  replaced_upto k W nested → W !! k = Some w → replaced_upto (k + 1) W (<[k := [] ++ w]> nested).
Proof.
  intros (Hl&Hlo&Hhi) Hk. assert (k < length W) by (by eapply lookup_lt_Some).
  split_and!; [by rewrite length_insert| |].
  - intros x Hx. destruct (decide (x = k)) as [->|].
    + rewrite list_lookup_insert_eq by lia. done.
    + rewrite list_lookup_insert_ne by done. apply Hlo. lia.
  - intros x Hx. rewrite list_lookup_insert_ne by lia. apply Hhi. lia.
Qed.

Lemma replaced_all {A} (W nested : list (list A)) : replaced_upto (length W) W nested → nested = W.
Proof.
  intros (Hl&Hlo&_). apply list_eq. intros x. destruct (decide (x < length W)); [by apply Hlo|].
  by rewrite !lookup_ge_None_2 by lia.
Qed.

Lemma replaced_start {A} (W : list (list A)) n :
  n = length W → replaced_upto 0 W (replicate n []).
Proof.
  intros ->. split_and!; [by rewrite length_replicate|lia|].
  intros x Hx. apply lookup_replicate. split; [done|lia].
Qed.

Lemma reorder_columns_loop m cols order b last :
  wf m cols → is_csc m = true → Forall (λ c, c < num_cols_ m) order →
  for_u 0 (length order) (λ out_c nested,
      orig_c ← vget order out_c;
      lo ← vget (ptr_ m) orig_c;
      hi ← vget (ptr_ m) (u32 (orig_c + 1));
      for_u lo hi (λ p nested,
        row ← vget (indices_ m) p;
        if (b <=? row) && (row <=? last) then push_at nested out_c (row - b)
        else Ok nested) nested) (replicate (length order) []) =
  Ok (reordered_columns cols order b last).
Proof.
  intros Hwf Hcsc Hord. set (W := reordered_columns cols order b last).
  assert (length W = length order) as HW by apply length_fmap.
  pose proof (wf_num_groups m cols Hwf) as Hlen. unfold num_groups in Hlen. rewrite Hcsc in Hlen.
  pose proof (wf_cols _ _ Hwf). destruct Hwf as [(_&Hp&Hi) _ _ _ _].
  match goal with |- for_u _ _ ?f _ = _ =>
    destruct (for_u_inv 0 (length order) f (λ k, replaced_upto k W) (replicate (length order) []))
      as (nested&->&Hn) end.
  - lia.
  - by apply replaced_start.
  - intros k nested Hk Hinv. destruct (lookup_lt_is_Some_2 order k) as [oc Hoc]; [lia|].
    assert (oc < num_cols_ m) by (rewrite Forall_forall in Hord; by eapply Hord, list_elem_of_lookup_2).
    destruct (lookup_lt_is_Some_2 cols oc) as [col Hcol]; [lia|].
    rewrite (vget_ok _ _ _ Hoc). cbn [mbind res_bind]. rewrite wrap_small by lia.
    rewrite Hp, !vget_ptrs_of by lia. cbn [mbind res_bind].
    rewrite (psum_S cols oc col), Hi by done.
    rewrite (for_u_slice _ col _ (λ row nested, if (b <=? row) && (row <=? last)
      then push_at nested k (row - b) else Ok nested)) by (intros; by eapply concat_lookup).
    rewrite (push_window _ _ _ _ _ []) by (apply Hinv; lia).
    apply returns_ok. apply replaced_step; [done|]. unfold W, reordered_columns.
    by rewrite list_lookup_fmap, Hoc; simpl; rewrite Hcol.
  - f_equal. apply replaced_all. by rewrite HW.
Qed.

Definition reordered_fits (m : sparse_binary_matrix) (gs : list (list nat)) (order : list nat)
    (b : nat) (e : Z) : Prop :=
  (Z.of_nat (length order + 1) < 2 ^ 32)%Z ∧
  (Z.of_nat (length (concat (reordered_columns (columns_of m gs) order b
     (row_last (num_rows_ m) e)))) < 2 ^ 32)%Z.

Lemma reorder_sparse_spec m gs order b e :
  wf m gs → reorder_ok (num_rows_ m) (num_cols_ m) order b e → reordered_fits m gs order b e →
  let W := reordered_columns (columns_of m gs) order b (row_last (num_rows_ m) e) in
  let m' := of_groups csc (rows_copied (num_rows_ m) b e) (length order) W in
  reorder_pcm_columns_sparse m order b e = Ok m' ∧ wf m' W.
Proof.
  intros Hwf (Hbe&Hb&Hord) [Hlen Hnnz] W m'. fold W in Hnnz. pose proof (wf_rows _ _ Hwf) as Hr.
  pose proof (row_last_bound _ _ _ Hb Hbe) as Hlast.
  set (n := rows_copied (num_rows_ m) b e) in *. assert (n ≤ num_rows_ m) by (unfold n, rows_copied; lia).
  assert (nested_ok (length order) n W) as Hok.
  { split_and!; [apply length_fmap|done|]. apply Forall_fmap, Forall_forall. intros oc _.
    apply Forall_forall. intros i [_ ?]%elem_of_window_rows. unfold n, rows_copied. lia. }
  split.
  2:{ apply wf_of_groups; (apply Hok || lia). }
  unfold reorder_pcm_columns_sparse. rewrite (proj2 (Z.ltb_ge _ _)) by (unfold UINT32_MAX; lia).
  cbn [throw_if mbind res_bind].
  rewrite (decides_returns _ _ _ (rows_decides (num_rows_ m) b e ltac:(lia) Hr)) by done.
  cbn [mbind res_bind].
  rewrite (decides_returns _ _ _ (order_decides order (num_cols_ m))) by done. cbn [mbind res_bind fst snd].
  fold n. rewrite (proj2 (Nat.eqb_neq n 0)) by (unfold n, rows_copied; lia).
  destruct (to_csc_columns m gs Hwf) as (mc&->&Hwfc&Hcsc&Hrc&Hcc). cbn [mbind res_bind].
  rewrite (reorder_columns_loop mc (columns_of m gs)) by (done || by rewrite Hcc). cbn [mbind res_bind].
  fold W. rewrite !wrap_small by lia.
  eapply decides_returns; [apply from_nested_csc_decides|done]; lia.
Qed.

Lemma reorder_agree `{XtTranspose} m gs order b e :
  wf m gs → reorder_ok (num_rows_ m) (num_cols_ m) order b e → reordered_fits m gs order b e →
  (m' ← reorder_pcm_columns_sparse m order b e; to_dense m') =
  (d ← to_dense m; reorder_pcm_columns d order b e).
Proof.
  intros Hwf Hok Hfits. destruct (reorder_sparse_spec m gs order b e Hwf Hok Hfits) as [-> Hwf'].
  cbn [mbind res_bind]. destruct (to_dense_returns _ _ Hwf') as (d'&->&Hd'&He').
  destruct (to_dense_returns _ _ Hwf) as (d&->&Hd&He). cbn [mbind res_bind].
  destruct Hok as (Hbe&Hb&Hord). pose proof (wf_rows _ _ Hwf).
  destruct (reorder_dense_returns _ _ d order b e Hd ltac:(lia) ltac:(done) (conj Hbe (conj Hb Hord)))
    as (t&->&Ht&Het).
  f_equal. apply (tensor2_ext _ _ _ _ Hd' Ht). intros i k Hi Hk.
  cbn [num_rows_ num_cols_ of_groups] in Hi, Hk. rewrite He' by done.
  destruct (lookup_lt_is_Some_2 order k Hk) as [oc Hoc].
  assert (oc < num_cols_ m) by (rewrite Forall_forall in Hord; by eapply Hord, list_elem_of_lookup_2).
  pose proof (row_last_bound _ _ _ Hb Hbe). unfold rows_copied in Hi.
  rewrite (Het i k oc), He by (done || lia). f_equal. apply bit_iff.
  rewrite (mentions_columns m gs) by (done || lia). rewrite mentions_group.
  change (is_csc (of_groups csc _ _ _)) with true. cbv iota. unfold reordered_columns.
  rewrite list_lookup_fmap, Hoc. simpl.
  destruct (lookup_lt_is_Some_2 (columns_of m gs) oc) as [col Hcol]; [by rewrite length_columns|].
  rewrite Hcol. simpl. split.
  - intros (l&[= <-]&[? _]%elem_of_window_rows). eauto.
  - intros (l&[= <-]&Hin). eexists. split; [done|]. apply elem_of_window_rows. split; [done|lia].
Qed.
