(* ===== verification/PcmProps.v ===== *)
(** * Column order and round windows: correctness

    Sorting the columns of a PCM yields a sorted PCM, the sparse and dense
    overloads of [reorder_pcm_columns] and of [get_pcm_for_rounds] agree, and
    a round window keeps exactly the columns its flags ask for. *)

From S2P Require Import Prelude Ordering Tensor SparseMatrix SparseFacts SparseCanon SparseProps RoundLayout PcmSort PcmColumns.

(** ** Sorting *)

Lemma reorder_all r : 0 < r → (Z.of_nat r < 2 ^ 32)%Z → rows_copied r 0 UINT32_MAX = r.
Proof. intros. unfold rows_copied, row_last, UINT32_MAX. lia. Qed.

Lemma dense_groups_reordered r d order t :
  0 < r → (Z.of_nat r < 2 ^ 32)%Z → reordered r d order 0 UINT32_MAX t →
  dense_groups csc t r (length order) = nz_col d r <$> order.
Proof.
  intros H0 Hr [_ He]. rewrite reorder_all in He by done.
  unfold dense_groups. rewrite bool_decide_eq_true_2 by done.
  apply list_eq. intros k. rewrite !list_lookup_fmap.
  destruct (order !! k) as [oc|] eqn:Hoc.
  - rewrite lookup_seq_lt by (by eapply lookup_lt_Some). simpl. f_equal.
    unfold nz_col. apply filter_ext_in. intros i Hi%elem_of_seq. unfold nonzero.
    by rewrite (He i k oc) by (done || lia).
  - rewrite lookup_ge_None_2; [done|]. rewrite length_seq. by apply lookup_ge_None.
Qed.

Lemma sorted_consecutive cols use_rounds round_of order k a b :
  StronglySorted (λ a b, col_lt cols use_rounds round_of a b = true) order →
  order !! k = Some a → order !! (k + 1) = Some b →
  lex (key_of cols use_rounds round_of a) (key_of cols use_rounds round_of b) ≠ Gt.
Proof.
  intros Hs Ha Hb. rewrite <-(take_drop k order) in Hs. apply StronglySorted_app_1_r in Hs.
  rewrite (drop_S _ _ _ Ha) in Hs. inversion_clear Hs as [|? ? _ Hall].
  rewrite Forall_forall in Hall. specialize (Hall b). unfold col_lt, tie in Hall.
  destruct (lex _ _); try done. discriminate Hall.
  apply (list_elem_of_lookup_2 _ 0). by rewrite lookup_drop, Nat.add_0_r, <-Nat.add_1_r.
Qed.

Lemma in_order_fmap cols use_rounds round_of order :
  (∀ c, c ∈ order → c < length cols) →
  StronglySorted (λ a b, col_lt cols use_rounds round_of a b = true) order →
  in_order ((λ c, default [] (cols !! c)) <$> order) use_rounds round_of.
Proof.
  intros Hin Hs k Hk. rewrite length_fmap in Hk.
  destruct (lookup_lt_is_Some_2 order k) as [a Ha]; [lia|].
  destruct (lookup_lt_is_Some_2 order (k + 1)) as [b Hb]; [lia|].
  unfold key_of. rewrite !list_lookup_fmap, Ha, Hb. simpl.
  by apply (sorted_consecutive cols use_rounds round_of order k).
Qed.

Lemma pcm_is_sorted_dense_ok r c d s :
  wf2 r c d → 0 < c → (Z.of_nat r < 2 ^ 32)%Z →
  pcm_is_sorted_dense d s = pcm_is_sorted (dense_groups csc d r c) s.
Proof.
  intros Hwf Hc Hr. unfold pcm_is_sorted_dense, get_sorted_pcm_column_indices_dense, rank, pcm_is_sorted.
  rewrite (proj1 Hwf). cbn [length Nat.eqb negb throw_if mbind res_bind].
  rewrite (dense_to_sparse_ok r c) by done. cbn [mbind res_bind vget lookup list_lookup].
  unfold dense_groups. rewrite bool_decide_eq_true_2 by done. by rewrite length_fmap, length_seq.
Qed.

(** C33. [sort_pcm_columns] returns the same PCM with its columns permuted,
    and the result satisfies [pcm_is_sorted]. *)
Theorem sort_pcm_columns_sorted `{XtTranspose} r c d s :
  wf2 r c d → 0 < r → (Z.of_nat r < 2 ^ 32)%Z → 0 < c → (Z.of_nat c < 2 ^ 32)%Z →
  returns (sort_pcm_columns d s) (λ d',
    wf2 r c d' ∧ pcm_is_sorted_dense d' s = Ok true ∧
    ∃ order, order ≡ₚ seq 0 c ∧
      ∀ i k oc, i < r → order !! k = Some oc → elem2 d' i k = elem2 d i oc).
Proof.
  intros Hwf Hr0 Hr Hc0 Hc. set (cols := dense_groups csc d r c).
  assert (length cols = c) as Hlen.
  { unfold cols, dense_groups. rewrite bool_decide_eq_true_2 by done. by rewrite length_fmap, length_seq. }
  set (order := get_sorted_pcm_column_indices cols s).
  pose proof (sorted_perm cols (0 <? s) (λ r, r / s) ltac:(by rewrite Hlen)) as Hp.
  pose proof (sorted_strict cols (0 <? s) (λ r, r / s) ltac:(by rewrite Hlen)) as Hs.
  change (sorted_pcm_column_indices_impl cols _ _) with order in Hp, Hs. rewrite Hlen in Hp.
  assert (∀ x, x ∈ order → x < c) as Hin by (intros x; rewrite Hp, elem_of_seq; lia).
  assert (length order = c) as Hol by (rewrite Hp; apply length_seq).
  unfold sort_pcm_columns, get_sorted_pcm_column_indices_dense, rank. rewrite (proj1 Hwf).
  cbn [length Nat.eqb negb throw_if mbind res_bind]. rewrite (dense_to_sparse_ok r c) by done.
  cbn [mbind res_bind]. fold cols order.
  eapply returns_mono; [apply (reorder_dense_returns r c); [done..|]|].
  { split_and!; [unfold UINT32_MAX; lia|done|]. by apply Forall_forall. }
  intros d' Hd'. pose proof (dense_groups_reordered r d order d' Hr0 Hr Hd') as Hcols.
  destruct Hd' as [Hwf' He]. rewrite reorder_all in Hwf', He by done. rewrite Hol in Hwf', Hcols.
  split_and!; [done| |by exists order].
  rewrite (pcm_is_sorted_dense_ok r c), Hcols by done.
  destruct (pcm_is_sorted_spec (nz_col d r <$> order) s) as (b&->&Hb).
  { by rewrite length_fmap, Hol. }
  f_equal. apply Hb. replace (nz_col d r <$> order) with ((λ x, default [] (cols !! x)) <$> order).
  - apply in_order_fmap; [|done]. intros x Hx. rewrite Hlen. by apply Hin.
  - apply list_fmap_ext. intros i x Hx%list_elem_of_lookup_2%Hin. unfold cols, dense_groups.
    rewrite bool_decide_eq_true_2, list_lookup_fmap, lookup_seq_lt by done. done.
Qed.

Definition example_pcm : tensor := mk_tensor [4; 3] [0; 0; 1;  0; 1; 1;  1; 1; 0;  1; 0; 0].

Lemma sort_pcm_columns_sorted_witness :
  sort_pcm_columns example_pcm 2 = Ok (mk_tensor [4; 3] [1; 0; 0;  1; 1; 0;  0; 1; 1;  0; 0; 1]) ∧
  returns (sort_pcm_columns example_pcm 2) (λ d', pcm_is_sorted_dense d' 2 = Ok true).
Proof.
  split; [reflexivity|]. eapply returns_mono; [apply (sort_pcm_columns_sorted 4 3 example_pcm 2)|].
  - split; reflexivity.
  - lia.
  - reflexivity.
  - lia.
  - reflexivity.
  - intros d' (_&H&_). exact H.
Defined.

(** The sparse and the dense overload of [reorder_pcm_columns] agree:
    converting the sparse result to dense gives what the dense overload
    returns on the dense matrix. *)
Theorem reorder_sparse_dense_agree `{XtTranspose} m gs order b e :
  wf m gs → reorder_ok (num_rows_ m) (num_cols_ m) order b e → reordered_fits m gs order b e →
  (m' ← reorder_pcm_columns_sparse m order b e; to_dense m') =
  (d ← to_dense m; reorder_pcm_columns d order b e).
Proof. apply reorder_agree. Qed.

Lemma reorder_sparse_dense_agree_witness :
  (m' ← reorder_pcm_columns_sparse example_csc [1; 0; 1] 1 2; to_dense m') =
  (d ← to_dense example_csc; reorder_pcm_columns d [1; 0; 1] 1 2).
Proof.
  apply (reorder_sparse_dense_agree example_csc [[0; 2]; [1; 2]] [1; 0; 1] 1 2).
  - apply (bool_decide_unpack _). vm_compute. exact I.
  - split; [|split]; [vm_compute; discriminate|vm_compute; lia|repeat constructor].
  - split; reflexivity.
Defined.

(** ** Round windows *)

(** A uniform layout, with or without left-over rows. *)
Lemma uniform_layout s b rows :
  (b =? 0) || (b =? s) = true → 0 < s →
  make_round_layout s b rows = Ok (mk_layout s b rows (rows / s) false).
Proof.
  intros Hu Hs. unfold make_round_layout. rewrite <-negb_orb, Hu. cbn [negb].
  by rewrite udiv_ok by done.
Qed.

(** The checks accept a boundary layout only when it is consistent. *)
Lemma validated_boundary s b rows l :
  (Z.of_nat s < 2 ^ 32)%Z → (Z.of_nat rows < 2 ^ 32)%Z → 0 < s → b ≤ s →
  (b =? 0) || (b =? s) = false → make_round_layout s b rows = Ok l → 0 < lay_num_rounds l →
  (rows <? u32 (2 * b)) || negb (u64_sub rows (u32 (2 * b)) mod s =? 0) = false →
  consistent s b rows.
Proof.
  intros Hs32 Hr32 Hs Hb Hu Hl Hn Hchk.
  assert (2 * b ≤ rows) as H2b.
  { unfold make_round_layout in Hl. rewrite <-negb_orb, Hu, (wrap_small 64 (2 * b)) in Hl by lia.
    cbn [negb] in Hl. destruct (Nat.leb_spec (2 * b) rows); [done|].
    cbn [mbind res_bind] in Hl. injection Hl as <-. cbn in Hn. lia. }
  rewrite (wrap_small 32 (2 * b)), u64_sub_le in Hchk by lia.
  apply orb_false_iff in Hchk as [_ Hm%negb_false_iff%Nat.eqb_eq].
  constructor; try done. by rewrite Hu.
Qed.

(** The rows of the window, for parameters the checks accept. *)
Lemma validated_rows s b start end_ rows :
  (Z.of_nat s < 2 ^ 32)%Z → (Z.of_nat rows < 2 ^ 32)%Z → start ≤ end_ →
  validate_pcm_for_rounds_params s b start end_ rows = Ok tt →
  ∃ l, make_round_layout s b rows = Ok l ∧ end_ < rows ∧ 0 < rows ∧
    round_start l start < round_start l (end_ + 1) ≤ rows.
Proof.
  intros Hs32 Hr32 Hse Hv. unfold validate_pcm_for_rounds_params in Hv. res_inv Hv.
  rewrite throw_if_ok in *. apply Nat.eqb_neq in E. apply Nat.ltb_ge in E0.
  apply Nat.leb_gt in E3. destruct ((b =? 0) || (b =? s)) eqn:Hu.
  - rewrite uniform_layout in E1 by (done || lia). injection E1 as <-. cbn in E3.
    eexists. split; [apply uniform_layout; (done || lia)|].
    pose proof (proj1 (div_range rows s _ ltac:(lia)) eq_refl) as Hd.
    assert ((end_ + 1) * s ≤ rows) by nia. unfold round_start. cbn.
    assert (start * s < (end_ + 1) * s) by nia. rewrite !wrap_small by lia. split_and!; nia.
  - rename x1 into l. assert (lay_boundary l = true) as Hbd.
    { unfold make_round_layout in E1. rewrite <-negb_orb, Hu in E1. cbn [negb] in E1.
      apply bind_ok in E1 as (?&_&[= <-]). done. }
    rewrite Hbd in E2. cbn [andb] in E2.
    pose proof (validated_boundary s b rows l Hs32 Hr32 ltac:(lia) E0 Hu E1 ltac:(lia) E2) as Hc.
    rewrite make_round_layout_ok in E1 by done. injection E1 as <-. cbn in E3.
    exists (the_layout s b rows). split; [by apply make_round_layout_ok|].
    pose proof (round_start_mono s b rows Hc start end_ Hse ltac:(lia)) as Hm.
    pose proof (round_start_S s b rows Hc end_ E3) as HS. rewrite Hu in HS.
    pose proof (round_start_u32 s b rows Hc (end_ + 1) ltac:(lia)).
    apply orb_false_iff in Hu as [Hb0%Nat.eqb_neq _].
    assert (rounds_of s b rows ≤ rows) as Hrr.
    { pose proof (consistent_rows s b rows Hc) as Hrows.
      destruct ((b =? 0) || (b =? s)) eqn:Hu'; [nia|]. destruct Hrows as (n&?&?). nia. }
    destruct ((end_ =? 0) || (end_ + 1 =? rounds_of s b rows)); lia.
Qed.

(** The column lists of a sorted matrix are those of its dense form. *)
Lemma dense_columns m gs d :
  wf m gs → sorted_groups gs → wf2 (num_rows_ m) (num_cols_ m) d →
  (∀ i j, i < num_rows_ m → j < num_cols_ m → elem2 d i j = Some (bit (mentions m gs i j))) →
  dense_groups csc d (num_rows_ m) (num_cols_ m) = columns_of m gs.
Proof.
  intros Hwf Hs Hd He.
  destruct (to_csc_columns m gs Hwf) as (m'&_&Hwf'&Hcsc&Hr&Hc).
  apply groups_ext; [|apply dense_groups_sorted| |].
  - unfold dense_groups. rewrite bool_decide_eq_true_2 by done.
    by rewrite length_fmap, length_seq, length_columns.
  - unfold columns_of. destruct (is_csc m); [done|]. by apply sorted_transposed.
  - intros k l l' Hl Hl' i.
    pose proof (lookup_lt_Some _ _ _ Hl') as Hk. rewrite length_columns in Hk by done.
    unfold dense_groups in Hl. rewrite bool_decide_eq_true_2, list_lookup_fmap, lookup_seq_lt in Hl by done.
    injection Hl as <-. unfold nz_col. rewrite list_elem_of_filter, elem_of_seq, Is_true_true.
    assert (i ∈ l' → i < num_rows_ m) as Hb.
    { intros Hi. pose proof (wf_bound _ _ Hwf') as Hall. rewrite Forall_forall in Hall.
      apply list_elem_of_lookup_2, Hall in Hl'. rewrite Forall_forall in Hl'. apply Hl' in Hi.
      unfold index_bound in Hi. rewrite Hcsc, Hr in Hi. done. }
    unfold nonzero. split.
    + intros [Hn Hi]. rewrite He, bool_decide_eq_true in Hn by (done || lia).
      unfold bit in Hn. case_decide as Hm; [|done].
      rewrite (mentions_columns m gs) in Hm by (done || lia). destruct Hm as (l&Hl&?). congruence.
    + intros Hi. split; [|specialize (Hb Hi); lia]. rewrite He by auto. apply bool_decide_eq_true.
      unfold bit. rewrite decide_True; [done|]. rewrite (mentions_columns m gs) by auto. eauto.
Qed.

(** Only existing columns are selected. *)
Lemma select_bound cols l a b sa sb sel :
  (Z.of_nat (length cols) < 2 ^ 32)%Z →
  select_pcm_columns_for_round_range cols l a b sa sb = Ok sel →
  Forall (λ c, c < length cols) sel.1.1.
Proof.
  intros Hfit Hsel. unfold select_pcm_columns_for_round_range in Hsel.
  apply bind_ok in Hsel as (columns&Hloop&Hsel).
  assert (Forall (λ c, c < length cols) columns) as Hall.
  { clear Hsel. revert Hloop. unfold for_u.
    apply (foldM_preserve _ (Forall (λ c, c < length cols))); [|constructor].
    intros c acc acc' Hc%elem_of_seq Hacc Hstep.
    apply bind_ok in Hstep as (col&_&Hstep). case_bool_decide; [by injection Hstep as <-|].
    res_inv Hstep. subst acc'. destruct (column_in_range _ _ _ _ _ _); [|done].
    apply Forall_app. split; [done|]. constructor; [|done]. rewrite wrap_small; lia. }
  destruct columns; by injection Hsel as <-.
Qed.

(** The dense window filled from the column lists. *)
Lemma fill_window cols sel first last n :
  Forall (λ c, c < length cols) sel → last < first + n →
  returns (for_u 0 (length sel) (λ out_c dense_sub,
      orig_col ← vget sel out_c;
      rows ← vget cols orig_col;
      foldM (λ row dense_sub,
        if (first <=? row) && (row <=? last)
        then set_at dense_sub [row - first; out_c] 1 else Ok dense_sub) rows dense_sub)
      (tensor_of_shape [n; length sel]))
    (λ t, wf2 n (length sel) t ∧ ∀ i k oc col, i < n → sel !! k = Some oc → cols !! oc = Some col →
       elem2 t i k = Some (bit (first + i ∈ col ∧ first + i ≤ last))).
Proof.
  intros Hsel Hn.
  set (E := seq 0 (length sel) ≫= λ k, (λ i, (i, k)) <$>
     window_rows first last (default [] (sel !! k ≫= λ oc, cols !! oc))).
  assert (∀ i k oc col, sel !! k = Some oc → cols !! oc = Some col →
     (i, k) ∈ E ↔ first + i ∈ col ∧ first + i ≤ last) as HE.
  { intros i k oc col Hoc Hcol. unfold E. rewrite list_elem_of_bind. split.
    - intros (k'&(i'&[= -> ->]&Hi)%list_elem_of_fmap&_). rewrite Hoc in Hi. simpl in Hi.
      rewrite Hcol in Hi. by apply elem_of_window_rows in Hi.
    - intros Hi%elem_of_window_rows. exists k. rewrite elem_of_seq. split.
      + apply list_elem_of_fmap. exists i. split; [done|]. rewrite Hoc. simpl. by rewrite Hcol.
      + apply lookup_lt_Some in Hoc. lia. }
  replace (for_u _ _ _ _) with (foldM (λ e d, set_at d [e.1; e.2] 1) E (tensor_of_shape [n; length sel])).
  - eapply returns_mono; [apply (write_ones n (length sel) E id)|].
    + apply Forall_forall. intros [i k] Hik. unfold E in Hik.
      apply list_elem_of_bind in Hik as (k'&(i'&[= -> ->]&Hi)%list_elem_of_fmap&Hk%elem_of_seq).
      apply elem_of_window_rows in Hi as [_ Hi]. simpl. lia.
    + intros t [Ht He]. split; [done|]. intros i k oc col Hi Hoc Hcol.
      rewrite He by (done || by eapply lookup_lt_Some). f_equal. apply bit_iff.
      rewrite list_fmap_id. by apply (HE i k oc col).
  - unfold for_u, E. rewrite Nat.sub_0_r, foldM_bind. apply foldM_ext. intros k d Hk%elem_of_seq.
    destruct (lookup_lt_is_Some_2 sel k) as [oc Hoc]; [lia|].
    assert (oc < length cols) as Hlt by (rewrite Forall_forall in Hsel; by eapply Hsel, list_elem_of_lookup_2).
    destruct (lookup_lt_is_Some_2 cols oc Hlt) as [col Hcol].
    rewrite Hoc, (vget_ok _ _ _ Hoc). cbn [mbind res_bind option_bind]. rewrite Hcol, (vget_ok _ _ _ Hcol).
    cbn [mbind res_bind default]. unfold window_rows. rewrite !foldM_map.
    rewrite (foldM_filter (λ row d, set_at d [row - first; k] 1)
      (λ row, (first <=? row) && (row <=? last))). f_equal.
    apply filter_ext_in. intros row _. rewrite Is_true_true, andb_true_iff, !Nat.leb_le. done.
Qed.

(** The two overloads on a canonical matrix. *)
Lemma rounds_agree `{XtTranspose} m gs d s start end_ sa sb b :
  wf m gs → sorted_groups gs → 0 < num_cols_ m → (Z.of_nat s < 2 ^ 32)%Z → start ≤ end_ →
  to_dense m = Ok d →
  get_pcm_for_rounds_sparse m s start end_ sa sb true b = get_pcm_for_rounds d s start end_ sa sb b.
Proof.
  intros Hwf Hs Hc0 Hs32 Hse Hd.
  destruct (to_dense_returns m gs Hwf) as (d'&Hd'&Hwf2&He). rewrite Hd in Hd'. injection Hd' as <-.
  pose proof (dense_columns m gs d Hwf Hs Hwf2 He) as Hcols.
  pose proof (wf_rows _ _ Hwf) as Hr32. pose proof (wf_cols _ _ Hwf) as Hc32.
  unfold get_pcm_for_rounds_sparse, get_pcm_for_rounds. rewrite (proj1 Hwf2).
  cbn [vget lookup list_lookup mbind res_bind].
  destruct (validate_pcm_for_rounds_params s b start end_ (num_rows_ m)) as [[]| |] eqn:Hv; [|done..].
  destruct (validated_rows s b start end_ (num_rows_ m) Hs32 Hr32 Hse Hv) as (l&->&Hend&Hr0&Hlt&Hle).
  cbn [mbind res_bind]. rewrite (to_nested_csc_spec m gs) by done.
  rewrite (dense_to_sparse_ok _ _ d Hwf2) by done. rewrite Hcols.
  change (if is_csc m then gs else transposed (num_cols_ m) gs) with (columns_of m gs).
  cbn [mbind res_bind].
  destruct (select_pcm_columns_for_round_range (columns_of m gs) l start end_ sa sb) as [sel| |] eqn:Hsel;
    [|done..].
  cbn [mbind res_bind].
  pose proof (select_bound _ _ _ _ _ _ _ ltac:(by rewrite length_columns) Hsel) as Hb.
  rewrite (wrap_small 32 (end_ + 1)) by lia.
  set (fst_row := round_start l start) in *. set (nxt := round_start l (end_ + 1)) in *.
  rewrite u64_sub_le, !(wrap_small 32 fst_row), !(wrap_small 32 (nxt - 1)) by lia.
  replace (Z.to_nat _) with (nxt - fst_row) by (rewrite Z.mod_small; lia).
  destruct (fill_window (columns_of m gs) sel.1.1 fst_row (nxt - 1) (nxt - fst_row) Hb ltac:(lia))
    as (t&->&Ht&Het).
  assert (reorder_ok (num_rows_ m) (num_cols_ m) sel.1.1 fst_row (Z.of_nat (nxt - 1))) as Hok.
  { split_and!; [lia|lia|]. by rewrite length_columns in Hb by done. }
  destruct (reorder_dense_returns _ _ d _ _ _ Hwf2 Hr0 Hr32 Hok) as (t'&->&Ht'&Het').
  cbn [mbind res_bind]. do 3 f_equal.
  assert (rows_copied (num_rows_ m) fst_row (Z.of_nat (nxt - 1)) = nxt - fst_row) as Hn
    by (unfold rows_copied, row_last; lia).
  rewrite Hn in Ht', Het'. apply (tensor2_ext _ _ _ _ Ht Ht'). intros i k Hi Hk.
  destruct (lookup_lt_is_Some_2 sel.1.1 k Hk) as [oc Hoc].
  assert (oc < length (columns_of m gs)) as Hocl
    by (rewrite Forall_forall in Hb; by eapply Hb, list_elem_of_lookup_2).
  destruct (lookup_lt_is_Some_2 _ _ Hocl) as [col Hcol]. rewrite length_columns in Hocl by done.
  rewrite (Het i k oc col), (Het' i k oc), He by (done || lia). f_equal. apply bit_iff.
  rewrite (mentions_columns m gs) by (done || lia). split.
  - intros [? _]. eauto.
  - intros (col'&?&?). simplify_eq. split; [done|lia].
Qed.

(** For [start_round <= end_round] and a matrix with at least one column,
    the sparse overload of [get_pcm_for_rounds] returns exactly what the dense
    overload returns on the dense form of the canonicalised matrix: the same
    window, the same first and last column, and the same exceptions. *)
Theorem get_pcm_for_rounds_agree `{XtTranspose} m gs s start end_ sa sb b :
  wf m gs → 0 < num_cols_ m → (Z.of_nat s < 2 ^ 32)%Z → start ≤ end_ →
  get_pcm_for_rounds_sparse m s start end_ sa sb false b =
  (m' ← canonicalize m; d ← to_dense m'; get_pcm_for_rounds d s start end_ sa sb b).
Proof.
  intros Hwf Hc Hs Hse. pose proof (wf_canon m gs Hwf) as Hwf'.
  rewrite (canonicalize_spec m gs) by done. cbn [mbind res_bind].
  destruct (to_dense_returns _ _ Hwf') as (d&Hd&_). rewrite Hd. cbn [mbind res_bind].
  rewrite <-(rounds_agree _ _ d s start end_ sa sb b Hwf'); [|..|done]; [|by apply Forall_fmap, Forall_forall; intros; apply canon_spec|done..].
  unfold get_pcm_for_rounds_sparse. rewrite (canonicalize_spec m gs) by done. done.
Qed.

Definition example_rounds : sparse_binary_matrix :=
  of_groups csc 6 4 [[0; 1]; [1; 2]; [3; 4; 4; 4]; [5]].

Lemma get_pcm_for_rounds_agree_witness :
  get_pcm_for_rounds_sparse example_rounds 2 1 1 true true false 0 =
    Ok (mk_tensor [2; 2] [1; 0; 0; 1], 1%Z, 2) ∧
  get_pcm_for_rounds_sparse example_rounds 2 1 1 true true false 0 =
  (m' ← canonicalize example_rounds; d ← to_dense m'; get_pcm_for_rounds d 2 1 1 true true 0).
Proof.
  split; [reflexivity|].
  apply (get_pcm_for_rounds_agree example_rounds [[0; 1]; [1; 2]; [3; 4; 4; 4]; [5]] 2 1 1 true true 0).
  - apply (bool_decide_unpack _). vm_compute. exact I.
  - cbn. lia.
  - reflexivity.
  - lia.
Defined.
