(* ===== verification/PcmText.v ===== *)
(** * Sparse vector and string forms of a parity check matrix

    Model of [pcm_to_sparse_vec], [pcm_from_sparse_vec],
    [pcm_to_sparse_string], [pcm_from_sparse_string] and
    [generate_timelike_sparse_detector_matrix] (libs/qec/lib/pcm_utils.cpp).
    Rows are lists of column indices separated by -1.  A [std::string] is a
    list of characters; [std::getline] and [std::stoul] are written out. *)

From Stdlib Require Import Ascii.
From S2P Require Import Prelude Ordering Tensor SparseMatrix SparseFacts SparseCanon.

(** ** Sparse vectors *)

Definition pcm_to_sparse_vec (pcm : tensor) : res (list Z) :=
  num_rows ← vget (t_shape pcm) 0;
  for_u 0 num_rows (λ r sparse_vec,
    num_cols ← vget (t_shape pcm) 1;
    sparse_vec ← for_u 0 num_cols (λ c sparse_vec,
      x ← at_ pcm [r; c];
      Ok (if x =? 1 then sparse_vec ++ [Z.of_nat c] else sparse_vec)) sparse_vec;
    Ok (sparse_vec ++ [-1]%Z)) [].

Definition to_canonical_nested_csr (pcm : sparse_binary_matrix) : res (list (list nat)) :=
  m ← canonicalize pcm;
  to_nested_csr m.

Definition pcm_to_sparse_vec_sparse (pcm : sparse_binary_matrix) : res (list Z) :=
  rows ← to_canonical_nested_csr pcm;
  Ok (foldl (λ sparse_vec row, (sparse_vec ++ (Z.of_nat <$> row)) ++ [-1]%Z) [] rows).

Definition pcm_from_sparse_vec (sparse_vec : list Z) (num_rows num_cols : nat) : res tensor :=
  st ← foldM (λ col st,
         let '(pcm, row) := st in
         if (col <? 0)%Z then Ok (pcm, u64 (row + 1)) else
         pcm ← set_at pcm [row; Z.to_nat col] 1;
         Ok (pcm, row)) sparse_vec (tensor_of_shape [num_rows; num_cols], 0);
  Ok st.1.

(** ** Strings *)

Definition digit (n : nat) : ascii := ascii_of_nat (48 + n).

(** [ss << n] for an unsigned number. *)
Fixpoint print_digits (fuel n : nat) : list ascii :=
  match fuel with
  | 0 => []
  | S fuel => (if n <? 10 then [] else print_digits fuel (n / 10)) ++ [digit (n mod 10)]
  end.
Definition print_nat (n : nat) : list ascii := print_digits (S n) n.

Definition comma : ascii := ",".
Definition minus_one : list ascii := ["-"; "1"]%char.

Definition pcm_to_sparse_string (pcm : tensor) : res (list ascii) :=
  num_rows ← vget (t_shape pcm) 0;
  ss ← for_u 0 num_rows (λ r ss,
    row ← addr pcm [r; 0];
    num_cols ← vget (t_shape pcm) 1;
    ss ← for_u 0 num_cols (λ c ss,
      x ← vget (t_data pcm) (row + c);
      Ok (if x =? 1 then ss ++ print_nat c ++ [comma] else ss)) ss;
    Ok (ss ++ minus_one ++ [comma])) [];
  match ss with
  | [] => Undef
  | _ => Ok (take (length ss - 1) ss)
  end.

Definition pcm_to_sparse_string_sparse (pcm : sparse_binary_matrix) : res (list ascii) :=
  rows ← to_canonical_nested_csr pcm;
  let ss := foldl (λ ss row, foldl (λ ss col, ss ++ print_nat col ++ [comma]) ss row
                              ++ minus_one ++ [comma]) [] rows in
  Ok (take (length ss - 1) ss).

(** [std::getline(ss, item, ',')] until it fails: a trailing separator does
    not produce an empty item. *)
Fixpoint getline_items (s item : list ascii) (started : bool) : list (list ascii) :=
  match s with
  | [] => if started then [item] else []
  | ch :: s => if decide (ch = comma) then item :: getline_items s [] false
               else getline_items s (item ++ [ch]) true
  end.

(** [std::stoul] (base 10): leading blanks, an optional sign, then digits. *)
Definition is_digit (ch : ascii) : bool := (48 <=? nat_of_ascii ch) && (nat_of_ascii ch <=? 57).
Definition is_space (ch : ascii) : bool :=
  (nat_of_ascii ch =? 32) || ((9 <=? nat_of_ascii ch) && (nat_of_ascii ch <=? 13)).

Fixpoint read_digits (acc : Z) (s : list ascii) : Z :=
  match s with
  | ch :: s => if is_digit ch then read_digits (10 * acc + Z.of_nat (nat_of_ascii ch - 48)) s else acc
  | [] => acc
  end.

Fixpoint skip_spaces (s : list ascii) : list ascii :=
  match s with
  | ch :: s' => if is_space ch then skip_spaces s' else s
  | [] => []
  end.

Definition stoul (s : list ascii) : res Z :=
  let s := skip_spaces s in
  let '(neg, s) := match s with
                   | "-"%char :: s => (true, s)
                   | "+"%char :: s => (false, s)
                   | _ => (false, s)
                   end in
  match s with
  | ch :: _ =>
      if is_digit ch then
        let v := read_digits 0 s in
        if (2 ^ 64 <=? v)%Z then Throw (OutOfRange "stoul")
        else Ok (if neg : bool then (- v) mod 2 ^ 64 else v)%Z
      else Throw (InvalidArgument "stoul")
  | [] => Throw (InvalidArgument "stoul")
  end.

Definition pcm_from_sparse_string (sparse_str : list ascii) (num_rows num_cols : nat) : res tensor :=
  st ← foldM (λ item st,
         let '(pcm, row) := st in
         if decide (item = minus_one) then Ok (pcm, u32 (row + 1)) else
         v ← stoul item;
         pcm ← set_at pcm [row; Z.to_nat (v mod 2 ^ 32)%Z] 1;
         Ok (pcm, row)) (getline_items sparse_str [] false)
         (tensor_of_shape [num_rows; num_cols], 0);
  Ok st.1.

(** ** Time-like detector matrices *)

(** The rounds after the first: detector = previous round XOR this round.
    The column numbers are computed in [uint32_t]. *)
Definition timelike_rounds (num_syndromes_per_round num_rounds : nat) (m : list Z) : res (list Z) :=
  for_u 1 num_rounds (λ i m,
    for_u 0 num_syndromes_per_round (λ j m,
      Ok (m ++ [Z.of_nat (u32 ((i - 1) * num_syndromes_per_round + j));
                Z.of_nat (u32 (i * num_syndromes_per_round + j)); -1]%Z)) m) m.

Definition generate_timelike_sparse_detector_matrix
    (num_syndromes_per_round num_rounds : nat) (include_first_round : bool) : res (list Z) :=
  m ← (if include_first_round
       then for_u 0 num_syndromes_per_round (λ i m, Ok (m ++ [Z.of_nat i; -1]%Z)) []
       else Ok []);
  timelike_rounds num_syndromes_per_round num_rounds m.

Definition generate_timelike_from_first_round
    (num_syndromes_per_round num_rounds : nat) (first_round_matrix : list Z) : res (list Z) :=
  _ ← throw_if (length first_round_matrix =? 0)
        (InvalidArgument "generate_timelike_sparse_detector_matrix: first_round_matrix must be non-empty");
  _ ← for_u 0 (length first_round_matrix) (λ i _,
        x ← vget first_round_matrix i;
        _ ← throw_if (Nat.even i && (x <? 0)%Z)
              (InvalidArgument "generate_timelike_sparse_detector_matrix: first_round_matrix should have one index per row (row end indicated by -1)");
        throw_if (negb (Nat.even i) && negb (x =? -1)%Z)
          (InvalidArgument "generate_timelike_sparse_detector_matrix: first_round_matrix should have one index per row (row end indicated by -1)")) tt;
  timelike_rounds num_syndromes_per_round num_rounds first_round_matrix.

(** ** Tokens: a column index, or the end of a row *)

Definition tokens (rows : list (list nat)) : list (option nat) :=
  rows ≫= λ row, (Some <$> row) ++ [None].

Definition decode_step (w : Z) (tok : option nat) (st : tensor * nat) : res (tensor * nat) :=
  match tok with
  | None => Ok (st.1, wrap w (st.2 + 1))
  | Some col => pcm ← set_at st.1 [st.2; col] 1; Ok (pcm, st.2)
  end.

Lemma decode_row w row t k :
  foldM (decode_step w) (Some <$> row) (t, k) =
  (t' ← foldM (λ e d, set_at d [e.2; e.1] 1) ((λ j, (j, k)) <$> row) t; Ok (t', k)).
Proof.
  revert t. induction row as [|j row IH]; intros t; [done|]. cbn [fmap list_fmap foldM decode_step fst snd].
  destruct (set_at t [k; j] 1) as [t'| |]; cbn [mbind res_bind]; [apply IH|done..].
Qed.

Lemma decode_tokens w rows t k :
  (Z.of_nat (k + length rows) < 2 ^ w)%Z →
  foldM (decode_step w) (tokens rows) (t, k) =
  (t' ← foldM (λ e d, set_at d [e.2; e.1] 1) (entries_from k rows) t; Ok (t', k + length rows)).
Proof.
  revert t k. induction rows as [|row rows IH]; intros t k Hk.
  { simpl. by rewrite Nat.add_0_r. }
  unfold tokens. cbn [mbind list_bind]. cbn [length] in Hk.
  rewrite foldM_app, foldM_app, decode_row. cbn [entries_from]. rewrite foldM_app.
  destruct (foldM _ ((λ j, (j, k)) <$> row) t) as [t'| |]; cbn [mbind res_bind]; [|done..].
  cbn [foldM decode_step fst snd mbind res_bind]. rewrite wrap_small by lia.
  change (rows ≫= _) with (tokens rows). rewrite IH by lia. cbn [length].
  destruct (foldM _ (entries_from (S k) rows) t') eqn:E; rewrite Nat.add_1_r, E; cbn; [|done..].
  do 2 f_equal. lia.
Qed.

(** The tensor a list of rows describes. *)
Lemma decode_rows w rows r c :
  length rows ≤ r → (Z.of_nat (length rows) < 2 ^ w)%Z → Forall (Forall (λ j, j < c)) rows →
  returns (foldM (decode_step w) (tokens rows) (tensor_of_shape [r; c], 0)) (λ st,
    wf2 r c st.1 ∧ ∀ i j, i < r → j < c →
      elem2 st.1 i j = Some (bit ((j, i) ∈ entries_of rows))).
Proof.
  intros Hlen Hw Hb. rewrite decode_tokens by done.
  eapply returns_bind; [apply (write_ones r c (entries_of rows) swap)|].
  - apply Forall_forall. intros [j i] Hji. pose proof (entries_bound 0 rows c Hb) as He.
    rewrite Forall_forall in He. split; [|by apply (He _ Hji)].
    apply elem_of_entries in Hji as (l&_&Hl%lookup_lt_Some&_). simpl in *. lia.
  - intros t [Ht He]. apply returns_ok. split; [done|]. intros i j Hi Hj. rewrite He by done. f_equal.
    apply bit_iff. rewrite list_elem_of_fmap. split.
    + by intros ([j' i']&[= -> ->]&?).
    + intros. by exists (j, i).
Qed.

(** ** The rows that are written *)

Definition one_row (d : tensor) (c i : nat) : list nat := filter (λ j, elem2 d i j = Some 1) (seq 0 c).
Definition one_rows (d : tensor) (r c : nat) : list (list nat) := one_row d c <$> seq 0 r.

Lemma one_rows_bound d r c : Forall (Forall (λ j, j < c)) (one_rows d r c).
Proof.
  apply Forall_fmap, Forall_forall. intros i _. apply Forall_forall.
  intros j [_ Hj%elem_of_seq]%list_elem_of_filter. lia.
Qed.

Lemma length_one_rows d r c : length (one_rows d r c) = r.
Proof. unfold one_rows. by rewrite length_fmap, length_seq. Qed.

Lemma elem_of_one_rows d r c i j :
  i < r → j < c → (j, i) ∈ entries_of (one_rows d r c) ↔ elem2 d i j = Some 1.
Proof.
  intros Hi Hj. rewrite elem_of_entries, Nat.sub_0_r. unfold one_rows.
  rewrite list_lookup_fmap, lookup_seq_lt by done. split.
  - intros (l&_&[= <-]&[? _]%list_elem_of_filter). done.
  - intros He. eexists. split_and!; [lia|done|]. apply list_elem_of_filter. rewrite elem_of_seq. split; [done|lia].
Qed.

(** Decoding the rows of a 0/1 tensor gives the tensor back. *)
Lemma decode_one_rows w d r c :
  wf2 r c d → (∀ i j x, elem2 d i j = Some x → x ≤ 1) → (Z.of_nat r < 2 ^ w)%Z →
  returns (foldM (decode_step w) (tokens (one_rows d r c)) (tensor_of_shape [r; c], 0)) (λ st, st.1 = d).
Proof.
  intros Hwf Hbits Hr. eapply returns_mono; [apply decode_rows|].
  - by rewrite length_one_rows.
  - by rewrite length_one_rows.
  - apply one_rows_bound.
  - intros [t k] [Ht He]. simpl in *. apply (tensor2_ext r c); [done|done|]. intros i j Hi Hj.
    rewrite He by done. destruct (elem2_is_some r c d i j Hwf Hi Hj) as [x Hx].
    specialize (Hbits i j x Hx). rewrite Hx. f_equal. unfold bit.
    case_decide as Hin; rewrite elem_of_one_rows in Hin by done; destruct x as [|[|x]]; (lia || congruence).
Qed.

(** A loop that appends a piece per non-zero element of a row. *)
Lemma append_row {A} (d : tensor) (i : nat) (f : nat → list A) (get : nat → res nat) c acc :
  (∀ j, j < c → ∃ x, get j = Ok x ∧ elem2 d i j = Some x) →
  for_u 0 c (λ j acc, x ← get j; Ok (if x =? 1 then acc ++ f j else acc)) acc =
  Ok (acc ++ (one_row d c i ≫= f)).
Proof.
  intros Hget. unfold for_u, one_row. rewrite Nat.sub_0_r.
  assert (∀ j, j ∈ seq 0 c → j < c) as Hin by (intros j Hj%elem_of_seq; lia).
  revert acc Hin. generalize (seq 0 c). intros l. induction l as [|j l IH]; intros acc Hin.
  { simpl. by rewrite app_nil_r. }
  cbn [foldM]. destruct (Hget j) as (x&->&Hx); [apply Hin; set_solver|]. cbn [mbind res_bind].
  rewrite IH by set_solver. rewrite filter_cons. destruct (Nat.eqb_spec x 1) as [->|Hne].
  - rewrite decide_True by done. cbn [mbind list_bind]. by rewrite app_assoc.
  - rewrite decide_False by congruence. done.
Qed.

Lemma append_rows {A} (d : tensor) r c (f : nat → list A) (e : list A) (body : nat → list A → res (list A)) :
  (∀ i acc, i < r → body i acc = Ok (acc ++ (one_row d c i ≫= f) ++ e)) →
  for_u 0 r body [] = Ok (tokens (one_rows d r c) ≫= λ tok, match tok with Some j => f j | None => e end).
Proof.
  intros Hb. unfold for_u, one_rows, tokens. rewrite Nat.sub_0_r.
  assert (∀ j, j ∈ seq 0 r → j < r) as Hin by (intros j Hj%elem_of_seq; lia).
  cut (∀ l acc, (∀ j, j ∈ l → j < r) → foldM body l acc =
     Ok (acc ++ (((one_row d c <$> l) ≫= λ row, (Some <$> row) ++ [None]) ≫=
           λ tok, match tok with Some j => f j | None => e end))).
  { intros Hc. by apply (Hc (seq 0 r) []). }
  induction l as [|i l IH]; intros acc Hl; [simpl; by rewrite app_nil_r|].
  cbn [foldM]. rewrite Hb by set_solver. cbn [mbind res_bind]. rewrite IH by set_solver.
  cbn [fmap list_fmap mbind list_bind]. rewrite !bind_app, <-!app_assoc. do 3 f_equal.
  - generalize (one_row d c i). intros row. induction row as [|j row IHr]; [done|].
    cbn [fmap list_fmap mbind list_bind]. by rewrite IHr.
  - simpl. by rewrite app_nil_r.
Qed.

(** Writing a 0/1 PCM as a sparse vector and reading it back returns the
    PCM. *)
Theorem sparse_vec_round_trip d r c :
  wf2 r c d → (∀ i j x, elem2 d i j = Some x → x ≤ 1) → (Z.of_nat r < 2 ^ 64)%Z →
  (v ← pcm_to_sparse_vec d; pcm_from_sparse_vec v r c) = Ok d.
Proof.
  intros Hwf Hbits Hr. unfold pcm_to_sparse_vec. rewrite (proj1 Hwf).
  cbn [vget lookup list_lookup mbind res_bind].
  rewrite (append_rows d r c (λ j, [Z.of_nat j]) [-1]%Z).
  2:{ intros i acc Hi. rewrite (append_row d i (λ j, [Z.of_nat j])).
      - cbn [mbind res_bind]. by rewrite app_assoc.
      - intros j Hj. destruct (elem2_is_some r c d i j Hwf Hi Hj) as [x Hx]. exists x.
        by rewrite (at2_ok r c _ _ _ _ Hwf Hx). }
  cbn [mbind res_bind]. unfold pcm_from_sparse_vec.
  rewrite (foldM_bind (λ (col : Z) (st : tensor * nat), _)).
  rewrite (foldM_ext _ (decode_step 64)).
  - destruct (decode_one_rows 64 d r c Hwf Hbits Hr) as (st&->&Hst). cbn [mbind res_bind]. by rewrite Hst.
  - intros [j|] [t k] _; cbn [foldM decode_step fst snd].
    + rewrite (proj2 (Z.ltb_ge _ _)), Nat2Z.id by lia. by destruct (set_at t [k; j] 1).
    + done.
Qed.

Definition example_bits : tensor := mk_tensor [2; 3] [0; 1; 1; 0; 0; 1].

Lemma sparse_vec_round_trip_witness :
  pcm_to_sparse_vec example_bits = Ok [1; 2; -1; 2; -1]%Z ∧
  (v ← pcm_to_sparse_vec example_bits; pcm_from_sparse_vec v 2 3) = Ok example_bits.
Proof.
  split; [reflexivity|]. apply (sparse_vec_round_trip example_bits 2 3).
  - split; reflexivity.
  - intros i j x. unfold elem2. cbn [t_shape example_bits]. case_decide as H; [|discriminate].
    destruct i as [|[|i]], j as [|[|[|j]]]; cbn; intros; simplify_eq; lia.
  - reflexivity.
Defined.

(** ** Printing and reading numbers *)

Abbreviation digits := (Forall (λ ch, is_digit ch = true)).

Lemma digit_ok k : k < 10 → is_digit (digit k) = true ∧ nat_of_ascii (digit k) - 48 = k.
Proof. intros Hk. do 10 (destruct k as [|k]; [done|]). lia. Qed.

Lemma print_digits_digits fuel n : digits (print_digits fuel n).
Proof.
  revert n. induction fuel as [|fuel IH]; intros n; cbn [print_digits]; [constructor|].
  apply Forall_app. split.
  - destruct (n <? 10); [constructor|apply IH].
  - constructor; [|done]. apply digit_ok, Nat.mod_upper_bound. lia.
Qed.

Lemma read_digits_snoc acc l ch :
  digits l → is_digit ch = true →
  read_digits acc (l ++ [ch]) = (10 * read_digits acc l + Z.of_nat (nat_of_ascii ch - 48))%Z.
Proof.
  intros Hl Hch. revert acc. induction Hl as [|x l Hx Hl IH]; intros acc; simpl.
  - by rewrite Hch.
  - by rewrite Hx.
Qed.

Lemma read_print fuel n : n < fuel → read_digits 0 (print_digits fuel n) = Z.of_nat n.
Proof.
  revert n. induction fuel as [|fuel IH]; intros n Hn; [lia|]. cbn [print_digits].
  destruct (digit_ok (n mod 10)) as [Hd Hv]; [apply Nat.mod_upper_bound; lia|].
  rewrite read_digits_snoc; [|by destruct (n <? 10); [constructor|apply print_digits_digits]|done].
  rewrite Hv. destruct (Nat.ltb_spec n 10) as [Hlt|Hge].
  - rewrite Nat.mod_small by done. done.
  - rewrite IH.
    + pose proof (Nat.div_mod_eq n 10). lia.
    + pose proof (Nat.div_lt n 10). lia.
Qed.

Lemma print_nat_cons n : ∃ ch l, print_nat n = ch :: l ∧ is_digit ch = true.
Proof.
  pose proof (print_digits_digits (S n) n) as Hd. unfold print_nat.
  destruct (print_digits (S n) n) as [|ch l] eqn:E.
  - cbn [print_digits] in E. by apply app_nil in E as [_ ?].
  - exists ch, l. by apply Forall_cons_1 in Hd as [? _].
Qed.

Lemma digit_not_sign ch :
  is_digit ch = true → is_space ch = false ∧ ch ≠ "-"%char ∧ ch ≠ "+"%char ∧ ch ≠ comma.
Proof.
  intros Hd. split_and!; [|by intros ->..]. unfold is_digit, is_space in *.
  apply andb_true_iff in Hd as [H1%Nat.leb_le H2%Nat.leb_le].
  rewrite orb_false_iff, andb_false_iff, Nat.eqb_neq, !Nat.leb_gt. lia.
Qed.

Lemma stoul_print n : (Z.of_nat n < 2 ^ 64)%Z → stoul (print_nat n) = Ok (Z.of_nat n).
Proof.
  intros Hn. pose proof (read_print (S n) n ltac:(lia)) as Hr. fold (print_nat n) in Hr.
  destruct (print_nat_cons n) as (ch&l&E&Hd). rewrite E in *.
  destruct (digit_not_sign ch Hd) as (Hs&Hm&Hp&_). unfold stoul. cbn [skip_spaces]. rewrite Hs.
  assert ((match ch :: l with
           | "-"%char :: s => (true, s) | "+"%char :: s => (false, s) | _ => (false, ch :: l)
           end) = (false, ch :: l)) as ->.
  { clear -Hm Hp. destruct ch as [[] [] [] [] [] [] [] []]; try done. }
  rewrite Hd, Hr, (proj2 (Z.leb_gt _ _)) by done. done.
Qed.

(** ** Splitting *)

Lemma getline_sep it rest acc b :
  comma ∉ it → getline_items (it ++ comma :: rest) acc b = (acc ++ it) :: getline_items rest [] false.
Proof.
  revert acc b. induction it as [|ch it IH]; intros acc b Hc; simpl.
  - by rewrite app_nil_r.
  - rewrite decide_False by set_solver. rewrite IH by set_solver. by rewrite <-app_assoc.
Qed.

Lemma getline_last it acc : comma ∉ it → it ≠ [] → getline_items it acc false = [acc ++ it].
Proof.
  intros Hc Hne. destruct it as [|ch it]; [done|]. cbn [getline_items].
  rewrite decide_False by set_solver. assert (comma ∉ it) as Hc' by set_solver. clear Hne Hc.
  replace (acc ++ ch :: it) with ((acc ++ [ch]) ++ it) by (by rewrite <-app_assoc).
  revert Hc'. generalize (acc ++ [ch]). clear. induction it as [|ch it IH]; intros acc Hc; simpl.
  - by rewrite app_nil_r.
  - rewrite decide_False by set_solver. rewrite IH by set_solver. by rewrite <-app_assoc.
Qed.

Definition joined (its : list (list ascii)) : list ascii := its ≫= λ it, it ++ [comma].

Lemma getline_joined its :
  its ≠ [] → Forall (λ it, (comma ∉ it) ∧ it ≠ []) its →
  getline_items (take (length (joined its) - 1) (joined its)) [] false = its.
Proof.
  intros Hne Hall. destruct its as [|last its] using rev_ind; [done|]. clear IHits Hne.
  apply Forall_app in Hall as [Hits [[Hc Hne] _]%Forall_cons_1].
  assert (joined (its ++ [last]) = joined its ++ last ++ [comma]) as ->.
  { unfold joined. rewrite bind_app. simpl. by rewrite app_nil_r. }
  rewrite !length_app. cbn [length]. replace (_ + (_ + 1) - 1) with (length (joined its) + length last) by lia.
  rewrite take_app_add', take_app_length by done.
  induction Hits as [|it its [Hc' _] Hits IH].
  - by apply getline_last.
  - change (joined (it :: its)) with ((it ++ [comma]) ++ joined its).
    rewrite <-!app_assoc. cbn [app]. by rewrite getline_sep, IH.
Qed.

(** ** The string round trip *)

Definition token_item (tok : option nat) : list ascii :=
  match tok with Some j => print_nat j | None => minus_one end.

Lemma digits_item l : digits l → (comma ∉ l) ∧ l ≠ minus_one.
Proof.
  intros Hl. split.
  - intros Hin. rewrite Forall_forall in Hl. by apply Hl in Hin.
  - intros ->. by apply Forall_cons_1 in Hl as [? _].
Qed.

Lemma token_item_ok tok : (comma ∉ token_item tok) ∧ token_item tok ≠ [].
Proof.
  destruct tok as [j|]; simpl.
  - split; [apply digits_item, print_digits_digits|].
    destruct (print_nat_cons j) as (ch&l&->&_). done.
  - split; [|done]. unfold minus_one, comma. set_solver.
Qed.

Lemma joined_tokens toks :
  (toks ≫= λ tok, match tok with Some j => print_nat j ++ [comma] | None => minus_one ++ [comma] end) =
  joined (token_item <$> toks).
Proof.
  induction toks as [|[j|] toks IH]; [done|..]; cbn [mbind list_bind fmap list_fmap].
  all: unfold joined in *; by rewrite IH.
Qed.

(** Writing a 0/1 PCM with at least one row and one column as text and
    reading it back returns the PCM. *)
Theorem sparse_string_round_trip d r c :
  wf2 r c d → (∀ i j x, elem2 d i j = Some x → x ≤ 1) →
  0 < r → (Z.of_nat r < 2 ^ 32)%Z → 0 < c → (Z.of_nat c < 2 ^ 32)%Z →
  (s ← pcm_to_sparse_string d; pcm_from_sparse_string s r c) = Ok d.
Proof.
  intros Hwf Hbits Hr0 Hr Hc0 Hc. unfold pcm_to_sparse_string. rewrite (proj1 Hwf).
  cbn [vget lookup list_lookup mbind res_bind].
  rewrite (append_rows d r c (λ j, print_nat j ++ [comma]) (minus_one ++ [comma])).
  2:{ intros i acc Hi. rewrite (addr_row r c) by done. cbn [mbind res_bind].
      rewrite (append_row d i (λ j, print_nat j ++ [comma])).
      - cbn [mbind res_bind]. by rewrite <-app_assoc.
      - intros j Hj. destruct (elem2_is_some r c d i j Hwf Hi Hj) as [x Hx]. exists x. split; [|done].
        apply vget_ok. by rewrite (row_read r c). }
  cbn [mbind res_bind]. rewrite joined_tokens.
  set (toks := tokens (one_rows d r c)).
  assert (toks ≠ []) as Hne.
  { unfold toks, tokens, one_rows. destruct r as [|r]; [lia|]. simpl.
    intros Hnil. apply (f_equal length) in Hnil. rewrite !length_app in Hnil. simpl in Hnil. lia. }
  assert (joined (token_item <$> toks) ≠ []) as Hj.
  { destruct toks as [|tok toks]; [done|]. change (joined _) with ((token_item tok ++ [comma]) ++ joined (token_item <$> toks)).
    intros Hnil. apply (f_equal length) in Hnil. rewrite !length_app in Hnil. simpl in Hnil. lia. }
  replace (match joined (token_item <$> toks) with [] => Undef | _ => Ok (take (length (joined (token_item <$> toks)) - 1) (joined (token_item <$> toks))) end)
    with (Ok (take (length (joined (token_item <$> toks)) - 1) (joined (token_item <$> toks))))
    by (by destruct (joined (token_item <$> toks))).
  cbn [mbind res_bind]. unfold pcm_from_sparse_string. rewrite getline_joined.
  - rewrite foldM_map, (foldM_ext _ (decode_step 32)).
    + destruct (decode_one_rows 32 d r c Hwf Hbits Hr) as (st&Hrun&Hst). fold toks in Hrun.
      rewrite Hrun. cbn [mbind res_bind]. by rewrite Hst.
    + intros [j|] [t k] Hin; cbn [decode_step token_item fst snd].
      * rewrite decide_False by apply digits_item, print_digits_digits.
        assert (j < c) as Hjc.
        { unfold toks, tokens in Hin. apply list_elem_of_bind in Hin as (row&Hrow&Hmem).
          pose proof (one_rows_bound d r c) as Hb. rewrite Forall_forall in Hb. specialize (Hb _ Hmem).
          rewrite Forall_forall in Hb. apply Hb. set_solver. }
        rewrite stoul_print by lia. cbn [mbind res_bind]. rewrite Z.mod_small, Nat2Z.id by lia.
        by destruct (set_at t [k; j] 1).
      * by rewrite decide_True.
  - by destruct toks.
  - apply Forall_fmap, Forall_forall. intros tok _. apply token_item_ok.
Qed.

Lemma sparse_string_round_trip_witness :
  pcm_to_sparse_string example_bits = Ok (String.list_ascii_of_string "1,2,-1,2,-1") ∧
  (s ← pcm_to_sparse_string example_bits; pcm_from_sparse_string s 2 3) = Ok example_bits.
Proof.
  split; [reflexivity|]. apply (sparse_string_round_trip example_bits 2 3).
  - split; reflexivity.
  - intros i j x. unfold elem2. cbn [t_shape example_bits]. case_decide as H; [|discriminate].
    destruct i as [|[|i]], j as [|[|[|j]]]; cbn; intros; simplify_eq; lia.
  - lia.
  - reflexivity.
  - lia.
  - reflexivity.
Defined.

(** With no rows the dense writer pops from an empty string. *)
Example sparse_string_no_rows : pcm_to_sparse_string (mk_tensor [0; 3] []) = Undef.
Proof. reflexivity. Qed.

(** ** Time-like detectors *)

Lemma for_u_append {A} lo hi (f : nat → list A) m :
  for_u lo hi (λ i m, Ok (m ++ f i)) m = Ok (m ++ (seq lo (hi - lo) ≫= f)).
Proof.
  unfold for_u. generalize (seq lo (hi - lo)). intros l. revert m.
  induction l as [|i l IH]; intros m; [simpl; by rewrite app_nil_r|].
  cbn [foldM mbind res_bind list_bind]. rewrite IH. by rewrite <-app_assoc.
Qed.

(** The detectors: measurement [j] of the first round, then for every later
    round the pair of measurements [j] of the previous and of this round. *)
Definition first_round_rows (s : nat) : list (list nat) := (λ j, [j]) <$> seq 0 s.
Definition later_round_rows (s num_rounds : nat) : list (list nat) :=
  seq 1 (num_rounds - 1) ≫= λ i, (λ j, [(i - 1) * s + j; i * s + j]) <$> seq 0 s.

Definition encode (rows : list (list nat)) : list Z := rows ≫= λ row, (Z.of_nat <$> row) ++ [-1]%Z.

Lemma encode_app r1 r2 : encode (r1 ++ r2) = encode r1 ++ encode r2.
Proof. unfold encode. apply bind_app. Qed.

Lemma encode_bind (f : nat → list (list nat)) l : encode (l ≫= f) = l ≫= λ i, encode (f i).
Proof.
  induction l as [|i l IH]; [done|]. cbn [mbind list_bind]. by rewrite encode_app, <-IH.
Qed.

Lemma encode_fmap (f : nat → list nat) l : encode (f <$> l) = l ≫= λ i, (Z.of_nat <$> f i) ++ [-1]%Z.
Proof. unfold encode. by rewrite list_fmap_bind. Qed.

Lemma bind_ext_in {A B} (f g : A → list B) l : (∀ x, x ∈ l → f x = g x) → l ≫= f = l ≫= g.
Proof.
  induction l as [|x l IH]; intros H; [done|]. cbn [mbind list_bind]. rewrite H, IH; set_solver.
Qed.

Lemma timelike_rounds_spec s n m :
  (Z.of_nat (s * n) < 2 ^ 32)%Z →
  timelike_rounds s n m = Ok (m ++ encode (later_round_rows s n)).
Proof.
  intros Hfit. unfold timelike_rounds, later_round_rows.
  assert (∀ i m, 1 ≤ i < n → for_u 0 s (λ j m, Ok (m ++ [Z.of_nat (u32 ((i - 1) * s + j));
                Z.of_nat (u32 (i * s + j)); -1]%Z)) m =
     Ok (m ++ encode ((λ j, [(i - 1) * s + j; i * s + j]) <$> seq 0 s))) as Hrow.
  { intros i m' Hi. rewrite for_u_append, encode_fmap, Nat.sub_0_r. do 2 f_equal.
    apply bind_ext_in. intros j Hj%elem_of_seq. rewrite !wrap_small by nia. done. }
  rewrite encode_bind. unfold for_u at 1.
  rewrite (foldM_ext _ (λ i m, Ok (m ++ encode ((λ j, [(i - 1) * s + j; i * s + j]) <$> seq 0 s)))).
  - apply (for_u_append 1 n).
  - intros i m' Hi%elem_of_seq. apply Hrow. lia.
Qed.

(** As long as the measurement numbers fit [uint32_t], the generated
    matrix has, in order, one detector per first-round syndrome (when asked
    for) and one detector per later round and syndrome, each comparing the
    same syndrome of two consecutive rounds. *)
Theorem timelike_matrix_rows s n incl :
  (Z.of_nat (s * n) < 2 ^ 32)%Z →
  generate_timelike_sparse_detector_matrix s n incl =
    Ok (encode ((if incl : bool then first_round_rows s else []) ++ later_round_rows s n)).
Proof.
  intros Hfit. unfold generate_timelike_sparse_detector_matrix. rewrite encode_app.
  destruct incl.
  - rewrite for_u_append. cbn [mbind res_bind]. rewrite timelike_rounds_spec by done.
    unfold first_round_rows. by rewrite encode_fmap, Nat.sub_0_r.
  - cbn [mbind res_bind]. by rewrite timelike_rounds_spec.
Qed.

Lemma timelike_matrix_rows_witness :
  generate_timelike_sparse_detector_matrix 2 2 true = Ok [0; -1; 1; -1; 0; 2; -1; 1; 3; -1]%Z ∧
  generate_timelike_sparse_detector_matrix 2 2 true = Ok (encode [[0]; [1]; [0; 2]; [1; 3]]).
Proof. split; [reflexivity|]. apply (timelike_matrix_rows 2 2 true). reflexivity. Defined.
