(* ===== verification/Rates.v ===== *)
(** * Error rates

    The library keeps probabilities as [double].  The operations it uses on
    them are a class, so that the combinatorial theorems hold for any
    arithmetic; two instances evaluate the model: IEEE binary64 numbers, which
    is what the program runs on, and rationals, where the laws of probability
    hold exactly. *)

From Stdlib Require Import QArith PrimFloat.
From S2P Require Import Prelude.

Class RateOps (R : Type) := {
  rate_zero : R;
  rate_one : R;
  rate_half : R;
  rate_add : R → R → R;
  rate_sub : R → R → R;
  rate_mul : R → R → R;
  rate_eqb : R → R → bool;
  rate_leb : R → R → bool;
  rate_ltb : R → R → bool
}.

#[export] Instance float_rates : RateOps float := {|
  rate_zero := 0%float;
  rate_one := 1%float;
  rate_half := 0.5%float;
  rate_add := PrimFloat.add;
  rate_sub := PrimFloat.sub;
  rate_mul := PrimFloat.mul;
  rate_eqb := PrimFloat.eqb;
  rate_leb := PrimFloat.leb;
  rate_ltb := PrimFloat.ltb
|}.

#[export] Instance Q_rates : RateOps Q := {|
  rate_zero := 0%Q;
  rate_one := 1%Q;
  rate_half := (1 # 2)%Q;
  rate_add := Qplus;
  rate_sub := Qminus;
  rate_mul := Qmult;
  rate_eqb := Qeq_bool;
  rate_leb := Qle_bool;
  rate_ltb a b := negb (Qle_bool b a)
|}.

(** [a + b - 2.0 * a * b]: the probability that exactly one of two independent
    events happens. *)
Definition rate_xor {R} `{RateOps R} (a b : R) : R :=
  rate_sub (rate_add a b) (rate_mul (rate_mul (rate_add rate_one rate_one) a) b).

(** The same rule over a list, from an impossible event. *)
Definition rate_xor_all {R} `{RateOps R} (l : list R) : R := foldl rate_xor rate_zero l.

(** ** Rationals *)

(** The bias [1 - 2p] of a bit multiplies under XOR of independent bits. *)
Definition bias (p : Q) : Q := (1 - 2 * p)%Q.

Lemma bias_xor a b : (bias (rate_xor a b) == bias a * bias b)%Q.
Proof. unfold bias, rate_xor. simpl. ring. Qed.

Lemma bias_xor_all l : (bias (rate_xor_all l) == foldr Qmult 1 (bias <$> l))%Q.
Proof.
  unfold rate_xor_all.
  cut (∀ a, bias (foldl rate_xor a l) == bias a * foldr Qmult 1 (bias <$> l))%Q.
  { intros Hc. rewrite Hc. unfold bias at 1. simpl. ring. }
  induction l as [|p l IH]; intros a; [simpl; ring|].
  cbn [foldl fmap list_fmap foldr]. setoid_rewrite IH. setoid_rewrite bias_xor. ring.
Qed.

(** The combined rate is a probability when the rates are. *)
Lemma rate_xor_range (a b : Q) :
  (0 <= a <= 1)%Q → (0 <= b <= 1)%Q → (0 <= rate_xor a b <= 1)%Q.
Proof.
  intros [Ha1 Ha2] [Hb1 Hb2]. unfold rate_xor. simpl.
  assert (0 <= a * (1 - b))%Q by (apply Qmult_le_0_compat; [done|]; by apply Qle_minus_iff in Hb2).
  assert (0 <= b * (1 - a))%Q by (apply Qmult_le_0_compat; [done|]; by apply Qle_minus_iff in Ha2).
  assert (0 <= a * b)%Q by (by apply Qmult_le_0_compat).
  assert (0 <= (1 - a) * (1 - b))%Q.
  { apply Qmult_le_0_compat; [by apply Qle_minus_iff in Ha2|by apply Qle_minus_iff in Hb2]. }
  split.
  - assert (a + b - (1 + 1) * a * b == a * (1 - b) + b * (1 - a))%Q as -> by ring.
    by apply (Qplus_le_compat 0 _ 0 _).
  - apply Qle_minus_iff.
    assert (1 + - (a + b - (1 + 1) * a * b) == a * b + (1 - a) * (1 - b))%Q as -> by ring.
    by apply (Qplus_le_compat 0 _ 0 _).
Qed.
