(* ===== verification/DetectorErrorModel.v ===== *)
(** * Detector error models

    Model of [detector_error_model] (libs/qec/lib/detector_error_model.cpp and
    its header): the projection of a Stim model onto dense or sparse
    matrices, and the canonical form for round-based decoding.  The Stim
    library parses the text and flattens it; its result is the input here.
    Warnings that are only logged are left out. *)

From S2P Require Import Prelude Rates Ordering Tensor SparseMatrix RoundLayout PcmSort PcmColumns.

(** ** The flattened Stim model *)

Inductive dem_target := relative_detector_id (val : nat) | observable_id (val : nat)
  | separator | other_target.

Record dem_instruction (R : Type) := mk_instruction {
  arg_data : list R;
  target_data : list dem_target
}.
Arguments mk_instruction {R}.
Arguments arg_data {R}.
Arguments target_data {R}.

(** What [stim::DetectorErrorModel] yields: the two counts and the error
    instructions [iter_flatten_error_instructions] visits, in order. *)
Record stim_model (R : Type) := mk_stim {
  count_detectors : nat;
  count_observables : nat;
  error_instructions : list (dem_instruction R)
}.
Arguments mk_stim {R}.
Arguments count_detectors {R}.
Arguments count_observables {R}.
Arguments error_instructions {R}.

(** ** Parsing *)

Record parsed_stim_dem (R : Type) := mk_parsed {
  p_num_detectors : nat;
  p_num_observables : nat;
  p_detector_hits : list (list nat);
  p_observable_hits : list (list nat);
  p_error_rates : list R
}.
Arguments mk_parsed {R}.
Arguments p_num_detectors {R}.
Arguments p_num_observables {R}.
Arguments p_detector_hits {R}.
Arguments p_observable_hits {R}.
Arguments p_error_rates {R}.

(** [if (!s.erase(v)) s.insert(v)] on a [std::set], iterated in ascending
    order. *)
Fixpoint toggle (s : list nat) (v : nat) : list nat :=
  match s with
  | [] => [v]
  | x :: s' => if v =? x then s' else if v <? x then v :: s else x :: toggle s' v
  end.

Section dem.
Context {R : Type} `{RateOps R}.

(** The parser's mutable state: the two parity sets and the output columns. *)
Record parse_state := mk_state {
  dets_parity : list nat;
  obs_parity : list nat;
  st_detector_hits : list (list nat);
  st_observable_hits : list (list nat);
  st_error_rates : list R
}.

Definition flush (prob : R) (st : parse_state) : parse_state :=
  if bool_decide (dets_parity st = [] ∧ obs_parity st = []) then st
  else mk_state [] [] (st_detector_hits st ++ [dets_parity st])
         (st_observable_hits st ++ [obs_parity st]) (st_error_rates st ++ [prob]).

Definition push_target (target : dem_target) (st : parse_state) : res parse_state :=
  match target with
  | relative_detector_id v =>
      Ok (mk_state (toggle (dets_parity st) v) (obs_parity st) (st_detector_hits st)
            (st_observable_hits st) (st_error_rates st))
  | observable_id v =>
      Ok (mk_state (dets_parity st) (toggle (obs_parity st) v) (st_detector_hits st)
            (st_observable_hits st) (st_error_rates st))
  | _ => Throw (RuntimeError "Stim DEM error instruction contains an unsupported target kind; only D* (detector) and L* (observable) targets are supported by the fallback parser")
  end.

(** The callback of [iter_flatten_error_instructions]; the parity sets are
    local to it. *)
Definition parse_instruction (use_decomp_suggestions : bool) (inst : dem_instruction R)
    (st : parse_state) : res parse_state :=
  match arg_data inst with
  | [] => Throw (RuntimeError "Stim DEM error instruction missing probability argument")
  | prob :: _ =>
      _ ← throw_if (negb (rate_leb rate_zero prob && rate_leb prob rate_one))
            (RuntimeError "Stim DEM error probability out of range [0, 1]");
      let st := mk_state [] [] (st_detector_hits st) (st_observable_hits st) (st_error_rates st) in
      st ← foldM (λ target st,
             match target with
             | separator => Ok (if use_decomp_suggestions : bool then flush prob st else st)
             | _ => push_target target st
             end) (target_data inst) st;
      Ok (flush prob st)
  end.

(** [stim_parse] is the Stim library's text parser; a parse error is
    rethrown. *)
Definition parse_stim_dem {T} (stim_parse : T → option (stim_model R)) (dem_text : T)
    (use_decomp_suggestions : bool) : res (parsed_stim_dem R) :=
  match stim_parse dem_text with
  | None => Throw (RuntimeError "Stim DEM parse failed: ")
  | Some dem =>
      st ← foldM (parse_instruction use_decomp_suggestions) (error_instructions dem)
             (mk_state [] [] [] [] []);
      _ ← throw_if (bool_decide (st_detector_hits st = []))
            (RuntimeError "Stim DEM contains no error mechanisms after flattening");
      Ok (mk_parsed (count_detectors dem) (count_observables dem) (st_detector_hits st)
            (st_observable_hits st) (st_error_rates st))
  end.

Definition validate_hit_ids (parsed : parsed_stim_dem R) : res unit :=
  _ ← foldM (λ hits _, foldM (λ det _, throw_if (p_num_detectors parsed <=? det)
        (RuntimeError "Stim DEM detector id out of range while extracting H")) hits tt)
        (p_detector_hits parsed) tt;
  foldM (λ hits _, foldM (λ ob _, throw_if (p_num_observables parsed <=? ob)
        (RuntimeError "Stim DEM observable id out of range while extracting O")) hits tt)
        (p_observable_hits parsed) tt.

(** ** The dense projection *)

Record detector_error_model := mk_dem {
  detector_error_matrix : tensor;
  error_rates : list R;
  observables_flips_matrix : tensor;
  error_ids : option (list nat)
}.

(** [t.at({i, j}) ^= 1] *)
Definition flip_at (t : tensor) (i j : nat) : res tensor :=
  p ← addr_mut t [i; j];
  x ← vget (t_data t) p;
  d ← vset (t_data t) p (u8 (Nat.lxor x 1));
  Ok (mk_tensor (t_shape t) d).

Definition project_dense (parsed : parsed_stim_dem R) : res detector_error_model :=
  _ ← validate_hit_ids parsed;
  let num_cols := length (p_detector_hits parsed) in
  st ← for_u 0 num_cols (λ err st,
    let '(h, o) := st in
    dets ← vget (p_detector_hits parsed) err;
    h ← foldM (λ det h, flip_at h det err) dets h;
    obs ← vget (p_observable_hits parsed) err;
    o ← foldM (λ ob o, flip_at o ob err) obs o;
    Ok (h, o)) (tensor_of_shape [p_num_detectors parsed; num_cols],
                tensor_of_shape [p_num_observables parsed; num_cols]);
  Ok (mk_dem st.1 (p_error_rates parsed) st.2 None).

Definition dem_from_stim_text {T} (stim_parse : T → option (stim_model R)) (dem_text : T)
    (use_decomp_suggestions : bool) : res detector_error_model :=
  parsed ← parse_stim_dem stim_parse dem_text use_decomp_suggestions;
  project_dense parsed.

(** ** The sparse projection *)

Record sparse_dem := mk_sparse_dem {
  s_detector_error_matrix : sparse_binary_matrix;
  s_observables_flips_matrix : sparse_binary_matrix;
  s_error_rates : list R
}.

Definition total_nnz (groups : list (list nat)) : nat :=
  foldl (λ total group, u64 (total + length group)) 0 groups.

(** The running sums of group sizes, stored as [index_type]. *)
Definition running_ptrs (n : nat) (size_of : nat → res nat) : res (list nat) :=
  st ← for_u 0 n (λ i st,
    let '(ptrs, running) := st in
    sz ← size_of i;
    let running := u64 (running + sz) in
    ptrs ← vset ptrs (i + 1) (u32 running);
    Ok (ptrs, running)) (replicate (n + 1) 0, 0);
  Ok st.1.

(** [row_indices\[written++\] = det] over all hits. *)
Definition write_hits (hits : list (list nat)) (n : nat) : res (list nat) :=
  st ← foldM (λ group st, foldM (λ det st,
         let '(out, written) := st in
         out ← vset out written (u32 det);
         Ok (out, u64 (written + 1))) group st) hits (replicate n 0, 0);
  Ok st.1.

(** [++observable_counts\[ob\]] over all hits; the counters are [size_t]. *)
Definition count_hits (hits : list (list nat)) (n : nat) : res (list nat) :=
  foldM (λ group cnt, foldM (λ ob cnt, x ← vget cnt ob; vset cnt ob (u64 (x + 1))) group cnt)
    hits (replicate n 0).

(** [col_indices\[cursor\[ob\]++\] = err] *)
Definition cursor_scatter (hits : list (list nat)) (cursor : list nat) (n : nat) : res (list nat) :=
  st ← for_u 0 (length hits) (λ err st,
         group ← vget hits err;
         foldM (λ ob st,
           let '(out, cursor) := st in
           p ← vget cursor ob;
           cursor ← vset cursor ob (u32 (p + 1));
           out ← vset out p (u32 err);
           Ok (out, cursor)) group st) (replicate n 0, cursor);
  Ok st.1.

Definition project_sparse (parsed : parsed_stim_dem R) : res sparse_dem :=
  _ ← validate_hit_ids parsed;
  let num_cols := length (p_detector_hits parsed) in
  _ ← throw_if (bool_decide (UINT32_MAX < Z.of_nat num_cols ∨
                             UINT32_MAX < Z.of_nat (p_num_detectors parsed) ∨
                             UINT32_MAX < Z.of_nat (p_num_observables parsed))%Z)
        (RuntimeError "Stim DEM dimensions exceed the sparse matrix index type");
  let h_nnz := total_nnz (p_detector_hits parsed) in
  let o_nnz := total_nnz (p_observable_hits parsed) in
  _ ← throw_if (bool_decide (UINT32_MAX < Z.of_nat h_nnz ∨ UINT32_MAX < Z.of_nat o_nnz)%Z)
        (RuntimeError "Stim DEM nonzero count exceeds the sparse matrix index type");
  col_ptrs ← running_ptrs num_cols (λ err, g ← vget (p_detector_hits parsed) err; Ok (length g));
  row_indices ← write_hits (p_detector_hits parsed) h_nnz;
  observable_counts ← count_hits (p_observable_hits parsed) (p_num_observables parsed);
  row_ptrs ← running_ptrs (p_num_observables parsed) (λ ob, vget observable_counts ob);
  col_indices ← cursor_scatter (p_observable_hits parsed) (take (length row_ptrs - 1) row_ptrs) o_nnz;
  h ← from_csc (u32 (p_num_detectors parsed)) (u32 num_cols) col_ptrs row_indices;
  o ← from_csr (u32 (p_num_observables parsed)) (u32 num_cols) row_ptrs col_indices;
  Ok (mk_sparse_dem h o (p_error_rates parsed)).

Definition sparse_dem_from_stim_text {T} (stim_parse : T → option (stim_model R)) (dem_text : T)
    : res sparse_dem :=
  parsed ← parse_stim_dem stim_parse dem_text false;
  project_sparse parsed.

(** ** Canonical form *)

Definition matrix_rows (t : tensor) : nat := match t_shape t with [r; _] => r | _ => 0 end.
Definition matrix_cols (t : tensor) : nat := match t_shape t with [_; c] => c | _ => 0 end.

Definition num_detectors (dem : detector_error_model) : nat := matrix_rows (detector_error_matrix dem).
Definition num_error_mechanisms (dem : detector_error_model) : nat :=
  matrix_cols (detector_error_matrix dem).
Definition num_observables (dem : detector_error_model) : nat :=
  matrix_rows (observables_flips_matrix dem).

(** [m\[key\] += rate] on a [std::map<size_t, double>], kept in key order. *)
Fixpoint map_add (key : nat) (rate : R) (m : list (nat * R)) : list (nat * R) :=
  match m with
  | [] => [(key, rate_add rate_zero rate)]
  | (k, p) :: m' => if key =? k then (k, rate_add p rate) :: m'
                    else if key <? k then (key, rate_add rate_zero rate) :: m
                    else (k, p) :: map_add key rate m'
  end.

(** [for (r < num_obs) if (observables_flips_matrix.at({r, c})) push(r)] *)
Definition obs_signature (o : tensor) (num_obs column_index : nat) : res (list nat) :=
  for_u 0 num_obs (λ r obs_indices,
    p ← addr_mut o [r; column_index];
    x ← vget (t_data o) p;
    Ok (if x =? 0 then obs_indices else obs_indices ++ [u32 r])) [].

Record merge_state := mk_merge {
  sig_to_out : gmap (list nat * list nat) nat;
  final_column_order : list nat;
  out_exclusive : list (list (nat * R))
}.

Definition merge_column (dem : detector_error_model) (row_indices : list (list nat))
    (has_error_ids remove_zero_syndrome_errors : bool) (column_index : nat) (st : merge_state)
    : res merge_state :=
  curr_row_indices ← vget row_indices column_index;
  rate ← vget (error_rates dem) column_index;
  obs_indices ← obs_signature (observables_flips_matrix dem) (num_observables dem) column_index;
  let zero_syndrome := bool_decide (curr_row_indices = []) in
  if rate_eqb rate rate_zero || (zero_syndrome && bool_decide (obs_indices = []))
     || (remove_zero_syndrome_errors && zero_syndrome) then Ok st else
  let sig := (curr_row_indices, obs_indices) in
  let '(pos, st) :=
    match sig_to_out st !! sig with
    | Some pos => (pos, st)
    | None => (length (out_exclusive st),
               mk_merge (<[sig := length (out_exclusive st)]> (sig_to_out st))
                 (final_column_order st ++ [column_index]) (out_exclusive st ++ [[]]))
    end in
  exclusive_key ← (if has_error_ids : bool
                   then match error_ids dem with
                        | Some ids => match ids !! column_index with
                                      | Some id => Ok id
                                      | None => Throw (OutOfRange "vector::_M_range_check")
                                      end
                        | None => Undef
                        end
                   else Ok column_index);
  m ← vget (out_exclusive st) pos;
  out ← vset (out_exclusive st) pos (map_add exclusive_key rate m);
  Ok (mk_merge (sig_to_out st) (final_column_order st) out).

Context `{XtTranspose}.

Definition canonicalize_for_rounds_impl (dem : detector_error_model)
    (row_indices : list (list nat)) (column_order : list nat)
    (remove_zero_syndrome_errors : bool) : res detector_error_model :=
  let has_error_ids := match error_ids dem with
                       | Some ids => length ids =? length (error_rates dem)
                       | None => false
                       end in
  _ ← throw_if (length (error_rates dem) <? length row_indices)
        (RuntimeError "canonicalize_for_rounds: row_indices size is greater than the number of error rates");
  st ← foldM (merge_column dem row_indices has_error_ids remove_zero_syndrome_errors)
         column_order (mk_merge ∅ [] []);
  let new_weights := (λ m, rate_xor_all (snd <$> m)) <$> out_exclusive st in
  let new_error_ids := if has_error_ids : bool then Some (seq 0 (length (out_exclusive st)))
                       else error_ids dem in
  h ← reorder_pcm_columns (detector_error_matrix dem) (final_column_order st) 0 UINT32_MAX;
  o ← reorder_pcm_columns (observables_flips_matrix dem) (final_column_order st) 0 UINT32_MAX;
  Ok (mk_dem h new_weights o new_error_ids).

Definition canonicalize_for_rounds (dem : detector_error_model) (num_syndromes_per_round : nat)
    (remove_zero_syndrome_errors : bool) : res detector_error_model :=
  row_indices ← dense_to_sparse (detector_error_matrix dem);
  let column_order := get_sorted_pcm_column_indices row_indices num_syndromes_per_round in
  canonicalize_for_rounds_impl dem row_indices column_order remove_zero_syndrome_errors.

Definition canonicalize_for_rounds_with_boundary (dem : detector_error_model)
    (num_syndromes_per_round num_boundary_syndromes : nat) (remove_zero_syndrome_errors : bool)
    : res detector_error_model :=
  _ ← throw_if (num_syndromes_per_round <? num_boundary_syndromes)
        (InvalidArgument "canonicalize_for_rounds_with_boundary: num_boundary_syndromes must be <= num_syndromes_per_round");
  row_indices ← dense_to_sparse (detector_error_matrix dem);
  column_order ← get_sorted_pcm_column_indices_boundary row_indices num_syndromes_per_round
                   num_boundary_syndromes;
  canonicalize_for_rounds_impl dem row_indices column_order remove_zero_syndrome_errors.
End dem.
