(* ===== verification/DemFacts.v ===== *)
(** * Detector error models: parsing and projections

    The parity sets of the parser are the GF(2)-canonical forms of the target
    lists; the dense and the sparse projection hold the same matrices. *)

From S2P Require Import Prelude Rates Ordering Tensor SparseMatrix SparseFacts SparseCanon SparseProps RoundLayout PcmSort PcmColumns DetectorErrorModel.

(** ** Parity sets *)

Lemma toggle_spec s v :
  StronglySorted (<) s →
  StronglySorted (<) (toggle s v) ∧ ∀ x, x ∈ toggle s v ↔ (x ∈ s ∧ x ≠ v) ∨ ((x ∉ s) ∧ x = v).
Proof.
  induction 1 as [|y s Hs IH Hall]; simpl.
  { split; [repeat constructor|]. set_solver. }
  rewrite Forall_forall in Hall. destruct (Nat.eqb_spec v y) as [->|Hne].
  { split; [done|]. intros x. destruct (decide (x = y)) as [->|]; [|set_solver].
    split; [intros Hin; specialize (Hall y Hin); lia|set_solver]. }
  destruct (Nat.ltb_spec v y).
  - split.
    + constructor; [by constructor; [|apply Forall_forall]|]. apply Forall_forall.
      intros z [->|Hz]%elem_of_cons; [done|]. specialize (Hall z Hz). lia.
    + assert (v ∉ y :: s) as Hv.
      { intros [->|Hv]%elem_of_cons; [lia|]. specialize (Hall v Hv). lia. }
      intros x. destruct (decide (x = v)) as [->|]; set_solver.
  - destruct IH as [IHs IHm]. split.
    + constructor; [done|]. apply Forall_forall. intros z [[Hz _]|[_ ->]]%IHm; [by apply Hall|lia].
    + intros x. rewrite elem_of_cons, IHm, elem_of_cons. destruct (decide (x = y)); naive_solver.
Qed.

Lemma toggle_canon l : foldl toggle [] l = canon l.
Proof.
  induction l as [|v l IH] using rev_ind; [done|].
  rewrite foldl_app. simpl. rewrite IH. destruct (canon_spec l) as [Hs Hm].
  destruct (toggle_spec (canon l) v Hs) as [Hs' Hm']. destruct (canon_spec (l ++ [v])) as [Hs2 Hm2].
  apply sorted_lt_ext; [done|done|]. intros x. rewrite Hm', Hm, Hm2, occ_app.
  destruct (decide (x = v)) as [->|Hne].
  - change (occ v [v]) with (if Nat.eq_dec v v then 1 else 0).
    destruct (Nat.eq_dec v v); [|done]. rewrite Nat.add_1_r, Nat.odd_succ, <-Nat.negb_odd.
    destruct (Nat.odd (occ v l)); naive_solver.
  - replace (occ x [v]) with 0; [rewrite Nat.add_0_r; naive_solver|].
    unfold occ. simpl. by destruct (Nat.eq_dec v x).
Qed.

(** ** Parsing *)

Definition det_ids (ts : list dem_target) : list nat :=
  omap (λ t, match t with relative_detector_id v => Some v | _ => None end) ts.
Definition obs_ids (ts : list dem_target) : list nat :=
  omap (λ t, match t with observable_id v => Some v | _ => None end) ts.

(** The components of an instruction: split at separators, or whole. *)
Fixpoint components (decomp : bool) (ts comp : list dem_target) : list (list dem_target) :=
  match ts with
  | [] => [comp]
  | separator :: ts => if decomp then comp :: components decomp ts [] else components decomp ts comp
  | t :: ts => components decomp ts (comp ++ [t])
  end.

Definition supported (t : dem_target) : Prop := t ≠ other_target.

#[global] Instance dem_target_eq_dec : EqDecision dem_target.
Proof. solve_decision. Defined.
#[global] Instance supported_dec t : Decision (supported t).
Proof. unfold supported. apply _. Defined.

Section facts.
Context {R : Type} `{RateOps R}.

(** A column: its detectors, its observables and its rate. *)
Definition column_of (prob : R) (comp : list dem_target) : list (list nat * list nat * R) :=
  if bool_decide (canon (det_ids comp) = [] ∧ canon (obs_ids comp) = []) then []
  else [(canon (det_ids comp), canon (obs_ids comp), prob)].

Definition columns_of_instruction (decomp : bool) (inst : dem_instruction R) :
    list (list nat * list nat * R) :=
  match arg_data inst with
  | [] => []
  | prob :: _ => components decomp (target_data inst) [] ≫= column_of prob
  end.

Definition valid_instruction (inst : dem_instruction R) : Prop :=
  (∃ prob args, arg_data inst = prob :: args ∧
     rate_leb rate_zero prob && rate_leb prob rate_one = true) ∧
  Forall supported (target_data inst).

(** The parser's state after some columns, inside a component. *)
Definition state_at (cols : list (list nat * list nat * R)) (comp : list dem_target) : parse_state :=
  mk_state (canon (det_ids comp)) (canon (obs_ids comp))
    ((λ c, c.1.1) <$> cols) ((λ c, c.1.2) <$> cols) (snd <$> cols).

Lemma flush_state prob cols comp :
  flush prob (state_at cols comp) = state_at (cols ++ column_of prob comp) [].
Proof.
  unfold flush, column_of. cbn [dets_parity obs_parity state_at]. case_bool_decide as Hb.
  - rewrite app_nil_r. unfold state_at. destruct Hb as [-> ->]. done.
  - unfold state_at. by rewrite !fmap_app.
Qed.

Lemma det_ids_snoc comp t : canon (det_ids (comp ++ [t])) =
  match t with relative_detector_id v => toggle (canon (det_ids comp)) v | _ => canon (det_ids comp) end.
Proof.
  unfold det_ids. rewrite omap_app. rewrite <-!toggle_canon, foldl_app. by destruct t.
Qed.
Lemma obs_ids_snoc comp t : canon (obs_ids (comp ++ [t])) =
  match t with observable_id v => toggle (canon (obs_ids comp)) v | _ => canon (obs_ids comp) end.
Proof.
  unfold obs_ids. rewrite omap_app. rewrite <-!toggle_canon, foldl_app. by destruct t.
Qed.

Lemma push_target_state t cols comp :
  supported t → t ≠ separator → push_target t (state_at cols comp) = Ok (state_at cols (comp ++ [t])).
Proof.
  intros Hs Hsep. unfold state_at. rewrite det_ids_snoc, obs_ids_snoc. by destruct t.
Qed.

Lemma parse_targets decomp prob ts cols comp :
  Forall supported ts →
  (st ← foldM (λ target st,
          match target with
          | separator => Ok (if decomp : bool then flush prob st else st)
          | _ => push_target target st
          end) ts (state_at cols comp);
   Ok (flush prob st)) =
  Ok (state_at (cols ++ (components decomp ts comp ≫= column_of prob)) []).
Proof.
  intros Hts. revert cols comp. induction Hts as [|t ts Ht Hts IH]; intros cols comp.
  { cbn [foldM mbind res_bind components list_bind]. rewrite app_nil_r. by rewrite flush_state. }
  cbn [foldM]. destruct t as [v|v| |]; [..|done].
  - rewrite push_target_state by done. apply IH.
  - rewrite push_target_state by done. apply IH.
  - destruct decomp; cbn [mbind res_bind components].
    + rewrite flush_state. cbn [list_bind]. rewrite app_assoc. apply IH.
    + apply IH.
Qed.

Lemma parse_instruction_ok decomp inst cols :
  valid_instruction inst →
  parse_instruction decomp inst (state_at cols []) =
    Ok (state_at (cols ++ columns_of_instruction decomp inst) []).
Proof.
  intros [(prob&args&Harg&Hrange) Hts]. unfold parse_instruction, columns_of_instruction.
  rewrite Harg, Hrange. cbn [negb throw_if mbind res_bind]. by apply (parse_targets decomp prob _ cols []).
Qed.

Lemma parse_instructions_ok decomp insts cols :
  Forall valid_instruction insts →
  foldM (parse_instruction decomp) insts (state_at cols []) =
    Ok (state_at (cols ++ (insts ≫= columns_of_instruction decomp)) []).
Proof.
  intros Hv. revert cols. induction Hv as [|inst insts Hi Hv IH]; intros cols.
  { cbn. by rewrite app_nil_r. }
  cbn [foldM]. rewrite parse_instruction_ok by done. cbn [mbind res_bind list_bind].
  by rewrite IH, app_assoc.
Qed.

(** The parsed model: one column per non-trivial component. *)
Definition parsed_of (dem : stim_model R) (cols : list (list nat * list nat * R)) : parsed_stim_dem R :=
  mk_parsed (count_detectors dem) (count_observables dem)
    ((λ c, c.1.1) <$> cols) ((λ c, c.1.2) <$> cols) (snd <$> cols).

Lemma parse_ok {T} (stim_parse : T → option (stim_model R)) text dem decomp :
  stim_parse text = Some dem → Forall valid_instruction (error_instructions dem) →
  error_instructions dem ≫= columns_of_instruction decomp ≠ [] →
  parse_stim_dem stim_parse text decomp =
    Ok (parsed_of dem (error_instructions dem ≫= columns_of_instruction decomp)).
Proof.
  intros Hp Hv Hne. unfold parse_stim_dem. rewrite Hp.
  pose proof (parse_instructions_ok decomp _ [] Hv) as Hrun. change (state_at [] []) with (mk_state (R:=R) [] [] [] [] []) in Hrun.
  rewrite Hrun. cbn [mbind res_bind app]. rewrite bool_decide_eq_false_2; [done|].
  cbn [st_detector_hits state_at]. by destruct (error_instructions dem ≫= columns_of_instruction decomp).
Qed.
End facts.

(** ** The dense projection *)

Lemma flip_step r c P d i j :
  ones_at r c P d → i < r → j < c → (i, j) ∉ P →
  returns (flip_at d i j) (ones_at r c (P ++ [(i, j)])).
Proof.
  intros [Hwf Hd] Hi Hj Hn.
  assert (flip_at d i j = set_at d [i; j] 1) as ->.
  { unfold flip_at, set_at. rewrite (addr_mut2 r c) by done. cbn [mbind res_bind].
    rewrite (vget_ok _ _ 0); [done|]. rewrite (row_read r c), Hd by done. unfold bit. by rewrite decide_False. }
  eapply returns_mono; [by apply (set2_returns r c)|]. intros d' [Hwf' Hd']. split; [done|].
  intros x y Hx Hy. rewrite Hd'. case_decide as E.
  - destruct E as [-> ->]. unfold bit. rewrite decide_True by set_solver. done.
  - rewrite Hd by done. f_equal. apply bit_iff. set_solver.
Qed.


(** The positions of the first [k] groups. *)
Lemma entries_take_S gs k g :
  gs !! k = Some g → entries_of (take (k + 1) gs) = entries_of (take k gs) ++ ((λ j, (j, k)) <$> g).
Proof.
  intros Hk. rewrite Nat.add_1_r, (take_S_r _ _ g) by done.
  cut (∀ l n, entries_from n (l ++ [g]) = entries_from n l ++ ((λ j, (j, n + length l)) <$> g)).
  { intros Hc. rewrite Hc, length_take. replace (0 + k `min` length gs) with k; [done|].
    apply lookup_lt_Some in Hk. lia. }
  induction l as [|x l IH]; intros n; simpl; [by rewrite Nat.add_0_r, app_nil_r|].
  rewrite IH, <-app_assoc, <-Nat.add_succ_comm. done.
Qed.

Lemma flip_group r c P d err dets :
  ones_at r c P d → err < c → Forall (λ x, x < r) dets → NoDup dets → (∀ x, x ∈ dets → (x, err) ∉ P) →
  returns (foldM (λ det h, flip_at h det err) dets d) (ones_at r c (P ++ ((λ x, (x, err)) <$> dets))).
Proof.
  intros Hd Herr Hb Hnd HP. revert P d Hd HP Hb Hnd.
  induction dets as [|x dets IH]; intros P d Hd HP Hb Hnd; cbn [foldM fmap list_fmap].
  { apply returns_ok. by rewrite app_nil_r. }
  apply Forall_cons_1 in Hb as [Hx Hb]. apply NoDup_cons in Hnd as [Hnx Hnd].
  eapply returns_bind; [apply (flip_step r c P); [done..|by apply HP; left]|]. intros d' Hd'.
  change ((x, err) :: ?l) with ([(x, err)] ++ l). rewrite (app_assoc P [(x, err)]). apply IH; [done| |done|done].
  intros y Hy. rewrite not_elem_of_app. split; [apply HP; by right|].
  rewrite elem_of_cons. intros [[= ->]|Hn]; [done|]. by apply elem_of_nil in Hn.
Qed.

Definition hits_ok (n : nat) (hits : list (list nat)) : Prop :=
  Forall (λ g, Forall (λ x, x < n) g ∧ StronglySorted (<) g) hits.

Lemma flip_next r hits k P d g :
  hits_ok r hits → hits !! k = Some g → P = entries_of (take k hits) → ones_at r (length hits) P d →
  returns (foldM (λ det h, flip_at h det k) g d) (ones_at r (length hits) (entries_of (take (k + 1) hits))).
Proof.
  intros Hok Hg -> Hd. unfold hits_ok in Hok. rewrite Forall_forall in Hok.
  destruct (Hok g (list_elem_of_lookup_2 _ _ _ Hg)) as [Hb Hs].
  rewrite (entries_take_S hits k g) by done. apply flip_group; [done| |done|by apply sorted_lt_nodup|].
  - by eapply lookup_lt_Some.
  - intros x _ Hin. apply elem_of_entries in Hin as (l&_&Hl&_). rewrite Nat.sub_0_r in Hl.
    apply lookup_take_Some in Hl as [_ ?]. lia.
Qed.

Lemma validate_hits_foldM n msg hits :
  foldM (λ hits _, foldM (λ x _, throw_if (n <=? x) (RuntimeError msg)) hits tt) hits tt =
    if bool_decide (Forall (Forall (λ x, x < n)) hits) then Ok tt else Throw (RuntimeError msg).
Proof.
  induction hits as [|g hits IH]; [done|]. cbn [foldM]. rewrite foldM_guard.
  destruct (existsb (λ x, n <=? x) g) eqn:E.
  - rewrite bool_decide_eq_false_2; [done|]. intros [Hg _]%Forall_cons_1.
    apply existsb_exists in E as (x&Hx%list_elem_of_In&Hle%Nat.leb_le).
    rewrite Forall_forall in Hg. specialize (Hg x Hx). lia.
  - cbn [mbind res_bind]. rewrite IH. erewrite bool_decide_ext; [done|].
    rewrite Forall_cons. split; [intros Hh; split; [|done]|tauto].
    apply Forall_forall. intros x Hx. destruct (decide (x < n)); [done|].
    assert (existsb (λ x, n <=? x) g = true); [|congruence].
    apply existsb_exists. exists x. rewrite Nat.leb_le. split; [by apply list_elem_of_In|lia].
Qed.

Section projections.
Context {R : Type} `{RateOps R} (parsed : parsed_stim_dem R).
Let dh := p_detector_hits parsed.
Let oh := p_observable_hits parsed.
Hypothesis same_cols : length dh = length oh.
Hypothesis dets_ok : hits_ok (p_num_detectors parsed) dh.
Hypothesis obs_ok : hits_ok (p_num_observables parsed) oh.

Lemma validate_hit_ids_ok : validate_hit_ids parsed = Ok tt.
Proof using dets_ok obs_ok.
  unfold validate_hit_ids. rewrite !validate_hits_foldM.
  rewrite !bool_decide_eq_true_2; [done|..].
  - eapply Forall_impl; [exact dets_ok|]. by intros g [? _].
  - eapply Forall_impl; [exact obs_ok|]. by intros g [? _].
Qed.

(** The dense matrices have a one exactly at the listed hits. *)
Lemma project_dense_returns :
  returns (project_dense parsed) (λ dem,
    ones_at (p_num_detectors parsed) (length dh) (entries_of dh) (detector_error_matrix dem) ∧
    ones_at (p_num_observables parsed) (length dh) (entries_of oh) (observables_flips_matrix dem) ∧
    error_rates dem = p_error_rates parsed ∧ error_ids dem = None).
Proof using All.
  unfold project_dense. rewrite validate_hit_ids_ok. cbn [mbind res_bind]. fold dh oh.
  eapply returns_bind; [apply (for_u_inv 0 (length dh) _ (λ k st,
    ones_at (p_num_detectors parsed) (length dh) (entries_of (take k dh)) st.1 ∧
    ones_at (p_num_observables parsed) (length oh) (entries_of (take k oh)) st.2))|].
  - lia.
  - rewrite <-same_cols. split; (split; [apply wf2_zeros|]); intros i j Hi Hj; cbn [fst snd];
      by rewrite elem2_zeros.
  - intros k [h o] Hk [Hh Ho]. cbn [fst snd] in *.
    destruct (lookup_lt_is_Some_2 dh k) as [g Hg]; [lia|].
    destruct (lookup_lt_is_Some_2 oh k) as [g' Hg']; [lia|].
    rewrite (vget_ok _ _ _ Hg). cbn [mbind res_bind].
    eapply returns_bind; [by apply (flip_next _ dh k _ h g dets_ok Hg eq_refl)|]. intros h' Hh'.
    rewrite (vget_ok _ _ _ Hg'). cbn [mbind res_bind].
    eapply returns_bind; [by apply (flip_next _ oh k _ o g' obs_ok Hg' eq_refl)|]. intros o' Ho'.
    by apply returns_ok.
  - intros [h o] [Hh Ho]. cbn [fst snd] in *. apply returns_ok.
    rewrite firstn_all in Hh. rewrite same_cols, firstn_all, <-same_cols in Ho. done.
Qed.
End projections.

(** * The sparse projection of a Stim model

    The compressed arrays filled directly by [sparse_dem_from_stim_text] are
    the compressed forms of the hit lists (by error mechanism for H, by
    observable for O), and the sparse and the dense projection agree. *)

Lemma running_ptrs_spec gs (size_of : nat → res nat) n :
  n = length gs → (Z.of_nat (length (concat gs)) < 2 ^ 32)%Z →
  (∀ i g, gs !! i = Some g → size_of i = Ok (length g)) →
  running_ptrs n size_of = Ok (ptrs_of gs).
Proof.
  intros -> Hz Hsz. unfold running_ptrs.
  match goal with |- (for_u _ _ ?f _ ≫= _) = _ =>
    destruct (for_u_inv 0 (length gs) f (λ j st, st = (ptrs_upto gs j, psum gs j))
                (replicate (length gs + 1) 0, 0)) as (st&->&->) end.
  - lia.
  - by rewrite ptrs_upto_0.
  - intros j st Hj ->. destruct (lookup_lt_is_Some_2 gs j) as [g Hg]; [lia|].
    rewrite (Hsz j g Hg). cbn [mbind res_bind]. rewrite <-(psum_S gs j g) by done.
    pose proof (psum_le gs (j + 1)).
    rewrite (wrap_small 64 (psum gs (j + 1))), (wrap_small 32 (psum gs (j + 1))) by lia.
    res_step; [rewrite length_ptrs_upto; lia|]. res_step. by rewrite ptrs_upto_S by lia.
  - cbn [mbind res_bind fst]. by rewrite ptrs_upto_all.
Qed.

Lemma foldM_concat {S B} (f : B → S → res S) gs s :
  foldM (λ g, foldM f g) gs s = foldM f (concat gs) s.
Proof.
  revert s. induction gs as [|g gs IH]; intros s; [done|]. cbn [foldM concat]. rewrite foldM_app.
  destruct (foldM f g s); cbn [mbind res_bind]; [apply IH|done..].
Qed.

Lemma write_hits_spec hits :
  Forall (Forall (λ x, (Z.of_nat x < 2 ^ 32)%Z)) hits → (Z.of_nat (length (concat hits)) < 2 ^ 32)%Z →
  write_hits hits (length (concat hits)) = Ok (concat hits).
Proof.
  intros Hb Hz. unfold write_hits. rewrite foldM_concat. set (l := concat hits) in *.
  assert (Forall (λ x, (Z.of_nat x < 2 ^ 32)%Z) l) as Hl by (by apply Forall_concat).
  match goal with |- (foldM ?f _ _ ≫= _) = _ =>
    destruct (foldM_inv f (λ pre st, st = (pre ++ replicate (length l - length pre) 0, length pre))
                l (replicate (length l) 0, 0)) as (st&->&->) end.
  - by rewrite Nat.sub_0_r.
  - intros pre x post st Hsplit ->. rewrite Hsplit in *.
    apply Forall_app in Hl as [_ [Hx _]%Forall_cons_1].
    rewrite length_app in *. cbn [length] in *.
    rewrite (wrap_small 32 x) by done. rewrite (wrap_small 64 (length pre + 1)) by lia.
    res_step; [rewrite length_app, length_replicate; lia|]. res_step.
    rewrite (length_app pre [x]). cbn [length]. f_equal.
    rewrite insert_app_r_alt, Nat.sub_diag by lia.
    replace (length pre + S (length post) - length pre) with (S (length post)) by lia.
    cbn [replicate].
    replace (length pre + S (length post) - (length pre + 1)) with (length post) by lia.
    simpl. by rewrite <-app_assoc.
  - cbn [mbind res_bind fst]. rewrite Nat.sub_diag. cbn. by rewrite app_nil_r.
Qed.

Lemma concat_entries k gs : concat gs = fst <$> entries_from k gs.
Proof.
  revert k. induction gs as [|g gs IH]; intros k; [done|]. cbn [concat entries_from].
  rewrite fmap_app, <-IH, <-list_fmap_compose. f_equal. symmetry. apply list_fmap_id.
Qed.

Lemma count_hits_spec hits n :
  Forall (Forall (λ x, x < n)) hits → (Z.of_nat (length (concat hits)) < 2 ^ 64)%Z →
  count_hits hits n = Ok (counts n (entries_of hits)).
Proof.
  intros Hb Hz. unfold count_hits. rewrite foldM_concat, (concat_entries 0), foldM_map.
  pose proof (entries_bound 0 hits n Hb) as Hk. rewrite <-(length_entries 0) in Hz.
  match goal with |- foldM ?f _ _ = _ =>
    destruct (foldM_inv f (λ pre s, s = counts n pre) (entries_of hits) (replicate n 0))
      as (s&->&->); [by rewrite counts_nil| |done] end.
  intros pre e post s Hl ->. destruct (split_entry _ _ _ _ _ Hk Hl) as [He Hlen].
  res_step; [by apply lookup_counts|]. pose proof (length_keyed_le e.1 pre).
  rewrite wrap_small by lia. res_step; [by rewrite length_counts|]. by rewrite counts_snoc.
Qed.

(** Scatter through moving cursors. *)
Lemma cursor_loop n (E : list entry) :
  Forall (λ e, e.1 < n) E → Forall (λ e, (Z.of_nat e.2 < 2 ^ 32)%Z) E → (Z.of_nat (length E) < 2 ^ 32)%Z →
  returns (foldM (λ e st,
      let '(out, cursor) := st in
      p ← vget cursor e.1;
      cursor ← vset cursor e.1 (u32 (p + 1));
      out ← vset out p (u32 e.2);
      Ok (out, cursor)) E (replicate (length E) 0, (λ k, below k E) <$> seq 0 n))
    (λ st, st.1 = concat (by_key n E)).
Proof.
  intros Hk Hv Hz. eapply returns_mono.
  - apply (foldM_inv _ (λ pre st, placed n E pre st.1 ∧
      st.2 = (λ k, below k E + length (keyed k pre)) <$> seq 0 n)).
    + split; [split; [apply length_replicate|done]|]. apply list_fmap_ext. intros i k _. simpl. lia.
    + intros pre e post [out cursor] HE [Hp Hc]. cbn [fst snd] in Hp, Hc. subst cursor.
      destruct (placed_step n E Hk Hz pre e post out HE Hp) as [Hlt Hp'].
      destruct (split_entry _ _ _ _ _ Hk HE) as [He _].
      assert (Z.of_nat e.2 < 2 ^ 32)%Z as He2.
      { rewrite HE in Hv. by apply Forall_app in Hv as [_ [? _]%Forall_cons_1]. }
      apply (returns_vget_bind _ _ (below e.1 E + length (keyed e.1 pre)));
        [by rewrite list_lookup_fmap, lookup_seq_lt|].
      rewrite (wrap_small 32 e.2) by done.
      rewrite (wrap_small 32 (below e.1 E + length (keyed e.1 pre) + 1)) by lia.
      res_step; [by rewrite length_fmap, length_seq|]. res_step; [destruct Hp as [-> _]; done|].
      res_step. cbn [fst snd]. split; [done|].
      apply list_eq_same_length with n;
        [by rewrite length_fmap, length_seq|by rewrite length_insert, length_fmap, length_seq|].
      intros j x y Hj Hx Hy. rewrite list_lookup_fmap, lookup_seq_lt in Hy by done. simpl in Hy.
      rewrite keyed_app, keyed_single, length_app in Hy. destruct (decide (e.1 = j)) as [<-|Hne].
      * rewrite list_lookup_insert_eq in Hx by (by rewrite length_fmap, length_seq).
        simpl in *. simplify_eq. lia.
      * rewrite list_lookup_insert_ne, list_lookup_fmap, lookup_seq_lt in Hx by done.
        simpl in *. simplify_eq. lia.
  - intros [out cursor] [[Hlen Hp] _]. cbn [fst snd] in *. apply concat_by_key; [done|done|].
    intros k Hkn. apply slice_eq.
    + pose proof (below_mono (k + 1) n E) as Hm. rewrite (below_all n) in Hm by done. lia.
    + rewrite below_S. lia.
    + intros i x Hx. by apply Hp.
Qed.

Lemma for_groups_fold {S} gs (body : nat → nat → S → res S) s :
  for_u 0 (length gs) (λ g s, grp ← vget gs g; foldM (body g) grp s) s =
  foldM (λ e, body e.2 e.1) (entries_of gs) s.
Proof.
  unfold for_u. rewrite Nat.sub_0_r.
  cut (∀ post pre s, gs = pre ++ post →
    foldM (λ g s, grp ← vget gs g; foldM (body g) grp s) (seq (length pre) (length post)) s =
    foldM (λ e, body e.2 e.1) (entries_from (length pre) post) s).
  { intros Hc. by apply (Hc gs []). }
  induction post as [|l post IH]; intros pre s' Hgs; [done|].
  cbn [length seq foldM entries_from].
  rewrite (vget_ok gs (length pre) l) by (rewrite Hgs; by rewrite list_lookup_middle).
  cbn [mbind res_bind]. rewrite foldM_app, foldM_map.
  replace (foldM (λ b, body (b, length pre).2 (b, length pre).1) l s')
    with (foldM (body (length pre)) l s') by done.
  destruct (foldM (body (length pre)) l s') as [s''| |]; cbn [mbind res_bind]; [|done..].
  specialize (IH (pre ++ [l]) s''). rewrite length_app, <-app_assoc, Nat.add_1_r in IH. by apply IH.
Qed.

Lemma take_ptrs_by_key n E : take (length (ptrs_of (by_key n E)) - 1) (ptrs_of (by_key n E)) =
  (λ k, below k E) <$> seq 0 n.
Proof.
  rewrite length_ptrs_of, length_by_key, Nat.add_sub, ptrs_by_key. unfold offsets.
  rewrite Nat.add_1_r, seq_S, fmap_app, take_app_length'; [done|]. by rewrite length_fmap, length_seq.
Qed.

Lemma cursor_scatter_spec hits n :
  Forall (Forall (λ x, x < n)) hits → (Z.of_nat (length hits) < 2 ^ 32)%Z →
  (Z.of_nat (length (concat hits)) < 2 ^ 32)%Z →
  cursor_scatter hits (take (length (ptrs_of (transposed n hits)) - 1) (ptrs_of (transposed n hits)))
    (length (concat hits)) = Ok (concat (transposed n hits)).
Proof.
  intros Hb Hl Hz. unfold cursor_scatter, transposed. rewrite take_ptrs_by_key.
  rewrite (for_groups_fold hits (λ err ob st, let '(out, cursor) := st in
    p ← vget cursor ob; cursor ← vset cursor ob (u32 (p + 1)); out ← vset out p (u32 err); Ok (out, cursor))).
  rewrite <-(length_entries 0).
  destruct (cursor_loop n (entries_of hits)) as (st&->&Hst).
  - by apply entries_bound.
  - apply Forall_forall. intros [ob err] (l&_&Hlk%lookup_lt_Some&_)%elem_of_entries. cbn [snd]. lia.
  - by rewrite length_entries.
  - cbn [mbind res_bind]. by rewrite Hst.
Qed.

Section projection.
Context {R : Type} `{RateOps R} (parsed : parsed_stim_dem R).
Let dh := p_detector_hits parsed.
Let oh := p_observable_hits parsed.
Let nd := p_num_detectors parsed.
Let no := p_num_observables parsed.
Hypothesis same_cols : length dh = length oh.
Hypothesis dets_ok : hits_ok nd dh.
Hypothesis obs_ok : hits_ok no oh.

(** The model fits the sparse index type. *)
Definition fits_index : Prop :=
  ((Z.of_nat (length dh) < 2 ^ 32) ∧ (Z.of_nat nd < 2 ^ 32) ∧ (Z.of_nat no < 2 ^ 32) ∧
   (Z.of_nat (length (concat dh)) < 2 ^ 32) ∧ (Z.of_nat (length (concat oh)) < 2 ^ 32))%Z.
Hypothesis Hfits : fits_index.

Lemma hits_bound n hits : hits_ok n hits → Forall (Forall (λ x, x < n)) hits.
Proof using Type. intros Hh. eapply Forall_impl; [exact Hh|]. by intros g [? _]. Qed.

Lemma count_sizes n hits ob :
  Forall (Forall (λ x, x < n)) hits → ob < n →
  ∀ g, transposed n hits !! ob = Some g → vget (counts n (entries_of hits)) ob = Ok (length g).
Proof using Type.
  intros Hb Hob g Hg. rewrite lookup_transposed in Hg by done. injection Hg as <-.
  by apply vget_ok, lookup_counts.
Qed.

Definition sparse_h : sparse_binary_matrix := of_groups csc nd (length dh) dh.
Definition sparse_o : sparse_binary_matrix := of_groups csr no (length dh) (transposed no oh).

Lemma wf_sparse_h : wf sparse_h dh.
Proof using dets_ok Hfits.
  destruct Hfits as (?&?&?&?&?). apply wf_of_groups; [done| |done|done|done].
  by apply hits_bound.
Qed.

Lemma wf_sparse_o : wf sparse_o (transposed no oh).
Proof using obs_ok same_cols Hfits.
  destruct Hfits as (?&?&?&?&?). apply wf_of_groups; [apply length_transposed| |done|done|].
  - rewrite same_cols. apply transposed_bound.
  - rewrite length_concat_transposed; [done|]. by apply hits_bound.
Qed.

Lemma project_sparse_ok :
  project_sparse parsed = Ok (mk_sparse_dem sparse_h sparse_o (p_error_rates parsed)).
Proof using All.
  pose proof (hits_bound nd dh dets_ok) as Hd. pose proof (hits_bound no oh obs_ok) as Ho.
  pose proof (wf_sparse_h) as Hwh. pose proof (wf_sparse_o) as Hwo.
  destruct Hfits as (Hc&Hnd&Hno&Hzh&Hzo). unfold project_sparse.
  rewrite (validate_hit_ids_ok parsed dets_ok obs_ok). cbn [mbind res_bind]. fold dh oh nd no.
  rewrite (bool_decide_eq_false_2 (UINT32_MAX < Z.of_nat (length dh) ∨ _ ∨ _)%Z)
    by (unfold UINT32_MAX; lia).
  cbn [throw_if mbind res_bind]. unfold total_nnz. rewrite !nnz_accum_spec by lia.
  rewrite bool_decide_eq_false_2 by (unfold UINT32_MAX; lia). cbn [throw_if mbind res_bind].
  rewrite (running_ptrs_spec dh) by (done || (intros i g Hg; by rewrite (vget_ok _ _ _ Hg))).
  cbn [mbind res_bind]. rewrite write_hits_spec; [|eapply Forall_impl; [exact Hd|]|done].
  2:{ intros g Hg. eapply Forall_impl; [exact Hg|]. intros x Hx. cbv beta in Hx. lia. }
  cbn [mbind res_bind]. rewrite count_hits_spec by (done || lia). cbn [mbind res_bind].
  rewrite (running_ptrs_spec (transposed no oh)).
  2:{ by rewrite length_transposed. }
  2:{ by rewrite length_concat_transposed. }
  2:{ intros i g Hg. eapply count_sizes; [done| |done].
      apply lookup_lt_Some in Hg. by rewrite length_transposed in Hg. }
  cbn [mbind res_bind]. rewrite cursor_scatter_spec by (done || by rewrite <-same_cols).
  cbn [mbind res_bind]. rewrite !wrap_small by done.
  rewrite (decides_returns _ _ _ (from_csc_decides _ _ _ _)) by
    (apply (compressed_ok_wf csc); [done|done|by exists dh]).
  cbn [mbind res_bind].
  rewrite (decides_returns _ _ _ (from_csr_decides _ _ _ _)) by
    (apply (compressed_ok_wf csr); [done|done|by exists (transposed no oh)]).
  done.
Qed.

Lemma mentions_sparse_o i j :
  mentions sparse_o (transposed no oh) i j ↔ i < no ∧ (i, j) ∈ entries_of oh.
Proof using Type.
  rewrite mentions_group. change (is_csc sparse_o) with false. cbv iota. split.
  - intros (l&Hl&Hin). pose proof (lookup_lt_Some _ _ _ Hl) as Hi. rewrite length_transposed in Hi.
    rewrite lookup_transposed in Hl by done. injection Hl as <-. by apply elem_of_keyed in Hin.
  - intros [Hi Hin]. rewrite lookup_transposed by done. eexists. split; [done|]. by apply elem_of_keyed.
Qed.

(** Both projections hold the same matrices. *)
Lemma projections_agree :
  returns (project_sparse parsed) (λ s, returns (project_dense parsed) (λ d,
    to_dense (s_detector_error_matrix s) = Ok (detector_error_matrix d) ∧
    to_dense (s_observables_flips_matrix s) = Ok (observables_flips_matrix d) ∧
    s_error_rates s = error_rates d)).
Proof using All.
  rewrite project_sparse_ok. apply returns_ok.
  eapply returns_mono; [apply (project_dense_returns parsed same_cols dets_ok obs_ok)|].
  intros dem (Hh&Ho&Hr&_). cbn [s_detector_error_matrix s_observables_flips_matrix s_error_rates].
  destruct (to_dense_returns _ _ wf_sparse_h) as (h&->&Hwh&Heh).
  destruct (to_dense_returns _ _ wf_sparse_o) as (o&->&Hwo&Heo).
  split_and!; [f_equal..|done].
  - destruct Hh as [Hwf He]. apply (tensor2_ext _ _ _ _ Hwh Hwf). intros i j Hi Hj.
    by rewrite Heh, He.
  - destruct Ho as [Hwf He]. apply (tensor2_ext _ _ _ _ Hwo Hwf). intros i j Hi Hj.
    rewrite Heo, He by done. f_equal. apply bit_iff. rewrite mentions_sparse_o.
    cbn [sparse_o num_rows_ of_groups] in Hi. tauto.
Qed.
End projection.
