(* ===== verification/DemProps.v ===== *)
(** * Canonical form of a detector error model

    [canonicalize_for_rounds] sorts the error mechanisms, drops the ones that
    carry no information and merges the ones with the same detectors and the
    same observables; the rates of merged mechanisms are combined. *)

From Stdlib Require Import QArith.
From S2P Require Import Prelude Rates Ordering Tensor SparseMatrix SparseFacts SparseCanon SparseProps RoundLayout PcmSort PcmColumns PcmProps DetectorErrorModel DemFacts.

Open Scope nat_scope.

Section canon.
Context {R : Type} `{RateOps R} (dem : detector_error_model (R := R)).
Context (r k c : nat).
Hypothesis Hwf_h : wf2 r c (detector_error_matrix dem).
Hypothesis Hwf_o : wf2 k c (observables_flips_matrix dem).
Hypothesis Hk32 : (Z.of_nat k < 2 ^ 32)%Z.
Hypothesis Hrates : length (error_rates dem) = c.
Hypothesis Hids : ∀ ids, error_ids dem = Some ids → length ids = c.
Context (drop_zero : bool).

(** The signature of a mechanism: its detectors and its observables. *)
Definition signature (j : nat) : list nat * list nat :=
  (nz_col (detector_error_matrix dem) r j, nz_col (observables_flips_matrix dem) k j).

Definition rate_of (j : nat) : R := default rate_zero (error_rates dem !! j).

(** The exclusive set a mechanism belongs to. *)
Definition exclusive_key (j : nat) : nat :=
  match error_ids dem with Some ids => default 0 (ids !! j) | None => j end.

Definition carries_information (j : nat) : bool :=
  negb (rate_eqb (rate_of j) rate_zero ||
        (bool_decide ((signature j).1 = []) && bool_decide ((signature j).2 = [])) ||
        (drop_zero && bool_decide ((signature j).1 = []))).

(** The mechanisms that are kept, and the first of each signature. *)
Definition kept (order : list nat) : list nat := filter carries_information order.

Definition firsts (l : list nat) : list nat :=
  foldl (λ acc j, if decide (signature j ∈ signature <$> acc) then acc else acc ++ [j]) [] l.

(** The rates of one signature, summed per exclusive set. *)
Definition exclusive_rates (l : list nat) (sig : list nat * list nat) : list (nat * R) :=
  foldl (λ m j, map_add (exclusive_key j) (rate_of j) m) [] (filter (λ j, signature j = sig) l).

Lemma obs_signature_ok j :
  j < c → obs_signature (observables_flips_matrix dem) k j = Ok (signature j).2.
Proof using All.
  intros Hj. unfold obs_signature, signature, nz_col, for_u. cbn [snd]. rewrite Nat.sub_0_r.
  assert (∀ i, i ∈ seq 0 k → i < k) as Hin by (intros i Hi%elem_of_seq; lia).
  match goal with |- foldM ?f _ _ = _ =>
    cut (∀ l acc, (∀ i, i ∈ l → i < k) → foldM f l acc =
       Ok (acc ++ filter (λ i, nonzero (observables_flips_matrix dem) i j) l)); [intros Hc; by apply Hc|] end.
  clear Hin.
  induction l as [|i l IH]; intros acc Hin; [cbn; by rewrite app_nil_r|].
  cbn [foldM]. assert (i < k) as Hi by (apply Hin; set_solver).
  rewrite (addr_mut2 k c) by done. cbn [mbind res_bind].
  destruct (elem2_is_some k c _ i j Hwf_o Hi Hj) as [x Hx].
  rewrite (vget_ok _ _ x) by (by rewrite (row_read k c)). cbn [mbind res_bind].
  rewrite (wrap_small 32 i) by lia. rewrite IH by set_solver. f_equal. rewrite filter_cons.
  assert (nonzero (observables_flips_matrix dem) i j = negb (x =? 0)) as ->.
  { unfold nonzero. rewrite Hx. destruct (Nat.eqb_spec x 0) as [->|]; [done|].
    apply bool_decide_eq_true_2. congruence. }
  destruct (x =? 0); cbn; [done|]. by rewrite <-app_assoc.
Qed.

(** The state of the merge after the mechanisms [l]. *)
Definition merged (l : list nat) (st : merge_state (R := R)) : Prop :=
  final_column_order st = firsts (kept l) ∧
  out_exclusive st = exclusive_rates (kept l) <$> (signature <$> firsts (kept l)) ∧
  ∀ sig i, sig_to_out st !! sig = Some i ↔ (signature <$> firsts (kept l)) !! i = Some sig.

Lemma firsts_snoc l j :
  firsts (l ++ [j]) =
    if decide (signature j ∈ signature <$> firsts l) then firsts l else firsts l ++ [j].
Proof using All. unfold firsts. by rewrite foldl_app. Qed.

Lemma firsts_nodup l : NoDup (signature <$> firsts l).
Proof using All.
  induction l as [|j l IH] using rev_ind; [constructor|]. rewrite firsts_snoc.
  case_decide as Hin; [done|]. rewrite fmap_app. apply NoDup_app. split_and!; [done| |apply NoDup_singleton].
  intros sig Hs Hs'. cbn in Hs'. apply list_elem_of_singleton in Hs'. by subst.
Qed.

Lemma firsts_elem l sig : sig ∈ signature <$> firsts l ↔ sig ∈ signature <$> l.
Proof using All.
  induction l as [|j l IH] using rev_ind; [done|]. rewrite firsts_snoc, fmap_app, elem_of_app, <-IH.
  cbn [fmap list_fmap]. rewrite list_elem_of_singleton.
  case_decide as Hin; [|by rewrite fmap_app, elem_of_app; cbn; rewrite list_elem_of_singleton].
  split; [tauto|]. intros [?| ->]; done.
Qed.

Lemma firsts_sublist l : firsts l `sublist_of` l.
Proof using All.
  induction l as [|j l IH] using rev_ind; [done|]. rewrite firsts_snoc. case_decide.
  - by apply sublist_inserts_r.
  - by apply sublist_app.
Qed.

Lemma exclusive_rates_snoc l j sig :
  exclusive_rates (l ++ [j]) sig =
    if decide (signature j = sig) then map_add (exclusive_key j) (rate_of j) (exclusive_rates l sig)
    else exclusive_rates l sig.
Proof using All.
  unfold exclusive_rates. rewrite list.filter_app, foldl_app, filter_cons, filter_nil. by case_decide.
Qed.

(** The key under which the rate is filed. *)
Lemma exclusive_key_ok j :
  j < c →
  (if (match error_ids dem with Some ids => length ids =? length (error_rates dem) | None => false end)
   then match error_ids dem with
        | Some ids => match ids !! j with Some id => Ok id | None => Throw (OutOfRange "vector::_M_range_check") end
        | None => Undef
        end
   else Ok j) = Ok (exclusive_key j).
Proof using All.
  intros Hj. unfold exclusive_key. destruct (error_ids dem) as [ids|] eqn:E; [|done].
  rewrite (Hids ids), Hrates, Nat.eqb_refl by done.
  destruct (lookup_lt_is_Some_2 ids j) as [id Hid]; [by rewrite (Hids ids)|]. by rewrite Hid.
Qed.

(** Filing the rate of [j] under its signature at position [pos]. *)
Lemma exclusive_insert (l : list nat) j (sigs : list (list nat * list nat)) pos :
  NoDup sigs → sigs !! pos = Some (signature j) →
  <[pos := map_add (exclusive_key j) (rate_of j) (exclusive_rates l (signature j))]>
    (exclusive_rates l <$> sigs) = exclusive_rates (l ++ [j]) <$> sigs.
Proof using All.
  intros Hnd Hpos. apply list_eq. intros i. rewrite list_lookup_fmap.
  destruct (decide (i = pos)) as [->|Hne].
  - rewrite list_lookup_insert_eq by (rewrite length_fmap; by eapply lookup_lt_Some).
    rewrite Hpos. cbn. by rewrite exclusive_rates_snoc, decide_True.
  - rewrite list_lookup_insert_ne, list_lookup_fmap by done.
    destruct (sigs !! i) as [sig|] eqn:Hi; [|done]. cbn. rewrite exclusive_rates_snoc, decide_False; [done|].
    intros <-. apply Hne. by eapply NoDup_lookup.
Qed.

Lemma exclusive_rates_new l j :
  signature j ∉ signature <$> firsts l → exclusive_rates l (signature j) = [].
Proof using All.
  intros Hn. unfold exclusive_rates. rewrite filter_const_false; [done|].
  intros i Hi Heq. apply Hn, firsts_elem. rewrite <-Heq. by apply list_elem_of_fmap_2.
Qed.

(** A mechanism whose signature was seen. *)
Lemma merge_seen l j st pos :
  merged l st → kept (l ++ [j]) = kept l ++ [j] → sig_to_out st !! signature j = Some pos →
  returns (m ← vget (out_exclusive st) pos;
           out ← vset (out_exclusive st) pos (map_add (exclusive_key j) (rate_of j) m);
           Ok (mk_merge (sig_to_out st) (final_column_order st) out)) (merged (l ++ [j])).
Proof using All.
  intros (Hf&Ho&Hs) Hkept Hpos. pose proof (proj1 (Hs _ _) Hpos) as Hlk.
  rewrite Ho. rewrite (vget_ok _ _ (exclusive_rates (kept l) (signature j))) by (by rewrite list_lookup_fmap, Hlk).
  cbn [mbind res_bind]. rewrite vset_ok by (rewrite length_fmap; by eapply lookup_lt_Some).
  cbn [mbind res_bind]. apply returns_ok. unfold merged. rewrite Hkept, firsts_snoc.
  rewrite decide_True by (by eapply list_elem_of_lookup_2).
  cbn [final_column_order out_exclusive sig_to_out]. split_and!; [done| |done].
  by rewrite exclusive_insert by (done || apply firsts_nodup).
Qed.

(** A mechanism with a new signature. *)
Lemma merge_new l j st :
  merged l st → kept (l ++ [j]) = kept l ++ [j] → sig_to_out st !! signature j = None →
  returns (m ← vget (out_exclusive st ++ [[]]) (length (out_exclusive st));
           out ← vset (out_exclusive st ++ [[]]) (length (out_exclusive st))
                   (map_add (exclusive_key j) (rate_of j) m);
           Ok (mk_merge (<[signature j := length (out_exclusive st)]> (sig_to_out st))
                 (final_column_order st ++ [j]) out)) (merged (l ++ [j])).
Proof using All.
  intros (Hf&Ho&Hs) Hkept Hnone.
  assert (signature j ∉ signature <$> firsts (kept l)) as Hn.
  { intros (i&Hi)%list_elem_of_lookup. apply Hs in Hi. congruence. }
  assert (length (out_exclusive st) = length (signature <$> firsts (kept l))) as Hlen
    by (by rewrite Ho, length_fmap).
  rewrite (vget_ok _ _ []) by (by rewrite list_lookup_middle). cbn [mbind res_bind].
  rewrite vset_ok by (rewrite length_app; simpl; lia). cbn [mbind res_bind]. apply returns_ok.
  unfold merged. rewrite Hkept, firsts_snoc, decide_False by done.
  cbn [final_column_order out_exclusive sig_to_out]. rewrite fmap_app. cbn [fmap list_fmap].
  split_and!.
  - by rewrite Hf.
  - rewrite <-(exclusive_rates_new (kept l) j Hn), Ho.
    change [exclusive_rates (kept l) (signature j)] with (exclusive_rates (kept l) <$> [signature j]).
    rewrite <-fmap_app, length_fmap. apply exclusive_insert.
    + apply NoDup_app. split_and!; [apply firsts_nodup| |apply NoDup_singleton].
      intros sig Hsig Hsig'. apply list_elem_of_singleton in Hsig'. congruence.
    + by rewrite list_lookup_middle.
  - intros sig i. rewrite Hlen. destruct (decide (sig = signature j)) as [->|Hne].
    + rewrite lookup_insert_eq. split.
      * intros [= <-]. by rewrite list_lookup_middle.
      * intros [Hi|[Hi Hi']]%lookup_app_Some; [by apply list_elem_of_lookup_2 in Hi|].
        apply list_lookup_singleton_Some in Hi' as [? _]. f_equal. lia.
    + rewrite lookup_insert_ne by done. rewrite Hs. split.
      * intros Hi. by apply lookup_app_l_Some.
      * intros [?|[_ Hi]]%lookup_app_Some; [done|]. apply list_lookup_singleton_Some in Hi as [_ ?]. congruence.
Qed.

Lemma merge_column_ok l j st has_ids cols :
  has_ids = (match error_ids dem with Some ids => length ids =? length (error_rates dem) | None => false end) →
  cols = dense_groups csc (detector_error_matrix dem) r c →
  j < c → merged l st →
  returns (merge_column dem cols has_ids drop_zero j st) (merged (l ++ [j])).
Proof using All.
  intros -> -> Hj Hm. unfold merge_column.
  assert (dense_groups csc (detector_error_matrix dem) r c !! j = Some (signature j).1) as Hcol.
  { unfold dense_groups. rewrite bool_decide_eq_true_2 by done.
    by rewrite list_lookup_fmap, lookup_seq_lt. }
  rewrite (vget_ok _ _ _ Hcol). cbn [mbind res_bind].
  destruct (lookup_lt_is_Some_2 (error_rates dem) j) as [p Hp]; [lia|].
  assert (rate_of j = p) as Hpr by (unfold rate_of; by rewrite Hp).
  rewrite (vget_ok _ _ _ Hp). cbn [mbind res_bind].
  assert (num_observables dem = k) as -> by (unfold num_observables, matrix_rows; by rewrite (proj1 Hwf_o)).
  rewrite obs_signature_ok by done. cbn [mbind res_bind]. rewrite <-Hpr.
  assert (kept (l ++ [j]) = if carries_information j then kept l ++ [j] else kept l) as Hkept.
  { unfold kept. rewrite list.filter_app, filter_cons, filter_nil.
    destruct (carries_information j); cbn; [done|by rewrite app_nil_r]. }
  unfold carries_information in Hkept.
  destruct (rate_eqb (rate_of j) rate_zero || _ || _); cbn [negb] in Hkept.
  { apply returns_ok. unfold merged in *. by rewrite Hkept. }
  rewrite <-surjective_pairing.
  destruct (sig_to_out st !! signature j) as [pos|] eqn:Hpos.
  - rewrite exclusive_key_ok by done. cbn [mbind res_bind]. by apply merge_seen.
  - rewrite exclusive_key_ok by done. cbn [mbind res_bind]. by apply merge_new.
Qed.

Lemma merge_all order has_ids :
  has_ids = (match error_ids dem with Some ids => length ids =? length (error_rates dem) | None => false end) →
  (∀ j, j ∈ order → j < c) →
  returns (foldM (merge_column dem (dense_groups csc (detector_error_matrix dem) r c) has_ids drop_zero)
             order (mk_merge ∅ [] [])) (merged order).
Proof using All.
  intros Hhas Hin. apply foldM_inv.
  - split_and!; [done|done|]. intros sig i. cbn [sig_to_out]. rewrite lookup_empty. by split.
  - intros pre j post st -> Hm. apply merge_column_ok; [done|done| |done]. apply Hin. set_solver.
Qed.
End canon.

(** * Detector error models: correctness *)

(** ** Reading a Stim model *)

Section stim.
Context {R : Type} `{RateOps R} {T : Type} (stim_parse : T → option (stim_model R)).

(** The columns of a model, and the models whose identifiers are in range. *)
Definition columns_of_model (decomp : bool) (dem : stim_model R) : list (list nat * list nat * R) :=
  error_instructions dem ≫= columns_of_instruction decomp.

Definition readable (decomp : bool) (dem : stim_model R) : Prop :=
  Forall valid_instruction (error_instructions dem) ∧ columns_of_model decomp dem ≠ [] ∧
  Forall (λ col, Forall (λ x, x < count_detectors dem) col.1.1 ∧
                 Forall (λ x, x < count_observables dem) col.1.2) (columns_of_model decomp dem).

Lemma columns_sorted decomp dem col :
  col ∈ columns_of_model decomp dem → StronglySorted (<) col.1.1 ∧ StronglySorted (<) col.1.2.
Proof using Type.
  unfold columns_of_model. intros (inst&Hcol&_)%list_elem_of_bind.
  unfold columns_of_instruction in Hcol. destruct (arg_data inst) as [|prob args]; [by apply elem_of_nil in Hcol|].
  apply list_elem_of_bind in Hcol as (comp&Hcol&_). unfold column_of in Hcol.
  case_bool_decide; [by apply elem_of_nil in Hcol|]. apply list_elem_of_singleton in Hcol as ->.
  split; apply canon_spec.
Qed.

Lemma readable_hits decomp dem :
  readable decomp dem →
  let parsed := parsed_of dem (columns_of_model decomp dem) in
  hits_ok (p_num_detectors parsed) (p_detector_hits parsed) ∧
  hits_ok (p_num_observables parsed) (p_observable_hits parsed) ∧
  length (p_detector_hits parsed) = length (p_observable_hits parsed).
Proof using Type.
  intros (_&_&Hb) parsed. rewrite Forall_forall in Hb. split_and!.
  - apply Forall_fmap, Forall_forall. intros col Hcol.
    split; [by apply Hb|]. by apply columns_sorted in Hcol as [? _].
  - apply Forall_fmap, Forall_forall. intros col Hcol.
    split; [by apply Hb|]. by apply columns_sorted in Hcol as [_ ?].
  - cbn. by rewrite !length_fmap.
Qed.
End stim.

(** C34. On a readable Stim model, [dem_from_stim_text] returns one column per
    non-trivial component of an error instruction, in order: its detector
    (observable) entries are the identifiers that occur an odd number of
    times, and its rate is the instruction's probability. *)
Theorem dem_from_stim_text_columns {R} `{RateOps R} {T} (stim_parse : T → option (stim_model R))
    text dem decomp :
  stim_parse text = Some dem → readable decomp dem →
  let cols := columns_of_model decomp dem in
  returns (dem_from_stim_text stim_parse text decomp) (λ d,
    wf2 (count_detectors dem) (length cols) (detector_error_matrix d) ∧
    wf2 (count_observables dem) (length cols) (observables_flips_matrix d) ∧
    error_rates d = snd <$> cols ∧ error_ids d = None ∧
    ∀ j dets obs p, cols !! j = Some (dets, obs, p) →
      (∀ i, i < count_detectors dem → elem2 (detector_error_matrix d) i j = Some (bit (i ∈ dets))) ∧
      (∀ i, i < count_observables dem → elem2 (observables_flips_matrix d) i j = Some (bit (i ∈ obs)))).
Proof.
  intros Hp Hr cols. destruct (readable_hits decomp dem Hr) as (Hd&Ho&Hl).
  unfold dem_from_stim_text. rewrite (parse_ok stim_parse text dem) by (done || apply Hr).
  cbn [mbind res_bind]. fold (columns_of_model decomp dem). fold cols.
  eapply returns_mono; [by apply project_dense_returns|].
  intros d (Hh&Hob&Hrates&Hids). cbn in Hh, Hob, Hrates. rewrite length_fmap in Hh, Hob.
  destruct Hh as [Hwh Heh], Hob as [Hwo Heo]. split_and!; [done..|].
  intros j dets obs p Hj. pose proof (lookup_lt_Some _ _ _ Hj) as Hlt. split.
  - intros i Hi. rewrite Heh by done. f_equal. apply bit_iff. rewrite elem_of_entries, Nat.sub_0_r.
    rewrite list_lookup_fmap, Hj. cbn. split; [naive_solver|]. intros. eexists. split_and!; [lia|done|done].
  - intros i Hi. rewrite Heo by done. f_equal. apply bit_iff. rewrite elem_of_entries, Nat.sub_0_r.
    rewrite list_lookup_fmap, Hj. cbn. split; [naive_solver|]. intros. eexists. split_and!; [lia|done|done].
Qed.

(** [error(0.25) D0 D1 L0 D1 ^ D2] and [error(0.5) D1]. *)
Definition example_stim : stim_model Q := mk_stim 3 1
  [mk_instruction [1 # 4]%Q [relative_detector_id 0; relative_detector_id 1; observable_id 0;
                             relative_detector_id 1; separator; relative_detector_id 2];
   mk_instruction [1 # 2]%Q [relative_detector_id 1]].
Definition example_parse (_ : unit) : option (stim_model Q) := Some example_stim.

Ltac readable_example :=
  split; [|split]; [|discriminate|repeat constructor];
  repeat constructor; try discriminate; by eexists _, _.

Lemma dem_from_stim_text_columns_witness :
  dem_from_stim_text example_parse () false =
    Ok (mk_dem (mk_tensor [3; 2] [1; 0; 0; 1; 1; 0]) [1 # 4; 1 # 2]%Q (mk_tensor [1; 2] [1; 0]) None) ∧
  returns (dem_from_stim_text example_parse () false) (λ d, error_rates d = [1 # 4; 1 # 2]%Q).
Proof.
  split; [reflexivity|].
  eapply returns_mono; [apply (dem_from_stim_text_columns example_parse () example_stim false)|].
  - reflexivity.
  - readable_example.
  - intros d (_&_&Hr&_). exact Hr.
Defined.

(** Whenever the model fits the sparse index type, the sparse projection
    succeeds as well, and converting its two matrices to dense gives exactly
    the matrices of [dem_from_stim_text], with the same rates. *)
Theorem sparse_and_dense_projections_agree {R} `{RateOps R} {T}
    (stim_parse : T → option (stim_model R)) text dem :
  stim_parse text = Some dem → readable false dem →
  fits_index (parsed_of dem (columns_of_model false dem)) →
  returns (sparse_dem_from_stim_text stim_parse text) (λ s,
    returns (dem_from_stim_text stim_parse text false) (λ d,
      to_dense (s_detector_error_matrix s) = Ok (detector_error_matrix d) ∧
      to_dense (s_observables_flips_matrix s) = Ok (observables_flips_matrix d) ∧
      s_error_rates s = error_rates d)).
Proof.
  intros Hp Hr Hfit. destruct (readable_hits false dem Hr) as (Hd&Ho&Hl).
  unfold sparse_dem_from_stim_text, dem_from_stim_text.
  rewrite (parse_ok stim_parse text dem) by (done || apply Hr). cbn [mbind res_bind].
  by apply projections_agree.
Qed.

Lemma sparse_and_dense_projections_agree_witness :
  sparse_dem_from_stim_text example_parse () =
    Ok (mk_sparse_dem (mk_sparse csc 3 2 [0; 2; 3] [0; 2; 1]) (mk_sparse csr 1 2 [0; 1] [0]) [1 # 4; 1 # 2]%Q) ∧
  returns (sparse_dem_from_stim_text example_parse ()) (λ s,
    returns (dem_from_stim_text example_parse () false) (λ d, s_error_rates s = error_rates d)).
Proof.
  split; [reflexivity|].
  eapply returns_mono; [apply (sparse_and_dense_projections_agree example_parse () example_stim)|].
  - reflexivity.
  - readable_example.
  - repeat split.
  - intros s Hs. eapply returns_mono; [exact Hs|]. intros d (_&_&H). exact H.
Defined.

(** ** The canonical form *)

(** A model with [r] detectors, [k] observables and [c] mechanisms. *)
Record dem_shape {R} (dem : detector_error_model (R := R)) (r k c : nat) : Prop := {
  shape_h : wf2 r c (detector_error_matrix dem);
  shape_o : wf2 k c (observables_flips_matrix dem);
  shape_r : 0 < r ∧ (Z.of_nat r < 2 ^ 32)%Z;
  shape_k : 0 < k ∧ (Z.of_nat k < 2 ^ 32)%Z;
  shape_c : 0 < c ∧ (Z.of_nat c < 2 ^ 32)%Z;
  shape_rates : length (error_rates dem) = c;
  shape_ids ids : error_ids dem = Some ids → length ids = c
}.

(** The order in which the mechanisms are visited. *)
Definition visit_order {R} (dem : detector_error_model (R := R)) (r c s : nat) : list nat :=
  get_sorted_pcm_column_indices (dense_groups csc (detector_error_matrix dem) r c) s.

Lemma length_dense_groups d r c : length (dense_groups csc d r c) = c.
Proof. unfold dense_groups. rewrite bool_decide_eq_true_2 by done. by rewrite length_fmap, length_seq. Qed.

Lemma visit_order_perm {R} (dem : detector_error_model (R := R)) r c s :
  (Z.of_nat c < 2 ^ 32)%Z → visit_order dem r c s ≡ₚ seq 0 c.
Proof.
  intros Hc. unfold visit_order, get_sorted_pcm_column_indices.
  rewrite sorted_perm; by rewrite length_dense_groups.
Qed.

Lemma sublist_sorted {A} (Rel : A → A → Prop) l1 l2 :
  l1 `sublist_of` l2 → StronglySorted Rel l2 → StronglySorted Rel l1.
Proof.
  induction 1 as [|x l1 l2 Hsub IH|x l1 l2 Hsub IH]; intros Hs; [done|..];
    apply StronglySorted_cons in Hs as [Hall Hs]; [|by apply IH].
  apply StronglySorted_cons. split; [|by apply IH]. rewrite Forall_forall in *. intros y Hy.
  apply Hall. by eapply elem_of_submseteq; [|apply sublist_submseteq].
Qed.

(** A reordering that is a subsequence of the sorted order is sorted. *)
Lemma reordered_sorted d r c s order t :
  wf2 r c d → 0 < r → (Z.of_nat r < 2 ^ 32)%Z → (Z.of_nat c < 2 ^ 32)%Z →
  order `sublist_of` get_sorted_pcm_column_indices (dense_groups csc d r c) s → order ≠ [] →
  reordered r d order 0 UINT32_MAX t → pcm_is_sorted_dense t s = Ok true.
Proof.
  intros Hwf Hr0 Hr Hc Hsub Hne Ht. set (cols := dense_groups csc d r c) in *.
  assert (length cols = c) as Hlen by apply length_dense_groups.
  pose proof (sorted_perm cols (0 <? s) (λ r, r / s) ltac:(by rewrite Hlen)) as Hp.
  pose proof (sorted_strict cols (0 <? s) (λ r, r / s) ltac:(by rewrite Hlen)) as Hs.
  apply (sublist_sorted _ order) in Hs; [|done].
  assert (∀ x, x ∈ order → x < c) as Hin.
  { intros x Hx. eapply elem_of_submseteq in Hx; [|by apply sublist_submseteq].
    unfold get_sorted_pcm_column_indices in Hx. rewrite Hp, elem_of_seq in Hx. lia. }
  assert (length order ≤ c) as Hol.
  { apply sublist_submseteq, submseteq_length in Hsub. unfold get_sorted_pcm_column_indices in Hsub.
    by rewrite Hp, length_seq, Hlen in Hsub. }
  pose proof (dense_groups_reordered r d order t Hr0 Hr Ht) as Hcols.
  assert (0 < length order) by (destruct order; [done|simpl; lia]).
  destruct Ht as [Hwt _]. rewrite reorder_all in Hwt by done.
  rewrite (pcm_is_sorted_dense_ok r (length order)), Hcols by done.
  destruct (pcm_is_sorted_spec (nz_col d r <$> order) s) as (b&->&Hb).
  { rewrite length_fmap. lia. }
  f_equal. apply Hb. replace (nz_col d r <$> order) with ((λ x, default [] (cols !! x)) <$> order).
  - apply in_order_fmap; [|done]. intros x Hx. rewrite Hlen. by apply Hin.
  - apply list_fmap_ext. intros i x Hx%list_elem_of_lookup_2%Hin. unfold cols, dense_groups.
    rewrite bool_decide_eq_true_2, list_lookup_fmap, lookup_seq_lt by done. done.
Qed.

(** What the canonical form of [dem] is. *)
Definition canonical_of {R} `{RateOps R} (dem dem' : detector_error_model (R := R))
    (r k c s : nat) (drop_zero : bool) (order : list nat) : Prop :=
  order `sublist_of` visit_order dem r c s ∧
  NoDup (signature dem r k <$> order) ∧
  (∀ j, j ∈ order → j < c ∧ carries_information dem r k drop_zero j = true) ∧
  (∀ j, j < c → carries_information dem r k drop_zero j = true →
     signature dem r k j ∈ signature dem r k <$> order) ∧
  reordered r (detector_error_matrix dem) order 0 UINT32_MAX (detector_error_matrix dem') ∧
  reordered k (observables_flips_matrix dem) order 0 UINT32_MAX (observables_flips_matrix dem') ∧
  error_rates dem' = (λ j, rate_xor_all (snd <$>
     exclusive_rates dem r k (kept dem r k drop_zero (visit_order dem r c s)) (signature dem r k j))) <$> order.

Lemma canonicalize_returns {R} `{RateOps R} `{XtTranspose} dem r k c s drop_zero :
  dem_shape dem r k c →
  returns (canonicalize_for_rounds dem s drop_zero) (λ dem',
    ∃ order, canonical_of dem dem' r k c s drop_zero order).
Proof.
  intros [Hh Ho [Hr0 Hr] [Hk0 Hk] [Hc0 Hc] Hrates Hids].
  unfold canonicalize_for_rounds. rewrite (dense_to_sparse_ok r c) by done. cbn [mbind res_bind].
  fold (visit_order dem r c s). pose proof (visit_order_perm dem r c s Hc) as Hp.
  assert (∀ j, j ∈ visit_order dem r c s → j < c) as Hin by (intros j; rewrite Hp, elem_of_seq; lia).
  unfold canonicalize_for_rounds_impl. rewrite length_dense_groups, Hrates.
  rewrite (proj2 (Nat.ltb_ge c c)) by done. cbn [throw_if mbind res_bind].
  eapply returns_bind; [by eapply (merge_all dem r k c Hh Ho Hk Hrates Hids drop_zero); [rewrite Hrates|]|].
  intros st (Hf&He&_). set (order := firsts dem r k (kept dem r k drop_zero (visit_order dem r c s))) in *.
  assert (order `sublist_of` visit_order dem r c s) as Hsub.
  { etrans; [by eapply firsts_sublist|]. apply sublist_filter. }
  assert (∀ j, j ∈ order → j < c ∧ carries_information dem r k drop_zero j = true) as Hord.
  { intros j Hj. eapply elem_of_submseteq in Hj; [|apply sublist_submseteq; by eapply firsts_sublist].
    apply list_elem_of_filter in Hj as [Hcar Hj]. split; [by apply Hin|by apply Is_true_true]. }
  assert (Forall (λ j, j < c) order) as Hall by (apply Forall_forall; intros j Hj; by apply Hord).
  rewrite Hf, He.
  eapply returns_bind; [apply (reorder_dense_returns r c); [done..|]|].
  { split_and!; [unfold UINT32_MAX; lia|done|done]. }
  intros h' Hh'. eapply returns_bind; [apply (reorder_dense_returns k c); [done..|]|].
  { split_and!; [unfold UINT32_MAX; lia|done|done]. }
  intros o' Ho'. apply returns_ok. exists order. unfold canonical_of. split_and!; try done.
  - by eapply firsts_nodup.
  - intros j Hj Hcar. eapply firsts_elem; try done. apply list_elem_of_fmap_2.
    apply list_elem_of_filter. split; [by apply Is_true_true|]. rewrite Hp, elem_of_seq. lia.
  - cbn [error_rates]. by rewrite <-!list_fmap_compose.
Qed.

(** C11. [canonicalize_for_rounds] keeps, in the sorted column order, one
    mechanism per signature (detectors and observables): no two columns of the
    result share a signature, every mechanism that carries information is
    represented, none that carries none is kept, both matrices hold the
    columns of the representatives, each rate combines all mechanisms of its
    signature, and the resulting PCM is sorted. *)
Theorem canonicalize_for_rounds_correct {R} `{RateOps R} `{XtTranspose} dem r k c s drop_zero :
  dem_shape dem r k c →
  returns (canonicalize_for_rounds dem s drop_zero) (λ dem',
    ∃ order, canonical_of dem dem' r k c s drop_zero order ∧
      (order ≠ [] → pcm_is_sorted_dense (detector_error_matrix dem') s = Ok true)).
Proof.
  intros Hs. eapply returns_mono; [by apply (canonicalize_returns dem r k c)|].
  intros dem' (order&Hcan). exists order. split; [done|]. intros Hne.
  destruct Hs as [Hh Ho [Hr0 Hr] _ [Hc0 Hc] _ _]. destruct Hcan as (Hsub&_&_&_&Hreo&_).
  by apply (reordered_sorted (detector_error_matrix dem) r c s order).
Qed.

(** Mechanisms 0 and 2 have the same signature, 3 has the same detectors but
    no observable, 1 has rate zero. *)
Definition example_dem : detector_error_model (R := Q) :=
  mk_dem (mk_tensor [2; 4] [1; 0; 1; 1;  0; 1; 0; 0]) [1 # 4; 0; 1 # 4; 1 # 8]%Q
    (mk_tensor [1; 4] [1; 0; 1; 0]) None.

Lemma canonicalize_for_rounds_correct_witness :
  canonicalize_for_rounds example_dem 1 false =
    Ok (mk_dem (mk_tensor [2; 2] [1; 1; 0; 0]) [1536 # 4096; 8 # 64]%Q (mk_tensor [1; 2] [1; 0]) None) ∧
  returns (canonicalize_for_rounds example_dem 1 false) (λ dem',
    ∃ order, canonical_of example_dem dem' 2 1 4 1 false order).
Proof.
  split; [vm_compute; reflexivity|].
  eapply returns_mono; [apply (canonicalize_for_rounds_correct example_dem 2 1 4 1 false)|].
  - split; try reflexivity; try (split; [lia|reflexivity]); [split; reflexivity..|discriminate].
  - intros dem' (order&Hcan&_). exists order. exact Hcan.
Defined.

(** ** Rates as probabilities *)

Lemma map_add_fresh key p (m : list (nat * Q)) :
  key ∉ fst <$> m → map_add key p m ≡ₚ (key, (0 + p)%Q) :: m.
Proof.
  induction m as [|[k0 q] m IH]; intros Hn; [done|]. cbn [map_add].
  cbn [fmap list_fmap fst] in Hn. destruct (Nat.eqb_spec key k0) as [->|]; [set_solver|].
  destruct (key <? k0); [done|]. rewrite IH by set_solver. apply Permutation_swap.
Qed.

Lemma Qprod_perm (l l' : list Q) : l ≡ₚ l' → (foldr Qmult 1 l == foldr Qmult 1 l')%Q.
Proof.
  induction 1 as [|x l l' _ IH|x y l|l1 l2 l3 _ IH1 _ IH2]; cbn [foldr].
  - reflexivity.
  - by rewrite IH.
  - ring.
  - by rewrite IH1.
Qed.

Lemma Qprod_ext {A} (f g : A → Q) l :
  (∀ x, x ∈ l → f x == g x)%Q → (foldr Qmult 1 (f <$> l) == foldr Qmult 1 (g <$> l))%Q.
Proof.
  intros Hfg. induction l as [|x l IH]; cbn [fmap list_fmap foldr]; [reflexivity|]. rewrite Hfg by (by left). rewrite IH; [done|]. intros y Hy. apply Hfg. by right.
Qed.

(** Adding to a key that is filed. *)
Lemma map_add_filed key p (m : list (nat * Q)) :
  key ∈ m.*1 → NoDup m.*1 → StronglySorted lt m.*1 → ∃ x m', m ≡ₚ (key, x) :: m' ∧ map_add key p m ≡ₚ (key, (x + p)%Q) :: m'.
Proof.
  induction m as [|[k0 q] m IH]; intros Hin Hnd Hs; [by apply elem_of_nil in Hin|]. cbn [map_add]. cbn [fmap list_fmap fst] in *.
  destruct (Nat.eqb_spec key k0) as [->|Hne]; [eauto|]. inversion_clear Hs as [|? ? Hs' Hlt]. apply NoDup_cons in Hnd as [_ Hnd].
  apply elem_of_cons in Hin as [->|Hin]; [done|]. rewrite Forall_forall in Hlt. specialize (Hlt key Hin). rewrite (proj2 (Nat.ltb_ge _ _)) by lia.
  destruct (IH Hin Hnd Hs') as (x&m'&H1&H2). exists x, ((k0, q) :: m'). split; [rewrite H1|rewrite H2]; apply Permutation_swap.
Qed.

Lemma map_add_sorted key p (m : list (nat * Q)) : StronglySorted lt m.*1 → StronglySorted lt (map_add key p m).*1 ∧ ∀ k, k ∈ (map_add key p m).*1 ↔ k = key ∨ k ∈ m.*1.
Proof.
  induction m as [|[k0 q] m IH]; intros Hs; [split; [repeat constructor|set_solver]|]. cbn [map_add]. cbn [fmap list_fmap fst] in *. inversion_clear Hs as [|? ? Hs' Hlt].
  destruct (Nat.eqb_spec key k0) as [->|Hne]; [split; [by constructor|set_solver]|]. destruct (Nat.ltb_spec key k0) as [Hk|Hk]; cbn [fmap list_fmap fst].
  - split; [|set_solver]. constructor; [by constructor|]. constructor; [done|]. eapply Forall_impl; [exact Hlt|]. intros; lia.
  - destruct (IH Hs') as [H1 H2]. split; [|intros k; rewrite !elem_of_cons, H2; tauto]. constructor; [done|]. rewrite Forall_forall in *. intros k [->|Hin]%H2; [lia|by apply Hlt].
Qed.

Section rational.
Context (dem : detector_error_model (R := Q)) (r k : nat).
Abbreviation key := (exclusive_key dem).

(** The rate of an exclusive set: one of its mechanisms happens. *)
Definition set_rate (l : list nat) (id : nat) : Q := foldr Qplus 0%Q (rate_of dem <$> filter (λ j, key j = id) l).

Lemma set_rate_snoc l j id : (set_rate (l ++ [j]) id == set_rate l id + (if decide (key j = id) then rate_of dem j else 0))%Q.
Proof.
  unfold set_rate. rewrite list.filter_app, fmap_app, foldr_app. rewrite filter_cons, filter_nil.
  assert (∀ l x, foldr Qplus x l == foldr Qplus 0 l + x)%Q as Hf by (clear; intros l x; induction l as [|y l IH]; cbn [foldr]; [ring|rewrite IH; ring]).
  rewrite Hf. case_decide; cbn [fmap list_fmap foldr]; ring.
Qed.

(** The filed rates are those of the exclusive sets. *)
Lemma filed_rates l :
  let m := foldl (λ m j, map_add (key j) (rate_of dem j) m) [] l in
  StronglySorted lt m.*1 ∧ (∀ id, id ∈ m.*1 ↔ id ∈ key <$> l) ∧ ∀ id x, (id, x) ∈ m → (x == set_rate l id)%Q.
Proof.
  induction l as [|j l IH] using rev_ind; [split_and!; [constructor|set_solver|by intros ? ? ?%elem_of_nil]|].
  rewrite foldl_app. cbn [foldl]. set (m := foldl _ [] l) in *. destruct IH as (Hs&Hk&Hr). destruct (map_add_sorted (key j) (rate_of dem j) m Hs) as [Hs' Hk'].
  split; [done|]. split; [intros id; rewrite Hk', Hk, fmap_app, elem_of_app; set_solver|]. intros id x Hx. rewrite set_rate_snoc.
  assert (NoDup m.*1) as Hnd by (by apply sorted_lt_nodup).
  destruct (decide (key j ∈ m.*1)) as [Hin|Hin].
  - destruct (map_add_filed (key j) (rate_of dem j) m Hin Hnd Hs) as (y&m'&E1&E2). rewrite E2 in Hx. apply elem_of_cons in Hx as [[= -> ->]|Hx].
    + rewrite decide_True by done. rewrite (Hr (key j) y); [done|]. rewrite E1. by left.
    + assert (id ≠ key j) as Hne. { intros ->. rewrite E1 in Hnd. cbn in Hnd. apply NoDup_cons in Hnd as [Hno _]. apply Hno. apply list_elem_of_fmap. by exists (key j, x). }
      rewrite decide_False by done. rewrite (Hr id x); [ring|]. rewrite E1. by right.
  - rewrite (map_add_fresh _ _ _ Hin) in Hx. apply elem_of_cons in Hx as [[= -> ->]|Hx].
    + rewrite decide_True by done. assert (set_rate l (key j) = 0)%Q as ->; [|ring]. unfold set_rate. rewrite filter_const_false; [done|].
      intros i Hi Ei. apply Hin, Hk. rewrite <-Ei. by apply list_elem_of_fmap_2.
    + rewrite decide_False by (intros Ej; apply Hin; rewrite Ej; apply list_elem_of_fmap; by exists (id, x)). rewrite (Hr id x) by done. ring.
Qed.

Lemma combined_bias l sig :
  let members := filter (λ j, signature dem r k j = sig) l in
  (bias (rate_xor_all (snd <$> exclusive_rates dem r k l sig)) ==
   foldr Qmult 1 ((λ id, bias (set_rate members id)) <$> remove_dups (key <$> members)))%Q.
Proof.
  intros members. rewrite bias_xor_all. unfold exclusive_rates. fold members. destruct (filed_rates members) as (Hs&Hk&Hr). set (m := foldl _ [] members) in *.
  rewrite <-list_fmap_compose. rewrite (Qprod_ext (bias ∘ snd) ((λ id, bias (set_rate members id)) ∘ fst)).
  - rewrite list_fmap_compose. apply Qprod_perm, Permutation_map, NoDup_Permutation; [by apply sorted_lt_nodup|apply NoDup_remove_dups|].
    intros id. by rewrite elem_of_remove_dups, Hk.
  - intros [id x] Hx. unfold compose, bias. cbn [fst snd]. by rewrite (Hr id x Hx).
Qed.

(** Without exclusive sets every mechanism is a set of its own. *)
Lemma singleton_sets members : error_ids dem = None → NoDup members →
  (foldr Qmult 1 ((λ id, bias (set_rate members id)) <$> remove_dups (key <$> members)) == foldr Qmult 1 ((λ j, bias (rate_of dem j)) <$> members))%Q.
Proof.
  intros Hno Hnd. assert (∀ j, key j = j) as Hkey by (intros j; unfold exclusive_key; by rewrite Hno).
  rewrite (Qprod_perm _ ((λ id, bias (set_rate members id)) <$> members)).
  - apply Qprod_ext. intros j Hj. unfold bias, set_rate. assert (filter (λ i, key i = j) members ≡ₚ [j]) as Hp.
    { apply NoDup_Permutation; [by apply NoDup_filter|apply NoDup_singleton|]. intros i. rewrite list_elem_of_filter, Hkey, list_elem_of_singleton. naive_solver. }
    symmetry in Hp. apply Permutation_length_1_inv in Hp as ->. cbn. ring.
  - apply Permutation_map, NoDup_Permutation; [apply NoDup_remove_dups|done|]. intros j. rewrite elem_of_remove_dups, list_elem_of_fmap.
    split; [intros (i&->&Hi); by rewrite Hkey|intros Hj; exists j; by rewrite Hkey].
Qed.
End rational.

(** C35. Over the rationals, the rate of every output mechanism is the
    probability that an odd number of the merged input mechanisms happen.  The
    information-carrying mechanisms with its signature form exclusive sets, those
    that share an error id, or single mechanisms when the model has no ids; at
    most one mechanism of a set happens, so the rate of a set is the sum of the
    rates in it; and the bias [1 - 2p] of the output is the product of the biases
    of the sets, which are independent.  Without ids it is the product of the
    biases of the mechanisms. *)
Theorem merged_rates_are_xor_probabilities `{XtTranspose} (dem : detector_error_model (R := Q)) r k c s drop_zero :
  dem_shape dem r k c →
  returns (canonicalize_for_rounds dem s drop_zero) (λ dem',
    ∃ order, canonical_of dem dem' r k c s drop_zero order ∧
      ∀ i j p, order !! i = Some j → error_rates dem' !! i = Some p →
        let members := filter (λ j', signature dem r k j' = signature dem r k j) (kept dem r k drop_zero (visit_order dem r c s)) in
        (bias p == foldr Qmult 1 ((λ id, bias (set_rate dem members id)) <$> remove_dups (exclusive_key dem <$> members)))%Q ∧
        (error_ids dem = None → bias p == foldr Qmult 1 ((λ j', bias (rate_of dem j')) <$> members))%Q).
Proof.
  intros Hs. eapply returns_mono; [by apply (canonicalize_returns dem r k c)|].
  intros dem' (order&Hcan). exists order. split; [done|]. intros i j p Hj Hp members.
  destruct Hcan as (_&_&_&_&_&_&Hrates). rewrite Hrates, list_lookup_fmap, Hj in Hp. injection Hp as <-. split; [apply combined_bias|].
  intros Hno. rewrite combined_bias. apply singleton_sets; [done|]. apply NoDup_filter, NoDup_filter.
  rewrite visit_order_perm by apply Hs. apply NoDup_seq.
Qed.

(** Three mechanisms of one signature; 0 and 2 exclude each other. *)
Definition example_exclusive : detector_error_model (R := Q) :=
  mk_dem (mk_tensor [2; 4] [1; 0; 1; 1;  0; 1; 0; 0]) [1 # 8; 0; 1 # 8; 1 # 8]%Q
    (mk_tensor [1; 4] [1; 0; 1; 1]) (Some [5; 6; 5; 7]).

Lemma merged_rates_are_xor_probabilities_witness :
  ∃ dem' p, canonicalize_for_rounds example_exclusive 1 false = Ok dem' ∧ error_rates dem' = [p] ∧ (bias p == bias (1 # 4) * bias (1 # 8))%Q.
Proof.
  destruct (merged_rates_are_xor_probabilities example_exclusive 2 1 4 1 false) as (dem'&Hc&order&Hcan&Hr).
  - split; try reflexivity; try (split; [lia|reflexivity]); [split; reflexivity..|]. intros ids [= <-]. reflexivity.
  - destruct Hcan as (_&_&Hin&_&_&_&Hrates). assert (∃ p, error_rates dem' = [p]) as [p Hp].
    { assert (Ok dem' = canonicalize_for_rounds example_exclusive 1 false) as E by (symmetry; exact Hc). vm_compute in E. injection E as ->. by eexists. }
    exists dem', p. split; [exact Hc|]. split; [exact Hp|]. rewrite Hp in Hrates. destruct order as [|j order]; [discriminate Hrates|].
    destruct (Hr 0 j p eq_refl ltac:(by rewrite Hp)) as [Hb _]. etrans; [exact Hb|]. destruct (Hin j ltac:(by left)) as [Hj Hcar]. clear -Hj Hcar.
    destruct j as [|[|[|[|j]]]]; [vm_compute; reflexivity|by vm_compute in Hcar|vm_compute; reflexivity..|lia].
Defined.
