(* ===== verification/Decoder.v ===== *)
(** * Decoder inputs and the realtime shot buffer

    Model of [decoder_init] for matrix sources (libs/qec/lib/decoder_init.cpp)
    and of the [decoder] base class (libs/qec/lib/decoder.cpp): the
    measurement buffer a client fills in pieces, the incremental reduction of
    measurements to detectors, and the observable corrections kept across
    shots.  The virtual [decode] is a parameter with its own state; logging,
    device pinning and chunked models are left out. *)

From Stdlib Require Import QArith.
From S2P Require Import Prelude Tensor SparseMatrix DetectorErrorModel.

Open Scope nat_scope.

(** ** Soft and hard values (decoder.h) *)

Definition convert_soft_to_hard (v : Q) : bool := Qle_bool (1 # 2) v.
Definition convert_vec_soft_to_hard (v : list Q) : list bool := convert_soft_to_hard <$> v.
Definition convert_vec_hard_to_soft (v : list nat) : list Q :=
  (λ b, if b =? 0 then 0%Q else 1%Q) <$> v.

(** ** Construction inputs *)

Section init.
Context {R : Type}.

Record decoder_init := mk_init {
  di_num_detectors : nat;
  di_num_error_mechanisms : nat;
  di_num_observables : nat;
  di_H : sparse_binary_matrix;
  di_O : option sparse_binary_matrix;
  di_rates : list R;
  di_ids : option (list nat);
  di_D : option sparse_binary_matrix
}.

Definition validate_model (H : sparse_binary_matrix) (O : option sparse_binary_matrix)
    (rates : list R) (ids : option (list nat)) (D : option sparse_binary_matrix) : res unit :=
  _ ← throw_if (match O with Some o => negb (num_cols_ o =? num_cols_ H) | None => false end)
        (InvalidArgument "decoder_init: O column count must match H column count");
  _ ← throw_if (negb (length rates =? 0) && negb (length rates =? num_cols_ H))
        (InvalidArgument "decoder_init: error_rates size must match H column count");
  _ ← throw_if (match ids with Some l => negb (length l =? num_cols_ H) | None => false end)
        (InvalidArgument "decoder_init: error_ids size must match H column count");
  throw_if (match D with Some d => negb (num_rows_ d =? num_rows_ H) | None => false end)
    (InvalidArgument "decoder_init: D row count must match H row count").

(** [if (M) *M = M->to_csr()] *)
Definition opt_to_csr (m : option sparse_binary_matrix) : res (option sparse_binary_matrix) :=
  match m with
  | Some m => m' ← to_csr m; Ok (Some m')
  | None => Ok None
  end.

Definition make_matrix_state (H : sparse_binary_matrix) (O : option sparse_binary_matrix)
    (rates : list R) (ids : option (list nat)) (D : option sparse_binary_matrix)
    : res decoder_init :=
  H ← to_csc H;
  O ← opt_to_csr O;
  D ← opt_to_csr D;
  _ ← validate_model H O rates ids D;
  Ok (mk_init (num_rows_ H) (num_cols_ H) (match O with Some o => num_rows_ o | None => 0 end)
        H O rates ids D).

Definition decoder_init_of_dem (model : detector_error_model (R := R))
    (measurement_to_detectors : option sparse_binary_matrix) : res decoder_init :=
  H ← of_dense (detector_error_matrix model) csc;
  O ← of_dense (observables_flips_matrix model) csc;
  make_matrix_state H (Some O) (error_rates model) (error_ids model) measurement_to_detectors.

Definition has_observable_model (inputs : decoder_init) : bool :=
  match di_O inputs with Some _ => true | None => false end.

Definition observable_flips_matrix (inputs : decoder_init) : res sparse_binary_matrix :=
  match di_O inputs with
  | Some o => Ok o
  | None => Throw (LogicError "decoder_init: no observable mapping was supplied")
  end.

Definition canonicalize_H (inputs : decoder_init) : res decoder_init :=
  H ← canonicalize (di_H inputs);
  H ← to_csc H;
  make_matrix_state H (di_O inputs) (di_rates inputs) (di_ids inputs) (di_D inputs).

Definition decoder_init_without_d (inputs : decoder_init) : decoder_init :=
  mk_init (di_num_detectors inputs) (di_num_error_mechanisms inputs) (di_num_observables inputs)
    (di_H inputs) (di_O inputs) (di_rates inputs) (di_ids inputs) None.

Definition without_observables (inputs : decoder_init) : decoder_init :=
  mk_init (di_num_detectors inputs) (di_num_error_mechanisms inputs) 0
    (di_H inputs) None (di_rates inputs) (di_ids inputs) (di_D inputs).
End init.

(** ** The realtime state *)

Inductive decode_result_type := errors | observables.

Record rt_impl := mk_rt {
  num_msyn_per_decode : nat;
  msyn_buffer_index : nat;
  msyn_buffer : list nat;
  corrections : list nat;
  persistent_detector_buffer : list nat;
  detector_ready_order : list (nat * nat);
  detector_ready_cursor : nat;
  round_streaming_initialized : bool;
  measurement_to_detectors : list (list nat);
  num_syndromes_per_round : nat;
  has_first_round_detectors : bool;
  current_round : nat;
  detector_layer_offsets : list nat;
  detector_layer_index : nat
}.

(** The order of [std::pair<uint32_t, uint32_t>]. *)
Definition pair_le (p q : nat * nat) : Prop := p.1 < q.1 ∨ (p.1 = q.1 ∧ p.2 ≤ q.2).
#[global] Instance pair_le_dec p q : Decision (pair_le p q).
Proof. unfold pair_le. apply _. Defined.

(** One past the last measurement column a detector reads. *)
Definition columns_needed (row : list nat) : nat := foldl (λ acc col, acc `max` u32 (col + 1)) 0 row.

Definition ready_order (rows : list (list nat)) : list (nat * nat) :=
  merge_sort pair_le (imap (λ detector row, (columns_needed row, u32 detector)) rows).

Definition reset_decoder (num_observables : nat) (st : rt_impl) : rt_impl :=
  mk_rt (num_msyn_per_decode st) 0 (replicate (num_msyn_per_decode st) 0) (replicate num_observables 0)
    (persistent_detector_buffer st) (detector_ready_order st) 0 (round_streaming_initialized st)
    (measurement_to_detectors st) (num_syndromes_per_round st) (has_first_round_detectors st) 0
    (detector_layer_offsets st) 0.

Definition clear_corrections (num_observables : nat) (st : rt_impl) : rt_impl :=
  mk_rt (num_msyn_per_decode st) (msyn_buffer_index st) (msyn_buffer st) (replicate num_observables 0)
    (persistent_detector_buffer st) (detector_ready_order st) (detector_ready_cursor st)
    (round_streaming_initialized st) (measurement_to_detectors st) (num_syndromes_per_round st)
    (has_first_round_detectors st) (current_round st) (detector_layer_offsets st)
    (detector_layer_index st).

Section decoder.
Context {R : Type} (inputs : decoder_init (R := R)) (output_request : decode_result_type).

(** The constructor of the base class. *)
Definition make_decoder : res rt_impl :=
  rt ← (match di_D inputs with
        | Some d => rows ← to_nested_csr d; Ok (rows, num_cols_ d, ready_order rows)
        | None => Ok ([], 0, [])
        end);
  let '(rows, num_msyn, order) := rt in
  Ok (reset_decoder (di_num_observables inputs)
        (mk_rt num_msyn 0 [] [] (replicate (di_num_detectors inputs) 0) order 0 false rows 0 false 0 [] 0)).

Definition initialize_streaming_layout (per_round : nat) (offsets : list nat) (st : rt_impl) : res rt_impl :=
  _ ← throw_if (round_streaming_initialized st)
        (LogicError "initialize_streaming_layout() is construction state and may be called only once");
  _ ← throw_if (length offsets =? 0)
        (InvalidArgument "initialize_streaming_layout() requires at least one detector layer");
  back ← vget offsets (length offsets - 1);
  _ ← throw_if (negb (back =? di_num_detectors inputs))
        (InvalidArgument "detector layer offsets do not end at the model's detector count");
  let first := match measurement_to_detectors st with [] => false | row :: _ => length row =? 1 end in
  let buffer := take per_round (persistent_detector_buffer st) ++
                replicate (per_round - length (persistent_detector_buffer st)) 0 in
  Ok (mk_rt (num_msyn_per_decode st) (msyn_buffer_index st) (msyn_buffer st) (corrections st) buffer
        (detector_ready_order st) 0 true (measurement_to_detectors st) per_round first 0 offsets 0).

(** [for (col : row) value ^= buffer\[col\]] *)
Definition parity_of (buffer row : list nat) : res nat :=
  foldM (λ col value, x ← vget buffer col; Ok (Nat.lxor value x)) row 0.

(** Fold in every detector that needs at most [columns_available] columns;
    the remaining length of the order is enough fuel. *)
Fixpoint resolve_loop (fuel columns_available : nat) (rows : list (list nat)) (buffer : list nat)
    (order : list (nat * nat)) (cursor : nat) (dets : list nat) : res (nat * list nat) :=
  match fuel with
  | 0 => Ok (cursor, dets)
  | S fuel =>
      match order !! cursor with
      | None => Ok (cursor, dets)
      | Some (needed, detector) =>
          if needed <=? columns_available then
            row ← vget rows detector;
            value ← parity_of buffer row;
            dets ← vset dets detector value;
            resolve_loop fuel columns_available rows buffer order (cursor + 1) dets
          else Ok (cursor, dets)
      end
  end.

Definition set_detectors (st : rt_impl) (cursor : nat) (dets : list nat) : rt_impl :=
  mk_rt (num_msyn_per_decode st) (msyn_buffer_index st) (msyn_buffer st) (corrections st) dets
    (detector_ready_order st) cursor (round_streaming_initialized st) (measurement_to_detectors st)
    (num_syndromes_per_round st) (has_first_round_detectors st) (current_round st)
    (detector_layer_offsets st) (detector_layer_index st).

Definition resolve_ready_detectors (columns_available : nat) (st : rt_impl) : res rt_impl :=
  r ← resolve_loop (length (detector_ready_order st) - detector_ready_cursor st) columns_available
        (measurement_to_detectors st) (msyn_buffer st) (detector_ready_order st)
        (detector_ready_cursor st) (persistent_detector_buffer st);
  Ok (set_detectors st r.1 r.2).

(** Emit the next detector layer of a streaming layout. *)
Definition emit_layer (st : rt_impl) : res rt_impl :=
  let k := detector_layer_index st in
  off ← vget (detector_layer_offsets st) k;
  next ← vget (detector_layer_offsets st) (k + 1);
  let width := u64_sub next off in
  dets ← for_u 0 width (λ j dets,
    row ← vget (measurement_to_detectors st) (off + j);
    v ← parity_of (msyn_buffer st) row;
    vset dets j v)
    (take width (persistent_detector_buffer st) ++
     replicate (width - length (persistent_detector_buffer st)) 0);
  Ok (mk_rt (num_msyn_per_decode st) (msyn_buffer_index st) (msyn_buffer st) (corrections st) dets
        (detector_ready_order st) (detector_ready_cursor st) (round_streaming_initialized st)
        (measurement_to_detectors st) (num_syndromes_per_round st) (has_first_round_detectors st)
        (current_round st) (detector_layer_offsets st) (k + 1)).

Definition flip_correction (i : nat) (corr : list nat) : res (list nat) :=
  x ← vget corr i;
  vset corr i (Nat.lxor x 1).

(** Apply a decoded frame to the corrections. *)
Definition apply_result (decoded_values : list Q) (corr : list nat) : res (list nat) :=
  let num_observables := di_num_observables inputs in
  match output_request with
  | observables => for_u 0 num_observables (λ i corr,
      v ← vget decoded_values i;
      if negb (Qeq_bool v 0) then flip_correction i corr else Ok corr) corr
  | errors =>
      _ ← throw_if (negb (has_observable_model inputs))
            (RuntimeError "Error-frame decoders need an observable model to project through; this one was constructed without one");
      om ← observable_flips_matrix inputs;
      for_u 0 num_observables (λ i corr,
        lo ← vget (ptr_ om) i;
        hi ← vget (ptr_ om) (i + 1);
        for_u lo hi (λ k corr,
          e ← vget (indices_ om) k;
          v ← vget decoded_values e;
          if negb (Qeq_bool v 0) then flip_correction i corr else Ok corr) corr) corr
  end.

Definition expected_result_size : nat :=
  match output_request with
  | errors => di_num_error_mechanisms inputs
  | observables => di_num_observables inputs
  end.

(** Append the new measurements to the buffer. *)
Definition accept (syndrome : list nat) (st : rt_impl) : rt_impl :=
  mk_rt (num_msyn_per_decode st) (u32 (msyn_buffer_index st + length syndrome))
    (take (msyn_buffer_index st) (msyn_buffer st) ++ syndrome ++
     drop (msyn_buffer_index st + length syndrome) (msyn_buffer st))
    (corrections st) (persistent_detector_buffer st) (detector_ready_order st)
    (detector_ready_cursor st) (round_streaming_initialized st) (measurement_to_detectors st)
    (num_syndromes_per_round st) (has_first_round_detectors st) (u32 (current_round st + 1))
    (detector_layer_offsets st) (detector_layer_index st).

(** After a decode: keep the buffers, start the next shot. *)
Definition next_shot (st : rt_impl) (corr : list nat) : rt_impl :=
  mk_rt (num_msyn_per_decode st) 0 (msyn_buffer st) corr (persistent_detector_buffer st)
    (detector_ready_order st) 0 (round_streaming_initialized st) (measurement_to_detectors st)
    (num_syndromes_per_round st) (has_first_round_detectors st) 0 (detector_layer_offsets st) 0.

Definition should_decode (st : rt_impl) : bool :=
  if negb (round_streaming_initialized st) then msyn_buffer_index st =? length (msyn_buffer st)
  else (2 <=? current_round st) || ((current_round st =? 1) && has_first_round_detectors st).

Context {D : Type} (decode : list Q → D → res (list Q * D)).

Definition enqueue_syndrome (syndrome : list nat) (st : rt_impl) (ds : D) : res (bool * rt_impl * D) :=
  if length (msyn_buffer st) <? msyn_buffer_index st + length syndrome then Ok (false, st, ds) else
  let st := accept syndrome st in
  st ← (if round_streaming_initialized st then Ok st
        else resolve_ready_detectors (msyn_buffer_index st) st);
  if negb (should_decode st) then Ok (false, st, ds) else
  st ← (if round_streaming_initialized st then emit_layer st
        else resolve_ready_detectors (num_msyn_per_decode st) st);
  r ← decode (convert_vec_hard_to_soft (persistent_detector_buffer st)) ds;
  let '(decoded_values, ds) := r in
  if round_streaming_initialized st && (length decoded_values =? 0) then Ok (false, st, ds) else
  _ ← throw_if (negb (length decoded_values =? expected_result_size))
        (RuntimeError "Decoder result size does not match expected size for result type");
  corr ← apply_result decoded_values (corrections st);
  Ok (true, next_shot st corr, ds).

(** A client sending a shot in pieces: the flags returned and the final state. *)
Fixpoint enqueue_all (pieces : list (list nat)) (st : rt_impl) (ds : D)
    : res (list bool * rt_impl * D) :=
  match pieces with
  | [] => Ok ([], st, ds)
  | piece :: pieces =>
      r ← enqueue_syndrome piece st ds;
      let '(did, st, ds) := r in
      rs ← enqueue_all pieces st ds;
      let '(dids, st, ds) := rs in
      Ok (did :: dids, st, ds)
  end.

(** [project_errors_to_observables] through the O matrix. *)
Definition project_errors_to_observables (errs : list Q) (observables_size : nat) : res (list Q) :=
  _ ← throw_if (negb (has_observable_model inputs))
        (RuntimeError "decoder was asked to project an error frame onto observables but its model supplies no observable mapping");
  om ← observable_flips_matrix inputs;
  for_u 0 (num_rows_ om) (λ row obs,
    lo ← vget (ptr_ om) row;
    hi ← vget (ptr_ om) (row + 1);
    parity ← for_u lo hi (λ pos parity,
      e ← vget (indices_ om) pos;
      v ← vget errs e;
      Ok (xorb parity (convert_soft_to_hard v))) false;
    vset obs row (if parity : bool then 1%Q else 0%Q)) (replicate observables_size 0%Q).
End decoder.
