(* ===== verification/DecoderProps.v ===== *)
(** * The shot buffer: incremental detectors

    Detectors are reduced as soon as their measurements have arrived; this
    file proves that however a shot is cut into pieces, the decoder sees the
    same detectors, exactly once, and that the corrections accumulate the
    parity of the decoded frame. *)

From Stdlib Require Import QArith.
From S2P Require Import Prelude Ordering Tensor SparseMatrix SparseFacts DetectorErrorModel Decoder SparseProps.

Open Scope nat_scope.

(** ** Parities *)

(** One detector: the XOR of its measurements. *)
Definition xor_at (buffer row : list nat) : nat :=
  foldl (λ v col, Nat.lxor v (default 0 (buffer !! col))) 0 row.

(** All detectors of a shot: the product of D with the measurements. *)
Definition detectors_of (rows : list (list nat)) (m : list nat) : list nat := xor_at m <$> rows.

Lemma parity_of_ok buffer m row p :
  (∀ i, i < p → buffer !! i = m !! i) → p ≤ length m → Forall (λ col, col < p) row →
  parity_of buffer row = Ok (xor_at m row).
Proof.
  intros Hbuf Hp Hrow. unfold parity_of, xor_at. apply (foldM_pure _
    (λ v col, Nat.lxor v (default 0 (m !! col)))).
  intros col v Hcol. rewrite Forall_forall in Hrow. specialize (Hrow col Hcol).
  destruct (lookup_lt_is_Some_2 m col) as [x Hx]; [lia|].
  rewrite (vget_ok _ _ x) by (by rewrite Hbuf). cbn. by rewrite Hx.
Qed.

Lemma columns_needed_bound row p n :
  Forall (λ col, col < n) row → (Z.of_nat n < 2 ^ 32)%Z →
  columns_needed row ≤ p ↔ Forall (λ col, col < p) row.
Proof.
  intros Hrow Hn. unfold columns_needed.
  cut (∀ acc, foldl (λ acc col, acc `max` u32 (col + 1)) acc row ≤ p ↔
        acc ≤ p ∧ Forall (λ col, col < p) row); [intros Hc; rewrite Hc; split; [tauto|]; intros; split; [lia|done]|].
  induction Hrow as [|col row Hcol Hrow IH]; intros acc; cbn [foldl].
  - split; [by split|tauto].
  - rewrite IH, Forall_cons, wrap_small by lia. split; intros; (split; [lia|]); (split; [lia|tauto]) || tauto.
Qed.

(** ** A shot in progress *)

Section shot.
Context (rows : list (list nat)) (n : nat).
Hypothesis rows_ok : Forall (Forall (λ col, col < n)) rows.
Hypothesis n_fits : (Z.of_nat n < 2 ^ 32)%Z.
Hypothesis rows_fit : (Z.of_nat (length rows) < 2 ^ 32)%Z.

Let order := ready_order rows.

Lemma order_elem needed d :
  (needed, d) ∈ order ↔ ∃ row, rows !! d = Some row ∧ needed = columns_needed row.
Proof using All.
  unfold order, ready_order. rewrite merge_sort_Permutation, list_elem_of_lookup.
  setoid_rewrite list_lookup_imap_Some. split.
  - intros (i&row&Hrow&[= -> ->]). exists row.
    rewrite wrap_small by (apply lookup_lt_Some in Hrow; lia). done.
  - intros (row&Hrow&->). exists d, row. rewrite wrap_small by (apply lookup_lt_Some in Hrow; lia). done.
Qed.

(** The detectors before the cursor have their final values. *)
Definition resolved (m : list nat) (cursor : nat) (dets : list nat) : Prop :=
  length dets = length rows ∧
  ∀ i needed d row, i < cursor → order !! i = Some (needed, d) → rows !! d = Some row →
    dets !! d = Some (xor_at m row).

Lemma resolve_loop_ok m buffer p fuel cursor dets :
  length m = n → p ≤ n → (∀ i, i < p → buffer !! i = m !! i) →
  length order ≤ cursor + fuel → resolved m cursor dets →
  returns (resolve_loop fuel p rows buffer order cursor dets) (λ r,
    cursor ≤ r.1 ∧ resolved m r.1 r.2 ∧
    ∀ needed d, order !! r.1 = Some (needed, d) → p < needed).
Proof using All.
  intros Hm Hp Hbuf. revert cursor dets.
  induction fuel as [|fuel IH]; intros cursor dets Hf Hres; cbn [resolve_loop].
  { apply returns_ok. cbn. split_and!; [done|done|]. intros needed d Hlk%lookup_lt_Some. lia. }
  destruct (order !! cursor) as [[needed d]|] eqn:Hc.
  2:{ apply returns_ok. cbn. rewrite Hc. done. }
  destruct (Nat.leb_spec needed p) as [Hle|Hgt].
  2:{ apply returns_ok. cbn. split_and!; [done|done|]. rewrite Hc. intros ?? [= -> ->]. done. }
  pose proof (proj1 (order_elem needed d) (list_elem_of_lookup_2 _ _ _ Hc)) as (row&Hrow&Hneed).
  assert (Forall (λ col, col < n) row) as Hrn
    by (rewrite Forall_forall in rows_ok; by eapply rows_ok, list_elem_of_lookup_2).
  rewrite (vget_ok _ _ _ Hrow). cbn [mbind res_bind].
  rewrite (parity_of_ok buffer m row p); [|done|lia|by apply (columns_needed_bound row p n Hrn n_fits); lia].
  cbn [mbind res_bind]. destruct Hres as [Hlen Hres].
  assert (d < length dets) by (rewrite Hlen; by eapply lookup_lt_Some).
  rewrite vset_ok by done. cbn [mbind res_bind].
  eapply returns_mono; [apply IH; [lia|]|].
  - split; [by rewrite length_insert|]. intros i needed' d' row' Hi Hlk Hrow'.
    destruct (decide (d = d')) as [->|Hne].
    + rewrite list_lookup_insert_eq by done. congruence.
    + rewrite list_lookup_insert_ne by done. apply (Hres i needed'); [|done|done].
      destruct (decide (i = cursor)) as [->|]; [congruence|lia].
  - intros r (?&?&?). split_and!; [lia|done|done].
Qed.

(** Once the cursor passed the end, every detector is final. *)
Lemma resolved_all m cursor dets :
  length order ≤ cursor → resolved m cursor dets → dets = detectors_of rows m.
Proof using All.
  intros Hc [Hlen Hres]. apply list_eq. intros d. unfold detectors_of. rewrite list_lookup_fmap.
  destruct (rows !! d) as [row|] eqn:Hrow; cbn.
  - destruct (proj1 (list_elem_of_lookup _ _) (proj2 (order_elem (columns_needed row) d) (ex_intro _ row (conj Hrow eq_refl))))
      as [i Hi].
    eapply Hres; [|done|done]. apply lookup_lt_Some in Hi. lia.
  - apply lookup_ge_None. rewrite Hlen. by apply lookup_ge_None.
Qed.

(** Everything is ready when all columns are there. *)
Lemma cursor_at_end m cursor dets :
  resolved m cursor dets → (∀ needed d, order !! cursor = Some (needed, d) → n < needed) →
  length order ≤ cursor.
Proof using All.
  intros _ Hnext. destruct (order !! cursor) as [[needed d]|] eqn:Hc; [|by apply lookup_ge_None].
  specialize (Hnext needed d eq_refl).
  pose proof (proj1 (order_elem needed d) (list_elem_of_lookup_2 _ _ _ Hc)) as (row&Hrow&->).
  assert (Forall (λ col, col < n) row) as Hrn
    by (rewrite Forall_forall in rows_ok; by eapply rows_ok, list_elem_of_lookup_2).
  apply (columns_needed_bound row n n Hrn n_fits) in Hrn. lia.
Qed.
End shot.

(** ** Whole shots *)

(** The promise of the buffer: a decoder whose only state is the corrections
    and the plugin's own, fed one complete shot at a time. *)
Section abstract.
Context {R : Type} (inputs : decoder_init (R := R)) (request : decode_result_type).
Context {D : Type} (decode : list Q → D → res (list Q * D)) (rows : list (list nat)).

Definition decode_shot (m corr : list nat) (ds : D) : res (list nat * D) :=
  r ← decode (convert_vec_hard_to_soft (detectors_of rows m)) ds;
  _ ← throw_if (negb (length r.1 =? expected_result_size inputs request))
        (RuntimeError "Decoder result size does not match expected size for result type");
  corr ← apply_result inputs request r.1 corr;
  Ok (corr, r.2).

Fixpoint run_shots (shots : list (list nat)) (corr : list nat) (ds : D) : res (list nat * D) :=
  match shots with
  | [] => Ok (corr, ds)
  | m :: shots => r ← decode_shot m corr ds; run_shots shots r.1 r.2
  end.
End abstract.

(** A buffer waiting for the measurements from [p] on of the shot [m]. *)
Record shot_at (rows : list (list nat)) (n : nat) (m : list nat) (p : nat) (st : rt_impl) : Prop := {
  at_num : num_msyn_per_decode st = n;
  at_index : msyn_buffer_index st = p;
  at_buffer : length (msyn_buffer st) = n;
  at_prefix : ∀ i, i < p → msyn_buffer st !! i = m !! i;
  at_order : detector_ready_order st = ready_order rows;
  at_streaming : round_streaming_initialized st = false;
  at_rows : measurement_to_detectors st = rows;
  at_resolved : resolved rows m (detector_ready_cursor st) (persistent_detector_buffer st)
}.

(** Between shots. *)
Record idle (rows : list (list nat)) (n : nat) (st : rt_impl) : Prop := {
  idle_num : num_msyn_per_decode st = n;
  idle_index : msyn_buffer_index st = 0;
  idle_buffer : length (msyn_buffer st) = n;
  idle_order : detector_ready_order st = ready_order rows;
  idle_cursor : detector_ready_cursor st = 0;
  idle_streaming : round_streaming_initialized st = false;
  idle_rows : measurement_to_detectors st = rows;
  idle_detectors : length (persistent_detector_buffer st) = length rows
}.

Lemma idle_shot rows n m st : idle rows n st → shot_at rows n m 0 st.
Proof.
  intros []. split; try done; [intros; lia|]. rewrite idle_cursor0. split; [done|intros; lia].
Qed.

Section pieces.
Context {R : Type} (inputs : decoder_init (R := R)) (request : decode_result_type).
Context {D : Type} (decode : list Q → D → res (list Q * D)).
Context (rows : list (list nat)) (n : nat).
Hypothesis rows_ok : Forall (Forall (λ col, col < n)) rows.
Hypothesis n_fits : (Z.of_nat n < 2 ^ 32)%Z.
Hypothesis rows_fit : (Z.of_nat (length rows) < 2 ^ 32)%Z.

Lemma accept_prefix m p piece st rest :
  shot_at rows n m p st → m = take p m ++ piece ++ rest → length m = n → p ≤ n →
  shot_at rows n m (p + length piece) (accept piece st) ∧ length (msyn_buffer (accept piece st)) = n ∧
  corrections (accept piece st) = corrections st.
Proof using n_fits.
  intros [] Hm Hlen Hp. assert (p + length piece ≤ n) as Hfit
    by (apply (f_equal length) in Hm; rewrite !length_app, length_take in Hm; lia).
  assert (length (msyn_buffer (accept piece st)) = n) as Hb.
  { cbn. rewrite !length_app, length_take, length_drop. lia. }
  split; [|done]. split; cbn [accept num_msyn_per_decode msyn_buffer_index detector_ready_order
    round_streaming_initialized measurement_to_detectors detector_ready_cursor persistent_detector_buffer]; try done.
  - rewrite at_index0. apply wrap_small. lia.
  - intros i Hi. cbn [accept msyn_buffer]. rewrite at_index0.
    assert (length (take p (msyn_buffer st)) = p) as Ht by (rewrite length_take; lia).
    destruct (decide (i < p)) as [Hip|Hip].
    + rewrite lookup_app_l by lia. rewrite lookup_take_lt by done. by apply at_prefix0.
    + rewrite lookup_app_r, lookup_app_l by lia. rewrite Ht.
      assert (length (take p m) = p) as Htm by (rewrite length_take; lia).
      rewrite Hm at 1. rewrite lookup_app_r, lookup_app_l by lia. by rewrite Htm.
Qed.

Lemma resolve_ready_ok m p st :
  shot_at rows n m p st → length m = n → p ≤ n →
  ∃ cursor dets, resolve_ready_detectors p st = Ok (set_detectors st cursor dets) ∧
    shot_at rows n m p (set_detectors st cursor dets) ∧
    (p = n → length (ready_order rows) ≤ cursor ∧ dets = detectors_of rows m).
Proof using All.
  intros [] Hlen Hp. unfold resolve_ready_detectors. rewrite at_order0, at_rows0.
  destruct (resolve_loop_ok rows n rows_ok n_fits rows_fit m (msyn_buffer st) p
    (length (ready_order rows) - detector_ready_cursor st) (detector_ready_cursor st)
    (persistent_detector_buffer st)) as ((cursor&dets)&->&Hc&Hres&Hnext); [done|done|done|lia|done|].
  cbn [mbind res_bind fst snd] in *. exists cursor, dets. split; [done|]. split.
  - split; done.
  - intros ->. assert (length (ready_order rows) ≤ cursor) as Hend
      by (eapply (cursor_at_end rows n rows_ok n_fits rows_fit m cursor dets); done).
    split; [done|]. by eapply (resolved_all rows n rows_ok n_fits rows_fit).
Qed.

(** A piece that does not complete the shot only fills the buffer. *)
Lemma enqueue_partial m p piece st ds rest :
  shot_at rows n m p st → m = take p m ++ piece ++ rest → length m = n → p + length piece < n →
  ∃ st', enqueue_syndrome inputs request decode piece st ds = Ok (false, st', ds) ∧
    shot_at rows n m (p + length piece) st' ∧ corrections st' = corrections st.
Proof using All.
  intros Hst Hm Hlen Hp. unfold enqueue_syndrome.
  rewrite (at_buffer _ _ _ _ _ Hst), (at_index _ _ _ _ _ Hst).
  rewrite (proj2 (Nat.ltb_ge _ _)) by lia.
  destruct (accept_prefix m p piece st rest Hst Hm Hlen) as (Ha&Hb&Hc); [lia|].
  rewrite (at_streaming _ _ _ _ _ Ha), (at_index _ _ _ _ _ Ha).
  destruct (resolve_ready_ok m _ _ Ha Hlen) as (cursor&dets&->&Hr&_); [lia|].
  cbn [mbind res_bind]. set (st' := set_detectors _ _ _) in *.
  assert (should_decode st' = false) as ->.
  { unfold should_decode. rewrite (at_streaming _ _ _ _ _ Hr), (at_index _ _ _ _ _ Hr), (at_buffer _ _ _ _ _ Hr).
    cbn. apply Nat.eqb_neq. lia. }
  cbn. exists st'. done.
Qed.

(** The piece that completes the shot decodes it. *)
Lemma enqueue_last m p piece st ds :
  shot_at rows n m p st → m = take p m ++ piece → length m = n → p ≤ n →
  match decode_shot inputs request decode rows m (corrections st) ds with
  | Ok (corr, ds') => ∃ st', enqueue_syndrome inputs request decode piece st ds = Ok (true, st', ds') ∧
      idle rows n st' ∧ corrections st' = corr
  | Throw e => enqueue_syndrome inputs request decode piece st ds = Throw e
  | Undef => enqueue_syndrome inputs request decode piece st ds = Undef
  end.
Proof using All.
  intros Hst Hm Hlen Hp. unfold enqueue_syndrome.
  assert (p + length piece = n) as Hn
    by (apply (f_equal length) in Hm; rewrite length_app, length_take in Hm; lia).
  rewrite (at_buffer _ _ _ _ _ Hst), (at_index _ _ _ _ _ Hst).
  rewrite (proj2 (Nat.ltb_ge _ _)) by lia.
  destruct (accept_prefix m p piece st [] Hst) as (Ha&Hb&Hc); [by rewrite app_nil_r|done..|].
  rewrite (at_streaming _ _ _ _ _ Ha), (at_index _ _ _ _ _ Ha), Hn in *.
  destruct (resolve_ready_ok m _ _ Ha Hlen) as (cursor&dets&->&Hr&_); [lia|].
  cbn [mbind res_bind]. set (st' := set_detectors _ _ _) in *.
  assert (should_decode st' = true) as ->.
  { unfold should_decode. rewrite (at_streaming _ _ _ _ _ Hr), (at_index _ _ _ _ _ Hr), (at_buffer _ _ _ _ _ Hr).
    cbn. apply Nat.eqb_refl. }
  rewrite (at_streaming _ _ _ _ _ Hr), (at_num _ _ _ _ _ Hr).
  destruct (resolve_ready_ok m _ _ Hr Hlen) as (cursor2&dets2&->&Hr2&Hall); [lia|].
  destruct (Hall eq_refl) as [_ ->]. cbn [negb mbind res_bind].
  set (st'' := set_detectors st' _ _) in *.
  assert (corrections st'' = corrections st) as Hc'' by done.
  change (persistent_detector_buffer st'') with (detectors_of rows m).
  rewrite (at_streaming _ _ _ _ _ Hr2), Hc''. unfold decode_shot.
  destruct (decode _ ds) as [[vals ds']|e|]; [|done..]. cbn [mbind res_bind fst snd andb].
  destruct (throw_if _ _) as [[]|e|]; [|done..]. cbn [mbind res_bind].
  destruct (apply_result _ _ _ _) as [corr|e|]; [|done..]. cbn [mbind res_bind].
  eexists. split; [done|]. split; [|done]. destruct Hr2. split; cbn; try done.
  unfold detectors_of. by rewrite length_fmap.
Qed.

Lemma enqueue_all_app ps qs st ds :
  enqueue_all inputs request decode (ps ++ qs) st ds =
  (r ← enqueue_all inputs request decode ps st ds;
   rs ← enqueue_all inputs request decode qs r.1.2 r.2;
   Ok (r.1.1 ++ rs.1.1, rs.1.2, rs.2)).
Proof using Type.
  revert st ds. induction ps as [|p ps IH]; intros st ds; cbn [app enqueue_all].
  - cbn. by destruct (enqueue_all _ _ _ qs st ds) as [[[??]?]|e|].
  - destruct (enqueue_syndrome _ _ _ p st ds) as [[[??]?]|e|]; [|done..]. cbn [mbind res_bind]. rewrite IH.
    destruct (enqueue_all _ _ _ ps _ _) as [[[??]?]|e|]; [|done..]. cbn [mbind res_bind fst snd].
    by destruct (enqueue_all _ _ _ qs _ _) as [[[??]?]|e|].
Qed.

Lemma enqueue_init m p ps st ds rest :
  shot_at rows n m p st → m = take p m ++ concat ps ++ rest → rest ≠ [] → length m = n →
  ∃ st', enqueue_all inputs request decode ps st ds = Ok (replicate (length ps) false, st', ds) ∧
    shot_at rows n m (p + length (concat ps)) st' ∧ corrections st' = corrections st.
Proof using All.
  intros Hst Hm Hrest Hlen. revert p st Hst Hm. induction ps as [|piece ps IH]; intros p st Hst Hm.
  { cbn. rewrite Nat.add_0_r. by exists st. }
  assert (p + length piece < n) as Hlt.
  { destruct rest; [done|]. destruct (decide (p ≤ length m)) as [|].
    - apply (f_equal length) in Hm. cbn in Hm. rewrite !length_app, length_take in Hm. cbn in Hm. lia.
    - apply (f_equal length) in Hm. cbn in Hm. rewrite !length_app, length_take in Hm. cbn in Hm. lia. }
  cbn [concat] in Hm. rewrite <-app_assoc in Hm.
  destruct (enqueue_partial m p piece st ds _ Hst Hm Hlen Hlt) as (st1&Hst1&Hat1&Hcorr1).
  cbn [enqueue_all]. rewrite Hst1. cbn [mbind res_bind].
  assert (m = take (p + length piece) m ++ concat ps ++ rest) as Hm1.
  { rewrite Hm at 1. rewrite (app_assoc (take p m)). f_equal. rewrite Hm at 2.
    rewrite (app_assoc (take p m)), take_app_length'; [done|]. rewrite length_app, length_take. lia. }
  destruct (IH _ _ Hat1 Hm1) as (st2&->&Hat2&Hcorr2).
  cbn [mbind res_bind]. exists st2. split; [done|]. split; [|congruence].
  cbn [concat]. rewrite length_app, Nat.add_assoc. done.
Qed.
End pieces.

(** * Properties of the decoder inputs and of the shot buffer *)

(** ** Construction inputs *)

(** The rows (columns) of a matrix given by its groups. *)
Definition rows_of_matrix (m : sparse_binary_matrix) (gs : list (list nat)) : list (list nat) :=
  if is_csc m then transposed (num_rows_ m) gs else gs.
Definition cols_of_matrix (m : sparse_binary_matrix) (gs : list (list nat)) : list (list nat) :=
  if is_csc m then gs else transposed (num_cols_ m) gs.
Definition as_csr (m : sparse_binary_matrix) (gs : list (list nat)) : sparse_binary_matrix :=
  of_groups csr (num_rows_ m) (num_cols_ m) (rows_of_matrix m gs).
Definition as_csc (m : sparse_binary_matrix) (gs : list (list nat)) : sparse_binary_matrix :=
  of_groups csc (num_rows_ m) (num_cols_ m) (cols_of_matrix m gs).

Lemma is_csc_layout m : is_csc m = true ↔ layout_ m = csc.
Proof. apply bool_decide_eq_true. Qed.

Lemma to_csr_as m gs : wf m gs → to_csr m = Ok (as_csr m gs).
Proof.
  intros Hwf. rewrite (to_csr_spec m gs Hwf). unfold as_csr, rows_of_matrix.
  destruct (is_csc m) eqn:E; [done|]. rewrite (wf_eq m gs Hwf) at 1. f_equal. f_equal.
  destruct (layout_ m) eqn:El; [|done]. apply is_csc_layout in El. congruence.
Qed.

Lemma to_csc_as m gs : wf m gs → to_csc m = Ok (as_csc m gs).
Proof.
  intros Hwf. rewrite (to_csc_spec m gs Hwf). unfold as_csc, cols_of_matrix.
  destruct (is_csc m) eqn:E; [|done]. rewrite (wf_eq m gs Hwf) at 1. f_equal. f_equal.
  by apply is_csc_layout.
Qed.

(** The rows of a well-formed matrix. *)
Lemma rows_of_matrix_ok m gs :
  wf m gs → length (rows_of_matrix m gs) = num_rows_ m ∧
  Forall (Forall (λ col, col < num_cols_ m)) (rows_of_matrix m gs).
Proof.
  intros Hwf. pose proof (wf_num_groups m gs Hwf) as Hl. pose proof (wf_bound m gs Hwf) as Hb.
  unfold rows_of_matrix, num_groups, index_bound in *. destruct (is_csc m); [|done].
  split; [apply length_transposed|]. rewrite <-Hl. apply transposed_bound.
Qed.

(** An optional matrix, present or not. *)
Definition opt_wf (m : option sparse_binary_matrix) (gs : list (list nat)) : Prop :=
  match m with Some m => wf m gs | None => True end.
Definition opt_as_csr (m : option sparse_binary_matrix) (gs : list (list nat)) :=
  (λ m, as_csr m gs) <$> m.

Lemma opt_to_csr_as m gs : opt_wf m gs → opt_to_csr m = Ok (opt_as_csr m gs).
Proof. destruct m as [m|]; [|done]. intros Hwf. cbn. by rewrite (to_csr_as m gs). Qed.

Section inputs.
Context {R : Type}.

Definition model_consistent (H : sparse_binary_matrix) (O : option sparse_binary_matrix)
    (rates : list R) (ids : option (list nat)) (D : option sparse_binary_matrix) : Prop :=
  (∀ o, O = Some o → num_cols_ o = num_cols_ H) ∧
  (rates = [] ∨ length rates = num_cols_ H) ∧
  (∀ l, ids = Some l → length l = num_cols_ H) ∧
  (∀ d, D = Some d → num_rows_ d = num_rows_ H).

Lemma decides_opt {A} (o : option A) (p : A → nat) n msg :
  decides (throw_if (match o with Some x => negb (p x =? n) | None => false end) (InvalidArgument msg))
    (∀ x, o = Some x → p x = n) tt.
Proof.
  eapply decides_iff; [apply decides_throw_if|]. destruct o as [x|]; [|naive_solver].
  rewrite negb_false_iff, Nat.eqb_eq. naive_solver.
Qed.

Lemma validate_model_decides H O (rates : list R) ids D :
  decides (validate_model H O rates ids D) (model_consistent H O rates ids D) tt.
Proof.
  unfold validate_model, model_consistent.
  eapply decides_bind; [apply (decides_opt O num_cols_)|intros _].
  eapply decides_bind; [|intros _].
  { eapply decides_iff; [apply decides_throw_if|].
    rewrite andb_false_iff, !negb_false_iff, !Nat.eqb_eq. destruct rates; naive_solver. }
  eapply decides_bind; [apply (decides_opt ids length)|intros _].
  apply (decides_opt D num_rows_).
Qed.

(** C36. [make_matrix_state] accepts exactly the inputs whose sizes agree (the
    columns of O, the rates, the error ids with the columns of H, the rows of
    D with the rows of H), storing H by columns and O and D by rows with the
    same entries, and throws [std::invalid_argument] otherwise. *)
Theorem make_matrix_state_decides H O (rates : list R) ids D hs os ds :
  wf H hs → opt_wf O os → opt_wf D ds →
  decides (make_matrix_state H O rates ids D) (model_consistent H O rates ids D)
    (mk_init (num_rows_ H) (num_cols_ H) (match O with Some o => num_rows_ o | None => 0 end)
       (as_csc H hs) (opt_as_csr O os) rates ids (opt_as_csr D ds)).
Proof.
  intros HH HO HD. unfold make_matrix_state.
  rewrite (to_csc_as H hs HH), (opt_to_csr_as O os HO), (opt_to_csr_as D ds HD). cbn [mbind res_bind].
  eapply decides_iff; [apply (decides_bind _ _ (model_consistent H O rates ids D) True tt)|].
  - eapply decides_iff; [apply validate_model_decides|].
    unfold model_consistent. cbn [num_cols_ num_rows_ as_csc of_groups].
    assert (∀ (M : option sparse_binary_matrix) gs (p : sparse_binary_matrix → nat) n, (∀ m, p (as_csr m gs) = p m) →
      (∀ o, opt_as_csr M gs = Some o → p o = n) ↔ (∀ o, M = Some o → p o = n)) as Hopt.
    { intros [m|] gs p n Hp; cbn; [|done]. split; intros Hm ? [= <-]; rewrite <-(Hm _ eq_refl), ?Hp; done. }
    rewrite (Hopt O os num_cols_), (Hopt D ds num_rows_) by done. done.
  - replace (match opt_as_csr O os with Some o => num_rows_ o | None => 0 end)
      with (match O with Some o => num_rows_ o | None => 0 end) by (by destruct O).
    by left.
  - tauto.
Qed.
End inputs.

(** A two-detector, three-mechanism model with one observable. *)
Definition example_H : sparse_binary_matrix := of_groups csr 2 3 [[0; 1]; [1; 2]].
Definition example_O : sparse_binary_matrix := of_groups csr 1 3 [[0; 2]].
Definition example_D : sparse_binary_matrix := of_groups csr 2 4 [[0; 2]; [1; 2; 3]].

Lemma make_matrix_state_decides_witness :
  model_consistent example_H (Some example_O) [1#2; 1#3; 1#4]%Q None (Some example_D) ∧
  returns (make_matrix_state example_H (Some example_O) [1#2; 1#3; 1#4]%Q None (Some example_D))
    (λ i, di_num_detectors i = 2 ∧ layout_ (di_H i) = csc).
Proof.
  assert (model_consistent example_H (Some example_O) [1#2; 1#3; 1#4]%Q None (Some example_D)) as Hc.
  { split_and!; [naive_solver|by right|naive_solver|naive_solver]. }
  split; [done|].
  destruct (make_matrix_state_decides example_H (Some example_O) [1#2; 1#3; 1#4]%Q None (Some example_D)
    [[0; 1]; [1; 2]] [[0; 2]] [[0; 2]; [1; 2; 3]]) as [[_ ->]|[Hn _]].
  - apply (bool_decide_unpack _). vm_compute. exact I.
  - apply (bool_decide_unpack _). vm_compute. exact I.
  - apply (bool_decide_unpack _). vm_compute. exact I.
  - apply returns_ok. split; reflexivity.
  - by destruct Hn.
Defined.

(** ** Shots in pieces *)

(** A shot as a client sends it: several pieces, the last one not empty. *)
Definition cut_shot (n : nat) (pieces : list (list nat)) : Prop :=
  ∃ init last, pieces = init ++ [last] ∧ last ≠ [] ∧ length (concat pieces) = n.
(** Only the call that completes the shot reports a decode. *)
Definition shot_flags (pieces : list (list nat)) : list bool :=
  replicate (length pieces - 1) false ++ [true].

(** The concrete run agrees with an abstract outcome. *)
Definition agrees {D} (rows : list (list nat)) (n : nat) (flags : list bool)
    (run : res (list bool * rt_impl * D)) (outcome : res (list nat * D)) : Prop :=
  match outcome with
  | Ok (corr, ds') => ∃ st', run = Ok (flags, st', ds') ∧ idle rows n st' ∧ corrections st' = corr
  | Throw e => run = Throw e
  | Undef => run = Undef
  end.

Section pieces.
Context {R : Type} (inputs : decoder_init (R := R)) (request : decode_result_type).
Context {D : Type} (decode : list Q → D → res (list Q * D)).

Lemma one_shot rows n pieces st ds :
  Forall (Forall (λ col, col < n)) rows → (Z.of_nat n < 2 ^ 32)%Z → (Z.of_nat (length rows) < 2 ^ 32)%Z →
  idle rows n st → cut_shot n pieces →
  agrees rows n (shot_flags pieces) (enqueue_all inputs request decode pieces st ds)
    (decode_shot inputs request decode rows (concat pieces) (corrections st) ds).
Proof.
  intros Hrows Hn Hfit Hidle (init&last&->&Hlast&Hlen). set (m := concat (init ++ [last])) in *.
  assert (m = concat init ++ last) as Hm by (subst m; rewrite concat_app; cbn; by rewrite app_nil_r).
  destruct (enqueue_init inputs request decode rows n Hrows Hn Hfit m 0 init st ds last)
    as (st1&Hrun&Hat&Hcorr); [by apply idle_shot|done|done|done|].
  rewrite enqueue_all_app, Hrun. cbn [mbind res_bind fst snd enqueue_all]. rewrite Nat.add_0_l in Hat.
  assert (length (concat init) + length last = n) as Hsum by (by rewrite <-Hlen, Hm, length_app).
  pose proof (enqueue_last inputs request decode rows n Hrows Hn Hfit m _ last st1 ds Hat) as Hl.
  unfold agrees. rewrite Hcorr in Hl.
  assert (shot_flags (init ++ [last]) = replicate (length init) false ++ [true]) as Hflags
    by (unfold shot_flags; rewrite length_app; cbn; by rewrite Nat.add_sub).
  destruct (decode_shot _ _ _ _ _ _ _) as [[corr ds']|e|].
  - destruct Hl as (st'&->&?&?); [rewrite Hm at 2; by rewrite take_app_length|done|lia|].
    exists st'. cbn. by rewrite Hflags.
  - rewrite Hl; [done|rewrite Hm at 2; by rewrite take_app_length|done|lia].
  - rewrite Hl; [done|rewrite Hm at 2; by rewrite take_app_length|done|lia].
Qed.

Lemma many_shots rows n shots st ds :
  Forall (Forall (λ col, col < n)) rows → (Z.of_nat n < 2 ^ 32)%Z → (Z.of_nat (length rows) < 2 ^ 32)%Z →
  idle rows n st → Forall (cut_shot n) shots →
  agrees rows n (concat (shot_flags <$> shots)) (enqueue_all inputs request decode (concat shots) st ds)
    (run_shots inputs request decode rows (@concat nat <$> shots) (corrections st) ds).
Proof.
  intros Hrows Hn Hfit Hidle Hshots. revert st ds Hidle.
  induction Hshots as [|pieces shots Hcut Hshots IH]; intros st ds Hidle.
  { cbn. by exists st. }
  cbn [fmap list_fmap concat run_shots]. rewrite enqueue_all_app.
  pose proof (one_shot rows n pieces st ds Hrows Hn Hfit Hidle Hcut) as H1.
  destruct (decode_shot _ _ _ _ _ _ _) as [[corr ds1]|e|]; cbn [agrees mbind res_bind fst snd] in *;
    [|by rewrite H1..].
  destruct H1 as (st1&->&Hidle1&<-). cbn [mbind res_bind fst snd].
  specialize (IH st1 ds1 Hidle1). unfold agrees in *.
  destruct (run_shots _ _ _ _ _ _ _) as [[corr ds2]|e|]; [|by rewrite IH..].
  destruct IH as (st2&->&?&?). exists st2. done.
Qed.

Lemma make_decoder_idle d gs :
  di_D inputs = Some d → wf d gs → num_rows_ d = di_num_detectors inputs →
  returns (make_decoder inputs) (λ st,
    idle (rows_of_matrix d gs) (num_cols_ d) st ∧ corrections st = replicate (di_num_observables inputs) 0).
Proof.
  intros Hd Hwf Hnum. unfold make_decoder. rewrite Hd, (to_nested_csr_spec d gs Hwf).
  cbn [mbind res_bind]. apply returns_ok. split; [|done].
  destruct (rows_of_matrix_ok d gs Hwf) as [Hlen _].
  split; cbn; rewrite ?length_replicate; done || congruence.
Qed.

(** C7. A decoder constructed from a model with a measurement-to-detector
    matrix D and then fed shots cut into pieces in any way refines the
    whole-shot decoder: the plugin's [decode] sees, once per shot, exactly the
    product of D with that shot's measurements (no stale bit of the pieces'
    grouping or of an earlier shot), only the completing call reports a
    decode, exceptions are those of the whole-shot decoder, and the
    corrections and the plugin's state are the same. *)
Theorem enqueue_refines_whole_shots d gs shots ds :
  di_D inputs = Some d → wf d gs → num_rows_ d = di_num_detectors inputs →
  Forall (cut_shot (num_cols_ d)) shots →
  returns (make_decoder inputs) (λ st,
    agrees (rows_of_matrix d gs) (num_cols_ d) (concat (shot_flags <$> shots))
      (enqueue_all inputs request decode (concat shots) st ds)
      (run_shots inputs request decode (rows_of_matrix d gs) (@concat nat <$> shots)
         (replicate (di_num_observables inputs) 0) ds)).
Proof.
  intros Hd Hwf Hnum Hshots. eapply returns_mono; [by apply (make_decoder_idle d gs)|].
  intros st [Hidle <-]. destruct (rows_of_matrix_ok d gs Hwf) as [Hlen Hb].
  apply many_shots; [done|by apply Hwf|rewrite Hlen; by apply Hwf|done|done].
Qed.
End pieces.

(** One detector per measurement pair; the plugin counts its calls and reports
    the first mechanism when the first detector fired. *)
Definition example_inputs : decoder_init (R := Q) :=
  mk_init 2 3 1 example_H (Some example_O) [1#2; 1#3; 1#4]%Q None (Some example_D).
Definition example_decode (s : list Q) (calls : nat) : res (list Q * nat) :=
  v ← vget s 0;
  Ok ([v; 0; 0]%Q, S calls).

Lemma enqueue_refines_whole_shots_witness :
  run_shots example_inputs errors example_decode [[0; 2]; [1; 2; 3]]
    [[1; 0; 0; 1]; [0; 1; 0; 1]] [0] 0 = Ok ([1], 2) ∧
  returns (make_decoder example_inputs) (λ st,
    ∃ st', enqueue_all example_inputs errors example_decode
      [[1]; [0; 0]; [1]; [0; 1; 0; 1]] st 0 = Ok ([false; false; true; true], st', 2) ∧
      corrections st' = [1]).
Proof.
  split; [reflexivity|].
  eapply returns_mono.
  - apply (enqueue_refines_whole_shots example_inputs errors example_decode example_D
      [[0; 2]; [1; 2; 3]] [[[1]; [0; 0]; [1]]; [[0; 1; 0; 1]]] 0).
    + reflexivity.
    + apply (bool_decide_unpack _). vm_compute. exact I.
    + reflexivity.
    + constructor; [exists [[1]; [0; 0]], [1]; done|]. constructor; [exists [], [0; 1; 0; 1]; done|constructor].
  - intros st (st'&Hrun&_&Hc). exists st'. split; [exact Hrun|exact Hc].
Defined.

(** ** From error frames to observables *)

Definition fired (v : Q) : bool := negb (Qeq_bool v 0).
(** Whether an odd number of the mechanisms of [row] fired. *)
Definition frame_parity (vals : list Q) (row : list nat) : bool :=
  foldl (λ p e, xorb p (fired (default 0%Q (vals !! e)))) false row.
Definition flip_if (b : bool) (c : nat) : nat := if b then Nat.lxor c 1 else c.
Definition flips (ps : list bool) (corr : list nat) : list nat := zip_with flip_if ps corr.
(** A hard frame holds only 0 and 1. *)
Definition hard_frame (vals : list Q) : Prop := Forall (λ v, v = 0%Q ∨ v = 1%Q) vals.

Lemma flip_if_xorb a b c : flip_if (xorb a b) c = flip_if b (flip_if a c).
Proof.
  unfold flip_if. destruct a, b; cbn [xorb]; try done. by rewrite Nat.lxor_assoc, Nat.lxor_nilpotent, Nat.lxor_0_r.
Qed.

Lemma flip_correction_ok i c corr :
  corr !! i = Some c → flip_correction i corr = Ok (<[i:=Nat.lxor c 1]> corr).
Proof.
  intros Hc. unfold flip_correction. rewrite (vget_ok _ _ _ Hc). cbn.
  apply vset_ok. by eapply lookup_lt_Some.
Qed.

Lemma flip_loop (step : nat → list nat → res (list nat)) ps corr :
  length ps = length corr →
  (∀ i b c cs, ps !! i = Some b → cs !! i = Some c → step i cs = Ok (<[i:=flip_if b c]> cs)) →
  for_u 0 (length corr) step corr = Ok (flips ps corr).
Proof.
  intros Hlen Hstep.
  destruct (for_u_inv 0 (length corr) step
    (λ k cs, cs = flips (take k ps) (take k corr) ++ drop k corr) corr) as (cs&->&->);
    [lia|done| |].
  - intros k cs Hk ->. destruct (lookup_lt_is_Some_2 ps k) as [b Hb]; [lia|].
    destruct (lookup_lt_is_Some_2 corr k) as [c Hc]; [lia|].
    assert (length (flips (take k ps) (take k corr)) = k) as Hfl
      by (unfold flips; rewrite length_zip_with, !length_take; lia).
    rewrite (drop_S corr c k Hc). rewrite (Hstep k b c); [|done|].
    + apply returns_ok. rewrite insert_app_r_alt by lia. rewrite Hfl, Nat.sub_diag. cbn [insert list_insert].
      rewrite Nat.add_1_r, (take_S_r ps k b), (take_S_r corr k c) by done. unfold flips in *.
      rewrite zip_with_app by (rewrite !length_take; lia). cbn. by rewrite <-app_assoc.
    + rewrite lookup_app_r by lia. by rewrite Hfl, Nat.sub_diag.
  - by rewrite !take_ge, drop_ge, app_nil_r by lia.
Qed.

Section frames.
Context {R : Type} (inputs : decoder_init (R := R)) (o : sparse_binary_matrix) (gs : list (list nat)).
Hypothesis has_o : di_O inputs = Some o.
Hypothesis o_wf : wf o gs.
Hypothesis o_csr : layout_ o = csr.
Hypothesis o_rows : num_rows_ o = di_num_observables inputs.

Lemma o_groups : length gs = num_rows_ o.
Proof using All.
  rewrite (wf_num_groups o gs o_wf). unfold num_groups, is_csc. by rewrite o_csr.
Qed.

Lemma row_mechanisms i row (vals : list Q) :
  gs !! i = Some row → length vals = num_cols_ o → Forall (λ e, is_Some (vals !! e)) row.
Proof using All.
  intros Hrow Hlen. pose proof (wf_bound o gs o_wf) as Hb. unfold index_bound in Hb.
  assert (is_csc o = false) as Ec by (unfold is_csc; by rewrite o_csr).
  rewrite Ec, Forall_forall in Hb.
  eapply Forall_impl; [by eapply Hb, list_elem_of_lookup_2|].
  intros e He. apply lookup_lt_is_Some. cbn in He. lia.
Qed.

Lemma apply_errors vals corr :
  length vals = num_cols_ o → length corr = num_rows_ o →
  apply_result inputs errors vals corr = Ok (flips (frame_parity vals <$> gs) corr).
Proof using All.
  intros Hvals Hcorr. unfold apply_result, has_observable_model, observable_flips_matrix.
  rewrite has_o. cbn [negb throw_if mbind res_bind]. rewrite <-o_rows, <-Hcorr.
  pose proof o_groups. apply flip_loop; [rewrite length_fmap; lia|].
  intros i b c cs (row&->&Hrow)%list_lookup_fmap_Some Hc. rewrite (for_group o gs i row) by (done || apply o_wf).
  pose proof (row_mechanisms i row vals Hrow Hvals) as Hm. unfold frame_parity.
  change c with (flip_if false c) in Hc. generalize dependent false.
  clear Hrow. revert cs. induction Hm as [|e row (v&Hv) Hm IH]; intros cs a Ha; cbn [foldM foldl].
  { by rewrite list_insert_id. }
  rewrite (vget_ok _ _ _ Hv), Hv. cbn [mbind res_bind default from_option id]. fold (fired v).
  destruct (fired v) eqn:Hf; cbn [mbind res_bind].
  - rewrite (flip_correction_ok _ _ _ Ha). cbn [mbind res_bind].
    change (Nat.lxor (flip_if a c) 1) with (flip_if true (flip_if a c)). rewrite <-flip_if_xorb.
    rewrite (IH _ (xorb a true)).
    + by rewrite list_insert_insert_eq.
    + apply list_lookup_insert_eq. by eapply lookup_lt_Some.
  - rewrite xorb_false_r. by apply IH.
Qed.

Lemma hard_fired v : v = 0%Q ∨ v = 1%Q → convert_soft_to_hard v = fired v.
Proof. by intros [-> | ->]. Qed.

Definition as_values (ps : list bool) : list Q := (λ b : bool, if b then 1%Q else 0%Q) <$> ps.

Lemma project_hard vals :
  length vals = num_cols_ o → hard_frame vals →
  project_errors_to_observables inputs vals (num_rows_ o) = Ok (as_values (frame_parity vals <$> gs)).
Proof using All.
  intros Hvals Hhard. unfold project_errors_to_observables, has_observable_model, observable_flips_matrix.
  rewrite has_o. cbn [negb throw_if mbind res_bind]. pose proof o_groups as Hg.
  rewrite <-Hg. assert (length (as_values (frame_parity vals <$> gs)) = length gs) as <-
    by (unfold as_values; by rewrite !length_fmap).
  apply fill_loop. intros i x out (b&->&(row&->&Hrow)%list_lookup_fmap_Some)%list_lookup_fmap_Some.
  pose proof (row_mechanisms i row vals Hrow Hvals) as Hm.
  assert (∀ (k : bool → res (list Q)),
    (lo ← vget (ptr_ o) i; hi ← vget (ptr_ o) (i + 1);
     parity ← for_u lo hi (λ pos parity, e ← vget (indices_ o) pos; v ← vget vals e;
       Ok (xorb parity (convert_soft_to_hard v))) false; k parity) = k (frame_parity vals row)) as ->; [|done].
  intros k. transitivity (p ← foldM (λ e parity, v ← vget vals e; Ok (xorb parity (convert_soft_to_hard v))) row false; k p).
  { rewrite <-(for_group o gs i row _ _ (wf_rep _ _ o_wf) Hrow). destruct (vget _ i); [|done..]. cbn [mbind res_bind]. by destruct (vget _ (i + 1)). }
  unfold frame_parity.
  rewrite (foldM_pure _ (λ p e, xorb p (fired (default 0%Q (vals !! e))))); [done|].
  intros e p He. rewrite Forall_forall in Hm. destruct (Hm e He) as [v Hv].
  rewrite (vget_ok _ _ _ Hv), Hv. cbn. rewrite hard_fired; [done|].
  unfold hard_frame in Hhard. rewrite Forall_forall in Hhard. by eapply Hhard, list_elem_of_lookup_2.
Qed.

Lemma apply_observables ps corr :
  length ps = num_rows_ o → length corr = num_rows_ o →
  apply_result inputs observables (as_values ps) corr = Ok (flips ps corr).
Proof using All.
  intros Hps Hcorr. unfold apply_result. rewrite <-o_rows, <-Hcorr. apply flip_loop; [lia|].
  intros i b c cs Hb Hc. unfold as_values.
  rewrite (vget_ok _ i (if b then 1%Q else 0%Q)) by (by rewrite list_lookup_fmap, Hb). cbn [mbind res_bind].
  destruct b; cbn; [by apply flip_correction_ok|by rewrite list_insert_id].
Qed.

(** For a hard error frame of the model's size, the corrections applied on
    the error-frame path flip exactly the observables in whose row of O an odd
    number of mechanisms fired, and they are those of projecting the frame
    with [project_errors_to_observables] and applying the observable-frame
    path. *)
Theorem error_frame_projects vals corr :
  length vals = num_cols_ o → length corr = num_rows_ o → hard_frame vals →
  ∃ obs, project_errors_to_observables inputs vals (num_rows_ o) = Ok obs ∧
    apply_result inputs errors vals corr = apply_result inputs observables obs corr ∧
    apply_result inputs errors vals corr = Ok (flips (frame_parity vals <$> gs) corr).
Proof using All.
  intros Hvals Hcorr Hhard. exists (as_values (frame_parity vals <$> gs)).
  split_and!; [by apply project_hard| |by apply apply_errors].
  rewrite apply_errors by done. symmetry. apply apply_observables; [|done].
  rewrite length_fmap. apply o_groups.
Qed.
End frames.

Lemma error_frame_projects_witness :
  frame_parity [1; 1; 0]%Q [0; 2] = true ∧
  apply_result example_inputs errors [1; 1; 0]%Q [0] = Ok [1].
Proof.
  split; [reflexivity|].
  destruct (error_frame_projects example_inputs example_O [[0; 2]] eq_refl) with (vals := [1; 1; 0]%Q) (corr := [0])
    as (obs&_&_&H).
  - apply (bool_decide_unpack _). vm_compute. exact I.
  - reflexivity.
  - reflexivity.
  - reflexivity.
  - reflexivity.
  - unfold hard_frame. repeat constructor; (by left) || (by right).
  - exact H.
Defined.
