(* ===== verification/HetMap.v ===== *)
(** * Heterogeneous maps

    Model of [heterogeneous_map] (libs/core/include/cuda-qx/core/
    heterogeneous_map.h): a map from strings to [std::any] values, read back
    at a requested type or at one of its related types (type_traits.h).  The
    value types are those the modelled code stores; floating-point values are
    opaque. *)

From stdpp Require Import strings.
From S2P Require Import Prelude.

(** The types a value can be requested at. *)
Inductive ty := t_bool | t_int | t_long | t_size | t_short | t_string | t_charptr | t_map | t_other.
#[global] Instance ty_eq_dec : EqDecision ty.
Proof. solve_decision. Defined.

Inductive any :=
  | AnyBool (b : bool)
  | AnyInt (z : Z)
  | AnyLong (z : Z)
  | AnySize (z : Z)
  | AnyShort (z : Z)
  | AnyString (s : string)
  | AnyCharPtr (s : string)
  | AnyMap (items : list (string * any))
  | AnyOther.

Abbreviation heterogeneous_map := (list (string * any)).

Definition type_of (v : any) : ty :=
  match v with
  | AnyBool _ => t_bool | AnyInt _ => t_int | AnyLong _ => t_long | AnySize _ => t_size
  | AnyShort _ => t_short | AnyString _ => t_string | AnyCharPtr _ => t_charptr
  | AnyMap _ => t_map | AnyOther => t_other
  end.

(** [RelatedTypesMap], in the order of its tuples. *)
Definition related (t : ty) : list ty :=
  match t with
  | t_bool => [t_int; t_long; t_size]
  | t_int => [t_size; t_long; t_short]
  | t_size => [t_int; t_long; t_short]
  | t_long => [t_int; t_size; t_short]
  | t_short => [t_int; t_long; t_size]
  | t_string => [t_charptr]
  | _ => []
  end.

(** Integral values; conversions are modular. *)
Definition integer_of (v : any) : option Z :=
  match v with
  | AnyBool b => Some (Z.b2z b)
  | AnyInt z | AnyLong z | AnySize z | AnyShort z => Some z
  | _ => None
  end.
Definition signed (w z : Z) : Z := ((z + 2 ^ (w - 1)) mod 2 ^ w - 2 ^ (w - 1))%Z.

(** The implicit conversion of [opt = std::any_cast<el>(...)]. *)
Definition convert (t : ty) (v : any) : any :=
  match t, integer_of v with
  | t_bool, Some z => AnyBool (negb (z =? 0)%Z)
  | t_int, Some z => AnyInt (signed 32 z)
  | t_long, Some z => AnyLong (signed 64 z)
  | t_size, Some z => AnySize (z mod 2 ^ 64)%Z
  | t_short, Some z => AnyShort (signed 16 z)
  | t_string, _ => match v with AnyCharPtr s => AnyString s | _ => v end
  | _, _ => v
  end.

Fixpoint find (m : heterogeneous_map) (key : string) : option any :=
  match m with
  | [] => None
  | (k, v) :: m => if decide (k = key) then Some v else find m key
  end.

Definition contains (m : heterogeneous_map) (key : string) : bool :=
  match find m key with Some _ => true | None => false end.

(** [insert_or_assign]; a [char] array is stored as a string. *)
Fixpoint insert_or_assign (m : heterogeneous_map) (key : string) (v : any) : heterogeneous_map :=
  match m with
  | [] => [(key, v)]
  | (k, x) :: m => if decide (k = key) then (k, v) :: m else (k, x) :: insert_or_assign m key v
  end.

Definition get (t : ty) (m : heterogeneous_map) (key : string) : res any :=
  match find m key with
  | None => Throw (RuntimeError "Invalid key.")
  | Some v =>
      if decide (type_of v = t) then Ok v
      else if decide (type_of v ∈ related t) then Ok (convert t v)
      else Throw (RuntimeError "heterogeneous_map::get() error - Invalid type or key")
  end.

(** [get(key, defaultValue)] *)
Definition get_or (t : ty) (m : heterogeneous_map) (key : string) (dflt : any) : any :=
  match get t m key with Ok v => v | _ => dflt end.

Definition get_int (m : heterogeneous_map) (key : string) : res Z :=
  v ← get t_int m key;
  match v with AnyInt z => Ok z | _ => Undef end.
Definition get_size (m : heterogeneous_map) (key : string) : res nat :=
  v ← get t_size m key;
  match v with AnySize z => Ok (Z.to_nat z) | _ => Undef end.
Definition get_map (m : heterogeneous_map) (key : string) : res heterogeneous_map :=
  v ← get t_map m key;
  match v with AnyMap items => Ok items | _ => Undef end.
Definition get_bool_or (m : heterogeneous_map) (key : string) (dflt : bool) : bool :=
  match get_or t_bool m key (AnyBool dflt) with AnyBool b => b | _ => dflt end.
Definition get_size_or (m : heterogeneous_map) (key : string) (dflt : nat) : nat :=
  match get_or t_size m key (AnySize (Z.of_nat dflt)) with AnySize z => Z.to_nat z | _ => dflt end.
Definition get_string_or (m : heterogeneous_map) (key : string) (dflt : string) : string :=
  match get_or t_string m key (AnyString dflt) with AnyString s => s | _ => dflt end.
Definition get_map_or (m : heterogeneous_map) (key : string) (dflt : heterogeneous_map)
    : heterogeneous_map :=
  match get_or t_map m key (AnyMap dflt) with AnyMap items => items | _ => dflt end.

(** The overloads over several keys: the first key that yields a value. *)
Fixpoint get_keys (t : ty) (m : heterogeneous_map) (keys : list string) : res any :=
  match keys with
  | [] => Throw (RuntimeError "heterogeneous_map::get(keys) error - Invalid keys")
  | key :: keys => match get t m key with Ok v => Ok v | _ => get_keys t m keys end
  end.
Fixpoint get_keys_or (t : ty) (m : heterogeneous_map) (keys : list string) (dflt : any) : any :=
  match keys with
  | [] => dflt
  | key :: keys => match get t m key with Ok v => v | _ => get_keys_or t m keys dflt end
  end.
Definition contains_any (m : heterogeneous_map) (keys : list string) : bool := existsb (contains m) keys.

(** ** Facts *)

(** Values a variable of the type can hold. *)
Definition in_range (t : ty) (z : Z) : Prop :=
  match t with
  | t_int => (- 2 ^ 31 ≤ z < 2 ^ 31)%Z
  | t_long => (- 2 ^ 63 ≤ z < 2 ^ 63)%Z
  | t_size => (0 ≤ z < 2 ^ 64)%Z
  | t_short => (- 2 ^ 15 ≤ z < 2 ^ 15)%Z
  | _ => False
  end.

Lemma find_insert m k v k' :
  find (insert_or_assign m k v) k' = if decide (k = k') then Some v else find m k'.
Proof.
  induction m as [|[k0 x] m IH]; cbn; [done|].
  destruct (decide (k0 = k)) as [->|Hne]; cbn; [by case_decide|].
  rewrite IH. repeat case_decide; congruence.
Qed.

Lemma signed_id w z : (0 < w)%Z → (- 2 ^ (w - 1) ≤ z < 2 ^ (w - 1))%Z → signed w z = z.
Proof.
  intros Hw Hz. unfold signed.
  assert (2 ^ w = 2 ^ (w - 1) + 2 ^ (w - 1))%Z as Hp
    by (replace w with (Z.succ (w - 1)) at 1 by lia; rewrite Z.pow_succ_r by lia; lia).
  rewrite Z.mod_small by lia. lia.
Qed.

Lemma convert_in_range t v z :
  integer_of v = Some z → in_range t z → integer_of (convert t v) = Some z.
Proof.
  intros Hv Hr. unfold convert. destruct t; try done; rewrite Hv; cbn in *.
  - by rewrite signed_id by lia.
  - by rewrite signed_id by lia.
  - by rewrite Z.mod_small by lia.
  - by rewrite signed_id by lia.
Qed.

(** A value read back at the type it was stored with is the value
    stored, whatever was stored under the key before; other keys are not
    affected; and an integer read at a related integral type that can hold it
    keeps its value. *)
Theorem get_after_insert m k v :
  get (type_of v) (insert_or_assign m k v) k = Ok v ∧
  (∀ t k', k ≠ k' → get t (insert_or_assign m k v) k' = get t m k') ∧
  (∀ t z, integer_of v = Some z → in_range t z → type_of v ∈ related t →
     returns (get t (insert_or_assign m k v) k) (λ w, integer_of w = Some z)).
Proof.
  unfold get. split_and!.
  - rewrite find_insert, decide_True by done. by rewrite decide_True.
  - intros t k' Hne. by rewrite find_insert, decide_False.
  - intros t z Hv Hr Ht. rewrite find_insert, decide_True by done.
    case_decide; [by apply returns_ok|]. rewrite decide_True by done.
    apply returns_ok. by apply convert_in_range.
Qed.
