(* ===== verification/Lut.v ===== *)
(** * The lookup-table decoder

    Model of [multi_error_lut] (libs/qec/lib/decoders/lut.cpp): a table from
    syndromes to error lists, filled at construction by enumerating every set
    of at most [lut_error_depth] errors with [std::prev_permutation] on a
    bitmask, and a decode that looks the syndrome up.  The binomial guard is
    evaluated exactly rather than through [std::beta]; the time a decode takes
    is a parameter. *)

From Stdlib Require Import QArith Ascii.
From stdpp Require Import gmap strings.
From S2P Require Import Prelude Tensor SparseMatrix Rates HetMap DetectorErrorModel Decoder.

Open Scope nat_scope.

Section lut.
Context {R : Type} `{RateOps R}.

Record lut_entry := mk_entry {
  error_list : list nat;
  entry_p : R
}.

Record multi_error_lut := mk_lut {
  lut_inputs : decoder_init (R := R);
  lut_request : decode_result_type;
  error_signatures : gmap (list ascii) lut_entry;
  lut_error_depth : nat;
  has_opt_results : bool;
  opt_error_probability : bool;
  opt_syndrome_weight : bool;
  opt_decoding_time : bool
}.

(** [std::prev_permutation]: the previous permutation in lexicographic order,
    none from the first one. *)
Fixpoint last_smaller (x : nat) (l : list nat) : option nat :=
  match l with
  | [] => None
  | y :: t =>
      match last_smaller x t with
      | Some i => Some (S i)
      | None => if y <? x then Some 0 else None
      end
  end.
Fixpoint prev_permutation (l : list nat) : option (list nat) :=
  match l with
  | [] => None
  | x :: t =>
      match prev_permutation t with
      | Some t' => Some (x :: t')
      | None =>
          match last_smaller x t with
          | None => None
          | Some j =>
              match t !! j with
              | Some y => Some (y :: rev (<[j:=x]> t))
              | None => None
              end
          end
      end
  end.

Definition zero_char : ascii := "0".
Definition one_char : ascii := "1".
Definition toggle_char (c : ascii) : ascii := if decide (c = one_char) then zero_char else one_char.

Definition toggleSynForError (H_e2d : list (list nat)) (err_sig : list ascii) (qErr : nat)
    : res (list ascii) :=
  col ← vget H_e2d qErr;
  foldM (λ r err_sig, c ← vget err_sig r; vset err_sig r (toggle_char c)) col err_sig.

(** The body of the loop over one bitmask. *)
Definition scan_mask (H_e2d : list (list nat)) (syndrome_size block_size : nat) (error_rate_vec : list R)
    (bitmask : list nat) : res (list ascii * list nat * R) :=
  for_u 0 block_size (λ qErr st,
    let '(err_sig, errs, p) := st in
    b ← vget bitmask qErr;
    if b =? 0 then Ok st else
    err_sig ← toggleSynForError H_e2d err_sig qErr;
    p ← (if qErr <? length error_rate_vec then r ← vget error_rate_vec qErr; Ok (rate_mul p r) else Ok p);
    Ok (err_sig, errs ++ [qErr], p))
    (replicate syndrome_size zero_char, [], rate_one).

Definition add_mask (H_e2d : list (list nat)) (syndrome_size block_size : nat) (error_rate_vec : list R)
    (bitmask : list nat) (table : gmap (list ascii) lut_entry) : res (gmap (list ascii) lut_entry) :=
  r ← scan_mask H_e2d syndrome_size block_size error_rate_vec bitmask;
  let '(err_sig, errs, p) := r in
  Ok (match table !! err_sig with
      | Some _ => table
      | None => <[err_sig := mk_entry errs p]> table
      end).

(** [do { ... } while (std::prev_permutation(bitmask))]; a mask of [n] bits has
    fewer than [2 ^ n] permutations. *)
Fixpoint mask_loop (fuel : nat) (body : list nat → gmap (list ascii) lut_entry → res (gmap (list ascii) lut_entry))
    (bitmask : list nat) (table : gmap (list ascii) lut_entry) : res (gmap (list ascii) lut_entry) :=
  match fuel with
  | 0 => Undef
  | S fuel =>
      table ← body bitmask table;
      match prev_permutation bitmask with
      | Some bitmask => mask_loop fuel body bitmask table
      | None => Ok table
      end
  end.

Definition fill_table (H_e2d : list (list nat)) (syndrome_size block_size : nat) (error_rate_vec : list R)
    (depth : nat) : res (gmap (list ascii) lut_entry) :=
  for_u 1 (depth + 1) (λ k table,
    bitmask ← (if k <=? block_size then Ok (replicate k 1 ++ replicate (block_size - k) 0) else Undef);
    mask_loop (2 ^ block_size) (add_mask H_e2d syndrome_size block_size error_rate_vec) bitmask table) ∅.

(** [1 / ((n + 1) * beta(n - k + 1, k + 1))] *)
Definition binom (n k : nat) : Z :=
  foldl (λ acc i, (acc * (Z.of_nat n - Z.of_nat k + Z.of_nat i)) / Z.of_nat i)%Z 1%Z (seq 1 k).

Definition available_result_types : list string := ["error_probability"; "syndrome_weight"; "decoding_time"].

(** The keys of a map that are not acceptable (decoder.h). *)
Definition validate_config_parameters (config : heterogeneous_map) (acceptable_types : list string)
    : list string :=
  filter (λ key, key ∉ acceptable_types) (fst <$> config).

Definition read_depth (block_size : nat) (params : heterogeneous_map) : res nat :=
  if contains params "lut_error_depth" then
    depth ← get_int params "lut_error_depth";
    _ ← throw_if (depth <? 1)%Z (RuntimeError "lut_error_depth must be >= 1");
    _ ← throw_if (Z.of_nat block_size <? depth)%Z (RuntimeError "lut_error_depth must be <= block_size");
    Ok (Z.to_nat depth)
  else Ok 1.

Definition validate_rates (block_size : nat) (error_rate_vec : list R) : res unit :=
  if length error_rate_vec =? 0 then Ok tt else
  _ ← throw_if (negb (length error_rate_vec =? block_size))
        (RuntimeError "error_rate_vec must be of size block_size");
  foldM (λ error_rate _, throw_if (rate_ltb error_rate rate_zero || rate_ltb rate_one error_rate)
    (RuntimeError "error_rate_vec value is out of range [0, 1]")) error_rate_vec tt.

(** The requested optional outputs: (any, probability, weight, time). *)
Definition read_opt_results (params : heterogeneous_map) : res (bool * bool * bool * bool) :=
  if contains params "opt_results" then
    requested ← get_map params "opt_results";
    _ ← throw_if (negb (length (validate_config_parameters requested available_result_types) =? 0))
          (RuntimeError "Requested result types not available in LUT decoder");
    Ok (true, get_bool_or requested "error_probability" false,
        get_bool_or requested "syndrome_weight" false, get_bool_or requested "decoding_time" false)
  else Ok (false, false, false, false).

Definition make_lut (inputs : decoder_init (R := R)) (request : decode_result_type)
    (has_auxiliary_outputs : bool) (params : heterogeneous_map) : res multi_error_lut :=
  _ ← throw_if has_auxiliary_outputs (InvalidArgument "lut decoder does not produce auxiliary outputs");
  _ ← throw_if (match request with observables => negb (has_observable_model inputs) | errors => false end)
        (InvalidArgument "lut decoder was constructed for observable output but its model supplies no observable mapping");
  let block_size := di_num_error_mechanisms inputs in
  depth ← read_depth block_size params;
  _ ← validate_rates block_size (di_rates inputs);
  _ ← throw_if (1000000000 <? binom block_size depth)%Z
        (RuntimeError "lut_error_depth is too large for LUT decoder");
  opt ← read_opt_results params;
  let '(has_opt, error_probability, syndrome_weight, decoding_time) := opt in
  H_e2d ← to_nested_csc (di_H inputs);
  table ← fill_table H_e2d (di_num_detectors inputs) block_size (di_rates inputs) depth;
  Ok (mk_lut inputs request table depth has_opt error_probability syndrome_weight decoding_time).

Record lut_opt_results := mk_opt {
  or_error_probability : option R;
  or_syndrome_weight : option nat;
  or_decoding_time : option R
}.
Record decoder_result := mk_result {
  converged : bool;
  result : list Q;
  opt_results : option lut_opt_results
}.

(** [finish]: project when the instance returns observables. *)
Definition finish (lut : multi_error_lut) (r : decoder_result) : res decoder_result :=
  match lut_request lut with
  | errors => Ok r
  | observables =>
      obs ← project_errors_to_observables (lut_inputs lut) (result r) (di_num_observables (lut_inputs lut));
      Ok (mk_result (converged r) obs (opt_results r))
  end.

(** The syndrome as text, and its weight. *)
Definition syndrome_text (syndrome_size : nat) (syndrome : list Q) : res (list ascii * nat) :=
  for_u 0 syndrome_size (λ i st,
    v ← vget syndrome i;
    if convert_soft_to_hard v then
      s ← vset st.1 i one_char;
      Ok (s, st.2 + 1)
    else Ok st) (replicate (length syndrome) zero_char, 0).

Definition lut_decode (lut : multi_error_lut) (elapsed : R) (syndrome : list Q) : res decoder_result :=
  let inputs := lut_inputs lut in
  _ ← throw_if (negb (length syndrome =? di_num_detectors inputs))
        (InvalidArgument "Syndrome has the wrong length for this decoder");
  text ← syndrome_text (di_num_detectors inputs) syndrome;
  let '(syndrome_str, weight) := text in
  let zero := replicate (di_num_error_mechanisms inputs) 0%Q in
  if weight =? 0 then finish lut (mk_result true zero None) else
  let it := error_signatures lut !! syndrome_str in
  frame ← (match it with
           | Some entry => foldM (λ qErr frame, v ← vget frame qErr; vset frame qErr (1 - v)%Q)
                             (error_list entry) zero
           | None => Ok zero
           end);
  let opt := if has_opt_results lut then
      Some (mk_opt (if opt_error_probability lut
                    then Some (match it with Some entry => entry_p entry | None => rate_zero end) else None)
              (if opt_syndrome_weight lut then Some weight else None)
              (if opt_decoding_time lut then Some elapsed else None))
    else None in
  finish lut (mk_result (match it with Some _ => true | None => false end) frame opt).
End lut.
