(* ===== verification/LutProps.v ===== *)
(** * Enumeration of error sets and the content of the lookup table *)

From Stdlib Require Import QArith Ascii.
From stdpp Require Import gmap strings.
From S2P Require Import Prelude Ordering Tensor SparseMatrix SparseFacts SparseCanon Rates HetMap DetectorErrorModel DemFacts Decoder Lut SparseProps DecoderProps.

Open Scope nat_scope.

(** ** All masks of [n] bits with [k] ones, in decreasing order *)

Fixpoint masks (n k : nat) : list (list nat) :=
  match n, k with
  | _, 0 => [replicate n 0]
  | 0, S _ => []
  | S n', S k' => (cons 1 <$> masks n' k') ++ (cons 0 <$> masks n' (S k'))
  end.

Definition first_mask (n k : nat) : list nat := replicate k 1 ++ replicate (n - k) 0.
Definition last_mask (n k : nat) : list nat := replicate (n - k) 0 ++ replicate k 1.

(** A list of masks each of which is followed by its predecessor. *)
Fixpoint chain (l : list (list nat)) : Prop :=
  match l with
  | [] => True
  | x :: t => match t with [] => prev_permutation x = None | y :: _ => prev_permutation x = Some y end ∧ chain t
  end.

Lemma last_smaller_zeros a b : last_smaller 1 (replicate a 0 ++ replicate b 1) = match a with 0 => None | S a' => Some a' end.
Proof.
  induction a as [|a IH]; cbn.
  - induction b as [|b IHb]; cbn; [done|]. by rewrite IHb.
  - rewrite IH. by destruct a.
Qed.

Lemma last_smaller_0 l : last_smaller 0 l = None.
Proof. induction l as [|y l IH]; cbn; [done|]. by rewrite IH. Qed.

Lemma prev_sorted a b : prev_permutation (replicate a 0 ++ replicate b 1) = None.
Proof.
  induction a as [|a IH]; cbn.
  - induction b as [|b IHb]; cbn; [done|]. rewrite IHb.
    pose proof (last_smaller_zeros 0 b) as Hz. cbn in Hz. by rewrite Hz.
  - by rewrite IH, last_smaller_0.
Qed.

Lemma rev_replicate {A} n (x : A) : rev (replicate n x) = replicate n x.
Proof. induction n as [|n IH]; [done|]. cbn [replicate rev]. by rewrite IH, <-replicate_S_end. Qed.

(** From the last mask with a leading one to the first with a leading zero. *)
Lemma prev_carry n k : k < n →
  prev_permutation (1 :: last_mask n k) = Some (0 :: first_mask n (S k)).
Proof.
  intros Hk. unfold last_mask, first_mask. cbn [prev_permutation].
  rewrite prev_sorted, last_smaller_zeros.
  destruct (n - k) as [|d] eqn:Hd; [lia|].
  rewrite lookup_app_l by (rewrite length_replicate; lia). rewrite lookup_replicate_2 by lia.
  replace (n - S k) with d by lia. do 2 f_equal. rewrite replicate_S_end, <-app_assoc. cbn [app].
  rewrite insert_app_r_alt, length_replicate, Nat.sub_diag by (rewrite length_replicate; lia).
  cbn. rewrite rev_app_distr. cbn. rewrite !rev_replicate, <-app_assoc. cbn. f_equal.
  change (replicate k 1 ++ 1 :: replicate d 0) with (replicate k 1 ++ [1] ++ replicate d 0).
  by rewrite app_assoc, <-replicate_S_end.
Qed.

Lemma chain_join b l l' :
  chain l → chain l' → (∀ x, last l = Some x → prev_permutation (b :: x) = head l') →
  chain ((cons b <$> l) ++ l').
Proof.
  intros Hl Hl'. induction l as [|x l IH]; intros Hlast; [done|].
  cbn in Hl. destruct Hl as [Hx Hl]. destruct l as [|y l].
  - specialize (Hlast x eq_refl). cbn [fmap list_fmap app chain]. by destruct l'.
  - cbn [fmap list_fmap app] in *. split; [cbn; by rewrite Hx|]. apply IH; [done|].
    intros z Hz. apply Hlast. done.
Qed.

Lemma masks_more n k : n < k → masks n k = [].
Proof.
  revert k. induction n as [|n IH]; intros k Hk; destruct k as [|k]; [lia|done|lia|].
  cbn. by rewrite !IH by lia.
Qed.

Lemma masks_ends n k : k ≤ n → ∃ l, masks n k = first_mask n k :: l ∧ last (first_mask n k :: l) = Some (last_mask n k).
Proof.
  revert k. induction n as [|n IH]; intros k Hk.
  { destruct k; [|lia]. by exists []. }
  destruct k as [|k].
  { exists []. cbn. unfold first_mask, last_mask. cbn. by rewrite app_nil_r. }
  destruct (IH k) as (l1&H1&Hl1); [lia|]. cbn [masks]. rewrite H1.
  destruct (decide (S k ≤ n)) as [Hle|Hgt].
  - destruct (IH (S k) Hle) as (l2&H2&Hl2). rewrite H2.
    exists ((cons 1 <$> l1) ++ (cons 0 <$> first_mask n (S k) :: l2)). split; [done|].
    change (?x :: ?a ++ ?b) with ((x :: a) ++ b). rewrite last_app, fmap_last, Hl2. cbn.
    unfold last_mask. by replace (n - k) with (S (n - S k)) by lia.
  - rewrite masks_more by lia. assert (k = n) as -> by lia.
    exists (cons 1 <$> l1). rewrite app_nil_r. split; [done|].
    change (first_mask (S n) (S n) :: (cons 1 <$> l1)) with (cons 1 <$> first_mask n n :: l1).
    rewrite fmap_last, Hl1. cbn. unfold last_mask. by rewrite !Nat.sub_diag.
Qed.

Lemma masks_chain n k : chain (masks n k).
Proof.
  revert k. induction n as [|n IH]; intros k; destruct k as [|k]; [done|done| |].
  - cbn [masks chain]. split; [|done]. pose proof (prev_sorted (S n) 0) as Hp. by rewrite app_nil_r in Hp.
  - cbn [masks]. apply chain_join; [done| |].
    + rewrite <-(app_nil_r (cons 0 <$> _)). apply chain_join; [done|done|].
      intros x Hx. destruct (decide (S k ≤ n)) as [Hle|]; [|by rewrite masks_more in Hx by lia].
      destruct (masks_ends n (S k) Hle) as (l&Hm&Hlast). rewrite Hm, Hlast in Hx. injection Hx as <-.
      cbn. unfold last_mask. by rewrite prev_sorted, last_smaller_0.
    + intros x Hx. destruct (decide (k ≤ n)) as [Hle|]; [|by rewrite masks_more in Hx by lia].
      destruct (masks_ends n k Hle) as (l&Hm&Hlast). rewrite Hm, Hlast in Hx. injection Hx as <-.
      destruct (decide (k = n)) as [->|].
      * rewrite masks_more by lia. cbn. unfold last_mask.
        by rewrite prev_sorted, last_smaller_zeros, Nat.sub_diag.
      * rewrite prev_carry by lia. destruct (masks_ends n (S k)) as (l'&->&_); [lia|]. done.
Qed.

Lemma length_masks n k : length (masks n k) ≤ 2 ^ n.
Proof.
  revert k. induction n as [|n IH]; intros [|k]; cbn [masks]; [done|cbn; lia| |].
  - cbn. pose proof (Nat.pow_nonzero 2 n). lia.
  - rewrite length_app, !length_fmap. pose proof (IH k). pose proof (IH (S k)). cbn. lia.
Qed.

Lemma elem_of_masks_S n k x :
  x ∈ masks (S n) k ↔ ∃ t, t ∈ masks n k ∧ x = 0 :: t ∨ ∃ k', k = S k' ∧ t ∈ masks n k' ∧ x = 1 :: t.
Proof.
  destruct k as [|k]; cbn [masks].
  - assert (masks n 0 = [replicate n 0]) as -> by (by destruct n). rewrite list_elem_of_singleton.
    setoid_rewrite list_elem_of_singleton. cbn. naive_solver.
  - rewrite elem_of_app, !list_elem_of_fmap. naive_solver.
Qed.

Lemma length_mask n k x : x ∈ masks n k → length x = n.
Proof.
  revert k x. induction n as [|n IH]; intros k x Hx.
  - destruct k; cbn in Hx; [by apply list_elem_of_singleton in Hx as ->|by apply not_elem_of_nil in Hx].
  - apply elem_of_masks_S in Hx as (t&[[Ht ->]|(k'&_&Ht&->)]); cbn; f_equal; by eapply IH.
Qed.

(** The loop with enough fuel runs its body on every mask, in order. *)
Lemma mask_loop_chain {R} (body : list nat → gmap (list ascii) (lut_entry (R := R)) → res _) fuel x l table :
  chain (x :: l) → length (x :: l) ≤ fuel →
  mask_loop fuel body x table = foldM body (x :: l) table.
Proof.
  revert x l table. induction fuel as [|fuel IH]; intros x l table Hc Hlen; [cbn in Hlen; lia|].
  cbn [mask_loop foldM]. destruct (body x table) as [table'|e|]; [|done..]. cbn [mbind res_bind].
  cbn in Hc. destruct Hc as [Hx Hc]. destruct l as [|y l].
  - by rewrite Hx.
  - rewrite Hx. rewrite (IH y l); [done|done|cbn in *; lia].
Qed.

(** ** Error sets *)

(** The errors of a mask, and the sets of [k] errors among [n]. *)
Definition errors_from (a : nat) (mask : list nat) : list nat :=
  filter (λ q, default 0 (mask !! (q - a)) ≠ 0) (seq a (length mask)).
Definition error_set (n : nat) (e : list nat) : Prop := StronglySorted lt e ∧ Forall (λ q, q < n) e.

Lemma errors_from_cons a b mask :
  errors_from a (b :: mask) = (if b =? 0 then [] else [a]) ++ errors_from (S a) mask.
Proof.
  unfold errors_from. cbn [length seq]. rewrite filter_cons, Nat.sub_diag. cbn [lookup list_lookup default from_option id].
  assert (filter (λ q, default 0 ((b :: mask) !! (q - a)) ≠ 0) (seq (S a) (length mask)) =
          filter (λ q, default 0 (mask !! (q - S a)) ≠ 0) (seq (S a) (length mask))) as ->.
  { apply filter_ext_in. intros q Hq%elem_of_seq. by replace (q - a) with (S (q - S a)) by lia. }
  destruct (Nat.eqb_spec b 0); case_decide; naive_solver.
Qed.

Lemma elem_of_masks n k a e :
  (∃ mask, mask ∈ masks n k ∧ errors_from a mask = e) ↔
  StronglySorted lt e ∧ Forall (λ q, a ≤ q < a + n) e ∧ length e = k.
Proof.
  revert k a e. induction n as [|n IH]; intros k a e.
  - split.
    + intros (mask&Hm&<-). destruct k; cbn in Hm; [|by apply not_elem_of_nil in Hm].
      apply list_elem_of_singleton in Hm as ->. split_and!; constructor.
    + intros (_&Hr&Hlen). destruct e as [|q e]; [|apply Forall_cons in Hr as [? _]; lia].
      destruct k; [|done]. exists []. split; [|done]. by apply list_elem_of_singleton.
  - split.
    + intros (mask&(t&Ht)%elem_of_masks_S&<-).
      assert (∀ k' t, t ∈ masks n k' → let e := errors_from (S a) t in
        StronglySorted lt e ∧ Forall (λ q, S a ≤ q < S a + n) e ∧ length e = k') as Hrec
        by (intros k' t' Ht'; apply IH; by exists t').
      destruct Ht as [[Ht ->]|(k'&->&Ht&->)]; rewrite errors_from_cons; cbn [Nat.eqb app];
        destruct (Hrec _ _ Ht) as (Hs&Hr&Hlen).
      * split_and!; [done| |done]. eapply Forall_impl; [exact Hr|]. cbn; intros; lia.
      * split_and!; [|constructor; [lia|]|cbn; by f_equal].
        -- constructor; [done|]. eapply Forall_impl; [exact Hr|]. cbn; intros; lia.
        -- eapply Forall_impl; [exact Hr|]. cbn; intros; lia.
    + intros (Hs&Hr&Hlen). destruct (decide (a ∈ e)) as [Ha|Ha].
      * destruct e as [|q e]; [by apply not_elem_of_nil in Ha|].
        apply StronglySorted_inv in Hs as [Hs Hq]. apply Forall_cons in Hr as [Hqr Hr].
        assert (q = a) as ->.
        { apply elem_of_cons in Ha as [->|Ha]; [done|]. rewrite Forall_forall in Hq. specialize (Hq a Ha). lia. }
        destruct k as [|k]; [done|]. destruct (proj2 (IH k (S a) e)) as (t&Ht&He).
        { split_and!; [done| |by injection Hlen].
          rewrite Forall_forall in *. intros q Hin. specialize (Hq q Hin). specialize (Hr q Hin). lia. }
        exists (1 :: t). rewrite errors_from_cons, He. split; [|done]. apply elem_of_masks_S. exists t. right. by exists k.
      * destruct (proj2 (IH k (S a) e)) as (t&Ht&He).
        { split_and!; [done| |done]. rewrite Forall_forall in *. intros q Hin. specialize (Hr q Hin).
          assert (q ≠ a) by (intros ->; done). lia. }
        exists (0 :: t). rewrite errors_from_cons, He. split; [|done]. apply elem_of_masks_S. exists t. by left.
Qed.

(** ** Signatures *)

Definition char_of (b : bool) : ascii := if b then one_char else zero_char.
(** The text of the parities of a list of row hits. *)
Definition parities (nd : nat) (hits : list nat) : list ascii :=
  (λ r, char_of (Nat.odd (occ r hits))) <$> seq 0 nd.
Definition hits_of (cols : list (list nat)) (e : list nat) : list nat := e ≫= λ q, default [] (cols !! q).
(** The syndrome of an error set: the product of H with its indicator. *)
Definition signature_of (nd : nat) (cols : list (list nat)) (e : list nat) : list ascii :=
  parities nd (hits_of cols e).

Lemma lookup_parities nd hits r : r < nd → parities nd hits !! r = Some (char_of (Nat.odd (occ r hits))).
Proof. intros Hr. unfold parities. by rewrite list_lookup_fmap, lookup_seq_lt. Qed.

Lemma length_parities nd hits : length (parities nd hits) = nd.
Proof. unfold parities. by rewrite length_fmap, length_seq. Qed.

Lemma parities_nil nd : parities nd [] = replicate nd zero_char.
Proof.
  apply list_eq_same_length with nd; [by rewrite length_replicate|by rewrite length_parities|].
  intros i x y Hi Hx Hy. rewrite lookup_parities in Hx by done. apply lookup_replicate in Hy as [-> _].
  by injection Hx as <-.
Qed.

Lemma toggle_char_of b : toggle_char (char_of b) = char_of (negb b).
Proof. by destruct b. Qed.

Lemma toggle_hits nd hits col :
  Forall (λ r, r < nd) col →
  foldM (λ r s, c ← vget s r; vset s r (toggle_char c)) col (parities nd hits) = Ok (parities nd (hits ++ col)).
Proof.
  intros Hcol. revert hits. induction Hcol as [|r col Hr Hcol IH]; intros hits; cbn [foldM].
  { by rewrite app_nil_r. }
  rewrite (vget_ok _ _ _ (lookup_parities nd hits r Hr)). cbn [mbind res_bind].
  rewrite vset_ok by (by rewrite length_parities). cbn [mbind res_bind].
  change (hits ++ r :: col) with (hits ++ [r] ++ col). rewrite (app_assoc hits).
  rewrite <-(IH (hits ++ [r])). f_equal.
  apply list_eq_same_length with nd; [by rewrite length_parities|by rewrite length_insert, length_parities|].
  intros i y x Hi Hy Hx. rewrite lookup_parities in Hx by done. rewrite occ_app in Hx.
  destruct (decide (i = r)) as [->|Hne].
  - rewrite list_lookup_insert_eq in Hy by (by rewrite length_parities). rewrite toggle_char_of in Hy.
    unfold occ in Hx at 2. cbn in Hx. destruct (Nat.eq_dec r r); [|done].
    rewrite Nat.odd_add in Hx. cbn [Nat.odd Nat.even negb] in Hx. rewrite xorb_true_r in Hx. congruence.
  - rewrite list_lookup_insert_ne, lookup_parities in Hy by done.
    unfold occ in Hx at 2. cbn in Hx. destruct (Nat.eq_dec r i); [congruence|]. rewrite Nat.add_0_r in Hx. congruence.
Qed.

Section table.
Context {R : Type} `{RateOps R} (cols : list (list nat)) (nd : nat) (rates : list R).
Hypothesis cols_ok : Forall (Forall (λ r, r < nd)) cols.
Hypothesis rates_ok : rates = [] ∨ length rates = length cols.

Let n := length cols.

(** The probability stored with an error set. *)
Definition error_probability (e : list nat) : R :=
  foldl (λ p q, match rates !! q with Some r => rate_mul p r | None => p end) rate_one e.

Lemma error_probability_snoc e q :
  error_probability (e ++ [q]) =
    match rates !! q with Some r => rate_mul (error_probability e) r | None => error_probability e end.
Proof using Type. unfold error_probability. by rewrite foldl_app. Qed.

Definition entry_of (e : list nat) : lut_entry := mk_entry e (error_probability e).

Lemma scan_mask_ok mask :
  length mask = n →
  scan_mask cols nd n rates mask =
    Ok (signature_of nd cols (errors_from 0 mask), errors_from 0 mask, error_probability (errors_from 0 mask)).
Proof using All.
  intros Hlen. unfold scan_mask.
  set (upto := λ k, filter (λ q, default 0 (mask !! (q - 0)) ≠ 0) (seq 0 k)).
  assert (errors_from 0 mask = upto n) as -> by (subst upto; unfold errors_from; by rewrite Hlen).
  match goal with |- for_u _ _ ?f _ = _ => set (step := f) end.
  destruct (for_u_inv 0 n step (λ k st, st = (signature_of nd cols (upto k), upto k, error_probability (upto k)))
    (replicate nd zero_char, [], rate_one)) as (st&->&->); [lia| | |done].
  { unfold signature_of. cbn. by rewrite parities_nil. }
  intros q st Hq ->. unfold step.
  destruct (lookup_lt_is_Some_2 mask q) as [b Hb]; [lia|]. rewrite (vget_ok _ _ _ Hb). cbn [mbind res_bind].
  assert (upto (q + 1) = upto q ++ if b =? 0 then [] else [q]) as ->.
  { unfold upto. rewrite seq_app, list.filter_app, Nat.add_0_l. cbn [seq]. rewrite filter_cons, Nat.sub_0_r, Hb. cbn.
    destruct (Nat.eqb_spec b 0); case_decide; naive_solver. }
  destruct (Nat.eqb_spec b 0) as [->|Hb0]; [apply returns_ok; by rewrite app_nil_r|].
  destruct (lookup_lt_is_Some_2 cols q) as [col Hcol]; [lia|].
  unfold toggleSynForError. rewrite (vget_ok _ _ _ Hcol). cbn [mbind res_bind]. unfold signature_of.
  rewrite toggle_hits by (rewrite Forall_forall in cols_ok; by eapply cols_ok, list_elem_of_lookup_2).
  cbn [mbind res_bind].
  assert (hits_of cols (upto q ++ [q]) = hits_of cols (upto q) ++ col) as ->
    by (unfold hits_of; rewrite bind_app; cbn; by rewrite Hcol, app_nil_r).
  assert ((if q <? length rates then r ← vget rates q; Ok (rate_mul (error_probability (upto q)) r)
           else Ok (error_probability (upto q))) = Ok (error_probability (upto q ++ [q]))) as ->; [|by apply returns_ok].
  rewrite error_probability_snoc.
  destruct (Nat.ltb_spec q (length rates)) as [Hlt|Hge].
  - destruct (lookup_lt_is_Some_2 rates q Hlt) as [r Hr]. rewrite (vget_ok _ _ _ Hr), Hr. done.
  - apply lookup_ge_None in Hge. by rewrite Hge.
Qed.

(** The first error set of a list with a given signature. *)
Fixpoint first_with (s : list ascii) (es : list (list nat)) : option (list nat) :=
  match es with
  | [] => None
  | e :: es => if decide (signature_of nd cols e = s) then Some e else first_with s es
  end.

Lemma first_with_app s es es' :
  first_with s (es ++ es') = match first_with s es with Some e => Some e | None => first_with s es' end.
Proof using Type. induction es as [|e es IH]; cbn; [done|]. by case_decide. Qed.

(** The table holds, for every signature, the first error set tried with it. *)
Definition table_of (es : list (list nat)) (table : gmap (list ascii) lut_entry) : Prop :=
  ∀ s, table !! s = entry_of <$> first_with s es.

Lemma add_mask_ok mask es table :
  length mask = n → table_of es table →
  returns (add_mask cols nd n rates mask table) (table_of (es ++ [errors_from 0 mask])).
Proof using All.
  intros Hlen Ht. unfold add_mask. rewrite scan_mask_ok by done. cbn [mbind res_bind]. apply returns_ok.
  intros s. set (e := errors_from 0 mask). rewrite first_with_app. cbn.
  rewrite (Ht (signature_of nd cols e)).
  destruct (first_with (signature_of nd cols e) es) as [e0|] eqn:Hf; cbn.
  - rewrite Ht. case_decide as Hs; [subst s; by rewrite Hf|]. by destruct (first_with s es).
  - destruct (decide (signature_of nd cols e = s)) as [<-|Hne].
    + by rewrite lookup_insert_eq, Hf.
    + rewrite lookup_insert_ne, Ht by done. by destruct (first_with s es).
Qed.

(** The order in which the constructor tries the error sets. *)
Definition tried (k : nat) : list (list nat) := errors_from 0 <$> masks n k.
Definition all_tried (depth : nat) : list (list nat) := seq 1 depth ≫= tried.

Lemma fill_table_ok depth :
  depth ≤ n → returns (fill_table cols nd n rates depth) (table_of (all_tried depth)).
Proof using All.
  intros Hd. unfold fill_table. eapply returns_mono.
  - apply (for_u_inv 1 (depth + 1) _ (λ k, table_of (all_tried (k - 1)))); [lia|intros s; done|].
    intros k table Hk Ht. rewrite (proj2 (Nat.leb_le _ _)) by lia. cbn [mbind res_bind].
    destruct (masks_ends n k) as (l&Hm&_); [lia|]. fold (first_mask n k).
    rewrite (mask_loop_chain _ _ _ l); [|rewrite <-Hm; apply masks_chain|rewrite <-Hm; apply length_masks].
    rewrite <-Hm. eapply returns_mono.
    + apply (foldM_inv _ (λ pre, table_of (all_tried (k - 1) ++ (errors_from 0 <$> pre)))); [by rewrite app_nil_r|].
      intros pre b post t Hsplit Hpre. rewrite fmap_app, app_assoc. apply add_mask_ok; [|done].
      apply (length_mask n k). rewrite Hsplit. set_solver.
    + intros t Ht'. unfold all_tried in *. replace (k + 1 - 1) with ((k - 1) + 1) by lia.
      rewrite seq_app, bind_app. replace (1 + (k - 1)) with k by lia. cbn. by rewrite app_nil_r.
  - intros table. by rewrite Nat.add_sub.
Qed.

(** Error sets are tried by increasing weight, all of them. *)
Lemma elem_of_tried k e : e ∈ tried k ↔ error_set n e ∧ length e = k.
Proof using Type.
  clear cols_ok rates_ok.
  unfold tried, error_set. rewrite list_elem_of_fmap. pose proof (elem_of_masks n k 0 e) as Hm.
  assert ((∃ y, e = errors_from 0 y ∧ y ∈ masks n k) ↔ (∃ y, y ∈ masks n k ∧ errors_from 0 y = e)) as -> by naive_solver.
  rewrite Hm. cbn. assert (Forall (λ q, 0 ≤ q < n) e ↔ Forall (λ q, q < n) e) as ->; [|tauto].
  apply Forall_iff; intros; lia.
Qed.

Lemma elem_of_all_tried depth e : e ∈ all_tried depth ↔ error_set n e ∧ 1 ≤ length e ≤ depth.
Proof using Type.
  clear cols_ok rates_ok.
  unfold all_tried. rewrite list_elem_of_bind. setoid_rewrite elem_of_tried. setoid_rewrite elem_of_seq.
  split; [intros (k&[? <-]&?); split; [done|lia]|]. intros [? ?]. exists (length e). split; [done|lia].
Qed.

Lemma first_with_some s es e :
  first_with s es = Some e → e ∈ es ∧ signature_of nd cols e = s.
Proof using Type.
  clear cols_ok rates_ok.
  induction es as [|e' es IH]; cbn; [done|]. case_decide as Hs; [intros [= ->]; set_solver|]. set_solver.
Qed.
Lemma first_with_none s es : first_with s es = None ↔ ∀ e, e ∈ es → signature_of nd cols e ≠ s.
Proof using Type.
  clear cols_ok rates_ok.
  induction es as [|e' es IH]; cbn; [set_solver|]. case_decide as Hs; [set_solver|]. rewrite IH. set_solver.
Qed.

Lemma first_with_lightest s depth e :
  first_with s (all_tried depth) = Some e →
  ∀ e', error_set n e' → e' ≠ [] → signature_of nd cols e' = s → length e ≤ length e'.
Proof using Type.
  clear cols_ok rates_ok.
  induction depth as [|depth IH]; [done|]. intros Hf e' He' Hne Hs.
  assert (1 ≤ length e') by (destruct e'; [done|cbn; lia]).
  unfold all_tried in Hf. rewrite seq_S, bind_app, first_with_app in Hf.
  change (seq 1 depth ≫= tried) with (all_tried depth) in Hf. cbn in Hf. rewrite app_nil_r in Hf.
  destruct (first_with s (all_tried depth)) as [e0|] eqn:Hf0.
  - injection Hf as ->. by eapply IH.
  - apply first_with_some in Hf as [[_ ->]%elem_of_tried _].
    destruct (decide (length e' ≤ depth)) as [Hle|]; [|lia].
    rewrite first_with_none in Hf0. exfalso. apply (Hf0 e'); [|done]. apply elem_of_all_tried. done.
Qed.
End table.

(** * Properties of the lookup-table decoder *)

(** The hard error frame of an error set, and the text of a syndrome. *)
Definition frame (n : nat) (e : list nat) : list Q :=
  (λ q, if decide (q ∈ e) then 1%Q else 0%Q) <$> seq 0 n.
Definition text_of (s : list Q) : list ascii := (λ v, char_of (convert_soft_to_hard v)) <$> s.

Lemma lookup_frame n e q : q < n → frame n e !! q = Some (if decide (q ∈ e) then 1%Q else 0%Q).
Proof. intros Hq. unfold frame. by rewrite list_lookup_fmap, lookup_seq_lt. Qed.
Lemma length_frame n e : length (frame n e) = n.
Proof. unfold frame. by rewrite length_fmap, length_seq. Qed.
Lemma frame_nil n : frame n [] = replicate n 0%Q.
Proof.
  apply list_eq_same_length with n; [by rewrite length_replicate|by rewrite length_frame|].
  intros q x y Hq Hx Hy. rewrite lookup_frame in Hx by done. apply lookup_replicate in Hy as [-> _].
  rewrite decide_False in Hx by apply not_elem_of_nil. congruence.
Qed.
Lemma frame_hard n e : hard_frame (frame n e).
Proof.
  unfold hard_frame, frame. apply Forall_fmap, Forall_forall. intros q _. cbn. case_decide; [by right|by left].
Qed.

Lemma sorted_nodup e : StronglySorted lt e → NoDup e.
Proof.
  induction 1 as [|q e Hs IH Hq]; constructor; [|done].
  intros Hin. rewrite Forall_forall in Hq. specialize (Hq q Hin). lia.
Qed.

(** [result\[q\] = 1 - result\[q\]] over an error set without repetitions. *)
Lemma write_frame n e :
  NoDup e → Forall (λ q, q < n) e →
  foldM (λ q f, v ← vget f q; vset f q (1 - v)%Q) e (replicate n 0%Q) = Ok (frame n e).
Proof.
  intros Hnd Hlt. rewrite <-frame_nil.
  cut (∀ acc, (∀ q, q ∈ acc → q ∉ e) →
    foldM (λ q f, v ← vget f q; vset f q (1 - v)%Q) e (frame n acc) = Ok (frame n (acc ++ e))).
  { intros Hc. by rewrite (Hc []) by set_solver. }
  induction e as [|q e IH]; intros acc Hacc; cbn [foldM]; [by rewrite app_nil_r|].
  apply NoDup_cons in Hnd as [Hq Hnd]. apply Forall_cons in Hlt as [Hqn Hlt].
  rewrite (vget_ok _ _ _ (lookup_frame n acc q Hqn)). rewrite decide_False by set_solver. cbn [mbind res_bind].
  rewrite vset_ok by (by rewrite length_frame). cbn [mbind res_bind].
  change (acc ++ q :: e) with (acc ++ [q] ++ e). rewrite (app_assoc acc).
  rewrite <-(IH Hnd Hlt (acc ++ [q])) by set_solver. f_equal.
  apply list_eq_same_length with n; [by rewrite length_frame|by rewrite length_insert, length_frame|].
  intros i x y Hi Hx Hy. rewrite lookup_frame in Hy by done. destruct (decide (i = q)) as [->|Hne].
  - rewrite list_lookup_insert_eq in Hx by (by rewrite length_frame). rewrite decide_True in Hy by set_solver.
    injection Hx as <-. by injection Hy as <-.
  - rewrite list_lookup_insert_ne, lookup_frame in Hx by done.
    rewrite (decide_ext _ (i ∈ acc)) in Hy by set_solver. congruence.
Qed.

Lemma syndrome_text_ok nd s :
  length s = nd → ∃ w, syndrome_text nd s = Ok (text_of s, w) ∧ (w = 0 ↔ text_of s = replicate nd zero_char).
Proof.
  intros <-. set (hot := λ v, convert_soft_to_hard v = true).
  exists (length (filter hot s)). split.
  - unfold syndrome_text. match goal with |- for_u _ _ ?f _ = _ => set (step := f) end.
    destruct (for_u_inv 0 (length s) step (λ k st, st = (text_of (take k s) ++ replicate (length s - k) zero_char,
      length (filter hot (take k s)))) (replicate (length s) zero_char, 0)) as (st&->&->); [lia| | |].
    + cbn. by rewrite Nat.sub_0_r.
    + intros k st Hk ->. unfold step. destruct (lookup_lt_is_Some_2 s k) as [v Hv]; [lia|].
      rewrite (vget_ok _ _ _ Hv). cbn [mbind res_bind fst snd].
      cbv beta. rewrite (Nat.add_1_r k), (take_S_r _ _ v) by done. unfold text_of. rewrite fmap_app, list.filter_app, length_app.
      cbn [fmap list_fmap]. rewrite filter_cons. cbn [filter list_filter].
      assert (length (text_of (take k s)) = k) as Hlt by (unfold text_of; rewrite length_fmap, length_take; lia).
      replace (length s - k) with (S (length s - S k)) by lia.
      destruct (decide (hot v)) as [Hc|Hc]; unfold hot in Hc; [|apply not_true_is_false in Hc]; rewrite Hc.
      * rewrite vset_ok by (rewrite length_app, length_replicate; unfold text_of in Hlt; rewrite Hlt; lia).
        cbn [mbind res_bind]. apply returns_ok. f_equal. cbn [replicate].
        rewrite insert_app_r_alt by (unfold text_of in Hlt; lia). unfold text_of in Hlt. rewrite Hlt, Nat.sub_diag. cbn.
        by rewrite <-app_assoc.
      * apply returns_ok. cbn. rewrite Nat.add_0_r, <-app_assoc. done.
    + by rewrite Nat.sub_diag, firstn_all, app_nil_r.
  - unfold text_of. rewrite length_zero_iff_nil. induction s as [|v s IH]; [done|].
    rewrite filter_cons. cbn [fmap list_fmap length replicate].
    destruct (decide (hot v)) as [Hc|Hc]; unfold hot in Hc; [|apply not_true_is_false in Hc]; rewrite Hc.
    + done.
    + rewrite IH. cbn. split; [by intros ->|by intros [= ?]].
Qed.

Section lut.
Context {R : Type} `{RateOps R}.

(** Everything the constructor checks, for a model whose columns are [cols]. *)
Record lut_accepts (inputs : decoder_init (R := R)) (params : heterogeneous_map)
    (hs : list (list nat)) (depth : nat) : Prop := {
  la_wf : wf (di_H inputs) hs;
  la_rows : num_rows_ (di_H inputs) = di_num_detectors inputs;
  la_cols : num_cols_ (di_H inputs) = di_num_error_mechanisms inputs;
  la_depth : read_depth (di_num_error_mechanisms inputs) params = Ok depth;
  la_depth_le : depth ≤ di_num_error_mechanisms inputs;
  la_rates : validate_rates (di_num_error_mechanisms inputs) (di_rates inputs) = Ok tt;
  la_binom : (binom (di_num_error_mechanisms inputs) depth ≤ 1000000000)%Z;
  la_opt : ∃ opt, read_opt_results params = Ok opt
}.

(** A constructed decoder: its table lists every error set up to the depth. *)
Record lut_built (inputs : decoder_init (R := R)) (request : decode_result_type)
    (cols : list (list nat)) (depth : nat) (lut : multi_error_lut) : Prop := {
  lb_inputs : lut_inputs lut = inputs;
  lb_request : lut_request lut = request;
  lb_table : table_of cols (di_num_detectors inputs) (di_rates inputs) (all_tried cols depth) (error_signatures lut)
}.

Lemma cols_of_matrix_ok m gs :
  wf m gs → length (cols_of_matrix m gs) = num_cols_ m ∧
  Forall (Forall (λ r, r < num_rows_ m)) (cols_of_matrix m gs).
Proof.
  intros Hwf. pose proof (wf_num_groups m gs Hwf) as Hl. pose proof (wf_bound m gs Hwf) as Hb.
  unfold cols_of_matrix, num_groups, index_bound in *. destruct (is_csc m); [done|].
  split; [apply length_transposed|]. rewrite <-Hl. apply transposed_bound.
Qed.

Lemma make_lut_builds inputs request params hs depth :
  lut_accepts inputs params hs depth → (request = observables → is_Some (di_O inputs)) →
  returns (make_lut inputs request false params)
    (lut_built inputs request (cols_of_matrix (di_H inputs) hs) depth).
Proof.
  intros [] Hreq. destruct (cols_of_matrix_ok _ _ la_wf0) as [Hlen Hb]. unfold make_lut. cbn [throw_if mbind res_bind].
  assert (match request with observables => negb (has_observable_model inputs) | errors => false end = false) as ->.
  { destruct request; [done|]. destruct (Hreq eq_refl) as [o Ho]. unfold has_observable_model. by rewrite Ho. }
  cbn [throw_if mbind res_bind]. rewrite la_depth0. cbn [mbind res_bind]. rewrite la_rates0. cbn [mbind res_bind].
  rewrite (proj2 (Z.ltb_ge _ _)) by done. cbn [throw_if mbind res_bind].
  destruct la_opt0 as [[[[h a] b] c] ->]. cbn [mbind res_bind]. rewrite (to_nested_csc_spec _ hs la_wf0).
  cbn [mbind res_bind]. fold (cols_of_matrix (di_H inputs) hs). rewrite la_rows0 in Hb.
  assert (di_rates inputs = [] ∨ length (di_rates inputs) = length (cols_of_matrix (di_H inputs) hs)) as Hrates.
  { rewrite Hlen, la_cols0. unfold validate_rates in la_rates0.
    destruct (di_rates inputs) as [|r rs]; [by left|]. right.
    cbn [length] in *. destruct (Nat.eqb_spec (S (length rs)) 0); [lia|].
    destruct (Nat.eqb_spec (S (length rs)) (di_num_error_mechanisms inputs)); done. }
  eapply returns_bind.
  - replace (di_num_error_mechanisms inputs) with (length (cols_of_matrix (di_H inputs) hs)) by lia.
    apply (fill_table_ok _ (di_num_detectors inputs) _ Hb Hrates). lia.
  - intros table Ht. by apply returns_ok.
Qed.

Lemma accepted_columns inputs params hs depth :
  lut_accepts inputs params hs depth →
  length (cols_of_matrix (di_H inputs) hs) = di_num_error_mechanisms inputs.
Proof. intros []. by rewrite (proj1 (cols_of_matrix_ok _ _ la_wf0)). Qed.

(** What a decode answers: the frame of an error set [e]. *)
Definition answers (nd n depth : nat) (cols : list (list nat)) (s : list Q) (conv : bool) (e : list nat) : Prop :=
  error_set n e ∧
  (conv = true ↔ ∃ e', error_set n e' ∧ length e' ≤ depth ∧ signature_of nd cols e' = text_of s) ∧
  (conv = true → signature_of nd cols e = text_of s ∧
     ∀ e', error_set n e' → signature_of nd cols e' = text_of s → length e ≤ length e') ∧
  (conv = false → e = []).

(** The answer, as a function of the syndrome. *)
Definition lut_answer (nd depth : nat) (cols : list (list nat)) (s : list Q) : bool * list nat :=
  if decide (text_of s = replicate nd zero_char) then (true, [])
  else match first_with cols nd (text_of s) (all_tried cols depth) with
       | Some e => (true, e)
       | None => (false, [])
       end.

Lemma lut_answer_set nd depth cols s : error_set (length cols) (lut_answer nd depth cols s).2.
Proof.
  assert (error_set (length cols) []) as Hnil by (split; constructor).
  unfold lut_answer. case_decide; [done|]. destruct (first_with _ _ _ _) as [e|] eqn:Hf; [|done].
  by apply first_with_some in Hf as [[He _]%elem_of_all_tried _].
Qed.

Lemma lut_answer_ok nd depth cols s :
  answers nd (length cols) depth cols s (lut_answer nd depth cols s).1 (lut_answer nd depth cols s).2.
Proof.
  pose proof (lut_answer_set nd depth cols s) as Hset. unfold answers, lut_answer in *.
  assert (signature_of nd cols [] = replicate nd zero_char) as Hsig0 by apply parities_nil.
  case_decide as Ht; cbn [fst snd] in *.
  { split_and!; [done| |intros _; split; [congruence|cbn; lia]|done].
    split; [|done]. intros _. exists []. split_and!; [done|cbn; lia|congruence]. }
  assert (∀ e', signature_of nd cols e' = text_of s → e' ≠ []) as Hne by (intros e' He' ->; congruence).
  destruct (first_with cols nd (text_of s) (all_tried cols depth)) as [e|] eqn:Hf; cbn [fst snd] in *.
  - pose proof (first_with_some _ _ _ _ _ Hf) as [[_ Hlen]%elem_of_all_tried Hsig].
    split_and!; [done| | |done].
    + split; [|done]. intros _. exists e. split_and!; [done|lia|done].
    + intros _. split; [done|]. intros e' He' Hs'.
      apply (first_with_lightest cols nd (text_of s) depth e Hf); [done|by apply Hne|done].
  - split_and!; [done| |done|done]. split; [done|]. intros (e'&He'&Hle&Hs').
    pose proof (proj1 (first_with_none _ _ _ _) Hf e') as Hn. destruct Hn; [|done].
    apply elem_of_all_tried. split; [done|]. specialize (Hne e' Hs'). destruct e'; [done|cbn in *; lia].
Qed.

Lemma lut_decode_answers inputs request cols depth lut elapsed s :
  lut_built inputs request cols depth lut →
  length cols = di_num_error_mechanisms inputs → length s = di_num_detectors inputs →
  let a := lut_answer (di_num_detectors inputs) depth cols s in
  ∃ opt, lut_decode lut elapsed s = finish lut (mk_result a.1 (frame (length cols) a.2) opt).
Proof.
  intros [Hi Hr Ht] Hcols Hs a. unfold lut_decode. rewrite Hi, Hs, Nat.eqb_refl. cbn [negb throw_if mbind res_bind].
  destruct (syndrome_text_ok (di_num_detectors inputs) s Hs) as (w&->&Hw). cbn [mbind res_bind].
  pose proof (lut_answer_set (di_num_detectors inputs) depth cols s) as [Hsorted Hlt].
  set (nd := di_num_detectors inputs) in *. rewrite <-Hcols. subst a. unfold lut_answer in *.
  destruct (Nat.eqb_spec w 0) as [Hw0|Hw0].
  { rewrite decide_True by (by apply Hw). exists None. by rewrite frame_nil. }
  rewrite decide_False in * by (by rewrite <-Hw). rewrite (Ht (text_of s)).
  destruct (first_with cols nd (text_of s) (all_tried cols depth)) as [e|]; cbn [fmap option_fmap option_map fst snd] in *.
  - cbn [error_list entry_of]. rewrite write_frame by (done || by apply sorted_nodup). cbn [mbind res_bind]. by eexists.
  - cbn [mbind res_bind]. rewrite frame_nil. by eexists.
Qed.

(** C9. The lookup table is a minimum-weight decoder up to its depth: for
    every accepted model the constructor terminates, and every decode of a
    syndrome of the right length returns the frame of a set of mechanisms,
    converging exactly when some set of at most [lut_error_depth] mechanisms
    produces the syndrome; when it converges the set returned produces the
    syndrome and no set of mechanisms with that syndrome is smaller; otherwise
    the frame is zero. *)
Theorem lut_decodes_minimum_weight inputs params hs depth :
  lut_accepts inputs params hs depth →
  let cols := cols_of_matrix (di_H inputs) hs in
  returns (make_lut inputs errors false params) (λ lut,
    ∀ elapsed s, length s = di_num_detectors inputs →
    returns (lut_decode lut elapsed s) (λ r, ∃ e,
      answers (di_num_detectors inputs) (length cols) depth cols s (converged r) e ∧
      result r = frame (length cols) e)).
Proof.
  intros Hacc cols. eapply returns_mono; [by apply make_lut_builds|].
  intros lut Hlut elapsed s Hs.
  destruct (lut_decode_answers inputs errors cols depth lut elapsed s Hlut) as (opt&->);
    [by eapply accepted_columns|done|].
  unfold finish. rewrite (lb_request _ _ _ _ _ Hlut). apply returns_ok.
  eexists. split; [apply lut_answer_ok|done].
Qed.

(** Asking the lookup-table decoder for observables instead of errors does
    not change the corrections: for a model with an observable matrix both
    instances are constructed, and for every syndrome the observable frame
    applied as it is flips the same observables as the error frame projected
    by the shot buffer. *)
Theorem lut_output_requests_agree inputs params hs depth o os :
  lut_accepts inputs params hs depth → di_O inputs = Some o → wf o os → layout_ o = csr →
  num_rows_ o = di_num_observables inputs → num_cols_ o = di_num_error_mechanisms inputs →
  returns (make_lut inputs errors false params) (λ lut,
  returns (make_lut inputs observables false params) (λ lut',
    ∀ elapsed s corr, length s = di_num_detectors inputs → length corr = num_rows_ o →
    returns (lut_decode lut elapsed s) (λ r, returns (lut_decode lut' elapsed s) (λ r',
      converged r' = converged r ∧
      returns (apply_result inputs errors (result r) corr) (λ corr',
        apply_result inputs observables (result r') corr = Ok corr'))))).
Proof.
  intros Hacc Ho Howf Hcsr Hrows Hcols.
  eapply returns_mono; [by apply make_lut_builds|]. intros lut Hlut.
  eapply returns_mono; [apply make_lut_builds; [done|]; intros _; by exists o|]. intros lut' Hlut' elapsed s corr Hs Hcorr.
  pose proof (accepted_columns _ _ _ _ Hacc) as Hlen. set (cols := cols_of_matrix (di_H inputs) hs) in *.
  destruct (lut_decode_answers inputs errors cols depth lut elapsed s Hlut Hlen Hs) as (opt&->).
  destruct (lut_decode_answers inputs observables cols depth lut' elapsed s Hlut' Hlen Hs) as (opt'&->).
  unfold finish. rewrite (lb_request _ _ _ _ _ Hlut), (lb_request _ _ _ _ _ Hlut'), (lb_inputs _ _ _ _ _ Hlut').
  apply returns_ok. cbn [result converged].
  set (f := frame (length cols) _). assert (length f = num_cols_ o) as Hf by (unfold f; rewrite length_frame; lia).
  rewrite <-Hrows, (project_hard inputs o os Ho Howf Hcsr Hrows f Hf (frame_hard _ _)). cbn [mbind res_bind].
  apply returns_ok. split; [done|]. cbn [result].
  rewrite (apply_errors inputs o os Ho Howf Hcsr Hrows f corr Hf Hcorr). apply returns_ok.
  apply (apply_observables inputs o os Ho Howf Hcsr Hrows); [|done].
  rewrite length_fmap. by eapply (o_groups inputs o os).
Qed.
End lut.

(** A distance-3 repetition code with one observable. *)
Definition rep3 : decoder_init (R := Q) :=
  mk_init 2 3 1 (of_groups csc 2 3 [[0]; [0; 1]; [1]]) (Some (of_groups csr 1 3 [[0]]))
    [1#10; 1#10; 1#10]%Q None None.

Lemma rep3_accepts : lut_accepts rep3 [("lut_error_depth", AnyInt 2)] [[0]; [0; 1]; [1]] 2.
Proof.
  split; try reflexivity.
  - apply (bool_decide_unpack _). vm_compute. exact I.
  - cbn. lia.
  - vm_compute. discriminate.
  - eexists. reflexivity.
Qed.

Lemma lut_decodes_minimum_weight_witness :
  returns (make_lut rep3 errors false [("lut_error_depth", AnyInt 2)]) (λ lut,
    (∃ r, lut_decode lut 0%Q [1; 1]%Q = Ok r ∧ result r = [0; 1; 0]%Q) ∧
    returns (lut_decode lut 0%Q [1; 1]%Q) (λ r, length (result r) = 3)).
Proof.
  destruct (lut_decodes_minimum_weight rep3 [("lut_error_depth", AnyInt 2)] [[0]; [0; 1]; [1]] 2 rep3_accepts)
    as (lut&Hlut&Hd).
  exists lut. split; [exact Hlut|]. split.
  - vm_compute in Hlut. injection Hlut as <-. eexists. split; [vm_compute; reflexivity|reflexivity].
  - eapply returns_mono; [exact (Hd 0%Q [1; 1]%Q eq_refl)|]. intros r (e&_&->). apply length_frame.
Defined.

Lemma lut_output_requests_agree_witness :
  returns (make_lut rep3 errors false [("lut_error_depth", AnyInt 2)]) (λ lut,
  returns (make_lut rep3 observables false [("lut_error_depth", AnyInt 2)]) (λ lut',
    returns (lut_decode lut 0%Q [1; 0]%Q) (λ r, returns (lut_decode lut' 0%Q [1; 0]%Q) (λ r',
      converged r' = converged r)))).
Proof.
  eapply returns_mono.
  - apply (lut_output_requests_agree rep3 [("lut_error_depth", AnyInt 2)] [[0]; [0; 1]; [1]] 2
      (of_groups csr 1 3 [[0]]) [[0]] rep3_accepts eq_refl).
    + apply (bool_decide_unpack _). vm_compute. exact I.
    + reflexivity.
    + reflexivity.
    + reflexivity.
  - intros lut H. eapply returns_mono; [exact H|]. intros lut' H'.
    eapply returns_mono; [exact (H' 0%Q [1; 0]%Q [0] eq_refl eq_refl)|]. intros r H''.
    eapply returns_mono; [exact H''|]. intros r' [Hc _]. exact Hc.
Defined.

(** With no mechanisms and the default depth the constructor writes past the
    end of its empty bitmask. *)
Example lut_without_mechanisms :
  make_lut (mk_init (R := Q) 1 0 0 (of_groups csc 1 0 []) None [] None None) errors false [] = Undef.
Proof. reflexivity. Qed.
