(* ===== verification/SlidingWindow.v ===== *)
(** * The sliding-window decoder

    Model of [sliding_window] (libs/qec/lib/decoders/sliding_window.cpp): a
    decoder that consumes one detector layer per call, decodes overlapping
    windows of layers with inner decoders built for the sub-matrices of the
    windows, commits the part of each window the next one does not cover, and
    removes the committed errors from the next window's syndrome.  The inner
    decoder type, its constructor [decoder::get] and its [decode_batch] are
    parameters; timing and logging are left out. *)

From Stdlib Require Import QArith.
From stdpp Require Import strings.
From S2P Require Import Prelude Tensor SparseMatrix RoundLayout PcmSort PcmColumns HetMap DetectorErrorModel Decoder.

Open Scope nat_scope.

(** The part of [decoder_result] this decoder fills. *)
Record frame_result := mk_frame {
  fr_converged : bool;
  fr_result : list Q
}.

(** [for (s < n) ... l\[s\] ...]: one element of the batch at a time. *)
Definition each {A} (n : nat) (f : nat → A → res A) (l : list A) : res (list A) :=
  for_u 0 n (λ s l, x ← vget l s; x' ← f s x; vset l s x') l.

(** [static_cast<std::uint8_t>(v)]: truncation, undefined out of range. *)
Definition to_u8 (v : Q) : res nat :=
  let z := (Qnum v ÷ Zpos (Qden v))%Z in
  if ((0 <=? z) && (z <? 256))%Z then Ok (Z.to_nat z) else Undef.

(** The cross-field checks of the YAML parameter schema. *)
Definition schema_validate (args : heterogeneous_map) : res unit :=
  _ ← (if contains args "window_size" && contains args "step_size" then
         window ← get_size args "window_size";
         step ← get_size args "step_size";
         throw_if ((step <? 1) || (window <? step))
           (RuntimeError "sliding_window parameters: step_size must be between 1 and window_size")
       else Ok tt);
  if contains args "num_boundary_syndromes" && contains args "num_syndromes_per_round" then
    b ← get_size args "num_boundary_syndromes";
    s ← get_size args "num_syndromes_per_round";
    throw_if (s <? b)
      (RuntimeError "sliding_window parameters: num_boundary_syndromes must be <= num_syndromes_per_round")
  else Ok tt.

Section sliding_window.
Context {R : Type} {I : Type}.

(** Constructor parameters and what the constructor derives from them. *)
Record sw_config := mk_sw {
  sw_inputs : decoder_init (R := R);
  sw_request : decode_result_type;
  window_size : nat;
  step_size : nat;
  sw_num_syndromes_per_round : nat;
  num_boundary_syndromes : nat;
  straddle_start_round : bool;
  straddle_end_round : bool;
  inner_decoder_name : string;
  inner_decoder_params : heterogeneous_map;
  num_windows : nat;
  num_detector_layers : nat;
  layout : round_layout;
  first_columns : list nat
}.

Record sw_state := mk_sws {
  inner_decoders : list I;
  window_rounds : list (list (list Q));
  rounds_since_last_reset : nat;
  batch_size : nat;
  num_windows_decoded : nat;
  syndrome_mods : list (list bool);
  rw_results : list frame_result
}.

(** ** Construction *)

Definition validate_inputs (inputs : decoder_init (R := R)) (s b window step layers : nat)
    (inner_name : string) : res unit :=
  let num_rows := u32 (num_rows_ (di_H inputs)) in
  _ ← throw_if (s <? b) (InvalidArgument "sliding_window constructor: num_boundary_syndromes must be <= num_syndromes_per_round");
  _ ← throw_if (num_rows <? u64 (2 * s)) (InvalidArgument "sliding_window constructor: num_rows must be >= 2 * num_syndromes_per_round");
  odd ← (if num_rows <? u64 (2 * b) then Ok true
         else if s =? 0 then Undef else Ok (negb (u64_sub num_rows (u64 (2 * b)) mod s =? 0)));
  _ ← throw_if odd (InvalidArgument "sliding_window constructor: number of PCM rows is inconsistent with the given num_syndromes_per_round and num_boundary_syndromes");
  _ ← throw_if ((window <? 1) || (layers <? window)) (InvalidArgument "sliding_window constructor: window_size must be between 1 and the number of detector layers");
  _ ← throw_if ((step <? 1) || (window <? step)) (InvalidArgument "sliding_window constructor: step_size must be between 1 and window_size");
  _ ← throw_if (negb (u64_sub layers window mod step =? 0)) (InvalidArgument "sliding_window constructor: detector layers - window_size must be divisible by step_size");
  _ ← throw_if (s =? 0) (InvalidArgument "sliding_window constructor: num_syndromes_per_round must be non-zero");
  _ ← throw_if (bool_decide (inner_name = "")) (InvalidArgument "sliding_window constructor: inner_decoder_name must be non-empty");
  _ ← throw_if (length (di_rates inputs) =? 0) (InvalidArgument "sliding_window constructor: error_rate_vec must be non-empty");
  cols ← to_nested_csc (di_H inputs);
  sorted ← pcm_is_sorted_boundary cols (u32 s) (u32 b);
  throw_if (negb sorted) (InvalidArgument "sliding_window constructor: PCM must be sorted. See cudaq::qec::simplify_pcm.").

(** [std::vector(v.begin() + first, v.begin() + last + 1)] *)
Definition iterator_range {A} (v : list A) (first : Z) (last : nat) : res (list A) :=
  if (first <=? Z.of_nat (last + 1))%Z then vslice v (Z.to_nat first) (last + 1) else Undef.

(** The model of one window: its sub-matrix, rates and ids, and its first column. *)
Definition window_inputs (inputs : decoder_init (R := R)) (s b window step : nat) (sa sb : bool) (w : nat)
    : res (decoder_init (R := R) * nat) :=
  let start_round := u64 (w * step) in
  let end_round := u64_sub (u64 (start_round + window)) 1 in
  sub ← get_pcm_for_rounds_sparse (di_H inputs) (u32 s) (u32 start_round) (u32 end_round) sa sb true (u32 b);
  let '(H_round, first_column, last_column) := sub in
  error_vec_mod ← iterator_range (di_rates inputs) first_column last_column;
  cols ← vget (t_shape H_round) 1;
  _ ← throw_if (negb (bool_decide ((Z.of_nat last_column - first_column + 1) mod 2 ^ 32 = Z.of_nat cols)%Z))
        (InvalidArgument "last_column - first_column + 1 must be equal to the number of columns in H_round");
  inner_O ← from_csr 0 (u32 cols) [0] [];
  ids ← (match di_ids inputs with
         | Some l => r ← iterator_range l first_column last_column; Ok (Some r)
         | None => Ok None
         end);
  h ← of_dense H_round csc;
  inner ← make_matrix_state h (Some inner_O) error_vec_mod ids None;
  Ok (inner, Z.to_nat first_column).

Context (decoder_get : string → decoder_init (R := R) → decode_result_type → heterogeneous_map → res I).

Definition make_sliding_window (inputs : decoder_init (R := R)) (request : decode_result_type)
    (has_auxiliary_outputs : bool) (params : heterogeneous_map)
    : res (sw_config * sw_state * rt_impl) :=
  inputs ← canonicalize_H inputs;
  rt ← make_decoder inputs;
  _ ← throw_if has_auxiliary_outputs (InvalidArgument "sliding_window does not produce auxiliary outputs");
  _ ← throw_if (match request with observables => negb (has_observable_model inputs) | errors => false end)
        (InvalidArgument "sliding_window was constructed for observable output but its model supplies no observable mapping");
  let window := get_size_or params "window_size" 1 in
  let step := get_size_or params "step_size" 1 in
  let s := get_size_or params "num_syndromes_per_round" 0 in
  let b := get_size_or params "num_boundary_syndromes" 0 in
  let sa := get_bool_or params "straddle_start_round" false in
  let sb := get_bool_or params "straddle_end_round" true in
  let inner_name := get_string_or params "inner_decoder_name" "" in
  let inner_params := get_map_or params "inner_decoder_params" [] in
  _ ← throw_if (s =? 0) (InvalidArgument "sliding_window constructor: num_syndromes_per_round must be non-zero");
  let b := if b =? 0 then s else b in
  lay ← make_round_layout s b (num_rows_ (di_H inputs));
  let layers := lay_num_rounds lay in
  q ← udiv (u64_sub layers window) step;
  let windows := u64 (q + 1) in
  _ ← validate_inputs inputs s b window step layers inner_name;
  rt ← (if match request with observables => true | errors => has_observable_model inputs end
        then initialize_streaming_layout inputs s (round_start lay <$> seq 0 (layers + 1)) rt
        else Ok rt);
  built ← for_u 0 windows (λ w st,
    wi ← window_inputs inputs s b window step sa sb w;
    inner ← decoder_get inner_name wi.1 errors inner_params;
    Ok (st.1 ++ [inner], st.2 ++ [wi.2])) ([], []);
  Ok (mk_sw inputs request window step s b sa sb inner_name inner_params windows layers lay built.2,
      mk_sws built.1 [] 0 1 0 [] [], rt).

(** ** Decoding *)

Context (inner_decode_batch : I → list (list Q) → res (option (list frame_result) * I)).
Context (cfg : sw_config).

Let num_detectors := di_num_detectors (sw_inputs cfg).
Let block_size := di_num_error_mechanisms (sw_inputs cfg).

Definition initialize_window (batch : nat) (st : sw_state) : sw_state :=
  mk_sws (inner_decoders st) [] 0 batch 0 (replicate batch (replicate num_detectors false))
    (replicate batch (mk_frame true (replicate block_size 0%Q))).

Definition reset_stream (st : sw_state) : sw_state :=
  mk_sws (inner_decoders st) [] 0 (batch_size st) 0 [] [].

(** [syn\[r\] = uint8_t(syn\[r\]) ^ syndrome_mods\[s\]\[syndrome_start + r\]] *)
Definition apply_mods (mods : list bool) (syndrome_start n : nat) (syn : list Q) : res (list Q) :=
  for_u 0 n (λ r syn,
    v ← vget syn r;
    u ← to_u8 v;
    m ← vget mods (syndrome_start + r);
    vset syn r (inject_Z (Z.of_nat (Nat.lxor u (Nat.b2n m))))) syn.

(** The syndrome of window [w] for every element of the batch. *)
Definition assemble (st : sw_state) (w syndrome_start num_window_syndromes : nat) : res (list (list Q)) :=
  each (batch_size st) (λ s syn,
    syn ← for_u 0 (window_size cfg) (λ slot syn,
      round ← vget (window_rounds st) slot;
      r ← vget round s;
      Ok (syn ++ r)) syn;
    if 0 <? w then
      mods ← vget (syndrome_mods st) s;
      apply_mods mods syndrome_start num_window_syndromes syn
    else Ok syn) (replicate (batch_size st) []).

(** [result\[c + first\] = window_result\[c\]] for [c < n] *)
Definition commit (first n : nat) (window_result : list bool) (res0 : list Q) : res (list Q) :=
  for_u 0 n (λ c r,
    v ← vget window_result c;
    vset r (u64 (c + first)) (if v : bool then 1%Q else 0%Q)) res0.

(** Flip the rows of the next window's first round that committed errors touch. *)
Definition back_out (first n lo hi : nat) (res0 : list Q) (mods : list bool) : res (list bool) :=
  let H := di_H (sw_inputs cfg) in
  for_u 0 n (λ c mods,
    v ← vget res0 (u64 (c + first));
    if Qeq_bool v 0 then Ok mods else
    let col := u64 (c + first) in
    p0 ← vget (ptr_ H) col;
    p1 ← vget (ptr_ H) (col + 1);
    for_u p0 p1 (λ p mods,
      r ← vget (indices_ H) p;
      if (lo <=? r) && (r <=? hi) then m ← vget mods r; vset mods r (negb m) else Ok mods) mods) mods.

(** [decode_window]: false when the inner decoder abandoned the window. *)
Definition decode_window (st : sw_state) : res (bool * sw_state) :=
  let w := num_windows_decoded st in
  let syndrome_start := round_start (layout cfg) (u64 (w * step_size cfg)) in
  let num_window_syndromes :=
    u64_sub (round_start (layout cfg) (u64 (w * step_size cfg + window_size cfg))) syndrome_start in
  window_syndromes ← assemble st w syndrome_start num_window_syndromes;
  dec ← vget (inner_decoders st) w;
  inner ← inner_decode_batch dec window_syndromes;
  decs ← vset (inner_decoders st) w inner.2;
  match inner.1 with
  | None =>
      Ok (false, mk_sws decs (window_rounds st) (rounds_since_last_reset st) (batch_size st)
                   (num_windows_decoded st) (syndrome_mods st) (rw_results st))
  | Some inner_results =>
      _ ← vget inner_results 0;
      results ← each (batch_size st) (λ s r,
        i ← vget inner_results s;
        Ok (mk_frame (fr_converged r && fr_converged i) (fr_result r))) (rw_results st);
      window_results ← each (batch_size st) (λ s _,
        i ← vget inner_results s;
        Ok (convert_vec_soft_to_hard (fr_result i))) (replicate (batch_size st) []);
      this_first ← vget (first_columns cfg) w;
      if w <? u64_sub (num_windows cfg) 1 then
        next_first ← vget (first_columns cfg) (w + 1);
        let num_to_commit := u64_sub next_first this_first in
        results ← each (batch_size st) (λ s r,
          wr ← vget window_results s;
          e ← commit this_first num_to_commit wr (fr_result r);
          Ok (mk_frame (fr_converged r) e)) results;
        let lo := round_start (layout cfg) (u64 ((w + 1) * step_size cfg)) in
        let hi := u64_sub (round_start (layout cfg) (u64 ((w + 1) * step_size cfg + 1))) 1 in
        mods ← each (batch_size st) (λ s mods,
          r ← vget results s;
          back_out this_first num_to_commit lo hi (fr_result r) mods) (syndrome_mods st);
        Ok (true, mk_sws decs (window_rounds st) (rounds_since_last_reset st) (batch_size st)
                    (num_windows_decoded st) mods results)
      else
        wr0 ← vget window_results 0;
        results ← each (batch_size st) (λ s r,
          wr ← vget window_results s;
          e ← commit this_first (length wr0) wr (fr_result r);
          Ok (mk_frame (fr_converged r) e)) results;
        Ok (true, mk_sws decs (window_rounds st) (rounds_since_last_reset st) (batch_size st)
                    (num_windows_decoded st) (syndrome_mods st) results)
  end.

(** Project the composed frames when the instance returns observables. *)
Definition project_results (results : list frame_result) : res (list frame_result) :=
  match sw_request cfg with
  | errors => Ok results
  | observables =>
      each (length results) (λ _ r,
        if length (fr_result r) =? 0 then Ok r else
        obs ← project_errors_to_observables (sw_inputs cfg) (fr_result r)
                (di_num_observables (sw_inputs cfg));
        Ok (mk_frame (fr_converged r) obs)) results
  end.

(** One detector layer of every syndrome of the batch. *)
Definition push_layer (syndromes : list (list Q)) (st : sw_state)
    : res (option (list frame_result) * sw_state) :=
  let st := if rounds_since_last_reset st =? 0 then initialize_window (length syndromes) st else st in
  _ ← throw_if (negb (length syndromes =? batch_size st))
        (InvalidArgument "sliding_window: batch size changed mid-stream");
  let expected := round_width (layout cfg) (rounds_since_last_reset st) in
  _ ← foldM (λ r _, throw_if (negb (length r =? expected))
        (InvalidArgument "sliding_window: every row in a call must be either the full syndrome or the width of the round")) syndromes tt;
  let st := mk_sws (inner_decoders st) (window_rounds st ++ [syndromes]) (rounds_since_last_reset st + 1)
              (batch_size st) (num_windows_decoded st) (syndrome_mods st) (rw_results st) in
  if length (window_rounds st) <? window_size cfg then Ok (Some [], st) else
  r ← decode_window st;
  let '(done, st) := r in
  if negb done then Ok (None, reset_stream st) else
  let st := mk_sws (inner_decoders st) (window_rounds st) (rounds_since_last_reset st)
              (batch_size st) (num_windows_decoded st + 1) (syndrome_mods st) (rw_results st) in
  if num_windows_decoded st =? num_windows cfg then
    results ← project_results (rw_results st);
    Ok (Some results, reset_stream st)
  else if length (window_rounds st) <? step_size cfg then Undef
  else Ok (Some [], mk_sws (inner_decoders st) (drop (step_size cfg) (window_rounds st))
         (rounds_since_last_reset st) (batch_size st) (num_windows_decoded st)
         (syndrome_mods st) (rw_results st)).

(** Feed the layers [r, r + n) of whole blocks to [dec]. *)
Fixpoint layers_loop (dec : list (list Q) → sw_state → res (option (list frame_result) * sw_state))
    (syndromes : list (list Q)) (n r : nat) (results : option (list frame_result)) (st : sw_state)
    : res (option (list frame_result) * sw_state) :=
  match n with
  | 0 => Ok (results, st)
  | S n =>
      let lo := round_start (layout cfg) r in
      let hi := u64 (lo + round_width (layout cfg) r) in
      parts ← foldM (λ s parts, p ← vslice s lo hi; Ok (parts ++ [p])) syndromes [];
      x ← dec parts st;
      match x with
      | (None, st) => Ok (None, st)
      | (results, st) => layers_loop dec syndromes n (r + 1) results st
      end
  end.

(** [decode_batch]: whole blocks are fed to itself one layer at a time, so two
    levels of recursion are enough for the layouts the constructor accepts. *)
Fixpoint decode_batch_fuel (fuel : nat) (syndromes : list (list Q)) (st : sw_state)
    : res (option (list frame_result) * sw_state) :=
  match fuel with
  | 0 => Undef
  | S fuel =>
      match syndromes with
      | [] => Ok (Some [], st)
      | s0 :: _ =>
          if length s0 =? num_detectors then
            _ ← foldM (λ s _, throw_if (negb (length s =? num_detectors))
                  (InvalidArgument "Syndrome has the wrong length for this decoder")) syndromes tt;
            layers_loop (decode_batch_fuel fuel) syndromes (num_detector_layers cfg) 0 None st
          else push_layer syndromes st
      end
  end.

Definition decode_batch := decode_batch_fuel 2.

(** [decode]: an empty frame until the final window. *)
Definition decode (syndrome : list Q) (st : sw_state) : res (option frame_result * sw_state) :=
  x ← decode_batch [syndrome] st;
  match x.1 with
  | None => Ok (None, x.2)
  | Some [] => Ok (Some (mk_frame false []), x.2)
  | Some (r :: _) => Ok (Some r, x.2)
  end.

Definition get_layer_offset (r : nat) : nat := round_start (layout cfg) r.

(** [reset_decoder]: the base class state and the stream. *)
Definition sw_reset_decoder (rt : rt_impl) (st : sw_state) : rt_impl * sw_state :=
  (reset_decoder (di_num_observables (sw_inputs cfg)) rt, reset_stream st).
End sliding_window.
