(* ===== verification/SlidingStep.v ===== *)
(** * The steps of a window decode

    What the loops of [decode_window] compute on hard values: the window's
    syndrome, the commit of part of a frame, and the removal of committed
    errors from the next round. *)

From Stdlib Require Import QArith.
From S2P Require Import Prelude Ordering Tensor SparseMatrix SparseFacts RoundLayout DetectorErrorModel Decoder DecoderProps SlidingWindow.

Open Scope nat_scope.

(** ** Batches *)

Lemma each_returns {A} (P : nat → A → Prop) n (f : nat → A → res A) l :
  length l = n → (∀ s x, l !! s = Some x → returns (f s x) (P s)) →
  returns (each n f l) (λ l', length l' = n ∧ ∀ s x, l' !! s = Some x → P s x).
Proof.
  intros <- Hf. unfold each. eapply returns_mono.
  - apply (for_u_inv 0 (length l) _ (λ k l', length l' = length l ∧
      (∀ s x, s < k → l' !! s = Some x → P s x) ∧ (∀ s, k ≤ s → l' !! s = l !! s))); [lia| |].
    + split_and!; [done|lia|done].
    + intros k l' Hk (Hlen&Hdone&Hrest). destruct (lookup_lt_is_Some_2 l k) as [x Hx]; [lia|].
      rewrite (vget_ok l' k x) by (by rewrite Hrest). cbn [mbind res_bind].
      destruct (Hf k x Hx) as (x'&->&Hx'). cbn [mbind res_bind].
      res_step; [lia|]. split_and!; [by rewrite length_insert| |].
      * intros s y Hs Hy. destruct (decide (s = k)) as [->|].
        -- rewrite list_lookup_insert_eq in Hy by lia. by injection Hy as <-.
        -- rewrite list_lookup_insert_ne in Hy by done. apply (Hdone s); [lia|done].
      * intros s Hs. rewrite list_lookup_insert_ne by lia. apply Hrest. lia.
  - cbn. intros l' (Hlen&Hdone&_). split; [done|]. intros s x Hx. apply (Hdone s); [|done].
    rewrite <-Hlen. by eapply lookup_lt_Some.
Qed.

(** The exact result, when every step is known. *)
Lemma each_map {A B} (n : nat) (f : nat → A → res A) (l : list A) (src : list B) (g : B → A) :
  length src = n → length l = n →
  (∀ s x b, l !! s = Some x → src !! s = Some b → f s x = Ok (g b)) →
  each n f l = Ok (g <$> src).
Proof.
  intros Hsrc Hl Hf.
  destruct (each_returns (λ s x, (g <$> src) !! s = Some x) n f l Hl) as (l'&->&Hlen&Hall).
  - intros s x Hx. destruct (lookup_lt_is_Some_2 src s) as [b Hb]; [apply lookup_lt_Some in Hx; lia|].
    rewrite (Hf s x b Hx Hb). apply returns_ok. by rewrite list_lookup_fmap, Hb.
  - f_equal. apply list_eq_same_length with n; [by rewrite length_fmap|done|].
    intros s x y Hs Hx Hy. apply Hall in Hx. congruence.
Qed.

(** ** Hard values *)

Definition bitQ (b : bool) : Q := if b then 1%Q else 0%Q.

Lemma lookup_as_values bits i : as_values bits !! i = bitQ <$> bits !! i.
Proof. apply list_lookup_fmap. Qed.
Lemma length_as_values bits : length (as_values bits) = length bits.
Proof. apply length_fmap. Qed.
Lemma as_values_app a b : as_values (a ++ b) = as_values a ++ as_values b.
Proof. apply fmap_app. Qed.
Lemma as_values_slice bits lo hi : slice (as_values bits) lo hi = as_values (slice bits lo hi).
Proof. unfold slice, as_values. by rewrite <-fmap_drop, <-fmap_take. Qed.
Lemma fired_bitQ b : Qeq_bool (bitQ b) 0 = negb b.
Proof. by destruct b. Qed.

(** A vector of bits, updated at one position. *)
Lemma as_values_insert bits i b : <[i:=bitQ b]> (as_values bits) = as_values (<[i:=b]> bits).
Proof. unfold as_values. by rewrite (list_fmap_insert (λ b : bool, if b then 1%Q else 0%Q)). Qed.

Lemma xor_u8 a b :
  (u ← to_u8 (bitQ a); Ok (inject_Z (Z.of_nat (Nat.lxor u (Nat.b2n b))))) = Ok (bitQ (xorb a b)).
Proof. by destruct a, b. Qed.

Lemma apply_mods_ok mods start bits :
  start + length bits ≤ length mods →
  apply_mods mods start (length bits) (as_values bits) =
    Ok (as_values (zip_with xorb bits (slice mods start (start + length bits)))).
Proof.
  intros Hlen. unfold apply_mods.
  set (ms := slice mods start (start + length bits)).
  assert (length ms = length bits) as Hms by (unfold ms; rewrite length_slice; lia).
  match goal with |- for_u _ _ ?f _ = _ => set (step := f) end.
  destruct (for_u_inv 0 (length bits) step
    (λ k out, out = as_values (zip_with xorb (take k bits) (take k ms) ++ drop k bits)) (as_values bits))
    as (out&->&->); [lia|done| |].
  - intros k out Hk ->. unfold step.
    destruct (lookup_lt_is_Some_2 bits k) as [b Hb]; [lia|].
    destruct (lookup_lt_is_Some_2 ms k) as [m Hm]; [lia|].
    assert (length (zip_with xorb (take k bits) (take k ms)) = k) as Hz
      by (rewrite length_zip_with, !length_take; lia).
    rewrite (vget_ok _ k (bitQ b)).
    2:{ rewrite lookup_as_values, lookup_app_r by lia. rewrite Hz, Nat.sub_diag, lookup_drop, Nat.add_0_r. by rewrite Hb. }
    assert (mods !! (start + k) = Some m) as Hmod.
    { unfold ms in Hm. by rewrite lookup_slice in Hm by lia. }
    rewrite (vget_ok mods _ m Hmod). cbn [mbind res_bind].
    assert (∀ out, (u ← to_u8 (bitQ b); vset out k (inject_Z (Z.of_nat (Nat.lxor u (Nat.b2n m))))) =
      vset out k (bitQ (xorb b m))) as Hx by (intros; by destruct b, m).
    cbn [mbind res_bind] in Hx. rewrite Hx. apply returns_vset.
    { rewrite length_as_values, length_app, length_drop. lia. }
    rewrite as_values_insert, insert_app_r_alt, Hz, Nat.sub_diag by lia.
    rewrite (drop_S bits b k Hb). cbn [insert list_insert].
    rewrite Nat.add_1_r, (take_S_r bits k b), (take_S_r ms k m) by done.
    rewrite zip_with_app by (rewrite !length_take; lia). cbn [zip_with]. by rewrite <-app_assoc.
  - rewrite !take_ge, drop_ge, app_nil_r by lia. done.
Qed.

(** Committing [n] bits of a window result at [first]. *)
Definition overwrite (first n : nat) (wr e : list bool) : list bool :=
  take first e ++ take n wr ++ drop (first + n) e.

Lemma commit_ok first n wr e :
  n ≤ length wr → first + n ≤ length e → (Z.of_nat (length e) < 2 ^ 64)%Z →
  commit first n wr (as_values e) = Ok (as_values (overwrite first n wr e)).
Proof.
  intros Hn He Hfit. unfold commit.
  match goal with |- for_u _ _ ?f _ = _ => set (step := f) end.
  destruct (for_u_inv 0 n step (λ k out, out = as_values (overwrite first k wr e)) (as_values e))
    as (out&->&->); [lia| | |done].
  - f_equal. unfold overwrite. by rewrite take_0, Nat.add_0_r, app_nil_l, take_drop.
  - intros k out Hk ->. unfold step. destruct (lookup_lt_is_Some_2 wr k) as [b Hb]; [lia|].
    rewrite (vget_ok _ _ _ Hb). cbn [mbind res_bind]. rewrite wrap_small by lia. fold (bitQ b).
    apply returns_vset.
    { rewrite length_as_values. unfold overwrite. rewrite !length_app, length_drop, !length_take. lia. }
    rewrite as_values_insert. f_equal. unfold overwrite.
    destruct (lookup_lt_is_Some_2 e (first + k)) as [x Hx]; [lia|].
    rewrite app_assoc, insert_app_r_alt by (rewrite length_app, !length_take; lia).
    rewrite length_app, !length_take.
    replace (k + first - (first `min` length e + k `min` length wr)) with 0 by lia.
    rewrite (drop_S e x (first + k) Hx). cbn [insert list_insert].
    rewrite Nat.add_1_r, (take_S_r wr k b) by done. rewrite <-!app_assoc. cbn. by rewrite Nat.add_succ_r.
Qed.

(** ** Removing committed errors *)

Section columns.
Context (cols : list (list nat)).

Definition hit (c r : nat) : bool := bool_decide (r ∈ default [] (cols !! c)).

(** The parity of row [r] over the columns [a, a + n) of a frame. *)
Fixpoint span_parity (a n : nat) (e : nat → bool) (r : nat) : bool :=
  match n with
  | 0 => false
  | S n => xorb (span_parity a n e r) (hit (a + n) r && e (a + n))
  end.

Lemma span_parity_ext a n e e' r :
  (∀ c, a ≤ c < a + n → hit c r = true → e c = e' c) → span_parity a n e r = span_parity a n e' r.
Proof using Type.
  induction n as [|n IH]; intros He; cbn; [done|]. rewrite IH by (intros; apply He; [lia|done]).
  destruct (hit (a + n) r) eqn:Hh; [|done]. by rewrite (He (a + n)) by (done || lia).
Qed.

Lemma span_parity_app a n m e r :
  span_parity a (n + m) e r = xorb (span_parity a n e r) (span_parity (a + n) m e r).
Proof using Type.
  induction m as [|m IH]; cbn; [by rewrite Nat.add_0_r, xorb_false_r|].
  rewrite Nat.add_succ_r. cbn. by rewrite IH, <-xorb_assoc, Nat.add_assoc.
Qed.

Lemma span_parity_none a n e r :
  (∀ c, a ≤ c < a + n → hit c r = false) → span_parity a n e r = false.
Proof using Type.
  induction n as [|n IH]; intros Hh; cbn; [done|]. rewrite IH by (intros; apply Hh; lia).
  by rewrite Hh by lia.
Qed.

Lemma flip_rows lo hi col mods :
  NoDup col → Forall (λ r, r < length mods) col →
  returns (foldM (λ r mods, if (lo <=? r) && (r <=? hi) then m ← vget mods r; vset mods r (negb m) else Ok mods) col mods)
    (λ mods', length mods' = length mods ∧
       ∀ r m, mods !! r = Some m →
         mods' !! r = Some (xorb m (bool_decide (r ∈ col) && ((lo <=? r) && (r <=? hi))))).
Proof using Type.
  intros Hnd Hlt. revert mods Hlt. induction Hnd as [|r col Hr Hnd IH]; intros mods Hlt; cbn [foldM].
  { apply returns_ok. split; [done|]. intros r m Hm. rewrite Hm. by rewrite xorb_false_r. }
  apply Forall_cons in Hlt as [Hrm Hlt].
  destruct (lookup_lt_is_Some_2 mods r Hrm) as [m Hm].
  set (here := (lo <=? r) && (r <=? hi)).
  assert ((if here then m ← vget mods r; vset mods r (negb m) else Ok mods) =
    Ok (<[r:=xorb m here]> mods)) as ->.
  { destruct here; [|by rewrite xorb_false_r, list_insert_id].
    rewrite (vget_ok _ _ _ Hm). cbn [mbind res_bind]. rewrite vset_ok by done. by rewrite xorb_true_r. }
  cbn [mbind res_bind]. eapply returns_mono; [apply IH; by rewrite length_insert|].
  intros mods' [Hlen Hmods]. rewrite length_insert in Hlen. split; [done|]. intros r' m' Hm'.
  destruct (decide (r' = r)) as [->|Hne].
  - rewrite (Hmods r (xorb m here)) by (by rewrite list_lookup_insert_eq).
    rewrite (bool_decide_eq_false_2 (r ∈ col)) by done. rewrite (bool_decide_eq_true_2 (r ∈ r :: col)) by set_solver.
    cbn [andb]. rewrite xorb_false_r. assert (m' = m) as -> by congruence. done.
  - rewrite (Hmods r' m') by (by rewrite list_lookup_insert_ne).
    by rewrite (bool_decide_ext (r' ∈ r :: col) (r' ∈ col)) by set_solver.
Qed.

Context {R : Type} (cfg : sw_config (R := R)).
Hypothesis H_rep : represents (di_H (sw_inputs cfg)) cols.
Hypothesis cols_nodup : Forall (λ col, NoDup col) cols.

Lemma back_out_ok first n lo hi e mods :
  first + n ≤ length cols → length e = length cols → (Z.of_nat (length cols) < 2 ^ 32)%Z →
  Forall (Forall (λ r, r < length mods)) cols →
  returns (back_out cfg first n lo hi (as_values e) mods) (λ mods',
    length mods' = length mods ∧
    ∀ r m, mods !! r = Some m →
      mods' !! r = Some (xorb m (((lo <=? r) && (r <=? hi)) &&
                                 span_parity first n (λ c, default false (e !! c)) r))).
Proof using H_rep cols_nodup.
  intros Hfn He Hfit Hrows. unfold back_out.
  eapply returns_mono; [apply (for_u_inv 0 n _ (λ k mods', length mods' = length mods ∧
    ∀ r m, mods !! r = Some m → mods' !! r = Some (xorb m (((lo <=? r) && (r <=? hi)) &&
      span_parity first k (λ c, default false (e !! c)) r)))); [lia| |]|].
  - split; [done|]. intros r m ->. by rewrite andb_false_r, xorb_false_r.
  - intros k mods1 Hk [Hlen Hm1]. rewrite wrap_small by lia.
    destruct (lookup_lt_is_Some_2 e (k + first)) as [b Hb]; [lia|].
    destruct (lookup_lt_is_Some_2 cols (k + first)) as [col Hcol]; [lia|].
    rewrite (vget_ok _ _ (bitQ b)) by (by rewrite lookup_as_values, Hb). cbn [mbind res_bind]. rewrite fired_bitQ.
    assert (∀ r, span_parity first (k + 1) (λ c, default false (e !! c)) r =
      xorb (span_parity first k (λ c, default false (e !! c)) r) (bool_decide (r ∈ col) && b)) as Hsp.
    { intros r. rewrite Nat.add_1_r. cbn. unfold hit. by rewrite (Nat.add_comm first k), Hcol, Hb. }
    destruct b; cbn [negb].
    + rewrite (for_group (di_H (sw_inputs cfg)) cols (k + first) col) by done.
      rewrite Forall_forall in Hrows, cols_nodup.
      eapply returns_mono; [apply flip_rows|].
      * by eapply cols_nodup, list_elem_of_lookup_2.
      * rewrite Hlen. by eapply Hrows, list_elem_of_lookup_2.
      * intros mods2 [Hlen2 Hm2]. split; [lia|]. intros r m Hm.
        rewrite (Hm2 r _ (Hm1 r m Hm)), Hsp. f_equal. rewrite andb_true_r.
        destruct m, ((lo <=? r) && (r <=? hi)), (span_parity _ _ _ _), (bool_decide _); done.
    + apply returns_ok. split; [done|]. intros r m Hm. rewrite (Hm1 r m Hm), Hsp. by rewrite andb_false_r, xorb_false_r.
  - done.
Qed.

Lemma back_out_exact first n lo hi e mods :
  first + n ≤ length cols → length e = length cols → (Z.of_nat (length cols) < 2 ^ 32)%Z →
  Forall (Forall (λ r, r < length mods)) cols →
  back_out cfg first n lo hi (as_values e) mods =
    Ok (imap (λ r m, xorb m (((lo <=? r) && (r <=? hi)) &&
                             span_parity first n (λ c, default false (e !! c)) r)) mods).
Proof using H_rep cols_nodup.
  intros Hfn He Hfit Hrows. destruct (back_out_ok first n lo hi e mods Hfn He Hfit Hrows) as (mods'&->&Hlen&Hm).
  f_equal. apply list_eq_same_length with (length mods); [by rewrite length_imap|done|].
  intros r x y Hr Hx Hy. apply list_lookup_imap_Some in Hy as (m&Hmr&->). rewrite (Hm r m Hmr) in Hx. congruence.
Qed.
End columns.

(** * One window of the sliding-window decoder

    The geometry of the windows, the invariant that relates the buffers to
    the columns committed so far, and the effect of [decode_window] on it. *)

(** One element of the batch: its detectors, the pending modifications, the
    frame committed so far and whether all windows converged. *)
Record shot := mk_shot {
  sh_bits : list bool;
  sh_mods : list bool;
  sh_frame : list bool;
  sh_conv : bool
}.
Definition frame_of (sh : shot) : frame_result := mk_frame (sh_conv sh) (as_values (sh_frame sh)).
Definition bit_at (e : list bool) (c : nat) : bool := default false (e !! c).
Definition hard (f : frame_result) : list bool := convert_vec_soft_to_hard (fr_result f).

Lemma bit_overwrite a m wr e c :
  m ≤ length wr → a + m ≤ length e →
  bit_at (overwrite a m wr e) c = if decide (a ≤ c < a + m) then bit_at wr (c - a) else bit_at e c.
Proof.
  intros Hm He. unfold overwrite, bit_at. destruct (decide (c < a)) as [Hc|Hc].
  { rewrite lookup_app_l by (rewrite length_take; lia). rewrite lookup_take_lt by done. by rewrite decide_False by lia. }
  rewrite lookup_app_r by (rewrite length_take; lia). rewrite length_take.
  replace (a `min` length e) with a by lia. destruct (decide (c < a + m)) as [Hc2|Hc2].
  - rewrite lookup_app_l by (rewrite length_take; lia). rewrite lookup_take_lt by lia. by rewrite decide_True by lia.
  - rewrite lookup_app_r by (rewrite length_take; lia). rewrite length_take, lookup_drop.
    rewrite decide_False by lia. do 2 f_equal. lia.
Qed.

Lemma length_overwrite a m wr e :
  m ≤ length wr → a + m ≤ length e → length (overwrite a m wr e) = length e.
Proof. intros. unfold overwrite. rewrite !length_app, length_drop, !length_take. lia. Qed.

(** What the constructor establishes about the windows of the columns [cols]:
    window [w] covers the columns from [fc w] up to [lc w]. *)
Record windows_ok {R} (cfg : sw_config (R := R)) (cols : list (list nat)) (lc : nat → nat) : Prop := {
  wo_rep : represents (di_H (sw_inputs cfg)) cols;
  wo_block : di_num_error_mechanisms (sw_inputs cfg) = length cols;
  wo_nodup : Forall (λ col, NoDup col) cols;
  wo_rows : Forall (Forall (λ r, r < di_num_detectors (sw_inputs cfg))) cols;
  wo_cols_fit : (Z.of_nat (length cols) < 2 ^ 32)%Z;
  wo_rows_fit : (Z.of_nat (di_num_detectors (sw_inputs cfg)) < 2 ^ 32)%Z;
  wo_start : round_start (layout cfg) 0 = 0;
  wo_end : round_start (layout cfg) (num_detector_layers cfg) = di_num_detectors (sw_inputs cfg);
  wo_strict : ∀ r, r < num_detector_layers cfg → round_start (layout cfg) r < round_start (layout cfg) (r + 1);
  wo_layers : 2 ≤ num_detector_layers cfg;
  wo_layers_fit : (Z.of_nat (num_detector_layers cfg) < 2 ^ 32)%Z;
  wo_step : 1 ≤ step_size cfg ≤ window_size cfg;
  wo_windows : 1 ≤ num_windows cfg;
  wo_tile : (num_windows cfg - 1) * step_size cfg + window_size cfg = num_detector_layers cfg;
  wo_first : length (first_columns cfg) = num_windows cfg;
  wo_span : ∀ w a, first_columns cfg !! w = Some a → a ≤ lc w ≤ length cols;
  wo_next : ∀ w a a', first_columns cfg !! w = Some a → first_columns cfg !! (w + 1) = Some a' → a ≤ a' ≤ lc w;
  wo_last : lc (num_windows cfg - 1) = length cols;
  wo_empty : ∀ a c, first_columns cfg !! 0 = Some a → c < a → cols !! c = Some [];
  wo_before : ∀ w a c r, first_columns cfg !! w = Some a → c < a → hit cols c r = true →
    r < round_start (layout cfg) (w * step_size cfg + 1);
  wo_after : ∀ w a c r, first_columns cfg !! w = Some a → a ≤ c → hit cols c r = true →
    round_start (layout cfg) (w * step_size cfg) ≤ r
}.

Section window.
Context {R I : Type} (cfg : sw_config (R := R)) (cols : list (list nat)) (lc : nat → nat).
Hypothesis ok : windows_ok cfg cols lc.

Let nd := di_num_detectors (sw_inputs cfg).
Let n := length cols.
Let start r := round_start (layout cfg) r.
Let first w := start (w * step_size cfg).
Let fc w := default n (first_columns cfg !! w).

Lemma start_mono r r' : r ≤ r' → r' ≤ num_detector_layers cfg → start r ≤ start r'.
Proof using ok.
  induction 1 as [|r' ? IH]; intros Hr'; [done|].
  pose proof (wo_strict _ _ _ ok r'). rewrite Nat.add_1_r in *. unfold start in *. lia.
Qed.

Lemma start_le r : r ≤ num_detector_layers cfg → start r ≤ nd.
Proof using ok. intros Hr. unfold nd. rewrite <-(wo_end _ _ _ ok). by apply start_mono. Qed.

Lemma window_layers w : w < num_windows cfg → w * step_size cfg + window_size cfg ≤ num_detector_layers cfg.
Proof using ok.
  intros Hw. rewrite <-(wo_tile _ _ _ ok). pose proof (wo_step _ _ _ ok).
  assert (w * step_size cfg ≤ (num_windows cfg - 1) * step_size cfg) by (apply Nat.mul_le_mono_r; lia). lia.
Qed.

Lemma next_window_layers w : w + 1 < num_windows cfg → (w + 1) * step_size cfg + 1 ≤ num_detector_layers cfg.
Proof using ok.
  intros Hw. pose proof (window_layers (w + 1) Hw). pose proof (wo_step _ _ _ ok). lia.
Qed.

(** The invariant before window [w], with [k] columns committed. *)
Record committed (w k : nat) (sh : shot) : Prop := {
  cm_bits : length (sh_bits sh) = nd;
  cm_mods_len : length (sh_mods sh) = nd;
  cm_frame : length (sh_frame sh) = n;
  cm_mods : ∀ r m, sh_mods sh !! r = Some m → first w ≤ r → m = span_parity cols 0 k (bit_at (sh_frame sh)) r;
  cm_done : sh_conv sh = true → ∀ r b, sh_bits sh !! r = Some b → r < first w →
    span_parity cols 0 k (bit_at (sh_frame sh)) r = b
}.

(** The window's syndrome: the detectors with the modifications applied. *)
Definition window_bits (w : nat) (sh : shot) : list bool :=
  let hi := start (w * step_size cfg + window_size cfg) in
  zip_with xorb (slice (sh_bits sh) (first w) hi) (slice (sh_mods sh) (first w) hi).

(** A correct answer of the inner decoder for the window. *)
Record window_answer (w : nat) (syn : list bool) (f : frame_result) : Prop := {
  wa_len : length (fr_result f) = lc w - fc w;
  wa_parity : fr_converged f = true → ∀ i b, syn !! i = Some b →
    span_parity cols (fc w) (lc w - fc w) (λ c, bit_at (hard f) (c - fc w)) (first w + i) = b
}.

(** The element after the window: commit up to column [k], remove the
    committed errors from the rows [lo, hi]. *)
Definition advance (w k : nat) (sh : shot) (f : frame_result) : shot :=
  let e := overwrite (fc w) (k - fc w) (hard f) (sh_frame sh) in
  let lo := start ((w + 1) * step_size cfg) in
  let hi := start ((w + 1) * step_size cfg + 1) - 1 in
  mk_shot (sh_bits sh)
    (imap (λ r m, xorb m (((lo <=? r) && (r <=? hi)) &&
                          span_parity cols (fc w) (k - fc w) (bit_at e) r)) (sh_mods sh))
    e (sh_conv sh && fr_converged f).

(** The parity of a row over everything committed after the window. *)
Lemma advance_parity w k sh f r :
  length (sh_frame sh) = n → fc w ≤ k ≤ lc w → lc w ≤ n → length (fr_result f) = lc w - fc w →
  span_parity cols 0 k (bit_at (overwrite (fc w) (k - fc w) (hard f) (sh_frame sh))) r =
  xorb (span_parity cols 0 (fc w) (bit_at (sh_frame sh)) r)
       (span_parity cols (fc w) (k - fc w) (λ c, bit_at (hard f) (c - fc w)) r).
Proof using Type.
  clear ok. intros Hf Hk Hlc Hlen.
  assert (length (hard f) = lc w - fc w) as Hh by (unfold hard, convert_vec_soft_to_hard; by rewrite length_fmap).
  replace k with (fc w + (k - fc w)) at 1 by lia. rewrite span_parity_app, Nat.add_0_l. f_equal.
  - apply span_parity_ext. intros c Hc _. rewrite bit_overwrite by lia. by rewrite decide_False by lia.
  - apply span_parity_ext. intros c Hc _. rewrite bit_overwrite by lia. by rewrite decide_True by lia.
Qed.

(** The window's columns from [k] on do not touch the rows before the next
    window's first round. *)
Lemma window_tail w k e r :
  fc w ≤ k ≤ lc w → (∀ c, k ≤ c → hit cols c r = true → False) →
  span_parity cols (fc w) (lc w - fc w) e r = span_parity cols (fc w) (k - fc w) e r.
Proof using Type.
  clear ok. intros Hk Hout. replace (lc w - fc w) with ((k - fc w) + (lc w - k)) by lia.
  rewrite span_parity_app, (span_parity_none cols (fc w + (k - fc w))), xorb_false_r; [done|].
  intros c Hc. destruct (hit cols c r) eqn:Hh; [|done]. exfalso. apply (Hout c); [lia|done].
Qed.

Lemma lookup_window_bits w sh r :
  length (sh_bits sh) = nd → length (sh_mods sh) = nd → w < num_windows cfg →
  first w ≤ r < start (w * step_size cfg + window_size cfg) →
  ∃ b m, sh_bits sh !! r = Some b ∧ sh_mods sh !! r = Some m ∧ window_bits w sh !! (r - first w) = Some (xorb b m).
Proof using ok.
  intros Hb Hm Hw Hr. pose proof (start_le _ (window_layers w Hw)) as Hle.
  destruct (lookup_lt_is_Some_2 (sh_bits sh) r) as [b Hbr]; [lia|].
  destruct (lookup_lt_is_Some_2 (sh_mods sh) r) as [m Hmr]; [lia|].
  exists b, m. split_and!; [done|done|]. unfold window_bits.
  rewrite lookup_zip_with, !lookup_slice by lia. replace (first w + (r - first w)) with r by lia.
  by rewrite Hbr, Hmr.
Qed.

(** After committing up to [k], the rows of the window before [stop] are settled. *)
Lemma advance_done w k sh f stop r b :
  committed w (fc w) sh → w < num_windows cfg → fc w ≤ k ≤ lc w → lc w ≤ n →
  window_answer w (window_bits w sh) f → sh_conv sh && fr_converged f = true →
  stop ≤ start (w * step_size cfg + window_size cfg) →
  (∀ c, k ≤ c → ∀ r, r < stop → hit cols c r = true → False) →
  (∀ c, fc w ≤ c → ∀ r, r < first w → hit cols c r = true → False) →
  sh_bits sh !! r = Some b → r < stop →
  span_parity cols 0 k (bit_at (overwrite (fc w) (k - fc w) (hard f) (sh_frame sh))) r = b.
Proof using ok.
  intros [Hb Hml Hf Hm Hd] Hw Hk Hlc [Hlen Hpar] [Hc Hfc]%andb_true_iff Hstop Hafter Hbefore Hbit Hr.
  rewrite advance_parity by done. destruct (decide (r < first w)) as [Hlt|Hge].
  - rewrite (Hd Hc r b Hbit Hlt), (span_parity_none cols (fc w)), xorb_false_r; [done|].
    intros c Hcc. destruct (hit cols c r) eqn:Hh; [|done]. exfalso. eapply (Hbefore c); [|exact Hlt|exact Hh]. lia.
  - destruct (lookup_window_bits w sh r Hb Hml Hw) as (b'&m&Hb'&Hm'&Hwb); [lia|].
    rewrite Hbit in Hb'. injection Hb' as <-.
    rewrite <-(Hm r m Hm') by lia. rewrite <-(window_tail w k _ r Hk) by (intros c Hcc Hh; by eapply (Hafter c Hcc r)).
    specialize (Hpar Hfc _ _ Hwb). replace (first w + (r - first w)) with r in Hpar by lia. rewrite Hpar.
    by destruct b, m.
Qed.

Lemma fc_lookup w : w < num_windows cfg → first_columns cfg !! w = Some (fc w).
Proof using ok.
  intros Hw. unfold fc. destruct (lookup_lt_is_Some_2 (first_columns cfg) w) as [a Ha];
    [by rewrite (wo_first _ _ _ ok)|]. by rewrite Ha.
Qed.

Lemma after_hit w c r : w < num_windows cfg → fc w ≤ c → r < first w → hit cols c r = true → False.
Proof using ok.
  intros Hw Hc Hr Hh. pose proof (wo_after _ _ _ ok w _ c r (fc_lookup w Hw) Hc Hh). unfold first, start in Hr. lia.
Qed.

(** The invariant moves to the next window. *)
Lemma advance_committed w sh f :
  committed w (fc w) sh → w + 1 < num_windows cfg → window_answer w (window_bits w sh) f →
  committed (w + 1) (fc (w + 1)) (advance w (fc (w + 1)) sh f).
Proof using ok.
  intros Hcm Hw Ha. pose proof Hcm as [Hb Hml Hf Hm Hd].
  pose proof (wo_next _ _ _ ok w _ _ (fc_lookup w ltac:(lia)) (fc_lookup (w + 1) Hw)) as Hk.
  pose proof (wo_span _ _ _ ok w _ (fc_lookup w ltac:(lia))) as Hlc.
  pose proof (wa_len _ _ _ Ha) as Hlen.
  assert (length (hard f) = lc w - fc w) as Hh by (unfold hard, convert_vec_soft_to_hard; by rewrite length_fmap).
  pose proof (next_window_layers w Hw) as Hl. pose proof (wo_step _ _ _ ok) as Hstep.
  pose proof (wo_strict _ _ _ ok ((w + 1) * step_size cfg)) as Hs. specialize (Hs ltac:(lia)).
  assert (first w ≤ first (w + 1)) as Hff by (unfold first; apply start_mono; lia).
  split; cbn [advance sh_bits sh_mods sh_frame sh_conv].
  - done.
  - by rewrite length_imap.
  - by rewrite length_overwrite by (unfold n in *; lia).
  - intros r m' Hm' Hr. apply list_lookup_imap_Some in Hm' as (m&Hmr&->).
    rewrite advance_parity by (unfold n in *; done || lia).
    rewrite (Hm r m Hmr) by (unfold first in *; lia). f_equal.
    assert (span_parity cols (fc w) (fc (w + 1) - fc w) (bit_at (overwrite (fc w) (fc (w + 1) - fc w) (hard f) (sh_frame sh))) r =
            span_parity cols (fc w) (fc (w + 1) - fc w) (λ c, bit_at (hard f) (c - fc w)) r) as ->.
    { apply span_parity_ext. intros c Hc _. rewrite bit_overwrite by (unfold n in *; lia). by rewrite decide_True by lia. }
    unfold first in Hr. rewrite (proj2 (Nat.leb_le _ _)) by exact Hr. cbn [andb].
    destruct (Nat.leb_spec r (start ((w + 1) * step_size cfg + 1) - 1)) as [Hle|Hgt]; [done|].
    rewrite span_parity_none; [done|]. intros c Hc. destruct (hit cols c r) eqn:Hhit; [|done].
    pose proof (wo_before _ _ _ ok (w + 1) _ c r (fc_lookup (w + 1) Hw) ltac:(lia) Hhit). unfold start in *. lia.
  - intros Hconv r b Hbit Hr.
    eapply (advance_done w (fc (w + 1)) sh f (first (w + 1))); try done; [lia|lia| | |].
    + unfold first. apply start_mono; [lia|]. apply window_layers. lia.
    + intros c Hc r' Hr' Hh'. by eapply (after_hit (w + 1) c r').
    + intros c Hc r' Hr' Hh'. eapply (after_hit w c r'); [lia|done..].
Qed.

(** After the last window every detector is explained. *)
Lemma last_window sh f r b :
  let w := num_windows cfg - 1 in
  committed w (fc w) sh → window_answer w (window_bits w sh) f →
  sh_conv sh && fr_converged f = true → sh_bits sh !! r = Some b →
  span_parity cols 0 n (bit_at (overwrite (fc w) (lc w - fc w) (hard f) (sh_frame sh))) r = b.
Proof using ok.
  intros w Hcm Ha Hconv Hbit. pose proof (wo_windows _ _ _ ok).
  pose proof (wo_span _ _ _ ok w _ (fc_lookup w ltac:(lia))) as Hlc.
  assert (r < nd) as Hr by (rewrite <-(cm_bits _ _ _ Hcm); by eapply lookup_lt_Some).
  assert (start (w * step_size cfg + window_size cfg) = nd) as Hend
    by (unfold start, w; by rewrite (wo_tile _ _ _ ok), (wo_end _ _ _ ok)).
  replace n with (lc w) by (unfold w; rewrite (wo_last _ _ _ ok); done).
  eapply (advance_done w (lc w) sh f nd); try done; try lia.
  - intros c Hc r' Hr' Hh'. unfold hit in Hh'. rewrite (lookup_ge_None_2 cols c) in Hh'; [done|].
    unfold w in Hc. rewrite (wo_last _ _ _ ok) in Hc. done.
  - intros c Hc r' Hr' Hh'. eapply (after_hit w c r'); [lia|done..].
Qed.
End window.
