(* ===== verification/SlidingRun.v ===== *)
(** * Runs of the sliding-window decoder

    Feeding a block one detector layer at a time: which layers each window
    sees, when results are returned, and that the composed frame explains
    every detector when all inner decoders answered correctly. *)

From Stdlib Require Import QArith.
From S2P Require Import Prelude Ordering Tensor SparseMatrix SparseFacts RoundLayout DetectorErrorModel Decoder DecoderProps SlidingWindow SlidingStep.

Open Scope nat_scope.

Lemma slice_join {A} (l : list A) a b c :
  a ≤ b → b ≤ c → c ≤ length l → slice l a b ++ slice l b c = slice l a c.
Proof.
  intros Hab Hbc Hc. unfold slice. replace (c - a) with ((b - a) + (c - b)) by lia.
  rewrite <-take_take_drop. f_equal. rewrite drop_drop. do 2 f_equal. lia.
Qed.

Lemma const_map {A B} (x : B) (l : list A) : (λ _, x) <$> l = replicate (length l) x.
Proof. induction l as [|a l IH]; cbn; [done|]. by f_equal. Qed.

Section run.
Context {R I : Type} (inner_decode_batch : I → list (list Q) → res (option (list frame_result) * I)).
Context (cfg : sw_config (R := R)) (cols : list (list nat)) (lc : nat → nat).
Hypothesis ok : windows_ok cfg cols lc.

Let nd := di_num_detectors (sw_inputs cfg).
Let n := length cols.
Let start r := round_start (layout cfg) r.
Let first w := start (w * step_size cfg).
Let fc w := default n (first_columns cfg !! w).

(** The contract of the inner decoder of window [w], as a predicate on its
    state: it answers every batch, and a converged answer reproduces the
    window's syndrome. *)
Context (Inner : nat → I → Prop).
Hypothesis inner_sound : ∀ w d syns,
  w < num_windows cfg → Inner w d → syns ≠ [] →
  Forall (λ syn, length syn = start (w * step_size cfg + window_size cfg) - first w) syns →
  returns (inner_decode_batch d (as_values <$> syns)) (λ r, Inner w r.2 ∧
    ∃ fs, r.1 = Some fs ∧ Forall2 (window_answer cfg cols lc w) syns fs).

(** Layer [j] of a batch of blocks. *)
Definition layer (blocks : list (list bool)) (j : nat) : list (list Q) :=
  (λ bits, as_values (slice bits (start j) (start (j + 1)))) <$> blocks.

(** [k] layers received, [w] windows decoded. *)
Record stream_at (ws : list shot) (k w : nat) (st : sw_state (I := I)) : Prop := {
  sa_inner_len : length (inner_decoders st) = num_windows cfg;
  sa_inner : ∀ w d, inner_decoders st !! w = Some d → Inner w d;
  sa_rounds : window_rounds st = layer (sh_bits <$> ws) <$> seq (w * step_size cfg) (k - w * step_size cfg);
  sa_since : rounds_since_last_reset st = k;
  sa_batch : batch_size st = length ws;
  sa_decoded : num_windows_decoded st = w;
  sa_mods : syndrome_mods st = sh_mods <$> ws;
  sa_results : rw_results st = frame_of <$> ws
}.

(** No modification before the first window. *)
Lemma window_bits_0 sh :
  committed cfg cols 0 (fc 0) sh →
  window_bits cfg 0 sh = slice (sh_bits sh) 0 (start (window_size cfg)).
Proof using ok.
  intros [Hb Hml Hf Hm _]. unfold window_bits. cbn [Nat.mul Nat.add]. rewrite (wo_start _ _ _ ok).
  fold (start (window_size cfg)).
  assert (start (window_size cfg) ≤ nd) as Hle.
  { pose proof (window_layers cfg cols lc ok 0). pose proof (wo_windows _ _ _ ok).
    apply (start_le cfg cols lc ok). cbn in *. lia. }
  apply list_eq_same_length with (start (window_size cfg)).
  { rewrite length_slice; lia. }
  { rewrite length_zip_with, !length_slice; lia. }
  intros r x y Hr Hx Hy. rewrite lookup_slice in Hy by lia. rewrite lookup_zip_with, !lookup_slice in Hx by lia. cbn in *.
  rewrite Hy in Hx. cbn in Hx. destruct (lookup_lt_is_Some_2 (sh_mods sh) r) as [m Hmr]; [lia|].
  rewrite Hmr in Hx. cbn in Hx. injection Hx as <-. rewrite (Hm r m Hmr) by (cbn; rewrite (wo_start _ _ _ ok); lia).
  rewrite span_parity_none; [by rewrite xorb_false_r|]. intros c Hc. unfold hit.
  rewrite (wo_empty _ _ _ ok (fc 0) c); [done| |lia]. apply (fc_lookup cfg cols lc ok). pose proof (wo_windows _ _ _ ok). lia.
Qed.

(** Concatenating buffered layers gives a slice of the block. *)
Lemma gather_layers ws sh s a m :
  ws !! s = Some sh → length (sh_bits sh) = nd → a + m ≤ num_detector_layers cfg →
  for_u 0 m (λ slot syn, round ← vget (layer (sh_bits <$> ws) <$> seq a m) slot; r ← vget round s; Ok (syn ++ r)) [] =
    Ok (as_values (slice (sh_bits sh) (start a) (start (a + m)))).
Proof using ok.
  intros Hs Hb Ham. match goal with |- for_u _ _ ?f _ = _ => set (step := f) end.
  destruct (for_u_inv 0 m step (λ j syn, syn = as_values (slice (sh_bits sh) (start a) (start (a + j)))) [])
    as (syn&->&->); [lia| | |done].
  - rewrite Nat.add_0_r. unfold slice. by rewrite Nat.sub_diag.
  - intros j syn Hj ->. unfold step.
    rewrite (vget_ok _ j (layer (sh_bits <$> ws) (a + j))) by (by rewrite list_lookup_fmap, lookup_seq_lt by lia).
    cbn [mbind res_bind]. rewrite (vget_ok _ s (as_values (slice (sh_bits sh) (start (a + j)) (start (a + j + 1)))))
      by (unfold layer; by rewrite !list_lookup_fmap, Hs).
    cbn [mbind res_bind]. apply returns_ok. rewrite <-as_values_app, slice_join, Nat.add_assoc; [done| | |].
    + apply (start_mono cfg cols lc ok); lia.
    + apply (start_mono cfg cols lc ok); lia.
    + rewrite Hb. apply (start_le cfg cols lc ok). lia.
Qed.

Lemma assemble_ok ws w st :
  stream_at ws (w * step_size cfg + window_size cfg) w st → w < num_windows cfg →
  Forall (committed cfg cols w (fc w)) ws →
  assemble cfg st w (first w) (start (w * step_size cfg + window_size cfg) - first w) =
    Ok (as_values <$> (window_bits cfg w <$> ws)).
Proof using ok.
  intros Hst Hw Hws. unfold assemble. rewrite (sa_batch _ _ _ _ Hst), (sa_rounds _ _ _ _ Hst), (sa_mods _ _ _ _ Hst).
  rewrite <-list_fmap_compose. apply each_map; [done|by rewrite length_replicate|].
  intros s x sh Hx Hsh. apply lookup_replicate in Hx as [-> _].
  rewrite Forall_forall in Hws. pose proof (Hws sh (list_elem_of_lookup_2 _ _ _ Hsh)) as Hcm. pose proof Hcm as [Hb Hml _ _ _].
  replace (w * step_size cfg + window_size cfg - w * step_size cfg) with (window_size cfg) by lia.
  pose proof (window_layers cfg cols lc ok w Hw) as Hlay.
  rewrite (gather_layers ws sh) by done. cbn [mbind res_bind]. unfold compose.
  destruct (Nat.ltb_spec 0 w) as [Hpos|H0].
  - rewrite (vget_ok _ s (sh_mods sh)) by (by rewrite list_lookup_fmap, Hsh). cbn [mbind res_bind].
    pose proof (start_mono cfg cols lc ok (w * step_size cfg) (w * step_size cfg + window_size cfg)) as Hmono.
    pose proof (start_le cfg cols lc ok _ Hlay) as Hle. fold (first w) in *. fold start in Hmono, Hle.
    specialize (Hmono ltac:(lia) Hlay). change (start (w * step_size cfg)) with (first w) in *.
    set (hi := start (w * step_size cfg + window_size cfg)) in *.
    assert (length (slice (sh_bits sh) (first w) hi) = hi - first w) as Hlen by (rewrite length_slice; unfold nd in *; lia).
    rewrite <-Hlen at 1. rewrite apply_mods_ok by (rewrite Hlen; unfold nd in *; lia). rewrite Hlen.
    by replace (first w + (hi - first w)) with hi by lia.
  - assert (w = 0) as -> by lia. rewrite window_bits_0 by done. cbn [Nat.mul Nat.add]. unfold start. by rewrite (wo_start _ _ _ ok).
Qed.

(** The element after the last window. *)
Definition finish_shot (w : nat) (sh : shot) (f : frame_result) : shot :=
  mk_shot (sh_bits sh) (sh_mods sh) (overwrite (fc w) (lc w - fc w) (hard f) (sh_frame sh))
    (sh_conv sh && fr_converged f).

Definition next_shots (w : nat) (ws : list shot) (fs : list frame_result) : list shot :=
  if w + 1 <? num_windows cfg then zip_with (advance cfg cols w (fc (w + 1))) ws fs
  else zip_with (finish_shot w) ws fs.

Lemma zip_with_map {A B C} (g : A → B → C) (l : list A) (k : list B) :
  zip_with g l k = (λ p, g p.1 p.2) <$> zip l k.
Proof using Type.
  revert k. induction l as [|a l IH]; intros [|b k]; cbn; [done..|]. by rewrite IH.
Qed.

Lemma lookup_zip_pair {A B} (l : list A) (k : list B) s p :
  zip l k !! s = Some p → l !! s = Some p.1 ∧ k !! s = Some p.2.
Proof using Type.
  rewrite lookup_zip_with. destruct (l !! s), (k !! s); cbn; try done. by intros [= <-].
Qed.

(** [decode_window] hands the inner decoder the windows' syndromes, once, and
    updates the frames and the modifications of every element. *)
Lemma decode_window_ok ws w st :
  stream_at ws (w * step_size cfg + window_size cfg) w st → ws ≠ [] → w < num_windows cfg →
  Forall (committed cfg cols w (fc w)) ws →
  ∃ fs decs, Forall2 (window_answer cfg cols lc w) (window_bits cfg w <$> ws) fs ∧
    length decs = num_windows cfg ∧ (∀ w d, decs !! w = Some d → Inner w d) ∧
    decode_window inner_decode_batch cfg st =
      Ok (true, mk_sws decs (window_rounds st) (rounds_since_last_reset st) (batch_size st) w
            (sh_mods <$> next_shots w ws fs) (frame_of <$> next_shots w ws fs)).
Proof using ok inner_sound.
  intros Hst Hne Hw Hws. pose proof (window_layers cfg cols lc ok w Hw) as Hlay.
  pose proof (wo_layers_fit _ _ _ ok) as Hlf. pose proof (wo_step _ _ _ ok) as Hstep.
  pose proof (wo_rows_fit _ _ _ ok) as Hrf. pose proof (wo_cols_fit _ _ _ ok) as Hcf.
  pose proof (start_le cfg cols lc ok _ Hlay) as Hle.
  pose proof (start_mono cfg cols lc ok (w * step_size cfg) (w * step_size cfg + window_size cfg) ltac:(lia) Hlay) as Hmono.
  unfold decode_window. rewrite (sa_decoded _ _ _ _ Hst).
  rewrite (wrap_small 64 (w * step_size cfg)), (wrap_small 64 (w * step_size cfg + window_size cfg)) by lia.
  rewrite (u64_sub_le (round_start _ (_ + _))) by lia.
  pose proof (assemble_ok ws w st Hst Hw Hws) as Has. unfold first, start in Has. rewrite Has. cbn [mbind res_bind].
  destruct (lookup_lt_is_Some_2 (inner_decoders st) w) as [d Hd]; [by rewrite (sa_inner_len _ _ _ _ Hst)|].
  rewrite (vget_ok _ _ _ Hd). cbn [mbind res_bind].
  destruct (inner_sound w d (window_bits cfg w <$> ws) Hw (sa_inner _ _ _ _ Hst w d Hd)) as ([o d']&->&Hd'&fs&Ho&Hfs).
  { by destruct ws. }
  { apply Forall_fmap. eapply Forall_impl; [exact Hws|]. intros sh [Hb Hml _ _ _].
    unfold window_bits, compose, first, start. cbv beta zeta. rewrite length_zip_with, !length_slice; lia. }
  cbn [fst snd] in *. subst o. cbn [mbind res_bind].
  rewrite vset_ok by (by eapply lookup_lt_Some). cbn [mbind res_bind fst snd].
  pose proof (Forall2_length _ _ _ Hfs) as Hlen. rewrite length_fmap in Hlen.
  exists fs, (<[w:=d']> (inner_decoders st)). split; [done|]. split; [by rewrite length_insert, (sa_inner_len _ _ _ _ Hst)|].
  split.
  { intros w' d0 Hw'. destruct (decide (w' = w)) as [->|].
    - rewrite list_lookup_insert_eq in Hw' by (by eapply lookup_lt_Some). by injection Hw' as <-.
    - rewrite list_lookup_insert_ne in Hw' by done. by eapply (sa_inner _ _ _ _ Hst). }
  rewrite (sa_batch _ _ _ _ Hst), (sa_results _ _ _ _ Hst), (sa_mods _ _ _ _ Hst).
  destruct (lookup_lt_is_Some_2 fs 0) as [f0 Hf0]; [destruct ws; [done|cbn in *; lia]|].
  rewrite (vget_ok _ _ _ Hf0). cbn [mbind res_bind].
  rewrite (each_map _ _ _ (zip ws fs) (λ p, mk_frame (sh_conv p.1 && fr_converged p.2) (as_values (sh_frame p.1)))).
  2:{ rewrite length_zip_with. lia. }
  2:{ by rewrite length_fmap. }
  2:{ intros s x [sh f] Hx [Hsh Hf]%lookup_zip_pair. rewrite list_lookup_fmap, Hsh in Hx. injection Hx as <-.
      by rewrite (vget_ok _ _ _ Hf). }
  cbn [mbind res_bind].
  rewrite (each_map _ _ _ fs hard); [|done|by rewrite length_replicate|].
  2:{ intros s x f Hx Hf. by rewrite (vget_ok _ _ _ Hf). }
  cbn [mbind res_bind]. rewrite (vget_ok _ _ _ (fc_lookup cfg cols lc ok w Hw)). cbn [mbind res_bind].
  change (default (length cols) (first_columns cfg !! w)) with (fc w).
  pose proof (wo_span _ _ _ ok w _ (fc_lookup cfg cols lc ok w Hw)) as Hspan.
  change (default (length cols) (first_columns cfg !! w)) with (fc w) in Hspan.
  assert (∀ s sh f, ws !! s = Some sh → fs !! s = Some f → length (hard f) = lc w - fc w ∧ length (sh_frame sh) = length cols) as Hlens.
  { intros s sh f Hsh Hf. rewrite Forall2_lookup in Hfs. specialize (Hfs s). rewrite list_lookup_fmap, Hsh, Hf in Hfs.
    inversion_clear Hfs as [? ? [Hwl _]|]. unfold hard, convert_vec_soft_to_hard. rewrite length_fmap.
    rewrite Forall_forall in Hws. destruct (Hws sh (list_elem_of_lookup_2 _ _ _ Hsh)). done. }
  rewrite (u64_sub_le (num_windows cfg)) by (pose proof (wo_tile _ _ _ ok); nia).
  unfold next_shots. destruct (Nat.ltb_spec (w + 1) (num_windows cfg)) as [Hnext|Hlast].
  - rewrite (proj2 (Nat.ltb_lt w (num_windows cfg - 1))) by lia.
    rewrite (vget_ok _ _ _ (fc_lookup cfg cols lc ok (w + 1) Hnext)). cbn [mbind res_bind].
    change (default (length cols) (first_columns cfg !! (w + 1))) with (fc (w + 1)).
    pose proof (wo_next _ _ _ ok w _ _ (fc_lookup cfg cols lc ok w Hw) (fc_lookup cfg cols lc ok (w + 1) Hnext)) as Hnx.
    change (default (length cols) (first_columns cfg !! w)) with (fc w) in Hnx.
    change (default (length cols) (first_columns cfg !! (w + 1))) with (fc (w + 1)) in Hnx.
    rewrite (u64_sub_le (fc (w + 1))) by lia. rewrite (zip_with_map (advance _ _ _ _)), <-(list_fmap_compose _ sh_mods), <-(list_fmap_compose _ frame_of).
    rewrite (each_map _ _ _ (zip ws fs) (λ p, frame_of (advance cfg cols w (fc (w + 1)) p.1 p.2))).
    2:{ rewrite length_zip_with. lia. }
    2:{ rewrite length_fmap, length_zip_with. lia. }
    2:{ intros s x [sh f] Hx Hp. rewrite list_lookup_fmap, Hp in Hx. injection Hx as <-.
        apply lookup_zip_pair in Hp as [Hsh Hf]. cbn [fst snd] in *. destruct (Hlens s sh f Hsh Hf) as [Hhl Hel].
        rewrite (vget_ok _ s (hard f)) by (by rewrite list_lookup_fmap, Hf). cbn [mbind res_bind fr_result].
        rewrite commit_ok by lia. done. }
    cbn [mbind res_bind].
    pose proof (next_window_layers cfg cols lc ok w Hnext) as Hnl.
    rewrite (wrap_small 64 ((w + 1) * step_size cfg)), (wrap_small 64 ((w + 1) * step_size cfg + 1)) by lia.
    pose proof (wo_strict _ _ _ ok ((w + 1) * step_size cfg) ltac:(lia)) as Hs.
    pose proof (start_le cfg cols lc ok _ Hnl) as Hnle.
    rewrite (u64_sub_le (round_start _ (_ + 1))) by lia.
    rewrite (each_map _ _ _ (zip ws fs) (λ p, sh_mods (advance cfg cols w (fc (w + 1)) p.1 p.2))).
    2:{ rewrite length_zip_with. lia. }
    2:{ by rewrite length_fmap. }
    2:{ intros s x [sh f] Hx Hp. pose proof Hp as [Hsh Hf]%lookup_zip_pair. cbn [fst snd] in *.
        destruct (Hlens s sh f Hsh Hf) as [Hhl Hel]. rewrite list_lookup_fmap, Hsh in Hx. injection Hx as <-.
        rewrite (vget_ok _ s (frame_of (advance cfg cols w (fc (w + 1)) sh f))) by (by rewrite list_lookup_fmap, Hp).
        cbn [mbind res_bind fr_result frame_of]. rewrite Forall_forall in Hws.
        destruct (Hws sh (list_elem_of_lookup_2 _ _ _ Hsh)) as [_ Hml _ _ _].
        apply (back_out_exact cols cfg (wo_rep _ _ _ ok) (wo_nodup _ _ _ ok)); [lia| |done|].
        - cbn [advance sh_frame]. fold n. fold (fc w). rewrite length_overwrite; [done|lia|unfold n in *; lia].
        - rewrite Hml. apply (wo_rows _ _ _ ok). }
    done.
  - rewrite (proj2 (Nat.ltb_ge w (num_windows cfg - 1))) by lia.
    assert (w = num_windows cfg - 1) as Hwl by lia.
    rewrite (vget_ok _ 0 (hard f0)) by (by rewrite list_lookup_fmap, Hf0). cbn [mbind res_bind].
    destruct (lookup_lt_is_Some_2 ws 0) as [sh0 Hsh0]; [destruct ws; [done|cbn; lia]|].
    rewrite (proj1 (Hlens 0 sh0 f0 Hsh0 Hf0)). rewrite (zip_with_map (finish_shot w)), <-(list_fmap_compose _ sh_mods), <-(list_fmap_compose _ frame_of).
    rewrite (each_map _ _ _ (zip ws fs) (λ p, frame_of (finish_shot w p.1 p.2))).
    2:{ rewrite length_zip_with. lia. }
    2:{ rewrite length_fmap, length_zip_with. lia. }
    2:{ intros s x [sh f] Hx Hp. rewrite list_lookup_fmap, Hp in Hx. injection Hx as <-.
        apply lookup_zip_pair in Hp as [Hsh Hf]. cbn [fst snd] in *. destruct (Hlens s sh f Hsh Hf) as [Hhl Hel].
        rewrite (vget_ok _ s (hard f)) by (by rewrite list_lookup_fmap, Hf). cbn [mbind res_bind fr_result].
        rewrite commit_ok by lia. done. }
    cbn [mbind res_bind]. do 3 f_equal.
    apply list_eq. intros s. rewrite !list_lookup_fmap, lookup_zip_with.
    destruct (ws !! s) as [sh|] eqn:Hsh; cbn; [|done].
    destruct (lookup_lt_is_Some_2 fs s) as [f Hf]; [apply lookup_lt_Some in Hsh; lia|]. by rewrite Hf.
Qed.

(** ** Layers *)

(** A decoder between blocks. *)
Record fresh (st : sw_state (I := I)) : Prop := {
  fr_inner_len : length (inner_decoders st) = num_windows cfg;
  fr_inner : ∀ w d, inner_decoders st !! w = Some d → Inner w d;
  fr_since : rounds_since_last_reset st = 0
}.

Definition new_shot (bits : list bool) : shot :=
  mk_shot bits (replicate nd false) (replicate n false) true.

Lemma as_values_false m : as_values (replicate m false) = replicate m 0%Q.
Proof using Type. unfold as_values. by rewrite fmap_replicate. Qed.

Lemma initialized blocks st :
  fresh st → stream_at (new_shot <$> blocks) 0 0 (initialize_window cfg (length blocks) st).
Proof using ok.
  intros [Hl Hi _]. split; cbn; try done.
  - by rewrite length_fmap.
  - rewrite <-list_fmap_compose. symmetry. exact (const_map _ blocks).
  - rewrite <-list_fmap_compose. symmetry. rewrite (wo_block _ _ _ ok).
    rewrite <-as_values_false.
    exact (const_map (mk_frame true (as_values (replicate n false))) blocks).
Qed.

Lemma new_committed bits : length bits = nd → committed cfg cols 0 (fc 0) (new_shot bits).
Proof using ok.
  intros Hb. split; cbn; [done|by rewrite length_replicate..| |].
  - intros r m [-> _]%lookup_replicate _. symmetry. apply span_parity_none. intros c Hc. unfold hit.
    rewrite (wo_empty _ _ _ ok (fc 0) c); [done| |lia].
    apply (fc_lookup cfg cols lc ok). pose proof (wo_windows _ _ _ ok). lia.
  - intros _ r b _ Hr. rewrite (wo_start _ _ _ ok) in Hr. lia.
Qed.

Lemma next_committed w ws fs :
  w + 1 < num_windows cfg → Forall (committed cfg cols w (fc w)) ws →
  Forall2 (window_answer cfg cols lc w) (window_bits cfg w <$> ws) fs →
  Forall (committed cfg cols (w + 1) (fc (w + 1))) (next_shots w ws fs).
Proof using ok.
  intros Hw Hws Hfs. unfold next_shots. rewrite (proj2 (Nat.ltb_lt _ _) Hw).
  apply Forall_forall. intros sh (s&Hs)%list_elem_of_lookup. rewrite lookup_zip_with in Hs.
  rewrite Forall2_lookup in Hfs. specialize (Hfs s). rewrite list_lookup_fmap in Hfs.
  destruct (ws !! s) as [sh0|] eqn:Hsh0; [|done]. destruct (fs !! s) as [f|]; [|done]. cbn in *. injection Hs as <-.
  inversion_clear Hfs as [? ? Ha|]. apply (advance_committed cfg cols lc ok); [|done|done].
  rewrite Forall_forall in Hws. by eapply Hws, list_elem_of_lookup_2.
Qed.

Lemma next_bits w ws fs : length fs = length ws → sh_bits <$> next_shots w ws fs = sh_bits <$> ws.
Proof using Type.
  intros Hlen. unfold next_shots. destruct (w + 1 <? num_windows cfg).
  all: apply list_eq; intros s; rewrite !list_lookup_fmap, lookup_zip_with.
  all: destruct (ws !! s) as [sh|] eqn:Hsh; cbn; [|done].
  all: destruct (lookup_lt_is_Some_2 fs s) as [f ->]; [apply lookup_lt_Some in Hsh; lia|]; done.
Qed.

Lemma push_rounds ws k w st :
  stream_at ws k w st → w * step_size cfg ≤ k →
  window_rounds st ++ [layer (sh_bits <$> ws) k] = layer (sh_bits <$> ws) <$> seq (w * step_size cfg) (k + 1 - w * step_size cfg).
Proof using Type cols.
  intros Hst Hk. rewrite (sa_rounds _ _ _ _ Hst). replace (k + 1 - w * step_size cfg) with (k - w * step_size cfg + 1) by lia.
  rewrite seq_app, fmap_app. cbn. do 3 f_equal. lia.
Qed.

(** What a call with layer [k] does. *)
Inductive layer_outcome (ws : list shot) (k w : nat) : res (option (list frame_result) * sw_state (I := I)) → Prop :=
  | outcome_buffered st : k + 1 < w * step_size cfg + window_size cfg → stream_at ws (k + 1) w st →
      layer_outcome ws k w (Ok (Some [], st))
  | outcome_window fs st : k + 1 = w * step_size cfg + window_size cfg → w + 1 < num_windows cfg →
      Forall2 (window_answer cfg cols lc w) (window_bits cfg w <$> ws) fs →
      stream_at (next_shots w ws fs) (k + 1) (w + 1) st →
      layer_outcome ws k w (Ok (Some [], st))
  | outcome_block fs st : k + 1 = w * step_size cfg + window_size cfg → w + 1 = num_windows cfg →
      Forall2 (window_answer cfg cols lc w) (window_bits cfg w <$> ws) fs → fresh st →
      layer_outcome ws k w (rs ← project_results cfg (frame_of <$> next_shots w ws fs); Ok (Some rs, st)).

Lemma push_layer_ok ws k w st :
  let st1 := if rounds_since_last_reset st =? 0 then initialize_window cfg (length ws) st else st in
  stream_at ws k w st1 → ws ≠ [] → w < num_windows cfg → Forall (committed cfg cols w (fc w)) ws →
  w * step_size cfg ≤ k < w * step_size cfg + window_size cfg →
  layer_outcome ws k w (push_layer inner_decode_batch cfg (layer (sh_bits <$> ws) k) st).
Proof using ok inner_sound.
  intros st1 Hst Hne Hw Hws Hk. pose proof (window_layers cfg cols lc ok w Hw) as Hlay.
  pose proof (wo_step _ _ _ ok) as Hstep. pose proof (wo_rows_fit _ _ _ ok) as Hrf.
  assert (length (layer (sh_bits <$> ws) k) = length ws) as Hll by (unfold layer; by rewrite !length_fmap).
  unfold push_layer. rewrite Hll. fold st1. rewrite (sa_batch _ _ _ _ Hst), Nat.eqb_refl. cbn [negb throw_if mbind res_bind].
  rewrite (sa_since _ _ _ _ Hst), foldM_guard.
  pose proof (start_le cfg cols lc ok (k + 1) ltac:(lia)) as Hle.
  pose proof (start_mono cfg cols lc ok k (k + 1) ltac:(lia) ltac:(lia)) as Hmono.
  assert (existsb (λ r, negb (length r =? round_width (layout cfg) k)) (layer (sh_bits <$> ws) k) = false) as ->.
  { apply not_true_iff_false. intros (r&Hr&Hbad)%existsb_exists. apply negb_true_iff, Nat.eqb_neq in Hbad. apply Hbad.
    apply list_elem_of_In, list_elem_of_fmap in Hr as (bits&->&(sh&->&Hsh)%list_elem_of_fmap).
    rewrite Forall_forall in Hws. destruct (Hws sh Hsh) as [Hb _ _ _ _].
    unfold round_width, start. rewrite u64_sub_le by lia. rewrite length_as_values, length_slice; [done|lia]. }
  cbn [mbind res_bind]. set (st2 := mk_sws _ _ _ _ _ _ _).
  assert (stream_at ws (k + 1) w st2) as Hst2.
  { pose proof (push_rounds ws k w st1 Hst ltac:(lia)) as Hpr. destruct Hst. split; cbn; done. }
  rewrite (sa_rounds _ _ _ _ Hst2), length_fmap, length_seq.
  destruct (Nat.ltb_spec (k + 1 - w * step_size cfg) (window_size cfg)) as [Hlt|Hge].
  { constructor; [lia|done]. }
  assert (k + 1 = w * step_size cfg + window_size cfg) as Hk1 by lia. rewrite Hk1 in Hst2.
  destruct (decode_window_ok ws w st2 Hst2 Hne Hw Hws) as (fs&decs&Hfs&Hdl&Hdi&->).
  cbn [mbind res_bind negb num_windows_decoded]. cbn [inner_decoders window_rounds rounds_since_last_reset batch_size syndrome_mods rw_results].
  pose proof (Forall2_length _ _ _ Hfs) as Hlen. rewrite length_fmap in Hlen.
  destruct (Nat.eqb_spec (w + 1) (num_windows cfg)) as [Hlast|Hmore].
  - apply outcome_block; [done|done|done|]. by split.
  - rewrite (sa_rounds _ _ _ _ Hst2), length_fmap, length_seq. rewrite (proj2 (Nat.ltb_ge _ _)) by lia.
    eapply outcome_window; [done|lia|done|]. split; cbn; try done.
    + rewrite next_bits by done. rewrite <-fmap_drop. f_equal.
      replace (w * step_size cfg + window_size cfg - w * step_size cfg) with (step_size cfg + (k + 1 - (w + 1) * step_size cfg)) by lia.
      rewrite seq_app, drop_app_length' by (by rewrite length_seq). f_equal. lia.
    + unfold next_shots. destruct (w + 1 <? num_windows cfg); rewrite length_zip_with; lia.
Qed.

(** ** Blocks *)

(** A frame that explains the detectors of a block when it is marked as
    converged: H times the frame is the block. *)
Definition explains (bits : list bool) (f : frame_result) : Prop :=
  ∃ e, fr_result f = as_values e ∧ length e = n ∧
    (fr_converged f = true → ∀ r b, bits !! r = Some b → span_parity cols 0 n (bit_at e) r = b).

Lemma finish_explains ws fs w :
  w + 1 = num_windows cfg → Forall (committed cfg cols w (fc w)) ws →
  Forall2 (window_answer cfg cols lc w) (window_bits cfg w <$> ws) fs →
  Forall2 explains (sh_bits <$> ws) (frame_of <$> next_shots w ws fs).
Proof using ok.
  intros Hw Hws Hfs. assert (w = num_windows cfg - 1) as Hwl by lia.
  unfold next_shots. rewrite (proj2 (Nat.ltb_ge _ _)) by lia.
  revert fs Hfs. induction Hws as [|sh ws Hcm Hws IH]; intros fs Hfs.
  { by apply Forall2_nil_inv_l in Hfs as ->. }
  cbn in Hfs. apply Forall2_cons_inv_l in Hfs as (f&fs'&Ha&Hfs&->). cbn. constructor; [|by apply IH]. pose proof (wa_len _ _ _ _ _ _ Ha) as Hlen.
  pose proof (wo_span _ _ _ ok w _ (fc_lookup cfg cols lc ok w ltac:(lia))) as Hspan.
  exists (overwrite (fc w) (lc w - fc w) (hard f) (sh_frame sh)). split; [done|]. split.
  - rewrite length_overwrite; [apply Hcm| |].
    + unfold hard, convert_vec_soft_to_hard. rewrite length_fmap. unfold fc, n. lia.
    + rewrite (cm_frame _ _ _ _ _ Hcm). unfold fc, n. lia.
  - cbn. intros Hconv r b Hb. subst w. by eapply (last_window cfg cols lc ok).
Qed.

Lemma layer_parts blocks k :
  Forall (λ bits, length bits = nd) blocks → k < num_detector_layers cfg →
  foldM (λ s parts, p ← vslice s (round_start (layout cfg) k)
      (u64 (round_start (layout cfg) k + round_width (layout cfg) k)); Ok (parts ++ [p]))
    (as_values <$> blocks) [] = Ok (layer blocks k).
Proof using ok.
  intros Hb Hk. pose proof (start_le cfg cols lc ok (k + 1) ltac:(lia)) as Hle.
  pose proof (start_mono cfg cols lc ok k (k + 1) ltac:(lia) ltac:(lia)) as Hmono.
  pose proof (wo_rows_fit _ _ _ ok) as Hrf.
  assert (u64 (round_start (layout cfg) k + round_width (layout cfg) k) = start (k + 1)) as ->
    by (unfold round_width, start; rewrite u64_sub_le, wrap_small by lia; lia).
  rewrite foldM_map.
  cut (∀ acc, foldM (λ bits parts, p ← vslice (as_values bits) (round_start (layout cfg) k) (start (k + 1)); Ok (parts ++ [p]))
    blocks acc = Ok (acc ++ layer blocks k)); [intros Hc; by rewrite Hc|].
  induction Hb as [|bits blocks Hbits Hb IH]; intros acc; cbn [foldM]; [by rewrite app_nil_r|].
  assert (vslice (as_values bits) (round_start (layout cfg) k) (start (k + 1)) =
    Ok (as_values (slice bits (start k) (start (k + 1))))) as ->.
  { unfold vslice. rewrite decide_True by (rewrite length_as_values; unfold start, nd in *; lia).
    by rewrite as_values_slice. }
  cbn [mbind res_bind]. rewrite IH, <-app_assoc. done.
Qed.

Lemma decode_layer fuel blocks k st :
  Forall (λ bits, length bits = nd) blocks → blocks ≠ [] → k < num_detector_layers cfg →
  decode_batch_fuel inner_decode_batch cfg (S fuel) (layer blocks k) st = push_layer inner_decode_batch cfg (layer blocks k) st.
Proof using ok.
  intros Hb Hne Hk. destruct Hb as [|bits blocks Hbits Hb]; [done|]. cbn [decode_batch_fuel layer fmap list_fmap].
  pose proof (wo_layers _ _ _ ok). pose proof (start_le cfg cols lc ok (k + 1) ltac:(lia)) as Hle.
  rewrite length_as_values, length_slice by (unfold start, nd in *; lia).
  assert (start (k + 1) - start k < nd) as Hlt.
  { destruct (decide (k = 0)) as [->|].
    - pose proof (wo_strict _ _ _ ok 1 ltac:(lia)). pose proof (start_le cfg cols lc ok 2 ltac:(lia)).
      unfold start, nd in *. cbn [Nat.add] in *. lia.
    - pose proof (wo_strict _ _ _ ok 0 ltac:(lia)). pose proof (start_le cfg cols lc ok k ltac:(lia)).
      pose proof (start_mono cfg cols lc ok 1 k ltac:(lia) ltac:(lia)). unfold start, nd in *. cbn [Nat.add] in *. lia. }
  by rewrite (proj2 (Nat.eqb_neq _ _)) by (unfold start, nd in *; lia).
Qed.

Lemma run_layers blocks m : 
  sw_request cfg = errors → Forall (λ bits, length bits = nd) blocks → blocks ≠ [] →
  ∀ k w ws st results, k + m = num_detector_layers cfg → 0 < m → sh_bits <$> ws = blocks →
  stream_at ws k w (if rounds_since_last_reset st =? 0 then initialize_window cfg (length ws) st else st) →
  w < num_windows cfg → Forall (committed cfg cols w (fc w)) ws →
  w * step_size cfg ≤ k < w * step_size cfg + window_size cfg →
  returns (layers_loop cfg (decode_batch_fuel inner_decode_batch cfg 1) (as_values <$> blocks) m k results st) (λ r,
    fresh r.2 ∧ ∃ fs, r.1 = Some fs ∧ Forall2 explains blocks fs).
Proof using ok inner_sound.
  intros Hreq Hb Hne. induction m as [|m IH]; intros k w ws st results Hk Hm Hbits Hst Hw Hws Hkw; [lia|].
  pose proof (wo_step _ _ _ ok) as Hstep. pose proof (window_layers cfg cols lc ok w Hw) as Hlay.
  cbn [layers_loop]. rewrite layer_parts by (done || lia). cbn [mbind res_bind].
  rewrite decode_layer by (done || lia). rewrite <-Hbits.
  assert (ws ≠ []) as Hwne by (intros ->; done).
  destruct (push_layer_ok ws k w st Hst Hwne Hw Hws Hkw) as [st' Hlt Hst'|fs st' Hk1 Hw1 Hfs Hst'|fs st' Hk1 Hw1 Hfs Hfr];
    cbn [mbind res_bind]; rewrite ?Hbits.
  - apply (IH (k + 1) w ws); try done; [lia|lia| |lia].
    rewrite (sa_since _ _ _ _ Hst'), (proj2 (Nat.eqb_neq _ _)) by lia. done.
  - pose proof (window_layers cfg cols lc ok (w + 1) Hw1) as Hlay1.
    pose proof (Forall2_length _ _ _ Hfs) as Hlen. rewrite length_fmap in Hlen.
    apply (IH (k + 1) (w + 1) (next_shots w ws fs)); try done; [lia|lia| | | |lia].
    + by rewrite next_bits.
    + rewrite (sa_since _ _ _ _ Hst'), (proj2 (Nat.eqb_neq _ _)) by lia. done.
    + by apply next_committed.
  - assert (m = 0) as ->.
    { pose proof (wo_tile _ _ _ ok). assert (num_windows cfg - 1 = w) as Hx by lia. rewrite Hx in *. lia. }
    unfold project_results. rewrite Hreq. cbn [mbind res_bind layers_loop]. apply returns_ok.
    split; [done|]. eexists. split; [done|]. rewrite <-Hbits. by apply finish_explains.
Qed.

(** A whole block is fed to the layers' loop. *)
Lemma decode_batch_blocks blocks st :
  Forall (λ bits, length bits = nd) blocks → blocks ≠ [] →
  decode_batch inner_decode_batch cfg (as_values <$> blocks) st =
  layers_loop cfg (decode_batch_fuel inner_decode_batch cfg 1) (as_values <$> blocks) (num_detector_layers cfg) 0 None st.
Proof using Type.
  clear ok inner_sound. intros Hb Hne. unfold decode_batch. cbn [decode_batch_fuel].
  destruct blocks as [|bits blocks]; [done|]. cbn [fmap list_fmap].
  pose proof Hb as [Hbits _]%Forall_cons. rewrite length_as_values, Hbits. fold nd. rewrite Nat.eqb_refl.
  rewrite foldM_guard.
  assert (existsb (λ s, negb (length s =? nd)) (as_values bits :: (as_values <$> blocks)) = false) as ->; [|done].
  apply not_true_iff_false. intros (s&Hs&Hbad)%existsb_exists. apply negb_true_iff, Nat.eqb_neq in Hbad. apply Hbad.
  change (as_values bits :: (as_values <$> blocks)) with (as_values <$> bits :: blocks) in Hs.
  apply list_elem_of_In, list_elem_of_fmap in Hs as (b&->&Hin). rewrite length_as_values.
  rewrite Forall_forall in Hb. by apply Hb.
Qed.

(** Decoding whole blocks. *)
Lemma decode_blocks blocks st :
  sw_request cfg = errors → Forall (λ bits, length bits = nd) blocks → blocks ≠ [] → fresh st →
  returns (decode_batch inner_decode_batch cfg (as_values <$> blocks) st) (λ r,
    fresh r.2 ∧ ∃ fs, r.1 = Some fs ∧ Forall2 explains blocks fs).
Proof using ok inner_sound.
  intros Hreq Hb Hne Hfr. pose proof (wo_layers _ _ _ ok). pose proof (wo_windows _ _ _ ok).
  rewrite decode_batch_blocks by done.
  apply (run_layers blocks (num_detector_layers cfg) Hreq Hb Hne 0 0 (new_shot <$> blocks)); try lia.
  - rewrite <-list_fmap_compose. apply list_fmap_id.
  - rewrite (fr_since _ Hfr), Nat.eqb_refl, length_fmap. by apply initialized.
  - apply Forall_fmap. eapply Forall_impl; [exact Hb|]. apply new_committed.
  - pose proof (wo_step _ _ _ ok). lia.
Qed.
End run.
