(* ===== verification/SlidingBuild.v ===== *)
(** * The columns of a window

    For a sorted matrix whose mechanisms touch at most two consecutive rounds,
    the columns [get_pcm_for_rounds] selects for consecutive windows are
    intervals that overlap as the commit of the sliding-window decoder needs. *)

From Stdlib Require Import QArith.
From S2P Require Import Prelude Ordering Tensor SparseMatrix SparseFacts SparseCanon SparseProps RoundLayout PcmSort PcmColumns PcmProps HetMap DetectorErrorModel Decoder DecoderProps SlidingWindow SlidingStep SlidingRun.

Open Scope nat_scope.

Lemma sorted_head_le x col r : StronglySorted lt (x :: col) → r ∈ x :: col → x ≤ r.
Proof.
  intros [_ Hx]%StronglySorted_inv Hr. apply elem_of_cons in Hr as [->|Hr]; [done|].
  rewrite Forall_forall in Hx. specialize (Hx r Hr). lia.
Qed.

Lemma sorted_last_ge col r : StronglySorted lt col → r ∈ col → r ≤ List.last col 0.
Proof.
  induction 1 as [|x col Hs IH Hx]; intros Hr; [by apply not_elem_of_nil in Hr|].
  destruct col as [|y col].
  - apply list_elem_of_singleton in Hr. cbn. lia.
  - change (List.last (x :: y :: col) 0) with (List.last (y :: col) 0).
    apply elem_of_cons in Hr as [->|Hr]; [|by apply IH].
    rewrite Forall_forall in Hx. specialize (Hx y ltac:(set_solver)).
    assert (y ≤ List.last (y :: col) 0); [|lia].
    clear -Hs. revert y Hs. induction col as [|z col IH]; intros y Hs; [done|].
    apply StronglySorted_inv in Hs as [Hs Hy]. rewrite Forall_forall in Hy. specialize (Hy z ltac:(set_solver)).
    specialize (IH z Hs). change (List.last (y :: z :: col) 0) with (List.last (z :: col) 0). lia.
Qed.

Lemma last_elem (x : nat) col : List.last (x :: col) 0 ∈ x :: col.
Proof.
  revert x. induction col as [|y col IH]; intros x; [cbn; set_solver|].
  change (List.last (x :: y :: col) 0) with (List.last (y :: col) 0). apply elem_of_cons. right. apply IH.
Qed.

Section geom.
Context (s b nd : nat).
Hypothesis Hc : consistent s b nd.
Hypothesis Hb : 0 < b.
Context (cols : list (list nat)).
Hypothesis cols_rows : Forall (Forall (λ r, r < nd)) cols.
Hypothesis cols_sorted : sorted_groups cols.
Hypothesis cols_fit : (Z.of_nat (length cols) < 2 ^ 32)%Z.

Let l := the_layout s b nd.
Let rounds := rounds_of s b nd.

Definition round_of (r : nat) : nat := match row_to_round l r with Ok x => x | _ => 0 end.

Lemma round_of_ok r : r < nd →
  row_to_round l r = Ok (round_of r) ∧ round_of r < rounds ∧
  round_start l (round_of r) ≤ r < round_start l (round_of r + 1).
Proof using All.
  intros Hr. destruct (row_to_round_ok s b nd Hc r Hr) as (x&Hx&Hlt&Hrng).
  unfold round_of. fold l in Hx. by rewrite Hx.
Qed.

Lemma round_of_unique r x : r < nd → x < rounds → round_start l x ≤ r < round_start l (x + 1) → round_of r = x.
Proof using All.
  intros Hr Hx Hrng. destruct (round_of_ok r Hr) as (_&Hlt&Hrng'). by eapply (round_unique s b nd r).
Qed.

Lemma round_of_mono r r' : r ≤ r' → r' < nd → round_of r ≤ round_of r'.
Proof using All.
  intros Hrr Hr'. destruct (round_of_ok r ltac:(lia)) as (_&H1&H2). destruct (round_of_ok r' Hr') as (_&H3&H4).
  destruct (decide (round_of r ≤ round_of r')); [done|].
  pose proof (round_start_mono s b nd Hc (round_of r' + 1) (round_of r)) as Hm. fold l rounds in Hm. lia.
Qed.

(** The sort key's round is the layout's round. *)
Lemma boundary_round r : r < nd → boundary_round_of s b r = round_of r.
Proof using All.
  intros Hr. symmetry. pose proof (consistent_rows s b nd Hc) as Hrows. pose proof Hc as [Hs Hbs Hs32 Hr32 _].
  unfold boundary_round_of. destruct (Nat.ltb_spec r b) as [Hrb|Hrb].
  - destruct (round_of_ok r Hr) as (_&Hlt&Hrng). apply round_of_unique; [done|lia|].
    unfold l. rewrite (round_start_S s b nd Hc 0) by (fold rounds; lia). rewrite (round_start_0 s b nd Hc).
    destruct ((b =? 0) || (b =? s)) eqn:Hu; [lia|]. cbn [Nat.eqb orb]. lia.
  - pose proof (proj1 (div_range (r - b) s _ Hs) eq_refl) as Hd. set (q := (r - b) / s) in *.
    rewrite wrap_small by nia.
    assert (1 + q < rounds) as Hq.
    { unfold rounds. destruct ((b =? 0) || (b =? s)) eqn:Hu.
      - assert (b = s) as -> by (apply orb_true_iff in Hu as [Hu%Nat.eqb_eq|Hu%Nat.eqb_eq]; lia). nia.
      - destruct Hrows as (k&?&->). nia. }
    apply round_of_unique; [done|done|].
    unfold l. rewrite (round_start_S s b nd Hc (1 + q)) by done. rewrite (round_start_val s b nd Hc) by (fold rounds; lia).
    unfold rounds in *. destruct ((b =? 0) || (b =? s)) eqn:Hu.
    + assert (b = s) as -> by (apply orb_true_iff in Hu as [Hu%Nat.eqb_eq|Hu%Nat.eqb_eq]; lia). nia.
    + rewrite (proj2 (Nat.eqb_neq (1 + q) 0)), (proj2 (Nat.leb_gt _ _) Hq) by lia. cbn [orb].
      destruct Hrows as (k&Hk&Hrk). rewrite Hrk in *.
      destruct (Nat.eqb_spec (1 + q + 1) (k + 2)); nia.
Qed.

(** ** Spans *)

Definition first_round (col : list nat) : nat := round_of (default 0 (head col)).
Definition last_round (col : list nat) : nat := round_of (List.last col 0).

Lemma col_sorted c col : cols !! c = Some col → StronglySorted lt col ∧ ∀ r, r ∈ col → r < nd.
Proof using All.
  intros Hcol. rewrite Forall_forall in cols_sorted, cols_rows.
  apply list_elem_of_lookup_2 in Hcol. split; [by apply cols_sorted|].
  specialize (cols_rows col Hcol). by rewrite Forall_forall in cols_rows.
Qed.

Lemma span_bounds c col r :
  cols !! c = Some col → r ∈ col → first_round col ≤ round_of r ≤ last_round col.
Proof using All.
  intros Hcol Hr. destruct (col_sorted c col Hcol) as [Hs Hlt].
  destruct col as [|x col]; [by apply not_elem_of_nil in Hr|]. unfold first_round, last_round. cbn [head default from_option id].
  split; apply round_of_mono.
  - by eapply sorted_head_le.
  - by apply Hlt.
  - by apply sorted_last_ge.
  - apply Hlt, last_elem.
Qed.

(** Later columns do not start earlier. *)
Lemma in_order_first c c' col :
  in_order cols true (boundary_round_of s b) → c ≤ c' → c' < length cols →
  cols !! c = Some col → col ≠ [] →
  ∃ col', cols !! c' = Some col' ∧ col' ≠ [] ∧ first_round col ≤ first_round col'.
Proof using All.
  intros Hord Hle. induction Hle as [|c' Hle IH]; intros Hc' Hcol Hne; [by exists col|].
  destruct (IH ltac:(lia) Hcol Hne) as (col1&Hcol1&Hne1&Hfr).
  destruct (lookup_lt_is_Some_2 cols (S c') Hc') as [col2 Hcol2]. exists col2. split; [done|].
  specialize (Hord c' ltac:(lia)). unfold key_of in Hord. rewrite Nat.add_1_r, Hcol1, Hcol2 in Hord. cbn [default from_option id] in Hord.
  destruct col1 as [|x1 col1]; [done|]. destruct col2 as [|x2 col2]; [done|]. split; [done|].
  unfold column_key in Hord. cbn [app] in Hord. rewrite lex_cons in Hord.
  destruct (col_sorted _ _ Hcol1) as [_ Hl1]. destruct (col_sorted _ _ Hcol2) as [_ Hl2].
  rewrite (boundary_round x1) in Hord by (apply Hl1, elem_of_cons; by left).
  rewrite (boundary_round x2) in Hord by (apply Hl2, elem_of_cons; by left).
  etrans; [done|]. unfold first_round. cbn [head default from_option id].
  destruct (Nat.eqb_spec (round_of x1) (round_of x2)); [lia|].
  destruct (Nat.ltb_spec (round_of x1) (round_of x2)); [lia|done].
Qed.

(** ** Selection *)

Definition in_window (start end_ : nat) (sa sb : bool) (c : nat) : bool :=
  match cols !! c with
  | Some (x :: col) => column_in_range start end_ sa sb (first_round (x :: col)) (last_round (x :: col))
  | _ => false
  end.

Lemma select_ok start end_ sa sb :
  let sel := filter (λ c, in_window start end_ sa sb c) (seq 0 (length cols)) in
  select_pcm_columns_for_round_range cols l start end_ sa sb =
    match sel with
    | [] => Ok ([], UINT32_MAX, 0)
    | c :: _ => Ok (sel, Z.of_nat c, List.last sel 0)
    end.
Proof using All.
  intros sel. unfold select_pcm_columns_for_round_range.
  match goal with |- (for_u _ _ ?f _ ≫= _) = _ => set (step := f) end.
  destruct (for_u_inv 0 (length cols) step (λ k acc, acc = filter (λ c, in_window start end_ sa sb c) (seq 0 k)) [])
    as (acc&->&->); [lia|done| |cbn [mbind res_bind]; fold sel; by destruct sel].
  intros k acc Hk ->. unfold step. destruct (lookup_lt_is_Some_2 cols k) as [col Hcol]; [lia|].
  rewrite (vget_ok _ _ _ Hcol). cbn [mbind res_bind].
  assert (filter (λ c, in_window start end_ sa sb c) (seq 0 (k + 1)) =
    filter (λ c, in_window start end_ sa sb c) (seq 0 k) ++ if in_window start end_ sa sb k then [k] else []) as ->.
  { rewrite seq_app, list.filter_app. f_equal. cbn [seq Nat.add].
    destruct (in_window start end_ sa sb k) eqn:E;
      [rewrite filter_cons_True by (by rewrite E)|rewrite filter_cons_False by (rewrite E; intros [])]; done. }
  assert (in_window start end_ sa sb k = match col with
    | [] => false
    | x :: col => column_in_range start end_ sa sb (first_round (x :: col)) (last_round (x :: col))
    end) as -> by (unfold in_window; rewrite Hcol; by destruct col).
  destruct col as [|x col].
  { rewrite bool_decide_eq_true_2 by done. apply returns_ok. by rewrite app_nil_r. }
  rewrite bool_decide_eq_false_2 by done. destruct (col_sorted _ _ Hcol) as [Hs Hlt].
  rewrite (vget_ok _ 0 x) by done. cbn [mbind res_bind].
  destruct (round_of_ok x ltac:(apply Hlt; set_solver)) as (->&_). cbn [mbind res_bind].
  rewrite (vget_ok _ _ (List.last (x :: col) 0)) by (apply last_lookup; done). cbn [mbind res_bind].
  destruct (round_of_ok (List.last (x :: col) 0) ltac:(apply Hlt, last_elem)) as (->&_). cbn [mbind res_bind].
  apply returns_ok. rewrite wrap_small by lia. unfold first_round, last_round. cbn [head default from_option id].
  destruct (column_in_range _ _ _ _ _ _); [done|by rewrite app_nil_r].
Qed.

(** ** Windows of short mechanisms *)

Hypothesis short : ∀ c col, cols !! c = Some col → col ≠ [] → last_round col ≤ first_round col + 1.
Hypothesis ordered : in_order cols true (boundary_round_of s b).

(** The window selects the columns [fc, lc). *)
Definition interval (start end_ fc lc : nat) : Prop :=
  fc < lc ≤ length cols ∧ ∀ c, c < length cols → in_window start end_ false true c = true ↔ fc ≤ c < lc.

Lemma in_window_short start end_ c col :
  start + 1 ≤ end_ → cols !! c = Some col → col ≠ [] →
  in_window start end_ false true c = true ↔ start ≤ first_round col ≤ end_.
Proof using All.
  intros Hse Hcol Hne. unfold in_window. rewrite Hcol. destruct col as [|x col]; [done|].
  pose proof (short c _ Hcol Hne) as Hshort.
  assert (first_round (x :: col) ≤ last_round (x :: col)) as Hfl by (apply (span_bounds c _ x Hcol); set_solver).
  set (f := first_round (x :: col)) in *. set (z := last_round (x :: col)) in *. unfold column_in_range. cbn [andb].
  rewrite orb_false_r.
  destruct (Nat.ltb_spec z start), (Nat.ltb_spec end_ f), (Nat.leb_spec start f), (Nat.leb_spec z end_),
    (Nat.leb_spec f end_), (Nat.leb_spec end_ z); cbn; split; intros; try done; lia.
Qed.

Lemma selected_nonempty start end_ c :
  in_window start end_ false true c = true → ∃ col, cols !! c = Some col ∧ col ≠ [].
Proof using Type. unfold in_window. destruct (cols !! c) as [[|x col]|]; [done| |done]. intros _. by eexists. Qed.

Section window.
Context (start end_ fc lc : nat).
Hypothesis Hse : start + 1 ≤ end_.
Hypothesis Hint : interval start end_ fc lc.

Lemma window_first : ∃ col, cols !! fc = Some col ∧ col ≠ [] ∧ start ≤ first_round col ≤ end_.
Proof using All.
  destruct Hint as [Hlt Hsel]. pose proof (proj2 (Hsel fc ltac:(lia)) ltac:(lia)) as Hin.
  destruct (selected_nonempty _ _ _ Hin) as (col&Hcol&Hne). exists col. split_and!; [done|done| |].
  all: eapply in_window_short; done.
Qed.

(** Columns from [fc] on start in the window or later. *)
Lemma from_window c : fc ≤ c → c < length cols →
  ∃ col, cols !! c = Some col ∧ col ≠ [] ∧ start ≤ first_round col.
Proof using All.
  intros Hfc Hcl. destruct window_first as (col0&Hcol0&Hne0&Hf0).
  destruct (in_order_first fc c col0 ordered Hfc Hcl Hcol0 Hne0) as (col&Hcol&Hne&Hf).
  exists col. split_and!; [done|done|lia].
Qed.

(** Columns before [fc] start before the window. *)
Lemma before_window c col : c < fc → cols !! c = Some col → col ≠ [] → first_round col < start.
Proof using All.
  intros Hcf Hcol Hne. destruct window_first as (col0&Hcol0&Hne0&Hf0).
  pose proof (lookup_lt_Some _ _ _ Hcol0) as Hfl.
  destruct (in_order_first c fc col ordered ltac:(lia) Hfl Hcol Hne) as (col0'&Hcol0'&_&Hf).
  rewrite Hcol0 in Hcol0'. injection Hcol0' as <-. destruct (decide (first_round col < start)); [done|].
  assert (in_window start end_ false true c = true) as Hin by (eapply in_window_short; [done..|lia]).
  apply Hint in Hin; lia.
Qed.

Lemma after_rows c col r : fc ≤ c → cols !! c = Some col → r ∈ col → round_start l start ≤ r.
Proof using All.
  intros Hfc Hcol Hr. destruct (from_window c Hfc (lookup_lt_Some _ _ _ Hcol)) as (col'&Hcol'&_&Hf).
  rewrite Hcol in Hcol'. injection Hcol' as <-.
  pose proof (span_bounds c col r Hcol Hr) as Hsp. destruct (col_sorted c col Hcol) as [_ Hlt].
  destruct (round_of_ok r (Hlt r Hr)) as (_&Hrr&Hrng).
  pose proof (round_start_mono s b nd Hc start (round_of r)) as Hm. fold l rounds in Hm. lia.
Qed.

Lemma before_rows c col r : start < rounds → c < fc → cols !! c = Some col → r ∈ col → r < round_start l (start + 1).
Proof using All.
  intros Hst Hfc Hcol Hr. assert (col ≠ []) as Hne by (intros ->; by apply not_elem_of_nil in Hr).
  pose proof (before_window c col Hfc Hcol Hne) as Hf. pose proof (short c col Hcol Hne) as Hs.
  pose proof (span_bounds c col r Hcol Hr) as Hsp. destruct (col_sorted c col Hcol) as [_ Hlt].
  destruct (round_of_ok r (Hlt r Hr)) as (_&Hrr&Hrng).
  pose proof (round_start_mono s b nd Hc (round_of r + 1) (start + 1)) as Hm. fold l rounds in Hm. lia.
Qed.
End window.

(** Consecutive windows overlap in columns. *)
Lemma next_window start end_ fc lc start' end' fc' lc' :
  start + 1 ≤ end_ → start' + 1 ≤ end' → start ≤ start' ≤ end_ + 1 →
  interval start end_ fc lc → interval start' end' fc' lc' → fc ≤ fc' ≤ lc.
Proof using All.
  intros Hse Hse' Hss Hi Hi'. destruct (window_first start' end' fc' lc' Hse' Hi') as (col'&Hcol'&Hne'&Hf'). split.
  - destruct (decide (fc ≤ fc')); [done|].
    pose proof (before_window start end_ fc lc Hse Hi fc' col' ltac:(lia) Hcol' Hne'). lia.
  - destruct (decide (fc' ≤ lc)); [done|]. pose proof (lookup_lt_Some _ _ _ Hcol').
    destruct (from_window start end_ fc lc Hse Hi lc ltac:(destruct Hi; lia) ltac:(lia)) as (col&Hcol&Hne&Hf).
    pose proof (before_window start' end' fc' lc' Hse' Hi' lc col ltac:(lia) Hcol Hne).
    assert (in_window start end_ false true lc = true) as Hin by (eapply in_window_short; [done..|lia]).
    apply Hi in Hin; lia.
Qed.

(** The last window reaches the last column. *)
Lemma final_window start end_ fc lc :
  start + 1 ≤ end_ → end_ + 1 = rounds → interval start end_ fc lc → lc = length cols.
Proof using All.
  intros Hse Hend Hi. pose proof Hi as [Hlt Hsel]. destruct (decide (lc = length cols)); [done|].
  destruct (from_window start end_ fc lc Hse Hi lc ltac:(lia) ltac:(lia)) as (col&Hcol&Hne&Hf).
  assert (in_window start end_ false true lc = true) as Hin.
  { eapply in_window_short; [done..|]. split; [done|]. destruct col as [|x col]; [done|].
    destruct (col_sorted lc _ Hcol) as [_ Hl]. destruct (round_of_ok x (Hl x ltac:(set_solver))) as (_&Hr&_).
    unfold first_round. cbn [head default from_option id]. lia. }
  apply Hsel in Hin; lia.
Qed.
End geom.

(** A strictly increasing list as long as its range is the whole range. *)
Lemma contiguous (l : list nat) c t :
  StronglySorted lt l → l = c :: t → List.last l 0 + 1 - c = length l →
  ∀ x, x ∈ l ↔ c ≤ x < List.last l 0 + 1.
Proof.
  intros Hs Hl Hlen x. set (z := List.last l 0) in *.
  assert (l ⊆ seq c (z + 1 - c)) as Hsub.
  { intros y Hy. apply elem_of_seq. pose proof (sorted_last_ge l y Hs Hy). fold z in H.
    subst l. pose proof (sorted_head_le c t y Hs Hy). lia. }
  assert (NoDup l) as Hnd.
  { clear -Hs. induction Hs as [|y l Hs IH Hy]; constructor; [|done].
    intros Hin. rewrite Forall_forall in Hy. specialize (Hy y Hin). lia. }
  assert (l ≡ₚ seq c (z + 1 - c)) as Hp.
  { apply submseteq_length_Permutation; [by apply NoDup_submseteq|]. rewrite length_seq. lia. }
  rewrite Hp, elem_of_seq. lia.
Qed.

(** * The windows the constructor builds

    What a successful [make_sliding_window] has checked and built: the
    canonical model, a consistent layout, sorted columns, and one window model
    per window whose matrix is the block of the full matrix that the window's
    rounds and columns cut out. *)

(** ** The model *)

(** A model stored by columns, each sorted and free of duplicates. *)
Record canonical {R} (inputs : decoder_init (R := R)) (cols : list (list nat)) : Prop := {
  ca_wf : wf (di_H inputs) cols;
  ca_csc : is_csc (di_H inputs) = true;
  ca_sorted : sorted_groups cols;
  ca_detectors : di_num_detectors inputs = num_rows_ (di_H inputs);
  ca_mechanisms : di_num_error_mechanisms inputs = num_cols_ (di_H inputs)
}.

Lemma canonical_columns {R} (inputs : decoder_init (R := R)) cols :
  canonical inputs cols → length cols = di_num_error_mechanisms inputs ∧
  Forall (Forall (λ r, r < di_num_detectors inputs)) cols.
Proof.
  intros [Hwf Hcsc _ Hd Hm]. pose proof (wf_num_groups _ _ Hwf) as Hl. pose proof (wf_bound _ _ Hwf) as Hb.
  unfold num_groups, index_bound in *. rewrite Hcsc in *. by rewrite Hd, Hm.
Qed.

Lemma as_csc_wf m gs : wf m gs → wf (as_csc m gs) (cols_of_matrix m gs).
Proof.
  intros Hwf. destruct (to_csc_columns m gs Hwf) as (m'&Hm'&Hwf'&_).
  rewrite (to_csc_as m gs Hwf) in Hm'. by injection Hm' as <-.
Qed.

Lemma cols_of_matrix_sorted m gs : sorted_groups gs → sorted_groups (cols_of_matrix m gs).
Proof. intros Hs. unfold cols_of_matrix. destruct (is_csc m); [done|]. by apply sorted_transposed. Qed.

(** [make_matrix_state] on a matrix with sorted groups. *)
Lemma make_matrix_state_canonical {R} H gs O (rates : list R) ids D inputs :
  wf H gs → sorted_groups gs → make_matrix_state H O rates ids D = Ok inputs →
  canonical inputs (cols_of_matrix H gs) ∧ di_num_detectors inputs = num_rows_ H ∧
  di_num_error_mechanisms inputs = num_cols_ H.
Proof.
  intros Hwf Hs Hm. unfold make_matrix_state in Hm. rewrite (to_csc_as H gs Hwf) in Hm.
  cbn [mbind res_bind] in Hm. res_inv Hm. subst inputs. split_and!; [|done|done].
  constructor; [by apply as_csc_wf|done|by apply cols_of_matrix_sorted|done|done].
Qed.

Lemma canonicalize_H_canonical {R} (inputs0 inputs : decoder_init (R := R)) gs :
  wf (di_H inputs0) gs → canonicalize_H inputs0 = Ok inputs → ∃ cols, canonical inputs cols.
Proof.
  intros Hwf Hc. unfold canonicalize_H in Hc. rewrite (canonicalize_spec _ gs Hwf) in Hc.
  cbn [mbind res_bind] in Hc. pose proof (wf_canon _ _ Hwf) as Hwf'.
  rewrite (to_csc_as _ _ Hwf') in Hc. cbn [mbind res_bind] in Hc.
  eexists. eapply make_matrix_state_canonical; [by apply as_csc_wf| |exact Hc].
  apply cols_of_matrix_sorted, Forall_fmap, Forall_forall. intros. apply canon_spec.
Qed.

(** ** The checks *)

Record checked (s b window step layers rows : nat) (cols : list (list nat)) : Prop := {
  ck_cons : consistent s b rows;
  ck_rows : 2 * s ≤ rows;
  ck_window : 1 ≤ window ≤ layers;
  ck_step : 1 ≤ step ≤ window;
  ck_tile : (layers - window) mod step = 0;
  ck_order : in_order cols true (boundary_round_of s b)
}.

Lemma pcm_is_sorted_boundary_order cols s b :
  (Z.of_nat (length cols) < 2 ^ 32)%Z → pcm_is_sorted_boundary cols s b = Ok true →
  in_order cols true (boundary_round_of s b).
Proof.
  intros Hfit Hs. unfold pcm_is_sorted_boundary, get_sorted_pcm_column_indices_boundary in Hs.
  res_inv Hs. res_inv E. subst x. rewrite indices_are_iota_spec in Hs.
  - injection Hs as Hs. rewrite drop_0, bool_decide_eq_true in Hs. by apply sorted_iota_in_order.
  - rewrite sorted_perm by done. apply length_seq.
Qed.

Lemma validate_inputs_checked {R} (inputs : decoder_init (R := R)) cols s b window step layers name :
  canonical inputs cols → (Z.of_nat s < 2 ^ 32)%Z → 0 < b →
  (Z.of_nat layers < 2 ^ 64)%Z →
  validate_inputs inputs s b window step layers name = Ok tt →
  checked s b window step layers (num_rows_ (di_H inputs)) cols.
Proof.
  intros [Hwf Hcsc Hsort Hd Hm] Hs32 Hb Hl64 Hv. pose proof (wf_rows _ _ Hwf) as Hr32. pose proof (wf_cols _ _ Hwf) as Hc32.
  pose proof (wf_num_groups _ _ Hwf) as Hlen. unfold num_groups in Hlen. rewrite Hcsc in Hlen.
  unfold validate_inputs in Hv. rewrite (to_nested_csc_spec _ cols), Hcsc in Hv by done.
  rewrite (wrap_small 32 (num_rows_ _)) in Hv by done. res_inv Hv. rewrite !throw_if_ok in *.
  apply Nat.ltb_ge in E. rewrite !(wrap_small 64) in * by lia. apply Nat.ltb_ge in E0. subst x1.
  apply orb_false_iff in E3 as [E3%Nat.ltb_ge E3'%Nat.ltb_ge]. apply orb_false_iff in E4 as [E4%Nat.ltb_ge E4'%Nat.ltb_ge].
  apply negb_false_iff, Nat.eqb_eq in E5. apply Nat.eqb_neq in E6. apply negb_false_iff in Hv. subst x10.
  injection E9 as <-.
  destruct (Nat.ltb_spec (num_rows_ (di_H inputs)) (2 * b)) as [|H2b]; [done|].
  rewrite (proj2 (Nat.eqb_neq s 0)) in E1 by done. injection E1 as E1. apply negb_false_iff, Nat.eqb_eq in E1.
  rewrite u64_sub_le in E1, E5 by lia. rewrite !(wrap_small 32) in E10 by lia.
  constructor; [|done|lia|lia|done|apply pcm_is_sorted_boundary_order; [by rewrite Hlen|done]].
  constructor; [lia|done|done|done|]. destruct ((b =? 0) || (b =? s)) eqn:Hu; [|done].
  assert (b = s) as -> by (apply orb_true_iff in Hu as [?%Nat.eqb_eq|?%Nat.eqb_eq]; lia).
  replace (num_rows_ (di_H inputs)) with (num_rows_ (di_H inputs) - 2 * s + 2 * s) by lia.
  by rewrite Nat.Div0.mod_add.
Qed.

(** ** One window *)

Lemma nat_diff_mod a b n : b ≤ a → (Z.of_nat a < 2 ^ 32)%Z → (Z.of_nat n < 2 ^ 32)%Z →
  ((Z.of_nat a - Z.of_nat b + 1) mod 2 ^ 32 = Z.of_nat n)%Z → n = a + 1 - b ∨ n = 0.
Proof.
  intros Hle Ha Hn Hm. destruct (decide (Z.of_nat a - Z.of_nat b + 1 = 2 ^ 32)%Z) as [E|E].
  - rewrite E, Z_mod_same_full in Hm. lia.
  - rewrite Z.mod_small in Hm by lia. lia.
Qed.

Lemma rounds_le s b rows : consistent s b rows → 0 < b → rounds_of s b rows ≤ rows.
Proof.
  intros Hc Hb. pose proof (consistent_rows s b rows Hc) as Hx. pose proof (cons_S _ _ _ Hc) as Hs.
  destruct ((b =? 0) || (b =? s)); [nia|]. destruct Hx as (n&->&->). nia.
Qed.

Section windows.
Context {R : Type} (inputs : decoder_init (R := R)) (cols : list (list nat)).
Hypothesis Hcan : canonical inputs cols.
Context (s b : nat).
Hypothesis Hb : 0 < b.
Let nd := num_rows_ (di_H inputs).
Hypothesis Hcons : consistent s b nd.
Let l := the_layout s b nd.
Let rounds := rounds_of s b nd.

Lemma canonical_geom :
  Forall (Forall (λ r, r < nd)) cols ∧ sorted_groups cols ∧ (Z.of_nat (length cols) < 2 ^ 32)%Z.
Proof using Hcan.
  destruct (canonical_columns _ _ Hcan) as [Hl Hr]. destruct Hcan as [Hwf Hcsc Hs Hd Hm].
  pose proof (wf_cols _ _ Hwf). rewrite Hd in Hr. split_and!; [done|done|]. by rewrite Hl, Hm.
Qed.

(** [get_pcm_for_rounds] on the canonical model: the selected columns,
    restricted to the rows of the rounds. *)
Lemma rounds_extract start end_ sa sb t fcol lcol :
  start ≤ end_ →
  get_pcm_for_rounds_sparse (di_H inputs) s start end_ sa sb true b = Ok (t, fcol, lcol) →
  let sel := filter (λ c, in_window s b nd cols start end_ sa sb c) (seq 0 (length cols)) in
  let rows := round_start l (end_ + 1) - round_start l start in
  end_ < rounds ∧ wf2 rows (length sel) t ∧
  (∀ i k oc col, i < rows → sel !! k = Some oc → cols !! oc = Some col →
     elem2 t i k = Some (bit (round_start l start + i ∈ col))) ∧
  fcol = match sel with [] => UINT32_MAX | c :: _ => Z.of_nat c end ∧
  lcol = List.last sel 0.
Proof using All.
  intros Hse Hg sel rows. destruct canonical_geom as (Hrows&Hsorted&Hfit).
  pose proof Hcons as [Hs0 Hbs Hs32 Hr32 _]. unfold get_pcm_for_rounds_sparse in Hg. fold nd in Hg.
  apply bind_ok in Hg as ([]&Hv&Hg). rewrite (make_round_layout_ok s b nd Hcons) in Hg. fold l in Hg.
  cbn [mbind res_bind] in Hg.
  destruct (validated_rows s b start end_ nd Hs32 Hr32 Hse Hv) as (l'&Hl'&Hend&Hn0&Hlt&Hle).
  rewrite (make_round_layout_ok s b nd Hcons) in Hl'. injection Hl' as <-. fold l in Hlt, Hle.
  assert (end_ < rounds) as Hendr.
  { unfold validate_pcm_for_rounds_params in Hv. rewrite (make_round_layout_ok s b nd Hcons) in Hv.
    res_inv Hv. rewrite !throw_if_ok in *. injection E1 as <-. by apply Nat.leb_gt in E3. }
  rewrite (to_nested_csc_spec _ cols), (ca_csc _ _ Hcan) in Hg by apply Hcan. cbn [mbind res_bind] in Hg.
  rewrite (wrap_small 32 (end_ + 1)) in Hg by lia.
  rewrite u64_sub_le, !(wrap_small 32 (round_start l start)), !(wrap_small 32 (round_start l (end_ + 1) - 1)) in Hg by lia.
  replace (Z.to_nat _) with rows in Hg by (rewrite Z.mod_small; unfold rows; lia).
  rewrite (select_ok s b nd Hcons Hb cols Hrows Hsorted Hfit) in Hg. fold sel in Hg.
  assert (∀ fc, (dense_sub ← for_u 0 (length sel) (λ out_c dense_sub,
    orig_col ← vget sel out_c;
    rows ← vget cols orig_col;
    foldM (λ row dense_sub,
      if (round_start l start <=? row) && (row <=? round_start l (end_ + 1) - 1)
      then set_at dense_sub [row - round_start l start; out_c] 1 else Ok dense_sub) rows dense_sub)
    (tensor_of_shape [rows; length sel]); Ok (dense_sub, fc, List.last sel 0)) = Ok (t, fcol, lcol) →
    wf2 rows (length sel) t ∧ (∀ i k oc col, i < rows → sel !! k = Some oc → cols !! oc = Some col →
     elem2 t i k = Some (bit (round_start l start + i ∈ col))) ∧ fcol = fc ∧ lcol = List.last sel 0) as Hfill.
  { intros fc. destruct (fill_window cols sel (round_start l start) (round_start l (end_ + 1) - 1) rows) as (t'&->&Ht&Het).
    - apply Forall_forall. intros c [_ Hc%elem_of_seq]%list_elem_of_filter. lia.
    - unfold rows. lia.
    - cbn [mbind res_bind]. intros [= <- <- <-]. split_and!; [done| |done|done].
      intros i k oc col Hi Hk Hcol. rewrite (Het i k oc col) by done. f_equal. apply bit_iff.
      unfold rows in Hi. split; [tauto|]. intros; split; [done|lia]. }
  split; [done|]. destruct sel as [|c sel'] eqn:Hsel; cbn [mbind res_bind fst snd] in Hg; by apply Hfill in Hg.
Qed.

(** The model built from a dense block. *)
Lemma dense_model t r c h O (rates : list R) ids D inner :
  wf2 r c t → of_dense t csc = Ok h → make_matrix_state h O rates ids D = Ok inner →
  ∃ gs, canonical inner gs ∧ length gs = c ∧ di_num_detectors inner = r ∧
    ∀ k i, k < c → i < r → hit gs k i = nonzero t i k.
Proof using Type.
  intros Ht Hh Hm. destruct (of_dense_decides t csc r c Ht) as [[Hok Hh']|[_ [? Hbad]]]; [|congruence].
  rewrite Hh in Hh'. injection Hh' as ->. set (gs := dense_groups csc t r c) in *.
  pose proof (wf_dense csc t r c Hok) as Hwf. fold gs in Hwf.
  destruct (make_matrix_state_canonical _ gs _ _ _ _ _ Hwf (dense_groups_sorted csc t r c) Hm) as (Hcan'&Hd&Hc).
  exists gs. split_and!; [done| |done|].
  - pose proof (wf_num_groups _ _ Hwf) as Hl. done.
  - intros k i Hk Hi. pose proof (mentions_dense csc t r c i k) as Hment. fold gs in Hment.
    rewrite mentions_group in Hment. unfold is_csc, of_groups in Hment. cbn [layout_] in Hment.
    rewrite bool_decide_eq_true_2 in Hment by done. unfold hit.
    destruct (lookup_lt_is_Some_2 gs k) as [g Hg]; [by rewrite (wf_num_groups _ _ Hwf)|].
    rewrite Hg. cbn [default from_option id]. apply eq_true_iff_eq. rewrite bool_decide_eq_true. split.
    + intros Hin. apply Hment. eauto.
    + intros Hn. destruct (proj2 Hment ltac:(done)) as (g'&Hg'&Hin). congruence.
Qed.

(** The model of a window: the block of the full matrix with the columns
    [fc, lc) and the rows of the rounds [start, end_]. *)
Record window_model (start end_ fc lc : nat) (inner : decoder_init (R := R)) (gs : list (list nat)) : Prop := {
  wm_canonical : canonical inner gs;
  wm_interval : interval s b nd cols start end_ fc lc;
  wm_length : length gs = lc - fc;
  wm_rows : di_num_detectors inner = round_start l (end_ + 1) - round_start l start;
  wm_block : ∀ k i, k < lc - fc → i < round_start l (end_ + 1) - round_start l start →
    hit gs k i = hit cols (fc + k) (round_start l start + i)
}.

(** The selected columns are the interval when their number says so. *)
Lemma selection_interval start end_ c t :
  let sel := filter (λ c, in_window s b nd cols start end_ false true c) (seq 0 (length cols)) in
  sel = c :: t → length sel = List.last sel 0 + 1 - c →
  interval s b nd cols start end_ c (List.last sel 0 + 1) ∧ sel = seq c (List.last sel 0 + 1 - c).
Proof using Type.
  clear Hcons Hcan Hb. intros sel Hsel Hlen. assert (StronglySorted lt sel) as Hs by apply filter_sorted, seq_sorted.
  pose proof (contiguous sel c t Hs Hsel ltac:(lia)) as Hin. set (lc := List.last sel 0 + 1) in *.
  assert (List.last sel 0 ∈ sel) as Hlast by (rewrite Hsel; apply last_elem).
  apply list_elem_of_filter in Hlast as [Hlast' Hlast%elem_of_seq].
  assert (c ∈ sel) as Hc by (rewrite Hsel; set_solver). apply Hin in Hc. split.
  - split; [unfold lc in *; lia|]. intros c' Hc'. rewrite <-Hin. unfold sel. rewrite list_elem_of_filter, elem_of_seq, Is_true_true.
    intuition lia.
  - apply sorted_lt_ext; [done|apply seq_sorted|]. intros x. rewrite Hin, elem_of_seq. lia.
Qed.

Lemma window_inputs_model window step w inner fc :
  1 ≤ window → w * step + window ≤ rounds → (Z.of_nat (length cols) < 2 ^ 32)%Z →
  window_inputs inputs s b window step false true w = Ok (inner, fc) →
  ∃ lc gs, window_model (w * step) (w * step + window - 1) fc lc inner gs.
Proof using All.
  intros Hwin Hlay Hfit Hw. pose proof Hcons as [Hs0 Hbs Hs32 Hr32 _].
  pose proof (wf_rows _ _ (ca_wf _ _ Hcan)) as Hnd. fold nd in Hnd.
  pose proof (rounds_le s b nd Hcons Hb) as Hrn. fold rounds in Hrn.
  unfold window_inputs in Hw. rewrite (wrap_small 64 (w * step)), (wrap_small 64 (w * step + window)), u64_sub_le,
    (wrap_small 32 s), (wrap_small 32 b), !(wrap_small 32) in Hw by lia.
  set (start := w * step) in *. set (end_ := start + window - 1) in *.
  apply bind_ok in Hw as ([[t fcol] lcol]&Hg&Hw).
  destruct (rounds_extract start end_ false true t fcol lcol ltac:(lia) Hg) as (Hend&Ht&Het&Hfc&Hlc).
  set (sel := filter _ _) in *. cbv zeta in *. set (rows := round_start l (end_ + 1) - round_start l start) in *.
  apply bind_ok in Hw as (rates&Hrates&Hw).
  destruct sel as [|c sel'] eqn:Hsel.
  { subst fcol lcol. unfold iterator_range in Hrates. by rewrite (proj2 (Z.leb_gt _ _)) in Hrates by (unfold UINT32_MAX; cbn; lia). }
  rewrite <-Hsel in *. rewrite (proj1 Ht) in Hw. cbn [vget lookup list_lookup mbind res_bind] in Hw.
  apply bind_ok in Hw as ([]&Hchk&Hw). rewrite throw_if_ok, negb_false_iff, bool_decide_eq_true in Hchk.
  assert (c < length cols ∧ lcol < length cols) as [Hcl Hll].
  { assert (∀ x, x ∈ sel → x < length cols) as Hx by (intros x [_ ?%elem_of_seq]%list_elem_of_filter; lia).
    subst lcol. rewrite Hsel in *. split; apply Hx; [set_solver|apply last_elem]. }
  assert (length sel ≤ length cols) as Hsl by (unfold sel; etrans; [apply length_filter|by rewrite length_seq]).
  assert (length sel = lcol + 1 - c) as Hlen.
  { subst fcol. assert (c ≤ lcol).
    { subst lcol. apply sorted_last_ge; [apply filter_sorted, seq_sorted|rewrite Hsel; set_solver]. }
    destruct (nat_diff_mod lcol c (length sel)) as [|H0]; [lia|lia|lia|done|done|]. rewrite Hsel in H0. done. }
  subst lcol. destruct (selection_interval start end_ c sel' Hsel Hlen) as [Hint Hseq]. fold sel in Hint, Hseq.
  set (lc := List.last sel 0 + 1) in *.
  apply bind_ok in Hw as (iO&_&Hw). apply bind_ok in Hw as (ids&_&Hw). apply bind_ok in Hw as (h&Hh&Hw).
  apply bind_ok in Hw as (inner'&Hinner&Hw). injection Hw as <- <-. subst fcol. rewrite Nat2Z.id.
  destruct (dense_model t rows (length sel) h _ _ _ _ _ Ht Hh Hinner) as (gs&Hgs&Hlg&Hrows&Hhit).
  exists lc, gs. constructor; [done|done|by rewrite Hlg, Hlen|done|].
  intros k i Hk Hi. rewrite <-Hlen in Hk. rewrite Hhit by done.
  assert (sel !! k = Some (c + k)) as Hselk by (rewrite Hseq; apply lookup_seq_lt; unfold lc in *; lia).
  destruct (lookup_lt_is_Some_2 cols (c + k)) as [col Hcol].
  { apply list_elem_of_lookup_2, list_elem_of_filter in Hselk as [_ ?%elem_of_seq]. lia. }
  unfold nonzero, hit. rewrite (Het i k (c + k) col) by done. rewrite Hcol. cbn [default from_option id].
  apply bool_decide_ext. unfold bit. by case_decide.
Qed.
End windows.
