(* ===== verification/SlidingProps.v ===== *)
(** * The sliding-window decoder explains its syndromes

    The contract an inner decoder must meet, and the theorem that a
    sliding-window decoder built over such decoders meets the same contract
    for whole blocks. *)

From Stdlib Require Import QArith.
From stdpp Require Import strings.
From S2P Require Import Prelude Ordering Tensor SparseMatrix SparseFacts SparseCanon SparseProps RoundLayout PcmSort PcmColumns HetMap DetectorErrorModel Decoder DecoderProps SlidingWindow SlidingStep SlidingRun SlidingBuild.

Open Scope nat_scope.

(** ** The contract *)

(** An answer for the matrix with columns [gs]: one value per mechanism, and
    the hard decision reproduces the syndrome when the answer converged. *)
Definition sound_answer (gs : list (list nat)) (syn : list bool) (f : frame_result) : Prop :=
  length (fr_result f) = length gs ∧
  (fr_converged f = true → ∀ i b, syn !! i = Some b →
     span_parity gs 0 (length gs) (bit_at (hard f)) i = b).

(** What the sliding-window decoder relies on: [decoder::get] yields a decoder
    for the model it is given, which answers every batch of syndromes of the
    model's length and stays usable. *)
Class SoundDecoder {R I : Type}
    (decoder_get : string → decoder_init (R := R) → decode_result_type → heterogeneous_map → res I)
    (inner_decode_batch : I → list (list Q) → res (option (list frame_result) * I)) := {
  decodes_for : decoder_init (R := R) → I → Prop;
  get_decodes name inputs gs params d :
    canonical inputs gs → decoder_get name inputs errors params = Ok d → decodes_for inputs d;
  batch_answers inputs gs d syns :
    canonical inputs gs → decodes_for inputs d → syns ≠ [] →
    Forall (λ syn, length syn = di_num_detectors inputs) syns →
    returns (inner_decode_batch d (as_values <$> syns)) (λ r,
      decodes_for inputs r.2 ∧ ∃ fs, r.1 = Some fs ∧ Forall2 (sound_answer gs) syns fs)
}.

(** ** The constructor's loop *)

Lemma built_windows {A B} (f : nat → res A) (g : A → res B) {C} (h : A → C) n built :
  for_u 0 n (λ w st, wi ← f w; inner ← g wi; Ok (st.1 ++ [inner], st.2 ++ [h wi])) ([], []) = Ok built →
  ∃ wis, length wis = n ∧ length built.1 = n ∧ built.2 = h <$> wis ∧
    ∀ w wi, wis !! w = Some wi → f w = Ok wi ∧ ∃ d, built.1 !! w = Some d ∧ g wi = Ok d.
Proof.
  unfold for_u. rewrite Nat.sub_0_r. revert built. induction n as [|n IH]; intros built Hf.
  { injection Hf as <-. exists []. split_and!; done. }
  rewrite seq_S, foldM_app in Hf. apply bind_ok in Hf as (st&Hst&Hf). destruct (IH st Hst) as (wis&Hl&Hl1&H2&Hall).
  cbn [foldM Nat.add] in Hf. apply bind_ok in Hf as (st'&Hf&[= <-]).
  apply bind_ok in Hf as (wi&Hwi&Hf). apply bind_ok in Hf as (d&Hd&[= <-]).
  exists (wis ++ [wi]). cbn [fst snd]. rewrite !length_app, Hl, Hl1. cbn [length]. split_and!; [lia|lia|by rewrite H2, fmap_app|].
  intros w wi' Hw. destruct (decide (w < n)).
  - rewrite lookup_app_l in Hw by lia. destruct (Hall w wi' Hw) as (?&d'&?&?). split; [done|].
    exists d'. split; [|done]. by rewrite lookup_app_l by lia.
  - apply lookup_app_Some in Hw as [Hw%lookup_lt_Some|[_ Hw]]; [lia|]. rewrite Hl in Hw.
    apply list_lookup_singleton_Some in Hw as [Hw <-]. assert (w = n) as -> by lia. split; [done|].
    exists d. by rewrite lookup_app_r, Hl1, Nat.sub_diag by lia.
Qed.

Lemma layout_rounds_fit s b rows l :
  (Z.of_nat rows < 2 ^ 32)%Z → make_round_layout s b rows = Ok l → (Z.of_nat (lay_num_rounds l) < 2 ^ 64)%Z.
Proof.
  intros Hr Hl. unfold make_round_layout in Hl. res_inv Hl. subst l. cbn [lay_num_rounds].
  destruct (negb (_ && _)); [|destruct (_ <=? _)].
  2: res_inv E; subst x; by apply wrap_lt.
  2: injection E as <-; lia.
  - unfold udiv in E. destruct (s =? 0) eqn:Es; [done|]. injection E as <-.
    assert (rows / s ≤ rows) by (apply Nat.Div0.div_le_upper_bound; apply Nat.eqb_neq in Es; nia). lia.
Qed.

(** A block matrix has the parities of the columns it was cut from. *)
Lemma span_parity_block gs cols a n e i r :
  (∀ k, k < n → hit gs k i = hit cols (a + k) r) →
  span_parity cols a n (λ c, e (c - a)) r = span_parity gs 0 n e i.
Proof.
  induction n as [|n IH]; intros Hh; cbn [span_parity]; [done|]. rewrite IH by (intros; apply Hh; lia).
  rewrite Nat.add_0_l, (Hh n) by lia. by replace (a + n - a) with n by lia.
Qed.

(** Every mechanism touches at most two consecutive rounds. *)
Definition short_mechanisms (l : round_layout) (cols : list (list nat)) : bool :=
  forallb (λ col, forallb (λ r, forallb (λ r',
    match row_to_round l r, row_to_round l r' with
    | Ok x, Ok x' => x' <=? x + 1
    | _, _ => true
    end) col) col) cols.

Lemma short_span s b nd cols :
  consistent s b nd → 0 < b → Forall (Forall (λ r, r < nd)) cols → sorted_groups cols →
  (Z.of_nat (length cols) < 2 ^ 32)%Z →
  short_mechanisms (the_layout s b nd) cols = true →
  ∀ c col, cols !! c = Some col → col ≠ [] → last_round s b nd col ≤ first_round s b nd col + 1.
Proof.
  intros Hc Hb Hr Hs Hfit Hshort c col Hcol Hne. destruct col as [|x col]; [done|].
  destruct (col_sorted s b nd Hc Hb cols Hr Hs Hfit c _ Hcol) as [_ Hlt].
  unfold short_mechanisms in Hshort. rewrite forallb_forall in Hshort.
  specialize (Hshort _ (proj1 (list_elem_of_In _ _) (list_elem_of_lookup_2 _ _ _ Hcol))).
  rewrite forallb_forall in Hshort.
  specialize (Hshort x (or_introl eq_refl)). rewrite forallb_forall in Hshort.
  specialize (Hshort (List.last (x :: col) 0) (proj1 (list_elem_of_In _ _) (last_elem x col))).
  destruct (round_of_ok s b nd Hc Hb cols Hr Hs Hfit x ltac:(apply Hlt; set_solver)) as (E1&_).
  destruct (round_of_ok s b nd Hc Hb cols Hr Hs Hfit (List.last (x :: col) 0) ltac:(apply Hlt, last_elem)) as (E2&_).
  rewrite E1, E2 in Hshort. by apply Nat.leb_le in Hshort.
Qed.

(** ** The windows of a constructed decoder *)

Section built.
Context {R : Type} (inputs : decoder_init (R := R)) (cols : list (list nat)).
Hypothesis Hcan : canonical inputs cols.
Context (s b window step : nat).
Let nd := num_rows_ (di_H inputs).
Let l := the_layout s b nd.
Let layers := rounds_of s b nd.
Hypothesis Hb : 0 < b.
Hypothesis Hck : checked s b window step layers nd cols.
Hypothesis Hwin : 2 ≤ window.
Hypothesis Hshort : short_mechanisms l cols = true.
Context (wis : list (decoder_init (R := R) * nat)).
Hypothesis Hlen : length wis = (layers - window) / step + 1.
Hypothesis Hwis : ∀ w wi, wis !! w = Some wi → window_inputs inputs s b window step false true w = Ok wi.

Definition last_column (w : nat) : nat :=
  match wis !! w with Some wi => wi.2 + di_num_error_mechanisms wi.1 | None => 0 end.

Lemma window_count w : w < length wis → w * step + window ≤ layers.
Proof using All.
  intros Hw. destruct Hck as [_ _ Hwl Hst Htile _].
  pose proof (Nat.div_mod_eq (layers - window) step) as Hd. rewrite Htile in Hd.
  assert (w * step ≤ (layers - window) / step * step) by (apply Nat.mul_le_mono_r; lia). lia.
Qed.

Lemma window_tile : (length wis - 1) * step + window = layers.
Proof using All.
  destruct Hck as [_ _ Hwl Hst Htile _]. pose proof (Nat.div_mod_eq (layers - window) step) as Hd.
  rewrite Htile in Hd. rewrite Hlen. replace ((layers - window) / step + 1 - 1) with ((layers - window) / step) by lia. lia.
Qed.

Lemma window_at w wi : wis !! w = Some wi → ∃ gs,
  window_model inputs cols s b (w * step) (w * step + window - 1) wi.2 (last_column w) wi.1 gs.
Proof using All.
  intros Hw. pose proof (canonical_geom inputs cols Hcan) as (_&_&Hfit).
  pose proof (window_count w (lookup_lt_Some _ _ _ Hw)) as Hc. specialize (Hwis w wi Hw).
  destruct wi as [inner fc]. destruct Hck as [Hcons _ _ _ _ _].
  destruct (window_inputs_model inputs cols Hcan s b Hb Hcons window step w inner fc ltac:(lia) Hc Hfit Hwis) as (lc&gs&Hm).
  exists gs. replace (last_column w) with lc; [done|]. unfold last_column. rewrite Hw. cbn [fst snd].
  destruct (canonical_columns _ _ (wm_canonical _ _ _ _ _ _ _ _ _ _ Hm)) as [<- _].
  rewrite (wm_length _ _ _ _ _ _ _ _ _ _ Hm). pose proof (wm_interval _ _ _ _ _ _ _ _ _ _ Hm) as [Hi _]. lia.
Qed.

(** The facts about the columns, with the section's hypotheses applied. *)
Lemma window_interval w wi : wis !! w = Some wi →
  interval s b nd cols (w * step) (w * step + window - 1) wi.2 (last_column w).
Proof using All. intros Hw. destruct (window_at w wi Hw) as [gs Hm]. by destruct Hm. Qed.

Lemma built_short c col :
  cols !! c = Some col → col ≠ [] → last_round s b nd col ≤ first_round s b nd col + 1.
Proof using All.
  destruct (canonical_geom inputs cols Hcan) as (Hr&Hs&Hfit). destruct Hck as [Hcons _ _ _ _ _].
  by apply (short_span s b nd cols Hcons Hb Hr Hs Hfit Hshort).
Qed.

Lemma hit_column c r : hit cols c r = true → ∃ col, cols !! c = Some col ∧ r ∈ col.
Proof using Type.
  clear - cols. unfold hit. rewrite bool_decide_eq_true. destruct (cols !! c) as [col|]; cbn; [eauto|].
  by intros ?%not_elem_of_nil.
Qed.

Lemma built_windows_ok (cfg : sw_config (R := R)) :
  sw_inputs cfg = inputs → layout cfg = l → num_detector_layers cfg = layers → step_size cfg = step →
  window_size cfg = window → num_windows cfg = length wis → first_columns cfg = snd <$> wis →
  windows_ok cfg cols last_column.
Proof using All.
  intros Hi Hl Hla Hst Hwi Hn Hf. pose proof Hck as [Hcons Hrows Hwl Hstep Htile Hord].
  destruct (canonical_geom inputs cols Hcan) as (Hr&Hs&Hfit). pose proof (canonical_columns _ _ Hcan) as [Hlc Hrc].
  pose proof (wf_rows _ _ (ca_wf _ _ Hcan)) as Hnd. pose proof (rounds_le s b nd Hcons Hb) as Hrl.
  pose proof built_short as Hsh. pose proof (ca_detectors _ _ Hcan) as Hdet.
  assert (∀ w a, first_columns cfg !! w = Some a → ∃ wi, wis !! w = Some wi ∧ a = wi.2) as Hfc.
  { intros w a. rewrite Hf, list_lookup_fmap. destruct (wis !! w) as [wi|]; [|done]. intros [= <-]. eauto. }
  assert (∀ w, w < length wis → w * step < layers) as Hstart by (intros w Hw; pose proof (window_count w Hw); lia).
  constructor; rewrite ?Hi, ?Hl, ?Hla, ?Hst, ?Hwi, ?Hn.
  - apply Hcan.
  - done.
  - eapply Forall_impl; [exact Hs|]. apply sorted_lt_nodup.
  - done.
  - done.
  - by rewrite Hdet.
  - by apply round_start_0.
  - rewrite Hdet. by apply round_start_end.
  - intros r Hrr. pose proof (round_start_S s b nd Hcons r Hrr) as HS. fold l in HS. pose proof (cons_S _ _ _ Hcons).
    destruct ((b =? 0) || _); [lia|]. destruct ((r =? 0) || _); lia.
  - lia.
  - unfold layers, nd in *. lia.
  - done.
  - lia.
  - apply window_tile.
  - by rewrite Hf, length_fmap.
  - intros w a (wi&Hw&->)%Hfc. destruct (window_interval w wi Hw) as [? _]. lia.
  - intros w a a' (wi&Hw&->)%Hfc (wi'&Hw'&->)%Hfc.
    eapply (next_window s b nd Hcons Hb cols Hr Hs Hfit Hsh Hord);
      [| | |exact (window_interval w wi Hw)|exact (window_interval (w + 1) wi' Hw')]; lia.
  - destruct (lookup_lt_is_Some_2 wis (length wis - 1)) as [wi Hw]; [lia|]. pose proof window_tile.
    eapply (final_window s b nd Hcons Hb cols Hr Hs Hfit Hsh Hord); [| |exact (window_interval _ _ Hw)]; unfold layers in *; lia.
  - intros a c (wi&Hw&->)%Hfc Hc. pose proof (window_interval 0 wi Hw) as [Hlt _].
    destruct (lookup_lt_is_Some_2 cols c) as [col Hcol]; [lia|]. rewrite Hcol. destruct (decide (col = [])) as [->|Hne]; [done|].
    pose proof (before_window s b nd Hcons Hb cols Hr Hs Hfit Hsh Hord (0 * step) (0 * step + window - 1) _ _ ltac:(lia) (window_interval 0 wi Hw) c col Hc Hcol Hne). lia.
  - intros w a c r (wi&Hw&->)%Hfc Hc (col&Hcol&Hin)%hit_column.
    eapply (before_rows s b nd Hcons Hb cols Hr Hs Hfit Hsh Hord); [|exact (window_interval w wi Hw)|..]; try done; [lia|].
    by apply Hstart, (lookup_lt_Some _ _ _ Hw).
  - intros w a c r (wi&Hw&->)%Hfc Hc (col&Hcol&Hin)%hit_column.
    eapply (after_rows s b nd Hcons Hb cols Hr Hs Hfit Hsh Hord); [|exact (window_interval w wi Hw)|..]; try done; lia.
Qed.
End built.

(** ** Construction *)

Section sound.
Context {R I : Type}
  {decoder_get : string → decoder_init (R := R) → decode_result_type → heterogeneous_map → res I}
  {inner_decode_batch : I → list (list Q) → res (option (list frame_result) * I)}.
Context `{!SoundDecoder decoder_get inner_decode_batch}.

(** What a successful construction has built. *)
Record constructed (cfg : sw_config (R := R)) (st : sw_state (I := I)) (cols : list (list nat))
    (wis : list (decoder_init (R := R) * nat)) : Prop := {
  cn_canonical : canonical (sw_inputs cfg) cols;
  cn_boundary : 0 < num_boundary_syndromes cfg;
  cn_checked : checked (sw_num_syndromes_per_round cfg) (num_boundary_syndromes cfg) (window_size cfg) (step_size cfg)
    (rounds_of (sw_num_syndromes_per_round cfg) (num_boundary_syndromes cfg) (num_rows_ (di_H (sw_inputs cfg))))
    (num_rows_ (di_H (sw_inputs cfg))) cols;
  cn_layout : layout cfg = the_layout (sw_num_syndromes_per_round cfg) (num_boundary_syndromes cfg) (num_rows_ (di_H (sw_inputs cfg)));
  cn_layers : num_detector_layers cfg = rounds_of (sw_num_syndromes_per_round cfg) (num_boundary_syndromes cfg) (num_rows_ (di_H (sw_inputs cfg)));
  cn_windows : num_windows cfg = length wis;
  cn_count : length wis = (num_detector_layers cfg - window_size cfg) / step_size cfg + 1;
  cn_first : first_columns cfg = snd <$> wis;
  cn_models : ∀ w wi, wis !! w = Some wi →
    window_inputs (sw_inputs cfg) (sw_num_syndromes_per_round cfg) (num_boundary_syndromes cfg) (window_size cfg)
      (step_size cfg) (straddle_start_round cfg) (straddle_end_round cfg) w = Ok wi;
  cn_inner_len : length (inner_decoders st) = length wis;
  cn_inner : ∀ w wi d, wis !! w = Some wi → inner_decoders st !! w = Some d →
    decoder_get (inner_decoder_name cfg) wi.1 errors (inner_decoder_params cfg) = Ok d;
  cn_since : rounds_since_last_reset st = 0
}.

Lemma make_sliding_window_constructed inputs gs request aux params cfg st rt :
  wf (di_H inputs) gs → (Z.of_nat (sw_num_syndromes_per_round cfg) < 2 ^ 32)%Z →
  make_sliding_window decoder_get inputs request aux params = Ok (cfg, st, rt) →
  ∃ cols wis, constructed cfg st cols wis ∧ sw_request cfg = request.
Proof using Type.
  intros Hwf Hs32 Hm. unfold make_sliding_window in Hm.
  apply bind_ok in Hm as (inputs'&Hcan&Hm). destruct (canonicalize_H_canonical _ _ _ Hwf Hcan) as [cols Hc].
  apply bind_ok in Hm as (rt0&_&Hm). apply bind_ok in Hm as ([]&_&Hm). apply bind_ok in Hm as ([]&_&Hm).
  set (s := get_size_or params "num_syndromes_per_round" 0) in *.
  set (b0 := get_size_or params "num_boundary_syndromes" 0) in *. cbv zeta in Hm.
  apply bind_ok in Hm as ([]&Hs0&Hm). rewrite throw_if_ok in Hs0. apply Nat.eqb_neq in Hs0.
  set (b := if b0 =? 0 then s else b0) in *.
  assert (0 < b) as Hb by (unfold b; destruct (Nat.eqb_spec b0 0); lia).
  apply bind_ok in Hm as (lay&Hlay&Hm). apply bind_ok in Hm as (q&Hq&Hm). apply bind_ok in Hm as ([]&Hv&Hm).
  apply bind_ok in Hm as (rt1&_&Hm). apply bind_ok in Hm as (built&Hbuilt&Hm).
  apply (built_windows _ (λ wi, decoder_get _ wi.1 errors _) snd) in Hbuilt as (wis&Hlw&Hli&Hf&Hall).
  injection Hm as Hcfg <- _. assert (sw_num_syndromes_per_round cfg = s) as Hs by (by subst cfg). rewrite Hs in Hs32.
  pose proof (wf_rows _ _ (ca_wf _ _ Hc)) as Hr32. pose proof (layout_rounds_fit _ _ _ _ Hr32 Hlay) as Hl64.
  pose proof (validate_inputs_checked _ _ _ _ _ _ _ _ Hc Hs32 Hb Hl64 Hv) as Hck.
  pose proof (ck_cons _ _ _ _ _ _ _ Hck) as Hcons. rewrite (make_round_layout_ok _ _ _ Hcons) in Hlay. injection Hlay as <-.
  cbn [lay_num_rounds the_layout] in *. pose proof (rounds_le _ _ _ Hcons Hb) as Hrl.
  pose proof (ck_window _ _ _ _ _ _ _ Hck) as Hwin. pose proof (ck_step _ _ _ _ _ _ _ Hck) as Hstep.
  rewrite u64_sub_le, udiv_ok in Hq by lia. injection Hq as <-.
  assert ((rounds_of s b (num_rows_ (di_H inputs')) - get_size_or params "window_size" 1) / get_size_or params "step_size" 1
    ≤ rounds_of s b (num_rows_ (di_H inputs'))) as Hq by (apply Nat.Div0.div_le_upper_bound; nia).
  rewrite (wrap_small 64) in Hlw by lia.
  exists cols, wis. split; [|by subst cfg]. subst cfg. constructor; cbn; try done.
  - rewrite (wrap_small 64) by lia. done.
  - intros w wi Hw. by apply Hall.
  - rewrite Hli, Hlw, (wrap_small 64) by lia. done.
  - intros w wi d Hw Hd. destruct (Hall w wi Hw) as (_&d'&Hd'&Hget). congruence.
Qed.

(** The inner decoder of window [w] serves the window's model. *)
Definition serves (wis : list (decoder_init (R := R) * nat)) (w : nat) (d : I) : Prop :=
  ∃ wi, wis !! w = Some wi ∧ decodes_for wi.1 d.

Section explain.
Context (cfg : sw_config (R := R)) (st0 : sw_state (I := I)) (cols : list (list nat)) (wis : list (decoder_init (R := R) * nat)).
Hypothesis Hcn : constructed cfg st0 cols wis.
Hypothesis Hstraddle : straddle_start_round cfg = false ∧ straddle_end_round cfg = true.
Hypothesis Hwin : 2 ≤ window_size cfg.
Hypothesis Hshort : short_mechanisms (layout cfg) cols = true.

Let nd := num_rows_ (di_H (sw_inputs cfg)).

Lemma constructed_models w wi : wis !! w = Some wi → ∃ gs,
  window_model (sw_inputs cfg) cols (sw_num_syndromes_per_round cfg) (num_boundary_syndromes cfg)
    (w * step_size cfg) (w * step_size cfg + window_size cfg - 1) wi.2 (last_column wis w) wi.1 gs.
Proof using Hcn Hstraddle Hwin Hshort.
  destruct Hcn, Hstraddle as [Hsa Hsb]. rewrite Hsa, Hsb in *. rewrite cn_layout0 in Hshort. rewrite cn_layers0 in *.
  by apply (window_at _ cols cn_canonical0 _ _ _ _ cn_boundary0 cn_checked0 Hwin Hshort wis cn_count0 cn_models0).
Qed.

Lemma constructed_windows_ok : windows_ok cfg cols (last_column wis).
Proof using Hcn Hstraddle Hwin Hshort.
  destruct Hcn, Hstraddle as [Hsa Hsb]. rewrite Hsa, Hsb in *. rewrite cn_layout0 in Hshort. rewrite cn_layers0 in cn_count0.
  by apply (built_windows_ok _ cols cn_canonical0 _ _ _ _ cn_boundary0 cn_checked0 Hwin Hshort wis cn_count0 cn_models0).
Qed.

(** The contract of the inner decoder gives the window's contract. *)
Lemma serves_sound w d syns :
  w < num_windows cfg → serves wis w d → syns ≠ [] →
  Forall (λ syn, length syn = round_start (layout cfg) (w * step_size cfg + window_size cfg) -
                              round_start (layout cfg) (w * step_size cfg)) syns →
  returns (inner_decode_batch d (as_values <$> syns)) (λ r, serves wis w r.2 ∧
    ∃ fs, r.1 = Some fs ∧ Forall2 (window_answer cfg cols (last_column wis) w) syns fs).
Proof using Hcn Hstraddle Hwin Hshort.
  intros Hw (wi&Hwi&Hd) Hne Hlen. destruct (constructed_models w wi Hwi) as [gs [Hcan Hint Hlg Hrows Hblock]].
  rewrite (cn_layout _ _ _ _ Hcn) in Hlen.
  replace (w * step_size cfg + window_size cfg - 1 + 1) with (w * step_size cfg + window_size cfg) in * by lia.
  eapply returns_mono; [apply (batch_answers wi.1 gs d syns Hcan Hd Hne)|].
  { eapply Forall_impl; [exact Hlen|]. cbv beta. intros syn ->. by rewrite Hrows. }
  intros r (Hd'&fs&Hfs&Hans). split; [by exists wi|]. exists fs. split; [done|].
  apply Forall2_same_length_lookup_2; [by eapply Forall2_length|]. intros k syn f Hk Hf.
  destruct (Forall2_lookup_lr _ _ _ _ _ _ Hans Hk Hf) as [Hl Hp]. rewrite Forall_forall in Hlen.
  pose proof (Hlen syn (list_elem_of_lookup_2 _ _ _ Hk)) as Hsyn.
  assert (default (length cols) (first_columns cfg !! w) = wi.2) as Hfc
    by (by rewrite (cn_first _ _ _ _ Hcn), list_lookup_fmap, Hwi).
  constructor; rewrite Hfc; [by rewrite Hl|].
  intros Hconv i b Hi. specialize (Hp Hconv i b Hi). rewrite <-Hp, Hlg.
  apply (span_parity_block gs cols wi.2 (last_column wis w - wi.2) (bit_at (hard f)) i).
  intros k' Hk'. rewrite (cn_layout _ _ _ _ Hcn). apply Hblock; [done|]. apply lookup_lt_Some in Hi. lia.
Qed.

Lemma constructed_fresh : fresh cfg (serves wis) st0.
Proof using Hcn Hstraddle Hwin Hshort.
  pose proof Hcn as []. constructor; [by rewrite cn_inner_len0|intros w d Hd|done].
  destruct (lookup_lt_is_Some_2 wis w) as [wi Hwi]; [rewrite <-cn_inner_len0; by eapply lookup_lt_Some|].
  exists wi. split; [done|]. destruct (constructed_models w wi Hwi) as [gs [Hcan _ _ _ _]].
  eapply get_decodes; [exact Hcan|]. by eapply cn_inner0.
Qed.
End explain.

(** C5. Let the inner decoders meet their contract, and let a sliding-window
    decoder be constructed for error frames over a model whose mechanisms
    touch at most two consecutive rounds, with the default straddling and
    windows of at least two rounds.  Then it decodes every batch of whole
    blocks of hard detectors (each value 0 or 1), from the freshly constructed state and after any number of earlier
    batches: it never throws, abandons a block or reads out of range, and every
    frame it marks as converged explains its block: the parity of the
    committed errors over each row of the parity-check matrix is the
    detector of that row. *)
Theorem sliding_window_explains inputs gs aux params cfg st rt cols :
  wf (di_H inputs) gs →
  make_sliding_window decoder_get inputs errors aux params = Ok (cfg, st, rt) →
  (Z.of_nat (sw_num_syndromes_per_round cfg) < 2 ^ 32)%Z →
  straddle_start_round cfg = false ∧ straddle_end_round cfg = true →
  2 ≤ window_size cfg →
  represents (di_H (sw_inputs cfg)) cols →
  short_mechanisms (layout cfg) cols = true →
  ∃ ready : sw_state (I := I) → Prop, ready st ∧
    ∀ st blocks, ready st → blocks ≠ [] →
      Forall (λ bits, length bits = di_num_detectors (sw_inputs cfg)) blocks →
      returns (decode_batch inner_decode_batch cfg (as_values <$> blocks) st) (λ r,
        ready r.2 ∧ ∃ fs, r.1 = Some fs ∧ Forall2 (explains cols) blocks fs).
Proof using All.
  intros Hwf Hm Hs32 Hstr Hwin Hrep Hshort.
  destruct (make_sliding_window_constructed _ _ _ _ _ _ _ _ Hwf Hs32 Hm) as (cols'&wis&Hcn&Hreq).
  assert (cols' = cols) as -> by (eapply wf_groups_unique; [apply Hcn|done]).
  exists (fresh cfg (serves wis)). split; [by eapply constructed_fresh|].
  intros st' blocks Hst Hne Hb. eapply decode_blocks; [by eapply constructed_windows_ok| |done..].
  by eapply serves_sound.
Qed.
End sound.
