(* ===== verification/SlidingLut.v ===== *)
(** * Lookup tables as inner decoders

    The lookup-table decoder meets the contract of an inner decoder of the
    sliding window, so a sliding window over lookup tables explains its
    syndromes. *)

From Stdlib Require Import QArith Ascii.
From stdpp Require Import gmap strings.
From S2P Require Import Prelude Ordering Tensor SparseMatrix SparseFacts SparseCanon SparseProps RoundLayout PcmSort Rates HetMap DetectorErrorModel DemFacts Decoder DecoderProps Lut LutProps SlidingWindow SlidingStep SlidingRun SlidingBuild SlidingProps.

Open Scope nat_scope.

(** ** Parities of an error set *)

Lemma span_parity_add cols n e q r :
  q < n → e q = false →
  span_parity cols 0 n (λ c, (c =? q) || e c) r = xorb (hit cols q r) (span_parity cols 0 n e r).
Proof.
  intros Hq He. replace n with (q + (1 + (n - q - 1))) by lia. rewrite !span_parity_app, !Nat.add_0_l.
  cbn [span_parity]. rewrite !Nat.add_0_r, Nat.eqb_refl, He. cbn [orb].
  rewrite (span_parity_ext cols 0 q _ e) by (intros c Hc _; by rewrite (proj2 (Nat.eqb_neq c q)) by lia).
  rewrite (span_parity_ext cols (q + 1) (n - q - 1) _ e) by (intros c Hc _; by rewrite (proj2 (Nat.eqb_neq c q)) by lia).
  rewrite andb_true_r, andb_false_r. destruct (hit cols q r), (span_parity cols 0 q e r), (span_parity cols (q + 1) _ e r); done.
Qed.

Lemma odd_hits cols n e r :
  Forall (λ col, NoDup col) cols → NoDup e → Forall (λ q, q < n) e →
  Nat.odd (occ r (hits_of cols e)) = span_parity cols 0 n (λ c, bool_decide (c ∈ e)) r.
Proof.
  intros Hnd He Hlt. induction e as [|q e IH].
  { cbn. symmetry. clear. induction n as [|n IH]; cbn; [done|]. by rewrite IH, andb_false_r. }
  apply NoDup_cons in He as [Hq He]. apply Forall_cons in Hlt as [Hqn Hlt].
  rewrite (span_parity_ext cols 0 n _ (λ c, (c =? q) || bool_decide (c ∈ e))).
  - rewrite span_parity_add by (done || by apply bool_decide_eq_false). rewrite <-IH by done.
    change (hits_of cols (q :: e)) with (default [] (cols !! q) ++ hits_of cols e).
    rewrite occ_app, Nat.odd_add. f_equal. unfold hit. apply eq_true_iff_eq. rewrite bool_decide_eq_true.
    apply occ_nodup. destruct (cols !! q) as [col|] eqn:Hcol; cbn; [|constructor].
    rewrite Forall_forall in Hnd. by eapply Hnd, list_elem_of_lookup_2.
  - intros c _ _. apply eq_true_iff_eq. rewrite orb_true_iff, !bool_decide_eq_true, Nat.eqb_eq. set_solver.
Qed.

(** ** The contract *)

(** The base class's [decode_batch]: one [decode] after the other. *)
Definition decode_each {D} (decode : D → list Q → res frame_result) (d : D) (syndromes : list (list Q))
    : res (list frame_result) :=
  foldM (λ s result, r ← decode d s; Ok (result ++ [r])) syndromes [].

Lemma decode_each_all {D} (decode : D → list Q → res frame_result) d (P : list bool → frame_result → Prop) syns :
  Forall (λ syn, returns (decode d (as_values syn)) (P syn)) syns →
  returns (decode_each decode d (as_values <$> syns)) (λ fs, Forall2 P syns fs).
Proof.
  intros Hall. unfold decode_each. rewrite foldM_map.
  cut (∀ acc, returns (foldM (λ syn result, r ← decode d (as_values syn); Ok (result ++ [r])) syns acc)
    (λ fs, ∃ fs', fs = acc ++ fs' ∧ Forall2 P syns fs')).
  { intros Hc. eapply returns_mono; [apply (Hc [])|]. by intros fs (fs'&->&Hf). }
  induction Hall as [|syn syns (f&Hf&HP) _ IH]; intros acc; cbn [foldM].
  { apply returns_ok. exists []. by rewrite app_nil_r. }
  rewrite Hf. cbn [mbind res_bind]. eapply returns_mono; [apply IH|]. intros fs (fs'&->&Hfs).
  exists (f :: fs'). rewrite <-app_assoc. split; [done|]. by constructor.
Qed.

Section lut.
Context {R : Type} `{RateOps R}.

Definition lut_frame (lut : multi_error_lut (R := R)) (s : list Q) : res frame_result :=
  r ← lut_decode lut rate_zero s;
  Ok (mk_frame (converged r) (result r)).

Definition lut_batch (lut : multi_error_lut (R := R)) (syndromes : list (list Q))
    : res (option (list frame_result) * multi_error_lut (R := R)) :=
  fs ← decode_each lut_frame lut syndromes;
  Ok (Some fs, lut).

Definition lut_get (name : string) (inputs : decoder_init (R := R)) (request : decode_result_type)
    (params : heterogeneous_map) : res multi_error_lut :=
  _ ← throw_if (bool_decide (name ≠ "multi_error_lut")) (RuntimeError "invalid decoder requested");
  make_lut inputs request false params.

Lemma make_lut_accepted inputs gs params lut :
  canonical inputs gs → make_lut inputs errors false params = Ok lut →
  ∃ depth, lut_accepts inputs params gs depth.
Proof.
  intros [Hwf _ _ Hd Hm] Hlut. unfold make_lut in Hlut. res_inv Hlut. exists x1.
  assert (1 ≤ x1 ∧ (x1 ≤ di_num_error_mechanisms inputs ∨ di_num_error_mechanisms inputs = 0)) as [H1 Hle].
  { unfold read_depth in E1. destruct (contains params "lut_error_depth"); [|injection E1 as <-; lia].
    res_inv E1. rewrite throw_if_ok in *. subst x1. lia. }
  destruct x4 as [[[a b] c] d]. res_inv Hlut. rewrite throw_if_ok in *. split; try done.
  - destruct Hle as [|H0]; [done|]. rewrite H0 in *. unfold fill_table, for_u in E6.
    replace (x1 + 1 - 1) with (S (x1 - 1)) in E6 by lia. done.
  - by destruct x2.
  - apply Z.ltb_ge in E3. lia.
  - eauto.
Qed.

Lemma lut_explains inputs gs params depth lut syn :
  canonical inputs gs → lut_accepts inputs params gs depth → lut_built inputs errors gs depth lut →
  length syn = di_num_detectors inputs →
  returns (lut_frame lut (as_values syn)) (sound_answer gs syn).
Proof.
  intros Hcan Hacc Hlut Hs. destruct (canonical_columns _ _ Hcan) as [Hlen _].
  destruct (lut_decode_answers inputs errors gs depth lut rate_zero (as_values syn) Hlut Hlen) as (opt&Hdec);
    [by rewrite length_as_values|].
  unfold lut_frame. rewrite Hdec. unfold finish. rewrite (lb_request _ _ _ _ _ Hlut). cbn [mbind res_bind converged result].
  apply returns_ok. destruct (lut_answer_ok (di_num_detectors inputs) depth gs (as_values syn)) as ([Hsorted Hlt]&_&Hconv&_).
  set (a := lut_answer _ _ _ _) in *. split; [apply length_frame|]. cbn [fr_converged]. intros Hc i b Hi.
  destruct (Hconv Hc) as [Hsig _]. pose proof (lookup_lt_Some _ _ _ Hi) as Hil.
  assert (signature_of (di_num_detectors inputs) gs a.2 !! i = Some (char_of b)) as Hchar.
  { rewrite Hsig. unfold text_of. rewrite list_lookup_fmap, lookup_as_values, Hi. cbn. by destruct b. }
  unfold signature_of in Hchar. rewrite lookup_parities in Hchar by lia. injection Hchar as Hchar.
  rewrite (odd_hits gs (length gs)) in Hchar; [| |by apply sorted_nodup|done].
  - rewrite (span_parity_ext gs 0 (length gs) _ (λ c, bool_decide (c ∈ a.2))).
    + by destruct (span_parity _ _ _ _), b.
    + intros c Hcl _. unfold bit_at, hard, convert_vec_soft_to_hard. cbn [fr_result].
      rewrite list_lookup_fmap, lookup_frame by lia. cbn. by case_decide; case_bool_decide.
  - eapply Forall_impl; [exact (ca_sorted _ _ Hcan)|]. apply sorted_lt_nodup.
Qed.

#[global] Program Instance lut_sound : SoundDecoder lut_get lut_batch := {
  decodes_for inputs lut := ∃ gs params depth,
    canonical inputs gs ∧ lut_accepts inputs params gs depth ∧ lut_built inputs errors gs depth lut
}.
Next Obligation.
  intros name inputs gs params lut Hcan Hget. unfold lut_get in Hget. apply bind_ok in Hget as ([]&_&Hget).
  destruct (make_lut_accepted _ _ _ _ Hcan Hget) as [depth Hacc]. exists gs, params, depth. split_and!; [done|done|].
  pose proof (make_lut_builds inputs errors params gs depth Hacc ltac:(done)) as Hb.
  unfold cols_of_matrix in Hb. rewrite (ca_csc _ _ Hcan) in Hb. by eapply returns_inv.
Qed.
Next Obligation.
  intros inputs gs lut syns Hcan (gs'&params&depth&Hcan'&Hacc&Hlut) _ Hlen.
  assert (gs' = gs) as -> by (eapply wf_groups_unique; [apply Hcan'|apply Hcan]).
  unfold lut_batch. eapply returns_bind.
  - apply (decode_each_all lut_frame lut (sound_answer gs)). eapply Forall_impl; [exact Hlen|].
    intros syn Hs. by apply (lut_explains inputs gs params depth).
  - intros fs Hfs. apply returns_ok. split; [by exists gs, params, depth|eauto].
Qed.
End lut.

(** ** An example: three rounds of one detector, windows of two rounds *)

Definition strip_cols : list (list nat) := [[0]; [0; 1]; [1]; [1; 2]; [2]].
Definition strip : decoder_init (R := Q) :=
  mk_init 3 5 0 (of_groups csc 3 5 strip_cols) None [1#10; 1#10; 1#10; 1#10; 1#10]%Q None None.
Definition strip_params : heterogeneous_map :=
  [("window_size", AnyInt 2); ("step_size", AnyInt 1); ("num_syndromes_per_round", AnyInt 1);
   ("inner_decoder_name", AnyString "multi_error_lut");
   ("inner_decoder_params", AnyMap [("lut_error_depth", AnyInt 2)])].

(** The blocks of the example and the frames decoded for them. *)
Definition strip_run : res (list (list bool)) :=
  c ← make_sliding_window lut_get strip errors false strip_params;
  r ← decode_batch lut_batch c.1.1 (as_values <$> [[true; true; false]; [true; false; true]]) c.1.2;
  Ok (hard <$> default [] r.1).

Example strip_run_ok : strip_run = Ok [[false; true; false; false; false]; [true; false; false; false; true]].
Proof. vm_compute. reflexivity. Qed.

Lemma sliding_window_explains_witness :
  returns (make_sliding_window lut_get strip errors false strip_params) (λ c,
    returns (decode_batch lut_batch c.1.1 (as_values <$> [[true; true; false]; [true; false; true]]) c.1.2) (λ r,
      ∃ fs, r.1 = Some fs ∧
        Forall2 (explains strip_cols) [[true; true; false]; [true; false; true]] fs)).
Proof.
  destruct (make_sliding_window lut_get strip errors false strip_params) as [[[cfg st] rt]| |] eqn:Hm;
    [|vm_compute in Hm; discriminate..].
  exists (cfg, st, rt). split; [reflexivity|]. cbn [fst snd].
  assert (Hv := Hm). vm_compute in Hv. injection Hv as Hcfg _ _.
  assert (sw_num_syndromes_per_round cfg = 1) as H1 by (by rewrite <-Hcfg).
  destruct (sliding_window_explains strip strip_cols false strip_params cfg st rt strip_cols) as (ready&Hready&Hdec).
  - apply (bool_decide_unpack _). vm_compute. exact I.
  - exact Hm.
  - rewrite H1. reflexivity.
  - rewrite <-Hcfg. split; reflexivity.
  - rewrite <-Hcfg. cbn. lia.
  - rewrite <-Hcfg. vm_compute. split_and!; reflexivity.
  - rewrite <-Hcfg. vm_compute. reflexivity.
  - eapply returns_mono; [apply (Hdec st _ Hready)|intros r [_ Hr]; exact Hr].
    + discriminate.
    + rewrite <-Hcfg. repeat constructor.
Defined.
