(* ===== verification/Graph.v ===== *)
(** * Weighted undirected graphs

    Model of [graph] (libs/core/lib/graph.cpp): adjacency lists in a hash map,
    with the edge operations, the queries and the depth-first connectivity
    test.  Node identifiers are integers; edge and node weights are an
    arbitrary type with the two constants the code uses.  The iteration order
    of [std::unordered_map] is unspecified and is a parameter. *)

From stdpp Require Import gmap sorting.
From S2P Require Import Prelude.

Open Scope Z_scope.

(** The order in which a range-for visits the keys of a hash map. *)
Class HashOrder := {
  hash_order : gset Z → list Z;
  hash_order_perm X : hash_order X ≡ₚ elements X
}.

(** Weights: [0.0] for missing nodes, [-1.0] for missing edges. *)
Class Weight (W : Type) := { w_zero : W; w_missing : W }.

Definition pair_lexi (p q : Z * Z) : Prop := p.1 < q.1 ∨ (p.1 = q.1 ∧ p.2 ≤ q.2).
#[global] Instance pair_lexi_dec p q : Decision (pair_lexi p q).
Proof. unfold pair_lexi. apply _. Defined.

Section graph.
Context {W : Type} `{Weight W}.

Record graph := mk_graph {
  adjacency_list : gmap Z (list (Z * W));
  node_weights : gmap Z W
}.

Definition empty_graph : graph := mk_graph ∅ ∅.

(** [adjacency_list\[u\]] default-constructs a missing entry. *)
Definition entry (adj : gmap Z (list (Z * W))) (u : Z) : list (Z * W) := default [] (adj !! u).

(** [std::find_if(..., p.first == v)] *)
Definition find_edge (v : Z) (l : list (Z * W)) : option (Z * W) :=
  snd <$> list_find (λ p, p.1 = v) l.

Definition add_edge (u v : Z) (weight : W) (g : graph) : graph :=
  let adj := <[u := entry (adjacency_list g) u]> (adjacency_list g) in
  match find_edge v (entry adj u) with
  | Some _ => mk_graph adj (node_weights g)
  | None =>
      let adj := <[u := entry adj u ++ [(v, weight)]]> adj in
      let adj := <[v := entry adj v ++ [(u, weight)]]> adj in
      mk_graph adj (node_weights g)
  end.

Definition clear (g : graph) : graph := empty_graph.

Definition add_node (node : Z) (weight : W) (g : graph) : graph :=
  match adjacency_list g !! node with
  | Some _ => g
  | None => mk_graph (<[node := []]> (adjacency_list g)) (<[node := weight]> (node_weights g))
  end.

Definition set_node_weight (node : Z) (weight : W) (g : graph) : graph :=
  mk_graph (adjacency_list g) (<[node := weight]> (node_weights g)).

Definition get_node_weight (node : Z) (g : graph) : W := default w_zero (node_weights g !! node).

Definition edge_exists (i j : Z) (g : graph) : bool :=
  match adjacency_list g !! i with
  | Some l => existsb (λ p, bool_decide (p.1 = j)) l
  | None => false
  end.

Definition get_neighbors (node : Z) (g : graph) : list Z :=
  match adjacency_list g !! node with
  | Some l => merge_sort Z.le l.*1
  | None => []
  end.

Definition get_weighted_neighbors (node : Z) (g : graph) : list (Z * W) :=
  match adjacency_list g !! node with Some l => l | None => [] end.

Definition num_nodes (g : graph) : Z := Z.of_nat (size (adjacency_list g)).

(** [std::remove_if(..., p.first == v)] and [erase] *)
Definition without (v : Z) (l : list (Z * W)) : list (Z * W) := filter (λ p, p.1 ≠ v) l.

(** Both iterators are looked up first; assigning through them keeps the keys. *)
Definition remove_edge (u v : Z) (g : graph) : graph :=
  let adj := alter (without v) u (adjacency_list g) in
  mk_graph (alter (without u) v adj) (node_weights g).

Definition remove_node (node : Z) (g : graph) : graph :=
  mk_graph (without node <$> delete node (adjacency_list g)) (delete node (node_weights g)).

Definition get_degree (node : Z) (g : graph) : Z :=
  match adjacency_list g !! node with Some l => Z.of_nat (length l) | None => 0 end.

Definition get_edge_weight (u v : Z) (g : graph) : W :=
  match adjacency_list g !! u with
  | Some l => match find_edge v l with Some p => p.2 | None => w_missing end
  | None => w_missing
  end.

(** [edge_it->second = weight] for the first entry of [v]. *)
Fixpoint set_first (v : Z) (weight : W) (l : list (Z * W)) : list (Z * W) :=
  match l with
  | [] => []
  | p :: l => if decide (p.1 = v) then (p.1, weight) :: l else p :: set_first v weight l
  end.

Definition has_entry (u v : Z) (adj : gmap Z (list (Z * W))) : bool :=
  match adj !! u with
  | Some l => match find_edge v l with Some _ => true | None => false end
  | None => false
  end.

Definition update_edge_weight (u v : Z) (weight : W) (g : graph) : bool * graph :=
  let adj := adjacency_list g in
  let updated := has_entry u v adj || has_entry v u adj in
  let adj := alter (set_first v weight) u adj in
  let adj := alter (set_first u weight) v adj in
  (updated, mk_graph adj (node_weights g)).

Context `{HashOrder}.

Definition get_nodes (g : graph) : list Z := hash_order (dom (adjacency_list g)).

Definition num_edges (g : graph) : Z :=
  foldl (λ total n, total + Z.of_nat (length (entry (adjacency_list g) n))) 0 (get_nodes g) / 2.

Definition get_disconnected_vertices (g : graph) : list (Z * Z) :=
  let nodes := get_nodes g in
  merge_sort pair_lexi
    (nodes ≫= λ ni, nodes ≫= λ nj,
       if (ni <? nj) && negb (edge_exists ni nj g) then [(ni, nj)] else []).

(** Depth-first search; the fuel bounds the recursion depth. *)
Fixpoint dfs (fuel : nat) (g : graph) (node : Z) (visited : gset Z) : option (gset Z) :=
  match fuel with
  | O => None
  | S fuel =>
      foldr (λ neighbor k visited,
          if decide (neighbor ∈ visited) then k visited
          else match dfs fuel g neighbor visited with
               | Some visited => k visited
               | None => None
               end)
        Some (get_neighbors node g) ({[node]} ∪ visited)
  end.

(** One level per node is enough. *)
Definition is_connected (g : graph) : option bool :=
  match get_nodes g with
  | [] => Some true
  | start_node :: _ =>
      match dfs (size (adjacency_list g)) g start_node ∅ with
      | Some visited => Some (bool_decide (size visited = size (adjacency_list g)))
      | None => None
      end
  end.
End graph.
Arguments graph : clear implicits.
