(* ===== verification/GraphProps.v ===== *)
(** * Properties of the graph

    The adjacency lists implement an abstract undirected graph (a set of nodes
    and a symmetric partial weight function), and the depth-first search
    decides connectivity whatever the hash order. *)

From stdpp Require Import gmap sorting.
From S2P Require Import Prelude Graph.

Open Scope Z_scope.

(** ** The abstract graph *)

Section spec.
Context {W : Type}.

Record spec := mk_spec {
  sp_nodes : gset Z;
  sp_edge : Z → Z → option W;
  sp_weight : Z → option W
}.

#[global] Instance spec_equiv : Equiv spec := λ s t,
  sp_nodes s = sp_nodes t ∧ (∀ a b, sp_edge s a b = sp_edge t a b) ∧ (∀ a, sp_weight s a = sp_weight t a).
#[global] Instance spec_equivalence : Equivalence (≡@{spec}).
Proof.
  split.
  - by intros s.
  - intros s t (?&?&?). repeat split; congruence.
  - intros s t u (?&?&?) (?&?&?). repeat split; congruence.
Qed.

(** The operations of the class. *)
Inductive op :=
  | Clear
  | AddNode (n : Z) (w : W)
  | SetNodeWeight (n : Z) (w : W)
  | AddEdge (u v : Z) (w : W)
  | UpdateEdge (u v : Z) (w : W)
  | RemoveEdge (u v : Z)
  | RemoveNode (n : Z).

(** The unordered pair {a, b} is {u, v}. *)
Definition same_pair (u v a b : Z) : bool :=
  bool_decide ((a = u ∧ b = v) ∨ (a = v ∧ b = u)).

Definition spec_run (o : op) (s : spec) : spec :=
  match o with
  | Clear => mk_spec ∅ (λ _ _, None) (λ _, None)
  | AddNode n w =>
      if decide (n ∈ sp_nodes s) then s
      else mk_spec ({[n]} ∪ sp_nodes s) (sp_edge s) (λ a, if decide (a = n) then Some w else sp_weight s a)
  | SetNodeWeight n w => mk_spec (sp_nodes s) (sp_edge s) (λ a, if decide (a = n) then Some w else sp_weight s a)
  | AddEdge u v w =>
      match sp_edge s u v with
      | Some _ => s
      | None => mk_spec ({[u; v]} ∪ sp_nodes s) (λ a b, if same_pair u v a b then Some w else sp_edge s a b) (sp_weight s)
      end
  | UpdateEdge u v w =>
      mk_spec (sp_nodes s)
        (λ a b, if same_pair u v a b then (λ _, w) <$> sp_edge s a b else sp_edge s a b) (sp_weight s)
  | RemoveEdge u v => mk_spec (sp_nodes s) (λ a b, if same_pair u v a b then None else sp_edge s a b) (sp_weight s)
  | RemoveNode n =>
      mk_spec (sp_nodes s ∖ {[n]})
        (λ a b, if decide (a = n ∨ b = n) then None else sp_edge s a b) (λ a, if decide (a = n) then None else sp_weight s a)
  end.

#[global] Instance spec_run_proper : Proper ((=) ==> (≡) ==> (≡)) spec_run.
Proof.
  intros o ? <- s t (Hn&He&Hw). destruct o; cbn [spec_run]; rewrite <-?Hn, <-?He.
  2: case_decide; [by split|].
  4: destruct (sp_edge s u v); [by split|].
  all: repeat split; cbn; intros; rewrite ?Hn, ?He, ?Hw; done.
Qed.

(** Undirected: symmetric, with nodes at both ends of every edge. *)
Record spec_ok (s : spec) : Prop := {
  so_sym : ∀ a b, sp_edge s a b = sp_edge s b a;
  so_closed : ∀ a b w, sp_edge s a b = Some w → b ∈ sp_nodes s
}.

#[global] Instance spec_ok_proper : Proper ((≡) ==> iff) spec_ok.
Proof.
  assert (∀ s t, s ≡ t → spec_ok s → spec_ok t) as Himp.
  { intros s t (Hn&He&_) [Hs Hc]. split; [intros a b; by rewrite <-!He|intros a b w; rewrite <-He, <-Hn; apply Hc]. }
  intros s t Hst. split; by apply Himp.
Qed.

Lemma same_pair_sym u v a b : same_pair u v a b = same_pair u v b a.
Proof. apply bool_decide_ext. tauto. Qed.
Lemma same_pair_true u v a b : same_pair u v a b = true → b = u ∨ b = v.
Proof. unfold same_pair. rewrite bool_decide_eq_true. tauto. Qed.

Lemma spec_run_ok o s : spec_ok s → spec_ok (spec_run o s).
Proof.
  intros [Hs Hc]. destruct o; cbn [spec_run].
  2: case_decide; [by split|].
  4: destruct (sp_edge s u v); [by split|].
  all: split; cbn; [intros a b; rewrite ?(same_pair_sym u v a b), ?(Hs a b); try done|intros a b w'].
  - done.
  - intros Hw. apply elem_of_union. right. by eapply Hc.
  - apply Hc.
  - destruct (same_pair u v a b) eqn:E; intros Hw; apply elem_of_union.
    + left. apply same_pair_true in E. set_solver.
    + right. by eapply Hc.
  - destruct (same_pair u v a b); [|apply Hc]. destruct (sp_edge s a b) eqn:E; [|done]. intros _. by eapply Hc.
  - destruct (same_pair u v a b); [done|apply Hc].
  - repeat case_decide; tauto.
  - case_decide; [done|]. intros Hw%Hc. set_solver.
Qed.
End spec.
Arguments spec : clear implicits.
Arguments op : clear implicits.

(** ** Refinement *)

Section graph.
Context {W : Type} `{Weight W}.

Definition run (o : op W) (g : graph W) : graph W :=
  match o with
  | Clear => clear g
  | AddNode n w => add_node n w g
  | SetNodeWeight n w => set_node_weight n w g
  | AddEdge u v w => add_edge u v w g
  | UpdateEdge u v w => (update_edge_weight u v w g).2
  | RemoveEdge u v => remove_edge u v g
  | RemoveNode n => remove_node n g
  end.

Definition wt (v : Z) (l : list (Z * W)) : option W := snd <$> find_edge v l.
Definition edge (g : graph W) (a b : Z) : option W := wt b (entry (adjacency_list g) a).
Definition abs (g : graph W) : spec W := mk_spec (dom (adjacency_list g)) (edge g) (λ a, node_weights g !! a).


Lemma wt_cons v p l : wt v (p :: l) = if decide (p.1 = v) then Some p.2 else wt v l.
Proof.
  unfold wt, find_edge. cbn [list_find]. case_decide; [done|].
  by destruct (list_find _ l) as [[? ?]|].
Qed.
Lemma wt_app v l1 l2 : wt v (l1 ++ l2) = match wt v l1 with Some w => Some w | None => wt v l2 end.
Proof. induction l1 as [|p l1 IH]; [done|]. rewrite <-app_comm_cons, !wt_cons. by case_decide. Qed.
Lemma wt_without v u l : wt v (without u l) = if decide (v = u) then None else wt v l.
Proof.
  induction l as [|p l IH]; [by case_decide|]. unfold without in *. rewrite (wt_cons v p l).
  destruct (decide (p.1 = u)) as [Hp|Hp]; [rewrite filter_cons_False by tauto|rewrite filter_cons_True by done];
    rewrite ?wt_cons, IH; repeat case_decide; congruence.
Qed.
Lemma wt_set_first v u w l :
  wt v (set_first u w l) = if decide (v = u) then (λ _, w) <$> wt v l else wt v l.
Proof.
  induction l as [|p l IH]; [by case_decide|]. cbn [set_first]. destruct (decide (p.1 = u)) as [Hp|Hp].
  - rewrite !wt_cons. cbn [fst snd]. repeat case_decide; try congruence. done.
  - rewrite !wt_cons, IH. repeat case_decide; congruence.
Qed.
Lemma wt_elem v l : is_Some (wt v l) ↔ v ∈ l.*1.
Proof.
  induction l as [|p l IH]; cbn [fmap list_fmap].
  - split; [by intros []|by intros ?%not_elem_of_nil].
  - rewrite wt_cons, elem_of_cons. case_decide; [by split; eauto|]. rewrite IH. naive_solver.
Qed.

Lemma entry_insert (adj : gmap Z (list (Z * W))) u l a : entry (<[u:=l]> adj) a = if decide (a = u) then l else entry adj a.
Proof. unfold entry. case_decide as E; [subst; by rewrite lookup_insert_eq|by rewrite lookup_insert_ne by done]. Qed.
Lemma entry_alter (adj : gmap Z (list (Z * W))) f u a :
  f [] = [] → entry (alter f u adj) a = if decide (a = u) then f (entry adj a) else entry adj a.
Proof.
  intros Hf. unfold entry. case_decide as E; [subst; rewrite lookup_alter_eq|by rewrite lookup_alter_ne by done].
  by destruct (adj !! u).
Qed.

(** The source of an edge is a node. *)
Lemma edge_source g a b w : edge g a b = Some w → a ∈ dom (adjacency_list g).
Proof. unfold edge, entry. rewrite elem_of_dom. destruct (adjacency_list g !! a); [by eauto|done]. Qed.

(** Every operation acts on the abstract graph as specified. *)
Lemma run_refines o g : spec_ok (abs g) → abs (run o g) ≡ spec_run o (abs g).
Proof.
  intros [Hsym Hcl]. cbn in Hsym, Hcl. destruct o as [|n w|n w|u v w|u v w|u v|n]; cbn [run spec_run].
  - repeat split; cbn; intros; unfold edge, entry; by rewrite ?dom_empty_L, ?lookup_empty.
  - unfold add_node. cbn [abs sp_nodes]. destruct (adjacency_list g !! n) as [l|] eqn:Hn.
    + rewrite decide_True by (by apply elem_of_dom_2 in Hn). done.
    + rewrite decide_False by (by apply not_elem_of_dom). repeat split; cbn.
      * by rewrite dom_insert_L.
      * intros a b. unfold edge. cbn. rewrite entry_insert. case_decide as E; [subst|done]. unfold entry. by rewrite Hn.
      * intros a. case_decide as E; [subst; by rewrite lookup_insert_eq|by rewrite lookup_insert_ne by done].
  - repeat split; cbn. intros a. case_decide as E; [subst; by rewrite lookup_insert_eq|by rewrite lookup_insert_ne by done].
  - unfold add_edge. rewrite entry_insert, decide_True by done. cbn [sp_edge abs].
    assert (edge g u v = snd <$> find_edge v (entry (adjacency_list g) u)) as Huv by done.
    destruct (find_edge v (entry (adjacency_list g) u)) as [p|] eqn:Hf; cbn in Huv; rewrite Huv.
    + repeat split; cbn; [rewrite dom_insert_L; apply edge_source in Huv; set_solver|].
      intros a b. unfold edge. cbn. rewrite entry_insert. case_decide; by subst.
    + assert (edge g v u = None) as Hvu by (by rewrite Hsym).
      repeat split; cbn; [rewrite !dom_insert_L; set_solver|]. intros a b. unfold edge in *. cbn in *.
      rewrite !entry_insert. unfold same_pair.
      destruct (decide (a = v)) as [->|Hav]; [destruct (decide (v = u)) as [->|Huv']|destruct (decide (a = u)) as [->|Hau]].
      all: rewrite ?wt_app, ?wt_cons; cbn [fst snd]; repeat case_decide; case_bool_decide; subst; try tauto; try congruence.
      all: rewrite ?Huv, ?Hvu; try done.
      all: by match goal with |- context [wt ?x (entry ?m ?c)] => destruct (wt x (entry m c)) end.
  - unfold update_edge_weight. repeat split; cbn; [by rewrite !dom_alter_L|].
    intros a b. unfold edge. cbn. rewrite !entry_alter by done. unfold same_pair.
    destruct (decide (a = v)) as [->|]; [destruct (decide (v = u)) as [->|]|destruct (decide (a = u)) as [->|]].
    all: rewrite ?wt_set_first; repeat case_decide; case_bool_decide; try done; subst; try tauto.
    by destruct (wt _ _).
  - unfold remove_edge. repeat split; cbn; [by rewrite !dom_alter_L|].
    intros a b. unfold edge. cbn. rewrite !entry_alter by done. unfold same_pair.
    destruct (decide (a = v)) as [->|]; [destruct (decide (v = u)) as [->|]|destruct (decide (a = u)) as [->|]].
    all: rewrite ?wt_without; repeat case_decide; case_bool_decide; try done; subst; tauto.
  - repeat split; cbn.
    + rewrite dom_fmap_L, dom_delete_L. done.
    + intros a b. unfold edge, entry. cbn. rewrite lookup_fmap.
      destruct (decide (a = n)) as [->|Ha]; [rewrite lookup_delete_eq, decide_True by tauto; done|].
      rewrite lookup_delete_ne by done. destruct (adjacency_list g !! a) as [l|]; [|by case_decide].
      change (default [] (without n <$> Some l)) with (without n l). rewrite wt_without. cbn [default from_option id]. repeat case_decide; tauto.
    + intros a. case_decide as E; [subst; by rewrite lookup_delete_eq|by rewrite lookup_delete_ne by done].
Qed.

Definition empty_spec : spec W := mk_spec ∅ (λ _ _, None) (λ _, None).

Lemma run_ok o g : spec_ok (abs g) → spec_ok (abs (run o g)).
Proof. intros Hg. rewrite run_refines by done. by apply spec_run_ok. Qed.

Lemma runs_refine ops g :
  spec_ok (abs g) →
  abs (foldl (flip run) g ops) ≡ foldl (flip spec_run) (abs g) ops ∧ spec_ok (abs (foldl (flip run) g ops)).
Proof.
  cut (∀ s, abs g ≡ s → spec_ok (abs g) →
    abs (foldl (flip run) g ops) ≡ foldl (flip spec_run) s ops ∧ spec_ok (abs (foldl (flip run) g ops)));
    [intros Hc; by apply Hc|].
  revert g. induction ops as [|o ops IH]; intros g s Hs Hg; [done|]. cbn [foldl flip]. apply IH.
  - rewrite run_refines by done. by rewrite Hs.
  - by apply run_ok.
Qed.

(** The other ends of the edges at a node; an edge from it to itself has two. *)
Definition incident (s : spec W) (a : Z) : list Z :=
  elements (filter (λ b, is_Some (sp_edge s a b)) (sp_nodes s)) ++ (match sp_edge s a a with Some _ => [a] | None => [] end).

Abbreviation occurs l b := (count_occ Z.eq_dec l b).

(** How often a neighbour is listed. *)
Definition times (a b : Z) (e : option W) : nat := match e with Some _ => if decide (a = b) then 2 else 1 | None => 0 end.
Definition listed (g : graph W) : Prop := ∀ a b, occurs (entry (adjacency_list g) a).*1 b = times a b (edge g a b).

Lemma occurs_without v (l : list (Z * W)) b : occurs (without v l).*1 b = if decide (b = v) then 0%nat else occurs l.*1 b.
Proof.
  unfold without. induction l as [|[x y] l IH]; [by case_decide|]. destruct (decide (x = v)) as [Hp|Hp].
  - rewrite filter_cons_False by (cbn; tauto). rewrite IH. cbn [fmap list_fmap count_occ fst]. destruct (Z.eq_dec x b), (decide (b = v)); congruence.
  - rewrite filter_cons_True by done. change ((x, y) :: filter (λ p, p.1 ≠ v) l).*1 with (x :: (filter (λ p, p.1 ≠ v) l).*1). cbn [fmap list_fmap count_occ fst].
    rewrite IH. destruct (Z.eq_dec x b), (decide (b = v)); congruence.
Qed.

Lemma keys_set_first v w (l : list (Z * W)) : (set_first v w l).*1 = l.*1.
Proof. induction l as [|p l IH]; [done|]. cbn [set_first]. case_decide; [done|]. cbn [fmap list_fmap]. by rewrite IH. Qed.

Lemma run_listed o g : spec_ok (abs g) → listed g → listed (run o g).
Proof.
  intros Hok Hl a b. pose proof Hok as [Hsym Hcl]. cbn in Hsym, Hcl. destruct (run_refines o g Hok) as (_&He&_). specialize (He a b). cbn [abs sp_edge] in He. rewrite He. clear He.
  specialize (Hl a b). destruct o as [|n w|n w|u v w|u v w|u v|n]; cbn [run spec_run].
  - unfold entry. cbn. by rewrite lookup_empty.
  - unfold add_node. destruct (adjacency_list g !! n) as [l|] eqn:Hn.
    + rewrite decide_True by (cbn; by apply elem_of_dom_2 in Hn). done.
    + rewrite decide_False by (cbn; by apply not_elem_of_dom). cbn [sp_edge abs adjacency_list]. rewrite entry_insert. case_decide as E; [subst|done].
      rewrite <-Hl. unfold entry. by rewrite Hn.
  - done.
  - unfold add_edge. rewrite entry_insert, decide_True by done. cbn [sp_edge abs].
    assert (edge g u v = snd <$> find_edge v (entry (adjacency_list g) u)) as Huv by done.
    destruct (find_edge v (entry (adjacency_list g) u)) as [p|] eqn:Hf; cbn in Huv; rewrite Huv.
    + cbn [adjacency_list sp_edge abs]. rewrite entry_insert. case_decide; by subst.
    + assert (edge g v u = None) as Hvu by (by rewrite Hsym). cbn [adjacency_list sp_edge].
      rewrite !entry_insert. unfold same_pair.
      destruct (decide (a = v)) as [->|Hav]; [destruct (decide (v = u)) as [->|Huv']|destruct (decide (a = u)) as [->|Hau]].
      all: rewrite ?decide_True by done; rewrite ?fmap_app, ?count_occ_app; cbn [fmap list_fmap count_occ fst]; rewrite ?Hl.
      * destruct (Z.eq_dec u b) as [->|Hub]; [rewrite bool_decide_true, Huv by tauto|rewrite bool_decide_false by naive_solver]; cbn [times]; [by rewrite decide_True|lia].
      * destruct (Z.eq_dec u b) as [->|Hub]; [rewrite bool_decide_true, Hvu by tauto|rewrite bool_decide_false by naive_solver]; cbn [times]; [by rewrite decide_False|lia].
      * destruct (Z.eq_dec v b) as [->|Hvb]; [rewrite bool_decide_true, Huv by tauto|rewrite bool_decide_false by naive_solver]; cbn [times]; [by rewrite decide_False by congruence|lia].
      * by rewrite bool_decide_false by naive_solver.
  - unfold update_edge_weight. cbn [snd adjacency_list sp_edge abs]. rewrite !entry_alter by done.
    assert ((if decide (a = v) then set_first u w (if decide (a = u) then set_first v w (entry (adjacency_list g) a) else entry (adjacency_list g) a)
      else if decide (a = u) then set_first v w (entry (adjacency_list g) a) else entry (adjacency_list g) a).*1 = (entry (adjacency_list g) a).*1) as ->
      by (repeat case_decide; by rewrite ?keys_set_first).
    rewrite Hl. by destruct (same_pair _ _ _ _), (edge g a b).
  - unfold remove_edge. cbn [adjacency_list sp_edge abs]. rewrite !entry_alter by done. unfold same_pair.
    destruct (decide (a = v)) as [->|]; [destruct (decide (v = u)) as [->|]|destruct (decide (a = u)) as [->|]].
    all: rewrite ?occurs_without; repeat case_decide; case_bool_decide; try done; subst; tauto.
  - cbn [remove_node adjacency_list sp_edge abs]. unfold entry. rewrite lookup_fmap. destruct (decide (a = n)) as [->|Ha]; [rewrite lookup_delete_eq, decide_True by tauto; done|].
    rewrite lookup_delete_ne by done. unfold edge, entry in Hl |- *. destruct (adjacency_list g !! a) as [l|]; [|by case_decide]. cbn [fmap option_fmap option_map default from_option id] in *.
    rewrite occurs_without, Hl. repeat case_decide; (tauto || done).
Qed.

(** The list of a node holds the other ends of its edges. *)
Lemma entry_incident g a : spec_ok (abs g) → listed g → (entry (adjacency_list g) a).*1 ≡ₚ incident (abs g) a.
Proof.
  intros [_ Hcl] Hl. cbn in Hcl. apply (Permutation_count_occ Z.eq_dec). intros b. rewrite Hl. unfold incident. cbn [abs sp_edge sp_nodes]. rewrite count_occ_app.
  set (N := filter (λ b, is_Some (edge g a b)) (dom (adjacency_list g))).
  assert (occurs (elements N) b = match edge g a b with Some _ => 1%nat | None => 0%nat end) as ->.
  { unfold N. destruct (edge g a b) as [w|] eqn:E.
    - apply NoDup_count_occ'; [apply NoDup_ListNoDup, NoDup_elements|]. apply list_elem_of_In, elem_of_elements, elem_of_filter. split; [by rewrite E|by eapply Hcl].
    - apply count_occ_not_In. rewrite <-list_elem_of_In, elem_of_elements, elem_of_filter, E. by intros [[] _]. }
  unfold times. destruct (decide (a = b)) as [->|Hne].
  - destruct (edge g b b); cbn; [|done]. by destruct (Z.eq_dec b b).
  - destruct (edge g a b), (edge g a a); cbn; try done; by destruct (Z.eq_dec a b).
Qed.

(** The queries, on the abstract graph. *)
Definition queries_agree (g : graph W) (s : spec W) : Prop :=
  (∀ a b, edge_exists a b g = bool_decide (is_Some (sp_edge s a b))) ∧
  (∀ a b, get_edge_weight a b g = default w_missing (sp_edge s a b)) ∧
  (∀ a, get_node_weight a g = default w_zero (sp_weight s a)) ∧
  (∀ a b, b ∈ get_neighbors a g ↔ is_Some (sp_edge s a b)) ∧
  (∀ a, Sorted Z.le (get_neighbors a g) ∧ get_neighbors a g ≡ₚ incident s a) ∧
  (∀ a, get_degree a g = Z.of_nat (length (incident s a))) ∧
  (∀ u v w, (update_edge_weight u v w g).1 = bool_decide (is_Some (sp_edge s u v))) ∧
  num_nodes g = Z.of_nat (size (sp_nodes s)).

Lemma edge_exists_wt a b g : edge_exists a b g = bool_decide (is_Some (edge g a b)).
Proof.
  unfold edge_exists, edge, entry. destruct (adjacency_list g !! a) as [l|]; cbn [default from_option id]; [|done].
  apply eq_true_iff_eq. rewrite existsb_exists, bool_decide_eq_true, wt_elem, list_elem_of_fmap. split.
  - intros (p&Hin&Hp%bool_decide_eq_true). exists p. split; [done|by apply list_elem_of_In].
  - intros (p&->&Hin). exists p. split; [by apply list_elem_of_In|by apply bool_decide_eq_true].
Qed.

Lemma has_entry_wt u v g : has_entry u v (adjacency_list g) = bool_decide (is_Some (edge g u v)).
Proof.
  unfold has_entry, edge, entry, wt. destruct (adjacency_list g !! u) as [l|]; cbn [default from_option id]; [|done].
  destruct (find_edge v l); case_bool_decide as Hb; [done|by destruct Hb|by destruct Hb|done].
Qed.

Lemma neighbors_wt a b g : b ∈ get_neighbors a g ↔ is_Some (edge g a b).
Proof.
  unfold get_neighbors, edge, entry. destruct (adjacency_list g !! a) as [l|]; cbn [default from_option id].
  - by rewrite merge_sort_Permutation, wt_elem.
  - split; [by intros ?%not_elem_of_nil|by intros []].
Qed.

Lemma abs_queries g : spec_ok (abs g) → listed g → queries_agree g (abs g).
Proof.
  intros Hok Hl. pose proof Hok as [Hsym _]. cbn in Hsym. split_and!; cbn [abs sp_edge sp_weight sp_nodes].
  - intros a b. apply edge_exists_wt.
  - intros a b. unfold get_edge_weight, edge, entry, wt. destruct (adjacency_list g !! a) as [l|]; [|done].
    cbn [default from_option id]. by destruct (find_edge b l).
  - done.
  - intros a b. apply neighbors_wt.
  - intros a. pose proof (entry_incident g a Hok Hl) as Hp. unfold get_neighbors, entry in *. destruct (adjacency_list g !! a) as [l|]; cbn [default from_option id] in Hp.
    + split; [apply Sorted_merge_sort; intros ??; lia|]. by rewrite merge_sort_Permutation.
    + split; [constructor|exact Hp].
  - intros a. rewrite <-(entry_incident g a Hok Hl), length_fmap. unfold get_degree, entry. by destruct (adjacency_list g !! a).
  - intros u v w. cbn [update_edge_weight fst]. by rewrite !has_entry_wt, (Hsym v u), orb_diag.
  - unfold num_nodes. by rewrite size_dom.
Qed.

Lemma runs_listed ops g : spec_ok (abs g) → listed g → listed (foldl (flip run) g ops).
Proof. revert g. induction ops as [|o ops IH]; intros g Hg Hl; [done|]. cbn [foldl flip]. apply IH; [by apply run_ok|by apply run_listed]. Qed.

Lemma queries_equiv g s s' : s ≡ s' → queries_agree g s → queries_agree g s'.
Proof.
  intros (Hn&He&Hw) (Q1&Q2&Q3&Q4&Q5&Q6&Q7&Q8).
  assert (∀ a, incident s a = incident s' a) as Hi.
  { intros a. unfold incident. rewrite Hn, (He a a). f_equal. f_equal. apply set_eq. intros b. rewrite !elem_of_filter. by rewrite He. }
  split_and!.
  - intros a b. by rewrite Q1, He.
  - intros a b. by rewrite Q2, He.
  - intros a. by rewrite Q3, Hw.
  - intros a b. rewrite <-He. apply Q4.
  - intros a. rewrite <-Hi. apply Q5.
  - intros a. rewrite <-Hi. apply Q6.
  - intros u v w. by rewrite (Q7 u v w), He.
  - by rewrite Q8, Hn.
Qed.

(** C23. The adjacency lists implement an undirected weighted graph: after any
    sequence of operations from the empty graph, the nodes, the edges with
    their weights and the node weights are those of the abstract graph on
    which the same operations were specified, and the edge relation is symmetric
    with nodes at both ends.  The queries answer for that abstract graph: an edge
    and its weight, the neighbours in ascending order, each as often as an edge
    joins it, the degree, which counts an edge from a node to itself twice, and
    the weight of a node, which a node that was given one by [set_node_weight]
    keeps although no edge or [add_node] made it a node.  Adding an existing edge
    or node changes nothing, and removing or updating acts on both directions. *)
Theorem graph_refines_undirected (ops : list (op W)) :
  let g := foldl (flip run) empty_graph ops in
  let s := foldl (flip spec_run) empty_spec ops in
  abs g ≡ s ∧ spec_ok s ∧ queries_agree g s.
Proof.
  intros g s. assert (abs empty_graph ≡ empty_spec) as He.
  { repeat split; cbn; intros; unfold edge, entry; by rewrite ?dom_empty_L, ?lookup_empty. }
  assert (spec_ok (abs empty_graph)) as Hok by (rewrite He; by split).
  destruct (runs_refine ops empty_graph Hok) as [Hr Hg]. fold g in Hr, Hg.
  assert (abs g ≡ s) as Hs.
  { rewrite Hr. unfold s. clear -He. revert He. generalize (abs empty_graph) (empty_spec).
    induction ops as [|o ops IH]; intros a b Hab; [done|]. cbn [foldl flip]. apply IH. by rewrite Hab. }
  split; [done|]. split; [by rewrite <-Hs|]. apply (queries_equiv g (abs g) s Hs), abs_queries; [done|].
  apply runs_listed; [done|]. intros a b. unfold edge, entry. cbn. by rewrite lookup_empty.
Qed.
End graph.

(** ** Connectivity *)

Section connected.
Context {W : Type} `{Weight W} `{HashOrder}.
Context (g : graph W).
Hypothesis Hok : spec_ok (abs g).

Let nodes : gset Z := dom (adjacency_list g).
Definition adjacent (a b : Z) : Prop := is_Some (edge g a b).

(** What one call adds to the visited set. *)
Record explored (node : Z) (visited visited' : gset Z) : Prop := {
  ex_grows : visited ⊆ visited';
  ex_self : node ∈ visited';
  ex_nodes : visited' ⊆ visited ∪ nodes;
  ex_reach : ∀ x, x ∈ visited' → x ∈ visited ∨ rtc adjacent node x;
  ex_closed : ∀ x y, x ∈ visited' → x ∉ visited → adjacent x y → y ∈ visited'
}.

(** The loop over the neighbours [l] of [node]. *)
Definition explore (fuel : nat) (l : list Z) (visited : gset Z) : option (gset Z) :=
  foldr (λ neighbor k visited,
      if decide (neighbor ∈ visited) then k visited
      else match dfs fuel g neighbor visited with
           | Some visited => k visited
           | None => None
           end) Some l visited.

Lemma explore_cons fuel a l visited :
  explore fuel (a :: l) visited =
    if decide (a ∈ visited) then explore fuel l visited
    else match dfs fuel g a visited with Some visited => explore fuel l visited | None => None end.
Proof using Type. done. Qed.

Lemma explore_ok node fuel l visited :
  (∀ a visited, a ∈ nodes → a ∉ visited → (size (nodes ∖ visited) ≤ fuel)%nat →
     ∃ visited', dfs fuel g a visited = Some visited' ∧ explored a visited visited') →
  (size (nodes ∖ visited) ≤ fuel)%nat → (∀ a, a ∈ l → adjacent node a) →
  ∃ visited', explore fuel l visited = Some visited' ∧ visited ⊆ visited' ∧ (∀ a, a ∈ l → a ∈ visited') ∧
    visited' ⊆ visited ∪ nodes ∧ (∀ x, x ∈ visited' → x ∈ visited ∨ rtc adjacent node x) ∧
    (∀ x y, x ∈ visited' → x ∉ visited → adjacent x y → y ∈ visited').
Proof using Hok.
  intros Hdfs. revert visited. induction l as [|a l IH]; intros visited Hfuel Hl.
  { exists visited. split; [done|]. set_solver. }
  rewrite explore_cons. case_decide as Ha.
  { destruct (IH visited Hfuel ltac:(set_solver)) as (v'&->&?&?&?&?&?). exists v'. split; [done|]. set_solver. }
  assert (adjacent node a) as Hadj by (apply Hl; set_solver).
  assert (a ∈ nodes) as Han by (destruct Hadj as [w Hw]; by eapply (so_closed _ Hok)).
  destruct (Hdfs a visited Han Ha Hfuel) as (v1&->&[Hg Hs Hn Hr Hc]).
  assert (size (nodes ∖ v1) ≤ fuel)%nat as Hf1 by (etrans; [|exact Hfuel]; apply subseteq_size; set_solver).
  destruct (IH v1 Hf1 ltac:(set_solver)) as (v2&->&Hg2&Hl2&Hn2&Hr2&Hc2). exists v2. split; [done|].
  split_and!; [set_solver|set_solver|set_solver| |].
  - intros x Hx. destruct (Hr2 x Hx) as [Hx1|]; [|by right]. destruct (Hr x Hx1) as [|Hax]; [by left|].
    right. by eapply rtc_l.
  - intros x y Hx Hxv Hxy. destruct (decide (x ∈ v1)) as [Hx1|Hx1]; [|by eapply Hc2].
    apply Hg2. by eapply Hc.
Qed.

Lemma dfs_ok fuel a visited :
  a ∈ nodes → a ∉ visited → (size (nodes ∖ visited) ≤ fuel)%nat →
  ∃ visited', dfs fuel g a visited = Some visited' ∧ explored a visited visited'.
Proof using Hok.
  revert a visited. induction fuel as [|fuel IH]; intros a visited Ha Hav Hfuel.
  { assert (a ∈ nodes ∖ visited) as Hin by set_solver.
    assert (size (nodes ∖ visited) = 0%nat) as Hz by lia. apply size_empty_inv in Hz. set_solver. }
  change (dfs (S fuel) g a visited) with (explore fuel (get_neighbors a g) ({[a]} ∪ visited)).
  destruct (explore_ok a fuel (get_neighbors a g) ({[a]} ∪ visited) IH) as (v'&->&Hg&Hl&Hn&Hr&Hc).
  - assert (nodes ∖ visited = {[a]} ∪ nodes ∖ ({[a]} ∪ visited)) as Heq.
    { apply set_eq. intros x. destruct (decide (x = a)); set_solver. }
    rewrite Heq, size_union in Hfuel by set_solver. rewrite size_singleton in Hfuel. lia.
  - intros b Hb. by apply neighbors_wt.
  - exists v'. split; [done|]. split; [set_solver|set_solver|set_solver| |].
    + intros x Hx. destruct (Hr x Hx) as [Hx1|]; [|by right].
      apply elem_of_union in Hx1 as [->%elem_of_singleton|]; [right; apply rtc_refl|by left].
    + intros x y Hx Hxv Hxy. destruct (decide (x = a)) as [->|Hxa].
      * apply Hl. by apply neighbors_wt.
      * eapply Hc; [done| |done]. set_solver.
Qed.

Lemma nodes_elem x : x ∈ get_nodes g ↔ x ∈ nodes.
Proof using Type. unfold get_nodes. rewrite hash_order_perm. apply elem_of_elements. Qed.

(** The visited set of a complete search is the component of its start. *)
Lemma dfs_component start :
  start ∈ nodes → ∃ visited, dfs (size (adjacency_list g)) g start ∅ = Some visited ∧
    visited ⊆ nodes ∧ ∀ x, x ∈ visited ↔ rtc adjacent start x.
Proof using Hok.
  intros Hs. destruct (dfs_ok (size (adjacency_list g)) start ∅ Hs) as (v&Hv&[_ Hself Hn Hr Hc]).
  - set_solver.
  - rewrite difference_empty_L. unfold nodes. by rewrite size_dom.
  - exists v. split; [done|]. split; [set_solver|]. intros x. split.
    + intros Hx. destruct (Hr x Hx) as [?%not_elem_of_empty|]; [done|done].
    + intros Hx. assert (∀ a b, rtc adjacent a b → a ∈ v → b ∈ v) as Hclosed; [|by eapply Hclosed].
      clear - Hc. induction 1 as [|a b c Hab _ IH]; [done|]. intros Ha. apply IH. apply (Hc a b); [done|set_solver|done].
Qed.

Lemma adjacent_sym a b : adjacent a b → adjacent b a.
Proof using Hok. unfold adjacent. pose proof (so_sym _ Hok a b) as Hs. cbn in Hs. by rewrite Hs. Qed.

Lemma rtc_adjacent_sym a b : rtc adjacent a b → rtc adjacent b a.
Proof using Hok.
  induction 1 as [|a b c Hab _ IH]; [done|]. eapply rtc_r; [done|]. by apply adjacent_sym.
Qed.

Lemma is_connected_ok :
  ∃ r, is_connected g = Some r ∧ (r = true ↔ ∀ a b, a ∈ nodes → b ∈ nodes → rtc adjacent a b).
Proof using Hok.
  unfold is_connected. destruct (get_nodes g) as [|start rest] eqn:Hn.
  { exists true. split; [done|]. split; [|done]. intros _ a b Ha%nodes_elem. rewrite Hn in Ha. by apply not_elem_of_nil in Ha. }
  assert (start ∈ nodes) as Hs by (apply nodes_elem; rewrite Hn; set_solver).
  destruct (dfs_component start Hs) as (v&->&Hsub&Hv). eexists. split; [done|]. rewrite bool_decide_eq_true.
  assert (size (adjacency_list g) = size nodes) as -> by (unfold nodes; by rewrite size_dom). split.
  - intros Hsz a b Ha Hb. assert (v = nodes) as ->.
    { apply set_subseteq_size_eq; [done|lia]. }
    etrans; [apply rtc_adjacent_sym|]; by apply Hv.
  - intros Hall. f_equal. apply set_eq. intros x. split; [apply Hsub|]. intros Hx. apply Hv. by apply Hall.
Qed.
End connected.

Section theorems.
Context {W : Type} `{Weight W} `{HashOrder}.

Lemma built_ok (ops : list (op W)) : spec_ok (abs (foldl (flip run) empty_graph ops)).
Proof.
  apply (proj2 (A := abs (foldl (flip run) empty_graph ops) ≡ foldl (flip spec_run) (abs empty_graph) ops)).
  apply runs_refine. split; cbn; intros; unfold edge, entry in *; by rewrite ?lookup_empty in *.
Qed.

(** C38. [is_connected] terminates on every graph the operations can build and
    is true exactly when every node can be reached from every other through
    existing edges, whatever order the hash map is traversed in; the empty
    graph is connected. *)
Theorem is_connected_decides (ops : list (op W)) :
  let g := foldl (flip run) empty_graph ops in
  ∃ r, is_connected g = Some r ∧
    (r = true ↔ ∀ a b, a ∈ dom (adjacency_list g) → b ∈ dom (adjacency_list g) →
                  rtc (λ x y, edge_exists x y g = true) a b).
Proof.
  intros g. destruct (is_connected_ok g (built_ok ops)) as (r&Hr&Hiff). exists r. split; [done|]. rewrite Hiff.
  assert (∀ a b, rtc (adjacent g) a b ↔ rtc (λ x y, edge_exists x y g = true) a b) as Hrtc.
  { intros a b. split; apply rtc_subrel; intros x y; rewrite edge_exists_wt, bool_decide_eq_true; done. }
  by setoid_rewrite Hrtc.
Qed.

Lemma pair_lexi_total : Total pair_lexi.
Proof. intros [a b] [c d]. unfold pair_lexi. cbn. lia. Qed.
Lemma pair_lexi_trans : Transitive pair_lexi.
Proof. intros [a b] [c d] [e f]. unfold pair_lexi. cbn. lia. Qed.

Lemma NoDup_pairs (f : Z → Z → bool) (l k : list Z) :
  NoDup l → NoDup k → NoDup (l ≫= λ a, k ≫= λ b, if f a b then [(a, b)] else []).
Proof.
  intros Hl Hk. apply NoDup_bind; [| |done].
  - intros a a' p _ _ (b&Hp&_)%list_elem_of_bind (b'&Hp'&_)%list_elem_of_bind.
    destruct (f a b), (f a' b'); set_solver.
  - intros a _. apply NoDup_bind; [| |done].
    + intros b b' p _ _ Hp Hp'. destruct (f a b), (f a b'); set_solver.
    + intros b _. destruct (f a b); [apply NoDup_singleton|constructor].
Qed.

(** [get_disconnected_vertices] lists, in ascending order and without
    repetition, exactly the pairs [i < j] of nodes that no edge joins,
    whatever order the hash map is traversed in. *)
Theorem disconnected_vertices_complete (g : graph W) :
  let l := get_disconnected_vertices g in
  StronglySorted pair_lexi l ∧ NoDup l ∧
  ∀ i j, (i, j) ∈ l ↔ i ∈ dom (adjacency_list g) ∧ j ∈ dom (adjacency_list g) ∧ i < j ∧ edge_exists i j g = false.
Proof.
  intros l. unfold l, get_disconnected_vertices.
  assert (NoDup (get_nodes g)) as Hnd by (unfold get_nodes; rewrite hash_order_perm; apply NoDup_elements).
  split_and!.
  - apply StronglySorted_merge_sort; [apply pair_lexi_trans|apply pair_lexi_total].
  - rewrite merge_sort_Permutation. by apply (NoDup_pairs (λ ni nj, (ni <? nj) && negb (edge_exists ni nj g))).
  - intros i j. rewrite merge_sort_Permutation, list_elem_of_bind. setoid_rewrite list_elem_of_bind.
    setoid_rewrite nodes_elem. split.
    + intros (i'&(j'&Hij&Hj)&Hi). destruct (_ && _) eqn:E; [|by apply not_elem_of_nil in Hij].
      apply list_elem_of_singleton in Hij as [= -> ->]. apply andb_true_iff in E as [E1%Z.ltb_lt E2%negb_true_iff]. done.
    + intros (Hi&Hj&Hlt&He). exists i. split; [|done]. exists j. split; [|done].
      rewrite (proj2 (Z.ltb_lt i j) Hlt), He. apply list_elem_of_singleton. done.
Qed.
End theorems.

(** Examples with integer weights and one order of traversal. *)
#[local] Instance int_weight : Weight Z := { w_zero := 0; w_missing := -1 }.
#[local] Program Instance elements_order : HashOrder := { hash_order := elements }.
Next Obligation. done. Qed.

Example graph_example :
  let g := foldl (flip run) empty_graph
    [AddEdge 1 2 5; AddEdge 2 3 7; AddEdge 2 1 9; AddNode 4 2; RemoveEdge 3 2; UpdateEdge 1 2 6] in
  is_connected g = Some false ∧ get_disconnected_vertices g = [(1, 3); (1, 4); (2, 3); (2, 4); (3, 4)] ∧
  num_edges g = 1 ∧ get_edge_weight 2 1 g = 6 ∧ get_edge_weight 2 3 g = -1.
Proof. vm_compute. done. Qed.

(** A node created by [add_edge] keeps the weight [0.0]: a later [add_node]
    finds the node and ignores the weight it is given. *)
Example add_node_after_add_edge :
  get_node_weight 1 (add_node 1 8 (add_edge 1 2 5 empty_graph)) = 0 ∧
  get_node_weight 1 (add_edge 1 2 5 (add_node 1 8 empty_graph)) = 8.
Proof. vm_compute. done. Qed.

(** A weight set for an absent node is reported, while the node stays absent. *)
Example weight_of_absent_node :
  get_node_weight 3 (set_node_weight 3 8 empty_graph) = 8 ∧ num_nodes (set_node_weight 3 8 empty_graph) = 0.
Proof. vm_compute. done. Qed.

(** An edge from a node to itself is listed twice; updating it writes the first
    entry twice and leaves the other. *)
Example self_loop_half_updated :
  get_degree 1 (add_edge 1 1 5 empty_graph) = 2 ∧
  get_weighted_neighbors 1 (update_edge_weight 1 1 9 (add_edge 1 1 5 empty_graph)).2 = [(1, 9); (1, 5)].
Proof. vm_compute. done. Qed.
