(* ===== verification/SurfaceCode.v ===== *)
(** * The rotated surface code

    Model of [stabilizer_grid] and [surface_code]
    (libs/qec/lib/codes/surface_code.cpp): the grid of stabilizer sites for
    the four orientations, the stabilizers and logical observables as Pauli
    words, and the CNOT schedules.  The words are the arguments of
    [cudaq::spin_op::from_word]; the quantum kernels and the printing functions
    are left out. *)

From Stdlib Require Import Ascii.
From stdpp Require Import gmap strings sorting.
From S2P Require Import Prelude Tensor.

Open Scope nat_scope.

(** ** Orientations *)

Inductive sc_orientation := XV | XH | ZV | ZH.
Inductive surface_role := amx | amz | empty_site.

#[global] Instance sc_orientation_eq : EqDecision sc_orientation.
Proof. solve_decision. Defined.
#[global] Instance surface_role_eq : EqDecision surface_role.
Proof. solve_decision. Defined.

Definition is_space (c : ascii) : bool :=
  let n := nat_of_ascii c in (n =? 32) || ((9 <=? n) && (n <=? 13)).
Definition to_upper (c : ascii) : ascii :=
  let n := nat_of_ascii c in if (97 <=? n) && (n <=? 122) then ascii_of_nat (n - 32) else c.

Fixpoint skip_spaces (l : list ascii) : list ascii :=
  match l with
  | c :: l' => if is_space c then skip_spaces l' else l
  | [] => []
  end.

(** Trim both ends, then upper case. *)
Definition normalize_orientation (value : list ascii) : list ascii :=
  to_upper <$> reverse (skip_spaces (reverse (skip_spaces value))).

Definition word_of (s : string) : list ascii := String.list_ascii_of_string s.

Definition sc_orientation_from_str (s : string) : res sc_orientation :=
  let orientation := normalize_orientation (word_of s) in
  let named x := bool_decide (orientation = word_of x) in
  if named "XV" || named "O1" then Ok XV
  else if named "XH" || named "O2" then Ok XH
  else if named "ZV" || named "O3" then Ok ZV
  else if named "ZH" || named "O4" then Ok ZH
  else Throw (RuntimeError "Invalid surface-code orientation. Expected XV(O1), XH(O2), ZV(O3), or ZH(O4).").

Definition role_for_parity (orientation : sc_orientation) (odd_parity : bool) : surface_role :=
  let x_on_even_parity := bool_decide (orientation = XV ∨ orientation = XH) in
  if xorb x_on_even_parity odd_parity then amx else amz.

Definition horizontal_boundaries_use_even_parity (orientation : sc_orientation) : bool :=
  bool_decide (orientation = XH ∨ orientation = ZH).

Definition x_logical_on_top_row (orientation : sc_orientation) : bool :=
  bool_decide (orientation = XV ∨ orientation = ZH).

(** ** The grid *)

Abbreviation vec2d := (Z * Z)%type.

Record stabilizer_grid := mk_grid {
  distance : nat;
  grid_length : nat;
  orientation_ : sc_orientation;
  roles : list surface_role;
  x_stab_coords : list vec2d;
  z_stab_coords : list vec2d;
  x_stab_indices : gmap vec2d nat;
  z_stab_indices : gmap vec2d nat;
  data_coords : list vec2d;
  data_indices : gmap vec2d nat;
  x_stabilizers : list (list nat);
  z_stabilizers : list (list nat)
}.

(** [for (i = 0; i < n; i += step)]; a zero step never ends. *)
Definition for_stride {S} (n step : nat) (body : nat → S → res S) (s : S) : res S :=
  if (step =? 0) && (0 <? n) then Undef
  else foldM body ((λ k, k * step) <$> seq 0 ((n + step - 1) / step)) s.

Definition odd_site (row col : nat) : bool := Nat.odd (row + col).

Definition generate_grid_roles (grid_length : nat) (o : sc_orientation) (roles : list surface_role)
    : res (list surface_role) :=
  let n := grid_length in
  let last := Z.to_nat ((Z.of_nat n - 1) mod 2 ^ 32)%Z in
  let even := horizontal_boundaries_use_even_parity o in
  roles ← for_u 0 n (λ row, for_u 0 n (λ col roles, vset roles (row * n + col) empty_site)) roles;
  roles ← for_u 1 last (λ row, for_u 1 last (λ col roles,
    vset roles (row * n + col) (role_for_parity o (odd_site row col)))) roles;
  roles ← for_stride n last (λ row, for_u 1 last (λ col roles,
    if xorb (odd_site row col) even
    then vset roles (row * n + col) (role_for_parity o (odd_site row col)) else Ok roles)) roles;
  for_u 1 last (λ row, for_stride n last (λ col roles,
    if eqb (odd_site row col) even
    then vset roles (row * n + col) (role_for_parity o (odd_site row col)) else Ok roles)) roles.

Definition site (row col : nat) : vec2d := (Z.of_nat row, Z.of_nat col).

(** Coordinates with their indices: a list and the inverse map. *)
Abbreviation coords := (list vec2d * gmap vec2d nat)%type.
Definition push_coord (c : vec2d) (st : coords) : coords := (st.1 ++ [c], <[c := length st.1]> st.2).

(** The Z and the X sites, in row-major order. *)
Definition generate_grid_indices (n : nat) (roles : list surface_role) : res (coords * coords) :=
  for_u 0 n (λ row, for_u 0 n (λ col st,
    r ← vget roles (row * n + col);
    match r with
    | amz => Ok (push_coord (site row col) st.1, st.2)
    | amx => Ok (st.1, push_coord (site row col) st.2)
    | empty_site => Ok st
    end)) (([], ∅), ([], ∅)).

Definition data_grid (distance : nat) : res coords :=
  for_u 0 distance (λ row, for_u 0 distance (λ col st,
    Ok (st.1 ++ [site row col], <[site row col := row * distance + col]> st.2))) ([], ∅).

(** The data qubits at the four corners of a site. *)
Definition stabilizer_at (data : gmap vec2d nat) (coord : vec2d) : list nat :=
  merge_sort Nat.le
    ([-1; 0]%Z ≫= λ row_offset, [-1; 0]%Z ≫= λ col_offset,
       match data !! (coord.1 + row_offset, coord.2 + col_offset)%Z with
       | Some d => [d]
       | None => []
       end).

Definition make_grid (distance : nat) (o : sc_orientation) : res stabilizer_grid :=
  let n := u32 (distance + 1) in
  roles ← generate_grid_roles n o (replicate (u32 (n * n)) empty_site);
  zx ← generate_grid_indices n roles;
  let '(z, x) := zx in
  data ← data_grid distance;
  Ok (mk_grid distance n o roles x.1 z.1 x.2 z.2 data.1 data.2
        (stabilizer_at data.2 <$> x.1) (stabilizer_at data.2 <$> z.1)).

(** ** Pauli words *)

Definition pauli_word (n : nat) (letter : ascii) (support : list nat) : res (list ascii) :=
  foldM (λ elem stab, vset stab elem letter) support (replicate n "I"%char).

Definition words_of (n : nat) (letter : ascii) (stabs : list (list nat)) : res (list (list ascii)) :=
  foldM (λ s words, w ← pauli_word n letter s; Ok (words ++ [w])) stabs [].

Definition get_spin_op_stabilizers (g : stabilizer_grid) : res (list (list ascii)) :=
  xs ← words_of (length (data_coords g)) "X"%char (x_stabilizers g);
  zs ← words_of (length (data_coords g)) "Z"%char (z_stabilizers g);
  Ok (xs ++ zs).

Definition top_row_obs (g : stabilizer_grid) (letter : ascii) : res (list ascii) :=
  for_u 0 (distance g) (λ i obs, vset obs i letter) (replicate (length (data_coords g)) "I"%char).
Definition left_col_obs (g : stabilizer_grid) (letter : ascii) : res (list ascii) :=
  for_stride (length (data_coords g)) (distance g) (λ i obs, vset obs i letter)
    (replicate (length (data_coords g)) "I"%char).

Definition get_spin_op_observables (g : stabilizer_grid) : res (list (list ascii)) :=
  if x_logical_on_top_row (orientation_ g) then
    x ← top_row_obs g "X"%char;
    z ← left_col_obs g "Z"%char;
    Ok [x; z]
  else
    x ← left_col_obs g "X"%char;
    z ← top_row_obs g "Z"%char;
    Ok [x; z].

(** ** CNOT schedules *)

Definition row_major_order : list vec2d := [(-1, -1); (-1, 0); (0, -1); (0, 0)]%Z.
Definition col_major_order : list vec2d := [(-1, -1); (0, -1); (-1, 0); (0, 0)]%Z.

Definition schedule_row (data : gmap vec2d nat) (num_data : nat) (order : list vec2d) (sc : vec2d)
    : res (list nat) :=
  for_u 0 4 (λ step row,
    off ← vget order step;
    match data !! (sc.1 + off.1, sc.2 + off.2)%Z with
    | Some d => vset row d (step + 1)
    | None => Ok row
    end) (replicate num_data 0).

(** [std::find_if(..., v != 0) - begin()] *)
Fixpoint first_support (row : list nat) : nat :=
  match row with
  | v :: row => if v =? 0 then S (first_support row) else 0
  | [] => 0
  end.

Definition pair_nat_le (p q : nat * nat) : Prop := p.1 < q.1 ∨ (p.1 = q.1 ∧ p.2 ≤ q.2).
#[global] Instance pair_nat_le_dec p q : Decision (pair_nat_le p q).
Proof. unfold pair_nat_le. apply _. Defined.

Definition build_cnot_schedule (stab_coords : list vec2d) (data : gmap vec2d nat) (num_data : nat)
    (use_col_major_order : bool) : res tensor :=
  let order := if use_col_major_order then col_major_order else row_major_order in
  rows ← foldM (λ sc rows, r ← schedule_row data num_data order sc; Ok (rows ++ [r])) stab_coords [];
  let keyed := merge_sort pair_nat_le (imap (λ r row, (first_support row, r)) rows) in
  _ ← for_u 1 (length keyed) (λ r _,
    k ← vget keyed r;
    k' ← vget keyed (r - 1);
    throw_if (k.1 =? k'.1)
      (RuntimeError "surface-code CNOT schedule: two same-type stabilizers share their first supported data qubit")) tt;
  for_u 0 (length rows) (λ r, for_u 0 num_data (λ c t,
    k ← vget keyed r;
    row ← vget rows k.2;
    v ← vget row c;
    set_at t [r; c] v)) (tensor_of_shape [length rows; num_data]).

Definition schedule_to_pairs (sched : tensor) : res (list nat) :=
  num_stabs ← vget (t_shape sched) 0;
  num_data ← vget (t_shape sched) 1;
  for_u 0 num_stabs (λ s pairs,
    row ← for_u 0 num_data (λ d row,
      v ← at_ sched [s; d];
      Ok (if v =? 0 then row else row ++ [(v, d)])) [];
    Ok (pairs ++ (merge_sort pair_nat_le row ≫= λ p, [s; p.2]))) [].

Definition get_cnot_schedule_x (g : stabilizer_grid) : res tensor :=
  build_cnot_schedule (x_stab_coords g) (data_indices g) (u32 (distance g * distance g))
    (x_logical_on_top_row (orientation_ g)).
Definition get_cnot_schedule_z (g : stabilizer_grid) : res tensor :=
  build_cnot_schedule (z_stab_coords g) (data_indices g) (u32 (distance g * distance g))
    (negb (x_logical_on_top_row (orientation_ g))).
Definition get_cnot_schedule_pairs_x (g : stabilizer_grid) : res (list nat) :=
  t ← get_cnot_schedule_x g; schedule_to_pairs t.
Definition get_cnot_schedule_pairs_z (g : stabilizer_grid) : res (list nat) :=
  t ← get_cnot_schedule_z g; schedule_to_pairs t.

(** ** The code *)

(** The counters, of the distance. *)
Definition get_num_data_qubits (d : nat) : nat := u64 (d * d).
Definition get_num_ancilla_qubits (d : nat) : nat := u64_sub (u64 (d * d)) 1.
Definition get_num_ancilla_x_qubits (d : nat) : nat := u64_sub (u64 (d * d)) 1 / 2.
Definition get_num_ancilla_z_qubits (d : nat) : nat := u64_sub (u64 (d * d)) 1 / 2.
Definition get_num_x_stabilizers (d : nat) : nat := u64_sub (u64 (d * d)) 1 / 2.
Definition get_num_z_stabilizers (d : nat) : nat := u64_sub (u64 (d * d)) 1 / 2.
