(* ===== verification/SurfaceFacts.v ===== *)
(** * The grid the constructor builds

    A closed form of the roles for every distance and orientation, and the
    coordinates, stabilizers and words that follow from it. *)

From Stdlib Require Import Ascii.
From stdpp Require Import gmap strings sorting.
From S2P Require Import Prelude Tensor SparseCanon SurfaceCode.

Open Scope nat_scope.

(** ** Loops over cells *)

(** A square array holding [F]. *)
Definition holds {A} (n : nat) (F : nat → nat → A) (l : list A) : Prop :=
  length l = n * n ∧ ∀ r c, r < n → c < n → l !! (r * n + c) = Some (F r c).

Definition cells (rows cols : list nat) : list (nat * nat) := rows ≫= λ r, (λ c, (r, c)) <$> cols.

Lemma elem_of_cells rows cols r c : (r, c) ∈ cells rows cols ↔ r ∈ rows ∧ c ∈ cols.
Proof.
  unfold cells. rewrite list_elem_of_bind. split.
  - intros (r'&(c'&[= -> ->]&?)%list_elem_of_fmap&?). done.
  - intros [??]. exists r. split; [|done]. apply list_elem_of_fmap. eauto.
Qed.

Lemma length_cells rows cols : length (cells rows cols) = length rows * length cols.
Proof. unfold cells. induction rows as [|r rows IH]; [done|]. cbn. by rewrite length_app, length_fmap, IH. Qed.

Lemma cells_fold {S} (body : nat → nat → S → res S) rows cols s :
  foldM (λ row, foldM (λ col, body row col) cols) rows s = foldM (λ rc, body rc.1 rc.2) (cells rows cols) s.
Proof.
  unfold cells. rewrite foldM_bind. apply foldM_ext. intros r s' _. by rewrite foldM_map.
Qed.

(** Conditional writes to the cells of a list. *)
Lemma write_cells {A} n (cond : nat → nat → bool) (F G : nat → nat → A) cs l :
  holds n G l → Forall (λ rc, rc.1 < n ∧ rc.2 < n) cs →
  returns (foldM (λ rc l, if cond rc.1 rc.2 then vset l (rc.1 * n + rc.2) (F rc.1 rc.2) else Ok l) cs l)
    (holds n (λ r c, if bool_decide ((r, c) ∈ cs) && cond r c then F r c else G r c)).
Proof.
  intros Hl Hcs.
  pose proof (foldM_inv (λ rc l, if cond rc.1 rc.2 then vset l (rc.1 * n + rc.2) (F rc.1 rc.2) else Ok l)
    (λ pre, holds n (λ r c, if bool_decide ((r, c) ∈ pre) && cond r c then F r c else G r c)) cs l) as Hinv.
  apply Hinv; clear Hinv; [done|].
  intros pre [r0 c0] post l' -> [Hlen Hget]. apply Forall_app in Hcs as [_ [[Hr Hc] _]%Forall_cons]. cbn [fst snd] in *.
  assert (∀ r c, bool_decide ((r, c) ∈ pre ++ [(r0, c0)]) = bool_decide ((r, c) ∈ pre) || bool_decide (r = r0 ∧ c = c0)) as Hd.
  { intros r c. apply eq_true_iff_eq. rewrite orb_true_iff, !bool_decide_eq_true. set_solver. }
  destruct (cond r0 c0) eqn:E.
  - rewrite vset_ok by (rewrite Hlen; nia). apply returns_ok. split; [by rewrite length_insert|]. intros r c Hr' Hc'.
    rewrite Hd. destruct (decide (r = r0 ∧ c = c0)) as [[-> ->]|Hne].
    + rewrite list_lookup_insert_eq by (rewrite Hlen; nia). rewrite (bool_decide_eq_true_2 (r0 = r0 ∧ c0 = c0)) by done.
      by rewrite orb_true_r, E.
    + rewrite list_lookup_insert_ne by (intros Heq; apply index2_inj in Heq; [|done|done]; apply Hne; lia).
      by rewrite (bool_decide_eq_false_2 _ Hne), orb_false_r, Hget.
  - apply returns_ok. split; [done|]. intros r c Hr' Hc'. rewrite Hd, Hget by done.
    destruct (decide (r = r0 ∧ c = c0)) as [[-> ->]|Hne]; [by rewrite E, !andb_false_r|].
    by rewrite (bool_decide_eq_false_2 _ Hne), orb_false_r.
Qed.

Lemma for_stride_ends {S} d (body : nat → S → res S) s :
  1 ≤ d → for_stride (d + 1) d body s = foldM body [0; d] s.
Proof.
  intros Hd. unfold for_stride. rewrite (proj2 (Nat.eqb_neq d 0)) by lia. cbn [andb].
  replace ((d + 1 + d - 1) / d) with 2; [|by apply Nat.div_unique with 0; lia]. cbn [seq fmap list_fmap].
  by rewrite Nat.mul_0_l, Nat.mul_1_l.
Qed.

(** ** Roles *)

Definition inner (d x : nat) : bool := (1 <=? x) && (x <? d).
Definition outer (d x : nat) : bool := (x =? 0) || (x =? d).

Definition role_spec (d : nat) (o : sc_orientation) (r c : nat) : surface_role :=
  let even := horizontal_boundaries_use_even_parity o in
  if (inner d r && inner d c) || (outer d r && inner d c && xorb (odd_site r c) even) ||
     (inner d r && outer d c && eqb (odd_site r c) even)
  then role_for_parity o (odd_site r c) else empty_site.

Lemma inner_seq d x : 1 ≤ d → bool_decide (x ∈ seq 1 (d - 1)) = inner d x.
Proof.
  intros Hd. unfold inner. apply eq_true_iff_eq. rewrite bool_decide_eq_true, elem_of_seq, andb_true_iff, Nat.leb_le, Nat.ltb_lt. lia.
Qed.
Lemma outer_ends d x : bool_decide (x ∈ [0; d]) = outer d x.
Proof. unfold outer. apply eq_true_iff_eq. rewrite bool_decide_eq_true, orb_true_iff, !Nat.eqb_eq. set_solver. Qed.
Lemma cells_dec rows cols r c :
  bool_decide ((r, c) ∈ cells rows cols) = bool_decide (r ∈ rows) && bool_decide (c ∈ cols).
Proof. apply eq_true_iff_eq. by rewrite andb_true_iff, !bool_decide_eq_true, elem_of_cells. Qed.

Lemma write_block {A} n (cond : nat → nat → bool) (F G : nat → nat → A) rows cols l :
  holds n G l → Forall (λ r, r < n) rows → Forall (λ c, c < n) cols →
  returns (foldM (λ row, foldM (λ col l, if cond row col then vset l (row * n + col) (F row col) else Ok l) cols) rows l)
    (holds n (λ r c, if bool_decide (r ∈ rows) && bool_decide (c ∈ cols) && cond r c then F r c else G r c)).
Proof.
  intros Hl Hr Hc. rewrite (cells_fold (λ row col l, if cond row col then vset l (row * n + col) (F row col) else Ok l)).
  eapply returns_mono; [apply (write_cells n cond F G); [done|]|].
  - apply Forall_forall. intros [r c] [Hr' Hc']%elem_of_cells. rewrite Forall_forall in Hr, Hc. cbn. auto.
  - intros l' [Hlen Hget]. split; [done|]. intros r c Hr' Hc'. by rewrite Hget, cells_dec by done.
Qed.

Lemma holds_ext {A} n (F G : nat → nat → A) l :
  holds n F l → (∀ r c, r < n → c < n → F r c = G r c) → holds n G l.
Proof. intros [Hlen Hget] HFG. split; [done|]. intros r c Hr Hc. by rewrite <-HFG, Hget. Qed.

Lemma roles_ok d o l :
  1 ≤ d → (Z.of_nat (d + 1) < 2 ^ 32)%Z → length l = (d + 1) * (d + 1) →
  returns (generate_grid_roles (d + 1) o l) (holds (d + 1) (role_spec d o)).
Proof.
  intros Hd Hfit Hl. unfold generate_grid_roles.
  replace (Z.to_nat ((Z.of_nat (d + 1) - 1) mod 2 ^ 32)) with d by (rewrite Z.mod_small; lia).
  unfold for_u. rewrite Nat.sub_0_r.
  assert (Forall (λ x, x < d + 1) (seq 0 (d + 1)) ∧ Forall (λ x, x < d + 1) (seq 1 (d - 1)) ∧ Forall (λ x, x < d + 1) [0; d])
    as (Hall&Hin&Hends).
  { split_and!; [apply Forall_forall; intros x Hx%elem_of_seq; lia..|repeat constructor; lia]. }
  set (init := λ r c, default empty_site (l !! (r * (d + 1) + c))).
  assert (holds (d + 1) init l) as H0.
  { split; [done|]. intros r c Hr Hc. unfold init.
    destruct (lookup_lt_is_Some_2 l (r * (d + 1) + c)) as [x Hx]; [rewrite Hl; nia|]. by rewrite Hx. }
  set (even := horizontal_boundaries_use_even_parity o). set (role := λ r c, role_for_parity o (odd_site r c)).
  eapply returns_bind; [exact (write_block (d + 1) (λ _ _, true) (λ _ _, empty_site) init _ _ _ H0 Hall Hall)|]. intros l1 H1.
  eapply returns_bind; [exact (write_block (d + 1) (λ _ _, true) role _ _ _ _ H1 Hin Hin)|]. clear l1 H1. intros l2 H2.
  rewrite for_stride_ends by done.
  eapply returns_bind; [exact (write_block (d + 1) (λ r c, xorb (odd_site r c) even) role _ _ _ _ H2 Hends Hin)|].
  clear l2 H2. intros l3 H3.
  rewrite (foldM_ext _ (λ row, foldM (λ col roles, if eqb (odd_site row col) even
      then vset roles (row * (d + 1) + col) (role row col) else Ok roles) [0; d]))
    by (intros; by apply for_stride_ends).
  eapply returns_mono; [exact (write_block (d + 1) (λ r c, eqb (odd_site r c) even) role _ _ _ _ H3 Hin Hends)|].
  intros l4 H4. eapply holds_ext; [exact H4|]. cbv beta. intros r c Hr Hc. unfold role, even. clear -Hd Hr Hc.
  rewrite !inner_seq, !outer_ends by done. unfold role_spec.
  rewrite !(bool_decide_eq_true_2 (_ ∈ seq 0 _)) by (apply elem_of_seq; lia).
  destruct (inner d r), (inner d c), (outer d r), (outer d c), (odd_site r c), (horizontal_boundaries_use_even_parity o); done.
Qed.

(** ** Coordinates *)

Definition grid_cells (n : nat) : list (nat * nat) := cells (seq 0 n) (seq 0 n).
Definition cell_site (rc : nat * nat) : vec2d := site rc.1 rc.2.
Definition sites (n : nat) (F : nat → nat → surface_role) (role : surface_role) : list vec2d :=
  cell_site <$> filter (λ rc, F rc.1 rc.2 = role) (grid_cells n).
Definition indexed (l : list vec2d) : coords := foldl (flip push_coord) ([], ∅) l.

Lemma indexed_snoc l c : indexed (l ++ [c]) = push_coord c (indexed l).
Proof. unfold indexed. by rewrite foldl_app. Qed.

Lemma indexed_list l : (indexed l).1 = l.
Proof.
  induction l as [|c l IH] using rev_ind; [done|]. rewrite indexed_snoc. cbn. by rewrite IH.
Qed.

Lemma indexed_map l i c : NoDup l → l !! i = Some c → (indexed l).2 !! c = Some i.
Proof.
  revert i c. induction l as [|c0 l IH] using rev_ind; intros i c Hnd Hi; [done|].
  apply NoDup_app in Hnd as (Hnd&Hnot&_). rewrite indexed_snoc. cbn. rewrite indexed_list.
  destruct (decide (i < length l)) as [Hlt|Hge].
  - rewrite lookup_app_l in Hi by done. rewrite lookup_insert_ne; [by apply IH|].
    intros <-. apply (Hnot c0); [by eapply list_elem_of_lookup_2|set_solver].
  - rewrite lookup_app_r in Hi by lia. apply list_lookup_singleton_Some in Hi as [Hi <-].
    rewrite lookup_insert_eq. f_equal. lia.
Qed.

Lemma sites_elem n F role a b :
  (a, b) ∈ sites n F role ↔ ∃ r c, a = Z.of_nat r ∧ b = Z.of_nat c ∧ r < n ∧ c < n ∧ F r c = role.
Proof.
  unfold sites, grid_cells. rewrite list_elem_of_fmap. split.
  - intros ([r c]&[= -> ->]&[HF [Hr%elem_of_seq Hc%elem_of_seq]%elem_of_cells]%list_elem_of_filter).
    exists r, c. cbn in *. split_and!; [done|done|lia|lia|done].
  - intros (r&c&->&->&Hr&Hc&HF). exists (r, c). split; [done|]. apply list_elem_of_filter. split; [done|].
    apply elem_of_cells. rewrite !elem_of_seq. lia.
Qed.

Lemma indexed_step (F : nat → nat → surface_role) pre rc role :
  indexed (cell_site <$> filter (λ rc, F rc.1 rc.2 = role) (pre ++ [rc])) =
  (if decide (F rc.1 rc.2 = role) then push_coord (site rc.1 rc.2) else id)
    (indexed (cell_site <$> filter (λ rc, F rc.1 rc.2 = role) pre)).
Proof.
  rewrite list.filter_app, fmap_app. destruct (decide (F rc.1 rc.2 = role)) as [E|E].
  - rewrite (filter_cons_True _ rc) by done. cbn [fmap list_fmap filter list_filter]. by rewrite <-indexed_snoc.
  - rewrite (filter_cons_False _ rc) by done. by rewrite app_nil_r.
Qed.

Lemma indices_ok n F roles :
  holds n F roles →
  generate_grid_indices n roles = Ok (indexed (sites n F amz), indexed (sites n F amx)).
Proof.
  intros [Hlen Hget]. unfold generate_grid_indices, for_u. rewrite Nat.sub_0_r.
  rewrite (cells_fold (λ row col st, r ← vget roles (row * n + col);
    match r with
    | amz => Ok (push_coord (site row col) st.1, st.2)
    | amx => Ok (st.1, push_coord (site row col) st.2)
    | empty_site => Ok st
    end)). fold (grid_cells n). unfold sites.
  assert (Forall (λ rc, rc.1 < n ∧ rc.2 < n) (grid_cells n)) as Hin.
  { apply Forall_forall. intros [r c] [Hr%elem_of_seq Hc%elem_of_seq]%elem_of_cells. cbn. lia. }
  revert Hin. generalize (grid_cells n). intros cs Hin.
  pose proof (foldM_inv (λ rc st, r ← vget roles (rc.1 * n + rc.2);
      match r with
      | amz => Ok (push_coord (site rc.1 rc.2) st.1, st.2)
      | amx => Ok (st.1, push_coord (site rc.1 rc.2) st.2)
      | empty_site => Ok st
      end)
    (λ pre st, st = (indexed (cell_site <$> filter (λ rc, F rc.1 rc.2 = amz) pre),
                     indexed (cell_site <$> filter (λ rc, F rc.1 rc.2 = amx) pre))) cs (([], ∅), ([], ∅))) as Hinv.
  destruct Hinv as (st&->&->); [done| |done]. intros pre rc post st -> ->.
  apply Forall_app in Hin as [_ [[Hr Hc] _]%Forall_cons]. rewrite (vget_ok _ _ _ (Hget _ _ Hr Hc)). cbn [mbind res_bind fst snd].
  rewrite !(indexed_step F pre rc). destruct (F rc.1 rc.2); by apply returns_ok.
Qed.

(** The data qubits: row-major indices on a [d] by [d] square. *)
Definition data_spec (d : nat) (data : gmap vec2d nat) : Prop := ∀ a b : Z,
  data !! (a, b) = if decide (0 ≤ a < Z.of_nat d ∧ 0 ≤ b < Z.of_nat d)%Z
                   then Some (Z.to_nat a * d + Z.to_nat b) else None.

Lemma data_grid_ok d :
  returns (data_grid d) (λ st, length st.1 = d * d ∧ data_spec d st.2).
Proof.
  unfold data_grid, for_u. rewrite Nat.sub_0_r.
  rewrite (cells_fold (λ row col st, Ok (st.1 ++ [site row col], <[site row col := row * d + col]> st.2))). fold (grid_cells d).
  pose proof (foldM_inv (λ rc st, Ok (st.1 ++ [site rc.1 rc.2], <[site rc.1 rc.2 := rc.1 * d + rc.2]> st.2))
    (λ pre (st : coords), length st.1 = length pre ∧ ∀ a b : Z,
      st.2 !! (a, b) = if decide ((0 ≤ a)%Z ∧ (0 ≤ b)%Z ∧ (Z.to_nat a, Z.to_nat b) ∈ pre)
                       then Some (Z.to_nat a * d + Z.to_nat b) else None) (grid_cells d) ([], ∅)) as Hinv.
  eapply returns_mono; [apply Hinv; clear Hinv|].
  - split; [done|]. intros a b. cbn. rewrite decide_False by (rewrite elem_of_nil; tauto). by rewrite lookup_empty.
  - intros pre [r c] post st _ [Hl Hm]. apply returns_ok. cbn [fst snd]. split; [rewrite !length_app, Hl; done|].
    intros a b. destruct (decide ((a, b) = site r c)) as [Heq|Hne].
    + rewrite Heq, lookup_insert_eq. injection Heq as -> ->. rewrite !Nat2Z.id.
      rewrite decide_True; [done|]. split_and!; [lia|lia|set_solver].
    + rewrite lookup_insert_ne, Hm by done. apply decide_ext. rewrite elem_of_app, list_elem_of_singleton. split; [tauto|].
      intros (Ha&Hb'&[?|[= Hr Hc]]); [tauto|]. destruct Hne. unfold site. f_equal; lia.
  - intros st [Hl Hm]. split.
    + rewrite Hl. unfold grid_cells. by rewrite length_cells, !length_seq.
    + intros a b. rewrite Hm. apply decide_ext. unfold grid_cells. rewrite elem_of_cells, !elem_of_seq. lia.
Qed.

(** ** Words *)

(** A word with the letter on the data qubits [q] whose row satisfies [PR] and
    whose column satisfies [PC]. *)
Definition rect_word (d : nat) (letter : ascii) (PR PC : nat → bool) : list ascii :=
  (λ q, if PR (q / d) && PC (q mod d) then letter else "I"%char) <$> seq 0 (d * d).

(** The two rows (columns) of data qubits next to a row (column) of sites. *)
Definition near (a x : nat) : bool := (x + 1 =? a) || (x =? a).

Lemma pauli_word_ok n letter support :
  Forall (λ q, q < n) support →
  pauli_word n letter support = Ok ((λ q, if decide (q ∈ support) then letter else "I"%char) <$> seq 0 n).
Proof.
  intros Hs. unfold pauli_word.
  pose proof (foldM_inv (λ elem stab, vset stab elem letter) (λ pre w,
    w = ((λ q, if decide (q ∈ pre) then letter else "I"%char) <$> seq 0 n)) support (replicate n "I"%char)) as Hinv.
  destruct Hinv as (w&->&->); [| |done].
  - apply list_eq_same_length with n; [by rewrite length_fmap, length_seq|by rewrite length_replicate|].
    intros q x y Hq [-> _]%lookup_replicate Hy. rewrite list_lookup_fmap, lookup_seq_lt in Hy by done.
    injection Hy as <-. done.
  - intros pre q post w -> ->. apply Forall_app in Hs as [_ [Hq _]%Forall_cons].
    rewrite vset_ok by (by rewrite length_fmap, length_seq). apply returns_ok.
    apply list_eq_same_length with n; [by rewrite length_fmap, length_seq|by rewrite length_insert, length_fmap, length_seq|].
    intros i x y Hi Hx Hy. rewrite list_lookup_fmap, lookup_seq_lt in Hy by done. cbn in Hy.
    destruct (decide (i = q)) as [->|Hne].
    + rewrite list_lookup_insert_eq in Hx by (by rewrite length_fmap, length_seq). rewrite decide_True in Hy by set_solver. congruence.
    + rewrite list_lookup_insert_ne, list_lookup_fmap, lookup_seq_lt in Hx by done. cbn in Hx.
      rewrite (decide_ext _ (i ∈ pre)) in Hy by set_solver. congruence.
Qed.

Lemma pauli_word_rect d letter support PR PC :
  (∀ q, q ∈ support ↔ q < d * d ∧ PR (q / d) = true ∧ PC (q mod d) = true) →
  pauli_word (d * d) letter support = Ok (rect_word d letter PR PC).
Proof.
  intros Hs. rewrite pauli_word_ok by (apply Forall_forall; intros q Hq; by apply Hs in Hq as [? _]).
  f_equal. apply list_fmap_ext. intros i q [-> Hq]%lookup_seq. cbn in *.
  destruct (PR (i / d) && PC (i mod d)) eqn:E.
  - apply andb_true_iff in E. by rewrite decide_True by (by apply Hs).
  - rewrite decide_False; [done|]. intros (_&E1&E2)%Hs. by rewrite E1, E2 in E.
Qed.

Lemma near_iff a x : near a x = true ↔ x + 1 = a ∨ x = a.
Proof. unfold near. by rewrite orb_true_iff, !Nat.eqb_eq. Qed.

Lemma stabilizer_elem d data a b q :
  1 ≤ d → data_spec d data →
  q ∈ stabilizer_at data (site a b) ↔ q < d * d ∧ near a (q / d) = true ∧ near b (q mod d) = true.
Proof.
  intros Hd Hdata. unfold stabilizer_at. rewrite merge_sort_Permutation.
  assert (∀ x y, (x * d + y < d * d ∧ (x * d + y) / d = x ∧ (x * d + y) mod d = y) ↔ x < d ∧ y < d) as Hq.
  { intros x y. split.
    - intros (Hlt&_&Hm). pose proof (Nat.mod_upper_bound (x * d + y) d). nia.
    - intros [Hx Hy]. split_and!; [nia| |].
      + symmetry. apply Nat.div_unique with y; lia.
      + symmetry. apply Nat.mod_unique with x; lia. }
  rewrite list_elem_of_bind. setoid_rewrite list_elem_of_bind. cbn [fst snd site]. split.
  - intros (dr&(dc&Hin&Hdc)&Hdr). rewrite Hdata in Hin. case_decide as Hr; [|by apply not_elem_of_nil in Hin].
    apply list_elem_of_singleton in Hin as ->.
    destruct (proj2 (Hq (Z.to_nat (Z.of_nat a + dr)) (Z.to_nat (Z.of_nat b + dc))) ltac:(lia)) as (H1&->&->).
    rewrite !near_iff. split_and!; [done|set_solver by lia|set_solver by lia].
  - rewrite !near_iff. intros (Hlt&Ha&Hb).
    pose proof (Nat.div_mod_eq q d) as Hdm. pose proof (Nat.mod_upper_bound q d).
    exists (Z.of_nat (q / d) - Z.of_nat a)%Z. split.
    + exists (Z.of_nat (q mod d) - Z.of_nat b)%Z. split.
      * rewrite Hdata, decide_True by (split; nia). apply list_elem_of_singleton.
        replace (Z.to_nat (Z.of_nat a + (Z.of_nat (q / d) - Z.of_nat a))) with (q / d) by lia.
        replace (Z.to_nat (Z.of_nat b + (Z.of_nat (q mod d) - Z.of_nat b))) with (q mod d) by lia. lia.
      * set_solver by lia.
    + set_solver by lia.
Qed.

(** ** The constructed grid *)

Definition site_word (d : nat) (letter : ascii) (s : vec2d) : list ascii :=
  rect_word d letter (near (Z.to_nat s.1)) (near (Z.to_nat s.2)).

Record grid_ok (d : nat) (o : sc_orientation) (g : stabilizer_grid) : Prop := {
  gk_distance : distance g = d;
  gk_orientation : orientation_ g = o;
  gk_x : x_stab_coords g = sites (d + 1) (role_spec d o) amx;
  gk_z : z_stab_coords g = sites (d + 1) (role_spec d o) amz;
  gk_x_indices : x_stab_indices g = (indexed (x_stab_coords g)).2;
  gk_z_indices : z_stab_indices g = (indexed (z_stab_coords g)).2;
  gk_num_data : length (data_coords g) = d * d;
  gk_data : data_spec d (data_indices g);
  gk_x_stabs : x_stabilizers g = stabilizer_at (data_indices g) <$> x_stab_coords g;
  gk_z_stabs : z_stabilizers g = stabilizer_at (data_indices g) <$> z_stab_coords g
}.

(** Distances whose grid fits the 32-bit arithmetic of the constructor. *)
Definition fits (d : nat) : Prop := 1 ≤ d ∧ (Z.of_nat ((d + 1) * (d + 1)) < 2 ^ 32)%Z.

Lemma make_grid_ok d o : fits d → returns (make_grid d o) (grid_ok d o).
Proof.
  intros [Hd Hfit]. assert (d + 1 ≤ (d + 1) * (d + 1)) by nia. unfold make_grid. rewrite (wrap_small 32 (d + 1)), (wrap_small 32) by lia.
  eapply returns_bind; [apply roles_ok; [done|lia|apply length_replicate]|]. intros roles Hroles.
  rewrite (indices_ok _ _ _ Hroles). cbn [mbind res_bind].
  eapply returns_bind; [apply data_grid_ok|]. intros data [Hlen Hdata]. apply returns_ok.
  constructor; cbn; rewrite ?indexed_list; done.
Qed.

Lemma words_of_sites d letter data l :
  1 ≤ d → data_spec d data → Forall (λ s, 0 ≤ s.1 ∧ 0 ≤ s.2)%Z l →
  words_of (d * d) letter (stabilizer_at data <$> l) = Ok (site_word d letter <$> l).
Proof.
  intros Hd Hdata Hl. unfold words_of. rewrite foldM_map.
  cut (∀ acc, foldM (λ s words, w ← pauli_word (d * d) letter (stabilizer_at data s); Ok (words ++ [w])) l acc =
    Ok (acc ++ (site_word d letter <$> l))); [intros Hc; by rewrite Hc|].
  induction Hl as [|[a b] l [Ha Hb] Hl IH]; intros acc; cbn [foldM fmap list_fmap]; [by rewrite app_nil_r|].
  rewrite (pauli_word_rect d letter _ (near (Z.to_nat a)) (near (Z.to_nat b))).
  - cbn [mbind res_bind]. rewrite IH, <-app_assoc. done.
  - intros q. rewrite <-(stabilizer_elem d data) by done. unfold site. by rewrite !Z2Nat.id.
Qed.

Lemma sites_nonneg n F role : Forall (λ s, 0 ≤ s.1 ∧ 0 ≤ s.2)%Z (sites n F role).
Proof. apply Forall_forall. intros [a b] (r&c&->&->&_)%sites_elem. cbn. lia. Qed.

Lemma stabilizer_words d o g :
  1 ≤ d → grid_ok d o g →
  get_spin_op_stabilizers g =
    Ok ((site_word d "X"%char <$> sites (d + 1) (role_spec d o) amx) ++
        (site_word d "Z"%char <$> sites (d + 1) (role_spec d o) amz)).
Proof.
  intros Hd []. unfold get_spin_op_stabilizers.
  rewrite gk_num_data0, gk_x_stabs0, gk_z_stabs0, gk_x0, gk_z0.
  by rewrite !words_of_sites by (done || apply sites_nonneg).
Qed.

Lemma top_row_word d o g letter :
  1 ≤ d → grid_ok d o g → top_row_obs g letter = Ok (rect_word d letter (λ r, r =? 0) (λ _, true)).
Proof.
  intros Hd []. unfold top_row_obs, for_u. rewrite gk_num_data0, gk_distance0, Nat.sub_0_r.
  apply (pauli_word_rect d letter (seq 0 d)). intros q. rewrite elem_of_seq, Nat.eqb_eq, Nat.div_small_iff by lia. nia.
Qed.

Lemma left_col_word d o g letter :
  1 ≤ d → grid_ok d o g → left_col_obs g letter = Ok (rect_word d letter (λ _, true) (λ c, c =? 0)).
Proof.
  intros Hd []. unfold left_col_obs, for_stride. rewrite gk_num_data0, gk_distance0.
  rewrite (proj2 (Nat.eqb_neq d 0)) by lia. cbn [andb].
  replace ((d * d + d - 1) / d) with d; [|apply Nat.div_unique with (d - 1); lia].
  apply (pauli_word_rect d letter). intros q. rewrite list_elem_of_fmap, Nat.eqb_eq. split.
  - intros (k&->&Hk%elem_of_seq). split_and!; [nia|done|by apply Nat.Div0.mod_mul].
  - intros (Hq&_&Hm). pose proof (Nat.div_mod_eq q d). exists (q / d). split; [lia|]. apply elem_of_seq. nia.
Qed.

(** ** Counting *)

Definition cnt (d : nat) (P : nat → bool) : nat := length (filter (λ x, P x) (seq 0 d)).

Lemma cnt_ext d P Q : (∀ x, x < d → P x = Q x) → cnt d P = cnt d Q.
Proof.
  intros HPQ. unfold cnt. f_equal. apply filter_ext_in. intros x Hx%elem_of_seq. by rewrite HPQ by lia.
Qed.

(** The data qubits of a rectangle. *)
Lemma rect_count d (PR PC : nat → bool) :
  1 ≤ d → length (filter (λ q, PR (q / d) && PC (q mod d)) (seq 0 (d * d))) = cnt d PR * cnt d PC.
Proof.
  intros Hd. unfold cnt. rewrite <-(length_cells (filter (λ x, PR x) (seq 0 d)) (filter (λ x, PC x) (seq 0 d))).
  rewrite <-(length_fmap (λ rc, rc.1 * d + rc.2) (cells _ _)). apply Permutation_length, NoDup_Permutation.
  - apply NoDup_filter, NoDup_seq.
  - apply NoDup_fmap_2_strong.
    + intros [r c] [r' c'] [_ Hc]%elem_of_cells [_ Hc']%elem_of_cells Heq. cbn in Heq.
      apply list_elem_of_filter in Hc as [_ Hc%elem_of_seq]. apply list_elem_of_filter in Hc' as [_ Hc'%elem_of_seq].
      apply index2_inj in Heq as [-> ->]; [done|lia|lia].
    + unfold cells. apply NoDup_bind; [| |apply NoDup_filter, NoDup_seq].
      * intros r r' [x y] _ _ (?&[= -> ->]&_)%list_elem_of_fmap (?&[= ->]&_)%list_elem_of_fmap. done.
      * intros r _. apply NoDup_fmap_2; [intros ?? [= ->]; done|apply NoDup_filter, NoDup_seq].
  - intros q. rewrite list_elem_of_filter, elem_of_seq, list_elem_of_fmap. split.
    + intros [Hq Hlt]. apply andb_prop_elim in Hq as [HR HC]. pose proof (Nat.div_mod_eq q d). pose proof (Nat.mod_upper_bound q d).
      exists (q / d, q mod d). cbn. split; [lia|]. apply elem_of_cells. rewrite !list_elem_of_filter, !elem_of_seq. split_and!; [done|nia|nia|done|lia|lia].
    + intros ([r c]&->&[[HR Hr%elem_of_seq]%list_elem_of_filter [HC Hc%elem_of_seq]%list_elem_of_filter]%elem_of_cells). cbn.
      assert ((r * d + c) / d = r) as -> by (symmetry; apply Nat.div_unique with c; lia).
      assert ((r * d + c) mod d = c) as -> by (symmetry; apply Nat.mod_unique with r; lia).
      split; [by apply andb_prop_intro|nia].
Qed.
