(* ===== verification/SurfaceProps.v ===== *)
(** * Properties of the surface code

    For every distance and orientation the stabilizers commute with each other
    and with the logical observables, which anticommute, and the CNOT
    schedules are complete, aligned and free of conflicts. *)

From Stdlib Require Import Ascii.
From stdpp Require Import gmap strings sorting.
From S2P Require Import Prelude Tensor SparseCanon SurfaceCode SurfaceFacts.

Open Scope nat_scope.

(** ** Pauli words *)

(** Two letters anticommute when both act and they differ. *)
Definition anticommute (x y : ascii) : bool :=
  negb (bool_decide (x = "I"%char)) && negb (bool_decide (y = "I"%char)) && negb (bool_decide (x = y)).

(** Two words commute when they anticommute at an even number of positions. *)
Definition commutes (w v : list ascii) : bool :=
  Nat.even (length (filter (λ p, anticommute p.1 p.2) (zip w v))).

Definition weight (w : list ascii) : nat := length (filter (λ c, c ≠ "I"%char) w).

Lemma zip_fmap {A B C} (f : A → B) (g : A → C) l : zip (f <$> l) (g <$> l) = (λ x, (f x, g x)) <$> l.
Proof. induction l as [|x l IH]; [done|]. cbn. by f_equal. Qed.

Lemma filter_fmap_length {A B} (P : B → Prop) `{∀ x, Decision (P x)} (f : A → B) l :
  length (filter P (f <$> l)) = length (filter (λ x, P (f x)) l).
Proof.
  induction l as [|x l IH]; [done|]. cbn [fmap list_fmap]. rewrite !filter_cons.
  case_decide; cbn [length]; by rewrite IH.
Qed.

Lemma rect_overlap d PR PC PR' PC' x y :
  1 ≤ d → anticommute x y = true →
  length (filter (λ p, anticommute p.1 p.2) (zip (rect_word d x PR PC) (rect_word d y PR' PC'))) =
  cnt d (λ r, PR r && PR' r) * cnt d (λ c, PC c && PC' c).
Proof.
  intros Hd Hxy. unfold rect_word. rewrite zip_fmap, filter_fmap_length, <-rect_count by done.
  f_equal. apply filter_ext_in. intros q _. cbn [fst snd].
  destruct (PR (q / d)), (PC (q mod d)), (PR' (q / d)), (PC' (q mod d)); cbn; rewrite ?Hxy; try done.
  all: unfold anticommute; cbn; rewrite ?andb_false_r; done.
Qed.

Lemma rect_same d PR PC PR' PC' x : commutes (rect_word d x PR PC) (rect_word d x PR' PC') = true.
Proof.
  unfold commutes, rect_word. rewrite zip_fmap, filter_fmap_length.
  rewrite (filter_ext_in _ (λ _, False)).
  - by rewrite filter_const_false by tauto.
  - intros q _. cbn [fst snd]. unfold anticommute.
    destruct (PR (q / d) && PC (q mod d)), (PR' (q / d) && PC' (q mod d)); cbn; rewrite ?andb_false_r; try tauto.
    by rewrite (bool_decide_eq_true_2 (x = x)), andb_false_r by done.
Qed.

Lemma commutes_sym w v : commutes w v = commutes v w.
Proof.
  unfold commutes. f_equal. revert v. induction w as [|x w IH]; intros [|y v]; try done.
  cbn [zip zip_with]. rewrite !filter_cons. cbn [fst snd].
  assert (anticommute x y = anticommute y x) as ->.
  { unfold anticommute. rewrite (bool_decide_ext (x = y) (y = x)) by done.
    by destruct (bool_decide (x = "I"%char)), (bool_decide (y = "I"%char)). }
  case_decide; cbn [length]; by rewrite IH.
Qed.

(** ** Neighbourhoods *)

Lemma cnt_list d P l : NoDup l → (∀ x, (x < d ∧ P x = true) ↔ x ∈ l) → cnt d P = length l.
Proof.
  intros Hnd Hl. unfold cnt. apply Permutation_length, NoDup_Permutation; [apply NoDup_filter, NoDup_seq|done|].
  intros x. rewrite list_elem_of_filter, elem_of_seq, Is_true_true, <-Hl. intuition lia.
Qed.

Lemma cnt_near d a : 1 ≤ d → a ≤ d → cnt d (near a) = if inner d a then 2 else 1.
Proof.
  intros Hd Ha. unfold inner. destruct (Nat.leb_spec 1 a), (Nat.ltb_spec a d); cbn [andb].
  - rewrite (cnt_list d _ [a - 1; a]); [done| |].
    + apply NoDup_ListNoDup. repeat constructor; cbn; lia.
    + intros x. rewrite near_iff, !elem_of_cons, elem_of_nil. lia.
  - rewrite (cnt_list d _ [a - 1]); [done|apply NoDup_singleton|].
    intros x. rewrite near_iff, list_elem_of_singleton. lia.
  - rewrite (cnt_list d _ [a]); [done|apply NoDup_singleton|].
    intros x. rewrite near_iff, list_elem_of_singleton. lia.
  - lia.
Qed.

Lemma cnt_zero d P : (∀ x, x < d → P x = false) → cnt d P = 0.
Proof. intros HP. rewrite (cnt_list d P []); [done|constructor|]. intros x. rewrite elem_of_nil. split; [|done]. intros [Hx Hp]. by rewrite HP in Hp. Qed.

(** Two rows of sites of the same parity share both rows of data or none. *)
Lemma cnt_near_even d a a' :
  1 ≤ d → a ≤ d → a' ≤ d → Nat.even (a + a') = true → (a = a' → inner d a = true) →
  Nat.even (cnt d (λ x, near a x && near a' x)) = true.
Proof.
  intros Hd Ha Ha' Hpar Hin. destruct (decide (a = a')) as [<-|Hne].
  - rewrite (cnt_ext d _ (near a)) by (intros; apply andb_diag). by rewrite cnt_near, Hin by done.
  - rewrite cnt_zero; [done|]. intros x _. apply not_true_iff_false. rewrite andb_true_iff, !near_iff. intros [Hx Hx'].
    apply Nat.even_spec in Hpar as [k Hk]. lia.
Qed.

(** Sites of different types sit at different parities. *)
Lemma role_parity d o r c role :
  role_spec d o r c = role → role ≠ empty_site → role_for_parity o (odd_site r c) = role.
Proof. unfold role_spec. destruct (_ || _); [done|]. intros <-. done. Qed.

Lemma opposite_parity d o r c r' c' :
  role_spec d o r c = amx → role_spec d o r' c' = amz → odd_site r c = negb (odd_site r' c').
Proof.
  intros HX%role_parity HZ%role_parity; [|done..]. unfold role_for_parity in *.
  destruct (bool_decide _), (odd_site r c), (odd_site r' c'); done.
Qed.

(** Two sites on one horizontal boundary have the same parity, and so on for
    the vertical ones; the corners are empty. *)
Lemma outer_row_parity d o r c role :
  role_spec d o r c = role → role ≠ empty_site → inner d r = false →
  inner d c = true ∧ odd_site r c = negb (horizontal_boundaries_use_even_parity o).
Proof.
  unfold role_spec. intros Hrole Hne Hr. rewrite Hr in Hrole. cbn [andb orb] in Hrole. rewrite orb_false_r in Hrole.
  destruct (outer d r), (inner d c), (odd_site r c), (horizontal_boundaries_use_even_parity o); cbn in *; done || (subst; done).
Qed.
Lemma outer_col_parity d o r c role :
  role_spec d o r c = role → role ≠ empty_site → inner d c = false →
  inner d r = true ∧ odd_site r c = horizontal_boundaries_use_even_parity o.
Proof.
  unfold role_spec. intros Hrole Hne Hc. rewrite Hc, !andb_false_r in Hrole. cbn [andb orb] in Hrole.
  destruct (inner d r), (outer d c), (odd_site r c), (horizontal_boundaries_use_even_parity o); cbn in *; done || (subst; done).
Qed.

(** ** Commutation *)

Definition xz_overlap (d r c r' c' : nat) : nat :=
  cnt d (λ x, near r x && near r' x) * cnt d (λ x, near c x && near c' x).

Lemma xz_overlap_even d o r c r' c' :
  1 ≤ d → r ≤ d → c ≤ d → r' ≤ d → c' ≤ d → role_spec d o r c = amx → role_spec d o r' c' = amz →
  Nat.even (xz_overlap d r c r' c') = true.
Proof.
  intros Hd Hr Hc Hr' Hc' HX HZ. unfold xz_overlap. rewrite Nat.even_mul, orb_true_iff.
  pose proof (opposite_parity _ _ _ _ _ _ HX HZ) as Hpar. unfold odd_site in Hpar.
  rewrite <-!Nat.negb_even, negb_involutive, !Nat.even_add in Hpar.
  destruct (Nat.even (r + r')) eqn:Er.
  - left. apply cnt_near_even; try done. intros <-. destruct (inner d r) eqn:Hin; [done|].
    destruct (outer_row_parity _ _ _ _ _ HX ltac:(done) Hin) as [_ H1].
    destruct (outer_row_parity _ _ _ _ _ HZ ltac:(done) Hin) as [_ H2].
    unfold odd_site in H1, H2. rewrite <-Nat.negb_even, Nat.even_add in H1, H2.
    destruct (Nat.even r), (Nat.even c), (Nat.even c'), (horizontal_boundaries_use_even_parity o); done.
  - right. assert (Nat.even (c + c') = true) as Ec.
    { rewrite Nat.even_add in Er |- *. destruct (Nat.even r), (Nat.even c), (Nat.even r'), (Nat.even c'); done. }
    apply cnt_near_even; try done. intros <-. destruct (inner d c) eqn:Hin; [done|].
    destruct (outer_col_parity _ _ _ _ _ HX ltac:(done) Hin) as [_ H1].
    destruct (outer_col_parity _ _ _ _ _ HZ ltac:(done) Hin) as [_ H2].
    unfold odd_site in H1, H2. rewrite <-Nat.negb_even, Nat.even_add in H1, H2.
    destruct (Nat.even r), (Nat.even c), (Nat.even r'), (horizontal_boundaries_use_even_parity o); done.
Qed.

Lemma site_words_commute d o s t :
  1 ≤ d → s ∈ sites (d + 1) (role_spec d o) amx → t ∈ sites (d + 1) (role_spec d o) amz →
  commutes (site_word d "X" s) (site_word d "Z" t) = true.
Proof.
  intros Hd. destruct s as [? ?], t as [? ?].
  intros (r&c&->&->&Hr&Hc&HX)%sites_elem (r'&c'&->&->&Hr'&Hc'&HZ)%sites_elem.
  unfold commutes, site_word. cbn [fst snd]. rewrite !Nat2Z.id, rect_overlap by done.
  apply (xz_overlap_even d o r c r' c'); (done || lia).
Qed.

(** The boundary types: with the X logical on the top row, the vertical
    boundaries are X type and the horizontal ones Z type; otherwise the
    converse. *)
Lemma vertical_type d o r c role :
  role_spec d o r c = role → role ≠ empty_site → inner d c = false →
  role = if x_logical_on_top_row o then amx else amz.
Proof.
  intros Hrole Hne Hc. destruct (outer_col_parity _ _ _ _ _ Hrole Hne Hc) as [_ Hp].
  apply role_parity in Hrole; [|done]. rewrite <-Hrole, Hp. by destruct o.
Qed.
Lemma horizontal_type d o r c role :
  role_spec d o r c = role → role ≠ empty_site → inner d r = false →
  role = if x_logical_on_top_row o then amz else amx.
Proof.
  intros Hrole Hne Hr. destruct (outer_row_parity _ _ _ _ _ Hrole Hne Hr) as [_ Hp].
  apply role_parity in Hrole; [|done]. rewrite <-Hrole, Hp. by destruct o.
Qed.

(** The number of data qubits a boundary line shares with a site. *)
Lemma line_near d (P : nat → bool) a : cnt d (λ x, P x && near a x) = cnt d (λ x, near a x && P x).
Proof. apply cnt_ext. intros. apply andb_comm. Qed.

Lemma cnt_true_near d a : cnt d (λ x, true && near a x) = cnt d (near a).
Proof. by apply cnt_ext. Qed.

(** A top-row logical overlaps a site of the type it may not cut evenly. *)
Lemma top_row_even d o r c role :
  1 ≤ d → r ≤ d → c ≤ d → role_spec d o r c = role → role ≠ empty_site →
  role ≠ (if x_logical_on_top_row o then amx else amz) →
  Nat.even (cnt d (λ x, (x =? 0) && near r x) * cnt d (λ x, true && near c x)) = true.
Proof.
  intros Hd Hr Hc Hrole Hne Htype. rewrite Nat.even_mul, orb_true_iff. right. rewrite cnt_true_near, cnt_near by done.
  destruct (inner d c) eqn:Hin; [done|]. destruct Htype. by eapply vertical_type.
Qed.
Lemma left_col_even d o r c role :
  1 ≤ d → r ≤ d → c ≤ d → role_spec d o r c = role → role ≠ empty_site →
  role ≠ (if x_logical_on_top_row o then amz else amx) →
  Nat.even (cnt d (λ x, true && near r x) * cnt d (λ x, (x =? 0) && near c x)) = true.
Proof.
  intros Hd Hr Hc Hrole Hne Htype. rewrite Nat.even_mul, orb_true_iff. left. rewrite cnt_true_near, cnt_near by done.
  destruct (inner d r) eqn:Hin; [done|]. destruct Htype. by eapply horizontal_type.
Qed.

(** The two logical words of an orientation. *)
Definition logical (d : nat) (on_top : bool) (letter : ascii) : list ascii :=
  if on_top then rect_word d letter (λ r, r =? 0) (λ _, true) else rect_word d letter (λ _, true) (λ c, c =? 0).

Lemma observable_words d o g :
  1 ≤ d → grid_ok d o g →
  get_spin_op_observables g =
    Ok [logical d (x_logical_on_top_row o) "X"; logical d (negb (x_logical_on_top_row o)) "Z"].
Proof.
  intros Hd Hg. unfold get_spin_op_observables. rewrite (gk_orientation _ _ _ Hg).
  destruct (x_logical_on_top_row o); rewrite ?(top_row_word d o g), ?(left_col_word d o g) by done; cbn [mbind res_bind];
    by rewrite ?(top_row_word d o g), ?(left_col_word d o g) by done.
Qed.

Lemma logical_commutes d o s (on_top : bool) x y role :
  1 ≤ d → s ∈ sites (d + 1) (role_spec d o) role → role ≠ empty_site → anticommute x y = true →
  role = (if on_top then (if x_logical_on_top_row o then amz else amx) else (if x_logical_on_top_row o then amx else amz)) →
  commutes (logical d on_top x) (site_word d y s) = true.
Proof.
  intros Hd Hs Hne Hxy Hrole. destruct s as [a b]. apply sites_elem in Hs as (r&c&->&->&Hr&Hc&HF).
  unfold commutes, site_word, logical. cbn [fst snd]. rewrite !Nat2Z.id. destruct on_top; rewrite rect_overlap by done.
  - apply (top_row_even d o r c role); try done; [lia|lia|]. rewrite Hrole. by destruct (x_logical_on_top_row o).
  - apply (left_col_even d o r c role); try done; [lia|lia|]. rewrite Hrole. by destruct (x_logical_on_top_row o).
Qed.

Lemma logicals_anticommute d on_top : 1 ≤ d → commutes (logical d on_top "X") (logical d (negb on_top) "Z") = false.
Proof.
  intros Hd.
  assert (∀ P Q : nat → bool, (∀ x, P x && Q x = (x =? 0)) → cnt d (λ x, P x && Q x) = 1) as H1.
  { intros P Q HPQ. rewrite (cnt_list d _ [0]); [done|apply NoDup_singleton|].
    intros x. rewrite HPQ, Nat.eqb_eq, list_elem_of_singleton. lia. }
  unfold commutes, logical. destruct on_top; cbn [negb]; rewrite rect_overlap by done.
  - rewrite (H1 (λ r, r =? 0) (λ _, true)), (H1 (λ _, true) (λ c, c =? 0)) by (intros; by rewrite ?andb_true_r). done.
  - rewrite (H1 (λ _, true) (λ r, r =? 0)), (H1 (λ c, c =? 0) (λ _, true)) by (intros; by rewrite ?andb_true_r). done.
Qed.

(** ** Weights *)

Lemma rect_weight d x PR PC : 1 ≤ d → x ≠ "I"%char → weight (rect_word d x PR PC) = cnt d PR * cnt d PC.
Proof.
  intros Hd Hx. unfold weight, rect_word. rewrite filter_fmap_length, <-rect_count by done. f_equal.
  apply filter_ext_in. intros q _. destruct (PR (q / d) && PC (q mod d)); cbn; [tauto|]. split; [by intros []|done].
Qed.

Lemma site_weight d o s x role :
  1 ≤ d → s ∈ sites (d + 1) (role_spec d o) role → role ≠ empty_site → x ≠ "I"%char →
  weight (site_word d x s) = 2 ∨ weight (site_word d x s) = 4.
Proof.
  intros Hd Hs Hne Hx. destruct s as [a b]. apply sites_elem in Hs as (r&c&->&->&Hr&Hc&HF).
  unfold site_word. cbn [fst snd]. rewrite !Nat2Z.id, rect_weight, !cnt_near by (done || lia).
  destruct (inner d r) eqn:Hir; [destruct (inner d c); auto|].
  destruct (outer_row_parity _ _ _ _ _ HF Hne Hir) as [-> _]. auto.
Qed.

(** C8. For every orientation and every distance whose grid fits 32-bit
    indices, the constructed words form a code: the stabilizers pairwise
    commute, each acts on two or four data qubits, both logical observables
    commute with every stabilizer, and the X observable anticommutes with the
    Z observable. *)
Theorem surface_code_valid d o :
  fits d →
  returns (make_grid d o) (λ g,
  returns (get_spin_op_stabilizers g) (λ stabs,
  returns (get_spin_op_observables g) (λ obs, ∃ lx lz, obs = [lx; lz] ∧
    (∀ s, s ∈ stabs → weight s = 2 ∨ weight s = 4) ∧
    (∀ s t, s ∈ stabs → t ∈ stabs → commutes s t = true) ∧
    (∀ s, s ∈ stabs → commutes lx s = true ∧ commutes lz s = true) ∧
    commutes lx lz = false))).
Proof.
  intros [Hd Hfit]. eapply returns_mono; [by apply make_grid_ok|]. intros g Hg.
  rewrite (stabilizer_words d o g Hd Hg), (observable_words d o g Hd Hg). apply returns_ok, returns_ok.
  do 2 eexists. split; [done|].
  assert (∀ w, w ∈ (site_word d "X" <$> sites (d + 1) (role_spec d o) amx) ++ (site_word d "Z" <$> sites (d + 1) (role_spec d o) amz) →
    ∃ s role x, s ∈ sites (d + 1) (role_spec d o) role ∧ w = site_word d x s ∧
      ((role = amx ∧ x = "X"%char) ∨ (role = amz ∧ x = "Z"%char))) as Hw.
  { intros w. rewrite elem_of_app, !list_elem_of_fmap. naive_solver. }
  split_and!.
  - intros w (s&role&x&Hs&->&Hrx)%Hw. eapply site_weight; [done|done|naive_solver..].
  - intros w v (s&role&x&Hs&->&Hrx)%Hw (t&role'&y&Ht&->&Hry)%Hw.
    destruct Hrx as [[-> ->]|[-> ->]], Hry as [[-> ->]|[-> ->]].
    + apply rect_same.
    + by eapply site_words_commute.
    + rewrite commutes_sym. by eapply site_words_commute.
    + apply rect_same.
  - intros w (s&role&x&Hs&->&Hrx)%Hw. destruct Hrx as [[-> ->]|[-> ->]]; split.
    + unfold logical. destruct (x_logical_on_top_row o); apply rect_same.
    + eapply (logical_commutes d o); [done..|]. by destruct (x_logical_on_top_row o).
    + eapply (logical_commutes d o); [done..|]. by destruct (x_logical_on_top_row o).
    + unfold logical. destruct (x_logical_on_top_row o); apply rect_same.
  - by apply logicals_anticommute.
Qed.

Lemma surface_code_valid_witness :
  fits 3 ∧ returns (make_grid 3 ZH) (λ g, returns (get_spin_op_observables g) (λ obs, length obs = 2)).
Proof.
  assert (fits 3) as H3 by (split; [lia|reflexivity]). split; [exact H3|].
  eapply returns_mono; [exact (surface_code_valid 3 ZH H3)|]. intros g Hg.
  destruct Hg as (stabs&_&Hobs). eapply returns_mono; [exact Hobs|]. intros obs (lx&lz&->&_). reflexivity.
Defined.
