(* ===== verification/SurfaceSchedule.v ===== *)
(** * The CNOT schedules of the surface code

    Every schedule is built, its rows follow the first data qubit of the
    stabilizers, and the X and Z schedules never use a data qubit at the same
    time step. *)

From Stdlib Require Import Ascii.
From stdpp Require Import gmap strings sorting.
From S2P Require Import Prelude Tensor SparseCanon SurfaceCode SurfaceFacts SurfaceProps.

Open Scope nat_scope.

(** ** One row *)

(** The position of data qubit [q] relative to a site. *)
Definition rel (d : nat) (s : vec2d) (q : nat) : vec2d :=
  (Z.of_nat (q / d) - s.1, Z.of_nat (q mod d) - s.2)%Z.

(** The time step at which an order visits an offset; 0 for never. *)
Fixpoint step_from (k : nat) (order : list vec2d) (off : vec2d) : nat :=
  match order with
  | [] => 0
  | o :: order => if decide (o = off) then k + 1 else step_from (k + 1) order off
  end.
Definition step_of : list vec2d → vec2d → nat := step_from 0.

Lemma step_from_snoc k order o off :
  o ∉ order → step_from k (order ++ [o]) off = if decide (o = off) then k + length order + 1 else step_from k order off.
Proof.
  revert k. induction order as [|o' order IH]; intros k Ho; cbn [app step_from length].
  - rewrite Nat.add_0_r. done.
  - apply not_elem_of_cons in Ho as [Hne Ho]. rewrite IH by done.
    destruct (decide (o' = off)), (decide (o = off)); try congruence. lia.
Qed.

Lemma step_of_pos order off : step_of order off = 0 ↔ off ∉ order.
Proof.
  unfold step_of. generalize 0 at 1. induction order as [|o order IH]; intros k; cbn [step_from].
  - split; [intros _; apply not_elem_of_nil|done].
  - rewrite not_elem_of_cons. case_decide as E; [subst; split; [lia|tauto]|]. rewrite IH. naive_solver.
Qed.

Definition sched_row (d : nat) (order : list vec2d) (s : vec2d) : list nat :=
  (λ q, step_of order (rel d s q)) <$> seq 0 (d * d).

Lemma schedule_row_ok d data order s :
  1 ≤ d → data_spec d data → length order = 4 → NoDup order →
  schedule_row data (d * d) order s = Ok (sched_row d order s).
Proof.
  intros Hd Hdata H4 Hnd. unfold schedule_row.
  match goal with |- for_u _ _ ?f _ = _ => set (step := f) end.
  destruct (for_u_inv 0 4 step (λ k row, row = sched_row d (take k order) s) (replicate (d * d) 0)) as (row&->&->); [lia| | |].
  - symmetry. unfold sched_row. rewrite (const_fmap _ _ 0) by done. by rewrite length_seq.
  - intros k row Hk ->. unfold step. destruct (lookup_lt_is_Some_2 order k) as [off Hoff]; [lia|].
    rewrite (vget_ok _ _ _ Hoff). cbn [mbind res_bind]. cbv beta. rewrite (Nat.add_1_r k), (take_S_r _ _ off) by done.
    assert (off ∉ take k order) as Hnot.
    { rewrite <-(take_drop k order) in Hnd. apply NoDup_app in Hnd as (_&Hdis&_). intros Hin. apply (Hdis _ Hin).
      rewrite (drop_S _ off) by done. set_solver. }
    assert (length (take k order) = k) as Hlen by (rewrite length_take; lia).
    rewrite Hdata. case_decide as Hin.
    + assert (∀ x y : nat, x < d → y < d → (x * d + y) / d = x ∧ (x * d + y) mod d = y) as Hdm.
      { intros x y Hx Hy. split; [symmetry; apply Nat.div_unique with y; lia|symmetry; apply Nat.mod_unique with x; lia]. }
      rewrite vset_ok by (unfold sched_row; rewrite length_fmap, length_seq; nia). apply returns_ok.
      apply list_eq_same_length with (d * d); unfold sched_row; rewrite ?length_insert, ?length_fmap, ?length_seq; [done..|].
      intros q x y Hq Hx Hy. rewrite list_lookup_fmap, lookup_seq_lt in Hy by done. cbn [fmap option_fmap option_map Nat.add] in Hy.
      unfold step_of in *. rewrite step_from_snoc, Hlen in Hy by done. set (p := _ * d + _) in Hx.
      destruct (decide (q = p)) as [->|Hne].
      * rewrite list_lookup_insert_eq in Hx by (rewrite length_fmap, length_seq; done).
        rewrite decide_True in Hy; [injection Hx as <-; injection Hy as <-; lia|]. unfold rel, p.
        destruct (Hdm (Z.to_nat (s.1 + off.1)) (Z.to_nat (s.2 + off.2))) as [-> ->]; [lia|lia|]. destruct off. cbn in *. f_equal; lia.
      * rewrite list_lookup_insert_ne, list_lookup_fmap, lookup_seq_lt in Hx by done. cbn [fmap option_fmap option_map Nat.add] in Hx.
        rewrite decide_False in Hy; [congruence|]. intros Heq. apply Hne. unfold p. rewrite Heq. unfold rel. cbn.
        pose proof (Nat.div_mod_eq q d). replace (Z.to_nat (s.1 + (Z.of_nat (q / d) - s.1))) with (q / d) by lia.
        replace (Z.to_nat (s.2 + (Z.of_nat (q mod d) - s.2))) with (q mod d) by lia. lia.
    + apply returns_ok. unfold sched_row. apply list_fmap_ext. intros i q [-> Hq]%lookup_seq. cbn in *.
      unfold step_of. rewrite step_from_snoc by done. rewrite decide_False; [done|]. intros ->. apply Hin. unfold rel. cbn.
      pose proof (Nat.mod_upper_bound i d). assert (i / d < d) by (apply Nat.Div0.div_lt_upper_bound; lia). lia.
  - by rewrite take_ge by lia.
Qed.

(** ** The order of the rows *)

(** The two orders visit the four corners once each. *)
Record corner_order (order : list vec2d) : Prop := {
  co_length : length order = 4;
  co_nodup : NoDup order;
  co_corners : ∀ off, off ∈ order ↔ (off.1 = -1 ∨ off.1 = 0)%Z ∧ (off.2 = -1 ∨ off.2 = 0)%Z
}.

Lemma corner_orders (b : bool) : corner_order (if b then col_major_order else row_major_order).
Proof.
  destruct b; (constructor; [done|apply (bool_decide_unpack _); vm_compute; exact I|]);
    intros [x y]; unfold col_major_order, row_major_order; rewrite !elem_of_cons, elem_of_nil; cbn; split;
    [intros [[=]|[[=]|[[=]|[[=]|[]]]]]; subst; lia|intros [[-> | ->] [-> | ->]]; tauto|
     intros [[=]|[[=]|[[=]|[[=]|[]]]]]; subst; lia|intros [[-> | ->] [-> | ->]]; tauto].
Qed.

Definition first_data (d : nat) (s : vec2d) : nat := (Z.to_nat s.1 - 1) * d + (Z.to_nat s.2 - 1).

Lemma step_support d order r c q :
  corner_order order →
  step_of order (rel d (site r c) q) ≠ 0 ↔ near r (q / d) = true ∧ near c (q mod d) = true.
Proof.
  intros [_ _ Hc]. rewrite step_of_pos.
  assert (rel d (site r c) q ∈ order ↔ near r (q / d) = true ∧ near c (q mod d) = true) as <-.
  { rewrite Hc, !near_iff. unfold rel, site. cbn [fst snd]. lia. }
  split; [intros; by apply dec_stable|by intros ? ?].
Qed.

Lemma first_support_spec row i :
  i < length row → row !! i ≠ Some 0 → (∀ j, j < i → row !! j = Some 0) → first_support row = i.
Proof.
  revert i. induction row as [|v row IH]; intros i Hi Hne Hz; cbn in *; [lia|].
  destruct i as [|i]; [cbn in Hne; destruct (Nat.eqb_spec v 0); congruence|].
  pose proof (Hz 0 ltac:(lia)) as [= ->]. cbn. f_equal. apply IH; [lia|done|]. intros j Hj. by apply (Hz (S j)); lia.
Qed.

Lemma first_support_row d order r c :
  1 ≤ d → r ≤ d → c ≤ d → corner_order order →
  first_support (sched_row d order (site r c)) = first_data d (site r c).
Proof.
  intros Hd Hr Hc Ho. unfold first_data, site. cbn [fst snd]. rewrite !Nat2Z.id.
  assert ((r - 1) * d + (c - 1) < d * d) as Hlt by nia.
  apply first_support_spec; unfold sched_row.
  - by rewrite length_fmap, length_seq.
  - rewrite list_lookup_fmap, lookup_seq_lt by done. cbn [fmap option_fmap option_map Nat.add]. intros [= Hz]. revert Hz.
    apply (step_support d order r c _ Ho). rewrite !near_iff.
    assert (((r - 1) * d + (c - 1)) / d = r - 1) as -> by (symmetry; apply Nat.div_unique with (c - 1); lia).
    assert (((r - 1) * d + (c - 1)) mod d = c - 1) as -> by (symmetry; apply Nat.mod_unique with (r - 1); lia). lia.
  - intros j Hj. rewrite list_lookup_fmap, lookup_seq_lt by lia. cbn [fmap option_fmap option_map Nat.add]. f_equal.
    destruct (decide (step_of order (rel d (site r c) j) = 0)) as [|Hne]; [done|].
    apply (step_support d order r c j Ho) in Hne as [H1%near_iff H2%near_iff].
    pose proof (Nat.div_mod_eq j d). nia.
Qed.

(** Sites of one type have different first data qubits. *)
Lemma first_data_inj d o role s t :
  1 ≤ d → role ≠ empty_site → s ∈ sites (d + 1) (role_spec d o) role → t ∈ sites (d + 1) (role_spec d o) role →
  first_data d s = first_data d t → s = t.
Proof.
  intros Hd Hne. destruct s as [? ?], t as [? ?].
  intros (r&c&->&->&Hr&Hc&HF)%sites_elem (r'&c'&->&->&Hr'&Hc'&HF')%sites_elem. unfold first_data. cbn [fst snd]. rewrite !Nat2Z.id.
  intros [Hrr Hcc]%index2_inj; [|lia|lia].
  assert (odd_site r c = odd_site r' c') as Hpar.
  { apply role_parity in HF, HF'; [|done..]. unfold role_for_parity in *. subst role.
    destruct (bool_decide _), (odd_site r c), (odd_site r' c'); done. }
  unfold odd_site in Hpar. destruct (decide (r = r')) as [->|Hrn], (decide (c = c')) as [->|Hcn]; [done| | |].
  - exfalso. assert (c = 0 ∧ c' = 1 ∨ c = 1 ∧ c' = 0) as [[-> ->]|[-> ->]] by lia;
      rewrite Nat.add_0_r, Nat.add_1_r, Nat.odd_succ, <-Nat.negb_odd in Hpar; by destruct (Nat.odd r').
  - exfalso. assert (r = 0 ∧ r' = 1 ∨ r = 1 ∧ r' = 0) as [[-> ->]|[-> ->]] by lia;
      cbn [Nat.add] in Hpar; rewrite Nat.odd_succ, <-Nat.negb_odd in Hpar; by destruct (Nat.odd c').
  - exfalso.
    assert (∀ a role, role_spec d o 0 a = role → role ≠ empty_site →
      odd_site 0 a = negb (horizontal_boundaries_use_even_parity o)) as Htop by (intros a ro Ha Hn; by eapply outer_row_parity).
    assert (∀ a role, role_spec d o a 0 = role → role ≠ empty_site →
      odd_site a 0 = horizontal_boundaries_use_even_parity o) as Hleft by (intros a ro Ha Hn; by eapply outer_col_parity).
    assert ((r = 0 ∧ r' = 1 ∨ r = 1 ∧ r' = 0) ∧ (c = 0 ∧ c' = 1 ∨ c = 1 ∧ c' = 0)) as [[[-> ->]|[-> ->]] [[-> ->]|[-> ->]]] by lia.
    + pose proof (Htop _ _ HF Hne). pose proof (Hleft _ _ HF Hne). by destruct (horizontal_boundaries_use_even_parity o).
    + pose proof (Htop _ _ HF Hne). pose proof (Hleft _ _ HF' Hne). by destruct (horizontal_boundaries_use_even_parity o).
    + pose proof (Htop _ _ HF' Hne). pose proof (Hleft _ _ HF Hne). by destruct (horizontal_boundaries_use_even_parity o).
    + pose proof (Htop _ _ HF' Hne). pose proof (Hleft _ _ HF' Hne). by destruct (horizontal_boundaries_use_even_parity o).
Qed.

(** ** The schedule *)

(** The rows of [t] are the schedules of the sites [coords], ordered by their
    first data qubit. *)
Definition aligned (d : nat) (order : list vec2d) (coords : list vec2d) (t : tensor) : Prop :=
  ∃ l, l ≡ₚ coords ∧ StronglySorted (λ s s', first_data d s < first_data d s') l ∧
    wf2 (length l) (d * d) t ∧
    ∀ i s q, l !! i = Some s → q < d * d → elem2 t i q = Some (step_of order (rel d s q)).

(** A tensor filled element by element. *)
Lemma fill_tensor r c (f : nat → nat → nat) :
  returns (for_u 0 r (λ i, for_u 0 c (λ j t, set_at t [i; j] (f i j))) (tensor_of_shape [r; c]))
    (λ t, wf2 r c t ∧ ∀ i j, i < r → j < c → elem2 t i j = Some (f i j)).
Proof.
  unfold for_u. rewrite !Nat.sub_0_r, (cells_fold (λ i j t, set_at t [i; j] (f i j))).
  pose proof (foldM_inv (λ ij t, set_at t [ij.1; ij.2] (f ij.1 ij.2)) (λ pre t, wf2 r c t ∧
    ∀ i j, (i, j) ∈ pre → elem2 t i j = Some (f i j)) (cells (seq 0 r) (seq 0 c)) (tensor_of_shape [r; c])) as Hinv.
  eapply returns_mono; [apply Hinv; clear Hinv|].
  - split; [apply wf2_zeros|]. by intros i j ?%not_elem_of_nil.
  - intros pre [i0 j0] post t Hcells [Hwf Ht]. cbn [fst snd].
    assert ((i0, j0) ∈ cells (seq 0 r) (seq 0 c)) as [Hi%elem_of_seq Hj%elem_of_seq]%elem_of_cells by (rewrite Hcells; set_solver).
    eapply returns_mono; [apply (set2_returns r c t i0 j0); [done|lia|lia]|]. intros t' [Hwf' Ht']. split; [done|].
    intros i j Hin. rewrite Ht'. case_decide as E; [destruct E as [-> ->]; done|]. apply Ht. apply elem_of_app in Hin as [|Hin]; [done|].
    apply list_elem_of_singleton in Hin as [= -> ->]. tauto.
  - intros t [Hwf Ht]. split; [done|]. intros i j Hi Hj. apply Ht, elem_of_cells. rewrite !elem_of_seq. lia.
Qed.

Lemma schedule_rows d data order l :
  1 ≤ d → data_spec d data → corner_order order →
  foldM (λ sc rows, r ← schedule_row data (d * d) order sc; Ok (rows ++ [r])) l [] = Ok (sched_row d order <$> l).
Proof.
  intros Hd Hdata [H4 Hnd _].
  cut (∀ acc, foldM (λ sc rows, r ← schedule_row data (d * d) order sc; Ok (rows ++ [r])) l acc =
    Ok (acc ++ (sched_row d order <$> l))); [intros Hc; by rewrite Hc|].
  induction l as [|s l IH]; intros acc; cbn [foldM fmap list_fmap]; [by rewrite app_nil_r|].
  rewrite schedule_row_ok by done. cbn [mbind res_bind]. by rewrite IH, <-app_assoc.
Qed.

Lemma pair_nat_le_total : Total pair_nat_le.
Proof. intros [a b] [c d]. unfold pair_nat_le. cbn. lia. Qed.
Lemma pair_nat_le_trans : Transitive pair_nat_le.
Proof. intros [a b] [c d] [e f]. unfold pair_nat_le. cbn. lia. Qed.

Section schedule.
Context (d : nat) (o : sc_orientation) (role : surface_role) (data : gmap vec2d nat) (order : list vec2d).
Hypothesis Hd : 1 ≤ d.
Hypothesis Hrole : role ≠ empty_site.
Hypothesis Hdata : data_spec d data.
Hypothesis Horder : corner_order order.
Let l := sites (d + 1) (role_spec d o) role.
Let keyed := merge_sort pair_nat_le (imap (λ r row, (first_support row, r)) (sched_row d order <$> l)).

Lemma sites_nodup : NoDup l.
Proof using Type.
  unfold l, sites. apply NoDup_fmap_2_strong.
  - intros [r c] [r' c'] _ _ [= Hr Hc]. apply Nat2Z.inj in Hr, Hc. by subst.
  - apply NoDup_filter. unfold grid_cells, cells. apply NoDup_bind; [| |apply NoDup_seq].
    + intros r r' [x y] _ _ (?&[= -> ->]&_)%list_elem_of_fmap (?&[= ->]&_)%list_elem_of_fmap. done.
    + intros r _. apply NoDup_fmap_2; [by intros ?? [= ->]|apply NoDup_seq].
Qed.

Lemma row_key s : s ∈ l → first_support (sched_row d order s) = first_data d s.
Proof using All.
  clear Hdata. destruct s as [a b]. intros (r&c&->&->&Hr&Hc&_)%sites_elem. apply first_support_row; (done || lia).
Qed.

Lemma keyed_perm : keyed ≡ₚ imap (λ r s, (first_data d s, r)) l.
Proof using All.
  unfold keyed. rewrite merge_sort_Permutation, imap_fmap. apply Permutation_refl'. apply imap_ext.
  intros i s Hs. cbn. by rewrite row_key by (by eapply list_elem_of_lookup_2).
Qed.

Lemma keyed_elem k : k ∈ keyed ↔ ∃ s, l !! k.2 = Some s ∧ k.1 = first_data d s.
Proof using All.
  rewrite keyed_perm. rewrite list_elem_of_lookup. setoid_rewrite list_lookup_imap. destruct k as [key i]. cbn. split.
  - intros (j&Hj). destruct (l !! j) as [s|] eqn:Hs; [|done]. injection Hj as <- <-. eauto.
  - intros (s&Hs&->). exists i. by rewrite Hs.
Qed.

Lemma keyed_keys : NoDup keyed.*1.
Proof using All.
  rewrite keyed_perm. assert ((imap (λ r s, (first_data d s, r)) l).*1 = first_data d <$> l) as ->.
  { apply list_eq. intros i. rewrite !list_lookup_fmap, list_lookup_imap. by destruct (l !! i). }
  apply NoDup_fmap_2_strong; [|apply sites_nodup].
  intros s t Hs Ht. by apply (first_data_inj d o role).
Qed.

Lemma keyed_increasing : StronglySorted (λ k k', k.1 < k'.1) keyed.
Proof using All.
  assert (StronglySorted pair_nat_le keyed) as Hs.
  { apply StronglySorted_merge_sort; [apply pair_nat_le_trans|apply pair_nat_le_total]. }
  pose proof keyed_keys as Hnd. induction Hs as [|k ks Hs IH Hall]; constructor; cbn [fmap list_fmap] in Hnd;
    apply NoDup_cons in Hnd as [Hk Hnd]; [by apply IH|].
  rewrite Forall_forall in Hall |- *. intros k' Hk'. destruct (Hall k' Hk') as [|[Heq _]]; [done|].
  destruct Hk. rewrite Heq. apply list_elem_of_fmap. eauto.
Qed.

Definition key_site (k : nat * nat) : vec2d := default (0, 0)%Z (l !! k.2).

Lemma ordered_perm : key_site <$> keyed ≡ₚ l.
Proof using All.
  rewrite keyed_perm. assert (key_site <$> imap (λ r s, (first_data d s, r)) l = l) as Heq; [|by rewrite Heq].
  apply list_eq. intros i. rewrite list_lookup_fmap, list_lookup_imap. unfold key_site. destruct (l !! i) as [s|] eqn:Hs; [|done]. cbn. by rewrite Hs.
Qed.

Lemma ordered_sorted : StronglySorted (λ s s', first_data d s < first_data d s') (key_site <$> keyed).
Proof using All.
  assert (Forall (λ k, k.1 = first_data d (key_site k)) keyed) as Hkey.
  { apply Forall_forall. intros k (s&Hs&Hk)%keyed_elem. unfold key_site. by rewrite Hs. }
  pose proof keyed_increasing as Hs. induction Hs as [|k ks Hs IH Hall]; [constructor|].
  apply Forall_cons in Hkey as [Hk Hkey]. cbn [fmap list_fmap]. constructor; [by apply IH|].
  apply Forall_fmap, Forall_forall. intros k' Hk'. cbn. rewrite Forall_forall in Hall, Hkey.
  rewrite <-Hk, <-(Hkey k') by done. by apply Hall.
Qed.

Lemma keys_distinct :
  for_u 1 (length keyed) (λ r _, k ← vget keyed r; k' ← vget keyed (r - 1);
    throw_if (k.1 =? k'.1) (RuntimeError "surface-code CNOT schedule: two same-type stabilizers share their first supported data qubit")) tt = Ok tt.
Proof using All.
  destruct (decide (1 ≤ length keyed)) as [Hlen|Hlen];
    [|unfold for_u; replace (length keyed - 1) with 0 by lia; done].
  match goal with |- for_u _ _ ?f _ = _ => set (step := f) end.
  destruct (for_u_inv 1 (length keyed) step (λ _ _, True) tt Hlen I) as ([]&->&_); [|done].
  intros r u Hr _. unfold step. destruct (lookup_lt_is_Some_2 keyed r) as [k Hk]; [lia|].
  destruct (lookup_lt_is_Some_2 keyed (r - 1)) as [k' Hk']; [lia|].
  rewrite (vget_ok _ _ _ Hk), (vget_ok _ _ _ Hk'). cbn [mbind res_bind].
  destruct (Nat.eqb_spec k.1 k'.1) as [Heq|]; [|by apply returns_ok]. exfalso.
  assert (keyed.*1 !! r = Some k.1 ∧ keyed.*1 !! (r - 1) = Some k.1) as [H1 H2]
    by (rewrite !list_lookup_fmap, Hk, Hk'; cbn; split; congruence).
  pose proof (NoDup_lookup _ _ _ _ keyed_keys H1 H2). lia.
Qed.

Lemma build_schedule_ok (col_major : bool) :
  order = (if col_major then col_major_order else row_major_order) →
  returns (build_cnot_schedule l data (d * d) col_major) (aligned d order l).
Proof using All.
  intros Ho. unfold build_cnot_schedule. rewrite <-Ho, schedule_rows by done. cbn [mbind res_bind]. fold keyed.
  rewrite keys_distinct. cbn [mbind res_bind]. rewrite length_fmap.
  assert (length keyed = length l) as Hlen by (rewrite keyed_perm; apply length_imap).
  set (f := λ i q, default 0 ((key_site <$> keyed) !! i ≫= λ s, Some (step_of order (rel d s q)))).
  match goal with |- returns ?m _ => replace m with
    (for_u 0 (length l) (λ i, for_u 0 (d * d) (λ j t, set_at t [i; j] (f i j))) (tensor_of_shape [length l; d * d])) end.
  - eapply returns_mono; [apply fill_tensor|]. intros t [Ht He]. exists (key_site <$> keyed).
    split; [apply ordered_perm|]. split; [apply ordered_sorted|]. rewrite length_fmap, Hlen. split; [done|].
    intros i s q Hi Hq. pose proof (lookup_lt_Some _ _ _ Hi) as Hil. rewrite length_fmap, Hlen in Hil.
    rewrite He by done. unfold f. by rewrite Hi.
  - unfold for_u. apply foldM_ext. intros i t Hi%elem_of_seq. apply foldM_ext. intros q t' Hq%elem_of_seq.
    destruct (lookup_lt_is_Some_2 keyed i) as [k Hk]; [lia|]. rewrite (vget_ok _ _ _ Hk). cbn [mbind res_bind].
    destruct (proj1 (keyed_elem k) (list_elem_of_lookup_2 _ _ _ Hk)) as (s&Hs&_).
    rewrite (vget_ok _ k.2 (sched_row d order s)) by (by rewrite list_lookup_fmap, Hs). cbn [mbind res_bind].
    unfold sched_row at 1. rewrite (vget_ok _ q (step_of order (rel d s q))).
    + cbn [mbind res_bind]. unfold f. rewrite list_lookup_fmap, Hk. cbn. unfold key_site. by rewrite Hs.
    + rewrite list_lookup_fmap, lookup_seq_lt by lia. done.
Qed.
End schedule.

(** ** Conflicts *)

Definition order_of (b : bool) : list vec2d := if b then col_major_order else row_major_order.

(** Both orders are at a corner of the same parity at each time step. *)
Lemma step_parity b off k :
  step_of (order_of b) off = k → k ≠ 0 → Z.even (off.1 + off.2) = (k =? 1) || (k =? 4).
Proof.
  destruct b, off as [x y]; unfold step_of, order_of, row_major_order, col_major_order; cbn [step_from];
    repeat (case_decide as E; [injection E as <- <-; by intros <-|clear E]); intros <- Hk; by destruct Hk.
Qed.

Lemma step_inj b off off' k :
  step_of (order_of b) off = k → step_of (order_of b) off' = k → k ≠ 0 → off = off'.
Proof.
  destruct b; unfold step_of, order_of, row_major_order, col_major_order; cbn [step_from];
    repeat case_decide; intros; subst; try done; lia.
Qed.

(** No data qubit is touched by two ancillas at the same time step. *)
Definition exclusive (t : tensor) : Prop :=
  ∀ i i' q k, elem2 t i q = Some k → elem2 t i' q = Some k → k ≠ 0 → i = i'.
Definition disjoint (t t' : tensor) : Prop :=
  ∀ i j q k, elem2 t i q = Some k → elem2 t' j q = Some k → k = 0.

Lemma rel_inj d s s' q : rel d s q = rel d s' q → s = s'.
Proof. destruct s, s'. unfold rel. cbn. intros [= ??]. f_equal; lia. Qed.

Lemma aligned_row d b coords t i q k :
  aligned d (order_of b) coords t → elem2 t i q = Some k →
  ∃ l s, l ≡ₚ coords ∧ l !! i = Some s ∧ step_of (order_of b) (rel d s q) = k.
Proof.
  intros (l&Hl&_&Hwf&He) Hk. destruct (elem2_bounds _ _ _ _ _ _ Hwf Hk) as [Hi Hq].
  destruct (lookup_lt_is_Some_2 l i Hi) as [s Hs]. exists l, s. rewrite (He i s q Hs Hq) in Hk. injection Hk as <-. done.
Qed.

Lemma aligned_exclusive d b coords t : NoDup coords → aligned d (order_of b) coords t → exclusive t.
Proof.
  intros Hnd (l&Hl&_&Hwf&He) i i' q k Hi Hi' Hk.
  destruct (elem2_bounds _ _ _ _ _ _ Hwf Hi) as [Hil Hq]. destruct (elem2_bounds _ _ _ _ _ _ Hwf Hi') as [Hil' _].
  destruct (lookup_lt_is_Some_2 l i Hil) as [s Hs]. destruct (lookup_lt_is_Some_2 l i' Hil') as [s' Hs'].
  rewrite (He i s q Hs Hq) in Hi. rewrite (He i' s' q Hs' Hq) in Hi'. injection Hi as Hi. injection Hi' as Hi'.
  assert (s = s') as <- by (eapply rel_inj, step_inj; done).
  eapply NoDup_lookup; [|exact Hs|exact Hs']. by rewrite Hl.
Qed.

Lemma aligned_disjoint d o b b' t t' :
  aligned d (order_of b) (sites (d + 1) (role_spec d o) amx) t →
  aligned d (order_of b') (sites (d + 1) (role_spec d o) amz) t' → disjoint t t'.
Proof.
  intros Hx Hz i j q k Hi Hj. destruct (decide (k = 0)) as [|Hk]; [done|]. exfalso.
  destruct (aligned_row _ _ _ _ _ _ _ Hx Hi) as (l&s&Hl&Hs&Hsk). destruct (aligned_row _ _ _ _ _ _ _ Hz Hj) as (l'&s'&Hl'&Hs'&Hsk').
  apply list_elem_of_lookup_2 in Hs, Hs'. rewrite Hl in Hs. rewrite Hl' in Hs'. destruct s as [? ?], s' as [? ?].
  apply sites_elem in Hs as (r&c&->&->&_&_&HX). apply sites_elem in Hs' as (r'&c'&->&->&_&_&HZ).
  pose proof (opposite_parity _ _ _ _ _ _ HX HZ) as Hpar. unfold odd_site in Hpar.
  apply step_parity in Hsk, Hsk'; [|done..]. rewrite <-Hsk' in Hsk. unfold rel in Hsk. cbn [fst snd] in Hsk.
  assert (∀ x y z w : Z, Z.even (x - y + (z - w)) = eqb (Z.even (x + z)) (Z.even (y + w))) as Hev.
  { intros x y z w. rewrite !Z.even_add, !Z.even_sub. by destruct (Z.even x), (Z.even y), (Z.even z), (Z.even w). }
  rewrite !Hev, <-!Nat2Z.inj_add in Hsk.
  assert (∀ n : nat, Z.even (Z.of_nat n) = negb (Nat.odd n)) as Hno.
  { intros n. rewrite Nat.negb_odd. induction n as [|n IH]; [done|]. rewrite Nat2Z.inj_succ, Z.even_succ, Nat.even_succ.
    by rewrite <-Z.negb_even, <-Nat.negb_even, IH. }
  rewrite !Hno, Hpar in Hsk. by destruct (Nat.odd (r' + c')), (Nat.odd (q / d + q mod d)).
Qed.

(** Both schedules of a built grid follow its stabilizers. *)
Lemma schedules_aligned d o g :
  fits d → grid_ok d o g →
  returns (get_cnot_schedule_x g) (aligned d (order_of (x_logical_on_top_row o)) (sites (d + 1) (role_spec d o) amx)) ∧
  returns (get_cnot_schedule_z g) (aligned d (order_of (negb (x_logical_on_top_row o))) (sites (d + 1) (role_spec d o) amz)).
Proof.
  intros [Hd Hfit] Hg. unfold get_cnot_schedule_x, get_cnot_schedule_z.
  rewrite (gk_distance _ _ _ Hg), (gk_orientation _ _ _ Hg), (gk_x _ _ _ Hg), (gk_z _ _ _ Hg), (wrap_small 32) by nia.
  split; (apply (build_schedule_ok d o); [done|done|apply Hg|apply corner_orders|done]).
Qed.

(** C39. For every orientation and distance that fits, both CNOT schedules are
    built (no two stabilizers of a type share their first data qubit), their
    rows are the X (Z) stabilizers in ascending order of that qubit with the
    time step of each corner, no data qubit meets two ancillas of a type at
    the same step, and the X and Z schedules stay disjoint when their steps
    are interleaved. *)
Theorem cnot_schedules_conflict_free d o :
  fits d →
  returns (make_grid d o) (λ g,
  returns (get_cnot_schedule_x g) (λ tx, returns (get_cnot_schedule_z g) (λ tz,
    aligned d (order_of (x_logical_on_top_row o)) (x_stab_coords g) tx ∧
    aligned d (order_of (negb (x_logical_on_top_row o))) (z_stab_coords g) tz ∧
    exclusive tx ∧ exclusive tz ∧ disjoint tx tz))).
Proof.
  intros Hfits. eapply returns_mono; [by apply make_grid_ok|]. intros g Hg.
  destruct (schedules_aligned d o g Hfits Hg) as [Hx Hz]. rewrite (gk_x _ _ _ Hg), (gk_z _ _ _ Hg).
  eapply returns_mono; [exact Hx|]. clear Hx. intros tx Hx. eapply returns_mono; [exact Hz|]. clear Hz. intros tz Hz.
  split_and!; [done|done|eapply aligned_exclusive; [apply sites_nodup|done]..|by eapply aligned_disjoint].
Qed.

Lemma cnot_schedules_conflict_free_witness :
  fits 3 ∧ returns (make_grid 3 XV) (λ g,
    returns (get_cnot_schedule_x g) (λ tx, returns (get_cnot_schedule_z g) (λ tz, disjoint tx tz))).
Proof.
  assert (fits 3) as H3 by (split; [lia|reflexivity]). split; [exact H3|].
  eapply returns_mono; [exact (cnot_schedules_conflict_free 3 XV H3)|]. intros g Hg.
  eapply returns_mono; [exact Hg|]. intros tx Htx. eapply returns_mono; [exact Htx|]. intros tz Htz. apply Htz.
Defined.

(** ** Small distances *)

(** Distance 0 never leaves the loop over the top and bottom boundaries. *)
Example distance_zero_diverges : make_grid 0 ZH = Undef.
Proof. reflexivity. Qed.

(** At distance 2 there are two X stabilizers and one Z stabilizer, while the
    code reports one of each. *)
Example distance_two_counts :
  returns (make_grid 2 ZH) (λ g,
    length (x_stabilizers g) = 2 ∧ length (z_stabilizers g) = 1 ∧ get_num_x_stabilizers 2 = 1 ∧ get_num_ancilla_qubits 2 = 3).
Proof. eexists. split; [vm_compute; reflexivity|]. done. Qed.
