(* ===== verification/StabilizerUtils.v ===== *)
(** * Stabilizers as parity-check matrices

    Model of libs/qec/lib/stabilizer_utils.cpp: the order in which stabilizers
    are sorted and their conversion to a parity-check matrix of the form
    [[H_Z | 0], [0 | H_X]] or to one of its blocks.  CUDA-Q's spin operators
    are a type with the two conversions the code uses. *)

From Stdlib Require Import Ascii.
From stdpp Require Import strings sorting.
From S2P Require Import Prelude Ordering Tensor.

Open Scope nat_scope.

Inductive stabilizer_type := XZ | X | Z.

(** [s.find_first_of(c)]; [None] is [npos], the largest position. *)
Fixpoint find_first_of (c : ascii) (s : list ascii) : option nat :=
  match s with
  | [] => None
  | x :: s => if decide (x = c) then Some 0 else S <$> find_first_of c s
  end.

Definition pos_ltb (a b : option nat) : bool :=
  match a, b with
  | Some a, Some b => a <? b
  | Some _, None => true
  | None, _ => false
  end.

Definition spinOpComparatorStr (astr bstr : list ascii) : bool :=
  match find_first_of "Z"%char astr, find_first_of "Z"%char bstr with
  | None, Some _ => false
  | None, None => pos_ltb (find_first_of "X"%char astr) (find_first_of "X"%char bstr)
  | Some _, None => true
  | Some a, Some b => a <? b
  end.

Definition sort_words (words : list (list ascii)) : list (list ascii) :=
  std_sort (λ a b, Ok (spinOpComparatorStr a b)) words.

Definition has_z (w : list ascii) : bool := match find_first_of "Z"%char w with Some _ => true | None => false end.

(** [s\[i\]]: the terminator is readable. *)
Definition char_at (s : list ascii) (i : nat) : res ascii :=
  if i =? length s then Ok "000"%char else vget s i.

(** The leading rows with a Z. *)
Fixpoint num_z_rows (words : list (list ascii)) : nat :=
  match words with
  | w :: words => if has_z w then S (num_z_rows words) else 0
  | [] => 0
  end.

(** Mark the letter in [n] words from [src] on, at row [row0] and column [col0]. *)
Definition mark (words : list (list ascii)) (src n numQubits : nat) (letter : ascii) (row0 col0 : nat) (t : tensor)
    : res tensor :=
  for_u 0 n (λ row, for_u 0 numQubits (λ i t,
    w ← vget words (src + row);
    c ← char_at w i;
    if decide (c = letter) then set_at t [row0 + row; col0 + i] 1 else Ok t)) t.

(** An empty tensor. *)
Definition no_matrix : tensor := mk_tensor [] [].

Definition words_to_parity_matrix (words : list (list ascii)) (type : stabilizer_type) : res tensor :=
  match words with
  | [] => Ok no_matrix
  | _ =>
      let stab_strings := sort_words words in
      first ← vget stab_strings 0;
      let numQubits := length first in
      let numStabilizers := length stab_strings in
      let numZRows := num_z_rows stab_strings in
      let numXRows := numStabilizers - numZRows in
      match type with
      | XZ =>
          t ← mark stab_strings 0 numZRows numQubits "Z" 0 0 (tensor_of_shape [numStabilizers; 2 * numQubits]);
          mark stab_strings numZRows numXRows numQubits "X" numZRows numQubits t
      | Z =>
          if numZRows =? 0 then Ok no_matrix
          else mark stab_strings 0 numZRows numQubits "Z" 0 0 (tensor_of_shape [numZRows; numQubits])
      | X =>
          if numXRows =? 0 then Ok no_matrix
          else mark stab_strings numZRows numXRows numQubits "X" 0 0 (tensor_of_shape [numXRows; numQubits])
      end
  end.

(** ** Spin operators *)

(** A word with a Z on the given qubits. *)
Definition z_word (n : nat) (qubits : list nat) : list ascii :=
  (λ q, if decide (q ∈ qubits) then "Z"%char else "I"%char) <$> seq 0 n.

(** CUDA-Q terms: built from a word or as a product of the identity on [n]
    qubits with Z operators, printed as a word. *)
Class SpinOps (T : Type) := {
  get_pauli_word : T → list ascii;
  from_word : list ascii → T;
  z_product : nat → list nat → T;
  pauli_word_from w : get_pauli_word (from_word w) = w;
  pauli_word_z n qubits : NoDup qubits → Forall (λ q, q < n) qubits → get_pauli_word (z_product n qubits) = z_word n qubits
}.

Section terms.
Context {T : Type} `{SpinOps T}.

Definition spinOpComparator (a b : T) : bool := spinOpComparatorStr (get_pauli_word a) (get_pauli_word b).
Definition sortStabilizerOps (ops : list T) : list T := std_sort (λ a b, Ok (spinOpComparator a b)) ops.

(** [std::is_sorted]: no element is less than its predecessor. *)
Fixpoint isStabilizerSorted (ops : list T) : bool :=
  match ops with
  | a :: ((b :: _) as rest) => negb (spinOpComparator b a) && isStabilizerSorted rest
  | _ => true
  end.

Definition to_parity_matrix (stabilizers : list T) (type : stabilizer_type) : res tensor :=
  words_to_parity_matrix (get_pauli_word <$> stabilizers) type.

Definition to_parity_matrix_words (words : list (list ascii)) (type : stabilizer_type) : res tensor :=
  to_parity_matrix (sortStabilizerOps (from_word <$> words)) type.
End terms.
