(* ===== verification/StabilizerProps.v ===== *)
(** * Properties of the parity-check conversion *)

From Stdlib Require Import Ascii.
From stdpp Require Import strings sorting.
From S2P Require Import Prelude Ordering Tensor SparseCanon SurfaceFacts StabilizerUtils.

Open Scope nat_scope.

(** ** The order of the words *)

Lemma find_none c s : find_first_of c s = None ↔ c ∉ s.
Proof.
  induction s as [|x s IH]; cbn; [split; [intros _; apply not_elem_of_nil|done]|].
  rewrite not_elem_of_cons. case_decide as E; [subst; naive_solver|].
  destruct (find_first_of c s) as [i|]; cbn; [|split; [intros _; split; [congruence|by apply IH]|done]].
  split; [done|]. intros [_ Hn]. by apply IH in Hn.
Qed.

Lemma has_z_spec w : has_z w = true ↔ "Z"%char ∈ w.
Proof.
  unfold has_z. pose proof (find_none "Z" w) as Hn. destruct (find_first_of "Z" w) as [i|].
  - split; [|done]. intros _. apply dec_stable. intros Hz. by apply Hn in Hz.
  - split; [done|]. intros Hz. by apply Hn in Hz.
Qed.

(** The comparator compares keys: the first Z, then the first X. *)
Definition word_key (w : list ascii) : option nat * option nat :=
  (find_first_of "Z"%char w, find_first_of "X"%char w).

(** [not_after] of the comparator is a total preorder. *)
Lemma words_total : Total (not_after (λ a b, Ok (spinOpComparatorStr a b))).
Proof.
  intros a b. unfold not_after, spinOpComparatorStr.
  destruct (find_first_of "Z" a) as [za|], (find_first_of "Z" b) as [zb|]; try (by left); try (by right).
  - destruct (Nat.ltb_spec za zb); [left|right]; intros [= Hlt%Nat.ltb_lt]; lia.
  - unfold pos_ltb. destruct (find_first_of "X" a) as [xa|], (find_first_of "X" b) as [xb|]; try (by left); try (by right).
    destruct (Nat.ltb_spec xa xb); [left|right]; intros [= Hlt%Nat.ltb_lt]; lia.
Qed.
Lemma words_trans : Transitive (not_after (λ a b, Ok (spinOpComparatorStr a b))).
Proof.
  intros a b c. unfold not_after, spinOpComparatorStr, pos_ltb.
  destruct (find_first_of "Z" a) as [za|], (find_first_of "Z" b) as [zb|], (find_first_of "Z" c) as [zc|],
    (find_first_of "X" a) as [xa|], (find_first_of "X" b) as [xb|], (find_first_of "X" c) as [xc|];
    intros H1 H2 H3; try discriminate H3; try (by destruct H1); try (by destruct H2).
  all: assert (∀ x y, Ok (x <? y) ≠ Ok true → y ≤ x) as Hge by (intros x y Hn; destruct (Nat.ltb_spec x y); [by destruct Hn|done]).
  all: apply Hge in H1; apply Hge in H2; injection H3 as H3; apply Nat.ltb_lt in H3; lia.
Qed.

Lemma sort_words_perm words : sort_words words ≡ₚ words.
Proof. apply merge_sort_Permutation. Qed.

Lemma sort_words_sorted words :
  StronglySorted (λ a b, spinOpComparatorStr b a = false) (sort_words words).
Proof.
  assert (StronglySorted (not_after (λ a b, Ok (spinOpComparatorStr a b))) (sort_words words)) as Hs
    by (apply StronglySorted_merge_sort; [apply words_trans|apply words_total]).
  induction Hs as [|w l Hs IH Hall]; constructor; [done|]. eapply Forall_impl; [exact Hall|].
  intros v Hv. unfold not_after in Hv. by destruct (spinOpComparatorStr v w).
Qed.

(** Words with a Z come first. *)
Lemma z_rows_split l :
  StronglySorted (λ a b, spinOpComparatorStr b a = false) l →
  Forall (λ w, has_z w = true) (take (num_z_rows l) l) ∧ Forall (λ w, has_z w = false) (drop (num_z_rows l) l).
Proof.
  induction 1 as [|w l Hs [IH1 IH2] Hall]; cbn [num_z_rows]; [done|].
  destruct (has_z w) eqn:Hw; [split; [by constructor|done]|]. split; [done|]. cbn [drop]. constructor; [done|].
  eapply Forall_impl; [exact Hall|]. intros v Hv. unfold spinOpComparatorStr, has_z in *.
  destruct (find_first_of "Z" w); [done|]. by destruct (find_first_of "Z" v).
Qed.

Lemma num_z_rows_le l : num_z_rows l ≤ length l.
Proof. induction l as [|w l IH]; cbn; [done|]. destruct (has_z w); lia. Qed.

(** ** Marking *)

Definition letter_bit (words : list (list ascii)) (letter : ascii) (i j : nat) : nat :=
  bit (words !! i ≫= (λ w, w !! j) = Some letter).

Lemma mark_ok words src n nq letter row0 col0 r c t :
  Forall (λ w, length w = nq) words → src + n ≤ length words → row0 + n ≤ r → col0 + nq ≤ c → wf2 r c t →
  returns (mark words src n nq letter row0 col0 t) (λ t', wf2 r c t' ∧ ∀ i j, i < r → j < c →
    elem2 t' i j = if bool_decide (row0 ≤ i < row0 + n ∧ col0 ≤ j < col0 + nq) &&
                      bool_decide (letter_bit words letter (src + (i - row0)) (j - col0) = 1)
                   then Some 1 else elem2 t i j).
Proof.
  intros Hw Hsrc Hr Hc Ht. unfold mark, for_u. rewrite !Nat.sub_0_r.
  rewrite (cells_fold (λ row i t, w ← vget words (src + row); c ← char_at w i;
    if decide (c = letter) then set_at t [row0 + row; col0 + i] 1 else Ok t)).
  pose proof (foldM_inv (λ rc t, w ← vget words (src + rc.1); c ← char_at w rc.2;
      if decide (c = letter) then set_at t [row0 + rc.1; col0 + rc.2] 1 else Ok t)
    (λ pre t', wf2 r c t' ∧ ∀ i j, i < r → j < c →
      elem2 t' i j = if bool_decide (row0 ≤ i ∧ col0 ≤ j ∧ (i - row0, j - col0) ∈ pre) &&
                        bool_decide (letter_bit words letter (src + (i - row0)) (j - col0) = 1)
                     then Some 1 else elem2 t i j) (cells (seq 0 n) (seq 0 nq)) t) as Hinv.
  eapply returns_mono; [apply Hinv; clear Hinv|].
  - split; [done|]. intros i j Hi Hj. rewrite bool_decide_eq_false_2; [done|]. intros (_&_&?%not_elem_of_nil). done.
  - intros pre [a b] post t' Hcells [Ht' He]. cbn [fst snd].
    assert ((a, b) ∈ cells (seq 0 n) (seq 0 nq)) as [Ha%elem_of_seq Hb%elem_of_seq]%elem_of_cells by (rewrite Hcells; set_solver).
    destruct (lookup_lt_is_Some_2 words (src + a)) as [w Hwa]; [lia|]. rewrite (vget_ok _ _ _ Hwa). cbn [mbind res_bind].
    assert (length w = nq) as Hlw by (rewrite Forall_forall in Hw; by eapply Hw, list_elem_of_lookup_2).
    destruct (lookup_lt_is_Some_2 w b) as [x Hx]; [lia|]. unfold char_at. rewrite (proj2 (Nat.eqb_neq b (length w))) by lia.
    rewrite (vget_ok _ _ _ Hx). cbn [mbind res_bind].
    assert (letter_bit words letter (src + a) b = 1 ↔ x = letter) as Hbit.
    { unfold letter_bit, bit. rewrite Hwa. cbn. rewrite Hx. case_decide; split; congruence. }
    assert (∀ i j, bool_decide (row0 ≤ i ∧ col0 ≤ j ∧ (i - row0, j - col0) ∈ pre ++ [(a, b)]) =
      bool_decide (row0 ≤ i ∧ col0 ≤ j ∧ (i - row0, j - col0) ∈ pre) || bool_decide (i = row0 + a ∧ j = col0 + b)) as Hd.
    { intros i j. apply eq_true_iff_eq. rewrite orb_true_iff, !bool_decide_eq_true, elem_of_app, list_elem_of_singleton.
      split; [intros (?&?&[?|[= ??]]); [tauto|right; lia]|intros [?|[-> ->]]; [tauto|]].
      split_and!; [lia|lia|right; f_equal; lia]. }
    case_decide as Hl.
    + eapply returns_mono; [apply (set2_returns r c t'); [done|lia|lia]|]. intros t'' [Ht'' He'']. split; [done|].
      intros i j Hi Hj. rewrite He'', Hd, He by done. case_decide as E.
      * destruct E as [<- <-]. rewrite (bool_decide_eq_true_2 (_ = _ ∧ _ = _)), orb_true_r by done.
        replace (src + (row0 + a - row0)) with (src + a) by lia. replace (col0 + b - col0) with b by lia.
        by rewrite (bool_decide_eq_true_2 (letter_bit _ _ _ _ = 1)) by (by apply Hbit).
      * rewrite (bool_decide_eq_false_2 (i = row0 + a ∧ j = col0 + b)), orb_false_r by naive_solver. done.
    + apply returns_ok. split; [done|]. intros i j Hi Hj. rewrite Hd, He by done.
      destruct (decide (i = row0 + a ∧ j = col0 + b)) as [[-> ->]|E]; [|by rewrite (bool_decide_eq_false_2 _ E), orb_false_r].
      replace (src + (row0 + a - row0)) with (src + a) by lia. replace (col0 + b - col0) with b by lia.
      rewrite (bool_decide_eq_false_2 (letter_bit _ _ _ _ = 1)) by (rewrite Hbit; done). by rewrite !andb_false_r.
  - intros t' [Ht' He]. split; [done|]. intros i j Hi Hj. rewrite He by done.
    rewrite (bool_decide_ext (row0 ≤ i ∧ col0 ≤ j ∧ _) (row0 ≤ i < row0 + n ∧ col0 ≤ j < col0 + nq)); [done|].
    rewrite elem_of_cells, !elem_of_seq. lia.
Qed.

(** ** The matrix *)

(** [mark] on zeros writes the letter bits of the words. *)
Definition block (words : list (list ascii)) (letter : ascii) (src m nq : nat) (t : tensor) : Prop :=
  wf2 m nq t ∧ ∀ i j, i < m → j < nq → elem2 t i j = Some (letter_bit words letter (src + i) j).

Lemma letter_bit_cases words letter i j : letter_bit words letter i j = 0 ∨ letter_bit words letter i j = 1.
Proof. unfold letter_bit, bit. case_decide; auto. Qed.

Lemma mark_zeros words src n nq letter :
  Forall (λ w, length w = nq) words → src + n ≤ length words →
  returns (mark words src n nq letter 0 0 (tensor_of_shape [n; nq])) (block words letter src n nq).
Proof.
  intros Hw Hn. eapply returns_mono; [apply (mark_ok _ _ _ _ _ _ _ n nq); [done|done|lia|lia|apply wf2_zeros]|].
  intros t [Ht He]. split; [done|]. intros i j Hi Hj. rewrite He, elem2_zeros by done. cbn [Nat.add].
  rewrite bool_decide_eq_true_2, !Nat.sub_0_r by lia.
  destruct (letter_bit_cases words letter (src + i) j) as [-> | ->]; done.
Qed.

(** The two halves of the full matrix. *)
Definition symplectic (words : list (list ascii)) (m nq : nat) (t : tensor) : Prop :=
  wf2 (length words) (2 * nq) t ∧ ∀ i j, i < length words → j < nq →
    elem2 t i j = Some (if i <? m then letter_bit words "Z" i j else 0) ∧
    elem2 t i (nq + j) = Some (if i <? m then 0 else letter_bit words "X" i j).

Lemma mark_both words m nq :
  Forall (λ w, length w = nq) words → m ≤ length words →
  returns (t ← mark words 0 m nq "Z" 0 0 (tensor_of_shape [length words; 2 * nq]);
           mark words m (length words - m) nq "X" m nq t) (symplectic words m nq).
Proof.
  intros Hw Hm. eapply returns_bind; [apply (mark_ok _ _ _ _ _ _ _ (length words) (2 * nq)); [done|lia|lia|lia|apply wf2_zeros]|].
  intros t [Ht He]. eapply returns_mono; [apply (mark_ok _ _ _ _ _ _ _ (length words) (2 * nq)); [done|lia|lia|lia|done]|].
  intros t' [Ht' He']. split; [done|]. intros i j Hi Hj.
  rewrite !He', !He, !elem2_zeros by lia. cbn [Nat.add]. rewrite !Nat.sub_0_r, Nat.add_sub_swap, Nat.sub_diag by lia. cbn [Nat.add].
  rewrite (bool_decide_eq_false_2 (m ≤ i < _ ∧ nq ≤ j < _)) by lia.
  rewrite (bool_decide_eq_false_2 (0 ≤ i < _ ∧ 0 ≤ nq + j < _)) by lia. cbn [andb].
  destruct (Nat.ltb_spec i m).
  - rewrite (bool_decide_eq_false_2 (m ≤ i < _ ∧ _)) by lia. rewrite (bool_decide_eq_true_2 (0 ≤ i < _ ∧ _)) by lia. cbn [andb].
    destruct (letter_bit_cases words "Z" i j) as [-> | ->]; done.
  - rewrite (bool_decide_eq_true_2 (m ≤ i < _ ∧ _)) by lia. rewrite (bool_decide_eq_false_2 (0 ≤ i < _ ∧ _)) by lia. cbn [andb].
    replace (m + (i - m)) with i by lia. destruct (letter_bit_cases words "X" i j) as [-> | ->]; done.
Qed.

(** What the three variants return on the sorted words [rows]. *)
Definition parity_of (rows : list (list ascii)) (nq : nat) (type : stabilizer_type) (t : tensor) : Prop :=
  let m := num_z_rows rows in
  match type with
  | XZ => symplectic rows m nq t
  | Z => if m =? 0 then t = no_matrix else block rows "Z" 0 m nq t
  | X => if length rows - m =? 0 then t = no_matrix else block rows "X" m (length rows - m) nq t
  end.

Lemma words_to_parity_ok words nq type :
  words ≠ [] → Forall (λ w, length w = nq) words →
  returns (words_to_parity_matrix words type) (parity_of (sort_words words) nq type).
Proof.
  intros Hne Hw. assert (Forall (λ w, length w = nq) (sort_words words)) as Hs by (by rewrite sort_words_perm).
  unfold words_to_parity_matrix. destruct words as [|w0 words]; [done|]. set (all := w0 :: words) in *.
  assert (0 < length (sort_words all)) as Hpos by (rewrite sort_words_perm; cbn; lia).
  destruct (lookup_lt_is_Some_2 _ _ Hpos) as [first Hf]. rewrite (vget_ok _ _ _ Hf). cbn [mbind res_bind].
  assert (length first = nq) as -> by (rewrite Forall_forall in Hs; by eapply Hs, list_elem_of_lookup_2).
  pose proof (num_z_rows_le (sort_words all)). unfold parity_of. destruct type.
  - by apply mark_both.
  - destruct (Nat.eqb_spec (length (sort_words all) - num_z_rows (sort_words all)) 0); [by apply returns_ok|].
    apply mark_zeros; [done|lia].
  - destruct (Nat.eqb_spec (num_z_rows (sort_words all)) 0); [by apply returns_ok|]. apply mark_zeros; [done|lia].
Qed.

(** ** CSS codes *)

(** A word of only one type of letter. *)
Definition css (w : list ascii) : Prop := "X"%char ∉ w ∨ "Z"%char ∉ w.
#[global] Instance css_dec w : Decision (css w).
Proof. unfold css. apply _. Defined.

(** The rows of a parity matrix: the words in a sorted order, Z words first. *)
Record row_order (words rows : list (list ascii)) (m : nat) : Prop := {
  ro_perm : rows ≡ₚ words;
  ro_sorted : StronglySorted (λ a b, spinOpComparatorStr b a = false) rows;
  ro_m : m ≤ length rows;
  ro_z : ∀ i w, rows !! i = Some w → (i < m ↔ "Z"%char ∈ w)
}.

Lemma sort_row_order words : row_order words (sort_words words) (num_z_rows (sort_words words)).
Proof.
  pose proof (num_z_rows_le (sort_words words)) as Hle.
  constructor; [apply sort_words_perm|apply sort_words_sorted|done|]. intros i w Hi.
  destruct (z_rows_split _ (sort_words_sorted words)) as [H1 H2]. rewrite <-has_z_spec. split.
  - intros Hlt. rewrite Forall_forall in H1. apply H1, list_elem_of_lookup. exists i. by rewrite lookup_take_lt.
  - intros Hz. apply Nat.nle_gt. intros Hge. rewrite Forall_forall in H2. rewrite (H2 w) in Hz; [done|].
    apply list_elem_of_lookup. exists (i - num_z_rows (sort_words words)). rewrite lookup_drop. by replace (_ + _) with i by lia.
Qed.

Lemma letter_bit_row words letter i w j :
  words !! i = Some w → letter_bit words letter i j = bit (w !! j = Some letter).
Proof. intros Hi. unfold letter_bit. by rewrite Hi. Qed.
Lemma bit_absent (w : list ascii) letter j : letter ∉ w → bit (w !! j = Some letter) = 0.
Proof. intros Hn. unfold bit. rewrite decide_False; [done|]. by intros ?%list_elem_of_lookup_2. Qed.

(** The parity-check matrix of the words and its two blocks: the binary
    symplectic form, row by row. *)
Definition parity_form (words : list (list ascii)) (nq : nat) (f : stabilizer_type → res tensor) : Prop :=
  ∃ rows m, row_order words rows m ∧
    returns (f XZ) (λ t, wf2 (length words) (2 * nq) t ∧ ∀ i w j, rows !! i = Some w → j < nq →
      elem2 t i j = Some (bit (w !! j = Some "Z"%char)) ∧ elem2 t i (nq + j) = Some (bit (w !! j = Some "X"%char))) ∧
    returns (f Z) (λ t, if m =? 0 then t = no_matrix else wf2 m nq t ∧
      ∀ i w j, i < m → rows !! i = Some w → j < nq → elem2 t i j = Some (bit (w !! j = Some "Z"%char))) ∧
    returns (f X) (λ t, if m =? length words then t = no_matrix else wf2 (length words - m) nq t ∧
      ∀ i w j, rows !! (m + i) = Some w → j < nq → elem2 t i j = Some (bit (w !! j = Some "X"%char))).

Lemma words_parity_form words ws nq :
  words ≠ [] → Forall (λ w, length w = nq ∧ css w) words → ws ≡ₚ words →
  parity_form words nq (words_to_parity_matrix ws).
Proof.
  intros Hne Hw Hp. assert (ws ≠ []) as Hne' by (intros ->; apply Permutation_nil in Hp; done).
  assert (Forall (λ w, length w = nq) ws) as Hl by (rewrite Hp; eapply Forall_impl; [exact Hw|]; cbn; tauto).
  pose proof (sort_row_order ws) as [Ho1 Ho2 Ho3 Ho4].
  set (rows := sort_words ws) in *. set (m := num_z_rows rows) in *.
  assert (rows ≡ₚ words) as Hperm by (by rewrite Ho1). assert (length rows = length words) as Hlen by (by rewrite Hperm).
  assert (∀ i w, rows !! i = Some w → css w) as Hcss.
  { intros i w Hi%list_elem_of_lookup_2. rewrite Hperm in Hi. rewrite Forall_forall in Hw. by apply Hw. }
  exists rows, m. split_and!; [by constructor| | |].
  - eapply returns_mono; [by apply (words_to_parity_ok ws nq XZ)|]. intros t [Ht He]. fold rows m in Ht, He. rewrite Hlen in Ht.
    split; [done|]. intros i w j Hi Hj. destruct (He i j) as [-> ->]; [by eapply lookup_lt_Some|done|].
    rewrite !(letter_bit_row _ _ _ w) by done. pose proof (Ho4 i w Hi) as Hz. pose proof (Hcss i w Hi) as Hc.
    destruct (Nat.ltb_spec i m) as [Him|Him].
    + split; [done|]. f_equal. symmetry. apply bit_absent. destruct Hc; [done|]. tauto.
    + split; [|done]. f_equal. symmetry. apply bit_absent. intros Hin%Hz. lia.
  - eapply returns_mono; [by apply (words_to_parity_ok ws nq Z)|]. intros t Ht. cbn in Ht. fold rows m in Ht.
    destruct (m =? 0); [done|]. destruct Ht as [Ht He]. split; [done|]. intros i w j Him Hi Hj.
    rewrite He by done. by rewrite (letter_bit_row _ _ _ w).
  - eapply returns_mono; [by apply (words_to_parity_ok ws nq X)|]. intros t Ht. cbn in Ht. fold rows m in Ht. rewrite Hlen in Ht.
    destruct (Nat.eqb_spec (length words - m) 0), (Nat.eqb_spec m (length words)); [done|lia|lia|].
    destruct Ht as [Ht He]. split; [done|]. intros i w j Hi Hj.
    rewrite He by (apply lookup_lt_Some in Hi; lia). by rewrite (letter_bit_row _ _ _ w).
Qed.

Section terms.
Context {T : Type} `{SpinOps T}.

Lemma sorted_terms (words : list (list ascii)) :
  get_pauli_word <$> sortStabilizerOps (T:=T) (from_word <$> words) ≡ₚ words.
Proof.
  assert (sortStabilizerOps (T:=T) (from_word <$> words) ≡ₚ from_word <$> words) as Hp by apply merge_sort_Permutation.
  etrans; [exact (fmap_Permutation get_pauli_word _ _ Hp)|]. clear Hp.
  apply Permutation_refl'. induction words as [|w words IH]; [done|]. cbn. by rewrite pauli_word_from, IH.
Qed.

(** C40. For stabilizers that are words of one length over a single letter
    type each, both overloads of [to_parity_matrix] return the binary
    symplectic form of the words, row by row, Z stabilizers first and sorted by
    their first letter; the Z and the X variants are its two blocks, and an
    empty tensor if the block has no rows. *)
Theorem parity_matrix_of_css (words : list (list ascii)) nq :
  words ≠ [] → Forall (λ w, length w = nq ∧ css w) words →
  (∀ stabs : list T, get_pauli_word <$> stabs ≡ₚ words → parity_form words nq (to_parity_matrix stabs)) ∧
  parity_form words nq (to_parity_matrix_words (T:=T) words).
Proof.
  intros Hne Hw. split; [intros stabs Hp; by apply words_parity_form|].
  unfold to_parity_matrix_words, to_parity_matrix. apply words_parity_form; [done..|]. apply sorted_terms.
Qed.
End terms.

(** Words as their own spin operators. *)
Definition word_ops : SpinOps (list ascii) :=
  {| get_pauli_word := λ w, w; from_word := λ w, w; z_product := z_word;
     pauli_word_from := λ w, eq_refl; pauli_word_z := λ n qubits _ _, eq_refl |}.

Definition three_words : list (list ascii) :=
  String.list_ascii_of_string <$> ["IXX"; "ZZI"; "XXI"]%string.

Lemma parity_matrix_of_css_witness :
  three_words ≠ [] ∧ Forall (λ w, length w = 3 ∧ css w) three_words ∧
  parity_form three_words 3 (to_parity_matrix_words (T:=list ascii) (H:=word_ops) three_words) ∧
  to_parity_matrix_words (T:=list ascii) (H:=word_ops) three_words X = Ok (mk_tensor [2; 3] [1; 1; 0; 0; 1; 1]).
Proof.
  assert (three_words ≠ []) as H1 by done.
  assert (Forall (λ w, length w = 3 ∧ css w) three_words) as H2 by (apply (bool_decide_unpack _); vm_compute; exact I).
  split_and!; [exact H1|exact H2|exact (proj2 (@parity_matrix_of_css (list ascii) word_ops three_words 3 H1 H2))|vm_compute; reflexivity].
Defined.
