(* ===== verification/Codes.v ===== *)
(** * Error-correcting codes

    Model of the [code] base class (libs/qec/lib/code.cpp, code.h) and of the
    three codes the library ships: surface_code.cpp, steane.cpp and
    repetition.cpp under libs/qec/lib/codes.  The registry of code types is a
    map; the quantum kernels are left out. *)

From Stdlib Require Import Ascii.
From stdpp Require Import strings gmap.
From stdpp Require Import strings sorting.
From stdpp Require Import strings sorting gmap.
From S2P Require Import Prelude Ordering Tensor HetMap SurfaceCode StabilizerUtils SparseCanon SurfaceFacts SurfaceProps SurfaceSchedule StabilizerProps.

Open Scope nat_scope.

Section codes.
Context {T : Type} `{SpinOps T}.

(** A code with what its class adds. *)
Inductive family :=
  | surface_code (distance : nat) (grid : stabilizer_grid)
  | steane
  | repetition (distance : nat).

Record code := mk_code {
  this : family;
  m_stabilizers : list T;
  m_pauli_observables : list T
}.

Definition fromPauliWords (words : list (list ascii)) : list T := sortStabilizerOps (from_word <$> words).

(** ** Matrices *)

Definition get_parity (c : code) : res tensor := to_parity_matrix (m_stabilizers c) XZ.
Definition get_parity_x (c : code) : res tensor := to_parity_matrix (m_stabilizers c) X.
Definition get_parity_z (c : code) : res tensor := to_parity_matrix (m_stabilizers c) Z.
Definition get_pauli_observables_matrix (c : code) : res tensor := to_parity_matrix (m_pauli_observables c) XZ.
Definition get_observables_x (c : code) : res tensor := to_parity_matrix (m_pauli_observables c) X.
Definition get_observables_z (c : code) : res tensor := to_parity_matrix (m_pauli_observables c) Z.


(** ** Constructors *)

Definition make_surface_code (options : heterogeneous_map) : res code :=
  _ ← throw_if (negb (contains options "distance")) (RuntimeError "[surface_code] distance not provided.");
  distance ← get_size options "distance";
  orientation ← sc_orientation_from_str (get_string_or options "orientation" "ZH");
  grid ← make_grid (u32 distance) orientation;
  stabilizers ← get_spin_op_stabilizers grid;
  observables ← get_spin_op_observables grid;
  Ok (mk_code (surface_code distance grid)
        (sortStabilizerOps (from_word <$> stabilizers)) (sortStabilizerOps (from_word <$> observables))).

Definition make_steane (options : heterogeneous_map) : res code :=
  Ok (mk_code steane
        (sortStabilizerOps (fromPauliWords (word_of <$> ["XXXXIII"; "IXXIXXI"; "IIXXIXX"; "ZZZZIII"; "IZZIZZI"; "IIZZIZZ"]%string)))
        (sortStabilizerOps (fromPauliWords (word_of <$> ["IIIIXXX"; "IIIIZZZ"]%string)))).

(** Stabilizers Z(i-1) Z(i), logical observable Z(0). *)
Definition make_repetition (options : heterogeneous_map) : res code :=
  _ ← throw_if (negb (contains options "distance")) (RuntimeError "[repetition] distance not provided.");
  distance ← get_size options "distance";
  let stabilizers := (λ i, z_product distance [i - 1; i]) <$> seq 1 (distance - 1) in
  let Lz := z_product distance [0] in
  Ok (mk_code (repetition distance) (sortStabilizerOps stabilizers) (sortStabilizerOps [Lz])).

(** ** The registry *)

Definition code_registry : Type := gmap string (heterogeneous_map → res code).

Definition get_code (registry : code_registry) (name : string) (options : heterogeneous_map) : res code :=
  match registry !! name with
  | None => Throw (RuntimeError "invalid qec_code requested: ")
  | Some create => create options
  end.

(** The overload with the caller's stabilizers. *)
Definition get_code_with (registry : code_registry) (name : string) (stabilizers : list T) (options : heterogeneous_map)
    : res code :=
  c ← get_code registry name options;
  Ok (mk_code (this c) stabilizers (m_pauli_observables c)).

Definition builtin_codes : code_registry :=
  <["surface_code" := make_surface_code]> (<["steane" := make_steane]> (<["repetition" := make_repetition]> ∅)).

(** The counters of the repetition code. *)
Definition rep_num_data_qubits (distance : nat) : nat := distance.
Definition rep_num_ancilla_qubits (distance : nat) : nat := u64_sub distance 1.
Definition rep_num_ancilla_x_qubits (distance : nat) : nat := 0.
Definition rep_num_ancilla_z_qubits (distance : nat) : nat := rep_num_ancilla_qubits distance.
Definition rep_num_x_stabilizers (distance : nat) : nat := 0.
Definition rep_num_z_stabilizers (distance : nat) : nat := u64_sub distance 1.
End codes.
Arguments code : clear implicits.

(** * The stabilizers of the surface code as parity-check matrices

    The documented contract between [get_cnot_schedule_x/z] and
    [to_parity_matrix]: row [i] of a schedule belongs to the stabilizer in row
    [i] of the parity-check matrix. *)

(** ** Lists sorted by a key *)

Lemma sorted_by_key {A} (key : A → nat) (l l' : list A) :
  StronglySorted (λ x y, key x < key y) l → StronglySorted (λ x y, key x ≤ key y) l' → l' ≡ₚ l → l' = l.
Proof.
  intros Hl Hl' Hp. apply (StronglySorted_unique_strong (λ x y, key x ≤ key y)); [|done| |done].
  - intros x y Hx Hy H1 H2. rewrite Hp in Hx. assert (key x = key y) as Heq by lia. clear -Hl Hx Hy Heq.
    induction Hl as [|z l Hl IH Hall]; [by apply not_elem_of_nil in Hx|]. rewrite Forall_forall in Hall.
    apply elem_of_cons in Hx as [->|Hx], Hy as [->|Hy]; [done| | |by apply IH].
    + apply Hall in Hy. lia.
    + apply Hall in Hx. lia.
  - clear -Hl. induction Hl as [|z l Hl IH Hall]; constructor; [done|]. eapply Forall_impl; [exact Hall|]. cbn. lia.
Qed.

Lemma find_first_spec c w i :
  w !! i = Some c → (∀ j, j < i → w !! j ≠ Some c) → find_first_of c w = Some i.
Proof.
  revert i. induction w as [|x w IH]; intros i Hi Hj; [done|]. cbn. destruct i as [|i].
  - injection Hi as ->. by rewrite decide_True.
  - rewrite decide_False by (intros ->; by apply (Hj 0); [lia|]). rewrite (IH i); [done|done|].
    intros j Hlt. apply (Hj (S j)). lia.
Qed.

(** ** Site words *)







(** ** The blocks of the parity-check matrix *)






(** ** The contract *)

Section contract.
Context (d : nat) (o : sc_orientation).
Hypothesis Hd : 2 ≤ d.



End contract.


(** * Properties of the codes the library ships *)

(** ** The surface code *)

Section surface.
Context {T : Type} `{SpinOps T}.



End surface.


(** ** The repetition code *)

Lemma z_word_lookup n qs q : q < n → z_word n qs !! q = Some (if decide (q ∈ qs) then "Z"%char else "I"%char).
Proof. intros Hq. unfold z_word. by rewrite list_lookup_fmap, lookup_seq_lt. Qed.

Lemma z_word_ok n qs : length (z_word n qs) = n ∧ "X"%char ∉ z_word n qs.
Proof.
  unfold z_word. rewrite length_fmap, length_seq. split; [done|]. intros (q&Hq&_)%list_elem_of_fmap. by case_decide.
Qed.

Lemma find_pair n i : S i < n → find_first_of "Z"%char (z_word n [i; S i]) = Some i.
Proof.
  intros Hi. apply find_first_spec.
  - rewrite z_word_lookup by lia. by rewrite decide_True by set_solver.
  - intros j Hj. rewrite z_word_lookup by lia. rewrite decide_False; [done|]. rewrite !elem_of_cons, elem_of_nil. lia.
Qed.

Definition pair_words (d : nat) : list (list ascii) := (λ i, z_word d [i; S i]) <$> seq 0 (d - 1).

Definition first_z (w : list ascii) : nat := default 0 (find_first_of "Z"%char w).

Lemma pairs_sorted d a l :
  a + l < d → StronglySorted (λ x y, first_z x < first_z y) ((λ i, z_word d [i; S i]) <$> seq a l).
Proof.
  revert a. induction l as [|l IH]; intros a Ha; cbn [seq fmap list_fmap]; constructor; [apply IH; lia|].
  apply Forall_fmap, Forall_forall. intros j Hj%elem_of_seq. cbn. unfold first_z. rewrite !find_pair by lia. cbn. lia.
Qed.

(** The only sorted order of the pairs. *)
Lemma pair_words_order d rows m :
  1 ≤ d → row_order (pair_words d) rows m → rows = pair_words d ∧ m = length rows.
Proof.
  intros Hd [Hp Hs Hm Hz].
  assert (Forall (λ w, is_Some (find_first_of "Z"%char w)) rows) as Hsome.
  { rewrite Hp. unfold pair_words. apply Forall_fmap, Forall_forall. intros i Hi%elem_of_seq. cbn. rewrite find_pair by lia. eauto. }
  split.
  - apply (sorted_by_key first_z); [apply pairs_sorted; lia| |done]. clear -Hs Hsome.
    induction Hs as [|w l Hs IH Hall]; constructor; apply Forall_cons in Hsome as [[k Hk] Hsome]; [by apply IH|].
    rewrite Forall_forall in *. intros v Hv. destruct (Hsome v Hv) as [k' Hk']. specialize (Hall v Hv).
    unfold spinOpComparatorStr in Hall. unfold first_z. rewrite Hk, Hk' in *. cbn in *. by apply Nat.ltb_ge in Hall.
  - destruct (decide (m = length rows)) as [|Hne]; [done|]. exfalso. destruct (lookup_lt_is_Some_2 rows m) as [w Hw]; [lia|].
    rewrite Forall_forall in Hsome. destruct (Hsome w) as [k Hk]; [by eapply list_elem_of_lookup_2|].
    assert ("Z"%char ∈ w) as Hin by (apply dec_stable; intros Hn%find_none; congruence). apply (Hz m w Hw) in Hin. lia.
Qed.

Section repetition.
Context {T : Type} `{SpinOps T}.

(** Row [i] checks the neighbours [i] and [i + 1]; the observable is the first
    qubit; there is nothing of type X. *)
Definition repetition_matrices (d : nat) (c : code T) : Prop :=
  returns (get_parity_z c) (λ h, wf2 (d - 1) d h ∧ ∀ i j, i < d - 1 → j < d → elem2 h i j = Some (bit (j = i ∨ j = i + 1))) ∧
  get_parity_x c = Ok no_matrix ∧
  returns (get_observables_z c) (λ l, wf2 1 d l ∧ ∀ j, j < d → elem2 l 0 j = Some (bit (j = 0))) ∧
  get_observables_x c = Ok no_matrix.

Lemma sorted_terms_word (ops : list T) (words : list (list ascii)) :
  get_pauli_word <$> ops = words → get_pauli_word <$> sortStabilizerOps ops ≡ₚ words.
Proof.
  intros <-. apply fmap_Permutation. apply merge_sort_Permutation.
Qed.

(** For every distance of at least two the repetition code has the
    parity-check matrix of the chain Z(i) Z(i+1), row by row, no X
    stabilizers, and the observable Z(0). *)
Theorem repetition_code_matrices options d :
  contains options "distance" = true → get_size options "distance" = Ok d → 2 ≤ d →
  returns (make_repetition (T:=T) options) (λ c, this c = repetition d ∧ repetition_matrices d c).
Proof.
  intros Hc Hd H2. unfold make_repetition. rewrite Hc, Hd. cbn [negb throw_if mbind res_bind]. apply returns_ok. split; [done|].
  unfold repetition_matrices, get_parity_z, get_parity_x, get_observables_z, get_observables_x. cbn [m_stabilizers m_pauli_observables].
  set (ops := _ <$> seq 1 (d - 1)). set (Lz := z_product d [0]).
  assert (get_pauli_word <$> ops = pair_words d) as Hops.
  { unfold ops, pair_words. rewrite <-list_fmap_compose, <-fmap_S_seq, <-list_fmap_compose. apply list_fmap_ext.
    intros i k [-> Hi]%lookup_seq. cbn [compose Nat.add Nat.sub]. rewrite Nat.sub_0_r. apply pauli_word_z.
    - apply NoDup_cons. split; [rewrite list_elem_of_singleton; lia|apply NoDup_singleton].
    - repeat constructor; lia. }
  assert (get_pauli_word <$> [Lz] = [z_word d [0]]) as Hlz
    by (cbn; f_equal; apply pauli_word_z; [apply NoDup_singleton|repeat constructor; lia]).
  assert (pair_words d ≠ []) as Hne by (unfold pair_words; destruct d as [|[|d]]; [lia|lia|done]).
  assert (Forall (λ w, length w = d ∧ css w) (pair_words d)) as Hall.
  { unfold pair_words. apply Forall_fmap, Forall_forall. intros i _. destruct (z_word_ok d [i; S i]). by split; [|left]. }
  destruct (words_parity_form _ _ d Hne Hall (sorted_terms_word _ _ Hops)) as (rows&m&Hro&_&Hz&Hx).
  destruct (pair_words_order d rows m ltac:(lia) Hro) as [-> ->].
  assert (length (pair_words d) = d - 1) as Hlen by (unfold pair_words; by rewrite length_fmap, length_seq).
  destruct (words_parity_form [z_word d [0]] _ d ltac:(done)
    ltac:(apply Forall_singleton; destruct (z_word_ok d [0]); by split; [|left]) (sorted_terms_word _ _ Hlz)) as (orows&om&Horo&_&Hoz&Hox).
  assert (orows = [z_word d [0]]) as -> by (apply Permutation_singleton_r; apply Horo).
  assert (om = 1) as ->.
  { assert (om ≤ 1) as Hle by (apply (ro_m _ _ _ Horo)). assert (0 < om); [|lia]. apply (ro_z _ _ _ Horo 0 _ eq_refl).
    apply list_elem_of_lookup. exists 0. rewrite z_word_lookup by lia. by rewrite decide_True by set_solver. }
  rewrite Hlen in *. rewrite Nat.eqb_refl in Hx, Hox. rewrite (proj2 (Nat.eqb_neq (d - 1) 0)) in Hz by lia.
  split_and!.
  - eapply returns_mono; [exact Hz|]. intros h [Hwf He]. split; [done|]. intros i j Hi Hj.
    rewrite (He i (z_word d [i; S i])); [|done| |done].
    + f_equal. unfold bit. apply decide_ext. rewrite z_word_lookup by done. case_decide as Hin; [|naive_solver (set_solver by lia)].
      split; [intros _; set_solver by lia|done].
    + unfold pair_words. rewrite list_lookup_fmap, lookup_seq_lt by done. done.
  - destruct Hx as (t&Ht&->). exact Ht.
  - eapply returns_mono; [exact Hoz|]. intros h [Hwf He]. split; [done|]. intros j Hj.
    rewrite (He 0 (z_word d [0])) by (done || lia). f_equal. unfold bit. apply decide_ext. rewrite z_word_lookup by done.
    case_decide as Hin; [|naive_solver (set_solver by lia)]. split; [intros _; set_solver by lia|done].
  - destruct Hox as (t&Ht&->). exact Ht.
Qed.
End repetition.

Lemma repetition_code_matrices_witness :
  contains [("distance", AnySize 3)]%string "distance" = true ∧ get_size [("distance", AnySize 3)]%string "distance" = Ok 3 ∧
  returns (make_repetition (T:=list ascii) (H:=word_ops) [("distance", AnySize 3)]%string)
    (λ c, this c = repetition 3 ∧ repetition_matrices (H:=word_ops) 3 c).
Proof.
  assert (contains [("distance", AnySize 3)]%string "distance" = true) as H1 by reflexivity.
  assert (get_size [("distance", AnySize 3)]%string "distance" = Ok 3) as H2 by reflexivity.
  split_and!; [exact H1|exact H2|]. exact (@repetition_code_matrices (list ascii) word_ops _ 3 H1 H2 ltac:(lia)).
Defined.

(** ** The Steane code *)

(** Both types of check are the parity checks of the Hamming code, rows by
    their first qubit. *)
Example steane_matrices :
  returns (get_code (T:=list ascii) (builtin_codes (H:=word_ops)) "steane" []) (λ c,
    get_parity_x (H:=word_ops) c = Ok (mk_tensor [3; 7] [1;1;1;1;0;0;0; 0;1;1;0;1;1;0; 0;0;1;1;0;1;1]) ∧
    get_parity_z (H:=word_ops) c = get_parity_x (H:=word_ops) c).
Proof. eexists. split; [vm_compute; reflexivity|]. split; vm_compute; reflexivity. Qed.
