(* ===== verification/ThreadPool.v ===== *)
(** * The fork-join thread pool

    Model of [thread_pool] (libs/qec/lib/decoding_task/thread_pool.{h,cpp}) as
    a transition system.  The threads interleave at single accesses of the
    shared state: the atomics, the work descriptor ([current_trampoline_] with
    [current_ctx_], [current_n_tasks_]) and the error slot, whose mutex makes
    each critical section one transition.  [atomic::wait] either sees another
    phase or parks the worker; a parked worker wakes at [notify_all] or
    spuriously.  The outcome of a callback is chosen by the environment. *)

From S2P Require Import Prelude.

Open Scope nat_scope.

(** ** Construction *)

Inductive AffinityPolicy := Float | RoundRobin.
#[global] Instance AffinityPolicy_eq : EqDecision AffinityPolicy.
Proof. solve_decision. Defined.

(** [cpu_setsize] is the platform's [CPU_SETSIZE]. *)
Definition validate_affinity_mask (cpu_setsize : Z) (affinity_mask : list Z) : res unit :=
  foldM (λ cpu _,
    _ ← throw_if (cpu <? 0)%Z (InvalidArgument "thread_pool: affinity mask contains a negative CPU id");
    throw_if (cpu_setsize <=? cpu)%Z (OutOfRange "thread_pool: affinity CPU id exceeds CPU_SETSIZE"))
    affinity_mask tt.

(** The worker count; [hardware] is [std::thread::hardware_concurrency()]. *)
Definition resolve_threads (hardware num_threads : nat) (affinity_mask : list Z) (affinity_policy : AffinityPolicy) : nat :=
  let n := if num_threads =? 0 then (if hardware =? 0 then 1 else hardware) else num_threads in
  if bool_decide (affinity_policy = RoundRobin) && negb (length affinity_mask =? 0) &&
     (length affinity_mask + 1 <? n)
  then length affinity_mask + 1 else n.

(** The CPUs worker [worker_id] is bound to; [None] leaves it alone. *)
Definition worker_cpus (worker_id : nat) (affinity_mask : list Z) (affinity_policy : AffinityPolicy)
    : res (option (list Z)) :=
  if length affinity_mask =? 0 then Ok None
  else match affinity_policy with
  | RoundRobin => cpu ← vget affinity_mask (u64_sub worker_id 1 mod length affinity_mask); Ok (Some [cpu])
  | Float => Ok (Some affinity_mask)
  end.

(** [pthread_setaffinity_np] as a function to its error code. *)
Definition apply_worker_affinity (setaffinity : nat → list Z → Z) (worker_id : nat) (affinity_mask : list Z)
    (affinity_policy : AffinityPolicy) : res unit :=
  cpus ← worker_cpus worker_id affinity_mask affinity_policy;
  match cpus with
  | None => Ok tt
  | Some cpu_set => throw_if (negb (setaffinity worker_id cpu_set =? 0)%Z)
      (RuntimeError "thread_pool: failed to set worker affinity: ")
  end.

(** Start the workers [worker], [worker + 1], ..., [todo] of them: how many
    exist afterwards, and the exception that stopped the loop.  [spawn] is the
    exception of the [std::thread] constructor, if any. *)
Fixpoint start_workers (spawn : nat → option exn) (affinity : nat → res unit) (worker todo started : nat)
    : nat * option exn :=
  match todo with
  | 0 => (started, None)
  | S todo =>
      match spawn worker with
      | Some e => (started, Some e)
      | None =>
          match affinity worker with
          | Throw e => (S started, Some e)
          | _ => start_workers spawn affinity (S worker) todo (S started)
          end
      end
  end.

(** ** The running pool *)

Section pool.
Context {J E : Type}.

(** What the owner of the pool asks for; [J] names a callback with its context. *)
Inductive request :=
  | ParallelFor (job : J) (num_tasks : nat)
  | RunWorkers (job : J)
  | Destroy.

(** One finished callback. *)
Record call := mk_call { c_job : J; c_task : nat; c_worker : nat; c_out : option E }.

(** The loop over a stride, the same text in [run_phase] and [worker_loop]. *)
Inductive run_pc :=
  | RLoop (task : nat)
  | RCall (task : nat)
  | RStore (error : E)
  | RSeen
  | RSub.

Inductive caller_pc :=
  | CIdle
  | CInline (job : J) (num_tasks task : nat)
  | CInlineCall (job : J) (num_tasks task : nat)
  | CClearError (job : J) (num_tasks : nat)
  | CClearSeen (job : J) (num_tasks : nat)
  | CSetJob (job : J) (num_tasks : nat)
  | CSetTasks (job : J) (num_tasks : nat)
  | CSetRemaining (job : J) (num_tasks : nat)
  | CPublish (job : J) (num_tasks : nat)
  | CNotify (job : J) (num_tasks : nat)
  | CRun (job : J) (num_tasks : nat) (r : run_pc)
  | CWait (spins : nat)
  | CRethrow
  | CRethrowLocked
  | CShutdown
  | CStopPublish
  | CStopNotify
  | CJoin (k : nat)
  | CDead.

Inductive worker_pc :=
  | WCheck (current_phase : nat)
  | WWait
  | WBlocked
  | WLoad
  | WTest (current_phase : nat)
  | WReadJob
  | WReadTasks (job : J)
  | WRun (job : J) (num_tasks : nat) (r : run_pc)
  | WExit.

Record worker := mk_worker { w_pc : worker_pc; my_phase : nat }.

(** The members of the class, the two kinds of thread, and what the owner has
    seen so far: [todo] are the requests to come, [current] is the one being
    served with its [calls], [history] the served ones with their calls and the
    exception they ended with. *)
Record pool := mk_pool {
  n_threads_ : nat;
  phase_ : nat;
  remaining_workers_ : nat;
  shutdown_ : bool;
  current_job_ : option J;
  current_n_tasks_ : nat;
  phase_error_seen_ : bool;
  phase_error_ : option E;
  caller : caller_pc;
  workers_ : list worker;
  todo : list request;
  current : request;
  calls : list call;
  history : list (request * list call * option E)
}.

(** Field updates. *)
Definition set_caller (c : caller_pc) (s : pool) : pool :=
  mk_pool (n_threads_ s) (phase_ s) (remaining_workers_ s) (shutdown_ s) (current_job_ s) (current_n_tasks_ s)
    (phase_error_seen_ s) (phase_error_ s) c (workers_ s) (todo s) (current s) (calls s) (history s).
Definition set_worker (i : nat) (w : worker) (s : pool) : pool :=
  mk_pool (n_threads_ s) (phase_ s) (remaining_workers_ s) (shutdown_ s) (current_job_ s) (current_n_tasks_ s)
    (phase_error_seen_ s) (phase_error_ s) (caller s) (<[i := w]> (workers_ s)) (todo s) (current s) (calls s) (history s).
Definition set_phase (p : nat) (s : pool) : pool :=
  mk_pool (n_threads_ s) p (remaining_workers_ s) (shutdown_ s) (current_job_ s) (current_n_tasks_ s)
    (phase_error_seen_ s) (phase_error_ s) (caller s) (workers_ s) (todo s) (current s) (calls s) (history s).
Definition set_remaining (k : nat) (s : pool) : pool :=
  mk_pool (n_threads_ s) (phase_ s) k (shutdown_ s) (current_job_ s) (current_n_tasks_ s)
    (phase_error_seen_ s) (phase_error_ s) (caller s) (workers_ s) (todo s) (current s) (calls s) (history s).
Definition set_shutdown (s : pool) : pool :=
  mk_pool (n_threads_ s) (phase_ s) (remaining_workers_ s) true (current_job_ s) (current_n_tasks_ s)
    (phase_error_seen_ s) (phase_error_ s) (caller s) (workers_ s) (todo s) (current s) (calls s) (history s).
Definition set_job (j : J) (s : pool) : pool :=
  mk_pool (n_threads_ s) (phase_ s) (remaining_workers_ s) (shutdown_ s) (Some j) (current_n_tasks_ s)
    (phase_error_seen_ s) (phase_error_ s) (caller s) (workers_ s) (todo s) (current s) (calls s) (history s).
Definition set_n_tasks (m : nat) (s : pool) : pool :=
  mk_pool (n_threads_ s) (phase_ s) (remaining_workers_ s) (shutdown_ s) (current_job_ s) m
    (phase_error_seen_ s) (phase_error_ s) (caller s) (workers_ s) (todo s) (current s) (calls s) (history s).
Definition set_seen (b : bool) (s : pool) : pool :=
  mk_pool (n_threads_ s) (phase_ s) (remaining_workers_ s) (shutdown_ s) (current_job_ s) (current_n_tasks_ s)
    b (phase_error_ s) (caller s) (workers_ s) (todo s) (current s) (calls s) (history s).
Definition set_error (e : option E) (s : pool) : pool :=
  mk_pool (n_threads_ s) (phase_ s) (remaining_workers_ s) (shutdown_ s) (current_job_ s) (current_n_tasks_ s)
    (phase_error_seen_ s) e (caller s) (workers_ s) (todo s) (current s) (calls s) (history s).
Definition set_workers (ws : list worker) (s : pool) : pool :=
  mk_pool (n_threads_ s) (phase_ s) (remaining_workers_ s) (shutdown_ s) (current_job_ s) (current_n_tasks_ s)
    (phase_error_seen_ s) (phase_error_ s) (caller s) ws (todo s) (current s) (calls s) (history s).
Definition log_call (c : call) (s : pool) : pool :=
  mk_pool (n_threads_ s) (phase_ s) (remaining_workers_ s) (shutdown_ s) (current_job_ s) (current_n_tasks_ s)
    (phase_error_seen_ s) (phase_error_ s) (caller s) (workers_ s) (todo s) (current s) (calls s ++ [c]) (history s).
Definition begin (r : request) (rest : list request) (s : pool) : pool :=
  mk_pool (n_threads_ s) (phase_ s) (remaining_workers_ s) (shutdown_ s) (current_job_ s) (current_n_tasks_ s)
    (phase_error_seen_ s) (phase_error_ s) (caller s) (workers_ s) rest r (calls s) (history s).
Definition finish (result : option E) (c : caller_pc) (s : pool) : pool :=
  mk_pool (n_threads_ s) (phase_ s) (remaining_workers_ s) (shutdown_ s) (current_job_ s) (current_n_tasks_ s)
    (phase_error_seen_ s) (phase_error_ s) c (workers_ s) (todo s) (current s) []
    (history s ++ [(current s, calls s, result)]).

(** [store_phase_error] up to its flag. *)
Definition store_phase_error (error : E) (s : pool) : pool :=
  match phase_error_ s with
  | None => set_error (Some error) s
  | Some _ => s
  end.

(** One transition of the loop of thread [w]; [None] leaves it. *)
Definition run_step (w stride : nat) (job : J) (num_tasks : nat) (r : run_pc) (out : option E) (s : pool)
    : option run_pc * pool :=
  match r with
  | RLoop task => if task <? num_tasks then (Some (RCall task), s) else (Some RSub, s)
  | RCall task =>
      (Some match out with None => RLoop (u64 (task + stride)) | Some e => RStore e end,
       log_call (mk_call job task w out) s)
  | RStore e => (Some RSeen, store_phase_error e s)
  | RSeen => (Some RSub, set_seen true s)
  | RSub => (None, set_remaining (u64_sub (remaining_workers_ s) 1) s)
  end.

Definition notify_worker (w : worker) : worker :=
  match w_pc w with WBlocked => mk_worker WWait (my_phase w) | _ => w end.
Definition notify_all (s : pool) : pool := set_workers (notify_worker <$> workers_ s) s.

Definition exited (w : worker) : bool := match w_pc w with WExit => true | _ => false end.

Definition kMainWaitSpinPauseIters : nat := 4096.

(** [parallel_for], [run_workers] and the destructor up to their first shared
    access. *)
Definition serve (r : request) (s : pool) : pool :=
  match r with
  | ParallelFor job num_tasks =>
      if num_tasks =? 0 then finish None CIdle s
      else if n_threads_ s <=? 1 then set_caller (CInline job num_tasks 0) s
      else set_caller (CClearError job num_tasks) s
  | RunWorkers job =>
      if n_threads_ s <=? 1 then set_caller (CInline job 1 0) s
      else set_caller (CClearError job (n_threads_ s)) s
  | Destroy => if length (workers_ s) =? 0 then finish None CDead s else set_caller CShutdown s
  end.

(** The thread that owns the pool. *)
Definition caller_step (out : option E) (s : pool) : option pool :=
  match caller s with
  | CIdle => match todo s with [] => None | r :: rest => Some (serve r (begin r rest s)) end
  | CInline j m task =>
      Some (if task <? m then set_caller (CInlineCall j m task) s else finish None CIdle s)
  | CInlineCall j m task =>
      let s := log_call (mk_call j task 0 out) s in
      Some match out with
           | None => set_caller (CInline j m (u64 (task + 1))) s
           | Some e => finish (Some e) CIdle s
           end
  | CClearError j m => Some (set_caller (CClearSeen j m) (set_error None s))
  | CClearSeen j m => Some (set_caller (CSetJob j m) (set_seen false s))
  | CSetJob j m => Some (set_caller (CSetTasks j m) (set_job j s))
  | CSetTasks j m => Some (set_caller (CSetRemaining j m) (set_n_tasks m s))
  | CSetRemaining j m => Some (set_caller (CPublish j m) (set_remaining (n_threads_ s) s))
  | CPublish j m => Some (set_caller (CNotify j m) (set_phase (u64 (phase_ s + 1)) s))
  | CNotify j m => Some (set_caller (CRun j m (RLoop 0)) (notify_all s))
  | CRun j m r =>
      let '(r', s) := run_step 0 (n_threads_ s) j m r out s in
      Some (set_caller (match r' with Some r' => CRun j m r' | None => CWait 0 end) s)
  | CWait spins =>
      if 0 <? remaining_workers_ s
      then Some (set_caller (CWait (if spins <? kMainWaitSpinPauseIters then spins + 1 else spins)) s)
      else Some (set_caller CRethrow s)
  | CRethrow => Some (if phase_error_seen_ s then set_caller CRethrowLocked s else finish None CIdle s)
  | CRethrowLocked => Some (finish (phase_error_ s) CIdle s)
  | CShutdown => Some (set_caller CStopPublish (set_shutdown s))
  | CStopPublish => Some (set_caller CStopNotify (set_phase (u64 (phase_ s + 1)) s))
  | CStopNotify => Some (set_caller (CJoin 0) (notify_all s))
  | CJoin k =>
      match workers_ s !! k with
      | None => Some (finish None CDead s)
      | Some w => if exited w then Some (set_caller (CJoin (k + 1)) s) else None
      end
  | CDead => None
  end.

(** The loop of worker [i + 1]. *)
Definition worker_step (i : nat) (out : option E) (s : pool) : option pool :=
  match workers_ s !! i with
  | None => None
  | Some w =>
      let go pc := Some (set_worker i (mk_worker pc (my_phase w)) s) in
      match w_pc w with
      | WCheck cur =>
          if (cur =? my_phase w) && negb (shutdown_ s) then go WWait else go (WTest cur)
      | WWait => if phase_ s =? my_phase w then go WBlocked else go WLoad
      | WBlocked => None
      | WLoad => go (WCheck (phase_ s))
      | WTest cur =>
          if shutdown_ s then go WExit else Some (set_worker i (mk_worker WReadJob cur) s)
      | WReadJob => match current_job_ s with None => None | Some j => go (WReadTasks j) end
      | WReadTasks j => go (WRun j (current_n_tasks_ s) (RLoop (i + 1)))
      | WRun j m r =>
          let '(r', s) := run_step (i + 1) (n_threads_ s) j m r out s in
          Some (set_worker i (mk_worker (match r' with Some r' => WRun j m r' | None => WCheck (my_phase w) end) (my_phase w)) s)
      | WExit => None
      end
  end.

(** A spurious wake-up. *)
Definition spurious (i : nat) (s : pool) : option pool :=
  match workers_ s !! i with
  | Some w => match w_pc w with WBlocked => Some (set_worker i (mk_worker WWait (my_phase w)) s) | _ => None end
  | None => None
  end.

(** ** Executions *)

Inductive action :=
  | ACaller (out : option E)
  | AWorker (i : nat) (out : option E)
  | ASpurious (i : nat).

Definition step (a : action) (s : pool) : option pool :=
  match a with
  | ACaller out => caller_step out s
  | AWorker i out => worker_step i out s
  | ASpurious i => spurious i s
  end.

Fixpoint run (acts : list action) (s : pool) : option pool :=
  match acts with
  | [] => Some s
  | a :: acts => step a s ≫= run acts
  end.

(** The pool with [started] workers and its owner at [c]. *)
Definition new_pool (n started : nat) (reqs : list request) (c : caller_pc) : pool :=
  mk_pool n 0 0 false None 0 false None c
    (replicate started (mk_worker (WCheck 0) 0)) reqs Destroy [] [].

(** The constructor: the exception it ends with, and the pool it leaves to its
    owner or, after a failure, to [stop_and_join_workers]. *)
Definition construct (hardware : nat) (cpu_setsize : Z) (spawn : nat → option exn) (setaffinity : nat → list Z → Z)
    (num_threads : nat) (affinity_mask : list Z) (affinity_policy : AffinityPolicy) (reqs : list request)
    : res (pool * option exn) :=
  _ ← validate_affinity_mask cpu_setsize affinity_mask;
  let n := resolve_threads hardware num_threads affinity_mask affinity_policy in
  let '(started, e) := start_workers spawn
      (λ w, apply_worker_affinity setaffinity w affinity_mask affinity_policy) 1 (n - 1) 0 in
  match e with
  | None => Ok (new_pool n started reqs CIdle, None)
  | Some e => Ok (new_pool n started [] (if started =? 0 then CDead else CShutdown), Some e)
  end.
End pool.

Arguments request : clear implicits.
Arguments call : clear implicits.
Arguments pool : clear implicits.
Arguments worker : clear implicits.
Arguments action : clear implicits.
Arguments caller_pc : clear implicits.
Arguments worker_pc : clear implicits.
Arguments run_pc : clear implicits.
