(* ===== verification/ThreadPoolInv.v ===== *)
(** * The invariant of the thread pool

    What each thread has done in the current phase, what the shared counters
    and flags say about it, and where the workers can be.  Every transition
    preserves it. *)

From S2P Require Import Prelude ThreadPool.

Open Scope nat_scope.

Section inv.
Context {J E : Type}.
Implicit Types (s : pool J E) (cs : list (call J E)) (w m n t : nat).

(** ** The calls of one thread *)

Definition tasks_of w cs : list (nat * option E) :=
  (λ c, (c_task c, c_out c)) <$> filter (λ c, c_worker c = w) cs.

(** The first [k] tasks of a stride, without errors. *)
Definition stride_prefix n w (k : nat) : list (nat * option E) := (λ i, (w + i * n, None)) <$> seq 0 k.

Definition ok_upto n m w t (l : list (nat * option E)) : Prop :=
  ∃ k, t = w + k * n ∧ l = stride_prefix n w k ∧ ∀ i, i < k → w + i * n < m.
Definition throws n m w (e : E) (l : list (nat * option E)) : Prop :=
  ∃ t l', ok_upto n m w t l' ∧ t < m ∧ l = l' ++ [(t, Some e)].

(** A thread's share of a phase: its whole stride, or up to the first error. *)
Definition complete n m w (l : list (nat * option E)) : Prop :=
  (∃ t, ok_upto n m w t l ∧ m ≤ t) ∨ ∃ e, throws n m w e l.

Lemma tasks_of_snoc w cs c :
  tasks_of w (cs ++ [c]) = tasks_of w cs ++ if decide (c_worker c = w) then [(c_task c, c_out c)] else [].
Proof. unfold tasks_of. rewrite list.filter_app, fmap_app. f_equal. cbn. by case_decide. Qed.

Lemma ok_upto_start n m w : ok_upto n m w w [].
Proof. exists 0. split_and!; [lia|done|lia]. Qed.
Lemma ok_upto_step n m w t l : ok_upto n m w t l → t < m → ok_upto n m w (t + n) (l ++ [(t, None)]).
Proof.
  intros (k&->&->&Hk) Ht. exists (S k). split_and!; [lia| |].
  - unfold stride_prefix. by rewrite seq_S, fmap_app.
  - intros i Hi. destruct (decide (i = k)) as [->|]; [done|]. apply Hk. lia.
Qed.
Lemma ok_upto_no_error n m w t l x e : ok_upto n m w t l → (x, Some e) ∉ l.
Proof. intros (k&_&->&_) (i&[=]&_)%list_elem_of_fmap. Qed.

(** ** The threads of a phase *)

Inductive status := Pending | Running (r : run_pc E) | Done.

Definition thread_ok n m w (st : status) (l : list (nat * option E)) : Prop :=
  match st with
  | Pending => l = []
  | Running (RLoop t) => ok_upto n m w t l
  | Running (RCall t) => ok_upto n m w t l ∧ t < m
  | Running (RStore e) => throws n m w e l
  | Running RSeen => ∃ e, throws n m w e l
  | Running RSub | Done => complete n m w l
  end.

(** What a thread has published of its error. *)
Definition flags_ok (st : status) (l : list (nat * option E)) (err : option E) (seen : bool) : Prop :=
  match st with
  | Running RSeen => is_Some err
  | Running RSub | Done => ∀ t e, (t, Some e) ∈ l → seen = true
  | _ => True
  end.

Definition unfinished (st : status) : nat := match st with Done => 0 | _ => 1 end.
Definition count_unfinished (sts : list status) : nat := sum_list (unfinished <$> sts).

(** The state of a phase with job [j] and [m] tasks: [sts] are the threads,
    thread 0 is the caller. *)
Record core n (j : J) m (sts : list status) cs (err : option E) (seen : bool) (remaining : nat) : Prop := {
  co_length : length sts = n;
  co_threads w st : sts !! w = Some st → thread_ok n m w st (tasks_of w cs);
  co_flags w st : sts !! w = Some st → flags_ok st (tasks_of w cs) err seen;
  co_jobs : Forall (λ c, c_job c = j ∧ c_worker c < n) cs;
  co_err e : err = Some e → ∃ c, c ∈ cs ∧ c_out c = Some e;
  co_seen : seen = true → is_Some err;
  co_remaining : remaining = count_unfinished sts
}.

Lemma count_insert sts w st st' :
  sts !! w = Some st → count_unfinished (<[w := st']> sts) + unfinished st = count_unfinished sts + unfinished st'.
Proof.
  intros Hw. unfold count_unfinished. pose proof (lookup_lt_Some _ _ _ Hw) as Hlt.
  rewrite insert_take_drop by done. rewrite <-(take_drop_middle sts w st Hw) at 3.
  rewrite !fmap_app, !sum_list_with_app. cbn. lia.
Qed.
Lemma count_pos sts w st : sts !! w = Some st → unfinished st = 1 → 1 ≤ count_unfinished sts.
Proof. intros Hw Hst. pose proof (count_insert sts w st Done Hw). cbn in *. lia. Qed.
Lemma count_zero sts w st : count_unfinished sts = 0 → sts !! w = Some st → st = Done.
Proof. intros H0 Hw. destruct st; [| |done]; (pose proof (count_pos sts w _ Hw eq_refl); lia). Qed.
Lemma count_le sts : count_unfinished sts ≤ length sts.
Proof. unfold count_unfinished. induction sts as [|st sts IH]; cbn; [done|]. destruct st; cbn; lia. Qed.

(** One thread moves; the errors only grow. *)
Lemma core_update n j m sts cs err seen rem w st st' cs' err' seen' rem' :
  core n j m sts cs err seen rem → sts !! w = Some st →
  (∀ w', w' ≠ w → tasks_of w' cs' = tasks_of w' cs) →
  thread_ok n m w st' (tasks_of w cs') → flags_ok st' (tasks_of w cs') err' seen' →
  Forall (λ c, c_job c = j ∧ c_worker c < n) cs' →
  (∀ e, err' = Some e → ∃ c, c ∈ cs' ∧ c_out c = Some e) →
  (is_Some err → is_Some err') → (seen = true → seen' = true) → (seen' = true → is_Some err') →
  rem' + unfinished st = rem + unfinished st' →
  core n j m (<[w := st']> sts) cs' err' seen' rem'.
Proof.
  intros [Hl Ht Hf _ _ _ Hr] Hw Hcs Ht' Hf' Hj He Hmono Hsmono Hs Hrem. constructor; [by rewrite length_insert| | |done..|].
  - intros w' st0. destruct (decide (w' = w)) as [->|Hne].
    + rewrite list_lookup_insert_eq by (by eapply lookup_lt_Some). by intros [= <-].
    + rewrite list_lookup_insert_ne, Hcs by done. apply Ht.
  - intros w' st0. destruct (decide (w' = w)) as [->|Hne].
    + rewrite list_lookup_insert_eq by (by eapply lookup_lt_Some). by intros [= <-].
    + rewrite list_lookup_insert_ne, Hcs by done. intros Hst. specialize (Hf w' st0 Hst).
      destruct st0 as [|[]|]; cbn in *; eauto.
  - pose proof (count_insert sts w st st' Hw). lia.
Qed.

Definition after (r : option (run_pc E)) : status := match r with Some r => Running r | None => Done end.

(** The loop of a stride keeps the phase intact. *)
Lemma core_run n j m sts s w r out :
  (Z.of_nat (m + n) ≤ 2 ^ 64)%Z → (Z.of_nat n < 2 ^ 64)%Z → w < n →
  core n j m sts (calls s) (phase_error_ s) (phase_error_seen_ s) (remaining_workers_ s) →
  sts !! w = Some (Running r) →
  let '(r', s') := run_step w n j m r out s in
  core n j m (<[w := after r']> sts) (calls s') (phase_error_ s') (phase_error_seen_ s') (remaining_workers_ s').
Proof.
  intros Hm Hn Hw Hc Hst. pose proof Hc as [Hl Ht Hf Hj He Hs Hr]. specialize (Ht _ _ Hst). specialize (Hf _ _ Hst).
  destruct r as [t|t|e| |]; cbn [run_step].
  - destruct (Nat.ltb_spec t m).
    + by eapply core_update.
    + eapply core_update; try done; cbn in *; [left; eauto|]. intros x e Hx. by eapply ok_upto_no_error in Hx.
  - cbn in Ht. destruct Ht as [Ht Htm]. eapply core_update; [done|done| | | | | |done|done|done|by destruct out].
    + intros w' Hne. cbn [calls log_call]. rewrite tasks_of_snoc, decide_False by (cbn; congruence). apply app_nil_r.
    + cbn [calls log_call]. rewrite tasks_of_snoc, decide_True by done. destruct out as [e|]; cbn [thread_ok c_task c_out].
      * exists t, (tasks_of w (calls s)). done.
      * rewrite (wrap_small 64) by lia. by apply ok_upto_step.
    + by destruct out.
    + cbn. apply Forall_app. split; [done|]. by apply Forall_singleton.
    + intros e Hperr. destruct (He e Hperr) as (c&Hin&Hout). exists c. cbn. set_solver.
  - cbn in Ht. assert (calls (store_phase_error e s) = calls s) as Hcs by (unfold store_phase_error; by destruct (phase_error_ s)).
    assert (phase_error_seen_ (store_phase_error e s) = phase_error_seen_ s ∧
      remaining_workers_ (store_phase_error e s) = remaining_workers_ s) as [Hse Hre]
      by (unfold store_phase_error; by destruct (phase_error_ s)).
    assert (is_Some (phase_error_ (store_phase_error e s))) as Hsome
      by (unfold store_phase_error; destruct (phase_error_ s) eqn:Ep; cbn; rewrite ?Ep; eauto).
    rewrite Hcs, Hse, Hre. eapply core_update; [done|done|done|by exists e|done|done| |done|done|done|done].
    intros e' He'. unfold store_phase_error in He'. destruct (phase_error_ s) eqn:Ep; [by apply He; rewrite <-Ep|].
    cbn in He'. injection He' as <-. destruct Ht as (t&l&_&_&Hl').
    assert ((t, Some e) ∈ tasks_of w (calls s)) as (c&[= -> ->]&[_ Hin]%list_elem_of_filter)%list_elem_of_fmap by (rewrite Hl'; set_solver).
    eauto.
  - eapply core_update; try done; cbn in *. right. eauto.
  - cbn. pose proof (count_le sts). pose proof (count_pos _ _ _ Hst eq_refl).
    rewrite u64_sub_le by lia. eapply core_update; try done. cbn. lia.
Qed.

Lemma core_start n j m sts cs err seen rem w :
  core n j m sts cs err seen rem → sts !! w = Some Pending → core n j m (<[w := Running (RLoop w)]> sts) cs err seen rem.
Proof.
  intros Hc Hst. pose proof Hc as [Hl Ht Hf Hj He Hs Hr]. eapply core_update; try done.
  - specialize (Ht _ _ Hst). cbn in *. rewrite Ht. apply ok_upto_start.
Qed.

(** At the start of a phase. *)
Lemma core_init n j m : core n j m (replicate n Pending) [] None false n.
Proof.
  constructor; [by rewrite length_replicate| | |done|done|done|].
  - intros w st [-> _]%lookup_replicate. done.
  - intros w st [-> _]%lookup_replicate. done.
  - unfold count_unfinished. induction n as [|n IH]; cbn; [done|]. by rewrite <-IH.
Qed.
End inv.
Arguments status : clear implicits.

(** * The transitions of the thread pool preserve its invariant *)

Section steps.
Context {J E : Type}.
Implicit Types (s : pool J E) (cs : list (call J E)) (w m n t p : nat) (wk : worker J E).

(** ** Served requests *)

Definition req_job (r : request J) : option J :=
  match r with ParallelFor j _ => Some j | RunWorkers j => Some j | Destroy => None end.
Definition req_tasks n (r : request J) : nat :=
  match r with ParallelFor _ m => m | RunWorkers _ => n | Destroy => 0 end.
Definition req_fits n (r : request J) : Prop := (Z.of_nat (req_tasks n r + n) ≤ 2 ^ 64)%Z.

(** A phase of [m] tasks on [n] threads. *)
Record phase_spec n (j : J) m cs (result : option E) : Prop := {
  ps_jobs : Forall (λ c, c_job c = j ∧ c_worker c < n) cs;
  ps_threads w : w < n → complete n m w (tasks_of w cs);
  ps_result : result = None ↔ ∀ c, c ∈ cs → c_out c = None;
  ps_error e : result = Some e → ∃ c, c ∈ cs ∧ c_out c = Some e
}.

Definition entry_ok n (h : request J * list (call J E) * option E) : Prop :=
  match req_job h.1.1 with
  | Some j => phase_spec n j (req_tasks n h.1.1) h.1.2 h.2
  | None => h.1.2 = [] ∧ h.2 = None
  end.

(** ** Where the threads are *)

Definition worker_status p wk : status E :=
  match w_pc wk with
  | WRun _ _ r => Running r
  | WReadJob | WReadTasks _ => Pending
  | _ => if my_phase wk =? p then Done else Pending
  end.
Definition caller_status (c : caller_pc J E) : status E :=
  match c with CRun _ _ r => Running r | CWait _ | CRethrow | CRethrowLocked => Done | _ => Pending end.
Definition statuses s : list (status E) := caller_status (caller s) :: (worker_status (phase_ s) <$> workers_ s).

Inductive mode := Quiet | Published (notify : bool) | Stopping (published notify : bool).
Definition mode_of (c : caller_pc J E) : mode :=
  match c with
  | CNotify _ _ => Published true
  | CRun _ _ _ | CWait _ | CRethrow | CRethrowLocked => Published false
  | CStopPublish => Stopping false true
  | CStopNotify => Stopping true true
  | CJoin _ | CDead => Stopping true false
  | _ => Quiet
  end.
Definition stopping (c : caller_pc J E) : bool := match mode_of c with Stopping _ _ => true | _ => false end.

(** The worker has not joined phase [p] yet. *)
Definition behind p wk : Prop := u64 (my_phase wk + 1) = p ∧ (Z.of_nat (my_phase wk) < 2 ^ 64)%Z.

Lemma behind_ne p wk : behind p wk → my_phase wk ≠ p.
Proof.
  intros [Hp Hlt] <-. unfold wrap in Hp. assert (Z.of_nat (my_phase wk + 1) = Z.of_nat (my_phase wk) + 1)%Z as Hz by lia.
  rewrite Hz in Hp. destruct (decide (Z.of_nat (my_phase wk) + 1 = 2 ^ 64)%Z) as [Heq|Hne].
  - rewrite Heq, Z.mod_same in Hp by lia. lia.
  - rewrite Z.mod_small in Hp by lia. lia.
Qed.

Definition worker_ok (md : mode) p (j : option J) m wk : Prop :=
  match md with
  | Quiet => my_phase wk = p ∧ match w_pc wk with WCheck cur => cur = p | WWait | WBlocked => True | _ => False end
  | Published notify =>
      match w_pc wk with
      | WCheck cur => (my_phase wk = p ∧ cur = p) ∨ (behind p wk ∧ (cur = my_phase wk ∨ cur = p))
      | WWait => my_phase wk = p ∨ behind p wk
      | WBlocked => my_phase wk = p ∨ (behind p wk ∧ notify = true)
      | WLoad => behind p wk
      | WTest cur => behind p wk ∧ cur = p
      | WReadJob => my_phase wk = p
      | WReadTasks j' => my_phase wk = p ∧ Some j' = j
      | WRun j' m' _ => my_phase wk = p ∧ Some j' = j ∧ m' = m
      | WExit => False
      end
  | Stopping published notify =>
      (if published then behind p wk else my_phase wk = p) ∧
      match w_pc wk with
      | WCheck _ | WWait | WLoad | WTest _ | WExit => True
      | WBlocked => published = true → notify = true
      | _ => False
      end
  end.

(** ** The caller *)

(** The caller serves job [j] with [m] tasks. *)
Definition serving s (j : J) m : Prop := req_job (current s) = Some j ∧ req_tasks (n_threads_ s) (current s) = m ∧
  (Z.of_nat (m + n_threads_ s) ≤ 2 ^ 64)%Z.

Definition active s (j : J) m : Prop :=
  serving s j m ∧ current_job_ s = Some j ∧ current_n_tasks_ s = m ∧
  core (n_threads_ s) j m (statuses s) (calls s) (phase_error_ s) (phase_error_seen_ s) (remaining_workers_ s).

Definition inline s (j : J) m t : Prop :=
  serving s j m ∧ n_threads_ s = 1 ∧ Forall (λ c, c_job c = j ∧ c_worker c < 1) (calls s) ∧ ok_upto 1 m 0 t (tasks_of 0 (calls s)).

(** What has been reset so far. *)
Definition reset s (j : J) m (k : nat) : Prop :=
  serving s j m ∧ calls s = [] ∧ (1 ≤ k → phase_error_ s = None) ∧ (2 ≤ k → phase_error_seen_ s = false) ∧
  (3 ≤ k → current_job_ s = Some j) ∧ (4 ≤ k → current_n_tasks_ s = m) ∧ (5 ≤ k → remaining_workers_ s = n_threads_ s).

Definition caller_ok s : Prop :=
  match caller s with
  | CIdle => calls s = []
  | CInline j m t => inline s j m t
  | CInlineCall j m t => inline s j m t ∧ t < m
  | CClearError j m => reset s j m 0
  | CClearSeen j m => reset s j m 1
  | CSetJob j m => reset s j m 2
  | CSetTasks j m => reset s j m 3
  | CSetRemaining j m => reset s j m 4
  | CPublish j m => reset s j m 5
  | CNotify j m | CRun j m _ => active s j m
  | CWait _ => ∃ j m, active s j m
  | CRethrow => (∃ j m, active s j m) ∧ remaining_workers_ s = 0
  | CRethrowLocked => (∃ j m, active s j m) ∧ remaining_workers_ s = 0 ∧ phase_error_seen_ s = true
  | CShutdown | CStopPublish | CStopNotify | CJoin _ => calls s = [] ∧ current s = Destroy
  | CDead => calls s = []
  end.

Definition workers_ok s : Prop := ∀ i wk, workers_ s !! i = Some wk →
  worker_ok (mode_of (caller s)) (phase_ s) (current_job_ s) (current_n_tasks_ s) wk.

Record inv s : Prop := {
  i_n : 1 ≤ n_threads_ s ∧ (Z.of_nat (n_threads_ s) < 2 ^ 64)%Z;
  i_phase : (Z.of_nat (phase_ s) < 2 ^ 64)%Z;
  i_len : stopping (caller s) = false → caller s ≠ CShutdown → S (length (workers_ s)) = n_threads_ s;
  i_shutdown : workers_ s ≠ [] → shutdown_ s = stopping (caller s);
  i_workers : workers_ok s;
  i_caller : caller_ok s;
  i_todo : Forall (req_fits (n_threads_ s)) (todo s);
  i_history : Forall (entry_ok (n_threads_ s)) (history s)
}.

Lemma inv_init n reqs : 1 ≤ n → (Z.of_nat n < 2 ^ 64)%Z → Forall (req_fits n) reqs → inv (new_pool n (n - 1) reqs CIdle).
Proof.
  intros Hn Hz Hr. constructor; cbn; [done|done| |done| |done|done|done].
  - intros _ _. rewrite length_replicate. lia.
  - intros i wk [-> _]%lookup_replicate. done.
Qed.
Lemma inv_failed n k :
  1 ≤ n → (Z.of_nat n < 2 ^ 64)%Z → inv (new_pool n k [] (if k =? 0 then CDead else CShutdown)).
Proof.
  intros Hn Hz. destruct k as [|k]; (constructor; cbn; [done|done|done|done| |done|done|done]); [by intros i wk|].
  intros i wk [-> _]%(lookup_replicate (S k)). done.
Qed.

(** ** Workers *)

Lemma statuses_worker s i wk' :
  statuses (set_worker i wk' s) = <[S i := worker_status (phase_ s) wk']> (statuses s).
Proof. unfold statuses. cbn. by rewrite list_fmap_insert. Qed.
Lemma status_lookup s i wk : workers_ s !! i = Some wk → statuses s !! S i = Some (worker_status (phase_ s) wk).
Proof.
  intros Hi. change ((worker_status (phase_ s) <$> workers_ s) !! i = Some (worker_status (phase_ s) wk)).
  by rewrite list_lookup_fmap, Hi.
Qed.

Lemma active_same s i wk wk' j m :
  workers_ s !! i = Some wk → worker_status (phase_ s) wk' = worker_status (phase_ s) wk →
  active s j m → active (set_worker i wk' s) j m.
Proof.
  intros Hi Hst (Hs&Hj&Hm&Hc). split_and!; [done..|]. rewrite statuses_worker, Hst, list_insert_id; [done|]. by apply status_lookup.
Qed.

(** A worker moves, and nothing else. *)
Lemma inv_worker s i wk wk' :
  inv s → workers_ s !! i = Some wk →
  worker_ok (mode_of (caller s)) (phase_ s) (current_job_ s) (current_n_tasks_ s) wk' →
  (∀ j m, active s j m → active (set_worker i wk' s) j m) → inv (set_worker i wk' s).
Proof.
  intros [] Hi Hok Hact. constructor; try done.
  - cbn. by rewrite length_insert.
  - intros _. apply i_shutdown0. intros Hnil. by rewrite Hnil in Hi.
  - intros i' wk0. cbn. destruct (decide (i' = i)) as [->|Hne].
    + rewrite list_lookup_insert_eq by (by eapply lookup_lt_Some). by intros [= <-].
    + rewrite list_lookup_insert_ne by done. apply i_workers0.
  - unfold caller_ok in *. cbn [caller set_worker]. destruct (caller s); try done; cbn; naive_solver.
Qed.

Lemma run_frame w n j m r out s :
  let s' := (run_step w n j m r out s).2 in
  n_threads_ s' = n_threads_ s ∧ phase_ s' = phase_ s ∧ shutdown_ s' = shutdown_ s ∧ current_job_ s' = current_job_ s ∧
  current_n_tasks_ s' = current_n_tasks_ s ∧ caller s' = caller s ∧ workers_ s' = workers_ s ∧ todo s' = todo s ∧
  current s' = current s ∧ history s' = history s.
Proof. destruct r; cbn; unfold store_phase_error; repeat case_match; done. Qed.

(** A running worker is counted, so the caller is still in the phase. *)
Lemma running_active s i wk :
  inv s → workers_ s !! i = Some wk → (∃ j m r, w_pc wk = WRun j m r) ∨ w_pc wk = WReadJob ∨ (∃ j, w_pc wk = WReadTasks j) →
  (∃ j m, active s j m) ∧ remaining_workers_ s ≠ 0 ∧ (∃ b, mode_of (caller s) = Published b).
Proof.
  intros Hinv Hi Hpc. pose proof (i_workers s Hinv i wk Hi) as Hok.
  assert (∃ b, mode_of (caller s) = Published b) as [b Hb].
  { unfold worker_ok in Hok. destruct (mode_of (caller s)); [|eauto|]; exfalso;
      destruct Hpc as [(?&?&?&E1)|[E1|(?&E1)]]; rewrite E1 in Hok; tauto. }
  assert (unfinished (worker_status (phase_ s) wk) = 1) as Hun
    by (unfold worker_status; destruct Hpc as [(?&?&?&->)|[->|(?&->)]]; done).
  assert (∃ j m, active s j m) as (j&m&Hact).
  { pose proof (i_caller s Hinv) as Hc. unfold caller_ok in Hc. destruct (caller s); try done; naive_solver. }
  split_and!; [eauto| |eauto]. destruct Hact as (_&_&_&Hc). rewrite (co_remaining _ _ _ _ _ _ _ _ Hc).
  pose proof (count_pos _ _ _ (status_lookup _ _ _ Hi) Hun). lia.
Qed.

Lemma worker_run_inv s i wk j m r out :
  inv s → workers_ s !! i = Some wk → w_pc wk = WRun j m r →
  let '(r', s1) := run_step (i + 1) (n_threads_ s) j m r out s in
  inv (set_worker i (mk_worker (match r' with Some r' => WRun j m r' | None => WCheck (my_phase wk) end) (my_phase wk)) s1).
Proof.
  intros Hinv Hi Hpc.
  destruct (running_active s i wk Hinv Hi) as ((j0&m0&Hact0)&Hrem&(b&Hb)); [eauto 10|].
  pose proof (i_workers s Hinv i wk Hi) as Hok. rewrite Hb in Hok. cbn in Hok. rewrite Hpc in Hok. destruct Hok as (Hmy&Hj&Hm).
  assert (S (length (workers_ s)) = n_threads_ s) as Hlen
    by (apply Hinv; [unfold stopping; by rewrite Hb|intros Heq; by rewrite Heq in Hb]).
  pose proof (lookup_lt_Some _ _ _ Hi) as Hlt.
  destruct (run_step (i + 1) (n_threads_ s) j m r out s) as [r' s1] eqn:Hrun.
  pose proof (run_frame (i + 1) (n_threads_ s) j m r out s) as Hfr. rewrite Hrun in Hfr. cbn in Hfr.
  destruct Hfr as (Fn&Fp&Fsh&Fj&Ft&Fc&Fw&Ftodo&Fcur&Fh).
  set (wk' := mk_worker _ _).
  assert (worker_status (phase_ s) wk' = after r') as Hst
    by (destruct r'; [done|]; unfold worker_status, wk'; cbn; by rewrite Hmy, Nat.eqb_refl).
  assert (∀ j' m', active s j' m' → active (set_worker i wk' s1) j' m') as Hact.
  { intros j' m' (Hs&Hj'&Hm'&Hc). unfold active, serving in *. cbn. rewrite Fn, Fcur, Fj, Ft. split_and!; [tauto..|].
    rewrite statuses_worker. assert (statuses s1 = statuses s) as -> by (unfold statuses; by rewrite Fc, Fp, Fw).
    rewrite Fp, Hst. assert (j' = j) as -> by congruence. assert (m' = m) as -> by congruence.
    pose proof (core_run (n_threads_ s) j m (statuses s) s (S i) r out) as Hcr.
    rewrite Nat.add_1_r in Hrun. rewrite Hrun in Hcr. apply Hcr; [tauto|apply Hinv|lia|done|].
    rewrite (status_lookup s i wk Hi). unfold worker_status. by rewrite Hpc. }
  destruct Hinv. constructor; cbn; rewrite ?Fn, ?Fp, ?Fsh, ?Fc, ?Ftodo, ?Fh; try done.
  - by rewrite Fw, length_insert.
  - intros _. apply i_shutdown0. intros Hnil. by rewrite Hnil in Hi.
  - intros i' wk0. cbn. rewrite Fw, Fc, Fp, Fj, Ft. destruct (decide (i' = i)) as [->|Hne].
    + rewrite list_lookup_insert_eq by done. intros [= <-]. rewrite Hb. cbn. destruct r'; cbn; auto.
    + rewrite list_lookup_insert_ne by done. apply i_workers0.
  - unfold caller_ok in *. cbn [caller set_worker]. rewrite Fc. destruct (caller s); try done; naive_solver.
Qed.

Lemma worker_inv s i out s' : inv s → worker_step i out s = Some s' → inv s'.
Proof.
  intros Hinv Hstep. unfold worker_step in Hstep. destruct (workers_ s !! i) as [wk|] eqn:Hi; [|done].
  pose proof (i_workers s Hinv i wk Hi) as Hok. 
  assert (shutdown_ s = stopping (caller s)) as Hsh by (apply Hinv; intros Hnil; by rewrite Hnil in Hi). unfold stopping in Hsh.
  destruct wk as [pc my]. cbn [w_pc my_phase] in Hstep.
  assert (∀ pc', worker_ok (mode_of (caller s)) (phase_ s) (current_job_ s) (current_n_tasks_ s) (mk_worker pc' my) →
    worker_status (phase_ s) (mk_worker pc' my) = worker_status (phase_ s) (mk_worker pc my) →
    inv (set_worker i (mk_worker pc' my) s)) as Hgo.
  { intros pc' Hok' Hst. eapply inv_worker; [done..|]. intros. by eapply active_same. }
  destruct pc as [cur| | | |cur| |j|j m r|]; try done.
  - destruct (Nat.eqb_spec cur my) as [->|Hne]; cbn [andb] in Hstep.
    + destruct (shutdown_ s) eqn:Hs; injection Hstep as <-; apply Hgo; try done; cbn in *;
        destruct (mode_of (caller s)); cbn in *; naive_solver.
    + injection Hstep as <-; apply Hgo; try done; cbn in *; destruct (mode_of (caller s)); cbn in *; naive_solver.
  - destruct (Nat.eqb_spec (phase_ s) my) as [Heq|Hne]; injection Hstep as <-; apply Hgo; try done; cbn in *;
      destruct (mode_of (caller s)) as [|b|[] b]; cbn in *; try naive_solver.
    destruct Hok as [Hb _]. apply behind_ne in Hb. cbn in Hb. congruence.
  - injection Hstep as <-; apply Hgo; try done; cbn in *; destruct (mode_of (caller s)); cbn in *; naive_solver.
  - destruct (shutdown_ s) eqn:Hs.
    + injection Hstep as <-. apply Hgo; try done. cbn in *. destruct (mode_of (caller s)); done.
    + injection Hstep as <-. unfold worker_ok in Hok. destruct (mode_of (caller s)) as [|b|] eqn:Hmd; [naive_solver| |done].
      cbn in Hok. destruct Hok as [Hb ->]. eapply inv_worker; [done..|by rewrite Hmd|].
      intros j m (H1&H2&H3&H4). split_and!; [done..|]. rewrite statuses_worker, list_insert_id; [done|].
      rewrite (status_lookup s i _ Hi). unfold worker_status. cbn. apply behind_ne in Hb. cbn in Hb.
      by rewrite (proj2 (Nat.eqb_neq _ _) Hb).
  - destruct (current_job_ s) as [j|] eqn:Hj; [|done]. injection Hstep as <-. apply Hgo; [|done]. cbn in *.
    destruct (mode_of (caller s)); cbn in *; naive_solver.
  - injection Hstep as <-. unfold worker_ok in Hok. destruct (mode_of (caller s)) as [|b|] eqn:Hmd; [naive_solver| |naive_solver].
    cbn in Hok. eapply inv_worker; [done..|rewrite Hmd; cbn; naive_solver|].
    intros j0 m0 (H1&H2&H3&H4). split_and!; [done..|]. rewrite statuses_worker. unfold worker_status at 1. cbn [w_pc].
    rewrite Nat.add_1_r. apply core_start; [done|]. by rewrite (status_lookup s i _ Hi).
  - pose proof (worker_run_inv s i _ j m r out Hinv Hi eq_refl) as Hr.
    destruct (run_step _ _ _ _ _ _ _) as [r' s1]. injection Hstep as <-. exact Hr.
Qed.

Lemma spurious_inv s i s' : inv s → spurious i s = Some s' → inv s'.
Proof.
  intros Hinv Hstep. unfold spurious in Hstep. destruct (workers_ s !! i) as [[pc my]|] eqn:Hi; [|done].
  destruct pc; try done. injection Hstep as <-. pose proof (i_workers s Hinv i _ Hi) as Hok.
  eapply inv_worker; [done..| |intros; by eapply active_same]. cbn in *. destruct (mode_of (caller s)); cbn in *; naive_solver.
Qed.

(** ** The end of a phase *)

Lemma phase_result s j m :
  active s j m → remaining_workers_ s = 0 →
  phase_spec (n_threads_ s) j m (calls s) (if phase_error_seen_ s then phase_error_ s else None).
Proof.
  intros (_&_&_&[Hl Ht Hf Hj He Hs Hr]) Hz. rewrite Hz in Hr. symmetry in Hr.
  assert (∀ w, w < n_threads_ s → statuses s !! w = Some Done) as Hdone.
  { intros w Hw. destruct (lookup_lt_is_Some_2 (statuses s) w) as [st Hst]; [lia|]. by rewrite Hst, (count_zero _ _ _ Hr Hst). }
  constructor; [done| | |].
  - intros w Hw. apply (Ht w Done). by apply Hdone.
  - split.
    + intros Hres c Hc. destruct (c_out c) as [e|] eqn:Hout; [|done]. exfalso. rewrite Forall_forall in Hj.
      destruct (Hj c Hc) as [_ Hw].
      assert (phase_error_seen_ s = true) as Hseen.
      { apply (Hf _ _ (Hdone _ Hw) (c_task c) e). apply list_elem_of_fmap. exists c. rewrite Hout. split; [done|].
        by apply list_elem_of_filter. }
      rewrite Hseen in Hres. destruct (Hs Hseen). congruence.
    + intros Hnone. destruct (phase_error_seen_ s); [|done]. destruct (phase_error_ s) as [e|] eqn:Herr; [|done].
      destruct (He e eq_refl) as (c&Hc&Hout). rewrite Hnone in Hout by done. done.
  - intros e. destruct (phase_error_seen_ s); [|done]. apply He.
Qed.

(** All workers are back in their waiting loop. *)
Lemma joined_quiet s i wk j m b :
  inv s → active s j m → remaining_workers_ s = 0 → mode_of (caller s) = Published b → workers_ s !! i = Some wk →
  worker_ok Quiet (phase_ s) (current_job_ s) (current_n_tasks_ s) wk.
Proof.
  intros Hinv (_&_&_&Hc) Hz Hb Hi. pose proof (i_workers s Hinv i wk Hi) as Hok. rewrite Hb in Hok.
  pose proof (co_remaining _ _ _ _ _ _ _ _ Hc) as Hr. rewrite Hz in Hr. symmetry in Hr.
  pose proof (count_zero _ _ _ Hr (status_lookup s i wk Hi)) as Hd. pose proof (behind_ne (phase_ s) wk) as Hne.
  destruct wk as [pc my]. unfold worker_status in Hd. cbn in *.
  destruct pc; try done; destruct (Nat.eqb_spec my (phase_ s)); naive_solver.
Qed.

(** ** The caller *)

(** A caller step among the quiet states. *)
Lemma inv_quiet s s' :
  inv s → mode_of (caller s) = Quiet → mode_of (caller s') = Quiet → caller s ≠ CShutdown →
  n_threads_ s' = n_threads_ s → phase_ s' = phase_ s → shutdown_ s' = shutdown_ s → workers_ s' = workers_ s →
  caller_ok s' → Forall (req_fits (n_threads_ s)) (todo s') → Forall (entry_ok (n_threads_ s)) (history s') → inv s'.
Proof.
  intros [] Hq Hq' Hns Hn Hp Hs Hw Hc Ht Hh. constructor; rewrite ?Hn, ?Hp, ?Hs, ?Hw; try done.
  - intros _ _. apply i_len0; [unfold stopping; by rewrite Hq|done].
  - intros Hne. rewrite i_shutdown0 by done. unfold stopping. by rewrite Hq, Hq'.
  - intros i wk. rewrite Hw, Hq', Hp. intros Hi. specialize (i_workers0 i wk Hi). rewrite Hq in i_workers0. exact i_workers0.
Qed.

(** A caller step inside a published phase. *)
Lemma inv_published s c :
  inv s → mode_of (caller s) = Published false → mode_of c = Published false → caller_ok (set_caller c s) → inv (set_caller c s).
Proof.
  intros [] Hq Hq' Hc. constructor; cbn; try done.
  - intros _ _. apply i_len0; [unfold stopping; by rewrite Hq|intros Heq; by rewrite Heq in Hq].
  - intros Hne. rewrite i_shutdown0 by done. unfold stopping. by rewrite Hq, Hq'.
  - intros i wk Hi. cbn in *. rewrite Hq'. rewrite <-Hq. exact (i_workers0 i wk Hi).
Qed.

Lemma active_caller s c j m :
  active s j m → caller_status c = caller_status (caller s) → active (set_caller c s) j m.
Proof. intros (?&?&?&Hc) Hst. split_and!; [done..|]. unfold statuses. cbn. by rewrite Hst. Qed.

Lemma finish_inv s j m b result :
  inv s → active s j m → remaining_workers_ s = 0 → mode_of (caller s) = Published b →
  result = (if phase_error_seen_ s then phase_error_ s else None) → inv (finish result CIdle s).
Proof.
  intros Hinv Hact Hz Hb ->. pose proof (joined_quiet s) as Hq. pose proof Hinv as [].
  constructor; cbn; try done.
  - intros _ _. apply i_len0; [unfold stopping; by rewrite Hb|intros Heq; by rewrite Heq in Hb].
  - intros Hne. rewrite i_shutdown0 by done. unfold stopping. by rewrite Hb.
  - intros i wk Hi. exact (Hq i wk j m b Hinv Hact Hz Hb Hi).
  - apply Forall_app. split; [done|]. apply Forall_singleton. destruct (proj1 Hact) as (Hj&Hm&_). unfold entry_ok. cbn [fst snd].
    rewrite Hj, Hm. by apply phase_result.
Qed.
End steps.
