(* ===== verification/ThreadPoolCaller.v ===== *)
(** * The owner's transitions preserve the invariant of the thread pool *)

From S2P Require Import Prelude ThreadPool ThreadPoolInv.

Open Scope nat_scope.

Section caller.
Context {J E : Type}.
Implicit Types (s : pool J E) (cs : list (call J E)) (w m n t p : nat) (wk : worker J E).

(** ** Requests that need no phase *)

Lemma empty_phase n (j : J) : phase_spec n j 0 ([] : list (call J E)) None.
Proof.
  constructor; [done| |split; [by intros _ c ?%not_elem_of_nil|done]|done].
  intros w _. left. exists w. split; [apply ok_upto_start|lia].
Qed.

Lemma inline_phase (j : J) m cs t result :
  Forall (λ c, c_job c = j ∧ c_worker c < 1) cs →
  (result = None ∧ ok_upto 1 m 0 t (tasks_of 0 cs) ∧ m ≤ t) ∨ (∃ e, result = Some e ∧ throws 1 m 0 e (tasks_of 0 cs)) →
  phase_spec 1 j m cs result.
Proof.
  intros Hj Hres.
  assert (∀ c, c ∈ cs → (c_task c, c_out c) ∈ tasks_of 0 cs) as Hin.
  { intros c Hc. apply list_elem_of_fmap. exists c. split; [done|]. apply list_elem_of_filter. split; [|done].
    rewrite Forall_forall in Hj. destruct (Hj c Hc). lia. }
  constructor; [done| | |].
  - intros w Hw. assert (w = 0) as -> by lia. destruct Hres as [(_&?&?)|(e&_&?)]; [left|right]; eauto.
  - destruct Hres as [(->&Hok&_)|(e&->&(x&l&_&_&Hl))]; (split; [|try done]).
    + intros _ c Hc. apply Hin in Hc. destruct (c_out c); [by eapply ok_upto_no_error in Hc|done].
    + done.
    + intros Hn. exfalso. assert ((x, Some e) ∈ tasks_of 0 cs) as (c&[= _ He]&[_ Hc]%list_elem_of_filter)%list_elem_of_fmap by (rewrite Hl; set_solver).
      rewrite Hn in He by done. done.
  - intros e He. destruct Hres as [(->&_)|(e'&->&(x&l&_&_&Hl))]; [done|]. injection He as ->.
    assert ((x, Some e) ∈ tasks_of 0 cs) as (c&[= _ He]&[_ Hc]%list_elem_of_filter)%list_elem_of_fmap by (rewrite Hl; set_solver). eauto.
Qed.

Lemma serve_inv s r rest :
  inv s → caller s = CIdle → todo s = r :: rest → inv (serve r (begin r rest s)).
Proof.
  intros Hinv Hc Ht. pose proof (i_caller s Hinv) as Hcalls. unfold caller_ok in Hcalls. rewrite Hc in Hcalls.
  pose proof (i_todo s Hinv) as Htodo. rewrite Ht in Htodo. apply Forall_cons in Htodo as [Hfit Hrest].
  pose proof (i_n s Hinv) as [Hn _]. pose proof (i_history s Hinv) as Hh.
  assert (∀ s', mode_of (caller s') = Quiet → n_threads_ s' = n_threads_ s → phase_ s' = phase_ s → shutdown_ s' = shutdown_ s →
    workers_ s' = workers_ s → caller_ok s' → todo s' = rest → Forall (entry_ok (n_threads_ s)) (history s') → inv s') as Hq.
  { intros s' Hq Hn' Hp' Hs' Hw' Hc' Ht' Hh'. apply (inv_quiet s); try done; rewrite ?Hc, ?Ht'; done. }
  destruct r as [j m|j|]; cbn [serve].
  - destruct (Nat.eqb_spec m 0) as [->|Hm].
    + apply Hq; try done. cbn. apply Forall_app. split; [done|]. apply Forall_singleton. rewrite Hcalls. apply empty_phase.
    + cbn [n_threads_ begin]. destruct (Nat.leb_spec (n_threads_ s) 1).
      * apply Hq; try done. unfold caller_ok, inline, serving. cbn. rewrite Hcalls. split_and!; [done..|lia|done|apply ok_upto_start].
      * apply Hq; try done. unfold caller_ok, reset, serving. cbn. rewrite Hcalls. split_and!; (done || lia).
  - cbn [n_threads_ begin]. destruct (Nat.leb_spec (n_threads_ s) 1).
    + apply Hq; try done. unfold req_fits in Hfit. cbn in Hfit. assert (n_threads_ s = 1) as Hone by lia.
      unfold caller_ok, inline, serving. cbn. rewrite Hcalls, Hone in *. split_and!; [done..|apply ok_upto_start].
    + apply Hq; try done. unfold caller_ok, reset, serving. cbn. rewrite Hcalls. split_and!; (done || lia).
  - cbn [workers_ begin]. destruct (Nat.eqb_spec (length (workers_ s)) 0) as [H0|H0].
    + apply nil_length_inv in H0. pose proof Hinv as []. constructor; cbn; try done.
      * intros i wk Hi. cbn in Hi. by rewrite H0 in Hi.
      * apply Forall_app. split; [done|]. apply Forall_singleton. rewrite Hcalls. done.
    + by apply Hq.
Qed.

(** The single-threaded loop. *)
Lemma inline_inv s out s' :
  inv s → (∃ j m t, caller s = CInline j m t ∨ caller s = CInlineCall j m t) → caller_step out s = Some s' → inv s'.
Proof.
  intros Hinv (j&m&t&[Hc|Hc]) Hstep; unfold caller_step in Hstep; rewrite Hc in Hstep;
    pose proof (i_caller s Hinv) as Hi; unfold caller_ok in Hi; rewrite Hc in Hi.
  - destruct Hi as ((Hj&Hm&Hz)&Hn&Hjobs&Hok). destruct (Nat.ltb_spec t m); injection Hstep as <-.
    + apply (inv_quiet s); try done; rewrite ?Hc; try done; apply Hinv.
    + apply (inv_quiet s); try done; rewrite ?Hc; try done; [apply Hinv|]. cbn. apply Forall_app. split; [apply Hinv|].
      apply Forall_singleton. unfold entry_ok. cbn. rewrite Hj, Hm, Hn. apply (inline_phase j m _ t); [done|]. left. done.
  - destruct Hi as [((Hj&Hm&Hz)&Hn&Hjobs&Hok) Hlt].
    assert (Forall (λ c, c_job c = j ∧ c_worker c < 1) (calls s ++ [mk_call j t 0 out])) as Hjobs'
      by (apply Forall_app; split; [done|]; apply Forall_singleton; cbn; split; [done|lia]).
    destruct out as [e|]; injection Hstep as <-.
    + apply (inv_quiet s); try done; rewrite ?Hc; try done; [apply Hinv|]. cbn. apply Forall_app. split; [apply Hinv|].
      apply Forall_singleton. unfold entry_ok. cbn. rewrite Hj, Hm, Hn. apply (inline_phase j m _ t); [done|]. right.
      exists e. split; [done|]. rewrite tasks_of_snoc, decide_True by done. by exists t, (tasks_of 0 (calls s)).
    + apply (inv_quiet s); try done; rewrite ?Hc; try done; [|apply Hinv..]. unfold caller_ok, inline, serving. cbn [caller set_caller].
      split_and!; [done..|]. cbn [calls set_caller log_call]. rewrite tasks_of_snoc, decide_True by done.
      rewrite Hn in Hz. rewrite (wrap_small 64) by lia. by apply ok_upto_step.
Qed.

(** ** Phases *)

Lemma quiet_behind p (j j' : option J) m m' wk :
  worker_ok Quiet p j m wk → (Z.of_nat p < 2 ^ 64)%Z →
  worker_ok (Published true) (u64 (p + 1)) j' m' wk ∧ worker_status (u64 (p + 1)) wk = Pending ∧ behind (u64 (p + 1)) wk.
Proof.
  intros [<- Hpc] Hp. assert (behind (u64 (my_phase wk + 1)) wk) as Hb by done. pose proof (behind_ne _ _ Hb) as Hne.
  split_and!; [| |done]; unfold worker_ok, worker_status; destruct (w_pc wk); try done; rewrite ?(proj2 (Nat.eqb_neq _ _) Hne); auto.
Qed.

Lemma publish_inv s j m :
  inv s → caller s = CPublish j m → inv (set_caller (CNotify j m) (set_phase (u64 (phase_ s + 1)) s)).
Proof.
  intros Hinv Hc. pose proof Hinv as []. unfold workers_ok, caller_ok in *. rewrite Hc in *.
  assert (∀ i wk, workers_ s !! i = Some wk → worker_status (u64 (phase_ s + 1)) wk = Pending) as Hpend.
  { intros i wk Hi. by apply (quiet_behind (phase_ s) (current_job_ s) None (current_n_tasks_ s) 0); [apply (i_workers i)|]. }
  constructor; cbn; try done.
  - by apply wrap_lt.
  - intros _ _. by apply i_len.
  - intros i wk Hi. cbn in *. by apply (quiet_behind _ (current_job_ s) _ (current_n_tasks_ s) _ wk (i_workers i wk Hi)).
  - destruct i_caller as (Hs&Hcs&He&Hse&Hj&Hm&Hr). unfold caller_ok, active. cbn [caller set_caller].
    split_and!; [done|by apply Hj; lia|by apply Hm; lia|]. cbn. rewrite Hcs, He, Hse, Hr by lia.
    assert (statuses (set_caller (CNotify j m) (set_phase (u64 (phase_ s + 1)) s)) = replicate (n_threads_ s) Pending) as ->; [|apply core_init].
    unfold statuses. cbn. rewrite <-i_len by done. cbn. f_equal. apply list_eq_same_length with (length (workers_ s));
      [by rewrite length_replicate|by rewrite length_fmap|]. intros i x y Hi Hx Hy.
    rewrite list_lookup_fmap in Hx. destruct (workers_ s !! i) as [wk|] eqn:Hwk; [|done]. injection Hx as <-.
    rewrite (Hpend i wk Hwk). apply lookup_replicate in Hy as [-> _]. done.
Qed.

Lemma notify_my_phase wk : my_phase (notify_worker wk) = my_phase wk.
Proof. destruct wk as [[] ?]; done. Qed.
Lemma notify_status p wk : worker_status p (notify_worker wk) = worker_status p wk.
Proof. destruct wk as [[] ?]; done. Qed.
Lemma notify_ok p (j : option J) m wk b :
  worker_ok (Published b) p j m wk → worker_ok (Published false) p j m (notify_worker wk).
Proof. destruct wk as [[] my]; cbn; tauto. Qed.

Lemma notify_inv s j m :
  inv s → caller s = CNotify j m → inv (set_caller (CRun j m (RLoop 0)) (notify_all s)).
Proof.
  intros Hinv Hc. pose proof Hinv as []. unfold workers_ok, caller_ok in *. rewrite Hc in *.
  constructor; cbn; try done.
  - intros _ _. rewrite length_fmap. by apply i_len.
  - intros Hne. rewrite i_shutdown; [done|]. intros Hnil. by rewrite Hnil in Hne.
  - intros i wk. cbn. rewrite list_lookup_fmap. destruct (workers_ s !! i) as [wk0|] eqn:Hi; [|done]. intros [= <-].
    apply (notify_ok _ _ _ _ true). exact (i_workers i wk0 Hi).
  - destruct i_caller as (Hs&Hj&Hm&Hcore). unfold caller_ok, active. cbn [caller set_caller]. split_and!; [done..|].
    assert (statuses (set_caller (CRun j m (RLoop 0)) (notify_all s)) = <[0 := Running (RLoop 0)]> (statuses s)) as ->.
    { unfold statuses. cbn. f_equal. rewrite <-list_fmap_compose. apply list_fmap_ext. intros i wk _. cbn. apply notify_status. }
    apply core_start; [done|]. unfold statuses. by rewrite Hc.
Qed.

Lemma caller_run_inv s j m r out :
  inv s → caller s = CRun j m r →
  let '(r', s1) := run_step 0 (n_threads_ s) j m r out s in
  inv (set_caller (match r' with Some r' => CRun j m r' | None => CWait 0 end) s1).
Proof.
  intros Hinv Hc. pose proof Hinv as []. unfold workers_ok, caller_ok in *. rewrite Hc in *.
  destruct (run_step 0 (n_threads_ s) j m r out s) as [r' s1] eqn:Hrun.
  pose proof (run_frame 0 (n_threads_ s) j m r out s) as Hfr. rewrite Hrun in Hfr. cbn in Hfr.
  destruct Hfr as (Fn&Fp&Fsh&Fj&Ft&Fc&Fw&Ftodo&Fcur&Fh).
  set (c := match r' with Some r' => CRun j m r' | None => CWait 0 end).
  assert (active (set_caller c s1) j m) as Hact.
  { destruct i_caller as (Hs&Hj&Hm&Hcore). unfold active, serving in *. cbn. rewrite Fn, Fcur, Fj, Ft. split_and!; [tauto..|].
    assert (statuses (set_caller c s1) = <[0 := after r']> (statuses s)) as ->.
    { unfold statuses. cbn. rewrite Fp, Fw. f_equal. by destruct r'. }
    pose proof (core_run (n_threads_ s) j m (statuses s) s 0 r out) as Hcr. rewrite Hrun in Hcr.
    apply Hcr; [tauto|tauto|lia|done|]. unfold statuses. by rewrite Hc. }
  assert (mode_of c = Published false) as Hmode by (unfold c; by destruct r').
  constructor; cbn; rewrite ?Fn, ?Fp, ?Fsh, ?Ftodo, ?Fh; try done.
  - intros _ _. rewrite Fw. by apply i_len.
  - rewrite Fw. unfold stopping. rewrite Hmode. done.
  - intros i wk. cbn. rewrite Fw, Fp, Fj, Ft, Hmode. apply i_workers.
  - unfold caller_ok. cbn [caller set_caller]. unfold c in *. destruct r'; [done|eauto].
Qed.

(** ** Shutdown *)

Lemma shutdown_inv s : inv s → caller s = CShutdown → inv (set_caller CStopPublish (set_shutdown s)).
Proof.
  intros [] Hc. unfold workers_ok, caller_ok in *. rewrite Hc in *. constructor; cbn; try done.
  intros i wk Hi. cbn in *. destruct (i_workers i wk Hi) as [-> Hpc]. split; [done|]. destruct (w_pc wk); done.
Qed.
Lemma stop_publish_inv s :
  inv s → caller s = CStopPublish → inv (set_caller CStopNotify (set_phase (u64 (phase_ s + 1)) s)).
Proof.
  intros [] Hc. unfold workers_ok, caller_ok in *. rewrite Hc in *. constructor; cbn; try done; [by apply wrap_lt|].
  intros i wk Hi. cbn in *. destruct (i_workers i wk Hi) as [Hmy Hpc]. split; [split; [by rewrite Hmy|lia]|]. destruct (w_pc wk); auto.
Qed.
Lemma stop_notify_inv s : inv s → caller s = CStopNotify → inv (set_caller (CJoin 0) (notify_all s)).
Proof.
  intros [] Hc. unfold workers_ok, caller_ok in *. rewrite Hc in *. constructor; cbn; try done.
  - intros Hne. apply i_shutdown. intros Hnil. by rewrite Hnil in Hne.
  - intros i wk. cbn. rewrite list_lookup_fmap. destruct (workers_ s !! i) as [wk0|] eqn:Hi; [|done]. intros [= <-].
    pose proof (i_workers i wk0 Hi) as Hok. destruct wk0 as [[] my]; cbn in *; tauto.
Qed.
Lemma stopped_inv s c :
  inv s → (∃ k, caller s = CJoin k) → caller_ok (set_caller c s) → mode_of c = Stopping true false → inv (set_caller c s).
Proof.
  intros [] [k Hc] Hok Hm. unfold workers_ok, caller_ok in *. rewrite Hc in *. constructor; cbn; try done.
  - unfold stopping. by rewrite Hm.
  - unfold stopping. rewrite Hm. done.
  - intros i wk Hi. cbn in *. rewrite Hm. by apply (i_workers i).
Qed.

(** A write of [run_phase] before the phase is published. *)
Ltac reset_step Hstep :=
  injection Hstep as <-;
  match goal with Hc : caller ?s = _ |- _ => apply (inv_quiet s); rewrite ?Hc end; try done;
  unfold caller_ok, reset, serving in *; cbn; naive_solver lia.

Lemma caller_inv s out s' : inv s → caller_step out s = Some s' → inv s'.
Proof.
  intros Hinv Hstep. pose proof Hinv as [_ _ _ _ _ Hc Ht Hh]. unfold caller_ok in Hc.
  pose proof (inline_inv s out s' Hinv) as Hinl. unfold caller_step in Hstep, Hinl.
  destruct (caller s) as [|j m t|j m t|j m|j m|j m|j m|j m|j m|j m|j m r|spins| | | | | |k|] eqn:Hcal.
  - destruct (todo s) as [|r rest] eqn:Htodo; [done|]. injection Hstep as <-. by apply serve_inv.
  - apply Hinl; eauto 10.
  - apply Hinl; eauto 10.
  - reset_step Hstep.
  - reset_step Hstep.
  - reset_step Hstep.
  - reset_step Hstep.
  - reset_step Hstep.
  - injection Hstep as <-. by apply publish_inv.
  - injection Hstep as <-. by apply notify_inv.
  - pose proof (caller_run_inv s j m r out Hinv Hcal) as Hr. destruct (run_step _ _ _ _ _ _ _) as [r' s1]. injection Hstep as <-. exact Hr.
  - destruct Hc as (j&m&Hact). destruct (Nat.ltb_spec 0 (remaining_workers_ s)); injection Hstep as <-.
    + apply inv_published; [done|by rewrite Hcal|done|]. exists j, m. apply active_caller; [done|by rewrite Hcal].
    + apply inv_published; [done|by rewrite Hcal|done|]. split; [|cbn; lia]. exists j, m. apply active_caller; [done|by rewrite Hcal].
  - destruct Hc as ((j&m&Hact)&Hz). destruct (phase_error_seen_ s) eqn:Hs; injection Hstep as <-.
    + apply inv_published; [done|by rewrite Hcal|done|]. split; [|done]. exists j, m. apply active_caller; [done|by rewrite Hcal].
    + eapply (finish_inv s j m false); [done|done|done|by rewrite Hcal|by rewrite Hs].
  - destruct Hc as ((j&m&Hact)&Hz&Hs). injection Hstep as <-.
    eapply (finish_inv s j m false); [done|done|done|by rewrite Hcal|by rewrite Hs].
  - injection Hstep as <-. by apply shutdown_inv.
  - injection Hstep as <-. by apply stop_publish_inv.
  - injection Hstep as <-. by apply stop_notify_inv.
  - destruct (workers_ s !! k) as [wk|] eqn:Hk.
    + destruct (exited wk); [|done]. injection Hstep as <-. apply stopped_inv; [done|eauto|done|done].
    + injection Hstep as <-. destruct Hc as [Hcs Hcur].
      assert (inv (set_caller CDead s)) as [] by (apply stopped_inv; [done|eauto|done|done]).
      constructor; cbn in *; try done. apply Forall_app. split; [done|]. apply Forall_singleton. by rewrite Hcs, Hcur.
  - done.
Qed.

Lemma step_inv s a s' : inv s → step a s = Some s' → inv s'.
Proof. destruct a; cbn; [apply caller_inv|apply worker_inv|apply spurious_inv]. Qed.

Lemma run_inv acts s s' : inv s → run acts s = Some s' → inv s'.
Proof.
  revert s. induction acts as [|a acts IH]; intros s Hinv Hrun; cbn in Hrun; [by injection Hrun as <-|].
  destruct (step a s) as [s1|] eqn:Hs; [|done]. cbn in Hrun. eapply IH; [|done]. by eapply step_inv.
Qed.
End caller.
