(* ===== verification/ThreadPoolProps.v ===== *)
(** * What the thread pool guarantees to its owner *)

From S2P Require Import Prelude ThreadPool ThreadPoolInv ThreadPoolCaller.

Open Scope nat_scope.

(** ** Construction *)

Lemma start_workers_all spawn affinity w k a started :
  start_workers spawn affinity w k a = (started, None) → started = a + k.
Proof.
  revert w a. induction k as [|k IH]; intros w a; cbn; [intros [= <-]; lia|].
  destruct (spawn w); [done|]. destruct (affinity w); [|done|]; intros ->%IH; lia.
Qed.

Lemma resolve_pos hardware num mask policy : 1 ≤ resolve_threads hardware num mask policy.
Proof.
  unfold resolve_threads. destruct (num =? 0) eqn:E1, (hardware =? 0) eqn:E2; case_match; rewrite ?Nat.eqb_neq in *; lia.
Qed.

Section props.
Context {J E : Type}.
Implicit Types (s : pool J E) (cs : list (call J E)) (w m n t p : nat) (wk : worker J E) (reqs : list (request J)).

(** The environment of the constructor. *)
Context (hardware : nat) (cpu_setsize : Z) (spawn : nat → option exn) (setaffinity : nat → list Z → Z).

(** [s0] is what the constructor leaves for the requests [reqs]. *)
Definition constructed (num_threads : nat) (mask : list Z) (policy : AffinityPolicy) reqs s0 (e : option exn) : Prop :=
  construct hardware cpu_setsize spawn setaffinity num_threads mask policy reqs = Ok (s0, e) ∧
  (Z.of_nat (n_threads_ s0) < 2 ^ 64)%Z ∧ Forall (req_fits (n_threads_ s0)) reqs.

Lemma constructed_inv num mask policy reqs s0 e : constructed num mask policy reqs s0 e → inv s0.
Proof.
  intros (Hc&Hz&Hr). unfold construct in Hc. destruct (validate_affinity_mask _ _); try done. cbn [mbind res_bind] in Hc.
  pose proof (resolve_pos hardware num mask policy) as Hpos. set (n := resolve_threads _ _ _ _) in *.
  destruct (start_workers _ _ _ _ _) as [started [e'|]] eqn:Hst; injection Hc as <- <-; cbn in Hz, Hr.
  - by apply inv_failed.
  - apply start_workers_all in Hst as ->. by apply inv_init.
Qed.

(** ** Fork and join *)

(** A phase: every task of the request runs at most once, on its worker, with
    the request's callback; a thread runs its tasks in ascending order and
    stops at its first exception; the phase ends without an exception exactly
    if all tasks ran without one, otherwise with one of those thrown. *)
Record fork_join n (j : J) m cs (result : option E) : Prop := {
  fj_calls c : c ∈ cs → c_job c = j ∧ c_task c < m ∧ c_worker c = c_task c mod n;
  fj_once : NoDup (c_task <$> cs);
  fj_threads w : w < n → complete n m w (tasks_of w cs);
  fj_ok : result = None → c_task <$> cs ≡ₚ seq 0 m ∧ Forall (λ c, c_out c = None) cs;
  fj_error e : result = Some e → ∃ c, c ∈ cs ∧ c_out c = Some e
}.

Lemma elem_of_tasks w cs t out :
  (t, out) ∈ tasks_of w cs ↔ ∃ c, c ∈ cs ∧ c_worker c = w ∧ c_task c = t ∧ c_out c = out.
Proof.
  unfold tasks_of. rewrite list_elem_of_fmap. setoid_rewrite list_elem_of_filter. naive_solver.
Qed.

Lemma ok_upto_elem n m w t (l : list (nat * option E)) x out : ok_upto n m w t l → (x, out) ∈ l → ∃ k, x = w + k * n ∧ x < m.
Proof.
  intros (k&_&->&Hk) (i&[= -> ->]&Hi%elem_of_seq)%list_elem_of_fmap. exists i. split; [done|]. apply Hk. lia.
Qed.
Lemma complete_elem n m w (l : list (nat * option E)) x out : complete n m w l → (x, out) ∈ l → ∃ k, x = w + k * n ∧ x < m.
Proof.
  intros [(t&Hok&_)|(e&t&l'&Hok&Ht&->)] Hin; [by eapply ok_upto_elem|].
  apply elem_of_app in Hin as [Hin|Hin]; [by eapply ok_upto_elem|].
  apply list_elem_of_singleton in Hin as [= -> ->]. destruct Hok as (k&->&_). eauto.
Qed.

Lemma stride_nodup n m w t (l : list (nat * option E)) : 1 ≤ n → ok_upto n m w t l → NoDup l.*1 ∧ t ∉ l.*1.
Proof.
  intros Hn (k&->&->&_). unfold stride_prefix. rewrite <-list_fmap_compose. cbn. split.
  - apply NoDup_fmap_2_strong; [|apply NoDup_seq]. intros x y _ _. cbn. nia.
  - intros (i&Hi&Hs%elem_of_seq)%list_elem_of_fmap. cbn in Hi. nia.
Qed.
Lemma complete_nodup n m w (l : list (nat * option E)) : 1 ≤ n → complete n m w l → NoDup l.*1.
Proof.
  intros Hn [(t&Hok&_)|(e&t&l'&Hok&Ht&->)]; [by eapply stride_nodup|].
  destruct (stride_nodup n m w t l' Hn Hok) as [Hnd Hnot]. rewrite fmap_app. apply NoDup_app. split_and!; [done| |].
  - intros x Hx. cbn. rewrite list_elem_of_singleton. by intros ->.
  - cbn. apply NoDup_singleton.
Qed.

(** Tasks that determine their thread. *)
Lemma nodup_by_worker cs (f : nat → nat) :
  (∀ c, c ∈ cs → c_worker c = f (c_task c)) → (∀ w, NoDup (tasks_of w cs).*1) → NoDup (c_task <$> cs).
Proof.
  induction cs as [|c cs IH]; intros Hf Hnd; [constructor|]. cbn [fmap list_fmap]. constructor.
  - intros (c'&Ht&Hc')%list_elem_of_fmap. pose proof (Hnd (c_worker c)) as Hn. unfold tasks_of in Hn.
    rewrite filter_cons_True in Hn by done. cbn [fmap list_fmap fst] in Hn. apply NoDup_cons in Hn as [Hnot _]. apply Hnot.
    apply list_elem_of_fmap. exists (c_task c', c_out c'). split; [done|]. apply elem_of_tasks. exists c'. split_and!; try done.
    rewrite (Hf c'), (Hf c), Ht by set_solver. done.
  - apply IH; [intros; apply Hf; set_solver|]. intros w. specialize (Hnd w). unfold tasks_of in Hnd.
    destruct (decide (c_worker c = w)); [rewrite filter_cons_True in Hnd by done|by rewrite filter_cons_False in Hnd by done].
    cbn [fmap list_fmap] in Hnd. by apply NoDup_cons in Hnd as [_ ?].
Qed.

Lemma phase_fork_join n j m cs result : 1 ≤ n → phase_spec n j m cs result → fork_join n j m cs result.
Proof.
  intros Hn [Hj Ht Hres Herr].
  assert (∀ c, c ∈ cs → c_job c = j ∧ c_task c < m ∧ c_worker c = c_task c mod n) as Hcalls.
  { intros c Hc. rewrite Forall_forall in Hj. destruct (Hj c Hc) as [-> Hw].
    destruct (complete_elem n m (c_worker c) _ (c_task c) (c_out c) (Ht _ Hw)) as (k&Hk&Hm); [apply elem_of_tasks; eauto|].
    split_and!; [done|done|]. rewrite Hk, Nat.Div0.mod_add, Nat.mod_small; done. }
  assert (NoDup (c_task <$> cs)) as Hnd.
  { apply (nodup_by_worker cs (λ t, t mod n)); [intros c Hc; by apply Hcalls|]. intros w.
    destruct (decide (w < n)) as [Hw|Hw]; [by eapply complete_nodup, Ht|].
    destruct (tasks_of w cs) as [|[t o] l] eqn:Hl; [constructor|]. exfalso.
    assert ((t, o) ∈ tasks_of w cs) as (c&Hc&<-&_)%elem_of_tasks by (rewrite Hl; set_solver).
    rewrite Forall_forall in Hj. destruct (Hj c Hc). lia. }
  constructor; try done. intros Hnone. pose proof (proj1 Hres Hnone) as Hall. split; [|by apply Forall_forall].
  apply NoDup_Permutation; [done|apply NoDup_seq|]. intros t. rewrite elem_of_seq, list_elem_of_fmap. split.
  - intros (c&->&Hc). destruct (Hcalls c Hc) as (_&?&_). lia.
  - intros Hlt. assert (t mod n < n) as Hw by (apply Nat.mod_upper_bound; lia).
    destruct (Ht _ Hw) as [(x&(k&->&Hl&_)&Hge)|(e&x&l&_&_&Hl)].
    + assert ((t, None) ∈ tasks_of (t mod n) cs) as (c&Hc&_&<-&_)%elem_of_tasks; [|eauto].
      rewrite Hl. apply list_elem_of_fmap. exists (t / n). pose proof (Nat.div_mod_eq t n). rewrite elem_of_seq. split; [f_equal; lia|nia].
    + exfalso. assert ((x, Some e) ∈ tasks_of (t mod n) cs) as (c&Hc&_&_&Ho)%elem_of_tasks by (rewrite Hl; set_solver).
      rewrite (Hall c Hc) in Ho. done.
Qed.

(** ** Requests are served in order *)

Definition busy (c : caller_pc J E) : bool := match c with CIdle | CDead => false | _ => true end.
Definition agenda s : list (request J) :=
  ((λ h, h.1.1) <$> history s) ++ (if busy (caller s) then [current s] else []) ++ todo s.

Lemma worker_agenda i out s s' : worker_step i out s = Some s' → agenda s' = agenda s.
Proof.
  unfold worker_step. destruct (workers_ s !! i) as [wk|]; [|done].
  destruct (w_pc wk) as [| | | | | | |j m r|]; try (repeat case_match; by intros [= <-]).
  pose proof (run_frame (i + 1) (n_threads_ s) j m r out s) as Hfr. destruct (run_step _ _ _ _ _ _ _) as [r' s1]. intros [= <-].
  destruct Hfr as (_&_&_&_&_&Fc&_&Ft&Fcur&Fh). cbn in *. unfold agenda. cbn. by rewrite Fc, Ft, Fcur, Fh.
Qed.

Lemma caller_agenda out s s' : caller_step out s = Some s' → agenda s' = agenda s.
Proof.
  unfold caller_step. destruct (caller s) as [|j m t|j m t|j m|j m|j m|j m|j m|j m|j m|j m r|spins| | | | | |k|] eqn:Hc; try done.
  1: { destruct (todo s) as [|r rest] eqn:Ht; [done|]. intros [= <-]. unfold agenda. rewrite Hc, Ht. destruct r; cbn; repeat case_match;
         cbn; rewrite ?fmap_app, <-?app_assoc; done. }
  10: { pose proof (run_frame 0 (n_threads_ s) j m r out s) as Hfr. destruct (run_step _ _ _ _ _ _ _) as [r' s1]. intros [= <-].
       destruct Hfr as (_&_&_&_&_&Fc&_&Ft&Fcur&Fh). cbn in *. unfold agenda. cbn. rewrite Ft, Fcur, Fh, Hc. by destruct r'. }
  all: repeat case_match; intros [= <-]; unfold agenda; cbn; rewrite ?Hc, ?fmap_app, <-?app_assoc; done.
Qed.

Lemma step_agenda a s s' : step a s = Some s' → agenda s' = agenda s.
Proof.
  destruct a; cbn; [apply caller_agenda|apply worker_agenda|].
  unfold spurious. repeat case_match; intros [= <-]; done.
Qed.

Lemma run_agenda acts s s' : run acts s = Some s' → agenda s' = agenda s.
Proof.
  revert s. induction acts as [|a acts IH]; intros s Hrun; cbn in Hrun; [by injection Hrun as <-|].
  destruct (step a s) as [s1|] eqn:Hs; [|done]. cbn in Hrun. rewrite (IH s1 Hrun). by eapply step_agenda.
Qed.

Lemma step_n a s s' : step a s = Some s' → n_threads_ s' = n_threads_ s.
Proof.
  destruct a as [out|i out|i]; cbn.
  - unfold caller_step. destruct (caller s) as [| | | | | | | | | |j m r| | | | | | | |]; try (repeat case_match; by intros [= <-]).
    + destruct (todo s) as [|r rest]; [done|]. intros [= <-]. destruct r; cbn; repeat case_match; done.
    + pose proof (proj1 (run_frame 0 (n_threads_ s) j m r out s)) as Hn. destruct (run_step _ _ _ _ _ _ _). by intros [= <-].
  - unfold worker_step. destruct (workers_ s !! i) as [wk|]; [|done].
    destruct (w_pc wk) as [| | | | | | |j m r|]; try (repeat case_match; by intros [= <-]).
    pose proof (proj1 (run_frame (i + 1) (n_threads_ s) j m r out s)) as Hn. destruct (run_step _ _ _ _ _ _ _). by intros [= <-].
  - unfold spurious. repeat case_match; by intros [= <-].
Qed.
Lemma run_n acts s s' : run acts s = Some s' → n_threads_ s' = n_threads_ s.
Proof.
  revert s. induction acts as [|a acts IH]; intros s Hrun; cbn in Hrun; [by injection Hrun as <-|].
  destruct (step a s) as [s1|] eqn:Hs; [|done]. cbn in Hrun. rewrite (IH s1 Hrun). by eapply step_n.
Qed.

(** C6. Whatever the interleaving, the number of threads, the affinity mask
    and the behaviour of the callbacks: the pool serves its requests in order,
    and every finished [parallel_for] or [run_workers] is a fork-join phase: each
    of its tasks runs at most once, task [t] on worker [t mod n], none outside its
    phase; a worker runs its tasks in ascending order and skips the rest of them
    after one that throws.  When the call returns, every task ran exactly once and
    none threw; otherwise an exception that one of them threw is rethrown after
    the join. *)
Theorem thread_pool_fork_join num mask policy reqs s0 acts s :
  constructed num mask policy reqs s0 None → run acts s0 = Some s →
  ((λ h, h.1.1) <$> history s) `prefix_of` reqs ∧
  Forall (λ h, match h with
    | (ParallelFor j m, cs, result) => fork_join (n_threads_ s0) j m cs result
    | (RunWorkers j, cs, result) => fork_join (n_threads_ s0) j (n_threads_ s0) cs result
    | (Destroy, cs, result) => cs = [] ∧ result = None
    end) (history s).
Proof.
  intros Hcon Hrun. pose proof (constructed_inv _ _ _ _ _ _ Hcon) as Hinv0. pose proof (run_inv _ _ _ Hinv0 Hrun) as Hinv.
  pose proof (run_n _ _ _ Hrun) as Hn. split.
  - pose proof (run_agenda _ _ _ Hrun) as Hag. exists ((if busy (caller s) then [current s] else []) ++ todo s).
    transitivity (agenda s0); [|exact (eq_sym Hag)]. destruct Hcon as (Hc&_&_). unfold construct in Hc.
    destruct (validate_affinity_mask _ _); try done. cbn [mbind res_bind] in Hc.
    destruct (start_workers _ _ _ _ _) as [started [e'|]]; [done|]. by injection Hc as <-.
  - eapply Forall_impl; [apply Hinv|]. intros [[r cs] result] He. rewrite <-Hn. destruct (i_n s Hinv) as [Hpos _].
    destruct r as [j m|j|]; cbn in He; [by apply phase_fork_join..|done].
Qed.

(** C24. In every reachable state of the pool, also while a failed constructor
    cleans up: while the owner writes the work descriptor, the error slot, the
    counter or the phase, and while it is idle, every worker is in its waiting
    loop; a worker that reads or runs finds the descriptor of the request being
    served; and a thread about to decrement the counter finds it positive. *)
Theorem thread_pool_race_free num mask policy reqs s0 e acts s :
  constructed num mask policy reqs s0 e → run acts s0 = Some s →
  (mode_of (caller s) = Quiet → ∀ i wk, workers_ s !! i = Some wk →
    w_pc wk = WCheck (phase_ s) ∨ w_pc wk = WWait ∨ w_pc wk = WBlocked) ∧
  (∀ i wk, workers_ s !! i = Some wk → w_pc wk = WReadJob ∨ (∃ j, w_pc wk = WReadTasks j) ∨ (∃ j m r, w_pc wk = WRun j m r) →
    current_job_ s = req_job (current s) ∧ current_n_tasks_ s = req_tasks (n_threads_ s) (current s) ∧
    1 ≤ remaining_workers_ s ≤ n_threads_ s) ∧
  (∀ j m, caller s = CRun j m RSub → 1 ≤ remaining_workers_ s ≤ n_threads_ s).
Proof.
  intros Hcon Hrun. pose proof (run_inv _ _ _ (constructed_inv _ _ _ _ _ _ Hcon) Hrun) as Hinv. split_and!.
  - intros Hq i wk Hi. pose proof (i_workers s Hinv i wk Hi) as Hok. rewrite Hq in Hok. destruct Hok as [_ Hpc].
    destruct (w_pc wk); naive_solver.
  - intros i wk Hi Hpc. destruct (running_active s i wk Hinv Hi) as ((j&m&(Hj&Hm&_)&Hcj&Hcm&Hc)&Hrem&_); [naive_solver|].
    pose proof (co_remaining _ _ _ _ _ _ _ _ Hc). pose proof (co_length _ _ _ _ _ _ _ _ Hc). pose proof (count_le (statuses s)).
    split_and!; [congruence|congruence|lia|lia].
  - intros j m Hcal. pose proof (i_caller s Hinv) as Hc. unfold caller_ok in Hc. rewrite Hcal in Hc. destruct Hc as (_&_&_&Hc).
    pose proof (co_remaining _ _ _ _ _ _ _ _ Hc). pose proof (co_length _ _ _ _ _ _ _ _ Hc). pose proof (count_le (statuses s)).
    assert (statuses s !! 0 = Some (Running RSub)) as Hst by (unfold statuses; by rewrite Hcal).
    pose proof (count_pos _ _ _ Hst eq_refl). lia.
Qed.
End props.
