(* ===== verification/ThreadPoolLive.v ===== *)
(** * The thread pool makes progress

    A measure that every transition decreases, apart from the owner's polling
    of the counter and spurious wake-ups, and the states in which nothing else
    can move: no request is left, or the pool is destroyed.  The file ends with
    an execution that the properties of the pool apply to. *)

From S2P Require Import Prelude ThreadPool ThreadPoolInv ThreadPoolCaller ThreadPoolProps.

Open Scope nat_scope.

Section live.
Context {J E : Type}.
Implicit Types (s : pool J E) (w m n t p : nat) (wk : worker J E) (reqs : list (request J)).

(** ** The measure *)

Definition run_cost m (r : run_pc E) : nat :=
  match r with RLoop t => 2 * (m - t) + 4 | RCall t => 2 * (m - t) + 3 | RStore _ => 3 | RSeen => 2 | RSub => 1 end.

(** Transitions left to a worker, before and after shutdown. *)
Definition worker_cost (shutdown : bool) p m wk : nat :=
  if shutdown then
    match w_pc wk with WWait => 4 | WBlocked => 3 | WLoad => 3 | WCheck _ => 2 | WTest _ => 1 | _ => 0 end
  else
    match w_pc wk with
    | WCheck cur => if cur =? my_phase wk then (if my_phase wk =? p then 4 else 2 * m + 16) else 2 * m + 12
    | WWait => if my_phase wk =? p then 3 else 2 * m + 15
    | WBlocked => if my_phase wk =? p then 2 else 2 * m + 14
    | WLoad => 2 * m + 13
    | WTest _ => 2 * m + 11
    | WReadJob => 2 * m + 10
    | WReadTasks _ => 2 * m + 9
    | WRun _ m' r => run_cost m' r + 4
    | WExit => 0
    end.

Definition phase_cost (k m : nat) : nat := k * (2 * m + 18) + 2 * m + 20.
Definition req_cost n (k : nat) (r : request J) : nat :=
  match r with Destroy => 3 * k + 5 | _ => phase_cost k (req_tasks n r) end.

(** Transitions left to the owner, with [k] workers. *)
Definition caller_cost n (k : nat) (c : caller_pc J E) : nat :=
  match c with
  | CIdle | CDead => 0
  | CInline _ m t => 2 * (m - t) + 2
  | CInlineCall _ m t => 2 * (m - t) + 1
  | CClearError _ m => k * (2 * m + 18) + 2 * m + 19
  | CClearSeen _ m => k * (2 * m + 18) + 2 * m + 18
  | CSetJob _ m => k * (2 * m + 18) + 2 * m + 17
  | CSetTasks _ m => k * (2 * m + 18) + 2 * m + 16
  | CSetRemaining _ m => k * (2 * m + 18) + 2 * m + 15
  | CPublish _ m => k * (2 * m + 18) + 2 * m + 14
  | CNotify _ m => k + 2 * m + 12
  | CRun _ m r => run_cost m r + 4
  | CWait _ => 3
  | CRethrow => 2
  | CRethrowLocked => 1
  | CShutdown => 3 * k + 4
  | CStopPublish => 2 * k + 3
  | CStopNotify => 2 * k + 2
  | CJoin i => k - i + 1
  end.

Definition cost s : nat :=
  let k := length (workers_ s) in
  sum_list_with (req_cost (n_threads_ s) k) (todo s) + caller_cost (n_threads_ s) k (caller s) +
  sum_list_with (worker_cost (shutdown_ s) (phase_ s) (current_n_tasks_ s)) (workers_ s).

Lemma sum_insert {A} (f : A → nat) l i x y :
  l !! i = Some x → sum_list_with f (<[i := y]> l) + f x = sum_list_with f l + f y.
Proof.
  intros Hi. rewrite insert_take_drop by (by eapply lookup_lt_Some). rewrite <-(take_drop_middle l i x Hi) at 3.
  rewrite !sum_list_with_app. cbn. lia.
Qed.
Lemma sum_bound {A} (f g : A → nat) (h : A → A) l d :
  (∀ i x, l !! i = Some x → f (h x) ≤ g x + d) → sum_list_with f (h <$> l) ≤ sum_list_with g l + length l * d.
Proof.
  induction l as [|x l IH]; intros Hfg; [done|]. cbn. pose proof (Hfg 0 x eq_refl).
  assert (sum_list_with f (h <$> l) ≤ sum_list_with g l + length l * d) by (apply IH; intros i y Hi; by apply (Hfg (S i))). lia.
Qed.

Lemma run_cost_step w n j m r out s :
  1 ≤ n → (∀ t, r = RCall t → t < m ∧ (Z.of_nat (t + n) < 2 ^ 64)%Z) →
  match (run_step w n j m r out s).1 with Some r' => run_cost m r' < run_cost m r | None => run_cost m r = 1 end.
Proof.
  intros Hn Hr. destruct r as [t|t|e| |]; cbn [run_step fst].
  - destruct (Nat.ltb_spec t m); cbn; lia.
  - destruct (Hr t eq_refl) as [Ht Hz]. destruct out; cbn; [lia|]. rewrite (wrap_small 64) by lia. lia.
  - cbn. lia.
  - cbn. lia.
  - done.
Qed.

(** ** Workers *)

(** A running worker is inside its stride. *)
Lemma worker_call s i wk j m t :
  inv s → workers_ s !! i = Some wk → w_pc wk = WRun j m (RCall t) →
  t < m ∧ (Z.of_nat (t + n_threads_ s) < 2 ^ 64)%Z.
Proof.
  intros Hinv Hi Hpc. destruct (running_active s i wk Hinv Hi) as ((j'&m'&(_&_&Hz)&Hj&Hm&Hc)&_&(b&Hb)); [eauto 10|].
  pose proof (i_workers s Hinv i wk Hi) as Hok. rewrite Hb in Hok. cbn in Hok. rewrite Hpc in Hok. destruct Hok as (_&_&->).
  assert (statuses s !! S i = Some (Running (RCall t))) as Hst
    by (rewrite (status_lookup s i wk Hi); unfold worker_status; by rewrite Hpc).
  destruct (co_threads _ _ _ _ _ _ _ _ Hc _ _ Hst) as [_ Ht]. lia.
Qed.

Lemma worker_moves s i wk wk' :
  workers_ s !! i = Some wk →
  worker_cost (shutdown_ s) (phase_ s) (current_n_tasks_ s) wk' < worker_cost (shutdown_ s) (phase_ s) (current_n_tasks_ s) wk →
  cost (set_worker i wk' s) < cost s.
Proof.
  intros Hi Hlt. unfold cost. cbn. rewrite length_insert.
  pose proof (sum_insert (worker_cost (shutdown_ s) (phase_ s) (current_n_tasks_ s)) (workers_ s) i wk wk' Hi). lia.
Qed.

Lemma worker_decreases i out s s' : inv s → worker_step i out s = Some s' → cost s' < cost s.
Proof.
  intros Hinv Hstep. unfold worker_step in Hstep. destruct (workers_ s !! i) as [wk|] eqn:Hi; [|done].
  pose proof (i_workers s Hinv i wk Hi) as Hok. pose proof (worker_call s i wk) as Hcall.
  assert (shutdown_ s = stopping (caller s)) as Hsh by (apply Hinv; intros Hnil; by rewrite Hnil in Hi). unfold stopping in Hsh.
  pose proof (behind_ne (phase_ s) wk) as Hne. destruct wk as [pc my]. cbn [w_pc my_phase] in *.
  destruct pc as [cur| | | |cur| |j|j m r|]; try done.
  - destruct (Nat.eqb_spec cur my) as [->|Hcm]; cbn [andb] in Hstep.
    + destruct (shutdown_ s) eqn:Hs; injection Hstep as <-; eapply worker_moves; [done| |done|]; rewrite Hs; unfold worker_cost; cbn; [lia|].
      rewrite Nat.eqb_refl. destruct (my =? phase_ s); lia.
    + injection Hstep as <-. eapply worker_moves; [done|]. unfold worker_cost. cbn. rewrite (proj2 (Nat.eqb_neq cur my) Hcm).
      destruct (shutdown_ s); lia.
  - destruct (Nat.eqb_spec (phase_ s) my) as [Heq|Hpm]; injection Hstep as <-; (eapply worker_moves; [done|]); unfold worker_cost; cbn.
    + destruct (shutdown_ s); [lia|]. rewrite Heq, Nat.eqb_refl. lia.
    + destruct (shutdown_ s); [lia|]. rewrite (proj2 (Nat.eqb_neq my (phase_ s))) by lia. lia.
  - injection Hstep as <-. eapply worker_moves; [done|]. unfold worker_cost. cbn. destruct (shutdown_ s); [lia|].
    assert (phase_ s ≠ my) as Hpm by (destruct (mode_of (caller s)); cbn in Hok; naive_solver).
    rewrite (proj2 (Nat.eqb_neq _ _) Hpm). lia.
  - destruct (shutdown_ s) eqn:Hs; injection Hstep as <-; (eapply worker_moves; [done|]); rewrite Hs; unfold worker_cost; cbn; lia.
  - assert (shutdown_ s = false) as Hs by (destruct (mode_of (caller s)); cbn in *; naive_solver).
    destruct (current_job_ s); [|done]. injection Hstep as <-. eapply worker_moves; [done|]. rewrite Hs. unfold worker_cost; cbn; lia.
  - assert (shutdown_ s = false) as Hs by (destruct (mode_of (caller s)); cbn in *; naive_solver).
    injection Hstep as <-. eapply worker_moves; [done|]. rewrite Hs. unfold worker_cost; cbn; lia.
  - assert (shutdown_ s = false ∧ my = phase_ s) as [Hs Hmy] by (destruct (mode_of (caller s)); cbn in *; naive_solver).
    pose proof (run_cost_step (i + 1) (n_threads_ s) j m r out s) as Hrc. pose proof (run_frame (i + 1) (n_threads_ s) j m r out s) as Hfr.
    destruct (run_step _ _ _ _ _ _ _) as [r' s1]. injection Hstep as <-. destruct Hfr as (Fn&Fp&Fsh&Fj&Ft&Fc&Fw&Ftodo&_). cbn in *.
    assert (cost s1 = cost s) as <- by (unfold cost; by rewrite Fn, Fp, Fsh, Ft, Fc, Fw, Ftodo).
    eapply worker_moves; [by rewrite Fw|]. rewrite Fsh, Hs. unfold worker_cost. cbn.
    specialize (Hrc (proj1 (i_n s Hinv))). destruct r' as [r'|]; cbn.
    + assert (run_cost m r' < run_cost m r); [|lia]. apply Hrc. intros t ->. by apply (Hcall j m t).
    + rewrite Nat.eqb_refl, Fp, Hmy, Nat.eqb_refl. rewrite Hrc; [lia|]. intros t ->. by apply (Hcall j m t).
Qed.

(** ** The owner *)

(** The owner finds the counter above zero. *)
Definition polling s : bool := match caller s with CWait _ => 0 <? remaining_workers_ s | _ => false end.

Lemma caller_moves s c :
  caller_cost (n_threads_ s) (length (workers_ s)) c < caller_cost (n_threads_ s) (length (workers_ s)) (caller s) →
  cost (set_caller c s) < cost s.
Proof. unfold cost. cbn. lia. Qed.

Lemma quiet_cost p m wk :
  (match w_pc wk with WCheck cur => cur = p | WWait | WBlocked => True | _ => False end) → my_phase wk = p →
  2 ≤ worker_cost false p m wk ∧
  (∀ m', worker_cost false p m' wk = worker_cost false p m wk) ∧
  (∀ p', p' ≠ p → worker_cost false p' m wk ≤ worker_cost false p m wk + (2 * m + 16)) ∧
  worker_cost true p m wk ≤ worker_cost false p m wk + 1.
Proof.
  intros Hpc Hmy. unfold worker_cost. rewrite Hmy. destruct (w_pc wk); try done; subst; rewrite ?Nat.eqb_refl;
    (split_and!; [lia|done| |lia]); intros p' Hp'; rewrite (proj2 (Nat.eqb_neq _ p')) by lia; lia.
Qed.

Lemma quiet_workers s i wk :
  inv s → mode_of (caller s) = Quiet → workers_ s !! i = Some wk →
  (match w_pc wk with WCheck cur => cur = phase_ s | WWait | WBlocked => True | _ => False end) ∧ my_phase wk = phase_ s.
Proof. intros Hinv Hq Hi. pose proof (i_workers s Hinv i wk Hi) as Hok. rewrite Hq in Hok. destruct Hok. done. Qed.

Lemma notify_cost sh p m wk : worker_cost sh p m (notify_worker wk) ≤ worker_cost sh p m wk + 1.
Proof. destruct wk as [pc my]. destruct pc; cbn; unfold worker_cost; cbn; repeat case_match; lia. Qed.

Lemma sum_bound_id {A} (f g : A → nat) l d :
  (∀ i x, l !! i = Some x → f x ≤ g x + d) → sum_list_with f l ≤ sum_list_with g l + length l * d.
Proof. intros Hfg. pose proof (sum_bound f g id l d Hfg) as Hs. by rewrite list_fmap_id in Hs. Qed.

Lemma caller_call s j m t :
  inv s → caller s = CRun j m (RCall t) → t < m ∧ (Z.of_nat (t + n_threads_ s) < 2 ^ 64)%Z.
Proof.
  intros Hinv Hcal. pose proof (i_caller s Hinv) as Hc. unfold caller_ok in Hc. rewrite Hcal in Hc. destruct Hc as ((_&_&Hz)&_&_&Hc).
  assert (statuses s !! 0 = Some (Running (RCall t))) as Hst by (unfold statuses; by rewrite Hcal).
  destruct (co_threads _ _ _ _ _ _ _ _ Hc _ _ Hst) as [_ Ht]. lia.
Qed.

Lemma serve_decreases s r rest :
  inv s → caller s = CIdle → todo s = r :: rest → cost (serve r (begin r rest s)) < cost s.
Proof.
  intros Hinv Hc Ht. unfold cost. rewrite Hc, Ht. destruct r as [j m|j|]; unfold serve.
  - destruct (m =? 0); [cbn; unfold phase_cost; lia|]. destruct (_ <=? _); cbn; unfold phase_cost; lia.
  - pose proof (i_n s Hinv) as [Hn _]. destruct (Nat.leb_spec (n_threads_ (begin (RunWorkers j) rest s)) 1) as [H1|H1]; cbn in *; unfold phase_cost; nia.
  - destruct (_ =? 0); cbn; lia.
Qed.

Lemma publish_decreases s j m :
  inv s → caller s = CPublish j m → cost (set_caller (CNotify j m) (set_phase (u64 (phase_ s + 1)) s)) < cost s.
Proof.
  intros Hinv Hc. unfold cost. cbn. rewrite Hc. cbn.
  assert (workers_ s ≠ [] → shutdown_ s = false) as Hsh by (intros Hne; rewrite (i_shutdown s Hinv Hne), Hc; done).
  assert (current_n_tasks_ s = m) as <-.
  { pose proof (i_caller s Hinv) as Hok. unfold caller_ok in Hok. rewrite Hc in Hok. destruct Hok as (_&_&_&_&_&Hm&_). apply Hm. lia. }
  assert (sum_list_with (worker_cost (shutdown_ s) (u64 (phase_ s + 1)) (current_n_tasks_ s)) (workers_ s) ≤
    sum_list_with (worker_cost (shutdown_ s) (phase_ s) (current_n_tasks_ s)) (workers_ s) + length (workers_ s) * (2 * current_n_tasks_ s + 16)); [|nia].
  apply sum_bound_id. intros i wk Hi. rewrite Hsh by (intros Hnil; by rewrite Hnil in Hi).
  destruct (quiet_workers s i wk Hinv) as [H1 H2]; [by rewrite Hc|done|].
  apply (quiet_cost _ _ wk H1 H2). rewrite <-H2. intros Heq.
  apply (behind_ne (my_phase wk) wk); [|done]. split; [done|]. rewrite H2. apply Hinv.
Qed.

Lemma shutdown_decreases s : inv s → caller s = CShutdown → cost (set_caller CStopPublish (set_shutdown s)) < cost s.
Proof.
  intros Hinv Hc. unfold cost. cbn. rewrite Hc. cbn.
  assert (workers_ s ≠ [] → shutdown_ s = false) as Hsh by (intros Hne; rewrite (i_shutdown s Hinv Hne), Hc; done).
  assert (sum_list_with (worker_cost true (phase_ s) (current_n_tasks_ s)) (workers_ s) ≤
    sum_list_with (worker_cost (shutdown_ s) (phase_ s) (current_n_tasks_ s)) (workers_ s) + length (workers_ s) * 1); [|lia].
  apply sum_bound_id. intros i wk Hi. rewrite Hsh by (intros Hnil; by rewrite Hnil in Hi).
  destruct (quiet_workers s i wk Hinv) as [H1 H2]; [by rewrite Hc|done|]. apply (quiet_cost _ _ wk H1 H2).
Qed.

Lemma set_tasks_decreases s j m :
  inv s → caller s = CSetTasks j m → cost (set_caller (CSetRemaining j m) (set_n_tasks m s)) < cost s.
Proof.
  intros Hinv Hcal. unfold cost. cbn. rewrite Hcal. cbn.
  assert (sum_list_with (worker_cost (shutdown_ s) (phase_ s) m) (workers_ s) ≤
    sum_list_with (worker_cost (shutdown_ s) (phase_ s) (current_n_tasks_ s)) (workers_ s) + length (workers_ s) * 0); [|lia].
  apply sum_bound_id. intros i wk Hi. rewrite (i_shutdown s Hinv), Hcal by (intros Hnil; by rewrite Hnil in Hi). cbn.
  destruct (quiet_workers s i wk Hinv) as [H1 H2]; [by rewrite Hcal|done|].
  pose proof (proj1 (proj2 (quiet_cost _ (current_n_tasks_ s) wk H1 H2)) m). cbn in *. lia.
Qed.

Lemma stop_publish_decreases s :
  inv s → caller s = CStopPublish → cost (set_caller CStopNotify (set_phase (u64 (phase_ s + 1)) s)) < cost s.
Proof.
  intros Hinv Hcal. unfold cost. cbn. rewrite Hcal. cbn.
  assert (sum_list_with (worker_cost (shutdown_ s) (u64 (phase_ s + 1)) (current_n_tasks_ s)) (workers_ s) ≤
    sum_list_with (worker_cost (shutdown_ s) (phase_ s) (current_n_tasks_ s)) (workers_ s) + length (workers_ s) * 0); [|lia].
  apply sum_bound_id. intros i wk Hi. rewrite (i_shutdown s Hinv), Hcal by (intros Hnil; by rewrite Hnil in Hi). cbn. unfold worker_cost. lia.
Qed.

Lemma caller_decreases out s s' : inv s → caller_step out s = Some s' → polling s = true ∨ cost s' < cost s.
Proof.
  intros Hinv Hstep. pose proof (i_caller s Hinv) as Hc. unfold caller_ok in Hc. unfold polling.
  assert (sum_list_with (worker_cost (shutdown_ s) (phase_ s) (current_n_tasks_ s)) (notify_worker <$> workers_ s) ≤
    sum_list_with (worker_cost (shutdown_ s) (phase_ s) (current_n_tasks_ s)) (workers_ s) + length (workers_ s) * 1) as Hnot
    by (apply sum_bound; intros i wk _; apply notify_cost).
  unfold caller_step in Hstep.
  destruct (caller s) as [|j m t|j m t|j m|j m|j m|j m|j m|j m|j m|j m r|spins| | | | | |k|] eqn:Hcal; try done.
  1: { right. destruct (todo s) as [|r rest] eqn:Ht; [done|]. injection Hstep as <-. by apply serve_decreases. }
  1: { right. destruct (Nat.ltb_spec t m); injection Hstep as <-; unfold cost; cbn; rewrite Hcal; cbn; lia. }
  1: { right. destruct Hc as [((_&_&Hz)&_) Ht]. destruct out; injection Hstep as <-; unfold cost; cbn; rewrite Hcal; cbn; [lia|].
       rewrite (wrap_small 64) by (pose proof (proj1 (i_n s Hinv)); lia). lia. }
  3: { right. injection Hstep as <-. unfold cost. cbn. rewrite Hcal. cbn. lia. }
  3: { right. injection Hstep as <-. by apply set_tasks_decreases. }
  4: { right. injection Hstep as <-. by apply publish_decreases. }
  4: { right. injection Hstep as <-. unfold cost. cbn. rewrite Hcal, length_fmap. cbn. lia. }
  4: { right. pose proof (run_cost_step 0 (n_threads_ s) j m r out s (proj1 (i_n s Hinv))) as Hrc.
       pose proof (run_frame 0 (n_threads_ s) j m r out s) as Hfr. destruct (run_step _ _ _ _ _ _ _) as [r' s1]. injection Hstep as <-.
       destruct Hfr as (Fn&Fp&Fsh&Fj&Ft&Fc&Fw&Ftodo&_). cbn in *. unfold cost. cbn. rewrite Fn, Fp, Fsh, Ft, Fw, Ftodo, Hcal. cbn.
       assert (∀ t, r = RCall t → t < m ∧ (Z.of_nat (t + n_threads_ s) < 2 ^ 64)%Z) as Hcall by (intros t ->; by apply (caller_call s j m t)).
       specialize (Hrc Hcall). destruct r'; cbn; lia. }
  4: { destruct (0 <? remaining_workers_ s); injection Hstep as <-; [by left|]. right. apply caller_moves. rewrite Hcal. cbn. lia. }
  6: { right. injection Hstep as <-. by apply shutdown_decreases. }
  6: { right. injection Hstep as <-. by apply stop_publish_decreases. }
  6: { right. injection Hstep as <-. unfold cost. cbn. rewrite Hcal, length_fmap. cbn. lia. }
  6: { right. destruct (workers_ s !! k) as [wk|] eqn:Hk.
       - destruct (exited wk); [|done]. injection Hstep as <-. apply caller_moves. rewrite Hcal. cbn. apply lookup_lt_Some in Hk. lia.
       - injection Hstep as <-. unfold cost. cbn. rewrite Hcal. cbn. lia. }
  all: right; repeat case_match; injection Hstep as <-; unfold cost; cbn; rewrite Hcal; cbn; lia.
Qed.

(** ** Progress *)

Definition productive (a : action E) s : bool :=
  match a with ACaller _ => negb (polling s) | AWorker _ _ => true | ASpurious _ => false end.

(** The productive actions of an execution. *)
Fixpoint productive_count (acts : list (action E)) s : nat :=
  match acts with
  | [] => 0
  | a :: acts => (if productive a s then 1 else 0) + match step a s with Some s' => productive_count acts s' | None => 0 end
  end.

(** Spurious wake-ups of an execution. *)
Fixpoint spurious_count (acts : list (action E)) : nat :=
  match acts with [] => 0 | ASpurious _ :: acts => S (spurious_count acts) | _ :: acts => spurious_count acts end.

Lemma spurious_cost i s s' : spurious i s = Some s' → cost s' = cost s + 1.
Proof.
  unfold spurious. destruct (workers_ s !! i) as [[pc my]|] eqn:Hi; [|done]. destruct pc; try done. intros [= <-].
  unfold cost. cbn. rewrite length_insert.
  pose proof (sum_insert (worker_cost (shutdown_ s) (phase_ s) (current_n_tasks_ s)) (workers_ s) i _ (mk_worker WWait my) Hi) as Hs.
  assert (worker_cost (shutdown_ s) (phase_ s) (current_n_tasks_ s) (mk_worker WWait my) =
    worker_cost (shutdown_ s) (phase_ s) (current_n_tasks_ s) (mk_worker WBlocked my) + 1) by (unfold worker_cost; cbn; repeat case_match; lia).
  lia.
Qed.

Lemma polling_cost out s s' : polling s = true → caller_step out s = Some s' → cost s' = cost s.
Proof.
  unfold polling, caller_step. destruct (caller s) eqn:Hc; try done. intros ->. intros [= <-]. unfold cost. cbn. by rewrite Hc.
Qed.

Lemma run_bound acts s s' :
  inv s → run acts s = Some s' → productive_count acts s + cost s' ≤ cost s + spurious_count acts.
Proof.
  revert s. induction acts as [|a acts IH]; intros s Hinv Hrun; [injection Hrun as <-; cbn; lia|].
  cbn [run] in Hrun. cbn [productive_count]. destruct (step a s) as [s1|] eqn:Hs; [|done]. cbn in Hrun.
  specialize (IH s1 (step_inv _ _ _ Hinv Hs) Hrun). destruct a as [out|i out|i]; cbn in *.
  - destruct (polling s) eqn:Hp; cbn.
    + rewrite (polling_cost _ _ _ Hp Hs) in IH. lia.
    + destruct (caller_decreases out s s1 Hinv Hs) as [|]; [congruence|lia].
  - pose proof (worker_decreases i out s s1 Hinv Hs). lia.
  - pose proof (spurious_cost i s s1 Hs). lia.
Qed.

(** A worker that has not finished its phase can move. *)
Lemma worker_can_move s i wk out :
  inv s → workers_ s !! i = Some wk → w_pc wk ≠ WBlocked → w_pc wk ≠ WExit → worker_step i out s ≠ None.
Proof.
  intros Hinv Hi Hb He. unfold worker_step. rewrite Hi. destruct (w_pc wk) as [cur| | | |cur| |j|j m r|] eqn:Hpc; try done; repeat case_match; try done.
  destruct (running_active s i wk Hinv Hi) as ((j&m&_&Hj&_)&_); [auto|]. congruence.
Qed.

Lemma stuck_final s :
  inv s → (∀ a, productive a s = true → step a s = None) →
  (caller s = CIdle ∧ todo s = [] ∧ ∀ i wk, workers_ s !! i = Some wk → w_pc wk = WBlocked) ∨
  (caller s = CDead ∧ ∀ i wk, workers_ s !! i = Some wk → w_pc wk = WExit).
Proof.
  intros Hinv Hstuck.
  assert (∀ i wk, workers_ s !! i = Some wk → w_pc wk = WBlocked ∨ w_pc wk = WExit) as Hw.
  { intros i wk Hi. destruct (w_pc wk) eqn:Hpc; auto; exfalso;
      (apply (worker_can_move s i wk None Hinv Hi); [by rewrite Hpc|by rewrite Hpc|exact (Hstuck (AWorker i None) eq_refl)]). }
  pose proof (i_caller s Hinv) as Hc. unfold caller_ok in Hc.
  assert (polling s = false → caller_step None s = None) as Hcal by (intros Hp; apply (Hstuck (ACaller None)); cbn; by rewrite Hp).
  unfold polling, caller_step in Hcal. destruct (caller s) eqn:Hcs; try (specialize (Hcal eq_refl); try done).
  - left. destruct (todo s); [|done]. split_and!; [done|done|]. intros i wk Hi. destruct (Hw i wk Hi) as [|He]; [done|].
    pose proof (i_workers s Hinv i wk Hi) as Hok. rewrite Hcs in Hok. cbn in Hok. rewrite He in Hok. tauto.
  - exfalso. by destruct (run_step _ _ _ _ _ _ _).
  - exfalso. destruct (Nat.ltb_spec 0 (remaining_workers_ s)) as [Hpos|Hz]; [|by specialize (Hcal eq_refl)].
    destruct Hc as (j&m&_&_&_&Hcore). rewrite (co_remaining _ _ _ _ _ _ _ _ Hcore) in Hpos.
    assert (∃ i wk, workers_ s !! i = Some wk ∧ worker_status (phase_ s) wk ≠ Done) as (i&wk&Hi&Hst).
    { unfold statuses in Hpos. rewrite Hcs in Hpos. cbn in Hpos. clear -Hpos. unfold count_unfinished in Hpos. cbn in Hpos.
      induction (workers_ s) as [|wk l IH]; [cbn in Hpos; lia|]. cbn in Hpos.
      destruct (worker_status (phase_ s) wk) eqn:Hst; [exists 0, wk; by rewrite Hst..|].
      destruct IH as (i&wk'&Hi&?); [exact Hpos|]. by exists (S i), wk'. }
    pose proof (i_workers s Hinv i wk Hi) as Hok. rewrite Hcs in Hok. cbn in Hok.
    destruct (Hw i wk Hi) as [Hpc|Hpc]; rewrite Hpc in Hok; [|done]. destruct Hok as [Hmy|[_ ?]]; [|done].
    apply Hst. unfold worker_status. by rewrite Hpc, Hmy, Nat.eqb_refl.
  - exfalso. destruct (workers_ s !! k) as [wk|] eqn:Hk; [|done]. pose proof (i_workers s Hinv k wk Hk) as Hok. rewrite Hcs in Hok.
    destruct Hok as [_ Hok]. unfold exited in Hcal. destruct (Hw k wk Hk) as [Hpc|Hpc]; rewrite Hpc in *; [|done]. by specialize (Hok eq_refl).
  - right. split; [done|]. intros i wk Hi. destruct (Hw i wk Hi) as [Hpc|]; [|done].
    pose proof (i_workers s Hinv i wk Hi) as Hok. rewrite Hcs in Hok. destruct Hok as [_ Hok]. rewrite Hpc in Hok. by specialize (Hok eq_refl).
Qed.
End live.

(** C10. From the constructor on, an execution takes at most [cost s0] steps,
    plus one for each spurious wake-up, besides the owner's polling; and when
    nothing else can move, all requests are served and every worker is parked,
    or the pool is destroyed and every worker has exited: no wake-up is lost
    and no phase, clean-up or destructor blocks for ever. *)
Theorem thread_pool_progress {J E} hardware cpu_setsize spawn setaffinity num mask policy reqs (s0 : pool J E) e acts s :
  constructed hardware cpu_setsize spawn setaffinity num mask policy reqs s0 e → run acts s0 = Some s →
  productive_count acts s0 ≤ cost s0 + spurious_count acts ∧
  ((∀ a, productive a s = true → step a s = None) →
    (caller s = CIdle ∧ todo s = [] ∧ ∀ i wk, workers_ s !! i = Some wk → w_pc wk = WBlocked) ∨
    (caller s = CDead ∧ ∀ i wk, workers_ s !! i = Some wk → w_pc wk = WExit)).
Proof.
  intros Hcon Hrun. pose proof (constructed_inv _ _ _ _ _ _ _ _ _ _ Hcon) as Hinv. split.
  - pose proof (run_bound _ _ _ Hinv Hrun). lia.
  - apply stuck_final. by eapply run_inv.
Qed.

(** ** Executions of the thread pool

    A two-thread pool that serves a phase in which one task throws, and is
    destroyed; the hypotheses of the properties hold along it. *)


(** The worker moves when it can; task 1 throws 13. *)
Definition outcome (s : pool nat nat) : option nat :=
  match workers_ s !! 0 with
  | Some wk => match w_pc wk with WRun _ _ (RCall 1) => Some 13 | _ => None end
  | None => None
  end.
Fixpoint drive (fuel : nat) (s : pool nat nat) : list (action nat) :=
  match fuel with
  | 0 => []
  | S fuel =>
      match worker_step 0 (outcome s) s with
      | Some s' => AWorker 0 (outcome s) :: drive fuel s'
      | None => match caller_step None s with Some s' => ACaller None :: drive fuel s' | None => [] end
      end
  end.

Definition two_requests : list (request nat) := [ParallelFor 7 5; Destroy].
Definition pool0 : pool nat nat := new_pool 2 1 two_requests CIdle.
Definition acts0 : list (action nat) := drive 100 pool0.
Definition pool1 : pool nat nat := default pool0 (run acts0 pool0).

Definition no_spawn_error (_ : nat) : option exn := None.
Definition affinity_ok (_ : nat) (_ : list Z) : Z := 0%Z.

Lemma pool0_constructed : constructed 8 1024 no_spawn_error affinity_ok 2 [0; 3]%Z RoundRobin two_requests pool0 None.
Proof.
  split; [vm_compute; reflexivity|]. split; [reflexivity|].
  repeat constructor; unfold req_fits; cbn; lia.
Qed.
Lemma pool0_runs : run acts0 pool0 = Some pool1.
Proof. vm_compute. reflexivity. Qed.

(** Worker 1 stops at its first task; the caller finishes its stride; the
    exception is rethrown and the worker exits. *)
Example phase_with_error :
  history pool1 = [(ParallelFor 7 5, [mk_call 7 1 1 (Some 13); mk_call 7 0 0 None; mk_call 7 2 0 None; mk_call 7 4 0 None], Some 13);
                   (Destroy, [], None)].
Proof. vm_compute. reflexivity. Qed.

Lemma thread_pool_fork_join_witness :
  constructed 8 1024 no_spawn_error affinity_ok 2 [0; 3]%Z RoundRobin two_requests pool0 None ∧ run acts0 pool0 = Some pool1 ∧
  ((λ h, h.1.1) <$> history pool1) `prefix_of` two_requests.
Proof.
  split_and!; [exact pool0_constructed|exact pool0_runs|].
  exact (proj1 (thread_pool_fork_join 8 1024 no_spawn_error affinity_ok 2 [0; 3]%Z RoundRobin two_requests pool0 acts0 pool1
    pool0_constructed pool0_runs)).
Defined.

(** The state after fourteen steps: the worker is about to read the descriptor. *)
Definition acts_half : list (action nat) := take 14 acts0.
Definition pool_half : pool nat nat := default pool0 (run acts_half pool0).

Lemma thread_pool_race_free_witness :
  run acts_half pool0 = Some pool_half ∧ workers_ pool_half !! 0 = Some (mk_worker WReadJob 1) ∧
  current_job_ pool_half = req_job (current pool_half).
Proof.
  assert (run acts_half pool0 = Some pool_half) as Hrun by (vm_compute; reflexivity).
  assert (workers_ pool_half !! 0 = Some (mk_worker WReadJob 1)) as Hw by (vm_compute; reflexivity).
  split_and!; [exact Hrun|exact Hw|].
  exact (proj1 (proj1 (proj2 (thread_pool_race_free 8 1024 no_spawn_error affinity_ok 2 [0; 3]%Z RoundRobin two_requests pool0 None
    acts_half pool_half pool0_constructed Hrun)) 0 _ Hw (or_introl eq_refl))).
Defined.

Lemma thread_pool_progress_witness :
  run acts0 pool0 = Some pool1 ∧ productive_count acts0 pool0 ≤ cost pool0 + spurious_count acts0.
Proof.
  split; [exact pool0_runs|].
  exact (proj1 (thread_pool_progress 8 1024 no_spawn_error affinity_ok 2 [0; 3]%Z RoundRobin two_requests pool0 None acts0 pool1
    pool0_constructed pool0_runs)).
Defined.
