(* ===== verification/ExtendedDem.v ===== *)
(** * Extended detector error models

    Model of [extended_dem] (libs/qec/lib/extended_dem.cpp and its header): a
    chunk of a detector error model whose rows split into named seam bands and
    interior rows, the contraction of two chunks along a seam ([dem_stitch]),
    the linear-time contraction of a chain of chunks ([dem_stitch_all],
    [dem_close_all], [dem_chunks_to_pcm]), the streaming helpers, and the
    merging of duplicate columns.  A seam id is its hash value; the name
    registry serves messages only. *)

From S2P Require Import Prelude Rates Ordering Tensor SparseMatrix RoundLayout DetectorErrorModel.

Record seam := mk_seam { seam_of : nat; row_begin : nat; row_end : nat }.

#[global] Instance seam_eq_dec : EqDecision seam.
Proof. solve_decision. Defined.

(** [seam::num_rows], in [uint32_t]. *)
Definition seam_num_rows (s : seam) : nat := u32_sub (row_end s) (row_begin s).

Inductive prior_combine_mode := or_combine | sum_combine.

(** Lexicographic [<=] on pairs, the order [std::sort] uses on row bands. *)
Definition band_le (a b : nat * nat) : Prop := a.1 < b.1 ∨ (a.1 = b.1 ∧ a.2 ≤ b.2).
#[global] Instance band_le_dec a b : Decision (band_le a b).
Proof. unfold band_le. apply _. Defined.

Section extended.
Context {R : Type} `{RateOps R}.

Record extended_dem := mk_extended {
  e_H : sparse_binary_matrix;
  e_O : sparse_binary_matrix;
  e_error_rates : list R;
  e_seams : list seam;
  e_tags : list nat
}.

(** ** Accessors *)

Definition num_faults (dem : extended_dem) : nat := u32 (length (e_error_rates dem)).
Definition e_num_observables (dem : extended_dem) : nat := num_rows_ (e_O dem).

Definition seam_total (dem : extended_dem) : nat :=
  foldl (λ acc s, u32 (acc + seam_num_rows s)) 0 (e_seams dem).

Definition num_interior_rows (dem : extended_dem) : nat :=
  let h_rows := num_rows_ (e_H dem) in
  if seam_total dem <? h_rows then h_rows - seam_total dem else 0.

Definition has_seam (dem : extended_dem) (id : nat) : bool :=
  existsb (λ s, seam_of s =? id) (e_seams dem).

Fixpoint find_seam (seams : list seam) (id : nat) : res seam :=
  match seams with
  | [] => Throw (OutOfRange "extended_dem::get_seam: no seam with id ")
  | s :: seams => if seam_of s =? id then Ok s else find_seam seams id
  end.
Definition get_seam (dem : extended_dem) (id : nat) : res seam := find_seam (e_seams dem) id.

Definition add_seam (dem : extended_dem) (id row_begin row_end : nat) : res extended_dem :=
  _ ← throw_if (has_seam dem id) (InvalidArgument "extended_dem::add_seam: duplicate seam ");
  Ok (mk_extended (e_H dem) (e_O dem) (e_error_rates dem)
        (e_seams dem ++ [mk_seam id row_begin row_end]) (e_tags dem)).

Definition validate (dem : extended_dem) (context : string) : res unit :=
  let n := num_faults dem in
  let chk m label := throw_if (negb (num_cols_ m =? n))
        (InvalidArgument (context +:+ ": " +:+ label +:+ " cols differ from the number of faults")) in
  _ ← chk (e_H dem) "H";
  _ ← (if (0 <? num_rows_ (e_O dem)) || (0 <? num_cols_ (e_O dem))
       then chk (e_O dem) "O" else Ok tt);
  let n_rows := num_rows_ (e_H dem) in
  _ ← foldM (λ s _,
        _ ← throw_if (n_rows <? row_end s)
              (InvalidArgument (context +:+ ": seam row_end > H.num_rows()"));
        throw_if (row_end s <? row_begin s)
          (InvalidArgument (context +:+ ": seam has row_begin > row_end"))) (e_seams dem) tt;
  let bands := merge_sort band_le
        ((λ s, (row_begin s, row_end s)) <$> filter (λ s, 0 < seam_num_rows s) (e_seams dem)) in
  _ ← for_u 1 (length bands) (λ i _,
        cur ← vget bands i;
        prev ← vget bands (i - 1);
        throw_if (cur.1 <? prev.2)
          (InvalidArgument (context +:+ ": seam row bands overlap"))) tt;
  let tag_count := foldl (λ acc s, u32 (acc + seam_num_rows s)) 0 (e_seams dem) in
  throw_if (negb (length (e_tags dem) =? tag_count))
    (InvalidArgument (context +:+ ": tags.size() != sum of seam rows")).

(** ** Matrix helpers *)

Definition hcat (a b : sparse_binary_matrix) : res sparse_binary_matrix :=
  cols ← to_nested_csc a;
  b_cols ← to_nested_csc b;
  let n_total := u64 (num_cols_ a + num_cols_ b) in
  _ ← throw_if (bool_decide (UINT32_MAX < Z.of_nat n_total)%Z)
        (OverflowError "hcat: combined column count exceeds uint32_t");
  from_nested_csc (num_rows_ a) (u32 n_total) (cols ++ b_cols).

Definition vstack (a b : sparse_binary_matrix) : res sparse_binary_matrix :=
  _ ← throw_if (negb (num_cols_ b =? num_cols_ a))
        (InvalidArgument "vstack: column count mismatch");
  let n_cols := num_cols_ a in
  let a_rows := num_rows_ a in
  let total_rows := u64 (a_rows + num_rows_ b) in
  _ ← throw_if (bool_decide (UINT32_MAX < Z.of_nat total_rows)%Z)
        (OverflowError "vstack: combined row count exceeds uint32_t");
  a_csc ← to_nested_csc a;
  b_csc ← to_nested_csc b;
  combined ← for_u 0 n_cols (λ c combined,
      ca ← vget a_csc c;
      cb ← vget b_csc c;
      vset combined c (ca ++ ((λ r, u32 (a_rows + r)) <$> cb))) (replicate n_cols []);
  from_nested_csc (u32 total_rows) n_cols combined.

Definition pad_right (m : sparse_binary_matrix) (n_total : nat) : res sparse_binary_matrix :=
  cols ← to_nested_csc m;
  from_nested_csc (num_rows_ m) n_total (resize n_total [] cols).

Definition pad_left (m : sparse_binary_matrix) (n_left n_total : nat) : res sparse_binary_matrix :=
  src ← to_nested_csc m;
  cols ← for_u 0 (num_cols_ m) (λ c cols, sc ← vget src c; vset cols (u32 (n_left + c)) sc)
           (replicate n_total []);
  from_nested_csc (num_rows_ m) n_total cols.

Definition zero_matrix (nrows ncols : nat) : res sparse_binary_matrix :=
  from_nested_csc nrows ncols (replicate ncols []).

Definition write_sparse_block (dst : tensor) (src : sparse_binary_matrix)
    (row_offset col_offset : nat) : res tensor :=
  cols ← to_nested_csc src;
  for_u 0 (num_cols_ src) (λ c dst,
    col ← vget cols c;
    foldM (λ r dst, flip_at dst (u64 (row_offset + r)) (u64 (col_offset + c))) col dst) dst.

Definition extract_row_band (m : sparse_binary_matrix) (row_begin row_end : nat)
    : res sparse_binary_matrix :=
  let n_rows := u32_sub row_end row_begin in
  let n_cols := num_cols_ m in
  if n_rows =? 0 then zero_matrix 0 n_cols else
  csr ← to_nested_csr m;
  selected ← for_u 0 n_rows (λ r selected, x ← vget csr (u32 (row_begin + r)); vset selected r x)
               (replicate n_rows []);
  from_nested_csr n_rows n_cols selected.

(** [r >= s.row_begin && r < s.row_end] *)
Definition in_band (r : nat) (s : seam) : bool := (row_begin s <=? r) && (r <? row_end s).

Definition extract_interior_rows (m : sparse_binary_matrix) (seams : list seam)
    : res sparse_binary_matrix :=
  let n_rows := num_rows_ m in
  let n_cols := num_cols_ m in
  csr ← to_nested_csr m;
  interior ← for_u 0 n_rows (λ r interior,
      if existsb (in_band r) seams then Ok interior
      else x ← vget csr r; Ok (interior ++ [x])) [];
  from_nested_csr (u32 (length interior)) n_cols interior.

Fixpoint tag_offset_from (offset : nat) (seams : list seam) (id : nat) : res nat :=
  match seams with
  | [] => Throw (OutOfRange "seam_tag_offset: seam not found")
  | s :: seams => if seam_of s =? id then Ok offset
                  else tag_offset_from (u32 (offset + seam_num_rows s)) seams id
  end.
Definition seam_tag_offset (dem : extended_dem) (id : nat) : res nat :=
  tag_offset_from 0 (e_seams dem) id.

(** [dem.has_seam(id) ? dem.get_seam(id).num_rows() : 0] *)
Definition seam_rows_or_zero (dem : extended_dem) (id : nat) : res nat :=
  if has_seam dem id then s ← get_seam dem id; Ok (seam_num_rows s) else Ok 0.

Definition check_seam_boundary (a b : extended_dem) (from_seam to_seam : nat) (context : string)
    : res unit :=
  from_w ← seam_rows_or_zero a from_seam;
  to_w ← seam_rows_or_zero b to_seam;
  if (from_w =? 0) && (to_w =? 0) then Ok tt else
  _ ← throw_if (negb (from_w =? to_w)) (InvalidArgument (context +:+ ": seam width mismatch"));
  off_a ← seam_tag_offset a from_seam;
  off_b ← seam_tag_offset b to_seam;
  for_u 0 from_w (λ k _,
    x ← vget (e_tags a) (u32 (off_a + k));
    y ← vget (e_tags b) (u32 (off_b + k));
    throw_if (negb (x =? y)) (InvalidArgument (context +:+ ": tag mismatch at seam row "))) tt.

Definition reject_extra_seams (dem : extended_dem) (from_seam to_seam : nat) (context : string)
    : res unit :=
  foldM (λ s _,
    if (seam_of s =? from_seam) || (seam_of s =? to_seam) || (seam_num_rows s =? 0) then Ok tt
    else Throw (InvalidArgument (context +:+ ": composing chunks that carry additional named seams is not supported")))
    (e_seams dem) tt.

(** ** Stitching two chunks *)

(** The lambda [push] of [dem_stitch]. *)
Definition push_rows (m result_H : sparse_binary_matrix) : res sparse_binary_matrix :=
  if 0 <? num_rows_ m then (if 0 <? num_rows_ result_H then vstack result_H m else Ok m)
  else Ok result_H.

(** The rows of a named seam, or a matrix without rows. *)
Definition seam_band (dem : extended_dem) (id : nat) : res sparse_binary_matrix :=
  if has_seam dem id
  then s ← get_seam dem id; extract_row_band (e_H dem) (row_begin s) (row_end s)
  else zero_matrix 0 (num_faults dem).

(** [for (k < n) tags.push_back(dem.tags\[off + k\])] behind a [has_seam] test;
    the sum is taken in [w] bits. *)
Definition push_tags (w : Z) (dem : extended_dem) (id n : nat) (tags : list nat) : res (list nat) :=
  if has_seam dem id then
    off ← seam_tag_offset dem id;
    for_u 0 n (λ k tags, x ← vget (e_tags dem) (wrap w (off + k)); Ok (tags ++ [x])) tags
  else Ok tags.

Definition dem_stitch (a b : extended_dem) (from_seam to_seam : nat) : res extended_dem :=
  _ ← validate a "dem_stitch: left";
  _ ← validate b "dem_stitch: right";
  _ ← throw_if (negb (e_num_observables a =? e_num_observables b))
        (InvalidArgument "dem_stitch: observable count mismatch");
  _ ← throw_if (negb (has_seam a from_seam))
        (InvalidArgument "dem_stitch: left chunk has no seam with id (from_seam); cannot contract");
  _ ← throw_if (negb (has_seam b to_seam))
        (InvalidArgument "dem_stitch: right chunk has no seam with id (to_seam); cannot contract");
  _ ← reject_extra_seams a from_seam to_seam "dem_stitch: left";
  _ ← reject_extra_seams b from_seam to_seam "dem_stitch: right";
  _ ← check_seam_boundary a b from_seam to_seam "dem_stitch";
  a_from ← get_seam a from_seam;
  b_to ← get_seam b to_seam;
  let seam_d := seam_num_rows a_from in
  let n_A := num_faults a in
  let n_total := u64 (n_A + num_faults b) in
  _ ← throw_if (bool_decide (UINT32_MAX < Z.of_nat n_total)%Z)
        (OverflowError "dem_stitch: combined fault count exceeds uint32_t");
  let n_total := u32 n_total in
  a_to_rows ← seam_band a to_seam;
  a_int_rows ← extract_interior_rows (e_H a) (e_seams a);
  a_from_rows ← extract_row_band (e_H a) (row_begin a_from) (row_end a_from);
  b_to_rows ← extract_row_band (e_H b) (row_begin b_to) (row_end b_to);
  b_int_rows ← extract_interior_rows (e_H b) (e_seams b);
  b_from_rows ← seam_band b from_seam;
  contracted ← hcat a_from_rows b_to_rows;
  top ← pad_right a_to_rows n_total;
  top_int ← pad_right a_int_rows n_total;
  bot_int ← pad_left b_int_rows n_A n_total;
  bot ← pad_left b_from_rows n_A n_total;
  result_H ← zero_matrix 0 n_total;
  result_H ← push_rows top result_H;
  result_H ← push_rows top_int result_H;
  result_H ← push_rows contracted result_H;
  result_H ← push_rows bot_int result_H;
  result_H ← push_rows bot result_H;
  result_H ← (if num_cols_ result_H =? 0 then zero_matrix 0 n_total else Ok result_H);
  result_O ← hcat (e_O a) (e_O b);
  let a_to_n := num_rows_ a_to_rows in
  let b_from_n := num_rows_ b_from_rows in
  let r := mk_extended result_H result_O (e_error_rates a ++ e_error_rates b) [] [] in
  r ← add_seam r to_seam 0 a_to_n;
  let b_from_start :=
    u32 (u32 (u32 (a_to_n + num_interior_rows a) + seam_d) + num_interior_rows b) in
  r ← add_seam r from_seam b_from_start (u32 (b_from_start + b_from_n));
  tags ← push_tags 32 a to_seam a_to_n [];
  tags ← push_tags 32 b from_seam b_from_n tags;
  Ok (mk_extended (e_H r) (e_O r) (e_error_rates r) (e_seams r) tags).

(** ** Stitching a chain of chunks *)

Definition nested_csc (m : sparse_binary_matrix) : res (list (list nat)) :=
  if is_csc m then to_nested_csc m else c ← to_csc m; to_nested_csc c.

Definition dem_chunks_to_fault_offsets (chunks : list extended_dem) : list nat :=
  foldl (λ offsets c, offsets ++ [u64 (default 0 (last offsets) + num_faults c)]) [0] chunks.

Record chain_layout := mk_layout {
  col_off : list nat;
  interior_row : list nat;
  seam_row : list nat;
  lead : nat;
  trail : nat;
  trail_row : nat;
  chain_faults : nat
}.

Definition plan_chain (chunks : list extended_dem) (from_seam to_seam : nat) : res chain_layout :=
  let T := length chunks in
  let col_off := dem_chunks_to_fault_offsets chunks in
  front ← vget chunks 0;
  back ← vget chunks (T - 1);
  lead ← seam_rows_or_zero front to_seam;
  trail ← seam_rows_or_zero back from_seam;
  st ← for_u 0 T (λ i st,
         let '(interior_row, seam_row, rows) := st in
         interior_row ← vset interior_row i rows;
         chunk ← vget chunks i;
         let rows := u64 (rows + num_interior_rows chunk) in
         if i + 1 <? T then
           seam_row ← vset seam_row i rows;
           w ← seam_rows_or_zero chunk from_seam;
           Ok (interior_row, seam_row, u64 (rows + w))
         else Ok (interior_row, seam_row, rows))
       (replicate T 0, replicate (T - 1) 0, lead);
  n ← vget col_off (length col_off - 1);
  Ok (mk_layout col_off st.1.1 st.1.2 lead trail st.2 n).

Definition chain_row_map (chunk : extended_dem) (i T : nat) (plan : chain_layout)
    (from_seam to_seam : nat) : res (list nat) :=
  to_base ← (if i =? 0 then Ok 0 else vget (seam_row plan) (i - 1));
  from_base ← (if i + 1 <? T then vget (seam_row plan) i else Ok (trail_row plan));
  let has_to := has_seam chunk to_seam in
  let has_from := has_seam chunk from_seam in
  to_ ← (if has_to then get_seam chunk to_seam else Ok (mk_seam 0 0 0));
  from_ ← (if has_from then get_seam chunk from_seam else Ok (mk_seam 0 0 0));
  st ← for_u 0 (num_rows_ (e_H chunk)) (λ r st,
         let '(row_map, interior_seen) := st in
         if has_to && in_band r to_ then
           row_map ← vset row_map r (u32 (to_base + (r - row_begin to_)));
           Ok (row_map, interior_seen)
         else if has_from && in_band r from_ then
           row_map ← vset row_map r (u32 (from_base + (r - row_begin from_)));
           Ok (row_map, interior_seen)
         else
           base ← vget (interior_row plan) i;
           row_map ← vset row_map r (u32 (base + interior_seen));
           Ok (row_map, u64 (interior_seen + 1)))
       (replicate (num_rows_ (e_H chunk)) 0, 0);
  Ok st.1.

Definition chain_h_columns (chunks : list extended_dem) (plan : chain_layout)
    (from_seam to_seam row_limit : nat) : res (list (list nat)) :=
  let T := length chunks in
  for_u 0 T (λ i cols,
    chunk ← vget chunks i;
    row_map ← chain_row_map chunk i T plan from_seam to_seam;
    local ← nested_csc (e_H chunk);
    for_u 0 (length local) (λ j cols,
      off ← vget (col_off plan) i;
      dst ← vget cols (off + j);
      col ← vget local j;
      dst ← foldM (λ r dst, x ← vget row_map r;
                     Ok (if x <? row_limit then dst ++ [x] else dst)) col dst;
      vset cols (off + j) dst) cols) (replicate (chain_faults plan) []).

Definition chain_o_columns (chunks : list extended_dem) (plan : chain_layout)
    : res (list (list nat)) :=
  for_u 0 (length chunks) (λ i cols,
    chunk ← vget chunks i;
    if num_cols_ (e_O chunk) =? 0 then Ok cols else
    local ← nested_csc (e_O chunk);
    for_u 0 (length local) (λ j cols,
      off ← vget (col_off plan) i;
      col ← vget local j;
      vset cols (off + j) col) cols) (replicate (chain_faults plan) []).

Definition validate_chain (chunks : list extended_dem) (from_seam to_seam : nat) (fn : string)
    : res unit :=
  let T := length chunks in
  _ ← for_u 0 T (λ i _,
        c ← vget chunks i;
        _ ← validate c (fn +:+ ": chunk ");
        reject_extra_seams c from_seam to_seam (fn +:+ ": chunk ")) tt;
  _ ← for_u 1 T (λ i _,
        c ← vget chunks i;
        c0 ← vget chunks 0;
        throw_if (negb (e_num_observables c =? e_num_observables c0))
          (InvalidArgument (fn +:+ ": observable count mismatch at chunk "))) tt;
  for_u 0 (T - 1) (λ i _,
    a ← vget chunks i;
    b ← vget chunks (i + 1);
    _ ← throw_if (negb (has_seam a from_seam))
          (InvalidArgument (fn +:+ ": chunk has no seam with id (from_seam); cannot contract"));
    _ ← throw_if (negb (has_seam b to_seam))
          (InvalidArgument (fn +:+ ": chunk has no seam with id (to_seam); cannot contract"));
    check_seam_boundary a b from_seam to_seam (fn +:+ ": boundary ")) tt.

Definition dem_stitch_all (chunks : list extended_dem) (from_seam to_seam : nat)
    : res extended_dem :=
  match chunks with
  | [] => Throw (InvalidArgument "dem_stitch_all: dem_chunks must be non-empty")
  | [c] => _ ← validate c "dem_stitch_all: chunk 0"; Ok c
  | front :: _ =>
      _ ← validate_chain chunks from_seam to_seam "dem_stitch_all";
      let T := length chunks in
      plan ← plan_chain chunks from_seam to_seam;
      let n_rows := u64 (trail_row plan + trail plan) in
      let n_faults := u32 (chain_faults plan) in
      h_cols ← chain_h_columns chunks plan from_seam to_seam n_rows;
      h ← from_nested_csc (u32 n_rows) n_faults h_cols;
      h ← canonicalize h;
      o_cols ← chain_o_columns chunks plan;
      o ← from_nested_csc (e_num_observables front) n_faults o_cols;
      let result := mk_extended h o (chunks ≫= e_error_rates) [] [] in
      result ← add_seam result to_seam 0 (u32 (lead plan));
      result ← add_seam result from_seam (u32 (trail_row plan)) (u32 (trail_row plan + trail plan));
      tags ← push_tags 64 front to_seam (lead plan) [];
      back ← vget chunks (T - 1);
      tags ← push_tags 64 back from_seam (trail plan) tags;
      Ok (mk_extended (e_H result) (e_O result) (e_error_rates result) (e_seams result) tags)
  end.

Definition dem_chunks_to_pcm (chunks : list extended_dem) (from_seam to_seam : nat)
    : res sparse_binary_matrix :=
  _ ← throw_if (bool_decide (length chunks = 0))
        (InvalidArgument "dem_chunks_to_pcm: dem_chunks must be non-empty");
  _ ← validate_chain chunks from_seam to_seam "dem_chunks_to_pcm";
  plan ← plan_chain chunks from_seam to_seam;
  cols ← chain_h_columns chunks plan from_seam to_seam (trail_row plan);
  h ← from_nested_csc (u32 (trail_row plan)) (u32 (chain_faults plan)) cols;
  canonicalize h.

(** ** Closing *)

Definition dem_close (dem : extended_dem) (to_seam from_seam : nat)
    : res (@detector_error_model R) :=
  _ ← validate dem "dem_close";
  _ ← reject_extra_seams dem from_seam to_seam "dem_close";
  let n_faults := num_faults dem in
  let n_obs := e_num_observables dem in
  n_lead ← seam_rows_or_zero dem to_seam;
  let n_interior := num_interior_rows dem in
  let n_det := u32 (n_lead + n_interior) in
  let h := tensor_of_shape [n_det; n_faults] in
  let o := tensor_of_shape [n_obs; n_faults] in
  h ← (if 0 <? n_lead then
         ls ← get_seam dem to_seam;
         lead_H ← extract_row_band (e_H dem) (row_begin ls) (row_end ls);
         write_sparse_block h lead_H 0 0
       else Ok h);
  interior ← extract_interior_rows (e_H dem) (e_seams dem);
  h ← write_sparse_block h interior n_lead 0;
  o ← write_sparse_block o (e_O dem) 0 0;
  Ok (mk_dem h (e_error_rates dem) o None).

(** One iteration of the forward pass of [dem_close_all]. *)
Definition close_step (chunks : list extended_dem) (col_off : list nat) (from_seam to_seam i : nat)
    (st : tensor * tensor * nat * list R) : res (tensor * tensor * nat * list R) :=
  let '(h, o, row_cursor, rates) := st in
  c ← vget chunks i;
  off ← vget col_off i;
  interior ← extract_interior_rows (e_H c) (e_seams c);
  hr ← (if 0 <? num_rows_ interior then
          h ← write_sparse_block h interior row_cursor off;
          Ok (h, u64 (row_cursor + num_rows_ interior))
        else Ok (h, row_cursor));
  let '(h, row_cursor) := hr in
  hr ← (if i + 1 <? length chunks then
          next ← vget chunks (i + 1);
          if has_seam c from_seam && has_seam next to_seam then
            fs ← get_seam c from_seam;
            ts ← get_seam next to_seam;
            from_H ← extract_row_band (e_H c) (row_begin fs) (row_end fs);
            to_H ← extract_row_band (e_H next) (row_begin ts) (row_end ts);
            h ← write_sparse_block h from_H row_cursor off;
            off' ← vget col_off (i + 1);
            h ← write_sparse_block h to_H row_cursor off';
            Ok (h, u64 (row_cursor + seam_num_rows fs))
          else Ok (h, row_cursor)
        else Ok (h, row_cursor));
  let '(h, row_cursor) := hr in
  o ← write_sparse_block o (e_O c) 0 off;
  Ok (h, o, row_cursor, rates ++ e_error_rates c).

Definition dem_close_all (chunks : list extended_dem) (from_seam to_seam : nat)
    : res (@detector_error_model R) :=
  match chunks with
  | [] => Throw (InvalidArgument "dem_close_all: dem_chunks must be non-empty")
  | c0 :: _ =>
      let T := length chunks in
      _ ← for_u 0 T (λ i _,
            c ← vget chunks i;
            _ ← validate c "dem_close_all: chunk ";
            reject_extra_seams c from_seam to_seam "dem_close_all: chunk ") tt;
      let k := e_num_observables c0 in
      _ ← for_u 1 T (λ i _,
            c ← vget chunks i;
            throw_if (negb (e_num_observables c =? k))
              (InvalidArgument "dem_close_all: observable count mismatch at chunk ")) tt;
      _ ← for_u 0 (T - 1) (λ i _,
            a ← vget chunks i;
            b ← vget chunks (i + 1);
            check_seam_boundary a b from_seam to_seam "dem_close_all: boundary ") tt;
      let col_off := dem_chunks_to_fault_offsets chunks in
      n_faults ← vget col_off (length col_off - 1);
      lead ← seam_rows_or_zero c0 to_seam;
      let total_interior := foldl (λ acc c, u64 (acc + num_interior_rows c)) 0 chunks in
      total_seam ← for_u 0 (T - 1) (λ i acc,
            c ← vget chunks i;
            if has_seam c from_seam
            then s ← get_seam c from_seam; Ok (u64 (acc + seam_num_rows s))
            else Ok acc) 0;
      let n_det := u64 (u64 (lead + total_interior) + total_seam) in
      let h := tensor_of_shape [n_det; n_faults] in
      let o := tensor_of_shape [k; n_faults] in
      h ← (if (0 <? lead) && has_seam c0 to_seam then
             s ← get_seam c0 to_seam;
             lead_H ← extract_row_band (e_H c0) (row_begin s) (row_end s);
             off ← vget col_off 0;
             write_sparse_block h lead_H 0 off
           else Ok h);
      st ← for_u 0 T (close_step chunks col_off from_seam to_seam) (h, o, lead, []);
      let '(h, o, _, rates) := st in
      Ok (mk_dem h rates o None)
  end.

(** ** Streaming helpers *)

Definition chunk_seam_width (chunk : extended_dem) (from_seam to_seam : nat) : res nat :=
  to_w ← seam_rows_or_zero chunk to_seam;
  if 0 <? to_w then Ok to_w else
  from_w ← seam_rows_or_zero chunk from_seam;
  if 0 <? from_w then Ok from_w else Ok 0.

Definition validate_dem_chunk_sequence (chunks : list extended_dem) (from_seam to_seam : nat)
    (fn : string) : res unit :=
  match chunks with
  | [] => Throw (InvalidArgument (fn +:+ ": dem_chunks must be non-empty"))
  | c0 :: _ =>
      d ← chunk_seam_width c0 from_seam to_seam;
      _ ← throw_if (d =? 0) (InvalidArgument (fn +:+ ": chunk 0 has no seam rows"));
      foldM (λ c _,
        _ ← throw_if (negb (num_interior_rows c mod d =? 0))
              (InvalidArgument (fn +:+ ": interior rows not a whole number of rounds"));
        foldM (λ s _, throw_if (negb (seam_num_rows s =? 0) && negb (seam_num_rows s =? d))
              (InvalidArgument (fn +:+ ": seam width != sequence width"))) (e_seams c) tt) chunks tt
  end.

Definition dem_chunk_rounds (chunk : extended_dem) (from_seam to_seam : nat) : res nat :=
  d ← chunk_seam_width chunk from_seam to_seam;
  _ ← throw_if (d =? 0)
        (InvalidArgument "dem_chunk_rounds: chunk has no seam rows on either side");
  _ ← throw_if (negb (num_interior_rows chunk mod d =? 0))
        (InvalidArgument "dem_chunk_rounds: interior rows not a whole number of rounds");
  to_w ← seam_rows_or_zero chunk to_seam;
  let leading := if 0 <? to_w then 1 else 0 in
  Ok (u32 (leading + num_interior_rows chunk / d)).

Definition dem_chunks_to_rounds (chunks : list extended_dem) (from_seam to_seam : nat) : res nat :=
  _ ← validate_dem_chunk_sequence chunks from_seam to_seam "dem_chunks_to_rounds";
  foldM (λ c rounds, r ← dem_chunk_rounds c from_seam to_seam; Ok (u64 (rounds + r))) chunks 0.

(** [++round] on an [int32_t]: past its range the increment is undefined. *)
Definition incr_int32 (round : nat) : res nat :=
  if (Z.of_nat round <? 2 ^ 31 - 1)%Z then Ok (round + 1) else Undef.

Definition dem_chunks_to_detector_round (chunks : list extended_dem) (from_seam to_seam : nat)
    : res (list nat) :=
  _ ← validate_dem_chunk_sequence chunks from_seam to_seam "dem_chunks_to_detector_round";
  c0 ← vget chunks 0;
  d ← chunk_seam_width c0 from_seam to_seam;
  st ← foldM (λ c st,
         rounds ← dem_chunk_rounds c from_seam to_seam;
         for_u 0 rounds (λ _ st,
           let '(result, round) := st in
           round' ← incr_int32 round;
           Ok (result ++ replicate d round, round')) st) chunks ([], 0);
  Ok st.1.

Definition dem_chunks_to_o_sparse (chunks : list extended_dem) : res (list (list nat)) :=
  match chunks with
  | [] => Throw (InvalidArgument "dem_chunks_to_o_sparse: dem_chunks must be non-empty")
  | c0 :: rest =>
      _ ← foldM (λ c _, validate c "dem_chunks_to_o_sparse: chunk ") chunks tt;
      let k_obs := e_num_observables c0 in
      _ ← foldM (λ c _, throw_if (negb (e_num_observables c =? k_obs))
            (InvalidArgument "dem_chunks_to_o_sparse: observable count mismatch at chunk ")) rest tt;
      st ← foldM (λ c st,
             let '(o_sparse, col_off) := st in
             let nc := num_faults c in
             _ ← throw_if ((0 <? nc) && bool_decide (UINT32_MAX < Z.of_nat (u64_sub (u64 (col_off + nc)) 1))%Z)
                   (OverflowError "dem_chunks_to_o_sparse: global fault column exceeds uint32_t");
             if num_cols_ (e_O c) =? 0 then Ok (o_sparse, u64 (col_off + nc)) else
             obs_csc ← (if is_csc (e_O c) then Ok (e_O c) else to_csc (e_O c));
             o_sparse ← for_entries obs_csc nc (λ fc row o_sparse,
                          push_at o_sparse row (u32 (col_off + fc))) o_sparse;
             Ok (o_sparse, u64 (col_off + nc))) chunks (replicate k_obs [], 0);
      Ok st.1
  end.
End extended.
Arguments extended_dem R : clear implicits.
