(* ===== verification/ExtendedFacts.v ===== *)
(** * Extended detector error models: bands and blocks of sparse matrices

    The matrix helpers of [ExtendedDem] on column lists.  Selecting rows [idx]
    of a matrix turns a column into [pick idx] of it, the sorted list of the
    new positions of its entries; [hcat], [vstack] and the paddings append,
    stack and shift columns. *)

From S2P Require Import Prelude Rates Ordering Tensor SparseMatrix SparseFacts SparseCanon RoundLayout DetectorErrorModel ExtendedDem.

(** ** Selecting rows of a column *)

Fixpoint pick_from (k : nat) (idx col : list nat) : list nat :=
  match idx with
  | [] => []
  | r :: idx => replicate (occ r col) k ++ pick_from (S k) idx col
  end.
Abbreviation pick := (pick_from 0).

Definition shift (n : nat) (col : list nat) : list nat := Nat.add n <$> col.

Lemma shift_0 col : shift 0 col = col.
Proof. unfold shift. apply list_fmap_id. Qed.
Lemma shift_shift a b col : shift a (shift b col) = shift (a + b) col.
Proof. unfold shift. rewrite <-list_fmap_compose. apply list_fmap_ext. intros. simpl. lia. Qed.

Lemma pick_from_app k idx1 idx2 col :
  pick_from k (idx1 ++ idx2) col = pick_from k idx1 col ++ pick_from (k + length idx1) idx2 col.
Proof.
  revert k. induction idx1 as [|r idx1 IH]; intros k; simpl; [by rewrite Nat.add_0_r|].
  rewrite IH, app_assoc. do 2 f_equal. lia.
Qed.
Lemma pick_from_shift k n idx col : pick_from (n + k) idx col = shift n (pick_from k idx col).
Proof.
  revert k. induction idx as [|r idx IH]; intros k; simpl; [done|].
  unfold shift in *. rewrite fmap_app, fmap_replicate. f_equal. rewrite <-IH. f_equal. lia.
Qed.
Lemma pick_app idx1 idx2 col :
  pick (idx1 ++ idx2) col = pick idx1 col ++ shift (length idx1) (pick idx2 col).
Proof. by rewrite pick_from_app, <-pick_from_shift, Nat.add_0_r. Qed.

Lemma occ_cons x y l : occ x (y :: l) = (if decide (y = x) then 1 else 0) + occ x l.
Proof.
  unfold occ. case_decide; [rewrite count_occ_cons_eq by done|rewrite count_occ_cons_neq by done]; lia.
Qed.

Lemma occ_pick k idx col x :
  occ x (pick_from k idx col) =
    if decide (k ≤ x) then match idx !! (x - k) with Some r => occ r col | None => 0 end else 0.
Proof.
  revert k. induction idx as [|r idx IH]; intros k; simpl; [by case_decide|].
  rewrite occ_app, IH. destruct (decide (x = k)) as [->|Hne].
  - rewrite occ_replicate, Nat.sub_diag, (decide_False (P := S k ≤ k)), decide_True by lia. simpl. lia.
  - rewrite occ_absent by (intros [-> _]%elem_of_replicate; done).
    destruct (decide (k ≤ x)); [|by rewrite decide_False by lia].
    rewrite decide_True by lia. by replace (x - k) with (S (x - S k)) by lia.
Qed.

Lemma pick_ge k idx col : Forall (λ x, k ≤ x) (pick_from k idx col).
Proof.
  revert k. induction idx as [|r idx IH]; intros k; simpl; [done|].
  apply Forall_app. split; [by apply Forall_replicate|].
  eapply Forall_impl; [apply IH|]. simpl. lia.
Qed.

Lemma sorted_app_le (l1 l2 : list nat) :
  StronglySorted (≤) l1 → StronglySorted (≤) l2 → (∀ x y, x ∈ l1 → y ∈ l2 → x ≤ y) →
  StronglySorted (≤) (l1 ++ l2).
Proof.
  induction 1 as [|x l1 _ IH Hall]; intros Hs2 Hle; [done|]. cbn [app]. constructor.
  - apply IH; [done|]. intros. apply Hle; [by right|done].
  - apply Forall_app. split; [done|]. apply Forall_forall. intros y Hy. apply Hle; [by left|done].
Qed.

Lemma sorted_replicate n (k : nat) : StronglySorted (≤) (replicate n k).
Proof. induction n; simpl; constructor; [done|]. by apply Forall_replicate. Qed.

Lemma pick_sorted k idx col : StronglySorted (≤) (pick_from k idx col).
Proof.
  revert k. induction idx as [|r idx IH]; intros k; simpl; [constructor|].
  apply sorted_app_le; [apply sorted_replicate|apply IH|].
  intros x y [-> _]%elem_of_replicate Hy.
  pose proof (pick_ge (S k) idx col) as Hge. rewrite Forall_forall in Hge. apply Hge in Hy. lia.
Qed.

Lemma pick_bound idx col : Forall (λ x, x < length idx) (pick idx col).
Proof.
  apply Forall_forall. intros x Hx. destruct (decide (x < length idx)); [done|].
  exfalso. apply list_elem_of_In, (count_occ_In Nat.eq_dec) in Hx. fold (occ x (pick idx col)) in Hx.
  rewrite occ_pick, decide_True, Nat.sub_0_r, lookup_ge_None_2 in Hx by lia. lia.
Qed.

Lemma pick_notin k r idx col : r ∉ idx → pick_from k idx (r :: col) = pick_from k idx col.
Proof.
  revert k. induction idx as [|x idx IH]; intros k Hr; cbn [pick_from]; [done|].
  rewrite IH by set_solver. unfold occ. rewrite count_occ_cons_neq; [done|set_solver].
Qed.
Lemma length_pick_le k idx col : NoDup idx → length (pick_from k idx col) ≤ length col.
Proof.
  intros Hnd. revert k. induction col as [|x col IH]; intros k.
  - clear Hnd. revert k. induction idx; intros k; simpl; [done|]. apply IHidx.
  - cbn [length]. destruct (decide (x ∈ idx)) as [(pre&post&->)%list_elem_of_split|Hx].
    + apply NoDup_app in Hnd as (Hnd1&Hdisj&Hnd2). apply NoDup_cons in Hnd2 as [Hx Hnd2].
      specialize (IH k). rewrite pick_from_app, length_app in *. cbn [pick_from] in *.
      rewrite !length_app, !length_replicate in *.
      rewrite (pick_notin k x pre) by set_solver. rewrite pick_notin by done.
      unfold occ in *. rewrite count_occ_cons_eq by done. lia.
    + rewrite pick_notin by done. specialize (IH k). lia.
Qed.

(** Rows [0..n) in order only sort the column. *)
Lemma sorted_perm_eq (l l' : list nat) :
  StronglySorted (≤) l → StronglySorted (≤) l' → (∀ x, occ x l = occ x l') → l = l'.
Proof.
  intros Hl Hl' Ho. apply (StronglySorted_unique (≤)); [done|done|].
  by apply (Permutation_count_occ Nat.eq_dec).
Qed.
Lemma pick_seq n col :
  StronglySorted (≤) col → Forall (λ x, x < n) col → pick (seq 0 n) col = col.
Proof.
  intros Hs Hb. apply sorted_perm_eq; [apply pick_sorted|done|]. intros x.
  rewrite occ_pick, decide_True, Nat.sub_0_r by lia. destruct (decide (x < n)).
  - by rewrite lookup_seq_lt.
  - rewrite lookup_seq_ge by lia. symmetry. apply occ_absent. intros Hx.
    rewrite Forall_forall in Hb. apply Hb in Hx. lia.
Qed.

(** ** Column lists *)

Definition nnz (cs : list (list nat)) : nat := length (concat cs).

Lemma nnz_app cs cs' : nnz (cs ++ cs') = nnz cs + nnz cs'.
Proof. unfold nnz. by rewrite concat_app, length_app. Qed.
Lemma nnz_cons c cs : nnz (c :: cs) = length c + nnz cs.
Proof. unfold nnz. cbn [concat]. by rewrite length_app. Qed.
Lemma nnz_empty n : nnz (replicate n []) = 0.
Proof. unfold nnz. by rewrite concat_replicate_nil. Qed.

(** Stack column lists of the same width, the second [n] rows below. *)
Definition stack (n : nat) (cs cs' : list (list nat)) : list (list nat) :=
  zip_with (λ c c', c ++ shift n c') cs cs'.

Lemma nnz_stack n cs cs' : length cs = length cs' → nnz (stack n cs cs') = nnz cs + nnz cs'.
Proof.
  revert cs'. induction cs as [|c cs IH]; intros [|c' cs'] Hl; try done.
  cbn [stack zip_with]. fold (stack n cs cs'). rewrite !nnz_cons, length_app, IH by (simpl in Hl; lia).
  unfold shift. rewrite length_fmap. lia.
Qed.
Lemma stack_pick idx1 idx2 cs :
  stack (length idx1) (pick idx1 <$> cs) (pick idx2 <$> cs) = pick (idx1 ++ idx2) <$> cs.
Proof.
  unfold stack. rewrite zip_with_fmap_l, zip_with_fmap_r, zip_with_diag.
  apply list_fmap_ext. intros. by rewrite pick_app.
Qed.
Lemma nnz_pick_app idx1 idx2 cs :
  nnz (pick (idx1 ++ idx2) <$> cs) = nnz (pick idx1 <$> cs) + nnz (pick idx2 <$> cs).
Proof. rewrite <-stack_pick, nnz_stack by (by rewrite !length_fmap). done. Qed.
Lemma nnz_pick_le idx cs : NoDup idx → nnz (pick idx <$> cs) ≤ nnz cs.
Proof.
  intros Hnd. induction cs as [|c cs IH]; [done|]. rewrite fmap_cons, !nnz_cons.
  pose proof (length_pick_le 0 idx c Hnd). lia.
Qed.

(** ** Both nested forms of a matrix *)

Record view (m : sparse_binary_matrix) (r c : nat) (cs rs : list (list nat)) : Prop := {
  v_num_rows : num_rows_ m = r;
  v_num_cols : num_cols_ m = c;
  v_csc : to_nested_csc m = Ok cs;
  v_csr : to_nested_csr m = Ok rs;
  v_cols : length cs = c;
  v_rows : length rs = r;
  v_cols_bound : Forall (Forall (λ i, i < r)) cs;
  v_rows_bound : Forall (Forall (λ j, j < c)) rs;
  v_occ : ∀ i j l col, rs !! i = Some l → cs !! j = Some col → occ j l = occ i col;
  v_nnz : length (indices_ m) = nnz cs;
  v_fits : (Z.of_nat r < 2 ^ 32 ∧ Z.of_nat c < 2 ^ 32 ∧ Z.of_nat (nnz cs) < 2 ^ 32)%Z
}.

Definition well_formed (m : sparse_binary_matrix) : Prop := ∃ gs, wf m gs.
Definition cols_of (m : sparse_binary_matrix) : list (list nat) :=
  match to_nested_csc m with Ok cs => cs | _ => [] end.
Definition rows_of (m : sparse_binary_matrix) : list (list nat) :=
  match to_nested_csr m with Ok rs => rs | _ => [] end.

Lemma occ_transposed n gs i j l col :
  gs !! i = Some l → transposed n gs !! j = Some col → occ j l = occ i col.
Proof.
  intros Hl Hc. pose proof (lookup_lt_Some _ _ _ Hc) as Hj. rewrite length_transposed in Hj.
  rewrite lookup_transposed in Hc by done. injection Hc as <-.
  by rewrite occ_keyed, decide_True, Nat.sub_0_r, Hl by lia.
Qed.

Lemma wf_view m : well_formed m → view m (num_rows_ m) (num_cols_ m) (cols_of m) (rows_of m).
Proof.
  intros [gs Hwf]. unfold cols_of, rows_of.
  rewrite (to_nested_csc_spec m gs), (to_nested_csr_spec m gs) by done.
  pose proof (wf_num_groups m gs Hwf) as Hl. destruct Hwf as [(Hl0&Hp&Hi) Hb Hr Hc Hz].
  pose proof (transposed_bound (index_bound m) gs) as Ht.
  pose proof (length_concat_transposed (index_bound m) gs Hb) as Hn.
  assert (wf m gs) as Hwf by (by split; [split|..]).
  pose proof (to_nested_csc_spec m gs Hwf) as Hcsc. pose proof (to_nested_csr_spec m gs Hwf) as Hcsr.
  unfold num_groups, index_bound in *. rewrite Hl in Ht. destruct (is_csc m); split; try done.
  - apply length_transposed.
  - intros i j l col Hi' Hj. symmetry. by eapply occ_transposed.
  - by rewrite Hi.
  - apply length_transposed.
  - intros i j l col Hi' Hj. by eapply occ_transposed.
  - unfold nnz. by rewrite Hi.
  - unfold nnz. rewrite Hn. done.
Qed.

(** A matrix built column by column. *)
Record cols_ok (r c : nat) (cs : list (list nat)) : Prop := {
  co_length : length cs = c;
  co_bound : Forall (Forall (λ i, i < r)) cs;
  co_rows : (Z.of_nat r < 2 ^ 32)%Z;
  co_cols : (Z.of_nat (c + 1) < 2 ^ 32)%Z;
  co_nnz : (Z.of_nat (nnz cs) < 2 ^ 32)%Z
}.

Lemma wf_cols r c cs : cols_ok r c cs → wf (of_groups csc r c cs) cs.
Proof. intros [? ? ? ? ?]. apply wf_of_groups; try done. lia. Qed.

Lemma from_cols r c cs : cols_ok r c cs → from_nested_csc r c cs = Ok (of_groups csc r c cs).
Proof.
  intros [Hl Hb Hr Hc Hz]. eapply decides_returns; [apply from_nested_csc_decides|]; [done| |done].
  unfold nnz in Hz. lia.
Qed.

Lemma nested_cols r c cs : cols_ok r c cs → to_nested_csc (of_groups csc r c cs) = Ok cs.
Proof. intros Hok. by rewrite (to_nested_csc_spec _ cs) by (by apply wf_cols). Qed.

Lemma cols_of_groups r c cs : cols_ok r c cs → cols_of (of_groups csc r c cs) = cs.
Proof. intros Hok. unfold cols_of. by rewrite nested_cols. Qed.

(** A matrix known by its columns, in either layout. *)
Record has_cols (m : sparse_binary_matrix) (r c : nat) (cs : list (list nat)) : Prop := {
  hc_rows : num_rows_ m = r;
  hc_cols : num_cols_ m = c;
  hc_csc : to_nested_csc m = Ok cs;
  hc_length : length cs = c;
  hc_bound : Forall (Forall (λ i, i < r)) cs
}.

Lemma cols_has_cols r c cs : cols_ok r c cs → has_cols (of_groups csc r c cs) r c cs.
Proof. intros Hok. split; [done|done|by apply nested_cols|apply Hok|apply Hok]. Qed.
Lemma view_has_cols m r c cs rs : view m r c cs rs → has_cols m r c cs.
Proof. intros []. by split. Qed.

(** ** Row selection *)

Lemma transposed_select c cs rs idx X :
  length cs = c → (∀ i j l col, rs !! i = Some l → cs !! j = Some col → occ j l = occ i col) →
  length X = length idx → (∀ k i, idx !! k = Some i → X !! k = rs !! i) →
  Forall (λ i, i < length rs) idx →
  transposed c X = pick idx <$> cs.
Proof.
  intros Hc Ho HX Hk Hb. apply list_eq_same_length with c;
    [by rewrite length_fmap|by rewrite length_transposed|].
  intros j x y Hj Hx Hy. rewrite lookup_transposed in Hx by done. injection Hx as <-.
  apply list_lookup_fmap_Some in Hy as (col&->&Hcol).
  apply sorted_perm_eq; [apply keyed_sorted|apply pick_sorted|]. intros g.
  rewrite occ_keyed, occ_pick, !decide_True, Nat.sub_0_r by lia.
  destruct (idx !! g) as [i|] eqn:Hi.
  - rewrite (Hk g i Hi). rewrite Forall_forall in Hb.
    destruct (lookup_lt_is_Some_2 rs i) as [l Hl]; [by eapply Hb, list_elem_of_lookup_2|].
    rewrite Hl. by apply Ho.
  - rewrite lookup_ge_None_2; [done|]. apply lookup_ge_None_1 in Hi. lia.
Qed.

Lemma select_rows m r c cs rs idx X :
  view m r c cs rs → NoDup idx → Forall (λ i, i < r) idx → (Z.of_nat (length idx + 1) < 2 ^ 32)%Z →
  length X = length idx → (∀ k i, idx !! k = Some i → X !! k = rs !! i) →
  returns (from_nested_csr (length idx) c X) (λ m', has_cols m' (length idx) c (pick idx <$> cs)).
Proof.
  intros [Hr Hc Hcsc Hcsr Hlc Hlr Hbc Hbr Ho Hn (Hfr&Hfc&Hfn)] Hnd Hidx Hfit HX Hk.
  assert (Forall (Forall (λ j, j < c)) X) as HbX.
  { apply Forall_forall. intros l (k&Hl)%list_elem_of_lookup.
    destruct (lookup_lt_is_Some_2 idx k) as [i Hi]; [apply lookup_lt_Some in Hl; lia|].
    rewrite (Hk k i Hi) in Hl. rewrite Forall_forall in Hbr. by eapply Hbr, list_elem_of_lookup_2. }
  assert (transposed c X = pick idx <$> cs) as Ht.
  { eapply transposed_select; [done|exact Ho|done|done|by rewrite Hlr]. }
  pose proof (length_concat_transposed c X HbX) as HnX. rewrite Ht in HnX. fold (nnz (pick idx <$> cs)) in HnX.
  pose proof (nnz_pick_le idx cs Hnd).
  exists (of_groups csr (length idx) c X). split.
  { eapply decides_returns; [apply from_nested_csr_decides|]; [done|lia|].
    split; [done|]. split; [lia|done]. }
  assert (wf (of_groups csr (length idx) c X) X) as Hwf.
  { apply wf_of_groups; [done|done|lia|lia|lia]. }
  split; [done|done| |by rewrite length_fmap|].
  - rewrite (to_nested_csc_spec _ X) by done. cbn. by rewrite <-Ht.
  - apply Forall_fmap, Forall_forall. intros col _. apply pick_bound.
Qed.

Lemma cols_ok_empty c : (Z.of_nat (c + 1) < 2 ^ 32)%Z → cols_ok 0 c (replicate c []).
Proof.
  intros Hc. split; [apply length_replicate|by apply Forall_replicate|done|done|].
  by rewrite nnz_empty.
Qed.
Lemma zero_matrix_spec c :
  (Z.of_nat (c + 1) < 2 ^ 32)%Z → zero_matrix 0 c = Ok (of_groups csc 0 c (replicate c [])).
Proof. intros. by apply from_cols, cols_ok_empty. Qed.

Lemma pick_nil cs : pick [] <$> cs = replicate (length cs) [].
Proof. induction cs as [|c cs IH]; [done|]. rewrite fmap_cons, IH. done. Qed.

Lemma extract_row_band_spec m r c cs rs lo hi :
  view m r c cs rs → lo ≤ hi → hi ≤ r → (Z.of_nat (r + 1) < 2 ^ 32)%Z → (Z.of_nat (c + 1) < 2 ^ 32)%Z →
  returns (extract_row_band m lo hi) (λ m', has_cols m' (hi - lo) c (pick (seq lo (hi - lo)) <$> cs)).
Proof.
  intros Hv Hlo Hhi Hfr Hfc. pose proof Hv as [Hr Hc Hcsc Hcsr Hlc Hlr Hbc Hbr Ho Hn (?&?&?)].
  unfold extract_row_band. rewrite u32_sub_le by lia.
  destruct (Nat.eqb_spec (hi - lo) 0) as [Hz|Hnz].
  { rewrite Hc, zero_matrix_spec, Hz by lia. apply returns_ok. cbn [seq]. rewrite pick_nil, Hlc.
    by apply cols_has_cols, cols_ok_empty. }
  rewrite Hcsr. cbn [mbind res_bind].
  assert (length (slice rs lo hi) = hi - lo) as Hls by (rewrite length_slice; lia).
  pose proof (fill_loop (slice rs lo hi) [] (λ r0 selected, x ← vget rs (u32 (lo + r0)); vset selected r0 x))
    as Hfill. rewrite Hls in Hfill. rewrite Hfill.
  2:{ intros i x out Hx. pose proof (lookup_lt_Some _ _ _ Hx). rewrite lookup_slice in Hx by lia.
      rewrite wrap_small by lia. by rewrite (vget_ok _ _ x). }
  cbn [mbind res_bind]. rewrite Hc.
  pose proof (select_rows m r c cs rs (seq lo (hi - lo)) (slice rs lo hi) Hv) as Hsel.
  rewrite length_seq in Hsel. apply Hsel; [apply NoDup_seq| |lia|done|].
  - apply Forall_seq. lia.
  - intros k i [-> Hk]%lookup_seq. by rewrite lookup_slice by lia.
Qed.

Definition outside (seams : list seam) (r : nat) : bool := negb (existsb (in_band r) seams).

Lemma extract_interior_rows_spec m r c cs rs seams :
  view m r c cs rs → (Z.of_nat (r + 1) < 2 ^ 32)%Z →
  let idx := filter (outside seams) (seq 0 r) in
  returns (extract_interior_rows m seams) (λ m', has_cols m' (length idx) c (pick idx <$> cs)).
Proof.
  intros Hv Hfr idx. pose proof Hv as [Hr Hc Hcsc Hcsr Hlc Hlr Hbc Hbr Ho Hn (?&?&?)].
  unfold extract_interior_rows. rewrite Hcsr, Hr. cbn [mbind res_bind].
  assert (length idx ≤ r) as Hle by (unfold idx; rewrite length_filter; by rewrite length_seq).
  destruct (for_u_inv 0 r (λ r interior, if existsb (in_band r) seams then Ok interior
      else x ← vget rs r; Ok (interior ++ [x]))
    (λ k X, let idx := filter (outside seams) (seq 0 k) in
       length X = length idx ∧ ∀ k i, idx !! k = Some i → X !! k = rs !! i) []) as (X&->&HX&Hk).
  - lia.
  - done.
  - intros k X Hkr [HX Hk]. rewrite Nat.add_1_r, seq_S, list.filter_app, filter_cons, filter_nil. cbn [plus].
    destruct (existsb (in_band k) seams) eqn:E.
    + assert (¬ outside seams k) by (unfold outside; rewrite E; simpl; tauto).
      apply returns_ok. by rewrite decide_False, app_nil_r.
    + destruct (lookup_lt_is_Some_2 rs k) as [l Hl]; [lia|]. rewrite (vget_ok _ _ l) by done.
      assert (outside seams k) by (unfold outside; rewrite E; simpl; tauto).
      apply returns_ok. rewrite decide_True by done. split; [by rewrite !length_app, HX|].
      intros k' i Hi. apply lookup_snoc_Some in Hi as [[Hlt Hi]|[-> ->]].
      * rewrite lookup_app_l by lia. by apply Hk.
      * rewrite <-HX, Hl. by rewrite list_lookup_middle.
  - cbn [mbind res_bind]. rewrite HX, wrap_small, Hc by (fold idx; lia).
    eapply select_rows; [done| | |fold idx; lia|done|done].
    + apply NoDup_filter, NoDup_seq.
    + apply Forall_forall. intros i [_ Hi%elem_of_seq]%list_elem_of_filter. lia.
Qed.

(** ** Blocks *)

Lemma hcat_spec a b r ca cb csa csb :
  has_cols a r ca csa → has_cols b r cb csb → cols_ok r (ca + cb) (csa ++ csb) →
  hcat a b = Ok (of_groups csc r (ca + cb) (csa ++ csb)).
Proof.
  intros [Hra Hca Ha _ _] [Hrb Hcb Hb _ _] Hok. unfold hcat. rewrite Ha, Hb, Hra, Hca, Hcb.
  cbn [mbind res_bind]. pose proof (co_cols _ _ _ Hok). rewrite (wrap_small 64) by lia.
  rewrite bool_decide_eq_false_2 by (unfold UINT32_MAX; lia). cbn [throw_if mbind res_bind].
  rewrite wrap_small by lia. by apply from_cols.
Qed.

Lemma stack_ok r1 r2 c cs1 cs2 :
  cols_ok r1 c cs1 → cols_ok r2 c cs2 → (Z.of_nat (r1 + r2) < 2 ^ 32)%Z →
  (Z.of_nat (nnz cs1 + nnz cs2) < 2 ^ 32)%Z → cols_ok (r1 + r2) c (stack r1 cs1 cs2).
Proof.
  intros [Hl1 Hb1 ? ? ?] [Hl2 Hb2 ? ? ?] Hr Hz. split; [| |done|done|].
  - unfold stack. rewrite length_zip_with. lia.
  - apply Forall_forall. intros x Hx. apply elem_of_lookup_zip_with in Hx as (k&c1&c2&->&H1&H2).
    rewrite Forall_forall in Hb1, Hb2. apply list_elem_of_lookup_2, Hb1 in H1.
    apply list_elem_of_lookup_2, Hb2 in H2. apply Forall_app. split.
    + eapply Forall_impl; [exact H1|]. simpl. lia.
    + apply Forall_fmap. eapply Forall_impl; [exact H2|]. simpl. lia.
  - rewrite nnz_stack by lia. done.
Qed.

Lemma vstack_spec r1 r2 c cs1 cs2 :
  cols_ok r1 c cs1 → cols_ok r2 c cs2 → (Z.of_nat (r1 + r2) < 2 ^ 32)%Z →
  (Z.of_nat (nnz cs1 + nnz cs2) < 2 ^ 32)%Z →
  vstack (of_groups csc r1 c cs1) (of_groups csc r2 c cs2) =
    Ok (of_groups csc (r1 + r2) c (stack r1 cs1 cs2)).
Proof.
  intros H1 H2 Hr Hz. pose proof (stack_ok _ _ _ _ _ H1 H2 Hr Hz) as Hok.
  unfold vstack. cbn [num_cols_ num_rows_ of_groups]. rewrite Nat.eqb_refl. cbn [negb throw_if mbind res_bind].
  rewrite (wrap_small 64), bool_decide_eq_false_2 by (unfold UINT32_MAX; lia).
  cbn [throw_if mbind res_bind]. rewrite !nested_cols by done. cbn [mbind res_bind].
  pose proof (fill_loop (stack r1 cs1 cs2) [] (λ c combined, ca ← vget cs1 c; cb ← vget cs2 c;
      vset combined c (ca ++ ((λ r, u32 (r1 + r)) <$> cb)))) as Hfill.
  rewrite (co_length _ _ _ Hok) in Hfill. rewrite Hfill.
  - cbn [mbind res_bind]. rewrite wrap_small by lia. by apply from_cols.
  - intros i x out Hx. unfold stack in Hx. apply lookup_zip_with_Some in Hx as (x1&x2&->&Hx1&Hx2).
    rewrite (vget_ok cs1 _ x1) by done. cbn [mbind res_bind].
    rewrite (vget_ok cs2 _ x2) by done. cbn [mbind res_bind]. do 2 f_equal.
    apply list_fmap_ext. intros k y Hy. apply wrap_small.
    pose proof (co_bound _ _ _ H2) as Hb. rewrite Forall_forall in Hb.
    apply list_elem_of_lookup_2, Hb in Hx2. rewrite Forall_forall in Hx2.
    apply list_elem_of_lookup_2, Hx2 in Hy. lia.
Qed.

Lemma no_rows_empty c cs : cols_ok 0 c cs → cs = replicate c [].
Proof.
  intros [Hl Hb _ _ _]. symmetry. apply replicate_as_elem_of. split; [done|]. intros x Hx.
  rewrite Forall_forall in Hb. apply Hb in Hx. destruct x as [|y x]; [done|].
  apply Forall_cons_1 in Hx as [? _]. lia.
Qed.

Lemma stack_empty_l c cs : length cs = c → stack 0 (replicate c []) cs = cs.
Proof.
  intros <-. unfold stack. rewrite zip_with_replicate_l by done. rewrite <-(list_fmap_id cs) at 2.
  apply list_fmap_ext. intros k x _. simpl. apply shift_0.
Qed.
Lemma stack_empty_r n c cs : length cs = c → stack n cs (replicate c []) = cs.
Proof.
  intros <-. unfold stack. rewrite zip_with_replicate_r by done. rewrite <-(list_fmap_id cs) at 2.
  apply list_fmap_ext. intros k x _. simpl. by rewrite app_nil_r.
Qed.

(** The lambda [push] stacks, whether or not a part has rows. *)
Lemma push_rows_spec r1 r2 c cs1 cs2 :
  cols_ok r1 c cs1 → cols_ok r2 c cs2 → (Z.of_nat (r1 + r2) < 2 ^ 32)%Z →
  (Z.of_nat (nnz cs1 + nnz cs2) < 2 ^ 32)%Z →
  push_rows (of_groups csc r2 c cs2) (of_groups csc r1 c cs1) =
    Ok (of_groups csc (r1 + r2) c (stack r1 cs1 cs2)).
Proof.
  intros H1 H2 Hr Hz. unfold push_rows. cbn [num_rows_ of_groups].
  destruct (Nat.ltb_spec 0 r2) as [Hr2|Hr2].
  - destruct (Nat.ltb_spec 0 r1) as [Hr1|Hr1]; [by apply vstack_spec|].
    assert (r1 = 0) as -> by lia. rewrite (no_rows_empty c cs1) by done.
    by rewrite stack_empty_l by apply H2.
  - assert (r2 = 0) as -> by lia. rewrite (no_rows_empty c cs2) by done.
    by rewrite stack_empty_r, Nat.add_0_r by apply H1.
Qed.

Lemma nnz_pad l cs r : nnz (replicate l [] ++ cs ++ replicate r []) = nnz cs.
Proof. rewrite !nnz_app, !nnz_empty. lia. Qed.

Lemma pad_ok m r c cs l rt :
  has_cols m r c cs → (Z.of_nat r < 2 ^ 32)%Z → (Z.of_nat (l + c + rt + 1) < 2 ^ 32)%Z →
  (Z.of_nat (nnz cs) < 2 ^ 32)%Z →
  cols_ok r (l + c + rt) (replicate l [] ++ cs ++ replicate rt []).
Proof.
  intros [_ _ _ Hl Hb] Hr Hc Hz. split; [| |done|done|by rewrite nnz_pad].
  - rewrite !length_app, !length_replicate. lia.
  - apply Forall_app. split; [by apply Forall_replicate|].
    apply Forall_app. split; [done|by apply Forall_replicate].
Qed.

Lemma pad_right_spec m r c cs n :
  has_cols m r c cs → (Z.of_nat r < 2 ^ 32)%Z → (Z.of_nat (c + n + 1) < 2 ^ 32)%Z →
  (Z.of_nat (nnz cs) < 2 ^ 32)%Z →
  pad_right m (c + n) = Ok (of_groups csc r (c + n) (cs ++ replicate n [])).
Proof.
  intros Hm Hr Hc Hz. pose proof (pad_ok m r c cs 0 n Hm Hr Hc Hz) as Hok.
  destruct Hm as [Hmr Hmc Hcsc Hl _]. unfold pad_right. rewrite Hcsc, Hmr. cbn [mbind res_bind].
  rewrite resize_ge by lia. replace (c + n - length cs) with n by lia. by apply from_cols.
Qed.

Lemma pad_left_spec m r c cs l :
  has_cols m r c cs → (Z.of_nat r < 2 ^ 32)%Z → (Z.of_nat (l + c + 1) < 2 ^ 32)%Z →
  (Z.of_nat (nnz cs) < 2 ^ 32)%Z →
  pad_left m l (l + c) = Ok (of_groups csc r (l + c) (replicate l [] ++ cs)).
Proof.
  intros Hm Hr Hc Hz. pose proof (pad_ok m r c cs l 0 Hm Hr) as Hok.
  rewrite Nat.add_0_r, app_nil_r in Hok. specialize (Hok Hc Hz).
  destruct Hm as [Hmr Hmc Hcsc Hl _]. unfold pad_left. rewrite Hcsc, Hmr, Hmc. cbn [mbind res_bind].
  destruct (for_u_inv 0 c (λ c cols, sc ← vget cs c; vset cols (u32 (l + c)) sc)
    (λ j cols, cols = replicate l [] ++ take j cs ++ replicate (c - j) []) (replicate (l + c) []))
    as (cols&->&->).
  - lia.
  - rewrite Nat.sub_0_r. cbn [take app]. by rewrite replicate_add.
  - intros j cols Hj ->. destruct (lookup_lt_is_Some_2 cs j) as [x Hx]; [lia|].
    rewrite (vget_ok _ _ x) by done. cbn [mbind res_bind]. rewrite wrap_small by lia.
    apply returns_vset; [rewrite !length_app, length_take, !length_replicate; lia|].
    rewrite insert_app_r_alt by (rewrite length_replicate; lia). rewrite length_replicate.
    replace (l + j - l) with j by lia. f_equal.
    rewrite insert_app_r_alt, length_take by (rewrite length_take; lia).
    replace (j - j `min` length cs) with 0 by lia. replace (c - j) with (S (c - (j + 1))) by lia.
    cbn [replicate insert list_insert]. by rewrite Nat.add_1_r, (take_S_r _ _ x), <-app_assoc.
  - cbn [mbind res_bind]. rewrite Nat.sub_diag, <-Hl, firstn_all. cbn [replicate]. rewrite app_nil_r, Hl.
    by apply from_cols.
Qed.

Lemma length_stack n x y : length (stack n x y) = length x `min` length y.
Proof. apply length_zip_with. Qed.
Lemma stack_app n x y x' y' :
  length x = length x' → stack n (x ++ y) (x' ++ y') = stack n x x' ++ stack n y y'.
Proof. intros. unfold stack. by rewrite zip_with_app. Qed.
Lemma stack_under n c cs : length cs = c → stack n (replicate c []) cs = shift n <$> cs.
Proof. intros <-. unfold stack. by rewrite zip_with_replicate_l. Qed.
Lemma stack_shift m n cs cs' : stack (m + n) (shift m <$> cs) cs' = shift m <$> stack n cs cs'.
Proof.
  revert cs'. induction cs as [|c cs IH]; intros [|c' cs']; try done.
  unfold stack in *. cbn [fmap list_fmap zip_with]. f_equal; [|apply IH].
  rewrite <-shift_shift. unfold shift. by rewrite fmap_app.
Qed.

(** Five parts pushed one below the other. *)
Lemma push_five {B} (K : sparse_binary_matrix → res B) c r1 r2 r3 r4 r5 p1 p2 p3 p4 p5 :
  cols_ok r1 c p1 → cols_ok r2 c p2 → cols_ok r3 c p3 → cols_ok r4 c p4 → cols_ok r5 c p5 →
  (Z.of_nat (r1 + r2 + r3 + r4 + r5) < 2 ^ 32)%Z →
  (Z.of_nat (nnz p1 + nnz p2 + nnz p3 + nnz p4 + nnz p5) < 2 ^ 32)%Z →
  (h ← zero_matrix 0 c;
   h ← push_rows (of_groups csc r1 c p1) h;
   h ← push_rows (of_groups csc r2 c p2) h;
   h ← push_rows (of_groups csc r3 c p3) h;
   h ← push_rows (of_groups csc r4 c p4) h;
   h ← push_rows (of_groups csc r5 c p5) h; K h) =
  K (of_groups csc (r1 + r2 + r3 + r4 + r5) c
        (stack (r1 + r2 + r3 + r4) (stack (r1 + r2 + r3) (stack (r1 + r2) (stack r1 p1 p2) p3) p4) p5)).
Proof.
  intros H1 H2 H3 H4 H5 Hr Hz. pose proof (co_cols _ _ _ H1) as Hc.
  rewrite zero_matrix_spec by done. cbn [mbind res_bind].
  pose proof (cols_ok_empty c Hc) as H0. pose proof (nnz_empty c).
  rewrite push_rows_spec by (done || lia). cbn [mbind res_bind].
  rewrite stack_empty_l by apply H1. rewrite Nat.add_0_l.
  rewrite push_rows_spec by (done || lia). cbn [mbind res_bind].
  assert (cols_ok (r1 + r2) c (stack r1 p1 p2)) as H12 by (apply stack_ok; (done || lia)).
  assert (nnz (stack r1 p1 p2) = nnz p1 + nnz p2) as N12
    by (apply nnz_stack; by rewrite (co_length _ _ _ H1), (co_length _ _ _ H2)).
  rewrite push_rows_spec by (done || lia). cbn [mbind res_bind].
  assert (cols_ok (r1 + r2 + r3) c (stack (r1 + r2) (stack r1 p1 p2) p3)) as H13
    by (apply stack_ok; (done || lia)).
  assert (nnz (stack (r1 + r2) (stack r1 p1 p2) p3) = nnz p1 + nnz p2 + nnz p3) as N13
    by (rewrite nnz_stack; [lia|]; by rewrite (co_length _ _ _ H12), (co_length _ _ _ H3)).
  rewrite push_rows_spec by (done || lia). cbn [mbind res_bind].
  assert (cols_ok (r1 + r2 + r3 + r4) c (stack (r1 + r2 + r3) (stack (r1 + r2) (stack r1 p1 p2) p3) p4))
    as H14 by (apply stack_ok; (done || lia)).
  rewrite push_rows_spec; [done|done|done|lia|].
  rewrite nnz_stack by (by rewrite (co_length _ _ _ H13), (co_length _ _ _ H4)). lia.
Qed.

Lemma app_cols_ok r ca cb csa csb :
  length csa = ca → length csb = cb → Forall (Forall (λ i, i < r)) csa → Forall (Forall (λ i, i < r)) csb →
  (Z.of_nat r < 2 ^ 32)%Z → (Z.of_nat (ca + cb + 1) < 2 ^ 32)%Z → (Z.of_nat (nnz csa + nnz csb) < 2 ^ 32)%Z →
  cols_ok r (ca + cb) (csa ++ csb).
Proof.
  intros Hla Hlb Hba Hbb Hr Hc Hz. split; [rewrite length_app; lia|by apply Forall_app|done|done|].
  by rewrite nnz_app.
Qed.

(** ** Sums and lists *)

Lemma nnz_shift n cs : nnz (shift n <$> cs) = nnz cs.
Proof.
  induction cs as [|c cs IH]; [done|]. rewrite fmap_cons, !nnz_cons, IH. unfold shift. by rewrite length_fmap.
Qed.

Lemma shift_bound m n cs :
  Forall (Forall (λ i, i < n)) cs → Forall (Forall (λ i, i < m + n)) (shift m <$> cs).
Proof.
  intros Hcs. apply Forall_fmap. eapply Forall_impl; [exact Hcs|]. intros col Hcol.
  apply Forall_fmap. eapply Forall_impl; [exact Hcol|]. simpl. lia.
Qed.

Lemma nnz_bind {A} (f : A → list (list nat)) l : nnz (l ≫= f) = sum_list_with (λ x, nnz (f x)) l.
Proof. induction l as [|x l IH]; [done|]. cbn [mbind list_bind sum_list_with]. rewrite nnz_app. by f_equal. Qed.

Lemma length_bind {A B} (f : A → list B) l : length (l ≫= f) = sum_list_with (λ x, length (f x)) l.
Proof. induction l as [|x l IH]; [done|]. cbn [mbind list_bind sum_list_with]. rewrite length_app. by f_equal. Qed.

Lemma sum_take_S {A} (f : A → nat) l k x :
  l !! k = Some x → sum_list_with f (take (S k) l) = sum_list_with f (take k l) + f x.
Proof. intros Hx. rewrite (take_S_r _ _ x), sum_list_with_app by done. cbn [sum_list_with]. lia. Qed.

Lemma sum_take_le {A} (f : A → nat) l k : sum_list_with f (take k l) ≤ sum_list_with f l.
Proof. rewrite <-(take_drop k l) at 2. rewrite sum_list_with_app. lia. Qed.

(** All chunks agree with the first iff neighbours agree. *)
Lemma all_equal_adjacent {A} (f : A → nat) (l : list A) :
  (∀ i x y, l !! i = Some x → l !! S i = Some y → f y = f x) ↔
  (∀ i x x0, l !! i = Some x → l !! 0 = Some x0 → f x = f x0).
Proof.
  split.
  - intros Hadj i. induction i as [|i IH]; intros x x0 Hx H0; [congruence|].
    destruct (lookup_lt_is_Some_2 l i) as [y Hy]; [apply lookup_lt_Some in Hx; lia|].
    rewrite (Hadj i y x) by done. by apply IH.
  - intros Hall i x y Hx Hy. destruct (lookup_lt_is_Some_2 l 0) as [x0 H0]; [apply lookup_lt_Some in Hx; lia|].
    by rewrite (Hall _ _ _ Hx H0), (Hall _ _ _ Hy H0).
Qed.
