(* ===== verification/ExtendedChunk.v ===== *)
(** * Extended detector error models: valid chunks

    What [validate], [reject_extra_seams] and [check_seam_boundary] accept, and
    the row order of a chunk that passes them: the rows of the incoming seam,
    the interior rows and the rows of the outgoing seam are the rows of [H],
    each once. *)

From S2P Require Import Prelude Rates Ordering Tensor SparseMatrix SparseFacts SparseCanon RoundLayout DetectorErrorModel ExtendedDem ExtendedFacts.

(** ** Disjoint row bands *)

Definition apart (a b : nat * nat) : Prop := a.2 ≤ b.1 ∨ b.2 ≤ a.1.

#[global] Instance band_le_total : Total band_le.
Proof. intros [a1 a2] [b1 b2]. unfold band_le. simpl. lia. Qed.
#[global] Instance band_le_trans : Transitive band_le.
Proof. intros [a1 a2] [b1 b2] [c1 c2]. unfold band_le. simpl. lia. Qed.

(** A symmetric relation between all pairs does not depend on their order. *)
Lemma pairwise_perm {A} (P : A → A → Prop) l l' :
  (∀ x y, P x y → P y x) → l ≡ₚ l' → StronglySorted P l → StronglySorted P l'.
Proof.
  intros Hsym. induction 1 as [|x l l' Hp IH|x y l|l1 l2 l3 _ IH1 _ IH2]; intros Hs.
  - done.
  - inversion_clear Hs as [|? ? Hs' Hall]. constructor; [by apply IH|]. by rewrite <-Hp.
  - inversion_clear Hs as [|? ? Hs' Hall]. inversion_clear Hs' as [|? ? Hs'' Hall'].
    apply Forall_cons in Hall as [Hyx Hy]. constructor; [by constructor|]. constructor; [by apply Hsym|done].
  - auto.
Qed.

Lemma sorted_lookup_adjacent {A} (P : A → A → Prop) l :
  Sorted P l ↔ ∀ i x y, l !! i = Some x → l !! S i = Some y → P x y.
Proof.
  split.
  - induction 1 as [|a l Hs IH Hhd]; intros i x y Hx Hy; [done|].
    destruct i as [|i]; [|by apply (IH i)]. destruct Hhd; by simplify_eq/=.
  - induction l as [|a l IH]; intros Hi; constructor.
    + apply IH. intros i x y. apply (Hi (S i)).
    + destruct l as [|b l]; constructor. by apply (Hi 0).
Qed.

Lemma sorted_app_l {A} (P : A → A → Prop) l l' : Sorted P (l ++ l') → Sorted P l.
Proof.
  rewrite !sorted_lookup_adjacent. intros Hs i x y Hx Hy.
  apply (Hs i); by apply lookup_app_l_Some.
Qed.

Lemma sorted_last {A} (P : A → A → Prop) l x y : Sorted P (l ++ [x; y]) → P x y.
Proof.
  rewrite sorted_lookup_adjacent. intros Hs. apply (Hs (length l)); [by rewrite list_lookup_middle|].
  rewrite lookup_app_r by lia. by replace (S (length l) - length l) with 1 by lia.
Qed.

Lemma sorted_and {A} (P Q : A → A → Prop) l : Sorted P l ∧ Sorted Q l ↔ Sorted (λ x y, P x y ∧ Q x y) l.
Proof. rewrite !sorted_lookup_adjacent. naive_solver. Qed.

Lemma sorted_impl {A} (P Q : A → A → Prop) l : (∀ x y, P x y → Q x y) → Sorted P l → Sorted Q l.
Proof. rewrite !sorted_lookup_adjacent. naive_solver. Qed.

(** Sorted bands are pairwise apart iff neighbours are. *)
Lemma adjacent_apart l :
  Forall (λ b, b.1 < b.2) l → StronglySorted band_le l →
  (∀ i x y, l !! i = Some x → l !! S i = Some y → x.2 ≤ y.1) ↔ StronglySorted apart l.
Proof.
  intros Hne Hs. rewrite <-(sorted_lookup_adjacent (λ x y, x.2 ≤ y.1)). split.
  - induction Hs as [|a l Hs IH Hall]; intros Hadj; [constructor|].
    apply Forall_cons in Hne as [Ha Hne]. inversion_clear Hadj as [|? ? Hadj' Hhd].
    constructor; [by apply IH|]. destruct l as [|b l]; [done|].
    inversion_clear Hhd as [|? ? Hab]. inversion_clear Hs as [|? ? _ Hall'].
    apply Forall_cons. split; [by left|].
    eapply Forall_impl; [exact Hall'|]. intros x [?|[? _]]; left; lia.
  - induction Hs as [|a l Hs IH Hall]; intros Hap; [constructor|].
    apply Forall_cons in Hne as [Ha Hne]. inversion_clear Hap as [|? ? Hap' Hall'].
    constructor; [by apply IH|]. destruct l as [|b l]; constructor.
    apply Forall_cons in Hall as [Hab _], Hall' as [Hab' _], Hne as [Hb _].
    unfold band_le, apart in *. lia.
Qed.

Definition band_width (b : nat * nat) : nat := b.2 - b.1.

Lemma apart_sum_le l n :
  Forall (λ b, b.1 < b.2 ∧ b.2 ≤ n) l → StronglySorted apart l → sum_list_with band_width l ≤ n.
Proof.
  intros Hb Hs. pose proof (merge_sort_Permutation band_le l) as Hp.
  rewrite <-Hp in Hb |- *. apply (pairwise_perm _ _ (merge_sort band_le l)) in Hs;
    [|unfold apart; tauto|done].
  pose proof (StronglySorted_merge_sort band_le l) as Hle. clear Hp.
  revert Hb Hs Hle. generalize (merge_sort band_le l). clear l. intros l.
  cut (∀ lo, Forall (λ b, lo ≤ b.1) l → lo ≤ n → Forall (λ b, b.1 < b.2 ∧ b.2 ≤ n) l →
    StronglySorted apart l → StronglySorted band_le l → lo + sum_list_with band_width l ≤ n).
  { intros Hc ???. apply (Hc 0); [|lia|done..]. apply Forall_forall. lia. }
  induction l as [|a l IH]; intros lo Hlo Hn Hb Hap Hle; [simpl; lia|].
  apply Forall_cons in Hlo as [Ha _], Hb as [Hab Hb].
  inversion_clear Hap as [|? ? Hap' Haa]. inversion_clear Hle as [|? ? Hle' Hal].
  specialize (IH a.2). cbn [sum_list_with]. unfold band_width at 1.
  assert (a.2 + sum_list_with band_width l ≤ n); [|lia].
  apply IH; [|lia|done..]. rewrite Forall_forall in *. intros x Hx.
  specialize (Haa x Hx). specialize (Hal x Hx). specialize (Hb x Hx). unfold apart, band_le in *. lia.
Qed.

(** ** Seams of a chunk *)

Section chunk.
Context {R : Type}.
Implicit Types c : extended_dem R.

Definition seam_at c (id : nat) : option seam :=
  match get_seam c id with Ok s => Some s | _ => None end.

Lemma find_seam_at seams id :
  match find_seam seams id with
  | Ok s => existsb (λ s, seam_of s =? id) seams = true ∧ s ∈ seams ∧ seam_of s = id
  | Throw _ => existsb (λ s, seam_of s =? id) seams = false
  | Undef => False
  end.
Proof.
  induction seams as [|s seams IH]; simpl; [done|].
  destruct (Nat.eqb_spec (seam_of s) id); [simpl; split_and!; [done|by left|done]|].
  destruct (find_seam seams id); simpl; [|done|done]. destruct IH as (?&?&?). split_and!; [done|by right|done].
Qed.

Lemma has_seam_at c id : has_seam c id = bool_decide (is_Some (seam_at c id)).
Proof.
  unfold has_seam, seam_at, get_seam. pose proof (find_seam_at (e_seams c) id) as Hf.
  destruct (find_seam (e_seams c) id).
  - destruct Hf as [-> _]. symmetry. by apply bool_decide_eq_true_2.
  - rewrite Hf. symmetry. apply bool_decide_eq_false_2. by intros [? ?].
  - done.
Qed.
Lemma get_seam_at c id s : seam_at c id = Some s → get_seam c id = Ok s.
Proof. unfold seam_at. destruct (get_seam c id); naive_solver. Qed.
Lemma seam_at_elem c id s : seam_at c id = Some s → s ∈ e_seams c ∧ seam_of s = id.
Proof.
  unfold seam_at, get_seam. pose proof (find_seam_at (e_seams c) id) as Hf.
  destruct (find_seam (e_seams c) id); intros [= <-]. tauto.
Qed.
Lemma find_seam_nodup seams s :
  NoDup (seam_of <$> seams) → s ∈ seams → find_seam seams (seam_of s) = Ok s.
Proof.
  induction seams as [|x seams IH]; intros Hnd Hs; [set_solver|]. apply NoDup_cons in Hnd as [Hx Hnd].
  simpl. destruct (Nat.eqb_spec (seam_of x) (seam_of s)) as [E|E].
  - apply elem_of_cons in Hs as [->|Hs]; [done|]. exfalso. apply Hx, list_elem_of_fmap. eauto.
  - apply elem_of_cons in Hs as [->|Hs]; [done|]. by apply IH.
Qed.

Definition seam_width (s : seam) : nat := row_end s - row_begin s.
Definition width c (id : nat) : nat := from_option seam_width 0 (seam_at c id).
Definition band c (id : nat) : list nat :=
  from_option (λ s, seq (row_begin s) (seam_width s)) [] (seam_at c id).
Definition interior c : list nat := filter (outside (e_seams c)) (seq 0 (num_rows_ (e_H c))).

(** The order in which composition lists a chunk's rows. *)
Definition row_order (from_seam to_seam : nat) c : list nat :=
  band c to_seam ++ interior c ++ band c from_seam.

Lemma length_band c id : length (band c id) = width c id.
Proof. unfold band, width. destruct (seam_at c id); [apply length_seq|done]. Qed.

(** ** What the checks accept *)

(** The types of the fields, and ids that [add_seam] keeps unique. *)
Record typed c : Prop := {
  ty_H : well_formed (e_H c);
  ty_O : well_formed (e_O c) ∨ e_O c = sparse_empty;
  ty_rates : (Z.of_nat (length (e_error_rates c)) < 2 ^ 32)%Z;
  ty_ids : NoDup (seam_of <$> e_seams c);
  ty_ends : Forall (λ s, Z.of_nat (row_begin s) < 2 ^ 32 ∧ Z.of_nat (row_end s) < 2 ^ 32)%Z (e_seams c)
}.

Definition bands c : list (nat * nat) :=
  (λ s, (row_begin s, row_end s)) <$> filter (λ s, row_begin s < row_end s) (e_seams c).

Record valid_chunk c : Prop := {
  va_H : num_cols_ (e_H c) = length (e_error_rates c);
  va_O : (num_rows_ (e_O c) = 0 ∧ num_cols_ (e_O c) = 0) ∨ num_cols_ (e_O c) = length (e_error_rates c);
  va_range : ∀ s, s ∈ e_seams c → row_begin s ≤ row_end s ≤ num_rows_ (e_H c);
  va_apart : StronglySorted apart (bands c);
  va_tags : length (e_tags c) = sum_list_with seam_width (e_seams c)
}.

Lemma seam_num_rows_eq c s :
  typed c → row_begin s ≤ row_end s → s ∈ e_seams c → seam_num_rows s = seam_width s.
Proof.
  intros Hty Hle Hs. pose proof (ty_ends c Hty) as He. rewrite Forall_forall in He.
  apply u32_sub_le; [done|]. by apply He.
Qed.

Lemma sum_bands c :
  sum_list_with band_width (bands c) = sum_list_with seam_width (e_seams c).
Proof.
  unfold bands. induction (e_seams c) as [|s l IH]; [done|]. rewrite filter_cons.
  cbn [sum_list_with]. unfold seam_width at 1. case_decide as E.
  - cbn [fmap list_fmap sum_list_with]. rewrite <-IH. unfold band_width at 1. simpl. done.
  - rewrite IH. lia.
Qed.

Lemma sum_widths_le c :
  (∀ s, s ∈ e_seams c → row_begin s ≤ row_end s ≤ num_rows_ (e_H c)) →
  StronglySorted apart (bands c) → sum_list_with seam_width (e_seams c) ≤ num_rows_ (e_H c).
Proof.
  intros Hr Ha. rewrite <-sum_bands. apply apart_sum_le; [|done].
  apply Forall_fmap, Forall_forall. intros s [? Hs]%list_elem_of_filter. simpl. apply Hr in Hs. lia.
Qed.

(** Sums that stay below the width of the accumulator. *)
Lemma foldl_wrap {A} w (f : A → nat) l a :
  (0 ≤ w)%Z → (Z.of_nat (a + sum_list_with f l) < 2 ^ w)%Z →
  foldl (λ acc s, wrap w (acc + f s)) a l = a + sum_list_with f l.
Proof.
  intros Hw. revert a. induction l as [|x l IH]; intros a Hs; cbn [foldl sum_list_with] in *; [lia|].
  rewrite wrap_small, IH by lia. lia.
Qed.

Lemma foldl_ext_in {A B} (f g : A → B → A) l a :
  (∀ x y, y ∈ l → f x y = g x y) → foldl f a l = foldl g a l.
Proof.
  revert a. induction l as [|y l IH]; intros a Hfg; [done|]. cbn [foldl].
  rewrite Hfg by set_solver. apply IH. set_solver.
Qed.

Lemma foldl_seam_rows c :
  typed c → (∀ s, s ∈ e_seams c → row_begin s ≤ row_end s ≤ num_rows_ (e_H c)) →
  StronglySorted apart (bands c) →
  foldl (λ acc s, u32 (acc + seam_num_rows s)) 0 (e_seams c) = sum_list_with seam_width (e_seams c).
Proof.
  intros Hty Hr Ha. pose proof (sum_widths_le c Hr Ha).
  destruct (ty_H c Hty) as [gs Hwf]. pose proof (wf_rows _ _ Hwf).
  rewrite (foldl_ext_in _ (λ acc s, u32 (acc + seam_width s))).
  - rewrite foldl_wrap by lia. done.
  - intros a s Hs. rewrite (seam_num_rows_eq c s); [done|done|by apply Hr|done].
Qed.

Lemma validate_chunk_decides c ctx : typed c → decides (validate c ctx) (valid_chunk c) tt.
Proof.
  intros Hty. unfold validate. unfold num_faults. rewrite wrap_small by apply Hty.
  eapply decides_iff; [eapply decides_bind; [apply decides_eqb|]; intros Hh|].
  { eapply decides_bind with (P := (num_rows_ (e_O c) = 0 ∧ num_cols_ (e_O c) = 0) ∨
      num_cols_ (e_O c) = length (e_error_rates c)).
    { destruct ((0 <? num_rows_ (e_O c)) || (0 <? num_cols_ (e_O c))) eqn:E.
      - apply orb_true_iff in E. rewrite !Nat.ltb_lt in E.
        eapply decides_iff; [apply decides_eqb|]. lia.
      - apply orb_false_iff in E. rewrite !Nat.ltb_ge in E.
        eapply decides_iff; [apply decides_ok|]. lia. }
    intros Ho. eapply decides_bind.
    { apply decides_foldM with (P := λ s, row_begin s ≤ row_end s ≤ num_rows_ (e_H c)).
      intros s _. eapply decides_iff; [eapply decides_bind; [apply decides_throw_if|intros _; apply decides_throw_if]|].
      rewrite !Nat.ltb_ge. lia. }
    intros Hr. cbv zeta.
    assert ((λ s, (row_begin s, row_end s)) <$> filter (λ s, 0 < seam_num_rows s) (e_seams c) = bands c) as ->.
    { unfold bands. f_equal. apply filter_ext_in. intros s Hs.
      rewrite (seam_num_rows_eq c s); [unfold seam_width; lia|done|by apply Hr|done]. }
    eapply decides_bind with (P := StronglySorted apart (bands c)).
    { pose proof (merge_sort_Permutation band_le (bands c)) as Hp.
      set (l := merge_sort band_le (bands c)) in *.
      assert (Forall (λ b, b.1 < b.2) l) as Hne.
      { rewrite Hp. apply Forall_fmap, Forall_forall. by intros s [? _]%list_elem_of_filter. }
      eapply decides_iff; [apply decides_for_u with
        (P := λ i, ∀ x y, l !! (i - 1) = Some x → l !! i = Some y → x.2 ≤ y.1)|].
      - intros i Hi. destruct (lookup_lt_is_Some_2 l i) as [y Hy]; [lia|].
        destruct (lookup_lt_is_Some_2 l (i - 1)) as [x Hx]; [lia|].
        rewrite (vget_ok _ i y) by done. cbn [mbind res_bind].
        rewrite (vget_ok _ (i - 1) x) by done. cbn [mbind res_bind].
        eapply decides_iff; [apply decides_throw_if|]. rewrite Nat.ltb_ge. naive_solver.
      - transitivity (StronglySorted apart l).
        + rewrite <-adjacent_apart by (done || (apply StronglySorted_merge_sort; apply _)).
          split.
          * intros H i x y Hx Hy. apply (H (S i)); [apply lookup_lt_Some in Hy; lia| |done].
            by rewrite Nat.sub_succ, Nat.sub_0_r.
          * intros H i Hi x y Hx Hy. apply (H (i - 1)); [done|]. by replace (S (i - 1)) with i by lia.
        + split; apply pairwise_perm; (unfold apart; tauto) || done. }
    intros Ha. rewrite foldl_seam_rows by done. apply decides_eqb. }
  split; [intros (?&?&?&?&?); by split|by intros []].
Qed.

Definition no_extra c (from_seam to_seam : nat) : Prop :=
  ∀ s, s ∈ e_seams c → seam_of s = from_seam ∨ seam_of s = to_seam ∨ row_end s = row_begin s.

Lemma reject_extra_decides c f t ctx :
  typed c → valid_chunk c → decides (reject_extra_seams c f t ctx) (no_extra c f t) tt.
Proof.
  intros Hty Hv. unfold reject_extra_seams.
  apply decides_foldM with (P := λ s, seam_of s = f ∨ seam_of s = t ∨ row_end s = row_begin s).
  intros s Hs. pose proof (va_range c Hv s Hs) as Hr.
  rewrite (seam_num_rows_eq c s) by (done || lia). unfold seam_width.
  destruct (_ || _) eqn:E.
  - rewrite !orb_true_iff, !Nat.eqb_eq in E. eapply decides_iff; [apply decides_ok|]. lia.
  - rewrite !orb_false_iff, !Nat.eqb_neq in E. right. split; [lia|]. by eexists.
Qed.

(** ** The rows of an accepted chunk *)

Lemma elem_of_band c id r :
  r ∈ band c id ↔ ∃ s, seam_at c id = Some s ∧ row_begin s ≤ r < row_end s.
Proof.
  unfold band. destruct (seam_at c id) as [s|]; simpl.
  - rewrite elem_of_seq. unfold seam_width. split; [intros; exists s; split; [done|lia]|].
    intros (s'&[= <-]&?). lia.
  - split; [set_solver|naive_solver].
Qed.

Lemma in_band_true r s : in_band r s = true ↔ row_begin s ≤ r < row_end s.
Proof. unfold in_band. rewrite andb_true_iff, Nat.leb_le, Nat.ltb_lt. done. Qed.

Lemma elem_of_interior c r :
  r ∈ interior c ↔ r < num_rows_ (e_H c) ∧ ∀ s, s ∈ e_seams c → ¬ (row_begin s ≤ r < row_end s).
Proof.
  unfold interior. rewrite list_elem_of_filter, elem_of_seq. unfold outside.
  rewrite negb_True, Is_true_true.
  assert (existsb (in_band r) (e_seams c) = true ↔ ∃ s, s ∈ e_seams c ∧ row_begin s ≤ r < row_end s) as ->.
  { rewrite existsb_exists. setoid_rewrite <-list_elem_of_In. by setoid_rewrite in_band_true. }
  split.
  - intros [Hn ?]. split; [lia|]. intros s Hs Hr. apply Hn. eauto.
  - intros [? Hn]. split; [|lia]. intros (s&Hs&Hr). by apply (Hn s).
Qed.

Lemma seam_at_of c s : typed c → s ∈ e_seams c → seam_at c (seam_of s) = Some s.
Proof.
  intros Hty Hs. unfold seam_at, get_seam. by rewrite find_seam_nodup by (done || apply Hty).
Qed.

Lemma seam_rows_or_zero_eq c id : typed c → valid_chunk c → seam_rows_or_zero c id = Ok (width c id).
Proof.
  intros Hty Hv. unfold seam_rows_or_zero, width. rewrite has_seam_at.
  destruct (seam_at c id) as [s|] eqn:Hs.
  - rewrite bool_decide_eq_true_2 by done. rewrite (get_seam_at c id s) by done. cbn [mbind res_bind].
    apply seam_at_elem in Hs as [Hs _]. pose proof (va_range c Hv s Hs).
    by rewrite (seam_num_rows_eq c s) by (done || lia).
  - rewrite bool_decide_eq_false_2; [done|]. by intros [? ?].
Qed.

Section ok.
Context (from_seam to_seam : nat) (Hne : from_seam ≠ to_seam).

Record chunk_ok c : Prop := {
  ok_typed : typed c;
  ok_valid : valid_chunk c;
  ok_extra : no_extra c from_seam to_seam
}.

Lemma bands_apart c s s' :
  chunk_ok c → s ∈ e_seams c → s' ∈ e_seams c → seam_of s ≠ seam_of s' →
  row_begin s < row_end s → row_begin s' < row_end s' →
  row_end s ≤ row_begin s' ∨ row_end s' ≤ row_begin s.
Proof.
  intros Hok Hs Hs' Hids Hw Hw'. pose proof (va_apart c (ok_valid c Hok)) as Ha. unfold bands in Ha.
  assert (s ∈ filter (λ s, row_begin s < row_end s) (e_seams c)) as Hf by (by apply list_elem_of_filter).
  assert (s' ∈ filter (λ s, row_begin s < row_end s) (e_seams c)) as Hf' by (by apply list_elem_of_filter).
  revert Hf Hf' Ha. generalize (filter (λ s, row_begin s < row_end s) (e_seams c)). clear -Hids.
  induction l as [|x l IH]; intros Hf Hf' Ha; [set_solver|]. cbn [fmap list_fmap] in Ha.
  inversion_clear Ha as [|? ? Ha' Hall]. rewrite Forall_fmap, Forall_forall in Hall.
  apply elem_of_cons in Hf, Hf'. destruct Hf as [->|Hf], Hf' as [->|Hf']; [done| | |by apply IH].
  - by specialize (Hall _ Hf').
  - specialize (Hall _ Hf). unfold apart in Hall. simpl in Hall. tauto.
Qed.

Lemma row_order_perm c : chunk_ok c → row_order from_seam to_seam c ≡ₚ seq 0 (num_rows_ (e_H c)).
Proof.
  intros Hok. pose proof (ok_valid c Hok) as Hv. apply NoDup_Permutation.
  - unfold row_order. apply NoDup_app. split_and!.
    + unfold band. destruct (seam_at c to_seam); [apply NoDup_seq|constructor].
    + intros r (s&Hs&Hr)%elem_of_band. pose proof (seam_at_elem _ _ _ Hs) as [Hin Hid].
      rewrite elem_of_app, elem_of_interior, elem_of_band. intros [[_ Hn]|(s'&Hs'&Hr')].
      * by apply (Hn s).
      * pose proof (seam_at_elem _ _ _ Hs') as [Hin' Hid'].
        destruct (bands_apart c s s' Hok); [done|done|lia..].
    + apply NoDup_app. split_and!.
      * apply NoDup_filter, NoDup_seq.
      * intros r [_ Hn]%elem_of_interior (s&Hs&Hr)%elem_of_band.
        apply seam_at_elem in Hs as [Hin _]. by apply (Hn s).
      * unfold band. destruct (seam_at c from_seam); [apply NoDup_seq|constructor].
  - apply NoDup_seq.
  - intros r. unfold row_order. rewrite !elem_of_app, !elem_of_band, elem_of_interior, elem_of_seq. split.
    + intros [(s&[Hs _]%seam_at_elem&?)|[[? _]|(s&[Hs _]%seam_at_elem&?)]];
        [pose proof (va_range c Hv s Hs); lia|lia|pose proof (va_range c Hv s Hs); lia].
    + intros Hr. destruct (decide (Exists (λ s, row_begin s ≤ r < row_end s) (e_seams c))) as [He|Hn].
      * apply Exists_exists in He as (s&Hs&Hrs).
        pose proof (seam_at_of c s (ok_typed c Hok) Hs) as Hat.
        destruct (ok_extra c Hok s Hs) as [Hf|[Ht|?]]; [| |lia].
        -- right; right. exists s. by rewrite <-Hf.
        -- left. exists s. by rewrite <-Ht.
      * right; left. split; [lia|]. intros s Hs Hrs. apply Hn, Exists_exists. eauto.
Qed.

Lemma row_order_nodup c : chunk_ok c → NoDup (row_order from_seam to_seam c).
Proof. intros Hok. rewrite row_order_perm by done. apply NoDup_seq. Qed.

Lemma widths_sum c :
  chunk_ok c → width c to_seam + length (interior c) + width c from_seam = num_rows_ (e_H c).
Proof.
  intros Hok. pose proof (Permutation_length (row_order_perm c Hok)) as Hl. unfold row_order in Hl.
  rewrite !length_app, length_seq, !length_band in Hl. lia.
Qed.

(** The widths of all seams are those of the two composition seams. *)
Definition width_in (seams : list seam) (id : nat) : nat :=
  match find_seam seams id with Ok s => seam_width s | _ => 0 end.

Lemma width_in_eq c id : width c id = width_in (e_seams c) id.
Proof. unfold width, seam_at, get_seam, width_in. by destruct (find_seam (e_seams c) id). Qed.

Lemma width_in_absent seams id : id ∉ seam_of <$> seams → width_in seams id = 0.
Proof.
  intros Hn. unfold width_in. pose proof (find_seam_at seams id) as Hf.
  destruct (find_seam seams id) as [s| |]; [|done|done]. destruct Hf as (_&Hs&<-).
  exfalso. apply Hn, list_elem_of_fmap. eauto.
Qed.

Lemma sum_two seams :
  NoDup (seam_of <$> seams) →
  (∀ s, s ∈ seams → seam_of s = from_seam ∨ seam_of s = to_seam ∨ row_end s = row_begin s) →
  sum_list_with seam_width seams = width_in seams from_seam + width_in seams to_seam.
Proof.
  induction seams as [|s seams IH]; intros Hnd Hex; [done|].
  apply NoDup_cons in Hnd as [Hs Hnd]. cbn [sum_list_with]. rewrite IH; [|done|set_solver].
  pose proof (Hex s ltac:(by left)) as Hc. unfold width_in at 3 4. cbn [find_seam].
  destruct (Nat.eqb_spec (seam_of s) from_seam) as [Ef|Nf], (Nat.eqb_spec (seam_of s) to_seam) as [Et|Nt].
  - congruence.
  - rewrite (width_in_absent _ from_seam) by (by rewrite <-Ef). unfold width_in. lia.
  - rewrite (width_in_absent _ to_seam) by (by rewrite <-Et). unfold width_in. lia.
  - assert (seam_width s = 0) as -> by (unfold seam_width; lia). done.
Qed.

Lemma seam_total_eq c : chunk_ok c → seam_total c = width c from_seam + width c to_seam.
Proof.
  intros Hok. unfold seam_total.
  rewrite foldl_seam_rows by (apply Hok || (apply (ok_valid c Hok))).
  rewrite !width_in_eq. apply sum_two; [apply (ok_typed c Hok)|apply Hok].
Qed.

Lemma num_interior_rows_eq c : chunk_ok c → num_interior_rows c = length (interior c).
Proof.
  intros Hok. unfold num_interior_rows. rewrite seam_total_eq by done.
  pose proof (widths_sum c Hok). destruct (Nat.ltb_spec (width c from_seam + width c to_seam) (num_rows_ (e_H c))); lia.
Qed.

End ok.
End chunk.
