(* ===== verification/ExtendedStitch.v ===== *)
(** * Extended detector error models: stitching two chunks

    The tags of a seam, when a boundary is accepted, and the chunk [dem_stitch]
    returns: the columns of both chunks in row order, those of the second
    shifted so that its incoming seam meets the outgoing seam of the first. *)

From S2P Require Import Prelude Rates Ordering Tensor SparseMatrix SparseFacts SparseCanon RoundLayout DetectorErrorModel ExtendedDem ExtendedFacts ExtendedChunk.

Section stitch.
Context {R : Type} (from_seam to_seam : nat) (Hne : from_seam ≠ to_seam).
Implicit Types c a b : extended_dem R.
Abbreviation chunk_ok := (chunk_ok from_seam to_seam).
Abbreviation row_order := (row_order from_seam to_seam).

(** ** Tags *)

Fixpoint rows_before (seams : list seam) (id : nat) : nat :=
  match seams with
  | [] => 0
  | s :: seams => if seam_of s =? id then 0 else seam_width s + rows_before seams id
  end.

Definition seam_tags c (id : nat) : list nat :=
  take (width c id) (drop (rows_before (e_seams c) id) (e_tags c)).

Lemma rows_before_bound seams id :
  rows_before seams id + width_in seams id ≤ sum_list_with seam_width seams.
Proof.
  induction seams as [|s seams IH]; [done|]. cbn [rows_before sum_list_with].
  unfold width_in in *. cbn [find_seam]. destruct (seam_of s =? id); lia.
Qed.

Lemma tags_bound c id :
  chunk_ok c → rows_before (e_seams c) id + width c id ≤ length (e_tags c) ∧
  (Z.of_nat (length (e_tags c)) < 2 ^ 32)%Z.
Proof.
  intros Hok. pose proof (ok_valid _ _ c Hok) as Hv. rewrite (va_tags c Hv), width_in_eq.
  split; [apply rows_before_bound|].
  pose proof (sum_widths_le c (va_range c Hv) (va_apart c Hv)).
  destruct (ty_H c (ok_typed _ _ c Hok)) as [gs Hwf]. pose proof (wf_rows _ _ Hwf). lia.
Qed.

Lemma length_seam_tags c id : chunk_ok c → length (seam_tags c id) = width c id.
Proof.
  intros Hok. destruct (tags_bound c id Hok). unfold seam_tags. rewrite length_take, length_drop. lia.
Qed.

Lemma lookup_seam_tags c id k :
  k < width c id → seam_tags c id !! k = e_tags c !! (rows_before (e_seams c) id + k).
Proof. intros. unfold seam_tags. by rewrite lookup_take_lt, lookup_drop. Qed.

Lemma tag_offset_from_spec seams id off :
  existsb (λ s, seam_of s =? id) seams = true →
  (∀ s, s ∈ seams → seam_num_rows s = seam_width s) →
  (Z.of_nat (off + sum_list_with seam_width seams) < 2 ^ 32)%Z →
  tag_offset_from off seams id = Ok (off + rows_before seams id).
Proof.
  revert off. induction seams as [|s seams IH]; intros off He Hs Hz; [done|].
  cbn [tag_offset_from rows_before sum_list_with existsb] in *. destruct (seam_of s =? id).
  - f_equal. lia.
  - rewrite (Hs s), wrap_small, IH; [f_equal; lia|done|set_solver|lia|lia|by left].
Qed.

Lemma seam_tag_offset_eq c id :
  chunk_ok c → has_seam c id = true → seam_tag_offset c id = Ok (rows_before (e_seams c) id).
Proof.
  intros Hok Hh. pose proof (ok_valid _ _ c Hok) as Hv. unfold seam_tag_offset.
  rewrite tag_offset_from_spec; [done|done| |].
  - intros s Hs. apply (seam_num_rows_eq c); [apply Hok|by apply Hv|done].
  - destruct (tags_bound c id Hok) as [_ Hz]. rewrite (va_tags c Hv) in Hz. done.
Qed.

Lemma width_no_seam c id : has_seam c id = false → width c id = 0.
Proof.
  rewrite has_seam_at, bool_decide_eq_false. unfold width.
  destruct (seam_at c id); [|done]. intros []. by eexists.
Qed.

Lemma push_tags_eq w c id acc :
  (32 ≤ w)%Z → chunk_ok c → push_tags w c id (width c id) acc = Ok (acc ++ seam_tags c id).
Proof.
  intros Hw Hok. unfold push_tags. destruct (has_seam c id) eqn:Hh.
  - rewrite seam_tag_offset_eq by done. cbn [mbind res_bind]. destruct (tags_bound c id Hok) as [Hb Hz].
    destruct (for_u_inv 0 (width c id)
      (λ k tags, x ← vget (e_tags c) (wrap w (rows_before (e_seams c) id + k)); Ok (tags ++ [x]))
      (λ k tags, tags = acc ++ take k (seam_tags c id)) acc) as (out&->&->).
    + lia.
    + by rewrite app_nil_r.
    + intros k tags Hk ->. pose proof (length_seam_tags c id Hok).
      destruct (lookup_lt_is_Some_2 (seam_tags c id) k) as [x Hx]; [lia|].
      rewrite Nat.add_1_r, (take_S_r _ _ x), app_assoc by done.
      rewrite lookup_seam_tags in Hx by lia.
      assert (2 ^ 32 ≤ 2 ^ w)%Z by (apply Z.pow_le_mono_r; lia).
      rewrite wrap_small, (vget_ok _ _ x) by (done || lia). by apply returns_ok.
    + by rewrite take_ge by (rewrite length_seam_tags; [lia|done]).
  - unfold seam_tags. rewrite width_no_seam by done. by rewrite app_nil_r.
Qed.

(** A boundary is accepted iff the two seams carry the same tags (and so have
    the same width). *)
Lemma check_boundary_decides a b ctx :
  chunk_ok a → chunk_ok b →
  decides (check_seam_boundary a b from_seam to_seam ctx)
    (seam_tags a from_seam = seam_tags b to_seam) tt.
Proof.
  intros Ha Hb. unfold check_seam_boundary. rewrite !seam_rows_or_zero_eq by (apply Ha || apply Hb).
  cbn [mbind res_bind].
  pose proof (length_seam_tags a from_seam Ha) as Hla. pose proof (length_seam_tags b to_seam Hb) as Hlb.
  destruct ((width a from_seam =? 0) && (width b to_seam =? 0)) eqn:E.
  { apply andb_true_iff in E as [Ea%Nat.eqb_eq Eb%Nat.eqb_eq]. rewrite Ea in Hla. rewrite Eb in Hlb.
    eapply decides_iff; [apply decides_ok|]. apply nil_length_inv in Hla, Hlb. by rewrite Hla, Hlb. }
  apply andb_false_iff in E. rewrite !Nat.eqb_neq in E.
  eapply decides_iff; [eapply decides_bind; [apply decides_eqb|]|].
  { intros Hw. assert (has_seam a from_seam = true) as Hha.
    { destruct (has_seam a from_seam) eqn:Hh; [done|]. apply width_no_seam in Hh. lia. }
    assert (has_seam b to_seam = true) as Hhb.
    { destruct (has_seam b to_seam) eqn:Hh; [done|]. apply width_no_seam in Hh. lia. }
    rewrite !seam_tag_offset_eq by done. cbn [mbind res_bind].
    apply decides_for_u with (P := λ k, seam_tags a from_seam !! k = seam_tags b to_seam !! k).
    intros k Hk. destruct (tags_bound a from_seam Ha), (tags_bound b to_seam Hb).
    destruct (lookup_lt_is_Some_2 (seam_tags a from_seam) k) as [x Hx]; [lia|].
    destruct (lookup_lt_is_Some_2 (seam_tags b to_seam) k) as [y Hy]; [lia|].
    rewrite Hx, Hy. rewrite lookup_seam_tags in Hx, Hy by lia.
    rewrite !wrap_small by lia.
    rewrite (vget_ok (e_tags a) _ x) by done. cbn [mbind res_bind].
    rewrite (vget_ok (e_tags b) _ y) by done. cbn [mbind res_bind].
    eapply decides_iff; [apply decides_eqb|]. naive_solver. }
  split.
  - intros [Hw Hk]. apply list_eq. intros k. destruct (decide (k < width a from_seam)).
    + apply Hk. lia.
    + by rewrite !lookup_ge_None_2 by lia.
  - intros Heq. split; [rewrite <-Hla, <-Hlb; by f_equal|]. intros. by rewrite Heq.
Qed.

(** ** The bands of a chunk as matrices *)

Lemma chunk_view c :
  chunk_ok c →
  view (e_H c) (num_rows_ (e_H c)) (length (e_error_rates c)) (cols_of (e_H c)) (rows_of (e_H c)).
Proof.
  intros Hok. rewrite <-(va_H c (ok_valid _ _ c Hok)). apply wf_view, Hok.
Qed.

Definition sized c : Prop :=
  (Z.of_nat (num_rows_ (e_H c) + 1) < 2 ^ 32)%Z ∧ (Z.of_nat (length (e_error_rates c) + 1) < 2 ^ 32)%Z.

Definition picked c (idx : list nat) : list (list nat) := pick idx <$> cols_of (e_H c).

Lemma extract_seam_spec c id s :
  chunk_ok c → sized c → seam_at c id = Some s →
  returns (extract_row_band (e_H c) (row_begin s) (row_end s)) (λ m,
    has_cols m (width c id) (length (e_error_rates c)) (picked c (band c id))).
Proof.
  intros Hok [Hr Hc] Hs. unfold width, band, picked. rewrite Hs. cbn [from_option].
  pose proof (seam_at_elem _ _ _ Hs) as [Hin _]. pose proof (va_range c (ok_valid _ _ c Hok) s Hin).
  eapply extract_row_band_spec; [by apply chunk_view|lia..].
Qed.

Lemma seam_band_spec c id :
  chunk_ok c → sized c →
  returns (seam_band c id) (λ m,
    has_cols m (width c id) (length (e_error_rates c)) (picked c (band c id))).
Proof.
  intros Hok Hsz. unfold seam_band. rewrite has_seam_at. destruct (seam_at c id) as [s|] eqn:Hs.
  - rewrite bool_decide_eq_true_2, (get_seam_at c id s) by done. by apply extract_seam_spec.
  - rewrite bool_decide_eq_false_2 by (by intros [? ?]). unfold num_faults.
    destruct Hsz as [_ Hc]. rewrite wrap_small, zero_matrix_spec by (done || lia).
    apply returns_ok. unfold width, band, picked. rewrite Hs. cbn [from_option]. rewrite pick_nil.
    rewrite (v_cols _ _ _ _ _ (chunk_view c Hok)). by apply cols_has_cols, cols_ok_empty.
Qed.

Lemma interior_spec c :
  chunk_ok c → sized c →
  returns (extract_interior_rows (e_H c) (e_seams c)) (λ m,
    has_cols m (length (interior c)) (length (e_error_rates c)) (picked c (interior c))).
Proof.
  intros Hok [Hr Hc]. eapply extract_interior_rows_spec; [by apply chunk_view|done].
Qed.

Lemma nnz_picked c :
  chunk_ok c →
  nnz (picked c (band c to_seam)) + nnz (picked c (interior c)) + nnz (picked c (band c from_seam))
    ≤ nnz (cols_of (e_H c)).
Proof.
  intros Hok. pose proof (nnz_pick_le _ (cols_of (e_H c)) (row_order_nodup _ _ Hne c Hok)) as Hle.
  unfold ExtendedChunk.row_order in Hle. rewrite !nnz_pick_app in Hle. unfold picked. lia.
Qed.

(** ** The stitched chunk *)

Definition offset_rows a : nat := width a to_seam + length (interior a).

Definition stitched_cols a b : list (list nat) :=
  picked a (row_order a) ++ (shift (offset_rows a) <$> picked b (row_order b)).

Definition stitched_rows a b : nat := offset_rows a + num_rows_ (e_H b).

Definition stitched a b : extended_dem R :=
  let n := length (e_error_rates a) + length (e_error_rates b) in
  let start := offset_rows a + offset_rows b in
  mk_extended (of_groups csc (stitched_rows a b) n (stitched_cols a b))
    (of_groups csc (num_rows_ (e_O a)) n (cols_of (e_O a) ++ cols_of (e_O b)))
    (e_error_rates a ++ e_error_rates b)
    [mk_seam to_seam 0 (width a to_seam); mk_seam from_seam start (start + width b from_seam)]
    (seam_tags a to_seam ++ seam_tags b from_seam).

(** The two chunks may be contracted. *)
Record boundary_ok a b : Prop := {
  bo_obs : num_rows_ (e_O b) = num_rows_ (e_O a);
  bo_from : has_seam a from_seam = true;
  bo_to : has_seam b to_seam = true;
  bo_tags : seam_tags a from_seam = seam_tags b to_seam
}.

(** An explicit observable matrix, one column per fault. *)
Definition aligned c : Prop := well_formed (e_O c) ∧ num_cols_ (e_O c) = length (e_error_rates c).

(** The sizes of the result fit the machine types. *)
Record pair_fits a b : Prop := {
  pf_rows : (Z.of_nat (num_rows_ (e_H a) + num_rows_ (e_H b) + 1) < 2 ^ 32)%Z;
  pf_cols : (Z.of_nat (length (e_error_rates a) + length (e_error_rates b) + 1) < 2 ^ 32)%Z;
  pf_nnz : (Z.of_nat (nnz (cols_of (e_H a)) + nnz (cols_of (e_H b))) < 2 ^ 32)%Z;
  pf_obs : (Z.of_nat (nnz (cols_of (e_O a)) + nnz (cols_of (e_O b))) < 2 ^ 32)%Z
}.

Lemma length_picked c idx : chunk_ok c → length (picked c idx) = length (e_error_rates c).
Proof. intros Hok. unfold picked. rewrite length_fmap. apply (v_cols _ _ _ _ _ (chunk_view c Hok)). Qed.

Lemma boundary_width a b :
  chunk_ok a → chunk_ok b → boundary_ok a b → width a from_seam = width b to_seam.
Proof. intros Ha Hb Hbo. by rewrite <-!length_seam_tags, (bo_tags a b Hbo). Qed.

(** The five parts stacked are the columns of [a] in row order, and below them
    those of [b]. *)
Lemma stack_parts a b :
  chunk_ok a → chunk_ok b → width a from_seam = width b to_seam →
  let na := length (e_error_rates a) in let nb := length (e_error_rates b) in
  let w := width a to_seam in let i := length (interior a) in
  stack (w + i + width a from_seam + length (interior b))
    (stack (w + i + width a from_seam)
      (stack (w + i)
        (stack w (picked a (band a to_seam) ++ replicate nb [])
                 (picked a (interior a) ++ replicate nb []))
        (picked a (band a from_seam) ++ picked b (band b to_seam)))
      (replicate na [] ++ picked b (interior b)))
    (replicate na [] ++ picked b (band b from_seam)) = stitched_cols a b.
Proof.
  intros Ha Hb Hw na nb w i.
  assert (∀ x, length (picked a x) = na) as La by (intros; by apply length_picked).
  assert (∀ x, length (picked b x) = nb) as Lb by (intros; by apply length_picked).
  rewrite !stack_app by (rewrite ?length_stack, ?length_replicate, ?La, ?Lb; lia).
  rewrite (stack_empty_r w nb) by apply length_replicate.
  rewrite (stack_under (w + i) nb) by apply Lb. unfold stitched_cols. f_equal.
  - rewrite !stack_empty_r by (rewrite !length_stack, !La, ?length_replicate; lia). unfold picked, ExtendedChunk.row_order.
    rewrite app_assoc, <-!stack_pick, length_app, length_band. done.
  - rewrite Hw. replace (w + i + width b to_seam + length (interior b))
      with (w + i + (width b to_seam + length (interior b))) by lia.
    rewrite !stack_shift. f_equal. unfold picked, ExtendedChunk.row_order.
    rewrite app_assoc, <-!stack_pick, length_app, length_band. done.
Qed.

Lemma obs_has_cols c :
  aligned c → has_cols (e_O c) (num_rows_ (e_O c)) (length (e_error_rates c)) (cols_of (e_O c)).
Proof. intros [Hwf <-]. by eapply view_has_cols, wf_view. Qed.

(** The rows, columns and rates of a chunk in the assembled matrix. *)
Lemma stitched_obs_ok a b :
  chunk_ok a → chunk_ok b → boundary_ok a b → aligned a → aligned b → pair_fits a b →
  cols_ok (num_rows_ (e_O a)) (length (e_error_rates a) + length (e_error_rates b))
    (cols_of (e_O a) ++ cols_of (e_O b)).
Proof.
  intros Ha Hb Hbo Haa Hab [Hr Hc Hz Ho].
  destruct (obs_has_cols a Haa) as [_ _ _ La Ba].
  destruct (obs_has_cols b Hab) as [_ _ _ Lb Bb].
  apply app_cols_ok; [done|done|done| | |done|done].
  - by rewrite <-(bo_obs a b Hbo).
  - destruct Haa as [[gs Hwf] _]. apply Hwf.
Qed.

Lemma pair_sized a b : pair_fits a b → sized a ∧ sized b.
Proof. intros [Hr Hc _ _]. split; split; lia. Qed.

(** The result matrix of [dem_stitch], from the five bands. *)
Lemma stitch_matrix {B} (K : sparse_binary_matrix → res B) a b mt mi mf nt ni nf :
  chunk_ok a → chunk_ok b → boundary_ok a b → pair_fits a b →
  let na := length (e_error_rates a) in let nb := length (e_error_rates b) in
  has_cols mt (width a to_seam) na (picked a (band a to_seam)) →
  has_cols mi (length (interior a)) na (picked a (interior a)) →
  has_cols mf (width a from_seam) na (picked a (band a from_seam)) →
  has_cols nt (width b to_seam) nb (picked b (band b to_seam)) →
  has_cols ni (length (interior b)) nb (picked b (interior b)) →
  has_cols nf (width b from_seam) nb (picked b (band b from_seam)) →
  (contracted ← hcat mf nt;
   top ← pad_right mt (na + nb);
   top_int ← pad_right mi (na + nb);
   bot_int ← pad_left ni na (na + nb);
   bot ← pad_left nf na (na + nb);
   h ← zero_matrix 0 (na + nb);
   h ← push_rows top h;
   h ← push_rows top_int h;
   h ← push_rows contracted h;
   h ← push_rows bot_int h;
   h ← push_rows bot h;
   K h) = K (of_groups csc (stitched_rows a b) (na + nb) (stitched_cols a b)).
Proof.
  intros Ha Hb Hbo Hfit na nb Hmt Hmi Hmf Hnt Hni Hnf.
  pose proof (boundary_width a b Ha Hb Hbo) as Hw.
  pose proof (nnz_picked a Ha). pose proof (nnz_picked b Hb).
  pose proof (widths_sum _ _ Hne a Ha) as Hsa. pose proof (widths_sum _ _ Hne b Hb) as Hsb.
  destruct Hfit as [Hr Hc Hz _]. fold na nb in Hc.
  assert (cols_ok (width a from_seam) (na + nb) (picked a (band a from_seam) ++ picked b (band b to_seam))) as H3.
  { apply app_cols_ok; [apply Hmf|apply Hnt|apply Hmf|rewrite Hw; apply Hnt|lia|lia|lia]. }
  pose proof Hnt as Hnt'. rewrite <-Hw in Hnt'.
  rewrite (hcat_spec mf nt _ _ _ _ _ Hmf Hnt' H3). cbn [mbind res_bind].
  rewrite (pad_right_spec mt _ _ _ nb Hmt), (pad_right_spec mi _ _ _ nb Hmi) by lia. cbn [mbind res_bind].
  rewrite (pad_left_spec ni _ _ _ na Hni), (pad_left_spec nf _ _ _ na Hnf) by lia. cbn [mbind res_bind].
  rewrite push_five.
  - unfold na, nb. rewrite (stack_parts a b) by done. do 2 f_equal. unfold stitched_rows, offset_rows. lia.
  - apply (pad_ok mt _ _ _ 0 nb Hmt); lia.
  - apply (pad_ok mi _ _ _ 0 nb Hmi); lia.
  - done.
  - pose proof (pad_ok ni _ _ _ na 0 Hni) as Hp. rewrite Nat.add_0_r, app_nil_r in Hp. apply Hp; lia.
  - pose proof (pad_ok nf _ _ _ na 0 Hnf) as Hp. rewrite Nat.add_0_r, app_nil_r in Hp. apply Hp; lia.
  - lia.
  - rewrite !nnz_app, !nnz_empty. lia.
Qed.

Lemma has_seam_some c id : has_seam c id = true → ∃ s, seam_at c id = Some s.
Proof. rewrite has_seam_at, bool_decide_eq_true. by intros [s ?]; exists s. Qed.

Lemma seam_at_rows c id s : chunk_ok c → seam_at c id = Some s → seam_num_rows s = width c id.
Proof.
  intros Hok Hs. unfold width. rewrite Hs. pose proof (seam_at_elem _ _ _ Hs) as [Hin _].
  apply (seam_num_rows_eq c); [apply Hok| |done]. by apply (va_range c (ok_valid _ _ c Hok)).
Qed.

Theorem dem_stitch_spec a b :
  chunk_ok a → chunk_ok b → boundary_ok a b → aligned a → aligned b → pair_fits a b →
  0 < length (e_error_rates a) + length (e_error_rates b) →
  dem_stitch a b from_seam to_seam = Ok (stitched a b).
Proof.
  intros Ha Hb Hbo Haa Hab Hfit Hpos. destruct (pair_sized a b Hfit) as [Hsa Hsb].
  pose proof (ok_typed _ _ a Ha) as Hta. pose proof (ok_typed _ _ b Hb) as Htb.
  pose proof (ok_valid _ _ a Ha) as Hva. pose proof (ok_valid _ _ b Hb) as Hvb.
  pose proof (stitched_obs_ok a b Ha Hb Hbo Haa Hab Hfit) as Hobs.
  pose proof (stitch_matrix (B := extended_dem R)) as HM.
  pose proof (widths_sum _ _ Hne a Ha) as Hwa. pose proof (widths_sum _ _ Hne b Hb) as Hwb.
  pose proof (boundary_width a b Ha Hb Hbo) as Hw.
  pose proof Hfit as [Hr Hc _ _]. unfold dem_stitch, num_faults.
  rewrite (wrap_small 32 (length (e_error_rates a))), (wrap_small 32 (length (e_error_rates b))) by lia.
  rewrite (wrap_small 64), (wrap_small 32 (length (e_error_rates a) + length (e_error_rates b))) by lia.
  rewrite (decides_returns _ _ _ (validate_chunk_decides a _ Hta) Hva). cbn [mbind res_bind].
  rewrite (decides_returns _ _ _ (validate_chunk_decides b _ Htb) Hvb). cbn [mbind res_bind].
  unfold e_num_observables. rewrite (bo_obs a b Hbo), Nat.eqb_refl, (bo_from a b Hbo), (bo_to a b Hbo).
  cbn [negb throw_if mbind res_bind].
  rewrite (decides_returns _ _ _ (reject_extra_decides a _ _ _ Hta Hva) (ok_extra _ _ a Ha)). cbn [mbind res_bind].
  rewrite (decides_returns _ _ _ (reject_extra_decides b _ _ _ Htb Hvb) (ok_extra _ _ b Hb)). cbn [mbind res_bind].
  rewrite (decides_returns _ _ _ (check_boundary_decides a b _ Ha Hb) (bo_tags a b Hbo)). cbn [mbind res_bind].
  destruct (has_seam_some _ _ (bo_from a b Hbo)) as [sa Hseam_a].
  destruct (has_seam_some _ _ (bo_to a b Hbo)) as [sb Hseam_b].
  rewrite (get_seam_at _ _ _ Hseam_a). cbn [mbind res_bind].
  rewrite (get_seam_at _ _ _ Hseam_b). cbn [mbind res_bind].
  rewrite bool_decide_eq_false_2 by (unfold UINT32_MAX; lia). cbn [throw_if mbind res_bind].
  destruct (seam_band_spec a to_seam Ha Hsa) as (mt&->&Hmt). cbn [mbind res_bind].
  destruct (interior_spec a Ha Hsa) as (mi&->&Hmi). cbn [mbind res_bind].
  destruct (extract_seam_spec a from_seam sa Ha Hsa Hseam_a) as (mf&->&Hmf). cbn [mbind res_bind].
  destruct (extract_seam_spec b to_seam sb Hb Hsb Hseam_b) as (nt&->&Hnt). cbn [mbind res_bind].
  destruct (interior_spec b Hb Hsb) as (ni&->&Hni). cbn [mbind res_bind].
  destruct (seam_band_spec b from_seam Hb Hsb) as (nf&->&Hnf). cbn [mbind res_bind].
  rewrite (HM _ a b mt mi mf nt ni nf) by done.
  rewrite (hc_rows _ _ _ _ Hmt), (hc_rows _ _ _ _ Hnf), (seam_at_rows _ _ _ Ha Hseam_a).
  rewrite !(num_interior_rows_eq _ _ Hne) by done. cbn [num_cols_ of_groups].
  rewrite (proj2 (Nat.eqb_neq _ 0)) by lia. cbn [mbind res_bind].
  assert (has_cols (e_O b) (num_rows_ (e_O a)) (length (e_error_rates b)) (cols_of (e_O b))) as Hob.
  { rewrite <-(bo_obs a b Hbo). by apply obs_has_cols. }
  rewrite (hcat_spec _ _ _ _ _ _ _ (obs_has_cols a Haa) Hob Hobs). cbn [mbind res_bind].
  rewrite (wrap_small 32 (width a to_seam + _)) by lia.
  rewrite (wrap_small 32 (_ + width a from_seam)) by lia.
  rewrite (wrap_small 32 (_ + length (interior b))) by lia.
  rewrite (wrap_small 32 (_ + width b from_seam)) by lia.
  unfold add_seam, has_seam. cbn [e_seams existsb seam_of throw_if mbind res_bind app orb].
  rewrite (proj2 (Nat.eqb_neq to_seam from_seam)) by done. cbn [orb throw_if mbind res_bind].
  rewrite (push_tags_eq 32 a) by (done || lia). cbn [mbind res_bind].
  rewrite (push_tags_eq 32 b) by (done || lia). cbn [mbind res_bind app e_H e_O e_error_rates e_seams].
  unfold stitched. cbv zeta. unfold offset_rows. rewrite <-Hw.
  by rewrite (Nat.add_assoc _ (width a from_seam) (length (interior b))).
Qed.
End stitch.
