(* ===== verification/ExtendedChain.v ===== *)
(** * Extended detector error models: chains by repeated stitching

    The chunk [dem_stitch] returns passes the checks again, so chunks can be
    stitched from left to right; the result of such a fold in closed form. *)

From S2P Require Import Prelude Rates Ordering Tensor SparseMatrix SparseFacts SparseCanon RoundLayout DetectorErrorModel ExtendedDem ExtendedFacts ExtendedChunk ExtendedStitch.

Section chain.
Context {R : Type} (from_seam to_seam : nat) (Hne : from_seam ≠ to_seam).
Implicit Types c a b : extended_dem R.
Abbreviation chunk_ok := (chunk_ok from_seam to_seam).
Abbreviation row_order := (row_order from_seam to_seam).
Abbreviation boundary_ok := (boundary_ok from_seam to_seam).
Abbreviation offset_rows := (offset_rows to_seam).
Abbreviation stitched := (stitched from_seam to_seam).
Abbreviation stitched_cols := (stitched_cols from_seam to_seam).
Abbreviation stitched_rows := (stitched_rows to_seam).

(** ** The stitched chunk is a chunk *)

Lemma rows_split c : chunk_ok c → num_rows_ (e_H c) = offset_rows c + width c from_seam.
Proof. intros Hok. pose proof (widths_sum _ _ Hne c Hok). unfold ExtendedStitch.offset_rows. lia. Qed.

Lemma length_row_order c : chunk_ok c → length (row_order c) = num_rows_ (e_H c).
Proof. intros Hok. by rewrite (row_order_perm _ _ Hne c Hok), length_seq. Qed.

Lemma picked_bound c n : chunk_ok c → num_rows_ (e_H c) ≤ n → Forall (Forall (λ i, i < n)) (picked c (row_order c)).
Proof.
  intros Hok Hn. apply Forall_fmap, Forall_forall. intros col _.
  pose proof (pick_bound (row_order c) col) as Hb. rewrite length_row_order in Hb by done.
  eapply Forall_impl; [exact Hb|]. simpl. lia.
Qed.

Lemma nnz_row_order c : chunk_ok c → nnz (picked c (row_order c)) ≤ nnz (cols_of (e_H c)).
Proof. intros Hok. apply nnz_pick_le. by apply row_order_nodup. Qed.

(** ** Chunks whose rows are in composition order

    What stitching returns: the incoming seam is the first band, the outgoing
    seam the last one. *)

Section flat.
Context (cs : list (list nat)) (o : sparse_binary_matrix) (rates : list R) (w m f : nat) (tags : list nat).
Context (Hcs : cols_ok (m + f) (length rates) cs) (Hsorted : Forall (StronglySorted (≤)) cs).
Context (Ho : well_formed o) (Hoc : num_cols_ o = length rates) (Hw : w ≤ m) (Htags : length tags = w + f).

Definition flat : extended_dem R :=
  mk_extended (of_groups csc (m + f) (length rates) cs) o rates
    [mk_seam to_seam 0 w; mk_seam from_seam m (m + f)] tags.

Lemma flat_typed : typed flat.
Proof.
  pose proof (co_rows _ _ _ Hcs). pose proof (co_cols _ _ _ Hcs).
  split; cbn [e_H e_O e_error_rates e_seams flat].
  - eexists. by apply wf_cols.
  - by left.
  - lia.
  - cbn [fmap list_fmap seam_of]. apply NoDup_cons. split; [|apply NoDup_singleton].
    rewrite list_elem_of_singleton. congruence.
  - repeat constructor; cbn [row_begin row_end]; lia.
Qed.

Lemma flat_seam_to : seam_at flat to_seam = Some (mk_seam to_seam 0 w).
Proof. unfold seam_at, get_seam. cbn [e_seams flat find_seam seam_of]. by rewrite Nat.eqb_refl. Qed.

Lemma flat_seam_from : seam_at flat from_seam = Some (mk_seam from_seam m (m + f)).
Proof.
  unfold seam_at, get_seam. cbn [e_seams flat find_seam seam_of].
  by rewrite Nat.eqb_refl, (proj2 (Nat.eqb_neq to_seam from_seam)) by congruence.
Qed.

Lemma flat_width_to : width flat to_seam = w.
Proof. unfold width. rewrite flat_seam_to. cbn. unfold seam_width. cbn. lia. Qed.
Lemma flat_width_from : width flat from_seam = f.
Proof. unfold width. rewrite flat_seam_from. cbn. unfold seam_width. cbn. lia. Qed.

Lemma flat_ok : chunk_ok flat.
Proof.
  split; [apply flat_typed| |].
  - split.
    + done.
    + by right.
    + intros s Hs. cbn in Hs. apply elem_of_cons in Hs as [->|Hs%list_elem_of_singleton]; [|subst s]; cbn; lia.
    + unfold bands. cbn [e_seams flat]. rewrite !filter_cons, filter_nil.
      cbn [row_begin row_end]. repeat case_decide; cbn [fmap list_fmap]; repeat constructor.
      unfold apart. cbn. lia.
    + cbn. unfold seam_width. cbn. lia.
  - intros s Hs. cbn in Hs. apply elem_of_cons in Hs as [->|Hs%list_elem_of_singleton]; [|subst s]; cbn; auto.
Qed.

Lemma flat_order : row_order flat = seq 0 (m + f).
Proof.
  assert (interior flat = seq w (m - w)) as Hint.
  { unfold interior. cbn [e_seams e_H num_rows_ flat of_groups].
    replace (m + f) with (w + (m - w + f)) by lia. rewrite seq_app, seq_app, !list.filter_app.
    rewrite filter_const_false, filter_const_true, filter_const_false; [by rewrite app_nil_r| | |].
    all: intros r Hr%elem_of_seq; unfold outside; cbn [existsb]; rewrite negb_True, Is_true_true, !orb_true_iff,
      !in_band_true; cbn [row_begin row_end]; naive_solver lia. }
  unfold ExtendedChunk.row_order, band. rewrite flat_seam_to, flat_seam_from, Hint.
  cbn [from_option row_begin row_end]. unfold seam_width. cbn [row_begin row_end].
  replace (m + f) with (w + (m - w + f)) at 2 by lia. rewrite seq_app, (seq_app (m - w)).
  rewrite Nat.sub_0_r. do 2 f_equal. f_equal; lia.
Qed.

Lemma flat_picked : picked flat (row_order flat) = cs.
Proof.
  unfold picked. cbn [e_H flat]. rewrite cols_of_groups by done. rewrite flat_order.
  rewrite <-(list_fmap_id cs) at 2. apply list_fmap_ext. intros j col Hcol%list_elem_of_lookup_2.
  pose proof (co_bound _ _ _ Hcs) as Hbd. rewrite Forall_forall in Hbd, Hsorted. apply pick_seq; auto.
Qed.

Lemma flat_offset : offset_rows flat = m.
Proof. pose proof (rows_split _ flat_ok) as Hr. rewrite flat_width_from in Hr. cbn in Hr. lia. Qed.

Lemma flat_tags_to : seam_tags flat to_seam = take w tags.
Proof.
  unfold seam_tags. rewrite flat_width_to. cbn [e_seams e_tags flat rows_before seam_of]. by rewrite Nat.eqb_refl.
Qed.
Lemma flat_tags_from : seam_tags flat from_seam = drop w tags.
Proof.
  unfold seam_tags. rewrite flat_width_from. cbn [e_seams e_tags flat rows_before seam_of].
  rewrite Nat.eqb_refl, (proj2 (Nat.eqb_neq to_seam from_seam)) by congruence.
  unfold seam_width. cbn [row_begin row_end]. rewrite Nat.sub_0_r, Nat.add_0_r.
  apply take_ge. rewrite length_drop. lia.
Qed.
End flat.

Section pair.
Context a b (Ha : chunk_ok a) (Hb : chunk_ok b) (Hbo : boundary_ok a b).
Context (Haa : aligned a) (Hab : aligned b) (Hfit : pair_fits a b).

Lemma stitched_cols_ok :
  cols_ok (stitched_rows a b) (length (e_error_rates a) + length (e_error_rates b)) (stitched_cols a b).
Proof.
  pose proof (rows_split a Ha) as Hra. pose proof (rows_split b Hb) as Hrb.
  pose proof (boundary_width _ _ Hne a b Ha Hb Hbo) as Hw.
  destruct Hfit as [Hr Hc Hz _]. pose proof (nnz_row_order a Ha). pose proof (nnz_row_order b Hb).
  unfold ExtendedStitch.stitched_rows, ExtendedStitch.stitched_cols.
  apply app_cols_ok; [by apply (length_picked from_seam to_seam)|by rewrite length_fmap; apply (length_picked from_seam to_seam)| | |lia|lia|].
  - apply picked_bound; [done|]. unfold ExtendedStitch.offset_rows in *. lia.
  - apply shift_bound, picked_bound; [done|lia].
  - rewrite nnz_shift. lia.
Qed.

Lemma stitched_cols_sorted : Forall (StronglySorted (≤)) (stitched_cols a b).
Proof.
  unfold ExtendedStitch.stitched_cols. apply Forall_app. split; unfold picked.
  - apply Forall_fmap, Forall_forall. intros col _. apply pick_sorted.
  - rewrite <-list_fmap_compose. apply Forall_fmap, Forall_forall. intros col _. cbn.
    rewrite <-pick_from_shift. apply pick_sorted.
Qed.

Definition stitched_obs : sparse_binary_matrix :=
  of_groups csc (num_rows_ (e_O a)) (length (e_error_rates a) + length (e_error_rates b))
    (cols_of (e_O a) ++ cols_of (e_O b)).

Lemma stitched_flat :
  stitched a b = flat (stitched_cols a b) stitched_obs (e_error_rates a ++ e_error_rates b)
    (width a to_seam) (offset_rows a + offset_rows b) (width b from_seam)
    (seam_tags a to_seam ++ seam_tags b from_seam).
Proof.
  unfold flat, ExtendedStitch.stitched, stitched_obs. cbv zeta. rewrite length_app.
  replace (stitched_rows a b) with (offset_rows a + offset_rows b + width b from_seam); [done|].
  unfold ExtendedStitch.stitched_rows. rewrite (rows_split b Hb). lia.
Qed.

(** The conditions of the previous section. *)
Lemma stitched_flat_ok :
  cols_ok (offset_rows a + offset_rows b + width b from_seam) (length (e_error_rates a ++ e_error_rates b))
    (stitched_cols a b) ∧ well_formed stitched_obs ∧
  num_cols_ stitched_obs = length (e_error_rates a ++ e_error_rates b) ∧
  width a to_seam ≤ offset_rows a + offset_rows b ∧
  length (seam_tags a to_seam ++ seam_tags b from_seam) = width a to_seam + width b from_seam.
Proof.
  rewrite length_app. split_and!.
  - pose proof stitched_cols_ok as Hc. unfold ExtendedStitch.stitched_rows in Hc.
    rewrite (rows_split b Hb), Nat.add_assoc in Hc. done.
  - eexists. apply wf_cols. by apply (stitched_obs_ok from_seam to_seam).
  - done.
  - unfold ExtendedStitch.offset_rows. lia.
  - by rewrite length_app, !(length_seam_tags from_seam to_seam Hne).
Qed.

Lemma stitched_ok : chunk_ok (stitched a b).
Proof. rewrite stitched_flat. destruct stitched_flat_ok as (?&?&?&?&?). by apply flat_ok. Qed.
Lemma stitched_aligned : aligned (stitched a b).
Proof. rewrite stitched_flat. destruct stitched_flat_ok as (?&?&?&?&?). done. Qed.
Lemma stitched_width_to : width (stitched a b) to_seam = width a to_seam.
Proof. rewrite stitched_flat. destruct stitched_flat_ok as (?&?&?&?&?). by apply flat_width_to. Qed.
Lemma stitched_width_from : width (stitched a b) from_seam = width b from_seam.
Proof. rewrite stitched_flat. destruct stitched_flat_ok as (?&?&?&?&?). by apply flat_width_from. Qed.
Lemma stitched_has_from : has_seam (stitched a b) from_seam = true.
Proof. rewrite stitched_flat, has_seam_at, flat_seam_from. by apply bool_decide_eq_true_2. Qed.
Lemma stitched_picked : picked (stitched a b) (row_order (stitched a b)) = stitched_cols a b.
Proof.
  rewrite stitched_flat. destruct stitched_flat_ok as (?&?&?&?&?). apply flat_picked; try done.
  apply stitched_cols_sorted.
Qed.
Lemma stitched_offset : offset_rows (stitched a b) = offset_rows a + offset_rows b.
Proof. rewrite stitched_flat. destruct stitched_flat_ok as (?&?&?&?&?). by apply flat_offset. Qed.
Lemma stitched_tags_to : seam_tags (stitched a b) to_seam = seam_tags a to_seam.
Proof.
  rewrite stitched_flat. destruct stitched_flat_ok as (?&?&?&?&?). rewrite flat_tags_to by done. apply take_app_length'. symmetry. by apply (length_seam_tags from_seam to_seam Hne).
Qed.
Lemma stitched_tags_from : seam_tags (stitched a b) from_seam = seam_tags b from_seam.
Proof.
  rewrite stitched_flat. destruct stitched_flat_ok as (?&?&?&?&?). rewrite flat_tags_from by done.
  apply drop_app_length'. symmetry. by apply (length_seam_tags from_seam to_seam Hne).
Qed.
End pair.

(** ** A chain of chunks *)

Implicit Types chunks : list (extended_dem R).

(** Every chunk passes its checks and neighbours can be contracted. *)
Record chain_ok chunks : Prop := {
  ch_chunks : Forall chunk_ok chunks;
  ch_linked : Sorted boundary_ok chunks
}.

Record chain_fits chunks : Prop := {
  cf_rows : (Z.of_nat (sum_list_with (λ c, num_rows_ (e_H c)) chunks + 1) < 2 ^ 32)%Z;
  cf_cols : (Z.of_nat (sum_list_with (λ c, length (e_error_rates c)) chunks + 1) < 2 ^ 32)%Z;
  cf_nnz : (Z.of_nat (sum_list_with (λ c, nnz (cols_of (e_H c))) chunks) < 2 ^ 32)%Z;
  cf_obs : (Z.of_nat (sum_list_with (λ c, nnz (cols_of (e_O c))) chunks) < 2 ^ 32)%Z
}.

Definition total_offset chunks : nat := sum_list_with offset_rows chunks.

(** The columns of the assembled matrix: each chunk's in row order, shifted to
    the first row of its incoming seam. *)
Fixpoint chain_cols (base : nat) chunks : list (list nat) :=
  match chunks with
  | [] => []
  | c :: chunks => (shift base <$> picked c (row_order c)) ++ chain_cols (base + offset_rows c) chunks
  end.

Lemma chain_cols_snoc base chunks c :
  chain_cols base (chunks ++ [c]) =
    chain_cols base chunks ++ (shift (base + total_offset chunks) <$> picked c (row_order c)).
Proof.
  unfold total_offset. revert base. induction chunks as [|x chunks IH]; intros base; cbn [app chain_cols sum_list_with].
  - by rewrite app_nil_r, Nat.add_0_r.
  - by rewrite IH, <-app_assoc, Nat.add_assoc.
Qed.

(** What an accumulator of the left fold knows of the chunks it has consumed. *)
Record accumulates chunks c : Prop := {
  ac_ok : chunk_ok c;
  ac_aligned : aligned c;
  ac_cols : picked c (row_order c) = chain_cols 0 chunks;
  ac_offset : offset_rows c = total_offset chunks;
  ac_first : ∀ a, head chunks = Some a → width c to_seam = width a to_seam ∧
    seam_tags c to_seam = seam_tags a to_seam ∧ num_rows_ (e_O c) = num_rows_ (e_O a);
  ac_last : ∀ b, last chunks = Some b → width c from_seam = width b from_seam ∧
    seam_tags c from_seam = seam_tags b from_seam ∧ num_rows_ (e_O b) = num_rows_ (e_O c) ∧
    (has_seam b from_seam = true → has_seam c from_seam = true);
  ac_obs : cols_of (e_O c) = chunks ≫= (λ c, cols_of (e_O c));
  ac_rates : e_error_rates c = chunks ≫= e_error_rates;
  ac_nnz : nnz (cols_of (e_H c)) ≤ sum_list_with (λ c, nnz (cols_of (e_H c))) chunks
}.

Lemma accumulates_one c : chunk_ok c → aligned c → accumulates [c] c.
Proof.
  intros Hok Hal. split; [done|done|..].
  - cbn [chain_cols]. rewrite app_nil_r. rewrite <-(list_fmap_id (picked c (row_order c))) at 1.
    apply list_fmap_ext. intros. symmetry. apply shift_0.
  - unfold total_offset. simpl. lia.
  - by intros a [= <-].
  - by intros b [= <-].
  - simpl. by rewrite app_nil_r.
  - simpl. by rewrite app_nil_r.
  - simpl. lia.
Qed.

Lemma total_offset_le chunks :
  Forall chunk_ok chunks → total_offset chunks ≤ sum_list_with (λ c, num_rows_ (e_H c)) chunks.
Proof.
  unfold total_offset. induction 1 as [|c chunks Hc _ IH]; cbn [sum_list_with]; [done|].
  pose proof (rows_split c Hc). lia.
Qed.

(** The rows of the chain: all bands but the contracted copies. *)
Lemma total_rows_le chunks b :
  Forall chunk_ok (chunks ++ [b]) →
  total_offset (chunks ++ [b]) + width b from_seam ≤ sum_list_with (λ c, num_rows_ (e_H c)) (chunks ++ [b]).
Proof.
  intros [Hall [Hb _]%Forall_cons]%Forall_app. pose proof (total_offset_le chunks Hall) as Ht.
  pose proof (rows_split b Hb). unfold total_offset in *.
  rewrite !sum_list_with_app. cbn [sum_list_with]. lia.
Qed.

(** One step of the fold. *)
Lemma accumulates_step chunks a acc b :
  last chunks = Some a → Forall chunk_ok chunks → accumulates chunks acc →
  chunk_ok b → aligned b → boundary_ok a b → chain_fits (chunks ++ [b]) →
  0 < sum_list_with (λ c, length (e_error_rates c)) (chunks ++ [b]) →
  dem_stitch acc b from_seam to_seam = Ok (stitched acc b) ∧ accumulates (chunks ++ [b]) (stitched acc b).
Proof.
  intros Hlast Hall [Hok Hal Hcols Hoff Hfst Hlst Hobs Hrat Hnnz] Hb Hab [Ho Hf Ht Htag] [Fr Fc Fn Fo] Hpos.
  destruct (Hlst a Hlast) as (Hw&Htags&Hk&Hhas).
  pose proof (rows_split acc Hok) as Hracc.
  assert (∃ p, chunks = p ++ [a]) as [p Hp].
  { destruct chunks as [|x l _] using rev_ind; [done|]. rewrite last_snoc in Hlast. simplify_eq. by exists l. }
  pose proof (total_rows_le p a) as Htot. rewrite <-Hp in Htot. specialize (Htot Hall).
  rewrite !sum_list_with_app in Fr, Fc, Fn, Fo, Hpos. cbn [sum_list_with] in *.
  assert (boundary_ok acc b) as Hbo.
  { split; [by rewrite Ho|by apply Hhas|done|by rewrite Htags]. }
  assert (pair_fits acc b) as Hfit.
  { split.
    - rewrite Hracc, Hoff, Hw. lia.
    - rewrite Hrat, length_bind. lia.
    - lia.
    - rewrite Hobs, nnz_bind. lia. }
  split.
  { apply dem_stitch_spec; try done. rewrite Hrat, length_bind. lia. }
  split.
  - by apply stitched_ok.
  - by apply stitched_aligned.
  - rewrite stitched_picked by done. unfold ExtendedStitch.stitched_cols.
    by rewrite chain_cols_snoc, Hcols, Hoff.
  - rewrite stitched_offset by done. unfold total_offset in *. rewrite sum_list_with_app. cbn [sum_list_with]. lia.
  - intros a' Ha'. assert (head chunks = Some a') as Hh.
    { rewrite Hp in Ha' |- *. by destruct p. }
    destruct (Hfst a' Hh) as (?&?&?). rewrite stitched_width_to, stitched_tags_to by done. done.
  - intros b'. rewrite last_snoc. intros [= <-].
    rewrite stitched_width_from, stitched_tags_from by done. split_and!; [done|done| |].
    + cbn. by rewrite Ho.
    + intros _. by apply stitched_has_from.
  - cbn [e_O ExtendedStitch.stitched]. rewrite cols_of_groups by (by apply (stitched_obs_ok from_seam to_seam)).
    rewrite bind_app, Hobs. cbn. by rewrite app_nil_r.
  - cbn [e_error_rates ExtendedStitch.stitched]. rewrite bind_app, Hrat. cbn. by rewrite app_nil_r.
  - cbn [e_H ExtendedStitch.stitched]. rewrite cols_of_groups by (by apply stitched_cols_ok).
    unfold ExtendedStitch.stitched_cols. rewrite nnz_app, nnz_shift, sum_list_with_app. cbn [sum_list_with].
    pose proof (nnz_row_order acc Hok). pose proof (nnz_row_order b Hb). lia.
Qed.

Lemma chain_fits_prefix l l' : chain_fits (l ++ l') → chain_fits l.
Proof. intros [F1 F2 F3 F4]. rewrite !sum_list_with_app in *. split; lia. Qed.

Lemma chain_ok_prefix l l' : chain_ok (l ++ l') → chain_ok l.
Proof. intros [[Hc _]%Forall_app Hl]. split; [done|by eapply sorted_app_l]. Qed.

Lemma fold_stitch_accumulates c0 l :
  chain_ok (c0 :: l) → Forall aligned (c0 :: l) → chain_fits (c0 :: l) → 0 < length (e_error_rates c0) →
  foldM (λ b acc, dem_stitch acc b from_seam to_seam) l c0 = Ok (foldl stitched c0 l) ∧
  accumulates (c0 :: l) (foldl stitched c0 l).
Proof.
  intros Hch Hal Hfit Hpos. induction l as [|b l IH] using rev_ind.
  { split; [done|]. apply accumulates_one.
    - by apply (Forall_cons_1 _ _ _ (ch_chunks _ Hch)).
    - by apply Forall_cons in Hal as [Hc _]. }
  rewrite app_comm_cons in Hch, Hal, Hfit |- *. apply Forall_app in Hal as [Hal [Hab _]%Forall_cons].
  destruct IH as [Hfold Hacc];
    [by eapply chain_ok_prefix|done|by eapply chain_fits_prefix|].
  destruct Hch as [[Hcs [Hb _]%Forall_cons]%Forall_app Hlink].
  assert (∃ a p, c0 :: l = p ++ [a]) as (a&p&Hp).
  { destruct l as [|a l _] using rev_ind; [by exists c0, []|]. by exists a, (c0 :: l). }
  rewrite foldM_app, Hfold, foldl_snoc. cbn [mbind res_bind foldM].
  destruct (accumulates_step (c0 :: l) a (foldl stitched c0 l) b) as [Hs Hacc']; try done.
  - rewrite Hp. by rewrite last_snoc.
  - rewrite Hp, <-app_assoc in Hlink. by apply sorted_last in Hlink.
  - rewrite sum_list_with_app. cbn [sum_list_with]. lia.
  - by rewrite Hs.
Qed.

(** The chunk that stitching from left to right returns. *)
Definition assembled (h : sparse_binary_matrix) c0 chunks b : extended_dem R :=
  let n := sum_list_with (λ c, length (e_error_rates c)) chunks in
  let rows := total_offset chunks in
  mk_extended h (of_groups csc (num_rows_ (e_O c0)) n (chunks ≫= (λ c, cols_of (e_O c))))
    (chunks ≫= e_error_rates)
    [mk_seam to_seam 0 (width c0 to_seam); mk_seam from_seam rows (rows + width b from_seam)]
    (seam_tags c0 to_seam ++ seam_tags b from_seam).

Definition chain_rows chunks b : nat := total_offset chunks + width b from_seam.

Definition chain_matrix chunks b (cs : list (list nat)) : sparse_binary_matrix :=
  of_groups csc (chain_rows chunks b) (sum_list_with (λ c, length (e_error_rates c)) chunks) cs.

Lemma fold_stitch_result c0 l b :
  let chunks := (c0 :: l) ++ [b] in
  chain_ok chunks → Forall aligned chunks → chain_fits chunks → 0 < length (e_error_rates c0) →
  foldM (λ b acc, dem_stitch acc b from_seam to_seam) (l ++ [b]) c0 =
    Ok (assembled (chain_matrix chunks b (chain_cols 0 chunks)) c0 chunks b).
Proof.
  intros chunks Hch Hal Hfit Hpos.
  destruct (fold_stitch_accumulates c0 l) as [Hf [Hok Hal' Hcols Hoff Hfst Hlst Hobs Hrat _]]; [| | |done|].
  - by eapply chain_ok_prefix.
  - by apply Forall_app in Hal as [? _].
  - by eapply chain_fits_prefix.
  - destruct (fold_stitch_accumulates c0 (l ++ [b])) as [-> _]; [done..|].
    f_equal. rewrite foldl_snoc. set (acc := foldl stitched c0 l) in *. clearbody acc.
    unfold ExtendedStitch.stitched. cbv zeta. destruct (Hfst c0 eq_refl) as (Hw&Ht&Hk).
    assert (chunk_ok b) as Hb.
    { destruct Hch as [[_ [Hb _]%Forall_cons]%Forall_app _]. done. }
    assert (length (e_error_rates acc) + length (e_error_rates b) =
      sum_list_with (λ c, length (e_error_rates c)) chunks) as Hn.
    { rewrite Hrat, length_bind. unfold chunks. rewrite sum_list_with_app. cbn [sum_list_with]. lia. }
    assert (offset_rows acc + offset_rows b = total_offset chunks) as Ho.
    { rewrite Hoff. unfold chunks, total_offset. rewrite sum_list_with_app. cbn [sum_list_with]. lia. }
    unfold assembled. cbv zeta. rewrite Hn, Ho, Hw, Ht, Hk.
    assert (stitched_cols acc b = chain_cols 0 chunks) as ->.
    { unfold ExtendedStitch.stitched_cols, chunks. by rewrite chain_cols_snoc, Hcols, Hoff. }
    assert (cols_of (e_O acc) ++ cols_of (e_O b) = chunks ≫= (λ c, cols_of (e_O c))) as ->.
    { rewrite Hobs. unfold chunks. rewrite bind_app. simpl. by rewrite app_nil_r. }
    assert (e_error_rates acc ++ e_error_rates b = chunks ≫= e_error_rates) as ->.
    { rewrite Hrat. unfold chunks. rewrite bind_app. simpl. by rewrite app_nil_r. }
    unfold chain_matrix, chain_rows. do 2 f_equal. unfold ExtendedStitch.stitched_rows.
    rewrite (rows_split b Hb). lia.
Qed.
End chain.
