(* ===== verification/ExtendedAll.v ===== *)
(** * Extended detector error models: chains in one pass

    [dem_stitch_all] plans the row and column geometry of a chain and copies
    every chunk once.  Its checks accept exactly the chains whose neighbours
    can be contracted, its plan places chunk [i] at the first row of its
    incoming seam, and every row lands on its position in composition order. *)

From S2P Require Import Prelude Rates Ordering Tensor SparseMatrix SparseFacts SparseCanon RoundLayout DetectorErrorModel ExtendedDem ExtendedFacts ExtendedChunk ExtendedStitch ExtendedChain.

(** ** Loops that write consecutive columns *)

Lemma fill_at {A} (pre X : list A) rest z (step : nat → list A → res (list A)) :
  (∀ j x out, X !! j = Some x → out !! (length pre + j) = Some z → step j out = vset out (length pre + j) x) →
  for_u 0 (length X) step (pre ++ replicate (length X + rest) z) = Ok (pre ++ X ++ replicate rest z).
Proof.
  intros Hstep.
  destruct (for_u_inv 0 (length X) step
    (λ j out, out = pre ++ take j X ++ replicate (length X - j + rest) z)
    (pre ++ replicate (length X + rest) z)) as (out&->&->).
  - lia.
  - by rewrite Nat.sub_0_r.
  - intros j out Hj ->. destruct (lookup_lt_is_Some_2 X j) as [x Hx]; [lia|].
    rewrite (Hstep j x _ Hx).
    2:{ rewrite lookup_app_r by lia. rewrite lookup_app_r by (rewrite length_take; lia).
        apply lookup_replicate. rewrite length_take. split; [done|lia]. }
    apply returns_vset; [rewrite !length_app, length_take, length_replicate; lia|].
    rewrite insert_app_r_alt by lia. replace (length pre + j - length pre) with j by lia. f_equal.
    rewrite insert_app_r_alt, length_take by (rewrite length_take; lia).
    replace (j - j `min` length X) with 0 by lia.
    replace (length X - j + rest) with (S (length X - (j + 1) + rest)) by lia.
    cbn [replicate insert list_insert]. by rewrite Nat.add_1_r, (take_S_r _ _ x), <-app_assoc.
  - by rewrite Nat.sub_diag, firstn_all.
Qed.

Section all.
Context {R : Type} (from_seam to_seam : nat) (Hne : from_seam ≠ to_seam).
Implicit Types c a b : extended_dem R.
Implicit Types chunks : list (extended_dem R).
Abbreviation chunk_ok := (chunk_ok from_seam to_seam).
Abbreviation row_order := (row_order from_seam to_seam).
Abbreviation boundary_ok := (boundary_ok from_seam to_seam).
Abbreviation offset_rows := (offset_rows to_seam).
Abbreviation total_offset := (total_offset to_seam).
Abbreviation chain_ok := (chain_ok from_seam to_seam).
Abbreviation chain_cols := (chain_cols from_seam to_seam).

(** ** The checks *)

Lemma decides_chunks (P : extended_dem R → Prop) (check : extended_dem R → res unit) chunks :
  (∀ c, c ∈ chunks → decides (check c) (P c) tt) →
  decides (for_u 0 (length chunks) (λ i _, c ← vget chunks i; check c) tt) (Forall P chunks) tt.
Proof.
  intros Hc. eapply decides_iff; [apply decides_for_u with (P := λ i, ∀ c, chunks !! i = Some c → P c)|].
  - intros i Hi. destruct (lookup_lt_is_Some_2 chunks i) as [c Hci]; [lia|].
    rewrite (vget_ok _ _ c) by done. cbn [mbind res_bind].
    eapply decides_iff; [apply Hc; by eapply list_elem_of_lookup_2|]. naive_solver.
  - rewrite Forall_lookup. split; [|naive_solver]. intros HP i c Hi. apply (HP i); [|done].
    apply lookup_lt_Some in Hi. lia.
Qed.

Lemma decides_chunk_checks chunks ctx ctx' :
  Forall typed chunks →
  decides (for_u 0 (length chunks) (λ i _, c ← vget chunks i; _ ← validate c ctx;
    reject_extra_seams c from_seam to_seam ctx') tt) (Forall chunk_ok chunks) tt.
Proof.
  intros Hty. apply (decides_chunks chunk_ok). intros c Hc.
  rewrite Forall_forall in Hty. specialize (Hty c Hc).
  eapply decides_iff; [eapply decides_bind; [by apply validate_chunk_decides|]|].
  - intros Hv. by apply reject_extra_decides.
  - split; [intros [? ?]; by split|]. intros []. done.
Qed.

Lemma decides_adjacent (P : extended_dem R → extended_dem R → Prop)
    (check : extended_dem R → extended_dem R → res unit) chunks :
  (∀ a b, a ∈ chunks → b ∈ chunks → decides (check a b) (P a b) tt) →
  decides (for_u 0 (length chunks - 1) (λ i _, a ← vget chunks i; b ← vget chunks (i + 1); check a b) tt)
    (Sorted P chunks) tt.
Proof.
  intros Hc. eapply decides_iff; [apply decides_for_u with
    (P := λ i, ∀ a b, chunks !! i = Some a → chunks !! S i = Some b → P a b)|].
  - intros i Hi. destruct (lookup_lt_is_Some_2 chunks i) as [a Ha]; [lia|].
    destruct (lookup_lt_is_Some_2 chunks (i + 1)) as [b Hb]; [lia|].
    rewrite (vget_ok _ i a) by done. cbn [mbind res_bind].
    rewrite (vget_ok _ (i + 1) b) by done. cbn [mbind res_bind]. rewrite Nat.add_1_r in Hb.
    eapply decides_iff; [apply Hc; by eapply list_elem_of_lookup_2|]. naive_solver.
  - rewrite sorted_lookup_adjacent. split; [|naive_solver]. intros HP i a b Ha Hb. apply (HP i); [|done|done].
    apply lookup_lt_Some in Hb. lia.
Qed.

Lemma decides_same_obs chunks ctx :
  decides (for_u 1 (length chunks) (λ i _, c ← vget chunks i; c0 ← vget chunks 0;
      throw_if (negb (e_num_observables c =? e_num_observables c0)) (InvalidArgument ctx)) tt)
    (Sorted (λ a b, num_rows_ (e_O b) = num_rows_ (e_O a)) chunks) tt.
Proof.
  eapply decides_iff; [apply decides_for_u with (P := λ i, ∀ c c0, chunks !! i = Some c → chunks !! 0 = Some c0 →
    num_rows_ (e_O c) = num_rows_ (e_O c0))|].
  - intros i Hi. destruct (lookup_lt_is_Some_2 chunks i) as [c Hc]; [lia|].
    destruct (lookup_lt_is_Some_2 chunks 0) as [c0 H0]; [lia|].
    rewrite (vget_ok _ i c) by done. cbn [mbind res_bind].
    rewrite (vget_ok _ 0 c0) by done. cbn [mbind res_bind].
    eapply decides_iff; [apply decides_eqb|]. unfold e_num_observables. naive_solver.
  - rewrite sorted_lookup_adjacent, (all_equal_adjacent (λ c, num_rows_ (e_O c))). split.
    + intros Hall i x x0 Hx H0. destruct i as [|i]; [congruence|]. apply (Hall (S i)); [|done|done].
      apply lookup_lt_Some in Hx. lia.
    + intros Hall i _. apply Hall.
Qed.

(** The checks of a chain accept exactly the chains that can be contracted. *)
Lemma validate_chain_decides chunks fn :
  Forall typed chunks → decides (validate_chain chunks from_seam to_seam fn) (chain_ok chunks) tt.
Proof.
  intros Hty. unfold validate_chain. cbv zeta.
  eapply decides_iff; [eapply decides_bind; [by apply decides_chunk_checks|]|].
  { intros Hok. eapply decides_bind; [apply decides_same_obs|]. intros _.
    apply (decides_adjacent (λ a b, has_seam a from_seam = true ∧ has_seam b to_seam = true ∧
      seam_tags a from_seam = seam_tags b to_seam)).
    intros a b Ha Hb. rewrite Forall_forall in Hok.
    eapply decides_bind; [eapply decides_iff; [apply decides_throw_if|apply negb_false_iff]|]. intros _.
    eapply decides_bind; [eapply decides_iff; [apply decides_throw_if|apply negb_false_iff]|]. intros _.
    apply check_boundary_decides; [done|by apply Hok|by apply Hok]. }
  rewrite sorted_and. split.
  - intros [Hok Hs]. split; [done|]. eapply sorted_impl; [|exact Hs]. intros a b (?&?&?&?). by split.
  - intros [Hok Hs]. split; [done|]. eapply sorted_impl; [|exact Hs]. intros a b []. done.
Qed.

(** ** Offsets of a chain *)

Definition faults_before chunks (k : nat) : nat :=
  sum_list_with (λ c, length (e_error_rates c)) (take k chunks).
Definition base chunks (k : nat) : nat := total_offset (take k chunks).

Lemma base_S chunks k c : chunks !! k = Some c → base chunks (S k) = base chunks k + offset_rows c.
Proof. apply sum_take_S. Qed.
Lemma faults_before_S chunks k c :
  chunks !! k = Some c → faults_before chunks (S k) = faults_before chunks k + length (e_error_rates c).
Proof. apply (sum_take_S (λ c, length (e_error_rates c))). Qed.

Lemma base_all chunks : base chunks (length chunks) = total_offset chunks.
Proof. unfold base. by rewrite firstn_all. Qed.

Lemma fault_offsets_eq chunks :
  Forall typed chunks → chain_fits chunks →
  dem_chunks_to_fault_offsets chunks = faults_before chunks <$> seq 0 (length chunks + 1).
Proof.
  intros Hty Hfit. unfold dem_chunks_to_fault_offsets.
  induction chunks as [|c chunks IH] using rev_ind; [done|].
  apply Forall_app in Hty as [Hty [Hc _]%Forall_cons].
  rewrite foldl_snoc, IH by (done || by eapply chain_fits_prefix).
  rewrite length_app. cbn [length]. rewrite (Nat.add_1_r (length chunks + 1)), seq_S, fmap_app. f_equal.
  - apply list_fmap_ext. intros i k [-> Hk]%lookup_seq. unfold faults_before.
    by rewrite take_app_le by lia.
  - cbn [fmap list_fmap]. f_equal. destruct Hfit as [_ Fc _ _]. rewrite sum_list_with_app in Fc. cbn [sum_list_with] in Fc.
    rewrite Nat.add_1_r, seq_S, fmap_app. cbn [fmap list_fmap]. rewrite last_snoc. cbn [default from_option Nat.add].
    unfold num_faults. rewrite (wrap_small 32) by apply Hc. unfold id, faults_before at 1.
    rewrite firstn_all, wrap_small by lia. unfold faults_before.
    rewrite take_ge by (rewrite length_app; simpl; lia). rewrite sum_list_with_app. cbn [sum_list_with]. lia.
Qed.

(** Where the plan puts chunk [i]. *)
Record plan_ok chunks (plan : chain_layout) : Prop := {
  pl_cols : ∀ k, k ≤ length chunks → col_off plan !! k = Some (faults_before chunks k);
  pl_interior : ∀ k c, chunks !! k = Some c → interior_row plan !! k = Some (base chunks k + width c to_seam);
  pl_seam : ∀ k, S k < length chunks → seam_row plan !! k = Some (base chunks (S k));
  pl_lead : ∀ c, head chunks = Some c → lead plan = width c to_seam;
  pl_trail : ∀ c, last chunks = Some c → trail plan = width c from_seam;
  pl_trail_row : trail_row plan = total_offset chunks;
  pl_faults : chain_faults plan = sum_list_with (λ c, length (e_error_rates c)) chunks
}.

Definition to_width chunks (k : nat) : nat := from_option (λ c, width c to_seam) 0 (chunks !! k).

(** Rows of the chain before the interior of chunk [k] stay in range. *)
Lemma base_bound chunks k :
  chain_ok chunks → base chunks k + to_width chunks k ≤ sum_list_with (λ c, num_rows_ (e_H c)) chunks.
Proof.
  intros [Hall _]. unfold base. rewrite <-(take_drop k chunks) at 3. rewrite sum_list_with_app.
  pose proof (total_offset_le _ _ Hne (take k chunks) (Forall_take _ _ _ Hall)) as Hle.
  unfold to_width. destruct (chunks !! k) as [c|] eqn:Hc; cbn [from_option]; [|lia].
  rewrite (drop_S _ c) by done. cbn [sum_list_with].
  assert (chunk_ok c) as Hok by (rewrite Forall_lookup in Hall; by eapply Hall).
  pose proof (widths_sum _ _ Hne c Hok). lia.
Qed.

(** The loop of [plan_chain]. *)
Definition plan_step chunks (i : nat) (st : list nat * list nat * nat) : res (list nat * list nat * nat) :=
  let '(interior_row, seam_row, rows) := st in
  interior_row ← vset interior_row i rows;
  chunk ← vget chunks i;
  let rows := u64 (rows + num_interior_rows chunk) in
  if i + 1 <? length chunks then
    seam_row ← vset seam_row i rows;
    w ← seam_rows_or_zero chunk from_seam;
    Ok (interior_row, seam_row, u64 (rows + w))
  else Ok (interior_row, seam_row, rows).

Record planned chunks (i : nat) (st : list nat * list nat * nat) : Prop := {
  pd_interior : length st.1.1 = length chunks;
  pd_seam : length st.1.2 = length chunks - 1;
  pd_interiors : ∀ k c, k < i → chunks !! k = Some c → st.1.1 !! k = Some (base chunks k + width c to_seam);
  pd_seams : ∀ k, k < i → S k < length chunks → st.1.2 !! k = Some (base chunks (S k));
  pd_rows : st.2 = base chunks i + to_width chunks i
}.

Lemma plan_step_spec chunks i st :
  chain_ok chunks → chain_fits chunks → i < length chunks → planned chunks i st →
  returns (plan_step chunks i st) (planned chunks (i + 1)).
Proof.
  intros Hch [Fr _ _ _] Hi [Hir Hsr HI HS Hrows]. pose proof Hch as [Hall Hlink]. rewrite Forall_lookup in Hall.
  destruct st as [[ir sr] rows]. cbn [fst snd] in *.
  destruct (lookup_lt_is_Some_2 chunks i Hi) as [c Hc]. pose proof (Hall _ _ Hc) as Hok.
  pose proof (base_S chunks i c Hc) as Hb. pose proof (widths_sum _ _ Hne c Hok) as Hws.
  pose proof (base_bound chunks i Hch) as Hb1. pose proof (base_bound chunks (i + 1) Hch) as Hb2.
  assert (to_width chunks i = width c to_seam) as Htw by (unfold to_width; by rewrite Hc).
  rewrite Nat.add_1_r in *. unfold ExtendedStitch.offset_rows in Hb.
  unfold plan_step. rewrite vset_ok, (vget_ok _ _ c) by (done || lia). cbn [mbind res_bind].
  rewrite (num_interior_rows_eq _ _ Hne c Hok), wrap_small by lia.
  assert (∀ k c', k < S i → chunks !! k = Some c' → <[i:=rows]> ir !! k = Some (base chunks k + width c' to_seam)) as HI'.
  { intros k c' Hk Hc'. destruct (decide (k = i)) as [->|].
    - rewrite list_lookup_insert_eq by lia. f_equal. simplify_eq. lia.
    - rewrite list_lookup_insert_ne by lia. apply HI; [lia|done]. }
  replace (i + 1) with (S i) by lia. destruct (Nat.ltb_spec (S i) (length chunks)) as [Hlt|Hge].
  - rewrite vset_ok by lia. cbn [mbind res_bind]. rewrite seam_rows_or_zero_eq by apply Hok. cbn [mbind res_bind].
    destruct (lookup_lt_is_Some_2 chunks (S i) Hlt) as [b Hb'].
    assert (width c from_seam = to_width chunks (S i)) as Hw.
    { unfold to_width. rewrite Hb'. cbn [from_option]. apply (boundary_width _ _ Hne); [done|by eapply Hall|].
      rewrite sorted_lookup_adjacent in Hlink. by apply (Hlink i). }
    rewrite wrap_small by lia. apply returns_ok. split; cbn [fst snd]; [by rewrite length_insert..|done| |lia].
    intros k Hk Hk'. destruct (decide (k = i)) as [->|].
    + rewrite list_lookup_insert_eq by lia. f_equal. lia.
    + rewrite list_lookup_insert_ne by lia. apply HS; lia.
  - apply returns_ok. assert (to_width chunks (S i) = 0) as Hw0.
    { unfold to_width. by rewrite lookup_ge_None_2 by lia. }
    split; cbn [fst snd]; [by rewrite length_insert|done|done| |lia].
    intros k Hk Hk'. apply HS; lia.
Qed.

Lemma plan_chain_spec chunks :
  chunks ≠ [] → chain_ok chunks → chain_fits chunks →
  returns (plan_chain chunks from_seam to_seam) (plan_ok chunks).
Proof.
  intros Hnil Hch Hfit. pose proof Hch as [Hall Hlink].
  assert (Forall typed chunks) as Hty by (eapply Forall_impl; [exact Hall|]; by intros c []).
  assert (0 < length chunks) as Hlen by (destruct chunks; [done|simpl; lia]).
  rewrite Forall_lookup in Hall.
  destruct (lookup_lt_is_Some_2 chunks 0) as [c0 H0]; [lia|].
  destruct (lookup_lt_is_Some_2 chunks (length chunks - 1)) as [b Hb]; [lia|].
  unfold plan_chain. cbv zeta. rewrite (vget_ok _ 0 c0) by done. cbn [mbind res_bind].
  rewrite (vget_ok _ _ b) by done. cbn [mbind res_bind].
  rewrite !seam_rows_or_zero_eq by (eapply Hall; eassumption). cbn [mbind res_bind].
  destruct (for_u_inv 0 (length chunks) (plan_step chunks) (planned chunks)
    (replicate (length chunks) 0, replicate (length chunks - 1) 0, width c0 to_seam))
    as (st&Hst&[_ _ HI HS Hrows]).
  - lia.
  - split; cbn [fst snd]; [apply length_replicate|apply length_replicate|lia|lia|].
    unfold base, to_width. by rewrite H0.
  - intros i st Hi. apply plan_step_spec; [done|done|lia].
  - change (returns (st ← for_u 0 (length chunks) (plan_step chunks)
      (replicate (length chunks) 0, replicate (length chunks - 1) 0, width c0 to_seam);
      n ← vget (dem_chunks_to_fault_offsets chunks) (length (dem_chunks_to_fault_offsets chunks) - 1);
      Ok (mk_layout (dem_chunks_to_fault_offsets chunks) st.1.1 st.1.2 (width c0 to_seam)
        (width b from_seam) st.2 n)) (plan_ok chunks)).
    rewrite Hst, fault_offsets_eq by done. cbn [mbind res_bind]. rewrite length_fmap, length_seq, Nat.add_sub.
    rewrite (vget_ok _ _ (faults_before chunks (length chunks)))
      by (rewrite list_lookup_fmap, lookup_seq_lt by lia; done).
    apply returns_ok. split; cbn.
    + intros k Hk. by rewrite list_lookup_fmap, lookup_seq_lt by lia.
    + intros k c Hc. apply HI; [by apply lookup_lt_Some in Hc|done].
    + intros k Hk. apply HS; [lia|done].
    + intros c Hc. rewrite head_lookup in Hc. by simplify_eq.
    + intros c Hc. rewrite last_lookup in Hc. replace (pred (length chunks)) with (length chunks - 1) in Hc by lia.
      by simplify_eq.
    + rewrite Hrows. unfold to_width. rewrite lookup_ge_None_2 by lia. cbn. by rewrite Nat.add_0_r, base_all.
    + unfold faults_before. by rewrite firstn_all.
Qed.
End all.

(** * Extended detector error models: copying the chunks of a chain

    [chain_row_map] sends every row of a chunk to its position in composition
    order, so that the copied columns are the columns of the chain up to the
    order of their entries. *)

(** The rank of an element in a filtered range. *)
Lemma filter_seq_rank (P : nat → bool) n r :
  r < n → P r = true → filter P (seq 0 n) !! length (filter P (seq 0 r)) = Some r.
Proof.
  intros Hr HP. replace n with (r + S (n - r - 1)) by lia. rewrite seq_app, list.filter_app. cbn [seq].
  rewrite filter_cons_True by (by apply Is_true_true). by rewrite list_lookup_middle.
Qed.

(** A vector filled from the left. *)
Definition filled (f : nat → nat) (n k : nat) : list nat := (f <$> seq 0 k) ++ replicate (n - k) 0.

Lemma vset_filled f n k : k < n → vset (filled f n k) k (f k) = Ok (filled f n (k + 1)).
Proof.
  intros Hk. unfold filled. rewrite vset_ok by (rewrite length_app, length_fmap, length_seq, length_replicate; lia).
  f_equal. rewrite insert_app_r_alt by (rewrite length_fmap, length_seq; lia).
  rewrite length_fmap, length_seq, Nat.sub_diag. replace (n - k) with (S (n - (k + 1))) by lia.
  cbn [replicate insert list_insert]. by rewrite Nat.add_1_r, seq_S, fmap_app, <-app_assoc.
Qed.

Section copy.
Context {R : Type} (from_seam to_seam : nat) (Hne : from_seam ≠ to_seam).
Implicit Types c a b : extended_dem R.
Implicit Types chunks : list (extended_dem R).
Abbreviation chunk_ok := (chunk_ok from_seam to_seam).
Abbreviation row_order := (row_order from_seam to_seam).
Abbreviation boundary_ok := (boundary_ok from_seam to_seam).
Abbreviation offset_rows := (offset_rows to_seam).
Abbreviation total_offset := (total_offset to_seam).
Abbreviation chain_ok := (chain_ok from_seam to_seam).
Abbreviation chain_cols := (chain_cols from_seam to_seam).
Abbreviation base := (base to_seam).
Abbreviation plan_ok := (plan_ok from_seam to_seam).

(** ** Positions in composition order *)

Definition in_seam c (id r : nat) : bool :=
  match seam_at c id with Some s => in_band r s | None => false end.
Definition seam_start c (id : nat) : nat := from_option row_begin 0 (seam_at c id).

Definition position c (r : nat) : nat :=
  if in_seam c to_seam r then r - seam_start c to_seam
  else if in_seam c from_seam r then offset_rows c + (r - seam_start c from_seam)
  else width c to_seam + length (filter (outside (e_seams c)) (seq 0 r)).

Lemma in_seam_band c id r : in_seam c id r = true ↔ r ∈ band c id.
Proof.
  unfold in_seam. rewrite elem_of_band. destruct (seam_at c id) as [s|].
  - rewrite in_band_true. naive_solver.
  - naive_solver.
Qed.

Lemma in_seam_lookup c id r :
  in_seam c id r = true → band c id !! (r - seam_start c id) = Some r.
Proof.
  rewrite in_seam_band. unfold band, seam_start. destruct (seam_at c id) as [s|]; cbn [from_option]; [|set_solver].
  intros Hr%elem_of_seq. rewrite lookup_seq_lt by lia. f_equal. lia.
Qed.

(** A row of neither seam is interior. *)
Lemma outside_spec c r :
  chunk_ok c → outside (e_seams c) r = negb (in_seam c to_seam r || in_seam c from_seam r).
Proof.
  intros Hok. unfold outside. f_equal. apply eq_true_iff_eq.
  rewrite orb_true_iff, !in_seam_band, !elem_of_band, existsb_exists. setoid_rewrite <-list_elem_of_In.
  setoid_rewrite in_band_true. split.
  - intros (s&Hs&Hr). pose proof (seam_at_of c s (ok_typed _ _ c Hok) Hs) as Hat.
    destruct (ok_extra _ _ c Hok s Hs) as [Hf|[Ht|?]]; [| |lia].
    + right. exists s. by rewrite <-Hf.
    + left. exists s. by rewrite <-Ht.
  - intros [(s&[Hs _]%seam_at_elem&Hr)|(s&[Hs _]%seam_at_elem&Hr)]; by exists s.
Qed.

Lemma position_spec c r :
  chunk_ok c → r < num_rows_ (e_H c) → row_order c !! position c r = Some r.
Proof.
  intros Hok Hr. unfold position, ExtendedChunk.row_order. pose proof (outside_spec c r Hok) as Ho.
  destruct (in_seam c to_seam r) eqn:Et.
  { rewrite lookup_app_l; [by apply in_seam_lookup|]. by apply in_seam_lookup, lookup_lt_Some in Et. }
  destruct (in_seam c from_seam r) eqn:Ef.
  - unfold ExtendedStitch.offset_rows. rewrite lookup_app_r, length_band by (rewrite length_band; lia).
    rewrite lookup_app_r by lia.
    replace (width c to_seam + length (interior c) + (r - seam_start c from_seam) - width c to_seam - length (interior c))
      with (r - seam_start c from_seam) by lia. by apply in_seam_lookup.
  - rewrite lookup_app_r, length_band by (rewrite length_band; lia).
    replace (width c to_seam + length (filter (outside (e_seams c)) (seq 0 r)) - width c to_seam)
      with (length (filter (outside (e_seams c)) (seq 0 r))) by lia.
    pose proof (filter_seq_rank (outside (e_seams c)) _ r Hr Ho) as Hl. fold (interior c) in Hl.
    by rewrite lookup_app_l by (by apply lookup_lt_Some in Hl).
Qed.

Lemma position_bound c r : chunk_ok c → r < num_rows_ (e_H c) → position c r < num_rows_ (e_H c).
Proof.
  intros Hok Hr. pose proof (position_spec c r Hok Hr) as Hl. apply lookup_lt_Some in Hl.
  by rewrite (length_row_order _ _ Hne) in Hl.
Qed.

(** Renaming the rows of a column to their positions permutes [pick]. *)
Lemma position_pick c col :
  chunk_ok c → Forall (λ r, r < num_rows_ (e_H c)) col →
  position c <$> col ≡ₚ pick (row_order c) col.
Proof.
  intros Hok Hb. apply (Permutation_count_occ Nat.eq_dec). intros k.
  fold (occ k (position c <$> col)) (occ k (pick (row_order c) col)).
  rewrite occ_pick, decide_True, Nat.sub_0_r by lia.
  induction Hb as [|r col Hr _ IH]; [by destruct (row_order c !! k)|].
  rewrite fmap_cons, occ_cons, IH. pose proof (position_spec c r Hok Hr) as Hp.
  destruct (row_order c !! k) as [r'|] eqn:Hk.
  - rewrite occ_cons. f_equal. repeat case_decide; try done.
    + subst k. congruence.
    + subst r'. exfalso. pose proof (row_order_nodup _ _ Hne c Hok) as Hnd.
      eapply NoDup_lookup in Hnd; [|exact Hp|exact Hk]. done.
  - rewrite decide_False; [done|]. intros <-. congruence.
Qed.

(** ** [chain_row_map] *)

Definition map_step c (to_base from_base : nat) (to_ from_ : seam) (plan : chain_layout) (i r : nat)
    (st : list nat * nat) : res (list nat * nat) :=
  let '(row_map, interior_seen) := st in
  if has_seam c to_seam && in_band r to_ then
    row_map ← vset row_map r (u32 (to_base + (r - row_begin to_)));
    Ok (row_map, interior_seen)
  else if has_seam c from_seam && in_band r from_ then
    row_map ← vset row_map r (u32 (from_base + (r - row_begin from_)));
    Ok (row_map, interior_seen)
  else
    base ← vget (interior_row plan) i;
    row_map ← vset row_map r (u32 (base + interior_seen));
    Ok (row_map, u64 (interior_seen + 1)).

Lemma seam_or_default c id :
  ∃ s, (if has_seam c id then get_seam c id else Ok (mk_seam 0 0 0)) = Ok s ∧ row_begin s = seam_start c id ∧
    ∀ r, has_seam c id && in_band r s = in_seam c id r.
Proof.
  rewrite has_seam_at. unfold in_seam, seam_start. destruct (seam_at c id) as [s|] eqn:Hs.
  - exists s. rewrite bool_decide_eq_true_2 by done. by rewrite (get_seam_at c id s).
  - exists (mk_seam 0 0 0). rewrite bool_decide_eq_false_2; [done|]. by intros [? ?].
Qed.

Lemma map_step_spec c to_base plan i st sf r :
  chunk_ok c → r < num_rows_ (e_H c) → (Z.of_nat (to_base + num_rows_ (e_H c)) < 2 ^ 32)%Z →
  interior_row plan !! i = Some (to_base + width c to_seam) →
  row_begin st = seam_start c to_seam → row_begin sf = seam_start c from_seam →
  has_seam c to_seam && in_band r st = in_seam c to_seam r →
  has_seam c from_seam && in_band r sf = in_seam c from_seam r →
  let f := λ r, to_base + position c r in
  map_step c to_base (to_base + offset_rows c) st sf plan i r
    (filled f (num_rows_ (e_H c)) r, length (filter (outside (e_seams c)) (seq 0 r))) =
  Ok (filled f (num_rows_ (e_H c)) (r + 1), length (filter (outside (e_seams c)) (seq 0 (r + 1)))).
Proof.
  intros Hok Hr Hz Hir Hst Hsf Ht Hf f. pose proof (position_bound c r Hok Hr) as Hp.
  pose proof (outside_spec c r Hok) as Ho. pose proof (vset_filled f _ r Hr) as Hset.
  unfold map_step. rewrite Ht, Hf, Hst, Hsf, (Nat.add_1_r r), seq_S, list.filter_app, filter_cons, filter_nil.
  cbn [Nat.add]. change (f r) with (to_base + position c r) in Hset. unfold position in Hset, Hp.
  destruct (in_seam c to_seam r); cbn [orb negb] in Ho.
  { rewrite decide_False, app_nil_r by (rewrite Ho; tauto).
    rewrite wrap_small, Hset by lia. cbn [mbind res_bind]. by rewrite Nat.add_1_r. }
  destruct (in_seam c from_seam r); cbn [orb negb] in Ho.
  - rewrite decide_False, app_nil_r by (rewrite Ho; tauto).
    rewrite wrap_small by lia. rewrite <-Nat.add_assoc, Hset. cbn [mbind res_bind]. by rewrite Nat.add_1_r.
  - rewrite decide_True by (by rewrite Ho). rewrite (vget_ok _ _ _ Hir). cbn [mbind res_bind].
    rewrite (wrap_small 32) by lia. rewrite <-Nat.add_assoc, Hset. cbn [mbind res_bind].
    rewrite length_app. cbn [length]. rewrite wrap_small by lia. by rewrite Nat.add_1_r.
Qed.

Lemma base_rows chunks i c :
  chain_ok chunks → chunks !! i = Some c →
  base chunks i + num_rows_ (e_H c) ≤ sum_list_with (λ c, num_rows_ (e_H c)) chunks.
Proof.
  intros [Hall _] Hc. rewrite <-(take_drop_middle chunks i c Hc) at 2. rewrite sum_list_with_app. cbn [sum_list_with].
  pose proof (total_offset_le _ _ Hne (take i chunks) (Forall_take _ _ _ Hall)). unfold ExtendedAll.base. lia.
Qed.

Lemma chain_row_map_spec chunks plan c i :
  plan_ok chunks plan → chain_ok chunks → chain_fits chunks → chunks !! i = Some c →
  chain_row_map c i (length chunks) plan from_seam to_seam =
    Ok ((λ r, base chunks i + position c r) <$> seq 0 (num_rows_ (e_H c))).
Proof.
  intros Hplan Hch [Fr _ _ _] Hc. pose proof (base_rows chunks i c Hch Hc) as Hbound.
  assert (chunk_ok c) as Hok by (pose proof (ch_chunks _ _ _ Hch) as Hall; rewrite Forall_lookup in Hall; by eapply Hall).
  pose proof (lookup_lt_Some _ _ _ Hc) as Hi. pose proof (base_S to_seam chunks i c Hc) as HbS.
  unfold chain_row_map.
  assert ((if i =? 0 then Ok 0 else vget (seam_row plan) (i - 1)) = Ok (base chunks i)) as ->.
  { destruct (Nat.eqb_spec i 0) as [->|]; [done|]. apply vget_ok.
    rewrite (pl_seam _ _ _ _ Hplan) by lia. do 2 f_equal. lia. }
  assert ((if i + 1 <? length chunks then vget (seam_row plan) i else Ok (trail_row plan)) =
    Ok (base chunks i + offset_rows c)) as ->.
  { rewrite <-HbS. destruct (Nat.ltb_spec (i + 1) (length chunks)).
    - apply vget_ok. apply (pl_seam _ _ _ _ Hplan). lia.
    - rewrite (pl_trail_row _ _ _ _ Hplan), <-base_all. do 2 f_equal. lia. }
  cbn [mbind res_bind]. cbv zeta.
  destruct (seam_or_default c to_seam) as (st&->&Hst&Hint). cbn [mbind res_bind].
  destruct (seam_or_default c from_seam) as (sf&->&Hsf&Hinf). cbn [mbind res_bind].
  set (f := λ r, base chunks i + position c r). set (n := num_rows_ (e_H c)).
  destruct (for_u_inv 0 n (map_step c (base chunks i) (base chunks i + offset_rows c) st sf plan i)
    (λ r s, s = (filled f n r, length (filter (outside (e_seams c)) (seq 0 r)))) (replicate n 0, 0)) as (s&Hs&->).
  - lia.
  - unfold filled. by rewrite Nat.sub_0_r.
  - intros r s Hr ->. unfold n, f. rewrite map_step_spec by (try done; try lia; by apply (pl_interior _ _ _ _ Hplan)).
    by apply returns_ok.
  - unfold map_step in Hs. rewrite Hs. cbn [mbind res_bind fst]. unfold filled.
    by rewrite Nat.sub_diag, app_nil_r.
Qed.

(** ** The copied columns *)

Lemma nested_csc_eq m : well_formed m → nested_csc m = Ok (cols_of m).
Proof.
  intros [gs Hwf]. unfold nested_csc, cols_of. rewrite (to_nested_csc_spec m gs) by done.
  destruct (is_csc m) eqn:E; [done|]. rewrite (to_csc_spec m gs), E by done. cbn [mbind res_bind].
  pose proof (wf_transposed m gs Hwf) as Ht. unfold other, index_bound in Ht. rewrite E in Ht.
  by rewrite (to_nested_csc_spec _ _ Ht).
Qed.

(** A chunk's columns at their place in the chain, without the rows at or past
    [limit]. *)
Definition placed (limit base : nat) c : list (list nat) :=
  (λ col : list nat, filter (λ x, x < limit) ((λ r, base + position c r) <$> col)) <$> cols_of (e_H c).

Fixpoint placed_all (limit base : nat) chunks : list (list nat) :=
  match chunks with
  | [] => []
  | c :: chunks => placed limit base c ++ placed_all limit (base + offset_rows c) chunks
  end.

Lemma placed_all_snoc limit k0 chunks c :
  placed_all limit k0 (chunks ++ [c]) =
    placed_all limit k0 chunks ++ placed limit (k0 + total_offset chunks) c.
Proof.
  unfold ExtendedChain.total_offset. revert k0.
  induction chunks as [|x chunks IH]; intros k0; cbn [app placed_all sum_list_with].
  - by rewrite app_nil_r, Nat.add_0_r.
  - by rewrite IH, <-app_assoc, Nat.add_assoc.
Qed.

Lemma length_placed_all limit k0 chunks :
  Forall chunk_ok chunks →
  length (placed_all limit k0 chunks) = sum_list_with (λ c, length (e_error_rates c)) chunks.
Proof.
  intros Hall. revert k0. induction Hall as [|c chunks Hc _ IH]; intros k0; cbn [placed_all sum_list_with]; [done|].
  rewrite length_app, IH. unfold placed. rewrite length_fmap. f_equal.
  apply (v_cols _ _ _ _ _ (chunk_view _ _ c Hc)).
Qed.

Lemma copy_chain_column (f : nat → nat) n limit col :
  Forall (λ r, r < n) col →
  foldM (λ r dst, x ← vget (f <$> seq 0 n) r; Ok (if x <? limit then dst ++ [x] else dst)) col [] =
    Ok (filter (λ x, x < limit) (f <$> col)).
Proof.
  intros Hb. rewrite (foldM_pure _ (λ dst r, if f r <? limit then dst ++ [f r] else dst)).
  2:{ intros r dst Hr. rewrite Forall_forall in Hb. apply Hb in Hr.
      rewrite (vget_ok _ _ (f r)) by (by rewrite list_lookup_fmap, lookup_seq_lt). done. }
  f_equal. clear Hb. induction col as [|r col IH] using rev_ind; [done|].
  rewrite foldl_snoc, IH, fmap_app, list.filter_app. cbn [fmap list_fmap]. rewrite filter_cons, filter_nil.
  destruct (Nat.ltb_spec (f r) limit); [rewrite decide_True by done|rewrite decide_False by lia]; [done|].
  by rewrite app_nil_r.
Qed.

Lemma copy_chunk (pre : list (list nat)) f n limit local rest :
  Forall (Forall (λ r, r < n)) local →
  for_u 0 (length local) (λ j cols,
      dst ← vget cols (length pre + j);
      col ← vget local j;
      dst ← foldM (λ r dst, x ← vget (f <$> seq 0 n) r;
                     Ok (if x <? limit then dst ++ [x] else dst)) col dst;
      vset cols (length pre + j) dst) (pre ++ replicate (length local + rest) []) =
  Ok (pre ++ ((λ col : list nat, filter (λ x, x < limit) (f <$> col)) <$> local) ++ replicate rest []).
Proof.
  intros Hb. pose proof (fill_at pre ((λ col : list nat, filter (λ x, x < limit) (f <$> col)) <$> local) rest []
    (λ j cols,
      dst ← vget cols (length pre + j);
      col ← vget local j;
      dst ← foldM (λ r dst, x ← vget (f <$> seq 0 n) r;
                     Ok (if x <? limit then dst ++ [x] else dst)) col dst;
      vset cols (length pre + j) dst)) as Hfill.
  rewrite length_fmap in Hfill. apply Hfill. intros j x out Hx Hout.
  apply list_lookup_fmap_Some in Hx as (col&->&Hcol).
  rewrite (vget_ok _ _ _ Hout). cbn [mbind res_bind]. rewrite (vget_ok _ _ _ Hcol). cbn [mbind res_bind].
  rewrite copy_chain_column; [done|]. rewrite Forall_forall in Hb. by eapply Hb, list_elem_of_lookup_2.
Qed.

Lemma chain_h_columns_spec chunks plan limit :
  plan_ok chunks plan → chain_ok chunks → chain_fits chunks →
  chain_h_columns chunks plan from_seam to_seam limit = Ok (placed_all limit 0 chunks).
Proof.
  intros Hplan Hch Hfit. pose proof (ch_chunks _ _ _ Hch) as Hall. unfold chain_h_columns. cbv zeta.
  rewrite (pl_faults _ _ _ _ Hplan). set (n := sum_list_with (λ c, length (e_error_rates c)) chunks).
  destruct (for_u_inv 0 (length chunks) (λ i cols,
    chunk ← vget chunks i;
    row_map ← chain_row_map chunk i (length chunks) plan from_seam to_seam;
    local ← nested_csc (e_H chunk);
    for_u 0 (length local) (λ j cols,
      off ← vget (col_off plan) i;
      dst ← vget cols (off + j);
      col ← vget local j;
      dst ← foldM (λ r dst, x ← vget row_map r;
                     Ok (if x <? limit then dst ++ [x] else dst)) col dst;
      vset cols (off + j) dst) cols)
    (λ i cols, cols = placed_all limit 0 (take i chunks) ++
       replicate (sum_list_with (λ c, length (e_error_rates c)) (drop i chunks)) [])
    (replicate n [])) as (cols&->&->).
  - lia.
  - done.
  - intros i cols Hi ->. destruct (lookup_lt_is_Some_2 chunks i) as [c Hc]; [lia|].
    assert (chunk_ok c) as Hok by (rewrite Forall_lookup in Hall; by eapply Hall).
    pose proof (chunk_view _ _ c Hok) as Hv.
    rewrite (vget_ok _ _ _ Hc). cbn [mbind res_bind].
    rewrite (chain_row_map_spec chunks plan c i), nested_csc_eq by (done || apply Hok). cbn [mbind res_bind].
    rewrite (vget_ok (col_off plan) i (faults_before chunks i)) by (apply (pl_cols _ _ _ _ Hplan); lia).
    cbn [mbind res_bind].
    pose proof (length_placed_all limit 0 (take i chunks) (Forall_take _ _ _ Hall)) as Hlen.
    fold (faults_before chunks i) in Hlen. rewrite <-Hlen.
    rewrite (drop_S chunks c i Hc). cbn [sum_list_with]. rewrite <-(v_cols _ _ _ _ _ Hv).
    rewrite copy_chunk by apply (v_cols_bound _ _ _ _ _ Hv). apply returns_ok.
    rewrite Nat.add_1_r, (take_S_r _ _ c Hc), placed_all_snoc, <-app_assoc. done.
  - rewrite firstn_all, drop_all. cbn [sum_list_with replicate]. by rewrite app_nil_r.
Qed.
End copy.
