(* ===== verification/ExtendedProps.v ===== *)
(** * Extended detector error models: chains are left folds

    The one-pass [dem_stitch_all] returns the canonical form of stitching the
    chunks from left to right, on every chain its checks accept. *)

From Stdlib Require Import QArith.
From S2P Require Import Prelude Rates Ordering Tensor SparseMatrix SparseFacts SparseCanon SparseProps RoundLayout DetectorErrorModel ExtendedDem ExtendedFacts ExtendedChunk ExtendedStitch ExtendedChain ExtendedAll.

Local Open Scope nat_scope.

(** ** Canonical columns *)

Lemma occ_perm x l l' : l ≡ₚ l' → occ x l = occ x l'.
Proof. intros Hp. apply (Permutation_count_occ Nat.eq_dec). done. Qed.

Lemma canon_perm l l' : l ≡ₚ l' → canon l = canon l'.
Proof.
  intros Hp. apply sorted_lt_ext; [apply canon_spec..|]. intros x.
  rewrite !(proj2 (canon_spec _)). by rewrite (occ_perm x _ _ Hp).
Qed.

Lemma occ_filter P `{∀ x, Decision (P x)} x l :
  occ x (filter P l) = if decide (P x) then occ x l else 0.
Proof.
  induction l as [|y l IH]; [by case_decide|]. rewrite filter_cons.
  destruct (decide (P y)); rewrite !occ_cons, IH; repeat case_decide; subst; (done || lia).
Qed.

Lemma sorted_lt_filter P `{∀ x, Decision (P x)} (l : list nat) :
  StronglySorted (<) l → StronglySorted (<) (filter P l).
Proof.
  induction 1 as [|x l _ IH Hall]; [constructor|]. rewrite filter_cons. case_decide; [|done].
  constructor; [done|]. rewrite Forall_forall in *. intros y [_ Hy]%list_elem_of_filter. by apply Hall.
Qed.

Lemma canon_filter P `{∀ x, Decision (P x)} l : canon (filter P l) = filter P (canon l).
Proof.
  apply sorted_lt_ext; [apply canon_spec|apply sorted_lt_filter, canon_spec|]. intros x.
  rewrite list_elem_of_filter, !(proj2 (canon_spec _)), occ_filter. case_decide; naive_solver.
Qed.

Section chain.
Context {R : Type} (from_seam to_seam : nat) (Hne : from_seam ≠ to_seam).
Implicit Types c a b : extended_dem R.
Implicit Types chunks : list (extended_dem R).
Abbreviation chunk_ok := (chunk_ok from_seam to_seam).
Abbreviation row_order := (row_order from_seam to_seam).
Abbreviation offset_rows := (offset_rows to_seam).
Abbreviation total_offset := (total_offset to_seam).
Abbreviation chain_ok := (chain_ok from_seam to_seam).
Abbreviation chain_cols := (chain_cols from_seam to_seam).
Abbreviation plan_ok := (plan_ok from_seam to_seam).
Abbreviation placed := (placed from_seam to_seam).
Abbreviation placed_all := (placed_all from_seam to_seam).
Abbreviation chain_rows := (chain_rows from_seam to_seam).
Abbreviation chain_matrix := (chain_matrix from_seam to_seam).
Abbreviation assembled := (assembled from_seam to_seam).

Definition below_limit (limit : nat) (col : list nat) : list nat := filter (λ x, x < limit) col.

(** Copied columns have the canonical form of the chain's columns. *)
Lemma placed_canon limit k c :
  chunk_ok c → canon <$> placed limit k c =
    below_limit limit <$> (canon <$> (shift k <$> picked c (row_order c))).
Proof.
  intros Hok. unfold ExtendedAll.placed, picked. rewrite <-!list_fmap_compose. apply list_fmap_ext.
  intros j col Hcol. unfold compose. rewrite canon_filter. unfold below_limit. f_equal. apply canon_perm.
  unfold shift. rewrite <-(position_pick _ _ Hne c).
  - by rewrite <-list_fmap_compose.
  - done.
  - pose proof (v_cols_bound _ _ _ _ _ (chunk_view _ _ c Hok)) as Hb. rewrite Forall_forall in Hb.
    by eapply Hb, list_elem_of_lookup_2.
Qed.

Lemma placed_all_canon limit k chunks :
  Forall chunk_ok chunks →
  canon <$> placed_all limit k chunks = below_limit limit <$> (canon <$> chain_cols k chunks).
Proof.
  intros Hall. revert k. induction Hall as [|c chunks Hc _ IH]; intros k;
    cbn [ExtendedAll.placed_all ExtendedChain.chain_cols]; [done|].
  rewrite !fmap_app, placed_canon by done. f_equal. apply IH.
Qed.

Lemma chain_cols_bound k chunks b :
  chain_ok chunks → last chunks = Some b →
  Forall (Forall (λ x, x < k + chain_rows chunks b)) (chain_cols k chunks).
Proof.
  unfold ExtendedChain.chain_rows, ExtendedChain.total_offset. intros [Hall Hlink]. revert k Hlink.
  induction Hall as [|c chunks Hc Hall IH]; intros k Hlink Hb;
    cbn [ExtendedChain.chain_cols sum_list_with]; [done|].
  inversion_clear Hlink as [|? ? Hlink' Hhd].
  assert (width c from_seam ≤ sum_list_with offset_rows chunks + width b from_seam) as Hw.
  { destruct chunks as [|d chunks]; [by injection Hb as ->|]. inversion_clear Hhd as [|? ? Hcd].
    inversion_clear Hall as [|? ? Hd _]. rewrite (boundary_width _ _ Hne c d) by done.
    cbn [sum_list_with]. unfold ExtendedStitch.offset_rows. lia. }
  pose proof (rows_split _ _ Hne c Hc) as Hr. apply Forall_app. split.
  - pose proof (shift_bound k _ _ (picked_bound _ _ Hne c _ Hc (le_n _))) as Hs.
    eapply Forall_impl; [exact Hs|]. intros col Hcol. eapply Forall_impl; [exact Hcol|]. simpl. lia.
  - destruct chunks as [|d chunks]; [done|]. specialize (IH (k + offset_rows c) Hlink' Hb).
    eapply Forall_impl; [exact IH|]. intros col Hcol. eapply Forall_impl; [exact Hcol|].
    cbn [sum_list_with]. intros x Hx. lia.
Qed.

Lemma below_limit_all limit cs : Forall (Forall (λ x, x < limit)) cs → below_limit limit <$> cs = cs.
Proof.
  intros Hb. rewrite <-(list_fmap_id cs) at 2. apply list_fmap_ext. intros i col Hcol.
  apply filter_const_true. rewrite Forall_forall in Hb. apply list_elem_of_lookup_2, Hb in Hcol.
  by rewrite Forall_forall in Hcol.
Qed.

Lemma nnz_placed_all limit k chunks :
  nnz (placed_all limit k chunks) ≤ sum_list_with (λ c, nnz (cols_of (e_H c))) chunks.
Proof.
  revert k. induction chunks as [|c chunks IH]; intros k; cbn [ExtendedAll.placed_all sum_list_with]; [done|].
  rewrite nnz_app. apply Nat.add_le_mono; [|apply IH]. unfold ExtendedAll.placed.
  induction (cols_of (e_H c)) as [|col cs IHc]; [done|]. rewrite fmap_cons, !nnz_cons.
  apply Nat.add_le_mono; [|done]. rewrite length_filter. by rewrite length_fmap.
Qed.

Lemma placed_all_bound limit k chunks : Forall (Forall (λ x, x < limit)) (placed_all limit k chunks).
Proof.
  revert k. induction chunks as [|c chunks IH]; intros k; cbn [ExtendedAll.placed_all]; [done|].
  apply Forall_app. split; [|done]. apply Forall_fmap, Forall_forall. intros col _.
  apply Forall_forall. by intros x [? _]%list_elem_of_filter.
Qed.

(** Building the matrix of the copied columns and canonicalising it. *)
Lemma copied_matrix chunks limit :
  chain_ok chunks → chain_fits chunks → (Z.of_nat limit < 2 ^ 32)%Z →
  let n := sum_list_with (λ c, length (e_error_rates c)) chunks in
  (h ← from_nested_csc limit n (placed_all limit 0 chunks); canonicalize h) =
    Ok (of_groups csc limit n (below_limit limit <$> (canon <$> chain_cols 0 chunks))).
Proof.
  intros Hch [_ Fc Fn _] Hl n. pose proof (ch_chunks _ _ _ Hch) as Hall.
  pose proof (nnz_placed_all limit 0 chunks) as Hnnz.
  assert (cols_ok limit n (placed_all limit 0 chunks)) as Hok.
  { split; [by apply (length_placed_all from_seam to_seam)|apply placed_all_bound|done|unfold n; lia|lia]. }
  rewrite from_cols by done. cbn [mbind res_bind].
  rewrite (canonicalize_spec _ (placed_all limit 0 chunks)) by (by apply wf_cols).
  by rewrite placed_all_canon.
Qed.

(** ** Observables *)

(** The observable columns of a chunk; a chunk without observables may leave
    the matrix default-constructed. *)
Definition obs_cols c : list (list nat) :=
  if num_cols_ (e_O c) =? 0 then replicate (length (e_error_rates c)) [] else cols_of (e_O c).

Lemma obs_cols_aligned c : aligned c → obs_cols c = cols_of (e_O c).
Proof.
  intros Ha. destruct (obs_has_cols c Ha) as [_ _ _ Hl _]. destruct Ha as [_ Hn]. unfold obs_cols.
  destruct (Nat.eqb_spec (num_cols_ (e_O c)) 0) as [E|]; [|done].
  rewrite Hn in E. rewrite E in *. by apply nil_length_inv in Hl as ->.
Qed.

Lemma valid_obs c :
  typed c → valid_chunk c → num_cols_ (e_O c) ≠ 0 →
  aligned c.
Proof.
  intros Hty Hv Hn. destruct (va_O c Hv) as [[_ ?]|Hc]; [done|]. split; [|done].
  destruct (ty_O c Hty) as [|E]; [done|]. rewrite E in Hn. done.
Qed.

Lemma length_obs_cols c : typed c → valid_chunk c → length (obs_cols c) = length (e_error_rates c).
Proof.
  intros Hty Hv. unfold obs_cols. destruct (Nat.eqb_spec (num_cols_ (e_O c)) 0) as [E|]; [apply length_replicate|].
  by apply (hc_length _ _ _ _ (obs_has_cols c (valid_obs c Hty Hv n))).
Qed.

Lemma obs_bound c : typed c → valid_chunk c → Forall (Forall (λ i, i < num_rows_ (e_O c))) (obs_cols c).
Proof.
  intros Hty Hv. unfold obs_cols. destruct (Nat.eqb_spec (num_cols_ (e_O c)) 0) as [E|E].
  - by apply Forall_replicate.
  - by destruct (obs_has_cols c (valid_obs c Hty Hv E)).
Qed.

Lemma chain_o_columns_spec chunks plan :
  plan_ok chunks plan → chain_ok chunks →
  chain_o_columns chunks plan = Ok (chunks ≫= obs_cols).
Proof.
  intros Hplan Hch. pose proof (ch_chunks _ _ _ Hch) as Hall. unfold chain_o_columns.
  rewrite (pl_faults _ _ _ _ Hplan).
  destruct (for_u_inv 0 (length chunks) (λ i cols,
    chunk ← vget chunks i;
    if num_cols_ (e_O chunk) =? 0 then Ok cols else
    local ← nested_csc (e_O chunk);
    for_u 0 (length local) (λ j cols,
      off ← vget (col_off plan) i;
      col ← vget local j;
      vset cols (off + j) col) cols)
    (λ i cols, cols = (take i chunks ≫= obs_cols) ++
       replicate (sum_list_with (λ c, length (e_error_rates c)) (drop i chunks)) [])
    (replicate (sum_list_with (λ c, length (e_error_rates c)) chunks) [])) as (cols&->&->).
  - lia.
  - done.
  - intros i cols Hi ->. destruct (lookup_lt_is_Some_2 chunks i) as [c Hc]; [lia|].
    assert (chunk_ok c) as Hok by (rewrite Forall_lookup in Hall; by eapply Hall).
    rewrite (vget_ok _ _ _ Hc). cbn [mbind res_bind].
    rewrite Nat.add_1_r, (take_S_r _ _ c Hc), bind_app, <-app_assoc. cbn [mbind list_bind].
    rewrite app_nil_r, (drop_S chunks c i Hc). cbn [sum_list_with].
    assert (obs_cols c = if num_cols_ (e_O c) =? 0 then replicate (length (e_error_rates c)) [] else cols_of (e_O c))
      as Hoc by done. revert Hoc.
    destruct (Nat.eqb_spec (num_cols_ (e_O c)) 0) as [E|E]; intros ->.
    + apply returns_ok. by rewrite replicate_add.
    + pose proof (valid_obs c (ok_typed _ _ c Hok) (ok_valid _ _ c Hok) E) as Hal.
      rewrite nested_csc_eq by apply Hal. cbn [mbind res_bind].
      rewrite (vget_ok (col_off plan) i (faults_before chunks i)) by (apply (pl_cols _ _ _ _ Hplan); lia).
      cbn [mbind res_bind].
      assert (length (take i chunks ≫= obs_cols) = faults_before chunks i) as <-.
      { rewrite length_bind. unfold faults_before.
        assert (Forall chunk_ok (take i chunks)) as Ht by (by apply Forall_take). clear -Ht.
        induction Ht as [|x l Hx _ IH]; cbn [sum_list_with]; [done|].
        rewrite IH, length_obs_cols by apply Hx. done. }
      rewrite <-(hc_length _ _ _ _ (obs_has_cols c Hal)).
      rewrite (fill_at _ (cols_of (e_O c))); [by apply returns_ok|].
      intros j x out Hx _. rewrite (vget_ok _ _ _ Hx). done.
  - rewrite firstn_all, drop_all. cbn [sum_list_with replicate]. by rewrite app_nil_r.
Qed.

(** ** The one-pass chain *)

Lemma chain_types chunks : chain_ok chunks → Forall typed chunks.
Proof. intros [Hall _]. eapply Forall_impl; [exact Hall|]. by intros c []. Qed.

Lemma obs_wf_rows chunks c0 :
  chain_ok chunks → head chunks = Some c0 → (Z.of_nat (num_rows_ (e_O c0)) < 2 ^ 32)%Z.
Proof.
  intros Hch Hc. assert (typed c0) as Hty.
  { pose proof (chain_types chunks Hch) as Hall. destruct chunks; [done|]. injection Hc as ->. by destruct (Forall_cons_1 _ _ _ Hall). }
  destruct (ty_O c0 Hty) as [[gs Hwf]| ->]; [apply Hwf|done].
Qed.

Lemma same_obs chunks c0 c :
  chain_ok chunks → head chunks = Some c0 → c ∈ chunks → num_rows_ (e_O c) = num_rows_ (e_O c0).
Proof.
  intros [_ Hlink] H0 [i Hi]%list_elem_of_lookup. rewrite sorted_lookup_adjacent in Hlink.
  rewrite head_lookup in H0. revert i c c0 Hi H0. apply (all_equal_adjacent (λ c, num_rows_ (e_O c))).
  intros i x y Hx Hy. by destruct (Hlink i x y Hx Hy).
Qed.

Lemma obs_chain_ok chunks c0 :
  chain_ok chunks → chain_fits chunks → head chunks = Some c0 →
  cols_ok (num_rows_ (e_O c0)) (sum_list_with (λ c, length (e_error_rates c)) chunks) (chunks ≫= obs_cols).
Proof.
  intros Hch [_ Fc _ Fo] H0. pose proof (chain_types _ Hch) as Hty. pose proof (ch_chunks _ _ _ Hch) as Hall.
  assert (∀ c, c ∈ chunks → num_rows_ (e_O c) = num_rows_ (e_O c0)) as Hsame by (intros; by eapply same_obs).
  pose proof (obs_wf_rows chunks c0 Hch H0) as Hk. clear H0 Hch.
  split; [| |done|done|].
  - rewrite length_bind. clear -Hall. induction Hall as [|c l Hc _ IH]; cbn [sum_list_with]; [done|].
    by rewrite IH, length_obs_cols by apply Hc.
  - apply Forall_forall. intros col (c&Hcol&Hc)%list_elem_of_bind. rewrite Forall_forall in Hall. specialize (Hall c Hc).
    unfold obs_cols in Hcol. destruct (Nat.eqb_spec (num_cols_ (e_O c)) 0) as [E|E].
    { by apply elem_of_replicate in Hcol as [-> _]. }
    pose proof (hc_bound _ _ _ _ (obs_has_cols c (valid_obs c (ok_typed _ _ c Hall) (ok_valid _ _ c Hall) E))) as Hb.
    rewrite Forall_forall in Hb. rewrite <-(Hsame c Hc). by apply Hb.
  - rewrite nnz_bind. assert (∀ c, nnz (obs_cols c) ≤ nnz (cols_of (e_O c))) as Hle.
    { intros c. unfold obs_cols. destruct (_ =? 0); [|done]. rewrite nnz_empty. lia. }
    assert (sum_list_with (λ c, nnz (obs_cols c)) chunks ≤ sum_list_with (λ c, nnz (cols_of (e_O c))) chunks); [|lia].
    clear -Hle. induction chunks as [|c l IH]; cbn [sum_list_with]; [done|]. specialize (Hle c). lia.
Qed.

(** What [dem_stitch_all] returns on an accepted chain of at least two chunks. *)
Lemma dem_stitch_all_result c0 l b :
  let chunks := c0 :: l ++ [b] in
  chain_ok chunks → chain_fits chunks →
  dem_stitch_all chunks from_seam to_seam =
    Ok (mk_extended (chain_matrix chunks b (canon <$> chain_cols 0 chunks))
         (of_groups csc (num_rows_ (e_O c0)) (sum_list_with (λ c, length (e_error_rates c)) chunks) (chunks ≫= obs_cols))
         (chunks ≫= e_error_rates)
         [mk_seam to_seam 0 (width c0 to_seam);
          mk_seam from_seam (total_offset chunks) (total_offset chunks + width b from_seam)]
         (seam_tags c0 to_seam ++ seam_tags b from_seam)).
Proof.
  intros chunks Hch Hfit. assert (∃ d r, chunks = c0 :: d :: r) as (d&r&Hshape).
  { unfold chunks. destruct l as [|d l]; [by exists b, []|by exists d, (l ++ [b])]. }
  unfold dem_stitch_all. rewrite Hshape at 1. rewrite Hshape at 1. rewrite <-Hshape. cbv zeta.
  rewrite (decides_returns _ _ _ (validate_chain_decides _ _ Hne chunks _ (chain_types _ Hch)) Hch). cbn [mbind res_bind].
  destruct (plan_chain_spec _ _ Hne chunks) as (plan&->&Hplan); [by rewrite Hshape|done|done|]. cbn [mbind res_bind].
  assert (last chunks = Some b) as Hlast by (unfold chunks; by rewrite app_comm_cons, last_snoc).
  pose proof (total_rows_le _ _ Hne (c0 :: l) b (ch_chunks _ _ _ Hch)) as Htot.
  change ((c0 :: l) ++ [b]) with chunks in Htot.
  pose proof Hfit as [Fr Fc _ _].
  rewrite (pl_trail_row _ _ _ _ Hplan), (pl_trail _ _ _ _ Hplan b Hlast), (pl_lead _ _ _ _ Hplan c0) by (by rewrite Hshape).
  assert (width c0 to_seam ≤ sum_list_with (λ c, num_rows_ (e_H c)) chunks) as Hlead.
  { pose proof (base_bound _ _ Hne chunks 0 Hch) as Hb. unfold to_width in Hb.
    change (chunks !! 0) with (Some c0) in Hb. cbn [from_option] in Hb. lia. }
  rewrite (wrap_small 64), (wrap_small 32 (total_offset chunks + width b from_seam)),
    (wrap_small 32 (total_offset chunks)), (wrap_small 32 (width c0 to_seam)), (pl_faults _ _ _ _ Hplan), (wrap_small 32) by lia.
  rewrite (chain_h_columns_spec _ _ Hne chunks plan) by done. cbn [mbind res_bind].
  pose proof (copied_matrix chunks (total_offset chunks + width b from_seam) Hch Hfit) as Hcopy.
  apply bind_ok in Hcopy as (h&Hh&Hcan); [|lia]. rewrite Hh. cbn [mbind res_bind]. rewrite Hcan. cbn [mbind res_bind].
  rewrite chain_o_columns_spec by done. cbn [mbind res_bind].
  rewrite from_cols by (apply obs_chain_ok; (done || by rewrite Hshape)). cbn [mbind res_bind].
  assert (chunk_ok c0 ∧ chunk_ok b) as [H0 Hb].
  { destruct (Forall_cons_1 _ _ _ (ch_chunks _ _ _ Hch)) as [? [_ [? _]%Forall_cons]%Forall_app]. done. }
  unfold add_seam, has_seam. cbn [e_seams existsb seam_of throw_if mbind res_bind app orb].
  rewrite (proj2 (Nat.eqb_neq to_seam from_seam)) by done. cbn [orb throw_if mbind res_bind].
  rewrite (push_tags_eq from_seam to_seam Hne 64 c0) by (done || lia). cbn [mbind res_bind].
  rewrite (vget_ok _ _ b).
  2:{ rewrite last_lookup in Hlast. by replace (length chunks - 1) with (pred (length chunks)) by lia. }
  cbn [mbind res_bind]. rewrite (push_tags_eq from_seam to_seam Hne 64 b) by (done || lia).
  cbn [mbind res_bind app e_H e_O e_error_rates e_seams].
  rewrite below_limit_all; [done|]. apply Forall_fmap.
  eapply Forall_impl; [apply (chain_cols_bound 0 chunks b Hch Hlast)|]. intros col. apply canon_bound.
Qed.

Lemma canonical_chain chunks b cs :
  cols_ok (chain_rows chunks b) (sum_list_with (λ c, length (e_error_rates c)) chunks) cs →
  canonicalize (chain_matrix chunks b cs) = Ok (chain_matrix chunks b (canon <$> cs)).
Proof. intros Hok. by rewrite (canonicalize_spec _ cs) by (by apply wf_cols). Qed.

Lemma nnz_chain_cols k chunks :
  Forall chunk_ok chunks → nnz (chain_cols k chunks) ≤ sum_list_with (λ c, nnz (cols_of (e_H c))) chunks.
Proof.
  intros Hall. revert k. induction Hall as [|c chunks Hc _ IH]; intros k;
    cbn [ExtendedChain.chain_cols sum_list_with]; [done|].
  rewrite nnz_app, nnz_shift. specialize (IH (k + offset_rows c)). pose proof (nnz_row_order _ _ Hne c Hc). lia.
Qed.

Lemma length_chain_cols k chunks :
  Forall chunk_ok chunks → length (chain_cols k chunks) = sum_list_with (λ c, length (e_error_rates c)) chunks.
Proof.
  intros Hall. revert k. induction Hall as [|c chunks Hc _ IH]; intros k;
    cbn [ExtendedChain.chain_cols sum_list_with]; [done|].
  by rewrite length_app, length_fmap, IH, (length_picked from_seam to_seam).
Qed.

Lemma chain_cols_ok chunks b :
  chain_ok chunks → chain_fits chunks → last chunks = Some b →
  cols_ok (chain_rows chunks b) (sum_list_with (λ c, length (e_error_rates c)) chunks) (chain_cols 0 chunks).
Proof.
  intros Hch [Fr Fc Fn _] Hb. pose proof (ch_chunks _ _ _ Hch) as Hall. split.
  - by apply length_chain_cols.
  - by apply (chain_cols_bound 0 chunks b).
  - destruct chunks as [|x l _] using rev_ind; [done|]. rewrite last_snoc in Hb. injection Hb as ->.
    pose proof (total_rows_le _ _ Hne l b Hall). unfold ExtendedChain.chain_rows. lia.
  - lia.
  - pose proof (nnz_chain_cols 0 chunks Hall). lia.
Qed.

Lemma obs_cols_chain chunks :
  Forall aligned chunks → chunks ≫= obs_cols = chunks ≫= (λ c, cols_of (e_O c)).
Proof.
  induction 1 as [|c chunks Hc _ IH]; [done|]. cbn [mbind list_bind] in *. by rewrite IH, obs_cols_aligned.
Qed.
End chain.

(** Two chunks that differ only in the canonical form of [H]. *)
Definition canonical_of {R} (s r : extended_dem R) : Prop :=
  canonicalize (e_H s) = Ok (e_H r) ∧ e_O r = e_O s ∧ e_error_rates r = e_error_rates s ∧
  e_seams r = e_seams s ∧ e_tags r = e_tags s.

(** C25. Which chains of two or more chunks [dem_stitch_all] accepts, and how
    its one pass relates to stitching pairwise.  For chunks whose arrays have
    the types of the code and whose total sizes fit the 32-bit indices, it
    accepts exactly the chains in which every chunk is consistent and carries
    rows on no other seam, and every two neighbours have both seams, equal tags
    and equally many observables; anything else is rejected with
    [std::invalid_argument].  When moreover every observables matrix has one
    column per fault (which leaves out the default one without rows and
    columns) and the first chunk has a fault, stitching the chunks pairwise from
    left to right also succeeds, and the result of the one pass is that of the
    fold with [H] in canonical form: the same columns, observables, rates, seams
    and tags.  [stitch_without_faults] below shows that without a fault the two
    differ. *)
Theorem stitch_all_is_left_fold {R} (from_seam to_seam : nat) (c0 : extended_dem R) l b :
  let chunks := c0 :: l ++ [b] in
  from_seam ≠ to_seam → Forall typed chunks → chain_fits chunks →
  (chain_ok from_seam to_seam chunks ∧
   ∃ r, dem_stitch_all chunks from_seam to_seam = Ok r ∧
     (Forall aligned chunks → 0 < length (e_error_rates c0) →
      ∃ s, foldM (λ b acc, dem_stitch acc b from_seam to_seam) (l ++ [b]) c0 = Ok s ∧ canonical_of s r)) ∨
  (¬ chain_ok from_seam to_seam chunks ∧ rejects (dem_stitch_all chunks from_seam to_seam)).
Proof.
  intros chunks Hne Hty Hfit.
  destruct (validate_chain_decides _ _ Hne chunks "dem_stitch_all" Hty) as [[Hch _]|[Hch [msg Hrej]]].
  - left. split; [done|]. eexists. split; [by apply dem_stitch_all_result|]. intros Hal Hpos.
    eexists. split; [by apply fold_stitch_result|].
    assert (last chunks = Some b) as Hlast by (unfold chunks; by rewrite app_comm_cons, last_snoc).
    unfold canonical_of, assembled. cbv zeta. cbn [e_H e_O e_error_rates e_seams e_tags].
    split; [|split; [|done]].
    + apply canonical_chain. by apply chain_cols_ok.
    + f_equal. by apply obs_cols_chain.
  - right. split; [done|]. exists msg. unfold dem_stitch_all, chunks in *.
    destruct (l ++ [b]) as [|d r] eqn:E; [by apply app_eq_nil in E as [_ ?]|]. by rewrite Hrej.
Qed.

(** One round of a distance-two memory: two incoming rows, an interior row and
    two outgoing rows; the matrix is stored by rows, with one entry repeated. *)
Definition example_round : extended_dem Q :=
  mk_extended (of_groups csr 5 3 [[0]; [1]; [0; 2; 2; 2]; [0]; [1]]) (of_groups csc 1 3 [[0]; []; [0]])
    [1 # 10; 1 # 20; 1 # 30]%Q [mk_seam 7 0 2; mk_seam 9 3 5] [0; 1; 0; 1].

Lemma example_round_typed : typed example_round.
Proof.
  split.
  - exists [[0]; [1]; [0; 2; 2; 2]; [0]; [1]]. apply (bool_decide_unpack _). vm_compute. exact I.
  - left. exists [[0]; []; [0]]. apply (bool_decide_unpack _). vm_compute. exact I.
  - done.
  - apply (bool_decide_unpack _). vm_compute. exact I.
  - repeat constructor.
Qed.

Lemma example_round_aligned : aligned example_round.
Proof. split; [|done]. exists [[0]; []; [0]]. apply (bool_decide_unpack _). vm_compute. exact I. Qed.

Lemma stitch_all_is_left_fold_witness :
  ∃ s r, foldM (λ b acc, dem_stitch acc b 9 7) [example_round; example_round] example_round = Ok s ∧
         dem_stitch_all [example_round; example_round; example_round] 9 7 = Ok r ∧
         canonical_of s r ∧ num_rows_ (e_H r) = 11.
Proof.
  destruct (stitch_all_is_left_fold 9 7 example_round [example_round] example_round)
    as [[_ (r&Hr&Hfold)]|[_ [msg Hrej]]].
  - lia.
  - do 3 (apply Forall_cons; split; [apply example_round_typed|]). done.
  - split; vm_compute; reflexivity.
  - destruct Hfold as (s&Hs&Hc).
    { do 3 (apply Forall_cons; split; [apply example_round_aligned|]). done. }
    { simpl. lia. }
    exists s, r. split; [exact Hs|]. split; [exact Hr|]. split; [exact Hc|].
    assert (∀ r', dem_stitch_all [example_round; example_round; example_round] 9 7 = Ok r' → num_rows_ (e_H r') = 11) as Hn.
    { intros r'. vm_compute. intros [= <-]. reflexivity. }
    by apply Hn.
  - exfalso. revert Hrej. vm_compute. discriminate.
Defined.

(** Stitching two chunks without faults drops the rows that the seams of the
    result still name; the one-pass chain keeps them. *)
Definition example_faultless : extended_dem Q :=
  mk_extended (of_groups csc 4 0 []) sparse_empty [] [mk_seam 7 0 2; mk_seam 9 2 4] [0; 1; 0; 1].

Lemma stitch_without_faults :
  (s ← dem_stitch example_faultless example_faultless 9 7; Ok (num_rows_ (e_H s), e_seams s)) =
    Ok (0, [mk_seam 7 0 2; mk_seam 9 4 6]) ∧
  rejects (s ← dem_stitch example_faultless example_faultless 9 7; validate s "") ∧
  (s ← dem_stitch_all [example_faultless; example_faultless] 9 7; Ok (num_rows_ (e_H s))) = Ok 6.
Proof. split_and!; [vm_compute; reflexivity|eexists; vm_compute; reflexivity|vm_compute; reflexivity]. Qed.
