(* ===== verification/ExtendedClose.v ===== *)
(** * Extended detector error models: closing a chain

    [dem_close_all] writes the chunks of a chain straight into dense matrices
    and [dem_chunks_to_pcm] into a sparse one; both agree with closing the
    stitched chain. *)

From Stdlib Require Import QArith.
From S2P Require Import Prelude Rates Ordering Tensor SparseMatrix SparseFacts SparseCanon SparseProps RoundLayout DetectorErrorModel ExtendedDem ExtendedFacts ExtendedChunk ExtendedStitch ExtendedChain ExtendedAll ExtendedProps.

Local Open Scope nat_scope.

(** ** Dense matrices written by flips *)

(** [d] is the matrix over GF(2) with columns [cs]. *)
Definition shows (r : nat) (cs : list (list nat)) (d : tensor) : Prop :=
  wf2 r (length cs) d ∧ ∀ i j col, i < r → cs !! j = Some col → elem2 d i j = Some (occ i col mod 2).

Lemma shows_zero r c : shows r (replicate c []) (tensor_of_shape [r; c]).
Proof.
  split; [rewrite length_replicate; apply wf2_zeros|]. intros i j col Hi [-> Hj]%lookup_replicate.
  by rewrite elem2_zeros.
Qed.

Lemma shows_unique r cs cs' d d' :
  length cs = length cs' → shows r cs d → shows r cs' d' →
  (∀ i j col col', i < r → cs !! j = Some col → cs' !! j = Some col' → occ i col mod 2 = occ i col' mod 2) → d = d'.
Proof.
  intros Hl [Hw Hd] [Hw' Hd'] Ho. rewrite <-Hl in Hw'. apply (tensor2_ext r (length cs)); [done|done|].
  intros i j Hi Hj. destruct (lookup_lt_is_Some_2 cs j Hj) as [col Hc].
  destruct (lookup_lt_is_Some_2 cs' j) as [col' Hc']; [lia|].
  by rewrite (Hd i j col), (Hd' i j col'), (Ho i j col col').
Qed.

Lemma flip_shows r cs d i j col :
  shows r cs d → i < r → cs !! j = Some col → returns (flip_at d i j) (shows r (<[j := col ++ [i]]> cs)).
Proof.
  intros [Hw Hd] Hi Hj. pose proof (lookup_lt_Some _ _ _ Hj) as Hlt.
  assert (flip_at d i j = set_at d [i; j] (u8 (Nat.lxor (occ i col mod 2) 1))) as ->.
  { unfold flip_at, set_at. rewrite (addr_mut2 r (length cs)) by done. cbn [mbind res_bind].
    rewrite (vget_ok _ _ (occ i col mod 2)); [done|]. rewrite (row_read r (length cs)) by done. by apply Hd. }
  eapply returns_mono; [by apply (set2_returns r (length cs))|]. intros d' [Hw' Hd'].
  split; [by rewrite length_insert|]. intros i' j' col' Hi' Hj'. rewrite Hd'.
  destruct (decide (j = j')) as [<-|Hne].
  - rewrite list_lookup_insert_eq in Hj' by done. injection Hj' as <-.
    rewrite occ_app, occ_cons. change (occ i' []) with 0.
    destruct (decide (i = i')) as [<-|Hni].
    + rewrite !decide_True by done. f_equal. rewrite Nat.add_0_r.
      rewrite (Nat.Div0.add_mod (occ i col) 1 2).
      pose proof (Nat.mod_upper_bound (occ i col) 2 ltac:(lia)) as Hm.
      by destruct (occ i col mod 2) as [|[|?]]; [| |lia].
    + rewrite decide_False by naive_solver.
      rewrite !Nat.add_0_r. by apply Hd.
  - rewrite list_lookup_insert_ne in Hj' by done. rewrite decide_False by naive_solver. by apply Hd.
Qed.

Lemma flip_column r cs d ro j col new :
  shows r cs d → cs !! j = Some col → Forall (λ x, ro + x < r) new → (Z.of_nat r < 2 ^ 64)%Z →
  returns (foldM (λ x d, flip_at d (u64 (ro + x)) j) new d) (shows r (<[j := col ++ shift ro new]> cs)).
Proof.
  intros Hd Hj Hb Hr. revert d cs col Hd Hj. induction Hb as [|x new Hx _ IH]; intros d cs col Hd Hj; cbn [foldM].
  - apply returns_ok. cbn. rewrite app_nil_r. by rewrite list_insert_id.
  - rewrite wrap_small by lia. eapply returns_bind; [by apply (flip_shows r cs d _ j col)|].
    intros d' Hd'. pose proof (lookup_lt_Some _ _ _ Hj).
    eapply returns_mono; [apply (IH d' (<[j := col ++ [ro + x]]> cs) (col ++ [ro + x])); [done|by rewrite list_lookup_insert_eq]|].
    intros d'' Hd''. rewrite list_insert_insert_eq in Hd''. unfold shift in *. cbn [fmap list_fmap].
    by rewrite <-app_assoc in Hd''.
Qed.

(** A block adds its columns, shifted down, to those it covers. *)
Lemma write_block_shows A B C r d m rm csm ro :
  shows r (A ++ B ++ C) d → has_cols m rm (length B) csm → ro + rm ≤ r →
  (Z.of_nat r < 2 ^ 64)%Z → (Z.of_nat (length (A ++ B ++ C)) < 2 ^ 64)%Z →
  returns (write_sparse_block d m ro (length A)) (shows r (A ++ stack ro B csm ++ C)).
Proof.
  intros Hd [Hmr Hmc Hcsc Hl Hb] Hro Hr Hc. unfold write_sparse_block. rewrite Hcsc, Hmc. cbn [mbind res_bind].
  eapply returns_mono; [apply (for_u_inv 0 (length B) _
    (λ j, shows r (A ++ (stack ro (take j B) (take j csm) ++ drop j B) ++ C)))|].
  - lia.
  - done.
  - intros j d' Hj Hd'. destruct (lookup_lt_is_Some_2 csm j) as [col Hcol]; [lia|].
    destruct (lookup_lt_is_Some_2 B j) as [old Hold]; [lia|].
    rewrite (vget_ok _ _ _ Hcol). cbn [mbind res_bind]. rewrite !length_app in Hc.
    assert (length (stack ro (take j B) (take j csm)) = j) as Hls by (rewrite length_stack, !length_take; lia).
    rewrite (wrap_small 64 (length A + j)) by lia.
    eapply returns_mono; [apply (flip_column r _ d' ro (length A + j) old col Hd')|].
    + rewrite lookup_app_r by lia. replace (length A + j - length A) with j by lia.
      rewrite lookup_app_l by (rewrite length_app, Hls, length_drop; lia).
      rewrite lookup_app_r by lia. rewrite Hls, Nat.sub_diag, lookup_drop, Nat.add_0_r. done.
    + rewrite Forall_forall in Hb. apply list_elem_of_lookup_2, Hb in Hcol.
      eapply Forall_impl; [exact Hcol|]. simpl. lia.
    + done.
    + intros d'' Hd''. rewrite (drop_S B old j Hold) in Hd''.
      rewrite insert_app_r_alt in Hd'' by lia. replace (length A + j - length A) with j in Hd'' by lia.
      rewrite insert_app_l in Hd'' by (rewrite length_app, Hls; cbn; lia).
      rewrite insert_app_r_alt in Hd'' by lia. rewrite Hls, Nat.sub_diag in Hd''. cbn [insert list_insert] in Hd''.
      rewrite Nat.add_1_r, (take_S_r _ _ _ Hold), (take_S_r _ _ _ Hcol).
      rewrite stack_app by (rewrite !length_take; lia). cbn [stack zip_with].
      by rewrite <-(app_assoc (stack ro (take j B) (take j csm))).
  - intros d' Hd'. rewrite firstn_all, drop_all, app_nil_r in Hd'.
    rewrite <-Hl in Hd' at 1. by rewrite firstn_all in Hd'.
Qed.

Lemma shows_ext r cs cs' d :
  length cs = length cs' →
  (∀ i j col col', i < r → cs !! j = Some col → cs' !! j = Some col' →
    occ i col mod 2 = occ i col' mod 2) →
  shows r cs d → shows r cs' d.
Proof.
  intros Hl Ho [Hw Hd]. split; [by rewrite <-Hl|]. intros i j col' Hi Hj.
  destruct (lookup_lt_is_Some_2 cs j) as [col Hc]; [rewrite Hl; by eapply lookup_lt_Some|].
  by rewrite <-(Ho i j col col'), (Hd i j col).
Qed.

Lemma occ_shift n col x : occ x (shift n col) = if decide (n ≤ x) then occ (x - n) col else 0.
Proof.
  unfold shift. induction col as [|y col IH]; [by case_decide|]. cbn [fmap list_fmap].
  rewrite !occ_cons, IH. repeat case_decide; try lia; subst; try lia.
Qed.

Lemma stack_zero_shift n cs cs' : stack 0 cs (shift n <$> cs') = stack n cs cs'.
Proof.
  unfold stack. rewrite zip_with_fmap_r. apply zip_with_ext; [|done|done]. intros x y. by rewrite shift_0.
Qed.

Section close.
Context {R : Type} (from_seam to_seam : nat) (Hne : from_seam ≠ to_seam).
Implicit Types c a b : extended_dem R.
Implicit Types chunks : list (extended_dem R).
Abbreviation chunk_ok := (chunk_ok from_seam to_seam).
Abbreviation row_order := (row_order from_seam to_seam).
Abbreviation offset_rows := (offset_rows to_seam).
Abbreviation total_offset := (total_offset to_seam).
Abbreviation chain_ok := (chain_ok from_seam to_seam).
Abbreviation chain_cols := (chain_cols from_seam to_seam).
Abbreviation base := (base to_seam).
Abbreviation to_width := (to_width to_seam).

(** ** Closing one chunk *)

(** The detector rows of a closed chunk: incoming seam, then interior. *)
Definition closed_rows c : list nat := band c to_seam ++ interior c.

Lemma length_closed_rows c : length (closed_rows c) = offset_rows c.
Proof. unfold closed_rows. by rewrite length_app, length_band. Qed.

Lemma nested_empty m : num_cols_ m = 0 → well_formed m ∨ m = sparse_empty → has_cols m (num_rows_ m) 0 [].
Proof.
  intros Hz [Hwf| ->]; [|by split].
  pose proof (wf_view m Hwf) as Hv. rewrite Hz in Hv. apply view_has_cols in Hv.
  pose proof (hc_length _ _ _ _ Hv) as Hl. apply nil_length_inv in Hl. by rewrite Hl in Hv.
Qed.

Lemma write_obs A C k o c :
  typed c → valid_chunk c → num_rows_ (e_O c) = k → shows k (A ++ replicate (length (e_error_rates c)) [] ++ C) o →
  (Z.of_nat (length (A ++ replicate (length (e_error_rates c)) [] ++ C)) < 2 ^ 64)%Z →
  (Z.of_nat k < 2 ^ 64)%Z →
  returns (write_sparse_block o (e_O c) 0 (length A)) (shows k (A ++ obs_cols c ++ C)).
Proof.
  intros Hty Hv Hk Ho Hc Hr. unfold obs_cols. destruct (Nat.eqb_spec (num_cols_ (e_O c)) 0) as [E|E].
  - pose proof (nested_empty _ E (ty_O c Hty)) as Hm. rewrite Hk in Hm.
    apply (write_block_shows A [] (replicate (length (e_error_rates c)) [] ++ C) k o (e_O c) k []); try done.
  - pose proof (obs_has_cols c (valid_obs c Hty Hv E)) as Hm. rewrite Hk in Hm.
    pose proof (write_block_shows A (replicate (length (e_error_rates c)) []) C k o (e_O c) k (cols_of (e_O c)) 0 Ho) as Hw.
    rewrite length_replicate, stack_empty_l in Hw by (apply Hm). apply Hw; [done|lia|done|done].
Qed.

Lemma chunk_fits c : chunk_ok c → sized c →
  (Z.of_nat (offset_rows c) < 2 ^ 32)%Z ∧ (Z.of_nat (length (e_error_rates c)) < 2 ^ 32)%Z ∧
  (Z.of_nat (num_rows_ (e_O c)) < 2 ^ 32)%Z.
Proof.
  intros Hok [Hr Hc]. pose proof (rows_split _ _ Hne c Hok). split_and!; [lia|lia|].
  destruct (ty_O c (ok_typed _ _ c Hok)) as [[gs Hwf]| ->]; [apply Hwf|done].
Qed.

(** Writing the rows of a seam. *)
Lemma write_seam A B C r h c id s ro :
  chunk_ok c → sized c → seam_at c id = Some s → length B = length (e_error_rates c) →
  shows r (A ++ B ++ C) h → ro + width c id ≤ r → (Z.of_nat r < 2 ^ 64)%Z →
  (Z.of_nat (length (A ++ B ++ C)) < 2 ^ 64)%Z →
  ∃ m, extract_row_band (e_H c) (row_begin s) (row_end s) = Ok m ∧
    returns (write_sparse_block h m ro (length A)) (shows r (A ++ stack ro B (picked c (band c id)) ++ C)).
Proof.
  intros Hok Hsz Hs Hl Hh Hro Hr Hc. destruct (extract_seam_spec _ _ Hne c id s Hok Hsz Hs) as (m&Hm&Hcols).
  exists m. split; [done|]. rewrite <-Hl in Hcols. by apply (write_block_shows A B C r h m (width c id)).
Qed.

Lemma band_empty c id : width c id = 0 → band c id = [].
Proof. intros Hw. apply nil_length_inv. by rewrite length_band. Qed.

Lemma picked_empty c : chunk_ok c → picked c [] = replicate (length (e_error_rates c)) [].
Proof. intros Hok. unfold picked. by rewrite pick_nil, (v_cols _ _ _ _ _ (chunk_view _ _ c Hok)). Qed.

(** The leading band of a closed chain. *)
Lemma write_lead C r c :
  chunk_ok c → sized c → width c to_seam ≤ r → (Z.of_nat r < 2 ^ 64)%Z →
  (Z.of_nat (length (e_error_rates c) + length C) < 2 ^ 64)%Z →
  let n := length (e_error_rates c) in
  ∀ h, shows r (replicate n [] ++ C) h →
  returns (if 0 <? width c to_seam then
      s ← get_seam c to_seam; m ← extract_row_band (e_H c) (row_begin s) (row_end s);
      write_sparse_block h m 0 0
    else Ok h) (shows r (picked c (band c to_seam) ++ C)).
Proof.
  intros Hok Hsz Hw Hr Hc n h Hh. destruct (Nat.ltb_spec 0 (width c to_seam)) as [Hpos|Hz].
  - destruct (seam_at c to_seam) as [s|] eqn:Hs; [|unfold width in Hpos; rewrite Hs in Hpos; cbn in Hpos; lia].
    rewrite (get_seam_at _ _ _ Hs). cbn [mbind res_bind].
    destruct (write_seam [] (replicate n []) C r h c to_seam s 0) as (m&->&Hm); try done.
    + apply length_replicate.
    + cbn [app]. by rewrite length_app, length_replicate.
    + cbn [mbind res_bind app length] in *. by rewrite stack_empty_l in Hm by (by apply (length_picked from_seam to_seam)).
  - apply returns_ok. rewrite band_empty, picked_empty by (done || lia). done.
Qed.

Lemma write_interior A B C r h c ro :
  chunk_ok c → sized c → length B = length (e_error_rates c) →
  shows r (A ++ B ++ C) h → ro + length (interior c) ≤ r → (Z.of_nat r < 2 ^ 64)%Z →
  (Z.of_nat (length (A ++ B ++ C)) < 2 ^ 64)%Z →
  ∃ m, extract_interior_rows (e_H c) (e_seams c) = Ok m ∧ num_rows_ m = length (interior c) ∧
    returns (write_sparse_block h m ro (length A)) (shows r (A ++ stack ro B (picked c (interior c)) ++ C)).
Proof.
  intros Hok Hsz Hl Hh Hro Hr Hc. destruct (interior_spec _ _ c Hok Hsz) as (m&Hm&Hcols).
  exists m. split; [done|]. split; [apply Hcols|]. rewrite <-Hl in Hcols.
  by apply (write_block_shows A B C r h m (length (interior c))).
Qed.

Lemma dem_close_spec c :
  chunk_ok c → sized c →
  ∃ h o, dem_close c to_seam from_seam = Ok (mk_dem h (e_error_rates c) o None) ∧
    shows (offset_rows c) (picked c (closed_rows c)) h ∧ shows (num_rows_ (e_O c)) (obs_cols c) o.
Proof.
  intros Hok Hsz. pose proof (ok_typed _ _ c Hok) as Hty. pose proof (ok_valid _ _ c Hok) as Hv.
  destruct (chunk_fits c Hok Hsz) as (Fr&Fc&Fo).
  unfold dem_close. rewrite (decides_returns _ _ _ (validate_chunk_decides c _ Hty) Hv). cbn [mbind res_bind].
  rewrite (decides_returns _ _ _ (reject_extra_decides c _ _ _ Hty Hv) (ok_extra _ _ c Hok)). cbn [mbind res_bind].
  cbv zeta. rewrite seam_rows_or_zero_eq by done. cbn [mbind res_bind].
  unfold num_faults. rewrite (num_interior_rows_eq _ _ Hne c Hok), (wrap_small 32 (length _)) by lia.
  change (width c to_seam + length (interior c)) with (offset_rows c). rewrite wrap_small by lia.
  set (n := length (e_error_rates c)) in *.
  pose proof (length_picked _ _ c (band c to_seam) Hok) as Hlp. fold n in Hlp.
  assert (width c to_seam ≤ offset_rows c) by (unfold ExtendedStitch.offset_rows; lia).
  pose proof (write_lead [] (offset_rows c) c Hok Hsz) as Hlead. cbn [length] in Hlead. rewrite !app_nil_r in Hlead.
  destruct (Hlead ltac:(done) ltac:(lia) ltac:(lia) _ (shows_zero (offset_rows c) n)) as (h1&->&Hh1). clear Hlead.
  cbn [mbind res_bind].
  destruct (write_interior [] (picked c (band c to_seam)) [] (offset_rows c) h1 c (width c to_seam))
    as (mi&->&_&h&Hw&Hh); [done|done|done|by rewrite app_nil_r|unfold ExtendedStitch.offset_rows; lia|lia| |].
  { cbn [app]. rewrite app_nil_r. lia. }
  cbn [mbind res_bind length app] in *. rewrite Hw. cbn [mbind res_bind].
  pose proof (write_obs [] [] (num_rows_ (e_O c)) (tensor_of_shape [num_rows_ (e_O c); n]) c Hty Hv eq_refl) as Hwo.
  cbn [app length] in Hwo. rewrite !app_nil_r, length_replicate in Hwo.
  destruct Hwo as (o&Ho&Hoo); [apply shows_zero|lia|lia|].
  unfold e_num_observables. rewrite Ho. cbn [mbind res_bind].
  exists h, o. split; [done|]. split; [|done]. rewrite app_nil_r in Hh.
  unfold closed_rows, picked. rewrite <-stack_pick, length_band. done.
Qed.

(** ** Closing a chain *)

(** The columns written before step [i]: those of the chunks already visited,
    and the incoming seam of the next one. *)
Definition pending chunks (i : nat) : list (list nat) :=
  match chunks !! i with
  | Some c => (shift (base chunks i) <$> picked c (band c to_seam)) ++
              replicate (sum_list_with (λ c, length (e_error_rates c)) (drop (S i) chunks)) []
  | None => []
  end.

Record closing chunks (k : nat) (i : nat) (st : tensor * tensor * nat * list R) : Prop := {
  cl_h : shows (total_offset chunks) (chain_cols 0 (take i chunks) ++ pending chunks i) st.1.1.1;
  cl_o : shows k ((take i chunks ≫= obs_cols) ++
           replicate (sum_list_with (λ c, length (e_error_rates c)) (drop i chunks)) []) st.1.1.2;
  cl_cursor : st.1.2 = base chunks i + to_width chunks i;
  cl_rates : st.2 = take i chunks ≫= e_error_rates
}.

Lemma base_le chunks i : base chunks i ≤ total_offset chunks.
Proof. apply sum_take_le. Qed.

Lemma chain_cols_take chunks i c :
  chunks !! i = Some c →
  chain_cols 0 (take (S i) chunks) =
    chain_cols 0 (take i chunks) ++ (shift (base chunks i) <$> picked c (row_order c)).
Proof. intros Hc. by rewrite (take_S_r _ _ c Hc), chain_cols_snoc. Qed.

Lemma length_chain_take chunks i :
  chain_ok chunks → length (chain_cols 0 (take i chunks)) = faults_before chunks i.
Proof. intros [Hall _]. apply length_chain_cols. by apply Forall_take. Qed.

(** Adding the interior and the outgoing seam completes a chunk's columns. *)
Lemma stack_interior c k :
  stack (k + width c to_seam) (shift k <$> picked c (band c to_seam)) (picked c (interior c)) =
    shift k <$> picked c (closed_rows c).
Proof. rewrite stack_shift. unfold closed_rows, picked. by rewrite <-stack_pick, length_band. Qed.

Lemma stack_from c k :
  stack (k + offset_rows c) (shift k <$> picked c (closed_rows c)) (picked c (band c from_seam)) =
    shift k <$> picked c (row_order c).
Proof.
  rewrite stack_shift. unfold closed_rows, picked, ExtendedChunk.row_order. rewrite app_assoc.
  by rewrite <-(stack_pick (band c to_seam ++ interior c)), length_app, length_band.
Qed.

(** Rows above the outgoing seam do not see it. *)
Lemma occ_closed c k x col :
  x < k + offset_rows c → occ x (shift k (pick (closed_rows c) col)) = occ x (shift k (pick (row_order c) col)).
Proof.
  intros Hx. rewrite !occ_shift. case_decide; [|done]. unfold closed_rows, ExtendedChunk.row_order.
  rewrite (app_assoc (band c to_seam)), (pick_app (band c to_seam ++ interior c)), occ_app, occ_shift.
  rewrite decide_False; [lia|]. rewrite length_app, length_band. unfold ExtendedStitch.offset_rows in Hx. lia.
Qed.

Section chain.
Context chunks (Hch : chain_ok chunks) (Hfit : chain_fits chunks).

Lemma chunk_at i c : chunks !! i = Some c → chunk_ok c ∧ sized c.
Proof.
  intros Hc. pose proof (ch_chunks _ _ _ Hch) as Hall. rewrite Forall_lookup in Hall. split; [by eapply Hall|].
  destruct Hfit as [Fr Fc _ _].
  pose proof (sum_take_S (λ c, num_rows_ (e_H c)) chunks i c Hc) as E1.
  pose proof (sum_take_S (λ c, length (e_error_rates c)) chunks i c Hc) as E2.
  pose proof (sum_take_le (λ c, num_rows_ (e_H c)) chunks (S i)).
  pose proof (sum_take_le (λ c, length (e_error_rates c)) chunks (S i)). split; lia.
Qed.

Lemma total_fits : (Z.of_nat (total_offset chunks) < 2 ^ 32)%Z.
Proof. pose proof (total_offset_le _ _ Hne chunks (ch_chunks _ _ _ Hch)). destruct Hfit. lia. Qed.

Lemma columns_fit i c X :
  chunks !! i = Some c → length X = length (e_error_rates c) →
  (Z.of_nat (length (chain_cols 0 (take i chunks) ++ X ++
     replicate (sum_list_with (λ c, length (e_error_rates c)) (drop (S i) chunks)) [])) < 2 ^ 64)%Z.
Proof.
  intros Hc HX. rewrite !length_app, length_replicate, length_chain_take, HX by done. unfold faults_before.
  destruct Hfit as [_ Fc _ _]. rewrite <-(take_drop_middle chunks i c Hc), sum_list_with_app in Fc.
  cbn [sum_list_with] in Fc. lia.
Qed.

(** The interior of chunk [i]. *)
Lemma close_interior i c h :
  chunks !! i = Some c →
  shows (total_offset chunks) (chain_cols 0 (take i chunks) ++ pending chunks i) h →
  ∃ m, extract_interior_rows (e_H c) (e_seams c) = Ok m ∧
  ∃ h', (if 0 <? num_rows_ m then
           h ← write_sparse_block h m (base chunks i + width c to_seam) (faults_before chunks i);
           Ok (h, u64 (base chunks i + width c to_seam + num_rows_ m))
         else Ok (h, base chunks i + width c to_seam)) = Ok (h', base chunks (S i)) ∧
    shows (total_offset chunks) (chain_cols 0 (take i chunks) ++
      (shift (base chunks i) <$> picked c (closed_rows c)) ++
      replicate (sum_list_with (λ c, length (e_error_rates c)) (drop (S i) chunks)) []) h'.
Proof.
  intros Hc Hh. destruct (chunk_at i c Hc) as [Hok Hsz]. unfold pending in Hh. rewrite Hc in Hh.
  pose proof (base_S to_seam chunks i c Hc) as HS. pose proof (base_le chunks (S i)) as Hle.
  pose proof total_fits. unfold ExtendedStitch.offset_rows in HS.
  destruct (write_interior (chain_cols 0 (take i chunks)) (shift (base chunks i) <$> picked c (band c to_seam))
    (replicate (sum_list_with (λ c, length (e_error_rates c)) (drop (S i) chunks)) []) (total_offset chunks) h c
    (base chunks i + width c to_seam)) as (m&Hm&Hrows&Hw).
  - done.
  - done.
  - rewrite length_fmap. by apply (length_picked from_seam to_seam).
  - done.
  - lia.
  - lia.
  - apply (columns_fit i c); [done|]. rewrite length_fmap. by apply (length_picked from_seam to_seam).
  - exists m. split; [done|]. rewrite Hrows, length_chain_take in * by done.
    rewrite stack_interior in Hw. destruct (Nat.ltb_spec 0 (length (interior c))) as [Hpos|Hz].
    + destruct Hw as (h'&->&Hh'). exists h'. cbn [mbind res_bind]. split; [|done].
      rewrite wrap_small by lia. do 2 f_equal. lia.
    + exists h. split; [do 2 f_equal; lia|]. unfold closed_rows.
      rewrite (nil_length_inv (interior c)) by lia. by rewrite app_nil_r.
Qed.

Lemma offset_at k : k ≤ length chunks → vget (dem_chunks_to_fault_offsets chunks) k = Ok (faults_before chunks k).
Proof.
  intros Hk. rewrite (fault_offsets_eq from_seam to_seam Hne) by (done || by eapply chain_types). apply vget_ok.
  by rewrite list_lookup_fmap, lookup_seq_lt by lia.
Qed.

(** The boundary between chunks [i] and [i + 1]. *)
Lemma write_boundary i c next h :
  chunks !! i = Some c → chunks !! S i = Some next →
  shows (total_offset chunks) (chain_cols 0 (take i chunks) ++
    (shift (base chunks i) <$> picked c (closed_rows c)) ++
    replicate (sum_list_with (λ c, length (e_error_rates c)) (drop (S i) chunks)) []) h →
  ∃ fs ts from_H to_H, get_seam c from_seam = Ok fs ∧ get_seam next to_seam = Ok ts ∧
    extract_row_band (e_H c) (row_begin fs) (row_end fs) = Ok from_H ∧
    extract_row_band (e_H next) (row_begin ts) (row_end ts) = Ok to_H ∧
    seam_num_rows fs = width next to_seam ∧
    returns (h ← write_sparse_block h from_H (base chunks (S i)) (faults_before chunks i);
             write_sparse_block h to_H (base chunks (S i)) (faults_before chunks (S i)))
      (shows (total_offset chunks) (chain_cols 0 (take (S i) chunks) ++ pending chunks (S i))).
Proof.
  intros Hc Hn Hh. destruct (chunk_at i c Hc) as [Hok Hsz], (chunk_at (S i) next Hn) as [Hok' Hsz'].
  pose proof (ch_linked _ _ _ Hch) as Hlink. rewrite sorted_lookup_adjacent in Hlink.
  pose proof (Hlink i c next Hc Hn) as Hbo. pose proof (boundary_width _ _ Hne c next Hok Hok' Hbo) as Hw.
  destruct (has_seam_some _ _ (bo_from _ _ _ _ Hbo)) as [fs Hfs].
  destruct (has_seam_some _ _ (bo_to _ _ _ _ Hbo)) as [ts Hts].
  pose proof total_fits. pose proof (base_le chunks (S (S i))) as Hle.
  pose proof (base_S to_seam chunks (S i) next Hn) as HS'. unfold ExtendedStitch.offset_rows in HS'.
  destruct (write_seam (chain_cols 0 (take i chunks)) (shift (base chunks i) <$> picked c (closed_rows c))
    (replicate (sum_list_with (λ c, length (e_error_rates c)) (drop (S i) chunks)) []) (total_offset chunks) h c from_seam
    fs (base chunks (S i))) as (from_H&HfH&h1&Hw1&Hh1).
  1-3: done. 1: by rewrite length_fmap; apply (length_picked from_seam to_seam). 1: done. 1-2: lia.
  1: by apply (columns_fit i c); [|rewrite length_fmap; apply (length_picked from_seam to_seam)].
  rewrite (base_S to_seam chunks i c Hc), stack_from, app_assoc, <-(chain_cols_take chunks i c Hc) in Hh1.
  rewrite (drop_S chunks next (S i) Hn) in Hh1. cbn [sum_list_with] in Hh1. rewrite replicate_add in Hh1.
  destruct (write_seam (chain_cols 0 (take (S i) chunks)) (replicate (length (e_error_rates next)) [])
    (replicate (sum_list_with (λ c, length (e_error_rates c)) (drop (S (S i)) chunks)) []) (total_offset chunks) h1 next to_seam
    ts (base chunks (S i))) as (to_H&HtH&h2&Hw2&Hh2).
  1-3: done. 1: apply length_replicate. 1: done. 1-2: lia.
  1: by apply (columns_fit (S i) next); [|apply length_replicate].
  exists fs, ts, from_H, to_H. split_and!; [by apply get_seam_at|by apply get_seam_at|done|done| |].
  - rewrite <-Hw. by apply (seam_at_rows from_seam to_seam).
  - rewrite !length_chain_take in * by done. rewrite Hw1. cbn [mbind res_bind]. rewrite Hw2. apply returns_ok.
    rewrite stack_under in Hh2 by (by apply (length_picked from_seam to_seam)).
    unfold pending. by rewrite Hn.
Qed.

(** The last chunk: its outgoing seam is dropped. *)
Lemma close_last i c h :
  chunks !! i = Some c → length chunks ≤ S i →
  shows (total_offset chunks) (chain_cols 0 (take i chunks) ++
    (shift (base chunks i) <$> picked c (closed_rows c)) ++
    replicate (sum_list_with (λ c, length (e_error_rates c)) (drop (S i) chunks)) []) h →
  shows (total_offset chunks) (chain_cols 0 (take (S i) chunks) ++ pending chunks (S i)) h.
Proof.
  intros Hc Hge. destruct (chunk_at i c Hc) as [Hok Hsz].
  assert (pending chunks (S i) = []) as -> by (unfold pending; by rewrite lookup_ge_None_2 by lia).
  rewrite (drop_ge chunks) by lia. cbn [sum_list_with replicate]. rewrite !app_nil_r, (chain_cols_take chunks i c Hc).
  apply shows_ext.
  - by rewrite !length_app, !length_fmap, !(length_picked from_seam to_seam).
  - intros x j col col' Hx Hcol Hcol'. apply lookup_app_Some in Hcol as [Hcol|[Hj Hcol]].
    { rewrite lookup_app_l in Hcol' by (by eapply lookup_lt_Some). congruence. }
    rewrite lookup_app_r in Hcol' by done. unfold picked in *.
    rewrite <-!list_fmap_compose in Hcol, Hcol'. apply list_lookup_fmap_Some in Hcol as (y&->&Hy).
    rewrite list_lookup_fmap, Hy in Hcol'. injection Hcol' as <-. f_equal. apply occ_closed.
    rewrite <-(base_S to_seam chunks i c Hc). unfold ExtendedAll.base. rewrite take_ge by lia. done.
Qed.

(** What happens between chunks [i] and [i + 1]. *)
Lemma close_seam i c h1 :
  chunks !! i = Some c →
  shows (total_offset chunks) (chain_cols 0 (take i chunks) ++
    (shift (base chunks i) <$> picked c (closed_rows c)) ++
    replicate (sum_list_with (λ c, length (e_error_rates c)) (drop (S i) chunks)) []) h1 →
  ∃ h2, (if i + 1 <? length chunks then
          next ← vget chunks (i + 1);
          if has_seam c from_seam && has_seam next to_seam then
            fs ← get_seam c from_seam;
            ts ← get_seam next to_seam;
            from_H ← extract_row_band (e_H c) (row_begin fs) (row_end fs);
            to_H ← extract_row_band (e_H next) (row_begin ts) (row_end ts);
            h ← write_sparse_block h1 from_H (base chunks (S i)) (faults_before chunks i);
            off' ← vget (dem_chunks_to_fault_offsets chunks) (i + 1);
            h ← write_sparse_block h to_H (base chunks (S i)) off';
            Ok (h, u64 (base chunks (S i) + seam_num_rows fs))
          else Ok (h1, base chunks (S i))
        else Ok (h1, base chunks (S i))) = Ok (h2, base chunks (S i) + to_width chunks (S i)) ∧
    shows (total_offset chunks) (chain_cols 0 (take (S i) chunks) ++ pending chunks (S i)) h2.
Proof.
  intros Hc Hh1.
  rewrite Nat.add_1_r. destruct (Nat.ltb_spec (S i) (length chunks)) as [Hlt|Hge].
  - destruct (lookup_lt_is_Some_2 chunks (S i) Hlt) as [next Hn].
    destruct (write_boundary i c next h1 Hc Hn Hh1) as (fs&ts&fH&tH&Hfs&Hts&HfH&HtH&Hw&h2&Hw2&Hh2).
    pose proof (ch_linked _ _ _ Hch) as Hlink. rewrite sorted_lookup_adjacent in Hlink.
    destruct (Hlink i c next Hc Hn) as [_ Hf Ht _].
    rewrite (vget_ok _ _ _ Hn). cbn [mbind res_bind]. rewrite Hf, Ht. cbn [andb].
    rewrite Hfs, Hts. cbn [mbind res_bind]. rewrite HfH, HtH. cbn [mbind res_bind].
    rewrite offset_at by lia. apply bind_ok in Hw2 as (h1'&->&Hw2). cbn [mbind res_bind]. rewrite Hw2.
    cbn [mbind res_bind]. exists h2. split; [|done]. unfold ExtendedAll.to_width. rewrite Hn, Hw. cbn [from_option].
    pose proof (base_bound _ _ Hne chunks (S i) Hch) as Hbb. unfold ExtendedAll.to_width in Hbb. rewrite Hn in Hbb.
    cbn [from_option] in Hbb. destruct Hfit. rewrite wrap_small by lia. done.
  - exists h1. split; [|by apply (close_last i c)]. unfold ExtendedAll.to_width.
    rewrite lookup_ge_None_2 by lia. cbn [from_option]. by rewrite Nat.add_0_r.
Qed.

Lemma close_step_spec k i st :
  i < length chunks → (∀ c, c ∈ chunks → num_rows_ (e_O c) = k) → (Z.of_nat k < 2 ^ 32)%Z →
  closing chunks k i st →
  returns (close_step chunks (dem_chunks_to_fault_offsets chunks) from_seam to_seam i st) (closing chunks k (i + 1)).
Proof.
  intros Hi Hk Hkz [Hh Ho Hcur Hrat]. destruct st as [[[h o] cur] rates]. cbn [fst snd] in *. subst cur rates.
  destruct (lookup_lt_is_Some_2 chunks i Hi) as [c Hc]. destruct (chunk_at i c Hc) as [Hok Hsz].
  unfold close_step. rewrite (vget_ok _ _ _ Hc). cbn [mbind res_bind].
  rewrite (offset_at i) by lia. cbn [mbind res_bind].
  assert (to_width chunks i = width c to_seam) as -> by (unfold ExtendedAll.to_width; by rewrite Hc).
  destruct (close_interior i c h Hc Hh) as (m&->&h1&Hint&Hh1). cbn [mbind res_bind]. rewrite Hint. cbn [mbind res_bind].
  destruct (close_seam i c h1 Hc Hh1) as (h2&->&Hh2).
  cbn [mbind res_bind].
  pose proof (write_obs (take i chunks ≫= obs_cols)
    (replicate (sum_list_with (λ c, length (e_error_rates c)) (drop (S i) chunks)) []) k o c
    (ok_typed _ _ c Hok) (ok_valid _ _ c Hok)) as Hw.
  assert (length (take i chunks ≫= obs_cols) = faults_before chunks i) as Hlen.
  { rewrite length_bind. unfold faults_before.
    assert (Forall chunk_ok (take i chunks)) as Ht by (by apply Forall_take, Hch).
    clear -Ht. induction Ht as [|x l Hx _ IH]; cbn [sum_list_with]; [done|].
    rewrite IH, length_obs_cols by apply Hx. done. }
  rewrite (drop_S chunks c i Hc) in Ho. cbn [sum_list_with] in Ho. rewrite replicate_add in Ho.
  pose proof (columns_fit i c (replicate (length (e_error_rates c)) []) Hc (length_replicate _ _)) as Hcf.
  rewrite !length_app, length_chain_take, <-Hlen in Hcf by done.
  destruct Hw as (o'&Hwo&Ho'); [apply Hk; by eapply list_elem_of_lookup_2|done|by rewrite !length_app|lia|].
  rewrite Hlen in Hwo. rewrite Hwo. cbn [mbind res_bind]. apply returns_ok.
  rewrite Nat.add_1_r. split; cbn [fst snd]; [done| |done|].
  - rewrite (take_S_r _ _ c Hc), bind_app, <-app_assoc. cbn [mbind list_bind]. by rewrite app_nil_r.
  - rewrite (take_S_r _ _ c Hc), bind_app. cbn [mbind list_bind]. by rewrite app_nil_r.
Qed.

Lemma foldl_interior :
  foldl (λ acc c, u64 (acc + num_interior_rows c)) 0 chunks = sum_list_with (λ c, length (interior c)) chunks.
Proof.
  rewrite (foldl_ext_in _ (λ acc c, u64 (acc + length (interior c)))).
  - rewrite foldl_wrap; [done|lia|]. pose proof total_fits as Ht.
    assert (sum_list_with (λ c, length (interior c)) chunks ≤ total_offset chunks); [|lia].
    unfold ExtendedChain.total_offset. clear. induction chunks as [|c l IH]; cbn [sum_list_with]; [done|].
    unfold ExtendedStitch.offset_rows at 1. lia.
  - intros x c [i Hc]%list_elem_of_lookup. by rewrite (num_interior_rows_eq _ _ Hne c) by apply (chunk_at i c Hc).
Qed.

(** The number of detectors [dem_close_all] counts is that of the chain. *)
Lemma seam_sum n :
  n < length chunks →
  for_u 0 n (λ i acc, c ← vget chunks i;
      if has_seam c from_seam then s ← get_seam c from_seam; Ok (u64 (acc + seam_num_rows s)) else Ok acc) 0 =
    Ok (sum_list_with (λ c, width c from_seam) (take n chunks)).
Proof.
  intros Hn. pose proof (total_offset_le _ _ Hne chunks (ch_chunks _ _ _ Hch)) as Ht.
  destruct (for_u_inv 0 n (λ i acc, c ← vget chunks i;
      if has_seam c from_seam then s ← get_seam c from_seam; Ok (u64 (acc + seam_num_rows s)) else Ok acc)
    (λ i acc, acc = sum_list_with (λ c, width c from_seam) (take i chunks)) 0) as (acc&->&->); [lia|done| |done].
  intros i acc Hi ->. destruct (lookup_lt_is_Some_2 chunks i) as [c Hc]; [lia|].
  destruct (chunk_at i c Hc) as [Hok _]. rewrite (vget_ok _ _ _ Hc). cbn [mbind res_bind].
  rewrite Nat.add_1_r, (sum_take_S _ _ _ _ Hc).
  destruct (has_seam c from_seam) eqn:E.
  - destruct (has_seam_some _ _ E) as [s Hs]. rewrite (get_seam_at _ _ _ Hs). cbn [mbind res_bind].
    rewrite (seam_at_rows from_seam to_seam c from_seam s Hok Hs). apply returns_ok. apply wrap_small.
    pose proof (sum_take_le (λ c, width c from_seam) chunks (S i)) as H1. rewrite (sum_take_S _ _ _ _ Hc) in H1.
    assert (sum_list_with (λ c, width c from_seam) chunks ≤ sum_list_with (λ c, num_rows_ (e_H c)) chunks) as H2.
    { pose proof (ch_chunks _ _ _ Hch) as Hall. clear -Hall Hne. induction Hall as [|x l Hx _ IH]; cbn [sum_list_with]; [done|].
      pose proof (rows_split _ _ Hne x Hx). lia. }
    destruct Hfit. lia.
  - rewrite (width_no_seam _ _ E). apply returns_ok. lia.
Qed.

Lemma count_detectors c0 :
  head chunks = Some c0 →
  width c0 to_seam + sum_list_with (λ c, length (interior c)) chunks +
    sum_list_with (λ c, width c from_seam) (take (length chunks - 1) chunks) = total_offset chunks.
Proof.
  intros H0. pose proof (ch_linked _ _ _ Hch) as Hlink. pose proof (ch_chunks _ _ _ Hch) as Hall.
  clear Hch Hfit. revert c0 H0 Hlink. unfold ExtendedChain.total_offset.
  induction Hall as [|c l Hc Hall IH]; intros c0 H0 Hlink; [done|]. injection H0 as ->.
  cbn [sum_list_with length]. rewrite Nat.sub_succ, Nat.sub_0_r. unfold ExtendedStitch.offset_rows at 1.
  destruct l as [|d l]; [cbn; lia|]. inversion_clear Hlink as [|? ? Hlink' Hhd].
  inversion_clear Hhd as [|? ? Hcd]. specialize (IH d eq_refl Hlink').
  assert (chunk_ok d) as Hd by (by apply Forall_cons_1 in Hall as [? _]).
  pose proof (boundary_width _ _ Hne c0 d Hc Hd Hcd) as Hw.
  cbn [length] in IH. rewrite Nat.sub_succ, Nat.sub_0_r in IH. cbn [length]. rewrite firstn_cons.
  cbn [sum_list_with] in *. lia.
Qed.

(** The checks of [dem_close_all]. *)
Lemma close_checks c0 ctx1 ctx2 ctx3 ctx4 :
  head chunks = Some c0 →
  (_ ← for_u 0 (length chunks) (λ i _,
         c ← vget chunks i;
         _ ← validate c ctx1;
         reject_extra_seams c from_seam to_seam ctx2) tt;
   _ ← for_u 1 (length chunks) (λ i _,
         c ← vget chunks i;
         throw_if (negb (e_num_observables c =? e_num_observables c0)) (InvalidArgument ctx3)) tt;
   for_u 0 (length chunks - 1) (λ i _,
         a ← vget chunks i;
         b ← vget chunks (i + 1);
         check_seam_boundary a b from_seam to_seam ctx4) tt) = Ok tt.
Proof.
  intros H0. pose proof (ch_chunks _ _ _ Hch) as Hall.
  rewrite (decides_returns _ _ _ (decides_chunk_checks _ _ Hne chunks _ _ (chain_types _ _ _ Hch)) Hall). cbn [mbind res_bind].
  assert (decides (for_u 1 (length chunks) (λ i _, c ← vget chunks i;
      throw_if (negb (e_num_observables c =? e_num_observables c0)) (InvalidArgument ctx3)) tt)
    (∀ i, 1 ≤ i < length chunks → ∀ c, chunks !! i = Some c → num_rows_ (e_O c) = num_rows_ (e_O c0)) tt) as Hobs.
  { apply decides_for_u. intros i Hi. destruct (lookup_lt_is_Some_2 chunks i) as [c Hc]; [lia|].
    rewrite (vget_ok _ _ _ Hc). cbn [mbind res_bind]. eapply decides_iff; [apply decides_eqb|].
    unfold e_num_observables. naive_solver. }
  rewrite (decides_returns _ _ _ Hobs).
  2:{ intros i _ c Hc. eapply same_obs; [done|done|]. by eapply list_elem_of_lookup_2. }
  cbn [mbind res_bind].
  refine (decides_returns _ _ _ (decides_adjacent from_seam to_seam Hne (λ a b, seam_tags a from_seam = seam_tags b to_seam) _ chunks _) _).
  - intros a b Ha Hb. rewrite Forall_forall in Hall. apply check_boundary_decides; auto.
  - eapply sorted_impl; [|apply (ch_linked _ _ _ Hch)]. intros a b Hbo. apply Hbo.
Qed.

Lemma dem_close_all_spec c0 :
  head chunks = Some c0 →
  returns (dem_close_all chunks from_seam to_seam) (λ d, ∃ h o,
    d = mk_dem h (chunks ≫= e_error_rates) o None ∧
    shows (total_offset chunks) (chain_cols 0 chunks) h ∧ shows (num_rows_ (e_O c0)) (chunks ≫= obs_cols) o).
Proof.
  intros H0. assert (∃ l, chunks = c0 :: l) as [l Hl] by (destruct chunks; [done|]; injection H0 as ->; eauto).
  assert (chunks !! 0 = Some c0) as Hc0 by (by rewrite Hl).
  destruct (chunk_at 0 c0 Hc0) as [Hok Hsz]. pose proof total_fits as Htot.
  pose proof (close_checks c0 "dem_close_all: chunk " "dem_close_all: chunk "
    "dem_close_all: observable count mismatch at chunk " "dem_close_all: boundary " H0) as Hchk.
  apply bind_ok in Hchk as ([]&Hchk1&Hchk). apply bind_ok in Hchk as ([]&Hchk2&Hchk3).
  unfold dem_close_all. rewrite Hl at 1. cbv zeta. rewrite Hchk1. cbn [mbind res_bind]. rewrite Hchk2.
  cbn [mbind res_bind]. rewrite Hchk3. cbn [mbind res_bind]. clear Hchk1 Hchk2 Hchk3.
  assert (length (dem_chunks_to_fault_offsets chunks) - 1 = length chunks) as ->.
  { rewrite (fault_offsets_eq from_seam to_seam Hne) by (done || by eapply chain_types).
    rewrite length_fmap, length_seq. lia. }
  rewrite (offset_at (length chunks)) by done. cbn [mbind res_bind]. rewrite seam_rows_or_zero_eq by apply Hok. cbn [mbind res_bind].
  rewrite foldl_interior, seam_sum by (rewrite Hl; cbn; lia). cbn [mbind res_bind].
  pose proof (count_detectors c0 H0) as Hcount.
  rewrite (wrap_small 64 (width c0 to_seam + _)) by lia. rewrite wrap_small, Hcount by lia.
  assert ((0 <? width c0 to_seam) && has_seam c0 to_seam = (0 <? width c0 to_seam)) as ->.
  { destruct (has_seam c0 to_seam) eqn:E; [apply andb_true_r|]. by rewrite (width_no_seam _ _ E). }
  rewrite (offset_at 0) by lia. change (faults_before chunks 0) with 0. cbn [mbind res_bind].
  set (rest := replicate (sum_list_with (λ c, length (e_error_rates c)) l) ([] : list nat)).
  assert (faults_before chunks (length chunks) = length (e_error_rates c0) + length rest) as Hn.
  { unfold faults_before, rest. rewrite firstn_all, length_replicate, Hl. done. }
  destruct Hfit as [_ Fc _ _]. assert (Z.of_nat (length (e_error_rates c0) + length rest) < 2 ^ 32)%Z as Hz.
  { rewrite <-Hn. unfold faults_before. rewrite firstn_all. lia. }
  assert (shows (total_offset chunks) (replicate (length (e_error_rates c0)) [] ++ rest)
    (tensor_of_shape [total_offset chunks; faults_before chunks (length chunks)])) as Hshow.
  { rewrite Hn. unfold rest. rewrite <-replicate_add, length_replicate. apply shows_zero. }
  destruct (write_lead rest (total_offset chunks) c0 Hok Hsz) with
    (h := tensor_of_shape [total_offset chunks; faults_before chunks (length chunks)]) as (h&->&Hh); [lia..|done|].
  cbn [mbind res_bind].
  destruct (for_u_inv 0 (length chunks)
    (close_step chunks (dem_chunks_to_fault_offsets chunks) from_seam to_seam) (closing chunks (num_rows_ (e_O c0)))
    (h, tensor_of_shape [e_num_observables c0; faults_before chunks (length chunks)], width c0 to_seam, []))
    as ([[[h' o'] cur] rates]&->&[Hh' Ho' _ Hr]).
  - lia.
  - split; cbn [fst snd].
    + cbn [take ExtendedChain.chain_cols app]. unfold pending. rewrite Hc0.
      replace (shift (base chunks 0) <$> picked c0 (band c0 to_seam)) with (picked c0 (band c0 to_seam)).
      2:{ rewrite <-(list_fmap_id (picked c0 (band c0 to_seam))) at 1. apply list_fmap_ext. intros.
          symmetry. apply shift_0. }
      by replace (drop 1 chunks) with l by (by rewrite Hl).
    + cbn [take mbind list_bind app]. rewrite drop_0. unfold e_num_observables, faults_before. rewrite firstn_all. apply shows_zero.
    + unfold ExtendedAll.to_width, ExtendedAll.base. by rewrite Hc0.
    + done.
  - intros i st Hi Hst. apply close_step_spec; [lia| |by apply (obs_wf_rows from_seam to_seam chunks)|done].
    intros c Hc. by apply (same_obs from_seam to_seam chunks c0).
  - cbn [mbind res_bind fst snd] in *. apply returns_ok. exists h', o'. subst rates.
    rewrite firstn_all in *. unfold pending in Hh'. rewrite lookup_ge_None_2, app_nil_r in Hh' by done.
    rewrite drop_all in Ho'. cbn [sum_list_with replicate] in Ho'. by rewrite app_nil_r in Ho'.
Qed.
End chain.
End close.

(** ** The three ways to close a chain *)

Lemma nnz_below_limit limit cs : nnz (below_limit limit <$> (canon <$> cs)) ≤ nnz cs.
Proof.
  induction cs as [|col cs IH]; [done|]. rewrite !fmap_cons, !nnz_cons. pose proof (length_canon col).
  assert (length (below_limit limit (canon col)) ≤ length (canon col)) by apply length_filter. lia.
Qed.

Section agree.
Context {R : Type} (from_seam to_seam : nat) (Hne : from_seam ≠ to_seam).
Implicit Types c b : extended_dem R.
Implicit Types chunks : list (extended_dem R).
Context chunks (Hch : chain_ok from_seam to_seam chunks) (Hfit : chain_fits chunks).

(** What a closed chain of these chunks is. *)
Definition closed_chain (c0 : extended_dem R) (d : detector_error_model) : Prop :=
  ∃ h o, d = mk_dem h (chunks ≫= e_error_rates) o None ∧
    shows (total_offset to_seam chunks) (chain_cols from_seam to_seam 0 chunks) h ∧
    shows (num_rows_ (e_O c0)) (chunks ≫= obs_cols) o.

Lemma closed_chain_unique c0 d d' : closed_chain c0 d → closed_chain c0 d' → d = d'.
Proof.
  intros (h&o&->&Hh&Ho) (h'&o'&->&Hh'&Ho'). f_equal.
  - eapply shows_unique; [done|exact Hh|exact Hh'|]. intros. congruence.
  - eapply shows_unique; [done|exact Ho|exact Ho'|]. intros. congruence.
Qed.

Lemma canon_parity x l : occ x (canon l) mod 2 = occ x l mod 2.
Proof.
  destruct (canon_spec l) as [Hs Hm]. specialize (Hm x).
  destruct (decide (x ∈ canon l)) as [Hin|Hin].
  - assert (Nat.odd (occ x (canon l)) = true) as Ho by (by apply occ_nodup; [apply sorted_lt_nodup|]).
    apply Hm in Hin. apply Nat.odd_spec in Ho as [a ->], Hin as [b ->].
    by rewrite !(Nat.mul_comm 2), !(Nat.add_comm _ 1), !Nat.Div0.mod_add.
  - rewrite (occ_absent x (canon l)) by done.
    assert (Nat.odd (occ x l) = false) as Ho by (destruct (Nat.odd (occ x l)); [tauto|done]).
    rewrite <-Nat.negb_even in Ho. apply negb_false_iff, Nat.even_spec in Ho as [b ->].
    by rewrite Nat.mul_comm, Nat.Div0.mod_mul.
Qed.

Lemma canon_mem x l : occ x l mod 2 = bit (x ∈ canon l).
Proof.
  rewrite <-canon_parity. destruct (canon_spec l) as [Hs _]. unfold bit. case_decide as Hx.
  - assert (Nat.odd (occ x (canon l)) = true) as Ho by (by apply occ_nodup; [apply sorted_lt_nodup|]).
    apply Nat.odd_spec in Ho as [a ->]. by rewrite Nat.mul_comm, Nat.add_comm, Nat.Div0.mod_add.
  - by rewrite occ_absent.
Qed.

(** Closing a chunk drops the rows of its outgoing seam only. *)
Lemma close_shows c h :
  shows (offset_rows to_seam c) (picked c (closed_rows to_seam c)) h →
  shows (offset_rows to_seam c) (picked c (row_order from_seam to_seam c)) h.
Proof.
  apply shows_ext; [unfold picked; by rewrite !length_fmap|]. unfold picked. intros i j col col' Hi Hc Hc'.
  apply list_lookup_fmap_Some in Hc as (y&->&Hy). rewrite list_lookup_fmap, Hy in Hc'. injection Hc' as <-.
  f_equal. pose proof (occ_closed from_seam to_seam Hne c 0 i y Hi) as Ho. by rewrite !shift_0 in Ho.
Qed.

Lemma stitched_closes_one c0 :
  chunks = [c0] →
  returns (s ← dem_stitch_all chunks from_seam to_seam; dem_close s to_seam from_seam) (closed_chain c0).
Proof.
  intros Hc. destruct (chunk_at _ _ Hne chunks Hch Hfit 0 c0) as [Hok Hsz]; [by rewrite Hc|].
  destruct (dem_close_spec _ _ Hne c0 Hok Hsz) as (h&o&Hd&Hh%close_shows&Ho).
  rewrite Hc at 1. cbn [dem_stitch_all].
  rewrite (decides_returns _ _ _ (validate_chunk_decides c0 _ (ok_typed _ _ c0 Hok)) (ok_valid _ _ c0 Hok)).
  cbn [mbind res_bind]. rewrite Hd. apply returns_ok. exists h, o. rewrite Hc. unfold total_offset.
  cbn [mbind list_bind sum_list_with chain_cols]. rewrite !app_nil_r, Nat.add_0_r. split_and!; [done| |done].
  replace (shift 0 <$> picked c0 (row_order from_seam to_seam c0)) with (picked c0 (row_order from_seam to_seam c0)); [done|].
  rewrite <-(list_fmap_id (picked c0 _)) at 1. apply list_fmap_ext. intros. symmetry. apply shift_0.
Qed.

Lemma stitched_closes_many c0 l b :
  chunks = c0 :: l ++ [b] →
  returns (s ← dem_stitch_all chunks from_seam to_seam; dem_close s to_seam from_seam) (closed_chain c0).
Proof.
  intros Hc. assert (last chunks = Some b) as Hlast by (rewrite Hc; by rewrite app_comm_cons, last_snoc).
  assert (head chunks = Some c0) as Hhead by (by rewrite Hc).
  pose proof (chain_cols_ok _ _ Hne chunks b Hch Hfit Hlast) as Hcols.
  pose proof (obs_chain_ok _ _ Hne chunks c0 Hch Hfit Hhead) as Hobs.
  pose proof (wf_canon _ _ (wf_cols _ _ _ Hcols)) as Hwfc.
  assert (length (chunks ≫= e_error_rates) = sum_list_with (λ c, length (e_error_rates c)) chunks) as Hn by apply length_bind.
  set (cs := canon <$> chain_cols from_seam to_seam 0 chunks).
  set (o := of_groups csc (num_rows_ (e_O c0)) (length (chunks ≫= e_error_rates)) (chunks ≫= obs_cols)).
  set (s := flat from_seam to_seam cs o (chunks ≫= e_error_rates) (width c0 to_seam) (total_offset to_seam chunks)
    (width b from_seam) (seam_tags c0 to_seam ++ seam_tags b from_seam)).
  assert (dem_stitch_all chunks from_seam to_seam = Ok s) as ->.
  { pose proof (dem_stitch_all_result _ _ Hne c0 l b) as Hr. cbv zeta in Hr. rewrite <-Hc in Hr.
    rewrite (Hr Hch Hfit). unfold s, flat, o. by rewrite Hn. }
  cbn [mbind res_bind].
  assert (cols_ok (total_offset to_seam chunks + width b from_seam) (length (chunks ≫= e_error_rates)) cs) as Hcs.
  { rewrite Hn. pose proof (co_cols _ _ _ Hcols). destruct Hwfc as [(Hl&_) Hb Hr _ Hz]. by split. }
  assert (well_formed o ∧ num_cols_ o = length (chunks ≫= e_error_rates)) as [Ho Hoc].
  { split; [|done]. unfold o. rewrite Hn. eexists. by apply wf_cols. }
  assert (chunk_ok from_seam to_seam c0 ∧ chunk_ok from_seam to_seam b) as [H0 Hb].
  { pose proof (ch_chunks _ _ _ Hch) as Hall. rewrite Hc in Hall.
    destruct (Forall_cons_1 _ _ _ Hall) as [? [_ [? _]%Forall_cons]%Forall_app]. done. }
  assert (width c0 to_seam ≤ total_offset to_seam chunks) as Hw.
  { rewrite Hc. unfold total_offset. cbn [sum_list_with]. unfold offset_rows at 1. lia. }
  assert (length (seam_tags c0 to_seam ++ seam_tags b from_seam) = width c0 to_seam + width b from_seam) as Htags.
  { by rewrite length_app, !(length_seam_tags from_seam to_seam Hne). }
  assert (Forall (StronglySorted (≤)) cs) as Hsorted.
  { apply Forall_fmap, Forall_forall. intros col _. apply sorted_lt_le, canon_spec. }
  pose proof (flat_ok from_seam to_seam Hne cs o _ _ _ _ _ Hcs Ho Hoc Hw Htags) as Hok. fold s in Hok.
  assert (sized s) as Hsz.
  { pose proof (total_rows_le _ _ Hne (c0 :: l) b) as Ht. rewrite <-app_comm_cons, <-Hc in Ht.
    specialize (Ht (ch_chunks _ _ _ Hch)). destruct Hfit as [Fr Fc _ _]. split; cbn [s flat e_H num_rows_ of_groups e_error_rates]; lia. }
  destruct (dem_close_spec _ _ Hne s Hok Hsz) as (h&o'&->&Hh%close_shows&Ho').
  unfold s in Hh. rewrite flat_picked, flat_offset in Hh by done.
  apply returns_ok. exists h, o'. split; [done|]. split.
  - revert Hh. apply shows_ext; [apply length_fmap|]. intros i j col col' _ Hcol Hcol'.
    unfold cs in Hcol. rewrite list_lookup_fmap, Hcol' in Hcol. injection Hcol as <-. apply canon_parity.
  - rewrite obs_cols_aligned in Ho' by done. cbn [s flat e_O o num_rows_ of_groups] in Ho'.
    unfold s, flat, o in Ho'. cbn [e_O num_rows_ of_groups] in Ho'. rewrite Hn in Ho'. by rewrite cols_of_groups in Ho'.
Qed.

(** The sparse matrix, by columns. *)
Lemma pcm_result :
  chunks ≠ [] →
  dem_chunks_to_pcm chunks from_seam to_seam =
    Ok (of_groups csc (total_offset to_seam chunks) (sum_list_with (λ c, length (e_error_rates c)) chunks)
         (below_limit (total_offset to_seam chunks) <$> (canon <$> chain_cols from_seam to_seam 0 chunks))).
Proof.
  intros H0. unfold dem_chunks_to_pcm.
  rewrite bool_decide_eq_false_2 by (destruct chunks; done). cbn [throw_if mbind res_bind].
  rewrite (decides_returns _ _ _ (validate_chain_decides _ _ Hne chunks _ (chain_types _ _ _ Hch)) Hch). cbn [mbind res_bind].
  destruct (plan_chain_spec _ _ Hne chunks) as (plan&->&Hplan); [by destruct chunks|done|done|]. cbn [mbind res_bind].
  pose proof (total_fits _ _ Hne chunks Hch Hfit) as Htot. pose proof Hfit as [_ Fc _ _].
  rewrite (pl_trail_row _ _ _ _ Hplan), (pl_faults _ _ _ _ Hplan), !wrap_small by lia.
  rewrite (chain_h_columns_spec _ _ Hne chunks plan) by done. cbn [mbind res_bind].
  by rewrite (copied_matrix _ _ Hne chunks _ Hch Hfit Htot).
Qed.

(** The sparse matrix is the dense one. *)
Lemma pcm_agrees c0 d :
  head chunks = Some c0 → closed_chain c0 d →
  returns (dem_chunks_to_pcm chunks from_seam to_seam) (λ p, to_dense p = Ok (detector_error_matrix d)).
Proof.
  intros H0 (h&o&->&[Hw Hh]&_). cbn [detector_error_matrix].
  rewrite pcm_result by (by destruct chunks). apply returns_ok. pose proof Hfit as [_ Fc _ _].
  pose proof (total_fits _ _ Hne chunks Hch Hfit) as Htot.
  set (gs := below_limit _ <$> (canon <$> chain_cols from_seam to_seam 0 chunks)).
  pose proof (length_chain_cols _ _ 0 chunks (ch_chunks _ _ _ Hch)) as Hlen. rewrite Hlen in Hw.
  assert (wf (of_groups csc (total_offset to_seam chunks) (sum_list_with (λ c, length (e_error_rates c)) chunks) gs) gs) as Hwf.
  { pose proof (nnz_below_limit (total_offset to_seam chunks) (chain_cols from_seam to_seam 0 chunks)) as Hle. fold gs in Hle.
    pose proof (nnz_chain_cols _ _ Hne 0 chunks (ch_chunks _ _ _ Hch)). destruct Hfit as [_ _ Fn _].
    apply wf_of_groups; [unfold gs; by rewrite !length_fmap| |lia|lia|unfold nnz in *; lia].
    apply Forall_fmap, Forall_forall. intros col _. apply Forall_forall. by intros x [? _]%list_elem_of_filter. }
  destruct (to_dense_returns _ _ Hwf) as (d'&->&Hw'&Hd'). f_equal.
  cbn [num_rows_ num_cols_ of_groups] in Hw', Hd'.
  apply (tensor2_ext (total_offset to_seam chunks) (sum_list_with (λ c, length (e_error_rates c)) chunks)); [done|done|].
  intros i j Hi Hj. rewrite Hd' by done.
  destruct (lookup_lt_is_Some_2 (chain_cols from_seam to_seam 0 chunks) j) as [col Hcol]; [lia|].
  rewrite (Hh i j col Hi Hcol), canon_mem. f_equal. apply bit_iff. rewrite mentions_group.
  change (is_csc (of_groups csc _ _ _)) with true. cbv iota. unfold gs. rewrite !list_lookup_fmap, Hcol. cbn [fmap option_fmap option_map].
  split; [|intros Hin; eexists; split; [done|]; by apply list_elem_of_filter].
  intros (x&[= <-]&Hx). by apply list_elem_of_filter in Hx as [_ Hx].
Qed.
End agree.

(** C26. Closing a chain gives one model whichever way it is done: the dense
    one-pass [dem_close_all], [dem_close] of the stitched chain, and the sparse
    one-pass [dem_chunks_to_pcm], whose matrix is the detector matrix of the
    other two.  All three return on every chain of consistent chunks that can
    be contracted. *)
Theorem close_all_agrees {R} (from_seam to_seam : nat) (chunks : list (extended_dem R)) :
  from_seam ≠ to_seam → chunks ≠ [] → chain_ok from_seam to_seam chunks → chain_fits chunks →
  returns (dem_close_all chunks from_seam to_seam) (λ d,
    (s ← dem_stitch_all chunks from_seam to_seam; dem_close s to_seam from_seam) = Ok d ∧
    returns (dem_chunks_to_pcm chunks from_seam to_seam) (λ p, to_dense p = Ok (detector_error_matrix d))).
Proof.
  intros Hne Hnil Hch Hfit. destruct chunks as [|c0 l]; [done|].
  destruct (dem_close_all_spec _ _ Hne _ Hch Hfit c0 eq_refl) as (d&->&Hd). apply returns_ok.
  assert (returns (s ← dem_stitch_all (c0 :: l) from_seam to_seam; dem_close s to_seam from_seam)
    (closed_chain from_seam to_seam (c0 :: l) c0)) as (d'&->&Hd').
  { destruct l as [|b l _] using rev_ind; [by apply stitched_closes_one|by eapply stitched_closes_many]. }
  rewrite (closed_chain_unique _ _ _ c0 d' d Hd' Hd). split; [done|]. by apply (pcm_agrees _ _ Hne _ Hch Hfit c0).
Qed.

Lemma example_chain_ok : chain_ok 9 7 [example_round; example_round].
Proof.
  destruct (validate_chain_decides 9 7 ltac:(lia) [example_round; example_round] "w") as [[Hch _]|[_ [msg Hrej]]].
  - do 2 (apply Forall_cons; split; [apply example_round_typed|]). done.
  - done.
  - exfalso. revert Hrej. vm_compute. discriminate.
Qed.

Lemma close_all_agrees_witness :
  returns (dem_close_all [example_round; example_round] 9 7) (λ d,
    (s ← dem_stitch_all [example_round; example_round] 9 7; dem_close s 7 9) = Ok d ∧
    t_shape (detector_error_matrix d) = [6; 6]).
Proof.
  eapply returns_mono.
  - apply (close_all_agrees 9 7 [example_round; example_round]).
    + lia.
    + discriminate.
    + apply example_chain_ok.
    + split; vm_compute; reflexivity.
  - intros d [Hd _]. split; [exact Hd|]. revert Hd. vm_compute. intros [= <-]. reflexivity.
Defined.
