(* ===== verification/ExtendedMerge.v ===== *)
(** * Extended detector error models: duplicate columns

    Model of the last part of extended_dem.cpp: the support of every fault
    column, [dem_merge_duplicate_columns] with its two rules for combining
    priors, the uniqueness checks and [dem_stitch_merged]. *)

From Stdlib Require Import QArith Lqa.
From S2P Require Import Prelude Rates Ordering Tensor SparseMatrix RoundLayout DetectorErrorModel ExtendedDem SparseFacts SparseCanon SparseProps ExtendedFacts ExtendedChunk ExtendedStitch ExtendedProps.

Local Open Scope nat_scope.

Definition canonical_columns (mat : sparse_binary_matrix) : res (list (list nat)) :=
  if is_csc mat then m ← canonicalize mat; to_nested_csc m
  else m ← to_csc mat; m ← canonicalize m; to_nested_csc m.

(** The struct of the same name: the canonical columns and, flattened, the
    support of every column over [H]'s rows and then [O]'s. *)
Record dem_column_supports := mk_supports {
  H_cols : list (list nat);
  O_cols : list (list nat);
  flat_ : list nat;
  off_ : list nat
}.

(** The range [begin_col(j), begin_col(j) + size(j)]. *)
Definition column_support (cols : dem_column_supports) (j : nat) : res (list nat) :=
  lo ← vget (off_ cols) j;
  hi ← vget (off_ cols) (j + 1);
  vslice (flat_ cols) lo hi.

(** ** [std::map] with vector keys: an association list in key order. *)

Section map.
Context {V : Type}.

Fixpoint map_find (k : list nat) (m : list (list nat * V)) : option V :=
  match m with
  | [] => None
  | (k', v) :: m => match lex k k' with Eq => Some v | Lt => None | Gt => map_find k m end
  end.

(** Insert at the key's place, or replace the value there. *)
Fixpoint map_put (k : list nat) (v : V) (m : list (list nat * V)) : list (list nat * V) :=
  match m with
  | [] => [(k, v)]
  | (k', v') :: m =>
      match lex k k' with
      | Eq => (k', v) :: m
      | Lt => (k, v) :: (k', v') :: m
      | Gt => (k', v') :: map_put k v m
      end
  end.

End map.

Section merge.
Context {R : Type} `{RateOps R}.

Definition column_supports (dem : extended_dem R) : res dem_column_supports :=
  H_cols ← canonical_columns (e_H dem);
  O_cols ← canonical_columns (e_O dem);
  let obs_base := num_rows_ (e_H dem) in
  let n := num_faults dem in
  let O_cols := match O_cols with [] => replicate n [] | _ => O_cols end in
  st ← for_u 0 n (λ j st,
        let '(flat, off) := st in
        h ← vget H_cols j;
        o ← vget O_cols j;
        let flat := (flat ++ h) ++ ((λ r, u32 (obs_base + r)) <$> o) in
        Ok (flat, off ++ [length flat])) ([], [0]);
  Ok (mk_supports H_cols O_cols st.1 st.2).

Record column_group := mk_group { representative : nat; accumulator : R; members : nat }.

Definition rate_bias (p : R) : R := rate_sub rate_one (rate_mul (rate_add rate_one rate_one) p).
Definition rate_min (a b : R) : R := if rate_ltb b a then b else a.

Definition merge_init (mode : prior_combine_mode) (p : R) : R :=
  match mode with or_combine => rate_bias p | sum_combine => p end.
Definition merge_accumulate (mode : prior_combine_mode) (acc p : R) : R :=
  match mode with or_combine => rate_mul acc (rate_bias p) | sum_combine => rate_add acc p end.
Definition merge_prior (mode : prior_combine_mode) (acc : R) : R :=
  match mode with
  | or_combine => rate_mul rate_half (rate_sub rate_one acc)
  | sum_combine => rate_min rate_one acc
  end.

Definition merge_step (dem : extended_dem R) (mode : prior_combine_mode)
    (cols : dem_column_supports) (j : nat) (sup_map : list (list nat * column_group))
    : res (list (list nat * column_group)) :=
  sup ← column_support cols j;
  p ← vget (e_error_rates dem) j;
  Ok (match map_find sup sup_map with
      | None => map_put sup (mk_group j (merge_init mode p) 1) sup_map
      | Some g =>
          map_put sup (mk_group (representative g) (merge_accumulate mode (accumulator g) p)
                         (u64 (members g + 1))) sup_map
      end).

Definition dem_merge_duplicate_columns (dem : extended_dem R) (mode : prior_combine_mode)
    : res (extended_dem R) :=
  _ ← validate dem "dem_merge_duplicate_columns";
  let n := num_faults dem in
  if n =? 0 then Ok dem else
  cols ← column_supports dem;
  sup_map ← for_u 0 n (merge_step dem mode cols) [];
  let new_n := u32 (length sup_map) in
  st ← foldM (λ (e : list nat * column_group) st,
        let '(new_H, new_O, new_rates, k) := st in
        let group := e.2 in
        let rep := representative group in
        h ← vget (H_cols cols) rep;
        new_H ← vset new_H k h;
        o ← vget (O_cols cols) rep;
        new_O ← vset new_O k o;
        fp ← (if members group =? 1 then vget (e_error_rates dem) rep
              else Ok (merge_prior mode (accumulator group)));
        Ok (new_H, new_O, new_rates ++ [fp], k + 1))
       sup_map (replicate new_n [], replicate new_n [], [], 0);
  let '(new_H, new_O, new_rates, _) := st in
  h ← from_nested_csc (num_rows_ (e_H dem)) new_n new_H;
  o ← from_nested_csc (e_num_observables dem) new_n new_O;
  Ok (mk_extended h o new_rates (e_seams dem) (e_tags dem)).

(** The search stops at the first support seen before. *)
Fixpoint unique_from (cols : dem_column_supports) (js : list nat) (seen : list (list nat * nat))
    : res bool :=
  match js with
  | [] => Ok true
  | j :: js =>
      sup ← column_support cols j;
      match map_find sup seen with
      | Some _ => Ok false
      | None => unique_from cols js (map_put sup j seen)
      end
  end.

Definition are_dem_columns_unique (dem : extended_dem R) : res bool :=
  _ ← validate dem "are_dem_columns_unique";
  let n := num_faults dem in
  cols ← column_supports dem;
  unique_from cols (seq 0 n) [].

Definition assert_dem_columns_unique (dem : extended_dem R) : res unit :=
  _ ← validate dem "assert_dem_columns_unique";
  u ← are_dem_columns_unique dem;
  throw_if (negb u)
    (InvalidArgument "extended_dem has duplicate fault columns; call dem_merge_duplicate_columns() to merge them.").

Definition dem_stitch_merged (chunks : list (extended_dem R)) (from_seam to_seam : nat)
    (mode : prior_combine_mode) : res (extended_dem R) :=
  s ← dem_stitch_all chunks from_seam to_seam;
  dem_merge_duplicate_columns s mode.

End merge.
Arguments column_group : clear implicits.

(** * Extended detector error models: merging duplicate columns

    The supports of the merged model are those of the input, each once and in
    lexicographic order, and the rate of a merged column combines the rates of
    the columns it replaces; over the rationals the XOR rule keeps the
    distribution of every support. *)

(** ** The ordered map *)

Definition lex_lt (a b : list nat) : Prop := lex a b = Lt.
Abbreviation keys_sorted m := (StronglySorted lex_lt m.*1).

#[global] Instance lex_lt_trans : Transitive lex_lt.
Proof. intros a b c. apply lex_trans. Qed.

Lemma lex_lt_irrefl a : ¬ lex_lt a a.
Proof. unfold lex_lt. by rewrite lex_refl. Qed.

Lemma lex_gt a b : lex a b = Gt → lex_lt b a.
Proof. unfold lex_lt. rewrite (lex_opp a b). by intros ->. Qed.

Lemma lex_sorted_nodup l : StronglySorted lex_lt l → NoDup l.
Proof.
  induction 1 as [|a l _ IH Hall]; constructor; [|done].
  intros Ha. rewrite Forall_forall in Hall. by eapply lex_lt_irrefl, Hall.
Qed.

Section map.
Context {V : Type}.
Implicit Types m : list (list nat * V).

Lemma map_find_put k v m k' :
  map_find k' (map_put k v m) = if decide (k' = k) then Some v else map_find k' m.
Proof.
  induction m as [|[k0 v0] m IH]; cbn [map_put map_find].
  - case_decide as E; [by rewrite E, lex_refl|]. destruct (lex k' k) eqn:L; [by apply lex_eq in L|done|done].
  - destruct (lex k k0) eqn:L; cbn [map_find].
    + apply lex_eq in L as ->. case_decide as E; [by rewrite E, lex_refl|].
      destruct (lex k' k0) eqn:L; [by apply lex_eq in L|done|done].
    + case_decide as E; [by rewrite E, lex_refl|].
      destruct (lex k' k) eqn:L'; [by apply lex_eq in L'| |done].
      by rewrite (lex_trans _ _ _ L' L).
    + destruct (lex k' k0) eqn:L'.
      * case_decide as E; [|done]. subst. by rewrite L in L'.
      * case_decide as E; [|done]. subst. by rewrite L in L'.
      * apply IH.
Qed.

Lemma map_put_keys k v m k' : k' ∈ (map_put k v m).*1 → k' = k ∨ k' ∈ m.*1.
Proof.
  induction m as [|[k0 v0] m IH]; cbn [map_put]; [set_solver|].
  destruct (lex k k0) eqn:L; cbn [fmap list_fmap]; set_solver.
Qed.

Lemma map_put_sorted k v m : keys_sorted m → keys_sorted (map_put k v m).
Proof.
  induction m as [|[k0 v0] m IH]; cbn [map_put].
  - intros _. repeat constructor.
  - intros Hs. destruct (lex k k0) eqn:L; [done| |].
    + cbn [fmap list_fmap fst] in *. constructor; [done|]. constructor; [done|].
      apply StronglySorted_inv in Hs as [_ Hall]. eapply Forall_impl; [exact Hall|].
      intros k'. apply (lex_trans _ _ _ L).
    + cbn [fmap list_fmap fst] in *. apply StronglySorted_inv in Hs as [Hs Hall]. constructor; [by apply IH|].
      apply Forall_forall. intros k' [->|Hk']%map_put_keys; [by apply lex_gt|].
      rewrite Forall_forall in Hall. by apply Hall.
Qed.

Lemma map_find_elem m k v : keys_sorted m → map_find k m = Some v ↔ (k, v) ∈ m.
Proof.
  induction m as [|[k0 v0] m IH]; cbn [map_find]; intros Hs; [set_solver|].
  cbn [fmap list_fmap fst] in Hs. apply StronglySorted_inv in Hs as [Hs Hall]. specialize (IH Hs).
  rewrite Forall_forall in Hall.
  assert (∀ w, (k, w) ∈ m → lex_lt k0 k) as Hlt.
  { intros w Hw. apply Hall, list_elem_of_fmap. by exists (k, w). }
  destruct (lex k k0) eqn:L.
  - apply lex_eq in L as ->. split; [intros [= ->]; by left|]. intros [[= ->]|Hin]%elem_of_cons; [done|].
    exfalso. by eapply lex_lt_irrefl, Hlt.
  - split; [done|]. intros [[= -> ->]|Hin]%elem_of_cons; [by rewrite lex_refl in L|].
    exfalso. eapply lex_lt_irrefl, lex_trans; [exact L|by eapply Hlt].
  - rewrite IH. split; [by right|]. intros [[= -> ->]|Hin]%elem_of_cons; [by rewrite lex_refl in L|done].
Qed.

Lemma map_find_key m k : keys_sorted m → k ∈ m.*1 ↔ is_Some (map_find k m).
Proof.
  intros Hs. split.
  - intros ([k' v]&->&Hin)%list_elem_of_fmap. exists v. by apply map_find_elem.
  - intros [v Hv]. apply list_elem_of_fmap. exists (k, v). split; [done|]. by apply map_find_elem.
Qed.

End map.

(** ** The support of every column *)

Lemma canonical_columns_spec m : well_formed m → canonical_columns m = Ok (canon <$> cols_of m).
Proof.
  intros [gs Hwf]. unfold canonical_columns, cols_of. rewrite (to_nested_csc_spec m gs Hwf).
  assert (∀ m gs, wf m gs → is_csc m = true →
    (m ← canonicalize m; to_nested_csc m) = Ok (canon <$> gs)) as Hcsc.
  { clear. intros m gs Hwf E. rewrite (canonicalize_spec m gs Hwf). cbn [mbind res_bind].
    rewrite (to_nested_csc_spec _ _ (wf_canon m gs Hwf)). unfold with_groups, of_groups, is_csc in *.
    cbn [layout_]. by rewrite E. }
  destruct (is_csc m) eqn:E; [by apply Hcsc|].
  rewrite (to_csc_spec m gs Hwf), E. cbn [mbind res_bind]. apply Hcsc; [|done].
  pose proof (wf_transposed m gs Hwf) as Ht. unfold other, index_bound in Ht. by rewrite E in Ht.
Qed.

Lemma ptrs_of_snoc gs l : ptrs_of (gs ++ [l]) = ptrs_of gs ++ [length (concat (gs ++ [l]))].
Proof.
  unfold ptrs_of. rewrite length_app. cbn [length]. rewrite (Nat.add_1_r (length gs + 1)), seq_S, fmap_app.
  f_equal.
  - apply list_fmap_ext. intros i x [-> Hx]%lookup_seq. unfold psum. rewrite take_app_le by lia. done.
  - cbn [fmap list_fmap]. rewrite psum_all by (rewrite length_app; simpl; lia). done.
Qed.

Section supports.
Context {R : Type}.
Implicit Types c : extended_dem R.

(** The support of a column: the rows of [H] hit an odd number of times and
    then those of [O], placed below. *)
Definition supports c : list (list nat) :=
  zip_with (λ h o, canon h ++ shift (num_rows_ (e_H c)) (canon o)) (cols_of (e_H c)) (obs_cols c).

(** Row ids and column counts stay within 32 bits. *)
Definition mergeable c : Prop :=
  (Z.of_nat (num_rows_ (e_H c) + num_rows_ (e_O c)) < 2 ^ 32)%Z ∧
  (Z.of_nat (length (e_error_rates c) + 1) < 2 ^ 32)%Z.

Lemma length_cols_of c : typed c → valid_chunk c → length (cols_of (e_H c)) = length (e_error_rates c).
Proof. intros Hty Hv. rewrite (v_cols _ _ _ _ _ (wf_view _ (ty_H c Hty))). apply Hv. Qed.

Lemma length_supports c : typed c → valid_chunk c → length (supports c) = length (e_error_rates c).
Proof.
  intros Hty Hv. unfold supports. rewrite length_zip_with, length_cols_of, length_obs_cols by done. lia.
Qed.

Lemma canonical_obs c n :
  typed c → valid_chunk c → n = length (e_error_rates c) →
  ∃ O, canonical_columns (e_O c) = Ok O ∧
       match O with [] => replicate n [] | _ => O end = canon <$> obs_cols c.
Proof.
  intros Hty Hv ->. destruct (ty_O c Hty) as [Hwf|E].
  - exists (canon <$> cols_of (e_O c)). split; [by apply canonical_columns_spec|].
    pose proof (v_cols _ _ _ _ _ (wf_view _ Hwf)) as Hl. unfold obs_cols.
    destruct (Nat.eqb_spec (num_cols_ (e_O c)) 0) as [E|E].
    + rewrite E in Hl. apply nil_length_inv in Hl as ->. cbn. by rewrite fmap_replicate.
    + destruct (cols_of (e_O c)); [done|]. done.
  - exists []. rewrite E. split; [done|]. unfold obs_cols. rewrite E. cbn. by rewrite fmap_replicate.
Qed.

Lemma lookup_supports c j h o :
  cols_of (e_H c) !! j = Some h → obs_cols c !! j = Some o →
  supports c !! j = Some (canon h ++ shift (num_rows_ (e_H c)) (canon o)).
Proof. intros Hh Ho. unfold supports. by rewrite lookup_zip_with, Hh, Ho. Qed.

Lemma column_supports_spec c :
  typed c → valid_chunk c → mergeable c →
  column_supports c = Ok (mk_supports (canon <$> cols_of (e_H c)) (canon <$> obs_cols c)
                            (concat (supports c)) (ptrs_of (supports c))).
Proof.
  intros Hty Hv [Hrow Hn]. unfold column_supports.
  rewrite (canonical_columns_spec (e_H c)) by apply Hty. cbn [mbind res_bind].
  unfold num_faults. rewrite wrap_small by lia. set (n := length (e_error_rates c)).
  destruct (canonical_obs c n Hty Hv eq_refl) as (O&->&HO). cbn [mbind res_bind]. rewrite HO.
  pose proof (length_cols_of c Hty Hv) as Lh. pose proof (length_obs_cols c Hty Hv) as Lo.
  pose proof (length_supports c Hty Hv) as Ls. fold n in Lh, Lo, Ls.
  match goal with |- for_u 0 n ?f ?s ≫= _ = _ =>
    destruct (for_u_inv 0 n f (λ j st, st = (concat (take j (supports c)), ptrs_of (take j (supports c)))) s)
      as (st&->&->) end.
  - lia.
  - done.
  - intros j st Hj ->. destruct (lookup_lt_is_Some_2 (cols_of (e_H c)) j) as [h Hh]; [lia|].
    destruct (lookup_lt_is_Some_2 (obs_cols c) j) as [o Ho]; [lia|].
    res_step; [by rewrite list_lookup_fmap, Hh|]. res_step; [by rewrite list_lookup_fmap, Ho|]. res_step.
    rewrite Nat.add_1_r, (take_S_r _ _ _ (lookup_supports c j h o Hh Ho)), ptrs_of_snoc, concat_app.
    cbn [concat]. rewrite app_nil_r, app_assoc.
    replace ((λ r, u32 (num_rows_ (e_H c) + r)) <$> canon o) with (shift (num_rows_ (e_H c)) (canon o)); [done|].
    apply list_fmap_ext. intros k r Hr. symmetry. apply wrap_small.
    pose proof (obs_bound c Hty Hv) as Hb. rewrite Forall_forall in Hb.
    specialize (Hb o (list_elem_of_lookup_2 _ _ _ Ho)). apply canon_bound in Hb. rewrite Forall_forall in Hb.
    specialize (Hb r (list_elem_of_lookup_2 _ _ _ Hr)). lia.
  - cbn [mbind res_bind fst snd]. by rewrite !take_ge by lia.
Qed.

Lemma column_support_spec c j k hc oc :
  supports c !! j = Some k →
  column_support (mk_supports hc oc (concat (supports c)) (ptrs_of (supports c))) j = Ok k.
Proof.
  intros Hk. pose proof (lookup_lt_Some _ _ _ Hk). unfold column_support. cbn [off_ flat_].
  rewrite !vget_ptrs_of by lia. cbn [mbind res_bind]. unfold vslice.
  rewrite decide_True by (split; [apply psum_mono; lia|apply psum_le]). by rewrite (slice_concat _ j k).
Qed.
End supports.

(** ** Grouping the columns *)

Section grouping.
Context {R : Type} `{RateOps R} (mode : prior_combine_mode).
Implicit Types c : extended_dem R.

Definition holding {A} (k : list nat) (l : list (list nat * A)) : list A :=
  snd <$> filter (λ e, e.1 = k) l.

Lemma holding_snoc {A} k k' (l : list (list nat * A)) (x : A) :
  holding k (l ++ [(k', x)]) = holding k l ++ (if decide (k' = k) then [x] else []).
Proof.
  unfold holding. rewrite list.filter_app, fmap_app. f_equal. rewrite filter_cons. cbn [fst].
  by case_decide.
Qed.

Lemma elem_of_holding {A} k (l : list (list nat * A)) x : x ∈ holding k l ↔ (k, x) ∈ l.
Proof.
  unfold holding. rewrite list_elem_of_fmap. split.
  - intros ([k' y]&->&[E ?]%list_elem_of_filter). simpl in *. by subst.
  - intros Hx. exists (k, x). split; [done|]. by apply list_elem_of_filter.
Qed.

(** The columns with their index and rate, by support. *)
Definition columns c : list (list nat * (nat * R)) :=
  zip (supports c) (zip (seq 0 (length (e_error_rates c))) (e_error_rates c)).

Definition group_of (l : list (nat * R)) : option (column_group R) :=
  match l with
  | [] => None
  | (i, p) :: l' => Some (mk_group i (foldl (merge_accumulate mode) (merge_init mode p) l'.*2) (length l))
  end.

Lemma group_of_snoc l g j p :
  group_of l = Some g →
  group_of (l ++ [(j, p)]) =
    Some (mk_group (representative g) (merge_accumulate mode (accumulator g) p) (members g + 1)).
Proof.
  destruct l as [|[i q] l]; [done|]. intros [= <-]. cbn [app group_of representative accumulator members].
  rewrite fmap_app, foldl_app. cbn [fmap list_fmap foldl snd length]. by rewrite length_app.
Qed.

Lemma length_support_columns c : typed c → valid_chunk c → length (columns c) = length (e_error_rates c).
Proof.
  intros Hty Hv. unfold columns. rewrite !length_zip_with, length_seq, length_supports by done. lia.
Qed.

Lemma lookup_columns c j k p :
  supports c !! j = Some k → e_error_rates c !! j = Some p → columns c !! j = Some (k, (j, p)).
Proof.
  intros Hk Hp. pose proof (lookup_lt_Some _ _ _ Hp). unfold columns.
  rewrite lookup_zip_with, Hk. cbn [mbind option_bind]. rewrite lookup_zip_with, lookup_seq_lt by done.
  cbn [mbind option_bind]. by rewrite Hp.
Qed.

Lemma columns_inv c k i p :
  (k, (i, p)) ∈ columns c → supports c !! i = Some k ∧ e_error_rates c !! i = Some p.
Proof.
  intros (j&Hj)%list_elem_of_lookup_1. unfold columns in Hj.
  apply lookup_zip_Some in Hj as [Hk Hj]. apply lookup_zip_Some in Hj as [[-> _]%lookup_seq Hp]. done.
Qed.

Lemma group_members l g : group_of l = Some g → members g = length l.
Proof. destruct l as [|[i p] l]; [done|]. by intros [= <-]. Qed.

Lemma length_holding {A} k (l : list (list nat * A)) : length (holding k l) ≤ length l.
Proof. unfold holding. rewrite length_fmap. apply length_filter. Qed.

Lemma group_columns c cols :
  typed c → valid_chunk c → mergeable c → column_supports c = Ok cols →
  returns (for_u 0 (length (e_error_rates c)) (merge_step c mode cols) [])
    (λ m, keys_sorted m ∧ ∀ k, map_find k m = group_of (holding k (columns c))).
Proof.
  intros Hty Hv Hm Hc. rewrite column_supports_spec in Hc by done. injection Hc as <-.
  pose proof (length_supports c Hty Hv) as Ls. pose proof (length_support_columns c Hty Hv) as Lc.
  eapply returns_mono; [apply (for_u_inv _ _ _ (λ j m, keys_sorted m ∧
    ∀ k, map_find k m = group_of (holding k (take j (columns c)))))|].
  - lia.
  - split; [constructor|done].
  - intros j m Hj [Hs Hf]. destruct (lookup_lt_is_Some_2 (supports c) j) as [k Hk]; [lia|].
    destruct (lookup_lt_is_Some_2 (e_error_rates c) j) as [p Hp]; [lia|].
    unfold merge_step. rewrite (column_support_spec c j k) by done. cbn [mbind res_bind].
    rewrite (vget_ok _ _ p) by done. cbn [mbind res_bind]. res_step.
    rewrite Nat.add_1_r, (take_S_r _ _ _ (lookup_columns c j k p Hk Hp)).
    rewrite Hf. destruct (group_of (holding k (take j (columns c)))) as [g|] eqn:Hg.
    + split; [by apply map_put_sorted|]. intros k'. rewrite map_find_put, holding_snoc.
      case_decide as E; [subst k'|by rewrite decide_False, app_nil_r by congruence].
      rewrite decide_True, (group_of_snoc _ g) by done. do 2 f_equal. apply wrap_small.
      apply group_members in Hg as ->. pose proof (length_holding k (take j (columns c))) as Hl.
      rewrite length_take in Hl. destruct Hm. lia.
    + split; [by apply map_put_sorted|]. intros k'. rewrite map_find_put, holding_snoc.
      case_decide as E; [subst k'|by rewrite decide_False, app_nil_r by congruence].
      rewrite decide_True by done. by destruct (holding k (take j (columns c))) as [|[??]].
  - intros m. by rewrite take_ge by lia.
Qed.
End grouping.

(** ** The merged model *)

Lemma vset_next {A B} (f : A → B) pre x z n :
  vset ((f <$> pre) ++ replicate (S n) z) (length pre) (f x) = Ok ((f <$> pre ++ [x]) ++ replicate n z).
Proof.
  rewrite vset_ok by (rewrite length_app, length_fmap, length_replicate; lia).
  rewrite insert_app_r_alt, length_fmap, Nat.sub_diag by (rewrite length_fmap; lia).
  cbn [replicate insert list_insert]. by rewrite fmap_app, <-app_assoc.
Qed.

Lemma nnz_perm cs cs' : cs ≡ₚ cs' → nnz cs = nnz cs'.
Proof.
  induction 1 as [|x l l' _ IH|x y l|]; [done| | |congruence]; rewrite !nnz_cons; lia.
Qed.

Lemma nnz_chosen cs idx :
  NoDup idx → Forall (λ i, i < length cs) idx → nnz ((λ i, cs !!! i) <$> idx) ≤ nnz cs.
Proof.
  intros Hnd Hb. assert (idx ⊆+ seq 0 (length cs)) as [rest Hp]%submseteq_Permutation.
  { apply NoDup_submseteq; [done|]. intros i Hi. rewrite Forall_forall in Hb. apply elem_of_seq.
    specialize (Hb i Hi). lia. }
  assert (((λ i, cs !!! i) <$> seq 0 (length cs)) = cs) as Hcs.
  { apply list_eq_same_length with (length cs); [done|by rewrite length_fmap, length_seq|].
    intros i x y Hi Hx Hy. rewrite list_lookup_fmap, lookup_seq_lt in Hx by done. simpl in Hx.
    rewrite (list_lookup_total_correct _ _ y) in Hx by done. congruence. }
  assert (nnz cs = nnz ((λ i, cs !!! i) <$> (idx ++ rest))) as ->; [|rewrite fmap_app, nnz_app; lia].
  apply nnz_perm. by rewrite <-Hp, Hcs.
Qed.

Section merged.
Context {R : Type} `{RateOps R} (mode : prior_combine_mode).
Implicit Types c d : extended_dem R.
Implicit Types m : list (list nat * column_group R).

Definition group_H c (e : list nat * column_group R) : list nat := canon (cols_of (e_H c) !!! representative e.2).
Definition group_O c (e : list nat * column_group R) : list nat := canon (obs_cols c !!! representative e.2).
Definition group_rate c (e : list nat * column_group R) : R :=
  if members e.2 =? 1 then default rate_zero (e_error_rates c !! representative e.2)
  else merge_prior mode (accumulator e.2).

Definition merged c m : extended_dem R :=
  mk_extended (of_groups csc (num_rows_ (e_H c)) (length m) (group_H c <$> m))
    (of_groups csc (num_rows_ (e_O c)) (length m) (group_O c <$> m))
    (group_rate c <$> m) (e_seams c) (e_tags c).

(** What the loop has collected. *)
Record grouped c m : Prop := {
  gr_sorted : keys_sorted m;
  gr_find : ∀ k, map_find k m = group_of mode (holding k (columns c))
}.

Lemma grouped_rep c m k g :
  grouped c m → (k, g) ∈ m →
  ∃ p rest, holding k (columns c) = (representative g, p) :: rest ∧
    supports c !! representative g = Some k ∧ e_error_rates c !! representative g = Some p.
Proof.
  intros [Hs Hf] Hin. apply (map_find_elem m k g Hs) in Hin. rewrite Hf in Hin.
  destruct (holding k (columns c)) as [|[i p] rest] eqn:E; [done|]. injection Hin as <-. cbn [representative].
  exists p, rest. split; [done|]. apply columns_inv, elem_of_holding. rewrite E. left.
Qed.

Lemma grouped_key c m k :
  typed c → valid_chunk c → grouped c m → k ∈ m.*1 ↔ k ∈ supports c.
Proof.
  intros Hty Hv Hg. split.
  - intros ([k' g]&->&Hin)%list_elem_of_fmap. destruct (grouped_rep c m k' g Hg Hin) as (p&l&_&Hk&_).
    by eapply list_elem_of_lookup_2.
  - intros (j&Hj)%list_elem_of_lookup_1. pose proof (lookup_lt_Some _ _ _ Hj) as Hlt.
    rewrite length_supports in Hlt by done. destruct (lookup_lt_is_Some_2 _ _ Hlt) as [p Hp].
    apply map_find_key; [apply Hg|]. rewrite (gr_find c m Hg).
    assert ((j, p) ∈ holding k (columns c)) as Hin.
    { by eapply elem_of_holding, list_elem_of_lookup_2, lookup_columns. }
    destruct (holding k (columns c)) as [|[i q] l]; [by apply not_elem_of_nil in Hin|]. done.
Qed.

Lemma reps_ok c m :
  typed c → valid_chunk c → grouped c m →
  NoDup ((λ e, representative e.2) <$> m) ∧
  Forall (λ i, i < length (e_error_rates c)) ((λ e, representative e.2) <$> m).
Proof.
  intros Hty Hv Hg. split.
  - apply (NoDup_fmap_1 (λ i, supports c !! i)). rewrite <-list_fmap_compose.
    assert (((λ i, supports c !! i) ∘ (λ e : list nat * column_group R, representative e.2)) <$> m = Some <$> m.*1) as ->.
    { rewrite <-list_fmap_compose. apply list_fmap_ext. intros i [k g] Hi%list_elem_of_lookup_2.
      by destruct (grouped_rep c m k g Hg Hi) as (p&l&_&Hk&_). }
    apply NoDup_fmap_2; [apply _|]. apply lex_sorted_nodup, Hg.
  - apply Forall_fmap, Forall_forall. intros [k g] Hin.
    destruct (grouped_rep c m k g Hg Hin) as (p&l&_&_&Hp). by apply lookup_lt_Some in Hp.
Qed.

Lemma grouped_length c m : typed c → valid_chunk c → grouped c m → length m ≤ length (e_error_rates c).
Proof.
  intros Hty Hv Hg. destruct (reps_ok c m Hty Hv Hg) as [Hnd Hb].
  assert (((λ e, representative e.2) <$> m) ⊆+ seq 0 (length (e_error_rates c))) as Hsub%submseteq_length.
  { apply NoDup_submseteq; [done|]. intros i Hi. rewrite Forall_forall in Hb. apply elem_of_seq.
    specialize (Hb i Hi). lia. }
  by rewrite length_fmap, length_seq in Hsub.
Qed.

(** Columns chosen by the representatives fit when the originals do. *)
Lemma chosen_ok c m r cs :
  typed c → valid_chunk c → mergeable c → grouped c m →
  length cs = length (e_error_rates c) → Forall (Forall (λ i, i < r)) cs →
  (Z.of_nat r < 2 ^ 32)%Z → (Z.of_nat (nnz cs) < 2 ^ 32)%Z →
  cols_ok r (length m) ((λ e : list nat * column_group R, canon (cs !!! representative e.2)) <$> m).
Proof.
  intros Hty Hv [_ Hn] Hg Hl Hb Hr Hz. destruct (reps_ok c m Hty Hv Hg) as [Hnd Hi]. rewrite <-Hl in Hi.
  pose proof (grouped_length c m Hty Hv Hg).
  split; [apply length_fmap| |done|lia|].
  - apply Forall_fmap, Forall_forall. intros e He. apply canon_bound. rewrite Forall_forall in Hb. rewrite Forall_forall in Hi.
    apply Hb, list_elem_of_lookup_2 with (representative e.2), list_lookup_lookup_total_lt, Hi, list_elem_of_fmap.
    by exists e.
  - pose proof (nnz_chosen cs _ Hnd Hi) as Hle. rewrite <-list_fmap_compose in Hle.
    pose proof (concat_canon_le (((λ i, cs !!! i) ∘ (λ e : list nat * column_group R, representative e.2)) <$> m)) as Hc.
    rewrite <-list_fmap_compose in Hc. unfold compose, nnz in *. lia.
Qed.

Lemma merged_cols c m :
  typed c → valid_chunk c → mergeable c → grouped c m →
  cols_ok (num_rows_ (e_H c)) (length m) (group_H c <$> m) ∧
  cols_ok (num_rows_ (e_O c)) (length m) (group_O c <$> m).
Proof.
  intros Hty Hv Hm Hg. pose proof Hm as [Hrow _]. pose proof (wf_view _ (ty_H c Hty)) as Vh.
  split; apply (chosen_ok c m); try done; try lia.
  - by apply length_cols_of.
  - apply Vh.
  - apply Vh.
  - by apply length_obs_cols.
  - by apply obs_bound.
  - unfold obs_cols. destruct (Nat.eqb_spec (num_cols_ (e_O c)) 0) as [E|E]; [by rewrite nnz_empty|].
    destruct (valid_obs c Hty Hv E) as [Hwf _]. apply (wf_view _ Hwf).
Qed.

Lemma merge_returns c m :
  typed c → valid_chunk c → mergeable c → length (e_error_rates c) ≠ 0 →
  for_u 0 (length (e_error_rates c)) (merge_step c mode
    (mk_supports (canon <$> cols_of (e_H c)) (canon <$> obs_cols c) (concat (supports c)) (ptrs_of (supports c)))) []
    = Ok m →
  grouped c m → dem_merge_duplicate_columns c mode = Ok (merged c m).
Proof.
  intros Hty Hv Hm Hn0 Hloop Hg. unfold dem_merge_duplicate_columns.
  rewrite (decides_returns _ _ _ (validate_chunk_decides c _ Hty) Hv). cbn [mbind res_bind].
  unfold num_faults. rewrite wrap_small by apply Hty.
  rewrite (proj2 (Nat.eqb_neq _ _) Hn0), column_supports_spec by done. cbn [mbind res_bind].
  rewrite Hloop. cbn [mbind res_bind].
  pose proof (grouped_length c m Hty Hv Hg) as Hlen. pose proof (ty_rates c Hty). rewrite wrap_small by lia.
  match goal with |- foldM ?f m ?s ≫= _ = _ =>
    destruct (foldM_inv f (λ pre st, st = ((group_H c <$> pre) ++ replicate (length m - length pre) [],
       (group_O c <$> pre) ++ replicate (length m - length pre) [], group_rate c <$> pre, length pre)) m s)
      as (st&->&->) end.
  - cbn [length fmap list_fmap app]. by rewrite Nat.sub_0_r.
  - intros pre [k g] post st Hsp ->.
    destruct (grouped_rep c m k g Hg) as (p&l&_&Hk&Hp); [rewrite Hsp; set_solver|].
    pose proof (lookup_lt_Some _ _ _ Hp) as Hlt.
    replace (length m - length pre) with (S (length m - length (pre ++ [(k, g)]))).
    2: { rewrite Hsp, !length_app. cbn [length]. lia. }
    cbn [snd H_cols O_cols]. res_step.
    { rewrite list_lookup_fmap, list_lookup_lookup_total_lt; [done|]. by rewrite length_cols_of. }
    change (canon (cols_of (e_H c) !!! representative g)) with (group_H c (k, g)).
    rewrite vset_next. cbn [mbind res_bind]. res_step.
    { rewrite list_lookup_fmap, list_lookup_lookup_total_lt; [done|]. by rewrite length_obs_cols. }
    change (canon (obs_cols c !!! representative g)) with (group_O c (k, g)).
    rewrite vset_next. cbn [mbind res_bind]. eapply (returns_bind _ _ (eq (group_rate c (k, g)))).
    + unfold group_rate. cbn [snd]. destruct (members g =? 1); [|by apply returns_ok].
      rewrite Hp. by apply (returns_vget _ _ p).
    + intros fp <-. apply returns_ok. f_equal; [f_equal; by rewrite fmap_app|by rewrite length_app].
  - cbn [mbind res_bind]. rewrite Nat.sub_diag. cbn [replicate]. rewrite !app_nil_r.
    destruct (merged_cols c m Hty Hv Hm Hg) as [Hh Ho]. unfold e_num_observables.
    rewrite !from_cols by done. done.
Qed.
End merged.

(** ** What merging returns *)

(** The rates of the columns with support [k], in column order. *)
Definition rates_with {R} (c : extended_dem R) (k : list nat) : list R :=
  holding k (zip (supports c) (e_error_rates c)).

(** The rate of one column that stands for columns with rates [l]. *)
Definition combined {R} `{RateOps R} (mode : prior_combine_mode) (l : list R) : R :=
  match l with
  | [] => rate_zero
  | [p] => p
  | p :: l => merge_prior mode (foldl (merge_accumulate mode) (merge_init mode p) l)
  end.

Record merges {R} `{RateOps R} (mode : prior_combine_mode) (c d : extended_dem R) : Prop := {
  mg_rows : num_rows_ (e_H d) = num_rows_ (e_H c);
  mg_obs : num_rows_ (e_O d) = num_rows_ (e_O c);
  mg_seams : e_seams d = e_seams c;
  mg_tags : e_tags d = e_tags c;
  mg_ordered : StronglySorted lex_lt (supports d);
  mg_supports : ∀ k, k ∈ supports d ↔ k ∈ supports c;
  mg_rates : zip (supports d) (e_error_rates d) = (λ k, (k, combined mode (rates_with c k))) <$> supports d
}.

Section results.
Context {R : Type} `{RateOps R} (mode : prior_combine_mode).
Implicit Types c d : extended_dem R.
Implicit Types m : list (list nat * column_group R).

Lemma holding_zip k (l : list (list nat)) (a : list nat) (b : list R) :
  length a = length b → (holding k (zip l (zip a b))).*2 = holding k (zip l b).
Proof.
  revert a b. induction l as [|x l IH]; intros [|i a] [|p b] Hl; try done.
  unfold holding in *. cbn [zip zip_with]. rewrite !filter_cons. cbn [fst]. injection Hl as Hl.
  case_decide; cbn [fmap list_fmap snd]; [f_equal|]; by apply IH.
Qed.

Lemma holding_rates c k : (holding k (columns c)).*2 = rates_with c k.
Proof. apply holding_zip. by rewrite length_seq. Qed.

Lemma supports_merged c m :
  typed c → valid_chunk c → mergeable c → grouped mode c m → supports (merged mode c m) = m.*1.
Proof.
  intros Hty Hv Hm Hg. destruct (merged_cols mode c m Hty Hv Hm Hg) as [Hh Ho]. unfold supports.
  assert (obs_cols (merged mode c m) = group_O c <$> m) as ->.
  { unfold obs_cols. cbn [merged e_O num_cols_ of_groups e_error_rates]. rewrite length_fmap.
    destruct (Nat.eqb_spec (length m) 0) as [E|_]; [|by apply cols_of_groups].
    by apply nil_length_inv in E as ->. }
  cbn [merged e_H num_rows_ of_groups]. rewrite (cols_of_groups _ _ _ Hh).
  rewrite zip_with_fmap_l, zip_with_fmap_r, zip_with_diag.
  apply list_fmap_ext. intros i [k g] Hi%list_elem_of_lookup_2.
  destruct (grouped_rep mode c m k g Hg Hi) as (p&l&_&Hk&Hp%lookup_lt_Some).
  unfold group_H, group_O. cbn [snd fst]. rewrite !canon_idemp.
  enough (Some (canon (cols_of (e_H c) !!! representative g) ++
    shift (num_rows_ (e_H c)) (canon (obs_cols c !!! representative g))) = Some k) by congruence.
  rewrite <-Hk. symmetry. apply lookup_supports; apply list_lookup_lookup_total_lt;
    [by rewrite length_cols_of|by rewrite length_obs_cols].
Qed.

Lemma group_rate_combined c m k g :
  grouped mode c m → (k, g) ∈ m → group_rate mode c (k, g) = combined mode (rates_with c k).
Proof.
  intros Hg Hin. destruct (grouped_rep mode c m k g Hg Hin) as (p&l&Hh&_&Hp).
  rewrite <-holding_rates, Hh. apply (map_find_elem m k g (gr_sorted _ _ _ Hg)) in Hin.
  rewrite (gr_find _ _ _ Hg), Hh in Hin. injection Hin as Hgr. unfold group_rate. cbn [snd].
  rewrite Hp, <-Hgr. cbn [members accumulator default fmap list_fmap combined from_option].
  by destruct l as [|[i q] l].
Qed.

Lemma merged_merges c m :
  typed c → valid_chunk c → mergeable c → grouped mode c m → merges mode c (merged mode c m).
Proof.
  intros Hty Hv Hm Hg. pose proof (supports_merged c m Hty Hv Hm Hg) as Hs.
  split; [done..|rewrite Hs; apply Hg| |]; rewrite Hs.
  - intros k. by apply (grouped_key mode).
  - cbn [merged e_error_rates]. rewrite zip_with_fmap_l, zip_with_fmap_r, zip_with_diag, <-list_fmap_compose.
    apply list_fmap_ext. intros i [k g] Hi%list_elem_of_lookup_2. simpl. f_equal.
    by eapply group_rate_combined.
Qed.

Lemma merged_valid c m :
  typed c → valid_chunk c → mergeable c → grouped mode c m →
  typed (merged mode c m) ∧ valid_chunk (merged mode c m) ∧ mergeable (merged mode c m).
Proof.
  intros Hty Hv Hm Hg. destruct (merged_cols mode c m Hty Hv Hm Hg) as [Hh Ho].
  pose proof (grouped_length mode c m Hty Hv Hg) as Hl. destruct Hty as [_ _ Hr Hi He], Hv as [_ _ Hra Ha Ht].
  destruct Hm as [Hm1 Hm2]. split_and!; split; cbn [merged e_H e_O e_error_rates e_seams e_tags num_rows_ num_cols_ of_groups];
    rewrite ?length_fmap; try done; try lia.
  - eexists. by apply wf_cols.
  - left. eexists. by apply wf_cols.
Qed.

Lemma empty_merges c : typed c → valid_chunk c → length (e_error_rates c) = 0 → merges mode c c.
Proof.
  intros Hty Hv Hn. pose proof (length_supports c Hty Hv) as Hl. rewrite Hn in Hl.
  apply nil_length_inv in Hl. split; try done; rewrite Hl; [constructor|done].
Qed.

Lemma merge_spec c :
  typed c → valid_chunk c → mergeable c →
  returns (dem_merge_duplicate_columns c mode) (λ d,
    typed d ∧ valid_chunk d ∧ mergeable d ∧ merges mode c d).
Proof.
  intros Hty Hv Hm. destruct (decide (length (e_error_rates c) = 0)) as [Hn|Hn].
  - unfold dem_merge_duplicate_columns. rewrite (decides_returns _ _ _ (validate_chunk_decides c _ Hty) Hv).
    cbn [mbind res_bind]. unfold num_faults. rewrite wrap_small, Hn by apply Hty. apply returns_ok.
    by pose proof (empty_merges c Hty Hv Hn).
  - destruct (group_columns mode c _ Hty Hv Hm (column_supports_spec c Hty Hv Hm)) as (m&Hloop&Hs&Hf).
    assert (grouped mode c m) as Hg by done.
    rewrite (merge_returns mode c m Hty Hv Hm Hn Hloop Hg). apply returns_ok.
    destruct (merged_valid c m Hty Hv Hm Hg) as (?&?&?). by pose proof (merged_merges c m Hty Hv Hm Hg).
Qed.

(** ** Uniqueness *)

Lemma unique_from_spec sups hc oc j seen :
  j ≤ length sups → NoDup (take j sups) → (∀ k, is_Some (map_find k seen) ↔ k ∈ take j sups) →
  unique_from (mk_supports hc oc (concat sups) (ptrs_of sups)) (seq j (length sups - j)) seen = Ok (bool_decide (NoDup sups)).
Proof.
  remember (length sups - j) as n eqn:Hn. revert j seen Hn.
  induction n as [|n IH]; intros j seen Hn Hj Hnd Hseen.
  - rewrite take_ge in Hnd by lia. cbn. by rewrite bool_decide_eq_true_2.
  - destruct (lookup_lt_is_Some_2 sups j) as [k Hk]; [lia|]. cbn [seq unique_from].
    unfold column_support. cbn [off_ flat_]. rewrite !vget_ptrs_of by lia. cbn [mbind res_bind]. unfold vslice.
    rewrite decide_True by (split; [apply psum_mono; lia|apply psum_le]). rewrite (slice_concat _ j k) by done.
    cbn [mbind res_bind]. pose proof (take_S_r _ _ _ Hk) as Ht. destruct (map_find k seen) as [i|] eqn:E.
    + rewrite bool_decide_eq_false_2; [done|]. intros Hall.
      assert (k ∈ take j sups) as Hin by (apply Hseen; by rewrite E).
      rewrite <-(take_drop (S j) sups), Ht in Hall. apply NoDup_app in Hall as [Hall _].
      apply NoDup_app in Hall as (_&Hdis&_). by apply (Hdis k Hin), list_elem_of_singleton.
    + apply IH; [lia|lia| |].
      * rewrite Ht. apply NoDup_app. split_and!; [done| |apply NoDup_singleton].
        intros x Hx ->%list_elem_of_singleton. apply Hseen in Hx. rewrite E in Hx. by destruct Hx.
      * intros k'. rewrite Ht, map_find_put, elem_of_app, list_elem_of_singleton, <-Hseen.
        case_decide; [|naive_solver]. split; [by right|done].
Qed.

Lemma are_unique_spec c :
  typed c → valid_chunk c → mergeable c → are_dem_columns_unique c = Ok (bool_decide (NoDup (supports c))).
Proof.
  intros Hty Hv Hm. unfold are_dem_columns_unique.
  rewrite (decides_returns _ _ _ (validate_chunk_decides c _ Hty) Hv). cbn [mbind res_bind].
  rewrite column_supports_spec by done. cbn [mbind res_bind]. unfold num_faults. rewrite wrap_small by apply Hty.
  rewrite <-(length_supports c Hty Hv), <-(Nat.sub_0_r (length (supports c))).
  apply unique_from_spec; [lia|constructor|]. intros k. cbn [map_find take]. split; [by intros []|].
  by intros ?%not_elem_of_nil.
Qed.
End results.

(** ** Unique supports *)

Lemma holding_absent {A} k (l : list (list nat)) (b : list A) : k ∉ l → holding k (zip l b) = [].
Proof.
  intros Hk. destruct (holding k (zip l b)) as [|x xs] eqn:E; [done|].
  exfalso. apply Hk. assert (x ∈ holding k (zip l b)) as Hx by (rewrite E; left).
  apply elem_of_holding in Hx. by apply elem_of_zip_l in Hx.
Qed.

Lemma holding_unique {A} k (l : list (list nat)) (b : list A) i p :
  NoDup l → l !! i = Some k → b !! i = Some p → holding k (zip l b) = [p].
Proof.
  intros Hnd. revert b i. induction Hnd as [|x l Hx _ IH]; intros [|q b] [|i] Hk Hp; try done.
  - injection Hk as ->. injection Hp as ->. unfold holding. cbn [zip zip_with]. rewrite filter_cons. cbn [fst].
    rewrite decide_True by done. cbn [fmap list_fmap snd]. f_equal. by apply holding_absent.
  - unfold holding. cbn [zip zip_with]. rewrite filter_cons. cbn [fst].
    rewrite decide_False by (intros ->; apply Hx; by eapply list_elem_of_lookup_2). by eapply IH.
Qed.

Lemma lex_sorted_ext l l' :
  StronglySorted lex_lt l → StronglySorted lex_lt l' → (∀ k, k ∈ l ↔ k ∈ l') → l = l'.
Proof.
  intros Hl Hl' Hk. assert (AntiSymm (=) lex_lt).
  { intros a b Hab Hba. exfalso. by eapply lex_lt_irrefl, lex_trans. }
  apply (StronglySorted_unique lex_lt); [done|done|]. by apply NoDup_Permutation; [apply lex_sorted_nodup..|].
Qed.

Section again.
Context {R : Type} `{RateOps R} (mode : prior_combine_mode).
Implicit Types c d : extended_dem R.

Lemma rates_with_unique d i k p :
  NoDup (supports d) → supports d !! i = Some k → e_error_rates d !! i = Some p → rates_with d k = [p].
Proof. intros. by eapply holding_unique. Qed.

Lemma merges_rates c d k :
  typed d → valid_chunk d → merges mode c d → k ∈ supports c → rates_with d k = [combined mode (rates_with c k)].
Proof.
  intros Hty Hv Hm Hk. apply (mg_supports _ _ _ Hm) in Hk as [i Hi]%list_elem_of_lookup_1.
  pose proof (lookup_lt_Some _ _ _ Hi) as Hlt. rewrite length_supports in Hlt by done.
  destruct (lookup_lt_is_Some_2 _ _ Hlt) as [p Hp].
  rewrite (rates_with_unique d i k p) by (done || apply lex_sorted_nodup, Hm).
  assert (zip (supports d) (e_error_rates d) !! i = Some (k, p)) as Hz by (by apply lookup_zip_Some).
  rewrite (mg_rates _ _ _ Hm), list_lookup_fmap, Hi in Hz. by injection Hz as ->.
Qed.

Lemma chosen_self (m : list (list nat * column_group R)) (ls : list (list nat)) :
  length ls = length m → canon <$> ls = ls → (∀ i e, m !! i = Some e → representative e.2 = i) →
  (λ e : list nat * column_group R, canon (ls !!! representative e.2)) <$> m = ls.
Proof.
  intros Hl Hc Hrep. transitivity (canon <$> ls); [|done]. apply list_eq_same_length with (length m); [by rewrite length_fmap|by rewrite length_fmap|].
  intros i x y Hi Hx Hy. rewrite list_lookup_fmap in Hx. rewrite list_lookup_fmap in Hy.
  destruct (m !! i) as [e|] eqn:Ee; [|done].
  destruct (ls !! i) as [z|] eqn:Ez; [|done]. cbn in Hx, Hy. rewrite (Hrep i e Ee) in Hx. rewrite (list_lookup_total_correct _ _ z) in Hx by done. congruence.
Qed.

(** Merging a model whose columns are canonical, unique and in order changes
    nothing. *)
Lemma merge_fixed d (cs os : list (list nat)) r k :
  typed d → valid_chunk d → mergeable d → length (e_error_rates d) ≠ 0 →
  StronglySorted lex_lt (supports d) →
  e_H d = of_groups csc r (length cs) cs → e_O d = of_groups csc k (length os) os →
  cols_ok r (length cs) cs → cols_ok k (length os) os → canon <$> cs = cs → canon <$> os = os →
  obs_cols d = os → dem_merge_duplicate_columns d mode = Ok d.
Proof.
  intros Hty Hv Hm Hn Hs EH EO Hcs Hos Cc Co Eo.
  destruct (group_columns mode d _ Hty Hv Hm (column_supports_spec d Hty Hv Hm)) as (m&Hloop&Hks&Hf).
  assert (grouped mode d m) as Hg by done. rewrite (merge_returns mode d m Hty Hv Hm Hn Hloop Hg). f_equal.
  assert (m.*1 = supports d) as Hk.
  { apply lex_sorted_ext; [done|done|]. intros x. by apply (grouped_key mode). }
  pose proof (length_supports d Hty Hv) as Ls. assert (length m = length (supports d)) as Lm by (by rewrite <-Hk, length_fmap).
  assert (∀ i e, m !! i = Some e → representative e.2 = i ∧ supports d !! i = Some e.1) as Hrep.
  { intros i [x g] Hi. assert (supports d !! i = Some x) as Hx by (by rewrite <-Hk, list_lookup_fmap, Hi).
    split; [|done]. destruct (grouped_rep mode d m x g Hg (list_elem_of_lookup_2 _ _ _ Hi)) as (p&l&_&Hr&_).
    apply (NoDup_lookup (supports d) _ _ x); [by apply lex_sorted_nodup|done|done]. }
  assert (cols_of (e_H d) = cs) as Ec by (rewrite EH; by apply cols_of_groups).
  pose proof (length_cols_of d Hty Hv) as Lc. pose proof (length_obs_cols d Hty Hv) as Lo. rewrite Ec in Lc. rewrite Eo in Lo.
  assert (group_H d <$> m = cs) as E1 by (unfold group_H; rewrite Ec; apply chosen_self; [lia|done|intros i e He; apply (Hrep i e He)]).
  assert (group_O d <$> m = os) as E2 by (unfold group_O; rewrite Eo; apply chosen_self; [lia|done|intros i e He; apply (Hrep i e He)]).
  assert (group_rate mode d <$> m = e_error_rates d) as E3.
  { apply list_eq_same_length with (length m); [lia|by rewrite length_fmap|]. intros i p q Hi Hp Hq.
    rewrite list_lookup_fmap in Hp. destruct (m !! i) as [[x g]|] eqn:Ee; [|done]. cbn [fmap option_fmap option_map] in Hp.
    rewrite (group_rate_combined mode d m) in Hp by (done || by eapply list_elem_of_lookup_2).
    destruct (Hrep i _ Ee) as [_ Hx]. rewrite (rates_with_unique d i x q) in Hp; [|by apply lex_sorted_nodup|done|done].
    cbn [combined] in Hp. congruence. }
  transitivity (mk_extended (e_H d) (e_O d) (e_error_rates d) (e_seams d) (e_tags d)); [|by destruct d].
  unfold merged. rewrite E1, E2, E3. f_equal.
  - rewrite EH. cbn [num_rows_ of_groups]. f_equal. lia.
  - rewrite EO. cbn [num_rows_ of_groups]. f_equal. lia.
Qed.
End again.

Lemma canon_all (A : Type) (f : A → list nat) (l : list A) : canon <$> ((λ x, canon (f x)) <$> l) = (λ x, canon (f x)) <$> l.
Proof. rewrite <-list_fmap_compose. apply list_fmap_ext. intros. apply canon_idemp. Qed.

Lemma merge_again {R} `{RateOps R} (mode : prior_combine_mode) (c : extended_dem R) :
  typed c → valid_chunk c → mergeable c →
  returns (dem_merge_duplicate_columns c mode) (λ d, dem_merge_duplicate_columns d mode = Ok d).
Proof.
  intros Hty Hv Hm. destruct (decide (length (e_error_rates c) = 0)) as [Hn|Hn].
  - assert (dem_merge_duplicate_columns c mode = Ok c) as Hc; [|by rewrite Hc; apply returns_ok].
    unfold dem_merge_duplicate_columns. rewrite (decides_returns _ _ _ (validate_chunk_decides c _ Hty) Hv).
    cbn [mbind res_bind]. unfold num_faults. by rewrite wrap_small, Hn by apply Hty.
  - destruct (group_columns mode c _ Hty Hv Hm (column_supports_spec c Hty Hv Hm)) as (m&Hloop&Hs&Hf).
    assert (grouped mode c m) as Hg by done.
    rewrite (merge_returns mode c m Hty Hv Hm Hn Hloop Hg). apply returns_ok.
    destruct (merged_valid mode c m Hty Hv Hm Hg) as (Ht&Hv'&Hm'). destruct (merged_cols mode c m Hty Hv Hm Hg) as [Hh Ho].
    assert (length m ≠ 0) as Hm0.
    { intros E%nil_length_inv. destruct (lookup_lt_is_Some_2 (supports c) 0) as [k Hk].
      { rewrite length_supports by done. lia. }
      apply list_elem_of_lookup_2, (grouped_key mode c m k Hty Hv Hg) in Hk. rewrite E in Hk. by apply not_elem_of_nil in Hk. }
    apply (merge_fixed mode _ (group_H c <$> m) (group_O c <$> m) (num_rows_ (e_H c)) (num_rows_ (e_O c)));
      [done|done|done| | | | | | |apply canon_all|apply canon_all|];
      cbn [merged e_error_rates e_H e_O]; rewrite ?length_fmap; try done.
    + rewrite supports_merged by done. apply Hg.
    + unfold obs_cols. cbn [e_O num_cols_ of_groups merged]. rewrite (proj2 (Nat.eqb_neq _ _) Hm0).
      by apply cols_of_groups.
Qed.

(** C27. [dem_merge_duplicate_columns] accepts every consistent chunk and keeps
    its rows, observables, seams and tags; the supports of the result are those
    of the input, each once, in lexicographic order, and the rate of a column
    combines, by the chosen rule, the rates of all the columns with its
    support.  The result passes [are_dem_columns_unique], and merging it again
    changes nothing. *)
Theorem merge_duplicate_columns_correct {R} `{RateOps R} (mode : prior_combine_mode) (c : extended_dem R) :
  typed c → valid_chunk c → mergeable c →
  returns (dem_merge_duplicate_columns c mode) (λ d,
    valid_chunk d ∧ merges mode c d ∧ are_dem_columns_unique d = Ok true ∧
    dem_merge_duplicate_columns d mode = Ok d).
Proof.
  intros Hty Hv Hm. destruct (merge_spec mode c Hty Hv Hm) as (d&Hd&Hty'&Hv'&Hm'&Hmg).
  destruct (merge_again mode c Hty Hv Hm) as (d'&Hd'&Hag). rewrite Hd in Hd'. injection Hd' as <-.
  rewrite Hd. apply returns_ok. split_and!; [done|done| |done].
  rewrite are_unique_spec, bool_decide_eq_true_2 by (done || apply lex_sorted_nodup, Hmg). done.
Qed.

(** ** The combined rate as a probability *)

Lemma bias_foldl p l : (foldl (merge_accumulate or_combine) (bias p) l == bias p * foldr Qmult 1 (bias <$> l))%Q.
Proof.
  generalize (bias p). induction l as [|q l IH]; intros a; [simpl; ring|].
  cbn [foldl fmap list_fmap foldr]. rewrite IH. unfold merge_accumulate, rate_bias, bias. simpl. ring.
Qed.

Lemma bias_inj a b : (bias a == bias b → a == b)%Q.
Proof. unfold bias. intros. lra. Qed.

Lemma combined_xor (l : list Q) : (combined or_combine l == rate_xor_all l)%Q.
Proof.
  destruct l as [|p [|q l]]; [done| |].
  - cbn [combined]. unfold rate_xor_all, rate_xor. simpl. ring.
  - unfold combined. set (l' := q :: l).
    assert (bias (merge_prior or_combine (foldl (merge_accumulate or_combine) (merge_init or_combine p) l')) ==
      bias (rate_xor_all (p :: l')))%Q as Hb.
    { rewrite bias_xor_all. cbn [fmap list_fmap foldr].
      rewrite <-(bias_foldl p l'). change (merge_init or_combine p) with (bias p). unfold bias at 1.
      generalize (foldl (merge_accumulate or_combine) (bias p) l'). intros x. unfold merge_prior. simpl. ring. }
    by apply bias_inj.
Qed.

Lemma xor_all_range (l : list Q) : Forall (λ p, 0 <= p <= 1)%Q l → (0 <= rate_xor_all l <= 1)%Q.
Proof.
  unfold rate_xor_all. assert (0 <= rate_zero <= 1)%Q as H0 by done. revert H0. generalize (rate_zero (R := Q)).
  induction l as [|p l IH]; intros a Ha; [done|]. intros [Hp Hl]%Forall_cons. cbn [foldl].
  apply IH; [|done]. by apply rate_xor_range.
Qed.

Lemma sum_nonneg a (l : list Q) :
  (0 <= a)%Q → Forall (λ p, 0 <= p <= 1)%Q l → (0 <= foldl (merge_accumulate sum_combine) a l)%Q.
Proof.
  revert a. induction l as [|p l IH]; intros a Ha; [done|]. intros [Hp Hl]%Forall_cons. cbn [foldl].
  apply IH; [|done]. cbn [merge_accumulate rate_add Q_rates]. lra.
Qed.

Lemma combined_range mode (l : list Q) : Forall (λ p, 0 <= p <= 1)%Q l → (0 <= combined mode l <= 1)%Q.
Proof.
  intros Hl. destruct mode; [rewrite combined_xor; by apply xor_all_range|].
  destruct l as [|p [|q l]]; [done|by apply Forall_cons in Hl as [? _]|].
  apply Forall_cons in Hl as [Hp Hl]. pose proof (sum_nonneg p (q :: l) (proj1 Hp) Hl) as Hs.
  cbn [combined merge_init merge_prior]. revert Hs. generalize (foldl (merge_accumulate sum_combine) p (q :: l)).
  intros x Hx. unfold rate_min. cbn [rate_ltb Q_rates rate_one]. destruct (Qle_bool 1 x) eqn:E; [done|].
  cbn [negb]. split; [done|]. apply Qlt_le_weak, Qnot_le_lt. rewrite <-Qle_bool_iff. by rewrite E.
Qed.

(** C28. Over the rationals, merging with the XOR rule keeps the law of the
    errors: for every support, the probability that an odd number of the
    columns with that support occur is the same before and after.  Rates that
    are probabilities stay probabilities under both rules. *)
Theorem merge_keeps_distribution (mode : prior_combine_mode) (c : extended_dem Q) :
  typed c → valid_chunk c → mergeable c → Forall (λ p, 0 <= p <= 1)%Q (e_error_rates c) →
  returns (dem_merge_duplicate_columns c mode) (λ d,
    Forall (λ p, 0 <= p <= 1)%Q (e_error_rates d) ∧
    (mode = or_combine → ∀ k, (rate_xor_all (rates_with d k) == rate_xor_all (rates_with c k))%Q)).
Proof.
  intros Hty Hv Hm Hp. destruct (merge_spec mode c Hty Hv Hm) as (d&->&Hty'&Hv'&Hm'&Hmg). apply returns_ok. split.
  - apply Forall_forall. intros p [i Hi]%list_elem_of_lookup_1. pose proof (lookup_lt_Some _ _ _ Hi) as Hlt.
    rewrite <-length_supports in Hlt by done. destruct (lookup_lt_is_Some_2 _ _ Hlt) as [k Hk].
    assert (zip (supports d) (e_error_rates d) !! i = Some (k, p)) as Hz by (by apply lookup_zip_Some).
    rewrite (mg_rates _ _ _ Hmg), list_lookup_fmap, Hk in Hz. injection Hz as <-. apply combined_range.
    apply Forall_forall. intros q Hq%elem_of_holding. rewrite Forall_forall in Hp. apply Hp.
    by apply elem_of_zip_r in Hq.
  - intros -> k. destruct (decide (k ∈ supports c)) as [Hk|Hk].
    + rewrite (merges_rates or_combine c d k) by done.
      transitivity (combined or_combine (rates_with c k)); [|apply combined_xor].
      generalize (combined or_combine (rates_with c k)). intros x. unfold rate_xor_all, rate_xor. simpl. ring.
    + assert (k ∉ supports d) as Hk' by (by rewrite (mg_supports _ _ _ Hmg)).
      unfold rates_with. by rewrite !holding_absent.
Qed.

(** Four columns, three of which flip both rows; no observables. *)
Definition example_repeated : extended_dem Q :=
  mk_extended (of_groups csc 2 4 [[0; 1]; [1]; [1; 0]; [1; 0; 1; 1]]) sparse_empty
    [1 # 10; 1 # 5; 1 # 10; 1 # 2]%Q [] [].

Lemma example_repeated_typed : typed example_repeated.
Proof.
  split.
  - exists [[0; 1]; [1]; [1; 0]; [1; 0; 1; 1]]. apply (bool_decide_unpack _). vm_compute. exact I.
  - by right.
  - done.
  - constructor.
  - constructor.
Qed.

Lemma example_repeated_valid : valid_chunk example_repeated.
Proof.
  split; [done|by left| |constructor|done]. intros s Hs. by apply not_elem_of_nil in Hs.
Qed.

Lemma merge_duplicate_columns_correct_witness :
  returns (dem_merge_duplicate_columns example_repeated or_combine) (λ d,
    merges or_combine example_repeated d ∧ supports d = [[0; 1]; [1]] ∧
    (nth 0 (e_error_rates d) 0 == 1 # 2)%Q).
Proof.
  assert (∀ d, dem_merge_duplicate_columns example_repeated or_combine = Ok d →
    supports d = [[0; 1]; [1]] ∧ (nth 0 (e_error_rates d) 0 == 1 # 2)%Q) as He.
  { intros d. vm_compute. intros [= <-]. split; reflexivity. }
  destruct (merge_duplicate_columns_correct or_combine example_repeated) as (d&Hd&_&Hm&_).
  - apply example_repeated_typed.
  - apply example_repeated_valid.
  - split; vm_compute; reflexivity.
  - exists d. split; [exact Hd|]. split; [exact Hm|]. by apply He.
Defined.

Lemma merge_keeps_distribution_witness :
  returns (dem_merge_duplicate_columns example_repeated or_combine) (λ d,
    (rate_xor_all (rates_with d [0; 1]%nat) == rate_xor_all [1 # 10; 1 # 10; 1 # 2])%Q).
Proof.
  eapply returns_mono.
  - apply (merge_keeps_distribution or_combine example_repeated).
    + apply example_repeated_typed.
    + apply example_repeated_valid.
    + split; vm_compute; reflexivity.
    + repeat (apply Forall_cons; split; [split; apply Qle_bool_iff; reflexivity|]). constructor.
  - intros d [_ Hd]. rewrite (Hd eq_refl [0; 1]). reflexivity.
Defined.
