(* ===== verification/ExtendedStreams.v ===== *)
(** * Extended detector error models: the streaming helpers

    [dem_chunks_to_o_sparse] is the row form of the observables of the stitched
    chain, and [dem_chunks_to_detector_round] labels exactly the detectors of
    the closed chain, one round per seam width. *)

From Stdlib Require Import QArith.
From S2P Require Import Prelude Rates Ordering Tensor SparseMatrix SparseFacts SparseCanon SparseProps RoundLayout DetectorErrorModel ExtendedDem ExtendedFacts ExtendedChunk ExtendedStitch ExtendedChain ExtendedAll ExtendedProps ExtendedClose.

Local Open Scope nat_scope.

(** ** Observables by row *)

Lemma entries_from_app k gs gs' :
  entries_from k (gs ++ gs') = entries_from k gs ++ entries_from (k + length gs) gs'.
Proof.
  revert k. induction gs as [|l gs IH]; intros k; [by rewrite Nat.add_0_r|].
  cbn [app entries_from length]. by rewrite IH, <-app_assoc, Nat.add_succ_comm.
Qed.

Lemma entries_from_shift k gs : entries_from k gs = (λ e, (e.1, k + e.2)) <$> entries_of gs.
Proof.
  enough (∀ j, entries_from (k + j) gs = (λ e : entry, (e.1, k + e.2)) <$> entries_from j gs) as Hj.
  { specialize (Hj 0). by rewrite Nat.add_0_r in Hj. }
  induction gs as [|l gs IH]; intros j; [done|]. cbn [entries_from].
  rewrite fmap_app, <-IH, <-list_fmap_compose, Nat.add_succ_r. done.
Qed.

Lemma entries_from_empty k n : entries_from k (replicate n []) = [].
Proof. revert k. induction n as [|n IH]; intros k; [done|]. cbn. apply IH. Qed.

Lemma push_more n (E E' : list entry) :
  Forall (λ e, e.1 < n) E → Forall (λ e, e.1 < n) E' →
  foldM (λ e out, push_at out e.1 e.2) E' (by_key n E) = Ok (by_key n (E ++ E')).
Proof.
  intros HE HE'. pose proof (push_loop n (E ++ E')) as Hl. rewrite foldM_app, push_loop in Hl by done.
  cbn [mbind res_bind] in Hl. apply Hl. by apply Forall_app.
Qed.

Lemma to_csc_returns m :
  well_formed m →
  (if is_csc m then Ok m else to_csc m) = Ok (if is_csc m then m else of_groups csc (num_rows_ m) (num_cols_ m) (cols_of m)) ∧
  represents (if is_csc m then m else of_groups csc (num_rows_ m) (num_cols_ m) (cols_of m)) (cols_of m).
Proof.
  intros [gs Hwf]. unfold cols_of. rewrite (to_nested_csc_spec m gs Hwf), (to_csc_spec m gs Hwf).
  destruct (is_csc m) eqn:E; [split; [done|apply Hwf]|]. split; [done|].
  pose proof (wf_rep _ _ (wf_transposed m gs Hwf)) as Hr. unfold other, index_bound in Hr. by rewrite E in Hr.
Qed.

Section observables.
Context {R : Type} (from_seam to_seam : nat) (Hne : from_seam ≠ to_seam).
Implicit Types c b : extended_dem R.
Implicit Types chunks : list (extended_dem R).
Abbreviation chain_ok := (chain_ok from_seam to_seam).
Abbreviation chunk_ok := (chunk_ok from_seam to_seam).

Lemma length_obs chunks :
  Forall chunk_ok chunks →
  length (chunks ≫= obs_cols) = sum_list_with (λ c, length (e_error_rates c)) chunks.
Proof.
  intros Hall. rewrite length_bind. induction Hall as [|c l Hc _ IH]; [done|].
  cbn [sum_list_with]. rewrite IH, length_obs_cols by apply Hc. done.
Qed.

Lemma chain_rows_obs chunks c0 c :
  chain_ok chunks → head chunks = Some c0 → c ∈ chunks → num_rows_ (e_O c) = num_rows_ (e_O c0).
Proof.
  intros Hch H0 [i Hi]%list_elem_of_lookup_1.
  apply (proj1 (all_equal_adjacent (λ c, num_rows_ (e_O c)) chunks)) with i; [|done|].
  - intros j x y Hx Hy.
    exact (bo_obs _ _ _ _ (proj1 (sorted_lookup_adjacent _ _) (ch_linked _ _ _ Hch) j x y Hx Hy)).
  - by destruct chunks.
Qed.

(** One chunk appends its entries, with the columns of the chunks before it
    counted in. *)
Lemma o_sparse_chunk n off c (E : list entry) :
  chunk_ok c → num_rows_ (e_O c) = n → num_cols_ (e_O c) ≠ 0 →
  (Z.of_nat (off + length (e_error_rates c)) < 2 ^ 32)%Z → Forall (λ e, e.1 < n) E →
  (obs_csc ← (if is_csc (e_O c) then Ok (e_O c) else to_csc (e_O c));
   for_entries obs_csc (length (e_error_rates c)) (λ fc row out, push_at out row (u32 (off + fc))) (by_key n E)) =
  Ok (by_key n (E ++ entries_from off (obs_cols c))).
Proof.
  intros Hok Hr Hn Hz HE. destruct (valid_obs c (ok_typed _ _ c Hok) (ok_valid _ _ c Hok) Hn) as [Hwf Hal].
  destruct (to_csc_returns (e_O c) Hwf) as [-> Hrep]. cbn [mbind res_bind].
  pose proof (v_cols _ _ _ _ _ (wf_view _ Hwf)) as Hl. rewrite Hal in Hl. rewrite <-Hl.
  rewrite (for_entries_fold _ _ _ _ Hrep), obs_cols_aligned, (entries_from_shift off) by done.
  rewrite (foldM_ext _ (λ e : entry, (λ e out, push_at out e.1 e.2) ((λ e : entry, (e.1, off + e.2)) e))).
  - rewrite <-(foldM_map (λ e out, push_at out e.1 e.2)). apply push_more; [done|]. rewrite <-(entries_from_shift off).
    apply entries_bound. rewrite <-Hr. apply (wf_view _ Hwf).
  - intros [i j] out (l&_&Hj%lookup_lt_Some&_)%elem_of_entries. cbn [fst snd]. f_equal.
    rewrite Hl in Hj. apply wrap_small. lia.
Qed.

Lemma o_sparse_result c0 l :
  chain_ok (c0 :: l) → chain_fits (c0 :: l) →
  dem_chunks_to_o_sparse (c0 :: l) = Ok (transposed (num_rows_ (e_O c0)) ((c0 :: l) ≫= obs_cols)).
Proof.
  intros Hch Hfit. unfold dem_chunks_to_o_sparse. set (chunks := c0 :: l) in *.
  pose proof (ch_chunks _ _ _ Hch) as Hall. rewrite Forall_forall in Hall. unfold e_num_observables. set (n := num_rows_ (e_O c0)).
  assert (∀ c, c ∈ chunks → num_rows_ (e_O c) = n) as Hn by (intros c Hc; by apply (chain_rows_obs chunks c0)).
  rewrite (foldM_pure (λ c _, validate c _) (λ _ _, tt) chunks).
  2:{ intros c [] Hc. pose proof (Hall c Hc) as Hok. exact (decides_returns _ _ _ (validate_chunk_decides c _ (ok_typed _ _ c Hok)) (ok_valid _ _ c Hok)). }
  cbn [mbind res_bind].
  rewrite (foldM_pure _ (λ _ _, tt) l).
  2:{ intros c [] Hc. rewrite (Hn c) by (by right). by rewrite Nat.eqb_refl. }
  cbn [mbind res_bind]. pose proof Hfit as [_ Fc _ _].
  match goal with |- foldM ?f chunks ?s ≫= _ = _ =>
    destruct (foldM_inv f (λ pre st, st = (by_key n (entries_of (pre ≫= obs_cols)),
      sum_list_with (λ c, length (e_error_rates c)) pre)) chunks s) as (st&->&->) end.
  - f_equal. unfold by_key. apply replicate_as_elem_of.
    split; [by rewrite length_fmap, length_seq|]. by intros x (j&->&_)%list_elem_of_fmap.
  - intros pre c post st Hsp ->. assert (c ∈ chunks) as Hc by (rewrite Hsp; set_solver).
    pose proof (Hall c Hc) as Hok. assert (Forall chunk_ok pre) as Hpre.
    { apply Forall_forall. intros x Hx. apply Hall. rewrite Hsp. set_solver. }
    assert (sum_list_with (λ c, length (e_error_rates c)) (pre ++ [c]) ≤ sum_list_with (λ c, length (e_error_rates c)) chunks) as Hle.
    { rewrite Hsp, !sum_list_with_app. cbn [sum_list_with]. lia. }
    rewrite sum_list_with_app in *. cbn [sum_list_with] in *. rewrite Nat.add_0_r in *.
    rewrite bind_app. cbn [mbind list_bind]. rewrite app_nil_r, entries_from_app, Nat.add_0_l, length_obs by done.
    unfold num_faults. rewrite (wrap_small 32) by apply Hok. set (off := sum_list_with _ pre) in *.
    rewrite (wrap_small 64) by lia. apply returns_guard.
    { destruct (Nat.ltb_spec 0 (length (e_error_rates c))); [|done].
      cbn [andb]. apply bool_decide_eq_false_2. rewrite u64_sub_le by lia. unfold UINT32_MAX. lia. }
    destruct (Nat.eqb_spec (num_cols_ (e_O c)) 0) as [E|E].
    + apply returns_ok. assert (obs_cols c = replicate (length (e_error_rates c)) []) as ->
        by (unfold obs_cols; by rewrite E).
      by rewrite entries_from_empty, app_nil_r.
    + pose proof (o_sparse_chunk n off c (entries_of (pre ≫= obs_cols)) Hok (Hn c Hc) E) as Hs.
      apply bind_ok in Hs as (m&Hm&Hf); [|lia|].
      * rewrite Hm. cbn [mbind res_bind]. rewrite Hf. by apply returns_ok.
      * apply entries_bound. apply Forall_forall. intros col (x&Hx&Hin)%list_elem_of_bind.
        assert (x ∈ chunks) as Hx' by (rewrite Hsp; set_solver).
        pose proof (Hall x Hx') as Hox. rewrite <-(Hn x Hx').
        by apply (proj1 (Forall_forall _ _) (obs_bound x (ok_typed _ _ x Hox) (ok_valid _ _ x Hox))).
  - done.
Qed.
End observables.

(** The streaming observable map is the observable matrix of the stitched
    chain, row by row: for each observable, the fault columns of the whole
    chain that flip it, in ascending order and with multiplicity. *)
Theorem o_sparse_is_stitched_rows {R} (from_seam to_seam : nat) (c0 : extended_dem R) l b :
  let chunks := c0 :: l ++ [b] in
  from_seam ≠ to_seam → chain_ok from_seam to_seam chunks → chain_fits chunks →
  returns (dem_chunks_to_o_sparse chunks) (λ rows,
    (s ← dem_stitch_all chunks from_seam to_seam; to_nested_csr (e_O s)) = Ok rows).
Proof.
  intros chunks Hne Hch Hfit. unfold chunks. rewrite (o_sparse_result from_seam to_seam) by done. apply returns_ok.
  rewrite dem_stitch_all_result by done. cbn [mbind res_bind e_O].
  pose proof (obs_chain_ok _ _ Hne chunks c0 Hch Hfit eq_refl) as Hobs. unfold chunks in Hobs.
  exact (to_nested_csr_spec _ _ (wf_cols _ _ _ Hobs)).
Qed.

Lemma o_sparse_is_stitched_rows_witness :
  dem_chunks_to_o_sparse [example_round; example_round] = Ok [[0; 2; 3; 5]] ∧
  returns (dem_chunks_to_o_sparse [example_round; example_round]) (λ rows,
    (s ← dem_stitch_all [example_round; example_round] 9 7; to_nested_csr (e_O s)) = Ok rows).
Proof.
  split; [vm_compute; reflexivity|].
  apply (o_sparse_is_stitched_rows 9 7 example_round [] example_round).
  - lia.
  - apply example_chain_ok.
  - split; vm_compute; reflexivity.
Defined.

(** ** Rounds *)

(** Round labels: [d] detectors per round. *)
Definition labels (d n : nat) : list nat := (λ r, r / d) <$> seq 0 (d * n).

Lemma labels_S d n : d ≠ 0 → labels d (n + 1) = labels d n ++ replicate d n.
Proof.
  intros Hd. unfold labels. replace (d * (n + 1)) with (d * n + d) by lia.
  rewrite seq_app, fmap_app. f_equal. cbn [Nat.add]. symmetry. apply replicate_as_elem_of.
  split; [by rewrite length_fmap, length_seq|]. intros x (r&->&[Hr1 Hr2]%elem_of_seq)%list_elem_of_fmap.
  symmetry. apply (Nat.div_unique r d n (r - d * n)); lia.
Qed.

Section rounds.
Context {R : Type} (from_seam to_seam : nat) (Hne : from_seam ≠ to_seam).
Implicit Types c b : extended_dem R.
Implicit Types chunks : list (extended_dem R).
Abbreviation chain_ok := (chain_ok from_seam to_seam).
Abbreviation chunk_ok := (chunk_ok from_seam to_seam).
Abbreviation offset_rows := (offset_rows to_seam).
Abbreviation total_offset := (total_offset to_seam).

(** The width of a chunk's rounds: that of its incoming seam, or of its
    outgoing one when it has no incoming rows. *)
Definition round_width c : nat := if 0 <? width c to_seam then width c to_seam else width c from_seam.

(** A chunk of whole rounds of [d] detectors. *)
Record in_rounds (d : nat) c : Prop := {
  ir_interior : length (interior c) mod d = 0;
  ir_seams : ∀ s, s ∈ e_seams c → seam_width s = 0 ∨ seam_width s = d
}.

Lemma chunk_seam_width_eq c : chunk_ok c → chunk_seam_width c from_seam to_seam = Ok (round_width c).
Proof.
  intros Hok. unfold chunk_seam_width, round_width.
  rewrite !seam_rows_or_zero_eq by apply Hok. cbn [mbind res_bind].
  destruct (0 <? width c to_seam); [done|]. destruct (Nat.ltb_spec 0 (width c from_seam)); [done|]. f_equal. lia.
Qed.

Lemma sequence_decides c0 l fn :
  Forall chunk_ok (c0 :: l) →
  decides (validate_dem_chunk_sequence (c0 :: l) from_seam to_seam fn)
    (round_width c0 ≠ 0 ∧ ∀ c, c ∈ c0 :: l → in_rounds (round_width c0) c) tt.
Proof.
  intros Hall. unfold validate_dem_chunk_sequence.
  rewrite chunk_seam_width_eq by (by apply Forall_cons in Hall as [? _]). cbn [mbind res_bind].
  set (d := round_width c0). rewrite Forall_forall in Hall.
  apply decides_bind with (a := tt).
  { eapply decides_iff; [apply decides_throw_if|]. by rewrite Nat.eqb_neq. }
  intros _. apply decides_foldM. intros c Hc. pose proof (Hall c Hc) as Hok.
  rewrite (num_interior_rows_eq from_seam to_seam) by done.
  eapply decides_iff; [eapply decides_bind; [apply decides_eqb|]|].
  - intros _. apply (decides_foldM _ (λ s, seam_width s = 0 ∨ seam_width s = d)). intros s Hs.
    pose proof (va_range c (ok_valid _ _ c Hok) s Hs) as Hr.
    rewrite (seam_num_rows_eq c s (ok_typed _ _ c Hok) (proj1 Hr) Hs).
    eapply decides_iff; [apply decides_throw_if|].
    destruct (Nat.eqb_spec (seam_width s) 0), (Nat.eqb_spec (seam_width s) d); cbn; naive_solver.
  - split; [by intros []|by intros []].
Qed.

Lemma width_in_rounds d c id : in_rounds d c → width c id = 0 ∨ width c id = d.
Proof.
  intros Hr. unfold width. destruct (seam_at c id) as [s|] eqn:Hs; [|by left]. cbn [from_option].
  apply (ir_seams d c Hr), (seam_at_elem c id s Hs).
Qed.

Lemma offset_whole d c :
  d ≠ 0 → in_rounds d c → offset_rows c = d * ((if 0 <? width c to_seam then 1 else 0) + length (interior c) / d).
Proof.
  intros Hd Hr. unfold ExtendedStitch.offset_rows. pose proof (ir_interior d c Hr) as Hi.
  apply Nat.Div0.div_exact in Hi. rewrite Nat.mul_add_distr_l, <-Hi. f_equal.
  destruct (width_in_rounds d c to_seam Hr) as [->| ->]; [cbn; lia|]. rewrite (proj2 (Nat.ltb_lt 0 d)) by lia. lia.
Qed.

Lemma offset_exact d c : d ≠ 0 → in_rounds d c → offset_rows c = d * (offset_rows c / d).
Proof. intros Hd Hr. apply Nat.Div0.div_exact. rewrite (offset_whole d c Hd Hr), Nat.mul_comm. apply Nat.Div0.mod_mul. Qed.

(** The number of rounds of a chunk. *)
Lemma dem_chunk_rounds_decides d c :
  chunk_ok c → (Z.of_nat (offset_rows c) < 2 ^ 32)%Z → d ≠ 0 → in_rounds d c →
  decides (dem_chunk_rounds c from_seam to_seam) (round_width c ≠ 0) (offset_rows c / d).
Proof.
  intros Hok Hz Hd Hr. unfold dem_chunk_rounds. rewrite chunk_seam_width_eq by done. cbn [mbind res_bind].
  rewrite (num_interior_rows_eq from_seam to_seam), seam_rows_or_zero_eq by (done || apply Hok).
  eapply decides_iff; [eapply decides_bind; [apply decides_throw_if|]|].
  - intros Hw%Nat.eqb_neq. assert (round_width c = d) as ->.
    { revert Hw. unfold round_width.
      pose proof (width_in_rounds d c to_seam Hr). pose proof (width_in_rounds d c from_seam Hr).
      destruct (Nat.ltb_spec 0 (width c to_seam)); lia. }
    rewrite (ir_interior d c Hr). cbn [Nat.eqb negb throw_if mbind res_bind].
    pose proof (offset_whole d c Hd Hr) as Ho. rewrite Ho, (Nat.mul_comm d), Nat.div_mul by done.
    rewrite wrap_small by nia. left. split; [exact I|done].
  - rewrite Nat.eqb_neq. tauto.
Qed.

Lemma whole_chunks d pre :
  d ≠ 0 → (∀ c, c ∈ pre → in_rounds d c) → total_offset pre = d * (total_offset pre / d).
Proof.
  intros Hd Hr. assert (total_offset pre mod d = 0) as Hm; [|by apply Nat.Div0.div_exact].
  induction pre as [|c pre IH]; [by apply Nat.Div0.mod_0_l|]. unfold ExtendedChain.total_offset in *. cbn [sum_list_with].
  rewrite Nat.Div0.add_mod, IH by (intros; apply Hr; set_solver). rewrite (offset_whole d c) by (done || apply Hr; set_solver).
  rewrite (Nat.mul_comm d), Nat.Div0.mod_mul. by apply Nat.Div0.mod_0_l.
Qed.

Lemma total_offset_snoc pre c : total_offset (pre ++ [c]) = total_offset pre + offset_rows c.
Proof. unfold ExtendedChain.total_offset. rewrite sum_list_with_app. cbn [sum_list_with]. lia. Qed.

Lemma rounds_snoc d pre c :
  d ≠ 0 → (∀ x, x ∈ pre → in_rounds d x) → in_rounds d c →
  total_offset (pre ++ [c]) / d = total_offset pre / d + offset_rows c / d.
Proof.
  intros Hd Hpre Hc. rewrite total_offset_snoc, (whole_chunks d pre) at 1 by done.
  rewrite (Nat.mul_comm d), Nat.div_add_l by done. done.
Qed.

(** The labels one chunk appends. *)
Lemma label_chunk d n k :
  d ≠ 0 → (Z.of_nat (k + n) < 2 ^ 31)%Z →
  for_u 0 n (λ _ (st : list nat * nat),
    let '(result, round) := st in
    round' ← incr_int32 round;
    Ok (result ++ replicate d round, round')) (labels d k, k) = Ok (labels d (k + n), k + n).
Proof.
  intros Hd Hz.
  match goal with |- for_u 0 n ?f ?s = _ =>
    destruct (for_u_inv 0 n f (λ i st, st = (labels d (k + i), k + i)) s) as (st&->&->) end;
    [lia|by rewrite Nat.add_0_r| |done].
  intros i st Hi ->. unfold incr_int32. rewrite (proj2 (Z.ltb_lt _ _)) by lia. cbn [mbind res_bind].
  apply returns_ok. rewrite Nat.add_assoc, labels_S by done. done.
Qed.

Section chain.
Context (c0 : extended_dem R) (l : list (extended_dem R)).
Abbreviation chunks := (c0 :: l).
Abbreviation d := (round_width c0).
Context (Hch : chain_ok chunks) (Hz : (Z.of_nat (total_offset chunks) < 2 ^ 31)%Z).

(** Every chunk holds whole rounds of [d] detectors and has seam rows. *)
Definition whole_rounds : Prop :=
  round_width c0 ≠ 0 ∧ ∀ c, c ∈ c0 :: l → in_rounds (round_width c0) c ∧ round_width c ≠ 0.

(** A loop over the chunks that adds the rounds of each. *)
Lemma rounds_loop {S} fn (f : extended_dem R → S → res S) (st : nat → S) :
  (∀ c k n, (Z.of_nat (k + n) < 2 ^ 31)%Z → d ≠ 0 → dem_chunk_rounds c from_seam to_seam = Ok n → f c (st k) = Ok (st (k + n))) →
  (∀ c k, rejects (dem_chunk_rounds c from_seam to_seam) → rejects (f c (st k))) →
  decides (_ ← validate_dem_chunk_sequence chunks from_seam to_seam fn; foldM f chunks (st 0))
    whole_rounds (st (total_offset chunks / d)).
Proof using Hch Hne Hz.
  intros Hok Hrej. apply decides_iff with ((d ≠ 0 ∧ ∀ c, c ∈ chunks → in_rounds d c) ∧ ∀ c, c ∈ chunks → round_width c ≠ 0).
  2:{ unfold whole_rounds. naive_solver. }
  apply decides_bind with (a := tt); [by apply (sequence_decides c0 l fn), (ch_chunks _ _ _ Hch)|]. intros [Hd Hr].
  replace (st 0) with (st (total_offset (@nil (extended_dem R)) / d)) by (f_equal; by apply Nat.Div0.div_0_l).
  apply (decides_foldM_state _ (λ c, round_width c ≠ 0) (λ pre, st (total_offset pre / d))).
  intros pre c post Hsp. pose proof (ch_chunks _ _ _ Hch) as Hall. rewrite Hsp in Hall, Hr.
  apply Forall_app in Hall as [_ [Hc _]%Forall_cons].
  assert (total_offset pre + offset_rows c ≤ total_offset chunks) as Hle.
  { rewrite Hsp. unfold ExtendedChain.total_offset. rewrite sum_list_with_app. cbn [sum_list_with]. lia. }
  assert (∀ x, x ∈ pre → in_rounds d x) as Hpre by (intros; apply Hr; set_solver).
  assert (in_rounds d c) as Hin by (apply Hr; set_solver).
  destruct (dem_chunk_rounds_decides d c Hc) as [[Hw Hn]|[Hw Hn]]; [lia|done|done| |].
  - left. split; [done|]. rewrite rounds_snoc by done. apply Hok; [|done|done].
    pose proof (whole_chunks d pre Hd Hpre). pose proof (offset_exact d c Hd Hin). nia.
  - right. split; [done|]. by apply Hrej.
Qed.

Lemma chunks_to_rounds_decides :
  decides (dem_chunks_to_rounds chunks from_seam to_seam) whole_rounds (total_offset chunks / d).
Proof using Hch Hne Hz.
  apply (rounds_loop _ _ id).
  - intros c k n Hk _ ->. cbn [mbind res_bind id]. rewrite wrap_small by lia. done.
  - intros c k [msg ->]. by exists msg.
Qed.

Lemma detector_round_decides :
  decides (dem_chunks_to_detector_round chunks from_seam to_seam) whole_rounds
    (labels d (total_offset chunks / d)).
Proof using Hch Hne Hz.
  set (step := λ (c : extended_dem R) st,
         rounds ← dem_chunk_rounds c from_seam to_seam;
         for_u 0 rounds (λ _ (st : list nat * nat),
           let '(result, round) := st in
           round' ← incr_int32 round;
           Ok (result ++ replicate d round, round')) st).
  assert (dem_chunks_to_detector_round chunks from_seam to_seam =
    (st ← (_ ← validate_dem_chunk_sequence chunks from_seam to_seam "dem_chunks_to_detector_round";
           foldM step chunks (labels d 0, 0)); Ok st.1)) as ->.
  { unfold dem_chunks_to_detector_round. destruct (validate_dem_chunk_sequence _ _ _ _) as [[]| |]; [|done..].
    change (vget (c0 :: l) 0) with (@Ok (extended_dem R) c0). cbn [mbind res_bind].
    rewrite chunk_seam_width_eq by (by destruct (Forall_cons_1 _ _ _ (ch_chunks _ _ _ Hch))). cbn [mbind res_bind].
    assert (labels d 0 = []) as -> by (unfold labels; by rewrite Nat.mul_0_r). done. }
  destruct (rounds_loop "dem_chunks_to_detector_round" step (λ k, (labels d k, k))) as [[Hw ->]|[Hw [msg ->]]].
  - intros c k n Hk Hd Hn. unfold step. rewrite Hn. cbn [mbind res_bind]. by apply label_chunk.
  - intros c k [msg Hn]. exists msg. unfold step. by rewrite Hn.
  - by left.
  - right. split; [done|]. by exists msg.
Qed.
End chain.
End rounds.

(** A round of two checks without interior rows. *)
Definition example_layer : extended_dem Q :=
  mk_extended (of_groups csc 4 3 [[0]; [0; 2]; [1; 3]]) (of_groups csc 1 3 [[0]; []; []])
    [1 # 10; 1 # 20; 1 # 30]%Q [mk_seam 7 0 2; mk_seam 9 2 4] [0; 1; 0; 1].

Lemma example_layer_chain : chain_ok 9 7 [example_layer; example_layer].
Proof.
  assert (typed example_layer) as Hty.
  { split; [| |done| |by repeat constructor].
    - exists [[0]; [0; 2]; [1; 3]]. apply (bool_decide_unpack _). vm_compute. exact I.
    - left. exists [[0]; []; []]. apply (bool_decide_unpack _). vm_compute. exact I.
    - apply (bool_decide_unpack _). vm_compute. exact I. }
  destruct (validate_chain_decides 9 7 ltac:(lia) [example_layer; example_layer] "w") as [[Hch _]|[_ [msg Hrej]]];
    [by do 2 (apply Forall_cons; split; [exact Hty|])|done|]. exfalso. revert Hrej. vm_compute. discriminate.
Qed.

(** C29. Round numbers cover the closed chain: on a chain of whole rounds of
    [d] detectors, [dem_chunks_to_detector_round] returns one entry per row of
    [dem_chunks_to_pcm], row [r] in round [r / d], and [dem_chunks_to_rounds]
    the number of rounds; both throw on every other chain.  The [int32_t] round
    counter does not overflow when the number of detectors fits. *)
Theorem detector_rounds_cover {R} (from_seam to_seam : nat) (c0 : extended_dem R) l :
  let d := round_width from_seam to_seam c0 in
  from_seam ≠ to_seam → chain_ok from_seam to_seam (c0 :: l) → chain_fits (c0 :: l) →
  (Z.of_nat (total_offset to_seam (c0 :: l)) < 2 ^ 31)%Z →
  returns (dem_chunks_to_pcm (c0 :: l) from_seam to_seam) (λ p,
    decides (dem_chunks_to_rounds (c0 :: l) from_seam to_seam)
      (whole_rounds from_seam to_seam c0 l) (num_rows_ p / d) ∧
    decides (dem_chunks_to_detector_round (c0 :: l) from_seam to_seam)
      (whole_rounds from_seam to_seam c0 l) ((λ r, r / d) <$> seq 0 (num_rows_ p))).
Proof.
  cbv zeta. intros Hne Hch Hfit Hz. rewrite (pcm_result from_seam to_seam Hne _ Hch Hfit) by done.
  apply returns_ok. cbn [num_rows_ of_groups]. split; [by apply (chunks_to_rounds_decides from_seam to_seam Hne c0 l)|].
  destruct (detector_round_decides from_seam to_seam Hne c0 l Hch Hz) as [[Hw ->]|]; [left|by right].
  split; [done|]. unfold labels. destruct Hw as [Hd Hw].
  by rewrite <-(whole_chunks from_seam to_seam Hne _ (c0 :: l) Hd (λ c Hc, proj1 (Hw c Hc))).
Qed.

Lemma detector_rounds_cover_witness :
  dem_chunks_to_detector_round [example_layer; example_layer] 9 7 = Ok [0; 0; 1; 1] ∧
  returns (dem_chunks_to_pcm [example_layer; example_layer] 9 7) (λ p, num_rows_ p / 2 = 2).
Proof.
  split; [vm_compute; reflexivity|].
  eapply returns_mono.
  - apply (detector_rounds_cover 9 7 example_layer [example_layer]).
    + lia.
    + apply example_layer_chain.
    + split; vm_compute; reflexivity.
    + vm_compute. reflexivity.
  - intros p [Hr _]. assert (dem_chunks_to_rounds [example_layer; example_layer] 9 7 = Ok 2) as E by (vm_compute; reflexivity).
    rewrite E in Hr. destruct Hr as [[_ [= Hr]]|[_ [msg [=]]]]. symmetry. exact Hr.
Defined.
