(* ===== verification/ChunkSpec.v ===== *)
(** * Chunk specifications

    Model of the declarative chunk specs of libs/qec/lib/extended_dem.cpp and
    its header: [dem_chunk_spec] with its -1-terminated index lists,
    [dem_chunk_from_spec], and [dem_chunks_spec], a graph of phases whose
    connections unfold into the phase of every round of a shot.  A phase id is
    its hash value.  Index lists hold [int64_t] values. *)

From S2P Require Import Prelude Rates Tensor SparseMatrix RoundLayout DetectorErrorModel ExtendedDem Ordering SparseFacts SparseCanon ExtendedFacts ExtendedChunk ExtendedStitch.

(** [static_cast<uint32_t>] of an [int64_t]. *)
Definition to_u32 (z : Z) : nat := Z.to_nat (z mod 2 ^ 32)%Z.
Definition UINT64_MAX : Z := (2 ^ 64 - 1)%Z.

Record dem_seam_spec := mk_seam_spec { ss_H_sparse : list Z; ss_O_sparse : list Z }.
Record seam_spec_entry := mk_seam_entry { se_id : nat; se_spec : dem_seam_spec }.
Record seam_connection := mk_seam_connection { sc_from_seam : nat; sc_to_seam : nat }.
Record phase_connection := mk_connection { from_phase : nat; to_phase : nat }.

#[global] Instance dem_seam_spec_eq_dec : EqDecision dem_seam_spec.
Proof. solve_decision. Defined.
#[global] Instance seam_spec_entry_eq_dec : EqDecision seam_spec_entry.
Proof. solve_decision. Defined.

Definition is_self (c : phase_connection) : bool := from_phase c =? to_phase c.

(** The -1-terminated rows of a list: each list of values up to a -1; values
    after the last one are [current]. *)
Definition terminated_rows (rows : list Z) : list (list nat) * list nat :=
  foldl (λ st value,
    let '(nested, current) := st in
    if (value =? -1)%Z then (nested ++ [current], []) else (nested, current ++ [to_u32 value]))
    ([], []) rows.

Definition sparse_from_terminated_rows (rows : list Z) (num_faults : nat) : res sparse_binary_matrix :=
  let '(nested, current) := terminated_rows rows in
  _ ← throw_if (negb (bool_decide (current = [])))
        (InvalidArgument "sparse_from_terminated_rows: input did not end with -1 terminator");
  m ← from_nested_csr (u32 (length nested)) (u32 num_faults) nested;
  to_csc m.

(** [num_faults] is a [uint64_t]. *)
Definition validate_index_list (rows : list Z) (num_faults : Z) (context field : string) : res unit :=
  if bool_decide (rows = []) then Ok tt else
  _ ← throw_if (negb (bool_decide (last rows = Some (-1)%Z)))
        (InvalidArgument (context +:+ "." +:+ field +:+ " must end with a -1 row terminator"));
  _ ← foldM (λ value row_cols,
        if (value =? -1)%Z then Ok [] else
        _ ← throw_if ((value <? 0)%Z || (num_faults <=? value mod 2 ^ 64)%Z)
              (InvalidArgument (context +:+ "." +:+ field +:+ " index out of range"));
        _ ← throw_if (bool_decide (value ∈ row_cols))
              (InvalidArgument (context +:+ "." +:+ field +:+ " duplicate column index in a row"));
        Ok (value :: row_cols)) rows ([] : list Z);
  Ok tt.

(** [std::count(rows.begin(), rows.end(), -1)] *)
Definition count_rows (rows : list Z) : nat := length (filter (λ v, v = (-1)%Z) rows).

Section spec.
Context {R : Type} `{RateOps R}.

Record dem_chunk_spec := mk_chunk_spec {
  cs_num_faults : nat;
  cs_H_sparse : list Z;
  cs_seam_specs : list seam_spec_entry;
  cs_O_sparse : list Z;
  cs_error_rates : list R;
  cs_D_sparse : list Z;
  cs_num_measurements : option nat;
  cs_m2o_sparse : list Z
}.

(** ** [dem_chunk_spec] *)

Definition cs_is_empty (s : dem_chunk_spec) : bool :=
  (cs_num_faults s =? 0) && bool_decide (cs_H_sparse s = []) && bool_decide (cs_seam_specs s = []) &&
  bool_decide (cs_O_sparse s = []) && bool_decide (length (cs_error_rates s) = 0) &&
  bool_decide (cs_D_sparse s = []) && bool_decide (cs_num_measurements s = None) &&
  bool_decide (cs_m2o_sparse s = []).

Definition cs_expand (s : dem_chunk_spec) (ids : list nat) : dem_chunk_spec :=
  if negb (bool_decide (cs_seam_specs s = [])) then s
  else if bool_decide (cs_H_sparse s = []) then s
  else mk_chunk_spec (cs_num_faults s) []
         ((λ id, mk_seam_entry id (mk_seam_spec (cs_H_sparse s) [])) <$> ids)
         (cs_O_sparse s) (cs_error_rates s) (cs_D_sparse s) (cs_num_measurements s) (cs_m2o_sparse s).

Definition cs_validate (s : dem_chunk_spec) (context : string) : res unit :=
  let num_faults := cs_num_faults s in
  _ ← throw_if (bool_decide (UINT32_MAX < Z.of_nat num_faults)%Z)
        (InvalidArgument (context +:+ ".num_faults exceeds uint32_t max"));
  _ ← throw_if (negb (bool_decide (cs_H_sparse s = [])) && negb (bool_decide (cs_seam_specs s = [])))
        (InvalidArgument (context +:+ ": H_sparse and seam_specs are mutually exclusive"));
  _ ← throw_if (negb (length (cs_error_rates s) =? num_faults))
        (InvalidArgument (context +:+ ".error_rates has entries but num_faults="));
  _ ← foldM (λ rate _, throw_if (negb (rate_leb rate_zero rate && rate_leb rate rate_one))
        (InvalidArgument (context +:+ ".error_rates out of [0,1]"))) (cs_error_rates s) tt;
  _ ← validate_index_list (cs_H_sparse s) (Z.of_nat num_faults) context "H_sparse";
  _ ← validate_index_list (cs_O_sparse s) (Z.of_nat num_faults) context "O_sparse";
  _ ← foldM (λ e _,
        _ ← validate_index_list (ss_H_sparse (se_spec e)) (Z.of_nat num_faults) context "seam.H_sparse";
        validate_index_list (ss_O_sparse (se_spec e)) (Z.of_nat num_faults) context "seam.O_sparse")
        (cs_seam_specs s) tt;
  _ ← foldM (λ value _, throw_if (value <? -1)%Z
        (InvalidArgument (context +:+ ".D_sparse value is below -1"))) (cs_D_sparse s) tt;
  _ ← throw_if (negb (bool_decide (cs_D_sparse s = [])) && negb (bool_decide (last (cs_D_sparse s) = Some (-1)%Z)))
        (InvalidArgument (context +:+ ".D_sparse must end with a -1 terminator"));
  validate_index_list (cs_m2o_sparse s) UINT64_MAX context "m2o_sparse".

(** ** [dem_chunk_from_spec] *)

(** [result.H] after one more seam band. *)
Definition push_seam_H (result_H seam_H : sparse_binary_matrix) (num_faults : nat)
    : res sparse_binary_matrix :=
  if (num_rows_ result_H =? 0) && (num_cols_ result_H =? 0) then
    if 0 <? num_rows_ seam_H then Ok seam_H else zero_matrix 0 (u32 num_faults)
  else if 0 <? num_rows_ seam_H then vstack result_H seam_H else Ok result_H.

(** One iteration over [working.seam_specs]: the chunk so far and [row_cursor]. *)
Definition push_seam (num_faults : nat) (e : seam_spec_entry) (st : extended_dem R * nat)
    : res (extended_dem R * nat) :=
  let '(result, row_cursor) := st in
  seam_H ← sparse_from_terminated_rows (ss_H_sparse (se_spec e)) num_faults;
  let seam_rows := num_rows_ seam_H in
  h ← push_seam_H (e_H result) seam_H num_faults;
  result ← add_seam (mk_extended h (e_O result) (e_error_rates result) (e_seams result) (e_tags result))
             (se_id e) row_cursor (u32 (row_cursor + seam_rows));
  Ok (mk_extended (e_H result) (e_O result) (e_error_rates result) (e_seams result)
        (e_tags result ++ seq 0 seam_rows), u32 (row_cursor + seam_rows)).

Definition dem_chunk_from_spec (spec : dem_chunk_spec) (seam_names : list nat) (context : string)
    : res (extended_dem R) :=
  _ ← cs_validate spec context;
  let working := cs_expand spec seam_names in
  let num_faults := cs_num_faults working in
  _ ← foldM (λ e _, throw_if (negb (bool_decide (ss_O_sparse (se_spec e) = [])))
        (InvalidArgument (context +:+ ": per-seam O_sparse in seam is not yet supported; use chunk-level O_sparse instead")))
        (cs_seam_specs working) tt;
  st ← foldM (push_seam num_faults) (cs_seam_specs working)
         (mk_extended sparse_empty sparse_empty (cs_error_rates working) [] [], 0);
  let '(result, row_cursor) := st in
  h ← (if row_cursor =? 0 then zero_matrix 0 (u32 num_faults) else Ok (e_H result));
  o ← sparse_from_terminated_rows (cs_O_sparse working) num_faults;
  Ok (mk_extended h o (e_error_rates result) (e_seams result) (e_tags result)).

(** ** [dem_chunks_spec] *)

Record phase_spec_entry := mk_phase { ph_id : nat; ph_spec : dem_chunk_spec }.

Record dem_chunks_spec := mk_chunks_spec {
  phases : list phase_spec_entry;
  connections : list phase_connection;
  spec_seam : seam_connection;
  num_rounds : option nat;
  measurements_per_round : option nat;
  phases_supply_D_sparse : option bool;
  observable_names : list string
}.

Implicit Types s : dem_chunks_spec.

(** [auto shortest = *this; shortest.num_rounds = n;] *)
Definition with_num_rounds s (n : nat) : dem_chunks_spec :=
  mk_chunks_spec (phases s) (connections s) (spec_seam s) (Some n) (measurements_per_round s)
    (phases_supply_D_sparse s) (observable_names s).

Definition is_empty s : bool :=
  bool_decide (length (phases s) = 0) && bool_decide (length (connections s) = 0).

Definition has_readout s : bool :=
  existsb (λ e, negb (bool_decide (cs_m2o_sparse (ph_spec e) = []))) (phases s).

Definition has_repeating_phase s : bool := existsb is_self (connections s).

Definition minimum_rounds s : nat :=
  foldl (λ rounds c, if is_self c then rounds else u64 (rounds + 1)) 1 (connections s).

Definition repeating_phase s : res nat :=
  st ← foldM (λ c st,
         let '(result, found) := st in
         if is_self c then
           _ ← throw_if found (InvalidArgument "dem_chunks_spec: more than one self-connected phase");
           Ok (from_phase c, true)
         else Ok (result, found)) (connections s) (0, false);
  _ ← throw_if (negb st.2) (InvalidArgument "dem_chunks_spec: no self-connected (repeating) phase");
  Ok st.1.

(** The first loop of [phase_sequence]: non-self edges, the repeating phase. *)
Definition collect_chain (conns : list phase_connection) : res (list (nat * nat) * nat * bool) :=
  foldM (λ c st,
    let '(chain, rep_phase, has_rep) := st in
    if is_self c then
      _ ← throw_if has_rep (InvalidArgument "dem_chunks_spec::phase_sequence: multiple self-loops");
      Ok (chain, from_phase c, true)
    else Ok (chain ++ [(from_phase c, to_phase c)], rep_phase, has_rep)) conns ([], 0, false).

(** The first source of an edge that no edge enters, else [d]. *)
Definition find_entry (chain : list (nat * nat)) (d : nat) : nat :=
  match filter (λ e : nat * nat, e.1 ∉ chain.*2) chain with
  | e :: _ => e.1
  | [] => d
  end.

(** [successor.emplace] for every edge. *)
Definition build_successor (chain : list (nat * nat)) : res (list (nat * nat)) :=
  foldM (λ e successor,
    _ ← throw_if (bool_decide (e.1 ∈ successor.*1))
          (InvalidArgument "dem_chunks_spec::phase_sequence: phase has multiple non-self outgoing edges");
    Ok (successor ++ [e])) chain [].

Definition find_successor (successor : list (nat * nat)) (p : nat) : option nat :=
  snd <$> head (filter (λ e : nat * nat, e.1 = p) successor).

(** The [while (true)] walk; every iteration adds a phase to [visited], so one
    more than the number of edge ends is enough fuel. *)
Fixpoint walk_chain (fuel : nat) (successor : list (nat * nat)) (has_rep : bool)
    (rep_phase rep_count current : nat) (visited seq : list nat) : res (list nat) :=
  match fuel with
  | 0 => Undef
  | S fuel =>
      _ ← throw_if (bool_decide (current ∈ visited))
            (InvalidArgument "dem_chunks_spec::phase_sequence: connection graph is cyclic");
      let seq := seq ++ [current] in
      let seq := if has_rep && (current =? rep_phase) then seq ++ replicate rep_count rep_phase else seq in
      match find_successor successor current with
      | None => Ok seq
      | Some next => walk_chain fuel successor has_rep rep_phase rep_count next (current :: visited) seq
      end
  end.

Definition phase_sequence s : res (list nat) :=
  _ ← throw_if (bool_decide (length (phases s) = 0))
        (InvalidArgument "dem_chunks_spec::phase_sequence: no phases defined");
  _ ← throw_if (bool_decide (length (connections s) = 0))
        (InvalidArgument "dem_chunks_spec::phase_sequence: no connections defined");
  st ← collect_chain (connections s);
  let '(chain, rep_phase, has_rep) := st : list (nat * nat) * nat * bool in
  _ ← throw_if (has_rep && bool_decide (num_rounds s = None))
        (InvalidArgument "dem_chunks_spec::phase_sequence: num_rounds required when a self-loop is present");
  n ← (if has_rep then match num_rounds s with Some n => Ok n | None => Undef end else Ok 0);
  _ ← throw_if (has_rep && (n <? 2))
        (InvalidArgument "dem_chunks_spec::phase_sequence: num_rounds must be >= 2");
  match chain with
  | [] => match num_rounds s with Some n => Ok (replicate n rep_phase) | None => Undef end
  | first :: _ =>
      let entry := find_entry chain first.1 in
      let non_repeating := length chain + 1 in
      let rounds := if has_rep then n else non_repeating in
      _ ← throw_if (has_rep && (rounds <? non_repeating))
            (InvalidArgument "dem_chunks_spec::phase_sequence: num_rounds too small for non-repeating phases");
      let rep_count := if has_rep then rounds - non_repeating else 0 in
      successor ← build_successor chain;
      seq ← walk_chain (2 * length chain + 2) successor has_rep rep_phase rep_count entry [] [];
      _ ← throw_if (negb (length seq =? rounds))
            (InvalidArgument "dem_chunks_spec::phase_sequence: computed phases but expected");
      Ok seq
  end.

(** [std::find(v.begin(), v.end(), x) - v.begin()] *)
Fixpoint find_index (l : list nat) (x : nat) : nat :=
  match l with [] => 0 | y :: l => if y =? x then 0 else S (find_index l x) end.

Record repeating_span := mk_span { span_prefix : nat; span_length : nat; span_suffix : nat }.

Definition repeating_rounds s : res repeating_span :=
  repeating ← repeating_phase s;
  let shortest := match num_rounds s with
                  | Some n => with_num_rounds s (n `min` (2 `max` minimum_rounds s))
                  | None => s
                  end in
  sequence ← phase_sequence shortest;
  let prefix := find_index sequence repeating in
  let suffix := find_index (reverse sequence) repeating in
  n ← match num_rounds s with Some n => Ok n | None => Undef end;
  Ok (mk_span prefix (u64_sub (u64_sub n prefix) suffix) suffix).

Record phase_layout := mk_phase_layout { lay_prefix : list nat; lay_repeating : nat; lay_suffix : list nat }.

Definition layout s : res phase_layout :=
  repeating ← repeating_phase s;
  sequence ← phase_sequence (with_num_rounds s (2 `max` minimum_rounds s));
  let first := find_index sequence repeating in
  let last := length sequence - find_index (reverse sequence) repeating in
  Ok (mk_phase_layout (take first sequence) repeating (drop last sequence)).

Fixpoint find_phase (l : list phase_spec_entry) (id : nat) : res dem_chunk_spec :=
  match l with
  | [] => Throw (InvalidArgument "dem_chunks_spec::get_phase: phase not found")
  | e :: l => if ph_id e =? id then Ok (ph_spec e) else find_phase l id
  end.
Definition get_phase s (id : nat) : res dem_chunk_spec := find_phase (phases s) id.

Definition has_D_sparse s : bool :=
  match phases_supply_D_sparse s with
  | Some b => b
  | None => existsb (λ e, negb (bool_decide (cs_D_sparse (ph_spec e) = []))) (phases s)
  end.

Definition measurements_of s (phase : dem_chunk_spec) : res nat :=
  match cs_num_measurements phase, measurements_per_round s with
  | Some n, _ => Ok n
  | None, Some n => Ok n
  | None, None => Throw (InvalidArgument "dem_chunks_spec: a phase has no measurement count (num_measurements / measurements_per_round)")
  end.

Definition detectors_of s (phase : dem_chunk_spec) (context : string) : res nat :=
  let to_seam := sc_to_seam (spec_seam s) in
  chunk ← dem_chunk_from_spec phase [to_seam; sc_from_seam (spec_seam s)] context;
  w ← seam_rows_or_zero chunk to_seam;
  Ok (u64 (w + num_interior_rows chunk)).

Definition num_observables s : res nat :=
  let in_chain (e : phase_spec_entry) := existsb (λ c, (from_phase c =? ph_id e) || (to_phase c =? ph_id e)) (connections s) in
  let rows (e : phase_spec_entry) := count_rows (cs_O_sparse (ph_spec e)) in
  first ← foldM (λ e first,
            if negb (in_chain e) then Ok first else
            let f := default (rows e) first in
            _ ← throw_if (negb (rows e =? f))
                  (InvalidArgument "dem_chunks_spec: phases differ in observable rows (O_sparse)");
            Ok (Some f)) (phases s) None;
  Ok (default 0 first).
(** ** Validation of a [dem_chunks_spec] *)

(** [rows\[row\] = 1] for every terminated row with an entry, ignoring rows past
    the end. *)
Definition mark_rows (sparse : list Z) (rows : list nat) : list nat :=
  (foldl (λ st v,
     let '(row, rows) := st in
     if (v =? -1)%Z then (S row, rows)
     else if row <? length rows then (row, <[row := 1]> rows) else (row, rows)) (0, rows) sparse).2.

(** The last round of [sequence] that reads each observable. *)
Definition last_readouts s (sequence : list nat) (observables : nat) : res (list (option nat)) :=
  for_u 0 (length sequence) (λ i last,
    p ← vget sequence i;
    phase ← get_phase s p;
    let marks := mark_rows (cs_m2o_sparse phase) (replicate observables 0) in
    for_u 0 observables (λ k last,
      m ← vget marks k;
      if m =? 0 then Ok last else vset last k (Some i)) last) (replicate observables None).

Definition validate_readout_order s (sequence : list nat) : res unit :=
  observables ← num_observables s;
  last ← last_readouts s sequence observables;
  for_u 0 (length sequence) (λ i _,
    p ← vget sequence i;
    phase ← get_phase s p;
    let marks := foldl (λ marks seam, mark_rows (ss_O_sparse (se_spec seam)) marks)
                   (mark_rows (cs_O_sparse phase) (replicate observables 0)) (cs_seam_specs phase) in
    for_u 0 observables (λ k _,
      m ← vget marks k;
      l ← vget last k;
      throw_if (negb (m =? 0) && match l with Some l => l <? i | None => false end)
        (InvalidArgument "dem_chunks_spec: phase flips observable after its last readout")) tt) tt.

(** The readout map of one phase: on no repeating phase, one row per
    observable, reading only its round's measurements. *)
Definition validate_m2o s (observables : nat) (e : phase_spec_entry) : res unit :=
  let m2o := cs_m2o_sparse (ph_spec e) in
  if bool_decide (m2o = []) then Ok tt else
  _ ← throw_if (existsb (λ c, is_self c && (from_phase c =? ph_id e)) (connections s))
        (InvalidArgument "dem_chunks_spec: phase carries m2o_sparse, which a repeating phase may not");
  _ ← throw_if (negb (count_rows m2o =? observables))
        (InvalidArgument "dem_chunks_spec: phase has m2o_sparse rows for observables");
  width ← (if has_D_sparse s then
             _ ← throw_if (bool_decide (cs_num_measurements (ph_spec e) = None) &&
                           bool_decide (measurements_per_round s = None))
                   (InvalidArgument "dem_chunks_spec: phase carries m2o_sparse but neither it nor the spec sets a measurement count");
             measurements_of s (ph_spec e)
           else detectors_of s (ph_spec e) "dem_chunks.");
  let last := foldr Z.max (-1)%Z m2o in
  throw_if ((0 <=? last)%Z && (Z.of_nat width <=? last)%Z)
    (InvalidArgument "dem_chunks_spec: m2o_sparse reads past the measurements its round has").

Definition validate_observables s : res unit :=
  observables ← num_observables s;
  _ ← throw_if (negb (bool_decide (observable_names s = [])) && negb (length (observable_names s) =? observables))
        (InvalidArgument "dem_chunks_spec: observable_names for observables");
  _ ← foldM (λ name names,
        _ ← throw_if (bool_decide (name ∈ names))
              (InvalidArgument "dem_chunks_spec: observable_names repeats");
        Ok (name :: names)) (observable_names s) ([] : list string);
  sequence ← (if has_readout s
              then phase_sequence (with_num_rounds s (2 `max` minimum_rounds s)) else Ok []);
  _ ← foldM (λ e _, validate_m2o s observables e) (phases s) tt;
  validate_readout_order s sequence.

Definition has_phase s (id : nat) : bool := existsb (λ e, ph_id e =? id) (phases s).

Definition spec_validate s : res unit :=
  _ ← throw_if (is_empty s) (InvalidArgument "dem_chunks_spec: no phases or connections");
  _ ← throw_if (bool_decide (length (connections s) = 0))
        (InvalidArgument "dem_chunks_spec: connections must not be empty");
  _ ← throw_if (bool_decide (length (phases s) = 0))
        (InvalidArgument "dem_chunks_spec: phases must not be empty");
  _ ← throw_if match num_rounds s with Some n => n <? 2 | None => false end
        (InvalidArgument "dem_chunks_spec: num_rounds must be >= 2");
  _ ← foldM (λ e _, cs_validate (ph_spec e) "dem_chunks.") (phases s) tt;
  _ ← foldM (λ c _, foldM (λ id _, throw_if (negb (has_phase s id))
          (InvalidArgument "dem_chunks_spec: a connection names a phase which has no spec"))
          [from_phase c; to_phase c] tt) (connections s) tt;
  _ ← validate_observables s;
  _ ← (if bool_decide (phases_supply_D_sparse s = None) then
         let mapped := length (filter (λ e, cs_D_sparse (ph_spec e) ≠ []) (phases s)) in
         throw_if (negb (mapped =? 0) && negb (mapped =? length (phases s)))
           (InvalidArgument "dem_chunks_spec: either every phase carries D_sparse or none does")
       else Ok tt);
  if has_D_sparse s then
    foldM (λ e _, throw_if (bool_decide (cs_num_measurements (ph_spec e) = None) &&
                            bool_decide (measurements_per_round s = None))
        (InvalidArgument "dem_chunks_spec: phase carries D_sparse but neither it nor the spec sets a measurement count"))
      (phases s) tt
  else Ok tt.

(** ** The chunks of a shot *)

Definition dem_chunks_from_spec s : res (list (extended_dem R)) :=
  _ ← spec_validate s;
  seq ← phase_sequence s;
  for_u 0 (length seq) (λ i result,
    p ← vget seq i;
    phase_spec ← get_phase s p;
    let ids := sc_to_seam (spec_seam s) ::
               (if i + 1 <? length seq then [sc_from_seam (spec_seam s)] else []) in
    chunk ← dem_chunk_from_spec phase_spec ids "dem_chunks.";
    Ok (result ++ [chunk])) [].
End spec.
Arguments dem_chunk_spec R : clear implicits.
Arguments phase_spec_entry R : clear implicits.
Arguments dem_chunks_spec R : clear implicits.

(** * Chunk specifications: the chunks they describe

    A chunk that [dem_chunk_from_spec] returns is a valid one: its seams are
    consecutive bands that cover its rows, one per seam of the expanded spec,
    with positional tags. *)

(** ** Terminated rows *)

Lemma terminated_rows_acc rows nested current :
  let '(n, c) := foldl (λ st value,
    let '(nested, current) := st in
    if (value =? -1)%Z then (nested ++ [current], []) else (nested, current ++ [to_u32 value])) (nested, current) rows in
  length n = length nested + count_rows rows ∧
  length (concat n) + length c = length (concat nested) + length current + (length rows - count_rows rows) ∧
  count_rows rows ≤ length rows.
Proof.
  unfold count_rows. revert nested current. induction rows as [|v rows IH]; intros nested current; cbn [foldl].
  - simpl. lia.
  - rewrite filter_cons. destruct (Z.eqb_spec v (-1)) as [->|Hv].
    + rewrite decide_True by done. specialize (IH (nested ++ [current]) []).
      destruct (foldl _ (nested ++ [current], []) rows) as [n c]. rewrite concat_app, !length_app in IH. simpl in *.
      rewrite app_nil_r in IH. lia.
    + rewrite decide_False by done. specialize (IH nested (current ++ [to_u32 v])).
      destruct (foldl _ (nested, current ++ [to_u32 v]) rows) as [n c]. rewrite !length_app in IH. simpl in *. lia.
Qed.

Lemma terminated_rows_spec rows :
  let '(n, c) := terminated_rows rows in
  length n = count_rows rows ∧ length (concat n) ≤ length rows ∧ count_rows rows ≤ length rows.
Proof.
  pose proof (terminated_rows_acc rows [] []) as Ht. unfold terminated_rows.
  destruct (foldl _ ([], []) rows) as [n c]. simpl in Ht. lia.
Qed.

Lemma sparse_from_terminated_rows_ok rows nf m :
  sparse_from_terminated_rows rows nf = Ok m → (Z.of_nat (nf + 1) < 2 ^ 32)%Z → (Z.of_nat (length rows + 1) < 2 ^ 32)%Z →
  ∃ cs, m = of_groups csc (count_rows rows) nf cs ∧ cols_ok (count_rows rows) nf cs ∧ nnz cs ≤ length rows.
Proof.
  unfold sparse_from_terminated_rows. pose proof (terminated_rows_spec rows) as Ht.
  destruct (terminated_rows rows) as [nested current]. destruct Ht as (Hl&Hz&Hc). intros Hm Hnf Hr.
  apply bind_ok in Hm as (?&_&Hm). apply bind_ok in Hm as (m'&Hm'&Hcsc).
  rewrite !wrap_small, Hl in Hm' by lia.
  destruct (from_nested_csr_decides (count_rows rows) nf nested) as [[(Hl'&Hnz&Hb) E]|[_ [msg E]]]; [lia|lia| |congruence].
  rewrite E in Hm'. injection Hm' as <-.
  assert (wf (of_groups csr (count_rows rows) nf nested) nested) as Hwf.
  { apply wf_of_groups; [done|done|lia|lia|lia]. }
  rewrite (to_csc_spec _ nested) in Hcsc by done. injection Hcsc as <-.
  exists (transposed nf nested). split_and!; [done| |].
  - pose proof (wf_transposed _ _ Hwf) as [_ Hb' _ _ Hz']. cbn in Hb', Hz'. split; [apply length_transposed|done|lia|lia|done].
  - unfold nnz. rewrite length_concat_transposed by done. lia.
Qed.

(** ** The seam bands *)

Definition seam_height (e : seam_spec_entry) : nat := count_rows (ss_H_sparse (se_spec e)).
Definition seam_entries (e : seam_spec_entry) : nat := length (ss_H_sparse (se_spec e)).

Fixpoint bands_from (k : nat) (l : list seam_spec_entry) : list seam :=
  match l with
  | [] => []
  | e :: l => mk_seam (se_id e) k (k + seam_height e) :: bands_from (k + seam_height e) l
  end.

Lemma bands_from_app k l l' :
  bands_from k (l ++ l') = bands_from k l ++ bands_from (k + sum_list_with seam_height l) l'.
Proof.
  revert k. induction l as [|e l IH]; intros k; cbn [bands_from app sum_list_with]; [by rewrite Nat.add_0_r|].
  rewrite IH. by rewrite Nat.add_assoc.
Qed.
Lemma bands_from_ids k l : seam_of <$> bands_from k l = se_id <$> l.
Proof. revert k. induction l as [|e l IH]; intros k; cbn; [done|]. by rewrite IH. Qed.
Lemma bands_from_range k l s :
  s ∈ bands_from k l → k ≤ row_begin s ∧ row_begin s ≤ row_end s ∧ row_end s ≤ k + sum_list_with seam_height l.
Proof.
  revert k. induction l as [|e l IH]; intros k; cbn [bands_from sum_list_with]; [by intros ?%elem_of_nil|].
  intros [->|Hs]%elem_of_cons; [simpl; lia|]. specialize (IH _ Hs). lia.
Qed.
Lemma bands_from_apart k l :
  StronglySorted apart ((λ s, (row_begin s, row_end s)) <$> filter (λ s, row_begin s < row_end s) (bands_from k l)).
Proof.
  revert k. induction l as [|e l IH]; intros k; cbn [bands_from]; [constructor|]. rewrite filter_cons.
  case_decide; [|apply IH]. cbn [fmap list_fmap]. constructor; [apply IH|].
  apply Forall_fmap, Forall_forall. intros s [_ Hs]%list_elem_of_filter. apply bands_from_range in Hs.
  left. simpl. lia.
Qed.
Lemma bands_from_widths k l : sum_list_with seam_width (bands_from k l) = sum_list_with seam_height l.
Proof.
  revert k. induction l as [|e l IH]; intros k; cbn [bands_from sum_list_with]; [done|]. rewrite IH.
  unfold seam_width. simpl. lia.
Qed.
Lemma bands_from_cover k l r :
  k ≤ r < k + sum_list_with seam_height l → ∃ s, s ∈ bands_from k l ∧ row_begin s ≤ r < row_end s.
Proof.
  revert k. induction l as [|e l IH]; intros k; cbn [bands_from sum_list_with]; [lia|]. intros Hr.
  destruct (decide (r < k + seam_height e)).
  - eexists. split; [by left|]. simpl. lia.
  - destruct (IH (k + seam_height e)) as (s&Hs&?); [lia|]. exists s. split; [by right|done].
Qed.
Lemma bands_from_width k l id :
  width_in (bands_from k l) id = from_option seam_height 0 (head (filter (λ e, se_id e = id) l)).
Proof.
  revert k. induction l as [|e l IH]; intros k; cbn [bands_from]; [done|]. unfold width_in in *. cbn [find_seam seam_of].
  rewrite filter_cons. destruct (Nat.eqb_spec (se_id e) id).
  - rewrite decide_True by done. unfold seam_width. simpl. lia.
  - rewrite decide_False by done. apply IH.
Qed.

Section spec.
Context {R : Type} `{RateOps R}.
Implicit Types c : extended_dem R.

(** The chunk after the seams [pre]. *)
Record pushed (nf : nat) (rates : list R) (pre : list seam_spec_entry) (st : extended_dem R * nat) : Prop := {
  pu_H : (pre = [] ∧ e_H st.1 = sparse_empty) ∨
         ∃ cs, e_H st.1 = of_groups csc (sum_list_with seam_height pre) nf cs ∧
           cols_ok (sum_list_with seam_height pre) nf cs ∧ nnz cs ≤ sum_list_with seam_entries pre;
  pu_rates : e_error_rates st.1 = rates;
  pu_seams : e_seams st.1 = bands_from 0 pre;
  pu_ids : NoDup (se_id <$> pre);
  pu_tags : length (e_tags st.1) = sum_list_with seam_height pre;
  pu_cursor : st.2 = sum_list_with seam_height pre
}.

Lemma seam_height_le e : seam_height e ≤ seam_entries e.
Proof.
  pose proof (terminated_rows_spec (ss_H_sparse (se_spec e))) as Ht.
  destruct (terminated_rows (ss_H_sparse (se_spec e))). unfold seam_height, seam_entries. lia.
Qed.
Lemma heights_le l : sum_list_with seam_height l ≤ sum_list_with seam_entries l.
Proof. induction l as [|e l IH]; cbn [sum_list_with]; [done|]. pose proof (seam_height_le e). lia. Qed.

Lemma push_seam_ok nf rates pre e st st' :
  (Z.of_nat (nf + 1) < 2 ^ 32)%Z → (Z.of_nat (sum_list_with seam_entries (pre ++ [e]) + 1) < 2 ^ 32)%Z →
  pushed nf rates pre st → push_seam nf e st = Ok st' → pushed nf rates (pre ++ [e]) st'.
Proof.
  intros Hnf Hfit [HH Hr Hs Hids Ht Hc]. destruct st as [c cur]. cbn [fst snd] in *. unfold push_seam.
  intros Hst. apply bind_ok in Hst as (sh&Hsh&Hst). rewrite sum_list_with_app in Hfit. cbn [sum_list_with] in Hfit.
  destruct (sparse_from_terminated_rows_ok _ _ _ Hsh Hnf) as (cs&->&Hcs&Hz); [unfold seam_entries in *; lia|].
  fold (seam_height e) in *. fold (seam_entries e) in *.
  pose proof (heights_le pre) as Hle. pose proof (seam_height_le e) as Hle'.
  apply bind_ok in Hst as (h&Hh&Hst). apply bind_ok in Hst as (c'&Hc'&[= <-]).
  unfold add_seam in Hc'. apply bind_ok in Hc' as (?&Hdup%throw_if_ok&[= <-]).
  cbn [e_H e_O e_error_rates e_seams e_tags num_rows_ of_groups] in *.
  assert (∃ cs', h = of_groups csc (sum_list_with seam_height pre + seam_height e) nf cs' ∧
    cols_ok (sum_list_with seam_height pre + seam_height e) nf cs' ∧
    nnz cs' ≤ sum_list_with seam_entries pre + seam_entries e) as Hgoal.
  { assert (sum_list_with seam_height pre = 0 → (if 0 <? seam_height e then Ok (of_groups csc (seam_height e) nf cs)
        else zero_matrix 0 (u32 nf)) = Ok h →
      ∃ cs', h = of_groups csc (sum_list_with seam_height pre + seam_height e) nf cs' ∧
        cols_ok (sum_list_with seam_height pre + seam_height e) nf cs' ∧
        nnz cs' ≤ sum_list_with seam_entries pre + seam_entries e) as Hfirst.
    { intros H0 Hf. rewrite H0, Nat.add_0_l. destruct (Nat.ltb_spec 0 (seam_height e)).
      - injection Hf as <-. exists cs. split_and!; [done|done|lia].
      - rewrite wrap_small, zero_matrix_spec in Hf by lia. injection Hf as <-.
        assert (seam_height e = 0) as -> by lia. exists (replicate nf []). split_and!; [done|apply cols_ok_empty; lia|].
        rewrite nnz_empty. lia. }
    unfold push_seam_H in Hh. cbn [num_rows_ of_groups] in Hh. destruct HH as [[-> HE]|(cs0&HE&Hcs0&Hz0)].
    - rewrite HE in Hh. apply Hfirst; [done|exact Hh].
    - rewrite HE in Hh. cbn [num_rows_ num_cols_ of_groups] in Hh.
      destruct ((sum_list_with seam_height pre =? 0) && (nf =? 0)) eqn:E0.
      + apply andb_true_iff in E0 as [E0%Nat.eqb_eq _]. by apply Hfirst.
      + destruct (Nat.ltb_spec 0 (seam_height e)).
        * rewrite (vstack_spec _ _ _ cs0 cs) in Hh by (done || lia). injection Hh as <-.
          eexists. split_and!; [done|apply stack_ok; (done || lia)|].
          rewrite nnz_stack; [lia|]. by rewrite (co_length _ _ _ Hcs0), (co_length _ _ _ Hcs).
        * injection Hh as <-. assert (seam_height e = 0) as -> by lia. exists cs0. rewrite !Nat.add_0_r. split_and!; [done|done|lia]. }
  assert (sum_list_with seam_height (pre ++ [e]) = sum_list_with seam_height pre + seam_height e) as Hsum
    by (rewrite sum_list_with_app; simpl; lia).
  assert (sum_list_with seam_entries (pre ++ [e]) = sum_list_with seam_entries pre + seam_entries e) as Hent
    by (rewrite sum_list_with_app; simpl; lia).
  split; cbn [fst snd e_H e_O e_error_rates e_seams e_tags]; rewrite ?Hsum, ?Hent.
  - right. exact Hgoal.
  - done.
  - rewrite bands_from_app, <-Hs, Nat.add_0_l. cbn [bands_from]. rewrite Hc. rewrite wrap_small by lia. done.
  - rewrite fmap_app. apply NoDup_app. split_and!; [done| |apply NoDup_singleton].
    intros id Hid ->%list_elem_of_singleton. unfold has_seam in Hdup. cbn [e_seams] in Hdup. rewrite Hs in Hdup.
    assert (existsb (λ s, seam_of s =? se_id e) (bands_from 0 pre) = true); [|congruence].
    rewrite <-(bands_from_ids 0) in Hid. apply list_elem_of_fmap in Hid as (s&Hid&Hin).
    apply existsb_exists. exists s. split; [by apply list_elem_of_In|]. by apply Nat.eqb_eq.
  - rewrite length_app, length_seq, Ht. done.
  - rewrite Hc. apply wrap_small. lia.
Qed.

(** ** The built chunk *)

(** Sizes of a spec in memory. *)
Definition spec_sized (w : dem_chunk_spec R) : Prop :=
  (Z.of_nat (cs_num_faults w + 1) < 2 ^ 32)%Z ∧ (Z.of_nat (length (cs_O_sparse w) + 1) < 2 ^ 32)%Z ∧
  (Z.of_nat (sum_list_with seam_entries (cs_seam_specs w) + 1) < 2 ^ 32)%Z.

Record chunk_built (w : dem_chunk_spec R) c : Prop := {
  cb_typed : typed c;
  cb_valid : valid_chunk c;
  cb_interior : interior c = [];
  cb_rates : e_error_rates c = cs_error_rates w;
  cb_seams : e_seams c = bands_from 0 (cs_seam_specs w)
}.

Lemma expand_rates (spec : dem_chunk_spec R) ids : cs_error_rates (cs_expand spec ids) = cs_error_rates spec.
Proof. unfold cs_expand. by repeat case_bool_decide. Qed.
Lemma expand_faults (spec : dem_chunk_spec R) ids : cs_num_faults (cs_expand spec ids) = cs_num_faults spec.
Proof. unfold cs_expand. by repeat case_bool_decide. Qed.

Lemma dem_chunk_from_spec_ok (spec : dem_chunk_spec R) ids ctx c :
  dem_chunk_from_spec spec ids ctx = Ok c → spec_sized (cs_expand spec ids) →
  length (cs_error_rates spec) = cs_num_faults spec ∧ chunk_built (cs_expand spec ids) c.
Proof.
  unfold dem_chunk_from_spec. set (w := cs_expand spec ids). intros Hm (Hnf&HO&Hes).
  apply bind_ok in Hm as (?&Hv&Hm). apply bind_ok in Hm as (?&_&Hm). apply bind_ok in Hm as ([r cur]&Hf&Hm).
  apply bind_ok in Hm as (h&Hh&Hm). apply bind_ok in Hm as (o&Ho&[= <-]).
  assert (length (cs_error_rates spec) = cs_num_faults spec) as Hrates.
  { unfold cs_validate in Hv. cbv zeta in Hv. apply bind_ok in Hv as (?&_&Hv). apply bind_ok in Hv as (?&_&Hv).
    apply bind_ok in Hv as (?&Hr%throw_if_ok&_). by apply negb_false_iff, Nat.eqb_eq in Hr. }
  split; [done|].
  assert (length (cs_error_rates w) = cs_num_faults w) as Hw by (unfold w; by rewrite expand_rates, expand_faults).
  assert (pushed (cs_num_faults w) (cs_error_rates w) (cs_seam_specs w) (r, cur)) as [HH Hr Hs Hids Ht Hc].
  { assert (∀ post pre st, cs_seam_specs w = pre ++ post → pushed (cs_num_faults w) (cs_error_rates w) pre st →
      foldM (push_seam (cs_num_faults w)) post st = Ok (r, cur) →
      pushed (cs_num_faults w) (cs_error_rates w) (cs_seam_specs w) (r, cur)) as Hcut.
    { induction post as [|e post IH]; intros pre st Hpre Hp Hst; cbn [foldM] in Hst.
      - injection Hst as ->. by rewrite Hpre, app_nil_r.
      - apply bind_ok in Hst as (st1&H1&Hst). apply (IH (pre ++ [e]) st1); [by rewrite <-app_assoc| |done].
        eapply push_seam_ok; [done| |done|done].
        rewrite Hpre, !sum_list_with_app in Hes. rewrite sum_list_with_app. simpl in *. lia. }
    eapply (Hcut _ []); [done| |exact Hf]. split; cbn; [by left|done|done|constructor|done|done]. }
  cbn [fst snd] in *. pose proof (heights_le (cs_seam_specs w)) as Hle.
  assert (∃ cs, h = of_groups csc (sum_list_with seam_height (cs_seam_specs w)) (cs_num_faults w) cs ∧
    cols_ok (sum_list_with seam_height (cs_seam_specs w)) (cs_num_faults w) cs) as (cs&->&Hcs).
  { destruct (Nat.eqb_spec cur 0) as [E|E].
    - rewrite wrap_small, zero_matrix_spec in Hh by lia. injection Hh as <-. rewrite <-Hc, E.
      eexists. split; [done|]. apply cols_ok_empty. lia.
    - injection Hh as <-. destruct HH as [[E' _]|(cs&->&?&_)]; [rewrite E' in Hc; done|eauto]. }
  destruct (sparse_from_terminated_rows_ok _ _ _ Ho Hnf HO) as (os&->&Hos&_).
  split; cbn [e_H e_O e_error_rates e_seams e_tags].
  - split; cbn [e_H e_O e_error_rates e_seams e_tags].
    + eexists. by apply wf_cols.
    + left. eexists. by apply wf_cols.
    + rewrite Hr, Hw. lia.
    + by rewrite Hs, bands_from_ids.
    + rewrite Hs. apply Forall_forall. intros b Hb%bands_from_range. lia.
  - split; cbn [e_H e_O e_error_rates e_seams e_tags num_rows_ num_cols_ of_groups].
    + by rewrite Hr, Hw.
    + right. by rewrite Hr, Hw.
    + rewrite Hs. intros b Hb%bands_from_range. lia.
    + unfold bands. cbn [e_seams]. rewrite Hs. apply bands_from_apart.
    + by rewrite Hs, bands_from_widths.
  - unfold interior. cbn [e_H e_seams num_rows_ of_groups]. rewrite Hs. apply elem_of_nil_inv. intros q.
    rewrite list_elem_of_filter, elem_of_seq. unfold outside. rewrite negb_True, Is_true_true. intros [Hn Hq].
    apply Hn. destruct (bands_from_cover 0 (cs_seam_specs w) q) as (b&Hb&Hbx); [lia|].
    apply existsb_exists. exists b. split; [by apply list_elem_of_In|]. by apply in_band_true.
  - done.
  - done.
Qed.

(** The incoming seam of a phase is the same inside the shot and at its end. *)
Lemma expand_width (spec : dem_chunk_spec R) to from k :
  to ≠ from →
  width_in (bands_from k (cs_seam_specs (cs_expand spec [to; from]))) to =
    width_in (bands_from k (cs_seam_specs (cs_expand spec [to]))) to.
Proof.
  intros Hne. rewrite !bands_from_width. unfold cs_expand. case_bool_decide as Es; [|done]. cbn [negb].
  case_bool_decide as Eh; [by rewrite Es|]. cbn [cs_seam_specs fmap list_fmap]. rewrite !filter_cons.
  cbn [se_id]. by destruct (decide (to = to)).
Qed.
End spec.
