(* ===== verification/ExperimentTemplate.v ===== *)
(** * Experiment templates

    Model of [experiment_template]
    (libs/qec/lib/decoding_task/decoding_task_experiment_template.cpp and its
    header): a [dem_chunks_spec] viewed as a shot of any length, with the phase,
    the chunk and the row, column and measurement offsets of every round in
    closed form.  [std::map] is an association list in insertion order, which
    [find] reads by key; [std::set] is a list read by membership. *)

From S2P Require Import Prelude Rates Tensor SparseMatrix RoundLayout DetectorErrorModel ExtendedDem ChunkSpec.

(** [map.at(k)] *)
Fixpoint map_at {A} (m : list (nat * A)) (k : nat) : res A :=
  match m with
  | [] => Throw (OutOfRange "map::at")
  | (k', a) :: m => if k' =? k then Ok a else map_at m k
  end.
(** [map.emplace(k, a)]: the first value of a key stays. *)
Definition map_emplace {A} (m : list (nat * A)) (k : nat) (a : A) : list (nat * A) :=
  if bool_decide (k ∈ m.*1) then m else m ++ [(k, a)].

Section template.
Context {R : Type} `{RateOps R}.

(** [phase_chunks] *)
Record phase_chunks := mk_phase_chunks {
  pc_inner : extended_dem R;
  pc_last : extended_dem R;
  pc_rows : nat;
  pc_faults : nat;
  pc_measurements : option nat
}.

Record experiment_template := mk_template {
  t_spec : dem_chunks_spec R;
  t_repeats : bool;
  t_prefix : list nat;
  t_suffix : list nat;
  t_bulk : nat;
  t_last : nat;
  t_min_rounds : nat;
  t_max_span : nat;
  t_num_observables : nat;
  t_phases : list (nat * phase_chunks);
  t_prefix_rows : list nat;
  t_suffix_rows : list nat;
  t_bulk_rows : nat
}.

Implicit Types t : experiment_template.

(** ** Construction *)

Definition reaches_next_round (c : extended_dem R) (from : nat) : res bool :=
  if negb (has_seam c from) then Ok false else
  band ← get_seam c from;
  h ← to_csc (e_H c);
  Ok (existsb (λ row, in_band row band) (indices_ h)).

(** [check_uniform_round]; [uniform] is the first phase's round width. *)
Definition check_uniform_round (from : nat) (p : phase_chunks) (uniform : option nat)
    : res (option nat) :=
  next ← seam_rows_or_zero (pc_inner p) from;
  let u := default (pc_rows p) uniform in
  _ ← throw_if (negb (pc_rows p =? u))
        (InvalidArgument "experiment_template: without D_sparse rows every round needs the same detectors");
  _ ← throw_if (negb (next =? 0) && negb (next =? pc_rows p))
        (InvalidArgument "experiment_template: without D_sparse rows every round needs the same detectors");
  Ok (Some u).

(** One phase of the chain: its chunk inside the shot and at its end. *)
Definition build_phase (spec : dem_chunks_spec R) (entry : phase_spec_entry R) : res phase_chunks :=
  let to := sc_to_seam (spec_seam spec) in
  let from := sc_from_seam (spec_seam spec) in
  inner ← dem_chunk_from_spec (ph_spec entry) [to; from] "dem_chunks.";
  last ← dem_chunk_from_spec (ph_spec entry) [to] "dem_chunks.";
  _ ← throw_if (negb (num_interior_rows inner =? 0))
        (InvalidArgument "experiment_template: phase spans more than one round");
  rows ← detectors_of spec (ph_spec entry) "dem_chunks.";
  measurements ← (if negb (has_D_sparse spec) then Ok (Some rows)
                  else if negb (bool_decide (cs_num_measurements (ph_spec entry) = None)) ||
                          negb (bool_decide (measurements_per_round spec = None))
                  then m ← measurements_of spec (ph_spec entry); Ok (Some m)
                  else Ok None);
  Ok (mk_phase_chunks inner last rows (num_faults inner) measurements).

(** The loop over [spec_.phases]: [phases_], [max_span_] and [uniform]. *)
Definition build_phases (spec : dem_chunks_spec R) (chain : list nat)
    : res (list (nat * phase_chunks) * nat * option nat) :=
  let from := sc_from_seam (spec_seam spec) in
  foldM (λ entry st,
    let '(built, max_span, uniform) := st in
    if negb (bool_decide (ph_id entry ∈ chain)) then Ok (built, max_span, uniform) else
    p ← build_phase spec entry;
    reaches ← reaches_next_round (pc_inner p) from;
    uniform ← (if negb (has_D_sparse spec) then check_uniform_round from p uniform else Ok uniform);
    Ok (map_emplace built (ph_id entry) p, if (reaches : bool) then 1 else max_span, uniform))
    (phases spec) ([], 0, None).

(** [rows.push_back(rows.back() + phases_.at(id).rows)] for every id. *)
Definition accumulate_rows (built : list (nat * phase_chunks)) (ids : list nat) : res (list nat) :=
  foldM (λ id rows, p ← map_at built id; Ok (rows ++ [u64 (default 0 (last rows) + pc_rows p)])) ids [0].

Definition split_phases (spec : dem_chunks_spec R) : res (bool * list nat * nat * list nat * nat * nat) :=
  let repeats := has_repeating_phase spec in
  if repeats then
    lay ← layout spec;
    Ok (repeats, lay_prefix lay, lay_repeating lay, lay_suffix lay,
        default (lay_repeating lay) (last (lay_suffix lay)), 2 `max` minimum_rounds spec)
  else
    prefix ← phase_sequence spec;
    match last prefix with
    | Some l => Ok (repeats, prefix, 0, [], l, length prefix)
    | None => Undef
    end.

Definition make_template (spec : dem_chunks_spec R) : res experiment_template :=
  _ ← spec_validate spec;
  st ← split_phases spec;
  let '(repeats, prefix, bulk, suffix, last, min_rounds) := st : bool * list nat * nat * list nat * nat * nat in
  _ ← throw_if (repeats && match num_rounds spec with Some n => n <? min_rounds | None => false end)
        (InvalidArgument "experiment_template: num_rounds is below the rounds the phase chain needs");
  num_observables ← num_observables spec;
  let chain := prefix ++ suffix ++ (if repeats then [bulk] else []) in
  st ← build_phases spec chain;
  let '(built, max_span, _) := st : list (nat * phase_chunks) * nat * option nat in
  _ ← (if repeats then
         for_u 0 (length suffix - 1) (λ i _,
           id ← vget suffix i;
           p ← map_at built id;
           b ← map_at built bulk;
           throw_if (negb (bool_decide (pc_measurements p = pc_measurements b)))
             (InvalidArgument "experiment_template: suffix phase precedes FINAL, so it needs the bulk measurement width")) tt
       else Ok tt);
  prefix_rows ← accumulate_rows built prefix;
  suffix_rows ← accumulate_rows built suffix;
  bulk_rows ← (if repeats then p ← map_at built bulk; Ok (pc_rows p) else Ok 0);
  Ok (mk_template spec repeats prefix suffix bulk last min_rounds max_span num_observables built
        prefix_rows suffix_rows bulk_rows).

(** ** Queries *)

Definition prefix_rounds t : nat := length (t_prefix t).
Definition suffix_rounds t : nat := length (t_suffix t).

Definition check_round t (r last R : nat) : res unit :=
  _ ← throw_if (R <? t_min_rounds t)
        (InvalidArgument "experiment_template: shot is shorter than the minimum");
  _ ← throw_if (negb (t_repeats t) && negb (R =? t_min_rounds t))
        (InvalidArgument "experiment_template: a spec without a repeating phase admits only its own shots");
  throw_if (last <? r) (InvalidArgument "experiment_template: round is past the shot").

Definition t_phase t (r R : nat) : res nat :=
  let tail := u64_sub R (length (t_suffix t)) in
  _ ← check_round t r (u64_sub R 1) R;
  if r <? length (t_prefix t) then vget (t_prefix t) r
  else if r <? tail then Ok (t_bulk t) else vget (t_suffix t) (r - tail).

Definition t_chunk t (r R : nat) : res (extended_dem _) :=
  id ← t_phase t r R;
  p ← map_at (t_phases t) id;
  Ok (if r + 1 <? R then pc_inner p else pc_last p).

Definition sum_before t (r R : nat) (size : phase_chunks → res nat) : res nat :=
  let tail := u64_sub R (length (t_suffix t)) in
  let size_of id := p ← map_at (t_phases t) id; size p in
  _ ← check_round t r R R;
  total ← for_u 0 (r `min` length (t_prefix t)) (λ i total,
            id ← vget (t_prefix t) i; n ← size_of id; Ok (u64 (total + n))) 0;
  total ← (if t_repeats t && (length (t_prefix t) <? r) then
             n ← size_of (t_bulk t);
             Ok (u64 (total + u64 (u64_sub (r `min` tail) (length (t_prefix t)) * n)))
           else Ok total);
  for_u tail r (λ i total,
    id ← vget (t_suffix t) (i - tail); n ← size_of id; Ok (u64 (total + n))) total.

Definition row_offset t (r R : nat) : res nat :=
  let tail := u64_sub R (length (t_suffix t)) in
  _ ← check_round t r R R;
  total ← vget (t_prefix_rows t) (r `min` length (t_prefix t));
  let total := if t_repeats t && (length (t_prefix t) <? r)
               then u64 (total + u64 (u64_sub (r `min` tail) (length (t_prefix t)) * t_bulk_rows t))
               else total in
  if tail <? r then s ← vget (t_suffix_rows t) (r - tail); Ok (u64 (total + s)) else Ok total.

Definition column_offset t (r R : nat) : res nat := sum_before t r R (λ p, Ok (pc_faults p)).

Definition measurement_offset t (r R : nat) : res nat :=
  sum_before t r R (λ p,
    match pc_measurements p with
    | Some m => Ok m
    | None => Throw (InvalidArgument "experiment_template: a phase has no measurement count (num_measurements / measurements_per_round)")
    end).

(** The readout map of the last phase, and which phases read. *)
Definition readout t : res (list Z) := p ← get_phase (t_spec t) (t_last t); Ok (cs_m2o_sparse p).

Definition reads_only_at_end t : res bool :=
  if existsb (λ e, negb (ph_id e =? t_last t) && negb (bool_decide (cs_m2o_sparse (ph_spec e) = [])))
       (phases (t_spec t))
  then Ok false else r ← readout t; Ok (negb (bool_decide (r = []))).

Definition readout_of t (r R : nat) : res (list Z) :=
  id ← t_phase t r R; p ← get_phase (t_spec t) id; Ok (cs_m2o_sparse p).
End template.
Arguments phase_chunks R : clear implicits.
Arguments experiment_template R : clear implicits.
