(* ===== verification/TemplateFacts.v ===== *)
(** * Experiment templates: the closed form of a shot

    A template whose fields fit together ([template_ok], which the constructor
    establishes) answers every query of a round from the list of the shot's
    phases, prefix, repeated bulk and suffix, as if the shot were expanded. *)

From S2P Require Import Prelude Rates Tensor SparseMatrix RoundLayout DetectorErrorModel ExtendedDem ExtendedFacts ChunkSpec ExperimentTemplate.

(** ** Loops over a list of ids *)

Lemma for_u_shift {S} lo hi (f : nat → S → res S) s :
  for_u lo hi (λ i, f (i - lo)) s = for_u 0 (hi - lo) f s.
Proof.
  unfold for_u. rewrite Nat.sub_0_r. replace (seq lo (hi - lo)) with (Nat.add lo <$> seq 0 (hi - lo)) by
    (rewrite fmap_add_seq; f_equal; lia).
  rewrite foldM_map. apply foldM_ext. intros b s' _. by replace (lo + b - lo) with b by lia.
Qed.

Lemma map_at_emplace {A} (m : list (nat * A)) k a k' p :
  map_at m k' = Ok p → map_at (map_emplace m k a) k' = Ok p.
Proof.
  unfold map_emplace. case_bool_decide; [done|]. induction m as [|[k1 a1] m IH]; simpl; [done|].
  destruct (Nat.eqb_spec k1 k'); [done|]. apply IH. set_solver.
Qed.
Lemma map_at_elem {A} (m : list (nat * A)) k : k ∈ m.*1 → ∃ p, map_at m k = Ok p.
Proof.
  induction m as [|[k1 a1] m IH]; simpl; intros Hk; [set_solver|].
  destruct (Nat.eqb_spec k1 k); [eauto|]. apply IH. set_solver.
Qed.
Lemma map_at_elem_of {A} (m : list (nat * A)) k p : map_at m k = Ok p → (k, p) ∈ m.
Proof.
  induction m as [|[k1 a1] m IH]; simpl; [done|].
  destruct (Nat.eqb_spec k1 k) as [->|]; [intros [= ->]; by left|]. intros ?. right. auto.
Qed.

Section facts.
Context {R : Type}.
Implicit Types t : experiment_template R.
Implicit Types p : phase_chunks R.

(** [ps] are the phases that the ids name. *)
Definition built_as t : list nat → list (phase_chunks R) → Prop :=
  Forall2 (λ id p, map_at (t_phases t) id = Ok p).

Lemma built_as_unique t ids ps ps' : built_as t ids ps → built_as t ids ps' → ps = ps'.
Proof.
  unfold built_as. intros H1. revert ps'. induction H1 as [|id p ids ps Hp _ IH]; intros ps' H2.
  - by apply Forall2_nil_inv_l in H2.
  - apply Forall2_cons_inv_l in H2 as (p'&ps''&Hp'&H2&->). f_equal; [congruence|auto].
Qed.

(** The loop [for (i < k) total += size(phases_.at(ids\[i\]))]. *)
Lemma sum_loop t ids ps (size : phase_chunks R → res nat) (f : phase_chunks R → nat) k acc :
  built_as t ids ps → (∀ p, p ∈ ps → size p = Ok (f p)) → k ≤ length ids →
  (Z.of_nat (acc + sum_list_with f (take k ps)) < 2 ^ 64)%Z →
  for_u 0 k (λ i total, id ← vget ids i;
    n ← (p ← map_at (t_phases t) id; size p); Ok (u64 (total + n))) acc =
    Ok (acc + sum_list_with f (take k ps)).
Proof.
  intros Hb Hf Hk Hs. assert (length ids = length ps) as Hl by by eapply Forall2_length.
  destruct (for_u_inv 0 k (λ i total, id ← vget ids i;
    n ← (p ← map_at (t_phases t) id; size p); Ok (u64 (total + n)))
    (λ i total, total = acc + sum_list_with f (take i ps)) acc) as (a&->&->); [lia|simpl; lia| |done].
  intros i s Hi ->. destruct (lookup_lt_is_Some_2 ids i) as [id Hid]; [lia|].
  destruct (Forall2_lookup_l _ _ _ _ _ Hb Hid) as (p&Hp&Hat). rewrite (vget_ok _ _ _ Hid). cbn [mbind res_bind].
  rewrite Hat. cbn [mbind res_bind]. rewrite Hf by (by eapply list_elem_of_lookup_2). cbn [mbind res_bind].
  apply returns_ok. rewrite Nat.add_1_r, (sum_take_S _ _ _ _ Hp), Nat.add_assoc. apply wrap_small.
  assert (sum_list_with f (take (S i) ps) ≤ sum_list_with f (take k ps)) as Hle.
  { replace (take (S i) ps) with (take (S i) (take k ps)) by (rewrite take_take; f_equal; lia). apply sum_take_le. }
  rewrite (sum_take_S _ _ _ _ Hp) in Hle. lia.
Qed.

(** The sum over the first [r] rounds splits at the bulk. *)
Lemma sum_split {A} (f : A → nat) (l1 l2 l3 : list A) v r :
  Forall (λ x, f x = v) l2 →
  sum_list_with f (take r (l1 ++ l2 ++ l3)) =
    sum_list_with f (take (r `min` length l1) l1) + ((r `min` (length l1 + length l2)) - length l1) * v +
    sum_list_with f (take (r - (length l1 + length l2)) l3).
Proof.
  intros Hv. rewrite take_app, sum_list_with_app, take_app, sum_list_with_app.
  assert (∀ k, sum_list_with f (take k l2) = k `min` length l2 * v) as ->.
  { induction Hv as [|x l Hx _ IH]; intros [|k]; simpl; [done..|]. rewrite Hx, IH. lia. }
  replace (take (r `min` length l1) l1) with (take r l1) by
    (destruct (decide (r ≤ length l1)); [f_equal; lia|]; rewrite (take_ge _ r), take_ge by lia; done).
  replace ((r - length l1) `min` length l2) with (r `min` (length l1 + length l2) - length l1) by lia.
  replace (r - length l1 - length l2) with (r - (length l1 + length l2)) by lia. lia.
Qed.

(** ** Templates *)

Definition shot_phases t (n : nat) : list nat :=
  if t_repeats t
  then t_prefix t ++ replicate (n - length (t_prefix t) - length (t_suffix t)) (t_bulk t) ++ t_suffix t
  else t_prefix t.

(** The shot lengths [check_round] accepts. *)
Definition admits t (n : nat) : Prop := t_min_rounds t ≤ n ∧ (t_repeats t = false → n = t_min_rounds t).

Definition chain_ids t : list nat :=
  t_prefix t ++ t_suffix t ++ (if t_repeats t then [t_bulk t] else []).

Record template_ok t : Prop := {
  ok_min : t_repeats t = true → length (t_prefix t) + length (t_suffix t) + 1 ≤ t_min_rounds t;
  ok_fixed : t_repeats t = false → t_suffix t = [] ∧ t_min_rounds t = length (t_prefix t);
  ok_built : ∀ id, id ∈ chain_ids t → ∃ p, map_at (t_phases t) id = Ok p;
  ok_prefix_rows : accumulate_rows (t_phases t) (t_prefix t) = Ok (t_prefix_rows t);
  ok_suffix_rows : accumulate_rows (t_phases t) (t_suffix t) = Ok (t_suffix_rows t);
  ok_bulk_rows : t_repeats t = true → ∃ p, map_at (t_phases t) (t_bulk t) = Ok p ∧ t_bulk_rows t = pc_rows p
}.

(** The phases of a shot. *)
Definition shot_of t (n : nat) (ps : list (phase_chunks R)) : Prop := built_as t (shot_phases t n) ps.

Lemma built_exists t ids : (∀ id, id ∈ ids → ∃ p, map_at (t_phases t) id = Ok p) → ∃ ps, built_as t ids ps.
Proof.
  induction ids as [|id ids IH]; intros Hall; [exists []; constructor|].
  destruct (Hall id) as [p Hp]; [by left|]. destruct IH as [ps Hps]; [intros; apply Hall; by right|].
  exists (p :: ps). by constructor.
Qed.

Lemma shot_ids t n id : id ∈ shot_phases t n → id ∈ chain_ids t.
Proof.
  unfold shot_phases, chain_ids. destruct (t_repeats t); rewrite !elem_of_app; [|tauto].
  rewrite list_elem_of_singleton. intros [?|[Hr|?]]; [tauto| |tauto].
  apply elem_of_replicate in Hr as [-> _]. tauto.
Qed.

Lemma shot_exists t n : template_ok t → ∃ ps, shot_of t n ps.
Proof. intros Hok. apply built_exists. intros id Hid. apply (ok_built t Hok). by eapply shot_ids. Qed.

Section shot.
Context t (Hok : template_ok t) n (Hadm : admits t n) (Hn : (Z.of_nat n < 2 ^ 64)%Z).

Lemma length_shot_phases : length (shot_phases t n) = n.
Proof.
  destruct Hadm as [Hm Hf]. unfold shot_phases. destruct (t_repeats t) eqn:E.
  - rewrite !length_app, length_replicate. pose proof (ok_min t Hok E). lia.
  - destruct (ok_fixed t Hok E) as [_ Hl]. rewrite <-Hl. symmetry. by apply Hf.
Qed.

Lemma shot_length ps : shot_of t n ps → length ps = n.
Proof. intros Hs. rewrite <-length_shot_phases. symmetry. by eapply Forall2_length. Qed.

Lemma check_round_ok r last : r ≤ last → check_round t r last n = Ok tt.
Proof.
  intros Hr. destruct Hadm as [Hm Hf]. unfold check_round.
  destruct (Nat.ltb_spec n (t_min_rounds t)); [lia|]. cbn [throw_if mbind res_bind].
  destruct (Nat.ltb_spec last r); [lia|]. cbn [throw_if].
  destruct (t_repeats t); [done|]. rewrite Hf by done. by rewrite Nat.eqb_refl.
Qed.

Lemma tail_eq : u64_sub n (length (t_suffix t)) = n - length (t_suffix t).
Proof.
  apply u64_sub_le; [|done]. destruct (t_repeats t) eqn:E.
  - pose proof (ok_min t Hok E). destruct Hadm. lia.
  - destruct (ok_fixed t Hok E) as [-> _]. simpl. lia.
Qed.

(** The three parts of a shot; without a repeating phase the middle one is
    empty. *)
Lemma shot_parts ps : shot_of t n ps →
  ∃ l1 l2 l3, ps = l1 ++ l2 ++ l3 ∧
    built_as t (t_prefix t) l1 ∧ built_as t (t_suffix t) l3 ∧
    (∀ p, p ∈ l2 → map_at (t_phases t) (t_bulk t) = Ok p) ∧
    (t_repeats t = false → l2 = []) ∧
    length l1 + length l2 = n - length (t_suffix t).
Proof.
  intros Hs. unfold shot_of, shot_phases in Hs. destruct Hadm as [Hm Hf]. destruct (t_repeats t) eqn:E.
  - apply Forall2_app_inv_l in Hs as (l1&k&H1&Hs&->). apply Forall2_app_inv_l in Hs as (l2&l3&H2&H3&->).
    exists l1, l2, l3. split_and!; [done|done|done| |done|].
    + intros p Hp. apply list_elem_of_lookup in Hp as [i Hi].
      destruct (Forall2_lookup_r _ _ _ _ _ H2 Hi) as (id&Hid&Hat). by apply lookup_replicate in Hid as [-> _].
    + pose proof (ok_min t Hok E). rewrite <-(Forall2_length _ _ _ H1), <-(Forall2_length _ _ _ H2), length_replicate. lia.
  - destruct (ok_fixed t Hok E) as [Es El]. rewrite Es. exists ps, [], [].
    rewrite !app_nil_r. split_and!; [done|done|constructor|set_solver|done|].
    simpl. rewrite <-(Forall2_length _ _ _ Hs). rewrite <-El, <-Hf by done. lia.
Qed.

(** ** Offsets in closed form *)

Lemma sum_before_eq ps (size : phase_chunks R → res nat) (f : phase_chunks R → nat) r :
  shot_of t n ps → (∀ p, p ∈ ps → size p = Ok (f p)) →
  (t_repeats t = true → ∃ p, map_at (t_phases t) (t_bulk t) = Ok p ∧ size p = Ok (f p)) → r ≤ n →
  (Z.of_nat (sum_list_with f ps) < 2 ^ 64)%Z →
  sum_before t r n size = Ok (sum_list_with f (take r ps)).
Proof.
  intros Hs Hsize Hbulk Hr Hfit. destruct (shot_parts ps Hs) as (l1&l2&l3&->&H1&H3&H2&Hnr&Hlen).
  pose proof (Forall2_length _ _ _ H1) as L1. pose proof (Forall2_length _ _ _ H3) as L3.
  unfold sum_before. rewrite check_round_ok, tail_eq by done. cbn [mbind res_bind].
  assert (∃ v, Forall (λ x, f x = v) l2 ∧
    (t_repeats t = true → ∃ p, map_at (t_phases t) (t_bulk t) = Ok p ∧ size p = Ok v)) as (v&Hv&Hbv).
  { destruct (t_repeats t) eqn:E.
    - destruct Hbulk as (p&Hp&Hsz); [done|]. exists (f p). split; [|eauto].
      apply Forall_forall. intros x Hx. f_equal. specialize (H2 x Hx). congruence.
    - exists 0. rewrite Hnr by done. split; [by constructor|done]. }
  pose proof (sum_split f l1 l2 l3 v r Hv) as Hsplit. pose proof (sum_take_le f (l1 ++ l2 ++ l3) r) as Hle.
  remember ((r `min` (length l1 + length l2) - length l1) * v) as mid eqn:Hmid.
  rewrite !L1. rewrite (sum_loop t _ l1 size f) by (done || lia || (intros; apply Hsize; set_solver)).
  cbn [mbind res_bind].
  match goal with |- (?m ≫= _) = _ =>
    assert (m = Ok (sum_list_with f (take (r `min` length l1) l1) + mid)) as -> end.
  { destruct (t_repeats t) eqn:E; cbn [andb].
    - destruct (Nat.ltb_spec (length l1) r) as [Hlt|Hge].
      + destruct Hbv as (p&Hp&Hpv); [done|]. rewrite Hp. cbn [mbind res_bind]. rewrite Hpv. cbn [mbind res_bind].
        rewrite <-Hlen, u64_sub_le, <-Hmid by lia. by rewrite 2!wrap_small by (rewrite ?wrap_small; lia).
      + replace (r `min` (length l1 + length l2) - length l1) with 0 in Hmid by lia. subst mid. f_equal. lia.
    - rewrite (Hnr eq_refl) in Hmid. cbn [length] in Hmid.
      replace (r `min` (length l1 + 0) - length l1) with 0 in Hmid by lia. subst mid. f_equal. lia. }
  cbn [mbind res_bind]. rewrite (for_u_shift (n - length (t_suffix t)) r (λ i total,
    id ← vget (t_suffix t) i; n ← (p ← map_at (t_phases t) id; size p); Ok (u64 (total + n)))).
  rewrite (sum_loop t _ l3 size f).
  - rewrite Hsplit, Hlen. done.
  - done.
  - intros. apply Hsize. set_solver.
  - lia.
  - rewrite <-Hlen. lia.
Qed.

(** The precomputed sums are the running sums of the phases' rows. *)
Lemma accumulate_lookup ids ps rows k :
  built_as t ids ps → accumulate_rows (t_phases t) ids = Ok rows → k ≤ length ids →
  (Z.of_nat (sum_list_with pc_rows ps) < 2 ^ 64)%Z → rows !! k = Some (sum_list_with pc_rows (take k ps)).
Proof.
  intros Hb Ha Hk Hfit. pose proof (Forall2_length _ _ _ Hb) as Hl.
  destruct (foldM_inv (λ id rows, p ← map_at (t_phases t) id; Ok (rows ++ [u64 (default 0 (last rows) + pc_rows p)]))
    (λ pre rows, rows = (λ j, sum_list_with pc_rows (take j ps)) <$> seq 0 (S (length pre))) ids [0]) as (rows'&Hr&Hrows).
  - done.
  - intros pre id post rows' -> ->.
    destruct (Forall2_lookup_l _ _ _ (length pre) id Hb) as (p&Hp&Hat); [by rewrite list_lookup_middle|].
    rewrite Hat. cbn [mbind res_bind]. apply returns_ok. rewrite length_app. cbn [length].
    replace (length pre + 1) with (S (length pre)) by lia.
    rewrite (seq_S (S (length pre)) 0), fmap_app. f_equal. cbn [fmap list_fmap]. f_equal.
    rewrite (seq_S (length pre) 0), fmap_app, last_app. cbn [fmap list_fmap last default].
    rewrite !Nat.add_0_l, (sum_take_S _ _ _ _ Hp). apply wrap_small.
    pose proof (sum_take_le pc_rows ps (S (length pre))) as Hle. rewrite (sum_take_S _ _ _ _ Hp) in Hle. lia.
  - unfold accumulate_rows in Ha. rewrite Hr in Ha. injection Ha as ->. rewrite Hrows, list_lookup_fmap.
    by rewrite lookup_seq_lt by lia.
Qed.

Lemma row_offset_eq ps r :
  shot_of t n ps → r ≤ n → (Z.of_nat (sum_list_with pc_rows ps) < 2 ^ 64)%Z →
  row_offset t r n = Ok (sum_list_with pc_rows (take r ps)).
Proof.
  intros Hs Hr Hfit. destruct (shot_parts ps Hs) as (l1&l2&l3&->&H1&H3&H2&Hnr&Hlen).
  pose proof (Forall2_length _ _ _ H1) as L1. pose proof (Forall2_length _ _ _ H3) as L3.
  unfold row_offset. rewrite check_round_ok, tail_eq by done. cbn [mbind res_bind].
  assert (sum_list_with pc_rows l1 + sum_list_with pc_rows l2 + sum_list_with pc_rows l3 =
    sum_list_with pc_rows (l1 ++ l2 ++ l3)) as Hsum by (rewrite !sum_list_with_app; lia).
  rewrite (vget_ok (t_prefix_rows t) _ (sum_list_with pc_rows (take (r `min` length (t_prefix t)) l1))).
  2: { eapply accumulate_lookup; [done|apply (ok_prefix_rows t Hok)|lia|lia]. }
  cbn [mbind res_bind].
  assert (Forall (λ x, pc_rows x = t_bulk_rows t) l2) as Hv.
  { destruct (t_repeats t) eqn:E; [|rewrite Hnr by done; constructor].
    destruct (ok_bulk_rows t Hok E) as (b&Hb&Hbr). apply Forall_forall. intros x Hx. specialize (H2 x Hx). congruence. }
  pose proof (sum_split pc_rows l1 l2 l3 _ r Hv) as Hsplit. pose proof (sum_take_le pc_rows (l1 ++ l2 ++ l3) r) as Hle.
  remember ((r `min` (length l1 + length l2) - length l1) * t_bulk_rows t) as mid eqn:Hmid.
  rewrite !L1.
  match goal with |- (if _ then s ← _; Ok (u64 (?m + s)) else _) = _ =>
    assert (m = sum_list_with pc_rows (take (r `min` length l1) l1) + mid) as -> end.
  { destruct (t_repeats t) eqn:E; cbn [andb].
    - destruct (Nat.ltb_spec (length l1) r) as [Hlt|Hge].
      + rewrite <-Hlen, u64_sub_le, <-Hmid by lia. by rewrite 2!wrap_small by (rewrite ?wrap_small; lia).
      + replace (r `min` (length l1 + length l2) - length l1) with 0 in Hmid by lia. lia.
    - rewrite (Hnr eq_refl) in Hmid. cbn [length] in Hmid.
      replace (r `min` (length l1 + 0) - length l1) with 0 in Hmid by lia. lia. }
  rewrite <-Hlen. destruct (Nat.ltb_spec (length l1 + length l2) r) as [Hlt|Hge].
  - rewrite (vget_ok _ _ (sum_list_with pc_rows (take (r - (length l1 + length l2)) l3))).
    + cbn [mbind res_bind]. rewrite wrap_small by lia. f_equal. lia.
    + eapply accumulate_lookup; [done|apply (ok_suffix_rows t Hok)|lia|lia].
  - replace (r - (length l1 + length l2)) with 0 in Hsplit by lia. rewrite take_0 in Hsplit. simpl in Hsplit. f_equal. lia.
Qed.

Lemma column_offset_eq ps r :
  shot_of t n ps → r ≤ n → (Z.of_nat (sum_list_with pc_faults ps) < 2 ^ 64)%Z →
  column_offset t r n = Ok (sum_list_with pc_faults (take r ps)).
Proof.
  intros Hs Hr Hfit. eapply sum_before_eq; [done|done| |done|done].
  intros E. destruct (ok_bulk_rows t Hok E) as (b&Hb&_). eauto.
Qed.

(** ** Phases and chunks *)

Lemma t_phase_eq r : r < n → t_phase t r n = vget (shot_phases t n) r.
Proof.
  intros Hr. unfold t_phase. rewrite tail_eq, (u64_sub_le n 1), check_round_ok by lia. cbn [mbind res_bind].
  destruct Hadm as [Hm Hf]. unfold shot_phases, vget. destruct (t_repeats t) eqn:E.
  - pose proof (ok_min t Hok E). destruct (Nat.ltb_spec r (length (t_prefix t))).
    + by rewrite lookup_app_l by lia.
    + rewrite lookup_app_r by lia. destruct (Nat.ltb_spec r (n - length (t_suffix t))).
      * rewrite lookup_app_l by (rewrite length_replicate; lia). by rewrite lookup_replicate_2 by lia.
      * rewrite lookup_app_r by (rewrite length_replicate; lia). rewrite length_replicate.
        replace (r - length (t_prefix t) - (n - length (t_prefix t) - length (t_suffix t)))
          with (r - (n - length (t_suffix t))) by lia. done.
  - destruct (ok_fixed t Hok E) as [_ El]. specialize (Hf eq_refl).
    destruct (Nat.ltb_spec r (length (t_prefix t))); [done|lia].
Qed.

(** The chunks of the shot: every phase's inner chunk, the last one ending. *)
Definition shot_chunk (ps : list (phase_chunks R)) (r : nat) : option (extended_dem R) :=
  (λ p, if r + 1 <? length ps then pc_inner p else pc_last p) <$> ps !! r.

Lemma t_chunk_eq ps r : shot_of t n ps → r < n →
  ∃ c, shot_chunk ps r = Some c ∧ t_chunk t r n = Ok c.
Proof.
  intros Hs Hr. pose proof (shot_length ps Hs) as Hl. unfold shot_chunk, t_chunk. rewrite t_phase_eq by done.
  destruct (lookup_lt_is_Some_2 ps r) as [p Hp]; [lia|].
  destruct (Forall2_lookup_r _ _ _ _ _ Hs Hp) as (id&Hid&Hat). rewrite (vget_ok _ _ _ Hid), Hp, Hl.
  cbn [mbind res_bind]. rewrite Hat. cbn [mbind res_bind]. eauto.
Qed.
End shot.
End facts.

(** * Experiment templates: construction

    The layout that the constructor reads off the shortest phase chain is the
    layout of every shot: [phase_sequence] at any admitted number of rounds is
    the prefix, the repeated bulk phase and the suffix, and the template's
    chunks are those [dem_chunks_from_spec] expands. *)

(** ** The walk along the chain *)

(** The visited phases with the repeating one written [S k] times. *)
Definition expand (has_rep : bool) (rep k : nat) (path : list nat) : list nat :=
  path ≫= λ p, if has_rep && (p =? rep) then p :: replicate k rep else [p].

Lemma expand_plain has_rep rep k path : (has_rep = true → rep ∉ path) → expand has_rep rep k path = path.
Proof.
  intros Hn. unfold expand. induction path as [|p path IH]; [done|]. cbn [mbind list_bind].
  destruct (has_rep && (p =? rep)) eqn:E.
  - apply andb_true_iff in E as [-> ->%Nat.eqb_eq]. exfalso. apply Hn; [done|]. by left.
  - cbn [app]. f_equal. apply IH. intros Hh Hin. apply Hn; [done|]. by right.
Qed.

Lemma expand_split rep k A B :
  rep ∉ A → rep ∉ B → expand true rep k (A ++ rep :: B) = A ++ replicate (S k) rep ++ B.
Proof.
  intros HA HB. unfold expand. rewrite bind_app. cbn [mbind list_bind]. rewrite Nat.eqb_refl. cbn [andb].
  change (A ≫= _) with (expand true rep k A). rewrite expand_plain by done.
  change (B ≫= _) with (expand true rep k B). by rewrite (expand_plain _ _ _ B).
Qed.

Lemma walk_path successor has_rep rep fuel : ∀ k current visited sq out,
  walk_chain fuel successor has_rep rep k current visited sq = Ok out →
  ∃ path, NoDup path ∧ (∀ p, p ∈ path → p ∉ visited) ∧ head path = Some current ∧
    (∀ i p q, path !! i = Some p → path !! S i = Some q → find_successor successor p = Some q) ∧
    ∀ k' sq', walk_chain fuel successor has_rep rep k' current visited sq' = Ok (sq' ++ expand has_rep rep k' path).
Proof.
  induction fuel as [|fuel IH]; intros k current visited sq out; [done|]. cbn [walk_chain].
  case_bool_decide as Hv; cbn [throw_if mbind res_bind]; [done|].
  assert (∀ k sq, (if has_rep && (current =? rep) then (sq ++ [current]) ++ replicate k rep else sq ++ [current]) =
    sq ++ expand has_rep rep k [current]) as Hex.
  { intros k' sq'. unfold expand. simpl. destruct (has_rep && (current =? rep)); simpl; rewrite ?app_nil_r, <-?app_assoc; done. }
  destruct (find_successor successor current) as [next|] eqn:Hnext.
  - intros (path&Hnd&Hdis&Hhd&Hlink&Hall)%IH. exists (current :: path). split_and!.
    + constructor; [|done]. intros Hin. apply (Hdis _ Hin). by left.
    + intros p [->|Hin]%elem_of_cons; [done|]. intros Hp. apply (Hdis _ Hin). by right.
    + done.
    + intros [|i] p q Hp Hq; [|by apply (Hlink i)]. injection Hp as <-. rewrite Hnext, <-Hhd.
      by destruct path.
    + intros k' sq'. rewrite Hall, Hex, <-app_assoc. f_equal. unfold expand. by rewrite <-bind_app.
  - intros _. exists [current]. split_and!; [apply NoDup_singleton|set_solver|done|by intros [|i] p q|].
    intros k' sq'. by rewrite Hex.
Qed.

Section build.
Context {R : Type} `{RateOps R}.
Implicit Types s : dem_chunks_spec R.

(** ** [phase_sequence] at every number of rounds *)

Definition edges (conns : list phase_connection) : list (nat * nat) :=
  (λ c, (from_phase c, to_phase c)) <$> filter (λ c, is_self c = false) conns.

Lemma collect_chain_spec conns chain rep has_rep :
  collect_chain conns = Ok (chain, rep, has_rep) →
  chain = edges conns ∧ has_rep = existsb is_self conns ∧
  (∀ c, c ∈ conns → is_self c = true → rep = from_phase c).
Proof.
  intros Hc.
  assert (∀ post pre st, (let '(chain, rep, has_rep) := st in
      chain = edges pre ∧ has_rep = existsb is_self pre ∧
      (∀ c, c ∈ pre → is_self c = true → rep = from_phase c)) →
    foldM (λ c st,
      let '(chain, rep_phase, has_rep) := st in
      if is_self c then
        _ ← throw_if has_rep (InvalidArgument "dem_chunks_spec::phase_sequence: multiple self-loops");
        Ok (chain, from_phase c, true)
      else Ok (chain ++ [(from_phase c, to_phase c)], rep_phase, has_rep)) post st = Ok (chain, rep, has_rep) →
    chain = edges (pre ++ post) ∧ has_rep = existsb is_self (pre ++ post) ∧
    (∀ c, c ∈ pre ++ post → is_self c = true → rep = from_phase c)) as Hcut.
  2: { apply (Hcut conns [] ([], 0, false)); [|exact Hc]. split_and!; [done|done|]. intros ? Hin. by apply elem_of_nil in Hin. }
  clear Hc. unfold edges. induction post as [|c post IH]; intros pre st Hst Hf.
  - rewrite app_nil_r. simpl in Hf. injection Hf as ->. done.
  - destruct st as [[ch rp] hr]. destruct Hst as (Hlen&Hex&Hall). cbn [foldM] in Hf.
    replace (pre ++ c :: post) with ((pre ++ [c]) ++ post) by (by rewrite <-app_assoc).
    destruct (is_self c) eqn:Ec.
    + destruct hr; cbn [throw_if mbind res_bind] in Hf; [done|]. eapply IH; [|exact Hf].
      rewrite list.filter_app, filter_cons_False by congruence. rewrite app_nil_r, existsb_app. cbn [existsb].
      rewrite Ec. split_and!; [done|by rewrite orb_true_r|].
      intros c' [Hin|Hin]%elem_of_app Hs'; [|by apply list_elem_of_singleton in Hin as ->].
      exfalso. assert (existsb is_self pre = true); [|congruence].
      apply existsb_exists. exists c'. split; [by apply list_elem_of_In|done].
    + cbn [mbind res_bind] in Hf. eapply IH; [|exact Hf].
      rewrite list.filter_app, filter_cons_True, fmap_app, <-Hlen by done. rewrite existsb_app. cbn [existsb]. rewrite Ec.
      split_and!; [done|by rewrite Hex, !orb_false_r|].
      intros c' [Hin|Hin]%elem_of_app Hs'; [by apply Hall|]. apply list_elem_of_singleton in Hin as ->. congruence.
Qed.

Lemma repeating_phase_spec s rep :
  repeating_phase s = Ok rep → ∃ c, c ∈ connections s ∧ is_self c = true ∧ rep = from_phase c.
Proof.
  unfold repeating_phase. intros Hr. apply bind_ok in Hr as ([r found]&Hf&Hr).
  apply bind_ok in Hr as ([]&Hg%throw_if_ok&Hr). cbn [fst snd] in *. injection Hr as ->. apply negb_false_iff in Hg as ->.
  refine (foldM_preserve _ (λ st : nat * bool, st.2 = true →
    ∃ c, c ∈ connections s ∧ is_self c = true ∧ st.1 = from_phase c) _ _ (rep, true) _ _ Hf eq_refl); [|done].
  intros c [r' f'] st' Hin HI Hst. cbn beta iota in Hst. destruct (is_self c) eqn:E.
  - apply bind_ok in Hst as (?&_&Hst). injection Hst as <-. intros _. by exists c.
  - injection Hst as <-. done.
Qed.

Definition num_edges s : nat := length (edges (connections s)).

Lemma has_repeating_with s n : has_repeating_phase (with_num_rounds s n) = has_repeating_phase s.
Proof. done. Qed.

(** The repeating phase is the only one, or an edge joins it to another. *)
Definition joined s : bool :=
  existsb (λ c, is_self c && ((num_edges s =? 0) ||
    existsb (λ e, negb (is_self e) && ((from_phase e =? from_phase c) || (to_phase e =? from_phase c))) (connections s)))
    (connections s).

Lemma successor_spec chain successor :
  build_successor chain = Ok successor → successor = chain ∧ NoDup chain.*1.
Proof.
  unfold build_successor. intros Hb.
  assert (∀ post pre, NoDup pre.*1 → foldM (λ e successor,
    _ ← throw_if (bool_decide (e.1 ∈ successor.*1))
          (InvalidArgument "dem_chunks_spec::phase_sequence: phase has multiple non-self outgoing edges");
    Ok (successor ++ [e])) post pre = Ok successor → successor = pre ++ post ∧ NoDup (pre ++ post).*1) as Hc.
  2: { by apply (Hc chain []); [constructor|]. }
  induction post as [|e post IH]; intros pre Hnd Hf; cbn [foldM] in Hf.
  - injection Hf as <-. by rewrite app_nil_r.
  - apply bind_ok in Hf as (x&Hx&Hf). apply bind_ok in Hx as ([]&Hn%throw_if_ok&[= <-]). apply bool_decide_eq_false in Hn.
    replace (pre ++ e :: post) with ((pre ++ [e]) ++ post) by (by rewrite <-app_assoc). apply IH; [|done].
    rewrite fmap_app. apply NoDup_app. split_and!; [done| |apply NoDup_singleton]. intros x Hx ->%list_elem_of_singleton. done.
Qed.

Lemma find_successor_elem chain p q : find_successor chain p = Some q → (p, q) ∈ chain.
Proof.
  unfold find_successor. destruct (filter (λ e : nat * nat, e.1 = p) chain) as [|[a b] l] eqn:E; [done|]. intros [= <-].
  assert ((a, b) ∈ filter (λ e : nat * nat, e.1 = p) chain) as [Hp Hin]%list_elem_of_filter by (rewrite E; by left).
  cbn [fst snd] in *. by subst.
Qed.

(** A walk that visits one phase more than there are edges uses every edge. *)
Lemma walk_covers chain path p :
  NoDup chain.*1 → NoDup path → length path = S (length chain) →
  (∀ i a b, path !! i = Some a → path !! S i = Some b → find_successor chain a = Some b) →
  p ∈ chain.*1 ++ chain.*2 → p ∈ path.
Proof.
  intros Hc Hp Hl Hlink Hin.
  assert (∀ i a b, path !! i = Some a → path !! S i = Some b → (a, b) ∈ chain) as Hedge.
  { intros i a b Ha Hb. apply find_successor_elem. by eapply Hlink. }
  assert (∀ a, a ∈ take (length chain) path → ∃ b, (a, b) ∈ chain ∧ b ∈ path) as Hfrom.
  { intros a Ha. apply list_elem_of_lookup in Ha as [i Hi]. pose proof (lookup_lt_Some _ _ _ Hi) as Hlt.
    rewrite length_take in Hlt. rewrite lookup_take_lt in Hi by lia.
    destruct (lookup_lt_is_Some_2 path (S i)) as [b Hb]; [lia|]. exists b. split; [by eapply Hedge|].
    by eapply list_elem_of_lookup_2. }
  assert (chain.*1 ≡ₚ take (length chain) path) as Hperm.
  { symmetry. apply submseteq_length_Permutation; [|rewrite length_take, length_fmap; lia].
    apply NoDup_submseteq; [eapply sublist_NoDup; [done|apply sublist_take]|]. intros a Ha. destruct (Hfrom a Ha) as (b&Hb&_).
    apply list_elem_of_fmap. by exists (a, b). }
  apply elem_of_app in Hin as [Hin|Hin].
  - rewrite Hperm in Hin. apply list_elem_of_lookup in Hin as [i Hi]. eapply list_elem_of_lookup_2.
    rewrite lookup_take_Some in Hi. apply Hi.
  - apply list_elem_of_fmap in Hin as ([a b]&->&Hab). cbn [snd].
    destruct (Hfrom a) as (b'&Hb'&Hin).
    { rewrite <-Hperm. apply list_elem_of_fmap. by exists (a, b). }
    replace b with b'; [done|]. apply list_elem_of_lookup in Hab as [i Hi], Hb' as [j Hj].
    assert (i = j) as ->; [|congruence]. eapply NoDup_lookup; [exact Hc|by rewrite list_lookup_fmap, Hi|].
    by rewrite list_lookup_fmap, Hj.
Qed.

(** What [phase_sequence] computes when a phase repeats. *)
Lemma sequence_walk s n0 seq0 rep :
  phase_sequence (with_num_rounds s n0) = Ok seq0 → repeating_phase s = Ok rep → 2 ≤ n0 ∧
  ((num_edges s = 0 ∧ seq0 = replicate n0 rep ∧
    ∀ n, 2 ≤ n → phase_sequence (with_num_rounds s n) = Ok (replicate n rep)) ∨
   (∃ path, NoDup path ∧ NoDup (edges (connections s)).*1 ∧ num_edges s < n0 ∧ num_edges s ≠ 0 ∧
    (∀ i a b, path !! i = Some a → path !! S i = Some b → find_successor (edges (connections s)) a = Some b) ∧
    seq0 = expand true rep (n0 - (num_edges s + 1)) path ∧ length seq0 = n0 ∧
    ∀ n, 2 ≤ n → num_edges s < n → length (expand true rep (n - (num_edges s + 1)) path) = n →
      phase_sequence (with_num_rounds s n) = Ok (expand true rep (n - (num_edges s + 1)) path))).
Proof.
  intros Hseq Hrep. apply repeating_phase_spec in Hrep as (c&Hc&Hself&->).
  unfold phase_sequence in *. cbn [phases connections with_num_rounds num_rounds] in *.
  apply bind_ok in Hseq as ([]&Hp%throw_if_ok&Hseq). apply bind_ok in Hseq as ([]&Hcn%throw_if_ok&Hseq).
  apply bind_ok in Hseq as ([[chain rep] has_rep]&Hcol&Hseq). cbn beta iota in Hseq.
  destruct (collect_chain_spec _ _ _ _ Hcol) as (Hlen&Hex&Hall). rewrite <-(Hall c Hc Hself) in *.
  assert (has_rep = true) as Hhr.
  { rewrite Hex. apply existsb_exists. exists c. split; [by apply list_elem_of_In|done]. }
  rewrite Hhr in *. clear Hex. unfold num_edges. rewrite <-Hlen in *. clear Hlen.
  rewrite (bool_decide_eq_false_2 (Some n0 = None)) in Hseq by done. cbn [andb throw_if mbind res_bind] in Hseq.
  destruct (Nat.ltb_spec n0 2) as [|Hn0]; [done|]. cbn [throw_if mbind res_bind] in Hseq.
  rewrite Hp, Hcn, Hcol. cbn [throw_if mbind res_bind]. split; [done|].
  assert (∀ n {A} (k : unit → unit → res A), 2 ≤ n →
    (_ ← throw_if (true && bool_decide (Some n = None)) (InvalidArgument "dem_chunks_spec::phase_sequence: num_rounds required when a self-loop is present");
     m ← (if true then Ok n else Ok 0);
     _ ← throw_if (true && (n <? 2)) (InvalidArgument "dem_chunks_spec::phase_sequence: num_rounds must be >= 2"); k tt tt) = k tt tt) as Hstart.
  { intros n A k Hn. rewrite (bool_decide_eq_false_2 (Some n = None)) by done.
    destruct (Nat.ltb_spec n 2); [lia|done]. }
  destruct chain as [|first chain'] eqn:Ech.
  - left. injection Hseq as <-. split_and!; [done|done|].
    intros n Hn. exact (Hstart n _ (λ _ _, Ok (replicate n rep)) Hn).
  - right. destruct (Nat.ltb_spec n0 (length (first :: chain') + 1)) as [|Hge]; [done|]. cbn [throw_if mbind res_bind] in Hseq.
    apply bind_ok in Hseq as (successor&Hsucc&Hseq). apply bind_ok in Hseq as (sq&Hw&Hseq).
    apply bind_ok in Hseq as ([]&Hlq%throw_if_ok&[= ->]). apply negb_false_iff, Nat.eqb_eq in Hlq.
    destruct (walk_path _ _ _ _ _ _ _ _ _ Hw) as (path&Hnd&_&_&Hlink&Hwalk). rewrite Hwalk in Hw. injection Hw as Hw.
    cbn [app] in Hw. destruct (successor_spec _ _ Hsucc) as [-> Hnf].
    exists path. rewrite <-Hw in *. split_and!; [done|done|lia|done|done|done|done|].
    intros n Hn Hn' Hln. etrans; [apply (Hstart n _ (λ _ _, _) Hn)|].
    destruct (Nat.ltb_spec n (length (first :: chain') + 1)); [lia|]. cbn [andb throw_if mbind res_bind].
    rewrite Hsucc. cbn [mbind res_bind]. rewrite Hwalk. cbn [mbind res_bind app]. rewrite Hln, Nat.eqb_refl. done.
Qed.

Lemma expand_zero has_rep rep path : expand has_rep rep 0 path = path.
Proof.
  unfold expand. induction path as [|p path IH]; [done|]. cbn [mbind list_bind]. rewrite IH.
  by destruct (has_rep && (p =? rep)).
Qed.

(** A repeating phase joined to the chain is on the shortest chain. *)
Lemma joined_on_chain s seq0 rep :
  phase_sequence (with_num_rounds s (2 `max` (num_edges s + 1))) = Ok seq0 → repeating_phase s = Ok rep →
  joined s = true → rep ∈ seq0.
Proof.
  intros Hseq Hrep Hj. destruct (sequence_walk _ _ _ _ Hseq Hrep) as [Hn [(H0&->&_)|Hw]].
  - apply elem_of_replicate. split; [done|lia].
  - destruct Hw as (path&Hnd&Hnf&Hlt&Hne&Hlink&->&Hl&_).
    replace (2 `max` (num_edges s + 1) - (num_edges s + 1)) with 0 in * by lia. rewrite expand_zero in *.
    eapply walk_covers; [exact Hnf|exact Hnd| |exact Hlink|].
    { rewrite Hl. fold (num_edges s). lia. }
    apply existsb_exists in Hj as (c&Hc%list_elem_of_In&[Hself Hj]%andb_true_iff).
    apply repeating_phase_spec in Hrep as (c'&Hc'&Hself'&->).
    assert (from_phase c' = from_phase c) as ->.
    { unfold phase_sequence in Hseq. cbn [phases connections with_num_rounds num_rounds] in Hseq.
      apply bind_ok in Hseq as (?&_&Hseq). apply bind_ok in Hseq as (?&_&Hseq).
      apply bind_ok in Hseq as ([[chain rep] has_rep]&Hcol&_).
      destruct (collect_chain_spec _ _ _ _ Hcol) as (_&_&Hall).
      by rewrite <-(Hall c Hc Hself), <-(Hall c' Hc' Hself'). }
    apply orb_true_iff in Hj as [Hj%Nat.eqb_eq|Hj]; [lia|].
    apply existsb_exists in Hj as (e&He%list_elem_of_In&[Hns%negb_true_iff Hend]%andb_true_iff).
    assert ((from_phase e, to_phase e) ∈ edges (connections s)) as Hin.
    { unfold edges. apply list_elem_of_fmap. exists e. split; [done|]. by apply list_elem_of_filter. }
    apply elem_of_app. apply orb_true_iff in Hend as [<-%Nat.eqb_eq|<-%Nat.eqb_eq]; [left|right];
      apply list_elem_of_fmap; by eexists (_, _).
Qed.

(** The phases of a shot of [n] rounds, for a repeating phase on the chain. *)
Lemma sequence_shape s n0 seq0 rep :
  phase_sequence (with_num_rounds s n0) = Ok seq0 → repeating_phase s = Ok rep → rep ∈ seq0 →
  ∃ A B, (rep ∉ A) ∧ (rep ∉ B) ∧ length A + length B = num_edges s ∧ 2 ≤ n0 ∧ num_edges s < n0 ∧
    ∀ n, 2 ≤ n → num_edges s < n →
      phase_sequence (with_num_rounds s n) = Ok (A ++ replicate (n - num_edges s) rep ++ B).
Proof.
  intros Hseq Hrep Hin. destruct (sequence_walk _ _ _ _ Hseq Hrep) as [Hn0 [(H0&->&Hall)|Hw]].
  - exists [], []. split_and!; [apply not_elem_of_nil..|done|done|lia|].
    intros n Hn _. cbn [app]. rewrite app_nil_r, H0, Nat.sub_0_r. by apply Hall.
  - destruct Hw as (path&Hnd&_&Hlt&Hne&_&->&Hl&Hall).
    assert (rep ∈ path) as Hrp.
    { destruct (decide (rep ∈ path)) as [|Hno]; [done|]. by rewrite (expand_plain _ _ _ path) in Hin. }
    apply list_elem_of_split in Hrp as (A&B&->). apply NoDup_app in Hnd as (HA&Hdis&[HB ?]%NoDup_cons).
    assert (rep ∉ A) as HnA by (intros Hr; apply (Hdis _ Hr); by left).
    rewrite expand_split, !length_app, length_replicate in Hl by done.
    exists A, B. split_and!; [done|done|lia..|]. intros n Hn Hn'. rewrite Hall; [|done..|].
    + rewrite expand_split by done. do 4 f_equal. lia.
    + rewrite expand_split, !length_app, length_replicate by done. lia.
Qed.

(** ** The layout *)

(** The number of connections is that of a vector in memory. *)
Definition countable s : Prop := (Z.of_nat (length (connections s)) + 1 < 2 ^ 64)%Z.

Lemma minimum_rounds_eq s : countable s → minimum_rounds s = num_edges s + 1.
Proof.
  unfold countable, minimum_rounds, num_edges, edges. rewrite length_fmap.
  cut (∀ l a, (Z.of_nat (a + length l) < 2 ^ 64)%Z →
    foldl (λ rounds c, if is_self c then rounds else u64 (rounds + 1)) a l = a + length (filter (λ c, is_self c = false) l)).
  { intros Hc Hl. rewrite Hc by lia. lia. }
  induction l as [|c l IH]; intros a Hl; cbn [foldl length] in *; [simpl; lia|].
  destruct (is_self c) eqn:E.
  - rewrite filter_cons_False by congruence. apply IH. lia.
  - rewrite filter_cons_True by done. rewrite wrap_small by lia. rewrite IH by lia. simpl. lia.
Qed.

Lemma find_index_app A rep B : rep ∉ A → find_index (A ++ rep :: B) rep = length A.
Proof.
  induction A as [|a A IH]; intros Hn; cbn [find_index app].
  - by rewrite Nat.eqb_refl.
  - destruct (Nat.eqb_spec a rep) as [->|]; [exfalso; apply Hn; by left|]. cbn [length]. f_equal. apply IH. set_solver.
Qed.

Lemma layout_spec s lay :
  countable s → joined s = true → layout s = Ok lay →
  length (lay_prefix lay) + length (lay_suffix lay) = num_edges s ∧
  ∀ n, 2 ≤ n → num_edges s < n →
    phase_sequence (with_num_rounds s n) =
      Ok (lay_prefix lay ++ replicate (n - num_edges s) (lay_repeating lay) ++ lay_suffix lay).
Proof.
  intros Hcnt Hj Hlay. unfold layout in Hlay. apply bind_ok in Hlay as (rep&Hrep&Hlay).
  apply bind_ok in Hlay as (seq0&Hseq&[= <-]). cbn [lay_prefix lay_repeating lay_suffix].
  rewrite minimum_rounds_eq in Hseq by done. pose proof (joined_on_chain _ _ _ Hseq Hrep Hj) as Hin.
  destruct (sequence_shape _ _ _ _ Hseq Hrep Hin) as (A&B&HA&HB&Hl&Hn0&Hlt&Hall).
  pose proof (Hall _ Hn0 Hlt) as Hseq'. rewrite Hseq' in Hseq. injection Hseq as <-.
  destruct (2 `max` (num_edges s + 1) - num_edges s) as [|m] eqn:Em; [lia|].
  assert (take (find_index (A ++ replicate (S m) rep ++ B) rep) (A ++ replicate (S m) rep ++ B) = A) as ->.
  { cbn [replicate app]. rewrite find_index_app by done. by rewrite take_app_length. }
  assert (drop (length (A ++ replicate (S m) rep ++ B) - find_index (reverse (A ++ replicate (S m) rep ++ B)) rep)
    (A ++ replicate (S m) rep ++ B) = B) as ->; [|done].
  rewrite !reverse_app, reverse_replicate, <-app_assoc. cbn [replicate app].
  rewrite find_index_app by (by rewrite elem_of_reverse). rewrite length_reverse.
  rewrite !length_app. cbn [length]. rewrite length_app. change (rep :: replicate m rep ++ B) with ((rep :: replicate m rep) ++ B). rewrite app_assoc.
  apply drop_app_length'. rewrite length_app. cbn [length]. lia.
Qed.

(** ** The built phases *)

(** The chunks of a phase are those of its first spec. *)
Definition built_from s (id : nat) (p : phase_chunks R) : Prop :=
  ∃ ph, get_phase s id = Ok ph ∧ build_phase s (mk_phase id ph) = Ok p.

Lemma find_phase_app (l l' : list (phase_spec_entry R)) id :
  find_phase (l ++ l') id = match find_phase l id with Ok ph => Ok ph | _ => find_phase l' id end.
Proof. induction l as [|e l IH]; cbn [find_phase app]; [done|]. destruct (ph_id e =? id); [done|]. apply IH. Qed.

Lemma map_at_snoc {A} (m : list (nat * A)) k a k' :
  map_at (m ++ [(k, a)]) k' = match map_at m k' with Ok p => Ok p | _ => if k =? k' then Ok a else Throw (OutOfRange "map::at") end.
Proof. induction m as [|[k1 a1] m IH]; cbn [map_at app]; [done|]. destruct (k1 =? k'); [done|]. apply IH. Qed.

Definition reaching (from : nat) (p : phase_chunks R) (span : nat) : Prop :=
  ∃ b, reaches_next_round (pc_inner p) from = Ok b ∧ (b = true → span = 1).

Lemma build_phases_spec s chain built span u :
  build_phases s chain = Ok (built, span, u) → span ≤ 1 ∧
  ∀ id p, map_at built id = Ok p → built_from s id p ∧ reaching (sc_from_seam (spec_seam s)) p span.
Proof.
  unfold build_phases. intros Hf.
  set (from := sc_from_seam (spec_seam s)) in *.
  assert (∀ post pre st, phases s = pre ++ post →
    (st.1.2 ≤ 1 ∧ (∀ id, id ∈ chain → (∃ ph, find_phase pre id = Ok ph) → id ∈ st.1.1.*1) ∧
     ∀ id p, map_at st.1.1 id = Ok p → built_from s id p ∧ reaching from p st.1.2) →
    foldM (λ entry st,
      let '(built, max_span, uniform) := st in
      if negb (bool_decide (ph_id entry ∈ chain)) then Ok (built, max_span, uniform) else
      p ← build_phase s entry;
      reaches ← reaches_next_round (pc_inner p) from;
      uniform ← (if negb (has_D_sparse s) then check_uniform_round from p uniform else Ok uniform);
      Ok (map_emplace built (ph_id entry) p, if (reaches : bool) then 1 else max_span, uniform)) post st = Ok (built, span, u) →
    span ≤ 1 ∧ ∀ id p, map_at built id = Ok p → built_from s id p ∧ reaching from p span) as Hcut.
  2: { apply (Hcut (phases s) [] ([], 0, None)); [done| |exact Hf]. cbn. split_and!; [lia| |done]. intros ? ? [? ?]. done. }
  clear Hf. induction post as [|e post IH]; intros pre [[b0 sp] u0] Hpre (Hsp&Hin&Hall) Hf; cbn [fst snd] in *.
  - injection Hf as -> -> ->. done.
  - cbn [foldM] in Hf. apply bind_ok in Hf as (st'&Hst&Hf).
    apply (IH (pre ++ [e]) st'); [by rewrite <-app_assoc| |done]. clear IH Hf.
    case_bool_decide as Hc; cbn [negb] in Hst.
    + apply bind_ok in Hst as (p&Hp&Hst). apply bind_ok in Hst as (b&Hb&Hst). apply bind_ok in Hst as (u'&_&[= <-]).
      cbn [fst snd]. split_and!; [destruct b; lia| |].
      * intros id Hid [ph Hph]. unfold map_emplace. rewrite find_phase_app in Hph.
        destruct (find_phase pre id) eqn:Epre.
        -- assert (id ∈ b0.*1) by (apply Hin; eauto). case_bool_decide; [done|]. rewrite fmap_app, elem_of_app. by left.
        -- cbn [find_phase] in Hph. destruct (Nat.eqb_spec (ph_id e) id) as [<-|]; [|done].
           case_bool_decide; [done|]. rewrite fmap_app, elem_of_app. right. by left.
        -- cbn [find_phase] in Hph. destruct (Nat.eqb_spec (ph_id e) id) as [<-|]; [|done].
           case_bool_decide; [done|]. rewrite fmap_app, elem_of_app. right. by left.
      * intros id p' Hat.
        assert (∀ q, reaching from q sp → reaching from q (if b then 1 else sp)) as Hmono.
        { intros q (b'&?&?). exists b'. split; [done|]. by destruct b. }
        unfold map_emplace in Hat. case_bool_decide as Hnew.
        { destruct (Hall id p' Hat). auto. }
        rewrite map_at_snoc in Hat. destruct (map_at b0 id) as [q| |] eqn:Eq.
        { injection Hat as <-. destruct (Hall id q Eq). auto. }
        all: destruct (Nat.eqb_spec (ph_id e) id) as [<-|]; [|done]; injection Hat as <-.
        all: split; [|exists b; split; [done|by intros ->]]; exists (ph_spec e); split; [|by destruct e].
        all: unfold get_phase; rewrite Hpre, find_phase_app; cbn [find_phase]; rewrite Nat.eqb_refl.
        all: destruct (find_phase pre (ph_id e)) eqn:Epre; [|done..].
        all: exfalso; apply Hnew, Hin; eauto.
    + injection Hst as <-. cbn [fst snd]. split_and!; [done| |done].
      intros id Hid [ph Hph]. apply Hin; [done|]. rewrite find_phase_app in Hph.
      destruct (find_phase pre id); [eauto| |]; cbn [find_phase] in Hph;
        (destruct (Nat.eqb_spec (ph_id e) id) as [<-|]; done).
Qed.
End build.
