(* ===== verification/TemplateProps.v ===== *)
(** * Experiment templates: properties

    A template built from a spec whose repeating phase is joined to the chain
    answers every query as the expanded spec would: the phases and chunks of
    [dem_chunks_from_spec] at every admitted shot length, and the offsets as
    sums over the rounds before. *)

From Stdlib Require Import QArith.
From S2P Require Import Prelude Rates Tensor SparseMatrix RoundLayout DetectorErrorModel ExtendedDem ExtendedFacts ExtendedChunk ExtendedStitch ChunkSpec ExperimentTemplate TemplateFacts.

Section props.
Context {R : Type} `{RateOps R}.
Implicit Types s : dem_chunks_spec R.
Implicit Types t : experiment_template R.

(** What the constructor leaves in the fields. *)
Lemma make_template_inv s t :
  make_template s = Ok t →
  t_spec t = s ∧ spec_validate s = Ok tt ∧ num_observables s = Ok (t_num_observables t) ∧
  split_phases s = Ok (t_repeats t, t_prefix t, t_bulk t, t_suffix t, t_last t, t_min_rounds t) ∧
  (∃ u, build_phases s (chain_ids t) = Ok (t_phases t, t_max_span t, u)) ∧
  accumulate_rows (t_phases t) (t_prefix t) = Ok (t_prefix_rows t) ∧
  accumulate_rows (t_phases t) (t_suffix t) = Ok (t_suffix_rows t) ∧
  (t_repeats t = true → ∃ p, map_at (t_phases t) (t_bulk t) = Ok p ∧ t_bulk_rows t = pc_rows p).
Proof.
  unfold make_template. intros Hm. apply bind_ok in Hm as ([]&Hv&Hm). apply bind_ok in Hm as (st&Hsp&Hm).
  destruct st as [[[[[repeats prefix] bulk] suffix] last] min_rounds]. cbn beta iota in Hm.
  apply bind_ok in Hm as (?&_&Hm). apply bind_ok in Hm as (obs&Hobs&Hm).
  apply bind_ok in Hm as ([[built span] u]&Hb&Hm). cbn beta iota in Hm. apply bind_ok in Hm as (?&_&Hm).
  apply bind_ok in Hm as (pr&Hpr&Hm). apply bind_ok in Hm as (sr&Hsr&Hm). apply bind_ok in Hm as (br&Hbr&[= <-]).
  cbn [t_spec t_num_observables t_repeats t_prefix t_bulk t_suffix t_last t_min_rounds t_phases t_max_span
    t_prefix_rows t_suffix_rows t_bulk_rows]. split_and!; try done.
  - by exists u.
  - intros ->. apply bind_ok in Hbr as (p&Hp&[= <-]). eauto.
Qed.

Lemma accumulate_built (built : list (nat * phase_chunks R)) ids rows id :
  accumulate_rows built ids = Ok rows → id ∈ ids → ∃ p, map_at built id = Ok p.
Proof.
  unfold accumulate_rows. generalize [0]. induction ids as [|i ids IH]; intros acc Hf Hin; [by apply elem_of_nil in Hin|].
  cbn [foldM] in Hf. apply bind_ok in Hf as (acc'&Hi&Hf). apply bind_ok in Hi as (p&Hp&_).
  apply elem_of_cons in Hin as [->|Hin]; [eauto|]. by eapply IH.
Qed.

(** A spec without a repeating phase ignores [num_rounds]. *)
Lemma sequence_fixed s n :
  has_repeating_phase s = false → phase_sequence (with_num_rounds s n) = phase_sequence s.
Proof.
  intros Hr. unfold phase_sequence. cbn [phases connections with_num_rounds num_rounds].
  destruct (bool_decide (length (phases s) = 0)); [done|]. destruct (bool_decide (length (connections s) = 0)) eqn:Ec; [done|].
  cbn [throw_if mbind res_bind]. destruct (collect_chain (connections s)) as [[[chain rep] has_rep]| |] eqn:Hcol; [|done..].
  cbn [mbind res_bind]. destruct (collect_chain_spec _ _ _ _ Hcol) as (->&Hhr&_).
  rewrite Hhr. unfold has_repeating_phase in Hr. rewrite Hr. cbn [andb throw_if mbind res_bind].
  destruct (edges (connections s)) eqn:E; [|done]. exfalso. apply bool_decide_eq_false in Ec. apply Ec.
  unfold edges in E. apply fmap_nil_inv in E. destruct (connections s) as [|c l]; [done|].
  cbn [existsb] in Hr. apply orb_false_iff in Hr as [Hc _]. by rewrite filter_cons_True in E.
Qed.

Lemma sequence_fixed_length s sq :
  has_repeating_phase s = false → phase_sequence s = Ok sq → 2 ≤ length sq.
Proof.
  intros Hr Hs. unfold phase_sequence in Hs. apply bind_ok in Hs as ([]&_&Hs). apply bind_ok in Hs as ([]&Hc%throw_if_ok&Hs).
  apply bind_ok in Hs as ([[chain rep] has_rep]&Hcol&Hs). destruct (collect_chain_spec _ _ _ _ Hcol) as (->&Hhr&_).
  unfold has_repeating_phase in Hr. rewrite Hr in Hhr. subst has_rep. cbn [andb throw_if mbind res_bind] in Hs.
  destruct (edges (connections s)) as [|e l] eqn:E.
  - exfalso. apply bool_decide_eq_false in Hc. apply Hc. unfold edges in E. apply fmap_nil_inv in E.
    destruct (connections s) as [|c l]; [done|]. cbn [existsb] in Hr. apply orb_false_iff in Hr as [Hs' _].
    by rewrite filter_cons_True in E.
  - apply bind_ok in Hs as (?&_&Hs). apply bind_ok in Hs as (?&_&Hs). apply bind_ok in Hs as ([]&Hl%throw_if_ok&[= ->]).
    apply negb_false_iff, Nat.eqb_eq in Hl. rewrite Hl. simpl. lia.
Qed.

Definition joined_spec s : Prop := has_repeating_phase s = true → joined s = true.

Lemma make_template_ok s t :
  make_template s = Ok t → countable s → joined_spec s → template_ok t.
Proof.
  intros Hm Hcnt Hj. destruct (make_template_inv s t Hm) as (_&_&_&Hsp&_&Hpr&Hsr&Hbr).
  unfold split_phases in Hsp. constructor; [| | |done|done|done].
  - intros Hrep. destruct (has_repeating_phase s) eqn:E; [|by apply bind_ok in Hsp as (pre&_&Hsp); destruct (last pre); congruence].
    apply bind_ok in Hsp as (lay&Hlay&Hsp). injection Hsp as _ Hp _ Hs _ Hmin.
    destruct (layout_spec s lay Hcnt (Hj E) Hlay) as [Hl _]. rewrite minimum_rounds_eq in Hmin by done.
    rewrite <-Hp, <-Hs, <-Hmin. lia.
  - intros Hrep. destruct (has_repeating_phase s) eqn:E; [by apply bind_ok in Hsp as (lay&_&Hsp); injection Hsp; congruence|].
    apply bind_ok in Hsp as (pre&Hpre&Hsp). destruct (last pre); [|done]. injection Hsp as _ Hp _ Hs _ Hmin. by rewrite <-Hp, <-Hs, <-Hmin.
  - intros id. unfold chain_ids. rewrite !elem_of_app. intros [Hid|[Hid|Hid]].
    + exact (accumulate_built _ _ _ _ Hpr Hid).
    + exact (accumulate_built _ _ _ _ Hsr Hid).
    + destruct (t_repeats t) eqn:E; [|by apply elem_of_nil in Hid]. apply list_elem_of_singleton in Hid as ->.
      destruct (Hbr eq_refl) as (p&?&_). eauto.
Qed.

Lemma admits_two s t n : make_template s = Ok t → admits t n → 2 ≤ n.
Proof.
  intros Hm [Hn Hf]. destruct (make_template_inv s t Hm) as (_&_&_&Hsp&_). unfold split_phases in Hsp.
  destruct (has_repeating_phase s) eqn:E.
  - apply bind_ok in Hsp as (lay&_&Hsp). injection Hsp as _ _ _ _ _ Hmin. lia.
  - apply bind_ok in Hsp as (pre&Hpre&Hsp). destruct (last pre); [|done]. injection Hsp as _ _ _ _ _ Hmin.
    pose proof (sequence_fixed_length s pre E Hpre). lia.
Qed.

(** The phases of every admitted shot. *)
Lemma template_sequence s t n :
  make_template s = Ok t → countable s → joined_spec s → admits t n →
  phase_sequence (with_num_rounds s n) = Ok (shot_phases t n).
Proof.
  intros Hm Hcnt Hj Hadm. pose proof (admits_two s t n Hm Hadm) as H2. destruct Hadm as [Hn Hf].
  destruct (make_template_inv s t Hm) as (_&_&_&Hsp&_). unfold split_phases in Hsp. unfold shot_phases.
  destruct (has_repeating_phase s) eqn:E.
  - apply bind_ok in Hsp as (lay&Hlay&Hsp). injection Hsp as Hrep Hp Hb Hs _ Hmin.
    destruct (layout_spec s lay Hcnt (Hj E) Hlay) as [Hl Hall]. rewrite minimum_rounds_eq in Hmin by done.
    rewrite <-Hrep, <-Hp, <-Hb, <-Hs, Hall by lia. do 4 f_equal. lia.
  - apply bind_ok in Hsp as (pre&Hpre&Hsp). destruct (last pre); [|done]. injection Hsp as Hrep Hp _ _ _ _.
    by rewrite <-Hrep, <-Hp, sequence_fixed.
Qed.

(** ** The chunks of a phase *)

Lemma build_phase_inv s e p :
  build_phase s e = Ok p →
  let to := sc_to_seam (spec_seam s) in
  let from := sc_from_seam (spec_seam s) in
  dem_chunk_from_spec (ph_spec e) [to; from] "dem_chunks." = Ok (pc_inner p) ∧
  dem_chunk_from_spec (ph_spec e) [to] "dem_chunks." = Ok (pc_last p) ∧
  num_interior_rows (pc_inner p) = 0 ∧ detectors_of s (ph_spec e) "dem_chunks." = Ok (pc_rows p) ∧
  pc_faults p = num_faults (pc_inner p).
Proof.
  unfold build_phase. cbv zeta. intros Hb. apply bind_ok in Hb as (inner&Hi&Hb). apply bind_ok in Hb as (last&Hl&Hb).
  apply bind_ok in Hb as (?&Hn%throw_if_ok&Hb). apply bind_ok in Hb as (rows&Hr&Hb). apply bind_ok in Hb as (m&_&[= <-]).
  apply negb_false_iff, Nat.eqb_eq in Hn. done.
Qed.

(** Sizes of a spec in memory, and seams with different names. *)
Record spec_fits s : Prop := {
  sf_seams : sc_to_seam (spec_seam s) ≠ sc_from_seam (spec_seam s);
  sf_phases : ∀ e, e ∈ phases s → spec_sized (cs_expand (ph_spec e) [sc_to_seam (spec_seam s); sc_from_seam (spec_seam s)])
}.

Lemma expand_one_sized (w : dem_chunk_spec R) a b : spec_sized (cs_expand w [a; b]) → spec_sized (cs_expand w [a]).
Proof.
  unfold spec_sized, cs_expand. case_bool_decide; [|done]. cbn [negb]. case_bool_decide; [done|].
  cbn [cs_num_faults cs_O_sparse cs_seam_specs fmap list_fmap sum_list_with]. lia.
Qed.

(** Both chunks of a phase have its rows as incoming seam and its faults. *)
Record phase_ok (to : nat) (p : phase_chunks R) (c : extended_dem R) : Prop := {
  po_typed : typed c;
  po_valid : valid_chunk c;
  po_interior : interior c = [];
  po_rows : width c to = pc_rows p;
  po_faults : length (e_error_rates c) = pc_faults p
}.

Lemma find_phase_elem (l : list (phase_spec_entry R)) id ph :
  find_phase l id = Ok ph → ∃ e, e ∈ l ∧ ph_spec e = ph.
Proof.
  induction l as [|e l IH]; cbn [find_phase]; [done|]. destruct (ph_id e =? id).
  - intros [= <-]. exists e. split; [by left|done].
  - intros Hf. destruct (IH Hf) as (e'&?&?). exists e'. split; [by right|done].
Qed.

Lemma built_phase_ok s id p :
  spec_fits s → built_from s id p →
  phase_ok (sc_to_seam (spec_seam s)) p (pc_inner p) ∧ phase_ok (sc_to_seam (spec_seam s)) p (pc_last p).
Proof.
  intros [Hne Hsz] (ph&Hph&Hb). apply build_phase_inv in Hb. cbn [ph_spec] in Hb. destruct Hb as (Hi&Hl&Hn&Hr&Hf).
  destruct (find_phase_elem _ _ _ Hph) as (e&He&<-). specialize (Hsz e He).
  destruct (dem_chunk_from_spec_ok _ _ _ _ Hi Hsz) as (_&[Ti Vi Ii Ri Si]).
  destruct (dem_chunk_from_spec_ok _ _ _ _ Hl (expand_one_sized _ _ _ Hsz)) as (_&[Tl Vl Il Rl Sl]).
  rewrite expand_rates in Ri, Rl.
  assert (width (pc_inner p) (sc_to_seam (spec_seam s)) = pc_rows p) as Hwi.
  { unfold detectors_of in Hr. rewrite Hi in Hr. cbn [mbind res_bind] in Hr.
    rewrite seam_rows_or_zero_eq in Hr by done. cbn [mbind res_bind] in Hr. rewrite Hn, Nat.add_0_r in Hr.
    injection Hr as <-. symmetry. apply wrap_small. rewrite width_in_eq, Si. destruct Hsz as (_&_&Hes).
    pose proof (heights_le (cs_seam_specs (cs_expand (ph_spec e) [sc_to_seam (spec_seam s); sc_from_seam (spec_seam s)]))).
    unfold width_in. destruct (find_seam _ _) as [b| |] eqn:Eb; [|lia|lia].
    pose proof (find_seam_at (bands_from 0 (cs_seam_specs (cs_expand (ph_spec e) [sc_to_seam (spec_seam s); sc_from_seam (spec_seam s)])))
      (sc_to_seam (spec_seam s))) as Hat. rewrite Eb in Hat. destruct Hat as (_&Hin&_).
    apply bands_from_range in Hin. unfold seam_width. lia. }
  assert (length (e_error_rates (pc_inner p)) = pc_faults p) as Hfi.
  { rewrite Hf. unfold num_faults. symmetry. apply wrap_small. apply Ti. }
  split; split; try done.
  - rewrite <-Hwi, !width_in_eq, Si, Sl. symmetry. by apply expand_width.
  - by rewrite <-Hfi, Rl, Ri.
Qed.

(** ** Expansion *)

Lemma spec_validate_with s n : 2 ≤ n → spec_validate s = Ok tt → spec_validate (with_num_rounds s n) = Ok tt.
Proof.
  intros Hn. unfold spec_validate. cbn [num_rounds with_num_rounds].
  destruct (Nat.ltb_spec n 2); [lia|]. cbn [throw_if mbind res_bind].
  change (is_empty (with_num_rounds s n)) with (is_empty s).
  change (phases (with_num_rounds s n)) with (phases s). change (connections (with_num_rounds s n)) with (connections s).
  change (validate_observables (with_num_rounds s n)) with (validate_observables s).
  intros Hv. destruct (is_empty s); [done|]. destruct (bool_decide (length (connections s) = 0)); [done|].
  destruct (bool_decide (length (phases s) = 0)); [done|]. cbn [throw_if mbind res_bind] in *.
  apply bind_ok in Hv as (?&_&Hv). exact Hv.
Qed.

(** The chunks of a shot, one per phase. *)
Definition shot_chunks (ps : list (phase_chunks R)) : list (extended_dem R) :=
  imap (λ r p, if r + 1 <? length ps then pc_inner p else pc_last p) ps.

Lemma length_shot_chunks ps : length (shot_chunks ps) = length ps.
Proof. apply length_imap. Qed.

Lemma lookup_shot_chunks ps r : shot_chunks ps !! r = shot_chunk ps r.
Proof. unfold shot_chunks, shot_chunk. by rewrite list_lookup_imap. Qed.

Lemma sum_take_imap {A B} (f : B → nat) (g : nat → A → B) (h : A → nat) l r :
  (∀ i x, l !! i = Some x → f (g i x) = h x) →
  sum_list_with f (take r (imap g l)) = sum_list_with h (take r l).
Proof.
  revert g r. induction l as [|x l IH]; intros g [|r] Hg; [done..|].
  rewrite imap_cons. cbn [take sum_list_with]. f_equal; [by apply (Hg 0)|].
  apply IH. intros i y Hy. by apply (Hg (S i)).
Qed.

(** Every phase of a shot was built from the spec. *)
Lemma shot_built s t n ps r p :
  make_template s = Ok t → shot_of t n ps → ps !! r = Some p →
  ∃ id, shot_phases t n !! r = Some id ∧ built_from s id p ∧
    reaching (sc_from_seam (spec_seam s)) p (t_max_span t) ∧ t_max_span t ≤ 1.
Proof.
  intros Hm Hs Hp. destruct (Forall2_lookup_r _ _ _ _ _ Hs Hp) as (id&Hid&Hat).
  destruct (make_template_inv s t Hm) as (_&_&_&_&(u&Hb)&_). destruct (build_phases_spec _ _ _ _ _ Hb) as [Hsp Hall].
  destruct (Hall id p Hat). eauto.
Qed.

Lemma shot_phase_ok s t n ps r p :
  make_template s = Ok t → spec_fits s → shot_of t n ps → ps !! r = Some p →
  phase_ok (sc_to_seam (spec_seam s)) p (if r + 1 <? length ps then pc_inner p else pc_last p).
Proof.
  intros Hm Hfit Hs Hp. destruct (shot_built s t n ps r p Hm Hs Hp) as (id&_&Hb&_).
  destruct (built_phase_ok s id p Hfit Hb) as [Hi Hl]. by destruct (r + 1 <? length ps).
Qed.

Lemma expands s t n ps :
  make_template s = Ok t → countable s → joined_spec s → admits t n → shot_of t n ps →
  dem_chunks_from_spec (with_num_rounds s n) = Ok (shot_chunks ps).
Proof.
  intros Hm Hcnt Hj Hadm Hs. pose proof (make_template_ok s t Hm Hcnt Hj) as Hok.
  pose proof (shot_length t Hok n Hadm ps Hs) as Hlen.
  pose proof (length_shot_phases t Hok n Hadm) as Hlp.
  unfold dem_chunks_from_spec. destruct (make_template_inv s t Hm) as (_&Hv&_).
  rewrite spec_validate_with by (done || by eapply admits_two). cbn [mbind res_bind].
  rewrite (template_sequence s t n Hm Hcnt Hj Hadm). cbn [mbind res_bind].
  match goal with |- for_u 0 _ ?body _ = _ =>
    destruct (for_u_inv 0 (length (shot_phases t n)) body (λ i out, out = take i (shot_chunks ps)) []) as (out&->&->) end;
    [lia|done| |].
  - intros i out Hi ->. destruct (lookup_lt_is_Some_2 ps i) as [p Hp]; [lia|].
    destruct (shot_built s t n ps i p Hm Hs Hp) as (id&Hid&(ph&Hph&Hb)&_).
    rewrite (vget_ok _ _ _ Hid). cbn [mbind res_bind].
    change (get_phase (with_num_rounds s n) id) with (get_phase s id). rewrite Hph. cbn [mbind res_bind].
    apply build_phase_inv in Hb. cbn [ph_spec] in Hb. destruct Hb as (Hin&Hla&_).
    assert (shot_chunks ps !! i = Some (if i + 1 <? length ps then pc_inner p else pc_last p)) as Hc.
    { rewrite lookup_shot_chunks. unfold shot_chunk. by rewrite Hp. }
    cbn [spec_seam with_num_rounds]. rewrite Nat.add_1_r, (take_S_r _ _ _ Hc), <-Nat.add_1_r, Hlp, <-Hlen.
    destruct (i + 1 <? length ps); [rewrite Hin|rewrite Hla]; cbn [mbind res_bind]; (by apply returns_ok).
  - rewrite take_ge; [done|]. rewrite length_shot_chunks. lia.
Qed.
(** The expansion behind a template, with what its chunks look like. *)
Lemma template_expansion s t n :
  make_template s = Ok t → countable s → joined_spec s → spec_fits s → admits t n → (Z.of_nat n < 2 ^ 64)%Z →
  returns (dem_chunks_from_spec (with_num_rounds s n)) (λ cs,
    (length cs = n ∧ (∀ r, r < n → t_chunk t r n = vget cs r) ∧
    (∀ r, r ≤ n → (Z.of_nat (sum_list_with (offset_rows (sc_to_seam (spec_seam s))) cs) < 2 ^ 64)%Z →
       row_offset t r n = Ok (sum_list_with (offset_rows (sc_to_seam (spec_seam s))) (take r cs))) ∧
    (∀ r, r ≤ n → (Z.of_nat (sum_list_with (λ c, length (e_error_rates c)) cs) < 2 ^ 64)%Z →
       column_offset t r n = Ok (sum_list_with (λ c, length (e_error_rates c)) (take r cs)))) ∧
    (∀ c, c ∈ cs → interior c = []) ∧ t_max_span t ≤ 1).
Proof.
  intros Hm Hcnt Hj Hfit Hadm Hn. pose proof (make_template_ok s t Hm Hcnt Hj) as Hok.
  destruct (shot_exists t n Hok) as [ps Hs]. pose proof (shot_length t Hok n Hadm ps Hs) as Hlen.
  exists (shot_chunks ps). split; [by eapply expands|].
  assert (∀ r, sum_list_with (offset_rows (sc_to_seam (spec_seam s))) (take r (shot_chunks ps)) =
    sum_list_with pc_rows (take r ps)) as Hrows.
  { intros r. apply sum_take_imap. intros i p Hp. unfold offset_rows.
    destruct (shot_phase_ok s t n ps i p Hm Hfit Hs Hp) as [_ _ Hint Hw _].
    rewrite Hint, Hw. simpl. lia. }
  assert (∀ r, sum_list_with (λ c, length (e_error_rates c)) (take r (shot_chunks ps)) =
    sum_list_with pc_faults (take r ps)) as Hcols.
  { intros r. apply sum_take_imap. intros i p Hp.
    by destruct (shot_phase_ok s t n ps i p Hm Hfit Hs Hp) as [_ _ _ _ Hf]. }
  split; [split_and!|split].
  - by rewrite length_shot_chunks.
  - intros r Hr. destruct (t_chunk_eq t Hok n Hadm Hn ps r Hs Hr) as (c&Hc&->).
    rewrite <-lookup_shot_chunks in Hc. by rewrite (vget_ok _ _ _ Hc).
  - intros r Hr Hsum. rewrite <-(firstn_all (shot_chunks ps)), Hrows, length_shot_chunks, firstn_all in Hsum.
    rewrite Hrows. by apply row_offset_eq.
  - intros r Hr Hsum. rewrite <-(firstn_all (shot_chunks ps)), Hcols, length_shot_chunks, firstn_all in Hsum.
    rewrite Hcols. by apply column_offset_eq.
  - intros c [i Hi]%list_elem_of_lookup. rewrite lookup_shot_chunks in Hi. unfold shot_chunk in Hi.
    destruct (ps !! i) as [p|] eqn:Hp; [|done]. injection Hi as <-. by destruct (shot_phase_ok s t n ps i p Hm Hfit Hs Hp).
  - destruct (lookup_lt_is_Some_2 ps 0) as [p Hp]; [pose proof (admits_two s t n Hm Hadm); lia|].
    by destruct (shot_built s t n ps 0 p Hm Hs Hp) as (_&_&_&_&?).
Qed.
End props.

(** C20. A template is its spec, expanded on demand.  For a spec that the
    constructor accepts, whose repeating phase lies on the chain of its
    connections ([joined_spec]; [detached_accepted] below shows an accepted one
    where it does not), and whose counts fit the types of the code, at every
    admitted shot length: [dem_chunks_from_spec] succeeds, [chunk(r, R)]
    is its chunk [r], and the closed-form row and column offsets of round [r]
    are the sums of the rows and faults of the chunks before it. *)
Theorem template_expands_spec {R} `{RateOps R} (s : dem_chunks_spec R) (t : experiment_template R) (n : nat) :
  make_template s = Ok t → countable s → joined_spec s → spec_fits s → admits t n → (Z.of_nat n < 2 ^ 64)%Z →
  returns (dem_chunks_from_spec (with_num_rounds s n)) (λ cs,
    length cs = n ∧ (∀ r, r < n → t_chunk t r n = vget cs r) ∧
    (∀ r, r ≤ n → (Z.of_nat (sum_list_with (offset_rows (sc_to_seam (spec_seam s))) cs) < 2 ^ 64)%Z →
       row_offset t r n = Ok (sum_list_with (offset_rows (sc_to_seam (spec_seam s))) (take r cs))) ∧
    (∀ r, r ≤ n → (Z.of_nat (sum_list_with (λ c, length (e_error_rates c)) cs) < 2 ^ 64)%Z →
       column_offset t r n = Ok (sum_list_with (λ c, length (e_error_rates c)) (take r cs)))).
Proof.
  intros Hm Hcnt Hj Hfit Hadm Hn. eapply returns_mono; [by apply (template_expansion s t n)|]. by intros cs [? _].
Qed.

(** * Experiment templates: an example

    A memory experiment with one detector a round.  Fault 0 of a round flips
    its detector and the observable, fault 1 flips its detector and the next
    round's, and the last round has fault 0 alone.  The closing examples give
    the instances of the template theorem and show what a repeating phase that
    no edge joins to the chain leads to. *)

Definition memory_round : dem_chunk_spec Q :=
  mk_chunk_spec 2 []
    [mk_seam_entry 7 (mk_seam_spec [0; 1; -1]%Z []); mk_seam_entry 9 (mk_seam_spec [1; -1]%Z [])]
    [0; -1]%Z [(1 # 10)%Q; (1 # 10)%Q] [] None [].

Definition memory_final : dem_chunk_spec Q :=
  mk_chunk_spec 1 [] [mk_seam_entry 7 (mk_seam_spec [0; -1]%Z [])] [0; -1]%Z [(1 # 10)%Q] [] None [].

Definition memory_spec : dem_chunks_spec Q :=
  mk_chunks_spec [mk_phase 1 memory_round; mk_phase 2 memory_round; mk_phase 3 memory_final]
    [mk_connection 1 2; mk_connection 2 2; mk_connection 2 3] (mk_seam_connection 9 7) None None None [].

Definition memory_template : experiment_template Q :=
  Eval vm_compute in match make_template memory_spec with
                     | Ok t => t
                     | _ => mk_template memory_spec false [] [] 0 0 0 0 0 [] [] [] 0
                     end.

Example memory_template_ok : make_template memory_spec = Ok memory_template.
Proof. vm_compute. reflexivity. Qed.

Example memory_shape : (t_min_rounds memory_template, t_max_span memory_template, shot_phases memory_template 5) =
  (3, 1, [1; 2; 2; 2; 3]).
Proof. reflexivity. Qed.

Lemma memory_fits : spec_fits memory_spec.
Proof.
  split; [done|]. intros e He. assert (e ∈ [mk_phase 1 memory_round; mk_phase 2 memory_round; mk_phase 3 memory_final]) as He' by exact He.
  rewrite !elem_of_cons, elem_of_nil in He'. destruct He' as [->|[->|[->|[]]]]; vm_compute; done.
Qed.

Lemma template_expands_spec_witness :
  returns (dem_chunks_from_spec (with_num_rounds memory_spec 5)) (λ cs,
    length cs = 5 ∧ row_offset memory_template 4 5 = Ok 4 ∧ column_offset memory_template 5 5 = Ok 9).
Proof.
  destruct (template_expands_spec memory_spec memory_template 5) as (cs&Hcs&Hl&_&Hr&Hc).
  - vm_compute. reflexivity.
  - vm_compute. done.
  - intros _. vm_compute. reflexivity.
  - exact memory_fits.
  - split; [vm_compute; lia|done].
  - vm_compute. done.
  - exists cs. split; [exact Hcs|]. split; [exact Hl|].
    assert (Ok cs = dem_chunks_from_spec (with_num_rounds memory_spec 5)) as E by (symmetry; exact Hcs).
    vm_compute in E. injection E as ->. split; [rewrite Hr; [|lia|]; vm_compute; done|rewrite Hc; [|lia|]; vm_compute; done].
Defined.

(** ** A repeating phase off the chain

    The connections 1 -> 3 and 2 -> 2 pass every check of [validate] and of the
    constructor, although the repeating phase 2 is on no chain: the layout
    finds it nowhere, so it takes the whole chain as prefix and again as
    suffix. *)
Definition detached_spec : dem_chunks_spec Q :=
  mk_chunks_spec [mk_phase 1 memory_round; mk_phase 2 memory_round; mk_phase 3 memory_final]
    [mk_connection 1 3; mk_connection 2 2] (mk_seam_connection 9 7) None None None [].

Example detached_accepted :
  match make_template detached_spec with
  | Ok t => (t_prefix t, t_suffix t, t_min_rounds t, row_offset t 2 2) = ([1; 3], [1; 3], 2, Ok 4)
  | _ => False
  end.
Proof. vm_compute. reflexivity. Qed.

Example detached_shot :
  joined detached_spec = false ∧ length <$> (match dem_chunks_from_spec (with_num_rounds detached_spec 2) with Ok cs => Some cs | _ => None end) = Some 2 ∧
  dem_chunks_from_spec (with_num_rounds detached_spec 3) = Throw (InvalidArgument "dem_chunks_spec::phase_sequence: computed phases but expected") ∧
  match make_template detached_spec with Ok t => t_phase t 2 3 = Ok 3 | _ => False end.
Proof. vm_compute. repeat split. Qed.
