(* ===== verification/WindowRequest.v ===== *)
(** * Window requests

    Model of the requests of include/cudaq/qec/window_request.h and of their
    checks, instances and placement in
    libs/qec/lib/decoding_task/decoding_task_decoding_window.cpp: a layer of
    decoding windows is a request, window [k] of it is anchored at
    [offset + k * period], and [place_window] clips its zones, ports and sends
    to a shot.  [int64_t] values are integers: the requests that pass the checks
    keep them within [window_round_limit] of zero.  The anchor in [place_window],
    which takes any index and computes it before the checks, is kept at its
    width. *)

From S2P Require Import Prelude Rates Ordering Tensor SparseMatrix RoundLayout DetectorErrorModel ExtendedDem ChunkSpec ExperimentTemplate.

Record round_range := mk_range { rr_begin : Z; rr_end : Z }.

#[global] Instance round_range_eq_dec : EqDecision round_range.
Proof. solve_decision. Defined.

(** [round_range::empty] *)
Definition empty_range (r : round_range) : bool := (rr_end r <=? rr_begin r)%Z.

Inductive port_disposition := port_open | port_closed.
Inductive send_mode := send_delta | send_residual.
Inductive input_boundary := columns | truncate.
Inductive parallel_resolution := reject_parallel | most_likely.

#[global] Instance port_disposition_eq_dec : EqDecision port_disposition.
Proof. solve_decision. Defined.
#[global] Instance send_mode_eq_dec : EqDecision send_mode.
Proof. solve_decision. Defined.
#[global] Instance input_boundary_eq_dec : EqDecision input_boundary.
Proof. solve_decision. Defined.
#[global] Instance parallel_resolution_eq_dec : EqDecision parallel_resolution.
Proof. solve_decision. Defined.

Record send_request := mk_send_request {
  sq_id : string;
  sq_mode : option send_mode;
  sq_rounds : list round_range
}.

Record column_options := mk_column_options {
  merge_identical : bool;
  conflicting_parallel : parallel_resolution
}.

Record output_port := mk_output { out_disposition : option port_disposition; out_imports : option round_range }.

Definition window_round_limit : Z := (2 ^ 31)%Z.

(** Floor and ceiling of [a / b]; the [/] of C++ rounds towards zero. *)
Definition floor_div (a b : Z) : Z := (if 0 <=? a then Z.quot a b else - Z.quot (- a + b - 1) b)%Z.
Definition ceil_div (a b : Z) : Z := floor_div (a + b - 1) b.

(** The order [std::sort] uses on round ranges. *)
Definition begins_before (a b : round_range) : Prop := (rr_begin a ≤ rr_begin b)%Z.
#[global] Instance begins_before_dec a b : Decision (begins_before a b).
Proof. unfold begins_before. apply _. Defined.

Definition sort_ranges (l : list round_range) : list round_range := merge_sort begins_before l.

(** [request.reject] *)
Definition bad_request (what : string) : exn := InvalidArgument ("window request: " +:+ what).

Definition check_within (value : Z) (what : string) : res unit :=
  throw_if ((window_round_limit <? value)%Z || (value <? - window_round_limit)%Z)
    (bad_request (what +:+ " is beyond rounds, past any shot")).

Section request.
Context {R : Type} `{RateOps R}.

Record input_port := mk_input {
  in_disposition : option port_disposition;
  in_prior : option R;
  in_boundary : option input_boundary
}.

Record window_request := mk_request {
  wr_period : Z;
  wr_offset : Z;
  wr_commit : option round_range;
  wr_buffers : list round_range;
  wr_input : input_port;
  wr_output : output_port;
  wr_sends : list send_request;
  wr_columns : column_options
}.

Implicit Types q : window_request.

(** ** Checks *)

Definition is_default_send (send : send_request) : bool :=
  (String.eqb (sq_id send) "forward" || String.eqb (sq_id send) "backward") &&
  bool_decide (sq_mode send = None) && bool_decide (sq_rounds send = []).

(** [*request.commit]; the callers have checked that it is set. *)
Definition commit_of q : res round_range :=
  match wr_commit q with Some c => Ok c | None => Undef end.

Definition trailing_buffer q (commit : round_range) : option round_range :=
  head (filter (λ b, rr_begin b = rr_end commit) (wr_buffers q)).

Definition sorted_zones q (commit : round_range) : list round_range :=
  sort_ranges (wr_buffers q ++ [commit]).

Definition check_anchor q : res unit :=
  _ ← throw_if (wr_period q <? 1)%Z (bad_request "period must be at least 1");
  _ ← check_within (wr_period q) "period";
  _ ← check_within (wr_offset q) "offset";
  _ ← throw_if (bool_decide (wr_commit q = None)) (bad_request "no commit zone");
  commit ← commit_of q;
  _ ← check_within (rr_begin commit) "round";
  _ ← check_within (rr_end commit) "round";
  throw_if (empty_range commit) (bad_request "the commit zone is empty").

(** The rounds of one named send, sorted. *)
Definition check_send_rounds (rounds : list round_range) (window : round_range) : res unit :=
  for_u 0 (length rounds) (λ i _,
    r ← vget rounds i;
    _ ← check_within (rr_begin r) "round";
    _ ← check_within (rr_end r) "round";
    _ ← throw_if (empty_range r) (bad_request "send has an empty round range");
    _ ← throw_if ((rr_begin r <? rr_begin window)%Z || (rr_end window <? rr_end r)%Z)
          (bad_request "send reaches past the window");
    if 0 <? i then
      prev ← vget rounds (i - 1);
      throw_if (rr_begin r <? rr_end prev)%Z (bad_request "send repeats round")
    else Ok tt) tt.

Definition check_send q (commit window : round_range) (send : send_request) (ids : list string)
    : res (list string) :=
  _ ← throw_if (bool_decide (sq_id send ∈ ids)) (bad_request "send is repeated");
  let ids := ids ++ [sq_id send] in
  if is_default_send send then
    _ ← throw_if (String.eqb (sq_id send) "forward" && bool_decide (trailing_buffer q commit = None))
          (bad_request "a forward send needs a buffer zone after the commit zone");
    Ok ids
  else
    _ ← throw_if (bool_decide (sq_mode send = None) || bool_decide (sq_rounds send = []))
          (bad_request "send needs a mode and rounds");
    _ ← check_send_rounds (sort_ranges (sq_rounds send)) window;
    Ok ids.

Definition check_sends q (commit window : round_range) : res unit :=
  _ ← foldM (check_send q commit window) (wr_sends q) [];
  Ok tt.

Definition check_zones (zones : list round_range) : res unit :=
  for_u 1 (length zones) (λ i _,
    z ← vget zones i;
    prev ← vget zones (i - 1);
    _ ← throw_if (rr_begin z <? rr_end prev)%Z (bad_request "zones overlap");
    throw_if (rr_end prev <? rr_begin z)%Z (bad_request "zones are not contiguous")) tt.

Definition check_ports q (window : round_range) : res unit :=
  let input := wr_input q in
  let output := wr_output q in
  _ ← throw_if (bool_decide (in_disposition input = None)) (bad_request "the input port has no disposition");
  _ ← throw_if (bool_decide (out_disposition output = None)) (bad_request "the output port has no disposition");
  let open_input := bool_decide (in_disposition input = Some port_open) in
  let truncated := bool_decide (in_boundary input = Some truncate) in
  let has_prior := match in_prior input with Some _ => true | None => false end in
  _ ← throw_if (negb open_input && negb (bool_decide (in_boundary input = None)))
        (bad_request "a closed input takes no boundary");
  _ ← throw_if (open_input && negb truncated && negb has_prior) (bad_request "an open input needs a prior");
  _ ← throw_if (negb open_input && has_prior) (bad_request "a closed input takes no prior");
  _ ← throw_if (truncated && has_prior) (bad_request "a truncated input takes no prior");
  _ ← throw_if match in_prior input with
               | Some p => negb (rate_ltb rate_zero p && rate_ltb p rate_one)
               | None => false
               end (bad_request "the input prior must be strictly between 0 and 1");
  match out_imports output with
  | None => Ok tt
  | Some imports =>
      _ ← check_within (rr_begin imports) "round";
      _ ← check_within (rr_end imports) "round";
      _ ← throw_if (bool_decide (out_disposition output = Some port_open)) (bad_request "an open output imports nothing");
      _ ← throw_if (empty_range imports) (bad_request "the imports are empty");
      throw_if (negb (rr_begin imports =? rr_end window)%Z) (bad_request "imports must start at the output wire")
  end.

Definition check_request q : res unit :=
  _ ← check_anchor q;
  commit ← commit_of q;
  let zones := sorted_zones q commit in
  front ← vget zones 0;
  back ← vget zones (length zones - 1);
  let window := mk_range (rr_begin front) (rr_end back) in
  _ ← foldM (λ buffer _,
        _ ← check_within (rr_begin buffer) "round";
        _ ← check_within (rr_end buffer) "round";
        throw_if (empty_range buffer) (bad_request "a buffer zone is empty")) (wr_buffers q) tt;
  _ ← check_zones zones;
  _ ← check_ports q window;
  check_sends q commit window.

(** ** Instances and variants *)

Definition zone_span q : res round_range :=
  commit ← commit_of q;
  Ok (foldl (λ span buffer, mk_range (rr_begin span `min` rr_begin buffer) (rr_end span `max` rr_end buffer))
        commit (wr_buffers q)).

Definition clip_rounds (zone : round_range) (anchor end_ : Z) : round_range :=
  mk_range (0 `max` (anchor + rr_begin zone)) (end_ `min` (anchor + rr_end zone)).

Definition model_reach (t : experiment_template R) q : res round_range :=
  span ← zone_span q;
  let m := Z.of_nat (t_max_span t) in
  let imports_end :=
    if bool_decide (out_disposition (wr_output q) = Some port_closed) then
      match out_imports (wr_output q) with Some i => rr_end i | None => (rr_end span + m)%Z end
    else rr_end span in
  Ok (mk_range (rr_begin span - 1) ((rr_end span + m) `max` imports_end)).

Record index_range := mk_index_range { ir_begin : Z; ir_end : Z }.

Definition window_instances q (num_rounds : nat) : res index_range :=
  _ ← check_anchor q;
  let R := Z.of_nat num_rounds in
  let period := wr_period q in
  commit ← commit_of q;
  let begin := (floor_div (- wr_offset q - rr_end commit) period + 1)%Z in
  let end_ := floor_div (R - wr_offset q - rr_begin commit + period - 1) period in
  Ok (mk_index_range begin (end_ `max` begin)).

Definition first_bulk_index (t : experiment_template R) q : res Z :=
  reach ← model_reach t q;
  Ok (ceil_div (Z.of_nat (prefix_rounds t) - wr_offset q - rr_begin reach) (wr_period q)).

Definition end_rounds (t : experiment_template R) : Z := Z.of_nat (suffix_rounds t) `max` 1.

Record variant_key := mk_key { key_position : option Z; key_terminal : option Z }.
Record variant_bounds := mk_bounds { vb_reach : round_range; vb_prefix_rounds : Z; vb_end_rounds : Z }.

#[global] Instance variant_key_eq_dec : EqDecision variant_key.
Proof. solve_decision. Defined.

(** [variant_key::bulk] *)
Definition is_bulk (key : variant_key) : bool :=
  bool_decide (key_position key = None) && bool_decide (key_terminal key = None).

Definition variant_bounds_of (t : experiment_template R) q : res variant_bounds :=
  _ ← check_anchor q;
  reach ← model_reach t q;
  Ok (mk_bounds reach (Z.of_nat (prefix_rounds t)) (end_rounds t)).

(** The overload of [window_variant] that takes the bounds. *)
Definition variant_from (bounds : variant_bounds) q (k : Z) (num_rounds : nat) : variant_key :=
  let R := Z.of_nat num_rounds in
  let anchor := (wr_offset q + k * wr_period q)%Z in
  mk_key (if (anchor + rr_begin (vb_reach bounds) <? vb_prefix_rounds bounds)%Z then Some k else None)
    (if (R - vb_end_rounds bounds <? anchor + rr_end (vb_reach bounds))%Z then Some (R - anchor)%Z else None).

Definition window_variant (t : experiment_template R) q (k : Z) (num_rounds : nat) : res variant_key :=
  bounds ← variant_bounds_of t q;
  Ok (variant_from bounds q k num_rounds).

Definition variant_probe_rounds (t : experiment_template R) q : res nat :=
  _ ← check_request q;
  if negb (t_repeats t) then Ok (t_min_rounds t + 1) else
  reach ← model_reach t q;
  k0 ← first_bulk_index t q;
  let k := (k0 + 1)%Z in
  let end_ := (wr_offset q + k * wr_period q + rr_end reach + end_rounds t + 1)%Z in
  Ok (t_min_rounds t `max` Z.to_nat (end_ `max` 0))%nat.

Record variant_instance := mk_variant_instance { vi_key : variant_key; vi_k : Z; vi_num_rounds : nat }.

(** [for (auto k = begin; k < end; ++k)] over [int64_t]. *)
Definition z_range (lo hi : Z) : list Z := (λ i, (lo + Z.of_nat i)%Z) <$> seq 0 (Z.to_nat (hi - lo)).

Definition variant_instances (t : experiment_template R) q : res (list variant_instance) :=
  probe ← variant_probe_rounds t q;
  for_u (t_min_rounds t) probe (λ R out,
    instances ← window_instances q R;
    foldM (λ k out,
      key ← window_variant t q k R;
      Ok (if existsb (λ v, bool_decide (vi_key v = key)) out then out
          else out ++ [mk_variant_instance key k R])) (z_range (ir_begin instances) (ir_end instances)) out) [].

(** ** Placement *)

(** A [std::shared_ptr] to a template: its address and the template. *)
Record template_ref := mk_ref { ref_address : nat; ref_template : experiment_template R }.

Record window_port := mk_port {
  wp_exists : bool;
  wp_disposition : port_disposition;
  wp_boundary : input_boundary;
  wp_prior : R;
  wp_imports : round_range
}.

Record window_send := mk_send {
  ws_id : string;
  ws_mode : send_mode;
  ws_rounds : list round_range;
  ws_rows : list nat
}.

(** The fields of [decoding_window] that [place_window] sets. *)
Record placed_window := mk_placed {
  pw_context : option template_ref;
  pw_k : Z;
  pw_shot_rounds : nat;
  pw_rounds : round_range;
  pw_commit : round_range;
  pw_buffers : list round_range;
  pw_input : window_port;
  pw_output : window_port;
  pw_sends : list window_send
}.

(** The conversion of an [int64_t] round to [std::size_t]. *)
Definition to_size (z : Z) : nat := Z.to_nat (z mod 2 ^ 64)%Z.

(** The lambda [row]: rows before round [r] counted from round [s]. *)
Definition row_from (t : experiment_template R) (num_rounds : nat) (s r : Z) : res nat :=
  a ← row_offset t (to_size r) num_rounds;
  b ← row_offset t (to_size s) num_rounds;
  Ok (u64_sub a b).

Definition place_send (t : experiment_template R) q (commit : round_range) (num_rounds : nat) (anchor s : Z)
    (rs : send_request) : res window_send :=
  let mode := default (if String.eqb (sq_id rs) "backward" then send_residual else send_delta) (sq_mode rs) in
  rounds ← (if is_default_send rs then
              first ← (if String.eqb (sq_id rs) "forward"
                       then match trailing_buffer q commit with Some b => Ok (rr_begin b) | None => Undef end
                       else Ok (rr_begin commit));
              Ok [mk_range first (first + Z.of_nat (t_max_span t))]
            else Ok (sq_rounds rs));
  foldM (λ relative send,
    let clipped := clip_rounds relative anchor (Z.of_nat num_rounds) in
    if empty_range clipped then Ok send else
    lo ← row_from t num_rounds s (rr_begin clipped);
    hi ← row_from t num_rounds s (rr_end clipped);
    Ok (mk_send (ws_id send) (ws_mode send) (ws_rounds send ++ [clipped]) (ws_rows send ++ seq lo (hi - lo))))
    (sort_ranges rounds) (mk_send (sq_id rs) mode [] []).

(** The zones of the window anchored at [anchor]: its buffers, sorted, and its
    rounds. *)
Definition clip_zones q (commit : round_range) (anchor R : Z) : list round_range * round_range :=
  let '(buffers, rounds) :=
    foldl (λ st buffer,
      let '(buffers, rounds) := st in
      let clipped := clip_rounds buffer anchor R in
      if empty_range clipped then (buffers, rounds)
      else (buffers ++ [clipped],
            mk_range (rr_begin rounds `min` rr_begin clipped) (rr_end rounds `max` rr_end clipped)))
      ([], commit) (wr_buffers q) in
  (sort_ranges buffers, rounds).

(** [int64_t] arithmetic: a result out of range is undefined. *)
Definition i64 (z : Z) : res Z := if (- 2 ^ 63 <=? z)%Z && (z <? 2 ^ 63)%Z then Ok z else Undef.

(** [request.offset + k * request.period]; nothing bounds the caller's [k]. *)
Definition window_anchor q (k : Z) : res Z :=
  steps ← i64 (k * wr_period q);
  i64 (wr_offset q + steps).

(** [clip_rounds] of a zone at an anchor that nothing bounds yet. *)
Definition clip_checked (zone : round_range) (anchor end_ : Z) : res round_range :=
  _ ← i64 (anchor + rr_begin zone);
  _ ← i64 (anchor + rr_end zone);
  Ok (clip_rounds zone anchor end_).

(** A commit zone that reaches the shot puts the anchor near it, so that no later
    sum leaves [int64_t]. *)
Definition place_window (context : option template_ref) q (k : Z) (num_rounds : nat) : res placed_window :=
  match context with
  | None => Throw (InvalidArgument "place_window: no template")
  | Some ref =>
      let t := ref_template ref in
      let R := Z.of_nat num_rounds in
      anchor ← window_anchor q k;
      _ ← check_request q;
      _ ← row_offset t num_rounds num_rounds;
      zone ← commit_of q;
      let zones := sorted_zones q zone in
      back ← vget zones (length zones - 1);
      let relative_end := rr_end back in
      let m_span := Z.of_nat (t_max_span t) in
      commit ← clip_checked zone anchor R;
      _ ← throw_if (empty_range commit)
            (InvalidArgument "place_window: window has no commit round in the shot");
      let '(buffers, rounds) := clip_zones q commit anchor R in
      let s := rr_begin rounds in
      let e := rr_end rounds in
      in_disp ← match in_disposition (wr_input q) with Some d => Ok d | None => Undef end;
      out_disp ← match out_disposition (wr_output q) with Some d => Ok d | None => Undef end;
      let boundary := default columns (in_boundary (wr_input q)) in
      prior ← (if (0 <? s)%Z && bool_decide (in_disp = port_open) && bool_decide (boundary = columns)
               then match in_prior (wr_input q) with Some p => Ok p | None => Undef end
               else Ok rate_zero);
      let imports :=
        if (e <? R)%Z && bool_decide (out_disp = port_closed)
        then clip_rounds (default (mk_range relative_end (relative_end + m_span)) (out_imports (wr_output q))) anchor R
        else mk_range 0 0 in
      sends ← foldM (λ rs sends, send ← place_send t q zone num_rounds anchor s rs; Ok (sends ++ [send])) (wr_sends q) [];
      Ok (mk_placed context k num_rounds rounds commit buffers
            (mk_port (0 <? s)%Z in_disp boundary prior (mk_range 0 0))
            (mk_port (e <? R)%Z out_disp columns rate_zero imports) sends)
  end.
End request.
Arguments input_port R : clear implicits.
Arguments window_request R : clear implicits.
Arguments template_ref R : clear implicits.
Arguments window_port R : clear implicits.
Arguments placed_window R : clear implicits.
