(* ===== verification/WindowRequestFacts.v ===== *)
(** * Window requests: what the checks accept

    [check_request] accepts exactly the well-formed requests: non-empty zones
    that partition the rounds between the first and the last one, consistent
    ports, and sends with distinct names and disjoint rounds.  The instances
    of a request are exactly the windows that commit a round of the shot. *)

From S2P Require Import Prelude Rates Ordering Tensor SparseMatrix RoundLayout DetectorErrorModel ExtendedDem ExtendedChunk ChunkSpec ExperimentTemplate WindowRequest.

(** ** Division *)

Lemma floor_div_eq a b : (0 < b)%Z → floor_div a b = (a / b)%Z.
Proof.
  intros Hb. unfold floor_div. destruct (Z.leb_spec 0 a).
  - by apply Z.quot_div_nonneg.
  - rewrite Z.quot_div_nonneg by lia.
    pose proof (Z.div_mod a b ltac:(lia)). pose proof (Z.mod_pos_bound a b Hb).
    assert ((- a + b - 1) / b = - (a / b))%Z; [|lia].
    symmetry. apply (Z.div_unique _ _ _ (b - 1 - a mod b)); [lia|]. nia.
Qed.

Lemma ceil_div_le a b k : (0 < b)%Z → (ceil_div a b ≤ k)%Z ↔ (a ≤ k * b)%Z.
Proof.
  intros Hb. unfold ceil_div. rewrite floor_div_eq by done.
  pose proof (Z.div_mod (a + b - 1) b ltac:(lia)). pose proof (Z.mod_pos_bound (a + b - 1) b Hb).
  split; nia.
Qed.
Lemma floor_div_lt a b k : (0 < b)%Z → (floor_div a b < k)%Z ↔ (a < k * b)%Z.
Proof.
  intros Hb. rewrite floor_div_eq by done.
  pose proof (Z.div_mod a b ltac:(lia)). pose proof (Z.mod_pos_bound a b Hb). split; nia.
Qed.

(** ** Round ranges *)

Definition in_range (r : round_range) (q : Z) : Prop := (rr_begin r ≤ q < rr_end r)%Z.
#[global] Instance in_range_dec r q : Decision (in_range r q).
Proof. unfold in_range. apply _. Defined.

Definition nonempty (r : round_range) : Prop := (rr_begin r < rr_end r)%Z.
Definition disjoint_ranges (a b : round_range) : Prop := ∀ q, in_range a q → in_range b q → False.
Definition within_limit (z : Z) : Prop := (- window_round_limit ≤ z ≤ window_round_limit)%Z.
Definition limited (r : round_range) : Prop := within_limit (rr_begin r) ∧ within_limit (rr_end r).

Lemma empty_range_false r : empty_range r = false ↔ nonempty r.
Proof. unfold empty_range, nonempty. rewrite Z.leb_gt. done. Qed.

Lemma clip_in_range zone anchor R q :
  in_range (clip_rounds zone anchor R) q ↔ in_range zone (q - anchor) ∧ (0 ≤ q < R)%Z.
Proof. unfold in_range, clip_rounds. simpl. lia. Qed.

#[global] Instance begins_before_total : Total begins_before.
Proof. intros a b. unfold begins_before. lia. Qed.
#[global] Instance begins_before_trans : Transitive begins_before.
Proof. intros a b c. unfold begins_before. lia. Qed.

Lemma sort_ranges_perm l : sort_ranges l ≡ₚ l.
Proof. apply merge_sort_Permutation. Qed.
Lemma sort_ranges_sorted l : StronglySorted begins_before (sort_ranges l).
Proof. apply StronglySorted_merge_sort; apply _. Qed.

Lemma disjoint_sorted a b :
  nonempty a → nonempty b → begins_before a b → disjoint_ranges a b ↔ (rr_end a ≤ rr_begin b)%Z.
Proof.
  unfold nonempty, begins_before, disjoint_ranges, in_range. intros Ha Hb Hab. split.
  - intros Hd. destruct (Z.leb_spec (rr_end a) (rr_begin b)); [done|]. exfalso. apply (Hd (rr_begin b)); lia.
  - intros ? q ? ?. lia.
Qed.

(** Sorted non-empty ranges are disjoint iff neighbours do not overlap. *)
Lemma sorted_disjoint l :
  Forall nonempty l → StronglySorted begins_before l →
  (∀ i a b, l !! i = Some a → l !! S i = Some b → (rr_end a ≤ rr_begin b)%Z) ↔ StronglySorted disjoint_ranges l.
Proof.
  intros Hne Hs. rewrite <-(sorted_lookup_adjacent (λ a b, (rr_end a ≤ rr_begin b)%Z)). split.
  - induction Hs as [|a l Hs IH Hall]; intros Hadj; [constructor|].
    apply Forall_cons in Hne as [Ha Hne]. inversion_clear Hadj as [|? ? Hadj' Hhd].
    constructor; [by apply IH|]. destruct l as [|b l]; [done|].
    inversion_clear Hhd as [|? ? Hab]. inversion_clear Hs as [|? ? _ Hall'].
    apply Forall_cons. split; [unfold disjoint_ranges, in_range; lia|].
    eapply Forall_impl; [exact Hall'|]. unfold begins_before, disjoint_ranges, in_range. intros x Hx q ? ?. lia.
  - induction Hs as [|a l Hs IH Hall]; intros Hap; [constructor|].
    apply Forall_cons in Hne as [Ha Hne]. inversion_clear Hap as [|? ? Hap' Hall'].
    constructor; [by apply IH|]. destruct l as [|b l]; constructor.
    apply Forall_cons in Hall as [Hab _], Hall' as [Hab' _], Hne as [Hb _]. by apply disjoint_sorted.
Qed.

Lemma disjoint_perm l l' : l ≡ₚ l' → StronglySorted disjoint_ranges l → StronglySorted disjoint_ranges l'.
Proof. apply pairwise_perm. unfold disjoint_ranges. eauto. Qed.

(** The union of a list of ranges has no gap. *)
Definition covers (l : list round_range) (lo hi : Z) : Prop :=
  ∀ q, (lo ≤ q < hi)%Z → ∃ z, z ∈ l ∧ in_range z q.

Lemma sorted_contiguous l front back :
  Forall nonempty l → StronglySorted begins_before l → head l = Some front → last l = Some back →
  (∀ i a b, l !! i = Some a → l !! S i = Some b → rr_begin b = rr_end a) ↔
  StronglySorted disjoint_ranges l ∧ covers l (rr_begin front) (rr_end back).
Proof.
  intros Hne Hs Hf Hb. rewrite <-sorted_disjoint by done. split.
  - intros Hadj. split; [intros i a b ? ?; rewrite (Hadj i a b) by done; lia|].
    clear Hs. revert front Hf Hadj. induction l as [|a l IH]; intros front Hf Hadj; [done|].
    injection Hf as ->. apply Forall_cons in Hne as [Ha Hne]. intros q Hq.
    destruct (decide (q < rr_end front)%Z) as [Hlt|Hge].
    { exists front. split; [by left|]. unfold in_range. lia. }
    destruct l as [|b l].
    { injection Hb as ->. lia. }
    pose proof (Hadj 0 front b eq_refl eq_refl) as Eb.
    destruct (IH Hne Hb b eq_refl) with (q := q) as (z&Hz&Hin); [|lia|].
    { intros i x y. apply (Hadj (S i)). }
    exists z. split; [by right|done].
  - rewrite sorted_disjoint by done. intros [Hd Hcov]. rewrite <-(sorted_lookup_adjacent (λ a b, rr_begin b = rr_end a)).
    revert front Hf Hcov. induction Hs as [|a l Hs IH Hall]; intros front Hf Hcov; [constructor|]. injection Hf as ->.
    apply Forall_cons in Hne as [Ha Hne]. inversion_clear Hd as [|? ? Hd' Hda].
    destruct l as [|b l]; [repeat constructor|].
    assert (∀ x, x ∈ b :: l → (rr_begin b ≤ rr_begin x)%Z) as Hle.
    { inversion_clear Hs as [|? ? _ Hb']. rewrite Forall_forall in Hb'. intros x [->|Hx]%elem_of_cons; [done|]. by apply Hb'. }
    assert (rr_end front ≤ rr_begin b)%Z as Hfb.
    { apply Forall_cons in Hall as [Hfb _], Hda as [Hdb _], Hne as [Hb' _]. by apply disjoint_sorted. }
    assert (rr_begin b < rr_end back)%Z as Hlast.
    { assert (back ∈ b :: l) as Hin by (by apply last_Some_elem_of).
      rewrite Forall_forall in Hne. specialize (Hne back Hin). specialize (Hle back Hin). unfold nonempty in Hne. lia. }
    constructor.
    + apply (IH Hne Hb Hd' b); [done|]. intros q Hq. destruct (Hcov q) as (z&[->|Hz]%elem_of_cons&Hin).
      * unfold nonempty in Ha. lia.
      * unfold in_range in Hin. lia.
      * eauto.
    + constructor. destruct (decide (rr_begin b = rr_end front)) as [|Hgap]; [done|]. exfalso.
      destruct (Hcov (rr_end front)) as (z&[->|Hz]%elem_of_cons&Hin).
      * unfold nonempty in Ha. lia.
      * unfold in_range in Hin. lia.
      * specialize (Hle z Hz). unfold in_range in Hin. lia.
Qed.

Section request.
Context {R : Type} `{RateOps R}.
Implicit Types q : window_request R.

(** ** Well-formed requests *)

Definition zones_of q (commit : round_range) : list round_range := wr_buffers q ++ [commit].

Definition span_of q (commit : round_range) : round_range :=
  foldl (λ span buffer, mk_range (rr_begin span `min` rr_begin buffer) (rr_end span `max` rr_end buffer))
    commit (wr_buffers q).

Record anchor_ok q (commit : round_range) : Prop := {
  an_period : (1 ≤ wr_period q)%Z ∧ within_limit (wr_period q);
  an_offset : within_limit (wr_offset q);
  an_commit : wr_commit q = Some commit;
  an_limited : limited commit;
  an_nonempty : nonempty commit
}.

Record ports_ok q (span : round_range) : Prop := {
  pt_input : is_Some (in_disposition (wr_input q));
  pt_output : is_Some (out_disposition (wr_output q));
  pt_closed : in_disposition (wr_input q) ≠ Some port_open → in_boundary (wr_input q) = None ∧ in_prior (wr_input q) = None;
  pt_open : in_disposition (wr_input q) = Some port_open → in_boundary (wr_input q) ≠ Some truncate → is_Some (in_prior (wr_input q));
  pt_truncate : in_boundary (wr_input q) = Some truncate → in_prior (wr_input q) = None;
  pt_prior : ∀ p, in_prior (wr_input q) = Some p → rate_ltb rate_zero p = true ∧ rate_ltb p rate_one = true;
  pt_imports : ∀ i, out_imports (wr_output q) = Some i →
    limited i ∧ out_disposition (wr_output q) ≠ Some port_open ∧ nonempty i ∧ rr_begin i = rr_end span
}.

Definition rounds_ok (span : round_range) (rounds : list round_range) : Prop :=
  Forall (λ r, limited r ∧ nonempty r ∧ (rr_begin span ≤ rr_begin r)%Z ∧ (rr_end r ≤ rr_end span)%Z) rounds ∧
  StronglySorted disjoint_ranges rounds.

Definition send_ok q (commit span : round_range) (send : send_request) : Prop :=
  if is_default_send send
  then sq_id send = "forward" → is_Some (trailing_buffer q commit)
  else is_Some (sq_mode send) ∧ sq_rounds send ≠ [] ∧ rounds_ok span (sq_rounds send).

Record request_ok q (commit : round_range) : Prop := {
  rq_anchor : anchor_ok q commit;
  rq_limited : Forall limited (wr_buffers q);
  rq_nonempty : Forall nonempty (wr_buffers q);
  rq_disjoint : StronglySorted disjoint_ranges (zones_of q commit);
  rq_covers : covers (zones_of q commit) (rr_begin (span_of q commit)) (rr_end (span_of q commit));
  rq_ports : ports_ok q (span_of q commit);
  rq_ids : NoDup (sq_id <$> wr_sends q);
  rq_sends : Forall (send_ok q commit (span_of q commit)) (wr_sends q)
}.

(** ** Anchors *)

(** The sums that [place_window] forms before it knows that the window has a
    commit round in the shot. *)
Definition anchor_sums q (commit : round_range) (k : Z) : list Z :=
  let a := (wr_offset q + k * wr_period q)%Z in
  [k * wr_period q; a; a + rr_begin commit; a + rr_end commit]%Z.
Definition in_i64 (z : Z) : Prop := (- 2 ^ 63 ≤ z < 2 ^ 63)%Z.

#[global] Instance in_i64_dec z : Decision (in_i64 z).
Proof. unfold in_i64. apply _. Defined.


Lemma i64_ok z : in_i64 z → i64 z = Ok z.
Proof. intros [H1 H2]. unfold i64. rewrite (proj2 (Z.leb_le _ _)) by done. by rewrite (proj2 (Z.ltb_lt _ _)). Qed.
Lemma i64_overflows z : ¬ in_i64 z → i64 z = Undef.
Proof. intros Hz. unfold i64. destruct (Z.leb_spec (- 2 ^ 63) z), (Z.ltb_spec z (2 ^ 63)); cbn [andb]; try done. destruct Hz. done. Qed.
Lemma i64_inv z x : i64 z = Ok x → x = z ∧ in_i64 z.
Proof. unfold i64. destruct (Z.leb_spec (- 2 ^ 63) z), (Z.ltb_spec z (2 ^ 63)); cbn [andb]; intros [= <-]. done. Qed.

Lemma window_anchor_inv q k a : window_anchor q k = Ok a → a = (wr_offset q + k * wr_period q)%Z.
Proof. intros Hw. apply bind_ok in Hw as (s&[-> _]%i64_inv&[-> _]%i64_inv). done. Qed.

Lemma clip_checked_inv zone a end_ r : clip_checked zone a end_ = Ok r → r = clip_rounds zone a end_.
Proof. intros Hc. apply bind_ok in Hc as (?&_&Hc). apply bind_ok in Hc as (?&_&[= <-]). done. Qed.

Lemma anchor_fits q commit k end_ : Forall in_i64 (anchor_sums q commit k) →
  let a := (wr_offset q + k * wr_period q)%Z in window_anchor q k = Ok a ∧ clip_checked commit a end_ = Ok (clip_rounds commit a end_).
Proof.
  intros Hf a. unfold anchor_sums in Hf. rewrite !Forall_cons in Hf. destruct Hf as (H1&H2&H3&H4&_). unfold window_anchor, clip_checked.
  rewrite i64_ok by done. cbn [mbind res_bind]. rewrite i64_ok by done. split; [done|]. rewrite i64_ok by done. cbn [mbind res_bind]. by rewrite i64_ok.
Qed.

(** An index whose commit zone reaches the shot, and every index within the
    limit of the requests, has its sums in range. *)
Lemma instance_fits q commit k N : anchor_ok q commit → (N < 2 ^ 62)%Z → nonempty (clip_rounds commit (wr_offset q + k * wr_period q) N) → Forall in_i64 (anchor_sums q commit k).
Proof.
  intros [_ Ho _ [Hl1 Hl2] _] HN Hne. unfold nonempty, clip_rounds in Hne. cbn [rr_begin rr_end] in Hne. unfold within_limit, window_round_limit in *.
  unfold anchor_sums, in_i64. cbv zeta. set (a := (wr_offset q + k * wr_period q)%Z) in *. assert (k * wr_period q = a - wr_offset q)%Z as -> by (unfold a; lia).
  repeat (apply Forall_cons; split); [lia..|done].
Qed.

Lemma near_index_fits q commit k : anchor_ok q commit → within_limit k → Forall in_i64 (anchor_sums q commit k).
Proof.
  intros [[Hp1 Hp2] Ho _ [Hl1 Hl2] _] Hk. unfold within_limit, window_round_limit in *. assert (- (2 ^ 62) ≤ k * wr_period q ≤ 2 ^ 62)%Z as Hm by nia.
  unfold anchor_sums, in_i64. cbv zeta. set (m := (k * wr_period q)%Z) in *. repeat (apply Forall_cons; split); [lia..|done].
Qed.

(** ** The checks decide it *)

Lemma decides_within z what : decides (check_within z what) (within_limit z) tt.
Proof.
  eapply decides_iff; [apply decides_throw_if|]. rewrite orb_false_iff, !Z.ltb_ge. unfold within_limit. lia.
Qed.
Lemma decides_nonempty r what : decides (throw_if (empty_range r) (bad_request what)) (nonempty r) tt.
Proof. eapply decides_iff; [apply decides_throw_if|]. apply empty_range_false. Qed.
Lemma decides_zltb a b what : decides (throw_if (a <? b)%Z (bad_request what)) (b ≤ a)%Z tt.
Proof. eapply decides_iff; [apply decides_throw_if|]. rewrite Z.ltb_ge. done. Qed.

Lemma check_anchor_decides q : decides (check_anchor q) (∃ commit, anchor_ok q commit) tt.
Proof.
  unfold check_anchor. eapply decides_iff; [eapply decides_bind; [apply decides_zltb|]; intros Hp|].
  { eapply decides_bind; [apply decides_within|]; intros Hpl.
    eapply decides_bind; [apply decides_within|]; intros Ho.
    eapply decides_bind; [apply decides_throw_if|]; intros Hc.
    apply bool_decide_eq_false in Hc. unfold commit_of. destruct (wr_commit q) as [c|] eqn:Ec; [|done].
    cbn [mbind res_bind].
    instantiate (1 := ∃ c, wr_commit q = Some c ∧ limited c ∧ nonempty c).
    eapply decides_iff; [eapply decides_bind; [apply decides_within|]; intros _|].
    { eapply decides_bind; [apply decides_within|]; intros _. apply decides_nonempty. }
    unfold limited. rewrite Ec. split; [intros (?&?&?); exists c; done|]. intros (c'&[= <-]&?&?). tauto. }
  rewrite bool_decide_eq_false. split.
  - intros (?&?&?&?&c&?&?&?). by exists c.
  - intros (c&[[? ?] ? Hc ? ?]). split_and!; try done; [congruence|eauto].
Qed.

Lemma zone_span_bounds q commit :
  (∀ z, z ∈ zones_of q commit → (rr_begin (span_of q commit) ≤ rr_begin z)%Z ∧ (rr_end z ≤ rr_end (span_of q commit))%Z) ∧
  (∃ z, z ∈ zones_of q commit ∧ rr_begin z = rr_begin (span_of q commit)) ∧
  (∃ z, z ∈ zones_of q commit ∧ rr_end z = rr_end (span_of q commit)).
Proof.
  unfold zones_of, span_of. induction (wr_buffers q) as [|b l IH] using rev_ind.
  - cbn [foldl app]. split_and!; [|exists commit; split; [by left|done]..]. intros z ->%list_elem_of_singleton. lia.
  - rewrite foldl_app. cbn [foldl]. destruct IH as (IH1&(zb&Hzb&Eb)&(ze&Hze&Ee)).
    remember (foldl (λ span buffer, mk_range (rr_begin span `min` rr_begin buffer) (rr_end span `max` rr_end buffer)) commit l) as sp.
    cbn [rr_begin rr_end].
    assert (∀ z, z ∈ (l ++ [b]) ++ [commit] ↔ z ∈ l ++ [commit] ∨ z = b) as Hin.
    { intros z. rewrite !elem_of_app, !list_elem_of_singleton. tauto. }
    split_and!.
    + intros z [Hz|Hz]%Hin; [specialize (IH1 z Hz); lia|subst; lia].
    + destruct (Z.min_spec (rr_begin sp) (rr_begin b)) as [[_ ->]|[_ ->]].
      * exists zb. split; [apply Hin; by left|done].
      * exists b. split; [apply Hin; by right|done].
    + destruct (Z.max_spec (rr_end sp) (rr_end b)) as [[_ ->]|[_ ->]].
      * exists b. split; [apply Hin; by right|done].
      * exists ze. split; [apply Hin; by left|done].
Qed.

(** The sorted zones' ends are those of the span. *)
Lemma sorted_front q commit front :
  head (sorted_zones q commit) = Some front → rr_begin front = rr_begin (span_of q commit).
Proof.
  intros Hf. destruct (zone_span_bounds q commit) as (Hall&(z&Hz&Ez)&_).
  pose proof (sort_ranges_sorted (zones_of q commit)) as Hs. pose proof (sort_ranges_perm (zones_of q commit)) as Hp.
  unfold sorted_zones in Hf. fold (zones_of q commit) in Hf.
  destruct (sort_ranges (zones_of q commit)) as [|f l] eqn:E; [done|]. injection Hf as ->.
  assert (front ∈ zones_of q commit) as Hin by (rewrite <-Hp; by left).
  specialize (Hall front Hin). rewrite <-Hp in Hz. inversion_clear Hs as [|? ? _ Hle]. rewrite Forall_forall in Hle.
  apply elem_of_cons in Hz as [->|Hz]; [lia|]. specialize (Hle z Hz). unfold begins_before in Hle. lia.
Qed.
Lemma sorted_back q commit back :
  Forall nonempty (zones_of q commit) → StronglySorted disjoint_ranges (zones_of q commit) →
  last (sorted_zones q commit) = Some back → rr_end back = rr_end (span_of q commit).
Proof.
  intros Hne Hd Hb. destruct (zone_span_bounds q commit) as (Hall&_&(z&Hz&Ez)).
  pose proof (sort_ranges_sorted (zones_of q commit)) as Hs. pose proof (sort_ranges_perm (zones_of q commit)) as Hp.
  unfold sorted_zones in Hb. fold (zones_of q commit) in Hb. apply (disjoint_perm _ _ (symmetry Hp)) in Hd.
  apply last_Some in Hb as [l E]. rewrite E in *.
  assert (back ∈ zones_of q commit) as Hin by (rewrite <-Hp; apply elem_of_app; right; by left).
  specialize (Hall back Hin). rewrite <-Hp in Hz. apply elem_of_app in Hz as [Hz|Hz%list_elem_of_singleton]; [|subst; lia].
  assert (disjoint_ranges z back ∧ begins_before z back) as [Hzb Hbb].
  { split; [clear Hs|clear Hd]; [revert Hd|revert Hs]; clear -Hz; induction l as [|x l IH]; intros Hs; try (by apply elem_of_nil in Hz);
      cbn [app] in Hs; inversion_clear Hs as [|? ? Hs' Hx]; (apply elem_of_cons in Hz as [->|Hz]; [|by apply IH]);
      rewrite Forall_forall in Hx; apply Hx; apply elem_of_app; right; by left. }
  rewrite Forall_forall in Hne. pose proof (Hne back Hin) as Hnb.
  assert (nonempty z) as Hnz by (apply Hne; rewrite <-Hp; apply elem_of_app; by left).
  apply disjoint_sorted in Hzb; [|done..]. unfold nonempty in *. lia.
Qed.

Lemma decides_pairs (l : list round_range) (check : round_range → round_range → res unit) (P : round_range → round_range → Prop) :
  (∀ a b, decides (check a b) (P a b) tt) →
  decides (for_u 1 (length l) (λ i _, z ← vget l i; prev ← vget l (i - 1); check prev z) tt)
    (∀ i a b, l !! i = Some a → l !! S i = Some b → P a b) tt.
Proof.
  intros Hc. eapply decides_iff; [apply decides_for_u with (P := λ i, ∀ a b, l !! (i - 1) = Some a → l !! i = Some b → P a b)|].
  - intros i Hi. destruct (lookup_lt_is_Some_2 l i) as [b Hb]; [lia|].
    destruct (lookup_lt_is_Some_2 l (i - 1)) as [a Ha]; [lia|].
    rewrite (vget_ok _ _ _ Hb), (vget_ok _ _ _ Ha). cbn [mbind res_bind]. eapply decides_iff; [apply Hc|].
    rewrite Ha, Hb. split; [by intros ? ? ? [= <-] [= <-]|by intros Hp; apply Hp].
  - split.
    + intros Hp i a b Ha Hb. apply (Hp (S i)); [apply lookup_lt_Some in Hb; lia|by replace (S i - 1) with i by lia|done].
    + intros Hp i Hi a b Ha Hb. apply (Hp (i - 1)); [done|]. by replace (S (i - 1)) with i by lia.
Qed.

Lemma check_zones_decides q commit front back :
  Forall nonempty (zones_of q commit) →
  head (sorted_zones q commit) = Some front → last (sorted_zones q commit) = Some back →
  decides (check_zones (sorted_zones q commit))
    (StronglySorted disjoint_ranges (zones_of q commit) ∧
     covers (zones_of q commit) (rr_begin (span_of q commit)) (rr_end (span_of q commit))) tt.
Proof.
  intros Hne Hf Hb. pose proof (sort_ranges_perm (zones_of q commit)) as Hp.
  assert (Forall nonempty (sort_ranges (zones_of q commit))) as Hne' by (by rewrite Hp).
  eapply decides_iff.
  { unfold check_zones. apply (decides_pairs _ (λ prev z, _ ← throw_if (rr_begin z <? rr_end prev)%Z (bad_request "zones overlap");
      throw_if (rr_end prev <? rr_begin z)%Z (bad_request "zones are not contiguous")) (λ a b, rr_begin b = rr_end a)).
    intros a b. eapply decides_iff; [eapply decides_bind; [apply decides_zltb|]; intros _; apply decides_zltb|]. lia. }
  rewrite (sorted_contiguous _ front back) by (done || apply sort_ranges_sorted).
  assert (StronglySorted disjoint_ranges (zones_of q commit) ↔ StronglySorted disjoint_ranges (sorted_zones q commit)) as Hd.
  { split; apply disjoint_perm; unfold sorted_zones; by rewrite Hp. }
  rewrite <-Hd. split; intros [Hdis Hcov]; split; try done.
  - rewrite <-(sorted_front q commit front), <-(sorted_back q commit back) by done. intros x Hx.
    destruct (Hcov x Hx) as (z&Hz&Hin). exists z. split; [|done]. unfold sorted_zones in Hz. by rewrite Hp in Hz.
  - rewrite (sorted_front q commit front), (sorted_back q commit back) by done. intros x Hx.
    destruct (Hcov x Hx) as (z&Hz&Hin). exists z. split; [|done]. unfold sorted_zones. by rewrite Hp.
Qed.

Lemma decides_limited r what what' : decides (_ ← check_within (rr_begin r) what; check_within (rr_end r) what') (limited r) tt.
Proof. eapply decides_iff; [eapply decides_bind; [apply decides_within|]; intros _; apply decides_within|]. done. Qed.

Lemma check_ports_decides q window span :
  rr_end window = rr_end span → decides (check_ports q window) (ports_ok q span) tt.
Proof.
  intros Hw. unfold check_ports. cbv zeta.
  eapply decides_iff; [eapply decides_bind; [apply decides_throw_if|]; intros Hi|].
  { eapply decides_bind; [apply decides_throw_if|]; intros Ho.
    eapply decides_bind; [apply decides_throw_if|]; intros Hb.
    eapply decides_bind; [apply decides_throw_if|]; intros Hop.
    eapply decides_bind; [apply decides_throw_if|]; intros Hcp.
    eapply decides_bind; [apply decides_throw_if|]; intros Htp.
    eapply decides_bind; [apply decides_throw_if|]; intros Hpr.
    instantiate (1 := ∀ i, out_imports (wr_output q) = Some i →
      limited i ∧ out_disposition (wr_output q) ≠ Some port_open ∧ nonempty i ∧ rr_begin i = rr_end span).
    destruct (out_imports (wr_output q)) as [i|]; [|left; split; [done|done]].
    eapply decides_iff; [eapply decides_bind; [apply decides_within|]; intros _|].
    { eapply decides_bind; [apply decides_within|]; intros _.
      eapply decides_bind; [apply decides_throw_if|]; intros _.
      eapply decides_bind; [apply decides_nonempty|]; intros _. apply decides_throw_if. }
    rewrite bool_decide_eq_false, negb_false_iff, Z.eqb_eq, Hw. unfold limited. split.
    - intros ? i' [= <-]. tauto.
    - intros Hall. specialize (Hall i eq_refl). tauto. }
  rewrite !bool_decide_eq_false.
  set (has_prior := match in_prior (wr_input q) with Some _ => true | None => false end).
  assert (has_prior = false ↔ in_prior (wr_input q) = None) as Hhp by (unfold has_prior; destruct (in_prior (wr_input q)); naive_solver).
  assert (has_prior = true ↔ is_Some (in_prior (wr_input q))) as Hhp'.
  { unfold has_prior. destruct (in_prior (wr_input q)); split; [eauto|done|done|by intros [? ?]]. }
  rewrite !andb_false_iff, !negb_false_iff, !bool_decide_eq_true, !bool_decide_eq_false, Hhp, Hhp'.
  assert (match in_prior (wr_input q) with
          | Some p => negb (rate_ltb rate_zero p && rate_ltb p rate_one) | None => false end = false ↔
    ∀ p, in_prior (wr_input q) = Some p → rate_ltb rate_zero p = true ∧ rate_ltb p rate_one = true) as ->.
  { destruct (in_prior (wr_input q)) as [p|]; [|by split].
    rewrite negb_false_iff, andb_true_iff. split; [by intros ? ? [= <-]|intros Hp; by apply Hp]. }
  clearbody has_prior. clear Hhp Hhp'.
  destruct (decide (in_disposition (wr_input q) = Some port_open)), (decide (in_boundary (wr_input q) = Some truncate)); split.
  all: try (intros (?&?&?&?&?&?&?&?); split; rewrite <-?not_eq_None_Some in *; tauto).
  all: intros [? ? ? ? ? ? ?]; rewrite <-?not_eq_None_Some in *; split_and!; tauto.
Qed.

Definition round_ok (span r : round_range) : Prop :=
  limited r ∧ nonempty r ∧ (rr_begin span ≤ rr_begin r)%Z ∧ (rr_end r ≤ rr_end span)%Z.

Lemma check_send_rounds_decides rounds span :
  StronglySorted begins_before rounds →
  decides (check_send_rounds rounds span) (rounds_ok span rounds) tt.
Proof.
  intros Hs. unfold check_send_rounds.
  eapply decides_iff; [apply decides_for_u with (P := λ i, (∀ r, rounds !! i = Some r → round_ok span r) ∧
    ∀ a b, rounds !! (i - 1) = Some a → rounds !! i = Some b → 0 < i → (rr_end a ≤ rr_begin b)%Z)|].
  - intros i Hi. destruct (lookup_lt_is_Some_2 rounds i) as [r Hr]; [lia|]. rewrite (vget_ok _ _ _ Hr). cbn [mbind res_bind].
    eapply decides_iff; [eapply decides_bind; [apply decides_within|]; intros _|].
    { eapply decides_bind; [apply decides_within|]; intros _. eapply decides_bind; [apply decides_nonempty|]; intros _.
      eapply decides_bind; [apply decides_throw_if|]; intros _.
      instantiate (1 := ∀ a, rounds !! (i - 1) = Some a → 0 < i → (rr_end a ≤ rr_begin r)%Z).
      destruct (Nat.ltb_spec 0 i) as [Hpos|Hz].
      - destruct (lookup_lt_is_Some_2 rounds (i - 1)) as [a Ha]; [lia|]. rewrite (vget_ok _ _ _ Ha). cbn [mbind res_bind].
        eapply decides_iff; [apply decides_zltb|]. rewrite Ha. split; [by intros ? ? [= <-]|intros Hp; by apply Hp].
      - left. split; [|done]. intros. lia. }
    rewrite orb_false_iff, !Z.ltb_ge. unfold round_ok, limited. rewrite Hr. split.
    + intros (?&?&?&[? ?]&Ha). split; [by intros ? [= <-]|]. intros a b Hla [= <-] ?. by apply Ha.
    + intros [Hro Ha]. destruct (Hro r eq_refl) as ([? ?]&?&?&?). split_and!; try done. intros a Hla ?. by apply (Ha a r).
  - split.
    + intros Hall. assert (Forall (round_ok span) rounds) as Hro.
      { apply Forall_lookup. intros i r Hr. eapply Hall; [|exact Hr]. apply lookup_lt_Some in Hr. lia. }
      split; [exact Hro|]. apply sorted_disjoint; [|done|].
      * eapply Forall_impl; [exact Hro|]. by intros r (_&?&_).
      * intros i a b Ha Hb. apply (Hall (S i)); [apply lookup_lt_Some in Hb; lia|by replace (S i - 1) with i by lia|done|lia].
    + intros [Hro Hd] i Hi. split.
      * intros r Hr. rewrite Forall_lookup in Hro. by eapply Hro.
      * intros a b Ha Hb Hpos. eapply (proj2 (sorted_disjoint rounds _ Hs) Hd (i - 1)); [exact Ha|].
        by replace (S (i - 1)) with i by lia.
        Unshelve. eapply Forall_impl; [exact Hro|]. by intros r (_&?&_).
Qed.

Lemma rounds_ok_perm span l l' : l ≡ₚ l' → rounds_ok span l → rounds_ok span l'.
Proof. intros Hp [Hf Hd]. split; [by rewrite <-Hp|by eapply disjoint_perm]. Qed.

Lemma check_sends_decides q commit span :
  decides (check_sends q commit span) (NoDup (sq_id <$> wr_sends q) ∧ Forall (send_ok q commit span) (wr_sends q)) tt.
Proof.
  unfold check_sends.
  assert (∀ post pre, decides (foldM (check_send q commit span) post (sq_id <$> pre))
    ((∀ s, s ∈ post → sq_id s ∉ sq_id <$> pre) ∧ NoDup (sq_id <$> post) ∧ Forall (send_ok q commit span) post)
    (sq_id <$> (pre ++ post))) as Hc.
  { induction post as [|s post IH]; intros pre; cbn [foldM].
    - rewrite app_nil_r. left. split; [|done]. split_and!; [|constructor|constructor]. by intros ? ?%elem_of_nil.
    - eapply decides_iff; [eapply decides_bind with (P := (sq_id s ∉ sq_id <$> pre) ∧ send_ok q commit span s) (a := sq_id <$> (pre ++ [s]))|].
      + unfold check_send. eapply decides_bind; [eapply decides_iff; [apply decides_throw_if|apply bool_decide_eq_false]|].
        intros _. cbv zeta. rewrite fmap_app. cbn [fmap list_fmap]. unfold send_ok. destruct (is_default_send s).
        * eapply decides_iff; [eapply decides_bind; [apply decides_throw_if|]; intros _; apply decides_ok|].
          rewrite andb_false_iff, bool_decide_eq_false, <-not_eq_None_Some.
          destruct (String.eqb_spec (sq_id s) "forward"); naive_solver.
        * eapply decides_iff; [eapply decides_bind; [apply decides_throw_if|]; intros _|].
          { eapply decides_bind; [apply check_send_rounds_decides, sort_ranges_sorted|]; intros _. apply decides_ok. }
          rewrite orb_false_iff, !bool_decide_eq_false, not_eq_None_Some.
          split; [intros ([? ?]&Hr&_)|intros (?&?&Hr)]; split_and!; try done;
            (eapply rounds_ok_perm; [|exact Hr]); by rewrite sort_ranges_perm.
      + intros _. replace (pre ++ s :: post) with ((pre ++ [s]) ++ post) by (by rewrite <-app_assoc). apply IH.
      + rewrite fmap_cons, NoDup_cons, Forall_cons, fmap_app. cbn [fmap list_fmap]. split.
        * intros ([Hs Hok]&Hd&Hnd&Hall). split_and!; try done.
          -- intros x [->|Hx]%elem_of_cons; [done|]. intros Hin. apply (Hd x Hx). apply elem_of_app. by left.
          -- intros (x&Ex&Hx)%list_elem_of_fmap. apply (Hd x Hx). apply elem_of_app. right. rewrite <-Ex. by left.
        * intros (Hd&[Hn Hnd]&Hok&Hall). split_and!; try done; [apply Hd; by left|].
          intros x Hx [Hin|Hin%list_elem_of_singleton]%elem_of_app; [by eapply Hd; [right|]|].
          apply Hn. rewrite <-Hin. by apply list_elem_of_fmap_2. }
  eapply decides_iff; [eapply decides_bind; [apply (Hc (wr_sends q) [])|]; intros _; apply decides_ok|].
  split; [tauto|]. intros [? ?]. split_and!; try done. intros s _. apply not_elem_of_nil.
Qed.

(** [check_window_request] accepts exactly the well-formed requests. *)
Lemma check_request_decides q : decides (check_request q) (∃ commit, request_ok q commit) tt.
Proof.
  unfold check_request. destruct (check_anchor_decides q) as [[[commit Ha] E]|[Hn [msg E]]]; rewrite E; cbn [mbind res_bind].
  2: { right. split; [|by exists msg]. intros (c&Hc). apply Hn. exists c. apply Hc. }
  unfold commit_of. rewrite (an_commit q commit Ha). cbn [mbind res_bind].
  assert (sorted_zones q commit ≡ₚ zones_of q commit) as Hp by apply sort_ranges_perm.
  destruct (last (sorted_zones q commit)) as [back|] eqn:Eb.
  2: { apply last_None in Eb. rewrite Eb in Hp. apply Permutation_nil_l in Hp. unfold zones_of in Hp. by destruct (wr_buffers q). }
  destruct (head (sorted_zones q commit)) as [front|] eqn:Ef; [|by destruct (sorted_zones q commit)].
  assert (sorted_zones q commit !! 0 = Some front) as Ef' by (by destruct (sorted_zones q commit)).
  assert (sorted_zones q commit !! (length (sorted_zones q commit) - 1) = Some back) as Eb'.
  { rewrite last_lookup in Eb. by replace (length (sorted_zones q commit) - 1) with (pred (length (sorted_zones q commit))) by lia. }
  rewrite (vget_ok _ _ _ Ef'), (vget_ok _ _ _ Eb'). cbn [mbind res_bind].
  eapply decides_iff; [eapply decides_bind with (P := Forall (λ b, limited b ∧ nonempty b) (wr_buffers q)) (a := tt)|].
  - eapply decides_iff; [apply decides_foldM with (P := λ b, limited b ∧ nonempty b)|by rewrite Forall_forall].
    intros b _. eapply decides_iff; [eapply decides_bind; [apply decides_within|]; intros _|].
    { eapply decides_bind; [apply decides_within|]; intros _. apply decides_nonempty. }
    unfold limited. tauto.
  - intros Hb. assert (Forall nonempty (zones_of q commit)) as Hne.
    { apply Forall_app. split; [|apply Forall_singleton, Ha]. eapply Forall_impl; [exact Hb|]. by intros ? [_ ?]. }
    eapply decides_bind; [by apply (check_zones_decides q commit front back)|]. intros [Hd Hc].
    pose proof (sorted_front q commit front Ef) as Hf. pose proof (sorted_back q commit back Hne Hd Eb) as Hbk.
    eapply decides_bind; [by apply (check_ports_decides q _ (span_of q commit))|]. intros _.
    rewrite Hf, Hbk. replace (mk_range (rr_begin (span_of q commit)) (rr_end (span_of q commit))) with (span_of q commit) by (by destruct (span_of q commit)).
    apply check_sends_decides.
  - split.
    + intros (Hb&[Hd Hc]&Hpt&Hids&Hs). exists commit. split; try done.
      * eapply Forall_impl; [exact Hb|]. by intros ? [? _].
      * eapply Forall_impl; [exact Hb|]. by intros ? [_ ?].
    + intros (commit'&[Ha' Hl Hne Hd Hc Hpt Hids Hs]).
      assert (commit' = commit) as -> by (pose proof (an_commit _ _ Ha); pose proof (an_commit _ _ Ha'); congruence).
      split_and!; try done. rewrite Forall_forall in *. auto.
Qed.

(** ** Instances *)

Lemma window_instances_eq q commit n :
  anchor_ok q commit → window_instances q n = Ok (mk_index_range
    (floor_div (- wr_offset q - rr_end commit) (wr_period q) + 1)
    (floor_div (Z.of_nat n - wr_offset q - rr_begin commit + wr_period q - 1) (wr_period q) `max`
     (floor_div (- wr_offset q - rr_end commit) (wr_period q) + 1))).
Proof.
  intros Ha. unfold window_instances. rewrite (decides_returns _ _ _ (check_anchor_decides q)) by eauto.
  cbn [mbind res_bind]. unfold commit_of. by rewrite (an_commit _ _ Ha).
Qed.

(** A window is an instance iff it commits a round of the shot. *)
Lemma window_instances_spec q commit n ir k :
  anchor_ok q commit → window_instances q n = Ok ir → 0 < n →
  (ir_begin ir ≤ k < ir_end ir)%Z ↔ nonempty (clip_rounds commit (wr_offset q + k * wr_period q) (Z.of_nat n)).
Proof.
  intros Ha Hir Hn. rewrite (window_instances_eq q commit n Ha) in Hir. injection Hir as <-. cbn [ir_begin ir_end].
  destruct (an_period q commit Ha) as [Hp _]. pose proof (an_nonempty q commit Ha) as Hne.
  set (x := (- wr_offset q - rr_end commit)%Z). set (y := (Z.of_nat n - wr_offset q - rr_begin commit)%Z).
  replace (Z.of_nat n - wr_offset q - rr_begin commit + wr_period q - 1)%Z with (y + wr_period q - 1)%Z by lia.
  fold (ceil_div y (wr_period q)).
  pose proof (floor_div_lt x (wr_period q) k ltac:(lia)) as Hlo.
  pose proof (ceil_div_le y (wr_period q) k ltac:(lia)) as Hhi.
  unfold nonempty, clip_rounds in *. cbn [rr_begin rr_end]. lia.
Qed.
End request.
