(* ===== verification/WindowModel.v ===== *)
(** * Decoding windows: construction

    Model of [window_from_dem_chunks] and its helpers
    (libs/qec/lib/decoding_task/decoding_task_decoding_window.cpp) with
    [sparse_dem_from_chunks] (sparse_dem_from_chunks.h): the window's chunks are
    closed into columns, grouped by the column options, sliced to the window's
    rows, and joined by boundary, crossing and logical-error columns; the
    measurement maps are GF(2) matrices over the window's measurements.
    [std::map] keeps its keys in order. *)

From S2P Require Import Prelude Rates Ordering Tensor SparseMatrix RoundLayout DetectorErrorModel ExtendedDem ChunkSpec ExperimentTemplate WindowRequest.

(** ** Ordered maps *)

(** Lexicographic [<] on index lists. *)
Fixpoint lex_ltb (a b : list nat) : bool :=
  match a, b with
  | [], [] => false
  | [], _ :: _ => true
  | _ :: _, [] => false
  | x :: a, y :: b => (x <? y) || ((x =? y) && lex_ltb a b)
  end.

(** [std::pair] compares the first components first. *)
Definition signature_ltb (a b : nat * list nat) : bool :=
  (a.1 <? b.1) || ((a.1 =? b.1) && lex_ltb a.2 b.2).

(** [map\[k\].push_back(j)] *)
Fixpoint map_push {K} (ltb : K → K → bool) (k : K) (j : nat) (m : list (K * list nat)) : list (K * list nat) :=
  match m with
  | [] => [(k, [j])]
  | (k', js) :: m' =>
      if ltb k k' then (k, [j]) :: m
      else if ltb k' k then (k', js) :: map_push ltb k j m'
      else (k', js ++ [j]) :: m'
  end.

(** [map.at(k)] *)
Fixpoint map_find {K} (ltb : K → K → bool) (k : K) (m : list (K * list nat)) : res (list nat) :=
  match m with
  | [] => Throw (OutOfRange "map::at")
  | (k', js) :: m => if ltb k k' || ltb k' k then map_find ltb k m else Ok js
  end.

Record column_range := mk_columns { cr_begin : nat; cr_end : nat }.

Inductive parallel_conflict := other_zone | boundary | outside_rows | observable.

Record parallel_columns := mk_parallel { commit_column : nat; other_column : nat; pc_conflict : parallel_conflict }.

Record affine_map := mk_affine {
  am_matrix : sparse_binary_matrix;
  am_offset : list nat;
  am_input_sizes : list nat;
  am_output_sizes : list nat
}.

(** [map_matrix]: sorted rows with repeated columns cancelled in pairs. *)
Definition cancel_pairs (row : list nat) : list nat :=
  foldl (λ kept c, if bool_decide (last kept = Some c) then take (length kept - 1) kept else kept ++ [c])
    [] (merge_sort (≤) row).

Definition map_matrix (num_rows num_cols : nat) (rows : list (list nat)) : res sparse_binary_matrix :=
  from_nested_csr (u32 num_rows) (u32 num_cols) (cancel_pairs <$> rows).

Section window.
Context {R : Type} `{RateOps R}.

(** ** The closed chain by column *)

Record sparse_chunk_model := mk_chunk_model {
  sm_matrix : sparse_binary_matrix;
  sm_observable_rows : list (list nat);
  sm_error_rates : list R
}.

Definition sparse_dem_from_chunks (chunks : list (extended_dem R)) (from_seam to_seam : nat) (with_priors : bool)
    : res sparse_chunk_model :=
  h ← dem_chunks_to_pcm chunks from_seam to_seam;
  o ← dem_chunks_to_o_sparse chunks;
  Ok (mk_chunk_model h o (if with_priors then chunks ≫= e_error_rates else [])).

Record chain_columns := mk_chain_columns {
  cc_num_rows : nat;
  cc_num_observables : nat;
  cc_rows : list (list nat);
  cc_observables : list (list nat);
  cc_priors : list R
}.

Definition close_columns (chunks : list (extended_dem R)) (from_seam to_seam : nat) : res chain_columns :=
  closed ← sparse_dem_from_chunks chunks from_seam to_seam true;
  let h := sm_matrix closed in
  let o := sm_observable_rows closed in
  rows ← to_nested_csc h;
  observables ← for_u 0 (length o) (λ i observables,
      oi ← vget o i;
      foldM (λ c observables, push_at observables c i) oi observables) (replicate (length rows) []);
  Ok (mk_chain_columns (num_rows_ h) (length o) rows observables (sm_error_rates closed)).

(** ** Grouping columns *)

(** [rates\[first + j\]]; there is one rate per column. *)
Definition rate_at (closed : chain_columns) (first j : nat) : R :=
  default rate_zero (cc_priors closed !! (first + j)).

(** [by_rate]: the most likely columns first, ties in the given order. *)
Definition rate_ge (closed : chain_columns) (first a b : nat) : Prop :=
  rate_ltb (rate_at closed first a) (rate_at closed first b) = false.
#[global] Instance rate_ge_dec closed first a b : Decision (rate_ge closed first a b).
Proof. unfold rate_ge. apply _. Defined.
Definition by_rate (closed : chain_columns) (first : nat) (part : list nat) : list nat :=
  merge_sort (rate_ge closed first) part.

(** The effect that is kept: the most likely, ties to the lower first index. *)
Definition keep_effect (closed : chain_columns) (first : nat) (by_effect : list (list nat * list nat)) : list nat :=
  (foldl (λ st entry,
    let '(kept, kept_rate) := st in
    let part := entry.2 in
    let rate := foldl (λ rate j, rate_xor rate (rate_at closed first j)) rate_zero part in
    let better := match kept_rate with
                  | None => true
                  | Some r => rate_ltb r rate || (rate_eqb rate r && (default 0 (head part) <? default 0 (head kept)))
                  end in
    if better then (part, Some rate) else (kept, kept_rate)) ([], None) by_effect).1.

(** The groups of one class, written to [by_first]. *)
Definition group_class (closed : chain_columns) (first : nat) (options : column_options)
    (members : list nat) (by_first : list (list nat)) : res (list (list nat)) :=
  by_effect ← foldM (λ j m, o ← vget (cc_observables closed) (first + j); Ok (map_push lex_ltb o j m)) members [];
  if negb (bool_decide (conflicting_parallel options = most_likely)) || (length by_effect =? 1) then
    foldM (λ entry by_first,
      let part := entry.2 in
      if merge_identical options then
        p ← vget part 0; vset by_first p (by_rate closed first part)
      else foldM (λ j by_first, vset by_first j [j]) part by_first) by_effect by_first
  else
    let kept := keep_effect closed first by_effect in
    let rest := merge_sort (≤) (concat ((λ e, if bool_decide (e.2 = kept) then [] else e.2) <$> by_effect)) in
    m ← vget members 0;
    vset by_first m (by_rate closed first kept ++ by_rate closed first rest).

Definition group_fault_columns (closed : chain_columns) (first : nat) (zone : list nat)
    (options : column_options) : res (list (list nat)) :=
  if negb (merge_identical options) && bool_decide (conflicting_parallel options = reject_parallel) then
    Ok ((λ j, [j]) <$> seq 0 (length zone))
  else
    classes ← for_u 0 (length zone) (λ j classes,
        z ← vget zone j;
        rows ← vget (cc_rows closed) (first + j);
        Ok (map_push signature_ltb (z, rows) j classes)) [];
    by_first ← foldM (λ cls by_first, group_class closed first options cls.2 by_first) classes
                 (replicate (length zone) []);
    Ok (filter (λ g, g ≠ []) by_first).

(** ** The window *)

Record window_model := mk_window_model {
  wm_h : sparse_binary_matrix;
  wm_o : sparse_binary_matrix;
  wm_priors : list R
}.

Record decoding_window := mk_window {
  dw_placed : placed_window R;
  dw_model : window_model;
  dw_num_own_rows : nat;
  dw_num_fault_columns : nat;
  dw_num_virtual_outcome_columns : nat;
  dw_num_crossing_columns : nat;
  dw_num_logical_error_columns : nat;
  dw_commit_columns : column_range;
  dw_parallel_conflicts : list parallel_columns;
  dw_fault_column_sources : list (list nat);
  dw_m2d : affine_map;
  dw_num_virtual_outcomes : nat;
  dw_num_measurements : nat;
  dw_m2o : option affine_map
}.

Definition num_decoder_columns (w : decoding_window) : nat :=
  dw_num_fault_columns w + dw_num_virtual_outcome_columns w + dw_num_crossing_columns w.

(** ** Parallel columns *)

(** The first column of [others] that conflicts with commit column [c]. *)
Fixpoint first_conflict (closed : chain_columns) (first : nat) (zone : list nat) (sources : list (list nat))
    (o : list (list nat)) (num_fault c : nat) (others : list nat) : res (option parallel_columns) :=
  match others with
  | [] => Ok None
  | other :: others =>
      src ← vget sources c;
      source ← vget src 0;
      conflict ←
        (if num_fault <=? other then Ok (Some boundary) else
         os ← vget sources other;
         osrc ← vget os 0;
         zo ← vget zone osrc;
         zs ← vget zone source;
         if negb (zo =? zs) then Ok (Some other_zone) else
         ro ← vget (cc_rows closed) (first + osrc);
         rs ← vget (cc_rows closed) (first + source);
         if negb (bool_decide (ro = rs)) then Ok (Some outside_rows) else
         oo ← vget o other;
         oc ← vget o c;
         Ok (if negb (bool_decide (oo = oc)) then Some observable else None));
      match conflict with
      | Some k => Ok (Some (mk_parallel c other k))
      | None => first_conflict closed first zone sources o num_fault c others
      end
  end.

Definition find_parallel_conflicts (h o : sparse_binary_matrix) (sources : list (list nat)) (num_fault : nat)
    (commit : column_range) (closed : chain_columns) (first : nat) (zone : list nat)
    : res (list parallel_columns) :=
  rows ← to_nested_csc h;
  o ← to_nested_csc o;
  let by_rows := foldl (λ m c, match rows !! c with
                               | Some r => if bool_decide (r = []) then m else map_push lex_ltb r c m
                               | None => m
                               end) [] (seq 0 (length rows)) in
  for_u (cr_begin commit) (cr_end commit) (λ c out,
    rc ← vget rows c;
    if bool_decide (rc = []) then Ok out else
    others ← map_find lex_ltb rc by_rows;
    conflict ← first_conflict closed first zone sources o num_fault c others;
    Ok (match conflict with Some p => out ++ [p] | None => out end)) [].

(** ** Measurement maps *)

Record measurement_layout := mk_measurements { ml_v_in : nat; ml_width : list nat; ml_start : list nat }.

Definition round_width (t : experiment_template R) (r : Z) (n : nat) : res nat :=
  a ← measurement_offset t (to_size (r + 1)) n;
  b ← measurement_offset t (to_size r) n;
  Ok (u64_sub a b).

Definition layout_measurements (t : experiment_template R) (rounds : round_range) (n : nat) : res measurement_layout :=
  v_in ← (if (0 <? rr_begin rounds)%Z then round_width t (rr_begin rounds - 1)%Z n else Ok 0);
  st ← foldM (λ r st,
         let '(width, start) := st in
         w ← round_width t r n;
         Ok (width ++ [w], start ++ [u64 (default 0 (last start) + w)]))
       (z_range (rr_begin rounds) (rr_end rounds)) ([], [v_in]);
  Ok (mk_measurements v_in st.1 st.2).

(** The rows of one round's [D_sparse]. *)
Definition d_sparse_rows (values : list Z) (prev_start prev_width start width : nat) : res (list (list nat)) :=
  st ← foldM (λ value st,
         let '(rows, row) := st in
         if (value =? -1)%Z then Ok (rows ++ [row], []) else
         let index := to_size value in
         if index <? prev_width then Ok (rows, row ++ [u32 (prev_start + index)])
         else if index - prev_width <? width then Ok (rows, row ++ [u32 (start + index - prev_width)])
         else Throw (InvalidArgument "window_from_dem_chunks: round's D_sparse reads measurement past its round"))
       values ([], []);
  Ok st.1.

Definition build_m2d (t : experiment_template R) (w : placed_window R) (m : measurement_layout) : res affine_map :=
  let n := pw_shot_rounds w in
  let s := rr_begin (pw_rounds w) in
  rows ← foldM (λ r rows,
           let i := Z.to_nat (r - s) in
           prev_start ← (if i =? 0 then Ok 0 else vget (ml_start m) (i - 1));
           prev_width ← (if i =? 0 then Ok (ml_v_in m) else vget (ml_width m) (i - 1));
           start ← vget (ml_start m) i;
           width ← vget (ml_width m) i;
           a ← row_offset t (to_size (r + 1)) n;
           b ← row_offset t (to_size r) n;
           let detectors := u64_sub a b in
           if negb (has_D_sparse (t_spec t)) then
             Ok (rows ++ ((λ j, u32 (start + j) :: (if (0 <? r)%Z then [u32 (prev_start + j)] else [])) <$> seq 0 detectors))
           else
             id ← t_phase t (to_size r) n;
             phase ← get_phase (t_spec t) id;
             new ← d_sparse_rows (cs_D_sparse phase) prev_start prev_width start width;
             _ ← throw_if (negb (length new =? detectors))
                   (InvalidArgument "window_from_dem_chunks: round's D_sparse has rows for detectors");
             Ok (rows ++ new))
         (z_range s (rr_end (pw_rounds w))) [];
  let own := length rows in
  let wires := (if (rr_end (pw_commit w) <? Z.of_nat n)%Z then [rr_end (pw_commit w)] else []) ++
               (if wp_exists (pw_output w) && negb (rr_end (pw_rounds w) =? rr_end (pw_commit w))%Z
                then [rr_end (pw_rounds w)] else []) in
  st ← foldM (λ wire st,
         let '(rows, sizes) := st in
         let i := Z.to_nat (wire - 1 - s) in
         width ← vget (ml_width m) i;
         start ← vget (ml_start m) i;
         Ok (rows ++ ((λ j, [u32 (start + j)]) <$> seq 0 width), sizes ++ [width])) wires (rows, [own]);
  let '(rows, sizes) := st in
  back ← vget (ml_start m) (length (ml_start m) - 1);
  matrix ← map_matrix (length rows) back rows;
  Ok (mk_affine matrix (replicate (length rows) 0) [ml_v_in m; u64_sub back (ml_v_in m)] sizes).

Definition build_m2o (t : experiment_template R) (w : placed_window R) (m : measurement_layout) : res affine_map :=
  let n := Z.of_nat (pw_shot_rounds w) in
  _ ← throw_if (negb (rr_end (pw_rounds w) =? n)%Z)
        (InvalidArgument "window_from_dem_chunks: m2o needs the readout round");
  values ← readout t;
  _ ← throw_if (bool_decide (values = []))
        (InvalidArgument "window_from_dem_chunks: m2o needs the last phase's m2o_sparse");
  only ← reads_only_at_end t;
  _ ← throw_if (negb only) (InvalidArgument "window_from_dem_chunks: m2o needs every readout map on the last phase");
  start ← vget (ml_start m) (Z.to_nat (n - 1 - rr_begin (pw_rounds w)));
  let base := u64_sub start (ml_v_in m) in
  let rows := (foldl (λ st value,
                 let '(rows, row) := st in
                 if (value =? -1)%Z then (rows ++ [row], []) else (rows, row ++ [u32 (base + to_size value)]))
               ([], []) values).1 in
  back ← vget (ml_start m) (length (ml_start m) - 1);
  let inputs := u64_sub back (ml_v_in m) in
  matrix ← map_matrix (length rows) inputs rows;
  Ok (mk_affine matrix (replicate (length rows) 0) [inputs] [length rows]).

(** ** Construction *)

(** The window's rows of the chain: own rows, then imported ones, shifted by
    the rows before the window. *)
Definition window_rows_of (row_shift num_own import_begin import_end : nat) : list nat :=
  ((λ i, row_shift + i) <$> seq 0 num_own) ++
  ((λ i, row_shift + i) <$> seq import_begin (import_end - import_begin)).

(** [window_row]: the window row of a chain row, or [None] (-1 in the code). *)
Definition index_window_rows (num_rows : nat) (rows : list nat) : res (list (option nat)) :=
  for_u 0 (length rows) (λ i window_row, r ← vget rows i; vset window_row r (Some i)) (replicate num_rows None).

Definition rows_in_window (closed : chain_columns) (window_row : list (option nat)) (column : nat) : res (list nat) :=
  col ← vget (cc_rows closed) column;
  foldM (λ r out, x ← vget window_row r; Ok (match x with Some i => out ++ [u32 i] | None => out end)) col [].

(** The zone of each fault column: 0 for the commit zone, else 1 plus its
    buffer's index. *)
Definition zone_of_round (buffers : list round_range) (r : Z) : nat :=
  foldl (λ z b, match buffers !! b with
                | Some x => if (rr_begin x <=? r)%Z && (r <? rr_end x)%Z then b + 1 else z
                | None => z
                end) 0 (seq 0 (length buffers)).

Definition column_zones (col : Z → res nat) (buffers : list round_range) (s e : Z) : res (list nat) :=
  foldM (λ r zone, c ← col (r + 1)%Z; Ok (resize c (zone_of_round buffers r) zone)) (z_range s e) [].

(** The commit columns: the groups before the commit zone, then those in it. *)
Definition count_commit (groups : list (list nat)) (zone : list nat) (first_commit : nat) : res column_range :=
  st ← foldM (λ g st,
         let '(b, e) := st in
         front ← vget g 0;
         z ← vget zone front;
         Ok ((if front <? first_commit then b + 1 else b), (if z =? 0 then e + 1 else e))) groups (0, 0);
  Ok (mk_columns st.1 (st.1 + st.2)).

(** One fault column of the model: its rows, observables and prior. *)
Definition fault_column (closed : chain_columns) (window_row : list (option nat)) (col_shift : nat) (group : list nat)
    : res (list nat * list nat * R) :=
  front ← vget group 0;
  let source := col_shift + front in
  h ← rows_in_window closed window_row source;
  o ← vget (cc_observables closed) source;
  prior ← foldM (λ j prior, p ← vget (cc_priors closed) (col_shift + j); Ok (rate_xor prior p)) group rate_zero;
  Ok (h, o, prior).

Definition crossing_column (closed : chain_columns) (window_row : list (option nat)) (c : nat)
    : res (list nat * list nat * R) :=
  h ← rows_in_window closed window_row c;
  o ← vget (cc_observables closed) c;
  p ← vget (cc_priors closed) c;
  Ok (h, o, p).

(** [out.push_back(f(x))] for every [x]. *)
Definition map_res {A B} (f : A → res B) (l : list A) : res (list B) :=
  foldM (λ x out, y ← f x; Ok (out ++ [y])) l [].

(** The chunks of rounds [\[lo, hi)]. *)
Definition chunks_between (t : experiment_template R) (n : nat) (lo hi : Z) : res (list (extended_dem R)) :=
  map_res (λ r, t_chunk t (to_size r) n) (z_range lo hi).

Definition col_from (t : experiment_template R) (n : nat) (s r : Z) : res nat :=
  a ← column_offset t (to_size r) n;
  b ← column_offset t (to_size s) n;
  Ok (u64_sub a b).

Definition window_from_dem_chunks (context : option (template_ref R)) (q : window_request R) (k : Z) (n : nat)
    (with_m2o : bool) : res decoding_window :=
  w ← place_window context q k n;
  match context with
  | None => Undef
  | Some ref =>
  let t := ref_template ref in
  let N := Z.of_nat n in
  let m_span := Z.of_nat (t_max_span t) in
  let s := rr_begin (pw_rounds w) in
  let e := rr_end (pw_rounds w) in
  let open_input := wp_exists (pw_input w) && bool_decide (wp_disposition (pw_input w) = port_open) in
  let truncated := open_input && bool_decide (wp_boundary (pw_input w) = truncate) in
  let boundary_columns := open_input && negb truncated in
  let row := row_from t n s in
  let col := col_from t n s in
  let lo := if truncated then (s - 1)%Z else s in
  rs ← row_offset t (to_size s) n;
  rl ← row_offset t (to_size lo) n;
  let row_shift := u64_sub rs rl in
  cs ← column_offset t (to_size s) n;
  cl ← column_offset t (to_size lo) n;
  let col_shift := u64_sub cs cl in
  let imports := wp_imports (pw_output w) in
  let hi := ((N `min` (e + m_span)) `max` rr_end imports)%Z in
  chunks ← chunks_between t n lo hi;
  closed ← close_columns chunks (sc_from_seam (spec_seam (t_spec t))) (sc_to_seam (spec_seam (t_spec t)));
  num_own ← row e;
  ib ← (if empty_range imports then Ok 0 else row (rr_begin imports));
  ie ← (if empty_range imports then Ok 0 else row (rr_end imports));
  let rows := window_rows_of row_shift num_own ib ie in
  window_row ← index_window_rows (cc_num_rows closed) rows;
  zone ← column_zones col (pw_buffers w) s e;
  groups ← group_fault_columns closed col_shift zone (wr_columns q);
  crossing ← foldM (λ c out, x ← rows_in_window closed window_row c;
                      Ok (if bool_decide (x = []) then out else out ++ [c])) (seq 0 col_shift) [];
  first_commit ← col (rr_begin (pw_commit w));
  nv ← (if boundary_columns then row (s + 1)%Z else Ok 0);
  let nk := if boundary_columns then t_num_observables t else 0 in
  commit_columns ← count_commit groups zone first_commit;
  fault ← map_res (fault_column closed window_row col_shift) groups;
  cross ← map_res (crossing_column closed window_row) crossing;
  let prior := wp_prior (pw_input w) in
  let h_columns := ((λ x, x.1.1) <$> fault) ++ ((λ j, [u32 j]) <$> seq 0 nv) ++ ((λ x, x.1.1) <$> cross) in
  let o_columns := ((λ x, x.1.2) <$> fault) ++ replicate nv [] ++ ((λ x, x.1.2) <$> cross) ++
                   ((λ o, [u32 o]) <$> seq 0 nk) in
  let priors := (snd <$> fault) ++ replicate nv prior ++ (snd <$> cross) ++ replicate nk prior in
  let width := length groups + nv + length crossing in
  h ← from_nested_csc (u32 (length rows)) (u32 width) h_columns;
  h ← canonicalize h;
  o ← from_nested_csc (u32 (cc_num_observables closed)) (u32 (width + nk)) o_columns;
  o ← canonicalize o;
  conflicts ← find_parallel_conflicts h o groups (length groups) commit_columns closed col_shift zone;
  layout ← layout_measurements t (pw_rounds w) n;
  back ← vget (ml_start layout) (length (ml_start layout) - 1);
  _ ← throw_if (bool_decide (UINT32_MAX < Z.of_nat back)%Z)
        (InvalidArgument "window_from_dem_chunks: window holds measurements, more than its maps can index");
  m2d ← build_m2d t w layout;
  m2o ← (if with_m2o then m ← build_m2o t w layout; Ok (Some m) else Ok None);
  Ok (mk_window w (mk_window_model h o priors) num_own (length groups) nv (length crossing) nk commit_columns
        conflicts groups m2d (ml_v_in layout) (u64_sub back (ml_v_in layout)) m2o)
  end.

(** ** Windows of one variant *)

(** [a == b] on [std::vector<double>]. *)
Definition same_rates (a b : list R) : bool :=
  (length a =? length b) && forallb (λ x, rate_eqb x.1 x.2) (zip a b).

Definition same_matrix (a b : sparse_binary_matrix) : bool :=
  bool_decide (layout_ a = layout_ b) && (num_rows_ a =? num_rows_ b) && (num_cols_ a =? num_cols_ b) &&
  bool_decide (ptr_ a = ptr_ b) && bool_decide (indices_ a = indices_ b).

Definition same_map (a b : affine_map) : res bool :=
  if negb (num_rows_ (am_matrix a) =? num_rows_ (am_matrix b)) then Ok false else
  if negb (num_cols_ (am_matrix a) =? num_cols_ (am_matrix b)) then Ok false else
  x ← to_nested_csr (am_matrix a);
  y ← to_nested_csr (am_matrix b);
  Ok (bool_decide (x = y) && bool_decide (am_offset a = am_offset b) &&
      bool_decide (am_input_sizes a = am_input_sizes b) && bool_decide (am_output_sizes a = am_output_sizes b)).

(** The lambda [shift]: a range counted from round [by]. *)
Definition counted_from (by_ : Z) (r : round_range) : round_range :=
  if empty_range r then mk_range 0 0 else mk_range (rr_begin r - by_) (rr_end r - by_).

(** [port_fields(a, da) == port_fields(b, db)] *)
Definition same_port (a b : window_port R) (da db : Z) : bool :=
  eqb (wp_exists a) (wp_exists b) && bool_decide (wp_disposition a = wp_disposition b) &&
  bool_decide (wp_boundary a = wp_boundary b) && rate_eqb (wp_prior a) (wp_prior b) &&
  bool_decide (counted_from da (wp_imports a) = counted_from db (wp_imports b)).

Definition same_send (a b : window_send) (da db : Z) : bool :=
  String.eqb (ws_id a) (ws_id b) && bool_decide (ws_mode a = ws_mode b) &&
  bool_decide (counted_from da <$> ws_rounds a = counted_from db <$> ws_rounds b) && bool_decide (ws_rows a = ws_rows b).

Definition same_model (a b : decoding_window) : bool :=
  (dw_num_own_rows a =? dw_num_own_rows b) && (dw_num_fault_columns a =? dw_num_fault_columns b) &&
  (dw_num_virtual_outcome_columns a =? dw_num_virtual_outcome_columns b) &&
  (dw_num_crossing_columns a =? dw_num_crossing_columns b) &&
  (dw_num_logical_error_columns a =? dw_num_logical_error_columns b) &&
  ((cr_begin (dw_commit_columns a) =? cr_begin (dw_commit_columns b)) &&
   (cr_end (dw_commit_columns a) =? cr_end (dw_commit_columns b))) &&
  bool_decide (dw_fault_column_sources a = dw_fault_column_sources b) &&
  same_matrix (wm_h (dw_model a)) (wm_h (dw_model b)) && same_matrix (wm_o (dw_model a)) (wm_o (dw_model b)) &&
  same_rates (wm_priors (dw_model a)) (wm_priors (dw_model b)).

Definition check_same_window_up_to_shift (a b : decoding_window) : res unit :=
  let differ what := InvalidArgument ("check_same_window_up_to_shift: windows differ in " +:+ what) in
  let pa := dw_placed a in
  let pb := dw_placed b in
  let da := rr_begin (pw_rounds pa) in
  let db := rr_begin (pw_rounds pb) in
  _ ← throw_if (negb (rr_end (pw_rounds pa) - da =? rr_end (pw_rounds pb) - db)%Z) (differ "their rounds");
  _ ← throw_if (negb (bool_decide (counted_from da (pw_commit pa) = counted_from db (pw_commit pb))) ||
                negb (bool_decide (counted_from da <$> pw_buffers pa = counted_from db <$> pw_buffers pb)))
        (differ "their zones");
  _ ← throw_if (negb (same_port (pw_input pa) (pw_input pb) da db)) (differ "their input port");
  _ ← throw_if (negb (same_port (pw_output pa) (pw_output pb) da db)) (differ "their output port");
  _ ← throw_if (negb (length (pw_sends pa) =? length (pw_sends pb))) (differ "their sends");
  _ ← for_u 0 (length (pw_sends pa)) (λ i _,
        x ← vget (pw_sends pa) i;
        y ← vget (pw_sends pb) i;
        throw_if (negb (same_send x y da db)) (differ "a send")) tt;
  _ ← throw_if (negb (same_model a b)) (differ "their model");
  same_m2d ← (if (dw_num_virtual_outcomes a =? dw_num_virtual_outcomes b) && (dw_num_measurements a =? dw_num_measurements b)
              then same_map (dw_m2d a) (dw_m2d b) else Ok false);
  _ ← throw_if (negb same_m2d) (differ "their m2d");
  same_m2o ← match dw_m2o a, dw_m2o b with
             | Some x, Some y => same_map x y
             | None, None => Ok true
             | _, _ => Ok false
             end;
  throw_if (negb same_m2o) (differ "their m2o").

Definition check_translation_invariance (context : option (template_ref R)) (q : window_request R) : res unit :=
  match context with
  | None => Throw (InvalidArgument "window_from_dem_chunks: no template")
  | Some ref =>
      let t := ref_template ref in
      _ ← check_request q;
      if negb (t_repeats t) then Ok tt else
      reach ← model_reach t q;
      k ← first_bulk_index t q;
      let R := (Z.of_nat (t_min_rounds t) `max`
                (wr_offset q + (k + 1) * wr_period q + rr_end reach + end_rounds t))%Z in
      let n := Z.to_nat R in
      a ← window_from_dem_chunks context q k n false;
      b ← window_from_dem_chunks context q (k + 1) n false;
      check_same_window_up_to_shift a b
  end.
End window.
Arguments chain_columns R : clear implicits.
Arguments window_model R : clear implicits.
Arguments decoding_window R : clear implicits.
