(* ===== verification/WindowWorkload.v ===== *)
(** * Decoding windows: the canonical workload

    Model of [make_window_workspace], [commit_window], [receive_send] and
    [solve_window] (libs/qec/lib/decoding_task/decoding_task_decoding_window.cpp):
    what a decode task runs once per shot on its window.  Bits are [uint8_t]
    values.  The inner decoder is a parameter: a function from a syndrome of
    soft values to a soft result and a convergence flag, or nothing. *)

From Stdlib Require Import QArith.
From S2P Require Import Prelude Rates Ordering Tensor SparseMatrix RoundLayout DetectorErrorModel Decoder ExtendedDem ChunkSpec ExperimentTemplate WindowRequest WindowModel.

Open Scope nat_scope.

(** [float_t] of a [uint8_t]. *)
Definition soft_of (b : nat) : Q := inject_Z (Z.of_nat b).

(** A decoder's [decode]: the result and whether it converged. *)
Definition decode_fn : Type := list Q → res (list Q * bool).

Record window_outputs := mk_outputs {
  wo_committed : list nat;
  wo_sends : list (list nat);
  wo_frame : list nat
}.

Record window_solution := mk_solution {
  sol_estimate : list nat;
  sol_converged : bool;
  sol_satisfied : bool;
  sol_outputs : window_outputs
}.

Record window_workspace := mk_workspace {
  wk_syndrome : list Q;
  wk_explained : list nat;
  wk_delta : list nat;
  wk_solution : window_solution
}.

Section workload.
Context {R : Type}.
Implicit Types w receiver sender : decoding_window R.

Definition make_window_workspace w : window_workspace :=
  let rows := num_rows_ (wm_h (dw_model w)) in
  let columns := num_cols_ (wm_o (dw_model w)) in
  mk_workspace (replicate rows (soft_of 0)) (replicate rows 0) (replicate rows 0)
    (mk_solution (replicate columns 0) true true
       (mk_outputs (replicate columns 0) ((λ send, replicate (length (ws_rows send)) 0) <$> pw_sends (dw_placed w))
          (replicate (num_rows_ (wm_o (dw_model w))) 0))).

Definition check_workspace w (ws : window_workspace) (what : string) : res unit :=
  let rows := num_rows_ (wm_h (dw_model w)) in
  let columns := num_cols_ (wm_o (dw_model w)) in
  let out := sol_outputs (wk_solution ws) in
  let sends := pw_sends (dw_placed w) in
  let fits := (length (wk_syndrome ws) =? rows) && (length (wk_explained ws) =? rows) &&
              (length (wk_delta ws) =? rows) && (length (sol_estimate (wk_solution ws)) =? columns) &&
              (length (wo_committed out) =? columns) &&
              (length (wo_frame out) =? num_rows_ (wm_o (dw_model w))) &&
              (length (wo_sends out) =? length sends) in
  let fits := fits && bool_decide (Forall2 (λ v send, length v = length (ws_rows send)) (wo_sends out) sends) in
  throw_if (negb fits) (InvalidArgument (what +:+ ": the workspace is not sized for window ")).

(** [v\[i\] ^= 1] on bytes. *)
Definition flip_bit (v : list nat) (i : nat) : res (list nat) :=
  x ← vget v i; vset v i (Nat.lxor x 1).

(** [for (p = m.ptr()\[c\]; p < m.ptr()\[c + 1\]; ++p) v\[m.indices()\[p\]\] ^= 1] *)
Definition flip_column (m : sparse_binary_matrix) (c : nat) (v : list nat) : res (list nat) :=
  lo ← vget (ptr_ m) c;
  hi ← vget (ptr_ m) (c + 1);
  for_u lo hi (λ p v, r ← vget (indices_ m) p; flip_bit v r) v.

(** The values of one send: the delta, to which a residual adds the window's
    detectors. *)
Definition send_values (send : window_send) (detectors delta : list nat) : res (list nat) :=
  map_res (λ r,
    d ← vget delta r;
    match ws_mode send with
    | send_residual => x ← vget detectors r; Ok (u8 (Nat.lxor x d))
    | send_delta => Ok d
    end) (ws_rows send).

Definition commit_window w (detectors : list nat) (ws : window_workspace) : res window_workspace :=
  let h := wm_h (dw_model w) in
  let o := wm_o (dw_model w) in
  let commit := dw_commit_columns w in
  let sol := wk_solution ws in
  let out := sol_outputs sol in
  _ ← throw_if (negb (length detectors =? num_rows_ h))
        (InvalidArgument "commit_window: expected detectors, got");
  _ ← check_workspace w ws "commit_window";
  st ← for_u (cr_begin commit) (cr_end commit) (λ c st,
         let '(committed, delta, frame) := st in
         x ← vget (sol_estimate sol) c;
         committed ← vset committed c (Nat.land x 1);
         if Nat.land x 1 =? 0 then Ok (committed, delta, frame) else
         delta ← flip_column h c delta;
         frame ← flip_column o c frame;
         Ok (committed, delta, frame))
       (replicate (length (wo_committed out)) 0, replicate (length (wk_delta ws)) 0, replicate (length (wo_frame out)) 0);
  let '(committed, delta, frame) := st in
  sends ← map_res (λ send, send_values send detectors delta) (pw_sends (dw_placed w));
  Ok (mk_workspace (wk_syndrome ws) (wk_explained ws) delta
        (mk_solution (sol_estimate sol) (sol_converged sol) (sol_satisfied sol) (mk_outputs committed sends frame))).

(** ** Receiving a send *)

(** The receiver's row for shot row [row], or [None]. *)
Definition receiver_row receiver (mode : send_mode) (own_first import_first import_end row : nat) : option nat :=
  match mode with
  | send_delta => if (own_first <=? row) && (row - own_first <? dw_num_own_rows receiver) then Some (row - own_first) else None
  | send_residual => if (import_first <=? row) && (row <? import_end)
                then Some (dw_num_own_rows receiver + row - import_first) else None
  end.

Definition receive_send receiver sender (send : nat) (values detectors : list nat) : res (list nat) :=
  let rw := dw_placed receiver in
  let sw := dw_placed sender in
  match pw_context rw with
  | None => Throw (InvalidArgument "receive_send: the windows are not of one shot on one template")
  | Some ref =>
  let same := match pw_context sw with Some ref' => ref_address ref =? ref_address ref' | None => false end in
  _ ← throw_if (negb same || negb (pw_shot_rounds rw =? pw_shot_rounds sw))
        (InvalidArgument "receive_send: the windows are not of one shot on one template");
  _ ← throw_if (length (pw_sends sw) <=? send) (InvalidArgument "receive_send: window has no send ");
  s ← vget (pw_sends sw) send;
  _ ← throw_if (negb (length values =? length (ws_rows s)) ||
                negb (length detectors =? num_rows_ (wm_h (dw_model receiver))))
        (InvalidArgument "receive_send: send has rows and its receiver, given values and detectors");
  let t := ref_template ref in
  let n := pw_shot_rounds rw in
  let imports := wp_imports (pw_output rw) in
  sender_first ← row_offset t (to_size (rr_begin (pw_rounds sw))) n;
  own_first ← row_offset t (to_size (rr_begin (pw_rounds rw))) n;
  import_first ← (if empty_range imports then Ok 0 else row_offset t (to_size (rr_begin imports)) n);
  import_end ← (if empty_range imports then Ok 0 else row_offset t (to_size (rr_end imports)) n);
  let target r := receiver_row receiver (ws_mode s) own_first import_first import_end (sender_first + r) in
  _ ← foldM (λ r _, throw_if (bool_decide (target r = None))
        (InvalidArgument "receive_send: send reaches a shot row which the window does not take")) (ws_rows s) tt;
  for_u 0 (length (ws_rows s)) (λ i detectors,
    r ← vget (ws_rows s) i;
    v ← vget values i;
    match target r with
    | None => Undef
    | Some x =>
        match ws_mode s with
        | send_delta => d ← vget detectors x; vset detectors x (Nat.lxor d (Nat.land v 1))
        | send_residual => vset detectors x (Nat.land v 1)
        end
    end) detectors
  end.

(** ** Solving *)

(** [out.estimate]: the decoder's hard result on its columns, then zeros. *)
Definition run_decoder w (dec : option decode_fn) (detectors : list nat) (columns : nat) : res (list nat * bool * list Q) :=
  let h := wm_h (dw_model w) in
  match dec with
  | None => Ok (replicate columns 0, true, [])
  | Some decode =>
      let syndrome := soft_of <$> detectors in
      r ← decode syndrome;
      _ ← throw_if (negb (length r.1 =? num_cols_ h))
            (InvalidArgument "solve_window: the decoder returned columns for a window of");
      estimate ← for_u 0 (num_cols_ h) (λ c estimate,
                   x ← vget r.1 c; vset estimate c (if convert_soft_to_hard x then 1 else 0)) (replicate columns 0);
      Ok (estimate, r.2, syndrome)
  end.

Definition solve_window w (dec : option decode_fn) (detectors : list nat) (ws : window_workspace)
    : res window_workspace :=
  let h := wm_h (dw_model w) in
  _ ← throw_if (negb (length detectors =? num_rows_ h))
        (InvalidArgument "solve_window: expected detectors, got");
  _ ← check_workspace w ws "solve_window";
  st ← run_decoder w dec detectors (length (sol_estimate (wk_solution ws)));
  let '(estimate, converged, syndrome) := st in
  explained ← for_u 0 (num_cols_ h) (λ c explained,
                x ← vget estimate c;
                if x =? 0 then Ok explained else flip_column h c explained) (replicate (length (wk_explained ws)) 0);
  satisfied ← for_u 0 (length explained) (λ r satisfied,
                e ← vget explained r;
                d ← vget detectors r;
                Ok (satisfied && (e =? Nat.land d 1))) true;
  commit_window w detectors
    (mk_workspace (match dec with None => wk_syndrome ws | Some _ => syndrome end) explained (wk_delta ws)
       (mk_solution estimate converged satisfied (sol_outputs (wk_solution ws)))).
End workload.
