(* ===== verification/Commitment.v ===== *)
(** * Window schedules and commitment validation

    Model of libs/qec/lib/decoding_task/decoding_task_commitment.{h,cpp}:
    [schedule_windows] places every window of every layer in a shot and maps
    each incoming edge to its producer instance; [validate_commitment] checks
    every probe shot: the sends against the receives, then that every fault is
    committed once (F4), that every row has one finalizer (F1) which learns of
    the faults committed elsewhere (F3), the imports, and the parallel columns.
    The windows are built for the check alone (the call without a
    [data_artifact_store]). *)

From S2P Require Import Prelude Rates Ordering Tensor SparseMatrix RoundLayout DetectorErrorModel ExtendedDem ChunkSpec ExperimentTemplate WindowRequest WindowModel.

Record task_graph_edge := mk_edge {
  te_from_node : string;
  te_from_output : string;
  te_to_node : string;
  te_to_input : string;
  te_index_offset : Z
}.

Definition check_index_offsets (edges : list task_graph_edge) (what : string) : res unit :=
  foldM (λ e _,
    throw_if ((te_index_offset e <? - window_round_limit)%Z || (window_round_limit <? te_index_offset e)%Z)
      (InvalidArgument (what +:+ ": edge reaches past any shot"))) edges tt.

(** An input of a scheduled window. *)
Record window_dependency := mk_dependency {
  wd_from_node : string;
  wd_from_output : string;
  wd_k : Z;
  wd_to_input : string;
  wd_exists : bool
}.

(** [contains]: whether round [q] lies in [r]. *)
Definition contains (r : round_range) (q : Z) : bool := (rr_begin r <=? q)%Z && (q <? rr_end r)%Z.

(** [std::set_symmetric_difference] on two sorted ranges. *)
Fixpoint set_symmetric_difference (a : list Z) : list Z → list Z :=
  fix inner (b : list Z) : list Z :=
    match a, b with
    | [], _ => b
    | _, [] => a
    | x :: a', y :: b' =>
        if (x <? y)%Z then x :: set_symmetric_difference a' b
        else if (y <? x)%Z then y :: inner b'
        else set_symmetric_difference a' b'
    end.

(** [reject] of [validate_commitment] *)
Definition bad_commitment (what : string) : exn := InvalidArgument ("validate_commitment: " +:+ what).

(** The first fault column on each row of a chunk's own round and of the next
    round; [None] (-1 in the code) where there is none. *)
Record chunk_touch := mk_touch {
  ct_own : list (option nat);
  ct_next : list (option nat);
  ct_first_detectable : option nat
}.

(** The windows that hold each round and those that commit it. *)
Record round_windows := mk_round_windows { holders : list (list nat); committers : list (list nat) }.

Section commitment.
Context {R : Type} `{RateOps R}.

Record window_layer := mk_layer {
  wl_node : string;
  wl_port : string;
  wl_request : window_request R
}.

Record scheduled_window := mk_scheduled {
  sw_node : string;
  sw_k : Z;
  sw_variant : variant_key;
  sw_rounds : round_range;
  sw_commit : round_range;
  sw_buffers : list round_range;
  sw_input : window_port R;
  sw_output : window_port R;
  sw_sends : list window_send;
  sw_inputs : list window_dependency
}.

Record window_schedule := mk_schedule { ws_num_rounds : nat; ws_windows : list scheduled_window }.

Implicit Types t : experiment_template R.
Implicit Types s : window_schedule.
Implicit Types w p c : scheduled_window.

(** ** Faults and rows *)

(** One band of [touch_of]: the first column of each row, and the least column
    seen so far. *)
Definition touch_band (rows : list (list nat)) (b : option seam) (first : option nat) : res (list (option nat) * option nat) :=
  match b with
  | None => Ok ([], first)
  | Some b =>
      foldM (λ r st,
        let '(out, first) := st in
        row ← vget rows r;
        let column := match row with [] => None | x :: row => Some (foldl Nat.min x row) end in
        Ok (out ++ [column],
            match column, first with
            | Some x, Some y => Some (if x <? y then x else y)
            | Some x, None => Some x
            | None, _ => first
            end)) (seq (row_begin b) (row_end b - row_begin b)) ([], first)
  end.

Definition touch_of (chunk : extended_dem R) (spec : dem_chunks_spec R) : res chunk_touch :=
  rows ← to_nested_csr (e_H chunk);
  let band id := if has_seam chunk id then b ← get_seam chunk id; Ok (Some b) else Ok None in
  b1 ← band (sc_to_seam (spec_seam spec));
  own ← touch_band rows b1 None;
  b2 ← band (sc_from_seam (spec_seam spec));
  next ← touch_band rows b2 own.2;
  Ok (mk_touch own.1 next.1 next.2).

(** The code keeps one [chunk_touch] per distinct chunk; its value is that of
    [touch_of]. *)
Definition touch_rounds t (num_rounds : nat) : res (list chunk_touch) :=
  map_res (λ q, chunk ← t_chunk t q num_rounds; touch_of chunk (t_spec t)) (seq 0 num_rounds).

Definition push_rounds (r : round_range) (i : nat) (lists : list (list nat)) : res (list (list nat)) :=
  foldM (λ q lists, push_at lists (to_size q) i) (z_range (rr_begin r) (rr_end r)) lists.

Definition index_rounds s : res round_windows :=
  for_u 0 (length (ws_windows s)) (λ i out,
    w ← vget (ws_windows s) i;
    h ← push_rounds (sw_rounds w) i (holders out);
    h ← push_rounds (wp_imports (sw_output w)) i h;
    c ← push_rounds (sw_commit w) i (committers out);
    Ok (mk_round_windows h c))
    (mk_round_windows (replicate (ws_num_rounds s) []) (replicate (ws_num_rounds s) [])).

(** ** Deliveries *)

Definition positions s : gmap (string * Z) nat :=
  foldl (λ m iw, <[(sw_node iw.2, sw_k iw.2) := iw.1]> m) ∅ (imap pair (ws_windows s)).

(** [s.windows\[index.at({input.from_node, input.k})\]] *)
Definition producer_of s (input : window_dependency) : res scheduled_window :=
  match positions s !! (wd_from_node input, wd_k input) with
  | Some i => vget (ws_windows s) i
  | None => Throw (OutOfRange "map::at")
  end.

Definition send_of p (d : window_dependency) : res window_send :=
  match find (λ send, String.eqb (ws_id send) (wd_from_output d)) (sw_sends p) with
  | Some send => Ok send
  | None => Undef
  end.

(** The rounds of a list of ranges, one by one. *)
Definition rounds_of (ranges : list round_range) : list Z := concat ((λ r, z_range (rr_begin r) (rr_end r)) <$> ranges).

Definition check_delivery s c (input : window_dependency) (received : list (string * Z * string))
    : res (list (string * Z * string)) :=
  if negb (wd_exists input) then Ok received else
  p ← producer_of s input;
  send ← send_of p input;
  let key := (wd_from_node input, wd_k input, wd_from_output input) in
  _ ← throw_if (bool_decide (key ∈ received)) (bad_commitment "window receives a send twice");
  let received := received ++ [key] in
  match ws_mode send with
  | send_delta =>
      _ ← foldM (λ r _,
            throw_if (negb ((rr_begin (sw_rounds c) <=? rr_begin r)%Z && (rr_end r <=? rr_end (sw_rounds c))%Z))
              (bad_commitment "delta reaches a round outside the window's rounds")) (ws_rounds send) tt;
      Ok received
  | send_residual =>
      let sent := rounds_of (ws_rounds send) in
      let imports := wp_imports (sw_output c) in
      let imported := z_range (rr_begin imports) (rr_end imports) in
      _ ← throw_if (negb (bool_decide (set_symmetric_difference sent imported = [])))
            (bad_commitment "residual does not cover the imports");
      Ok received
  end.

Definition check_deliveries s : res unit :=
  foldM (λ c _, _ ← foldM (check_delivery s c) (sw_inputs c) []; Ok tt) (ws_windows s) tt.

(** ** Rows *)

Definition finalizes w (q : Z) (own incoming : bool) : bool :=
  let at_open_input := (q =? rr_begin (sw_rounds w))%Z && wp_exists (sw_input w) &&
                       bool_decide (wp_disposition (sw_input w) = port_open) in
  if at_open_input && (bool_decide (wp_boundary (sw_input w) = columns) || incoming) then false else
  if own && contains (sw_rounds w) q && negb (contains (sw_commit w) q) then false else
  let any := own && contains (sw_rounds w) q in
  if incoming && contains (sw_rounds w) (q - 1) && negb (contains (sw_commit w) (q - 1)) then false else
  any || (incoming && contains (sw_rounds w) (q - 1)).

(** The inputs of [c] are searched in order for one of [p] that holds [q]. *)
Fixpoint sends_from p (inputs : list window_dependency) (q : Z) : res bool :=
  match inputs with
  | [] => Ok false
  | input :: inputs =>
      if negb (String.eqb (wd_from_node input) (sw_node p)) || negb (wd_k input =? sw_k p)%Z
      then sends_from p inputs q else
      send ← send_of p input;
      if existsb (λ r, contains r q) (ws_rounds send) then Ok true else sends_from p inputs q
  end.
Definition sends_round p c (q : Z) : res bool := sends_from p (sw_inputs c) q.

(** One row of round [q], which [own] and [incoming] say the faults of round [q]
    and of round [q - 1] touch. *)
Definition check_row s (index : round_windows) (q : nat) (own incoming : option nat) : res unit :=
  let round := Z.of_nat q in
  let touched (x : option nat) := match x with Some _ => true | None => false end in
  if negb (touched own) && negb (touched incoming) then Ok tt else
  held ← vget (holders index) q;
  finalizers ← foldM (λ i out,
      x ← vget (ws_windows s) i;
      Ok (if finalizes x round (touched own) (touched incoming) then out ++ [i] else out)) held [];
  _ ← throw_if (bool_decide (finalizers = [])) (bad_commitment "F1: row has no finalizer");
  _ ← throw_if (1 <? length finalizers) (bad_commitment "F1: row has several finalizers");
  front ← vget finalizers 0;
  f ← vget (ws_windows s) front;
  foldM (λ fault _,
    if negb fault.2 then Ok tt else
    ws ← vget (committers index) (to_size fault.1);
    foldM (λ i _,
      p ← vget (ws_windows s) i;
      if i =? front then Ok tt else
      b ← sends_round p f round;
      throw_if (negb b) (bad_commitment "F3: a fault committed elsewhere is not sent to the finalizer")) ws tt)
    [(round, touched own); ((round - 1)%Z, touched incoming)] tt.

Definition check_rows s (index : round_windows) (touch : list chunk_touch) : res unit :=
  for_u 0 (ws_num_rounds s) (λ q _,
    here ← vget touch q;
    incoming ← (if 0 <? q then prev ← vget touch (q - 1); Ok (ct_next prev) else Ok []);
    for_u 0 (length (ct_own here)) (λ i _,
      own ← vget (ct_own here) i;
      check_row s index q own (if i <? length incoming then default None (incoming !! i) else None)) tt) tt.

Definition check_commits s (index : round_windows) (touch : list chunk_touch) : res unit :=
  for_u 0 (ws_num_rounds s) (λ q _,
    ws ← vget (committers index) q;
    here ← vget touch q;
    throw_if (negb (bool_decide (ct_first_detectable here = None)) && negb (length ws =? 1))
      (bad_commitment "F4: fault is not committed by one window")) tt.

Definition check_imports s : res unit :=
  foldM (λ c _,
    if empty_range (wp_imports (sw_output c)) then Ok tt else
    residuals ← foldM (λ input residuals,
        if negb (wd_exists input) then Ok residuals else
        p ← producer_of s input;
        send ← send_of p input;
        Ok (if bool_decide (ws_mode send = send_residual) then residuals + 1 else residuals)) (sw_inputs c) 0;
    throw_if (negb (residuals =? 1)) (bad_commitment "window imports rounds but does not receive one residual"))
    (ws_windows s) tt.

(** ** Parallel columns *)

Definition check_parallel_columns (context : option (template_ref R)) (request : window_request R)
    w (num_rounds : nat) (built : option (decoding_window R)) : res unit :=
  x ← match built with
      | Some x => Ok x
      | None => window_from_dem_chunks context request (sw_k w) num_rounds false
      end;
  throw_if (negb (bool_decide (dw_parallel_conflicts x = [])))
    (bad_commitment "commit column is parallel to another column").

(** ** Schedules *)

(** [by_node.find(node)] *)
Definition find_layer (layers : list window_layer) (node : string) : option window_layer :=
  find (λ l, String.eqb (wl_node l) node) layers.

Definition schedule_window (context : option (template_ref R)) t (layers : list window_layer)
    (edges : list task_graph_edge) (num_rounds : nat) (layer : window_layer) (k : Z) : res scheduled_window :=
  w ← place_window context (wl_request layer) k num_rounds;
  variant ← window_variant t (wl_request layer) k num_rounds;
  inputs ← foldM (λ e inputs,
      if negb (String.eqb (te_to_node e) (wl_node layer)) then Ok inputs else
      let j := (k + te_index_offset e)%Z in
      from ← match find_layer layers (te_from_node e) with Some l => Ok l | None => Throw (OutOfRange "map::at") end;
      producer ← window_instances (wl_request from) num_rounds;
      Ok (inputs ++ [mk_dependency (te_from_node e) (te_from_output e) j (te_to_input e)
                       ((ir_begin producer <=? j)%Z && (j <? ir_end producer)%Z)])) edges [];
  Ok (mk_scheduled (wl_node layer) k variant (pw_rounds w) (pw_commit w) (pw_buffers w)
        (pw_input w) (pw_output w) (pw_sends w) inputs).

Definition schedule_windows (context : option (template_ref R)) (layers : list window_layer)
    (edges : list task_graph_edge) (num_rounds : nat) : res window_schedule :=
  match context with
  | None => Throw (InvalidArgument "schedule_windows: no template")
  | Some ref =>
      _ ← check_index_offsets edges "schedule_windows";
      _ ← foldM (λ layer nodes,
            _ ← check_request (wl_request layer);
            _ ← throw_if (bool_decide (wl_node layer ∈ nodes))
                  (InvalidArgument "schedule_windows: node is repeated");
            Ok (nodes ++ [wl_node layer])) layers [];
      _ ← foldM (λ e _,
            match find_layer layers (te_from_node e), find_layer layers (te_to_node e) with
            | Some from, Some _ =>
                throw_if (negb (existsb (λ send, String.eqb (sq_id send) (te_from_output e)) (wr_sends (wl_request from))))
                  (InvalidArgument "schedule_windows: node has no such send")
            | _, _ => Throw (InvalidArgument "schedule_windows: edge names a node that is not a window layer")
            end) edges tt;
      windows ← foldM (λ layer windows,
          instances ← window_instances (wl_request layer) num_rounds;
          foldM (λ k windows,
            w ← schedule_window context (ref_template ref) layers edges num_rounds layer k;
            Ok (windows ++ [w])) (z_range (ir_begin instances) (ir_end instances)) windows) layers [];
      Ok (mk_schedule num_rounds windows)
  end.

Definition commitment_probe_rounds t (layers : list window_layer) (edges : list task_graph_edge) : res nat :=
  let end_ := t_min_rounds t + 1 in
  _ ← check_index_offsets edges "commitment_probe_rounds";
  match layers with
  | [] => Ok end_
  | first :: _ =>
      if negb (t_repeats t) then Ok end_ else
      let reach := foldl (λ reach e, Z.max reach (Z.abs (te_index_offset e))) 1%Z edges in
      end_ ← foldM (λ layer end_,
          _ ← throw_if (negb (wr_period (wl_request layer) =? wr_period (wl_request first))%Z)
                (InvalidArgument "commitment_probe_rounds: every layer needs the same period");
          probe ← variant_probe_rounds t (wl_request layer);
          Ok (end_ `max` probe)) layers end_;
      Ok (end_ + to_size (reach * wr_period (wl_request first)))
  end.

Definition validate_commitment (context : option (template_ref R)) (layers : list window_layer)
    (edges : list task_graph_edge) : res unit :=
  match context with
  | None => Throw (bad_commitment "no template")
  | Some ref =>
      let t := ref_template ref in
      end_ ← commitment_probe_rounds t layers edges;
      schedules ← for_u (t_min_rounds t) end_ (λ n schedules,
          s ← schedule_windows context layers edges n;
          _ ← check_deliveries s;
          Ok (schedules ++ [s])) [];
      _ ← foldM (λ s _,
            index ← index_rounds s;
            touch ← touch_rounds t (ws_num_rounds s);
            check_commits s index touch) schedules tt;
      _ ← foldM (λ s _,
            index ← index_rounds s;
            touch ← touch_rounds t (ws_num_rounds s);
            _ ← check_rows s index touch;
            check_imports s) schedules tt;
      _ ← foldM (λ s variants,
            foldM (λ w variants,
              if bool_decide ((sw_node w, sw_variant w) ∈ variants) then Ok variants else
              layer ← match find_layer layers (sw_node w) with Some l => Ok l | None => Throw (OutOfRange "map::at") end;
              _ ← check_parallel_columns context (wl_request layer) w (ws_num_rounds s) None;
              Ok (variants ++ [(sw_node w, sw_variant w)])) (ws_windows s) variants) schedules ([] : list (string * variant_key));
      Ok tt
  end.
End commitment.
Arguments window_layer R : clear implicits.
Arguments scheduled_window R : clear implicits.
Arguments window_schedule R : clear implicits.
