(* ===== verification/WorkloadFacts.v ===== *)
(** * Decoding windows: the workload over GF(2)

    The loops of [solve_window], [commit_window] and their helpers as parities
    of the selected columns: a decode never fails on a decoder that returns one
    value per column, [satisfied] compares the detectors with the parity of the
    estimated columns, and the sends and the frame are parities of the
    committed ones. *)

From Stdlib Require Import QArith.
From S2P Require Import Prelude Rates Ordering Tensor SparseMatrix SparseFacts SparseCanon RoundLayout DetectorErrorModel Decoder ExtendedDem ExtendedFacts ChunkSpec ExperimentTemplate WindowRequest WindowModel WindowWorkload.

Open Scope nat_scope.

(** ** Bits *)

(** The byte vector of [n] bits. *)
Definition vec (n : nat) (f : nat → bool) : list nat := (λ i, Nat.b2n (f i)) <$> seq 0 n.

Lemma length_vec n f : length (vec n f) = n.
Proof. unfold vec. by rewrite length_fmap, length_seq. Qed.
Lemma lookup_vec n f i : i < n → vec n f !! i = Some (Nat.b2n (f i)).
Proof. intros Hi. unfold vec. by rewrite list_lookup_fmap, lookup_seq_lt. Qed.
Lemma vec_ext n f g : (∀ i, i < n → f i = g i) → vec n f = vec n g.
Proof. intros H. apply list_fmap_ext. intros i x [-> Hx]%lookup_seq. by rewrite H. Qed.
Lemma vec_zero n : vec n (λ _, false) = replicate n 0.
Proof.
  apply list_eq. intros i. destruct (decide (i < n)).
  - by rewrite lookup_vec, lookup_replicate_2.
  - rewrite !lookup_ge_None_2; [done|rewrite length_replicate; lia|rewrite length_vec; lia].
Qed.
Lemma vec_inj n f g i : vec n f = vec n g → i < n → f i = g i.
Proof.
  intros H Hi. apply (f_equal (lookup i)) in H. rewrite !lookup_vec in H by done. injection H. by destruct (f i), (g i).
Qed.
Lemma insert_vec n f i b : i < n → <[i := Nat.b2n b]> (vec n f) = vec n (λ j, if j =? i then b else f j).
Proof.
  intros Hi. apply list_eq. intros j. destruct (decide (j < n)).
  - rewrite lookup_vec by done. destruct (Nat.eqb_spec j i) as [->|].
    + by rewrite list_lookup_insert_eq by (by rewrite length_vec).
    + by rewrite list_lookup_insert_ne, lookup_vec by done.
  - rewrite !lookup_ge_None_2; [done|rewrite length_vec; lia|rewrite length_insert, length_vec; lia].
Qed.

Lemma b2n_lxor a b : Nat.lxor (Nat.b2n a) (Nat.b2n b) = Nat.b2n (xorb a b).
Proof. by destruct a, b. Qed.
Lemma b2n_land a : Nat.land (Nat.b2n a) 1 = Nat.b2n a.
Proof. by destruct a. Qed.
Lemma b2n_zero a : (Nat.b2n a =? 0) = negb a.
Proof. by destruct a. Qed.

(** ** Parities of columns *)

Definition touches (col : list nat) (r : nat) : bool := Nat.odd (occ r col).

(** The parity of a list of columns at a row. *)
Definition parity (cols : list (list nat)) (r : nat) : bool := foldr (λ col b, xorb (touches col r) b) false cols.

Lemma parity_app cols cols' r : parity (cols ++ cols') r = xorb (parity cols r) (parity cols' r).
Proof.
  induction cols as [|c cols IH]; simpl; [by destruct (parity cols' r)|].
  by rewrite IH, xorb_assoc.
Qed.
Lemma parity_none cols r : (∀ col, col ∈ cols → touches col r = false) → parity cols r = false.
Proof.
  induction cols as [|c cols IH]; intros Hall; simpl; [done|].
  rewrite Hall by (by left). rewrite IH; [done|]. intros. apply Hall. by right.
Qed.
Lemma touches_canon col r : touches (canon col) r = touches col r.
Proof.
  unfold touches. destruct (canon_spec col) as [Hs Hm]. apply eq_true_iff_eq.
  rewrite (occ_nodup (canon col)) by (by apply sorted_lt_nodup). apply Hm.
Qed.
Lemma touches_in col r : touches col r = true → r ∈ col.
Proof. unfold touches. intros H. destruct (decide (r ∈ col)); [done|]. by rewrite occ_absent in H. Qed.

(** The columns of [cols] that [e] selects. *)
Definition selected (cols : list (list nat)) (e : nat → bool) (idx : list nat) : list (list nat) :=
  (λ c, default [] (cols !! c)) <$> filter (λ c, Is_true (e c)) idx.

Lemma selected_snoc cols e idx c :
  selected cols e (idx ++ [c]) = selected cols e idx ++ (if e c then [default [] (cols !! c)] else []).
Proof.
  unfold selected. rewrite list.filter_app, fmap_app. f_equal.
  destruct (e c) eqn:E; [rewrite filter_cons_True by (by rewrite E)|rewrite filter_cons_False by (rewrite E; by intros [])]; done.
Qed.

(** ** Flips *)

Lemma flip_bit_vec n f r : r < n → flip_bit (vec n f) r = Ok (vec n (λ i, xorb (f i) (i =? r))).
Proof.
  intros Hr. unfold flip_bit. rewrite (vget_ok _ _ _ (lookup_vec _ _ _ Hr)). cbn [mbind res_bind].
  rewrite vset_ok by (by rewrite length_vec).
  change 1 with (Nat.b2n true) at 1. rewrite b2n_lxor, insert_vec by done. f_equal. apply vec_ext. intros i _.
  destruct (Nat.eqb_spec i r) as [->|]; [done|]. by destruct (f i).
Qed.

Lemma flip_list_vec n f col : Forall (λ r, r < n) col →
  foldM (λ r v, flip_bit v r) col (vec n f) = Ok (vec n (λ i, xorb (f i) (touches col i))).
Proof.
  intros Hb. revert f. induction Hb as [|r col Hr _ IH]; intros f; cbn [foldM].
  - f_equal. apply vec_ext. intros i _. unfold touches. simpl. by destruct (f i).
  - rewrite flip_bit_vec by done. cbn [mbind res_bind]. rewrite IH. f_equal. apply vec_ext. intros i _.
    unfold touches. rewrite occ_cons, Nat.odd_add, <-xorb_assoc. do 2 f_equal. rewrite Nat.eqb_sym.
    by destruct (Nat.eqb_spec r i); [rewrite decide_True|rewrite decide_False].
Qed.

Lemma flip_column_vec m gs c col n f :
  represents m gs → gs !! c = Some col → Forall (λ r, r < n) col →
  flip_column m c (vec n f) = Ok (vec n (λ i, xorb (f i) (touches col i))).
Proof.
  intros Hrep Hc Hb. unfold flip_column.
  rewrite (for_group m gs c col (λ r v, flip_bit v r)) by done. by apply flip_list_vec.
Qed.

(** The columns of a model matrix. *)
Record model_cols (m : sparse_binary_matrix) (cols : list (list nat)) : Prop := {
  mc_rep : represents m cols;
  mc_cols : length cols = num_cols_ m;
  mc_bound : Forall (Forall (λ i, i < num_rows_ m)) cols
}.

Lemma model_col m cols c :
  model_cols m cols → c < num_cols_ m → ∃ col, cols !! c = Some col ∧ Forall (λ i, i < num_rows_ m) col.
Proof.
  intros [_ Hl Hb] Hc. destruct (lookup_lt_is_Some_2 cols c) as [col Hcol]; [lia|].
  exists col. split; [done|]. rewrite Forall_forall in Hb. by eapply Hb, list_elem_of_lookup_2.
Qed.

(** A loop that flips the selected columns. *)
Lemma flip_selected m cols e lo hi f :
  model_cols m cols → lo ≤ hi → hi ≤ num_cols_ m →
  for_u lo hi (λ c v, if e c : bool then flip_column m c v else Ok v) (vec (num_rows_ m) f) =
    Ok (vec (num_rows_ m) (λ r, xorb (f r) (parity (selected cols e (seq lo (hi - lo))) r))).
Proof.
  intros Hm Hlo Hhi. destruct (for_u_inv lo hi (λ c v, if e c : bool then flip_column m c v else Ok v)
    (λ c v, v = vec (num_rows_ m) (λ r, xorb (f r) (parity (selected cols e (seq lo (c - lo))) r)))
    (vec (num_rows_ m) f)) as (v&->&->); [done| | |done].
  - rewrite Nat.sub_diag. apply vec_ext. intros r _. simpl. by destruct (f r).
  - intros c v Hc ->. replace (c + 1 - lo) with (S (c - lo)) by lia. rewrite seq_S, selected_snoc.
    replace (lo + (c - lo)) with c by lia. destruct (e c).
    + destruct (model_col m cols c Hm) as (col&Hcol&Hb); [lia|].
      rewrite (flip_column_vec m cols c col) by (done || apply Hm). apply returns_ok, vec_ext.
      intros r _. rewrite Hcol, parity_app. cbn [default parity foldr]. by rewrite xorb_false_r, xorb_assoc.
    + apply returns_ok, vec_ext. intros r _. by rewrite app_nil_r.
Qed.

Section workload.
Context {R : Type}.
Implicit Types w : decoding_window R.

(** ** A window that the workload can run on *)

Record runnable w (hcols ocols : list (list nat)) : Prop := {
  rn_h : model_cols (wm_h (dw_model w)) hcols;
  rn_o : model_cols (wm_o (dw_model w)) ocols;
  rn_le : num_cols_ (wm_h (dw_model w)) ≤ num_cols_ (wm_o (dw_model w));
  rn_commit : cr_begin (dw_commit_columns w) ≤ cr_end (dw_commit_columns w) ≤ num_cols_ (wm_h (dw_model w));
  rn_sends : Forall (λ send, Forall (λ r, r < num_rows_ (wm_h (dw_model w))) (ws_rows send)) (pw_sends (dw_placed w))
}.

(** The buffers fit the window. *)
Definition sized_for w (ws : window_workspace) : Prop :=
  let rows := num_rows_ (wm_h (dw_model w)) in
  let columns := num_cols_ (wm_o (dw_model w)) in
  let out := sol_outputs (wk_solution ws) in
  length (wk_syndrome ws) = rows ∧ length (wk_explained ws) = rows ∧ length (wk_delta ws) = rows ∧
  length (sol_estimate (wk_solution ws)) = columns ∧ length (wo_committed out) = columns ∧
  length (wo_frame out) = num_rows_ (wm_o (dw_model w)) ∧
  Forall2 (λ v send, length v = length (ws_rows send)) (wo_sends out) (pw_sends (dw_placed w)).

Lemma check_workspace_ok w ws what : sized_for w ws → check_workspace w ws what = Ok tt.
Proof.
  intros (H1&H2&H3&H4&H5&H6&H7). unfold check_workspace. cbv zeta.
  rewrite H1, H2, H3, H4, H5, H6, (Forall2_length _ _ _ H7), !Nat.eqb_refl. cbn [andb].
  by rewrite bool_decide_eq_true_2.
Qed.

Lemma make_window_workspace_sized w : sized_for w (make_window_workspace w).
Proof.
  unfold sized_for, make_window_workspace. cbn. rewrite !length_replicate. split_and!; try done.
  induction (pw_sends (dw_placed w)); constructor; [by rewrite length_replicate|done].
Qed.

(** What a send carries, from the detectors [d] and the committed flips. *)
Definition send_bit (mode : send_mode) (d delta : nat → bool) (r : nat) : bool :=
  match mode with send_delta => delta r | send_residual => xorb (d r) (delta r) end.

Lemma send_values_eq send n d delta :
  Forall (λ r, r < n) (ws_rows send) →
  send_values send (vec n d) (vec n delta) =
    Ok ((λ r, Nat.b2n (send_bit (ws_mode send) d delta r)) <$> ws_rows send).
Proof.
  intros Hb. unfold send_values, map_res.
  match goal with |- foldM ?body _ _ = _ =>
    destruct (foldM_inv body (λ pre out, out = (λ r, Nat.b2n (send_bit (ws_mode send) d delta r)) <$> pre)
      (ws_rows send) []) as (out&->&->) end; [done| |done].
  intros pre r post out Hsp ->. rewrite Forall_forall in Hb.
  assert (r < n) as Hr by (apply Hb; rewrite Hsp; set_solver).
  rewrite (vget_ok (vec n delta) _ _ (lookup_vec _ _ _ Hr)). cbn [mbind res_bind].
  destruct (ws_mode send); cbn [mbind res_bind].
  - apply returns_ok. by rewrite fmap_app.
  - rewrite (vget_ok (vec n d) _ _ (lookup_vec _ _ _ Hr)). cbn [mbind res_bind]. apply returns_ok.
    rewrite fmap_app. f_equal. cbn [fmap list_fmap send_bit]. f_equal. rewrite b2n_lxor. apply wrap_small.
    by destruct (xorb _ _).
Qed.

Lemma map_res_eq {A B} (f : A → res B) (g : A → B) l : (∀ x, x ∈ l → f x = Ok (g x)) → map_res f l = Ok (g <$> l).
Proof.
  intros Hf. unfold map_res.
  destruct (foldM_inv (λ x out, y ← f x; Ok (out ++ [y])) (λ pre out, out = g <$> pre) l []) as (out&->&->); [done| |done].
  intros pre x post out -> ->. rewrite Hf by set_solver. cbn [mbind res_bind]. apply returns_ok. by rewrite fmap_app.
Qed.

(** ** Committing and solving *)

Section solve.
Context w hcols ocols (Hrun : runnable w hcols ocols).
Abbreviation rows := (num_rows_ (wm_h (dw_model w))).
Abbreviation nobs := (num_rows_ (wm_o (dw_model w))).
Abbreviation ncols := (num_cols_ (wm_o (dw_model w))).
Abbreviation commit := (dw_commit_columns w).
Abbreviation commit_seq := (seq (cr_begin commit) (cr_end commit - cr_begin commit)).

Definition delta_of (e : nat → bool) (r : nat) : bool := parity (selected hcols e commit_seq) r.
Definition frame_of (e : nat → bool) (o : nat) : bool := parity (selected ocols e commit_seq) o.

Definition outputs_of (d e : nat → bool) : window_outputs :=
  mk_outputs (vec ncols (λ c, e c && bool_decide (cr_begin commit ≤ c < cr_end commit)))
    ((λ send, (λ r, Nat.b2n (send_bit (ws_mode send) d (delta_of e) r)) <$> ws_rows send) <$> pw_sends (dw_placed w))
    (vec nobs (frame_of e)).

Lemma commit_window_eq ws d e :
  sized_for w ws → sol_estimate (wk_solution ws) = vec ncols e →
  commit_window w (vec rows d) ws =
    Ok (mk_workspace (wk_syndrome ws) (wk_explained ws) (vec rows (delta_of e))
          (mk_solution (vec ncols e) (sol_converged (wk_solution ws)) (sol_satisfied (wk_solution ws)) (outputs_of d e))).
Proof.
  intros Hs He. destruct Hrun as [Hh Ho Hle Hcm Hsn]. unfold commit_window. cbv zeta.
  rewrite length_vec, Nat.eqb_refl. cbn [negb throw_if mbind res_bind]. rewrite check_workspace_ok by done.
  cbn [mbind res_bind]. destruct Hs as (_&_&H3&_&H5&H6&_). rewrite H3, H5, H6, He, <-!vec_zero.
  match goal with |- for_u _ _ ?body ?start ≫= _ = _ =>
    destruct (for_u_inv (cr_begin commit) (cr_end commit) body (λ i st, st =
      (vec ncols (λ c, e c && bool_decide (cr_begin commit ≤ c < i)),
       vec rows (parity (selected hcols e (seq (cr_begin commit) (i - cr_begin commit)))),
       vec nobs (parity (selected ocols e (seq (cr_begin commit) (i - cr_begin commit)))))) start) as (st'&->&->) end.
  - lia.
  - rewrite Nat.sub_diag. apply (f_equal2 pair); [apply (f_equal2 pair)|]; apply vec_ext; intros i _; [|done|done].
    rewrite bool_decide_eq_false_2 by lia. by rewrite andb_false_r.
  - intros c st' Hc ->. rewrite (vget_ok _ _ _ (lookup_vec ncols e c ltac:(lia))). cbn [mbind res_bind].
    rewrite b2n_land, vset_ok, insert_vec, b2n_zero by (rewrite ?length_vec; lia). cbn [mbind res_bind].
    replace (c + 1 - cr_begin commit) with (S (c - cr_begin commit)) by lia.
    rewrite seq_S, !selected_snoc. replace (cr_begin commit + (c - cr_begin commit)) with c by lia.
    assert (vec ncols (λ j, if j =? c then e c else e j && bool_decide (cr_begin commit ≤ j < c)) =
      vec ncols (λ j, e j && bool_decide (cr_begin commit ≤ j < c + 1))) as Hcv.
    { apply vec_ext. intros j _. destruct (Nat.eqb_spec j c) as [->|].
      - rewrite bool_decide_eq_true_2 by lia. by rewrite andb_true_r.
      - f_equal. apply bool_decide_ext. lia. }
    rewrite Hcv. destruct (e c); cbn [negb]; cbv iota.
    + destruct (model_col _ _ c Hh) as (hc&Hhc&Hhb); [lia|]. destruct (model_col _ _ c Ho) as (oc&Hoc&Hob); [lia|].
      rewrite (flip_column_vec (wm_h (dw_model w)) hcols c hc) by (done || apply Hh). cbn [mbind res_bind].
      rewrite (flip_column_vec (wm_o (dw_model w)) ocols c oc) by (done || apply Ho). cbn [mbind res_bind].
      apply returns_ok. rewrite Hhc, Hoc. apply (f_equal2 pair); [apply (f_equal2 pair); [done|]|]; apply vec_ext; intros r _;
        rewrite parity_app; cbn [default parity foldr]; by rewrite xorb_false_r.
    + apply returns_ok. by rewrite !app_nil_r.
  - cbn [mbind res_bind].
    rewrite (map_res_eq _ (λ send, (λ r, Nat.b2n (send_bit (ws_mode send) d (delta_of e) r)) <$> ws_rows send)); [done|].
    intros send Hsend. rewrite Forall_forall in Hsn. apply send_values_eq. by apply Hsn.
Qed.

(** The decoder: none, or one that returns a value for each column. *)
Definition decodes (dec : option decode_fn) (d : nat → bool) (e : nat → bool) (conv : bool) : Prop :=
  match dec with
  | None => (∀ c, e c = false) ∧ conv = true
  | Some decode => ∃ r, decode (soft_of <$> vec rows d) = Ok (r, conv) ∧ length r = num_cols_ (wm_h (dw_model w)) ∧
      (∀ c, e c = from_option convert_soft_to_hard false (r !! c))
  end.

Lemma decodes_zero dec d e conv c : decodes dec d e conv → num_cols_ (wm_h (dw_model w)) ≤ c → e c = false.
Proof.
  destruct dec as [decode|]; [|by intros [He _] _]. intros (r&_&Hl&He) Hc. rewrite He.
  by rewrite lookup_ge_None_2 by lia.
Qed.

Lemma run_decoder_eq dec d e conv :
  decodes dec d e conv →
  returns (run_decoder w dec (vec rows d) ncols) (λ st, st.1 = (vec ncols e, conv) ∧
    (dec ≠ None → length st.2 = rows)).
Proof.
  unfold run_decoder, decodes. destruct dec as [decode|].
  - intros (r&->&Hl&He). cbn [mbind res_bind]. cbn [fst snd]. rewrite Hl, Nat.eqb_refl. cbn [negb throw_if mbind res_bind].
    rewrite <-vec_zero.
    match goal with |- returns (for_u 0 _ ?body _ ≫= _) _ =>
      destruct (for_u_inv 0 (num_cols_ (wm_h (dw_model w))) body
        (λ i v, v = vec ncols (λ c, e c && bool_decide (c < i))) (vec ncols (λ _, false))) as (v&->&->) end.
    + lia.
    + apply vec_ext. intros c _. rewrite bool_decide_eq_false_2 by lia. by rewrite andb_false_r.
    + intros c v Hc ->. destruct (lookup_lt_is_Some_2 r c) as [x Hx]; [lia|].
      rewrite (vget_ok _ _ _ Hx). cbn [mbind res_bind]. pose proof (rn_le _ _ _ Hrun).
      rewrite vset_ok by (rewrite length_vec; lia). apply returns_ok.
      change (if convert_soft_to_hard x then 1 else 0) with (Nat.b2n (convert_soft_to_hard x)).
      rewrite insert_vec by lia. apply vec_ext. intros j _. destruct (Nat.eqb_spec j c) as [->|].
      * rewrite He, Hx, bool_decide_eq_true_2 by lia. cbn [from_option]. by rewrite andb_true_r.
      * f_equal. apply bool_decide_ext. lia.
    + cbn [mbind res_bind]. apply returns_ok. cbn [fst snd]. split; [|by rewrite length_fmap, length_vec].
      f_equal. apply vec_ext. intros c _. case_bool_decide; [by rewrite andb_true_r|].
      rewrite andb_false_r, He, lookup_ge_None_2 by lia. done.
  - intros [He ->]. apply returns_ok. cbn [fst snd]. split; [|done]. f_equal. rewrite <-vec_zero. by apply vec_ext.
Qed.

(** A decode returns; [satisfied] tells whether the estimated columns explain
    the detectors, and the outputs are those of the committed columns. *)
Lemma solve_window_eq dec d e conv :
  decodes dec d e conv →
  returns (solve_window w dec (vec rows d) (make_window_workspace w)) (λ ws,
    let sol := wk_solution ws in
    sol_estimate sol = vec ncols e ∧ sol_converged sol = conv ∧
    (sol_satisfied sol = true ↔
       ∀ r, r < rows → d r = parity (selected hcols e (seq 0 (num_cols_ (wm_h (dw_model w))))) r) ∧
    sol_outputs sol = outputs_of d e).
Proof.
  intros Hdec. pose proof (make_window_workspace_sized w) as Hs. pose proof Hs as (H1&H2&H3&H4&H5&H6&H7).
  pose proof Hrun as [Hh Ho Hle Hcm Hsn].
  unfold solve_window. cbv zeta. rewrite length_vec, Nat.eqb_refl. cbn [negb throw_if mbind res_bind].
  rewrite check_workspace_ok by done. cbn [mbind res_bind]. rewrite H4.
  destruct (run_decoder_eq dec d e conv Hdec) as ([[est conv'] syn]&->&[= -> ->]&Hsyn).
  cbn [mbind res_bind]. rewrite H2, <-vec_zero.
  match goal with |- returns (for_u 0 ?n ?body ?start ≫= _) _ =>
    assert (for_u 0 n body start = for_u 0 n (λ c v, if e c : bool then flip_column (wm_h (dw_model w)) c v else Ok v) start) as -> end.
  { apply foldM_ext. intros c v Hc%elem_of_seq.
    rewrite (vget_ok _ _ _ (lookup_vec ncols e c ltac:(lia))). cbn [mbind res_bind]. rewrite b2n_zero. by destruct (e c). }
  rewrite (flip_selected _ hcols) by (done || lia). cbn [mbind res_bind]. rewrite Nat.sub_0_r.
  set (P := parity (selected hcols e (seq 0 (num_cols_ (wm_h (dw_model w)))))).
  replace (vec rows (λ r, xorb false (P r))) with (vec rows P) by (apply vec_ext; intros; by destruct (P i)).
  rewrite length_vec.
  match goal with |- returns (for_u 0 _ ?body true ≫= _) _ =>
    destruct (for_u_inv 0 rows body (λ i b, b = true ↔ ∀ r, r < i → d r = P r) true) as (sat&->&Hsat) end.
  - lia.
  - split; [lia|done].
  - intros r b Hr Hb. rewrite (vget_ok _ _ _ (lookup_vec rows P r ltac:(lia))). cbn [mbind res_bind].
    rewrite (vget_ok _ _ _ (lookup_vec rows d r ltac:(lia))). cbn [mbind res_bind]. apply returns_ok.
    rewrite b2n_land, andb_true_iff, Hb, Nat.eqb_eq. split.
    + intros [Hall Heq] i Hi. destruct (decide (i = r)) as [->|]; [|apply Hall; lia].
      by destruct (d r), (P r).
    + intros Hall. split; [intros; apply Hall; lia|]. by rewrite (Hall r) by lia.
  - cbn [mbind res_bind].
    match goal with |- returns (commit_window _ _ ?ws) _ =>
      rewrite (commit_window_eq ws d e); [| |done] end.
    + apply returns_ok. cbn. by split_and!.
    + unfold sized_for. cbn. rewrite !length_vec. split_and!; try done. destruct dec; [by apply Hsyn|done].
Qed.
End solve.
End workload.
