(* ===== verification/WindowShot.v ===== *)
(** * Decoding windows: rounds of a shot

    A window closes the chunks of its own rounds and a few around them.  The
    columns of such a part of a chain are the columns of the whole shot, with
    the rows counted from the part's first round; a column of round [r] touches
    rows of rounds [r] and [r + 1] only. *)

From S2P Require Import Prelude Rates Ordering Tensor SparseMatrix SparseFacts SparseCanon RoundLayout DetectorErrorModel ExtendedDem ExtendedFacts ExtendedChunk ExtendedStitch ExtendedChain ExtendedAll ExtendedProps ExtendedClose ExtendedStreams ChunkSpec ExperimentTemplate WindowRequest WindowModel WorkloadFacts Commitment.

Lemma drop_take_app {A} (l : list A) lo hi :
  lo ≤ hi → l = take lo l ++ slice l lo hi ++ drop hi l.
Proof.
  intros H. unfold slice. rewrite <-(take_drop lo l) at 1. f_equal.
  rewrite <-(take_drop (hi - lo) (drop lo l)) at 1. f_equal. rewrite drop_drop. f_equal. lia.
Qed.

Lemma lookup_part {A} (l : list A) lo hi i : i < hi - lo → slice l lo hi !! i = l !! (lo + i).
Proof. intros Hi. unfold slice. by rewrite lookup_take_lt, lookup_drop by lia. Qed.

Lemma length_slice_le {A} (l : list A) lo hi : lo ≤ hi → hi ≤ length l → length (slice l lo hi) = hi - lo.
Proof. intros ??. unfold slice. rewrite length_take, length_drop. lia. Qed.

Lemma sum_slice {A} (f : A → nat) (l : list A) lo hi :
  lo ≤ hi → sum_list_with f (take lo l) + sum_list_with f (slice l lo hi) = sum_list_with f (take hi l).
Proof.
  intros H. rewrite <-sum_list_with_app. f_equal. unfold slice.
  rewrite take_take_drop. f_equal. lia.
Qed.

Lemma sorted_app_r {A} (P : A → A → Prop) l l' : Sorted P (l ++ l') → Sorted P l'.
Proof.
  induction l as [|x l IH]; [done|]. intros Hs. apply IH. by inversion Hs.
Qed.

Section chain.
Context {R : Type} (from_seam to_seam : nat) (Hne : from_seam ≠ to_seam).
Abbreviation chain_ok := (chain_ok from_seam to_seam).
Abbreviation chunk_ok := (chunk_ok from_seam to_seam).
Abbreviation chain_cols := (chain_cols from_seam to_seam).
Abbreviation base := (base to_seam).
Abbreviation total_offset := (total_offset to_seam).
Abbreviation faults := (sum_list_with (λ c : extended_dem R, length (e_error_rates c))).
Implicit Types cs : list (extended_dem R).

Lemma chain_ok_slice cs lo hi : chain_ok cs → chain_ok (slice cs lo hi).
Proof.
  intros [Hall Hs]. unfold slice. split; [by apply Forall_take, Forall_drop|].
  rewrite <-(take_drop lo cs) in Hs. apply sorted_app_r in Hs.
  rewrite <-(take_drop (hi - lo) (drop lo cs)) in Hs. by apply sorted_app_l in Hs.
Qed.

Lemma sum_slice_le {A} (f : A → nat) (l : list A) lo hi : sum_list_with f (slice l lo hi) ≤ sum_list_with f l.
Proof.
  unfold slice. etrans; [apply sum_take_le|]. rewrite <-(take_drop lo l) at 2. rewrite sum_list_with_app. lia.
Qed.

Lemma chain_fits_slice cs lo hi : chain_fits cs → chain_fits (slice cs lo hi).
Proof.
  intros [F1 F2 F3 F4]. split.
  - pose proof (sum_slice_le (λ c, num_rows_ (e_H c)) cs lo hi). lia.
  - pose proof (sum_slice_le (λ c, length (e_error_rates c)) cs lo hi). lia.
  - pose proof (sum_slice_le (λ c, nnz (cols_of (e_H c))) cs lo hi). lia.
  - pose proof (sum_slice_le (λ c, nnz (cols_of (e_O c))) cs lo hi). lia.
Qed.

Lemma chain_cols_app k cs cs' :
  chain_cols k (cs ++ cs') = chain_cols k cs ++ chain_cols (k + total_offset cs) cs'.
Proof.
  revert k. induction cs as [|c cs IH]; intros k; cbn [app ExtendedChain.chain_cols].
  - unfold ExtendedChain.total_offset. simpl. by rewrite Nat.add_0_r.
  - rewrite IH, <-app_assoc. unfold ExtendedChain.total_offset. simpl. by rewrite Nat.add_assoc.
Qed.

Lemma chain_cols_base k cs : chain_cols k cs = shift k <$> chain_cols 0 cs.
Proof.
  cut (∀ j, chain_cols (k + j) cs = shift k <$> chain_cols j cs); [intros H; by rewrite <-(H 0), Nat.add_0_r|].
  induction cs as [|c cs IH]; intros j; cbn [ExtendedChain.chain_cols]; [done|].
  rewrite fmap_app, <-IH, Nat.add_assoc, <-list_fmap_compose. f_equal.
  apply list_fmap_ext. intros i col _. symmetry. apply shift_shift.
Qed.

(** ** Columns of a part of the chain *)

Definition col_at cs (g : nat) : list nat := default [] (chain_cols 0 cs !! g).
Definition obs_at cs (g : nat) : list nat := default [] ((cs ≫= obs_cols) !! g).

Lemma slice_col cs lo hi j :
  Forall chunk_ok cs → lo ≤ hi → j < faults (slice cs lo hi) →
  chain_cols 0 (slice cs lo hi) !! j = Some (col_at (slice cs lo hi) j) ∧
  col_at cs (faults_before cs lo + j) = shift (base cs lo) (col_at (slice cs lo hi) j).
Proof.
  intros Hall Hle Hj.
  assert (Forall chunk_ok (slice cs lo hi)) as Hs by (by apply Forall_take, Forall_drop).
  pose proof (length_chain_cols from_seam to_seam 0 _ Hs) as Hl.
  destruct (lookup_lt_is_Some_2 (chain_cols 0 (slice cs lo hi)) j) as [col Hcol]; [by rewrite Hl|].
  unfold col_at. rewrite Hcol. split; [done|]. cbn [default].
  rewrite (f_equal (chain_cols 0) (drop_take_app cs lo hi Hle)), !chain_cols_app.
  pose proof (length_chain_cols from_seam to_seam 0 _ (Forall_take _ lo _ Hall)) as Hl0.
  fold (faults_before cs lo) in Hl0.
  rewrite lookup_app_r by lia. rewrite Hl0.
  replace (faults_before cs lo + j - faults_before cs lo) with j by lia.
  rewrite lookup_app_l by (rewrite (length_chain_cols from_seam to_seam _ _ Hs); done).
  rewrite chain_cols_base, list_lookup_fmap, Hcol. done.
Qed.

Lemma slice_obs cs lo hi j :
  Forall chunk_ok cs → lo ≤ hi → j < faults (slice cs lo hi) →
  (slice cs lo hi ≫= obs_cols) !! j = Some (obs_at cs (faults_before cs lo + j)).
Proof.
  intros Hall Hle Hj.
  assert (Forall chunk_ok (slice cs lo hi)) as Hs by (by apply Forall_take, Forall_drop).
  destruct (lookup_lt_is_Some_2 (slice cs lo hi ≫= obs_cols) j) as [col Hcol]; [by rewrite (length_obs from_seam to_seam)|].
  rewrite Hcol. unfold obs_at. rewrite (f_equal (λ l, l ≫= obs_cols) (drop_take_app cs lo hi Hle)), !bind_app.
  pose proof (length_obs from_seam to_seam _ (Forall_take _ lo _ Hall)) as Hl0. fold (faults_before cs lo) in Hl0.
  rewrite lookup_app_r by lia. rewrite Hl0.
  replace (faults_before cs lo + j - faults_before cs lo) with j by lia.
  rewrite lookup_app_l by (by apply lookup_lt_Some in Hcol). by rewrite Hcol.
Qed.

(** ** Closing a part *)

Lemma close_columns_eq `{RateOps R} (c0 : extended_dem R) l :
  chain_ok (c0 :: l) → chain_fits (c0 :: l) →
  close_columns (c0 :: l) from_seam to_seam =
    Ok (mk_chain_columns (total_offset (c0 :: l)) (num_rows_ (e_O c0))
          (below_limit (total_offset (c0 :: l)) <$> (canon <$> chain_cols 0 (c0 :: l)))
          (merge_sort (≤) <$> ((c0 :: l) ≫= obs_cols)) ((c0 :: l) ≫= e_error_rates)).
Proof.
  intros Hch Hfit. unfold close_columns, sparse_dem_from_chunks.
  rewrite (pcm_result from_seam to_seam Hne _ Hch Hfit) by done. cbn [mbind res_bind].
  rewrite (o_sparse_result from_seam to_seam Hne c0 l Hch Hfit). cbn [mbind res_bind].
  set (cs := c0 :: l) in *. cbn [sm_matrix sm_observable_rows sm_error_rates].
  pose proof (ch_chunks _ _ _ Hch) as Hall. pose proof (length_obs from_seam to_seam cs Hall) as Hlo.
  set (gs := below_limit (total_offset cs) <$> (canon <$> chain_cols 0 cs)).
  pose proof (length_chain_cols from_seam to_seam 0 cs Hall) as Hlc.
  assert (cols_ok (total_offset cs) (faults cs) gs) as Hgs.
  { pose proof Hfit as [_ Fc Fn _]. pose proof (total_fits _ _ Hne cs Hch Hfit).
    pose proof (nnz_below_limit (total_offset cs) (chain_cols 0 cs)) as Hle. fold gs in Hle.
    pose proof (nnz_chain_cols _ _ Hne 0 cs Hall). split; [unfold gs; by rewrite !length_fmap| |done|lia|lia].
    apply Forall_fmap, Forall_forall. intros col _. apply Forall_forall. by intros x [? _]%list_elem_of_filter. }
  rewrite (nested_cols _ _ _ Hgs). cbn [mbind res_bind].
  assert (Forall (Forall (λ i, i < num_rows_ (e_O c0))) (cs ≫= obs_cols)) as Hb.
  { apply Forall_forall. intros col (x&Hin&Hx)%list_elem_of_bind. rewrite Forall_forall in Hall.
    rewrite <-(chain_rows_obs from_seam to_seam cs c0 x Hch eq_refl Hx). pose proof (Hall x Hx) as Hox.
    by apply (proj1 (Forall_forall _ _) (obs_bound x (ok_typed _ _ x Hox) (ok_valid _ _ x Hox))). }
  assert (Forall (Forall (λ i, i < length (cs ≫= obs_cols))) (transposed (num_rows_ (e_O c0)) (cs ≫= obs_cols))) as Htb.
  { apply transposed_bound. }
  replace (length gs) with (length (cs ≫= obs_cols)) by (unfold gs; by rewrite !length_fmap, Hlc).
  change (list_bind (extended_dem R) (list nat) obs_cols cs) with (cs ≫= obs_cols).
  rewrite <-(transposed_twice (cs ≫= obs_cols) (num_rows_ (e_O c0)) Hb).
  set (o := transposed (num_rows_ (e_O c0)) (cs ≫= obs_cols)) in *. set (N := length (cs ≫= obs_cols)) in *.
  match goal with |- for_u 0 (length o) ?body (replicate N []) ≫= _ = _ =>
    assert (for_u 0 (length o) body (replicate N []) = Ok (transposed N o)) as -> end.
  2: { cbn [mbind res_bind]. unfold o. by rewrite length_transposed. }
  destruct (for_u_inv 0 (length o) (λ i observables,
      oi ← vget o i; foldM (λ c observables, push_at observables c i) oi observables)
    (λ i st, st = by_key N (entries_of (take i o))) (replicate N [])) as (st&->&->).
  - lia.
  - unfold by_key. simpl. apply replicate_as_elem_of.
    split; [by rewrite length_fmap, length_seq|]. by intros x (j&->&_)%list_elem_of_fmap.
  - intros i st Hi ->. destruct (lookup_lt_is_Some_2 o i) as [oi Hoi]; [lia|].
    rewrite (vget_ok _ _ _ Hoi). cbn [mbind res_bind].
    rewrite Nat.add_1_r, (take_S_r _ _ _ Hoi), entries_from_app. cbn [entries_from]. rewrite app_nil_r, length_take.
    replace (0 + i `min` length o) with i by lia.
    pose proof (push_more N (entries_of (take i o)) ((λ j, (j, i)) <$> oi)) as Hp. rewrite foldM_map in Hp. cbn [fst snd] in Hp.
    rewrite Hp; [by apply returns_ok| |].
    + by apply entries_bound, Forall_take.
    + apply Forall_fmap. rewrite Forall_forall in Htb. by eapply Htb, list_elem_of_lookup_2.
  - by rewrite firstn_all.
Qed.
End chain.

(** * Decoding windows: the shot behind a template

    The chunks of one shot as a template hands them out, with the template's
    offsets; the rounds of rows and columns; which rows the commitment checks
    see as touched. *)

Section shot.
Context {R : Type} `{RateOps R}.
Implicit Types t : experiment_template R.
Implicit Types cs : list (extended_dem R).

Abbreviation from_of t := (sc_from_seam (spec_seam (t_spec t))).
Abbreviation to_of t := (sc_to_seam (spec_seam (t_spec t))).

(** [cs] are the chunks of the [n]-round shot of [t]. *)
Record shot_ok t (n : nat) cs : Prop := {
  so_length : length cs = n;
  so_small : (Z.of_nat n < 2 ^ 62)%Z;
  so_seams : from_of t ≠ to_of t;
  so_chain : chain_ok (from_of t) (to_of t) cs;
  so_fits : chain_fits cs;
  so_flat : ∀ c, c ∈ cs → interior c = [];
  so_chunk : ∀ r, r < n → t_chunk t r n = vget cs r;
  so_row : ∀ r, r ≤ n → row_offset t r n = Ok (base (to_of t) cs r);
  so_column : ∀ r, r ≤ n → column_offset t r n = Ok (faults_before cs r);
  so_span : t_max_span t ≤ 1;
  so_sizes : (Z.of_nat (faults_before cs n + base (to_of t) cs n + t_num_observables t + 2) < 2 ^ 32)%Z
}.

Section geometry.
Context t n cs (Hshot : shot_ok t n cs).
Abbreviation from := (from_of t).
Abbreviation to := (to_of t).
Abbreviation base := (base to cs).
Abbreviation fb := (faults_before cs).
Abbreviation col_at := (col_at from to cs).
Abbreviation obs_at := (obs_at cs).

(** The rows and columns of round [r]. *)
Definition in_row (r row : nat) : Prop := base r ≤ row < base (S r).
Definition in_col (r col : nat) : Prop := fb r ≤ col < fb (S r).

Lemma chunk_in r : r < n → ∃ c, cs !! r = Some c ∧ chunk_ok from to c ∧ offset_rows to c = width c to.
Proof.
  intros Hr. destruct Hshot as [Hl _ _ [Hall _] _ Hflat _ _ _ _ _].
  destruct (lookup_lt_is_Some_2 cs r) as [c Hc]; [lia|]. exists c. split; [done|].
  rewrite Forall_lookup in Hall. split; [by eapply Hall|]. unfold offset_rows.
  rewrite Hflat by (by eapply list_elem_of_lookup_2). simpl. lia.
Qed.

Lemma base_mono r r' : r ≤ r' → base r ≤ base r'.
Proof.
  intros Hr. unfold ExtendedAll.base, total_offset. replace (take r cs) with (take r (take r' cs)).
  - apply sum_take_le.
  - rewrite take_take. f_equal. lia.
Qed.
Lemma fb_mono r r' : r ≤ r' → fb r ≤ fb r'.
Proof.
  intros Hr. unfold faults_before. replace (take r cs) with (take r (take r' cs)).
  - apply sum_take_le.
  - rewrite take_take. f_equal. lia.
Qed.

Lemma base_small r : (Z.of_nat (base r) < 2 ^ 32)%Z.
Proof.
  pose proof (total_fits _ _ (so_seams _ _ _ Hshot) cs (so_chain _ _ _ Hshot) (so_fits _ _ _ Hshot)) as Ht.
  pose proof (base_le to cs r). lia.
Qed.
Lemma fb_small r : (Z.of_nat (fb r) < 2 ^ 32)%Z.
Proof.
  destruct (so_fits _ _ _ Hshot) as [_ Fc _ _]. pose proof (sum_take_le (λ c, length (e_error_rates c)) cs r).
  unfold faults_before. lia.
Qed.

Lemma in_row_unique r r' row : in_row r row → in_row r' row → r = r'.
Proof.
  intros [H1 H2] [H3 H4]. destruct (decide (r < r')); [pose proof (base_mono (S r) r'); lia|].
  destruct (decide (r' < r)); [pose proof (base_mono (S r') r); lia|]. lia.
Qed.

(** Every column below the total has a round. *)
Lemma find_round (f : nat → nat) k x : f 0 = 0 → x < f k → ∃ r, r < k ∧ f r ≤ x < f (S r).
Proof.
  intros H0. induction k as [|k IH]; intros Hx; [lia|].
  destruct (decide (f k ≤ x)); [exists k; lia|]. destruct IH as (r&?&?); [lia|]. exists r. lia.
Qed.
Lemma col_round lo hi g : lo ≤ hi → fb lo ≤ g < fb hi → ∃ r, lo ≤ r < hi ∧ in_col r g.
Proof.
  intros Hlo [H1 H2]. destruct (find_round (λ k, fb k) hi g) as (r&Hr&Hg); [done|done|].
  exists r. split; [|done]. split; [|done]. destruct (decide (lo ≤ r)); [done|].
  pose proof (fb_mono (S r) lo). lia.
Qed.
Lemma row_round lo hi x : lo ≤ hi → base lo ≤ x < base hi → ∃ r, lo ≤ r < hi ∧ in_row r x.
Proof.
  intros Hlo [H1 H2]. destruct (find_round (λ k, base k) hi x) as (r&Hr&Hg); [done|done|].
  exists r. split; [|done]. split; [|done]. destruct (decide (lo ≤ r)); [done|].
  pose proof (base_mono (S r) lo). lia.
Qed.

(** ** What a column touches *)

(** Fault [g] of the shot touches detector [row]. *)
Definition hit (g row : nat) : bool := touches (col_at g) row.

Lemma col_of_round r c j :
  cs !! r = Some c → j < length (e_error_rates c) →
  ∃ col, cols_of (e_H c) !! j = Some col ∧ col_at (fb r + j) = shift (base r) (pick (row_order from to c) col).
Proof.
  intros Hc Hj. pose proof (so_chain _ _ _ Hshot) as [Hall _].
  assert (slice cs r (S r) = [c]) as Hs.
  { unfold slice. rewrite (drop_S _ c) by done. replace (S r - r) with 1 by lia. done. }
  destruct (slice_col from to (so_seams _ _ _ Hshot) cs r (S r) j Hall) as [Hcol ->]; [lia|rewrite Hs; cbn [sum_list_with]; lia|].
  rewrite Hs in *. cbn [chain_cols] in Hcol. rewrite app_nil_r in Hcol.
  apply list_lookup_fmap_Some in Hcol as (col'&Hshift&Hcol).
  apply list_lookup_fmap_Some in Hcol as (col&->&Hcol). exists col. split; [done|].
  rewrite Hshift, shift_0. done.
Qed.

Lemma touches_shift k col x : touches (shift k col) x = if decide (k ≤ x) then touches col (x - k) else false.
Proof. unfold touches. rewrite occ_shift. by case_decide. Qed.

Lemma touches_pick idx col x :
  touches (pick idx col) x = from_option (λ r, touches col r) false (idx !! x).
Proof.
  unfold touches. rewrite occ_pick, decide_True, Nat.sub_0_r by lia. by destruct (idx !! x).
Qed.

Lemma order_flat c : c ∈ cs → row_order from to c = band c to ++ band c from.
Proof. intros Hc. unfold row_order. by rewrite (so_flat _ _ _ Hshot c Hc). Qed.

(** A fault of round [r] touches rows of rounds [r] and [r + 1], through the
    incoming and the outgoing band of its chunk. *)
Lemma hit_cases r g row :
  r < n → in_col r g → hit g row = true →
  ∃ c col, cs !! r = Some c ∧ cols_of (e_H c) !! (g - fb r) = Some col ∧
    ((∃ i b, row = base r + i ∧ i < width c to ∧ seam_at c to = Some b ∧ row_begin b + i ∈ col) ∨
     (∃ i b, row = base (S r) + i ∧ i < width c from ∧ seam_at c from = Some b ∧ row_begin b + i ∈ col)).
Proof.
  intros Hr [Hg1 Hg2] Hhit. destruct (chunk_in r Hr) as (c&Hc&Hok&Hoff).
  pose proof (faults_before_S cs r c Hc) as Hfb. rewrite Hfb in Hg2.
  destruct (col_of_round r c (g - fb r) Hc) as (col&Hcol&Heq); [lia|].
  exists c, col. split; [done|]. split; [done|]. unfold hit in Hhit.
  replace (fb r + (g - fb r)) with g in Heq by lia. rewrite Heq, touches_shift in Hhit.
  case_decide as Hle; [|done]. rewrite touches_pick, order_flat in Hhit by (by eapply list_elem_of_lookup_2).
  pose proof (base_S to cs r c Hc) as Hb. rewrite Hoff in Hb.
  destruct (decide (row - base r < width c to)) as [Hlt|Hge].
  - left. exists (row - base r). rewrite lookup_app_l in Hhit by (by rewrite length_band).
    unfold width in Hlt. unfold band in Hhit. destruct (seam_at c to) as [b|] eqn:Eb; [|simpl in Hlt; lia].
    exists b. cbn [from_option] in *. rewrite lookup_seq_lt in Hhit by lia. cbn [from_option] in Hhit.
    split_and!; [lia| |done|by apply touches_in]. unfold width. by rewrite Eb.
  - right. exists (row - base (S r)). rewrite lookup_app_r in Hhit by (rewrite length_band; lia). rewrite length_band in Hhit.
    replace (row - base r - width c to) with (row - base (S r)) in Hhit by lia.
    destruct (decide (row - base (S r) < width c from)) as [Hlt|Hge'].
    + pose proof Hlt as Hlt'. unfold width in Hlt. unfold band in Hhit.
      destruct (seam_at c from) as [b|] eqn:Eb; [|simpl in Hlt; lia].
      exists b. cbn [from_option] in *. rewrite lookup_seq_lt in Hhit by lia. cbn [from_option] in Hhit.
      split_and!; [lia|done|done|by apply touches_in].
    + rewrite lookup_ge_None_2 in Hhit by (rewrite length_band; lia). done.
Qed.

Lemma hit_round r q g row :
  r < n → in_col r g → in_row q row → q < n → hit g row = true → q = r ∨ q = S r.
Proof.
  intros Hr Hg Hq Hqn Hhit. destruct (hit_cases r g row Hr Hg Hhit) as (c&col&Hc&_&[(i&b&->&Hi&_)|(i&b&->&Hi&_)]).
  - left. apply (in_row_unique _ _ _ Hq). destruct (chunk_in r Hr) as (c'&Hc'&_&Ho). simplify_eq.
    pose proof (base_S to cs r c Hc). split; lia.
  - right. apply (in_row_unique _ _ _ Hq). destruct Hq as [Hq1 Hq2].
    destruct (decide (S r < n)) as [Hlt|Hge].
    + destruct (chunk_in (S r) Hlt) as (d&Hd&Hokd&Hod). pose proof (base_S to cs (S r) d Hd).
      destruct (chunk_in r Hr) as (c'&Hc'&Hok&_). simplify_eq.
      pose proof (so_chain _ _ _ Hshot) as [_ Hlink]. rewrite sorted_lookup_adjacent in Hlink.
      pose proof (boundary_width _ _ (so_seams _ _ _ Hshot) c d Hok Hokd (Hlink r c d Hc Hd)). split; lia.
    + exfalso. pose proof (base_mono (S q) (S r)). lia.
Qed.
End geometry.

(** ** The rows that the checks see as touched *)

Lemma touch_band_spec rows b first st :
  touch_band rows (Some b) first = Ok st →
  length st.1 = row_end b - row_begin b ∧
  (∀ i row, i < row_end b - row_begin b → rows !! (row_begin b + i) = Some row → row ≠ [] → ∃ x, st.1 !! i = Some (Some x)) ∧
  (st.2 = None → first = None ∧ ∀ i x, st.1 !! i ≠ Some (Some x)).
Proof.
  cbn [touch_band]. intros Hf.
  cut (∀ k len out f st', foldM (λ r st,
        let '(out, first) := st in
        row ← vget rows r;
        let column := match row with [] => None | x :: row => Some (foldl Nat.min x row) end in
        Ok (out ++ [column],
            match column, first with
            | Some x, Some y => Some (if x <? y then x else y)
            | Some x, None => Some x
            | None, _ => first
            end)) (seq k len) (out, f) = Ok st' →
      length st'.1 = length out + len ∧
      (∀ i, i < length out → st'.1 !! i = out !! i) ∧
      (∀ i row, i < len → rows !! (k + i) = Some row → row ≠ [] → ∃ x, st'.1 !! (length out + i) = Some (Some x)) ∧
      (st'.2 = None → f = None ∧ ∀ i x, length out ≤ i → st'.1 !! i ≠ Some (Some x))).
  { intros Hc. destruct (Hc _ _ _ _ _ Hf) as (Hl&_&Hr&Hn). split; [done|]. split; [done|].
    intros Hz. destruct (Hn Hz) as [? Hx]. split; [done|]. intros i x. apply Hx. simpl. lia. }
  clear. intros k len. revert k. induction len as [|len IH]; intros k out f st' Hf; cbn [seq foldM] in Hf.
  - injection Hf as <-. cbn [fst snd]. split_and!; [lia|done|lia|]. intros ->. split; [done|]. intros i x Hi.
    by rewrite lookup_ge_None_2 by lia.
  - apply bind_ok in Hf as ([out1 f1]&H1&Hf). apply bind_ok in H1 as (row&Hrow&H1). injection H1 as <- <-.
    unfold vget in Hrow. destruct (rows !! k) as [row'|] eqn:Ek; [|done]. injection Hrow as ->.
    destruct (IH _ _ _ _ Hf) as (Hl&Hpre&Hr&Hn). rewrite length_app in *. cbn [length] in *.
    assert (st'.1 !! length out = Some (match row with [] => None | x :: row => Some (foldl Nat.min x row) end)) as Hat.
    { rewrite Hpre by lia. by rewrite lookup_app_r, Nat.sub_diag by lia. }
    split_and!.
    + lia.
    + intros i Hi. rewrite Hpre by lia. by rewrite lookup_app_l.
    + intros i row2 Hi Hrow2 Hne. destruct i as [|i].
      * rewrite Nat.add_0_r in *. rewrite Ek in Hrow2. injection Hrow2 as <-. destruct row; [done|]. eauto.
      * destruct (Hr i row2) as [x Hx]; [lia|by rewrite Nat.add_succ_comm|done|]. exists x. rewrite <-Hx. f_equal. lia.
    + intros Hz. destruct (Hn Hz) as [Hf0 Hx]. destruct row as [|y row]; [|by destruct f].
      split; [done|]. intros i x Hi. destruct (decide (i = length out)) as [->|]; [by rewrite Hat|]. apply Hx. lia.
Qed.

(** Faults touch only rows that [touch_of] lists, and then the chunk has a
    detectable fault. *)
Record touch_sound t (c : extended_dem R) (tc : chunk_touch) : Prop := {
  ts_own_length : length (ct_own tc) = width c (to_of t);
  ts_own : ∀ i b col, col ∈ cols_of (e_H c) → seam_at c (to_of t) = Some b → i < width c (to_of t) →
    row_begin b + i ∈ col → ∃ x, ct_own tc !! i = Some (Some x);
  ts_next : ∀ i b col, col ∈ cols_of (e_H c) → seam_at c (from_of t) = Some b → i < width c (from_of t) →
    row_begin b + i ∈ col → ∃ x, ct_next tc !! i = Some (Some x);
  ts_detectable : ∀ i x, ct_own tc !! i = Some (Some x) ∨ ct_next tc !! i = Some (Some x) → ct_first_detectable tc ≠ None
}.

Lemma touch_band_sound t (c : extended_dem R) id b first st :
  chunk_ok (from_of t) (to_of t) c → seam_at c id = b → touch_band (rows_of (e_H c)) b first = Ok st →
  length st.1 = width c id ∧
  (∀ i b0 col, col ∈ cols_of (e_H c) → b = Some b0 → i < width c id → row_begin b0 + i ∈ col → ∃ x, st.1 !! i = Some (Some x)) ∧
  (st.2 = None → first = None ∧ ∀ i x, st.1 !! i ≠ Some (Some x)).
Proof.
  intros Hok Hb Ht. unfold width. rewrite Hb. destruct b as [b|].
  - destruct (touch_band_spec _ _ _ _ Ht) as (Hl&Hr&Hn). cbn [from_option]. unfold seam_width. split; [done|]. split; [|done].
    intros i b0 col [j Hj]%list_elem_of_lookup [= <-] Hi Hin.
    destruct (chunk_view _ _ c Hok) as [_ _ _ _ _ Hlr Hcb _ Hocc _ _].
    assert (row_begin b + i < length (rows_of (e_H c))) as Hlt.
    { rewrite Forall_forall in Hcb. rewrite Hlr. assert (col ∈ cols_of (e_H c)) as Hc by (by eapply list_elem_of_lookup_2).
      specialize (Hcb col Hc). rewrite Forall_forall in Hcb. by apply Hcb. }
    destruct (lookup_lt_is_Some_2 _ _ Hlt) as [l Hlk]. apply (Hr i l Hi Hlk). intros ->.
    specialize (Hocc _ _ _ _ Hlk Hj). assert (0 < occ (row_begin b + i) col) as Hp; [|simpl in Hocc; lia].
    unfold occ. by apply count_occ_In, list_elem_of_In.
  - cbn [touch_band] in Ht. injection Ht as <-. cbn [fst snd from_option]. split; [done|]. split; [done|]. by intros ->.
Qed.

Lemma touch_of_sound t (c : extended_dem R) tc :
  chunk_ok (from_of t) (to_of t) c → touch_of c (t_spec t) = Ok tc → touch_sound t c tc.
Proof.
  intros Hok Ht. unfold touch_of in Ht. rewrite (v_csr _ _ _ _ _ (chunk_view _ _ c Hok)) in Ht. cbn [mbind res_bind] in Ht.
  assert (∀ id, (if has_seam c id then b ← get_seam c id; Ok (Some b) else Ok None) = Ok (seam_at c id)) as Hband.
  { intros id. rewrite has_seam_at. case_bool_decide as Hs.
    - destruct Hs as [b Hb]. by rewrite (get_seam_at c id b Hb), Hb.
    - by destruct (seam_at c id); [destruct Hs; eauto|]. }
  rewrite !Hband in Ht. cbn [mbind res_bind] in Ht. apply bind_ok in Ht as (own&Hown&Ht).
  apply bind_ok in Ht as (next&Hnext&[= <-]).
  destruct (touch_band_sound t c _ _ _ _ Hok eq_refl Hown) as (Hl1&Hr1&Hn1).
  destruct (touch_band_sound t c _ _ _ _ Hok eq_refl Hnext) as (Hl2&Hr2&Hn2).
  split; cbn [ct_own ct_next ct_first_detectable]; [done| | |].
  - intros i b col Hcol Hb Hi Hin. by eapply Hr1.
  - intros i b col Hcol Hb Hi Hin. by eapply Hr2.
  - intros i x Hx Hz. destruct (Hn2 Hz) as [Hf H2]. destruct (Hn1 Hf) as [_ H1].
    destruct Hx as [Hx|Hx]; [by apply (H1 i x)|by apply (H2 i x)].
Qed.

Lemma map_res_forall2 {A B} (f : A → res B) l out : map_res f l = Ok out → Forall2 (λ x y, f x = Ok y) l out.
Proof.
  unfold map_res.
  cut (∀ l acc out, foldM (λ x out, y ← f x; Ok (out ++ [y])) l acc = Ok out →
    ∃ out', out = acc ++ out' ∧ Forall2 (λ x y, f x = Ok y) l out').
  { intros Hc Hm. by destruct (Hc _ _ _ Hm) as (out'&->&H2). }
  clear. induction l as [|x l IH]; intros acc out Hf; cbn [foldM] in Hf.
  - injection Hf as <-. exists []. split; [by rewrite app_nil_r|constructor].
  - apply bind_ok in Hf as (acc'&H1&Hf). apply bind_ok in H1 as (y&Hy&[= <-]).
    destruct (IH _ _ Hf) as (out'&->&H2). exists (y :: out'). split; [by rewrite <-app_assoc|by constructor].
Qed.

Lemma map_res_lookup {A B} (f : A → res B) l out i x :
  map_res f l = Ok out → l !! i = Some x → ∃ y, out !! i = Some y ∧ f x = Ok y.
Proof. intros Hm Hx. by apply (Forall2_lookup_l _ _ _ _ _ (map_res_forall2 _ _ _ Hm) Hx). Qed.

Lemma touch_rounds_sound t n cs touch r c :
  shot_ok t n cs → touch_rounds t n = Ok touch → cs !! r = Some c →
  ∃ tc, touch !! r = Some tc ∧ touch_sound t c tc.
Proof.
  intros Hs Ht Hc. assert (r < n) as Hr by (rewrite <-(so_length _ _ _ Hs); by eapply lookup_lt_Some).
  destruct (map_res_lookup _ _ _ r r Ht) as (tc&Htc&Hf); [by rewrite lookup_seq_lt|].
  exists tc. split; [done|]. rewrite (so_chunk _ _ _ Hs r Hr), (vget_ok _ _ _ Hc) in Hf. cbn [mbind res_bind] in Hf.
  apply touch_of_sound; [|done]. pose proof (so_chain _ _ _ Hs) as [Hall _]. rewrite Forall_lookup in Hall. by eapply Hall.
Qed.
End shot.
