(* ===== verification/WindowPlace.v ===== *)
(** * Decoding windows: placement

    Where [place_window] puts a window of an accepted request: its rounds are
    the request's span clipped to the shot, the commit zone and the buffers
    split them, imports follow the last own round, and every send covers whole
    rounds of the window. *)

From S2P Require Import Prelude Rates Ordering Tensor SparseMatrix SparseFacts SparseCanon RoundLayout DetectorErrorModel ExtendedDem ExtendedFacts ExtendedChunk ExtendedStitch ExtendedChain ExtendedAll ExtendedProps ExtendedClose ChunkSpec ExperimentTemplate WindowRequest WindowRequestFacts WindowModel WorkloadFacts WindowShot.

(** ** Zones *)

Lemma zone_fold (bufs : list round_range) r k :
  k ≤ length bufs →
  let z := foldl (λ z b, match bufs !! b with
                         | Some x => if (rr_begin x <=? r)%Z && (r <? rr_end x)%Z then b + 1 else z
                         | None => z
                         end) 0 (seq 0 k) in
  z ≤ k ∧ (z = 0 → ∀ i b, i < k → bufs !! i = Some b → ¬ in_range b r) ∧
  (∀ i, z = S i → ∃ b, bufs !! i = Some b ∧ in_range b r).
Proof.
  induction k as [|k IH]; intros Hk; cbv zeta.
  - simpl. split; [lia|]. split; [lia|]. intros i. lia.
  - rewrite seq_S, foldl_app. cbn [foldl]. destruct IH as (H1&H2&H3); [lia|]. cbv zeta in *.
    set (z := foldl _ 0 (seq 0 k)) in *. cbn [Nat.add].
    destruct (lookup_lt_is_Some_2 bufs k) as [b Hb]; [lia|]. rewrite Hb.
    destruct (_ && _) eqn:E.
    + rewrite andb_true_iff, Z.leb_le, Z.ltb_lt in E. split; [lia|]. split; [lia|].
      intros i Hi. replace i with k by lia. by exists b.
    + rewrite andb_false_iff, Z.leb_gt, Z.ltb_ge in E. split; [lia|]. split; [|done].
      intros Hz i b' Hi Hb'. destruct (decide (i = k)) as [->|]; [|apply (H2 Hz i); [lia|done]].
      rewrite Hb in Hb'. injection Hb' as <-. unfold in_range. lia.
Qed.

Lemma zone_zero bufs r : zone_of_round bufs r = 0 ↔ ∀ b, b ∈ bufs → ¬ in_range b r.
Proof.
  destruct (zone_fold bufs r (length bufs) (le_n _)) as (_&H2&H3). unfold zone_of_round. cbv zeta in *. split.
  - intros Hz b [i Hi]%list_elem_of_lookup. apply (H2 Hz i); [by eapply lookup_lt_Some|done].
  - intros Hno. destruct (foldl _ _ _) as [|i] eqn:E; [done|]. exfalso.
    destruct (H3 i eq_refl) as (b&Hb&Hr). eapply Hno; [by eapply list_elem_of_lookup_2|done].
Qed.
Lemma zone_succ bufs r i : zone_of_round bufs r = S i → ∃ b, bufs !! i = Some b ∧ in_range b r.
Proof. destruct (zone_fold bufs r (length bufs) (le_n _)) as (_&_&H3). apply H3. Qed.

(** ** Clipped zones *)

Lemma clip_fold (l : list round_range) commit a N :
  let '(bufs, rounds) := foldl (λ st buffer,
      let '(buffers, rounds) := st in
      let clipped := clip_rounds buffer a N in
      if empty_range clipped then (buffers, rounds)
      else (buffers ++ [clipped],
            mk_range (rr_begin rounds `min` rr_begin clipped) (rr_end rounds `max` rr_end clipped)))
      ([], commit) l in
  bufs = filter nonempty ((λ b, clip_rounds b a N) <$> l) ∧
  (∀ z, z ∈ commit :: bufs → rr_begin rounds ≤ rr_begin z ∧ rr_end z ≤ rr_end rounds)%Z ∧
  (∃ z, z ∈ commit :: bufs ∧ rr_begin z = rr_begin rounds) ∧ (∃ z, z ∈ commit :: bufs ∧ rr_end z = rr_end rounds).
Proof.
  induction l as [|b l IH] using rev_ind; cbn [foldl].
  - split; [done|]. split; [|split; exists commit; split; [by left|done|by left|done]].
    intros z ->%list_elem_of_singleton. lia.
  - rewrite foldl_app. cbn [foldl]. destruct (foldl _ _ l) as [bufs rounds]. destruct IH as (->&Hall&(zb&Hzb&Eb)&(ze&Hze&Ee)).
    rewrite fmap_app, list.filter_app. cbn [fmap list_fmap].
    destruct (empty_range (clip_rounds b a N)) eqn:E.
    + rewrite filter_cons_False, filter_nil, app_nil_r; [by split_and!; eauto|].
      intros Hne. apply empty_range_false in Hne. congruence.
    + rewrite filter_cons_True, filter_nil by (by apply empty_range_false). split; [done|].
      cbn [rr_begin rr_end]. set (c := clip_rounds b a N). set (bs := filter _ _) in *.
      assert (∀ z, z ∈ commit :: bs ++ [c] ↔ z ∈ commit :: bs ∨ z = c) as Hin.
      { intros z. rewrite !elem_of_cons, elem_of_app, list_elem_of_singleton. tauto. }
      split_and!.
      * intros z [Hz| ->]%Hin; [specialize (Hall z Hz)|]; lia.
      * destruct (decide (rr_begin rounds ≤ rr_begin c)%Z);
          [exists zb|exists c]; (split; [apply Hin; tauto|lia]).
      * destruct (decide (rr_end c ≤ rr_end rounds)%Z);
          [exists ze|exists c]; (split; [apply Hin; tauto|lia]).
Qed.

Section place.
Context {R : Type} `{RateOps R}.
Implicit Types q : window_request R.

(** The zones of an instance with commit rounds, clipped to [\[0, N)]. *)
Lemma clip_zones_spec q z a N :
  request_ok q z → nonempty (clip_rounds z a N) →
  let '(bufs, rounds) := clip_zones q (clip_rounds z a N) a N in
  rounds = clip_rounds (span_of q z) a N ∧
  bufs ≡ₚ filter nonempty ((λ b, clip_rounds b a N) <$> wr_buffers q).
Proof.
  intros Hq Hne. unfold clip_zones. pose proof (clip_fold (wr_buffers q) (clip_rounds z a N) a N) as Hf.
  destruct (foldl _ _ _) as [bufs rounds]. destruct Hf as (->&Hall&(zb&Hzb&Eb)&(ze&Hze&Ee)).
  split; [|apply sort_ranges_perm].
  destruct (zone_span_bounds q z) as (Hsp&_&_).
  assert (z ∈ zones_of q z) as Hzin by (unfold zones_of; set_solver).
  pose proof (Hsp z Hzin) as [Hs1 Hs2]. pose proof (an_nonempty _ _ (rq_anchor _ _ Hq)) as Hzne.
  assert (∀ x, x ∈ clip_rounds z a N :: filter nonempty ((λ b, clip_rounds b a N) <$> wr_buffers q) ↔
    ∃ b, b ∈ zones_of q z ∧ x = clip_rounds b a N ∧ nonempty x) as Hx.
  { intros x. rewrite elem_of_cons, list_elem_of_filter, list_elem_of_fmap. unfold zones_of. split.
    - intros [->|(?&b&->&?)]; [exists z|exists b]; rewrite elem_of_app, list_elem_of_singleton; tauto.
    - intros (b&Hb&->&?). rewrite elem_of_app, list_elem_of_singleton in Hb. destruct Hb as [Hb| ->]; [right|by left].
      split; [done|]. by exists b. }
  assert (∀ p, (rr_begin (span_of q z) ≤ p - a < rr_end (span_of q z))%Z → (0 ≤ p < N)%Z →
    (rr_begin rounds ≤ p < rr_end rounds)%Z) as Hcov.
  { intros p Hp HpN. destruct (rq_covers _ _ Hq (p - a)%Z Hp) as (b&Hb&Hin).
    assert (in_range (clip_rounds b a N) p) as Hc by (by apply clip_in_range).
    assert (nonempty (clip_rounds b a N)) as Hcn by (unfold nonempty; destruct Hc; lia).
    pose proof (Hall (clip_rounds b a N)) as Hb'. rewrite Hx in Hb'.
    destruct Hb' as [? ?]; [by exists b|]. destruct Hc. lia. }
  unfold nonempty, clip_rounds in *. cbn [rr_begin rr_end] in *.
  destruct (proj1 (Hx zb) Hzb) as (b1&Hb1&->&_). destruct (proj1 (Hx ze) Hze) as (b2&Hb2&->&_).
  pose proof (Hsp b1 Hb1) as [? ?]. pose proof (Hsp b2 Hb2) as [? ?]. cbn [rr_begin rr_end] in *.
  destruct rounds as [rb re]. cbn [rr_begin rr_end] in *.
  pose proof (Hcov (0 `max` (a + rr_begin (span_of q z)))%Z ltac:(lia) ltac:(lia)).
  pose proof (Hcov (N `min` (a + rr_end (span_of q z)) - 1)%Z ltac:(lia) ltac:(lia)).
  f_equal; lia.
Qed.

(** Commit rounds and buffer rounds exclude each other. *)
Lemma clipped_buffers q z a N bufs :
  request_ok q z → bufs ≡ₚ filter nonempty ((λ b, clip_rounds b a N) <$> wr_buffers q) →
  (∀ b r, b ∈ bufs → in_range b r → in_range (clip_rounds z a N) r → False) ∧
  (∀ r, in_range (clip_rounds (span_of q z) a N) r → in_range (clip_rounds z a N) r ∨ ∃ b, b ∈ bufs ∧ in_range b r).
Proof.
  intros Hq Hb. split.
  - intros b r Hin Hr Hc. rewrite Hb, list_elem_of_filter, list_elem_of_fmap in Hin. destruct Hin as (_&b0&->&Hb0).
    apply clip_in_range in Hr as [Hr _]. apply clip_in_range in Hc as [Hc _].
    pose proof (rq_disjoint _ _ Hq) as Hd. unfold zones_of in Hd.
    assert (∀ l : list round_range, StronglySorted disjoint_ranges (l ++ [z]) → b0 ∈ l → disjoint_ranges b0 z) as Hl.
    { induction l as [|x l IH]; intros Hs Hin; [by apply elem_of_nil in Hin|]. inversion_clear Hs as [|? ? Hs' Hall].
      apply elem_of_cons in Hin as [->|Hin]; [|by apply IH]. rewrite Forall_app in Hall. destruct Hall as [_ Hz].
      by inversion Hz. }
    by eapply (Hl _ Hd Hb0).
  - intros r [Hr HN]%clip_in_range. destruct (rq_covers _ _ Hq (r - a)%Z Hr) as (b&Hin&Hbr).
    unfold zones_of in Hin. rewrite elem_of_app, list_elem_of_singleton in Hin. destruct Hin as [Hin| ->].
    + right. exists (clip_rounds b a N). assert (in_range (clip_rounds b a N) r) as Hcr by (by apply clip_in_range).
      split; [|done]. rewrite Hb, list_elem_of_filter, list_elem_of_fmap. split; [|eauto].
      unfold nonempty. destruct Hcr. lia.
    + left. by apply clip_in_range.
Qed.

(** ** Sends *)

Lemma elem_of_concat {A} (x : A) ls : x ∈ concat ls ↔ ∃ l, l ∈ ls ∧ x ∈ l.
Proof. rewrite list_elem_of_In, in_concat. by setoid_rewrite list_elem_of_In. Qed.

Lemma to_size_nat x : (Z.of_nat x < 2 ^ 63)%Z → to_size (Z.of_nat x) = x.
Proof. intros Hx. unfold to_size. rewrite Z.mod_small by lia. lia. Qed.

Section placed.
Context (t : experiment_template R) n cs (Hshot : shot_ok t n cs).
Abbreviation base := (base (sc_to_seam (spec_seam (t_spec t))) cs).
Abbreviation N := (Z.of_nat n).

Lemma row_offset_z x : x ≤ n → row_offset t (to_size (Z.of_nat x)) n = Ok (base x).
Proof. intros Hx. pose proof (so_small _ _ _ Hshot). rewrite to_size_nat by lia. by apply (so_row _ _ _ Hshot). Qed.
Lemma column_offset_z x : x ≤ n → column_offset t (to_size (Z.of_nat x)) n = Ok (faults_before cs x).
Proof. intros Hx. pose proof (so_small _ _ _ Hshot). rewrite to_size_nat by lia. by apply (so_column _ _ _ Hshot). Qed.
Lemma row_from_eq s x : s ≤ x ≤ n → row_from t n (Z.of_nat s) (Z.of_nat x) = Ok (base x - base s).
Proof.
  intros Hx. unfold row_from. rewrite !row_offset_z by lia. cbn [mbind res_bind].
  pose proof (base_small t n cs Hshot x). rewrite u64_sub_le; [done|apply (base_mono t cs); lia|lia].
Qed.
Lemma col_from_eq s x : s ≤ x ≤ n → col_from t n (Z.of_nat s) (Z.of_nat x) = Ok (faults_before cs x - faults_before cs s).
Proof.
  intros Hx. unfold col_from. rewrite !column_offset_z by lia. cbn [mbind res_bind].
  pose proof (fb_small t n cs Hshot x). rewrite u64_sub_le; [done|apply (fb_mono cs); lia|lia].
Qed.

(** The rows of the rounds of a range, counted from round [s]. *)
Definition range_rows (s : nat) (r : round_range) : list nat :=
  let b := Z.to_nat (rr_begin r) in let e := Z.to_nat (rr_end r) in seq (base b - base s) (base e - base b).

Definition inside (s e : nat) (r : round_range) : Prop :=
  (Z.of_nat s ≤ rr_begin r ∧ rr_begin r < rr_end r ∧ rr_end r ≤ Z.of_nat e)%Z.

Record placed_send (s e : nat) (send : window_send) : Prop := {
  ps_ranges : Forall (inside s e) (ws_rounds send);
  ps_sorted : StronglySorted disjoint_ranges (ws_rounds send);
  ps_nodup : NoDup (ws_rows send);
  ps_rows : ∀ i, i ∈ ws_rows send ↔ ∃ r, r ∈ ws_rounds send ∧
    base (Z.to_nat (rr_begin r)) ≤ base s + i < base (Z.to_nat (rr_end r))
}.

Lemma range_rows_elem s e r i : inside s e r →
  i ∈ range_rows s r ↔ base (Z.to_nat (rr_begin r)) ≤ base s + i < base (Z.to_nat (rr_end r)).
Proof.
  intros (H1&H2&H3). unfold range_rows. cbv zeta. rewrite elem_of_seq.
  pose proof (base_mono t cs s (Z.to_nat (rr_begin r)) ltac:(lia)).
  pose proof (base_mono t cs (Z.to_nat (rr_begin r)) (Z.to_nat (rr_end r)) ltac:(lia)). lia.
Qed.

Lemma ranges_nodup s e l :
  Forall (inside s e) l → StronglySorted disjoint_ranges l → NoDup (concat (range_rows s <$> l)).
Proof.
  induction l as [|r l IH]; intros Hin Hs; cbn [fmap list_fmap concat]; [constructor|].
  apply Forall_cons in Hin as [Hr Hin]. inversion_clear Hs as [|? ? Hs' Hall]. apply NoDup_app. split_and!.
  - apply NoDup_seq.
  - intros i Hi Hi'. apply (range_rows_elem s e r i Hr) in Hi.
    apply elem_of_concat in Hi' as (x&(r'&->&Hr')%list_elem_of_fmap&Hix).
    rewrite Forall_forall in Hin, Hall. pose proof (Hin r' Hr') as Hr2. pose proof (Hall r' Hr') as Hd.
    apply (range_rows_elem s e r' i Hr2) in Hix. destruct Hr as (?&?&?), Hr2 as (?&?&?).
    destruct (decide (rr_end r ≤ rr_begin r')%Z).
    + pose proof (base_mono t cs (Z.to_nat (rr_end r)) (Z.to_nat (rr_begin r'))). lia.
    + destruct (decide (rr_end r' ≤ rr_begin r)%Z).
      * pose proof (base_mono t cs (Z.to_nat (rr_end r')) (Z.to_nat (rr_begin r))). lia.
      * apply (Hd (rr_begin r `max` rr_begin r')%Z); unfold in_range; lia.
  - by apply IH.
Qed.

Lemma disjoint_clip a l :
  StronglySorted disjoint_ranges l →
  StronglySorted disjoint_ranges (filter nonempty ((λ r, clip_rounds r a N) <$> l)).
Proof.
  induction 1 as [|r l Hs IH Hall]; cbn [fmap list_fmap]; [constructor|].
  rewrite filter_cons. case_decide; [|done]. constructor; [done|].
  apply Forall_forall. intros x [_ (y&->&Hy)%list_elem_of_fmap]%list_elem_of_filter. rewrite Forall_forall in Hall.
  intros p [Hp _]%clip_in_range [Hp' _]%clip_in_range. by apply (Hall y Hy (p - a)%Z).
Qed.

(** Placing a list of relative rounds that lie in the span. *)
Lemma place_rounds id mode (span : round_range) L s e a :
  clip_rounds span a N = mk_range (Z.of_nat s) (Z.of_nat e) → e ≤ n →
  Forall (λ r, rr_begin span ≤ rr_begin r ∧ rr_end r ≤ rr_end span)%Z L → StronglySorted disjoint_ranges L →
  returns (foldM (λ relative send,
    let clipped := clip_rounds relative a N in
    if empty_range clipped then Ok send else
    lo ← row_from t n (Z.of_nat s) (rr_begin clipped);
    hi ← row_from t n (Z.of_nat s) (rr_end clipped);
    Ok (mk_send (ws_id send) (ws_mode send) (ws_rounds send ++ [clipped]) (ws_rows send ++ seq lo (hi - lo))))
    L (mk_send id mode [] [])) (λ send, ws_id send = id ∧ ws_mode send = mode ∧ placed_send s e send).
Proof.
  intros Hcl He Hspan Hdis. unfold clip_rounds in Hcl. injection Hcl as Hs Hee.
  assert (∀ r, r ∈ L → nonempty (clip_rounds r a N) → inside s e (clip_rounds r a N)) as Hins.
  { intros r Hr Hne. rewrite Forall_forall in Hspan. specialize (Hspan r Hr).
    unfold inside, nonempty, clip_rounds in *. cbn [rr_begin rr_end] in *. lia. }
  eapply returns_mono; [apply foldM_inv with (I := λ pre send, send = mk_send id mode
    (filter nonempty ((λ r, clip_rounds r a N) <$> pre))
    (concat (range_rows s <$> filter nonempty ((λ r, clip_rounds r a N) <$> pre))))|].
  - done.
  - intros pre r post send HL ->. cbv zeta. rewrite fmap_app, list.filter_app. cbn [fmap list_fmap].
    destruct (empty_range (clip_rounds r a N)) eqn:E.
    + rewrite filter_cons_False, filter_nil, app_nil_r; [by apply returns_ok|].
      intros Hne%empty_range_false. congruence.
    + apply empty_range_false in E. rewrite filter_cons_True, filter_nil by done.
      destruct (Hins r ltac:(rewrite HL; set_solver) E) as (H1&H2&H3).
      set (c := clip_rounds r a N) in *.
      pose proof (row_from_eq s (Z.to_nat (rr_begin c)) ltac:(lia)) as Hlo. rewrite Z2Nat.id in Hlo by lia.
      pose proof (row_from_eq s (Z.to_nat (rr_end c)) ltac:(lia)) as Hhi. rewrite Z2Nat.id in Hhi by lia.
      rewrite Hlo. cbn [mbind res_bind]. rewrite Hhi. cbn [mbind res_bind]. apply returns_ok.
      cbn [ws_id ws_mode ws_rounds ws_rows]. rewrite fmap_app, concat_app. cbn [fmap list_fmap concat]. rewrite app_nil_r.
      f_equal. f_equal. unfold range_rows. cbv zeta. f_equal.
      pose proof (base_mono t cs s (Z.to_nat (rr_begin c)) ltac:(lia)).
      pose proof (base_mono t cs (Z.to_nat (rr_begin c)) (Z.to_nat (rr_end c)) ltac:(lia)). lia.
  - intros send ->. cbn [ws_id ws_mode ws_rounds ws_rows]. split; [done|]. split; [done|].
    assert (Forall (inside s e) (filter nonempty ((λ r, clip_rounds r a N) <$> L))) as Hall.
    { apply Forall_forall. intros x [Hne (r&->&Hr)%list_elem_of_fmap]%list_elem_of_filter. by apply Hins. }
    pose proof (disjoint_clip a L Hdis) as Hd. split; cbn [ws_rounds ws_rows]; [done|done|by eapply ranges_nodup|].
    intros i. rewrite elem_of_concat. rewrite Forall_forall in Hall. split.
    + intros (l&(r&->&Hr)%list_elem_of_fmap&Hi). exists r. split; [done|]. by apply (range_rows_elem s e r i (Hall r Hr)).
    + intros (r&Hr&Hi). exists (range_rows s r). split; [by apply list_elem_of_fmap_2|].
      by apply (range_rows_elem s e r i (Hall r Hr)).
Qed.

Lemma place_send_spec q z rs s e a :
  request_ok q z → rs ∈ wr_sends q → clip_rounds (span_of q z) a N = mk_range (Z.of_nat s) (Z.of_nat e) → e ≤ n →
  returns (place_send t q z n a (Z.of_nat s) rs) (λ send, ws_id send = sq_id rs ∧ placed_send s e send).
Proof.
  intros Hq Hrs Hcl He. pose proof (rq_sends _ _ Hq) as Hsend. rewrite Forall_forall in Hsend. specialize (Hsend rs Hrs).
  destruct (zone_span_bounds q z) as (Hsp&_&_). pose proof (so_span _ _ _ Hshot) as Hm.
  pose proof (an_nonempty _ _ (rq_anchor _ _ Hq)) as Hzne.
  assert (∀ L, Forall (λ r, rr_begin (span_of q z) ≤ rr_begin r ∧ rr_end r ≤ rr_end (span_of q z))%Z L →
    StronglySorted disjoint_ranges L → ∀ mode,
    returns (foldM (λ relative send,
      let clipped := clip_rounds relative a N in
      if empty_range clipped then Ok send else
      lo ← row_from t n (Z.of_nat s) (rr_begin clipped);
      hi ← row_from t n (Z.of_nat s) (rr_end clipped);
      Ok (mk_send (ws_id send) (ws_mode send) (ws_rounds send ++ [clipped]) (ws_rows send ++ seq lo (hi - lo))))
      L (mk_send (sq_id rs) mode [] [])) (λ send, ws_id send = sq_id rs ∧ placed_send s e send)) as Hrun.
  { intros L H1 H2 mode. eapply returns_mono; [by eapply place_rounds|]. by intros send (?&_&?). }
  unfold place_send, send_ok in *. cbv zeta. destruct (is_default_send rs).
  - assert (∀ first, (∃ b, b ∈ zones_of q z ∧ nonempty b ∧ rr_begin b = first) → ∀ mode,
      returns (foldM (λ relative send,
        let clipped := clip_rounds relative a N in
        if empty_range clipped then Ok send else
        lo ← row_from t n (Z.of_nat s) (rr_begin clipped);
        hi ← row_from t n (Z.of_nat s) (rr_end clipped);
        Ok (mk_send (ws_id send) (ws_mode send) (ws_rounds send ++ [clipped]) (ws_rows send ++ seq lo (hi - lo))))
        (sort_ranges [mk_range first (first + Z.of_nat (t_max_span t))]) (mk_send (sq_id rs) mode [] []))
        (λ send, ws_id send = sq_id rs ∧ placed_send s e send)) as Hone.
    { intros first (b&Hb&Hne&<-) mode.
      pose proof (sort_ranges_perm [mk_range (rr_begin b) (rr_begin b + Z.of_nat (t_max_span t))]) as Hp.
      apply Permutation_singleton_r in Hp. rewrite Hp.
      apply Hrun; [|repeat constructor]. apply Forall_singleton. cbn [rr_begin rr_end]. specialize (Hsp b Hb).
      unfold nonempty in Hne. lia. }
    destruct (String.eqb_spec (sq_id rs) "forward") as [Ef|].
    + destruct (Hsend Ef) as [b Hb]. rewrite Hb. cbn [mbind res_bind]. apply Hone. exists b.
      unfold trailing_buffer in Hb. apply head_Some_elem_of in Hb as [_ Hb]%list_elem_of_filter.
      pose proof (rq_nonempty _ _ Hq) as Hn. rewrite Forall_forall in Hn.
      split_and!; [unfold zones_of; set_solver|by apply Hn|done].
    + cbn [mbind res_bind]. apply Hone. exists z. split_and!; [unfold zones_of; set_solver|done|done].
  - cbn [mbind res_bind]. destruct Hsend as (_&_&Hok&Hdis). apply Hrun.
    + rewrite sort_ranges_perm. eapply Forall_impl; [exact Hok|]. simpl. tauto.
    + eapply disjoint_perm; [symmetry; apply sort_ranges_perm|done].
Qed.

(** ** A placed window *)

Record placed_ok q (ref : template_ref R) (k : Z) (w : placed_window R) (s e cb ce ie : nat) : Prop := {
  pk_context : pw_context w = Some ref;
  pk_k : pw_k w = k;
  pk_shot : pw_shot_rounds w = n;
  pk_rounds : pw_rounds w = mk_range (Z.of_nat s) (Z.of_nat e);
  pk_commit : pw_commit w = mk_range (Z.of_nat cb) (Z.of_nat ce);
  pk_bounds : s ≤ cb ∧ cb < ce ∧ ce ≤ e ∧ e ≤ ie ∧ ie ≤ n;
  pk_zone : ∀ r, s ≤ r < e → zone_of_round (pw_buffers w) (Z.of_nat r) = 0 ↔ cb ≤ r < ce;
  pk_side : ∀ r r', s ≤ r < e → s ≤ r' < e →
    zone_of_round (pw_buffers w) (Z.of_nat r) = zone_of_round (pw_buffers w) (Z.of_nat r') → r < cb ↔ r' < cb;
  pk_input : wp_exists (pw_input w) = (0 <? s);
  pk_imports : (empty_range (wp_imports (pw_output w)) = true ∧ (rr_end (wp_imports (pw_output w)) ≤ N)%Z ∧ ie = e) ∨
    (wp_imports (pw_output w) = mk_range (Z.of_nat e) (Z.of_nat ie) ∧ e < ie);
  pk_sends : Forall (placed_send s e) (pw_sends w);
  pk_ids : ws_id <$> pw_sends w = sq_id <$> wr_sends q;
  pk_nodup : NoDup (ws_id <$> pw_sends w)
}.

Lemma place_sends_spec q z s e a :
  request_ok q z → clip_rounds (span_of q z) a N = mk_range (Z.of_nat s) (Z.of_nat e) → e ≤ n →
  returns (foldM (λ rs sends, send ← place_send t q z n a (Z.of_nat s) rs; Ok (sends ++ [send])) (wr_sends q) [])
    (λ sends, Forall (placed_send s e) sends ∧ ws_id <$> sends = sq_id <$> wr_sends q).
Proof.
  intros Hq Hcl He.
  eapply returns_mono; [apply foldM_inv with (I := λ pre sends, Forall (placed_send s e) sends ∧ ws_id <$> sends = sq_id <$> pre)|].
  - split; [constructor|done].
  - intros pre rs post sends Hsp [HF Hid].
    destruct (place_send_spec q z rs s e a Hq ltac:(rewrite Hsp; set_solver) Hcl He) as (send&->&Hsid&Hps).
    cbn [mbind res_bind]. apply returns_ok. split; [apply Forall_app; split; [done|by apply Forall_singleton]|].
    by rewrite !fmap_app, Hid; cbn [fmap list_fmap]; rewrite Hsid.
  - done.
Qed.

Lemma place_window_spec ref q k w :
  ref_template ref = t → place_window (Some ref) q k n = Ok w →
  ∃ z s e cb ce ie, request_ok q z ∧ placed_ok q ref k w s e cb ce ie.
Proof.
  intros Href Hp. unfold place_window in Hp. cbv zeta in Hp. rewrite Href in Hp.
  apply bind_ok in Hp as (a0&->%window_anchor_inv&Hp).
  apply bind_ok in Hp as ([]&Hcr&Hp).
  destruct (check_request_decides q) as [[[z Hq] _]|[_ [msg E]]]; [|congruence].
  apply bind_ok in Hp as (tot&_&Hp). unfold commit_of in Hp. rewrite (an_commit _ _ (rq_anchor _ _ Hq)) in Hp.
  cbn [mbind res_bind] in Hp. apply bind_ok in Hp as (back&Hback&Hp). apply bind_ok in Hp as (commit0&->%clip_checked_inv&Hp).
  apply bind_ok in Hp as ([]&Hne%throw_if_ok&Hp).
  set (a := (wr_offset q + k * wr_period q)%Z) in *. apply empty_range_false in Hne.
  pose proof (clip_zones_spec q z a N Hq Hne) as Hcz. destruct (clip_zones q _ a N) as [bufs rounds] eqn:Ecz.
  destruct Hcz as [Hr Hbufs]. destruct (clipped_buffers q z a N bufs Hq Hbufs) as [Hdisj Hcov].
  destruct (zone_span_bounds q z) as (Hsp&_&_). destruct (Hsp z) as [Hs1 Hs2]; [unfold zones_of; set_solver|].
  assert (rr_end back = rr_end (span_of q z)) as Hbe.
  { apply (sorted_back q z).
    - unfold zones_of. apply Forall_app. split; [apply Hq|]. apply Forall_singleton, Hq.
    - apply Hq.
    - unfold vget in Hback. rewrite last_lookup. replace (pred (length (sorted_zones q z))) with (length (sorted_zones q z) - 1) by lia.
      destruct (sorted_zones q z !! _); [by injection Hback as ->|done]. }
  unfold nonempty, clip_rounds in Hne, Hr. cbn [rr_begin rr_end] in Hne, Hr.
  set (s := Z.to_nat (0 `max` (a + rr_begin (span_of q z)))). set (e := Z.to_nat (N `min` (a + rr_end (span_of q z)))).
  set (cb := Z.to_nat (0 `max` (a + rr_begin z))). set (ce := Z.to_nat (N `min` (a + rr_end z))).
  assert (rounds = mk_range (Z.of_nat s) (Z.of_nat e)) as Hr' by (rewrite Hr; unfold s, e; f_equal; lia).
  assert (clip_rounds z a N = mk_range (Z.of_nat cb) (Z.of_nat ce)) as Hc' by (unfold clip_rounds, cb, ce; f_equal; lia).
  assert (clip_rounds (span_of q z) a N = mk_range (Z.of_nat s) (Z.of_nat e)) as Hsc by (rewrite <-Hr'; rewrite Hr; done).
  rewrite Hr' in Hp. cbn [rr_begin rr_end] in Hp.
  apply bind_ok in Hp as (in_disp&_&Hp). apply bind_ok in Hp as (out_disp&Ho&Hp). apply bind_ok in Hp as (prior&_&Hp).
  destruct (place_sends_spec q z s e a Hq Hsc) as (sends&Hsends&HF&Hids); [unfold e; lia|].
  rewrite Hsends in Hp. cbn [mbind res_bind] in Hp. injection Hp as <-.
  set (imports := if (Z.of_nat e <? N)%Z && bool_decide (out_disp = port_closed) then _ else _).
  assert (∃ ie, e ≤ ie ≤ n ∧ ((empty_range imports = true ∧ (rr_end imports ≤ N)%Z ∧ ie = e) ∨
    (imports = mk_range (Z.of_nat e) (Z.of_nat ie) ∧ e < ie))) as (ie&Hie&Himp).
  { assert (s ≤ e ∧ e ≤ n) as [_ Hen] by (unfold s, e; lia). unfold imports.
    destruct (_ && _) eqn:E; [|exists e; split; [lia|left; cbn [rr_end]; split_and!; [done|lia|done]]].
    rewrite andb_true_iff, Z.ltb_lt in E. destruct E as [Hlt _].
    set (i := default _ _). assert (rr_begin i = rr_end (span_of q z)) as Hib.
    { unfold i. destruct (out_imports (wr_output q)) as [i0|] eqn:Ei; [|exact Hbe].
      destruct (pt_imports _ _ (rq_ports _ _ Hq) i0 Ei) as (_&_&_&Hi). exact Hi. }
    assert (clip_rounds i a N = mk_range (Z.of_nat e) (N `min` (a + rr_end i))) as ->.
    { unfold clip_rounds. rewrite Hib. f_equal. unfold e in *. lia. }
    destruct (decide (Z.of_nat e < N `min` (a + rr_end i))%Z).
    - exists (Z.to_nat (N `min` (a + rr_end i))). split; [lia|]. right. split; [f_equal|]; lia.
    - exists e. split; [lia|]. left. unfold empty_range. cbn [rr_begin rr_end]. rewrite Z.leb_le. lia. }
  exists z, s, e, cb, ce, ie. split; [done|].
  assert (s ≤ cb ∧ cb < ce ∧ ce ≤ e) as Hb by (unfold s, cb, ce, e; lia).
  split; cbn [pw_context pw_k pw_shot_rounds pw_rounds pw_commit pw_buffers pw_input pw_output pw_sends wp_exists wp_imports].
  - done.
  - done.
  - done.
  - done.
  - done.
  - lia.
  - intros r Hrr. rewrite zone_zero. rewrite Hsc, Hc' in Hcov. split.
    + intros Hno. destruct (Hcov (Z.of_nat r)) as [Hin|(b&Hb'&Hin)]; [unfold in_range; cbn; lia|unfold in_range in Hin; cbn in Hin; lia|].
      by destruct (Hno b Hb').
    + intros Hrc b Hb' Hin. apply (Hdisj b (Z.of_nat r) Hb' Hin). rewrite Hc'. unfold in_range. cbn. lia.
  - intros r r' Hrr Hrr' Hz. destruct (zone_of_round bufs (Z.of_nat r)) as [|i] eqn:Ez.
    + symmetry in Hz. rewrite zone_zero in Ez, Hz. rewrite Hsc, Hc' in Hcov.
      destruct (Hcov (Z.of_nat r)) as [Hin|(b&Hb'&Hin)]; [unfold in_range; cbn; lia| |by destruct (Ez b Hb')].
      destruct (Hcov (Z.of_nat r')) as [Hin'|(b&Hb'&Hin')]; [unfold in_range; cbn; lia| |by destruct (Hz b Hb')].
      unfold in_range in Hin, Hin'. cbn in Hin, Hin'. lia.
    + destruct (zone_succ _ _ _ Ez) as (b&Hb1&Hin1). destruct (zone_succ _ _ _ (eq_sym Hz)) as (b'&Hb2&Hin2). simplify_eq.
      assert (b ∈ bufs) as Hbin by (by eapply list_elem_of_lookup_2).
      assert (∀ p : Z, in_range b p → ¬ (Z.of_nat cb ≤ p < Z.of_nat ce)%Z) as Hout.
      { intros p Hp Hpc. apply (Hdisj b p Hbin Hp). rewrite Hc'. done. }
      pose proof (Hout (Z.of_nat cb)) as Hcb0.
      pose proof (Hout (Z.of_nat r)) as H1'. pose proof (Hout (Z.of_nat r')) as H2'. unfold in_range in *. lia.
  - destruct (Nat.ltb_spec 0 s); [apply Z.ltb_lt|apply Z.ltb_ge]; lia.
  - destruct Himp as [?|?]; [by left|by right].
  - done.
  - done.
  - rewrite Hids. apply Hq.
Qed.
End placed.
End place.
