(* ===== verification/WindowBuild.v ===== *)
(** * Decoding windows: grouping columns

    Whatever the column options, the groups of [group_fault_columns] are listed
    by increasing first column, and a group's columns lie in one zone; so the
    commit columns that [window_from_dem_chunks] counts are the groups of the
    commit zone. *)

From S2P Require Import Prelude Rates Ordering Tensor SparseMatrix SparseFacts SparseCanon SparseProps RoundLayout DetectorErrorModel ExtendedDem ExtendedFacts ChunkSpec ExperimentTemplate WindowRequest WindowModel ExtendedChunk ExtendedStitch ExtendedChain ExtendedAll ExtendedProps ExtendedClose ExtendedStreams WindowRequestFacts WindowWorkload WorkloadFacts WindowShot WindowPlace.

(** The positions of the elements that a filter keeps. *)
Lemma filter_positions {A} (P : A → Prop) `{∀ x, Decision (P x)} (l : list A) :
  ∃ idx, StronglySorted (<) idx ∧ Forall (λ i, i < length l) idx ∧ Forall2 (λ i x, l !! i = Some x) idx (filter P l).
Proof.
  induction l as [|x l IH] using rev_ind; [exists []; split_and!; constructor|].
  destruct IH as (idx&Hs&Hb&H2). rewrite list.filter_app, length_app. cbn [length].
  assert (Forall2 (λ i y, (l ++ [x]) !! i = Some y) idx (filter P l)) as H2'.
  { eapply Forall2_impl; [exact H2|]. intros i y Hi. by apply lookup_app_l_Some. }
  assert (Forall (λ i, i < length l + 1) idx) as Hb' by (eapply Forall_impl; [exact Hb|]; simpl; lia).
  rewrite filter_cons, filter_nil. case_decide.
  - exists (idx ++ [length l]). split_and!.
    + clear -Hs Hb. induction Hs as [|i idx Hs IH Hall]; [repeat constructor|]. apply Forall_cons in Hb as [? Hb].
      cbn [app]. constructor; [by apply IH|]. apply Forall_app. split; [done|]. by apply Forall_singleton.
    + apply Forall_app. split; [done|]. apply Forall_singleton. lia.
    + apply Forall2_app; [done|]. constructor; [|constructor]. by rewrite lookup_app_r, Nat.sub_diag by lia.
  - exists idx. rewrite app_nil_r. by split_and!.
Qed.

(** ** Ordered maps *)

Lemma map_push_members {K} (ltb : K → K → bool) (P : K → nat → Prop) k j m :
  (∀ k', ltb k k' = false → ltb k' k = false → P k j → P k' j) → P k j →
  (∀ e, e ∈ m → e.2 ≠ [] ∧ ∀ x, x ∈ e.2 → P e.1 x) →
  ∀ e, e ∈ map_push ltb k j m → e.2 ≠ [] ∧ ∀ x, x ∈ e.2 → P e.1 x.
Proof.
  intros Htri Hk Hm. assert ([j] ≠ [] ∧ ∀ x, x ∈ [j] → P k x) as Hnew by (split; [done|]; by intros x ->%list_elem_of_singleton).
  induction m as [|[k' js] m IH]; intros e He; cbn [map_push] in He.
  - apply list_elem_of_singleton in He as ->. done.
  - destruct (ltb k k') eqn:E1; [apply elem_of_cons in He as [->|He]; [done|by apply Hm]|].
    destruct (ltb k' k) eqn:E2; apply elem_of_cons in He as [->|He].
    + apply (Hm (k', js)). by left.
    + apply IH; [|done]. intros e' He'. apply Hm. by right.
    + cbn [fst snd]. split; [by destruct js|]. intros x. rewrite elem_of_app, list_elem_of_singleton.
      destruct (Hm (k', js)) as [_ Hjs]; [by left|]. intros [Hx| ->]; [by apply Hjs|by apply Htri].
    + apply Hm. by right.
Qed.

Section groups.
Context {R : Type} `{RateOps R}.
Implicit Types closed : chain_columns R.

Definition same_zone (zone : list nat) (i : nat) (g : list nat) : Prop := ∀ j, j ∈ g → j < length zone ∧ zone !! j = zone !! i.

(** Every group written so far lies in the zone of its position. *)
Definition zoned (zone : list nat) (by_first : list (list nat)) : Prop :=
  length by_first = length zone ∧ ∀ i g, by_first !! i = Some g → same_zone zone i g.

Lemma zoned_set zone by_first i g by_first' :
  zoned zone by_first → vset by_first i g = Ok by_first' → same_zone zone i g → zoned zone by_first'.
Proof.
  intros [Hl Hz] Hs Hg. unfold vset in Hs. case_decide as Hi; [|done]. injection Hs as <-.
  split; [by rewrite length_insert|]. intros i' g' Hg'. destruct (decide (i = i')) as [<-|].
  - rewrite list_lookup_insert_eq in Hg' by done. by injection Hg' as <-.
  - rewrite list_lookup_insert_ne in Hg' by done. by apply Hz.
Qed.

Lemma by_rate_perm closed first part : by_rate closed first part ≡ₚ part.
Proof. apply merge_sort_Permutation. Qed.

Lemma keep_effect_elem closed first by_effect x :
  x ∈ keep_effect closed first by_effect → ∃ e, e ∈ by_effect ∧ x ∈ e.2.
Proof.
  unfold keep_effect.
  assert (∀ l st, (∀ y, y ∈ st.1 → ∃ e, e ∈ by_effect ∧ y ∈ e.2) → l ⊆ by_effect →
    ∀ y, y ∈ (foldl (λ st entry,
      let '(kept, kept_rate) := st in
      let part := entry.2 in
      let rate := foldl (λ rate j, rate_xor rate (rate_at closed first j)) rate_zero part in
      let better := match kept_rate with
                    | None => true
                    | Some r => rate_ltb r rate || (rate_eqb rate r && (default 0 (head part) <? default 0 (head kept)))
                    end in
      if better then (part, Some rate) else (kept, kept_rate)) st l).1 → ∃ e, e ∈ by_effect ∧ y ∈ e.2) as Hl.
  { induction l as [|e l IH]; intros [kept kr] Hst Hsub y Hy; cbn [foldl] in Hy; [by apply Hst|].
    assert (e ∈ by_effect) as He by (apply Hsub; by left).
    assert (l ⊆ by_effect) as Hsub' by (intros z Hz; apply Hsub; by right).
    revert Hy. destruct (match kr with None => _ | Some _ => _ end).
    - apply IH; [|done]. intros z Hz. by exists e.
    - by apply IH. }
  apply Hl; [|done]. intros y Hy. by apply elem_of_nil in Hy.
Qed.

Lemma group_class_zoned closed first options zone members by_first by_first' z :
  (∀ j, j ∈ members → zone !! j = Some z) → zoned zone by_first →
  group_class closed first options members by_first = Ok by_first' → zoned zone by_first'.
Proof.
  intros Hmem Hz Hg. unfold group_class in Hg. apply bind_ok in Hg as (by_effect&Hbe&Hg).
  assert (∀ e, e ∈ by_effect → e.2 ≠ [] ∧ ∀ x, x ∈ e.2 → x ∈ members) as Heff.
  { revert Hbe. refine (foldM_preserve _ (λ m, ∀ e, e ∈ m → e.2 ≠ [] ∧ ∀ x, x ∈ e.2 → x ∈ members) members [] by_effect _ _).
    - intros j m m' Hj Hm Ho. apply bind_ok in Ho as (o&_&[= <-]).
      by apply (map_push_members lex_ltb (λ _ x, x ∈ members)).
    - intros e He. by apply elem_of_nil in He. }
  assert (∀ i g, i ∈ members → (∀ x, x ∈ g → x ∈ members) → same_zone zone i g) as Hsame.
  { intros i g Hi Hsub j Hj. pose proof (Hmem j (Hsub j Hj)) as Hzj.
    split; [by eapply lookup_lt_Some|]. by rewrite Hzj, (Hmem i Hi). }
  destruct (_ || _).
  - revert Hg. refine (foldM_preserve _ (zoned zone) by_effect by_first by_first' _ Hz).
    intros e b b' He Hb Hstep. destruct (Heff e He) as [Hne Hin]. destruct (merge_identical options).
    + apply bind_ok in Hstep as (p&Hp&Hstep). unfold vget in Hp. destruct (e.2 !! 0) as [p'|] eqn:Ep; [|done].
      injection Hp as ->. apply (zoned_set _ _ _ _ _ Hb Hstep). apply Hsame.
      * by eapply Hin, list_elem_of_lookup_2.
      * intros x. rewrite by_rate_perm. apply Hin.
    + revert Hstep. refine (foldM_preserve _ (zoned zone) e.2 b b' _ Hb).
      intros j c c' Hj Hc Hset. apply (zoned_set _ _ _ _ _ Hc Hset). apply Hsame; [by apply Hin|].
      intros x ->%list_elem_of_singleton. by apply Hin.
  - apply bind_ok in Hg as (m&Hm&Hg). unfold vget in Hm. destruct (members !! 0) as [m'|] eqn:Em; [|done].
    injection Hm as ->. apply (zoned_set _ _ _ _ _ Hz Hg). apply Hsame; [by eapply list_elem_of_lookup_2|].
    intros x. rewrite elem_of_app, !by_rate_perm. intros [Hx|Hx].
    + destruct (keep_effect_elem _ _ _ _ Hx) as (e&He&Hxe). by eapply Heff.
    + rewrite merge_sort_Permutation in Hx. apply list_elem_of_In, in_concat in Hx as (l&Hl&Hx).
      apply list_elem_of_In, list_elem_of_fmap in Hl as (e&->&He). case_bool_decide; [done|].
      eapply Heff; [done|]. by apply list_elem_of_In.
Qed.

(** The groups, each with its least position. *)
Record groups_ok (zone : list nat) (groups : list (list nat)) (mins : list nat) : Prop := {
  go_sorted : StronglySorted (<) mins;
  go_bound : Forall (λ m, m < length zone) mins;
  go_groups : Forall2 (λ m g, g ≠ [] ∧ same_zone zone m g) mins groups
}.

Lemma signature_zone k k' : signature_ltb k k' = false → signature_ltb k' k = false → k.1 = k'.1.
Proof. unfold signature_ltb. rewrite !orb_false_iff, !Nat.ltb_ge. lia. Qed.

Lemma group_fault_columns_ok closed first zone options groups :
  group_fault_columns closed first zone options = Ok groups → ∃ mins, groups_ok zone groups mins.
Proof.
  unfold group_fault_columns. destruct (_ && _).
  - intros [= <-]. exists (seq 0 (length zone)). split.
    + apply seq_sorted.
    + apply Forall_seq. lia.
    + apply Forall2_fmap_r, Forall_Forall2_diag, Forall_seq. intros i Hi. split; [done|].
      intros j ->%list_elem_of_singleton. split; [lia|done].
  - intros Hg. apply bind_ok in Hg as (classes&Hc&Hg). apply bind_ok in Hg as (by_first&Hb&[= <-]).
    assert (∀ e, e ∈ classes → e.2 ≠ [] ∧ ∀ j, j ∈ e.2 → zone !! j = Some e.1.1) as Hcls.
    { revert Hc. unfold for_u. refine (foldM_preserve _ (λ m, ∀ e, e ∈ m → e.2 ≠ [] ∧ ∀ j, j ∈ e.2 → zone !! j = Some e.1.1) _ [] classes _ _).
      - intros j m m' _ Hm Hs. apply bind_ok in Hs as (z&Hz&Hs). apply bind_ok in Hs as (rows&_&[= <-]).
        unfold vget in Hz. destruct (zone !! j) as [z'|] eqn:Ez; [|done]. injection Hz as ->.
        apply (map_push_members signature_ltb (λ k x, zone !! x = Some k.1)); [|done|done].
        intros k' H1 H2 Hj. by rewrite <-(signature_zone _ _ H1 H2).
      - intros e He. by apply elem_of_nil in He. }
    assert (zoned zone by_first) as [Hl Hz].
    { revert Hb. refine (foldM_preserve _ (zoned zone) classes _ by_first _ _).
      - intros cls b b' Hin Hzb Hstep. destruct (Hcls cls Hin) as [_ Hz]. by apply (group_class_zoned _ _ _ _ _ _ _ _ Hz Hzb Hstep).
      - split; [by rewrite length_replicate|]. intros i g Hi. apply lookup_replicate in Hi as [-> _].
        intros j Hj. by apply elem_of_nil in Hj. }
    destruct (filter_positions (λ g, g ≠ []) by_first) as (idx&Hs&Hbd&H2). exists idx. split; [done|by rewrite <-Hl|].
    apply Forall2_same_length_lookup. split; [by eapply Forall2_length|]. intros c m g Hm Hgc.
    split; [by apply list_elem_of_lookup_2, list_elem_of_filter in Hgc as [? _]|].
    apply Hz. rewrite Forall2_same_length_lookup in H2. destruct H2 as [_ H2]. by eapply H2.
Qed.

(** ** Commit columns *)

Definition below_count (x : nat) (l : list nat) : nat := length (filter (λ m, m < x) l).

Lemma sorted_below_count l x c m :
  StronglySorted (<) l → l !! c = Some m → c < below_count x l ↔ m < x.
Proof.
  unfold below_count. intros Hs. revert c. induction Hs as [|a l Hs IH Hall]; intros c Hc; [done|].
  rewrite filter_cons. destruct c as [|c].
  - injection Hc as ->. case_decide; [simpl; lia|]. split; [|lia]. intros Hlt. exfalso.
    rewrite filter_const_false in Hlt; [simpl in Hlt; lia|]. intros y Hy. rewrite Forall_forall in Hall. specialize (Hall y Hy). lia.
  - cbn [lookup list_lookup] in Hc. case_decide; [cbn [length]; rewrite <-(IH c Hc); lia|].
    rewrite Forall_forall in Hall. pose proof (Hall m ltac:(by eapply list_elem_of_lookup_2)).
    rewrite filter_const_false; [simpl; lia|]. intros y Hy. specialize (Hall y Hy). lia.
Qed.

(** The zone of a column tells its side of the commit zone [\[fc, lc)]. *)
Record sided (zone : list nat) (fc lc : nat) : Prop := {
  sd_le : fc ≤ lc;
  sd_commit : ∀ j z, zone !! j = Some z → z = 0 ↔ fc ≤ j < lc;
  sd_side : ∀ i j, i < length zone → j < length zone → zone !! i = zone !! j → i < fc ↔ j < fc
}.

Lemma count_commit_spec zone fc lc groups mins commit :
  groups_ok zone groups mins → sided zone fc lc → count_commit groups zone fc = Ok commit →
  cr_begin commit ≤ cr_end commit ∧ cr_end commit ≤ length groups ∧
  ∀ c g f, groups !! c = Some g → head g = Some f →
    f < length zone ∧ (cr_begin commit ≤ c < cr_end commit ↔ fc ≤ f < lc).
Proof.
  intros [Hs Hb H2] [Hle Hz Hside] Hc. unfold count_commit in Hc. apply bind_ok in Hc as ([b e]&Hf&[= <-]).
  cbn [fst snd cr_begin cr_end].
  assert (∀ m g f, m < length zone → g ≠ [] ∧ same_zone zone m g → head g = Some f →
    f < length zone ∧ (f < fc ↔ m < fc) ∧ (zone !! f = Some 0 ↔ fc ≤ m < lc) ∧ (fc ≤ f < lc ↔ fc ≤ m < lc)) as Hfront.
  { intros m g f Hm [_ Hsame] Hg. destruct g as [|f' g]; [done|]. injection Hg as ->.
    destruct (Hsame f) as [Hlt Heq]; [by left|]. destruct (lookup_lt_is_Some_2 zone m Hm) as [z Hzm].
    pose proof (Hz m z Hzm). rewrite Hzm in Heq. pose proof (Hz f z Heq).
    split; [done|]. split; [apply Hside; [done|done|by rewrite Hzm]|]. rewrite Heq. split; [|tauto].
    split; [intros [= ->]; tauto|]. intros ?. f_equal. tauto. }
  assert (∀ mins groups b0 e0, Forall (λ m, m < length zone) mins → Forall2 (λ m g, g ≠ [] ∧ same_zone zone m g) mins groups →
    foldM (λ g st, let '(b, e) := st in
         front ← vget g 0; z ← vget zone front;
         Ok ((if front <? fc then b + 1 else b), (if z =? 0 then e + 1 else e))) groups (b0, e0) = Ok (b, e) →
    b = b0 + below_count fc mins ∧ b + e = b0 + e0 + below_count lc mins) as Hcount.
  { clear Hs Hb H2 Hf mins groups. intros mins groups b0 e0 Hb H2. revert b0 e0.
    induction H2 as [|m g mins groups Hmg H2 IH]; intros b0 e0 Hf; cbn [foldM] in Hf.
    - injection Hf as <- <-. unfold below_count. simpl. lia.
    - apply Forall_cons in Hb as [Hm Hb]. destruct g as [|f g]; [by destruct Hmg|].
      destruct (Hfront m (f :: g) f Hm Hmg eq_refl) as (Hflt&H1&H3&_).
      apply bind_ok in Hf as ([b1 e1]&Hst&Hf). cbn [vget lookup list_lookup mbind res_bind] in Hst.
      destruct (lookup_lt_is_Some_2 zone f Hflt) as [z Hzf]. rewrite (vget_ok _ _ _ Hzf) in Hst. cbn [mbind res_bind] in Hst.
      injection Hst as <- <-. destruct (IH Hb _ _ Hf) as [-> ->]. unfold below_count. rewrite !filter_cons.
      rewrite Hzf in H3. repeat case_decide; destruct (Nat.ltb_spec f fc); destruct (Nat.eqb_spec z 0); cbn [length];
        try lia; exfalso; naive_solver lia. }
  destruct (Hcount mins groups 0 0 Hb H2 Hf) as [Hbe Hee]. rewrite !Nat.add_0_l in *.
  assert (below_count fc mins ≤ below_count lc mins) as Hmono.
  { unfold below_count. clear -Hle. induction mins as [|m l IH]; [done|]. rewrite !filter_cons.
    repeat case_decide; cbn [length]; lia. }
  assert (below_count lc mins ≤ length groups) as Hlen.
  { rewrite <-(Forall2_length _ _ _ H2). unfold below_count. clear. induction mins as [|m l IH]; [done|].
    rewrite filter_cons. case_decide; cbn [length]; lia. }
  split; [lia|]. split; [lia|]. intros c g f Hgc Hg.
  destruct (Forall2_lookup_r _ _ _ _ _ H2 Hgc) as (m&Hm&Hmg).
  assert (m < length zone) as Hmz by (rewrite Forall_forall in Hb; by eapply Hb, list_elem_of_lookup_2).
  destruct (Hfront m g f Hmz Hmg Hg) as (Hflt&_&_&Hfm). split; [done|].
  pose proof (sorted_below_count mins fc c m Hs Hm). pose proof (sorted_below_count mins lc c m Hs Hm). lia.
Qed.

(** ** The rows of a window *)

(** A list of bytes written at distinct positions. *)
Lemma index_window_rows_spec num_rows rows out :
  NoDup rows → index_window_rows num_rows rows = Ok out →
  length out = num_rows ∧ Forall (λ r, r < num_rows) rows ∧
  ∀ r x, out !! r = Some x → x = None ∧ r ∉ rows ∨ ∃ i, x = Some i ∧ rows !! i = Some r.
Proof.
  intros Hnd. unfold index_window_rows, for_u. rewrite Nat.sub_0_r.
  cut (∀ k st, k ≤ length rows → foldM (λ i window_row, r ← vget rows i; vset window_row r (Some i)) (seq 0 k)
    (replicate num_rows None) = Ok st → length st = num_rows ∧ Forall (λ r, r < num_rows) (take k rows) ∧
    ∀ r x, st !! r = Some x → x = None ∧ r ∉ take k rows ∨ ∃ i, i < k ∧ x = Some i ∧ rows !! i = Some r).
  { intros Hc Hf. destruct (Hc (length rows) out (le_n _) Hf) as (H1&H2&H3). rewrite firstn_all in *. split; [done|]. split; [done|].
    intros r x Hx. destruct (H3 r x Hx) as [?|(i&_&?&?)]; [by left|right; by exists i]. }
  induction k as [|k IH]; intros st Hk Hf.
  - cbn in Hf. injection Hf as <-. split; [by rewrite length_replicate|]. split; [constructor|].
    intros r x [-> _]%lookup_replicate. left. split; [done|]. apply not_elem_of_nil.
  - rewrite seq_S, foldM_app in Hf. apply bind_ok in Hf as (st'&Hf&Hst). cbn [foldM Nat.add] in Hst.
    apply bind_ok in Hst as (st2&Hst&[= <-]). apply bind_ok in Hst as (r0&Hr0&Hst).
    unfold vget in Hr0. destruct (rows !! k) as [r0'|] eqn:Ek; [|done]. injection Hr0 as ->.
    destruct (IH st' ltac:(lia) Hf) as (Hl&Hall&Hx). unfold vset in Hst. case_decide as Hlt; [|done]. injection Hst as <-.
    rewrite (take_S_r _ _ _ Ek). split; [by rewrite length_insert|]. split.
    + apply Forall_app. split; [done|]. apply Forall_singleton. lia.
    + intros r x Hrx. destruct (decide (r0 = r)) as [->|Hne].
      * rewrite list_lookup_insert_eq in Hrx by done. injection Hrx as <-. right. exists k. split_and!; [lia|done|done].
      * rewrite list_lookup_insert_ne in Hrx by done. destruct (Hx r x Hrx) as [[-> Hn]|(i&Hi&->&Hri)].
        -- left. split; [done|]. rewrite elem_of_app, list_elem_of_singleton. naive_solver.
        -- right. exists i. split_and!; [lia|done|done].
Qed.
End groups.

(** * Decoding windows: the built model

    What [window_from_dem_chunks] returns, related to the shot: row [i] of the
    window is row [base s + i] of the shot; a commit column is a fault of a
    commit round, with all the rows and observables it has there; every other
    decoder column is a fault of a buffer round, a boundary column on a row of
    the first round, or a fault of the round before that crosses into it. *)

(** ** Rows of the chain and rows of the window *)

Lemma rows_in_window_spec {R} (closed : chain_columns R) num_rows rows window_row c out :
  NoDup rows → (Z.of_nat (length rows) < 2 ^ 32)%Z → index_window_rows num_rows rows = Ok window_row →
  rows_in_window closed window_row c = Ok out →
  ∃ col, cc_rows closed !! c = Some col ∧ length out ≤ length col ∧ Forall (λ i, i < length rows) out ∧
    ∀ i r, rows !! i = Some r → touches out i = touches col r.
Proof.
  intros Hnd Hfit Hw Ho. destruct (index_window_rows_spec _ _ _ Hnd Hw) as (_&_&Hx).
  unfold rows_in_window in Ho. apply bind_ok in Ho as (col&Hcol&Ho). unfold vget in Hcol.
  destruct (cc_rows closed !! c) as [col'|]; [|done]. injection Hcol as ->. exists col. split; [done|].
  cut (∀ acc, Forall (λ i, i < length rows) acc → foldM (λ r out, x ← vget window_row r;
      Ok (match x with Some i => out ++ [u32 i] | None => out end)) col acc = Ok out →
    length out ≤ length acc + length col ∧
    Forall (λ i, i < length rows) out ∧ ∀ i r, rows !! i = Some r → occ i out = occ i acc + occ r col).
  { intros Hc. destruct (Hc [] (Forall_nil_2 _) Ho) as (Hl&Hb&Hocc). split; [done|]. split; [done|]. intros i r Hr.
    unfold touches. by rewrite (Hocc i r Hr). }
  clear Ho. induction col as [|r0 col IH]; intros acc Hacc Hf; cbn [foldM] in Hf.
  - injection Hf as <-. split; [lia|]. split; [done|]. intros. simpl. lia.
  - apply bind_ok in Hf as (acc'&Hs&Hf). apply bind_ok in Hs as (x&Hgx&[= <-]). cbn [length]. unfold vget in Hgx.
    destruct (window_row !! r0) as [x'|] eqn:Er0; [|done]. injection Hgx as ->.
    destruct (Hx r0 x Er0) as [[-> Hno]|(i0&->&Hi0)].
    + destruct (IH _ Hacc Hf) as (Hl&Hb&Hocc). split; [lia|]. split; [done|]. intros i r Hr. rewrite (Hocc i r Hr), occ_cons.
      rewrite decide_False; [done|]. intros ->. apply Hno. by eapply list_elem_of_lookup_2.
    + pose proof (lookup_lt_Some _ _ _ Hi0). rewrite wrap_small in Hf by lia.
      destruct (IH (acc ++ [i0])) as (Hl&Hb&Hocc); [apply Forall_app; split; [done|by apply Forall_singleton]|done|].
      rewrite length_app in Hl. cbn [length] in Hl. split; [lia|]. split; [done|]. intros i r Hr. rewrite (Hocc i r Hr), occ_app, !occ_cons. simpl.
      destruct (decide (i0 = i)) as [->|Hne].
      * rewrite Hi0 in Hr. injection Hr as ->. rewrite !decide_True by done. lia.
      * rewrite (decide_False (P := r0 = r)); [lia|]. intros ->. apply Hne. by eapply NoDup_lookup.
Qed.

Lemma z_range_nat lo hi : z_range (Z.of_nat lo) (Z.of_nat hi) = Z.of_nat <$> seq lo (hi - lo).
Proof.
  unfold z_range. replace (Z.to_nat (Z.of_nat hi - Z.of_nat lo)) with (hi - lo) by lia.
  replace (seq lo (hi - lo)) with (Nat.add lo <$> seq 0 (hi - lo)) by (rewrite fmap_add_seq; f_equal; lia).
  rewrite <-list_fmap_compose. apply list_fmap_ext. intros i x _. simpl. lia.
Qed.

Section build.
Context {R : Type} `{RateOps R}.
Context (t : experiment_template R) (n : nat) (cs : list (extended_dem R)) (Hshot : shot_ok t n cs).
Abbreviation from := (sc_from_seam (spec_seam (t_spec t))).
Abbreviation to := (sc_to_seam (spec_seam (t_spec t))).
Abbreviation base := (base to cs).
Abbreviation fb := (faults_before cs).
Abbreviation N := (Z.of_nat n).

Lemma chunks_between_eq lo hi out :
  lo ≤ hi ≤ n → chunks_between t n (Z.of_nat lo) (Z.of_nat hi) = Ok out → out = slice cs lo hi.
Proof.
  intros Hhi Hc. unfold chunks_between in Hc. rewrite z_range_nat in Hc. apply map_res_forall2 in Hc.
  pose proof (Forall2_length _ _ _ Hc) as Hl. rewrite length_fmap, length_seq in Hl.
  pose proof (so_length _ _ _ Hshot) as Hlen.
  apply list_eq_same_length with (hi - lo); [by rewrite length_slice_le by lia|lia|].
  intros i x y Hi Hx Hy. destruct (Forall2_lookup_r _ _ _ _ _ Hc Hx) as (z&Hz&Hzx).
  rewrite list_lookup_fmap, lookup_seq_lt in Hz by done. injection Hz as <-.
  rewrite lookup_part in Hy by done. pose proof (so_small _ _ _ Hshot).
  rewrite to_size_nat, (so_chunk _ _ _ Hshot), (vget_ok _ _ _ Hy) in Hzx by lia. by injection Hzx.
Qed.

(** ** Zones of columns *)

Lemma column_zones_spec bufs s e zone :
  s ≤ e ≤ n → column_zones (col_from t n (Z.of_nat s)) bufs (Z.of_nat s) (Z.of_nat e) = Ok zone →
  length zone = fb e - fb s ∧
  ∀ r g, s ≤ r < e → in_col cs r g → zone !! (g - fb s) = Some (zone_of_round bufs (Z.of_nat r)).
Proof.
  intros He. unfold column_zones. rewrite z_range_nat.
  cut (∀ k zone, s + k ≤ e → foldM (λ r zone, c ← col_from t n (Z.of_nat s) (r + 1)%Z; Ok (resize c (zone_of_round bufs r) zone))
      (Z.of_nat <$> seq s k) [] = Ok zone →
    length zone = fb (s + k) - fb s ∧
    ∀ r g, s ≤ r < s + k → in_col cs r g → zone !! (g - fb s) = Some (zone_of_round bufs (Z.of_nat r))).
  { intros Hc Hf. destruct (Hc (e - s) zone ltac:(lia) Hf) as [Hl Hz]. replace (s + (e - s)) with e in * by lia. done. }
  induction k as [|k IH]; intros zone' Hk Hf.
  - injection Hf as <-. rewrite Nat.add_0_r. split; [simpl; lia|lia].
  - rewrite seq_S, fmap_app, foldM_app in Hf. apply bind_ok in Hf as (zone0&Hf0&Hf). cbn [fmap list_fmap foldM] in Hf.
    apply bind_ok in Hf as (zone1&Hs&[= <-]).
    replace (Z.of_nat (s + k) + 1)%Z with (Z.of_nat (s + S k)) in Hs by lia.
    rewrite (col_from_eq t n cs Hshot) in Hs by lia. cbn [mbind res_bind] in Hs. injection Hs as <-.
    destruct (IH zone0 ltac:(lia) Hf0) as [Hl Hz].
    pose proof (fb_mono cs s (s + k) ltac:(lia)). pose proof (fb_mono cs (s + k) (s + S k) ltac:(lia)).
    split; [by rewrite length_resize|]. intros r g Hr [Hg1 Hg2].
    destruct (decide (r = s + k)) as [->|].
    + rewrite Nat.add_succ_r in *. rewrite lookup_resize_new by lia. done.
    + pose proof (fb_mono cs s r ltac:(lia)). pose proof (fb_mono cs (S r) (s + k) ltac:(lia)).
      rewrite lookup_resize by lia. apply Hz; [lia|]. split; lia.
Qed.

(** ** Matrices *)

Lemma built_matrix r c nested m0 m :
  (Z.of_nat r < 2 ^ 32)%Z → (Z.of_nat (c + 1) < 2 ^ 32)%Z → (Z.of_nat (length (concat nested)) < 2 ^ 64)%Z →
  from_nested_csc r c nested = Ok m0 → canonicalize m0 = Ok m →
  model_cols m (canon <$> nested) ∧ num_rows_ m = r ∧ num_cols_ m = c ∧ length nested = c.
Proof.
  intros Hr Hc Hz H0 Hm. pose proof (from_nested_csc_decides r c nested Hc Hz) as [[Hok E]|[_ [msg E]]]; [|congruence].
  rewrite E in H0. injection H0 as <-. destruct Hok as (Hl&Hn&Hb).
  assert (wf (of_groups csc r c nested) nested) as Hwf by (apply wf_of_groups; done || lia).
  rewrite (canonicalize_spec _ _ Hwf) in Hm. injection Hm as <-.
  pose proof (wf_canon _ _ Hwf) as Hwf'. unfold with_groups in *. cbn [layout_ of_groups num_rows_ num_cols_] in *.
  split; [|done]. split; [apply Hwf'|by rewrite length_fmap|].
  exact (wf_bound _ _ Hwf').
Qed.

Lemma concat_small (l : list (list nat)) (B W : Z) :
  Forall (λ x, Z.of_nat (length x) ≤ B)%Z l → (0 ≤ B)%Z → (Z.of_nat (length l) ≤ W)%Z → (Z.of_nat (length (concat l)) ≤ B * W)%Z.
Proof.
  intros Hl HB. revert W. induction Hl as [|x l Hx _ IH]; intros W HW; cbn [concat length] in *; [nia|].
  rewrite length_app. specialize (IH (W - 1)%Z ltac:(lia)). nia.
Qed.

Lemma window_rows_eq a x y z :
  (z = 0 ∧ y = 0) ∨ (y = x ∧ x ≤ z) → ∃ len, len = (if decide (z = 0) then x else z) ∧
  window_rows_of a x y z = Nat.add a <$> seq 0 len.
Proof.
  intros Hyz. eexists. split; [done|]. unfold window_rows_of. rewrite <-fmap_app. f_equal.
  destruct Hyz as [[-> ->]|[-> Hle]].
  - rewrite decide_True by done. simpl. by rewrite app_nil_r.
  - case_decide; [subst; assert (x = 0) as -> by lia; done|]. replace z with (x + (z - x)) at 2 by lia. by rewrite seq_app.
Qed.

(** ** The closed chain of a window *)

Definition num_obs : nat := from_option (λ c, num_rows_ (e_O c)) 0 (head cs).

Record closed_part (l h : nat) (closed : chain_columns R) : Prop := {
  cp_rows : cc_num_rows closed = base h - base l;
  cp_obs : cc_num_observables closed = num_obs;
  cp_row_cols : length (cc_rows closed) = fb h - fb l;
  cp_obs_cols : length (cc_observables closed) = fb h - fb l;
  cp_col : ∀ j col, cc_rows closed !! j = Some col →
    length col ≤ base h - base l ∧ ∀ x, x < base h - base l → touches col x = hit t cs (fb l + j) (base l + x);
  cp_obs_col : ∀ j o, cc_observables closed !! j = Some o →
    (Z.of_nat (length o) < 2 ^ 32)%Z ∧ ∀ x, touches o x = touches (obs_at cs (fb l + j)) x
}.

Lemma touches_below_limit limit col x : x < limit → touches (below_limit limit col) x = touches col x.
Proof. intros Hx. unfold touches, below_limit. by rewrite occ_filter, decide_True. Qed.

Lemma touches_perm col col' x : col ≡ₚ col' → touches col x = touches col' x.
Proof. intros Hp. unfold touches. by rewrite (occ_perm x _ _ Hp). Qed.

Lemma obs_rows_const i c : cs !! i = Some c → num_rows_ (e_O c) = num_obs.
Proof.
  intros Hc. unfold num_obs. destruct cs as [|c0 cs'] eqn:E; [done|]. cbn [head from_option].
  rewrite <-E in *. apply (chain_rows_obs from to cs c0 c); [apply Hshot|by rewrite E|by eapply list_elem_of_lookup_2].
Qed.

Lemma obs_col_small c o : c ∈ cs → o ∈ obs_cols c → (Z.of_nat (length o) < 2 ^ 32)%Z.
Proof.
  intros Hc Ho. destruct (so_fits _ _ _ Hshot) as [_ _ _ Fo]. unfold obs_cols in Ho.
  destruct (_ =? 0); [apply elem_of_replicate in Ho as [-> _]; simpl; lia|].
  assert (length o ≤ nnz (cols_of (e_O c))) as H1.
  { apply list_elem_of_split in Ho as (l1&l2&->). rewrite nnz_app, nnz_cons. lia. }
  assert (nnz (cols_of (e_O c)) ≤ sum_list_with (λ c, nnz (cols_of (e_O c))) cs) as H2.
  { apply list_elem_of_split in Hc as (l1&l2&->). rewrite sum_list_with_app. cbn [sum_list_with]. lia. }
  lia.
Qed.

Lemma close_part l h closed :
  l < h ≤ n → close_columns (slice cs l h) from to = Ok closed → closed_part l h closed.
Proof.
  intros Hlh Hc. pose proof (so_length _ _ _ Hshot) as Hlen. pose proof (so_seams _ _ _ Hshot) as Hne.
  assert (chain_ok from to (slice cs l h)) as Hch by (apply chain_ok_slice, Hshot).
  assert (chain_fits (slice cs l h)) as Hf by (apply (chain_fits_slice from to Hne), Hshot).
  pose proof (length_slice_le cs l h ltac:(lia) ltac:(lia)) as Hsl.
  pose proof (ch_chunks _ _ _ (so_chain _ _ _ Hshot)) as Hall.
  assert (total_offset to (slice cs l h) = base h - base l) as Ht.
  { pose proof (sum_slice (offset_rows to) cs l h ltac:(lia)) as Hs. unfold ExtendedAll.base, total_offset in *. lia. }
  assert (sum_list_with (λ c, length (e_error_rates c)) (slice cs l h) = fb h - fb l) as Hfl.
  { pose proof (sum_slice (λ c, length (e_error_rates c)) cs l h ltac:(lia)) as Hs. unfold faults_before. lia. }
  pose proof (length_chain_cols from to 0 _ (ch_chunks _ _ _ Hch)) as Hlc.
  pose proof (length_obs from to _ (ch_chunks _ _ _ Hch)) as Hlo.
  assert (∃ c0 rest, slice cs l h = c0 :: rest) as (c0&rest&E).
  { destruct (slice cs l h) as [|c0 rest]; [simpl in Hsl; lia|]. eauto. }
  pose proof (close_columns_eq from to Hne c0 rest) as Hcl. rewrite <-E in Hcl. rewrite (Hcl Hch Hf) in Hc. injection Hc as <-.
  split; cbn [cc_num_rows cc_num_observables cc_rows cc_observables].
  - exact Ht.
  - apply (obs_rows_const l). replace l with (l + 0) by lia. rewrite <-(lookup_part cs l h) by lia. by rewrite E.
  - by rewrite !length_fmap, Hlc.
  - by rewrite length_fmap, Hlo.
  - intros j col Hj. rewrite Ht in Hj. assert (j < fb h - fb l) as Hlt.
    { apply lookup_lt_Some in Hj. by rewrite !length_fmap, Hlc, Hfl in Hj. }
    destruct (slice_col from to Hne cs l h j Hall) as [Hcol Hshift]; [lia|lia|].
    rewrite !list_lookup_fmap, Hcol in Hj. injection Hj as <-. split.
    + destruct (canon_spec (col_at from to (slice cs l h) j)) as [Hs _]. apply sorted_lt_nodup in Hs.
      assert (NoDup (below_limit (base h - base l) (canon (col_at from to (slice cs l h) j)))) as Hnd by (by apply NoDup_filter).
      rewrite <-(length_seq (base h - base l) 0) at 2. apply submseteq_length, NoDup_submseteq; [done|].
      intros x [Hx _]%list_elem_of_filter. apply elem_of_seq. lia.
    + intros x Hx. rewrite touches_below_limit, touches_canon by done. unfold hit.
      rewrite Hshift, touches_shift, decide_True by lia. f_equal. lia.
  - intros j o Hj. assert (j < fb h - fb l) as Hlt.
    { apply lookup_lt_Some in Hj. by rewrite length_fmap, Hlo, Hfl in Hj. }
    pose proof (slice_obs from to Hne cs l h j Hall ltac:(lia) ltac:(lia)) as Hobs.
    apply list_lookup_fmap_Some in Hj as (o0&->&Hj). rewrite Hobs in Hj. injection Hj as <-.
    assert (obs_at cs (fb l + j) ∈ slice cs l h ≫= obs_cols) as Hin by (by eapply list_elem_of_lookup_2).
    apply list_elem_of_bind in Hin as (c&Hoc&Hcin).
    rewrite merge_sort_Permutation. split.
    + apply (obs_col_small c); [|done]. unfold slice in Hcin. apply list_elem_of_lookup in Hcin as (i&Hi).
      apply lookup_take_Some in Hi as [Hi _]. rewrite lookup_drop in Hi. by eapply list_elem_of_lookup_2.
    + intros x. apply touches_perm, merge_sort_Permutation.
Qed.
End build.

(** * Decoding windows: the construction, end to end

    [window_built] collects what the run of a shot needs of a window;
    [window_from_dem_chunks] establishes it. *)

Section built.
Context {R : Type} `{RateOps R}.
Context (t : experiment_template R) (n : nat) (cs : list (extended_dem R)) (Hshot : shot_ok t n cs).
Abbreviation from := (sc_from_seam (spec_seam (t_spec t))).
Abbreviation to := (sc_to_seam (spec_seam (t_spec t))).
Abbreviation base := (base to cs).
Abbreviation fb := (faults_before cs).
Abbreviation N := (Z.of_nat n).

Record window_built (q : window_request R) ref k (w : decoding_window R) (s e cb ce ie : nat)
    (hcols ocols : list (list nat)) : Prop := {
  wb_placed : placed_ok t n cs q ref k (dw_placed w) s e cb ce ie;
  wb_own : dw_num_own_rows w = base e - base s;
  wb_rows : num_rows_ (wm_h (dw_model w)) = base ie - base s;
  wb_obs : num_rows_ (wm_o (dw_model w)) = num_obs cs;
  wb_run : runnable w hcols ocols;
  wb_commit : ∀ c, cr_begin (dw_commit_columns w) ≤ c < cr_end (dw_commit_columns w) →
    ∃ f g, dw_fault_column_sources w !! c = Some g ∧ head g = Some f ∧ fb cb ≤ fb s + f < fb ce ∧
      (∀ i, i < base ie - base s → touches (default [] (hcols !! c)) i = hit t cs (fb s + f) (base s + i)) ∧
      (∀ o, touches (default [] (ocols !! c)) o = touches (obs_at cs (fb s + f)) o);
  wb_other : ∀ c i, c < num_cols_ (wm_h (dw_model w)) →
    ¬ (cr_begin (dw_commit_columns w) ≤ c < cr_end (dw_commit_columns w)) →
    i < base ie - base s → touches (default [] (hcols !! c)) i = true →
    (∃ r g, s ≤ r < e ∧ ¬ (cb ≤ r < ce) ∧ in_col cs r g ∧ hit t cs g (base s + i) = true) ∨
    (wp_exists (pw_input (dw_placed w)) = true ∧ wp_disposition (pw_input (dw_placed w)) = port_open ∧
      wp_boundary (pw_input (dw_placed w)) ≠ truncate ∧ base s + i < base (S s)) ∨
    (wp_exists (pw_input (dw_placed w)) = true ∧ wp_disposition (pw_input (dw_placed w)) = port_open ∧
      wp_boundary (pw_input (dw_placed w)) = truncate ∧ 0 < s ∧
      ∃ g, in_col cs (s - 1) g ∧ hit t cs g (base s + i) = true)
}.

(** ** One column of the model *)

Section column.
Context (l h s : nat) (closed : chain_columns R) (len : nat) (wr : list (option nat)) (Hcp : closed_part t cs l h closed) (Hl : l ≤ s) (Hlen : base s + len ≤ base h).
Context (Hwr : index_window_rows (cc_num_rows closed) (Nat.add (base s - base l) <$> seq 0 len) = Ok wr).
Context (Hsmall : (Z.of_nat len < 2 ^ 32)%Z).

Lemma chain_column j out :
  rows_in_window closed wr j = Ok out →
  j < fb h - fb l ∧ length out ≤ base h - base l ∧ Forall (λ i, i < len) out ∧
  ∀ i, i < len → touches out i = hit t cs (fb l + j) (base s + i).
Proof.
  intros Ho. pose proof (base_mono t cs l s Hl) as Hb.
  assert (NoDup (Nat.add (base s - base l) <$> seq 0 len)) as Hnd by (apply NoDup_fmap_2; [intros ???; lia|apply NoDup_seq]).
  assert (length (Nat.add (base s - base l) <$> seq 0 len) = len) as Hln by (by rewrite length_fmap, length_seq).
  destruct (rows_in_window_spec closed _ _ _ j out Hnd ltac:(by rewrite Hln) Hwr Ho) as (col&Hcol&Hlo&Hbd&Ht).
  rewrite Hln in Hbd. destruct (cp_col _ _ _ _ _ Hcp j col Hcol) as [Hcl Hct].
  split; [rewrite <-(cp_row_cols _ _ _ _ _ Hcp); by eapply lookup_lt_Some|]. split; [lia|]. split; [done|].
  intros i Hi. rewrite (Ht i (base s - base l + i)) by (rewrite list_lookup_fmap, lookup_seq_lt by done; done).
  rewrite Hct by lia. f_equal. lia.
Qed.

Lemma fault_column_spec g x :
  fb s ≤ fb h → fb l ≤ fb s → fault_column closed wr (fb s - fb l) g = Ok x →
  ∃ f, head g = Some f ∧ length x.1.1 ≤ base h - base l ∧ Forall (λ i, i < len) x.1.1 ∧
    (∀ i, i < len → touches x.1.1 i = hit t cs (fb s + f) (base s + i)) ∧
    (Z.of_nat (length x.1.2) < 2 ^ 32)%Z ∧ (∀ o, touches x.1.2 o = touches (obs_at cs (fb s + f)) o).
Proof.
  intros Hsh Hls Hf. unfold fault_column in Hf. apply bind_ok in Hf as (f&Hgf&Hf). apply bind_ok in Hf as (hc&Hh&Hf).
  apply bind_ok in Hf as (o&Ho&Hf). apply bind_ok in Hf as (p&_&[= <-]). cbn [fst snd].
  exists f. unfold vget in Hgf, Ho. destruct g as [|f' g]; [done|]. injection Hgf as ->. split; [done|].
  destruct (chain_column _ _ Hh) as (_&H1&H2&H3). split; [done|]. split; [done|].
  replace (fb l + (fb s - fb l + f)) with (fb s + f) in H3 by lia. split; [done|].
  destruct (cc_observables closed !! _) as [o'|] eqn:Eo; [|done]. injection Ho as ->.
  destruct (cp_obs_col _ _ _ _ _ Hcp _ _ Eo) as [H4 H5].
  by replace (fb l + (fb s - fb l + f)) with (fb s + f) in H5 by lia.
Qed.

Lemma crossing_column_spec c x :
  crossing_column closed wr c = Ok x →
  length x.1.1 ≤ base h - base l ∧ Forall (λ i, i < len) x.1.1 ∧
  (∀ i, i < len → touches x.1.1 i = hit t cs (fb l + c) (base s + i)) ∧ (Z.of_nat (length x.1.2) < 2 ^ 32)%Z.
Proof.
  intros Hf. unfold crossing_column in Hf. apply bind_ok in Hf as (hc&Hh&Hf).
  apply bind_ok in Hf as (o&Ho&Hf). apply bind_ok in Hf as (p&_&[= <-]). cbn [fst snd].
  destruct (chain_column _ _ Hh) as (_&H1&H2&H3). split; [done|]. split; [done|]. split; [done|].
  unfold vget in Ho. destruct (cc_observables closed !! _) as [o'|] eqn:Eo; [|done]. injection Ho as ->.
  by destruct (cp_obs_col _ _ _ _ _ Hcp _ _ Eo) as [H4 _].
Qed.
End column.

Lemma crossing_list (closed : chain_columns R) wr k out :
  foldM (λ c out, x ← rows_in_window closed wr c; Ok (if bool_decide (x = []) then out else out ++ [c])) (seq 0 k) [] = Ok out →
  length out ≤ k ∧ Forall (λ c, c < k) out.
Proof.
  revert out. induction k as [|k IH]; intros out Hf; [injection Hf as <-; split; [simpl; lia|constructor]|].
  rewrite seq_S, foldM_app in Hf. apply bind_ok in Hf as (o1&H1&Hf). cbn [foldM] in Hf.
  apply bind_ok in Hf as (o2&Hs&[= <-]). apply bind_ok in Hs as (x&_&[= <-]).
  destruct (IH o1 H1) as [Hl Hb]. assert (Forall (λ c, c < S k) o1) as Hb' by (eapply Forall_impl; [exact Hb|]; simpl; lia).
  case_bool_decide; [split; [lia|done]|]. rewrite length_app. simpl. split; [lia|]. apply Forall_app. split; [done|].
  apply Forall_singleton. lia.
Qed.

Lemma num_obs_small : (Z.of_nat (num_obs cs) < 2 ^ 32)%Z.
Proof.
  unfold num_obs. destruct cs as [|c l] eqn:E; [simpl; lia|]. cbn [head from_option].
  assert (chunk_ok from to c) as Hok by (pose proof (ch_chunks _ _ _ (so_chain _ _ _ Hshot)) as Ha; by inversion Ha).
  destruct (ty_O c (ok_typed _ _ c Hok)) as [[gs Hwf]| ->]; [apply (wf_rows _ _ Hwf)|simpl; lia].
Qed.

(** The zone of a column, by its round. *)
Lemma zones_sided q ref k pw s e cb ce ie zone :
  placed_ok t n cs q ref k pw s e cb ce ie →
  column_zones (col_from t n (Z.of_nat s)) (pw_buffers pw) (Z.of_nat s) (Z.of_nat e) = Ok zone →
  length zone = fb e - fb s ∧ sided zone (fb cb - fb s) (fb ce - fb s).
Proof.
  intros Hpk Hz. destruct (pk_bounds _ _ _ _ _ _ _ _ _ _ _ _ Hpk) as (B1&B2&B3&B4&B5).
  destruct (column_zones_spec t n cs Hshot _ s e zone ltac:(lia) Hz) as [Hl Hlk]. split; [done|].
  pose proof (fb_mono cs s cb ltac:(lia)). pose proof (fb_mono cs cb ce ltac:(lia)). pose proof (fb_mono cs ce e ltac:(lia)).
  assert (∀ j, j < length zone → ∃ r, s ≤ r < e ∧ in_col cs r (fb s + j) ∧ zone !! j = Some (zone_of_round (pw_buffers pw) (Z.of_nat r))) as Hr.
  { intros j Hj. destruct (col_round cs s e (fb s + j)) as (r&Hr&Hg); [lia|lia|]. exists r. split; [done|]. split; [done|].
    rewrite <-(Hlk r (fb s + j) Hr Hg). f_equal. lia. }
  assert (∀ r g x, in_col cs r g → fb x ≤ g ↔ x ≤ r) as Hside.
  { intros r g x [Hg1 Hg2]. split.
    - intros Hx. destruct (decide (x ≤ r)); [done|]. pose proof (fb_mono cs (S r) x). lia.
    - intros Hx. pose proof (fb_mono cs x r). lia. }
  split; [lia| |].
  - intros j z Hj. destruct (Hr j) as (r&Hrb&Hg&Hzr); [by eapply lookup_lt_Some|]. rewrite Hj in Hzr. injection Hzr as ->.
    rewrite (pk_zone _ _ _ _ _ _ _ _ _ _ _ _ Hpk r Hrb). pose proof (Hside r _ cb Hg). pose proof (Hside r _ ce Hg). lia.
  - intros i j Hi Hj Heq. destruct (Hr i Hi) as (r&Hrb&Hg&Hzr). destruct (Hr j Hj) as (r'&Hrb'&Hg'&Hzr').
    rewrite Hzr, Hzr' in Heq. injection Heq as Heq.
    pose proof (pk_side _ _ _ _ _ _ _ _ _ _ _ _ Hpk r r' Hrb Hrb' Heq).
    pose proof (Hside r _ cb Hg). pose proof (Hside r' _ cb Hg'). lia.
Qed.

(** Where a column of the model comes from. *)
Lemma lookup_parts {A} (l1 l2 l3 : list A) c x :
  (l1 ++ l2 ++ l3) !! c = Some x →
  l1 !! c = Some x ∨ (length l1 ≤ c ∧ l2 !! (c - length l1) = Some x) ∨ (length l1 + length l2 ≤ c ∧ x ∈ l3).
Proof.
  intros Hx. apply lookup_app_Some in Hx as [?|[Hge Hx]]; [by left|]. right.
  apply lookup_app_Some in Hx as [?|[Hge' Hx]]; [by left|]. right. split; [lia|]. by eapply list_elem_of_lookup_2.
Qed.

Lemma window_from_dem_chunks_built q ref k w m2o :
  ref_template ref = t → window_from_dem_chunks (Some ref) q k n m2o = Ok w →
  ∃ s e cb ce ie hcols ocols, window_built q ref k w s e cb ce ie hcols ocols.
Proof.
  intros Href Hw. unfold window_from_dem_chunks in Hw. apply bind_ok in Hw as (pw&Hpw&Hw). cbv zeta in Hw. rewrite Href in Hw.
  destruct (place_window_spec t n cs Hshot ref q k pw Href Hpw) as (z&s&e&cb&ce&ie&Hq&Hpk).
  rewrite (pk_rounds _ _ _ _ _ _ _ _ _ _ _ _ Hpk), (pk_commit _ _ _ _ _ _ _ _ _ _ _ _ Hpk) in Hw. cbn [rr_begin rr_end] in Hw.
  destruct (pk_bounds _ _ _ _ _ _ _ _ _ _ _ _ Hpk) as (B1&B2&B3&B4&B5).
  set (open_input := wp_exists (pw_input pw) && bool_decide (wp_disposition (pw_input pw) = port_open)) in Hw.
  set (truncated := open_input && bool_decide (wp_boundary (pw_input pw) = truncate)) in Hw.
  assert (∃ l, (if truncated then (Z.of_nat s - 1)%Z else Z.of_nat s) = Z.of_nat l ∧ l ≤ s ∧
    ((truncated = true ∧ 0 < s ∧ l = s - 1) ∨ (truncated = false ∧ l = s))) as (l&El&Hls&Htr).
  { destruct truncated eqn:E; [|exists s; split; [done|]; split; [lia|by right]].
    unfold truncated, open_input in E. rewrite !andb_true_iff, (pk_input _ _ _ _ _ _ _ _ _ _ _ _ Hpk), Nat.ltb_lt in E.
    exists (s - 1). split; [lia|]. split; [lia|]. left. naive_solver lia. }
  rewrite El in Hw. set (imports := wp_imports (pw_output pw)) in Hw.
  assert (∃ h, ((N `min` (Z.of_nat e + Z.of_nat (t_max_span t))) `max` rr_end imports)%Z = Z.of_nat h ∧ ie ≤ h ≤ n) as (h&Eh&Hh).
  { pose proof (pk_imports _ _ _ _ _ _ _ _ _ _ _ _ Hpk) as Hi. fold imports in Hi.
    exists (Z.to_nat ((N `min` (Z.of_nat e + Z.of_nat (t_max_span t))) `max` rr_end imports)).
    destruct Hi as [(_&Hi&->)|[-> Hi]]; cbn [rr_end] in *; lia. }
  rewrite Eh in Hw. pose proof (base_mono t cs l s Hls) as Mls. pose proof (fb_mono cs l s Hls) as Fls.
  pose proof (base_mono t cs s e ltac:(lia)) as Mse. pose proof (base_mono t cs e ie ltac:(lia)) as Mei.
  pose proof (base_mono t cs ie h ltac:(lia)) as Mih. pose proof (base_mono t cs h n ltac:(lia)) as Mhn.
  pose proof (fb_mono cs s e ltac:(lia)) as Fse. pose proof (fb_mono cs e h ltac:(lia)) as Feh. pose proof (fb_mono cs h n ltac:(lia)) as Fhn.
  pose proof (so_sizes _ _ _ Hshot) as Hsz. pose proof num_obs_small as Hos.
  (* offsets *)
  rewrite (row_offset_z t n cs Hshot s) in Hw by lia. cbn [mbind res_bind] in Hw.
  rewrite (row_offset_z t n cs Hshot l) in Hw by lia. cbn [mbind res_bind] in Hw.
  rewrite (column_offset_z t n cs Hshot s) in Hw by lia. cbn [mbind res_bind] in Hw.
  rewrite (column_offset_z t n cs Hshot l) in Hw by lia. cbn [mbind res_bind] in Hw.
  rewrite !u64_sub_le in Hw by lia.
  apply bind_ok in Hw as (chunks&Hch&Hw). apply (chunks_between_eq t n cs Hshot) in Hch; [|lia]. subst chunks.
  apply bind_ok in Hw as (closed&Hcl&Hw). apply (close_part t n cs Hshot) in Hcl; [|lia].
  rewrite (row_from_eq t n cs Hshot) in Hw by lia. cbn [mbind res_bind] in Hw.
  apply bind_ok in Hw as (ib&Hib&Hw). apply bind_ok in Hw as (ie'&Hie&Hw).
  assert (window_rows_of (base s - base l) (base e - base s) ib ie' = Nat.add (base s - base l) <$> seq 0 (base ie - base s)) as Hrows.
  { pose proof (pk_imports _ _ _ _ _ _ _ _ _ _ _ _ Hpk) as Hi. fold imports in Hi.
    assert ((ie' = 0 ∧ ib = 0 ∧ ie = e) ∨ (ib = base e - base s ∧ ie' = base ie - base s)) as Hcase.
    { destruct Hi as [(Hemp&_&->)|[Him Hlt]].
      - rewrite Hemp in Hib, Hie. injection Hib as <-. injection Hie as <-. by left.
      - assert (empty_range imports = false) as Hne by (rewrite Him; apply empty_range_false; unfold nonempty; cbn; lia).
        rewrite Hne, Him in Hib, Hie. cbn [rr_begin rr_end] in Hib, Hie.
        rewrite (row_from_eq t n cs Hshot) in Hib, Hie by lia. injection Hib as <-. injection Hie as <-. by right. }
    destruct (window_rows_eq (base s - base l) (base e - base s) ib ie') as (len&->&->); [naive_solver lia|].
    do 2 f_equal. destruct Hcase as [(->&_&->)|[-> ->]]; case_decide; lia. }
  rewrite Hrows in Hw. rewrite length_fmap, length_seq in Hw.
  apply bind_ok in Hw as (wr&Hwr&Hw). apply bind_ok in Hw as (zone&Hzone&Hw).
  destruct (zones_sided _ _ _ _ _ _ _ _ _ _ Hpk Hzone) as [Hzl Hsided].
  apply bind_ok in Hw as (groups&Hgr&Hw). destruct (group_fault_columns_ok _ _ _ _ _ Hgr) as (mins&Hgo).
  apply bind_ok in Hw as (crossing&Hcr&Hw). destruct (crossing_list _ _ _ _ Hcr) as [Hcrl Hcrb].
  rewrite (col_from_eq t n cs Hshot) in Hw by lia. cbn [mbind res_bind] in Hw.
  apply bind_ok in Hw as (nv&Hnv&Hw).
  assert (nv ≤ base (S s) - base s ∧ (0 < nv → open_input = true ∧ truncated = false)) as [Hnvb Hnvo].
  { destruct (open_input && negb truncated) eqn:E.
    - replace (Z.of_nat s + 1)%Z with (Z.of_nat (S s)) in Hnv by lia.
      rewrite (row_from_eq t n cs Hshot) in Hnv by lia. injection Hnv as <-. split; [lia|]. intros _.
      by rewrite andb_true_iff, negb_true_iff in E.
    - injection Hnv as <-. split; lia. }
  set (nk := if open_input && negb truncated then t_num_observables t else 0) in Hw.
  assert (nk ≤ t_num_observables t) as Hnk by (unfold nk; destruct (open_input && negb truncated); lia).
  apply bind_ok in Hw as (commit&Hcm&Hw).
  destruct (count_commit_spec _ _ _ _ _ _ Hgo Hsided Hcm) as (Hcm1&Hcm2&Hcm3).
  apply bind_ok in Hw as (fault&Hfa&Hw). apply map_res_forall2 in Hfa.
  apply bind_ok in Hw as (cross&Hcx&Hw). apply map_res_forall2 in Hcx.
  pose proof (Forall2_length _ _ _ Hfa) as Lf. pose proof (Forall2_length _ _ _ Hcx) as Lc.
  assert (length groups ≤ fb e - fb s) as Hgl.
  { rewrite <-(Forall2_length _ _ _ (go_groups _ _ _ Hgo)), <-Hzl, <-(length_seq (length zone) 0).
    apply submseteq_length, NoDup_submseteq; [apply sorted_lt_nodup, Hgo|]. intros x Hx. apply elem_of_seq.
    pose proof (go_bound _ _ _ Hgo) as Hb. rewrite Forall_forall in Hb. specialize (Hb x Hx). lia. }
  assert (base (S s) ≤ base e) as Mss by (apply (base_mono t cs); lia).
  assert (Z.of_nat (base ie - base s) < 2 ^ 32)%Z as Hlen32 by lia.
  assert (base s + (base ie - base s) ≤ base h) as Hfit by lia.
  assert (∀ c x, fault !! c = Some x → ∃ g f, groups !! c = Some g ∧ head g = Some f ∧
    length x.1.1 ≤ base h - base l ∧ Forall (λ i, i < base ie - base s) x.1.1 ∧
    (∀ i, i < base ie - base s → touches x.1.1 i = hit t cs (fb s + f) (base s + i)) ∧
    (Z.of_nat (length x.1.2) < 2 ^ 32)%Z ∧ (∀ o, touches x.1.2 o = touches (obs_at cs (fb s + f)) o)) as Hfs.
  { intros c x Hx. destruct (Forall2_lookup_r _ _ _ _ _ Hfa Hx) as (g&Hg&Hgx). exists g.
    destruct (fault_column_spec l h s closed _ wr Hcl Hls Hfit Hwr Hlen32 g x) as (f&?); [lia|lia|done|]. by exists f. }
  assert (∀ x, x ∈ cross → ∃ c, c < fb s - fb l ∧ length x.1.1 ≤ base h - base l ∧
    Forall (λ i, i < base ie - base s) x.1.1 ∧
    (∀ i, i < base ie - base s → touches x.1.1 i = hit t cs (fb l + c) (base s + i)) ∧
    (Z.of_nat (length x.1.2) < 2 ^ 32)%Z) as Hxs.
  { intros x [j Hx]%list_elem_of_lookup. destruct (Forall2_lookup_r _ _ _ _ _ Hcx Hx) as (c&Hc&Hcx'). exists c.
    rewrite Forall_forall in Hcrb. split; [by eapply Hcrb, list_elem_of_lookup_2|].
    by apply (crossing_column_spec l h s closed _ wr Hcl Hls Hfit Hwr Hlen32). }
  set (hl := ((λ x, x.1.1) <$> fault) ++ ((λ j, [u32 j]) <$> seq 0 nv) ++ ((λ x, x.1.1) <$> cross)) in Hw.
  set (ol := ((λ x, x.1.2) <$> fault) ++ replicate nv [] ++ ((λ x, x.1.2) <$> cross) ++ ((λ o, [u32 o]) <$> seq 0 nk)) in Hw.
  set (width := length groups + nv + length crossing) in Hw.
  assert (length hl = width) as Lh.
  { unfold hl, width. rewrite !length_app, !length_fmap, length_seq. lia. }
  assert (length ol = width + nk) as Lo.
  { unfold ol, width. rewrite !length_app, !length_fmap, !length_seq, length_replicate. lia. }
  assert (Z.of_nat (width + nk + 1) < 2 ^ 32)%Z as Hw32 by (unfold width; lia).
  rewrite (cp_obs _ _ _ _ _ Hcl), !wrap_small in Hw by lia.
  assert (Z.of_nat (length (concat hl)) < 2 ^ 64)%Z as Chl.
  { eapply Z.le_lt_trans; [apply (concat_small hl (2 ^ 32) (2 ^ 32 - 1)); [|lia|lia]|lia]. unfold hl. rewrite !Forall_app. split_and!.
    - apply Forall_fmap, Forall_forall. intros x [j Hx]%list_elem_of_lookup. cbn. destruct (Hfs j x Hx) as (g&f&_&_&?&_). lia.
    - apply Forall_fmap, Forall_forall. intros x _. cbn. lia.
    - apply Forall_fmap, Forall_forall. intros x Hx. cbn. destruct (Hxs x Hx) as (c&_&?&_). lia. }
  assert (Z.of_nat (length (concat ol)) < 2 ^ 64)%Z as Col.
  { eapply Z.le_lt_trans; [apply (concat_small ol (2 ^ 32) (2 ^ 32 - 1)); [|lia|lia]|lia]. unfold ol. rewrite !Forall_app. split_and!.
    - apply Forall_fmap, Forall_forall. intros x [j Hx]%list_elem_of_lookup. cbn. destruct (Hfs j x Hx) as (g&f&_&_&_&_&_&?&_). lia.
    - apply Forall_replicate. simpl. lia.
    - apply Forall_fmap, Forall_forall. intros x Hx. cbn. destruct (Hxs x Hx) as (c&_&_&_&_&?). lia.
    - apply Forall_fmap, Forall_forall. intros x _. cbn. lia. }
  apply bind_ok in Hw as (h0&Hh0&Hw). apply bind_ok in Hw as (hm&Hhm&Hw).
  destruct (built_matrix _ width _ _ _ Hlen32 ltac:(lia) Chl Hh0 Hhm) as (Hmh&Hhr&Hhc&_).
  apply bind_ok in Hw as (o0&Ho0&Hw). apply bind_ok in Hw as (om&Hom&Hw).
  destruct (built_matrix _ (width + nk) _ _ _ Hos ltac:(lia) Col Ho0 Hom) as (Hmo&Hor&Hoc&_).
  apply bind_ok in Hw as (conflicts&_&Hw). apply bind_ok in Hw as (layout&_&Hw). apply bind_ok in Hw as (back&_&Hw).
  apply bind_ok in Hw as ([]&_&Hw). apply bind_ok in Hw as (m2d&_&Hw). apply bind_ok in Hw as (m2o'&_&Hw). injection Hw as <-.
  exists s, e, cb, ce, ie, (canon <$> hl), (canon <$> ol).
  split; cbn [dw_placed dw_num_own_rows dw_model wm_h wm_o dw_commit_columns dw_fault_column_sources].
  - done.
  - done.
  - done.
  - done.
  - split; cbn [dw_placed dw_num_own_rows dw_model wm_h wm_o dw_commit_columns dw_fault_column_sources].
    + done.
    + done.
    + lia.
    + unfold width in *. lia.
    + eapply Forall_impl; [apply (pk_sends _ _ _ _ _ _ _ _ _ _ _ _ Hpk)|]. intros send Hps. apply Forall_forall. intros i Hi.
      apply (ps_rows _ _ _ _ _ Hps) in Hi as (r&Hr&Hi). pose proof (ps_ranges _ _ _ _ _ Hps) as Hin. rewrite Forall_forall in Hin.
      destruct (Hin r Hr) as (?&?&?). pose proof (base_mono t cs (Z.to_nat (rr_end r)) e ltac:(lia)). lia.
  - intros c Hc. destruct (lookup_lt_is_Some_2 fault c) as [x Hx]; [lia|].
    destruct (Hfs c x Hx) as (g&f&Hg&Hf&_&_&Hth&_&Hto). exists f, g. split; [done|]. split; [done|].
    destruct (Hcm3 c g f Hg Hf) as [Hfz Hiff]. apply Hiff in Hc.
    pose proof (fb_mono cs s cb ltac:(lia)). pose proof (fb_mono cs cb ce ltac:(lia)). split; [lia|].
    assert (hl !! c = Some x.1.1) as Hhx.
    { unfold hl. apply lookup_app_l_Some. by rewrite list_lookup_fmap, Hx. }
    assert (ol !! c = Some x.1.2) as Hox.
    { unfold ol. apply lookup_app_l_Some. by rewrite list_lookup_fmap, Hx. }
    rewrite !list_lookup_fmap, Hhx, Hox. cbn [fmap option_fmap option_map from_option id].
    split; intros; rewrite touches_canon; [by apply Hth|by apply Hto].
  - intros c i Hc Hnc Hi Ht. destruct (lookup_lt_is_Some_2 hl c) as [col Hcol]; [lia|].
    rewrite list_lookup_fmap, Hcol in Ht. cbn [fmap option_fmap option_map from_option id] in Ht. rewrite touches_canon in Ht.
    apply lookup_parts in Hcol as [Hcol|[[Hge Hcol]|[Hge Hcol]]].
    + left. apply list_lookup_fmap_Some in Hcol as (x&->&Hx). destruct (Hfs c x Hx) as (g&f&Hg&Hf&_&_&Hth&_&_).
      rewrite Hth in Ht by done. destruct (Hcm3 c g f Hg Hf) as [Hfz Hiff].
      destruct (col_round cs s e (fb s + f)) as (r&Hr&Hgr'); [lia|lia|]. exists r, (fb s + f).
      split; [done|]. split; [|done]. intros Hrc. apply Hnc, Hiff.
      pose proof (fb_mono cs cb r ltac:(lia)). pose proof (fb_mono cs (S r) ce ltac:(lia)). pose proof (fb_mono cs s cb ltac:(lia)).
      destruct Hgr'. lia.
    + right. left. rewrite length_fmap in *. apply list_lookup_fmap_Some in Hcol as (j&->&[-> Hj]%lookup_seq).
      destruct Hnvo as [Hop Htf]; [lia|]. unfold truncated in Htf. rewrite Hop in Htf. cbn [andb] in Htf.
      unfold open_input in Hop. rewrite andb_true_iff, bool_decide_eq_true in Hop. apply bool_decide_eq_false in Htf.
      split; [tauto|]. split; [tauto|]. split; [done|]. apply touches_in, list_elem_of_singleton in Ht.
      rewrite wrap_small in Ht by lia. lia.
    + right. right. apply list_elem_of_fmap in Hcol as (x&->&Hx). destruct (Hxs x Hx) as (c'&Hc'&_&_&Hth&_).
      destruct Htr as [(Htt&Hs0&->)|[_ ->]]; [|lia]. unfold truncated, open_input in Htt.
      rewrite !andb_true_iff, !bool_decide_eq_true in Htt. split_and!; [tauto|tauto|tauto|done|].
      exists (fb (s - 1) + c'). rewrite Hth in Ht by done. split; [|done]. unfold in_col.
      replace (S (s - 1)) with s by lia. lia.
Qed.
End built.
