(* ===== verification/ShotRun.v ===== *)
(** * Decoding windows: receiving sends

    The effect of [receive_send] on the detectors of a window: a delta flips
    the own rows it covers, a residual sets the imported ones. *)

From Stdlib Require Import QArith.
From S2P Require Import Prelude Rates Ordering Tensor SparseMatrix SparseFacts SparseCanon RoundLayout DetectorErrorModel Decoder ExtendedDem ExtendedFacts ExtendedChunk ExtendedStitch ExtendedChain ExtendedAll ExtendedProps ExtendedClose ExtendedStreams ChunkSpec ExperimentTemplate WindowRequest WindowRequestFacts WindowModel WindowWorkload WorkloadFacts WindowShot WindowPlace Commitment WindowBuild.

Open Scope nat_scope.

Section receive.
Context {R : Type} `{RateOps R}.
Context (t : experiment_template R) (n : nat) (cs : list (extended_dem R)) (Hshot : shot_ok t n cs).
Abbreviation base := (base (sc_to_seam (spec_seam (t_spec t))) cs).

(** A send of a window that starts at round [s'] carries shot row [row]. *)
Definition covers (s' : nat) (send : window_send) (row : nat) : bool :=
  bool_decide (base s' ≤ row ∧ row - base s' ∈ ws_rows send).

(** What a received bit [b] makes of the detector [d]. *)
Definition received (mode : send_mode) (d b : bool) : bool :=
  match mode with send_delta => xorb d b | send_residual => b end.

Lemma receive_loop (mode : send_mode) (target : nat → option nat) (bit : nat → bool) rs (b0 b1 m : nat) d :
  NoDup rs → (∀ r, r ∈ rs → b0 ≤ b1 + r < b0 + m ∧ target r = Some (b1 + r - b0)) →
  for_u 0 (length rs) (λ i v,
    r ← vget rs i;
    x ← vget ((λ r, Nat.b2n (bit r)) <$> rs) i;
    match target r with
    | None => Undef
    | Some y =>
        match mode with
        | send_delta => d ← vget v y; vset v y (Nat.lxor d (Nat.land x 1))
        | send_residual => vset v y (Nat.land x 1)
        end
    end) (vec m d) =
  Ok (vec m (λ k, if bool_decide (b1 ≤ b0 + k ∧ b0 + k - b1 ∈ rs) then received mode (d k) (bit (b0 + k - b1)) else d k)).
Proof.
  intros Hnd Ht.
  match goal with |- for_u 0 _ ?body _ = _ =>
    destruct (for_u_inv 0 (length rs) body (λ i v, v = vec m (λ k,
      if bool_decide (b1 ≤ b0 + k ∧ b0 + k - b1 ∈ take i rs) then received mode (d k) (bit (b0 + k - b1)) else d k))
      (vec m d)) as (v&->&->) end; [lia| | |by rewrite take_ge].
  { apply vec_ext. intros k _. rewrite bool_decide_eq_false_2; [done|]. intros [_ Hk]. by apply not_elem_of_nil in Hk. }
  intros i v Hi ->. destruct (lookup_lt_is_Some_2 rs i) as [r Hr]; [lia|].
  rewrite (vget_ok _ _ _ Hr). cbn [mbind res_bind].
  rewrite (vget_ok _ i (Nat.b2n (bit r))) by (by rewrite list_lookup_fmap, Hr). cbn [mbind res_bind].
  destruct (Ht r) as [Hb Htr]; [by eapply list_elem_of_lookup_2|]. rewrite Htr, b2n_land.
  assert (r ∉ take i rs) as Hni.
  { intros [j Hj]%list_elem_of_lookup. pose proof (lookup_lt_Some _ _ _ Hj) as Hl. rewrite length_take in Hl.
    rewrite lookup_take_lt in Hj by lia. pose proof (NoDup_lookup _ _ _ _ Hnd Hj Hr). lia. }
  assert (∀ f, (∀ k, k < m → f k = if decide (k = b1 + r - b0) then received mode (d k) (bit r) else
      if bool_decide (b1 ≤ b0 + k ∧ b0 + k - b1 ∈ take i rs) then received mode (d k) (bit (b0 + k - b1)) else d k) →
    vec m f = vec m (λ k, if bool_decide (b1 ≤ b0 + k ∧ b0 + k - b1 ∈ take (i + 1) rs)
      then received mode (d k) (bit (b0 + k - b1)) else d k)) as Hstep.
  { intros f Hf. apply vec_ext. intros k Hk. rewrite Hf by done. rewrite Nat.add_1_r, (take_S_r _ _ _ Hr). case_decide as Hkr.
    - rewrite bool_decide_eq_true_2; [by replace (b0 + k - b1) with r by lia|]. split; [lia|]. apply elem_of_app. right.
      apply list_elem_of_singleton. lia.
    - assert (bool_decide (b1 ≤ b0 + k ∧ b0 + k - b1 ∈ take i rs) =
        bool_decide (b1 ≤ b0 + k ∧ b0 + k - b1 ∈ take i rs ++ [r])) as ->; [|done].
      apply bool_decide_ext. rewrite elem_of_app, list_elem_of_singleton. split; [naive_solver|]. intros [? [?|?]]; [done|lia]. }
  set (y := b1 + r - b0) in *. assert (y < m) as Hy by lia.
  assert (bool_decide (b1 ≤ b0 + y ∧ b0 + y - b1 ∈ take i rs) = false) as Hny.
  { apply bool_decide_eq_false_2. replace (b0 + y - b1) with r by lia. tauto. }
  destruct mode.
  - rewrite (vget_ok _ _ _ (lookup_vec m _ y Hy)). cbn [mbind res_bind]. rewrite vset_ok, b2n_lxor, insert_vec by (rewrite ?length_vec; done).
    apply returns_ok, Hstep. intros k Hk. rewrite Hny. by destruct (Nat.eqb_spec k y) as [->|]; [rewrite decide_True|rewrite decide_False].
  - rewrite vset_ok, insert_vec by (rewrite ?length_vec; done).
    apply returns_ok, Hstep. intros k Hk. by destruct (Nat.eqb_spec k y) as [->|]; [rewrite decide_True|rewrite decide_False].
Qed.

Section pair.
Context (ref : template_ref R) (Href : ref_template ref = t).
Context (receiver sender : decoding_window R) (q q' : window_request R) (k k' : Z) (s e cb ce ie s' e' cb' ce' ie' : nat).
Context (Hr : placed_ok t n cs q ref k (dw_placed receiver) s e cb ce ie) (Hs : placed_ok t n cs q' ref k' (dw_placed sender) s' e' cb' ce' ie').
Context (Hown : dw_num_own_rows receiver = base e - base s) (Hrows : num_rows_ (wm_h (dw_model receiver)) = base ie - base s).

(** Every range of the send lies on the rounds that its mode may reach. *)
Definition lands (send : window_send) : Prop :=
  match ws_mode send with
  | send_delta => Forall (inside s e) (ws_rounds send)
  | send_residual => Forall (inside e ie) (ws_rounds send)
  end.

Lemma placed_send_of j send : pw_sends (dw_placed sender) !! j = Some send → placed_send t cs s' e' send.
Proof. intros Hj. pose proof (pk_sends _ _ _ _ _ _ _ _ _ _ _ _ Hs) as HF. rewrite Forall_lookup in HF. by eapply HF. Qed.

(** The rows of a send that lands, in the receiver. *)
Lemma landed_rows send r :
  placed_send t cs s' e' send → lands send → r ∈ ws_rows send →
  match ws_mode send with
  | send_delta => base s ≤ base s' + r < base e
  | send_residual => base e ≤ base s' + r < base ie
  end.
Proof.
  clear Hown Hrows. intros Hps Hl Hrw. apply (ps_rows _ _ _ _ _ Hps) in Hrw as (rg&Hrg&Hb). unfold lands in Hl.
  destruct (pk_bounds _ _ _ _ _ _ _ _ _ _ _ _ Hr) as (B1&B2&B3&B4&B5).
  destruct (ws_mode send); rewrite Forall_forall in Hl; destruct (Hl rg Hrg) as (I1&I2&I3).
  - pose proof (base_mono t cs s (Z.to_nat (rr_begin rg)) ltac:(lia)). pose proof (base_mono t cs (Z.to_nat (rr_end rg)) e ltac:(lia)). lia.
  - pose proof (base_mono t cs e (Z.to_nat (rr_begin rg)) ltac:(lia)). pose proof (base_mono t cs (Z.to_nat (rr_end rg)) ie ltac:(lia)). lia.
Qed.

Lemma receive_send_eq j send bit d :
  pw_sends (dw_placed sender) !! j = Some send → lands send →
  receive_send receiver sender j ((λ r, Nat.b2n (bit r)) <$> ws_rows send) (vec (base ie - base s) d) =
    Ok (vec (base ie - base s) (λ i,
      if covers s' send (base s + i) then received (ws_mode send) (d i) (bit (base s + i - base s')) else d i)).
Proof.
  intros Hj Hl. pose proof (placed_send_of j send Hj) as Hps. unfold receive_send. cbv zeta.
  rewrite (pk_context _ _ _ _ _ _ _ _ _ _ _ _ Hr), (pk_context _ _ _ _ _ _ _ _ _ _ _ _ Hs), Nat.eqb_refl,
    (pk_shot _ _ _ _ _ _ _ _ _ _ _ _ Hr), (pk_shot _ _ _ _ _ _ _ _ _ _ _ _ Hs), Nat.eqb_refl. cbn [negb orb throw_if mbind res_bind].
  assert ((length (pw_sends (dw_placed sender)) <=? j) = false) as -> by (apply Nat.leb_gt; by eapply lookup_lt_Some).
  cbn [throw_if mbind res_bind]. rewrite (vget_ok _ _ _ Hj). cbn [mbind res_bind].
  rewrite length_fmap, length_vec, Hrows, !Nat.eqb_refl. cbn [negb orb throw_if mbind res_bind].
  rewrite (pk_rounds _ _ _ _ _ _ _ _ _ _ _ _ Hr), (pk_rounds _ _ _ _ _ _ _ _ _ _ _ _ Hs), Href. cbn [rr_begin].
  destruct (pk_bounds _ _ _ _ _ _ _ _ _ _ _ _ Hr) as (B1&B2&B3&B4&B5). destruct (pk_bounds _ _ _ _ _ _ _ _ _ _ _ _ Hs) as (C1&C2&C3&C4&C5).
  rewrite !(row_offset_z t n cs Hshot) by lia. cbn [mbind res_bind].
  set (imports := wp_imports (pw_output (dw_placed receiver))).
  assert (∃ ib ile, (if empty_range imports then Ok 0 else row_offset t (to_size (rr_begin imports)) n) = Ok ib ∧
    (if empty_range imports then Ok 0 else row_offset t (to_size (rr_end imports)) n) = Ok ile ∧
    ((ie = e) ∨ (ib = base e ∧ ile = base ie))) as (ib&ile&->&->&Hib).
  { pose proof (pk_imports _ _ _ _ _ _ _ _ _ _ _ _ Hr) as [(Hemp&_&->)|[Him Hlt]]; unfold imports.
    - rewrite Hemp. exists 0, 0. auto.
    - rewrite Him. assert (empty_range (mk_range (Z.of_nat e) (Z.of_nat ie)) = false) as -> by (apply empty_range_false; unfold nonempty; cbn; lia).
      cbn [rr_begin rr_end]. rewrite !(row_offset_z t n cs Hshot) by lia. exists (base e), (base ie). auto. }
  cbn [mbind res_bind]. set (target := λ r, receiver_row receiver (ws_mode send) (base s) ib ile (base s' + r)).
  assert (∀ r, r ∈ ws_rows send → base s ≤ base s' + r < base s + (base ie - base s) ∧ target r = Some (base s' + r - base s)) as Ht.
  { intros r Hrw. pose proof (landed_rows send r Hps Hl Hrw) as Hb. unfold target, receiver_row. rewrite Hown.
    pose proof (base_mono t cs s e ltac:(lia)). pose proof (base_mono t cs e ie ltac:(lia)). destruct (ws_mode send).
    - assert ((base s <=? base s' + r) && (base s' + r - base s <? base e - base s) = true) as ->.
      { rewrite andb_true_iff, Nat.leb_le, Nat.ltb_lt. lia. }
      split; [lia|done].
    - destruct Hib as [->|[-> ->]]; [lia|].
      assert ((base e <=? base s' + r) && (base s' + r <? base ie) = true) as ->.
      { rewrite andb_true_iff, Nat.leb_le, Nat.ltb_lt. lia. }
      split; [lia|]. f_equal. lia. }
  match goal with |- foldM ?body _ _ ≫= _ = _ => assert (foldM body (ws_rows send) tt = Ok tt) as -> end.
  { rewrite foldM_guard. destruct (existsb _ _) eqn:Hex; [|done]. apply existsb_exists in Hex as (r&Hrw%list_elem_of_In&Hbad).
    apply bool_decide_eq_true in Hbad. destruct (Ht r Hrw) as [_ Htr]. unfold target in Htr. congruence. }
  cbn [mbind res_bind]. apply (receive_loop (ws_mode send) target bit (ws_rows send) (base s) (base s') _ d (ps_nodup _ _ _ _ _ Hps) Ht).
Qed.
End pair.
End receive.

(** * Running the windows of a shot

    A shot on a schedule: every window takes its own rows of the shot, zeros
    for its imported ones, the sends that its inputs name, in the order of the
    inputs, and then decodes and commits; windows fire in a given order.  This
    is what the decode tasks of a graph do for one shot
    (decode_window_core::fire), with [receive_send] and [solve_window] as the
    operations; [committed_columns] reads the committed faults of the shot
    back. *)

(** What a fired window holds: its detectors after receiving, and its solution. *)
Record fired := mk_fired { fr_detectors : list nat; fr_solution : window_solution }.

Section run.
Context {R : Type} `{RateOps R}.
Implicit Types x sender : decoding_window R.
Implicit Types s : window_schedule R.

(** The window's own rows of the shot, then a zero for every imported row. *)
Definition own_detectors x (shot : list nat) : res (list nat) :=
  match pw_context (dw_placed x) with
  | None => Undef
  | Some ref =>
      first ← row_offset (ref_template ref) (to_size (rr_begin (pw_rounds (dw_placed x)))) (pw_shot_rounds (dw_placed x));
      Ok (take (dw_num_own_rows x) (drop first shot) ++
          replicate (num_rows_ (wm_h (dw_model x)) - dw_num_own_rows x) 0)
  end.

Definition find_send x (id : string) : option nat :=
  fst <$> list_find (λ send, ws_id send = id) (pw_sends (dw_placed x)).

Definition receive_input s (wins : list (decoding_window R)) (done : list (option fired)) x
    (input : window_dependency) (d : list nat) : res (list nat) :=
  if negb (wd_exists input) then Ok d else
  match positions s !! (wd_from_node input, wd_k input) with
  | None => Undef
  | Some p =>
      sender ← vget wins p;
      fr ← vget done p;
      match find_send sender (wd_from_output input), fr with
      | Some j, Some fr =>
          values ← vget (wo_sends (sol_outputs (fr_solution fr))) j;
          receive_send x sender j values d
      | _, _ => Undef
      end
  end.

Definition window_detectors s wins done (shot : list nat) (i : nat) : res (list nat) :=
  x ← vget wins i;
  w ← vget (ws_windows s) i;
  d ← own_detectors x shot;
  foldM (receive_input s wins done x) (sw_inputs w) d.

Definition fire_window s wins (decs : nat → option decode_fn) (shot : list nat) (i : nat) (done : list (option fired))
    : res (list (option fired)) :=
  x ← vget wins i;
  d ← window_detectors s wins done shot i;
  ws ← solve_window x (decs i) d (make_window_workspace x);
  vset done i (Some (mk_fired d (wk_solution ws))).

Definition run_shot s wins decs shot (order : list nat) : res (list (option fired)) :=
  foldM (fire_window s wins decs shot) order (replicate (length wins) None).

(** The columns of the shot that a window committed: column [c] is reported
    against the first source of its group. *)
Definition committed_columns x (fr : fired) : res (list nat) :=
  match pw_context (dw_placed x) with
  | None => Undef
  | Some ref =>
      first ← column_offset (ref_template ref) (to_size (rr_begin (pw_rounds (dw_placed x)))) (pw_shot_rounds (dw_placed x));
      let committed := wo_committed (sol_outputs (fr_solution fr)) in
      map_res (λ c, g ← vget (dw_fault_column_sources x) c; f ← vget g 0; Ok (first + f))
        (filter (λ c, committed !! c = Some 1) (seq 0 (length committed)))
  end.

(** ** Parities *)

Definition xsum (l : list bool) : bool := foldr xorb false l.

Lemma xsum_cons b l : xsum (b :: l) = xorb b (xsum l).
Proof. done. Qed.
Lemma xsum_app l l' : xsum (l ++ l') = xorb (xsum l) (xsum l').
Proof. induction l as [|b l IH]; simpl; [by destruct (xsum l')|]. by rewrite IH, xorb_assoc. Qed.
Lemma xsum_perm l l' : l ≡ₚ l' → xsum l = xsum l'.
Proof.
  induction 1 as [|b l l' _ IH|a b l|l1 l2 l3 _ IH1 _ IH2]; simpl; [done|by rewrite IH| |by rewrite IH1].
  by destruct a, b, (xsum l).
Qed.
Lemma xsum_false {A} (f : A → bool) l : (∀ a, a ∈ l → f a = false) → xsum (f <$> l) = false.
Proof. induction l as [|a l IH]; intros Hf; [done|]. rewrite fmap_cons, xsum_cons, Hf, IH by set_solver. done. Qed.
Lemma xsum_ext {A} (f g : A → bool) l : (∀ a, a ∈ l → f a = g a) → xsum (f <$> l) = xsum (g <$> l).
Proof. intros Hf. f_equal. apply list_fmap_ext. intros i a Ha. apply Hf. by eapply list_elem_of_lookup_2. Qed.
Lemma parity_xsum {A} (f : A → list nat) l r : parity (f <$> l) r = xsum ((λ a, touches (f a) r) <$> l).
Proof. induction l as [|a l IH]; [done|]. cbn [fmap list_fmap parity foldr xsum]. f_equal. apply IH. Qed.

(** A sum over [L] and one over [M] that only adds zeros. *)
Lemma xsum_support `{EqDecision A} (f : A → bool) L M :
  NoDup L → NoDup M → (∀ a, a ∈ L → a ∈ M) → (∀ a, a ∈ M → a ∉ L → f a = false) → xsum (f <$> M) = xsum (f <$> L).
Proof.
  intros HL HM Hsub Hz.
  assert (M ≡ₚ filter (λ a, a ∈ L) M ++ filter (λ a, a ∉ L) M) as Hsp.
  { clear. induction M as [|a M IH]; [done|]. rewrite !filter_cons. destruct (decide (a ∈ L)) as [Ha|Ha].
    - rewrite decide_False by (intros Hn; by apply Hn). simpl. by constructor.
    - rewrite decide_True by done. by rewrite <-Permutation_middle, <-IH. }
  assert (filter (λ a, a ∈ L) M ≡ₚ L) as HfL.
  { apply NoDup_Permutation; [by apply NoDup_filter|done|]. intros a. rewrite list_elem_of_filter. naive_solver. }
  rewrite (xsum_perm _ _ (fmap_Permutation f _ _ Hsp)), fmap_app, xsum_app, (xsum_perm _ _ (fmap_Permutation f _ _ HfL)).
  rewrite (xsum_false f (filter (λ a, a ∉ L) M)); [by destruct (xsum _)|].
  intros a [Ha HaM]%list_elem_of_filter. by apply Hz.
Qed.

(** The chosen elements of a range inside a longer one. *)
Lemma filter_range (e : nat → bool) lo hi m :
  lo ≤ hi → hi ≤ m →
  filter (λ c, vec m (λ c, e c && bool_decide (lo ≤ c < hi)) !! c = Some 1) (seq 0 m) =
    filter (λ c, Is_true (e c)) (seq lo (hi - lo)).
Proof.
  intros Hlo Hhi. assert (seq 0 m = seq 0 lo ++ seq lo (hi - lo) ++ seq hi (m - hi)) as ->.
  { replace hi with (lo + (hi - lo)) at 2 by lia. rewrite <-seq_app, <-(seq_app lo _ 0). f_equal. lia. }
  rewrite !list.filter_app.
  assert (∀ l, (∀ c, c ∈ l → c < m ∧ ¬ (lo ≤ c < hi)) →
    filter (λ c, vec m (λ c, e c && bool_decide (lo ≤ c < hi)) !! c = Some 1) l = []) as Hout.
  { induction l as [|c l IH]; intros Hl; [done|]. rewrite filter_cons_False; [apply IH; intros; apply Hl; by right|].
    destruct (Hl c) as [Hcm Hnr]; [by left|]. by rewrite lookup_vec, bool_decide_eq_false_2, andb_false_r by done. }
  rewrite (Hout (seq 0 lo)) by (intros c Hc%elem_of_seq; lia).
  rewrite (Hout (seq hi _)) by (intros c Hc%elem_of_seq; lia). rewrite app_nil_r. cbn [app].
  apply filter_ext_in. intros c Hc%elem_of_seq. rewrite lookup_vec by lia. rewrite bool_decide_eq_true_2, andb_true_r by lia.
  by destruct (e c); simpl; naive_solver.
Qed.
End run.

(** * What a fired window tells the shot

    The committed columns of a fired window as columns of the shot: its sends
    and its frame are their parities, and on the rows where all of its columns
    are committed ones a satisfied solution explains its detectors by them. *)

Section fired.
Context {R : Type} `{RateOps R}.
Context (t : experiment_template R) (n : nat) (cs : list (extended_dem R)) (Hshot : shot_ok t n cs).
Context (ref : template_ref R) (Href : ref_template ref = t).
Abbreviation base := (base (sc_to_seam (spec_seam (t_spec t))) cs).
Abbreviation fb := (faults_before cs).
Implicit Types x : decoding_window R.

Definition start x : nat := Z.to_nat (rr_begin (pw_rounds (dw_placed x))).

(** The detector of a window on shot row [row]. *)
Definition det_at x (fr : fired) (row : nat) : bool := bool_decide (fr_detectors fr !! (row - base (start x)) = Some 1).

(** The committed columns of the shot, and their parity on shot row [row]. *)
Definition shot_cols x (fr : fired) : list nat := match committed_columns x fr with Ok l => l | _ => [] end.
Definition delta_at x (fr : fired) (row : nat) : bool := xsum ((λ g, hit t cs g row) <$> shot_cols x fr).

(** The solution is that of an estimate [e] for the detectors [d]. *)
Definition solved x (hcols ocols : list (list nat)) (fr : fired) : Prop :=
  ∃ d e, fr_detectors fr = vec (num_rows_ (wm_h (dw_model x))) d ∧
    sol_outputs (fr_solution fr) = outputs_of x hcols ocols d e ∧
    (sol_satisfied (fr_solution fr) = true → ∀ r, r < num_rows_ (wm_h (dw_model x)) →
       d r = parity (selected hcols e (seq 0 (num_cols_ (wm_h (dw_model x))))) r).

Section window.
Context (q : window_request R) (k : Z) x (s e cb ce ie : nat) (hcols ocols : list (list nat)).
Context (Hb : window_built t n cs q ref k x s e cb ce ie hcols ocols).
Abbreviation commit := (dw_commit_columns x).
Abbreviation commit_seq := (seq (cr_begin commit) (cr_end commit - cr_begin commit)).

Lemma start_eq : start x = s.
Proof. unfold start. rewrite (pk_rounds _ _ _ _ _ _ _ _ _ _ _ _ (wb_placed _ _ _ _ _ _ _ _ _ _ _ _ _ _ Hb)). cbn. lia. Qed.

Lemma commit_bounds : cr_begin commit ≤ cr_end commit ∧ cr_end commit ≤ num_cols_ (wm_o (dw_model x)).
Proof. pose proof (wb_run _ _ _ _ _ _ _ _ _ _ _ _ _ _ Hb) as Hr. pose proof (rn_commit _ _ _ Hr). pose proof (rn_le _ _ _ Hr). lia. Qed.

(** The shot column of committed column [c]. *)
Definition source c : nat := fb s + default 0 (head (default [] (dw_fault_column_sources x !! c))).

Lemma committed_eq est fr d :
  sol_outputs (fr_solution fr) = outputs_of x hcols ocols d est →
  committed_columns x fr = Ok (source <$> filter (λ c, Is_true (est c)) commit_seq).
Proof.
  intros Ho. pose proof (wb_placed _ _ _ _ _ _ _ _ _ _ _ _ _ _ Hb) as Hp. unfold committed_columns. cbv zeta.
  destruct (pk_bounds _ _ _ _ _ _ _ _ _ _ _ _ Hp) as (B1&B2&B3&B4&B5).
  rewrite (pk_context _ _ _ _ _ _ _ _ _ _ _ _ Hp), (pk_rounds _ _ _ _ _ _ _ _ _ _ _ _ Hp), (pk_shot _ _ _ _ _ _ _ _ _ _ _ _ Hp), Href.
  cbn [rr_begin]. rewrite (column_offset_z t n cs Hshot) by lia. cbn [mbind res_bind].
  rewrite Ho. unfold outputs_of. cbn [wo_committed]. rewrite length_vec.
  destruct commit_bounds as [Hc1 Hc2]. rewrite (filter_range est _ _ _ Hc1 Hc2). apply map_res_eq.
  intros c [_ Hc%elem_of_seq]%list_elem_of_filter.
  destruct (wb_commit _ _ _ _ _ _ _ _ _ _ _ _ _ _ Hb c) as (f&g&Hg&Hf&_); [lia|].
  rewrite (vget_ok _ _ _ Hg). cbn [mbind res_bind]. destruct g as [|f' g]; [done|]. injection Hf as ->. unfold source. by rewrite Hg.
Qed.

Lemma shot_cols_eq est fr d :
  sol_outputs (fr_solution fr) = outputs_of x hcols ocols d est →
  shot_cols x fr = source <$> filter (λ c, Is_true (est c)) commit_seq.
Proof. intros Ho. unfold shot_cols. by rewrite (committed_eq _ _ _ Ho). Qed.

Lemma delta_eq est fr d i :
  sol_outputs (fr_solution fr) = outputs_of x hcols ocols d est → i < base ie - base s →
  delta_of x hcols est i = delta_at x fr (base s + i).
Proof.
  intros Ho Hi. unfold delta_of, delta_at, selected. rewrite parity_xsum, (shot_cols_eq _ _ _ Ho), <-list_fmap_compose.
  apply xsum_ext. intros c [_ Hc%elem_of_seq]%list_elem_of_filter. cbn [compose].
  destruct (wb_commit _ _ _ _ _ _ _ _ _ _ _ _ _ _ Hb c) as (f&g&Hg&Hf&_&Hth&_); [lia|]. rewrite Hth by done.
  unfold source, compose. by rewrite Hg; cbn [from_option id]; rewrite Hf.
Qed.

(** The frame of a fired window is that of its committed columns. *)
Lemma frame_eq fr o : solved x hcols ocols fr → o < num_obs cs →
  wo_frame (sol_outputs (fr_solution fr)) !! o = Some (Nat.b2n (xsum ((λ g, touches (obs_at cs g) o) <$> shot_cols x fr))).
Proof.
  intros (d&est&_&Ho&_) Hlt. rewrite (shot_cols_eq _ _ _ Ho), Ho. unfold outputs_of. cbn [wo_frame].
  rewrite (wb_obs _ _ _ _ _ _ _ _ _ _ _ _ _ _ Hb), lookup_vec by done. do 2 f_equal. unfold frame_of, selected.
  rewrite parity_xsum, <-list_fmap_compose. apply xsum_ext. intros c [_ Hc%elem_of_seq]%list_elem_of_filter. cbn [compose].
  destruct (wb_commit _ _ _ _ _ _ _ _ _ _ _ _ _ _ Hb c) as (f&g&Hg&Hf&_&_&Hto); [lia|]. rewrite Hto.
  unfold source, compose. by rewrite Hg; cbn [from_option id]; rewrite Hf.
Qed.

(** The committed columns lie in the commit rounds. *)
Lemma shot_cols_bound fr g : solved x hcols ocols fr → g ∈ shot_cols x fr → fb cb ≤ g < fb ce.
Proof.
  intros (d&est&_&Ho&_) Hg. rewrite (shot_cols_eq _ _ _ Ho) in Hg. apply list_elem_of_fmap in Hg as (c&->&Hc).
  apply list_elem_of_filter in Hc as [_ Hc%elem_of_seq].
  destruct (wb_commit _ _ _ _ _ _ _ _ _ _ _ _ _ _ Hb c) as (f&g&Hg&Hf&Hbd&_); [lia|]. unfold source. rewrite Hg. cbn [from_option id]. by rewrite Hf.
Qed.

Lemma det_eq d fr i :
  fr_detectors fr = vec (num_rows_ (wm_h (dw_model x))) d → i < base ie - base s → d i = det_at x fr (base s + i).
Proof.
  intros Hd Hi. unfold det_at. rewrite start_eq, Hd, (wb_rows _ _ _ _ _ _ _ _ _ _ _ _ _ _ Hb).
  replace (base s + i - base s) with i by lia. rewrite lookup_vec by done. by destruct (d i).
Qed.

(** A send of a fired window. *)
Lemma sent_values fr j send :
  solved x hcols ocols fr → pw_sends (dw_placed x) !! j = Some send →
  wo_sends (sol_outputs (fr_solution fr)) !! j =
    Some ((λ r, Nat.b2n (send_bit (ws_mode send) (λ r, det_at x fr (base s + r)) (λ r, delta_at x fr (base s + r)) r)) <$> ws_rows send).
Proof.
  intros (d&est&Hd&Ho&_) Hj. rewrite Ho. unfold outputs_of. cbn [wo_sends]. rewrite list_lookup_fmap, Hj. cbn [fmap option_fmap option_map].
  f_equal. apply list_fmap_ext. intros i r Hr. f_equal.
  assert (r < base ie - base s) as Hlt.
  { pose proof (rn_sends _ _ _ (wb_run _ _ _ _ _ _ _ _ _ _ _ _ _ _ Hb)) as HF. rewrite Forall_lookup in HF. specialize (HF j send Hj).
    rewrite Forall_lookup in HF. pose proof (HF i r Hr). by rewrite <-(wb_rows _ _ _ _ _ _ _ _ _ _ _ _ _ _ Hb). }
  unfold send_bit. rewrite (delta_eq est fr d r Ho Hlt), (det_eq d fr r Hd Hlt). done.
Qed.

(** On a row that no other column of the window touches a satisfied solution
    explains the detector by the committed columns. *)
Lemma satisfied_row fr i :
  solved x hcols ocols fr → sol_satisfied (fr_solution fr) = true → i < base ie - base s →
  (∀ c, c < num_cols_ (wm_h (dw_model x)) → ¬ (cr_begin commit ≤ c < cr_end commit) → touches (default [] (hcols !! c)) i = false) →
  det_at x fr (base s + i) = delta_at x fr (base s + i).
Proof.
  intros (d&est&Hd&Ho&Hsat) Hs Hi Hother. rewrite <-(det_eq d fr i Hd Hi), <-(delta_eq est fr d i Ho Hi).
  rewrite (Hsat Hs i) by (by rewrite (wb_rows _ _ _ _ _ _ _ _ _ _ _ _ _ _ Hb)).
  unfold delta_of, selected. rewrite !parity_xsum.
  pose proof (rn_commit _ _ _ (wb_run _ _ _ _ _ _ _ _ _ _ _ _ _ _ Hb)) as [Hc1 Hc2].
  apply xsum_support; try (apply NoDup_filter, NoDup_seq).
  - intros c [Hec Hc%elem_of_seq]%list_elem_of_filter. apply list_elem_of_filter. split; [done|]. apply elem_of_seq. lia.
  - intros c [Hec Hc%elem_of_seq]%list_elem_of_filter Hn. apply Hother; [lia|]. intros Hr. apply Hn, list_elem_of_filter.
    split; [done|]. apply elem_of_seq. lia.
Qed.
End window.
End fired.
