(* ===== verification/CommitFacts.v ===== *)
(** * Schedules and their checks: what acceptance gives

    The windows that [schedule_windows] places, by node and index, with their
    inputs; the holders and committers of each round; the facts behind
    [check_deliveries], [check_rows], [check_commits] and [check_imports]. *)

From S2P Require Import Prelude Rates Ordering Tensor SparseMatrix SparseFacts RoundLayout DetectorErrorModel ExtendedDem ChunkSpec ExperimentTemplate WindowRequest WindowRequestFacts WindowModel Commitment.

(** ** Loops *)

Lemma foldM_ok_inv {S B} (f : B → S → res S) (I : list B → S → Prop) l s s' :
  I [] s → (∀ pre b post s s', l = pre ++ b :: post → I pre s → f b s = Ok s' → I (pre ++ [b]) s') →
  foldM f l s = Ok s' → I l s'.
Proof.
  intros H0 Hstep. cut (∀ post pre s, l = pre ++ post → I pre s → foldM f post s = Ok s' → I l s').
  { intros Hc. by apply (Hc l []). }
  induction post as [|b post IH]; intros pre s1 -> Hpre Hf; cbn [foldM] in Hf.
  - injection Hf as <-. by rewrite app_nil_r.
  - apply bind_ok in Hf as (s2&H2&Hf). apply (IH (pre ++ [b]) s2); [by rewrite <-app_assoc| |done]. by eapply Hstep.
Qed.

Lemma foldM_each {B} (f : B → unit → res unit) l : foldM f l tt = Ok tt → ∀ b, b ∈ l → f b tt = Ok tt.
Proof.
  induction l as [|a l IH]; intros Hf b Hb; [by apply not_elem_of_nil in Hb|]. cbn [foldM] in Hf.
  apply bind_ok in Hf as ([]&Ha&Hf). apply elem_of_cons in Hb as [->|Hb]; [done|by apply IH].
Qed.
Lemma for_u_each lo hi (f : nat → unit → res unit) : for_u lo hi f tt = Ok tt → ∀ i, lo ≤ i < hi → f i tt = Ok tt.
Proof. intros Hf i Hi. apply (foldM_each f _ Hf). apply elem_of_seq. lia. Qed.

Lemma foldM_push {A B} (f : A → res B) l acc out :
  foldM (λ x out, y ← f x; Ok (out ++ [y])) l acc = Ok out → ∃ ys, out = acc ++ ys ∧ Forall2 (λ x y, f x = Ok y) l ys.
Proof.
  revert acc. induction l as [|x l IH]; intros acc Hf; cbn [foldM] in Hf.
  - injection Hf as <-. exists []. by rewrite app_nil_r.
  - apply bind_ok in Hf as (o&Ho&Hf). apply bind_ok in Ho as (y&Hy&[= <-]). destruct (IH _ Hf) as (ys&->&HF).
    exists (y :: ys). rewrite <-app_assoc. split; [done|by constructor].
Qed.

Lemma elem_of_z_range lo hi q : q ∈ z_range lo hi ↔ (lo ≤ q < hi)%Z.
Proof.
  unfold z_range. rewrite list_elem_of_fmap. split.
  - intros (i&->&Hi%elem_of_seq). lia.
  - intros Hq. exists (Z.to_nat (q - lo)). split; [lia|]. apply elem_of_seq. lia.
Qed.
Lemma NoDup_z_range lo hi : NoDup (z_range lo hi).
Proof. unfold z_range. apply NoDup_fmap_2; [intros a b; lia|apply NoDup_seq]. Qed.

Lemma contains_in r q : contains r q = true ↔ in_range r q.
Proof. unfold contains, in_range. rewrite andb_true_iff, Z.leb_le, Z.ltb_lt. lia. Qed.

Section schedule.
Context {R : Type} `{RateOps R}.
Implicit Types w p c f : scheduled_window R.
Implicit Types s : window_schedule R.

Definition key_of w : string * Z := (sw_node w, sw_k w).

(** ** Positions *)

Lemma positions_spec s :
  NoDup (key_of <$> ws_windows s) →
  ∀ key i, positions s !! key = Some i ↔ ∃ w, ws_windows s !! i = Some w ∧ key_of w = key.
Proof.
  intros Hnd. unfold positions.
  cut (∀ pre post, ws_windows s = pre ++ post → ∀ key i,
    foldl (λ (m : gmap (string * Z) nat) iw, <[(sw_node iw.2, sw_k iw.2) := iw.1]> m) ∅ (imap pair pre) !! key = Some i ↔
    ∃ w, pre !! i = Some w ∧ key_of w = key).
  { intros Hc. apply (Hc (ws_windows s) []). by rewrite app_nil_r. }
  induction pre as [|w pre IH] using rev_ind; intros post Hsp key i.
  - cbn [imap foldl]. rewrite lookup_empty. split; [done|]. intros (w&Hw&_). done.
  - rewrite imap_app, foldl_app. cbn [imap foldl]. rewrite Nat.add_0_r. cbn [fst snd].
    rewrite <-app_assoc in Hsp. specialize (IH _ Hsp key).
    destruct (decide (key = (sw_node w, sw_k w))) as [->|Hne].
    + rewrite lookup_insert_eq. split.
      * intros [= <-]. exists w. by rewrite list_lookup_middle.
      * intros (w'&Hw'&Hk). apply lookup_snoc_Some in Hw' as [[Hi Hw']|[-> _]]; [|done]. exfalso.
        rewrite Hsp, fmap_app in Hnd. apply NoDup_app in Hnd as (_&Hd&_). apply (Hd (key_of w')).
        -- apply list_elem_of_fmap_2. by eapply list_elem_of_lookup_2.
        -- rewrite Hk. cbn. by left.
    + rewrite lookup_insert_ne by done. rewrite IH. split.
      * intros (w'&Hw'&Hk). exists w'. split; [|done]. by apply lookup_app_l_Some.
      * intros (w'&Hw'&Hk). apply lookup_snoc_Some in Hw' as [[Hi Hw']|[_ <-]]; [by exists w'|]. by destruct Hne.
Qed.

(** ** Placed windows *)

Section layers.
Context (ref : template_ref R) (layers : list (window_layer R)) (edges : list task_graph_edge) (n : nat).

Record scheduled w : Prop := {
  sd_layer : ∃ layer pw inst, find_layer layers (sw_node w) = Some layer ∧
    place_window (Some ref) (wl_request layer) (sw_k w) n = Ok pw ∧
    window_instances (wl_request layer) n = Ok inst ∧ (ir_begin inst ≤ sw_k w < ir_end inst)%Z ∧
    sw_rounds w = pw_rounds pw ∧ sw_commit w = pw_commit pw ∧ sw_input w = pw_input pw ∧
    sw_output w = pw_output pw ∧ sw_sends w = pw_sends pw;
  sd_inputs : ∀ d, d ∈ sw_inputs w → ∃ from inst, find_layer layers (wd_from_node d) = Some from ∧
    window_instances (wl_request from) n = Ok inst ∧
    wd_exists d = ((ir_begin inst <=? wd_k d)%Z && (wd_k d <? ir_end inst)%Z)
}.

Lemma schedule_window_spec layer k w :
  find_layer layers (wl_node layer) = Some layer → (∃ inst, window_instances (wl_request layer) n = Ok inst ∧ (ir_begin inst ≤ k < ir_end inst)%Z) →
  schedule_window (Some ref) (ref_template ref) layers edges n layer k = Ok w →
  key_of w = (wl_node layer, k) ∧ scheduled w.
Proof.
  intros Hfl (inst&Hin&Hk) Hs. unfold schedule_window in Hs. apply bind_ok in Hs as (pw&Hpw&Hs).
  apply bind_ok in Hs as (v&_&Hs). apply bind_ok in Hs as (inputs&Hi&[= <-]). split; [done|].
  split; cbn [sw_node sw_k sw_rounds sw_commit sw_input sw_output sw_sends sw_inputs]; [by exists layer, pw, inst|].
  revert Hi. apply (foldM_ok_inv _ (λ _ ds, ∀ d, d ∈ ds → ∃ from inst, find_layer layers (wd_from_node d) = Some from ∧
    window_instances (wl_request from) n = Ok inst ∧ wd_exists d = ((ir_begin inst <=? wd_k d)%Z && (wd_k d <? ir_end inst)%Z))).
  - intros d Hd. by apply not_elem_of_nil in Hd.
  - intros _ ed _ ds ds' _ IH Hd. destruct (negb _); [by injection Hd as <-|].
    apply bind_ok in Hd as (from&Hf&Hd). destruct (find_layer layers (te_from_node ed)) as [l|] eqn:El; [|done]. injection Hf as ->.
    apply bind_ok in Hd as (prod&Hpr&[= <-]). intros d [Hd|Hd%list_elem_of_singleton]%elem_of_app; [by apply IH|].
    subst d. exists from, prod. done.
Qed.

Lemma find_layer_nodup layer : NoDup (wl_node <$> layers) → layer ∈ layers → find_layer layers (wl_node layer) = Some layer.
Proof.
  unfold find_layer. clear edges. induction layers as [|l ls IH]; intros Hnd Hl; [by apply not_elem_of_nil in Hl|].
  rewrite fmap_cons in Hnd. apply NoDup_cons in Hnd as [Hni Hnd]. cbn [find]. destruct (String.eqb_spec (wl_node l) (wl_node layer)) as [Heq|Hne].
  - apply elem_of_cons in Hl as [->|Hl]; [done|]. exfalso. apply Hni. rewrite Heq. by apply list_elem_of_fmap_2.
  - apply elem_of_cons in Hl as [->|Hl]; [done|by apply IH].
Qed.

(** The windows of a schedule: distinct, each placed by its layer. *)
Lemma schedule_windows_spec s :
  schedule_windows (Some ref) layers edges n = Ok s →
  ws_num_rounds s = n ∧ NoDup (key_of <$> ws_windows s) ∧ Forall scheduled (ws_windows s).
Proof.
  intros Hs. unfold schedule_windows in Hs. apply bind_ok in Hs as ([]&_&Hs). apply bind_ok in Hs as (nodes&Hn&Hs).
  apply bind_ok in Hs as ([]&_&Hs). apply bind_ok in Hs as (ws&Hw&[= <-]). cbn [ws_num_rounds ws_windows].
  assert (NoDup (wl_node <$> layers)) as Hnd.
  { cut (nodes = wl_node <$> layers ∧ NoDup nodes); [intros [-> ?]; done|]. revert Hn.
    apply (foldM_ok_inv _ (λ pre nodes, nodes = wl_node <$> pre ∧ NoDup nodes)); [split; [done|constructor]|].
    intros pre l post ns ns' _ [-> HN] Hf. apply bind_ok in Hf as ([]&_&Hf). apply bind_ok in Hf as ([]&Ht&[= <-]).
    apply throw_if_ok, bool_decide_eq_false in Ht. rewrite fmap_app. split; [done|]. apply NoDup_app. split; [done|]. split; [|apply NoDup_singleton].
    intros y Hy Hy'%list_elem_of_singleton. by subst y. }
  split; [done|]. revert Hw.
  apply (foldM_ok_inv _ (λ pre ws, (∀ w, w ∈ ws → sw_node w ∈ wl_node <$> pre) ∧ NoDup (key_of <$> ws) ∧ Forall scheduled ws)).
  { split_and!; [|constructor|constructor]. intros w Hw. by apply not_elem_of_nil in Hw. }
  intros pre layer post ws1 ws2 Hsp (Hnode&HN&HF) Hf. apply bind_ok in Hf as (inst&Hin&Hf).
  apply foldM_push in Hf as (ys&->&H2).
  assert (∀ y, y ∈ ys → ∃ k, y ∈ ys ∧ key_of y = (wl_node layer, k) ∧ scheduled y) as Hys.
  { intros y [j Hj]%list_elem_of_lookup. destruct (Forall2_lookup_r _ _ _ _ _ H2 Hj) as (k&Hk&Hsw). exists k.
    split; [by eapply list_elem_of_lookup_2|]. apply (schedule_window_spec layer k y).
    - apply find_layer_nodup; [done|]. rewrite Hsp. apply elem_of_app. right. by left.
    - exists inst. split; [done|]. apply elem_of_z_range. by eapply list_elem_of_lookup_2.
    - done. }
  split_and!.
  - intros w [Hw|Hw]%elem_of_app; rewrite fmap_app; apply elem_of_app; [left; by apply Hnode|right].
    destruct (Hys w Hw) as (k&_&[= Hk _]&_). rewrite Hk. by left.
  - assert (key_of <$> ys = (λ k, (wl_node layer, k)) <$> z_range (ir_begin inst) (ir_end inst)) as Hkeys.
    { symmetry. apply list_eq_Forall2, Forall2_fmap_2. eapply Forall2_impl; [exact H2|]. intros k y Hsw.
      assert (key_of y = (wl_node layer, k)) as ->; [|done].
      unfold schedule_window in Hsw. apply bind_ok in Hsw as (?&_&Hsw). apply bind_ok in Hsw as (?&_&Hsw). by apply bind_ok in Hsw as (?&_&[= <-]). }
    rewrite fmap_app. apply NoDup_app. split; [done|]. split.
    + intros key (w&->&Hw)%list_elem_of_fmap (y&Hk&Hy)%list_elem_of_fmap. destruct (Hys y Hy) as (k&_&Hky&_).
      rewrite <-Hk in Hky. unfold key_of in Hky. injection Hky as Hn1 _. apply Hnode in Hw. rewrite Hn1 in Hw.
      rewrite Hsp, fmap_app, fmap_cons in Hnd. apply NoDup_app in Hnd as (_&Hd&_). eapply Hd; [exact Hw|by left].
    + rewrite Hkeys. apply NoDup_fmap_2; [by intros ?? [=]|apply NoDup_z_range].
  - apply Forall_app. split; [done|]. apply Forall_forall. intros y Hy. by destruct (Hys y Hy) as (k&_&_&?).
Qed.

(** An input that names a scheduled window exists. *)
Lemma input_exists w p d :
  scheduled w → scheduled p → d ∈ sw_inputs w → (wd_from_node d, wd_k d) = key_of p → wd_exists d = true.
Proof.
  intros Hw Hp Hd [= Hn Hk]. destruct (sd_inputs w Hw d Hd) as (from&inst&Hfl&Hin&->).
  destruct (sd_layer p Hp) as (layer&pw&inst'&Hfl'&_&Hin'&Hr&_). rewrite Hn, Hfl' in Hfl. injection Hfl as <-.
  rewrite Hin in Hin'. injection Hin' as <-. rewrite Hk, andb_true_iff, Z.leb_le, Z.ltb_lt. lia.
Qed.
End layers.
End schedule.

(** * Commitment checks: what acceptance gives *)

Section checks.
Context {R : Type} `{RateOps R}.
Implicit Types w p c f : scheduled_window R.
Implicit Types s : window_schedule R.

(** ** Rounds *)

(** The rounds of [r] are rounds of the shot. *)
Definition within (n : nat) (r : round_range) : Prop := ∀ q, in_range r q → (0 ≤ q < Z.of_nat n)%Z.

Lemma push_rounds_spec n r i lists lists' :
  (Z.of_nat n < 2 ^ 63)%Z → within n r → push_rounds r i lists = Ok lists' →
  ∀ q, lists' !! q = (λ l, l ++ (if contains r (Z.of_nat q) then [i] else [])) <$> lists !! q.
Proof.
  intros Hn Hw Hp.
  cut (∀ q, lists' !! q = (λ l, l ++ (if bool_decide (Z.of_nat q ∈ z_range (rr_begin r) (rr_end r)) then [i] else [])) <$> lists !! q).
  { intros Hc q. rewrite Hc. do 2 f_equal. assert (bool_decide (Z.of_nat q ∈ z_range (rr_begin r) (rr_end r)) = contains r (Z.of_nat q)) as ->; [|done].
    apply eq_true_iff_eq. by rewrite bool_decide_eq_true, elem_of_z_range, contains_in. }
  revert Hp. unfold push_rounds.
  set (I := λ (pre : list Z) (out : list (list nat)),
    ∀ q, out !! q = (λ l, l ++ (if bool_decide (Z.of_nat q ∈ pre) then [i] else [])) <$> lists !! q).
  apply (foldM_ok_inv _ I); unfold I; clear I.
  - intros q. rewrite bool_decide_eq_false_2 by apply not_elem_of_nil. destruct (lists !! q); cbn; [by rewrite app_nil_r|done].
  - intros pre z post out out' Hsp IH Hf q. unfold push_at in Hf. apply bind_ok in Hf as (l&Hl&Hf).
    assert (0 ≤ z < Z.of_nat n)%Z as Hz.
    { apply Hw. unfold in_range. apply elem_of_z_range. rewrite Hsp. apply elem_of_app. right. by left. }
    assert (to_size z = Z.to_nat z) as Hts by (unfold to_size; rewrite Z.mod_small by lia; done). rewrite Hts in Hl, Hf.
    assert (z ∉ pre) as Hni.
    { intros Hz'. pose proof (NoDup_z_range (rr_begin r) (rr_end r)) as Hnd. rewrite Hsp in Hnd. apply NoDup_app in Hnd as (_&Hd&_).
      apply (Hd z Hz'). by left. }
    unfold vget in Hl. destruct (out !! Z.to_nat z) as [l'|] eqn:El; [|done]. injection Hl as ->.
    unfold vset in Hf. case_decide as Hlt; [|done]. injection Hf as <-. destruct (decide (q = Z.to_nat z)) as [->|Hne].
    + rewrite list_lookup_insert_eq by done. specialize (IH (Z.to_nat z)). rewrite El in IH. destruct (lists !! Z.to_nat z) as [l0|]; [|done].
      cbn in IH |- *. replace (Z.of_nat (Z.to_nat z)) with z in IH |- * by lia.
      rewrite bool_decide_eq_false_2, app_nil_r in IH by done. injection IH as ->.
      rewrite bool_decide_eq_true_2; [done|]. apply elem_of_app. right. by left.
    + rewrite list_lookup_insert_ne by done. rewrite IH. do 2 f_equal.
      assert (bool_decide (Z.of_nat q ∈ pre) = bool_decide (Z.of_nat q ∈ pre ++ [z])) as ->; [|done]. apply bool_decide_ext.
      rewrite elem_of_app, list_elem_of_singleton. split; [by left|]. intros [?|?]; [done|lia].
Qed.

Definition holds_round w (q : nat) : Prop :=
  in_range (sw_rounds w) (Z.of_nat q) ∨ in_range (wp_imports (sw_output w)) (Z.of_nat q).

Lemma pushed_elem r i q l l' (x : nat) :
  l' = l ++ (if contains r (Z.of_nat q) then [i] else []) → x ∈ l' ↔ x ∈ l ∨ (x = i ∧ in_range r (Z.of_nat q)).
Proof.
  intros ->. rewrite elem_of_app. destruct (contains r (Z.of_nat q)) eqn:E.
  - apply contains_in in E. rewrite list_elem_of_singleton. tauto.
  - rewrite elem_of_nil. split; [tauto|]. intros [?|[_ Hr]]; [by left|]. apply contains_in in Hr. congruence.
Qed.

Lemma index_rounds_spec s index :
  (Z.of_nat (ws_num_rounds s) < 2 ^ 63)%Z →
  Forall (λ w, within (ws_num_rounds s) (sw_rounds w) ∧ within (ws_num_rounds s) (sw_commit w) ∧
               within (ws_num_rounds s) (wp_imports (sw_output w))) (ws_windows s) →
  index_rounds s = Ok index → ∀ q, q < ws_num_rounds s →
  ∃ h cm, holders index !! q = Some h ∧ committers index !! q = Some cm ∧
    (∀ i, i ∈ h ↔ ∃ w, ws_windows s !! i = Some w ∧ holds_round w q) ∧
    (∀ i, i ∈ cm ↔ ∃ w, ws_windows s !! i = Some w ∧ in_range (sw_commit w) (Z.of_nat q)).
Proof.
  intros Hn HF Hi q Hq.
  assert (∃ h cm, holders index !! q = Some h ∧ committers index !! q = Some cm ∧
    (∀ i, i ∈ h ↔ i ∈ seq 0 (length (ws_windows s) - 0) ∧ ∃ w, ws_windows s !! i = Some w ∧ holds_round w q) ∧
    (∀ i, i ∈ cm ↔ i ∈ seq 0 (length (ws_windows s) - 0) ∧ ∃ w, ws_windows s !! i = Some w ∧ in_range (sw_commit w) (Z.of_nat q))) as (h&cm&Hh&Hc&Eh&Ec).
  { revert Hi. unfold index_rounds, for_u. apply (foldM_ok_inv _ (λ pre out, ∃ h cm, holders out !! q = Some h ∧ committers out !! q = Some cm ∧
      (∀ i, i ∈ h ↔ i ∈ pre ∧ ∃ w, ws_windows s !! i = Some w ∧ holds_round w q) ∧
      (∀ i, i ∈ cm ↔ i ∈ pre ∧ ∃ w, ws_windows s !! i = Some w ∧ in_range (sw_commit w) (Z.of_nat q)))).
    - exists [], []. cbn [holders committers]. rewrite lookup_replicate_2 by done.
      split_and!; [done|done| |]; intros i; rewrite !elem_of_nil; tauto.
    - intros pre i post out out' _ (h&cm&Hh&Hc&Eh&Ec) Hf. apply bind_ok in Hf as (w&Hw&Hf). unfold vget in Hw.
      destruct (ws_windows s !! i) as [w'|] eqn:Ew; [|done]. injection Hw as ->.
      rewrite Forall_lookup in HF. destruct (HF i w Ew) as (W1&W2&W3).
      apply bind_ok in Hf as (h1&H1&Hf). apply bind_ok in Hf as (h2&H2&Hf). apply bind_ok in Hf as (c1&H3&[= <-]). cbn [holders committers].
      pose proof (push_rounds_spec _ _ _ _ _ Hn W1 H1 q) as E1. rewrite Hh in E1.
      pose proof (push_rounds_spec _ _ _ _ _ Hn W3 H2 q) as E2. rewrite E1 in E2.
      pose proof (push_rounds_spec _ _ _ _ _ Hn W2 H3 q) as E3. rewrite Hc in E3. cbn [fmap option_fmap option_map] in E2, E3.
      eexists _, _. split; [exact E2|]. split; [exact E3|]. split; intros j.
      + rewrite (pushed_elem _ _ _ _ _ j eq_refl), (pushed_elem _ _ _ _ _ j eq_refl), Eh, elem_of_app, list_elem_of_singleton.
        unfold holds_round. split.
        * intros [[[? ?]|[-> ?]]|[-> ?]]; split; try tauto; exists w; tauto.
        * intros [[Hj| ->] (w0&Hw0&Hr)]; [left; left; split; [done|by exists w0]|]. simplify_eq. tauto.
      + rewrite (pushed_elem _ _ _ _ _ j eq_refl), Ec, elem_of_app, list_elem_of_singleton. split.
        * intros [[? ?]|[-> ?]]; split; try tauto. by exists w.
        * intros [[Hj| ->] (w0&Hw0&Hr)]; [left; split; [done|by exists w0]|]. simplify_eq. tauto. }
  exists h, cm. split; [done|]. split; [done|].
  split; intros i; [rewrite Eh|rewrite Ec]; (split; [tauto|]; intros (w&Hw&?); split; [|by exists w]);
    apply elem_of_seq; apply lookup_lt_Some in Hw; lia.
Qed.

(** ** Deliveries *)

Lemma symmetric_difference_nil a b : set_symmetric_difference a b = [] → a = b.
Proof.
  revert b. induction a as [|x a IH]; intros b Hd.
  - by destruct b.
  - induction b as [|y b IHb]; [done|]. cbn [set_symmetric_difference] in Hd.
    destruct (Z.ltb_spec x y); [done|]. destruct (Z.ltb_spec y x); [done|]. f_equal; [lia|by apply IH].
Qed.

Lemma producer_of_ok s d p :
  producer_of s d = Ok p → ∃ i, positions s !! (wd_from_node d, wd_k d) = Some i ∧ ws_windows s !! i = Some p.
Proof.
  unfold producer_of. destruct (positions s !! _) as [i|]; [|done]. unfold vget. intros Hv. exists i. split; [done|].
  destruct (ws_windows s !! i); [|done]. by injection Hv as ->.
Qed.

Lemma send_of_ok p d send :
  send_of p d = Ok send → ∃ j, list_find (λ send, ws_id send = wd_from_output d) (sw_sends p) = Some (j, send).
Proof.
  unfold send_of. induction (sw_sends p) as [|a l IH]; [done|]. cbn [find list_find].
  destruct (String.eqb_spec (ws_id a) (wd_from_output d)) as [He|Hne].
  - intros [= ->]. exists 0. by rewrite decide_True.
  - intros Hf. rewrite decide_False by done. destruct (IH Hf) as (j&Hj). exists (S j). by rewrite Hj.
Qed.

(** What an accepted input delivers. *)
Record delivery s c (d : window_dependency) p (send : window_send) : Prop := {
  dl_producer : producer_of s d = Ok p;
  dl_send : send_of p d = Ok send;
  dl_rounds : match ws_mode send with
    | send_delta => Forall (λ r, rr_begin (sw_rounds c) ≤ rr_begin r ∧ rr_end r ≤ rr_end (sw_rounds c))%Z (ws_rounds send)
    | send_residual => rounds_of (ws_rounds send) =
        z_range (rr_begin (wp_imports (sw_output c))) (rr_end (wp_imports (sw_output c)))
    end
}.

Lemma check_deliveries_spec s c d :
  check_deliveries s = Ok tt → c ∈ ws_windows s → d ∈ sw_inputs c → wd_exists d = true →
  ∃ p send, delivery s c d p send.
Proof.
  intros Hc Hin Hd He. unfold check_deliveries in Hc. pose proof (foldM_each _ _ Hc c Hin) as Hf. cbn in Hf.
  apply bind_ok in Hf as (rc&Hf&_). revert Hf d Hd He.
  apply (foldM_ok_inv _ (λ pre _, ∀ d, d ∈ pre → wd_exists d = true → ∃ p send, delivery s c d p send)).
  - intros d Hd. by apply not_elem_of_nil in Hd.
  - intros pre d post rcv rcv' _ IH Hf d' [Hd|Hd%list_elem_of_singleton]%elem_of_app He; [by apply IH|]. subst d'.
    unfold check_delivery in Hf. rewrite He in Hf. cbn [negb] in Hf. apply bind_ok in Hf as (p&Hp&Hf). apply bind_ok in Hf as (send&Hs&Hf).
    apply bind_ok in Hf as ([]&_&Hf). exists p, send. split; [done|done|]. destruct (ws_mode send).
    + apply bind_ok in Hf as ([]&Hf&_). apply Forall_forall. intros r Hr. pose proof (foldM_each _ _ Hf r Hr) as Ht. cbn in Ht.
      apply throw_if_ok, negb_false_iff, andb_true_iff in Ht as [?%Z.leb_le ?%Z.leb_le]. lia.
    + apply bind_ok in Hf as ([]&Hf&_). apply throw_if_ok, negb_false_iff, bool_decide_eq_true in Hf. by apply symmetric_difference_nil.
Qed.

Definition is_residual s (d : window_dependency) : bool :=
  wd_exists d && match producer_of s d with
                 | Ok p => match send_of p d with Ok send => bool_decide (ws_mode send = send_residual) | _ => false end
                 | _ => false
                 end.

Lemma filter_one {A} (P : A → bool) (l : list A) :
  length (filter (λ a, P a = true) l) = 1 →
  ∃ l1 a l2, l = l1 ++ a :: l2 ∧ P a = true ∧ ∀ b, b ∈ l1 ++ l2 → P b = false.
Proof.
  induction l as [|a l IH]; [done|]. rewrite filter_cons. case_decide as Ha.
  - cbn [length]. intros Hl. exists [], a, l. split; [done|]. split; [done|]. cbn [app]. intros b Hb.
    destruct (P b) eqn:Eb; [|done]. exfalso. assert (b ∈ filter (λ a, P a = true) l) as Hbf by (by apply list_elem_of_filter).
    destruct (filter _ l); [by apply not_elem_of_nil in Hbf|cbn in Hl; lia].
  - intros Hl. destruct (IH Hl) as (l1&a0&l2&->&Ha0&Hrest). exists (a :: l1), a0, l2. split; [done|]. split; [done|].
    intros b [->|Hb]%elem_of_cons; [by destruct (P a)|by apply Hrest].
Qed.

Lemma check_imports_spec s c :
  check_imports s = Ok tt → c ∈ ws_windows s → empty_range (wp_imports (sw_output c)) = false →
  ∃ l1 d l2, sw_inputs c = l1 ++ d :: l2 ∧ is_residual s d = true ∧ ∀ b, b ∈ l1 ++ l2 → is_residual s b = false.
Proof.
  intros Hc Hin He. unfold check_imports in Hc. pose proof (foldM_each _ _ Hc c Hin) as Hf. cbn in Hf. rewrite He in Hf.
  apply bind_ok in Hf as (k&Hk&Hf). apply throw_if_ok, negb_false_iff, Nat.eqb_eq in Hf. subst k.
  apply (filter_one (is_residual s)). symmetry. revert Hk.
  apply (foldM_ok_inv _ (λ pre k, k = length (filter (λ a, is_residual s a = true) pre))); [done|].
  intros pre d post k k' _ -> Hf. rewrite list.filter_app, length_app, filter_cons, filter_nil.
  destruct (wd_exists d) eqn:Ex; cbn [negb] in Hf.
  - apply bind_ok in Hf as (p&Hp&Hf). apply bind_ok in Hf as (send&Hs&[= <-]).
    assert (is_residual s d = bool_decide (ws_mode send = send_residual)) as Er by (unfold is_residual; by rewrite Ex, Hp, Hs).
    case_bool_decide; [rewrite decide_True by done|rewrite decide_False by congruence]; cbn [length]; lia.
  - injection Hf as <-. rewrite decide_False by (unfold is_residual; by rewrite Ex). cbn [length]. lia.
Qed.

(** ** Rows *)

Lemma sends_round_ok p c q :
  sends_round p c q = Ok true →
  ∃ d send r, d ∈ sw_inputs c ∧ (wd_from_node d, wd_k d) = key_of p ∧ send_of p d = Ok send ∧ r ∈ ws_rounds send ∧ in_range r q.
Proof.
  unfold sends_round. induction (sw_inputs c) as [|d l IH]; [done|]. cbn [sends_from]. intros Hs.
  destruct (String.eqb_spec (wd_from_node d) (sw_node p)) as [Hn|]; cbn [negb orb] in Hs.
  - destruct (Z.eqb_spec (wd_k d) (sw_k p)) as [Hk|]; cbn [negb] in Hs.
    + apply bind_ok in Hs as (send&Hsend&Hs). destruct (existsb _ _) eqn:Ex.
      * apply existsb_exists in Ex as (r&Hr%list_elem_of_In&Hc%contains_in). exists d, send, r. split; [by left|].
        unfold key_of. by rewrite Hn, Hk.
      * destruct (IH Hs) as (d'&send'&r&?&?). exists d', send', r. split; [by right|done].
    + destruct (IH Hs) as (d'&send'&r&?&?). exists d', send', r. split; [by right|done].
  - destruct (IH Hs) as (d'&send'&r&?&?). exists d', send', r. split; [by right|done].
Qed.

Definition touched (x : option nat) : bool := match x with Some _ => true | None => false end.

(** The finalizer of a touched row, and the sends it gets. *)
Lemma check_row_spec s index q own incoming :
  check_row s index q own incoming = Ok tt → touched own || touched incoming = true →
  ∃ h i f, holders index !! q = Some h ∧ i ∈ h ∧ ws_windows s !! i = Some f ∧
    finalizes f (Z.of_nat q) (touched own) (touched incoming) = true ∧
    ∀ x, (x = Z.of_nat q ∧ touched own = true) ∨ (x = Z.of_nat q - 1 ∧ touched incoming = true)%Z →
      ∃ cm, committers index !! to_size x = Some cm ∧
        ∀ j p, j ∈ cm → j ≠ i → ws_windows s !! j = Some p → sends_round p f (Z.of_nat q) = Ok true.
Proof.
  intros Hc Ht. unfold check_row in Hc. cbv zeta in Hc. fold (touched own) in Hc. fold (touched incoming) in Hc.
  assert (negb (touched own) && negb (touched incoming) = false) as Hno by (destruct (touched own), (touched incoming); done).
  rewrite Hno in Hc. apply bind_ok in Hc as (h&Hh&Hc). unfold vget in Hh. destruct (holders index !! q) as [h'|]; [|done]. injection Hh as ->.
  apply bind_ok in Hc as (fin&Hfin&Hc). apply bind_ok in Hc as ([]&_&Hc). apply bind_ok in Hc as ([]&_&Hc).
  apply bind_ok in Hc as (i&Hi&Hc). apply bind_ok in Hc as (f&Hf&Hc).
  assert (∀ j, j ∈ fin → j ∈ h ∧ ∃ w, ws_windows s !! j = Some w ∧ finalizes w (Z.of_nat q) (touched own) (touched incoming) = true) as Hall.
  { revert Hfin. apply (foldM_ok_inv _ (λ pre fin, ∀ j, j ∈ fin → j ∈ pre ∧ ∃ w, ws_windows s !! j = Some w ∧
      finalizes w (Z.of_nat q) (touched own) (touched incoming) = true)).
    - intros j Hj. by apply not_elem_of_nil in Hj.
    - intros pre j post l l' _ IH Hs. apply bind_ok in Hs as (w&Hw&[= <-]). unfold vget in Hw. destruct (ws_windows s !! j) as [w'|] eqn:Ew; [|done].
      injection Hw as ->. intros x Hx.
      destruct (finalizes w (Z.of_nat q) (touched own) (touched incoming)) eqn:Efz.
      + apply elem_of_app in Hx as [Hx|Hx%list_elem_of_singleton].
        * destruct (IH x Hx) as [? ?]. split; [apply elem_of_app; by left|done].
        * subst x. split; [apply elem_of_app; right; by left|]. by exists w.
      + destruct (IH x Hx) as [? ?]. split; [apply elem_of_app; by left|done]. }
  unfold vget in Hi, Hf. destruct (fin !! 0) as [i'|] eqn:Ei; [|done]. injection Hi as ->.
  destruct (ws_windows s !! i) as [f'|] eqn:Ef; [|done]. injection Hf as ->.
  destruct (Hall i) as [Hih (w&Hw&Hfz)]; [by eapply list_elem_of_lookup_2|]. rewrite Ef in Hw. injection Hw as <-.
  exists h, i, f. do 4 (split; [done|]). intros x Hx.
  assert ((x, true) ∈ [(Z.of_nat q, touched own); ((Z.of_nat q - 1)%Z, touched incoming)]) as Hin.
  { destruct Hx as [[-> ->]|[-> ->]]; [by left|by right; left]. }
  pose proof (foldM_each _ _ Hc _ Hin) as Hf. cbn [negb snd fst] in Hf. apply bind_ok in Hf as (cm&Hcm&Hf).
  exists cm. unfold vget in Hcm. destruct (committers index !! to_size x) as [cm'|]; [|done]. injection Hcm as ->. split; [done|].
  intros j p Hj Hne Hp. pose proof (foldM_each _ _ Hf j Hj) as Hs. cbn in Hs. unfold vget in Hs. rewrite Hp in Hs. cbn [mbind res_bind] in Hs.
  assert ((j =? i) = false) as Hji by (by apply Nat.eqb_neq). rewrite Hji in Hs. apply bind_ok in Hs as (b&Hb&Hs).
  apply throw_if_ok, negb_false_iff in Hs. by subst b.
Qed.

Lemma check_rows_spec s index touch q tc i own :
  check_rows s index touch = Ok tt → q < ws_num_rounds s → touch !! q = Some tc → ct_own tc !! i = Some own →
  check_row s index q own (if 0 <? q then from_option (λ prev, default None (ct_next prev !! i)) None (touch !! (q - 1)) else None) = Ok tt.
Proof.
  intros Hc Hq Htc Hi. pose proof (for_u_each _ _ _ Hc q ltac:(lia)) as Hf. cbv beta in Hf. rewrite (vget_ok _ _ _ Htc) in Hf. cbn [mbind res_bind] in Hf.
  apply bind_ok in Hf as (inc&Hinc&Hf). pose proof (for_u_each _ _ _ Hf i ltac:(apply lookup_lt_Some in Hi; lia)) as Hr. cbv beta in Hr.
  rewrite (vget_ok _ _ _ Hi) in Hr. cbn [mbind res_bind] in Hr. rewrite <-Hr. f_equal.
  assert (∀ l : list (option nat), (if i <? length l then default None (l !! i) else None) = default None (l !! i)) as Hd.
  { intros l. destruct (Nat.ltb_spec i (length l)); [done|]. by rewrite lookup_ge_None_2. }
  rewrite Hd. destruct (0 <? q); [|by injection Hinc as <-].
  apply bind_ok in Hinc as (prev&Hp&[= <-]). unfold vget in Hp. destruct (touch !! (q - 1)); [|done]. by injection Hp as ->.
Qed.
End checks.
