(* ===== verification/CommitRun.v ===== *)
(** * Running an accepted schedule

    Every window of a schedule with accepted deliveries fires; its detectors are
    those of the shot on its own rows, flipped by the deltas that cover them,
    and those that its residual carries on the imported rows. *)

From Stdlib Require Import QArith.
From S2P Require Import Prelude Rates Ordering Tensor SparseMatrix SparseFacts SparseCanon RoundLayout DetectorErrorModel Decoder ExtendedDem ExtendedFacts ExtendedChunk ExtendedStitch ExtendedChain ExtendedAll ExtendedProps ExtendedClose ExtendedStreams ChunkSpec ExperimentTemplate WindowRequest WindowRequestFacts WindowModel WindowWorkload Commitment WorkloadFacts WindowShot WindowPlace WindowBuild ShotRun CommitFacts.

Open Scope nat_scope.

Section run.
Context {R : Type} `{RateOps R}.
Context (t : experiment_template R) (n : nat) (cs : list (extended_dem R)) (Hshot : shot_ok t n cs).
Context (ref : template_ref R) (Href : ref_template ref = t).
Abbreviation base := (base (sc_to_seam (spec_seam (t_spec t))) cs).
Abbreviation fb := (faults_before cs).

Lemma window_placed q k m2o (x : decoding_window R) :
  window_from_dem_chunks (Some ref) q k n m2o = Ok x → place_window (Some ref) q k n = Ok (dw_placed x).
Proof.
  unfold window_from_dem_chunks. intros Hw. apply bind_ok in Hw as (pw&Hpw&Hw). cbv zeta in Hw.
  repeat (let y := fresh in let Hy := fresh in apply bind_ok in Hw as (y&Hy&Hw); clear Hy). by injection Hw as <-.
Qed.

Section schedule.
Context (layers : list (window_layer R)) (sch : window_schedule R) (wins : list (decoding_window R)).
Context (Hsched : Forall (scheduled ref layers n) (ws_windows sch)).

(** The windows are those of the schedule's layers. *)
Definition built_windows : Prop :=
  Forall2 (λ w x, ∃ layer m2o, find_layer layers (sw_node w) = Some layer ∧
    window_from_dem_chunks (Some ref) (wl_request layer) (sw_k w) n m2o = Ok x) (ws_windows sch) wins.
Context (Hwins : built_windows).

(** Window [i] of the schedule, placed at rounds [s, e) with commit rounds
    [cb, ce) and imports up to [ie]. *)
Record geometry (i : nat) (w : scheduled_window R) (x : decoding_window R) (s e cb ce ie : nat) (hcols ocols : list (list nat)) : Prop := {
  gm_w : ws_windows sch !! i = Some w;
  gm_x : wins !! i = Some x;
  gm_built : ∃ q k, window_built t n cs q ref k x s e cb ce ie hcols ocols;
  gm_rounds : sw_rounds w = mk_range (Z.of_nat s) (Z.of_nat e);
  gm_commit : sw_commit w = mk_range (Z.of_nat cb) (Z.of_nat ce);
  gm_input : sw_input w = pw_input (dw_placed x);
  gm_output : sw_output w = pw_output (dw_placed x);
  gm_sends : sw_sends w = pw_sends (dw_placed x);
  gm_bounds : s ≤ cb ∧ cb < ce ∧ ce ≤ e ∧ e ≤ ie ∧ ie ≤ n;
  gm_imports : (empty_range (wp_imports (sw_output w)) = true ∧ ie = e) ∨
    (wp_imports (sw_output w) = mk_range (Z.of_nat e) (Z.of_nat ie) ∧ e < ie)
}.

Lemma geometry_of i w : ws_windows sch !! i = Some w → ∃ x s e cb ce ie hcols ocols, geometry i w x s e cb ce ie hcols ocols.
Proof.
  intros Hw. destruct (Forall2_lookup_l _ _ _ _ _ Hwins Hw) as (x&Hx&layer&m2o&Hl&Hf).
  destruct (window_from_dem_chunks_built t n cs Hshot _ _ _ _ _ Href Hf) as (s&e&cb&ce&ie&hc&oc&Hb).
  pose proof (window_placed _ _ _ _ Hf) as Hp. rewrite Forall_lookup in Hsched.
  destruct (sd_layer _ _ _ _ (Hsched i w Hw)) as (layer'&pw&inst&Hl'&Hp'&_&_&E1&E2&E3&E4&E5). rewrite Hl in Hl'. injection Hl' as <-.
  rewrite Hp in Hp'. injection Hp' as <-. pose proof (wb_placed _ _ _ _ _ _ _ _ _ _ _ _ _ _ Hb) as Hpk.
  exists x, s, e, cb, ce, ie, hc, oc. split; [done|done|by eexists _, _| | |done|done|done| |].
  - by rewrite E1, (pk_rounds _ _ _ _ _ _ _ _ _ _ _ _ Hpk).
  - by rewrite E2, (pk_commit _ _ _ _ _ _ _ _ _ _ _ _ Hpk).
  - apply (pk_bounds _ _ _ _ _ _ _ _ _ _ _ _ Hpk).
  - rewrite E4. destruct (pk_imports _ _ _ _ _ _ _ _ _ _ _ _ Hpk) as [(?&_&?)|[? ?]]; [by left|by right].
Qed.

(** The rounds of the ranges of a placed send. *)
Lemma elem_of_rounds l q : q ∈ rounds_of l ↔ ∃ r, r ∈ l ∧ in_range r q.
Proof.
  unfold rounds_of. rewrite elem_of_concat. split.
  - intros (z&(r&->&Hr)%list_elem_of_fmap&Hq%elem_of_z_range). by exists r.
  - intros (r&Hr&Hq). exists (z_range (rr_begin r) (rr_end r)). split; [|by apply elem_of_z_range].
    apply list_elem_of_fmap. by exists r.
Qed.

(** A send covers the rows of its rounds. *)
Lemma covers_round s e send q row :
  placed_send t cs s e send → in_row t cs q row → covers t cs s send row = true ↔ ∃ r, r ∈ ws_rounds send ∧ in_range r (Z.of_nat q).
Proof.
  intros Hps [Hq1 Hq2]. unfold covers. rewrite bool_decide_eq_true. pose proof (ps_ranges _ _ _ _ _ Hps) as HF. rewrite Forall_forall in HF. split.
  - intros [Hs (r&Hr&Hb)%(ps_rows _ _ _ _ _ Hps)]. exists r. split; [done|]. destruct (HF r Hr) as (I1&I2&I3). unfold in_range.
    replace (base s + (row - base s)) with row in Hb by lia.
    destruct (decide (rr_begin r ≤ Z.of_nat q)%Z); [|pose proof (base_mono t cs (S q) (Z.to_nat (rr_begin r))); lia].
    destruct (decide (Z.of_nat q < rr_end r)%Z); [lia|]. pose proof (base_mono t cs (Z.to_nat (rr_end r)) q). lia.
  - intros (r&Hr&Hin). destruct (HF r Hr) as (I1&I2&I3). unfold in_range in Hin.
    pose proof (base_mono t cs s q ltac:(lia)). split; [lia|]. apply (ps_rows _ _ _ _ _ Hps). exists r. split; [done|].
    pose proof (base_mono t cs (Z.to_nat (rr_begin r)) q ltac:(lia)). pose proof (base_mono t cs (S q) (Z.to_nat (rr_end r)) ltac:(lia)). lia.
Qed.

(** ** Deliveries *)

Context (Hdel : check_deliveries sch = Ok tt).

(** Input [d] of window [i] takes send [j] of window [p]. *)
Record feeds (s e ie : nat) (d : window_dependency) (p : nat) (sx : decoding_window R) (s' e' cb' ce' ie' : nat)
    (hcols ocols : list (list nat)) (j : nat) (send : window_send) : Prop := {
  fe_pos : positions sch !! (wd_from_node d, wd_k d) = Some p;
  fe_geo : ∃ pw, geometry p pw sx s' e' cb' ce' ie' hcols ocols ∧ producer_of sch d = Ok pw ∧ send_of pw d = Ok send;
  fe_find : find_send sx (wd_from_output d) = Some j;
  fe_send : pw_sends (dw_placed sx) !! j = Some send;
  fe_placed : placed_send t cs s' e' send;
  fe_lands : lands s e ie send;
  fe_imports : ws_mode send = send_residual → ∀ q, e ≤ q < ie → ∃ r, r ∈ ws_rounds send ∧ in_range r (Z.of_nat q)
}.

Lemma input_producer i w x s e cb ce ie hcols ocols d :
  geometry i w x s e cb ce ie hcols ocols → d ∈ sw_inputs w → wd_exists d = true →
  ∃ p pw, positions sch !! (wd_from_node d, wd_k d) = Some p ∧ ws_windows sch !! p = Some pw.
Proof.
  intros Hg Hd He. pose proof (gm_w _ _ _ _ _ _ _ _ _ _ Hg) as Hw.
  destruct (check_deliveries_spec sch w d Hdel (list_elem_of_lookup_2 _ _ _ Hw) Hd He) as (pw&send&[Hp Hs Hr]).
  destruct (producer_of_ok _ _ _ Hp) as (p&Hpos&Hpw). by exists p, pw.
Qed.

Lemma input_feeds i w x s e cb ce ie hcols ocols d p pw sx s' e' cb' ce' ie' hc oc :
  geometry i w x s e cb ce ie hcols ocols → d ∈ sw_inputs w → wd_exists d = true →
  positions sch !! (wd_from_node d, wd_k d) = Some p → geometry p pw sx s' e' cb' ce' ie' hc oc →
  ∃ j send, feeds s e ie d p sx s' e' cb' ce' ie' hc oc j send.
Proof.
  intros Hg Hd He Hpos Hg'. pose proof (gm_w _ _ _ _ _ _ _ _ _ _ Hg) as Hw.
  destruct (check_deliveries_spec sch w d Hdel (list_elem_of_lookup_2 _ _ _ Hw) Hd He) as (pw'&send&[Hp Hs Hr]).
  destruct (producer_of_ok _ _ _ Hp) as (p'&Hpos'&Hpw). rewrite Hpos in Hpos'. injection Hpos' as <-.
  rewrite (gm_w _ _ _ _ _ _ _ _ _ _ Hg') in Hpw. injection Hpw as <-. destruct (send_of_ok _ _ _ Hs) as (j&Hj).
  exists j, send. rewrite (gm_sends _ _ _ _ _ _ _ _ _ _ Hg') in Hj.
  assert (pw_sends (dw_placed sx) !! j = Some send) as Hjs by (by apply list_find_Some in Hj as (?&_)).
  destruct (gm_built _ _ _ _ _ _ _ _ _ _ Hg') as (q&k&Hb).
  pose proof (placed_send_of t n cs ref sx q k _ _ _ _ _ (wb_placed _ _ _ _ _ _ _ _ _ _ _ _ _ _ Hb) j send Hjs) as Hps.
  pose proof (gm_imports _ _ _ _ _ _ _ _ _ _ Hg) as Him. split; [done|by exists pw|unfold find_send; by rewrite Hj|done|done| |].
  - pose proof (ps_ranges _ _ _ _ _ Hps) as HF. unfold lands. destruct (ws_mode send).
    + rewrite (gm_rounds _ _ _ _ _ _ _ _ _ _ Hg) in Hr. cbn [rr_begin rr_end] in Hr. rewrite Forall_forall in Hr, HF |- *.
      intros r Hin. destruct (HF r Hin) as (?&?&?). specialize (Hr r Hin). unfold inside. lia.
    + rewrite Forall_forall in HF |- *. intros r Hin. destruct (HF r Hin) as (?&?&?).
      assert (∀ z, in_range r z → in_range (wp_imports (sw_output w)) z) as Hsub.
      { intros z Hz. apply elem_of_z_range. rewrite <-Hr. apply elem_of_rounds. by exists r. }
      pose proof (Hsub (rr_begin r) ltac:(unfold in_range; lia)) as HA. pose proof (Hsub (rr_end r - 1)%Z ltac:(unfold in_range; lia)) as HB.
      destruct Him as [[Hemp _]|[Heq _]].
      * unfold empty_range in Hemp. apply Z.leb_le in Hemp. unfold in_range in HA. lia.
      * rewrite Heq in HA, HB. unfold in_range in HA, HB. cbn in HA, HB. unfold inside. lia.
  - intros Hm q0 Hq. rewrite Hm in Hr. apply elem_of_rounds. rewrite Hr. apply elem_of_z_range.
    destruct Him as [[_ ->]|[-> _]]; [lia|]. cbn. lia.
Qed.

(** ** Receiving *)

(** Window [p] has fired: its detectors and solution are those of [fr]. *)
Definition fired_as (done : list (option fired)) p pw sx s e cb ce ie hcols ocols fr : Prop :=
  geometry p pw sx s e cb ce ie hcols ocols ∧ done !! p = Some (Some fr) ∧ solved sx hcols ocols fr.

(** The bit that a send carries for shot row [row]. *)
Definition carried (mode : send_mode) sx (fr : fired) (row : nat) : bool :=
  match mode with send_delta => delta_at t cs sx fr row | send_residual => xorb (det_at t cs sx fr row) (delta_at t cs sx fr row) end.

Lemma receive_step i w x s e cb ce ie hcols ocols d p pw sx s' e' cb' ce' ie' hc oc fr j send done det :
  geometry i w x s e cb ce ie hcols ocols → wd_exists d = true →
  fired_as done p pw sx s' e' cb' ce' ie' hc oc fr → feeds s e ie d p sx s' e' cb' ce' ie' hc oc j send →
  receive_input sch wins done x d (vec (base ie - base s) det) =
    Ok (vec (base ie - base s) (λ r, if covers t cs s' send (base s + r)
      then received (ws_mode send) (det r) (carried (ws_mode send) sx fr (base s + r)) else det r)).
Proof.
  intros Hg He (Hg'&Hdone&Hsol) Hf. unfold receive_input. rewrite He, (fe_pos _ _ _ _ _ _ _ _ _ _ _ _ _ _ _ Hf). cbn [negb].
  rewrite (vget_ok _ _ _ (gm_x _ _ _ _ _ _ _ _ _ _ Hg')). cbn [mbind res_bind]. rewrite (vget_ok _ _ _ Hdone). cbn [mbind res_bind].
  rewrite (fe_find _ _ _ _ _ _ _ _ _ _ _ _ _ _ _ Hf). destruct (gm_built _ _ _ _ _ _ _ _ _ _ Hg') as (q'&k'&Hb').
  pose proof (fe_send _ _ _ _ _ _ _ _ _ _ _ _ _ _ _ Hf) as Hj.
  rewrite (vget_ok _ _ _ (sent_values t n cs Hshot ref Href q' k' sx s' e' cb' ce' ie' hc oc Hb' fr j send Hsol Hj)). cbn [mbind res_bind].
  destruct (gm_built _ _ _ _ _ _ _ _ _ _ Hg) as (q&k&Hb).
  rewrite (receive_send_eq t n cs Hshot ref Href x sx q q' k k' s e cb ce ie s' e' cb' ce' ie'
    (wb_placed _ _ _ _ _ _ _ _ _ _ _ _ _ _ Hb) (wb_placed _ _ _ _ _ _ _ _ _ _ _ _ _ _ Hb')
    (wb_own _ _ _ _ _ _ _ _ _ _ _ _ _ _ Hb) (wb_rows _ _ _ _ _ _ _ _ _ _ _ _ _ _ Hb) j send _ det Hj (fe_lands _ _ _ _ _ _ _ _ _ _ _ _ _ _ _ Hf)).
  f_equal. apply vec_ext. intros r Hr. destruct (covers t cs s' send (base s + r)) eqn:Ec; [|done]. f_equal.
  unfold covers in Ec. apply bool_decide_eq_true in Ec as [Hle _]. unfold send_bit, carried.
  replace (base s' + (base s + r - base s')) with (base s + r) by lia. by destruct (ws_mode send).
Qed.

(** The windows whose deltas reach shot row [row] through [inputs]. *)
Definition window_delta (done : list (option fired)) (row p : nat) : bool :=
  match wins !! p, done !! p with Some sx, Some (Some fr) => delta_at t cs sx fr row | _, _ => false end.
Definition delta_source (row : nat) (d : window_dependency) : option nat :=
  guard (wd_exists d = true);;
  p ← positions sch !! (wd_from_node d, wd_k d);
  sx ← wins !! p;
  j ← find_send sx (wd_from_output d);
  send ← pw_sends (dw_placed sx) !! j;
  guard (ws_mode send = send_delta ∧ covers t cs (start sx) send row = true);;
  Some p.

Lemma delta_source_eq s e ie d p sx s' e' cb' ce' ie' hc oc j send row :
  wd_exists d = true → feeds s e ie d p sx s' e' cb' ce' ie' hc oc j send →
  delta_source row d = (if bool_decide (ws_mode send = send_delta ∧ covers t cs s' send row = true) then Some p else None).
Proof.
  intros He Hf. unfold delta_source. rewrite (fe_pos _ _ _ _ _ _ _ _ _ _ _ _ _ _ _ Hf).
  destruct (fe_geo _ _ _ _ _ _ _ _ _ _ _ _ _ _ _ Hf) as (pw&Hg&_&_). destruct (gm_built _ _ _ _ _ _ _ _ _ _ Hg) as (q&k&Hb).
  case_guard; [|done]. cbn. rewrite (gm_x _ _ _ _ _ _ _ _ _ _ Hg). cbn. rewrite (fe_find _ _ _ _ _ _ _ _ _ _ _ _ _ _ _ Hf). cbn.
  rewrite (fe_send _ _ _ _ _ _ _ _ _ _ _ _ _ _ _ Hf). cbn. rewrite (start_eq t n cs ref q k sx _ _ _ _ _ _ _ Hb).
  case_guard; [by rewrite bool_decide_eq_true_2|by rewrite bool_decide_eq_false_2].
Qed.

Lemma is_residual_eq s e ie d p sx s' e' cb' ce' ie' hc oc j send :
  wd_exists d = true → feeds s e ie d p sx s' e' cb' ce' ie' hc oc j send →
  is_residual sch d = bool_decide (ws_mode send = send_residual).
Proof.
  intros He Hf. destruct (fe_geo _ _ _ _ _ _ _ _ _ _ _ _ _ _ _ Hf) as (pw&_&Hp&Hs). unfold is_residual. by rewrite He, Hp, Hs.
Qed.

(** ** The detectors of a window *)

Context (D : nat → bool).

Record detected done (inputs : list window_dependency) (s e ie : nat) (det : nat → bool) : Prop := {
  dt_own : ∀ r, r < base e - base s →
    det r = xorb (D (base s + r)) (xsum (window_delta done (base s + r) <$> omap (delta_source (base s + r)) inputs));
  dt_import : ∀ r l1 d l2, base e - base s ≤ r < base ie - base s → inputs = l1 ++ d :: l2 →
    is_residual sch d = true → (∀ b, b ∈ l1 ++ l2 → is_residual sch b = false) →
    ∃ p pw sx s' e' cb' ce' ie' hc oc fr, positions sch !! (wd_from_node d, wd_k d) = Some p ∧
      fired_as done p pw sx s' e' cb' ce' ie' hc oc fr ∧ base s' ≤ base s + r < base e' ∧
      det r = xorb (det_at t cs sx fr (base s + r)) (delta_at t cs sx fr (base s + r))
}.

Lemma own_detectors_eq i w x s e cb ce ie hcols ocols :
  geometry i w x s e cb ce ie hcols ocols →
  own_detectors x (vec (base n) D) = Ok (vec (base ie - base s) (λ r, (r <? base e - base s) && D (base s + r))).
Proof.
  intros Hg. destruct (gm_built _ _ _ _ _ _ _ _ _ _ Hg) as (q&k&Hb). pose proof (wb_placed _ _ _ _ _ _ _ _ _ _ _ _ _ _ Hb) as Hp.
  destruct (gm_bounds _ _ _ _ _ _ _ _ _ _ Hg) as (B1&B2&B3&B4&B5). unfold own_detectors.
  rewrite (pk_context _ _ _ _ _ _ _ _ _ _ _ _ Hp), (pk_rounds _ _ _ _ _ _ _ _ _ _ _ _ Hp), (pk_shot _ _ _ _ _ _ _ _ _ _ _ _ Hp), Href.
  cbn [rr_begin]. rewrite (row_offset_z t n cs Hshot) by lia. cbn [mbind res_bind]. f_equal.
  rewrite (wb_own _ _ _ _ _ _ _ _ _ _ _ _ _ _ Hb), (wb_rows _ _ _ _ _ _ _ _ _ _ _ _ _ _ Hb).
  pose proof (base_mono t cs s e ltac:(lia)). pose proof (base_mono t cs e ie ltac:(lia)). pose proof (base_mono t cs ie n ltac:(lia)).
  assert (length (take (base e - base s) (drop (base s) (vec (base n) D))) = base e - base s) as Hl.
  { rewrite length_take, length_drop, length_vec. lia. }
  apply list_eq. intros r. destruct (decide (r < base ie - base s)) as [Hr|Hr].
  - rewrite lookup_vec by done. destruct (Nat.ltb_spec r (base e - base s)) as [Hlt|Hge].
    + rewrite lookup_app_l by lia. rewrite lookup_take_lt, lookup_drop by done. by rewrite lookup_vec by lia.
    + rewrite lookup_app_r by lia. rewrite lookup_replicate_2 by lia. done.
  - rewrite !lookup_ge_None_2; [done|rewrite length_vec; lia|rewrite length_app, length_replicate; lia].
Qed.

Lemma snoc_split {A} (pre l1 l2 : list A) a b :
  pre ++ [b] = l1 ++ a :: l2 → (l2 = [] ∧ a = b ∧ pre = l1) ∨ ∃ l2', l2 = l2' ++ [b] ∧ pre = l1 ++ a :: l2'.
Proof.
  destruct l2 as [|c l2 _] using rev_ind; intros Heq.
  - apply app_inj_tail in Heq as [-> ->]. by left.
  - rewrite app_comm_cons, app_assoc in Heq. apply app_inj_tail in Heq as [-> ->]. right. by exists l2.
Qed.

(** One more input. *)
Lemma detected_skip done pre d s e ie det :
  detected done pre s e ie det → (∀ row, delta_source row d = None) → is_residual sch d = false → detected done (pre ++ [d]) s e ie det.
Proof.
  intros [Ho Hi] Hn Hr. split.
  - intros r Hlt. rewrite (Ho r Hlt), omap_app. cbn. by rewrite Hn, app_nil_r.
  - intros r l1 d0 l2 Hlt Hsp Hd0 Hrest. apply snoc_split in Hsp as [(->&->&->)|(l2'&->&->)]; [congruence|].
    eapply Hi; [done|done|done|]. intros b Hb. apply Hrest. set_solver.
Qed.

Lemma detected_step i w x s e cb ce ie hcols ocols d p pw sx s' e' cb' ce' ie' hc oc fr j send done pre det :
  geometry i w x s e cb ce ie hcols ocols → wd_exists d = true →
  fired_as done p pw sx s' e' cb' ce' ie' hc oc fr → feeds s e ie d p sx s' e' cb' ce' ie' hc oc j send →
  detected done pre s e ie det →
  detected done (pre ++ [d]) s e ie (λ r, if covers t cs s' send (base s + r)
    then received (ws_mode send) (det r) (carried (ws_mode send) sx fr (base s + r)) else det r).
Proof.
  intros Hg He Hfa Hf [Ho Hi]. pose proof (is_residual_eq _ _ _ _ _ _ _ _ _ _ _ _ _ _ _ He Hf) as Hres.
  pose proof (fe_placed _ _ _ _ _ _ _ _ _ _ _ _ _ _ _ Hf) as Hps. pose proof (fe_lands _ _ _ _ _ _ _ _ _ _ _ _ _ _ _ Hf) as Hl.
  destruct (gm_bounds _ _ _ _ _ _ _ _ _ _ Hg) as (B1&B2&B3&B4&B5). destruct (gm_built _ _ _ _ _ _ _ _ _ _ Hg) as (q&k&Hb).
  pose proof (base_mono t cs s e ltac:(lia)) as Mse.
  assert (∀ row, covers t cs s' send row = true → match ws_mode send with
    send_delta => base s ≤ row < base e | send_residual => base e ≤ row < base ie end) as Hcov.
  { intros row [Hle Hin]%bool_decide_eq_true.
    pose proof (landed_rows t n cs ref x q k s e cb ce ie s' e' (wb_placed _ _ _ _ _ _ _ _ _ _ _ _ _ _ Hb) send _ Hps Hl Hin) as Hrow.
    by replace (base s' + (row - base s')) with row in Hrow by lia. }
  pose proof Hfa as (Hg'&Hdone&_). split.
  - intros r Hlt. rewrite omap_app, fmap_app, xsum_app. cbn [omap list_omap]. rewrite (delta_source_eq _ _ _ _ _ _ _ _ _ _ _ _ _ _ _ _ He Hf).
    specialize (Hcov (base s + r)). rewrite (Ho r Hlt). destruct (covers t cs s' send (base s + r)) eqn:Ec.
    + destruct (ws_mode send); [|specialize (Hcov eq_refl); lia]. rewrite bool_decide_eq_true_2 by done. cbn [fmap list_fmap xsum foldr received carried].
      assert (window_delta done (base s + r) p = delta_at t cs sx fr (base s + r)) as ->
        by (unfold window_delta; by rewrite (gm_x _ _ _ _ _ _ _ _ _ _ Hg'), Hdone).
      by rewrite xorb_false_r, xorb_assoc.
    + rewrite bool_decide_eq_false_2 by (by intros [_ ?]). cbn. by rewrite xorb_false_r.
  - intros r l1 d0 l2 Hlt Hsp Hd0 Hrest. specialize (Hcov (base s + r)).
    apply snoc_split in Hsp as [(->&->&->)|(l2'&->&->)].
    + rewrite Hres, bool_decide_eq_true in Hd0. exists p, pw, sx, s', e', cb', ce', ie', hc, oc, fr.
      destruct (row_round t cs e ie (base s + r) ltac:(lia) ltac:(lia)) as (q0&Hq0&Hrow).
      pose proof (fe_imports _ _ _ _ _ _ _ _ _ _ _ _ _ _ _ Hf Hd0 q0 Hq0) as Hin.
      assert (covers t cs s' send (base s + r) = true) as Hc by (by eapply covers_round). rewrite Hc, Hd0.
      split; [apply (fe_pos _ _ _ _ _ _ _ _ _ _ _ _ _ _ _ Hf)|]. split; [done|]. split; [|done].
      destruct Hin as (rg&Hrg&Hq). pose proof (ps_ranges _ _ _ _ _ Hps) as HF. rewrite Forall_forall in HF.
      destruct (HF rg Hrg) as (I1&I2&I3). destruct Hrow as [Hr1 Hr2]. unfold in_range in Hq.
      pose proof (base_mono t cs s' q0 ltac:(lia)). pose proof (base_mono t cs (S q0) e' ltac:(lia)). lia.
    + destruct (Hi r l1 d0 l2' Hlt eq_refl Hd0) as (p0&pw0&sx0&s0&e0&cb0&ce0&ie0&hc0&oc0&fr0&Hp0&Hf0&Hb0&Hdet); [intros b Hb0; apply Hrest; set_solver|].
      exists p0, pw0, sx0, s0, e0, cb0, ce0, ie0, hc0, oc0, fr0. split_and!; [done|done|lia|lia|].
      destruct (covers t cs s' send (base s + r)); [|done]. exfalso.
      assert (is_residual sch d = false) as Hd by (apply Hrest; set_solver). rewrite Hres in Hd. apply bool_decide_eq_false in Hd.
      destruct (ws_mode send); [|done]. specialize (Hcov eq_refl). lia.
Qed.

Lemma window_detectors_ok i w x s e cb ce ie hcols ocols done :
  geometry i w x s e cb ce ie hcols ocols →
  (∀ d p, d ∈ sw_inputs w → wd_exists d = true → positions sch !! (wd_from_node d, wd_k d) = Some p →
    ∃ pw sx s' e' cb' ce' ie' hc oc fr, fired_as done p pw sx s' e' cb' ce' ie' hc oc fr) →
  returns (window_detectors sch wins done (vec (base n) D) i) (λ v, ∃ det, v = vec (base ie - base s) det ∧ detected done (sw_inputs w) s e ie det).
Proof.
  intros Hg Hready. unfold window_detectors. rewrite (vget_ok _ _ _ (gm_x _ _ _ _ _ _ _ _ _ _ Hg)). cbn [mbind res_bind].
  rewrite (vget_ok _ _ _ (gm_w _ _ _ _ _ _ _ _ _ _ Hg)). cbn [mbind res_bind].
  rewrite (own_detectors_eq _ _ _ _ _ _ _ _ _ _ Hg). cbn [mbind res_bind].
  apply (foldM_inv _ (λ pre v, ∃ det, v = vec (base ie - base s) det ∧ detected done pre s e ie det)).
  - eexists. split; [done|]. split.
    + intros r Hr. apply Nat.ltb_lt in Hr. rewrite Hr. cbn [omap list_omap fmap list_fmap xsum foldr andb]. by rewrite xorb_false_r.
    + intros r l1 d l2 _ Hsp. by destruct l1.
  - intros pre d post v Hsp (det&->&Hdet). assert (d ∈ sw_inputs w) as Hd by (rewrite Hsp; set_solver).
    destruct (wd_exists d) eqn:He.
    + destruct (input_producer _ _ _ _ _ _ _ _ _ _ d Hg Hd He) as (p&pw0&Hpos&_).
      destruct (Hready d p Hd He Hpos) as (pw&sx&s'&e'&cb'&ce'&ie'&hc&oc&fr&Hfa).
      destruct (input_feeds _ _ _ _ _ _ _ _ _ _ d p _ _ _ _ _ _ _ _ _ Hg Hd He Hpos (proj1 Hfa)) as (j&send&Hf).
      rewrite (receive_step _ _ _ _ _ _ _ _ _ _ d p _ _ _ _ _ _ _ _ _ _ j send done det Hg He Hfa Hf). apply returns_ok.
      eexists. split; [done|]. by eapply detected_step.
    + unfold receive_input. rewrite He. cbn [negb]. apply returns_ok. exists det. split; [done|]. apply detected_skip; [done| |].
      * intros row. unfold delta_source. rewrite He. by case_guard.
      * unfold is_residual. by rewrite He.
Qed.

(** ** The run *)

Lemma delta_source_some row d p :
  delta_source row d = Some p → wd_exists d = true ∧ positions sch !! (wd_from_node d, wd_k d) = Some p.
Proof.
  unfold delta_source. case_guard as He; [|done]. cbn. destruct (positions sch !! _) as [p'|]; [|done]. cbn.
  destruct (wins !! p') as [sx|]; [|done]. cbn. destruct (find_send _ _); [|done]. cbn. destruct (pw_sends _ !! _); [|done]. cbn.
  case_guard; [|done]. by intros [= ->].
Qed.

Lemma detected_mono done done' inputs s e ie det :
  (∀ d p, d ∈ inputs → wd_exists d = true → positions sch !! (wd_from_node d, wd_k d) = Some p → done' !! p = done !! p) →
  detected done inputs s e ie det → detected done' inputs s e ie det.
Proof.
  intros Hsame [Ho Hi]. split.
  - intros r Hr. rewrite (Ho r Hr). f_equal. apply xsum_ext. intros p (d&Hd&Hs)%list_elem_of_omap.
    destruct (delta_source_some _ _ _ Hs) as [He Hp]. unfold window_delta. by rewrite (Hsame d p).
  - intros r l1 d l2 Hr Hsp Hres Hrest.
    destruct (Hi r l1 d l2 Hr Hsp Hres Hrest) as (p&pw&sx&s'&e'&cb'&ce'&ie'&hc&oc&fr&Hp&(Hg&Hd&Hs)&Hb&Hdet).
    exists p, pw, sx, s', e', cb', ce', ie', hc, oc, fr. split; [done|]. split; [|done]. split; [done|]. split; [|done].
    rewrite (Hsame d p); [done|rewrite Hsp; set_solver| |done]. unfold is_residual in Hres. by apply andb_true_iff in Hres as [? _].
Qed.

(** Window [i] has fired on the detectors that its inputs make. *)
Definition complete (done : list (option fired)) (i : nat) : Prop :=
  ∃ w x s e cb ce ie hcols ocols fr det, fired_as done i w x s e cb ce ie hcols ocols fr ∧
    fr_detectors fr = vec (base ie - base s) det ∧ detected done (sw_inputs w) s e ie det.

(** Every decoder returns a value per column. *)
Definition decoders_total (decs : nat → option decode_fn) : Prop :=
  ∀ i x decode, wins !! i = Some x → decs i = Some decode → ∀ syndrome, length syndrome = num_rows_ (wm_h (dw_model x)) →
    ∃ r conv, decode syndrome = Ok (r, conv) ∧ length r = num_cols_ (wm_h (dw_model x)).

(** Every window once, each after those whose sends it takes. *)
Record fire_order (order : list nat) : Prop := {
  fo_perm : order ≡ₚ seq 0 (length (ws_windows sch));
  fo_before : ∀ pre i post w d p, order = pre ++ i :: post → ws_windows sch !! i = Some w → d ∈ sw_inputs w →
    wd_exists d = true → positions sch !! (wd_from_node d, wd_k d) = Some p → p ∈ pre
}.

Lemma decodes_total decs i x d :
  decoders_total decs → wins !! i = Some x → ∃ e conv, decodes x (decs i) d e conv.
Proof.
  intros Hd Hx. unfold decodes. destruct (decs i) as [decode|] eqn:E.
  - destruct (Hd i x decode Hx E (soft_of <$> vec (num_rows_ (wm_h (dw_model x))) d)) as (r&conv&Hr&Hl); [by rewrite length_fmap, length_vec|].
    exists (λ c, from_option convert_soft_to_hard false (r !! c)), conv, r. done.
  - by exists (λ _, false), true.
Qed.

Lemma fire_window_ok decs i w x s e cb ce ie hcols ocols done :
  decoders_total decs → geometry i w x s e cb ce ie hcols ocols → length done = length wins →
  (∀ d p, d ∈ sw_inputs w → wd_exists d = true → positions sch !! (wd_from_node d, wd_k d) = Some p →
    p ≠ i ∧ ∃ pw sx s' e' cb' ce' ie' hc oc fr, fired_as done p pw sx s' e' cb' ce' ie' hc oc fr) →
  returns (fire_window sch wins decs (vec (base n) D) i done) (λ done',
    length done' = length wins ∧ (∀ j, j ≠ i → done' !! j = done !! j) ∧ complete done' i).
Proof.
  intros Hdec Hg Hl Hready. unfold fire_window. rewrite (vget_ok _ _ _ (gm_x _ _ _ _ _ _ _ _ _ _ Hg)). cbn [mbind res_bind].
  destruct (window_detectors_ok _ _ _ _ _ _ _ _ _ _ done Hg) as (v&->&det&->&Hdet); [intros; by eapply Hready|]. cbn [mbind res_bind].
  destruct (gm_built _ _ _ _ _ _ _ _ _ _ Hg) as (q&k&Hb). pose proof (wb_rows _ _ _ _ _ _ _ _ _ _ _ _ _ _ Hb) as Hrows.
  destruct (decodes_total decs i x det Hdec (gm_x _ _ _ _ _ _ _ _ _ _ Hg)) as (est&conv&Hde). rewrite <-Hrows.
  destruct (solve_window_eq x hcols ocols (wb_run _ _ _ _ _ _ _ _ _ _ _ _ _ _ Hb) (decs i) det est conv Hde) as (ws&->&Hest&_&Hsat&Hout).
  cbn [mbind res_bind]. assert (i < length done) as Hi by (rewrite Hl; by eapply lookup_lt_Some, (gm_x _ _ _ _ _ _ _ _ _ _ Hg)).
  rewrite vset_ok by done. apply returns_ok. split; [by rewrite length_insert|]. split; [intros; by rewrite list_lookup_insert_ne|].
  eexists w, x, s, e, cb, ce, ie, hcols, ocols, _, det. split.
  - split; [done|]. split; [by rewrite list_lookup_insert_eq|]. exists det, est. split; [done|]. split; [done|]. cbn [fr_solution].
    intros Hs. by apply Hsat.
  - cbn [fr_detectors]. rewrite Hrows. split; [done|]. eapply detected_mono; [|exact Hdet]. intros d p Hd He Hp.
    rewrite list_lookup_insert_ne; [done|]. intros <-. by destruct (Hready d i Hd He Hp).
Qed.

(** Every shot runs to the end, and every window is complete. *)
Lemma run_shot_ok decs order :
  decoders_total decs → fire_order order →
  returns (run_shot sch wins decs (vec (base n) D) order) (λ done,
    length done = length wins ∧ ∀ i, i < length wins → complete done i).
Proof.
  intros Hdec Ho. pose proof (fo_perm _ Ho) as Hperm. unfold run_shot.
  assert (length (ws_windows sch) = length wins) as Hlw by (by eapply Forall2_length).
  eapply returns_mono; [apply (foldM_inv _ (λ pre done, length done = length wins ∧ ∀ i, i ∈ pre → complete done i))|].
  - split; [by rewrite length_replicate|]. intros i Hi. by apply not_elem_of_nil in Hi.
  - intros pre i post done Hsp [Hl Hc].
    assert (i < length (ws_windows sch)) as Hi.
    { assert (i ∈ seq 0 (length (ws_windows sch))) as Hs by (rewrite <-Hperm, Hsp; set_solver). apply elem_of_seq in Hs. lia. }
    destruct (lookup_lt_is_Some_2 _ _ Hi) as [w Hw]. destruct (geometry_of i w Hw) as (x&s&e&cb&ce&ie&hc&oc&Hg).
    assert (NoDup order) as Hnd by (rewrite Hperm; apply NoDup_seq).
    assert (i ∉ pre) as Hni.
    { intros Hin. rewrite Hsp in Hnd. apply NoDup_app in Hnd as (_&Hd&_). apply (Hd i Hin). by left. }
    eapply returns_mono; [apply (fire_window_ok decs _ _ _ _ _ _ _ _ _ _ done Hdec Hg Hl)|].
    + intros d p Hd He Hp. pose proof (fo_before _ Ho pre i post w d p Hsp Hw Hd He Hp) as Hin. split; [by intros ->|].
      destruct (Hc p Hin) as (pw&sx&s'&e'&cb'&ce'&ie'&hc'&oc'&fr&det&Hfa&_). by eexists _, _, _, _, _, _, _, _, _, _.
    + intros done' (Hl'&Hsame&Hci). split; [done|]. intros j [Hj|Hj%list_elem_of_singleton]%elem_of_app; [|by subst j].
      assert (∀ p, p ∈ pre → done' !! p = done !! p) as Hsp' by (intros p Hp; apply Hsame; by intros ->).
      destruct (Hc j Hj) as (wj&xj&sj&ej&cbj&cej&iej&hcj&ocj&fr&det&(Hgj&Hdj&Hsj)&Hfd&Hdt).
      exists wj, xj, sj, ej, cbj, cej, iej, hcj, ocj, fr, det. split; [split; [done|]; split; [by rewrite Hsp'|done]|]. split; [done|].
      eapply detected_mono; [|exact Hdt]. intros d p Hd He Hp. apply Hsp'.
      apply list_elem_of_split in Hj as (l1&l2&->). apply elem_of_app. left.
      eapply (fo_before _ Ho l1 j (l2 ++ i :: post)); [|apply (gm_w _ _ _ _ _ _ _ _ _ _ Hgj)|done|done|done].
      by rewrite Hsp, <-app_assoc.
  - intros done [Hl Hc]. split; [done|]. intros i Hi. apply Hc. rewrite Hperm. apply elem_of_seq. lia.
Qed.
End schedule.
End run.

(** * Accepted schedules explain the shot

    On every row that a fault can flip, the columns committed by all the
    windows add up to the shot's detector: the row's finalizer explains what is
    left of it, and learns of everything the other windows committed on it. *)

Lemma nodup_omap {A B C} (h : A → option B) (g : A → list C) (enc : B → C) l :
  (∀ a b, a ∈ l → h a = Some b → enc b ∈ g a) → NoDup (l ≫= g) → NoDup (omap h l).
Proof.
  induction l as [|a l IH]; intros Hh Hnd; [constructor|]. rewrite bind_cons in Hnd. apply NoDup_app in Hnd as (_&Hdis&Hnd).
  assert (NoDup (omap h l)) as HN by (apply IH; [intros; apply Hh; [by right|done]|done]).
  cbn. destruct (h a) as [b|] eqn:E; [|done]. apply NoDup_cons. split; [|done]. intros (a'&Ha'&Hb)%list_elem_of_omap.
  apply (Hdis (enc b)); [by apply Hh; [left|]|]. apply list_elem_of_bind. exists a'. split; [|done]. apply Hh; [by right|done].
Qed.

Section finalizer.
Context {R : Type} `{RateOps R}.
Implicit Types w : scheduled_window R.

(** The rounds that an input delivers, with their producer. *)
Definition delivered (sch : window_schedule R) (d : window_dependency) : list (string * Z * Z) :=
  if wd_exists d then
    match producer_of sch d with
    | Ok p => match send_of p d with Ok send => (λ q, (wd_from_node d, wd_k d, q)) <$> rounds_of (ws_rounds send) | _ => [] end
    | _ => []
    end
  else [].

(** No window takes a round of another window twice. *)
Definition delivers_once (sch : window_schedule R) : Prop :=
  Forall (λ c, NoDup (sw_inputs c ≫= delivered sch)) (ws_windows sch).

Lemma finalizes_spec w q own incoming :
  finalizes w q own incoming = true →
  (q = rr_begin (sw_rounds w) → wp_exists (sw_input w) = true → wp_disposition (sw_input w) = port_open →
     wp_boundary (sw_input w) ≠ columns ∧ incoming = false) ∧
  (own = true → in_range (sw_rounds w) q → in_range (sw_commit w) q) ∧
  (incoming = true → in_range (sw_rounds w) (q - 1) → in_range (sw_commit w) (q - 1)).
Proof.
  unfold finalizes. intros Hf. split_and!.
  - intros -> He Hd. rewrite Z.eqb_refl, He, Hd, bool_decide_eq_true_2 in Hf by done. cbn [andb] in Hf.
    destruct (bool_decide (wp_boundary (sw_input w) = columns)) eqn:Eb, incoming; cbn [orb] in Hf; try done.
    by apply bool_decide_eq_false in Eb.
  - intros -> Hr. apply contains_in in Hr. apply contains_in. rewrite Hr in Hf. destruct (_ && (_ || _)) in Hf; [done|].
    destruct (contains (sw_commit w) q); [done|]. done.
  - intros -> Hr. apply contains_in in Hr. apply contains_in. rewrite Hr in Hf. destruct (_ && (_ || _)) in Hf; [done|].
    destruct (own && _ && _); [done|]. destruct (contains (sw_commit w) (q - 1)); [done|]. done.
Qed.
End finalizer.

Section rows.
Context {R : Type} `{RateOps R}.
Context (t : experiment_template R) (n : nat) (cs : list (extended_dem R)) (Hshot : shot_ok t n cs).
Context (ref : template_ref R) (Href : ref_template ref = t).
Abbreviation base := (base (sc_to_seam (spec_seam (t_spec t))) cs).
Abbreviation fb := (faults_before cs).
Context (layers : list (window_layer R)) (sch : window_schedule R) (wins : list (decoding_window R)).
Context (Hnum : ws_num_rounds sch = n) (Hkeys : NoDup (key_of <$> ws_windows sch)) (Hsched : Forall (scheduled ref layers n) (ws_windows sch)).
Context (Hwins : built_windows n ref layers sch wins).
Context (Hdel : check_deliveries sch = Ok tt) (Honce : delivers_once sch).
Context (index : round_windows) (touch : list chunk_touch) (Hindex : index_rounds sch = Ok index) (Htouch : touch_rounds t n = Ok touch).
Context (Hrows : check_rows sch index touch = Ok tt) (Himp : check_imports sch = Ok tt).
Context (D : nat → bool) (order : list nat) (Horder : fire_order sch order) (done : list (option fired)).
Context (Hdone : ∀ i, i < length wins → complete t n cs ref sch wins D done i).
Context (Hsat : ∀ i fr, done !! i = Some (Some fr) → sol_satisfied (fr_solution fr) = true).

Abbreviation geometry := (geometry t n cs ref sch wins).
Abbreviation fired_as := (fired_as t n cs ref sch wins).
Abbreviation feeds := (feeds t n cs ref sch wins).
Abbreviation delta := (window_delta t cs wins done).

Lemma wins_length : length (ws_windows sch) = length wins.
Proof. by eapply Forall2_length. Qed.

(** ** Which faults touch a row *)

Lemma touched_rows q row :
  q < n → in_row t cs q row → ∃ own incoming, check_row sch index q own incoming = Ok tt ∧
    (∀ g, in_col cs q g → hit t cs g row = true → touched own = true) ∧
    (∀ r g, S r = q → in_col cs r g → hit t cs g row = true → touched incoming = true).
Proof.
  intros Hq [Hr1 Hr2]. destruct (chunk_in t n cs Hshot q Hq) as (c&Hc&Hok&Hoff).
  destruct (touch_rounds_sound t n cs touch q c Hshot Htouch Hc) as (tc&Htc&Hts).
  pose proof (base_S (sc_to_seam (spec_seam (t_spec t))) cs q c Hc) as HbS.
  assert (row - base q < length (ct_own tc)) as Hlt by (rewrite (ts_own_length _ _ _ Hts); lia).
  destruct (lookup_lt_is_Some_2 _ _ Hlt) as [own Hown].
  pose proof (check_rows_spec sch index touch q tc (row - base q) own Hrows ltac:(lia) Htc Hown) as Hcr. eexists own, _. split; [exact Hcr|]. split.
  - intros g Hg Hh. destruct (hit_cases t n cs Hshot q g row Hq Hg Hh) as (c'&col&Hc'&Hcol&[(i&b&Hrow&Hi&Hs&Hin)|(i&b&Hrow&_)]); [|lia].
    rewrite Hc in Hc'. injection Hc' as <-. destruct (ts_own _ _ _ Hts i b col) as [y Hy]; [by eapply list_elem_of_lookup_2|done|done|done|].
    replace (row - base q) with i in Hown by lia. rewrite Hown in Hy. by injection Hy as ->.
  - intros r g <- Hg Hh. destruct (hit_cases t n cs Hshot r g row ltac:(lia) Hg Hh) as (c'&col&Hc'&Hcol&[(i&b&Hrow&Hi&_)|(i&b&Hrow&Hi&Hs&Hin)]).
    + destruct (chunk_in t n cs Hshot r ltac:(lia)) as (c2&Hc2&_&Hoff2). rewrite Hc' in Hc2. injection Hc2 as <-.
      pose proof (base_S (sc_to_seam (spec_seam (t_spec t))) cs r c' Hc'). lia.
    + destruct (touch_rounds_sound t n cs touch r c' Hshot Htouch Hc') as (tc'&Htc'&Hts').
      destruct (ts_next _ _ _ Hts' i b col) as [y Hy]; [by eapply list_elem_of_lookup_2|done|done|done|].
      cbn [Nat.ltb Nat.leb]. replace (S r - 1) with r by lia. rewrite Htc'. cbn [from_option]. replace (row - base (S r)) with i by lia. by rewrite Hy.
Qed.

(** ** Producers come first *)

Lemma input_before i w d p :
  ws_windows sch !! i = Some w → d ∈ sw_inputs w → wd_exists d = true → positions sch !! (wd_from_node d, wd_k d) = Some p →
  ∃ a b, order !! a = Some p ∧ order !! b = Some i ∧ a < b.
Proof.
  intros Hw Hd He Hp. pose proof (fo_perm _ _ Horder) as Hperm.
  assert (i ∈ order) as Hi by (rewrite Hperm; apply elem_of_seq; apply lookup_lt_Some in Hw; lia).
  apply list_elem_of_split in Hi as (pre&post&Hsp). pose proof (fo_before _ _ Horder pre i post w d p Hsp Hw Hd He Hp) as Hin.
  apply list_elem_of_lookup in Hin as [a Ha]. pose proof (lookup_lt_Some _ _ _ Ha). exists a, (length pre). split_and!; [| |done].
  - rewrite Hsp. by apply lookup_app_l_Some.
  - rewrite Hsp. by apply list_lookup_middle.
Qed.

Lemma order_asym p i a b a' b' :
  order !! a = Some p → order !! b = Some i → a < b → order !! a' = Some i → order !! b' = Some p → a' < b' → False.
Proof.
  intros Ha Hb Hab Ha' Hb' Hab'. assert (NoDup order) as Hnd by (rewrite (fo_perm _ _ Horder); apply NoDup_seq).
  pose proof (NoDup_lookup _ _ _ _ Hnd Ha Hb'). pose proof (NoDup_lookup _ _ _ _ Hnd Hb Ha'). lia.
Qed.

Lemma producer_ne i w d p :
  ws_windows sch !! i = Some w → d ∈ sw_inputs w → wd_exists d = true → positions sch !! (wd_from_node d, wd_k d) = Some p → p ≠ i.
Proof. intros Hw Hd He Hp ->. destruct (input_before i w d i Hw Hd He Hp) as (a&b&Ha&Hb&Hab). by eapply (order_asym i i a b a b). Qed.

Lemma complete_at i w x :
  ws_windows sch !! i = Some w → wins !! i = Some x → ∃ s e cb ce ie hcols ocols fr det,
    fired_as done i w x s e cb ce ie hcols ocols fr ∧ fr_detectors fr = vec (base ie - base s) det ∧
    detected t n cs ref sch wins D done (sw_inputs w) s e ie det.
Proof.
  intros Hw Hx. destruct (Hdone i) as (w'&x'&s&e&cb&ce&ie&hc&oc&fr&det&Hfa&Hfd&Hdt); [by eapply lookup_lt_Some|].
  pose proof (proj1 Hfa) as Hg. pose proof (gm_w _ _ _ _ _ _ _ _ _ _ _ _ _ _ _ _ Hg) as Hw'.
  pose proof (gm_x _ _ _ _ _ _ _ _ _ _ _ _ _ _ _ _ Hg) as Hx'. rewrite Hw in Hw'. injection Hw' as <-. rewrite Hx in Hx'. injection Hx' as <-.
  by exists s, e, cb, ce, ie, hc, oc, fr, det.
Qed.

(** A committed fault on a row is in a commit round of its window. *)
Lemma delta_commit p row q :
  q < n → in_row t cs q row → delta row p = true →
  ∃ pw r g, ws_windows sch !! p = Some pw ∧ in_range (sw_commit pw) (Z.of_nat r) ∧ in_col cs r g ∧ r < n ∧ hit t cs g row = true ∧ (q = r ∨ q = S r).
Proof.
  intros Hq Hrow Hd. unfold window_delta in Hd. destruct (wins !! p) as [x|] eqn:Ex; [|done].
  destruct (lookup_lt_is_Some_2 (ws_windows sch) p) as [w Hw]; [rewrite wins_length; by eapply lookup_lt_Some|].
  destruct (complete_at p w x Hw Ex) as (s&e&cb&ce&ie&hc&oc&fr&det&(Hg&Hdo&Hsol)&_&_). rewrite Hdo in Hd. unfold delta_at in Hd.
  assert (∃ g, g ∈ shot_cols x fr ∧ hit t cs g row = true) as (g&Hg1&Hhit).
  { clear -Hd. induction (shot_cols x fr) as [|g l IH]; [done|]. rewrite fmap_cons, xsum_cons in Hd. destruct (hit t cs g row) eqn:E.
    - exists g. split; [by left|done].
    - rewrite xorb_false_l in Hd. destruct (IH Hd) as (g'&?&?). exists g'. split; [by right|done]. }
  destruct (gm_built _ _ _ _ _ _ _ _ _ _ _ _ _ _ _ _ Hg) as (qq&k&Hb).
  pose proof (shot_cols_bound t n cs Hshot ref Href qq k x _ _ _ _ _ _ _ Hb fr g Hsol Hg1) as Hbd.
  destruct (gm_bounds _ _ _ _ _ _ _ _ _ _ _ _ _ _ _ _ Hg) as (B1&B2&B3&B4&B5).
  destruct (col_round cs cb ce g ltac:(lia) Hbd) as (r&Hr&Hcol). exists w, r, g. split; [done|]. split.
  - rewrite (gm_commit _ _ _ _ _ _ _ _ _ _ _ _ _ _ _ _ Hg). unfold in_range. cbn. lia.
  - split; [done|]. split; [lia|]. split; [done|]. eapply hit_round; [done| |done|done|done|done]. lia.
Qed.

(** ** The finalizer of a row *)

Lemma windows_within :
  Forall (λ w, within (ws_num_rounds sch) (sw_rounds w) ∧ within (ws_num_rounds sch) (sw_commit w) ∧
               within (ws_num_rounds sch) (wp_imports (sw_output w))) (ws_windows sch).
Proof.
  apply Forall_lookup. intros i w Hw. destruct (geometry_of t n cs Hshot ref Href layers sch wins Hsched Hwins i w Hw) as (x&s&e&cb&ce&ie&hc&oc&Hg).
  destruct (gm_bounds _ _ _ _ _ _ _ _ _ _ _ _ _ _ _ _ Hg) as (B1&B2&B3&B4&B5). rewrite Hnum.
  rewrite (gm_rounds _ _ _ _ _ _ _ _ _ _ _ _ _ _ _ _ Hg), (gm_commit _ _ _ _ _ _ _ _ _ _ _ _ _ _ _ _ Hg). unfold within, in_range. cbn [rr_begin rr_end].
  split; [lia|]. split; [lia|]. intros q Hq. destruct (gm_imports _ _ _ _ _ _ _ _ _ _ _ _ _ _ _ _ Hg) as [[He _]|[Hi _]].
  - apply Z.leb_le in He. lia.
  - rewrite Hi in Hq. cbn in Hq. lia.
Qed.

(** The finalizer of a row that a fault touches: it holds the row, no column
    outside its commit zone touches it, and every other window that committed a
    fault on it sends the row's round to it. *)
Record finalizer (q row f : nat) (w : scheduled_window R) : Prop := {
  fz_window : ws_windows sch !! f = Some w;
  fz_holds : holds_round w q;
  fz_input : rr_begin (sw_rounds w) = Z.of_nat q → wp_exists (sw_input w) = true → wp_disposition (sw_input w) = port_open →
    wp_boundary (sw_input w) ≠ columns ∧ ∀ r g, S r = q → in_col cs r g → hit t cs g row = true → False;
  fz_commit : ∀ r g, in_range (sw_rounds w) (Z.of_nat r) → r < n → in_col cs r g → hit t cs g row = true → in_range (sw_commit w) (Z.of_nat r);
  fz_sends : ∀ p, p ≠ f → delta row p = true → ∃ pw d send r, ws_windows sch !! p = Some pw ∧ d ∈ sw_inputs w ∧
    (wd_from_node d, wd_k d) = key_of pw ∧ send_of pw d = Ok send ∧ r ∈ ws_rounds send ∧ in_range r (Z.of_nat q)
}.

Lemma row_finalizer q row :
  q < n → in_row t cs q row → (∃ r g, r < n ∧ in_col cs r g ∧ hit t cs g row = true) → ∃ f w, finalizer q row f w.
Proof.
  intros Hq Hrow (r0&g0&Hr0&Hg0&Hh0). destruct (touched_rows q row Hq Hrow) as (own&inc&Hcr&Hown&Hinc).
  assert (touched own || touched inc = true) as Htd.
  { apply orb_true_iff. destruct (hit_round t n cs Hshot r0 q g0 row Hr0 Hg0 Hrow Hq Hh0) as [-> | ->]; [left; by eapply Hown|right; by eapply Hinc]. }
  destruct (check_row_spec sch index q own inc Hcr Htd) as (h&f&w&Hh&Hfh&Hw&Hfz&Hcm). apply finalizes_spec in Hfz as (Fi&Fo&Fn).
  pose proof (so_small _ _ _ Hshot) as Hsm.
  assert (∀ r, r < n → ∃ h c, holders index !! r = Some h ∧ committers index !! r = Some c ∧
    (∀ i, i ∈ h ↔ ∃ w, ws_windows sch !! i = Some w ∧ holds_round w r) ∧
    (∀ i, i ∈ c ↔ ∃ w, ws_windows sch !! i = Some w ∧ in_range (sw_commit w) (Z.of_nat r))) as Hix.
  { intros r Hr. apply (index_rounds_spec sch index); [rewrite Hnum; lia|apply windows_within|done|by rewrite Hnum]. }
  exists f, w. split; [done| | | |].
  - destruct (Hix q Hq) as (h'&c&Hh'&_&Eh&_). rewrite Hh in Hh'. injection Hh' as <-. apply Eh in Hfh as (w'&Hw'&Hho). rewrite Hw in Hw'. by injection Hw' as <-.
  - intros Hb He Ho. destruct (Fi (eq_sym Hb) He Ho) as [Hnc Hni]. split; [done|]. intros r g HS Hg Hhit. rewrite (Hinc r g HS Hg Hhit) in Hni. done.
  - intros r g Hr Hrn Hg Hhit. destruct (hit_round t n cs Hshot r q g row Hrn Hg Hrow Hq Hhit) as [-> | Hqr].
    + by apply Fo; [eapply Hown|].
    + replace (Z.of_nat r) with (Z.of_nat q - 1)%Z in Hr |- * by lia. by apply Fn; [eapply (Hinc r g)|].
  - intros p Hne Hd. destruct (delta_commit p row q Hq Hrow Hd) as (pw&r&g&Hpw&Hcom&Hg&Hrn&Hhit&Hqr).
    destruct (Hcm (Z.of_nat r)) as (cm&Hcmr&Hsr).
    { destruct Hqr as [<- | ->]; [left; split; [done|by eapply Hown]|right; split; [lia|by eapply Hinc]]. }
    rewrite to_size_nat in Hcmr by lia. destruct (Hix r Hrn) as (_&c&_&Hc&_&Ec). rewrite Hcmr in Hc. injection Hc as <-.
    destruct (sends_round_ok pw w (Z.of_nat q)) as (d&send&rg&?&?&?&?&?); [apply (Hsr p pw); [|done|done]; apply Ec; by exists pw|].
    by exists pw, d, send, rg.
Qed.

(** A satisfied finalizer explains its detector by its committed columns. *)
Lemma finalizer_explains q row f w x s e cb ce ie hcols ocols fr :
  q < n → in_row t cs q row → finalizer q row f w → fired_as done f w x s e cb ce ie hcols ocols fr →
  base s ≤ row < base ie → det_at t cs x fr row = delta_at t cs x fr row.
Proof.
  intros Hq Hrow Hfz (Hg&Hdo&Hsol) Hb. destruct (gm_built _ _ _ _ _ _ _ _ _ _ _ _ _ _ _ _ Hg) as (qq&k&Hbu).
  replace row with (base s + (row - base s)) by lia.
  apply (satisfied_row t n cs Hshot ref Href qq k x s e cb ce ie hcols ocols Hbu); [done|by eapply Hsat|lia|].
  intros c Hc Hnc. destruct (touches _ _) eqn:Ht; [exfalso|done].
  destruct (gm_bounds _ _ _ _ _ _ _ _ _ _ _ _ _ _ _ _ Hg) as (B1&B2&B3&B4&B5).
  pose proof (gm_rounds _ _ _ _ _ _ _ _ _ _ _ _ _ _ _ _ Hg) as Hgr. pose proof (gm_commit _ _ _ _ _ _ _ _ _ _ _ _ _ _ _ _ Hg) as Hgc.
  pose proof (gm_input _ _ _ _ _ _ _ _ _ _ _ _ _ _ _ _ Hg) as Hgi.
  assert (base s + (row - base s) = row) as Er by lia.
  destruct (wb_other _ _ _ _ _ _ _ _ _ _ _ _ _ _ Hbu c (row - base s) Hc Hnc ltac:(lia) Ht) as
    [(r&g&Hr&Hnr&Hcol&Hh)|[(He&Ho&Hbd&Hlt)|(He&Ho&Hbd&Hs0&g&Hcol&Hh)]]; rewrite Er in *.
  - assert (in_range (sw_commit w) (Z.of_nat r)) as Hin.
    { eapply (fz_commit _ _ _ _ Hfz r g); [rewrite Hgr; unfold in_range; cbn; lia|lia|done|done]. }
    rewrite Hgc in Hin. unfold in_range in Hin. cbn in Hin. lia.
  - assert (q = s) as -> by (eapply (in_row_unique t cs); [exact Hrow|split; lia]).
    destruct (fz_input _ _ _ _ Hfz) as [Hn _]; [by rewrite Hgr|by rewrite Hgi|by rewrite Hgi|]. rewrite Hgi in Hn. by destruct (wp_boundary _).
  - assert (q = s) as ->.
    { destruct (hit_round t n cs Hshot (s - 1) q g row ltac:(lia) Hcol Hrow Hq Hh) as [->|]; [|lia].
      destruct Hrow as [_ Hr2]. replace (S (s - 1)) with s in Hr2 by lia. lia. }
    destruct (fz_input _ _ _ _ Hfz) as [_ Hn]; [by rewrite Hgr|by rewrite Hgi|by rewrite Hgi|]. eapply (Hn (s - 1) g); [lia|done|done].
Qed.

(** The send behind [fz_sends] covers the row. *)
Lemma finalizer_input q row f w x s e cb ce ie hcols ocols p :
  q < n → in_row t cs q row → finalizer q row f w → geometry f w x s e cb ce ie hcols ocols → p ≠ f → delta row p = true →
  ∃ d sx s' e' cb' ce' ie' hc oc j send, d ∈ sw_inputs w ∧ wd_exists d = true ∧
    positions sch !! (wd_from_node d, wd_k d) = Some p ∧ feeds s e ie d p sx s' e' cb' ce' ie' hc oc j send ∧
    covers t cs s' send row = true.
Proof.
  intros Hq Hrow Hfz Hg Hne Hd. destruct (fz_sends _ _ _ _ Hfz p Hne Hd) as (pw&d&send&r&Hpw&Hdi&Hkey&Hso&Hr&Hin).
  rewrite Forall_forall in Hsched.
  assert (wd_exists d = true) as He.
  { eapply (input_exists ref layers n w pw d); [apply Hsched; eapply list_elem_of_lookup_2, (fz_window _ _ _ _ Hfz)|
      apply Hsched; by eapply list_elem_of_lookup_2|done|done]. }
  assert (positions sch !! (wd_from_node d, wd_k d) = Some p) as Hpos by (apply positions_spec; [done|by exists pw]).
  destruct (geometry_of t n cs Hshot ref Href layers sch wins ltac:(by apply Forall_forall) Hwins p pw Hpw) as (sx&s'&e'&cb'&ce'&ie'&hc&oc&Hg').
  destruct (input_feeds t n cs ref sch wins Hdel f w x s e cb ce ie hcols ocols d p pw sx s' e' cb' ce' ie' hc oc Hg Hdi He Hpos Hg') as (j&send'&Hf).
  exists d, sx, s', e', cb', ce', ie', hc, oc, j, send'. do 4 (split; [done|]).
  destruct (fe_geo _ _ _ _ _ _ _ _ _ _ _ _ _ _ _ _ _ _ _ _ _ Hf) as (pw'&Hg2&Hp2&Hs2).
  destruct (producer_of_ok _ _ _ Hp2) as (p2&Hpos2&Hpw2). rewrite Hpos in Hpos2. injection Hpos2 as <-. rewrite Hpw in Hpw2. injection Hpw2 as <-.
  rewrite Hso in Hs2. injection Hs2 as <-.
  eapply (covers_round t cs s' e' send q row); [apply (fe_placed _ _ _ _ _ _ _ _ _ _ _ _ _ _ _ _ _ _ _ _ _ Hf)|done|by exists r].
Qed.

(** Which mode a covering send has. *)
Lemma covering_mode f w x s e cb ce ie hcols ocols d p sx s' e' cb' ce' ie' hc oc j send row :
  geometry f w x s e cb ce ie hcols ocols → feeds s e ie d p sx s' e' cb' ce' ie' hc oc j send → covers t cs s' send row = true →
  match ws_mode send with send_delta => base s ≤ row < base e | send_residual => base e ≤ row < base ie end.
Proof.
  intros Hg Hf [Hle Hin]%bool_decide_eq_true. destruct (gm_built _ _ _ _ _ _ _ _ _ _ _ _ _ _ _ _ Hg) as (qq&k&Hb).
  pose proof (landed_rows t n cs ref x qq k s e cb ce ie s' e' (wb_placed _ _ _ _ _ _ _ _ _ _ _ _ _ _ Hb) send _
    (fe_placed _ _ _ _ _ _ _ _ _ _ _ _ _ _ _ _ _ _ _ _ _ Hf) (fe_lands _ _ _ _ _ _ _ _ _ _ _ _ _ _ _ _ _ _ _ _ _ Hf) Hin) as Hr.
  by replace (base s' + (row - base s')) with row in Hr by lia.
Qed.

Lemma sources_nodup w q row :
  w ∈ ws_windows sch → in_row t cs q row → NoDup (omap (delta_source t cs sch wins row) (sw_inputs w)).
Proof.
  intros Hw Hrow. unfold delivers_once in Honce. rewrite Forall_forall in Honce.
  apply (nodup_omap _ (delivered sch) (λ p, match ws_windows sch !! p with Some pw => (key_of pw, Z.of_nat q) | None => (EmptyString, 0%Z, 0%Z) end));
    [|by apply Honce].
  intros d p Hd Hs. destruct (delta_source_some t cs sch wins row d p Hs) as [He Hpos].
  apply list_elem_of_lookup in Hw as [i Hi].
  destruct (geometry_of t n cs Hshot ref Href layers sch wins Hsched Hwins i w Hi) as (x&s&e&cb&ce&ie&hc&oc&Hg).
  destruct (proj1 (positions_spec sch Hkeys _ _) Hpos) as (pw&Hpw&Hkey).
  destruct (geometry_of t n cs Hshot ref Href layers sch wins Hsched Hwins p pw Hpw) as (sx&s'&e'&cb'&ce'&ie'&hc'&oc'&Hg').
  destruct (input_feeds t n cs ref sch wins Hdel i w x s e cb ce ie hc oc d p pw sx s' e' cb' ce' ie' hc' oc' Hg Hd He Hpos Hg') as (j&send&Hf).
  rewrite (delta_source_eq _ _ _ _ _ _ _ _ _ _ _ _ _ _ _ _ _ _ _ _ _ _ He Hf) in Hs. case_bool_decide as Hcov; [|done].
  destruct Hcov as [_ Hcov]. apply (covers_round t cs s' e' send q row (fe_placed _ _ _ _ _ _ _ _ _ _ _ _ _ _ _ _ _ _ _ _ _ Hf) Hrow) in Hcov as (r&Hr&Hin).
  destruct (fe_geo _ _ _ _ _ _ _ _ _ _ _ _ _ _ _ _ _ _ _ _ _ Hf) as (pw'&_&Hp2&Hs2).
  rewrite Hpw. unfold delivered. rewrite He, Hp2, Hs2, Hkey. apply list_elem_of_fmap. exists (Z.of_nat q). split; [done|]. apply elem_of_rounds. by exists r.
Qed.

(** A finalizer on one of its own rows. *)
Lemma own_row_explained q row f w x s e cb ce ie hcols ocols fr det :
  q < n → in_row t cs q row → finalizer q row f w → fired_as done f w x s e cb ce ie hcols ocols fr →
  fr_detectors fr = vec (base ie - base s) det → detected t n cs ref sch wins D done (sw_inputs w) s e ie det →
  base s ≤ row < base e → D row = xsum (delta row <$> seq 0 (length wins)).
Proof.
  intros Hq Hrow Hfz Hfa Hfd Hdt Hb. pose proof Hfa as (Hg&Hdo&Hsol). destruct (gm_bounds _ _ _ _ _ _ _ _ _ _ _ _ _ _ _ _ Hg) as (B1&B2&B3&B4&B5).
  pose proof (base_mono t cs e ie ltac:(lia)) as Mei. pose proof (finalizer_explains q row f w x s e cb ce ie hcols ocols fr Hq Hrow Hfz Hfa ltac:(lia)) as Hex.
  set (L := omap (delta_source t cs sch wins row) (sw_inputs w)).
  pose proof (fz_window _ _ _ _ Hfz) as Hw.
  assert (∀ p, p ∈ L → p ≠ f ∧ p < length wins) as HL.
  { intros p (d&Hd&Hs)%list_elem_of_omap. destruct (delta_source_some t cs sch wins row d p Hs) as [He Hpos].
    split; [by eapply (producer_ne f w d p)|]. destruct (proj1 (positions_spec sch Hkeys _ _) Hpos) as (pw&Hpw&_).
    rewrite <-wins_length. by eapply lookup_lt_Some. }
  assert (delta row f = delta_at t cs x fr row) as Hdf by (unfold window_delta; by rewrite (gm_x _ _ _ _ _ _ _ _ _ _ _ _ _ _ _ _ Hg), Hdo).
  rewrite (xsum_support (delta row) (f :: L) (seq 0 (length wins))).
  - rewrite fmap_cons, xsum_cons, Hdf, <-Hex. destruct (gm_built _ _ _ _ _ _ _ _ _ _ _ _ _ _ _ _ Hg) as (qq&k&Hbu).
    assert (det (row - base s) = det_at t cs x fr row) as Hd.
    { replace row with (base s + (row - base s)) at 2 by lia. apply (det_eq t n cs ref qq k x s e cb ce ie hcols ocols Hbu); [|lia].
      by rewrite (wb_rows _ _ _ _ _ _ _ _ _ _ _ _ _ _ Hbu). }
    pose proof (dt_own _ _ _ _ _ _ _ _ _ _ _ _ _ Hdt (row - base s) ltac:(lia)) as Ho. replace (base s + (row - base s)) with row in Ho by lia.
    fold L in Ho. rewrite <-Hd, Ho. by rewrite xorb_assoc, xorb_nilpotent, xorb_false_r.
  - apply NoDup_cons. split; [intros Hf; by destruct (HL f Hf)|]. eapply sources_nodup; [by eapply list_elem_of_lookup_2|done].
  - apply NoDup_seq.
  - intros p [->|Hp]%elem_of_cons; apply elem_of_seq; [|destruct (HL p Hp); lia].
    pose proof (lookup_lt_Some _ _ _ (gm_x _ _ _ _ _ _ _ _ _ _ _ _ _ _ _ _ Hg)). lia.
  - intros p _ Hp. destruct (delta row p) eqn:Edp; [exfalso|done]. apply not_elem_of_cons in Hp as [Hpf HpL].
    destruct (finalizer_input q row f w x s e cb ce ie hcols ocols p Hq Hrow Hfz Hg Hpf Edp) as (d&sx&s'&e'&cb'&ce'&ie'&hc&oc&j&send&Hd&He&Hpos&Hf&Hcov).
    pose proof (covering_mode _ _ _ _ _ _ _ _ _ _ _ _ _ _ _ _ _ _ _ _ _ _ row Hg Hf Hcov) as Hm.
    destruct (ws_mode send) eqn:Em; [|lia]. apply HpL, list_elem_of_omap. exists d. split; [done|].
    rewrite (delta_source_eq _ _ _ _ _ _ _ _ _ _ _ _ _ _ _ _ _ _ _ _ _ _ He Hf). by rewrite bool_decide_eq_true_2.
Qed.

(** A finalizer on an imported row: the residual carries the shot's detector. *)
Lemma import_row_explained q row f w x s e cb ce ie hcols ocols fr det :
  q < n → in_row t cs q row → finalizer q row f w → fired_as done f w x s e cb ce ie hcols ocols fr →
  fr_detectors fr = vec (base ie - base s) det → detected t n cs ref sch wins D done (sw_inputs w) s e ie det →
  base e ≤ row < base ie → D row = xsum (delta row <$> seq 0 (length wins)).
Proof.
  intros Hq Hrow Hfz Hfa Hfd Hdt Hb. pose proof Hfa as (Hg&Hdo&Hsol). destruct (gm_bounds _ _ _ _ _ _ _ _ _ _ _ _ _ _ _ _ Hg) as (B1&B2&B3&B4&B5).
  pose proof (base_mono t cs s e ltac:(lia)) as Mse. pose proof (finalizer_explains q row f w x s e cb ce ie hcols ocols fr Hq Hrow Hfz Hfa ltac:(lia)) as Hex.
  pose proof (fz_window _ _ _ _ Hfz) as Hw.
  assert (empty_range (wp_imports (sw_output w)) = false) as Hne.
  { destruct (gm_imports _ _ _ _ _ _ _ _ _ _ _ _ _ _ _ _ Hg) as [[_ ->]|[-> ?]]; [lia|]. apply empty_range_false. unfold nonempty. cbn. lia. }
  destruct (check_imports_spec sch w Himp (list_elem_of_lookup_2 _ _ _ Hw) Hne) as (l1&d0&l2&Hsp&Hres&Hrest).
  destruct (dt_import _ _ _ _ _ _ _ _ _ _ _ _ _ Hdt (row - base s) l1 d0 l2 ltac:(lia) Hsp Hres Hrest)
    as (p0&pw0&x0&s0&e0&cb0&ce0&ie0&hc0&oc0&fr0&Hpos0&(Hg0&Hdo0&Hsol0)&Hb0&Hdet).
  replace (base s + (row - base s)) with row in Hdet, Hb0 by lia.
  assert (d0 ∈ sw_inputs w) as Hd0 by (rewrite Hsp; set_solver).
  assert (wd_exists d0 = true) as He0 by (unfold is_residual in Hres; by apply andb_true_iff in Hres as [? _]).
  pose proof (producer_ne f w d0 p0 Hw Hd0 He0 Hpos0) as Hp0f.
  assert (delta row f = delta_at t cs x fr row) as Hdf by (unfold window_delta; by rewrite (gm_x _ _ _ _ _ _ _ _ _ _ _ _ _ _ _ _ Hg), Hdo).
  assert (delta row p0 = delta_at t cs x0 fr0 row) as Hdp by (unfold window_delta; by rewrite (gm_x _ _ _ _ _ _ _ _ _ _ _ _ _ _ _ _ Hg0), Hdo0).
  (* only the finalizer and the sender of the residual commit faults on the row *)
  assert (∀ p, p ≠ f → delta row p = true → p = p0) as Honly.
  { intros p Hpf Hd. destruct (finalizer_input q row f w x s e cb ce ie hcols ocols p Hq Hrow Hfz Hg Hpf Hd) as (d&sx&s'&e'&cb'&ce'&ie'&hc&oc&j&send&Hdi&He&Hpos&Hf&Hcov).
    pose proof (covering_mode _ _ _ _ _ _ _ _ _ _ _ _ _ _ _ _ _ _ _ _ _ _ row Hg Hf Hcov) as Hm. destruct (ws_mode send) eqn:Em; [lia|].
    pose proof (is_residual_eq _ _ _ _ _ _ _ _ _ _ _ _ _ _ _ _ _ _ _ _ _ He Hf) as Hr. rewrite bool_decide_eq_true_2 in Hr by done.
    rewrite Hsp in Hdi. apply elem_of_app in Hdi as [Hdi|[->|Hdi]%elem_of_cons].
    - rewrite Hrest in Hr by set_solver. done.
    - rewrite Hpos0 in Hpos. by injection Hpos.
    - rewrite Hrest in Hr by set_solver. done. }
  (* its detector on the row is the shot's *)
  assert (det_at t cs x0 fr0 row = D row) as HD.
  { destruct (complete_at p0 pw0 x0 (gm_w _ _ _ _ _ _ _ _ _ _ _ _ _ _ _ _ Hg0) (gm_x _ _ _ _ _ _ _ _ _ _ _ _ _ _ _ _ Hg0))
      as (s1&e1&cb1&ce1&ie1&hc1&oc1&fr1&det1&(Hg1&Hdo1&_)&Hfd1&Hdt1). rewrite Hdo0 in Hdo1. injection Hdo1 as <-.
    pose proof (gm_rounds _ _ _ _ _ _ _ _ _ _ _ _ _ _ _ _ Hg0) as Hr0. rewrite (gm_rounds _ _ _ _ _ _ _ _ _ _ _ _ _ _ _ _ Hg1) in Hr0. injection Hr0 as Hs1 He1.
    assert (s1 = s0) as -> by lia. assert (e1 = e0) as -> by lia. destruct (gm_built _ _ _ _ _ _ _ _ _ _ _ _ _ _ _ _ Hg1) as (qq&k&Hbu).
    destruct (gm_bounds _ _ _ _ _ _ _ _ _ _ _ _ _ _ _ _ Hg1) as (?&?&?&?&?). pose proof (base_mono t cs e0 ie1 ltac:(lia)).
    replace row with (base s0 + (row - base s0)) at 1 by lia.
    rewrite <-(det_eq t n cs ref qq k x0 s0 e0 cb1 ce1 ie1 hc1 oc1 Hbu det1 fr0 (row - base s0)) by (rewrite ?(wb_rows _ _ _ _ _ _ _ _ _ _ _ _ _ _ Hbu); done || lia).
    rewrite (dt_own _ _ _ _ _ _ _ _ _ _ _ _ _ Hdt1 (row - base s0)) by lia. replace (base s0 + (row - base s0)) with row by lia.
    rewrite xsum_false; [by rewrite xorb_false_r|]. intros p (d&Hd&Hs)%list_elem_of_omap.
    destruct (delta_source_some t cs sch wins row d p Hs) as [He Hpos]. destruct (delta row p) eqn:Edp; [exfalso|done].
    pose proof (gm_w _ _ _ _ _ _ _ _ _ _ _ _ _ _ _ _ Hg0) as Hw0. destruct (decide (p = f)) as [->|Hpf].
    - destruct (input_before p0 pw0 d f Hw0 Hd He Hpos) as (a&b&Ha&Hb'&Hab). destruct (input_before f w d0 p0 Hw Hd0 He0 Hpos0) as (a'&b'&Ha'&Hb2&Hab').
      by eapply (order_asym f p0 a b a' b').
    - by apply (producer_ne p0 pw0 d p Hw0 Hd He Hpos), Honly. }
  destruct (gm_built _ _ _ _ _ _ _ _ _ _ _ _ _ _ _ _ Hg) as (qq&k&Hbu).
  assert (det (row - base s) = det_at t cs x fr row) as Hd.
  { replace row with (base s + (row - base s)) at 2 by lia. apply (det_eq t n cs ref qq k x s e cb ce ie hcols ocols Hbu); [|lia].
    by rewrite (wb_rows _ _ _ _ _ _ _ _ _ _ _ _ _ _ Hbu). }
  rewrite (xsum_support (delta row) [f; p0] (seq 0 (length wins))).
  - cbn [fmap list_fmap xsum foldr]. rewrite Hdf, Hdp, <-Hex, <-Hd, Hdet, HD.
    by destruct (D row), (delta_at t cs x0 fr0 row).
  - apply NoDup_cons. split; [intros Hp%list_elem_of_singleton; by subst p0|apply NoDup_singleton].
  - apply NoDup_seq.
  - intros p [->|Hp%list_elem_of_singleton]%elem_of_cons; [|subst p]; apply elem_of_seq.
    + pose proof (lookup_lt_Some _ _ _ (gm_x _ _ _ _ _ _ _ _ _ _ _ _ _ _ _ _ Hg)). lia.
    + pose proof (lookup_lt_Some _ _ _ (gm_x _ _ _ _ _ _ _ _ _ _ _ _ _ _ _ _ Hg0)). lia.
  - intros p _ [Hpf Hpp]%not_elem_of_cons. destruct (delta row p) eqn:Edp; [|done]. exfalso. apply Hpp. rewrite (Honly p Hpf Edp). by left.
Qed.

(** Every row that a fault can flip is explained. *)
Lemma row_explained q row :
  q < n → in_row t cs q row → (∃ r g, r < n ∧ in_col cs r g ∧ hit t cs g row = true) →
  D row = xsum (delta row <$> seq 0 (length wins)).
Proof.
  intros Hq Hrow Hex. destruct (row_finalizer q row Hq Hrow Hex) as (f&w&Hfz). pose proof (fz_window _ _ _ _ Hfz) as Hw.
  destruct (lookup_lt_is_Some_2 wins f) as [x Hx]; [rewrite <-wins_length; by eapply lookup_lt_Some|].
  destruct (complete_at f w x Hw Hx) as (s&e&cb&ce&ie&hc&oc&fr&det&Hfa&Hfd&Hdt). pose proof Hfa as (Hg&_&_).
  pose proof (gm_rounds _ _ _ _ _ _ _ _ _ _ _ _ _ _ _ _ Hg) as Hgr. destruct Hrow as [Hr1 Hr2].
  destruct (fz_holds _ _ _ _ Hfz) as [Hh|Hh].
  - rewrite Hgr in Hh. unfold in_range in Hh. cbn in Hh. pose proof (base_mono t cs s q ltac:(lia)). pose proof (base_mono t cs (S q) e ltac:(lia)).
    eapply own_row_explained; [done|done|done|done|done|done|lia].
  - destruct (gm_imports _ _ _ _ _ _ _ _ _ _ _ _ _ _ _ _ Hg) as [[He _]|[Hi Hlt]].
    { apply Z.leb_le in He. unfold in_range in Hh. lia. }
    rewrite Hi in Hh. unfold in_range in Hh. cbn in Hh. pose proof (base_mono t cs e q ltac:(lia)). pose proof (base_mono t cs (S q) ie ltac:(lia)).
    eapply import_row_explained; [done|done|done|done|done|done|lia].
Qed.
End rows.
