(* ===== verification/CommitProps.v ===== *)
(** * Windowed decoding is decoding

    The windows of a schedule that passes the commitment checks, fired in any
    order that respects the sends, decode the whole shot: their committed
    faults, read back as columns of the closed model of the shot, explain every
    detector that a fault can flip, and the frames add up to the observables
    that these faults flip. *)

From Stdlib Require Import QArith.
From S2P Require Import Prelude Rates Ordering Tensor SparseMatrix SparseFacts SparseCanon RoundLayout DetectorErrorModel Decoder ExtendedDem ExtendedFacts ExtendedChunk ExtendedStitch ExtendedChain ExtendedAll ExtendedProps ExtendedClose ExtendedStreams ChunkSpec ExperimentTemplate TemplateFacts TemplateProps WindowRequest WindowRequestFacts WindowModel WindowWorkload Commitment WorkloadFacts WindowShot WindowPlace WindowBuild ShotRun CommitFacts CommitRun.

Open Scope nat_scope.

Section props.
Context {R : Type} `{RateOps R}.
Implicit Types spec : dem_chunks_spec R.
Implicit Types t : experiment_template R.
Implicit Types cs : list (extended_dem R).

(** ** Shots *)

(** The chunks [cs] of the [n]-round shot of [spec], whose repeating phase lies on
    the chain of its connections ([joined_spec]): a consistent chain whose
    sizes stay within the index types. *)
Record spec_shot spec t (n : nat) cs : Prop := {
  ss_template : make_template spec = Ok t;
  ss_countable : countable spec;
  ss_joined : joined_spec spec;
  ss_fits : spec_fits spec;
  ss_admits : admits t n;
  ss_chunks : dem_chunks_from_spec (with_num_rounds spec n) = Ok cs;
  ss_chain : chain_ok (sc_from_seam (spec_seam spec)) (sc_to_seam (spec_seam spec)) cs;
  ss_chain_fits : chain_fits cs;
  ss_sizes : (Z.of_nat (sum_list_with (λ c, length (e_error_rates c)) cs +
    sum_list_with (offset_rows (sc_to_seam (spec_seam spec))) cs + t_num_observables t + n + 2) < 2 ^ 32)%Z
}.

Lemma spec_shot_ok spec t n cs : spec_shot spec t n cs → t_spec t = spec ∧ shot_ok t n cs.
Proof.
  intros [Hm Hc Hj Hf Ha Hd Hch Hcf Hsz]. destruct (make_template_inv spec t Hm) as (Ht&_). split; [done|].
  destruct (template_expansion spec t n Hm Hc Hj Hf Ha ltac:(lia)) as (cs'&Hcs'&(Hl&Hck&Hr&Hco)&Hfl&Hspan).
  rewrite Hd in Hcs'. injection Hcs' as <-. split; rewrite ?Ht; try done.
  - lia.
  - by apply not_eq_sym, Hf.
  - intros r Hr'. unfold base, total_offset. apply Hr; [done|lia].
  - intros r Hr'. unfold faults_before. apply Hco; [done|lia].
  - unfold faults_before, base, total_offset. rewrite <-Hl, !firstn_all. lia.
Qed.

(** ** Sums over windows *)

Lemma xsum_concat {A} (h : A → bool) (ls : list (list A)) : xsum (h <$> concat ls) = xsum ((λ l, xsum (h <$> l)) <$> ls).
Proof. induction ls as [|l ls IH]; [done|]. cbn [concat]. by rewrite fmap_app, xsum_app, IH. Qed.

Lemma all_some {A} (l : list (option A)) : (∀ i, i < length l → ∃ a, l !! i = Some (Some a)) → ∃ l', l = Some <$> l'.
Proof.
  induction l as [|o l IH]; intros Hl; [by exists []|]. destruct (Hl 0) as (a&[= ->]); [simpl; lia|].
  destruct IH as [l' ->]; [intros i Hi; apply (Hl (S i)); simpl; lia|]. by exists (a :: l').
Qed.

Lemma seq_zip {A B C} (f : nat → C) (g : A * B → C) (l : list A) (k : list B) :
  length k = length l → (∀ i a b, l !! i = Some a → k !! i = Some b → f i = g (a, b)) → f <$> seq 0 (length l) = g <$> zip l k.
Proof.
  intros Hl Hfg. apply list_eq. intros i. rewrite !list_lookup_fmap. destruct (decide (i < length l)) as [Hi|Hi].
  - rewrite lookup_seq_lt by done. destruct (lookup_lt_is_Some_2 l i Hi) as [a Ha]. destruct (lookup_lt_is_Some_2 k i) as [b Hb]; [lia|].
    rewrite lookup_zip_with, Ha, Hb. cbn. f_equal. by apply Hfg.
  - rewrite !lookup_ge_None_2; [done|rewrite length_zip_with; lia|rewrite length_seq; lia].
Qed.

(** ** Accepted schedules *)

(** The checks that [validate_commitment] makes of a probe shot. *)
Record accepted t (sch : window_schedule R) : Prop := {
  ac_deliveries : check_deliveries sch = Ok tt;
  ac_rows : ∃ index touch, index_rounds sch = Ok index ∧ touch_rounds t (ws_num_rounds sch) = Ok touch ∧
    check_commits sch index touch = Ok tt ∧ check_rows sch index touch = Ok tt;
  ac_imports : check_imports sch = Ok tt
}.

(** The bit of a frame. *)
Definition frame_bit (o : nat) (fr : fired) : bool := bool_decide (wo_frame (sol_outputs (fr_solution fr)) !! o = Some 1).

(** The closed model of the shot has the columns of the chain. *)
Section closed.
Context spec t n cs (Hshot : spec_shot spec t n cs).
Context (closed : chain_columns R) (Hclosed : close_columns cs (sc_from_seam (spec_seam spec)) (sc_to_seam (spec_seam spec)) = Ok closed).

Lemma closed_shot :
  closed_part t cs 0 n closed ∧ cc_num_rows closed = base (sc_to_seam (spec_seam (t_spec t))) cs n ∧
  length (cc_rows closed) = faults_before cs n ∧ length (cc_observables closed) = faults_before cs n.
Proof.
  destruct (spec_shot_ok spec t n cs Hshot) as [Hts Hok]. pose proof (so_length _ _ _ Hok) as Hlen. rewrite <-Hts in Hclosed.
  assert (slice cs 0 n = cs) as Hsl by (unfold slice; rewrite drop_0, Nat.sub_0_r; by apply take_ge; lia).
  pose proof (admits_two spec t n (ss_template _ _ _ _ Hshot) (ss_admits _ _ _ _ Hshot)) as Hn.
  rewrite <-Hsl in Hclosed. pose proof (close_part t n cs Hok 0 n closed ltac:(lia) Hclosed) as Hcp. split; [done|].
  pose proof (cp_rows _ _ _ _ _ Hcp) as Hcr. pose proof (cp_row_cols _ _ _ _ _ Hcp) as Hcc. pose proof (cp_obs_cols _ _ _ _ _ Hcp) as Hco.
  change (base (sc_to_seam (spec_seam (t_spec t))) cs 0) with 0 in Hcr. change (faults_before cs 0) with 0 in Hcc, Hco. lia.
Qed.

Lemma closed_hit g row : row < cc_num_rows closed → g < faults_before cs n →
  touches (default [] (cc_rows closed !! g)) row = hit t cs g row.
Proof.
  destruct closed_shot as (Hcp&Hcr&Hcc&_). intros Hr Hg. destruct (lookup_lt_is_Some_2 (cc_rows closed) g) as [col Hcol]; [lia|].
  rewrite Hcol. cbn [from_option id]. apply (proj2 (cp_col _ _ _ _ _ Hcp g col Hcol) row).
  change (base (sc_to_seam (spec_seam (t_spec t))) cs 0) with 0. lia.
Qed.

Lemma closed_obs g o : g < faults_before cs n → touches (default [] (cc_observables closed !! g)) o = touches (obs_at cs g) o.
Proof.
  destruct closed_shot as (Hcp&_&_&Hco). intros Hg. destruct (lookup_lt_is_Some_2 (cc_observables closed) g) as [col Hcol]; [lia|].
  rewrite Hcol. cbn [from_option id]. apply (proj2 (cp_obs_col _ _ _ _ _ Hcp g col Hcol) o).
Qed.
End closed.

Section run.
Context spec t n cs (Hshot : spec_shot spec t n cs).
Context (ref : template_ref R) (Href : ref_template ref = t) (layers : list (window_layer R)) (edges : list task_graph_edge).
Context (sch : window_schedule R) (Hsch : schedule_windows (Some ref) layers edges n = Ok sch).
Context (Hacc : accepted t sch) (Honce : delivers_once sch).
Context (wins : list (decoding_window R)) (Hwins : built_windows n ref layers sch wins).
Context (closed : chain_columns R) (Hclosed : close_columns cs (sc_from_seam (spec_seam spec)) (sc_to_seam (spec_seam spec)) = Ok closed).
Context (decs : nat → option decode_fn) (Hdecs : decoders_total wins decs) (order : list nat) (Horder : fire_order sch order) (D : nat → bool).
Abbreviation row_col g := (default [] (cc_rows closed !! g)).
Abbreviation obs_col g := (default [] (cc_observables closed !! g)).

Lemma accepted_run :
  returns (run_shot sch wins decs (vec (cc_num_rows closed) D) order) (λ done,
    ∃ fireds cols, done = Some <$> fireds ∧ length fireds = length wins ∧
      map_res (λ xf, committed_columns xf.1 xf.2) (zip wins fireds) = Ok cols ∧
      (Forall (λ fr, sol_satisfied (fr_solution fr) = true) fireds →
       ∀ row, row < cc_num_rows closed → (∃ g, touches (row_col g) row = true) →
       D row = parity ((λ g, row_col g) <$> concat cols) row) ∧
      (∀ o, o < cc_num_observables closed → xsum (frame_bit o <$> fireds) = parity ((λ g, obs_col g) <$> concat cols) o)).
Proof.
  destruct (spec_shot_ok spec t n cs Hshot) as [Hts Hok]. destruct (schedule_windows_spec ref layers edges n sch Hsch) as (Hnum&Hkeys&Hsched).
  destruct (closed_shot spec t n cs Hshot closed Hclosed) as (Hcp&Hcr&Hcc&Hco).
  pose proof (admits_two spec t n (ss_template _ _ _ _ Hshot) (ss_admits _ _ _ _ Hshot)) as Hn2.
  rewrite Hcr. eapply returns_mono; [apply (run_shot_ok t n cs Hok ref Href layers sch wins Hsched Hwins (ac_deliveries _ _ Hacc) D decs order Hdecs Horder)|].
  intros done [Hld Hdone].
  destruct (all_some done) as [fireds ->].
  { intros i Hi. destruct (Hdone i) as (w&x&s&e&cb&ce&ie&hc&oc&fr&det&(_&Hd&_)&_); [lia|]. by exists fr. }
  rewrite length_fmap in Hld.
  assert (∀ i x fr, wins !! i = Some x → fireds !! i = Some fr → ∃ w s e cb ce ie hc oc,
    geometry t n cs ref sch wins i w x s e cb ce ie hc oc ∧ solved x hc oc fr) as Hat.
  { intros i x fr Hx Hf. destruct (Hdone i) as (w&x'&s&e&cb&ce&ie&hc&oc&fr'&det&(Hg&Hd&Hs)&_); [by eapply lookup_lt_Some|].
    rewrite list_lookup_fmap, Hf in Hd. injection Hd as <-. rewrite (gm_x _ _ _ _ _ _ _ _ _ _ _ _ _ _ _ _ Hg) in Hx. injection Hx as <-.
    by exists w, s, e, cb, ce, ie, hc, oc. }
  assert (∀ xf, xf ∈ zip wins fireds → ∃ i, wins !! i = Some xf.1 ∧ fireds !! i = Some xf.2) as Hzip.
  { intros [x fr] [i Hi]%list_elem_of_lookup. exists i. apply lookup_zip_with_Some in Hi as (?&?&[= <- <-]&?&?). done. }
  exists fireds, ((λ xf, shot_cols xf.1 xf.2) <$> zip wins fireds). split; [done|]. split; [done|]. split.
  { apply map_res_eq. intros [x fr] Hxf. destruct (Hzip _ Hxf) as (i&Hx&Hf). cbn [fst snd] in *.
    destruct (Hat i x fr Hx Hf) as (w&s&e&cb&ce&ie&hc&oc&Hg&(d&est&_&Ho&_)). destruct (gm_built _ _ _ _ _ _ _ _ _ _ _ _ _ _ _ _ Hg) as (q&k&Hb).
    unfold shot_cols. by rewrite (committed_eq t n cs Hok ref Href q k x _ _ _ _ _ _ _ Hb est fr d Ho). }
  assert (∀ i x fr g, wins !! i = Some x → fireds !! i = Some fr → g ∈ shot_cols x fr → g < faults_before cs n) as Hbound.
  { intros i x fr g Hx Hf Hg. destruct (Hat i x fr Hx Hf) as (w&s&e&cb&ce&ie&hc&oc&Hge&Hsol). destruct (gm_built _ _ _ _ _ _ _ _ _ _ _ _ _ _ _ _ Hge) as (q&k&Hb).
    pose proof (shot_cols_bound t n cs Hok ref Href q k x _ _ _ _ _ _ _ Hb fr g Hsol Hg). destruct (gm_bounds _ _ _ _ _ _ _ _ _ _ _ _ _ _ _ _ Hge) as (?&?&?&?&?).
    pose proof (fb_mono cs ce n ltac:(lia)). lia. }
  assert (∀ g row, g < faults_before cs n → row < cc_num_rows closed → touches (row_col g) row = hit t cs g row) as Hhit
    by (intros; by apply (closed_hit spec t n cs Hshot closed Hclosed)).
  assert (∀ g o, g < faults_before cs n → touches (obs_col g) o = touches (obs_at cs g) o) as Hobs
    by (intros; by apply (closed_obs spec t n cs Hshot closed Hclosed)).
  assert (∀ (F : nat → list nat) (f : nat → bool) r, (∀ g, g < faults_before cs n → touches (F g) r = f g) →
    parity (F <$> concat ((λ xf, shot_cols xf.1 xf.2) <$> zip wins fireds)) r = xsum ((λ xf, xsum (f <$> shot_cols xf.1 xf.2)) <$> zip wins fireds)) as Hsum.
  { intros F f r HF. rewrite parity_xsum, xsum_concat, <-list_fmap_compose. apply xsum_ext. intros [x fr] Hxf.
    destruct (Hzip _ Hxf) as (i&Hx&Hf). cbn [compose fst snd] in *. unfold compose. cbn [fst snd]. apply xsum_ext. intros g Hg. apply HF. by eapply Hbound. }
  split.
  - intros Hsat row Hrow (g&Hg). rewrite <-Hcr in *. rewrite Forall_lookup in Hsat.
    destruct (ac_rows _ _ Hacc) as (index&touch&Hix&Htc&_&Hrows). rewrite Hnum in Htc.
    assert (g < faults_before cs n) as Hgn.
    { destruct (decide (g < length (cc_rows closed))); [lia|]. by rewrite lookup_ge_None_2 in Hg by lia. }
    destruct (row_round t cs 0 n row ltac:(lia)) as (q&Hq&Hin); [split; [change (base (sc_to_seam (spec_seam (t_spec t))) cs 0) with 0; lia|lia]|].
    destruct (col_round cs 0 n g ltac:(lia)) as (r&Hr&Hc); [split; [change (faults_before cs 0) with 0; lia|done]|].
    rewrite (row_explained t n cs Hok ref Href layers sch wins Hnum Hkeys Hsched Hwins (ac_deliveries _ _ Hacc) Honce index touch Hix Htc Hrows (ac_imports _ _ Hacc)
      D order Horder (Some <$> fireds) Hdone) with (q := q); [| |lia|done|exists r, g; split; [lia|]; split; [done|by rewrite <-Hhit]].
    + rewrite (Hsum _ (λ g, hit t cs g row) row) by (intros; by apply Hhit). f_equal. apply seq_zip; [done|].
      intros i x fr Hx Hf. unfold window_delta. by rewrite Hx, list_lookup_fmap, Hf.
    + intros i fr Hfr. rewrite list_lookup_fmap in Hfr. destruct (fireds !! i) as [fr'|] eqn:Ef; [|done]. injection Hfr as <-. by eapply Hsat.
  - intros o Ho. rewrite (Hsum _ (λ g, touches (obs_at cs g) o) o) by (intros; by apply Hobs). f_equal.
    rewrite (cp_obs _ _ _ _ _ Hcp) in Ho. apply list_eq. intros i. rewrite !list_lookup_fmap. destruct (fireds !! i) as [fr|] eqn:Ef.
    + destruct (lookup_lt_is_Some_2 wins i) as [x Hx]; [apply lookup_lt_Some in Ef; lia|]. rewrite lookup_zip_with, Hx, Ef. cbn.
      destruct (Hat i x fr Hx Ef) as (w&s&e&cb&ce&ie&hc&oc&Hg&Hsol). destruct (gm_built _ _ _ _ _ _ _ _ _ _ _ _ _ _ _ _ Hg) as (q&k&Hb).
      unfold frame_bit. rewrite (frame_eq t n cs Hok ref Href q k x _ _ _ _ _ _ _ Hb fr o Hsol Ho). f_equal. by destruct (xsum _).
    + rewrite lookup_ge_None_2; [done|]. rewrite length_zip_with. apply lookup_ge_None in Ef. lia.
Qed.
End run.

(** ** Probe shots *)

Lemma validated_accepted (ref : template_ref R) layers edges end_ n :
  validate_commitment (Some ref) layers edges = Ok tt → commitment_probe_rounds (ref_template ref) layers edges = Ok end_ →
  t_min_rounds (ref_template ref) ≤ n < end_ →
  ∃ sch, schedule_windows (Some ref) layers edges n = Ok sch ∧ accepted (ref_template ref) sch.
Proof.
  intros Hv He Hn. unfold validate_commitment in Hv. cbv zeta in Hv. rewrite He in Hv. cbn [mbind res_bind] in Hv.
  apply bind_ok in Hv as (schedules&Hs&Hv). apply bind_ok in Hv as ([]&Hc&Hv). apply bind_ok in Hv as ([]&Hr&_).
  assert (∃ sch, sch ∈ schedules ∧ schedule_windows (Some ref) layers edges n = Ok sch ∧ check_deliveries sch = Ok tt) as (sch&Hin&Hsch&Hd).
  { assert (n ∈ seq (t_min_rounds (ref_template ref)) (end_ - t_min_rounds (ref_template ref))) as Hel by (apply elem_of_seq; lia).
    revert Hs n Hn Hel. unfold for_u.
    apply (foldM_ok_inv _ (λ pre schedules, ∀ n, _ → n ∈ pre →
      ∃ sch, sch ∈ schedules ∧ schedule_windows (Some ref) layers edges n = Ok sch ∧ check_deliveries sch = Ok tt)).
    - intros m _ Hm. by apply not_elem_of_nil in Hm.
    - intros pre m post l l' _ IH Hf m' Hb Hm'. apply bind_ok in Hf as (sch&Hsch&Hf). apply bind_ok in Hf as ([]&Hd&[= <-]).
      apply elem_of_app in Hm' as [Hm'|Hm'%list_elem_of_singleton].
      + destruct (IH m' Hb Hm') as (sch'&?&?). exists sch'. split; [apply elem_of_app; by left|done].
      + subst m'. exists sch. split; [apply elem_of_app; right; by left|done]. }
  exists sch. split; [done|]. pose proof (foldM_each _ _ Hc sch Hin) as Hc1. pose proof (foldM_each _ _ Hr sch Hin) as Hr1. cbv beta in Hc1, Hr1.
  apply bind_ok in Hc1 as (index&Hix&Hc1). apply bind_ok in Hc1 as (touch&Htc&Hc1). rewrite Hix in Hr1. cbn [mbind res_bind] in Hr1. rewrite Htc in Hr1. cbn [mbind res_bind] in Hr1.
  apply bind_ok in Hr1 as ([]&Hr1&Hi). split; [done|by exists index, touch|done].
Qed.

(** The rounds of scheduled windows are rounds of the shot. *)
Lemma scheduled_within t n cs (ref : template_ref R) layers sch :
  shot_ok t n cs → ref_template ref = t → ws_num_rounds sch = n → Forall (scheduled ref layers n) (ws_windows sch) →
  Forall (λ w, within (ws_num_rounds sch) (sw_rounds w) ∧ within (ws_num_rounds sch) (sw_commit w) ∧
               within (ws_num_rounds sch) (wp_imports (sw_output w))) (ws_windows sch).
Proof.
  intros Hok Href Hnum HF. eapply Forall_impl; [exact HF|]. intros w Hw. destruct (sd_layer _ _ _ _ Hw) as (layer&pw&inst&_&Hp&_&_&E1&E2&_&E4&_).
  destruct (place_window_spec t n cs Hok ref _ _ _ Href Hp) as (z&s&e&cb&ce&ie&_&Hpk). destruct (pk_bounds _ _ _ _ _ _ _ _ _ _ _ _ Hpk) as (B1&B2&B3&B4&B5).
  rewrite E1, E2, E4, Hnum, (pk_rounds _ _ _ _ _ _ _ _ _ _ _ _ Hpk), (pk_commit _ _ _ _ _ _ _ _ _ _ _ _ Hpk). unfold within, in_range. cbn [rr_begin rr_end].
  split; [lia|]. split; [lia|]. intros q Hq. destruct (pk_imports _ _ _ _ _ _ _ _ _ _ _ _ Hpk) as [(He&_&_)|[Hi _]].
  - apply Z.leb_le in He. lia.
  - rewrite Hi in Hq. cbn in Hq. lia.
Qed.

(** A fault that touches a row marks its round as detectable. *)
Lemma detectable_round t n cs touch r g row :
  shot_ok t n cs → touch_rounds t n = Ok touch → r < n → in_col cs r g → hit t cs g row = true →
  ∃ tc, touch !! r = Some tc ∧ ct_first_detectable tc ≠ None.
Proof.
  intros Hok Htc Hr Hg Hh. destruct (hit_cases t n cs Hok r g row Hr Hg Hh) as (c&col&Hc&Hcol&Hcase).
  destruct (touch_rounds_sound t n cs touch r c Hok Htc Hc) as (tc&Htr&Hts). exists tc. split; [done|].
  assert (col ∈ cols_of (e_H c)) as Hin by (by eapply list_elem_of_lookup_2).
  destruct Hcase as [(i&b&_&Hi&Hs&Hb)|(i&b&_&Hi&Hs&Hb)].
  - destruct (ts_own _ _ _ Hts i b col Hin Hs Hi Hb) as [x Hx]. apply (ts_detectable _ _ _ Hts i x). by left.
  - destruct (ts_next _ _ _ Hts i b col Hin Hs Hi Hb) as [x Hx]. apply (ts_detectable _ _ _ Hts i x). by right.
Qed.

Lemma accepted_commits t n cs (ref : template_ref R) layers sch r g row :
  shot_ok t n cs → ref_template ref = t → ws_num_rounds sch = n → Forall (scheduled ref layers n) (ws_windows sch) →
  accepted t sch → r < n → in_col cs r g → hit t cs g row = true →
  ∃ i, ∀ j, (∃ w, ws_windows sch !! j = Some w ∧ contains (sw_commit w) (Z.of_nat r) = true) ↔ j = i.
Proof.
  intros Hok Href Hnum Hsched Hacc Hr Hg Hh. destruct (ac_rows _ _ Hacc) as (index&touch&Hix&Htc&Hcm&_). rewrite Hnum in Htc.
  destruct (detectable_round t n cs touch r g row Hok Htc Hr Hg Hh) as (tc&Htr&Hdet).
  destruct (index_rounds_spec sch index) with (q := r) as (h&cm&_&Hc&_&Ec);
    [rewrite Hnum; pose proof (so_small _ _ _ Hok); lia|by eapply scheduled_within|done|lia|].
  pose proof (for_u_each _ _ _ Hcm r ltac:(lia)) as Hf. cbv beta in Hf. rewrite (vget_ok _ _ _ Hc) in Hf. cbn [mbind res_bind] in Hf.
  rewrite (vget_ok _ _ _ Htr) in Hf. cbn [mbind res_bind] in Hf. apply throw_if_ok in Hf. rewrite bool_decide_eq_false_2 in Hf by done. cbn [negb andb] in Hf.
  apply negb_false_iff, Nat.eqb_eq in Hf. destruct cm as [|i [|]]; [done| |done]. exists i. intros j. rewrite <-list_elem_of_singleton, Ec.
  split; intros (w&Hw&Hi); exists w; (split; [done|]); by apply contains_in.
Qed.
End props.

(** C1. Windowed decoding is decoding.  Take a shot of a schedule that
    passes the commitment checks and in which, further, no round of a window
    reaches one receiver by two sends ([delivers_once]; the checks do not imply
    it, and [repeated_send_cancels] below shows a schedule that passes them and
    decodes wrongly), windows built by [window_from_dem_chunks], decoders that return one value per column, and any
    order that fires a window after those whose sends it takes.  Then every
    window fires; its committed columns are columns of the closed model of the
    shot; if every solution satisfies its window's detectors, the committed
    columns of all the windows add up to the shot's detectors on every row that
    some fault touches; and the frames add up to the observables that the
    committed columns flip. *)
Theorem accepted_windows_decode_shot {R} `{RateOps R} (spec : dem_chunks_spec R) (ref : template_ref R) (n : nat)
    (cs : list (extended_dem R)) (closed : chain_columns R) (layers : list (window_layer R)) (edges : list task_graph_edge)
    (sch : window_schedule R) (wins : list (decoding_window R)) (decs : nat → option decode_fn) (order : list nat) (D : nat → bool) :
  spec_shot spec (ref_template ref) n cs →
  close_columns cs (sc_from_seam (spec_seam spec)) (sc_to_seam (spec_seam spec)) = Ok closed →
  schedule_windows (Some ref) layers edges n = Ok sch → accepted (ref_template ref) sch → delivers_once sch →
  built_windows n ref layers sch wins → decoders_total wins decs → fire_order sch order →
  returns (run_shot sch wins decs (vec (cc_num_rows closed) D) order) (λ done,
    ∃ fireds cols, done = Some <$> fireds ∧ length fireds = length wins ∧
      map_res (λ xf, committed_columns xf.1 xf.2) (zip wins fireds) = Ok cols ∧
      (Forall (λ fr, sol_satisfied (fr_solution fr) = true) fireds →
       ∀ row, row < cc_num_rows closed → (∃ g, touches (default [] (cc_rows closed !! g)) row = true) →
       D row = parity ((λ g, default [] (cc_rows closed !! g)) <$> concat cols) row) ∧
      (∀ o, o < cc_num_observables closed →
       xsum (frame_bit o <$> fireds) = parity ((λ g, default [] (cc_observables closed !! g)) <$> concat cols) o)).
Proof.
  intros Hshot Hcl Hsch Hacc Honce Hwins Hdecs Hord.
  exact (accepted_run spec _ n cs Hshot ref eq_refl layers edges sch Hsch Hacc Honce wins Hwins closed Hcl decs Hdecs order Hord D).
Qed.

(** C18. What [validate_commitment] establishes.  If it accepts the layers and
    edges, every probe shot has a schedule that passes every check, and in it
    each fault that touches a detector is committed by exactly one window. *)
Theorem validated_probe_shots {R} `{RateOps R} (spec : dem_chunks_spec R) (ref : template_ref R) (n end_ : nat)
    (cs : list (extended_dem R)) (closed : chain_columns R) (layers : list (window_layer R)) (edges : list task_graph_edge) :
  spec_shot spec (ref_template ref) n cs →
  close_columns cs (sc_from_seam (spec_seam spec)) (sc_to_seam (spec_seam spec)) = Ok closed →
  validate_commitment (Some ref) layers edges = Ok tt →
  commitment_probe_rounds (ref_template ref) layers edges = Ok end_ → n < end_ →
  ∃ sch, schedule_windows (Some ref) layers edges n = Ok sch ∧ accepted (ref_template ref) sch ∧
    ∀ r g row, r < n → faults_before cs r ≤ g < faults_before cs (S r) → row < cc_num_rows closed →
      touches (default [] (cc_rows closed !! g)) row = true →
      ∃ i, ∀ j, (∃ w, ws_windows sch !! j = Some w ∧ contains (sw_commit w) (Z.of_nat r) = true) ↔ j = i.
Proof.
  intros Hshot Hcl Hv He Hn. destruct (spec_shot_ok _ _ _ _ Hshot) as [Hts Hok].
  destruct (validated_accepted ref layers edges end_ n Hv He) as (sch&Hsch&Hacc); [split; [apply (ss_admits _ _ _ _ Hshot)|done]|].
  exists sch. split; [done|]. split; [done|]. intros r g row Hr Hg Hrow Ht.
  destruct (schedule_windows_spec ref layers edges n sch Hsch) as (Hnum&_&Hsched).
  eapply (accepted_commits _ n cs ref layers sch r g row); [done|done|done|done|done|done|done|].
  pose proof (fb_mono cs (S r) n ltac:(lia)). rewrite <-(closed_hit spec (ref_template ref) n cs Hshot closed Hcl g row); [done|done|lia].
Qed.

(** * Windowed decoding: an example

    Two layers of windows on the memory experiment: [A] commits rounds 0, 1, 4,
    5, ... with a buffer on either side, [B] commits the rounds between from
    what [A] sends.  A five-round shot with two faults gives instances of the
    theorems; a second send of the same round shows what the deliveries check
    lets pass. *)

(** ** The shot *)

Definition memory_chunks : list (extended_dem Q) :=
  Eval vm_compute in match dem_chunks_from_spec (with_num_rounds memory_spec 5) with Ok c => c | _ => [] end.

Definition memory_closed : chain_columns Q :=
  Eval vm_compute in match close_columns memory_chunks 9 7 with Ok c => c | _ => mk_chain_columns 0 0 [] [] [] end.

Lemma memory_chunk_ok c : c ∈ memory_chunks → chunk_ok 9 7 c.
Proof.
  intros Hc. unfold memory_chunks in Hc. rewrite !elem_of_cons, elem_of_nil in Hc.
  destruct Hc as [->|[->|[->|[->|[->|[]]]]]]; (split; [split| |]).
  all: try (exists [[0]; [0; 1]]; apply (bool_decide_unpack _); vm_compute; exact I).
  all: try (exists [[0]]; apply (bool_decide_unpack _); vm_compute; exact I).
  all: try (left; exists [[0]; []]; apply (bool_decide_unpack _); vm_compute; exact I).
  all: try (left; exists [[0]]; apply (bool_decide_unpack _); vm_compute; exact I).
  all: try (apply (bool_decide_unpack _); vm_compute; exact I).
  all: try (repeat constructor; fail).
  all: try (split; [done|by right| |vm_compute; repeat constructor; lia|done]; intros s Hs; cbn [e_seams] in Hs;
    rewrite ?elem_of_cons, elem_of_nil in Hs; destruct_or?; try done; subst; cbn; lia).
  all: intros s Hs; cbn [e_seams] in Hs; rewrite ?elem_of_cons, elem_of_nil in Hs; destruct_or?; try done; subst; cbn; lia.
Qed.

Lemma memory_spec_shot : spec_shot memory_spec memory_template 5 memory_chunks.
Proof.
  split.
  - vm_compute. reflexivity.
  - vm_compute. done.
  - intros _. vm_compute. reflexivity.
  - exact memory_fits.
  - split; [vm_compute; lia|done].
  - vm_compute. reflexivity.
  - split; [apply Forall_forall, memory_chunk_ok|]. unfold memory_chunks. repeat constructor; (split; vm_compute; reflexivity).
  - split; vm_compute; reflexivity.
  - vm_compute. reflexivity.
Qed.

(** ** The layers *)

Definition anchor_request : window_request Q :=
  mk_request 4 0 (Some (mk_range 0 2)) [mk_range (-1) 0; mk_range 2 3] (mk_input (Some port_open) (Some (1 # 10)%Q) None)
    (mk_output (Some port_open) None) [mk_send_request "forward" None []; mk_send_request "backward" None []]
    (mk_column_options false reject_parallel).

Definition joining_request : window_request Q :=
  mk_request 4 (-2) (Some (mk_range 0 2)) [] (mk_input (Some port_closed) None None)
    (mk_output (Some port_closed) None) [] (mk_column_options false reject_parallel).

Definition memory_layers : list (window_layer Q) := [mk_layer "A" "a" anchor_request; mk_layer "B" "b" joining_request].
Definition memory_edges : list task_graph_edge :=
  [mk_edge "A" "backward" "B" "receive_0" 0; mk_edge "A" "forward" "B" "receive_1" (-1)].
Definition memory_ref : template_ref Q := mk_ref 1 memory_template.

Definition memory_schedule : window_schedule Q :=
  Eval vm_compute in match schedule_windows (Some memory_ref) memory_layers memory_edges 5 with Ok s => s | _ => mk_schedule 0 [] end.

Definition memory_windows : list (decoding_window Q) :=
  Eval vm_compute in match map_res (λ w : scheduled_window Q, match find_layer memory_layers (sw_node w) with
      | Some l => window_from_dem_chunks (Some memory_ref) (wl_request l) (sw_k w) 5 false
      | None => Undef
      end) (ws_windows memory_schedule) with Ok l => l | _ => [] end.

(** Faults 3 (rows 1 and 2) and 7 (rows 3 and 4). *)
Definition memory_detectors (row : nat) : bool := 1 <=? row.

(** Decoders with fixed answers. *)
Definition memory_answer (i : nat) : list Q :=
  match i with 0 => [0; 0; 0; 1; 0; 0]%Q | 1 => [0; 1; 0; 0]%Q | _ => [0; 0; 0; 1]%Q end.
Definition memory_decoders (i : nat) : option decode_fn := Some (λ _, Ok (memory_answer i, true)).

Lemma memory_accepted : accepted memory_template memory_schedule.
Proof.
  split; [vm_compute; reflexivity| |vm_compute; reflexivity].
  destruct (index_rounds memory_schedule) as [index| |] eqn:Ei; [|by vm_compute in Ei..].
  destruct (touch_rounds memory_template (ws_num_rounds memory_schedule)) as [touch| |] eqn:Et; [|by vm_compute in Et..].
  exists index, touch. split; [done|]. split; [done|]. vm_compute in Ei, Et. injection Ei as <-. injection Et as <-.
  split; vm_compute; reflexivity.
Qed.

Lemma memory_delivers_once : delivers_once memory_schedule.
Proof. apply (bool_decide_unpack _). vm_compute. exact I. Qed.

Lemma memory_built : built_windows 5 memory_ref memory_layers memory_schedule memory_windows.
Proof.
  unfold built_windows, memory_windows, memory_schedule. cbn [ws_windows].
  apply Forall2_cons_2; [exists (mk_layer "A" "a" anchor_request), false; split; [reflexivity|vm_compute; reflexivity]|].
  apply Forall2_cons_2; [exists (mk_layer "A" "a" anchor_request), false; split; [reflexivity|vm_compute; reflexivity]|].
  apply Forall2_cons_2; [exists (mk_layer "B" "b" joining_request), false; split; [reflexivity|vm_compute; reflexivity]|].
  constructor.
Qed.

Lemma memory_decoders_total : decoders_total memory_windows memory_decoders.
Proof.
  intros i x decode Hx Hd syndrome _. injection Hd as <-. exists (memory_answer i), true. split; [done|].
  destruct i as [|[|[|i]]]; [by injection Hx as <-..|]. by destruct i.
Qed.

Lemma memory_order : fire_order memory_schedule [1; 0; 2].
Proof.
  split; [by constructor|]. intros pre i post w d p Hsp Hw Hd He Hp.
  assert (sw_inputs w = [] ∨ i = 2) as [Hn| ->].
  { destruct i as [|[|[|i]]]; [left; by injection Hw as <-..|by right|by destruct i]. }
  { rewrite Hn in Hd. by apply not_elem_of_nil in Hd. }
  injection Hw as <-. cbn [sw_inputs] in Hd. rewrite !elem_of_cons, elem_of_nil in Hd.
  assert (pre = [1; 0]) as ->.
  { destruct pre as [|a [|b [|c pre]]]; simplify_eq/=; [done|]. by destruct pre. }
  destruct Hd as [->|[->|[]]]; vm_compute in Hp; injection Hp as <-; set_solver.
Qed.

Lemma accepted_windows_decode_shot_witness :
  returns (run_shot memory_schedule memory_windows memory_decoders (vec 5 memory_detectors) [1; 0; 2]) (λ done,
    ∃ fireds cols, done = Some <$> fireds ∧
      map_res (λ xf, committed_columns xf.1 xf.2) (zip memory_windows fireds) = Ok cols ∧ concat cols = [3; 7] ∧
      memory_detectors 2 = parity [[1; 2]; [3; 4]] 2).
Proof.
  destruct (accepted_windows_decode_shot memory_spec memory_ref 5 memory_chunks memory_closed memory_layers memory_edges
    memory_schedule memory_windows memory_decoders [1; 0; 2] memory_detectors) as (done&Hrun&fireds&cols&Hd&_&Hc&Hx&_).
  - exact memory_spec_shot.
  - vm_compute. reflexivity.
  - vm_compute. reflexivity.
  - exact memory_accepted.
  - exact memory_delivers_once.
  - exact memory_built.
  - exact memory_decoders_total.
  - exact memory_order.
  - exists done. split; [exact Hrun|]. exists fireds, cols. split; [exact Hd|]. split; [exact Hc|].
    assert (Ok done = run_shot memory_schedule memory_windows memory_decoders (vec 5 memory_detectors) [1; 0; 2]) as E by (symmetry; exact Hrun).
    vm_compute in E. injection E as ->. destruct fireds as [|f0 [|f1 [|f2 [|]]]]; try discriminate Hd. injection Hd as <- <- <-.
    vm_compute in Hc. injection Hc as <-. split; [reflexivity|].
    apply (Hx ltac:(repeat constructor) 2 ltac:(vm_compute; lia) ltac:(exists 4; reflexivity)).
Defined.

Lemma validated_probe_shots_witness :
  ∃ sch, schedule_windows (Some memory_ref) memory_layers memory_edges 5 = Ok sch ∧ accepted memory_template sch ∧
    ∃ i, ∀ j, (∃ w, ws_windows sch !! j = Some w ∧ contains (sw_commit w) 3 = true) ↔ j = i.
Proof.
  destruct (commitment_probe_rounds memory_template memory_layers memory_edges) as [end_| |] eqn:Ep; [|by vm_compute in Ep..].
  destruct (validated_probe_shots memory_spec memory_ref 5 end_ memory_chunks memory_closed memory_layers memory_edges) as (sch&Hs&Ha&Hc).
  - exact memory_spec_shot.
  - vm_compute. reflexivity.
  - vm_compute. reflexivity.
  - exact Ep.
  - vm_compute in Ep. injection Ep as <-. lia.
  - exists sch. split; [exact Hs|]. split; [exact Ha|]. apply (Hc 3 7 4); vm_compute; (lia || reflexivity).
Defined.

(** ** A round sent twice

    [A] also sends the round of its forward send as [again], with an edge of its
    own into [B].  The checks accept: they compare the sends that a window takes
    by their names, not by their rounds.  The two deltas cancel on row 2, so
    that [B] works on the detector the shot started with; it then explains it
    once more, and the committed columns no longer add up to the shot. *)
Definition repeating_request : window_request Q :=
  mk_request 4 0 (Some (mk_range 0 2)) [mk_range (-1) 0; mk_range 2 3] (mk_input (Some port_open) (Some (1 # 10)%Q) None)
    (mk_output (Some port_open) None)
    [mk_send_request "forward" None []; mk_send_request "backward" None []; mk_send_request "again" (Some send_delta) [mk_range 2 3]]
    (mk_column_options false reject_parallel).
Definition repeating_layers : list (window_layer Q) := [mk_layer "A" "a" repeating_request; mk_layer "B" "b" joining_request].
Definition repeating_edges : list task_graph_edge := memory_edges ++ [mk_edge "A" "again" "B" "receive_2" (-1)].

Example repeated_send_accepted : validate_commitment (Some memory_ref) repeating_layers repeating_edges = Ok tt.
Proof. vm_compute. reflexivity. Qed.

Definition repeating_run : res (list (option fired) * list (list nat)) :=
  sch ← schedule_windows (Some memory_ref) repeating_layers repeating_edges 5;
  wins ← map_res (λ w : scheduled_window Q, match find_layer repeating_layers (sw_node w) with
      | Some l => window_from_dem_chunks (Some memory_ref) (wl_request l) (sw_k w) 5 false
      | None => Undef
      end) (ws_windows sch);
  done ← run_shot sch wins (λ i, Some (λ _, Ok (match i with 0 => [0; 0; 0; 1; 0; 0]%Q | 1 => [0; 1; 0; 0]%Q | _ => [1; 0; 0; 1]%Q end, true)))
           (vec 5 memory_detectors) [1; 0; 2];
  cols ← map_res (λ xf, committed_columns xf.1 xf.2) (zip wins (omap id done));
  Ok (done, cols).

(** Every window is satisfied, fault 4 is committed besides faults 3 and 7, and
    row 2 is left with the wrong parity. *)
Example repeated_send_cancels :
  match repeating_run with
  | Ok (done, cols) =>
      forallb (λ fr, match fr with Some fr => sol_satisfied (fr_solution fr) | None => false end) done = true ∧
      concat cols = [3; 4; 7] ∧
      parity ((λ g, default [] (cc_rows memory_closed !! g)) <$> concat cols) 2 = negb (memory_detectors 2)
  | _ => False
  end.
Proof. vm_compute. repeat split. Qed.
