(* ===== verification/WindowProps.v ===== *)
(** * Window requests and windows: properties *)

From Stdlib Require Import QArith.
From S2P Require Import Prelude Rates Ordering Tensor SparseMatrix SparseFacts RoundLayout DetectorErrorModel Decoder ExtendedDem ExtendedFacts ExtendedChunk ExtendedStitch ExtendedChain ExtendedAll ChunkSpec ExperimentTemplate TemplateFacts TemplateProps WindowRequest WindowRequestFacts WindowModel WindowWorkload Commitment WorkloadFacts WindowShot WindowPlace WindowBuild CommitFacts CommitProps.

Open Scope nat_scope.

Section requests.
Context {R : Type} `{RateOps R}.
Context (t : experiment_template R) n cs (Hshot : shot_ok t n cs).
Context (ref : template_ref R) (Href : ref_template ref = t).
Abbreviation N := (Z.of_nat n).

Definition anchor_of (q : window_request R) (k : Z) : Z := (wr_offset q + k * wr_period q)%Z.

Lemma place_window_at q z k :
  request_ok q z → Forall in_i64 (anchor_sums q z k) →
  if empty_range (clip_rounds z (anchor_of q k) N) then rejects (place_window (Some ref) q k n)
  else returns (place_window (Some ref) q k n) (λ w,
    pw_commit w = clip_rounds z (anchor_of q k) N ∧ pw_rounds w = clip_rounds (span_of q z) (anchor_of q k) N).
Proof.
  intros Hq Hf. destruct (anchor_fits q z k N Hf) as [Hanchor Hclip]. fold (anchor_of q k) in Hanchor, Hclip.
  unfold place_window. cbv zeta. rewrite Hanchor. cbn [mbind res_bind]. set (a := anchor_of q k) in *. rewrite Href.
  rewrite (decides_returns _ _ _ (check_request_decides q)) by eauto. cbn [mbind res_bind].
  rewrite (so_row _ _ _ Hshot n) by lia. cbn [mbind res_bind]. unfold commit_of. rewrite (an_commit _ _ (rq_anchor _ _ Hq)). cbn [mbind res_bind].
  assert (length (sorted_zones q z) = S (length (wr_buffers q))) as Hl.
  { unfold sorted_zones. rewrite sort_ranges_perm, length_app. simpl. lia. }
  destruct (lookup_lt_is_Some_2 (sorted_zones q z) (length (sorted_zones q z) - 1)) as [back Hb]; [lia|].
  rewrite (vget_ok _ _ _ Hb). cbn [mbind res_bind]. rewrite Hclip. cbn [mbind res_bind]. destruct (empty_range (clip_rounds z a N)) eqn:Hne; cbn [throw_if mbind res_bind]; [by eexists|].
  apply empty_range_false in Hne. pose proof (clip_zones_spec q z a N Hq Hne) as Hcz. destruct (clip_zones q _ a N) as [bufs rounds].
  destruct Hcz as [-> _]. destruct (rq_ports _ _ Hq) as [[di Hdi] [do Hdo] Pc Po Pt _ _]. rewrite Hdi, Hdo. cbn [mbind res_bind].
  assert (∃ p, (if (0 <? rr_begin (clip_rounds (span_of q z) a N))%Z && bool_decide (di = port_open) && bool_decide (default columns (in_boundary (wr_input q)) = columns)
    then match in_prior (wr_input q) with Some p => Ok p | None => Undef end else Ok rate_zero) = Ok p) as [p ->].
  { destruct (_ && _) eqn:E; [|by eexists]. rewrite !andb_true_iff, !bool_decide_eq_true in E. destruct E as [[_ ->] Hc].
    destruct (Po Hdi) as [p ->]; [|by eexists]. intros Ht. by rewrite Ht in Hc. }
  cbn [mbind res_bind]. destruct (zone_span_bounds q z) as (Hsp&_&_). destruct (Hsp z) as [Hs1 Hs2]; [unfold zones_of; set_solver|].
  set (sp := clip_rounds (span_of q z) a N). unfold nonempty, clip_rounds in Hne. cbn [rr_begin rr_end] in Hne.
  assert (sp = mk_range (Z.of_nat (Z.to_nat (rr_begin sp))) (Z.of_nat (Z.to_nat (rr_end sp)))) as Esp.
  { unfold sp, clip_rounds. cbn [rr_begin rr_end]. f_equal; lia. }
  destruct (place_sends_spec t n cs Hshot q z (Z.to_nat (rr_begin sp)) (Z.to_nat (rr_end sp)) a Hq Esp) as (sends&Hsends&_).
  { unfold sp, clip_rounds. cbn [rr_end]. lia. }
  rewrite Z2Nat.id in Hsends by (unfold sp, clip_rounds; cbn [rr_begin]; lia). rewrite Hsends. cbn [mbind res_bind]. apply returns_ok. done.
Qed.

(** An index whose sums overflow is undefined, whatever the request. *)
Lemma place_window_overflows q z k : request_ok q z → ¬ Forall in_i64 (anchor_sums q z k) → place_window (Some ref) q k n = Undef.
Proof.
  intros Hq Hf. unfold place_window. cbv zeta. destruct (decide (in_i64 (k * wr_period q))) as [H1|H1]; unfold window_anchor; cycle 1.
  { by rewrite (i64_overflows _ H1). }
  rewrite (i64_ok _ H1). cbn [mbind res_bind]. destruct (decide (in_i64 (wr_offset q + k * wr_period q))) as [H2|H2]; cycle 1.
  { by rewrite (i64_overflows _ H2). }
  rewrite (i64_ok _ H2). cbn [mbind res_bind]. fold (anchor_of q k). rewrite (decides_returns _ _ _ (check_request_decides q)) by eauto. cbn [mbind res_bind]. rewrite Href.
  rewrite (so_row _ _ _ Hshot n) by lia. cbn [mbind res_bind]. unfold commit_of. rewrite (an_commit _ _ (rq_anchor _ _ Hq)). cbn [mbind res_bind].
  assert (length (sorted_zones q z) = S (length (wr_buffers q))) as Hl.
  { unfold sorted_zones. rewrite sort_ranges_perm, length_app. simpl. lia. }
  destruct (lookup_lt_is_Some_2 (sorted_zones q z) (length (sorted_zones q z) - 1)) as [back Hb]; [lia|].
  rewrite (vget_ok _ _ _ Hb). cbn [mbind res_bind]. assert (clip_checked z (anchor_of q k) N = Undef) as ->; [|done]. unfold clip_checked.
  destruct (decide (in_i64 (anchor_of q k + rr_begin z))) as [H3|H3]; [rewrite (i64_ok _ H3)|by rewrite (i64_overflows _ H3)]. cbn [mbind res_bind].
  destruct (decide (in_i64 (anchor_of q k + rr_end z))) as [H4|H4]; [|by rewrite (i64_overflows _ H4)]. destruct Hf. by repeat (apply Forall_cons; split).
Qed.

Lemma span_covers q z x : request_ok q z → in_range (span_of q z) x ↔ ∃ zone, zone ∈ zones_of q z ∧ in_range zone x.
Proof.
  intros Hq. destruct (zone_span_bounds q z) as (Hsp&_&_). split.
  - intros Hx. exact (rq_covers _ _ Hq x Hx).
  - intros (zone&Hz&Hx). destruct (Hsp zone Hz). unfold in_range in *. lia.
Qed.
End requests.

(** C21. What a window request means.  [check_window_request] accepts exactly
    the well-formed requests.  The windows of an accepted request in a shot are
    those with the indices of [window_instances]: [place_window] succeeds for
    them.  Every other index is rejected when the anchor [offset + k * period] and
    its sums with the commit zone fit [int64_t], as they do for every index within
    2^31 of zero; further out the sums overflow, which is undefined.  The commit
    rounds of window [k] are the rounds of the shot that the commit zone reaches
    from the anchor, its rounds those that any zone reaches.  A request that is
    not well-formed is rejected for every index whose anchor does not overflow. *)
Theorem request_places_windows {R} `{RateOps R} (spec : dem_chunks_spec R) (ref : template_ref R) (n : nat)
    (cs : list (extended_dem R)) (q : window_request R) :
  spec_shot spec (ref_template ref) n cs →
  (∃ commit instances, request_ok q commit ∧ check_request q = Ok tt ∧ window_instances q n = Ok instances ∧
     (∀ k, (- 2 ^ 31 ≤ k ≤ 2 ^ 31)%Z → Forall in_i64 (anchor_sums q commit k)) ∧
     ∀ k, if ((ir_begin instances <=? k) && (k <? ir_end instances))%Z
          then returns (place_window (Some ref) q k n) (λ w, ∀ r,
            (in_range (pw_commit w) r ↔ in_range commit (r - anchor_of q k) ∧ (0 ≤ r < Z.of_nat n)%Z) ∧
            (in_range (pw_rounds w) r ↔
               (∃ zone, zone ∈ wr_buffers q ++ [commit] ∧ in_range zone (r - anchor_of q k)) ∧ (0 ≤ r < Z.of_nat n)%Z))
          else (Forall in_i64 (anchor_sums q commit k) ∧ rejects (place_window (Some ref) q k n)) ∨
               (¬ Forall in_i64 (anchor_sums q commit k) ∧ place_window (Some ref) q k n = Undef)) ∨
  ((¬ ∃ commit, request_ok q commit) ∧ rejects (check_request q) ∧
     ∀ k a, window_anchor q k = Ok a → rejects (place_window (Some ref) q k n)).
Proof.
  intros Hs. destruct (spec_shot_ok _ _ _ _ Hs) as [_ Hok]. pose proof (admits_two _ _ _ (ss_template _ _ _ _ Hs) (ss_admits _ _ _ _ Hs)) as Hn.
  destruct (check_request_decides q) as [[[z Hq] Hc]|[Hno Hrej]]; [left|right].
  - exists z. eexists. split; [done|]. split; [done|]. split; [apply (window_instances_eq q z n (rq_anchor _ _ Hq))|].
    split; [intros k Hk; by apply (near_index_fits q z k (rq_anchor _ _ Hq))|]. intros k.
    pose proof (window_instances_spec q z n _ k (rq_anchor _ _ Hq) (window_instances_eq q z n (rq_anchor _ _ Hq)) ltac:(lia)) as Hk.
    cbn [ir_begin ir_end] in Hk |- *. fold (anchor_of q k) in Hk.
    assert (Forall in_i64 (anchor_sums q z k) ∨ ¬ Forall in_i64 (anchor_sums q z k)) as Hfits by (destruct (decide (Forall in_i64 (anchor_sums q z k))); tauto).
    destruct (_ && _) eqn:E.
    + rewrite andb_true_iff, Z.leb_le, Z.ltb_lt in E. apply Hk in E.
      pose proof (place_window_at _ n cs Hok ref eq_refl q z k Hq (instance_fits q z k _ (rq_anchor _ _ Hq) (so_small _ _ _ Hok) E)) as Hp.
      rewrite (proj2 (empty_range_false _) E) in Hp. eapply returns_mono; [exact Hp|]. intros w [-> ->] r. rewrite !clip_in_range. split; [done|].
      by rewrite (span_covers q z _ Hq).
    + destruct Hfits as [Hf|Hf]; [left|right; split; [done|by apply (place_window_overflows _ n cs Hok ref eq_refl q z)]]. split; [done|].
      pose proof (place_window_at _ n cs Hok ref eq_refl q z k Hq Hf) as Hp.
      assert (empty_range (clip_rounds z (anchor_of q k) (Z.of_nat n)) = true) as Hemp; [|by rewrite Hemp in Hp].
      destruct (empty_range _) eqn:Ee; [done|]. apply empty_range_false, Hk in Ee. exfalso. revert E. apply not_false_iff_true.
      rewrite andb_true_iff, Z.leb_le, Z.ltb_lt. lia.
  - split; [done|]. split; [done|]. intros k a Ha. destruct Hrej as [msg E]. unfold place_window. cbv zeta. rewrite Ha. cbn [mbind res_bind]. rewrite E. by exists msg.
Qed.

Lemma request_places_windows_witness :
  ∃ w, place_window (Some memory_ref) anchor_request 1 5 = Ok w ∧
    (in_range (pw_rounds w) 3 ↔ (∃ zone, zone ∈ [mk_range (-1) 0; mk_range 2 3; mk_range 0 2] ∧ in_range zone (3 - 4)) ∧ (0 ≤ 3 < 5)%Z).
Proof.
  destruct (request_places_windows memory_spec memory_ref 5 memory_chunks anchor_request memory_spec_shot)
    as [(commit&ir&Hq&_&Hi&_&Hk)|(_&Hrej&_)].
  - specialize (Hk 1%Z). assert (commit = mk_range 0 2 ∧ ir = mk_index_range 0 2) as [-> ->].
    { split; [|by vm_compute in Hi; injection Hi as <-]. pose proof (an_commit _ _ (rq_anchor _ _ Hq)) as Hc. by injection Hc as <-. }
    destruct Hk as (w&Hw&Hr). exists w. split; [exact Hw|]. apply (Hr 3%Z).
  - exfalso. destruct Hrej as [msg E]. by vm_compute in E.
Defined.

(** An index far out overflows before any check sees it. *)
Example far_index_overflows : place_window (Some memory_ref) anchor_request (2 ^ 62) 5 = Undef.
Proof. vm_compute. reflexivity. Qed.

(** C19. A window decodes its part of the shot.  Every commit column of a window
    that [window_from_dem_chunks] builds is the column, in the closed model of the
    shot, of a fault of a commit round, the first that the window records as the
    column's source, restricted to the window's rows, with the same observables.  With a
    decoder that returns one value per column [solve_window] returns:
    [satisfied] tells whether the estimated columns explain the detectors, the
    sends are the parities of the committed columns on their rows, to which a
    residual adds the detectors, and the frame is the parity of their
    observables. *)
Theorem window_decodes_its_part {R} `{RateOps R} (spec : dem_chunks_spec R) (ref : template_ref R) (n : nat)
    (cs : list (extended_dem R)) (closed : chain_columns R) (q : window_request R) (k : Z) (m2o : bool) (w : decoding_window R) :
  spec_shot spec (ref_template ref) n cs →
  close_columns cs (sc_from_seam (spec_seam spec)) (sc_to_seam (spec_seam spec)) = Ok closed →
  window_from_dem_chunks (Some ref) q k n m2o = Ok w →
  let rows := num_rows_ (wm_h (dw_model w)) in
  let columns := num_cols_ (wm_h (dw_model w)) in
  ∃ first start lo hi hcols ocols,
    row_offset (ref_template ref) (to_size (rr_begin (pw_rounds (dw_placed w)))) n = Ok first ∧
    column_offset (ref_template ref) (to_size (rr_begin (pw_rounds (dw_placed w)))) n = Ok start ∧
    column_offset (ref_template ref) (to_size (rr_begin (pw_commit (dw_placed w)))) n = Ok lo ∧
    column_offset (ref_template ref) (to_size (rr_end (pw_commit (dw_placed w)))) n = Ok hi ∧
    model_cols (wm_h (dw_model w)) hcols ∧ model_cols (wm_o (dw_model w)) ocols ∧
    (∀ c, cr_begin (dw_commit_columns w) ≤ c < cr_end (dw_commit_columns w) → ∃ f sources,
       dw_fault_column_sources w !! c = Some sources ∧ head sources = Some f ∧ lo ≤ start + f < hi ∧
       (∀ i, i < rows → touches (default [] (hcols !! c)) i = touches (default [] (cc_rows closed !! (start + f))) (first + i)) ∧
       (∀ o, touches (default [] (ocols !! c)) o = touches (default [] (cc_observables closed !! (start + f))) o)) ∧
    (∀ dec d,
       (∀ decode, dec = Some decode → ∃ r conv, decode (soft_of <$> vec rows d) = Ok (r, conv) ∧ length r = columns) →
       returns (solve_window w dec (vec rows d) (make_window_workspace w)) (λ ws, ∃ e,
         let sol := wk_solution ws in
         sol_estimate sol = vec (num_cols_ (wm_o (dw_model w))) e ∧
         (sol_satisfied sol = true ↔ ∀ r, r < rows → d r = parity (selected hcols e (seq 0 columns)) r) ∧
         sol_outputs sol = outputs_of w hcols ocols d e)).
Proof.
  intros Hs Hcl Hw rows columns. destruct (spec_shot_ok _ _ _ _ Hs) as [_ Hok].
  destruct (window_from_dem_chunks_built _ n cs Hok q ref k w m2o eq_refl Hw) as (s&e&cb&ce&ie&hcols&ocols&Hb).
  pose proof (wb_placed _ _ _ _ _ _ _ _ _ _ _ _ _ _ Hb) as Hp. destruct (pk_bounds _ _ _ _ _ _ _ _ _ _ _ _ Hp) as (B1&B2&B3&B4&B5).
  pose proof (wb_run _ _ _ _ _ _ _ _ _ _ _ _ _ _ Hb) as Hrun. destruct (closed_shot _ _ _ _ Hs closed Hcl) as (_&Hcr&_&_).
  rewrite (pk_rounds _ _ _ _ _ _ _ _ _ _ _ _ Hp), (pk_commit _ _ _ _ _ _ _ _ _ _ _ _ Hp). cbn [rr_begin rr_end]. eexists _, _, _, _, hcols, ocols.
  split; [apply (row_offset_z _ n cs Hok); lia|]. do 3 (split; [apply (column_offset_z _ n cs Hok); lia|]).
  split; [apply Hrun|]. split; [apply Hrun|]. split.
  - intros c Hc. destruct (wb_commit _ _ _ _ _ _ _ _ _ _ _ _ _ _ Hb c Hc) as (f&g&Hsrc&Hhead&Hf&Hth&Hto). exists f, g. split; [done|]. split; [done|]. split; [lia|].
    pose proof (fb_mono cs ce n ltac:(lia)). pose proof (base_mono (ref_template ref) cs ie n ltac:(lia)). split.
    + intros i Hi. unfold rows in Hi. rewrite (wb_rows _ _ _ _ _ _ _ _ _ _ _ _ _ _ Hb) in Hi. rewrite Hth by done.
      by rewrite (closed_hit _ _ _ _ Hs closed Hcl) by lia.
    + intros o. rewrite Hto. by rewrite (closed_obs _ _ _ _ Hs closed Hcl) by lia.
  - intros dec d Hdec. assert (∃ est conv, decodes w dec d est conv) as (est&conv&Hde).
    { unfold decodes. destruct dec as [decode|]; [|by exists (λ _, false), true].
      destruct (Hdec decode eq_refl) as (r&conv&Hr&Hl). by exists (λ c, from_option convert_soft_to_hard false (r !! c)), conv, r. }
    eapply returns_mono; [apply (solve_window_eq w hcols ocols Hrun dec d est conv Hde)|]. intros ws (He&_&Hsat&Ho). by exists est.
Qed.

Lemma window_decodes_its_part_witness :
  ∃ w ws, window_from_dem_chunks (Some memory_ref) joining_request 1 5 false = Ok w ∧
    solve_window w (memory_decoders 2) (vec 3 (λ r, 1 <=? r)) (make_window_workspace w) = Ok ws ∧
    sol_satisfied (wk_solution ws) = true.
Proof.
  destruct (window_from_dem_chunks (Some memory_ref) joining_request 1 5 false) as [w| |] eqn:E; [|by vm_compute in E..].
  destruct (window_decodes_its_part memory_spec memory_ref 5 memory_chunks memory_closed joining_request 1 false w memory_spec_shot
    ltac:(vm_compute; reflexivity) E) as (first&start&lo&hi&hcols&ocols&_&_&_&_&_&_&_&Hsolve).
  vm_compute in E. injection E as <-.
  destruct (Hsolve (memory_decoders 2) (λ r, 1 <=? r)) as (ws&Hws&_).
  { intros decode Hd. injection Hd as <-. by exists (memory_answer 2), true. }
  eexists _, ws. split; [reflexivity|]. split; [exact Hws|]. vm_compute in Hws. injection Hws as <-. reflexivity.
Defined.
