(* ===== verification/Ingest.v ===== *)
(** * The ingest core

    Model of [ingest_core] (libs/qec/lib/decoding_task/decoding_task_ingest_core.cpp
    and its header): a stream of raw measurement records is cut into rounds, the
    detectors of every round are formed once into a ring of fixed size, and the
    windows of all layers are handed over, index by index, as views of the ring.

    The members that the constructor fixes are an [ingest_layout], an argument of
    the operations; the members that change are an [ingest_core].  Buffers are
    flat lists of bytes, as in the code: an access outside one is [Undef].  An
    operation that calls [fail] returns the failed core with the exception; an
    exception that leaves the core as it was is [Throw].  Counters of rounds,
    measurements and rows are naturals, since a shot does not reach 2^64
    measurements; sizes that the constructor computes keep their width.  Exceptions
    carry the fixed part of their message. *)

From S2P Require Import Prelude Rates Ordering Tensor SparseMatrix RoundLayout DetectorErrorModel ExtendedDem ChunkSpec ExperimentTemplate WindowRequest.

Open Scope nat_scope.

(** ** Flat buffers *)

(** [std::copy_n(data + from, n, ...)], read side and write side. *)
Definition read_n {A} (buf : list A) (from n : nat) : res (list A) :=
  if from + n <=? length buf then Ok (take n (drop from buf)) else Undef.
Definition write_n {A} (buf : list A) (at_ : nat) (l : list A) : res (list A) :=
  if at_ + length l <=? length buf then Ok (take at_ buf ++ l ++ drop (at_ + length l) buf) else Undef.

Definition size_bits : nat := 64.

(** The loop of [power_of_two_at_least]: [p <<= 1] reaches 0 after 64 steps and
    then never ends. *)
Fixpoint double_until (fuel p n : nat) : res nat :=
  match fuel with
  | 0 => Undef
  | S fuel => if p <? n then double_until fuel (u64 (p * 2)) n else Ok p
  end.
Definition power_of_two_at_least (n : nat) : res nat := double_until size_bits 1 n.

(** [std::find(l.begin(), l.end(), b)] as a position. *)
Definition find_flag (b : bool) (l : list bool) : option nat := fst <$> list_find (λ x, x = b) l.

(** ** Data *)

(** A layer's window as it is handed over.  [wv_source]: whether [source] points
    at the core. *)
Record window_view := mk_view {
  wv_layer : nat;
  wv_k : Z;
  wv_rounds : round_range;
  wv_variant : variant_key;
  wv_first_row : nat;
  wv_source : bool;
  wv_slot : nat
}.

(** [views]: the slot in its layer's pool that each layer's pointer names. *)
Record ingest_publication := mk_publication { pub_k : Z; pub_views : list (option nat) }.

Inductive ingest_status := ingest_accepted | ingest_deferred.

Record window_rows := mk_rows {
  rows_k : Z;
  rows_rounds : round_range;
  rows_variant : variant_key;
  rows_first_row : nat;
  rows_detectors : list nat
}.

Section ingest.
Context {R : Type} `{RateOps R}.

Record ingest_layer := mk_ingest_layer { il_request : window_request R; il_max_views : nat }.

(** The members fixed at construction. *)
Record ingest_layout := mk_layout {
  context_ : experiment_template R;
  layers_ : list ingest_layer;
  has_d_ : bool;
  prefix_rounds_ : nat;
  suffix_rounds_ : nat;
  period_ : Z;
  prefix_widths_ : list nat;
  prefix_rows_ : list nat;
  prefix_d_ : list (list Z);
  bulk_width_ : nat;
  bulk_rows_ : nat;
  bulk_d_ : option (list Z);
  suffix_rows_ : list nat;
  suffix_d_ : list (list Z);
  last_width_ : nat;
  min_forward_width_ : nat;
  fixed_measurements_ : nat;
  max_width_ : nat;
  max_rows_ : nat;
  record_limit_ : nat;
  first_k_ : list Z;
  spans_ : list round_range;
  bounds_ : list variant_bounds;
  staged_slots_ : nat;
  ring_mask_ : nat
}.

(** Raw rounds: the round being cut and those before it. *)
Record raw_rounds := mk_raw {
  staged_ : list nat;
  staged_width_ : list nat;
  rounds_cut_ : nat;
  cut_bytes_ : nat;
  partial_ : nat
}.

(** The ring of formed rounds. *)
Record formed_rounds := mk_formed {
  ring_ : list nat;
  ring_rows_ : list nat;
  ring_round_ : list Z;
  ring_first_row_ : list nat;
  formed_ : nat;
  rows_formed_ : nat
}.

(** The view pools. *)
Record view_pools := mk_pools {
  pools_ : list (list window_view);
  out_ : list (list bool);
  publication_ : ingest_publication;
  next_index_ : Z
}.

(** What FINAL fixes, and failure. *)
Record shot_state := mk_shot {
  shot_rounds_ : option nat;
  final_instances_ : list index_range;
  index_end_ : Z;
  failed_ : bool
}.

Record ingest_core := mk_core {
  core_raw : raw_rounds;
  core_formed : formed_rounds;
  core_views : view_pools;
  core_shot : shot_state
}.

Implicit Types L : ingest_layout.
Implicit Types core : ingest_core.

Definition bad_ingest (what : string) : exn := InvalidArgument ("ingest: " +:+ what).

(** ** Rounds *)

(** The callers index within the prefix. *)
Definition forward_width L (r : nat) : nat :=
  if r <? prefix_rounds_ L then default 0 (prefix_widths_ L !! r) else bulk_width_ L.

(** The walk back in [least_shot_rounds]. *)
Fixpoint earliest_readout L (earliest first start : nat) : nat :=
  match first with
  | 0 => 0
  | S first' =>
      if earliest <=? start
      then earliest_readout L earliest first' (if 0 <? first' then start - forward_width L (first' - 1) else start)
      else first
  end.

Definition least_shot_rounds L (shot : option nat) (raw : raw_rounds) : nat :=
  let received := cut_bytes_ raw + partial_ raw in
  let earliest := if last_width_ L <? received then received - last_width_ L else 0 in
  match shot with
  | Some n => n
  | None =>
      if negb (t_repeats (context_ L)) then t_min_rounds (context_ L)
      else (earliest_readout L earliest (rounds_cut_ raw + 1) (cut_bytes_ raw) + 1) `max` t_min_rounds (context_ L)
  end.

(** Which [D_sparse] and how many rows round [r] has. *)
Definition round_form L (shot : option nat) (r : nat) : res (option (list Z) * nat) :=
  if r <? prefix_rounds_ L then
    d ← vget (prefix_d_ L) r;
    rows ← vget (prefix_rows_ L) r;
    Ok (Some d, rows)
  else
    match shot with
    | Some n =>
        if n <=? r + suffix_rounds_ L then
          d ← vget (suffix_d_ L) (r + suffix_rounds_ L - n);
          rows ← vget (suffix_rows_ L) (r + suffix_rounds_ L - n);
          Ok (Some d, rows)
        else Ok (bulk_d_ L, bulk_rows_ L)
    | None => Ok (bulk_d_ L, bulk_rows_ L)
    end.

(** The detectors of a round by its [D_sparse], written at [out]. *)
Definition form_sparse (d : list Z) (staged : list nat) (before before_width current out : nat) (ring : list nat)
    : res (list nat) :=
  st ← foldM (λ index st,
         let '(ring, row, value) := st in
         if (index =? -1)%Z then
           ring ← vset ring (out + row) value;
           Ok (ring, row + 1, 0)
         else
           let i := to_size index in
           m ← vget staged (if i <? before_width then before + i else current + (i - before_width));
           Ok (ring, row, Nat.lxor value (Nat.land m 1))) d (ring, 0, 0);
  Ok st.1.1.

(** The memory convention. *)
Definition form_memory (rows : nat) (staged : list nat) (before : option nat) (current out : nat) (ring : list nat)
    : res (list nat) :=
  for_u 0 rows (λ j ring,
    m ← vget staged (current + j);
    b ← match before with Some p => vget staged (p + j) | None => Ok 0 end;
    vset ring (out + j) (Nat.land (Nat.lxor m b) 1)) ring.

Definition form_detectors L (shot : option nat) (raw : raw_rounds) (r : nat) (f : formed_rounds) : res formed_rounds :=
  let current := (r mod staged_slots_ L) * max_width_ L in
  let before := if r =? 0 then None else Some (((r - 1) mod staged_slots_ L) * max_width_ L) in
  before_width ← (if r =? 0 then Ok 0 else vget (staged_width_ raw) ((r - 1) mod staged_slots_ L));
  let slot := Nat.land r (ring_mask_ L) in
  let out := slot * max_rows_ L in
  form ← round_form L shot r;
  let '(d, rows) := form in
  ring ← (if has_d_ L then
            match d with
            | Some d => form_sparse d (staged_ raw) (default 0 before) before_width current out (ring_ f)
            | None => Undef
            end
          else form_memory rows (staged_ raw) before current out (ring_ f));
  ring_rows ← vset (ring_rows_ f) slot rows;
  ring_round ← vset (ring_round_ f) slot (Z.of_nat r);
  ring_first_row ← vset (ring_first_row_ f) slot (rows_formed_ f);
  Ok (mk_formed ring ring_rows ring_round ring_first_row (formed_ f) (rows_formed_ f + rows)).

(** The loop of [form_known_rounds]; it ends at the latest when every round cut
    is formed. *)
Fixpoint form_while (fuel : nat) L (shot : option nat) (least : nat) (raw : raw_rounds) (f : formed_rounds)
    : res formed_rounds :=
  match fuel with
  | 0 => Ok f
  | S fuel =>
      if (formed_ f <? rounds_cut_ raw) &&
         (negb (bool_decide (shot = None)) || (formed_ f <? prefix_rounds_ L) || (formed_ f + suffix_rounds_ L <? least))
      then
        f ← form_detectors L shot raw (formed_ f) f;
        form_while fuel L shot least raw
          (mk_formed (ring_ f) (ring_rows_ f) (ring_round_ f) (ring_first_row_ f) (formed_ f + 1) (rows_formed_ f))
      else Ok f
  end.

Definition form_known_rounds L (shot : option nat) (raw : raw_rounds) (f : formed_rounds) : res formed_rounds :=
  form_while (rounds_cut_ raw - formed_ f) L shot (least_shot_rounds L shot raw) raw f.

Definition complete_round L (shot : option nat) (width : nat) (st : raw_rounds * formed_rounds)
    : res (raw_rounds * formed_rounds) :=
  let '(raw, f) := st in
  widths ← vset (staged_width_ raw) (rounds_cut_ raw mod staged_slots_ L) width;
  let raw := mk_raw (staged_ raw) widths (rounds_cut_ raw + 1) (cut_bytes_ raw + width) 0 in
  f ← form_known_rounds L shot raw f;
  Ok (raw, f).

(** The loop of [cut]: the new state, and the exception when [fail] is called. *)
Fixpoint cut_loop (fuel : nat) L (shot : option nat) (data : list nat) (st : raw_rounds * formed_rounds)
    : res (raw_rounds * formed_rounds * option exn) :=
  let '(raw, f) := st in
  match fuel with
  | 0 => Undef
  | S fuel =>
      if length data =? 0 then
        f ← form_known_rounds L shot raw f;
        Ok (raw, f, None)
      else
        let r := rounds_cut_ raw in
        let readout := negb (t_repeats (context_ L)) && (r + 1 =? prefix_rounds_ L) && bool_decide (shot = None) in
        let width := if readout then last_width_ L else forward_width L r in
        let n := length data `min` (width - partial_ raw) in
        staged ← write_n (staged_ raw) ((r mod staged_slots_ L) * max_width_ L + partial_ raw) (take n data);
        let raw := mk_raw staged (staged_width_ raw) (rounds_cut_ raw) (cut_bytes_ raw) (partial_ raw + n) in
        let data := drop n data in
        if partial_ raw <? width then cut_loop fuel L shot data (raw, f)
        else if readout then
          Ok (raw, f, if 0 <? length data then Some (bad_ingest "a record runs past the shot's last round") else None)
        else
          st ← complete_round L shot width (raw, f);
          cut_loop fuel L shot data st
  end.

(** A step takes at least one measurement while rounds have measurements. *)
Definition cut L (shot : option nat) (data : list nat) (st : raw_rounds * formed_rounds)
    : res (raw_rounds * formed_rounds * option exn) :=
  cut_loop (length data + 1) L shot data st.

(** ** Held rounds *)

Definition done core : bool :=
  match shot_rounds_ (core_shot core) with
  | Some _ => (index_end_ (core_shot core) <=? next_index_ (core_views core))%Z
  | None => false
  end.

Definition zip_layers L : list (ingest_layer * round_range) := zip (layers_ L) (spans_ L).

Definition first_held_round L core : Z :=
  let held := Z.of_nat (formed_ (core_formed core)) in
  let held :=
    if done core then held
    else foldl (λ held ls,
           held `min` (0 `max` (wr_offset (il_request ls.1) + next_index_ (core_views core) * period_ L + rr_begin ls.2)))%Z
           held (zip_layers L) in
  foldl (λ held pool,
    foldl (λ held vs, if (vs.2 : bool) then (held `min` rr_begin (wv_rounds vs.1))%Z else held) held (zip pool.1 pool.2))
    held (zip (pools_ (core_views core)) (out_ (core_views core))).

Definition has_room L core (end_ : nat) : bool :=
  (Z.of_nat end_ - first_held_round L core <=? Z.of_nat (ring_mask_ L + 1))%Z.

(** ** Records *)

Definition set_failed core : ingest_core :=
  mk_core (core_raw core) (core_formed core) (core_views core)
    (mk_shot (shot_rounds_ (core_shot core)) (final_instances_ (core_shot core)) (index_end_ (core_shot core)) true).

(** [fail] *)
Definition fail core (what : string) : res (ingest_core * (ingest_status + exn)) :=
  Ok (set_failed core, inr (bad_ingest what)).

Definition check_open core : res unit :=
  _ ← throw_if (failed_ (core_shot core)) (LogicError "ingest: reset() is needed after a failure");
  throw_if (negb (bool_decide (shot_rounds_ (core_shot core) = None)))
    (LogicError "ingest: input after FINAL; reset() starts the next shot").

(** The loops of [enqueue] that place the readout round: forward from the round
    being cut, and back over rounds already cut. *)
Fixpoint forward_to (fuel : nat) L (readout_start at_ r : nat) : res (nat * nat + string) :=
  match fuel with
  | 0 => Undef
  | S fuel =>
      if at_ <? readout_start then
        let width := forward_width L r in
        if negb (t_repeats (context_ L)) && (prefix_rounds_ L <=? r + 1)
        then Ok (inr "the FINAL record runs past the shot's last round")
        else if readout_start - at_ <? width then Ok (inr "the FINAL record ends mid-round")
        else forward_to fuel L readout_start (at_ + width) (r + 1)
      else Ok (inl (at_, r))
  end.
Fixpoint back_to L (readout_start at_ r : nat) : nat * nat :=
  match r with
  | 0 => (at_, 0)
  | S r' => if readout_start <? at_ then back_to L readout_start (at_ - forward_width L r') r' else (at_, r)
  end.

(** The readout round's number, or why the record ends no shot. *)
Definition final_round L core (len : nat) : res (nat + string) :=
  let raw := core_raw core in
  let t := context_ L in
  let total := cut_bytes_ raw + partial_ raw + len in
  if total <? last_width_ L then Ok (inr "the shot holds fewer measurements than its readout round's") else
  let readout_start := total - last_width_ L in
  ahead ← forward_to (readout_start + 1) L readout_start (cut_bytes_ raw) (rounds_cut_ raw);
  Ok match ahead with
     | inr what => inr what
     | inl (at_, r) =>
         let '(at_, r) := back_to L readout_start at_ r in
         if negb (at_ =? readout_start) then inr "the FINAL record ends mid-round"
         else if (if t_repeats t then r + 1 <? t_min_rounds t else negb (r + 1 =? t_min_rounds t))
         then inr "the FINAL record ends the shot at a length the template's shots do not have"
         else if (r <? formed_ (core_formed core)) && (0 <? suffix_rounds_ L)
         then inr "the FINAL record ends the shot, but rounds are already formed as bulk"
         else inl r
     end.

(** [readout round r joins in its slot]: the rounds cut after it, the partial
    round and the record. *)
Definition join_readout L (r : nat) (data : list nat) (raw : raw_rounds) : res (list nat) :=
  let readout := (r mod staged_slots_ L) * max_width_ L in
  st ← for_u (r + 1) (rounds_cut_ raw) (λ q st,
         let '(staged, filled) := st in
         l ← read_n staged ((q mod staged_slots_ L) * max_width_ L) (forward_width L q);
         staged ← write_n staged (readout + filled) l;
         Ok (staged, filled + forward_width L q)) (staged_ raw, forward_width L r);
  let '(staged, filled) := st in
  l ← read_n staged ((rounds_cut_ raw mod staged_slots_ L) * max_width_ L) (partial_ raw);
  staged ← write_n staged (readout + filled) l;
  write_n staged (readout + filled + partial_ raw) data.

(** The rounds that FINAL completes, in a shot of [r + 1] rounds. *)
Definition finish_rounds L (r : nat) (data : list nat) (st : raw_rounds * formed_rounds)
    : res (raw_rounds * formed_rounds * option exn) :=
  let '(raw, f) := st in
  let shot := Some (r + 1) in
  let readout_start := cut_bytes_ raw + partial_ raw + length data - last_width_ L in
  let readout := (r mod staged_slots_ L) * max_width_ L in
  if rounds_cut_ raw <=? r then
    let head := if rounds_cut_ raw <? r then readout_start - cut_bytes_ raw - partial_ raw else 0 in
    st ← (if rounds_cut_ raw <? r then cut L shot (take head data) (raw, f) else Ok (raw, f, None));
    let '(raw, f, e) := st : raw_rounds * formed_rounds * option exn in
    if negb (bool_decide (e = None)) then Ok (raw, f, e) else
    staged ← write_n (staged_ raw) (readout + partial_ raw) (drop head data);
    st ← complete_round L shot (last_width_ L)
           (mk_raw staged (staged_width_ raw) (rounds_cut_ raw) (cut_bytes_ raw) (partial_ raw), f);
    Ok (st, None)
  else if formed_ f <=? r then
    staged ← join_readout L r data raw;
    st ← complete_round L shot (last_width_ L) (mk_raw staged (staged_width_ raw) r readout_start 0, f);
    Ok (st, None)
  else Ok (raw, f, None).

Definition enqueue_final L core (data : list nat) : res (ingest_core * (ingest_status + exn)) :=
  last ← final_round L core (length data);
  match last with
  | inr what => fail core what
  | inl r =>
      let n := r + 1 in
      if negb (has_room L core n) then Ok (core, inl ingest_deferred) else
      st ← finish_rounds L r data (core_raw core, core_formed core);
      let '(raw, f, e) := st : raw_rounds * formed_rounds * option exn in
      let shot := mk_shot (Some n) (final_instances_ (core_shot core)) (index_end_ (core_shot core)) in
      match e with
      | Some e => Ok (mk_core raw f (core_views core) (shot true), inr e)
      | None =>
          instances ← foldM (λ layer l, i ← window_instances (il_request layer) n; Ok (l ++ [i])) (layers_ L) [];
          let index_end := foldl (λ e i, e `max` ir_end i)%Z (next_index_ (core_views core)) instances in
          Ok (mk_core raw f (core_views core) (mk_shot (Some n) instances index_end false), inl ingest_accepted)
      end
  end.

(** [data] is null for [None]. *)
Definition enqueue L core (data : option (list nat)) (len : nat) (final : bool)
    : res (ingest_core * (ingest_status + exn)) :=
  _ ← check_open core;
  let raw := core_raw core in
  if record_limit_ L <? len then fail core "a record is longer than one period of rounds" else
  if (0 <? len) && bool_decide (data = None) then fail core "a record has no data" else
  data ← read_n (default [] data) 0 len;
  if final then enqueue_final L core data else
  if negb (t_repeats (context_ L)) && (fixed_measurements_ L <? cut_bytes_ raw + partial_ raw + len)
  then fail core "a record runs past the shot's last round" else
  if negb (has_room L core (rounds_cut_ raw + (partial_ raw + len) / min_forward_width_ L))
  then Ok (core, inl ingest_deferred) else
  st ← cut L None data (raw, core_formed core);
  let '(raw, f, e) := st in
  match e with
  | Some e => Ok (set_failed (mk_core raw f (core_views core) (core_shot core)), inr e)
  | None => Ok (mk_core raw f (core_views core) (core_shot core), inl ingest_accepted)
  end.

(** ** Windows *)

Definition window_exists L core (l : nat) (k : Z) : res bool :=
  match shot_rounds_ (core_shot core) with
  | None => first ← vget (first_k_ L) l; Ok (first <=? k)%Z
  | Some _ => i ← vget (final_instances_ (core_shot core)) l; Ok ((ir_begin i <=? k)%Z && (k <? ir_end i)%Z)
  end.

Definition window_complete L core (l : nat) (k : Z) (least : nat) : res bool :=
  layer ← vget (layers_ L) l;
  let request := il_request layer in
  match shot_rounds_ (core_shot core) with
  | Some _ => Ok true
  | None =>
      bounds ← vget (bounds_ L) l;
      span ← vget (spans_ L) l;
      Ok (bool_decide (key_terminal (variant_from bounds request k least) = None) &&
          (wr_offset request + k * period_ L + rr_end span <=? Z.of_nat (formed_ (core_formed core)))%Z)
  end.

(** The first loop over the layers in [poll]: nothing when the index must wait,
    else whether any layer has a window. *)
Definition index_ready L core (k : Z) (least : nat) : res (option bool) :=
  for_u 0 (length (layers_ L)) (λ l st,
    match st with
    | None => Ok None
    | Some any =>
        exists_ ← window_exists L core l k;
        if negb exists_ then Ok (Some any) else
        complete ← window_complete L core l k least;
        if negb complete then Ok None else
        pool ← vget (out_ (core_views core)) l;
        Ok (if bool_decide (find_flag false pool = None) then None else Some true)
    end) (Some false).

(** The second loop: layer [l]'s view of window [k], if it has one. *)
Definition hand_over L core (k : Z) (least l : nat) (st : list (list window_view) * list (list bool) * list (option nat))
    : res (list (list window_view) * list (list bool) * list (option nat)) :=
  let '(pools, out, views) := st in
  exists_ ← window_exists L core l k;
  if negb exists_ then Ok (pools, out, views ++ [None]) else
  layer ← vget (layers_ L) l;
  let request := il_request layer in
  let anchor := (wr_offset request + k * period_ L)%Z in
  let end_ := match shot_rounds_ (core_shot core) with Some n => Z.of_nat n | None => (2 ^ 63 - 1)%Z end in
  flags ← vget out l;
  match find_flag false flags with
  | None => Undef
  | Some s =>
      pool ← vget pools l;
      view ← vget pool s;
      flags ← vset flags s true;
      out ← vset out l flags;
      span ← vget (spans_ L) l;
      bounds ← vget (bounds_ L) l;
      let rounds := clip_rounds span anchor end_ in
      first_row ← vget (ring_first_row_ (core_formed core)) (Nat.land (to_size (rr_begin rounds)) (ring_mask_ L));
      pool ← vset pool s
        (mk_view (wv_layer view) k rounds (variant_from bounds request k least) first_row true (wv_slot view));
      pools ← vset pools l pool;
      Ok (pools, out, views ++ [Some s])
  end.

(** One index after the other; after FINAL an index without windows is passed
    over. *)
Fixpoint poll_loop (fuel : nat) L core (least : nat) : res (ingest_core * option ingest_publication) :=
  match fuel with
  | 0 => Undef
  | S fuel =>
      let v := core_views core in
      let k := next_index_ v in
      if negb (bool_decide (shot_rounds_ (core_shot core) = None)) && (index_end_ (core_shot core) <=? k)%Z
      then Ok (core, None) else
      ready ← index_ready L core k least;
      match ready with
      | None => Ok (core, None)
      | Some any =>
          let next pools out publication :=
            mk_core (core_raw core) (core_formed core) (mk_pools pools out publication (k + 1)) (core_shot core) in
          if negb any then poll_loop fuel L (next (pools_ v) (out_ v) (publication_ v)) least else
          st ← for_u 0 (length (layers_ L)) (hand_over L core k least) (pools_ v, out_ v, []);
          let '(pools, out, views) := st in
          let publication := mk_publication k views in
          Ok (next pools out publication, Some publication)
      end
  end.

Definition poll L core : res (ingest_core * option ingest_publication) :=
  let least := least_shot_rounds L (shot_rounds_ (core_shot core)) (core_raw core) in
  if failed_ (core_shot core) then Ok (core, None) else
  poll_loop (Z.to_nat (index_end_ (core_shot core) - next_index_ (core_views core)) + 1) L core least.

(** [address]: the place in the pools of the object that [view] refers to. *)
Definition release core (address : option (nat * nat)) (view : window_view) : res ingest_core :=
  let v := core_views core in
  let in_pool := bool_decide (address = Some (wv_layer view, wv_slot view)) in
  let is_out := match out_ v !! wv_layer view with
                | Some flags => default false (flags !! wv_slot view)
                | None => false
                end in
  _ ← throw_if (negb (in_pool && is_out)) (LogicError "ingest: release of a view that is not out");
  flags ← vget (out_ v) (wv_layer view);
  flags ← vset flags (wv_slot view) false;
  out ← vset (out_ v) (wv_layer view) flags;
  Ok (mk_core (core_raw core) (core_formed core) (mk_pools (pools_ v) out (publication_ v) (next_index_ v)) (core_shot core)).

(** The span of a slot of the ring. *)
Definition ring_span L (f : formed_rounds) (slot : nat) : res (list nat) :=
  rows ← vget (ring_rows_ f) slot;
  read_n (ring_ f) (slot * max_rows_ L) rows.

Definition detectors L core (r : Z) : res (list nat) :=
  let f := core_formed core in
  let slot := Nat.land (to_size r) (ring_mask_ L) in
  let gone := OutOfRange "ingest: round's detectors are not in the ring" in
  _ ← throw_if ((r <? 0)%Z || (Z.of_nat (formed_ f) <=? r)%Z) gone;
  round ← vget (ring_round_ f) slot;
  _ ← throw_if (negb (round =? r)%Z) gone;
  ring_span L f slot.

Definition view_detectors L core (view : window_view) (r : Z) : res (list nat) :=
  let f := core_formed core in
  let slot := Nat.land (to_size r) (ring_mask_ L) in
  let gone := OutOfRange "ingest: the window's view does not hold the round in the ring" in
  _ ← throw_if ((r <? rr_begin (wv_rounds view))%Z || (rr_end (wv_rounds view) <=? r)%Z) gone;
  round ← vget (ring_round_ f) slot;
  _ ← throw_if (negb (round =? r)%Z) gone;
  ring_span L f slot.

Definition copy_window L core (view : window_view) : res window_rows :=
  d ← foldM (λ r d, round ← view_detectors L core view r; Ok (d ++ round))
        (z_range (rr_begin (wv_rounds view)) (rr_end (wv_rounds view))) [];
  Ok (mk_rows (wv_k view) (wv_rounds view) (wv_variant view) (wv_first_row view) d).

(** ** Construction *)

(** [*std::min_element(first_k_.begin(), first_k_.end())]; there is a layer. *)
Definition first_index L : Z :=
  match first_k_ L with k :: l => foldl Z.min k l | [] => 0%Z end.

Definition reset L core : res ingest_core :=
  let v := core_views core in
  let raw := core_raw core in
  let f := core_formed core in
  _ ← throw_if (existsb (λ pool, existsb (λ b, b) pool) (out_ v)) (LogicError "ingest: reset() with views out");
  Ok (mk_core (mk_raw (staged_ raw) (staged_width_ raw) 0 0 0)
        (mk_formed (ring_ f) (ring_rows_ f) (ring_round_ f) (ring_first_row_ f) 0 0)
        (mk_pools (pools_ v) (out_ v) (publication_ v) (first_index L))
        (mk_shot None (final_instances_ (core_shot core)) 0 false)).

Implicit Types t : experiment_template R.

Definition width_of t (r n : nat) : res nat :=
  b ← measurement_offset t (r + 1) n;
  a ← measurement_offset t r n;
  Ok (u64_sub b a).

Definition rows_of t (r n : nat) : res nat :=
  b ← row_offset t (r + 1) n;
  a ← row_offset t r n;
  Ok (u64_sub b a).

(** The lambda [d_of], for a shot of [n] rounds. *)
Definition d_of t (n r : nat) : res (list Z) :=
  id ← t_phase t r n;
  p ← get_phase (t_spec t) id;
  Ok (cs_D_sparse p).

(** What the loop over the layers collects. *)
Record layer_geometry := mk_geometry {
  lg_first_k : list Z;
  lg_spans : list round_range;
  lg_bounds : list variant_bounds;
  lg_lowest : Z;
  lg_highest : Z;
  lg_max_views : nat
}.

Definition collect_layer t (period : Z) (layer : ingest_layer) (g : layer_geometry) : res layer_geometry :=
  let request := il_request layer in
  _ ← check_request request;
  _ ← throw_if (negb (wr_period request =? period)%Z) (bad_ingest "the layers' periods differ");
  _ ← throw_if (il_max_views layer =? 0) (bad_ingest "a layer's view pool is empty");
  instances ← window_instances request 0;
  span ← zone_span request;
  bounds ← variant_bounds_of t request;
  reach ← model_reach t request;
  Ok (mk_geometry (lg_first_k g ++ [ir_begin instances]) (lg_spans g ++ [span]) (lg_bounds g ++ [bounds])
        (lg_lowest g `min` (wr_offset request + rr_begin span)) (lg_highest g `max` (wr_offset request + rr_end reach))
        (lg_max_views g `max` il_max_views layer)).

Definition collect_layers t (layers : list ingest_layer) : res (layer_geometry * Z) :=
  match layers with
  | [] => Throw (bad_ingest "no layer")
  | front :: _ =>
      let period := wr_period (il_request front) in
      g ← foldM (collect_layer t period) layers (mk_geometry [] [] [] (2 ^ 63 - 1) (- 2 ^ 63) 0);
      Ok (g, period)
  end.

(** The rounds from [lo] to [hi] of the probe shot: widths, rows, [D_sparse]. *)
Definition measure_rounds t (n lo hi : nat) : res (list nat * list nat * list (list Z)) :=
  for_u lo hi (λ r st,
    let '(widths, rows, ds) := st in
    w ← width_of t r n;
    c ← rows_of t r n;
    d ← d_of t n r;
    Ok (widths ++ [w], rows ++ [c], ds ++ [d])) ([], [], []).

(** The suffix rounds of the probe shot, whose widths are not kept. *)
Definition measure_suffix t (n lo hi : nat) : res (list nat * list (list Z)) :=
  for_u lo hi (λ r st,
    let '(rows, ds) := st in
    c ← rows_of t r n;
    d ← d_of t n r;
    Ok (rows ++ [c], ds ++ [d])) ([], []).

(** The sizes of the rounds, by kind; the buffers and layers are added later. *)
Definition measure t : res (ingest_layout) :=
  let repeats := t_repeats t in
  let probe := if repeats then t_min_rounds t + 2 else t_min_rounds t in
  let prefix := prefix_rounds t in
  let suffix := if repeats then suffix_rounds t else 0 in
  st ← measure_rounds t probe 0 prefix;
  let '(widths, rows, ds) := st : list nat * list nat * list (list Z) in
  bulk ← (if repeats then
            w ← width_of t prefix probe;
            c ← rows_of t prefix probe;
            d ← d_of t probe prefix;
            st ← measure_suffix t probe (u64_sub probe suffix) probe;
            Ok (w, c, Some d, st)
          else Ok (0, 0, None, ([], [])));
  let '(bulk_width, bulk_rows, bulk_d, (suffix_rows, suffix_ds)) := bulk
    : nat * nat * option (list Z) * (list nat * list (list Z)) in
  last_width ← width_of t (u64_sub probe 1) probe;
  last_rows ← rows_of t (u64_sub probe 1) probe;
  let min_width := foldl min (last_width `min` (if repeats then bulk_width else last_width)) widths in
  let max_width := foldl max (last_width `max` bulk_width) widths in
  let max_rows := foldl max (foldl max (bulk_rows `max` last_rows) rows) suffix_rows in
  _ ← throw_if (min_width =? 0) (bad_ingest "a round holds no measurements, so a record has no bound in rounds");
  let forward := if repeats then widths else take (prefix - 1) widths in
  Ok (mk_layout t [] (has_D_sparse (t_spec t)) prefix suffix 0 widths rows ds bulk_width bulk_rows bulk_d
        suffix_rows suffix_ds last_width (foldl min (if repeats then bulk_width else last_width) forward)
        (if repeats then 0 else u64 (sum_list widths)) max_width max_rows 0 [] [] [] 0 0).

(** The [D_sparse] of one round against the widths of its round and the one
    before. *)
Definition check_round_form L (n r : nat) : res unit :=
  let t := context_ L in
  width ← width_of t r n;
  before ← (if r =? 0 then Ok 0 else width_of t (r - 1) n);
  rows ← rows_of t r n;
  d ← d_of t n r;
  _ ← throw_if (negb (width =? (if r + 1 =? n then last_width_ L else forward_width L r)))
        (bad_ingest "a round's width is unlike its phase elsewhere");
  _ ← throw_if (negb (has_d_ L) && (negb (rows =? width) || ((0 <? r) && negb (before =? width))))
        (bad_ingest "without D_sparse every round has one measurement per detector");
  if negb (has_d_ L) then Ok tt else
  counted ← foldM (λ index counted,
              if (index =? -1)%Z then Ok (counted + 1) else
              _ ← throw_if (u64 (before + width) <=? to_size index)
                    (bad_ingest "a phase's D_sparse reads a measurement past its round and the one before");
              Ok counted) d 0;
  throw_if (negb (counted =? rows)) (bad_ingest "a phase's D_sparse has rows unlike its detectors").

Definition check_forms L : res unit :=
  let t := context_ L in
  let probe := if t_repeats t then t_min_rounds t + 2 else t_min_rounds t in
  for_u (t_min_rounds t) (probe + 1) (λ n _, for_u 0 n (λ r _, check_round_form L n r) tt) tt.

(** The sizes of the buffers. *)
Definition size_buffers (layers : list ingest_layer) (g : layer_geometry) (period : Z) L : res ingest_layout :=
  let record_limit := u64 (to_size period * max_width_ L) in
  let slots := suffix_rounds_ L + 4 + last_width_ L / min_forward_width_ L in
  let reach := u64 (to_size (lg_highest g - lg_lowest g) + suffix_rounds_ L `max` 1) in
  ring ← power_of_two_at_least
    (u64 (reach + u64 ((lg_max_views g + 1) * to_size period) +
          u64 (record_limit + max_width_ L) / min_forward_width_ L + 1 + slots));
  Ok (mk_layout (context_ L) layers (has_d_ L) (prefix_rounds_ L) (suffix_rounds_ L) period
        (prefix_widths_ L) (prefix_rows_ L) (prefix_d_ L) (bulk_width_ L) (bulk_rows_ L) (bulk_d_ L)
        (suffix_rows_ L) (suffix_d_ L) (last_width_ L) (min_forward_width_ L) (fixed_measurements_ L)
        (max_width_ L) (max_rows_ L) record_limit (lg_first_k g) (lg_spans g) (lg_bounds g) slots (ring - 1)).

(** The buffers of a new core, before its first [reset]. *)
Definition empty_core L : ingest_core :=
  let ring := ring_mask_ L + 1 in
  let pool l layer := (λ s, mk_view l 0 (mk_range 0 0) (mk_key None None) 0 false s) <$> seq 0 (il_max_views layer) in
  mk_core (mk_raw (replicate (staged_slots_ L * max_width_ L) 0) (replicate (staged_slots_ L) 0) 0 0 0)
    (mk_formed (replicate (ring * max_rows_ L) 0) (replicate ring 0) (replicate ring (-1)%Z) (replicate ring 0) 0 0)
    (mk_pools (imap pool (layers_ L)) ((λ layer, replicate (il_max_views layer) false) <$> layers_ L)
       (mk_publication 0 (replicate (length (layers_ L)) None)) 0)
    (mk_shot None (replicate (length (layers_ L)) (mk_index_range 0 0)) 0 false).

Definition make_ingest (context : option (experiment_template R)) (layers : list ingest_layer)
    : res (ingest_layout * ingest_core) :=
  match context with
  | None => Throw (bad_ingest "no template")
  | Some t =>
      gp ← collect_layers t layers;
      let '(g, period) := gp : layer_geometry * Z in
      L ← measure t;
      _ ← check_forms L;
      L ← size_buffers layers g period L;
      core ← reset L (empty_core L);
      Ok (L, core)
  end.

(** ** Queries *)

Definition round_width L : nat := if negb (bulk_width_ L =? 0) then bulk_width_ L else max_width_ L.
Definition ring_rounds L : nat := ring_mask_ L + 1.
Definition max_ready_per_record L : nat := ring_rounds L / to_size (period_ L) + 2.
Definition max_window_rows L (l : nat) : res nat :=
  match spans_ L !! l with
  | Some span => Ok (u64 (to_size (rr_end span - rr_begin span) * max_rows_ L))
  | None => Throw (OutOfRange "vector::at")
  end.
End ingest.
Arguments ingest_layer R : clear implicits.
Arguments ingest_layout R : clear implicits.
