(* ===== verification/IngestRounds.v ===== *)
(** * The ingest core: cutting and forming rounds

    What the raw buffer and the ring hold.  Round [r] of a shot occupies the
    measurements from [start_of] on; its detectors are [det_of].  The raw buffer
    holds every round cut whose detectors are not formed, with the round before
    them and the one being cut; the ring holds the last rounds formed.  Both are
    invariants of [cut] and of the rounds that FINAL completes. *)

From S2P Require Import Prelude Rates Ordering Tensor SparseMatrix RoundLayout DetectorErrorModel ExtendedDem ChunkSpec ExperimentTemplate TemplateFacts WindowRequest Ingest.

Open Scope nat_scope.

(** ** Flat buffers *)

(** [buf] holds [l] from position [off] on. *)
Definition holds_at {A} (buf : list A) (off : nat) (l : list A) : Prop :=
  ∀ i x, l !! i = Some x → buf !! (off + i) = Some x.

Lemma holds_at_nil {A} (buf : list A) off : holds_at buf off [].
Proof. done. Qed.

Lemma holds_at_app {A} (buf : list A) off l1 l2 :
  holds_at buf off (l1 ++ l2) ↔ holds_at buf off l1 ∧ holds_at buf (off + length l1) l2.
Proof.
  split.
  - intros Hh. split; intros i x Hi; [apply Hh; by apply lookup_app_l_Some|].
    rewrite <-Nat.add_assoc. apply Hh. by rewrite lookup_app_r, Nat.add_comm, Nat.add_sub by lia.
  - intros [H1 H2] i x Hi. apply lookup_app_Some in Hi as [Hi|[Hl Hi]]; [by apply H1|].
    apply H2 in Hi. by replace (off + i) with (off + length l1 + (i - length l1)) by lia.
Qed.

Lemma holds_at_same {A} (buf buf' : list A) off l :
  (∀ i, i < length l → buf' !! (off + i) = buf !! (off + i)) → holds_at buf off l → holds_at buf' off l.
Proof. intros Hs Hh i x Hi. rewrite Hs; [by apply Hh|]. by eapply lookup_lt_Some. Qed.

Lemma holds_at_read {A} (buf : list A) off l : holds_at buf off l → off + length l ≤ length buf → read_n buf off (length l) = Ok l.
Proof.
  intros Hh Hl. unfold read_n. rewrite (proj2 (Nat.leb_le _ _)) by done. f_equal. apply list_eq. intros i.
  destruct (decide (i < length l)) as [Hi|Hi].
  - destruct (lookup_lt_is_Some_2 l i Hi) as [x Hx]. by rewrite lookup_take_lt, lookup_drop, Hx, (Hh i x Hx).
  - rewrite (lookup_ge_None_2 l) by lia. apply lookup_ge_None_2. rewrite length_take. lia.
Qed.

Lemma write_n_ok {A} (buf : list A) off l :
  off + length l ≤ length buf → ∃ buf', write_n buf off l = Ok buf' ∧ length buf' = length buf ∧ holds_at buf' off l ∧
    ∀ j, j < off ∨ off + length l ≤ j → buf' !! j = buf !! j.
Proof.
  intros Hl. unfold write_n. rewrite (proj2 (Nat.leb_le _ _)) by done. eexists. split; [done|].
  assert (length (take off buf) = off) as Ht by (rewrite length_take; lia). split_and!.
  - rewrite !length_app, length_drop. lia.
  - intros i x Hi. rewrite lookup_app_r by lia. rewrite lookup_app_l; [by rewrite Ht, Nat.add_comm, Nat.add_sub|].
    rewrite Ht, Nat.add_comm, Nat.add_sub. by eapply lookup_lt_Some.
  - intros j [Hj|Hj]; [by rewrite lookup_app_l, lookup_take_lt by lia|].
    rewrite !lookup_app_r by lia. rewrite lookup_drop. f_equal. lia.
Qed.

(** Slots of a circular buffer. *)
Lemma mod_distinct a b n : a < b → b < a + n → a mod n ≠ b mod n.
Proof.
  intros Hab Hb Heq. assert (n ≠ 0) as Hn by lia. pose proof (Nat.div_mod_eq a n) as Ha. pose proof (Nat.div_mod_eq b n) as Hb'.
  rewrite Heq in Ha. assert (a / n < b / n ∨ b / n ≤ a / n) as [Hd|Hd] by lia; nia.
Qed.

Lemma slot_distinct n w q r : q ≠ r → q < r + n → r < q + n → (q mod n) * w + w ≤ (r mod n) * w ∨ (r mod n) * w + w ≤ (q mod n) * w.
Proof.
  intros Hne H1 H2. assert (q mod n ≠ r mod n) as Hm.
  { destruct (decide (q < r)); [by apply mod_distinct|]. apply not_eq_sym, mod_distinct; lia. }
  assert (q mod n < r mod n ∨ r mod n < q mod n) as [H|H] by lia; [left|right]; nia.
Qed.

Lemma slot_fits n w q : 0 < n → (q mod n) * w + w ≤ n * w.
Proof. intros Hn. pose proof (Nat.mod_upper_bound q n ltac:(lia)). nia. Qed.

Lemma land_mask r m k : m + 1 = 2 ^ k → Nat.land r m = r mod (m + 1).
Proof.
  intros Hm. rewrite Hm. replace m with (Nat.ones k) by (rewrite Nat.ones_equiv; lia). apply Nat.land_ones.
Qed.

(** ** Parities of bits *)

Definition bit_at (bits : list nat) (i : nat) : bool := Nat.odd (default 0 (bits !! i)).
Definition xor_bits (l : list bool) : bool := foldr xorb false l.

Lemma xor_bits_snoc l b : xor_bits (l ++ [b]) = xorb (xor_bits l) b.
Proof. induction l as [|a l IH]; simpl; [by destruct b|]. by rewrite IH, xorb_assoc. Qed.

Lemma land_one n : Nat.land n 1 = Nat.b2n (Nat.odd n).
Proof. change 1 with (Nat.ones 1). rewrite Nat.land_ones. change (2 ^ 1) with 2. by rewrite <-Nat.bit0_mod, Nat.bit0_odd. Qed.

Lemma lxor_b2n a b : Nat.lxor (Nat.b2n a) (Nat.b2n b) = Nat.b2n (xorb a b).
Proof. by destruct a, b. Qed.

Lemma odd_lxor a b : Nat.odd (Nat.lxor a b) = xorb (Nat.odd a) (Nat.odd b).
Proof. by rewrite <-!Nat.bit0_odd, Nat.lxor_spec. Qed.

(** The rows of a [D_sparse] list; [row] is the row read so far. *)
Fixpoint sparse_rows (d : list Z) (row : list nat) : list (list nat) :=
  match d with
  | [] => []
  | i :: d => if (i =? -1)%Z then row :: sparse_rows d [] else sparse_rows d (row ++ [to_size i])
  end.

Definition parity_of (bits : list nat) (row : list nat) : nat := Nat.b2n (xor_bits (bit_at bits <$> row)).

(** The detectors of a round: by [D_sparse] over the measurements of the round
    before and its own, or by the memory convention. *)
Definition sparse_detectors (d : list Z) (before current : list nat) : list nat :=
  parity_of (before ++ current) <$> sparse_rows d [].
Definition memory_detectors_of (before : option (list nat)) (current : list nat) : list nat :=
  imap (λ j m, Nat.b2n (xorb (Nat.odd m) match before with Some b => bit_at b j | None => false end)) current.

Lemma length_sparse_rows d row : length (sparse_rows d row) = length (filter (λ i, i = (-1)%Z) d).
Proof.
  revert row. induction d as [|i d IH]; intros row; [done|]. cbn [sparse_rows]. rewrite filter_cons.
  destruct (Z.eqb_spec i (-1)) as [->|]; [rewrite decide_True by done; simpl; by rewrite IH|by rewrite decide_False].
Qed.

Lemma form_sparse_ok d staged before bw current out ring bs cs :
  holds_at staged before bs → holds_at staged current cs → length bs = bw →
  Forall (λ i, i = (-1)%Z ∨ to_size i < length bs + length cs) d →
  out + length (sparse_rows d []) ≤ length ring →
  ∃ ring', form_sparse d staged before bw current out ring = Ok ring' ∧ length ring' = length ring ∧
    holds_at ring' out (sparse_detectors d bs cs) ∧
    ∀ j, j < out ∨ out + length (sparse_rows d []) ≤ j → ring' !! j = ring !! j.
Proof.
  intros Hb Hc <- Hd Hout. unfold form_sparse, sparse_detectors.
  assert (∀ row ring k, out + k + length (sparse_rows d row) ≤ length ring →
    ∃ ring' k' v', foldM (λ index st,
         let '(ring, row, value) := st in
         if (index =? -1)%Z then
           ring ← vset ring (out + row) value;
           Ok (ring, row + 1, 0)
         else
           let i := to_size index in
           m ← vget staged (if i <? length bs then before + i else current + (i - length bs));
           Ok (ring, row, Nat.lxor value (Nat.land m 1))) d (ring, k, parity_of (bs ++ cs) row) = Ok (ring', k', v') ∧
      length ring' = length ring ∧ holds_at ring' (out + k) (parity_of (bs ++ cs) <$> sparse_rows d row) ∧
      ∀ j, j < out + k ∨ out + k + length (sparse_rows d row) ≤ j → ring' !! j = ring !! j) as Hloop.
  { clear ring Hout. induction Hd as [|i d Hi _ IH]; intros row ring k Hout; cbn [foldM sparse_rows].
    - exists ring, k, (parity_of (bs ++ cs) row). split_and!; try done.
    - cbn [sparse_rows] in Hout. destruct (Z.eqb_spec i (-1)) as [->|Hne].
      + cbn [length] in Hout. rewrite vset_ok by lia. cbn [mbind res_bind].
        destruct (IH [] (<[out + k := parity_of (bs ++ cs) row]> ring) (k + 1)) as (ring'&k'&v'&Hf&Hl&Hh&Hs).
        { rewrite length_insert. lia. }
        exists ring', k', v'. split; [exact Hf|]. rewrite length_insert in Hl. split; [done|]. split.
        * intros [|j] x; cbn; [intros [= <-]|].
          -- rewrite Hs by lia. rewrite Nat.add_0_r. apply list_lookup_insert_eq. lia.
          -- intros Hx. replace (out + k + S j) with (out + (k + 1) + j) by lia. by apply Hh.
        * intros j Hj. cbn [length] in Hj. rewrite Hs by lia. apply list_lookup_insert_ne. lia.
      + destruct Hi as [?|Hi]; [done|].
        assert (∃ m, vget staged (if to_size i <? length bs then before + to_size i else current + (to_size i - length bs)) = Ok m ∧
          (bs ++ cs) !! to_size i = Some m) as (m&Hm&Hbit).
        { destruct (Nat.ltb_spec (to_size i) (length bs)) as [Hlt|Hge].
          - destruct (lookup_lt_is_Some_2 bs (to_size i) Hlt) as [m Hm]. exists m. split; [by apply vget_ok, Hb|by apply lookup_app_l_Some].
          - destruct (lookup_lt_is_Some_2 cs (to_size i - length bs)) as [m Hm]; [lia|]. exists m.
            split; [by apply vget_ok, Hc|by rewrite lookup_app_r]. }
        rewrite Hm. cbn [mbind res_bind]. apply IH in Hout.
        destruct Hout as (ring'&k'&v'&Hf&Hrest). exists ring', k', v'. split; [|done]. rewrite <-Hf. do 3 f_equal.
        unfold parity_of. rewrite fmap_app. cbn [fmap list_fmap]. rewrite xor_bits_snoc, land_one, lxor_b2n. unfold bit_at at 3. by rewrite Hbit. }
  destruct (Hloop [] ring 0) as (ring'&k'&v'&Hf&Hl&Hh&Hs); [lia|]. rewrite Nat.add_0_r in Hh, Hs.
  exists ring'. split; [exact (f_equal (λ m : res (list nat * nat * nat), m ≫= λ st, Ok st.1.1) Hf)|done].
Qed.

Lemma form_memory_ok staged before current out ring (bs : option (list nat)) cs :
  match before, bs with
  | Some p, Some b => holds_at staged p b ∧ length b = length cs
  | None, None => True
  | _, _ => False
  end → holds_at staged current cs → out + length cs ≤ length ring →
  ∃ ring', form_memory (length cs) staged before current out ring = Ok ring' ∧ length ring' = length ring ∧
    holds_at ring' out (memory_detectors_of bs cs) ∧
    ∀ j, j < out ∨ out + length cs ≤ j → ring' !! j = ring !! j.
Proof.
  intros Hb Hc Hout. unfold form_memory.
  destruct (for_u_inv 0 (length cs) (λ j ring,
    m ← vget staged (current + j);
    b ← match before with Some p => vget staged (p + j) | None => Ok 0 end;
    vset ring (out + j) (Nat.land (Nat.lxor m b) 1))
    (λ k ring', length ring' = length ring ∧ holds_at ring' out (take k (memory_detectors_of bs cs)) ∧
      ∀ j, j < out ∨ out + k ≤ j → ring' !! j = ring !! j) ring) as (ring'&Hf&Hl&Hh&Hs).
  - lia.
  - done.
  - intros k ring' Hk (Hl&Hh&Hs). destruct (lookup_lt_is_Some_2 cs k) as [m Hm]; [lia|].
    rewrite (vget_ok _ _ _ (Hc k m Hm)). cbn [mbind res_bind].
    assert (∃ b, (match before with Some p => vget staged (p + k) | None => Ok 0 end) = Ok b ∧
      Nat.odd b = match bs with Some b => bit_at b k | None => false end) as (b&Hbk&Hbit).
    { destruct before as [p|], bs as [bl|]; try done; [|by exists 0]. destruct Hb as [Hb Hbl].
      destruct (lookup_lt_is_Some_2 bl k) as [b Hbk]; [lia|]. exists b. split; [by apply vget_ok, Hb|]. unfold bit_at. by rewrite Hbk. }
    rewrite Hbk. cbn [mbind res_bind]. rewrite vset_ok by lia. apply returns_ok.
    assert (memory_detectors_of bs cs !! k = Some (Nat.land (Nat.lxor m b) 1)) as Hdet.
    { unfold memory_detectors_of. rewrite list_lookup_imap, Hm. cbn. by rewrite land_one, odd_lxor, Hbit. }
    split_and!; [by rewrite length_insert| |].
    + rewrite Nat.add_1_r, (take_S_r _ _ _ Hdet). apply holds_at_app. split.
      * eapply holds_at_same; [|exact Hh]. intros i Hi. apply list_lookup_insert_ne. rewrite length_take in Hi. lia.
      * intros [|j] x; [intros [= <-]|done]. rewrite length_take. unfold memory_detectors_of. rewrite length_imap, Nat.add_0_r, Nat.min_l by lia.
        apply list_lookup_insert_eq. lia.
    + intros j Hj. rewrite list_lookup_insert_ne by lia. apply Hs. lia.
  - exists ring'. rewrite firstn_all2 in Hh; [done|]. unfold memory_detectors_of. by rewrite length_imap.
Qed.

(** ** Rounds of a shot *)

Section rounds.
Context {R : Type} (L : ingest_layout R).
Abbreviation t := (context_ L).
Implicit Types shot : option nat.

(** The width of round [r]: the readout round, once known, is the last. *)
Definition width_at shot (r : nat) : nat :=
  match shot with
  | Some n => if r + 1 =? n then last_width_ L else forward_width L r
  | None => forward_width L r
  end.

(** The first measurement of round [r]. *)
Fixpoint start_of shot (r : nat) : nat :=
  match r with 0 => 0 | S r => start_of shot r + width_at shot r end.

Definition before_width_at shot (r : nat) : nat := if r =? 0 then 0 else width_at shot (r - 1).

(** Rows that fit the measurements they read. *)
Definition form_fits (d : list Z) (rows r before width : nat) : Prop :=
  if has_d_ L then Forall (λ i, i = (-1)%Z ∨ to_size i < before + width) d ∧ length (sparse_rows d []) = rows
  else rows = width ∧ (0 < r → before = width).

(** What the constructor establishes of the sizes. *)
Record layout_ok : Prop := {
  lk_min : t_repeats t = true → prefix_rounds_ L + suffix_rounds_ L + 1 ≤ t_min_rounds t;
  lk_fixed : t_repeats t = false → suffix_rounds_ L = 0 ∧ t_min_rounds t = prefix_rounds_ L ∧ 1 ≤ prefix_rounds_ L;
  lk_pos : 1 ≤ min_forward_width_ L;
  lk_forward : ∀ r, t_repeats t = true ∨ r + 1 < prefix_rounds_ L → min_forward_width_ L ≤ forward_width L r;
  lk_width : ∀ r, forward_width L r ≤ max_width_ L;
  lk_last : 1 ≤ last_width_ L ≤ max_width_ L;
  lk_last_fixed : t_repeats t = false → forward_width L (prefix_rounds_ L - 1) = last_width_ L;
  lk_last_bulk : t_repeats t = true → suffix_rounds_ L = 0 → last_width_ L = bulk_width_ L;
  lk_total : t_repeats t = false → fixed_measurements_ L = start_of None (prefix_rounds_ L);
  lk_slots : staged_slots_ L = suffix_rounds_ L + 4 + last_width_ L / min_forward_width_ L;
  lk_ring : ∃ k, ring_mask_ L + 1 = 2 ^ k;
  lk_form : ∀ n r, admits t n → r < n → ∃ d rows, round_form L (Some n) r = Ok (Some d, rows) ∧ rows ≤ max_rows_ L ∧
    form_fits d rows r (before_width_at (Some n) r) (width_at (Some n) r)
}.

Context (Hok : layout_ok).
Abbreviation p := (prefix_rounds_ L).
Abbreviation s := (suffix_rounds_ L).
Abbreviation slots := (staged_slots_ L).
Abbreviation mw := (max_width_ L).
Abbreviation mr := (max_rows_ L).
Abbreviation ring := (ring_mask_ L + 1).

Lemma slots_pos : 4 ≤ slots.
Proof. rewrite (lk_slots Hok). lia. Qed.

Lemma ring_slot r : Nat.land r (ring_mask_ L) = r mod ring.
Proof. destruct (lk_ring Hok) as [k Hk]. by eapply land_mask. Qed.

Lemma admits_rounds n : admits t n → p + s ≤ n ∧ 1 ≤ n.
Proof.
  intros [Hn Hf]. destruct (t_repeats t) eqn:E; [pose proof (lk_min Hok E); lia|].
  destruct (lk_fixed Hok E) as (Hs&Hm&Hp). rewrite Hf by done. lia.
Qed.

Lemma width_at_bound shot r : width_at shot r ≤ mw.
Proof. unfold width_at. pose proof (lk_width Hok r). pose proof (lk_last Hok). destruct shot as [n|]; [destruct (r + 1 =? n)|]; lia. Qed.

Lemma start_of_mono shot a b : a ≤ b → start_of shot a ≤ start_of shot b.
Proof. intros Hab. induction Hab as [|b _ IH]; [done|]. cbn [start_of]. lia. Qed.

(** Before the readout round every shot has the same rounds. *)
Lemma width_before n r : r + 1 < n → width_at (Some n) r = width_at None r.
Proof. intros Hr. unfold width_at. by rewrite (proj2 (Nat.eqb_neq _ _)) by lia. Qed.

Lemma start_before n r : r < n → start_of (Some n) r = start_of None r.
Proof.
  induction r as [|r IH]; intros Hr; [done|]. cbn [start_of]. rewrite IH, width_before by lia. done.
Qed.

Lemma width_last n : 1 ≤ n → width_at (Some n) (n - 1) = last_width_ L.
Proof. intros Hn. unfold width_at. by rewrite Nat.sub_add, Nat.eqb_refl by done. Qed.

Lemma start_end n : 1 ≤ n → start_of (Some n) n = start_of None (n - 1) + last_width_ L.
Proof.
  intros Hn. destruct n as [|n]; [lia|]. cbn [start_of]. rewrite start_before by lia.
  replace (S n - 1) with n by lia. f_equal. rewrite <-(width_last (S n)) by lia. f_equal. lia.
Qed.

(** A shot that ends in bulk has forward widths throughout, and so has one that
    does not repeat. *)
Lemma width_plain n r : admits t n → s = 0 → r < n → width_at (Some n) r = width_at None r.
Proof.
  intros Hn Hs Hr. destruct (decide (r + 1 = n)) as [He|]; [|apply width_before; lia].
  unfold width_at. rewrite (proj2 (Nat.eqb_eq _ _)) by done. pose proof (admits_rounds n Hn).
  destruct (t_repeats t) eqn:E.
  - rewrite (lk_last_bulk Hok E Hs). unfold forward_width. destruct (Nat.ltb_spec r p); [|done].
    pose proof (lk_min Hok E). destruct Hn. lia.
  - rewrite <-(lk_last_fixed Hok E). destruct (lk_fixed Hok E) as (_&Hm&_). destruct Hn as [_ Hf]. rewrite Hm in Hf. f_equal.
    specialize (Hf E). lia.
Qed.

Lemma forward_growth a k : t_repeats t = true ∨ a + k < p → start_of None a + k * min_forward_width_ L ≤ start_of None (a + k).
Proof.
  induction k as [|k IH]; intros Hk; [by rewrite !Nat.add_0_r|].
  rewrite Nat.add_succ_r. cbn [start_of width_at]. pose proof (lk_forward Hok (a + k)) as Hf.
  assert (t_repeats t = true ∨ a + k + 1 < p) as Hk' by (destruct Hk; [by left|right; lia]).
  assert (t_repeats t = true ∨ a + k < p) as Hk'' by (destruct Hk; [by left|right; lia]).
  specialize (IH Hk''). specialize (Hf Hk'). lia.
Qed.

(** ** Forms of rounds *)

(** The rounds whose phase is known. *)
Definition formable shot (r : nat) : Prop :=
  match shot with
  | Some n => admits t n ∧ r < n
  | None => t_repeats t = true ∨ r < p
  end.

(** Round [r] looks the same in the shot of [n] rounds as before FINAL. *)
Lemma form_before n r : admits t n → r < p ∨ r + s < n → round_form L (Some n) r = round_form L None r.
Proof.
  intros Hn Hr. unfold round_form. destruct (Nat.ltb_spec r p); [done|].
  by rewrite (proj2 (Nat.leb_gt _ _)) by lia.
Qed.

Definition later_shot (r : nat) : nat := if t_repeats t then t_min_rounds t `max` (r + s + 2) else t_min_rounds t.

Lemma later_admits r : admits t (later_shot r).
Proof. unfold later_shot. split; [destruct (t_repeats t); lia|by intros ->]. Qed.

Lemma later_width r : formable None r → width_at (Some (later_shot r)) r = width_at None r ∧
  (0 < r → width_at (Some (later_shot r)) (r - 1) = width_at None (r - 1)) ∧ r < later_shot r.
Proof.
  intros Hr. pose proof (later_admits r) as Ha. unfold formable in Hr. unfold later_shot in *. destruct (t_repeats t) eqn:E.
  - split_and!; [apply width_before; lia|intros ?; apply width_before; lia|lia].
  - destruct Hr as [?|Hr]; [done|]. destruct (lk_fixed Hok E) as (Hs&Hm&Hp).
    split_and!; [apply width_plain; [done..|lia]|intros ?; apply width_plain; [done..|lia]|lia].
Qed.

Lemma forms shot r : formable shot r → ∃ d rows, round_form L shot r = Ok (Some d, rows) ∧ rows ≤ mr ∧
  form_fits d rows r (before_width_at shot r) (width_at shot r).
Proof.
  destruct shot as [n|]; [intros [Hn Hr]; by apply (lk_form Hok)|]. intros Hr.
  destruct (later_width r Hr) as (Hw&Hb&Hlt). pose proof (later_admits r) as Ha.
  destruct (lk_form Hok (later_shot r) r Ha Hlt) as (d&rows&Hf&Hrows&Hfit).
  rewrite form_before in Hf; [|done|].
  - exists d, rows. split; [done|]. split; [done|]. rewrite Hw in Hfit. unfold before_width_at in *.
    destruct (Nat.eqb_spec r 0); [done|]. by rewrite Hb in Hfit by lia.
  - unfold formable in Hr. unfold later_shot. destruct (t_repeats t) eqn:E; [right; lia|left; by destruct Hr].
Qed.

Definition form_at shot (r : nat) : list Z * nat :=
  match round_form L shot r with Ok (Some d, rows) => (d, rows) | _ => ([], 0) end.
Abbreviation rows_at shot r := (form_at shot r).2.

(** The first detector of round [r]. *)
Fixpoint row_start shot (r : nat) : nat :=
  match r with 0 => 0 | S r => row_start shot r + rows_at shot r end.

(** The measurements of round [r] among [bytes], and its detectors. *)
Definition round_bits shot (bytes : list nat) (r : nat) : list nat :=
  take (width_at shot r) (drop (start_of shot r) bytes).

Definition det_of shot (bytes : list nat) (r : nat) : list nat :=
  let before := if r =? 0 then None else Some (round_bits shot bytes (r - 1)) in
  if has_d_ L then sparse_detectors (form_at shot r).1 (default [] before) (round_bits shot bytes r)
  else memory_detectors_of before (round_bits shot bytes r).

Lemma length_round_bits shot bytes r : start_of shot (r + 1) ≤ length bytes → length (round_bits shot bytes r) = width_at shot r.
Proof. rewrite Nat.add_1_r. cbn [start_of]. intros Hl. unfold round_bits. rewrite length_take, length_drop. lia. Qed.

Lemma round_bits_app shot bytes more r :
  start_of shot (r + 1) ≤ length bytes → round_bits shot (bytes ++ more) r = round_bits shot bytes r.
Proof.
  rewrite Nat.add_1_r. cbn [start_of]. intros Hl. unfold round_bits.
  rewrite drop_app_le by lia. rewrite take_app_le; [done|]. rewrite length_drop. lia.
Qed.

Lemma det_of_app shot bytes more r : start_of shot (r + 1) ≤ length bytes → det_of shot (bytes ++ more) r = det_of shot bytes r.
Proof.
  intros Hl. unfold det_of. rewrite (round_bits_app _ _ _ r) by done. destruct (Nat.eqb_spec r 0); [done|].
  rewrite (round_bits_app _ _ _ (r - 1)); [done|]. pose proof (start_of_mono shot (r - 1 + 1) (r + 1)). lia.
Qed.

Lemma length_det_of shot bytes r : formable shot r → start_of shot (r + 1) ≤ length bytes → length (det_of shot bytes r) = rows_at shot r.
Proof.
  intros Hr Hl. destruct (forms shot r Hr) as (d&rows&Hf&_&Hfit). unfold det_of, form_at. rewrite Hf. cbn [fst snd].
  unfold form_fits in Hfit. destruct (has_d_ L).
  - unfold sparse_detectors. rewrite length_fmap. apply Hfit.
  - unfold memory_detectors_of. rewrite length_imap, length_round_bits by done. by destruct Hfit as [-> _].
Qed.

(** ** The raw buffer and the ring *)

Definition slot_off (q : nat) : nat := (q mod slots) * mw.

(** [bytes] have arrived; rounds before [formed] are formed; [gap] slots are
    free. *)
Record raw_ok shot (bytes : list nat) (formed gap : nat) (raw : raw_rounds) : Prop := {
  ro_staged : length (staged_ raw) = slots * mw;
  ro_widths : length (staged_width_ raw) = slots;
  ro_cut : cut_bytes_ raw = start_of shot (rounds_cut_ raw);
  ro_len : length bytes = cut_bytes_ raw + partial_ raw;
  ro_partial : partial_ raw ≤ mw;
  ro_formed : formed ≤ rounds_cut_ raw;
  ro_gap : rounds_cut_ raw + gap ≤ formed + slots;
  ro_round : ∀ q, formed ≤ q + 1 → q < rounds_cut_ raw →
    holds_at (staged_ raw) (slot_off q) (round_bits shot bytes q) ∧
    staged_width_ raw !! (q mod slots) = Some (width_at shot q);
  ro_part : holds_at (staged_ raw) (slot_off (rounds_cut_ raw)) (drop (cut_bytes_ raw) bytes)
}.

(** The ring holds the last rounds formed. *)
Record ring_ok shot (bytes : list nat) (f : formed_rounds) : Prop := {
  rk_ring : length (ring_ f) = ring * mr;
  rk_rows : length (ring_rows_ f) = ring;
  rk_round : length (ring_round_ f) = ring;
  rk_first : length (ring_first_row_ f) = ring;
  rk_total : rows_formed_ f = row_start shot (formed_ f);
  rk_holds : ∀ q, q < formed_ f → formed_ f ≤ q + ring →
    ring_round_ f !! (q mod ring) = Some (Z.of_nat q) ∧ ring_rows_ f !! (q mod ring) = Some (rows_at shot q) ∧
    ring_first_row_ f !! (q mod ring) = Some (row_start shot q) ∧
    holds_at (ring_ f) ((q mod ring) * mr) (det_of shot bytes q)
}.

Definition formed_next (f : formed_rounds) : formed_rounds :=
  mk_formed (ring_ f) (ring_rows_ f) (ring_round_ f) (ring_first_row_ f) (formed_ f + 1) (rows_formed_ f).

Lemma start_formed shot bytes formed gap raw : raw_ok shot bytes formed gap raw → start_of shot (rounds_cut_ raw) ≤ length bytes.
Proof. intros H. rewrite <-(ro_cut _ _ _ _ _ H), (ro_len _ _ _ _ _ H). lia. Qed.

(** What [form_detectors] writes. *)
Lemma form_values shot bytes gap raw f :
  raw_ok shot bytes (formed_ f) gap raw → ring_ok shot bytes f → formed_ f < rounds_cut_ raw → formable shot (formed_ f) →
  let r := formed_ f in
  ∃ ring', form_detectors L shot raw r f =
      Ok (mk_formed ring' (<[r mod ring := rows_at shot r]> (ring_rows_ f)) (<[r mod ring := Z.of_nat r]> (ring_round_ f))
            (<[r mod ring := rows_formed_ f]> (ring_first_row_ f)) r (rows_formed_ f + rows_at shot r)) ∧
    length ring' = length (ring_ f) ∧ holds_at ring' ((r mod ring) * mr) (det_of shot bytes r) ∧
    ∀ j, j < (r mod ring) * mr ∨ (r mod ring) * mr + mr ≤ j → ring' !! j = ring_ f !! j.
Proof.
  intros Hraw Hring Hlt Hformable r. pose proof (start_formed _ _ _ _ _ Hraw) as Hend. pose proof slots_pos as Hslots.
  assert (start_of shot (r + 1) ≤ length bytes) as Hend1 by (pose proof (start_of_mono shot (r + 1) (rounds_cut_ raw)); lia).
  destruct (forms shot r Hformable) as (d&rows&Hf&Hrows&Hfit). assert (form_at shot r = (d, rows)) as Hform by (unfold form_at; by rewrite Hf).
  pose proof (length_det_of shot bytes r Hformable Hend1) as Hdet. rewrite Hform in *. cbn [snd] in *.
  destruct (ro_round _ _ _ _ _ Hraw r) as [Hcur _]; [lia|done|].
  assert ((r mod ring) * mr + mr ≤ length (ring_ f)) as Hfits by (rewrite (rk_ring _ _ _ Hring); apply slot_fits; lia).
  assert (∃ bw, (if r =? 0 then Ok 0 else vget (staged_width_ raw) ((r - 1) mod slots)) = Ok bw ∧ bw = before_width_at shot r ∧
    holds_at (staged_ raw) (default 0 (if r =? 0 then None else Some (slot_off (r - 1)))) (default [] (if r =? 0 then None else Some (round_bits shot bytes (r - 1)))) ∧
    length (default [] (if r =? 0 then None else Some (round_bits shot bytes (r - 1)))) = bw) as (bw&Hbw&Hbwe&Hbef&Hbl).
  { unfold before_width_at. destruct (Nat.eqb_spec r 0) as [->|Hr0]; [by exists 0|].
    destruct (ro_round _ _ _ _ _ Hraw (r - 1)) as [Hb Hw]; [lia..|]. eexists. rewrite (vget_ok _ _ _ Hw).
    split_and!; [done..|]. apply length_round_bits. pose proof (start_of_mono shot (r - 1 + 1) (rounds_cut_ raw)). lia. }
  unfold form_detectors. rewrite ring_slot, Hbw, Hf. cbn [mbind res_bind].
  assert (∃ ring', (if has_d_ L then form_sparse d (staged_ raw) (default 0 (if r =? 0 then None else Some (((r - 1) mod slots) * mw))) bw ((r mod slots) * mw) ((r mod ring) * mr) (ring_ f)
      else form_memory rows (staged_ raw) (if r =? 0 then None else Some (((r - 1) mod slots) * mw)) ((r mod slots) * mw) ((r mod ring) * mr) (ring_ f)) = Ok ring' ∧
    length ring' = length (ring_ f) ∧ holds_at ring' ((r mod ring) * mr) (det_of shot bytes r) ∧
    ∀ j, j < (r mod ring) * mr ∨ (r mod ring) * mr + mr ≤ j → ring' !! j = ring_ f !! j) as (ring'&Hr'&Hl'&Hh'&Hs').
  { unfold form_fits in Hfit. unfold det_of in Hdet |- *. rewrite Hform in *. cbn [fst] in *. destruct (has_d_ L).
    - destruct Hfit as [Hd Hdr].
      destruct (form_sparse_ok d (staged_ raw) _ bw (slot_off r) ((r mod ring) * mr) (ring_ f) _ _ Hbef Hcur Hbl) as (ring'&?&?&?&Hs).
      + rewrite Hbl, Hbwe, length_round_bits by done. done.
      + lia.
      + exists ring'. split_and!; try done. intros j Hj. apply Hs. lia.
    - destruct Hfit as [Hrw Hbw']. rewrite <-(length_round_bits shot bytes r) in Hrw by done. rewrite Hrw.
      assert (match (if r =? 0 then None else Some (slot_off (r - 1))), (if r =? 0 then None else Some (round_bits shot bytes (r - 1))) with
        | Some o, Some b => holds_at (staged_ raw) o b ∧ length b = length (round_bits shot bytes r)
        | None, None => True
        | _, _ => False
        end) as Hpair.
      { destruct (Nat.eqb_spec r 0) as [Hr0|Hr0]; [done|]. cbn in Hbef, Hbl. split; [exact Hbef|].
        rewrite Hbl, Hbwe, length_round_bits by done. apply Hbw'. lia. }
      destruct (form_memory_ok (staged_ raw) _ (slot_off r) ((r mod ring) * mr) (ring_ f) _ _ Hpair Hcur) as (ring'&?&?&?&Hs); [lia|].
      exists ring'. split_and!; try done. intros j Hj. apply Hs. lia. }
  exists ring'. rewrite Hr'. cbn [mbind res_bind]. pose proof (Nat.mod_upper_bound r ring ltac:(lia)) as Hm.
  rewrite !vset_ok by (rewrite ?(rk_rows _ _ _ Hring), ?(rk_round _ _ _ Hring), ?(rk_first _ _ _ Hring); lia). done.
Qed.

Lemma form_step shot bytes gap raw f :
  raw_ok shot bytes (formed_ f) gap raw → ring_ok shot bytes f → formed_ f < rounds_cut_ raw → formable shot (formed_ f) →
  ∃ f', form_detectors L shot raw (formed_ f) f = Ok f' ∧ formed_ f' = formed_ f ∧ ring_ok shot bytes (formed_next f').
Proof.
  intros Hraw Hring Hlt Hformable. destruct (form_values _ _ _ _ _ Hraw Hring Hlt Hformable) as (ring'&->&Hl&Hh&Hs).
  eexists. split; [done|]. split; [done|]. set (r := formed_ f) in *. pose proof (Nat.mod_upper_bound r ring ltac:(lia)) as Hm.
  split; unfold formed_next; cbn [ring_ ring_rows_ ring_round_ ring_first_row_ formed_ rows_formed_];
    rewrite ?length_insert, ?Hl; try apply Hring.
  - rewrite Nat.add_1_r. cbn [row_start]. by rewrite (rk_total _ _ _ Hring).
  - intros q Hq Hqr. destruct (decide (q = r)) as [->|Hne].
    + rewrite !list_lookup_insert_eq by (rewrite ?(rk_rows _ _ _ Hring), ?(rk_round _ _ _ Hring), ?(rk_first _ _ _ Hring); lia).
      by rewrite (rk_total _ _ _ Hring).
    + assert (q mod ring ≠ r mod ring) as Hneq by (apply mod_distinct; lia).
      rewrite !list_lookup_insert_ne by done. destruct (rk_holds _ _ _ Hring q) as (H1&H2&H3&H4); [lia..|].
      split_and!; try done. eapply holds_at_same; [|exact H4]. intros i Hi. apply Hs.
      assert (length (det_of shot bytes q) ≤ mr) as Hdl.
      { assert (formable shot q) as Hfq.
        { unfold formable in *. destruct shot; [split; [apply Hformable|destruct Hformable; lia]|destruct Hformable; [by left|right; lia]]. }
        rewrite length_det_of; [|done|].
        - destruct (forms shot q Hfq) as (d&rows&Hf&Hrows&_). unfold form_at. by rewrite Hf.
        - pose proof (start_formed _ _ _ _ _ Hraw). pose proof (start_of_mono shot (q + 1) (rounds_cut_ raw)). lia. }
      destruct (slot_distinct ring mr q r Hne) as [?|?]; lia.
Qed.

(** The conditions under which [form_known_rounds] forms a round. *)
Definition phase_known shot (least r : nat) : Prop := shot ≠ None ∨ r < p ∨ r + s < least.

Lemma raw_ok_weaken shot bytes formed formed' gap raw :
  formed ≤ formed' → formed' ≤ rounds_cut_ raw → raw_ok shot bytes formed gap raw → raw_ok shot bytes formed' gap raw.
Proof. intros Hf Hf' [? ? ? ? ? ? ? Hq ?]. split; try done; [lia|]. intros q Hq1. apply Hq. lia. Qed.

Lemma form_while_ok shot least bytes gap raw : ∀ fuel f,
  rounds_cut_ raw ≤ formed_ f + fuel → raw_ok shot bytes (formed_ f) gap raw → ring_ok shot bytes f →
  (∀ r, r < rounds_cut_ raw → formable shot r) →
  ∃ f', form_while fuel L shot least raw f = Ok f' ∧ formed_ f ≤ formed_ f' ∧
    raw_ok shot bytes (formed_ f') gap raw ∧ ring_ok shot bytes f' ∧
    (formed_ f' = rounds_cut_ raw ∨ ¬ phase_known shot least (formed_ f')) ∧
    (formed_ f' = formed_ f ∨ phase_known shot least (formed_ f' - 1)).
Proof.
  induction fuel as [|fuel IH]; intros f Hfuel Hraw Hring Hformable; cbn [form_while].
  - exists f. split_and!; try done; [|by left]. left. pose proof (ro_formed _ _ _ _ _ Hraw). lia.
  - destruct (Nat.ltb_spec (formed_ f) (rounds_cut_ raw)) as [Hlt|Hge]; cbn [andb].
    2:{ exists f. split_and!; try done; [|by left]. left. pose proof (ro_formed _ _ _ _ _ Hraw). lia. }
    destruct (negb (bool_decide (shot = None)) || (formed_ f <? p) || (formed_ f + s <? least)) eqn:Ek.
    + assert (phase_known shot least (formed_ f)) as Hk.
      { apply orb_true_iff in Ek as [[Hs%negb_true_iff%bool_decide_eq_false|Hp%Nat.ltb_lt]%orb_true_iff|Hl%Nat.ltb_lt];
          unfold phase_known; tauto. }
      destruct (form_step _ _ _ _ _ Hraw Hring Hlt (Hformable _ Hlt)) as (f1&->&Hf1&Hring1). cbn [mbind res_bind].
      destruct (IH (formed_next f1)) as (f'&Hf'&Hle&Hraw'&Hring'&Hstop&Hlast).
      * cbn. lia.
      * cbn. rewrite Hf1. eapply raw_ok_weaken; [| |done]; lia.
      * done.
      * done.
      * exists f'. change (formed_ (formed_next f1)) with (formed_ f1 + 1) in Hle, Hlast. rewrite Hf1 in Hle, Hlast.
        split_and!; try done; [lia|].
        right. destruct Hlast as [->|Hlast]; [by rewrite Nat.add_sub|done].
    + exists f. split_and!; try done; [right|by left]. apply orb_false_iff in Ek as [[Hs Hp%Nat.ltb_ge]%orb_false_iff Hl%Nat.ltb_ge].
      apply negb_false_iff, bool_decide_eq_true in Hs as ->. unfold phase_known. intros [?|[?|?]]; [done|lia..].
Qed.

(** ** The length of the shot *)

(** Every shot that holds [bytes] has at least [b] rounds. *)
Definition bounds_shot (bytes : list nat) (b : nat) : Prop :=
  ∀ n, admits t n → length bytes ≤ start_of None (n - 1) + last_width_ L → b ≤ n.

Lemma bounds_shot_app bytes more b : bounds_shot bytes b → bounds_shot (bytes ++ more) b.
Proof. intros Hb n Hn Hl. apply Hb; [done|]. rewrite length_app in Hl. lia. Qed.

Lemma earliest_step earliest first start :
  earliest_readout L earliest (S first) start =
    if earliest <=? start
    then earliest_readout L earliest first (if 0 <? first then start - forward_width L (first - 1) else start)
    else S first.
Proof. done. Qed.

Lemma earliest_spec earliest first :
  let f := earliest_readout L earliest (S first) (start_of None first) in
  f ≤ S first ∧ (f ≤ first → earliest ≤ start_of None f) ∧ (0 < f → start_of None (f - 1) < earliest).
Proof.
  induction first as [|first IH]; rewrite earliest_step.
  - change (start_of None 0) with 0. destruct (Nat.leb_spec earliest 0); split_and!; simpl; intros; lia.
  - destruct (Nat.leb_spec earliest (start_of None (S first))) as [Hle|Hgt].
    + rewrite (proj2 (Nat.ltb_lt 0 (S first))) by lia. replace (S first - 1) with first by lia.
      assert (start_of None (S first) - forward_width L first = start_of None first) as ->.
      { change (start_of None (S first)) with (start_of None first + forward_width L first). lia. }
      destruct IH as (H1&H2&H3). set (f := earliest_readout L earliest (S first) (start_of None first)) in *. split; [lia|]. split; [|done].
      intros Hf. destruct (decide (f ≤ first)); [by apply H2|]. by replace f with (S first) by lia.
    + split; [lia|]. split; [lia|]. intros _. by replace (S (S first) - 1) with (S first) by lia.
Qed.

Lemma least_ok bytes formed gap raw :
  raw_ok None bytes formed gap raw →
  let least := least_shot_rounds L None raw in
  bounds_shot bytes least ∧ p + s ≤ least ∧
  (t_repeats t = true → rounds_cut_ raw + 1 ≤ least + last_width_ L / min_forward_width_ L).
Proof.
  intros Hraw. unfold least_shot_rounds. destruct (t_repeats t) eqn:E; cbn [negb].
  2:{ split; [|split; [|done]]; [intros n [Hn _]; done|]. destruct (lk_fixed Hok E) as (->&->&_). lia. }
  pose proof (lk_min Hok E) as Hmin. pose proof (ro_len _ _ _ _ _ Hraw) as Hlen. pose proof (ro_cut _ _ _ _ _ Hraw) as Hcut.
  set (c := rounds_cut_ raw) in *. set (received := cut_bytes_ raw + partial_ raw) in *.
  set (earliest := if last_width_ L <? received then received - last_width_ L else 0).
  rewrite Hcut. rewrite (Nat.add_1_r c). destruct (earliest_spec earliest c) as (H1&H2&H3).
  set (f := earliest_readout L earliest (S c) (start_of None c)) in *. split_and!; [|lia|].
  - intros n Hn Hl. pose proof (admits_rounds n Hn). destruct Hn as [Hn _]. apply Nat.max_lub; [|done].
    destruct (decide (f ≤ n - 1)) as [|Hf]; [lia|]. specialize (H3 ltac:(lia)).
    pose proof (start_of_mono None (n - 1) (f - 1) ltac:(lia)). unfold earliest in H3.
    destruct (Nat.ltb_spec (last_width_ L) received); lia.
  - intros _. destruct (decide (f ≤ c)) as [Hf|]; [|lia]. specialize (H2 Hf).
    pose proof (forward_growth f (c - f) ltac:(by left)) as Hg. replace (f + (c - f)) with c in Hg by lia.
    assert ((c - f) * min_forward_width_ L ≤ last_width_ L) as Hm.
    { unfold earliest in H2. destruct (Nat.ltb_spec (last_width_ L) received); lia. }
    pose proof (lk_pos Hok) as Hpos. assert (c - f ≤ last_width_ L / min_forward_width_ L); [|lia].
    apply Nat.div_le_lower_bound; [lia|]. by rewrite Nat.mul_comm.
Qed.

Lemma form_known_ok shot bytes gap raw f :
  raw_ok shot bytes (formed_ f) gap raw → ring_ok shot bytes f → (∀ r, r < rounds_cut_ raw → formable shot r) →
  (shot = None → bounds_shot bytes (formed_ f + s)) →
  ∃ f', form_known_rounds L shot raw f = Ok f' ∧ formed_ f ≤ formed_ f' ∧
    raw_ok shot bytes (formed_ f') 3 raw ∧ ring_ok shot bytes f' ∧
    (shot = None → bounds_shot bytes (formed_ f' + s)) ∧ (shot ≠ None → formed_ f' = rounds_cut_ raw).
Proof.
  intros Hraw Hring Hformable Hb. unfold form_known_rounds.
  destruct (form_while_ok shot (least_shot_rounds L shot raw) bytes gap raw (rounds_cut_ raw - formed_ f) f) as (f'&Hf'&Hle&Hraw'&Hring'&Hstop&Hlast);
    [lia|done..|].
  exists f'. split; [exact Hf'|]. split; [done|]. pose proof slots_pos as Hslots. pose proof (ro_formed _ _ _ _ _ Hraw') as Hfr.
  assert (rounds_cut_ raw + 3 ≤ formed_ f' + slots) as Hgap.
  { destruct Hstop as [Hstop|Hstop]; [lia|]. destruct shot as [n|]; [exfalso; apply Hstop; by left|].
    destruct (least_ok _ _ _ _ Hraw) as (_&_&Hlag). unfold phase_known in Hstop.
    assert (p ≤ formed_ f' ∧ least_shot_rounds L None raw ≤ formed_ f' + s) as [Hp Hl] by (split; apply Nat.nlt_ge; tauto).
    rewrite (lk_slots Hok). destruct (t_repeats t) eqn:E; [specialize (Hlag eq_refl); lia|].
    destruct (decide (formed_ f' < rounds_cut_ raw)) as [Hlt|]; [|lia].
    destruct (Hformable _ Hlt) as [Hr|Hr]; [exfalso; clear -E Hr; congruence|lia]. }
  split_and!; [|done| |].
  - destruct Hraw'. by split.
  - intros ->. destruct Hlast as [->|Hk]; [by apply Hb|]. destruct (least_ok _ _ _ _ Hraw) as (Hbl&Hps&_).
    intros n Hn Hl. pose proof (admits_rounds n Hn). destruct Hk as [?|[Hk|Hk]]; [done|lia|]. specialize (Hbl n Hn Hl). lia.
  - intros Hs. destruct Hstop as [Hstop|Hstop]; [done|]. exfalso. apply Hstop. by left.
Qed.

Lemma complete_round_ok shot bytes width raw f :
  raw_ok shot bytes (formed_ f) 3 raw → ring_ok shot bytes f → partial_ raw = width → width = width_at shot (rounds_cut_ raw) →
  (∀ r, r ≤ rounds_cut_ raw → formable shot r) → (shot = None → bounds_shot bytes (formed_ f + s)) →
  ∃ raw' f', complete_round L shot width (raw, f) = Ok (raw', f') ∧ rounds_cut_ raw' = rounds_cut_ raw + 1 ∧ partial_ raw' = 0 ∧
    formed_ f ≤ formed_ f' ∧ raw_ok shot bytes (formed_ f') 3 raw' ∧ ring_ok shot bytes f' ∧
    (shot = None → bounds_shot bytes (formed_ f' + s)) ∧ (shot ≠ None → formed_ f' = rounds_cut_ raw').
Proof.
  intros Hraw Hring Hpart Hwidth Hformable Hb. unfold complete_round. pose proof slots_pos as Hslots.
  pose proof (Nat.mod_upper_bound (rounds_cut_ raw) slots ltac:(lia)) as Hmod.
  pose proof Hraw as [H1 H2 H3 H4 H5 H6 H7 H8 H9].
  rewrite vset_ok by lia. cbn [mbind res_bind].
  set (raw' := mk_raw (staged_ raw) (<[rounds_cut_ raw mod slots := width]> (staged_width_ raw)) (rounds_cut_ raw + 1) (cut_bytes_ raw + width) 0).
  assert (raw_ok shot bytes (formed_ f) 2 raw') as Hraw'.
  { split; unfold raw'; cbn [staged_ staged_width_ rounds_cut_ cut_bytes_ partial_]; try lia; rewrite ?length_insert; try done.
    - rewrite Nat.add_1_r. cbn [start_of]. lia.
    - intros q Hq Hqr. destruct (decide (q = rounds_cut_ raw)) as [->|Hne].
      + rewrite list_lookup_insert_eq by lia. split; [|by rewrite <-Hwidth]. unfold round_bits. rewrite <-Hwidth, <-H3.
        rewrite take_ge; [done|]. rewrite length_drop. lia.
      + rewrite list_lookup_insert_ne; [apply H8; lia|]. apply not_eq_sym, mod_distinct; lia.
    - rewrite drop_ge by lia. apply holds_at_nil. }
  destruct (form_known_ok shot bytes 2 raw' f Hraw' Hring) as (f'&->&Hle&Hraw''&Hring'&Hb'&Hall).
  - intros r Hr. apply Hformable. cbn in Hr. lia.
  - done.
  - exists raw', f'. done.
Qed.

(** ** Cutting *)

Lemma ring_ok_app shot bytes more f : ring_ok shot bytes f → start_of shot (formed_ f) ≤ length bytes → ring_ok shot (bytes ++ more) f.
Proof.
  intros [? ? ? ? ? Hh] Hs. split; try done. intros q Hq Hqr. destruct (Hh q Hq Hqr) as (?&?&?&?).
  rewrite det_of_app; [done|]. pose proof (start_of_mono shot (q + 1) (formed_ f)). lia.
Qed.

(** Measurements appended to the round being cut. *)
Lemma append_ok shot bytes more formed gap raw :
  raw_ok shot bytes formed gap raw → 2 ≤ gap → partial_ raw + length more ≤ mw →
  ∃ staged, write_n (staged_ raw) ((rounds_cut_ raw mod slots) * mw + partial_ raw) more = Ok staged ∧
    raw_ok shot (bytes ++ more) formed gap
      (mk_raw staged (staged_width_ raw) (rounds_cut_ raw) (cut_bytes_ raw) (partial_ raw + length more)).
Proof.
  intros Hraw Hgap Hfit. pose proof slots_pos as Hslots. pose proof Hraw as [H1 H2 H3 H4 H5 H6 H7 H8 H9].
  pose proof (slot_fits slots mw (rounds_cut_ raw) ltac:(lia)) as Hslot.
  destruct (write_n_ok (staged_ raw) ((rounds_cut_ raw mod slots) * mw + partial_ raw) more) as (staged&Hw&Hl&Hh&Hs); [lia|].
  exists staged. split; [exact Hw|]. split; cbn [staged_ staged_width_ rounds_cut_ cut_bytes_ partial_]; try done; rewrite ?length_app; try lia.
  - intros q Hq Hqr. destruct (H8 q Hq Hqr) as [Hhq Hwq]. rewrite round_bits_app.
    2:{ pose proof (start_of_mono shot (q + 1) (rounds_cut_ raw)). lia. }
    split; [|done]. eapply holds_at_same; [|exact Hhq]. intros i Hi. apply Hs. unfold slot_off.
    rewrite length_round_bits in Hi by (pose proof (start_of_mono shot (q + 1) (rounds_cut_ raw)); lia).
    pose proof (width_at_bound shot q). destruct (slot_distinct slots mw q (rounds_cut_ raw)) as [?|?]; lia.
  - rewrite drop_app_le by lia. apply holds_at_app. split.
    + eapply holds_at_same; [|exact H9]. intros i Hi. apply Hs. rewrite length_drop in Hi. unfold slot_off. lia.
    + rewrite length_drop. unfold slot_off. replace (length bytes - cut_bytes_ raw) with (partial_ raw) by lia. done.
Qed.

(** Where [cut] may stand: a round of positive width, or the readout round. *)
Definition cutting shot (raw : raw_rounds) : Prop :=
  match shot with
  | None => (t_repeats t = true ∨ rounds_cut_ raw + 1 < p) ∧ partial_ raw < forward_width L (rounds_cut_ raw) ∨
            t_repeats t = false ∧ rounds_cut_ raw + 1 = p ∧ partial_ raw ≤ last_width_ L
  | Some n => admits t n ∧ (rounds_cut_ raw + 1 < n ∧ partial_ raw < forward_width L (rounds_cut_ raw) ∨ rounds_cut_ raw + 1 = n)
  end.

(** The measurements that [cut] may be given. *)
Definition cut_room shot (total : nat) : Prop :=
  match shot with
  | None => t_repeats t = true ∨ total ≤ start_of None p
  | Some n => total ≤ start_of None (n - 1)
  end.

Record cut_inv shot bytes (raw : raw_rounds) (f : formed_rounds) : Prop := {
  ci_raw : raw_ok shot bytes (formed_ f) 3 raw;
  ci_ring : ring_ok shot bytes f;
  ci_bound : shot = None → bounds_shot bytes (formed_ f + s);
  ci_cutting : cutting shot raw
}.

Lemma cutting_formable shot raw r : cutting shot raw → r ≤ rounds_cut_ raw → formable shot r.
Proof.
  unfold cutting, formable. destruct shot as [n|].
  - intros [Hn Hc] Hr. split; [done|]. destruct Hc; lia.
  - intros [[[?|?] _]|(_&?&_)] Hr; [by left|right; lia..].
Qed.

(** A round that is cut before FINAL as the readout round of a fixed shot. *)
Definition is_readout shot (r : nat) : bool := negb (t_repeats t) && (r + 1 =? p) && bool_decide (shot = None).

Lemma readout_spec shot r : is_readout shot r = true ↔ t_repeats t = false ∧ r + 1 = p ∧ shot = None.
Proof. unfold is_readout. rewrite !andb_true_iff, negb_true_iff, Nat.eqb_eq, bool_decide_eq_true. tauto. Qed.

Lemma not_at_last n bytes raw f m :
  cut_inv (Some n) bytes raw f → m ≠ 0 → cut_room (Some n) (length bytes + m) → rounds_cut_ raw + 1 < n.
Proof.
  intros [Hraw _ _ [Hn [[? _]|Hl]]] Hm Hroom; [done|]. exfalso. unfold cut_room in Hroom. pose proof (ro_len _ _ _ _ _ Hraw) as Hlen.
  rewrite (ro_cut _ _ _ _ _ Hraw), start_before in Hlen by lia. replace (n - 1) with (rounds_cut_ raw) in Hroom by lia. lia.
Qed.

(** The width [cut] takes, while measurements are left. *)
Lemma cut_width shot bytes raw f m :
  cut_inv shot bytes raw f → m ≠ 0 → cut_room shot (length bytes + m) →
  let r := rounds_cut_ raw in
  (if is_readout shot r then last_width_ L else forward_width L r) = width_at shot r ∧ partial_ raw ≤ width_at shot r ∧
  (is_readout shot r = false → partial_ raw < width_at shot r).
Proof.
  intros Hinv Hm Hroom r. pose proof (readout_spec shot r) as Hro. destruct shot as [n|].
  - pose proof (not_at_last _ _ _ _ _ Hinv Hm Hroom) as Hr. destruct (is_readout (Some n) r); [naive_solver|].
    destruct (ci_cutting _ _ _ _ Hinv) as [_ [[_ Hp]|?]]; [|lia]. rewrite width_before by done. cbn [width_at]. fold r in Hp. split_and!; [done|lia|done].
  - cbn [width_at]. destruct (ci_cutting _ _ _ _ Hinv) as [[Hc Hp]|(Hrep&Hl&Hp)]; fold r in Hp.
    + destruct (is_readout None r); [destruct Hro as [Hro _]; destruct (Hro eq_refl) as (?&?&_); fold r in Hc; destruct Hc; [congruence|lia]|].
      split_and!; [done|lia|done].
    + destruct (is_readout None r); [|destruct Hro as [_ Hro]; discriminate Hro; done]. pose proof (lk_last_fixed Hok Hrep) as Hlf.
      replace (p - 1) with r in Hlf by (fold r in Hl; lia). split_and!; [done|lia|done].
Qed.

(** After a round is completed the next one is cut. *)
Lemma cutting_next shot raw raw' :
  cutting shot raw → is_readout shot (rounds_cut_ raw) = false → (∀ n, shot = Some n → rounds_cut_ raw + 1 < n) →
  rounds_cut_ raw' = rounds_cut_ raw + 1 → partial_ raw' = 0 → cutting shot raw'.
Proof.
  intros Hcut Hro Hlast Hr Hp. unfold cutting in *. rewrite Hr, Hp. pose proof (lk_pos Hok) as Hpos.
  pose proof (lk_forward Hok (rounds_cut_ raw + 1)) as Hfw. destruct shot as [n|].
  - destruct Hcut as [Hn _]. specialize (Hlast n eq_refl). split; [done|].
    destruct (decide (rounds_cut_ raw + 1 + 1 < n)) as [Hlt|]; [left; split; [done|]|right; lia].
    assert (min_forward_width_ L ≤ forward_width L (rounds_cut_ raw + 1)); [|lia]. apply Hfw.
    destruct (t_repeats t) eqn:E; [by left|right]. destruct (lk_fixed Hok E) as (_&Hm&_). destruct Hn as [_ Hf]. rewrite Hf, Hm in * by done. lia.
  - destruct Hcut as [[Hc _]|(Hrep&Hl&_)].
    + destruct (t_repeats t) eqn:E; [left; split; [by left|]; specialize (Hfw ltac:(by left)); lia|]. destruct Hc as [?|Hc]; [done|].
      destruct (decide (rounds_cut_ raw + 1 + 1 < p)); [left; split; [by right|]; specialize (Hfw ltac:(by right)); lia|].
      right. split_and!; [done|lia|lia].
    + exfalso. by rewrite (proj2 (readout_spec None (rounds_cut_ raw))) in Hro.
Qed.

(** Measurements taken without completing a round. *)
Lemma cutting_part shot raw staged n :
  cutting shot raw → (∀ n', shot = Some n' → rounds_cut_ raw + 1 < n') →
  partial_ raw + n < width_at shot (rounds_cut_ raw) ∨ is_readout shot (rounds_cut_ raw) = true ∧ partial_ raw + n = width_at shot (rounds_cut_ raw) →
  cutting shot (mk_raw staged (staged_width_ raw) (rounds_cut_ raw) (cut_bytes_ raw) (partial_ raw + n)).
Proof.
  unfold cutting. cbn [rounds_cut_ partial_]. intros Hcut Hlast Hw. pose proof (readout_spec shot (rounds_cut_ raw)) as Hro. destruct shot as [n'|].
  - specialize (Hlast n' eq_refl). destruct Hcut as [Hn' _]. split; [done|left]. split; [done|].
    destruct Hw as [Hw|[Hw _]]; [by rewrite width_before in Hw by done|naive_solver].
  - cbn [width_at] in Hw. destruct Hcut as [[Hc Hp]|(Hrep&Hl&Hp)].
    + destruct Hw as [Hw|[Hw _]]; [left; by split|]. apply Hro in Hw as (?&?&_). destruct Hc; [congruence|lia].
    + right. split_and!; [done..|]. pose proof (lk_last_fixed Hok Hrep) as Hlf. replace (p - 1) with (rounds_cut_ raw) in Hlf by lia. lia.
Qed.

Lemma cut_loop_ok shot : ∀ fuel data raw f bytes,
  length data < fuel → cut_inv shot bytes raw f → cut_room shot (length bytes + length data) →
  ∃ raw' f', cut_loop fuel L shot data (raw, f) = Ok (raw', f', None) ∧ cut_inv shot (bytes ++ data) raw' f' ∧
    rounds_cut_ raw ≤ rounds_cut_ raw' ∧ formed_ f ≤ formed_ f'.
Proof.
  induction fuel as [|fuel IH]; intros data raw f bytes Hfuel Hinv Hroom; [lia|].
  pose proof Hinv as [Hraw Hring Hb Hcut]. pose proof (cutting_formable shot raw) as Hfm.
  cbn [cut_loop]. destruct (Nat.eqb_spec (length data) 0) as [Hd|Hd].
  - apply nil_length_inv in Hd as ->. rewrite app_nil_r.
    destruct (form_known_ok shot bytes 3 raw f Hraw Hring) as (f'&->&Hle&Hraw'&Hring'&Hb'&_); [intros r Hr; apply Hfm; [done|lia]|done|].
    exists raw, f'. done.
  - destruct (cut_width _ _ _ _ _ Hinv Hd Hroom) as (Hwe&Hpw&Hnr). unfold is_readout in Hwe at 1. rewrite Hwe. clear Hwe.
    change (negb (t_repeats t) && (rounds_cut_ raw + 1 =? p) && bool_decide (shot = None)) with (is_readout shot (rounds_cut_ raw)).
    assert (∀ n', shot = Some n' → rounds_cut_ raw + 1 < n') as Hlast by (intros n' ->; by eapply not_at_last).
    pose proof (width_at_bound shot (rounds_cut_ raw)) as Hwb.
    set (w := width_at shot (rounds_cut_ raw)) in *. set (n := length data `min` (w - partial_ raw)).
    destruct (append_ok shot bytes (take n data) (formed_ f) 3 raw Hraw) as (staged&->&Hraw1); [lia|rewrite length_take; lia|].
    rewrite length_take in Hraw1. replace (n `min` length data) with n in Hraw1 by lia.
    assert (ring_ok shot (bytes ++ take n data) f) as Hring1.
    { apply ring_ok_app; [done|]. etrans; [|apply (start_formed _ _ _ _ _ Hraw)]. apply start_of_mono, (ro_formed _ _ _ _ _ Hraw). }
    assert (shot = None → bounds_shot (bytes ++ take n data) (formed_ f + s)) as Hb1 by (intros Hs; by apply bounds_shot_app, Hb).
    assert (bytes ++ data = (bytes ++ take n data) ++ drop n data) as Hsplit by (rewrite <-app_assoc; by rewrite take_drop).
    assert (length (bytes ++ take n data) + length (drop n data) = length bytes + length data) as Hlens
      by (rewrite length_app, length_take, length_drop; lia).
    cbn [mbind res_bind partial_]. destruct (Nat.ltb_spec (partial_ raw + n) w) as [Hlt|Hge].
    + rewrite Hsplit. eapply (IH (drop n data) (mk_raw staged _ _ _ _) f); [rewrite length_drop; lia| |by rewrite Hlens].
      split; [done..|]. apply cutting_part; [done..|]. by left.
    + assert (partial_ raw + n = w) as Hpn by lia. destruct (is_readout shot (rounds_cut_ raw)) eqn:Ero.
      * pose proof Ero as (Hrep&Hrp&->)%readout_spec. assert (length data = n) as Hn.
        { destruct Hroom as [?|Hroom]; [congruence|]. pose proof (ro_len _ _ _ _ _ Hraw) as Hlen. rewrite (ro_cut _ _ _ _ _ Hraw) in Hlen.
          assert (start_of None p = start_of None (rounds_cut_ raw) + w) as Hsp by (rewrite <-Hrp, Nat.add_1_r; done). lia. }
        rewrite length_drop, (proj2 (Nat.ltb_ge _ _)) by lia. eexists _, _. split; [done|].
        assert (take n data = data) as Htd by (apply take_ge; lia). rewrite Htd in *. split; [|done]. split; [done..|].
        apply cutting_part; [done..|]. by right.
      * rewrite Hpn in *. destruct (complete_round_ok shot _ w _ f Hraw1 Hring1 eq_refl eq_refl) as (raw2&f2&->&Hr2&Hp2&Hle2&Hraw2&Hring2&Hb2&_);
          [intros q Hq; apply Hfm; done|done|]. cbn [mbind res_bind rounds_cut_] in *. rewrite Hsplit.
        destruct (IH (drop n data) raw2 f2 (bytes ++ take n data)) as (raw'&f'&Hrun&Hinv'&Hrle&Hfle).
        -- specialize (Hnr eq_refl). rewrite length_drop. lia.
        -- split; [done..|]. by eapply cutting_next.
        -- by rewrite Hlens.
        -- exists raw', f'. split; [exact Hrun|]. split; [done|]. lia.
Qed.

Lemma cut_ok shot data raw f bytes :
  cut_inv shot bytes raw f → cut_room shot (length bytes + length data) →
  ∃ raw' f', cut L shot data (raw, f) = Ok (raw', f', None) ∧ cut_inv shot (bytes ++ data) raw' f' ∧
    rounds_cut_ raw ≤ rounds_cut_ raw' ∧ formed_ f ≤ formed_ f'.
Proof. intros Hinv Hroom. apply cut_loop_ok; [lia|done..]. Qed.
End rounds.

(** * The ingest core: the end of a shot

    A FINAL record fixes the shot's length.  [final_round] places the readout
    round on the shot's last measurements, wherever the rounds were cut before,
    and [finish_rounds] leaves the ring with every round of the shot formed with
    the detectors of its phase. *)

Section final.
Context {R : Type} (L : ingest_layout R) (Hok : layout_ok L).
Abbreviation t := (context_ L).
Abbreviation p := (prefix_rounds_ L).
Abbreviation s := (suffix_rounds_ L).
Abbreviation slots := (staged_slots_ L).
Abbreviation mw := (max_width_ L).
Abbreviation ring := (ring_mask_ L + 1).
Abbreviation start r := (start_of L None r).

(** ** The readout round *)

Lemma forward_to_ok readout_start : ∀ fuel r,
  readout_start ≤ start r + fuel →
  ∃ res, forward_to (S fuel) L readout_start (start r) r = Ok res ∧ ∀ at_ r', res = inl (at_, r') → at_ = start r'.
Proof.
  induction fuel as [|fuel IH]; intros r Hfuel.
  - cbn [forward_to]. destruct (Nat.ltb_spec (start r) readout_start); [lia|]. eexists. split; [done|]. by intros at_ r' [= <- <-].
  - remember (S fuel) as m eqn:Em. cbn [forward_to].
    destruct (Nat.ltb_spec (start r) readout_start) as [Hlt|Hge]; [|eexists; split; [done|]; by intros at_ r' [= <- <-]].
    destruct (negb (t_repeats t) && (p <=? r + 1)) eqn:E1; [by eexists|].
    destruct (readout_start - start r <? forward_width L r); [by eexists|].
    change (start r + forward_width L r) with (start (S r)). rewrite Nat.add_1_r. subst m. apply IH.
    assert (min_forward_width_ L ≤ forward_width L r) as Hw.
    { apply (lk_forward L Hok). apply andb_false_iff in E1 as [?%negb_false_iff|?%Nat.leb_gt]; [by left|by right]. }
    pose proof (lk_pos L Hok). change (start (S r)) with (start r + forward_width L r). lia.
Qed.

Lemma back_to_ok readout_start : ∀ r, ∃ r', back_to L readout_start (start r) r = (start r', r') ∧ r' ≤ r.
Proof.
  induction r as [|r IH]; cbn [back_to]; [by exists 0|].
  destruct (readout_start <? start (S r)); [|by exists (S r)].
  change (start (S r)) with (start r + forward_width L r). rewrite Nat.add_sub.
  destruct IH as (r'&->&?). exists r'. split; [done|lia].
Qed.

(** A FINAL record either is refused or ends an admitted shot. *)
Lemma final_round_ok bytes core len :
  cut_inv L None bytes (core_raw core) (core_formed core) →
  ∃ res, final_round L core len = Ok res ∧ ∀ r, res = inl r →
    start r + last_width_ L = length bytes + len ∧ admits t (r + 1) ∧ (formed_ (core_formed core) ≤ r ∨ s = 0).
Proof.
  intros [Hraw _ _ _]. unfold final_round. rewrite <-(ro_len _ _ _ _ _ _ Hraw), (ro_cut _ _ _ _ _ _ Hraw).
  destruct (Nat.ltb_spec (length bytes + len) (last_width_ L)) as [?|Hge]; [by eexists|].
  set (rs := length bytes + len - last_width_ L).
  rewrite Nat.add_1_r. destruct (forward_to_ok rs rs (rounds_cut_ (core_raw core))) as (ahead&->&Hahead); [lia|]. cbn [mbind res_bind].
  destruct ahead as [[at_ r]|?]; [|by eexists]. rewrite (Hahead at_ r eq_refl). destruct (back_to_ok rs r) as (r'&->&_).
  destruct (Nat.eqb_spec (start r') rs) as [He|]; cbn [negb]; [|by eexists].
  destruct (if t_repeats t then r' + 1 <? t_min_rounds t else negb (r' + 1 =? t_min_rounds t)) eqn:Em; [by eexists|].
  destruct ((r' <? formed_ (core_formed core)) && (0 <? s)) eqn:Ef; [by eexists|].
  eexists. split; [done|]. intros r0 [= <-]. split_and!; [lia| |].
  - split; destruct (t_repeats t); try done.
    + by apply Nat.ltb_ge in Em.
    + apply negb_false_iff, Nat.eqb_eq in Em. lia.
    + intros _. by apply negb_false_iff, Nat.eqb_eq in Em.
  - apply andb_false_iff in Ef as [?%Nat.ltb_ge|?%Nat.ltb_ge]; [by left|right; lia].
Qed.

(** ** From the forward rounds to the rounds of the shot *)

Section known.
Context (n : nat) (Hn : admits t n).

Lemma bits_known bytes q : q + 1 < n ∨ s = 0 ∧ q < n → round_bits L (Some n) bytes q = round_bits L None bytes q.
Proof.
  intros Hq. unfold round_bits. rewrite start_before by lia. destruct Hq as [?|[? ?]]; [by rewrite width_before|by rewrite width_plain].
Qed.

Lemma row_start_known q : (∀ i, i < q → form_at L (Some n) i = form_at L None i) → row_start L (Some n) q = row_start L None q.
Proof. induction q as [|q IH]; intros Hf; [done|]. cbn [row_start]. rewrite IH, Hf; [done|lia|]. intros i Hi. apply Hf. lia. Qed.

Lemma form_known q : q + s < n → form_at L (Some n) q = form_at L None q.
Proof. intros Hq. unfold form_at. rewrite form_before; [done..|]. by right. Qed.

Lemma det_known bytes q : q + s < n → det_of L (Some n) bytes q = det_of L None bytes q.
Proof.
  intros Hq. unfold det_of. rewrite form_known by done. rewrite (bits_known bytes q) by lia.
  destruct (Nat.eqb_spec q 0); [done|]. by rewrite (bits_known bytes (q - 1)) by lia.
Qed.

Lemma ring_known bytes f : formed_ f + s ≤ n → ring_ok L None bytes f → ring_ok L (Some n) bytes f.
Proof.
  intros Hf [? ? ? ? Ht Hh]. split; try done; [by rewrite Ht, row_start_known; [|intros; apply form_known; lia]|].
  intros q Hq Hqr. destruct (Hh q Hq Hqr) as (H1&H2&H3&H4).
  rewrite row_start_known, form_known, det_known; [done|lia..|]. intros i Hi. apply form_known. lia.
Qed.

Lemma raw_known bytes formed gap raw : rounds_cut_ raw < n → raw_ok L None bytes formed gap raw → raw_ok L (Some n) bytes formed gap raw.
Proof.
  intros Hr [? ? Hc ? ? ? ? Hq ?]. split; try done; [by rewrite start_before|]. intros q Hq1 Hq2. rewrite bits_known, width_before by lia. by apply Hq.
Qed.
End known.

(** ** The rounds that FINAL completes *)

Section finish.
Context (bytes data : list nat) (raw : raw_rounds) (f : formed_rounds) (r : nat).
Context (Hinv : cut_inv L None bytes raw f) (Hr : start r + last_width_ L = length bytes + length data).
Context (Hadm : admits t (r + 1)).
Abbreviation n := (r + 1).

Lemma formed_bound : formed_ f + s ≤ n.
Proof. apply (ci_bound _ _ _ _ _ Hinv eq_refl n Hadm). rewrite Nat.add_sub. lia. Qed.

Lemma start_cut : cut_bytes_ raw = start (rounds_cut_ raw) ∧ length bytes = start (rounds_cut_ raw) + partial_ raw.
Proof. pose proof (ci_raw _ _ _ _ _ Hinv) as Hraw. pose proof (ro_cut _ _ _ _ _ _ Hraw) as Hc. pose proof (ro_len _ _ _ _ _ _ Hraw). lia. Qed.

(** The state that the readout round is completed from. *)
Lemma complete_last raw1 f1 :
  raw_ok L (Some n) (bytes ++ data) (formed_ f1) 3 raw1 → ring_ok L (Some n) (bytes ++ data) f1 →
  rounds_cut_ raw1 = r → partial_ raw1 = last_width_ L →
  ∃ raw' f', complete_round L (Some n) (last_width_ L) (raw1, f1) = Ok (raw', f') ∧
    raw_ok L (Some n) (bytes ++ data) n 3 raw' ∧ ring_ok L (Some n) (bytes ++ data) f' ∧ formed_ f' = n ∧ rounds_cut_ raw' = n.
Proof.
  intros Hraw Hring Hc Hp.
  destruct (complete_round_ok L Hok (Some n) _ (last_width_ L) raw1 f1 Hraw Hring Hp) as (raw'&f'&Hrun&Hcut&_&_&Hraw'&Hring'&_&Hall).
  - rewrite Hc. pose proof (width_last L n ltac:(lia)) as Hl. by rewrite Nat.add_sub in Hl.
  - intros q Hq. split; [done|lia].
  - done.
  - exists raw', f'. specialize (Hall ltac:(done)). rewrite Hc in Hcut. rewrite Hcut in Hall. rewrite Hall in Hraw'. done.
Qed.

(** The readout round starts at the round being cut, or later. *)
Lemma finish_ahead : rounds_cut_ raw ≤ r →
  ∃ raw' f', finish_rounds L r data (raw, f) = Ok (raw', f', None) ∧
    raw_ok L (Some n) (bytes ++ data) n 3 raw' ∧ ring_ok L (Some n) (bytes ++ data) f' ∧ formed_ f' = n ∧ rounds_cut_ raw' = n.
Proof.
  intros Hle. destruct start_cut as [Hc Hlen]. pose proof Hinv as [Hraw Hring Hb Hcut]. unfold finish_rounds.
  rewrite (proj2 (Nat.leb_le _ _)) by done. rewrite <-Nat.add_assoc.
  replace (cut_bytes_ raw + (partial_ raw + length data) - last_width_ L) with (start r) by lia.
  set (head := if rounds_cut_ raw <? r then start r - cut_bytes_ raw - partial_ raw else 0).
  assert (cut_inv L (Some n) bytes raw f) as Hinv1.
  { split; [apply (raw_known n Hadm); [lia|done]|apply (ring_known n Hadm); [apply formed_bound|done]|done|].
    split; [done|]. destruct (decide (rounds_cut_ raw = r)) as [->|Hne]; [by right|left]. split; [lia|].
    destruct Hcut as [[_ ?]|(Hrep&Hl&_)]; [done|]. exfalso. destruct (lk_fixed L Hok Hrep) as (_&Hm&_). destruct Hadm as [_ Hf]. specialize (Hf Hrep). lia. }
  assert (∃ raw1 f1, (if rounds_cut_ raw <? r then cut L (Some n) (take head data) (raw, f) else Ok (raw, f, None)) = Ok (raw1, f1, None) ∧
    cut_inv L (Some n) (bytes ++ take head data) raw1 f1 ∧ rounds_cut_ raw1 = r ∧ partial_ raw1 + length (drop head data) = last_width_ L)
    as (raw1&f1&Hrun&Hinv2&Hr1&Hp1).
  { destruct (Nat.ltb_spec (rounds_cut_ raw) r) as [Hlt|Hge].
    - assert (start (rounds_cut_ raw) + partial_ raw < start r) as Hpart.
      { destruct (ci_cutting _ _ _ _ _ Hinv1) as [_ [[_ Hp]|?]]; [|lia]. pose proof (start_of_mono L None (S (rounds_cut_ raw)) r Hlt) as Hm.
        cbn [start_of width_at] in Hm. lia. }
      assert (head = start r - length bytes) as Hhd by (unfold head; lia). clearbody head.
      assert (length (take head data) = head) as Hh by (rewrite length_take; lia).
      destruct (cut_ok L Hok (Some n) (take head data) raw f bytes Hinv1) as (raw1&f1&Hrun&Hinv2&_&_).
      { unfold cut_room. rewrite Nat.add_sub, Hh. lia. }
      exists raw1, f1. split; [exact Hrun|]. split; [exact Hinv2|].
      pose proof (ro_len _ _ _ _ _ _ (ci_raw _ _ _ _ _ Hinv2)) as Hl1. rewrite (ro_cut _ _ _ _ _ _ (ci_raw _ _ _ _ _ Hinv2)), length_app, Hh in Hl1.
      assert (rounds_cut_ raw1 = r) as Hr1.
      { destruct (ci_cutting _ _ _ _ _ Hinv2) as [_ [[Hl Hp]|?]]; [|lia]. exfalso. rewrite start_before in Hl1 by lia.
        pose proof (start_of_mono L None (S (rounds_cut_ raw1)) r ltac:(lia)) as Hm. cbn [start_of width_at] in Hm. lia. }
      split; [done|]. rewrite Hr1, start_before in Hl1 by lia. rewrite length_drop. lia.
    - exists raw, f. unfold head. cbn [take drop]. rewrite app_nil_r. assert (rounds_cut_ raw = r) as He by lia.
      rewrite He in Hlen. split_and!; [done|exact Hinv1|done|rewrite drop_0; lia]. }
  rewrite Hrun. cbn [mbind res_bind]. rewrite bool_decide_eq_true_2 by done. cbn [negb].
  destruct (append_ok L Hok (Some n) _ (drop head data) (formed_ f1) 3 raw1 (ci_raw _ _ _ _ _ Hinv2)) as (staged&Hw&Hraw2); [lia|pose proof (lk_last L Hok); lia|].
  rewrite Hr1 in Hw, Hraw2. rewrite Hw. cbn [mbind res_bind].
  rewrite Hp1 in Hraw2. rewrite <-app_assoc, take_drop in Hraw2.
  assert (ring_ok L (Some n) (bytes ++ data) f1) as Hring2.
  { rewrite <-(take_drop head data), app_assoc. apply ring_ok_app; [apply Hinv2|]. etrans; [|apply (start_formed L _ _ _ _ _ (ci_raw _ _ _ _ _ Hinv2))].
    apply start_of_mono, (ro_formed _ _ _ _ _ _ (ci_raw _ _ _ _ _ Hinv2)). }
  destruct (complete_last _ f1 Hraw2 Hring2) as (raw'&f'&Hrun'&Hrest); [done..|]. exists raw', f'. split; [|done].
  rewrite Hr1. change (complete_round L (Some n) (last_width_ L) (mk_raw staged (staged_width_ raw1) r (cut_bytes_ raw1) (partial_ raw1), f1))
    with (complete_round L (Some n) (last_width_ L) (mk_raw staged (staged_width_ raw1) r (cut_bytes_ raw1) (last_width_ L), f1)).
  rewrite Hrun'. done.
Qed.

(** The bytes of rounds [a] to [b - 1], whole rounds cut before FINAL. *)
Definition bytes_between (a b : nat) : list nat := take (start b - start a) (drop (start a) bytes).

Lemma bytes_between_snoc a b : a ≤ b → bytes_between a (S b) = bytes_between a b ++ round_bits L None bytes b.
Proof.
  intros Hab. unfold bytes_between, round_bits. pose proof (start_of_mono L None a b Hab). cbn [start_of].
  replace (start b + width_at L None b - start a) with ((start b - start a) + width_at L None b) by lia.
  rewrite <-take_take_drop. rewrite drop_drop. do 3 f_equal. lia.
Qed.

(** A buffer that differs from the raw one only in slot [r], behind round [r]. *)
Definition joins (staged : list nat) : Prop :=
  length staged = slots * mw ∧
  ∀ j, j < slot_off L r + forward_width L r ∨ slot_off L r + mw ≤ j → staged !! j = staged_ raw !! j.

Lemma join_keeps q l staged :
  joins staged → formed_ f ≤ r → formed_ f ≤ q + 1 → q ≠ r → r < rounds_cut_ raw → q ≤ rounds_cut_ raw → length l ≤ mw →
  holds_at (staged_ raw) (slot_off L q) l → holds_at staged (slot_off L q) l.
Proof.
  intros [_ Ho] Hf Hq Hne Hlt Hqr Hl Hh. pose proof (ro_gap _ _ _ _ _ _ (ci_raw _ _ _ _ _ Hinv)) as Hg.
  eapply holds_at_same; [|exact Hh]. intros i Hi. apply Ho. unfold slot_off. destruct (slot_distinct slots mw q r Hne) as [?|?]; lia.
Qed.

Lemma join_write staged l filled :
  joins staged → forward_width L r ≤ filled → filled + length l ≤ mw →
  ∃ staged', write_n staged (r mod slots * mw + filled) l = Ok staged' ∧ joins staged' ∧ holds_at staged' (slot_off L r + filled) l ∧
    ∀ j, j < slot_off L r + filled → staged' !! j = staged !! j.
Proof.
  intros [Hl Ho] Hfill Hfit. pose proof (slots_pos L Hok). pose proof (slot_fits slots mw r ltac:(lia)) as Hslot.
  destruct (write_n_ok staged (r mod slots * mw + filled) l) as (staged'&Hw&Hl'&Hh&Hs); [lia|].
  exists staged'. split; [done|]. split; [split; [lia|]|split; [done|]].
  - intros j Hj. rewrite Hs; [by apply Ho|]. unfold slot_off in Hj. lia.
  - intros j Hj. apply Hs. by left.
Qed.

(** The bytes that arrived from round [r] on, and more, in slot [r]. *)
Lemma join_more staged l0 l :
  joins staged → forward_width L r ≤ length l0 → length l0 + length l ≤ mw → holds_at staged (slot_off L r) l0 →
  ∃ staged', write_n staged (r mod slots * mw + length l0) l = Ok staged' ∧ joins staged' ∧ holds_at staged' (slot_off L r) (l0 ++ l).
Proof.
  intros Hj Hfill Hfit Hh. destruct (join_write staged l (length l0) Hj Hfill Hfit) as (staged'&Hw&Hj'&Hh'&Hs).
  exists staged'. split; [done|]. split; [done|]. apply holds_at_app. split; [|done].
  eapply holds_at_same; [|exact Hh]. intros i Hi. apply Hs. lia.
Qed.

Lemma length_bytes_between a b : a ≤ b → start b ≤ length bytes → length (bytes_between a b) = start b - start a.
Proof. intros Hab Hb. unfold bytes_between. pose proof (start_of_mono L None a b Hab). rewrite length_take, length_drop. lia. Qed.

Lemma length_cut_bits q : q < rounds_cut_ raw → length (round_bits L None bytes q) = forward_width L q.
Proof.
  intros Hq. destruct start_cut as [_ Hlen]. apply (length_round_bits L None). pose proof (start_of_mono L None (q + 1) (rounds_cut_ raw)). lia.
Qed.

(** The loop over the rounds cut after [r]. *)
Lemma join_rounds : formed_ f ≤ r → r < rounds_cut_ raw →
  ∃ staged, for_u (r + 1) (rounds_cut_ raw) (λ q st,
       let '(staged, filled) := st in
       l ← read_n staged ((q mod slots) * mw) (forward_width L q);
       staged ← write_n staged ((r mod slots) * mw + filled) l;
       Ok (staged, filled + forward_width L q)) (staged_ raw, forward_width L r) =
    Ok (staged, start (rounds_cut_ raw) - start r) ∧ joins staged ∧ holds_at staged (slot_off L r) (bytes_between r (rounds_cut_ raw)).
Proof.
  intros Hf Hlt. destruct start_cut as [Hc Hlen]. pose proof (ci_raw _ _ _ _ _ Hinv) as [H1 H2 H3 H4 H5 H6 H7 H8 H9].
  pose proof (slots_pos L Hok) as Hslots. pose proof (lk_last L Hok) as Hlast.
  destruct (for_u_inv (r + 1) (rounds_cut_ raw) (λ q st,
         let '(staged, filled) := st in
         l ← read_n staged ((q mod slots) * mw) (forward_width L q);
         staged ← write_n staged ((r mod slots) * mw + filled) l;
         Ok (staged, filled + forward_width L q))
    (λ q st, joins st.1 ∧ st.2 = start q - start r ∧ holds_at st.1 (slot_off L r) (bytes_between r q))
    (staged_ raw, forward_width L r)) as ([staged filled]&Hrun&Hj&Hfill&Hh); cbn [fst snd] in *.
  - lia.
  - split; [by split|]. rewrite Nat.add_1_r. split; [cbn [start_of width_at]; lia|]. rewrite bytes_between_snoc by done.
    unfold bytes_between. rewrite Nat.sub_diag. cbn [take app]. apply H8; lia.
  - intros q [staged filled] Hq (Hj&Hfl&Hh). cbn [fst snd] in *. subst filled.
    pose proof (start_of_mono L None (S r) q ltac:(lia)) as Hgrow. cbn [start_of width_at] in Hgrow.
    pose proof (start_of_mono L None (S q) (rounds_cut_ raw) ltac:(lia)) as Hm. cbn [start_of width_at] in Hm. pose proof (lk_width L Hok q) as Hwq.
    pose proof (length_cut_bits q ltac:(lia)) as Hbits. pose proof (slot_fits slots mw q ltac:(lia)) as Hsq. pose proof Hj as [Hol _].
    assert (read_n staged ((q mod slots) * mw) (forward_width L q) = Ok (round_bits L None bytes q)) as ->.
    { rewrite <-Hbits. apply holds_at_read; [|lia]. apply (join_keeps q); [done|lia..|]. apply H8; lia. }
    cbn [mbind res_bind]. pose proof (length_bytes_between r q ltac:(lia) ltac:(lia)) as Hlb. rewrite <-Hlb.
    destruct (join_more staged (bytes_between r q) (round_bits L None bytes q) Hj) as (staged'&->&Hj'&Hh'); [lia|lia|done|].
    apply returns_ok. cbn [fst snd]. split; [done|]. rewrite Nat.add_1_r, Hlb. split; [cbn [start_of width_at]; lia|].
    by rewrite bytes_between_snoc by lia.
  - exists staged. rewrite Hrun, Hfill. done.
Qed.

(** [join_readout] gathers the bytes of rounds [r] on in slot [r], and changes no
    other slot. *)
Lemma join_ok : formed_ f ≤ r → r < rounds_cut_ raw →
  ∃ staged, join_readout L r data raw = Ok staged ∧ length staged = slots * mw ∧
    holds_at staged (slot_off L r) (drop (start r) (bytes ++ data)) ∧
    ∀ q, formed_ f ≤ q + 1 → q < r → holds_at staged (slot_off L q) (round_bits L None bytes q).
Proof.
  intros Hf Hlt. destruct start_cut as [Hc Hlen]. pose proof (ci_raw _ _ _ _ _ Hinv) as [H1 H2 H3 H4 H5 H6 H7 H8 H9].
  pose proof (slots_pos L Hok) as Hslots. pose proof (lk_last L Hok) as Hlast. unfold join_readout.
  destruct (join_rounds Hf Hlt) as (staged&->&Hj&Hh). cbn [mbind res_bind]. set (c := rounds_cut_ raw) in *.
  pose proof (start_of_mono L None (S r) c ltac:(lia)) as Hgrow. cbn [start_of width_at] in Hgrow. pose proof (slot_fits slots mw c ltac:(lia)) as Hsc.
  assert (length (drop (cut_bytes_ raw) bytes) = partial_ raw) as Hpl by (rewrite length_drop; lia). pose proof Hj as [Hol _].
  assert (read_n staged ((c mod slots) * mw) (partial_ raw) = Ok (drop (cut_bytes_ raw) bytes)) as ->.
  { rewrite <-Hpl. apply holds_at_read; [|lia]. by apply (join_keeps c); [done|lia..|]. }
  cbn [mbind res_bind]. pose proof (length_bytes_between r c ltac:(lia) ltac:(lia)) as Hlb. rewrite <-Hlb.
  destruct (join_more staged (bytes_between r c) (drop (cut_bytes_ raw) bytes) Hj) as (st1&->&Hj1&Hh1); [lia|lia|done|]. cbn [mbind res_bind].
  rewrite <-Nat.add_assoc, <-Hpl, <-length_app.
  destruct (join_more st1 (bytes_between r c ++ drop (cut_bytes_ raw) bytes) data Hj1) as (st2&->&Hj2&Hh2); [rewrite length_app; lia..|done|].
  exists st2. split; [done|]. split; [apply Hj2|]. split.
  - assert (drop (start r) (bytes ++ data) = (bytes_between r c ++ drop (cut_bytes_ raw) bytes) ++ data) as ->; [|done].
    rewrite drop_app_le by lia. f_equal. unfold bytes_between. rewrite Hc.
    rewrite <-(take_drop (start c - start r) (drop (start r) bytes)) at 1. f_equal. rewrite drop_drop. f_equal. lia.
  - intros q Hq Hqr. apply (join_keeps q); [done|lia..| |apply H8; lia]. rewrite length_cut_bits by lia. apply (lk_width L Hok).
Qed.

Lemma finish_back : formed_ f ≤ r → r < rounds_cut_ raw →
  ∃ raw' f', finish_rounds L r data (raw, f) = Ok (raw', f', None) ∧
    raw_ok L (Some n) (bytes ++ data) n 3 raw' ∧ ring_ok L (Some n) (bytes ++ data) f' ∧ formed_ f' = n ∧ rounds_cut_ raw' = n.
Proof.
  intros Hf Hlt. destruct start_cut as [Hc Hlen]. destruct (join_ok Hf Hlt) as (staged&Hj&Hl&Hh&Hq).
  pose proof (ci_raw _ _ _ _ _ Hinv) as [H1 H2 H3 H4 H5 H6 H7 H8 H9]. unfold finish_rounds.
  rewrite (proj2 (Nat.leb_gt _ _)) by done. rewrite (proj2 (Nat.leb_le _ _)) by done. rewrite Hj. cbn [mbind res_bind].
  replace (cut_bytes_ raw + partial_ raw + length data - last_width_ L) with (start r) by lia.
  assert (raw_ok L (Some n) (bytes ++ data) (formed_ f) 3 (mk_raw staged (staged_width_ raw) r (start r) (last_width_ L))) as Hraw1.
  { split; cbn [staged_ staged_width_ rounds_cut_ cut_bytes_ partial_]; try done; try lia.
    - by rewrite start_before by lia.
    - rewrite length_app. lia.
    - apply (lk_last L Hok).
    - intros q Hq1 Hq2. rewrite (bits_known n Hadm) by lia. rewrite round_bits_app.
      + rewrite width_before by lia. split; [by apply Hq|apply H8; lia].
      + pose proof (start_of_mono L None (q + 1) (rounds_cut_ raw)). lia. }
  assert (ring_ok L (Some n) (bytes ++ data) f) as Hring1.
  { apply ring_ok_app; [apply (ring_known n Hadm); [apply formed_bound|apply Hinv]|].
    rewrite start_before by lia. pose proof (start_of_mono L None (formed_ f) (rounds_cut_ raw)). lia. }
  destruct (complete_last _ f Hraw1 Hring1) as (raw'&f'&Hrun&Hrest); [done..|]. exists raw', f'. split; [|done].
  change (complete_round L (Some n) (last_width_ L) (mk_raw staged (staged_width_ raw) r (start r) 0, f))
    with (complete_round L (Some n) (last_width_ L) (mk_raw staged (staged_width_ raw) r (start r) (last_width_ L), f)).
  rewrite Hrun. done.
Qed.

(** Every round of the shot is cut and formed: the record is empty. *)
Lemma finish_formed : r < formed_ f → s = 0 →
  finish_rounds L r data (raw, f) = Ok (raw, f, None) ∧ data = [] ∧
    raw_ok L (Some n) bytes n 3 raw ∧ ring_ok L (Some n) bytes f ∧ formed_ f = n ∧ rounds_cut_ raw = n.
Proof.
  intros Hf Hs. destruct start_cut as [Hc Hlen]. pose proof (ci_raw _ _ _ _ _ Hinv) as [H1 H2 H3 H4 H5 H6 H7 H8 H9].
  pose proof formed_bound as Hfb.
  assert (t_repeats t = true) as Hrep.
  { destruct (t_repeats t) eqn:E; [done|exfalso]. destruct (lk_fixed L Hok E) as (_&Hm&_). destruct Hadm as [_ Hfx]. specialize (Hfx E).
    destruct (ci_cutting _ _ _ _ _ Hinv) as [[[?|?] _]|(_&?&_)]; [congruence|lia..]. }
  pose proof (width_plain L Hok n r Hadm Hs ltac:(lia)) as Hw. unfold width_at in Hw. rewrite (proj2 (Nat.eqb_eq _ _)) in Hw by done.
  assert (start (S r) = length bytes + length data) as Hsn by (cbn [start_of width_at]; lia).
  assert (rounds_cut_ raw = n) as Hcut.
  { destruct (decide (rounds_cut_ raw ≤ n)) as [|Hgt]; [lia|exfalso]. pose proof (forward_growth L Hok n (rounds_cut_ raw - n) ltac:(by left)) as Hg.
    replace (n + (rounds_cut_ raw - n)) with (rounds_cut_ raw) in Hg by lia. pose proof (lk_pos L Hok).
    rewrite Nat.add_1_r in Hg at 1. nia. }
  assert (formed_ f = n) as Hfn by lia. rewrite Hcut, Nat.add_1_r in Hlen.
  unfold finish_rounds. rewrite (proj2 (Nat.leb_gt _ _)) by lia. rewrite (proj2 (Nat.leb_gt _ _)) by lia.
  split; [done|]. split; [apply nil_length_inv; lia|]. split; [|split; [apply (ring_known n Hadm); [lia|apply Hinv]|done]].
  assert (start_of L (Some n) n = start n) as Hse.
  { rewrite start_end, Nat.add_sub by lia. rewrite Hw. rewrite Nat.add_1_r. done. }
  split; try done; try lia.
  - by rewrite H3, Hcut.
  - intros q Hq1 Hq2. rewrite (bits_known n Hadm), width_plain by (done || lia). apply H8; lia.
Qed.

Lemma finish_ok : formed_ f ≤ r ∨ s = 0 →
  ∃ raw' f', finish_rounds L r data (raw, f) = Ok (raw', f', None) ∧
    raw_ok L (Some n) (bytes ++ data) n 3 raw' ∧ ring_ok L (Some n) (bytes ++ data) f' ∧ formed_ f' = n ∧ rounds_cut_ raw' = n.
Proof.
  intros Hc. destruct (decide (rounds_cut_ raw ≤ r)) as [Hle|Hgt]; [by apply finish_ahead|].
  destruct (decide (formed_ f ≤ r)) as [Hf|Hf]; [apply finish_back; [done|lia]|].
  destruct Hc as [?|Hs]; [done|]. destruct (finish_formed ltac:(lia) Hs) as (Hrun&->&Hrest). exists raw, f. by rewrite app_nil_r.
Qed.
End finish.
End final.
