(* ===== verification/IngestViews.v ===== *)
(** * The ingest core: windows handed over

    The invariant of the core between operations: what has arrived, the rounds in
    the ring, the views out and what they hold.  [poll] hands over the windows of
    the next index once all of them are complete; [enqueue] keeps the rounds that
    a view out or an unpublished window holds. *)

From S2P Require Import Prelude Rates Ordering Tensor SparseMatrix RoundLayout DetectorErrorModel ExtendedDem ChunkSpec ExperimentTemplate TemplateFacts WindowRequest WindowRequestFacts WindowPlace WindowBuild Ingest IngestRounds.

Open Scope nat_scope.

Section views.
Context {R : Type} `{RateOps R} (L : ingest_layout R).
Abbreviation t := (context_ L).
Abbreviation ring := (ring_mask_ L + 1).
Implicit Types shot : option nat.
Implicit Types core : ingest_core.

(** ** Layers *)

(** Layer [l] as the constructor leaves it. *)
Record layer_at (l : nat) (q : window_request R) (commit span : round_range) (bounds : variant_bounds) (first : Z) : Prop := {
  la_request : request_ok q commit;
  la_period : wr_period q = period_ L;
  la_span : span = span_of q commit;
  la_spans : spans_ L !! l = Some span;
  la_bounds : bounds_ L !! l = Some bounds;
  la_variant : variant_bounds_of t q = Ok bounds;
  la_first : first_k_ L !! l = Some first;
  la_first_eq : first = (floor_div (- wr_offset q - rr_end commit) (wr_period q) + 1)%Z
}.

Record layers_ok : Prop := {
  ly_some : 0 < length (layers_ L);
  ly_spans : length (spans_ L) = length (layers_ L);
  ly_first : length (first_k_ L) = length (layers_ L);
  ly_layer : ∀ l layer, layers_ L !! l = Some layer →
    1 ≤ il_max_views layer ∧ ∃ commit span bounds first, layer_at l (il_request layer) commit span bounds first
}.

Definition anchor (q : window_request R) (k : Z) : Z := (wr_offset q + k * period_ L)%Z.

Section layer.
Context l q commit span bounds first (Hl : layer_at l q commit span bounds first).

Lemma layer_period : (1 ≤ period_ L)%Z.
Proof. rewrite <-(la_period _ _ _ _ _ _ Hl). apply (an_period _ _ (rq_anchor _ _ (la_request _ _ _ _ _ _ Hl))). Qed.

Lemma layer_span : (rr_begin span ≤ rr_begin commit < rr_end commit)%Z ∧ (rr_end commit ≤ rr_end span)%Z.
Proof.
  rewrite (la_span _ _ _ _ _ _ Hl). destruct (zone_span_bounds q commit) as (Hz&_&_). destruct (Hz commit) as [H1 H2].
  { unfold zones_of. apply elem_of_app. right. by left. }
  pose proof (an_nonempty _ _ (rq_anchor _ _ (la_request _ _ _ _ _ _ Hl))) as Hne. unfold nonempty in Hne. lia.
Qed.

Lemma layer_first k : (first ≤ k)%Z ↔ (0 < anchor q k + rr_end commit)%Z.
Proof.
  pose proof layer_period as Hp. rewrite (la_first_eq _ _ _ _ _ _ Hl). pose proof (la_period _ _ _ _ _ _ Hl) as Hq. unfold anchor.
  pose proof (floor_div_lt (- wr_offset q - rr_end commit) (wr_period q) k ltac:(lia)). rewrite Hq in *. split; intros; nia.
Qed.

Lemma layer_instances n : 0 < n → ∃ i, window_instances q n = Ok i ∧ ir_begin i = first ∧
  ∀ k, (ir_begin i ≤ k < ir_end i)%Z ↔ (first ≤ k)%Z ∧ (anchor q k + rr_begin commit < Z.of_nat n)%Z.
Proof.
  intros Hn. pose proof (rq_anchor _ _ (la_request _ _ _ _ _ _ Hl)) as Ha. eexists. split; [by apply window_instances_eq|].
  split; [by rewrite (la_first_eq _ _ _ _ _ _ Hl)|]. intros k. rewrite (window_instances_spec q commit n _ k Ha (window_instances_eq q commit n Ha) Hn).
  rewrite layer_first. unfold nonempty, clip_rounds, anchor. cbn [rr_begin rr_end]. rewrite (la_period _ _ _ _ _ _ Hl).
  pose proof layer_span. lia.
Qed.

(** The rounds of window [k], with [end_] past the last round of the shot. *)
Lemma layer_rounds k end_ :
  (first ≤ k)%Z → (anchor q k + rr_begin commit < end_)%Z → (0 < end_)%Z →
  let w := clip_rounds span (anchor q k) end_ in (0 ≤ rr_begin w < rr_end w)%Z ∧ (rr_end w ≤ end_)%Z.
Proof. intros Hf%layer_first He H0. pose proof layer_span. unfold clip_rounds. cbn [rr_begin rr_end]. lia. Qed.
End layer.

(** ** Views *)

(** A view's rounds are in the ring. *)
Definition rounds_held (formed : nat) (rounds : round_range) : Prop :=
  (0 ≤ rr_begin rounds < rr_end rounds)%Z ∧ (rr_end rounds ≤ Z.of_nat formed ≤ rr_begin rounds + Z.of_nat ring)%Z.

(** The detectors of a range of rounds. *)
Definition dets shot (bytes : list nat) (rounds : round_range) : list nat :=
  concat (det_of L shot bytes <$> seq (Z.to_nat (rr_begin rounds)) (Z.to_nat (rr_end rounds - rr_begin rounds))).

Definition rows_for shot bytes (view : window_view) : window_rows :=
  mk_rows (wv_k view) (wv_rounds view) (wv_variant view) (wv_first_row view) (dets shot bytes (wv_rounds view)).

Context (Hok : layout_ok L).

Lemma view_detectors_ok shot bytes core view r :
  ring_ok L shot bytes (core_formed core) → rounds_held (formed_ (core_formed core)) (wv_rounds view) →
  (∀ q, q < formed_ (core_formed core) → formable L shot q) → start_of L shot (formed_ (core_formed core)) ≤ length bytes →
  (Z.of_nat (formed_ (core_formed core)) < 2 ^ 63)%Z →
  in_range (wv_rounds view) (Z.of_nat r) → view_detectors L core view (Z.of_nat r) = Ok (det_of L shot bytes r).
Proof.
  intros Hring [Hb He] Hform Hbytes Hsize [Hr1 Hr2]. unfold view_detectors. set (f := core_formed core) in *.
  rewrite to_size_nat by lia. rewrite (ring_slot L Hok), (proj2 (Z.ltb_ge _ _)) by done. rewrite (proj2 (Z.leb_gt _ _)) by done.
  cbn [orb throw_if mbind res_bind]. destruct (rk_holds _ _ _ _ Hring r) as (H1&H2&_&H4); [lia..|].
  rewrite (vget_ok _ _ _ H1). cbn [mbind res_bind]. rewrite Z.eqb_refl. cbn [negb throw_if mbind res_bind].
  unfold ring_span. rewrite (vget_ok _ _ _ H2). cbn [mbind res_bind].
  assert (length (det_of L shot bytes r) = (form_at L shot r).2) as Hlen.
  { apply (length_det_of L Hok); [apply Hform; lia|]. pose proof (start_of_mono L shot (r + 1) (formed_ f)). lia. }
  rewrite <-Hlen. apply holds_at_read; [exact H4|]. rewrite Hlen, (rk_ring _ _ _ _ Hring).
  destruct (forms L Hok shot r ltac:(apply Hform; lia)) as (d&rows&Hf&Hrows&_). unfold form_at. rewrite Hf. cbn [snd].
  pose proof (slot_fits ring (max_rows_ L) r ltac:(lia)). lia.
Qed.

Lemma copy_window_ok shot bytes core view :
  ring_ok L shot bytes (core_formed core) → rounds_held (formed_ (core_formed core)) (wv_rounds view) →
  (∀ q, q < formed_ (core_formed core) → formable L shot q) → start_of L shot (formed_ (core_formed core)) ≤ length bytes →
  (Z.of_nat (formed_ (core_formed core)) < 2 ^ 63)%Z →
  copy_window L core view = Ok (rows_for shot bytes view).
Proof.
  intros Hring Hheld Hform Hbytes Hsize. unfold copy_window, rows_for, dets. destruct (wv_rounds view) as [b e] eqn:Ev. cbn [rr_begin rr_end] in *.
  pose proof Hheld as [Hb He]. cbn [rr_begin rr_end] in *.
  assert (z_range b e = Z.of_nat <$> seq (Z.to_nat b) (Z.to_nat (e - b))) as ->.
  { rewrite <-(Z2Nat.id b), <-(Z2Nat.id e) by lia. rewrite z_range_nat. do 2 f_equal; lia. }
  rewrite foldM_map.
  assert (∀ l d, (∀ r, r ∈ l → (b ≤ Z.of_nat r < e)%Z) → foldM (λ r d, round ← view_detectors L core view (Z.of_nat r); Ok (d ++ round)) l d =
    Ok (d ++ concat (det_of L shot bytes <$> l))) as Hloop.
  { induction l as [|r l IH]; intros d Hl; cbn [foldM]; [by rewrite app_nil_r|].
    rewrite (view_detectors_ok shot bytes core view r); try done; [|by rewrite Ev|rewrite Ev; apply Hl; by left].
    cbn [mbind res_bind]. rewrite IH by (intros r' Hr'; apply Hl; by right). cbn [fmap list_fmap concat]. by rewrite app_assoc. }
  rewrite Hloop; [done|]. intros r Hr%elem_of_seq. lia.
Qed.

(** ** The core between operations *)

Context (Hlayers : layers_ok).
Abbreviation formed core := (formed_ (core_formed core)).
Abbreviation shot_of core := (shot_rounds_ (core_shot core)).

(** View [v] sits at slot [s] of layer [l]'s pool and is out. *)
Definition view_out (v : view_pools) (l s : nat) (view : window_view) : Prop :=
  ∃ pool flags, pools_ v !! l = Some pool ∧ pool !! s = Some view ∧ out_ v !! l = Some flags ∧ flags !! s = Some true.

(** The rounds: before FINAL those cut so far, after it those of the shot. *)
Definition rounds_inv shot (bytes : list nat) (raw : raw_rounds) (f : formed_rounds) : Prop :=
  match shot with
  | None => cut_inv L None bytes raw f
  | Some n => admits t n ∧ ring_ok L (Some n) bytes f ∧ formed_ f = n ∧ length bytes = start_of L (Some n) n
  end.

Record pools_ok (v : view_pools) : Prop := {
  pk_pools : length (pools_ v) = length (layers_ L);
  pk_out : length (out_ v) = length (layers_ L);
  pk_layer : ∀ l layer, layers_ L !! l = Some layer → ∃ pool flags,
    pools_ v !! l = Some pool ∧ out_ v !! l = Some flags ∧ length pool = il_max_views layer ∧ length flags = il_max_views layer ∧
    ∀ s view, pool !! s = Some view → wv_layer view = l ∧ wv_slot view = s
}.

Definition instances_ok (n : nat) (next : Z) (shot : shot_state) : Prop :=
  Forall2 (λ layer i, window_instances (il_request layer) n = Ok i) (layers_ L) (final_instances_ shot) ∧
  (∀ i, i ∈ final_instances_ shot → (ir_end i ≤ index_end_ shot)%Z) ∧
  ((next < index_end_ shot)%Z → ∃ i, i ∈ final_instances_ shot ∧ index_end_ shot = ir_end i).

Definition buffers_ok (raw : raw_rounds) : Prop :=
  length (staged_ raw) = staged_slots_ L * max_width_ L ∧ length (staged_width_ raw) = staged_slots_ L.

Record core_ok (bytes : list nat) core : Prop := {
  co_buffers : buffers_ok (core_raw core);
  co_rounds : rounds_inv (shot_of core) bytes (core_raw core) (core_formed core);
  co_shot : match shot_of core with Some n => instances_ok n (next_index_ (core_views core)) (core_shot core) | None => True end;
  co_pools : pools_ok (core_views core);
  co_views : ∀ l s view, view_out (core_views core) l s view → rounds_held (formed core) (wv_rounds view);
  co_next : (first_index L ≤ next_index_ (core_views core))%Z;
  co_held : done core = false → ∀ l layer span, layers_ L !! l = Some layer → spans_ L !! l = Some span →
    (Z.of_nat (formed core) ≤ 0 `max` (anchor (il_request layer) (next_index_ (core_views core)) + rr_begin span) + Z.of_nat ring)%Z
}.

Lemma rounds_facts shot bytes raw f :
  rounds_inv shot bytes raw f →
  ring_ok L shot bytes f ∧ (∀ q, q < formed_ f → formable L shot q) ∧ start_of L shot (formed_ f) ≤ length bytes.
Proof.
  destruct shot as [n|].
  - intros (Hn&Hr&Hf&Hb). split_and!; [done| |by rewrite Hf, Hb]. intros q Hq. split; [done|lia].
  - intros [Hraw Hring _ Hcut]. pose proof (ro_formed _ _ _ _ _ _ Hraw) as Hf. split_and!; [done| |].
    + intros q Hq. apply (cutting_formable L None raw); [done|lia].
    + etrans; [|apply (start_formed L _ _ _ _ _ Hraw)]. by apply start_of_mono.
Qed.

(** A round has at least one measurement, so rounds are no more than bytes. *)
Lemma formed_bytes shot bytes raw f : rounds_inv shot bytes raw f → formed_ f ≤ length bytes.
Proof.
  pose proof (lk_pos L Hok) as Hpos. destruct shot as [n|].
  - intros (Hn&_&Hf&Hb). pose proof (admits_rounds L Hok n Hn) as [_ Hn1]. rewrite start_end in Hb by lia. pose proof (lk_last L Hok).
    pose proof (forward_growth L Hok 0 (n - 1)) as Hg. cbn [start_of Nat.add] in Hg.
    assert (t_repeats t = true ∨ n - 1 < prefix_rounds_ L) as Hc.
    { destruct (t_repeats t) eqn:E; [by left|right]. destruct (lk_fixed L Hok E) as (_&Hm&_). destruct Hn as [_ Hfx]. specialize (Hfx E). lia. }
    specialize (Hg Hc). nia.
  - intros [Hraw _ _ Hcut]. pose proof (ro_formed _ _ _ _ _ _ Hraw). pose proof (start_formed L _ _ _ _ _ Hraw) as Hs.
    pose proof (forward_growth L Hok 0 (rounds_cut_ raw)) as Hg. cbn [start_of Nat.add] in Hg.
    assert (t_repeats t = true ∨ rounds_cut_ raw < prefix_rounds_ L) as Hc by (destruct Hcut as [[[?|?] _]|(_&?&_)]; [by left|right; lia..]).
    specialize (Hg Hc). nia.
Qed.

Lemma foldl_min_le {A} (f : Z → A → Z) (g : A → option Z) l z :
  (∀ a x, f a x ≤ a)%Z → (∀ a x y, g x = Some y → f a x ≤ y)%Z →
  (foldl f z l ≤ z)%Z ∧ ∀ x y, x ∈ l → g x = Some y → (foldl f z l ≤ y)%Z.
Proof.
  intros Hf Hg. revert z. induction l as [|x l IH]; intros z; cbn [foldl]; [split; [done|by intros x y ?%elem_of_nil]|].
  destruct (IH (f z x)) as [H1 H2]. split; [etrans; [done|apply Hf]|]. intros x' y [->|Hx]%elem_of_cons Hy; [etrans; [done|by apply Hg]|by eapply H2].
Qed.

(** [first_held_round] is below every round that must stay. *)
Lemma first_held_le core :
  length (pools_ (core_views core)) = length (out_ (core_views core)) →
  (first_held_round L core ≤ Z.of_nat (formed core))%Z ∧
  (∀ l s view, view_out (core_views core) l s view → first_held_round L core ≤ rr_begin (wv_rounds view))%Z ∧
  (done core = false → ∀ l layer span, layers_ L !! l = Some layer → spans_ L !! l = Some span →
    first_held_round L core ≤ 0 `max` (anchor (il_request layer) (next_index_ (core_views core)) + rr_begin span))%Z.
Proof.
  intros Hlen. unfold first_held_round. set (h0 := if done core then _ else _).
  set (inner := λ (held : Z) (vs : window_view * bool), if vs.2 then (held `min` rr_begin (wv_rounds vs.1))%Z else held).
  assert (∀ a x, inner a x ≤ a)%Z as Hi1 by (intros a [v []]; unfold inner; simpl; lia).
  assert (∀ l z, foldl inner z l ≤ z)%Z as Hi by (intros l z; by apply (foldl_min_le inner (λ _, None))).
  set (outer := λ (held : Z) (pool : list window_view * list bool), foldl inner held (zip pool.1 pool.2)).
  change (foldl _ h0 (zip (pools_ (core_views core)) (out_ (core_views core)))) with (foldl outer h0 (zip (pools_ (core_views core)) (out_ (core_views core)))).
  assert (∀ l z, foldl outer z l ≤ z)%Z as Ho by (intros l z; apply (foldl_min_le outer (λ _, None)); [intros a x; apply Hi|done]).
  assert (h0 ≤ Z.of_nat (formed core))%Z as Hh0.
  { unfold h0. destruct (done core); [done|]. apply (foldl_min_le _ (λ _, None)); [intros; simpl; lia|done]. }
  split_and!.
  - etrans; [apply Ho|done].
  - intros l s view (pool&flags&Hp&Hv&Hf&Hs).
    assert ((pool, flags) ∈ zip (pools_ (core_views core)) (out_ (core_views core))) as Hin.
    { apply list_elem_of_lookup. exists l. by rewrite lookup_zip_with, Hp, Hf. }
    assert ((view, true) ∈ zip pool flags) as Hin'.
    { apply list_elem_of_lookup. exists s. by rewrite lookup_zip_with, Hv, Hs. }
    clear Hp Hf Hv Hs. revert Hin. generalize h0. induction (zip (pools_ (core_views core)) (out_ (core_views core))) as [|x l' IH]; intros z Hin; [by apply elem_of_nil in Hin|].
    cbn [foldl]. apply elem_of_cons in Hin as [<-|Hin]; [|by apply IH]. etrans; [apply Ho|]. unfold outer. cbn [fst snd].
    apply (foldl_min_le inner (λ vs, if vs.2 then Some (rr_begin (wv_rounds vs.1)) else None)) with (x := (view, true)); try done.
    intros a [v []] y; unfold inner; simpl; [|done]. intros [= <-]. lia.
  - intros Hd l layer span Hl Hs. etrans; [apply Ho|]. unfold h0. rewrite Hd.
    apply (foldl_min_le _ (λ ls : ingest_layer R * round_range, Some (0 `max` (anchor (il_request ls.1) (next_index_ (core_views core)) + rr_begin ls.2))%Z))
      with (x := (layer, span)).
    + intros; simpl; lia.
    + intros a x y [= <-]. unfold anchor. lia.
    + unfold zip_layers. apply list_elem_of_lookup. exists l. by rewrite lookup_zip_with, Hl, Hs.
    + done.
Qed.

Lemma pools_lengths v : pools_ok v → length (pools_ v) = length (out_ v).
Proof. intros [-> -> _]. done. Qed.

(** Rounds formed up to [end_] leave the held ones in the ring. *)
Lemma room_ok bytes core end_ :
  core_ok bytes core → has_room L core end_ = true →
  (∀ l s view, view_out (core_views core) l s view → Z.of_nat end_ ≤ rr_begin (wv_rounds view) + Z.of_nat ring)%Z ∧
  (done core = false → ∀ l layer span, layers_ L !! l = Some layer → spans_ L !! l = Some span →
    Z.of_nat end_ ≤ 0 `max` (anchor (il_request layer) (next_index_ (core_views core)) + rr_begin span) + Z.of_nat ring)%Z.
Proof.
  intros Hc Hroom%Z.leb_le. destruct (first_held_le core (pools_lengths _ (co_pools _ _ Hc))) as (_&H2&H3). split.
  - intros l s view Hv. specialize (H2 _ _ _ Hv). lia.
  - intros Hd l layer span Hl Hs. specialize (H3 Hd _ _ _ Hl Hs). lia.
Qed.

(** ** Records *)

Lemma collect_ok {A B} (g : A → res B) l acc :
  (∀ a, a ∈ l → ∃ b, g a = Ok b) →
  ∃ l', foldM (λ a acc, b ← g a; Ok (acc ++ [b])) l acc = Ok (acc ++ l') ∧ Forall2 (λ a b, g a = Ok b) l l'.
Proof.
  revert acc. induction l as [|a l IH]; intros acc Hg; cbn [foldM]; [exists []; by rewrite app_nil_r|].
  destruct (Hg a) as [b Hb]; [by left|]. rewrite Hb. cbn [mbind res_bind].
  destruct (IH (acc ++ [b])) as (l'&Hf&Hl'); [intros; apply Hg; by right|]. exists (b :: l'). rewrite Hf, <-app_assoc. split; [done|by constructor].
Qed.

Lemma foldl_max_end (l : list index_range) z :
  (z ≤ foldl (λ e i, e `max` ir_end i) z l)%Z ∧ (∀ i, i ∈ l → ir_end i ≤ foldl (λ e i, e `max` ir_end i) z l)%Z ∧
  ((z < foldl (λ e i, e `max` ir_end i) z l)%Z → ∃ i, i ∈ l ∧ foldl (λ e i, e `max` ir_end i)%Z z l = ir_end i).
Proof.
  revert z. induction l as [|i l IH]; intros z; cbn [foldl]; [split_and!; [done|by intros i ?%elem_of_nil|lia]|].
  destruct (IH (z `max` ir_end i)%Z) as (H1&H2&H3). split_and!; [lia| |].
  - intros j [->|Hj]%elem_of_cons; [lia|by apply H2].
  - intros Hz. destruct (decide (z `max` ir_end i < foldl (λ e i, e `max` ir_end i) (z `max` ir_end i) l)%Z) as [Hlt|Hge].
    + destruct (H3 Hlt) as (j&Hj&Ej). exists j. split; [by right|done].
    + exists i. split; [by left|]. lia.
Qed.

Lemma index_end_ok n next :
  0 < n → ∃ instances, foldM (λ layer l, i ← window_instances (il_request layer) n; Ok (l ++ [i])) (layers_ L) [] = Ok instances ∧
    instances_ok n next (mk_shot (Some n) instances (foldl (λ e i, e `max` ir_end i)%Z next instances) false).
Proof.
  intros Hn. destruct (collect_ok (λ layer, window_instances (il_request layer) n) (layers_ L) []) as (l&Hl&Hf).
  { intros layer [l Hl]%list_elem_of_lookup. destruct (ly_layer Hlayers l layer Hl) as (_&commit&span&bounds&first&Hla).
    destruct (layer_instances _ _ _ _ _ _ Hla n Hn) as (i&Hi&_). by exists i. }
  exists l. split; [exact Hl|]. destruct (foldl_max_end l next) as (_&H2&H3). split_and!; done.
Qed.

(** The rounds that a record completes, at most. *)
Lemma cut_rounds_bound bytes data raw f raw' f' :
  cut_inv L None bytes raw f → cut_inv L None (bytes ++ data) raw' f' → rounds_cut_ raw ≤ rounds_cut_ raw' →
  rounds_cut_ raw' ≤ rounds_cut_ raw + (partial_ raw + length data) / min_forward_width_ L.
Proof.
  intros [Hraw _ _ _] [Hraw' _ _ Hcut'] Hle. pose proof (lk_pos L Hok) as Hpos.
  pose proof (ro_len _ _ _ _ _ _ Hraw). pose proof (ro_cut _ _ _ _ _ _ Hraw).
  pose proof (ro_len _ _ _ _ _ _ Hraw') as Hl'. pose proof (ro_cut _ _ _ _ _ _ Hraw'). rewrite length_app in Hl'.
  pose proof (forward_growth L Hok (rounds_cut_ raw) (rounds_cut_ raw' - rounds_cut_ raw)) as Hg.
  replace (rounds_cut_ raw + (rounds_cut_ raw' - rounds_cut_ raw)) with (rounds_cut_ raw') in Hg by lia.
  assert (t_repeats t = true ∨ rounds_cut_ raw' < prefix_rounds_ L) as Hc by (destruct Hcut' as [[[?|?] _]|(_&?&_)]; [by left|right; lia..]).
  specialize (Hg Hc). assert (rounds_cut_ raw' - rounds_cut_ raw ≤ (partial_ raw + length data) / min_forward_width_ L); [|lia].
  apply Nat.div_le_lower_bound; [lia|]. lia.
Qed.

(** More rounds formed, within the room of the ring. *)
Lemma core_ok_grow bytes bytes' core raw f (shot : shot_state) end_ :
  core_ok bytes core → has_room L core end_ = true → done core = false → formed core ≤ formed_ f → formed_ f ≤ end_ →
  rounds_inv (shot_rounds_ shot) bytes' raw f → buffers_ok raw →
  match shot_rounds_ shot with Some n => instances_ok n (next_index_ (core_views core)) shot | None => True end →
  core_ok bytes' (mk_core raw f (core_views core) shot).
Proof.
  intros Hc Hroom Hd Hge Hend Hr Hbuf Hi. destruct (room_ok _ _ _ Hc Hroom) as [H1 H2]. split; cbn [core_raw core_formed core_views core_shot]; try done.
  - apply Hc.
  - intros l s view Hv. destruct (co_views _ _ Hc _ _ _ Hv) as [Hb He]. specialize (H1 _ _ _ Hv). split; [done|]. lia.
  - apply Hc.
  - intros _ l layer span Hl Hs. specialize (H2 Hd _ _ _ Hl Hs). lia.
Qed.

Lemma enqueue_ok bytes core data final :
  core_ok bytes core →
  match enqueue L core (Some data) (length data) final with
  | Undef => False
  | Throw _ => failed_ (core_shot core) = true ∨ shot_of core ≠ None
  | Ok (core', inl ingest_deferred) => core' = core
  | Ok (core', inl ingest_accepted) =>
      core_ok (bytes ++ data) core' ∧ core_views core' = core_views core ∧ shot_of core = None ∧ formed core ≤ formed core' ∧
      failed_ (core_shot core') = false ∧
      (∀ n, shot_of core' = Some n → formed core + suffix_rounds_ L ≤ n ∧ ∀ b, bounds_shot L bytes b → b ≤ n)
  | Ok (core', inr _) => core' = set_failed core
  end.
Proof.
  intros Hc. unfold enqueue, check_open. destruct (failed_ (core_shot core)) eqn:Ef; cbn [throw_if mbind res_bind]; [by left|].
  destruct (shot_of core) as [n|] eqn:Es; [by right|].
  cbn [throw_if negb mbind res_bind]. change (bool_decide (None = None)) with true. cbn [throw_if negb mbind res_bind].
  destruct (record_limit_ L <? length data); [done|]. rewrite bool_decide_eq_false_2, andb_false_r by done.
  cbn [from_option id]. assert (read_n data 0 (length data) = Ok data) as ->.
  { unfold read_n. rewrite (proj2 (Nat.leb_le _ _)) by lia. by rewrite drop_0, firstn_all. }
  cbn [mbind res_bind]. pose proof (co_rounds _ _ Hc) as Hr. rewrite Es in Hr. cbn [rounds_inv] in Hr.
  assert (done core = false) as Hd by (unfold done; by rewrite Es). destruct final.
  - unfold enqueue_final. destruct (final_round_ok L Hok bytes core (length data) Hr) as (res&->&Hres). cbn [mbind res_bind].
    destruct res as [r|what]; [|done]. destruct (Hres r eq_refl) as (Hlen&Hadm&Hformed).
    destruct (has_room L core (r + 1)) eqn:Eroom; cbn [negb]; [|done].
    destruct (finish_ok L Hok bytes data _ _ r Hr Hlen Hadm Hformed) as (raw'&f'&->&Hraw'&Hring'&Hf'&Hcut'). cbn [mbind res_bind].
    destruct (index_end_ok (r + 1) (next_index_ (core_views core)) ltac:(lia)) as (instances&->&Hi). cbn [mbind res_bind].
    pose proof (formed_bound L bytes data _ _ r Hr Hlen Hadm) as Hfb. split_and!; [|done|done|cbn; lia|done|].
    2:{ intros n [= <-]. split; [done|]. intros b Hb. apply Hb; [done|]. rewrite Nat.add_sub. lia. }
    eapply core_ok_grow; [done|exact Eroom|done|lia|lia| |by destruct Hraw'|exact Hi]. cbn [shot_rounds_ rounds_inv]. split_and!; try done.
    rewrite start_end, Nat.add_sub, length_app by lia. lia.
  - destruct (negb (t_repeats t) && (fixed_measurements_ L <? cut_bytes_ (core_raw core) + partial_ (core_raw core) + length data)) eqn:Efix; [done|].
    destruct (has_room L core _) eqn:Eroom; cbn [negb]; [|done].
    destruct (cut_ok L Hok None data _ _ bytes Hr) as (raw'&f'&->&Hinv'&Hrle&Hfle).
    { destruct (t_repeats t) eqn:E; [by left|right]. rewrite <-(lk_total L Hok E). cbn [negb andb] in Efix. apply Nat.ltb_ge in Efix.
      by rewrite (ro_len _ _ _ _ _ _ (ci_raw _ _ _ _ _ Hr)). }
    cbn [mbind res_bind]. split_and!; [|done|done|done|done|intros n; cbn [core_shot]; by rewrite Es].
    pose proof (cut_rounds_bound _ _ _ _ _ _ Hr Hinv' Hrle) as Hbound. pose proof (ro_formed _ _ _ _ _ _ (ci_raw _ _ _ _ _ Hinv')).
    eapply core_ok_grow; [done|exact Eroom|done|done|lia| |by destruct (ci_raw _ _ _ _ _ Hinv')|]; by rewrite Es.
Qed.

Lemma core_ok_failed bytes core : core_ok bytes core → core_ok bytes (set_failed core).
Proof. intros [? ? ? ? ? ? ?]. by split. Qed.
End views.

(** * The ingest core: handing windows over

    What [poll] does with the windows of the next index, and the record of all
    windows handed over: each is its layer's window in the shot that FINAL fixes,
    whether it was handed over before FINAL or after. *)

Section poll.
Context {R : Type} `{RateOps R} (L : ingest_layout R) (Hok : layout_ok L) (Hlayers : layers_ok L).
Abbreviation t := (context_ L).
Abbreviation ring := (ring_mask_ L + 1).
Abbreviation formed core := (formed_ (core_formed core)).
Abbreviation shot_of core := (shot_rounds_ (core_shot core)).
Implicit Types shot : option nat.
Implicit Types core : ingest_core.

(** ** One window *)

Definition end_of shot : Z := match shot with Some n => Z.of_nat n | None => (2 ^ 63 - 1)%Z end.

Section window.
Context bytes core (Hc : core_ok L bytes core) (Hsize : (Z.of_nat (length bytes) < 2 ^ 63)%Z).
Context l layer commit span bounds first (Hl : layers_ L !! l = Some layer) (Hla : layer_at L l (il_request layer) commit span bounds first).
Abbreviation q := (il_request layer).

Lemma shot_pos n : shot_of core = Some n → 0 < n ∧ formed core = n.
Proof.
  intros Es. pose proof (co_rounds _ _ _ Hc) as Hr. rewrite Es in Hr. destruct Hr as (Hn&_&Hf&_).
  pose proof (admits_rounds L Hok n Hn). lia.
Qed.

Lemma size_formed : (Z.of_nat (formed core) < 2 ^ 63)%Z.
Proof. pose proof (formed_bytes L Hok _ _ _ _ (co_rounds _ _ _ Hc)). lia. Qed.

Lemma final_instance n : shot_of core = Some n → ∃ i, final_instances_ (core_shot core) !! l = Some i ∧ window_instances q n = Ok i.
Proof.
  intros Es. pose proof (co_shot _ _ _ Hc) as Hi. rewrite Es in Hi. destruct Hi as (Hf&_&_).
  destruct (Forall2_lookup_l _ _ _ _ _ Hf Hl) as (i&?&?). eauto.
Qed.

Lemma window_exists_ok k : ∃ e, window_exists L core l k = Ok e ∧
  (e = true ↔ (first ≤ k)%Z ∧ ∀ n, shot_of core = Some n → (anchor L q k + rr_begin commit < Z.of_nat n)%Z).
Proof.
  unfold window_exists. destruct (shot_of core) as [n|] eqn:Es.
  - destruct (final_instance n Es) as (i&Hi&Hw). rewrite (vget_ok _ _ _ Hi). cbn [mbind res_bind]. eexists. split; [done|].
    destruct (shot_pos n Es) as [Hn _]. destruct (layer_instances L _ _ _ _ _ _ Hla n Hn) as (i'&Hw'&_&Hk). rewrite Hw in Hw'. injection Hw' as <-.
    rewrite andb_true_iff, Z.leb_le, Z.ltb_lt, Hk. naive_solver.
  - rewrite (vget_ok _ _ _ (la_first _ _ _ _ _ _ _ Hla)). cbn [mbind res_bind]. eexists. split; [done|]. rewrite Z.leb_le. naive_solver.
Qed.

Lemma window_complete_ok k least : ∃ c, window_complete L core l k least = Ok c ∧
  (c = true → shot_of core = None →
    key_terminal (variant_from bounds q k least) = None ∧ (anchor L q k + rr_end span ≤ Z.of_nat (formed core))%Z).
Proof.
  unfold window_complete. rewrite (vget_ok _ _ _ Hl). cbn [mbind res_bind]. destruct (shot_of core) as [n|]; [by eexists|].
  rewrite (vget_ok _ _ _ (la_bounds _ _ _ _ _ _ _ Hla)), (vget_ok _ _ _ (la_spans _ _ _ _ _ _ _ Hla)). cbn [mbind res_bind].
  eexists. split; [done|]. intros [?%bool_decide_eq_true ?%Z.leb_le]%andb_true_iff _. done.
Qed.

(** The window's rounds are in the ring when it is handed over. *)
Lemma ready_held least :
  let k := next_index_ (core_views core) in
  done core = false → window_exists L core l k = Ok true → window_complete L core l k least = Ok true →
  rounds_held L (formed core) (clip_rounds span (anchor L q k) (end_of (shot_of core))) ∧
  (shot_of core = None → clip_rounds span (anchor L q k) (end_of (shot_of core)) =
     mk_range (0 `max` (anchor L q k + rr_begin span)) (anchor L q k + rr_end span)).
Proof.
  intros k Hd He Hcm. destruct (window_exists_ok k) as (e&He'&Hex). rewrite He in He'. injection He' as <-.
  destruct (proj1 Hex eq_refl) as [Hf Hn]. destruct (window_complete_ok k least) as (c&Hc'&Hcomp). rewrite Hcm in Hc'. injection Hc' as <-.
  specialize (Hcomp eq_refl). pose proof (co_held _ _ _ Hc Hd l layer span Hl (la_spans _ _ _ _ _ _ _ Hla)) as Hheld. fold k in Hheld.
  pose proof (layer_span L _ _ _ _ _ _ Hla) as Hsp. pose proof size_formed as Hsz. apply (layer_first L _ _ _ _ _ _ Hla) in Hf as Hf'.
  destruct (shot_of core) as [n|] eqn:Es; cbn [end_of].
  - split; [|done]. specialize (Hn n eq_refl). destruct (shot_pos n Es) as [Hn0 Hfn].
    pose proof (layer_rounds L _ _ _ _ _ _ Hla k (Z.of_nat n) Hf Hn ltac:(lia)) as Hr. split; [apply Hr|].
    rewrite Hfn in *. unfold clip_rounds in *. cbn [rr_begin rr_end] in *. lia.
  - destruct (Hcomp eq_refl) as [_ Hend]. unfold clip_rounds, rounds_held. cbn [rr_begin rr_end]. split; [lia|]. intros _. f_equal; lia.
Qed.
End window.

(** ** One index *)

(** The view that replaces [old] in its slot. *)
Definition fresh_view shot (q : window_request R) (span : round_range) (bounds : variant_bounds) (k : Z) (least : nat) (old : window_view) : window_view :=
  let rounds := clip_rounds span (anchor L q k) (end_of shot) in
  mk_view (wv_layer old) k rounds (variant_from bounds q k least) (row_start L shot (Z.to_nat (rr_begin rounds))) true (wv_slot old).

Lemma find_flag_ok b l s : find_flag b l = Some s → l !! s = Some b.
Proof.
  unfold find_flag. intros Hs. destruct (list_find (λ x, x = b) l) as [[i x]|] eqn:E; [|done]. injection Hs as <-.
  apply list_find_Some in E as (?&->&_). done.
Qed.

Section index.
Context bytes core (Hc : core_ok L bytes core) (Hsize : (Z.of_nat (length bytes) < 2 ^ 63)%Z) (Hd : done core = false) (least : nat).
Abbreviation k := (next_index_ (core_views core)).

(** What [index_ready] checks of a layer. *)
Definition layer_ready (l : nat) : Prop :=
  window_exists L core l k = Ok true → window_complete L core l k least = Ok true ∧
  ∃ flags s, out_ (core_views core) !! l = Some flags ∧ find_flag false flags = Some s.

Lemma index_ready_ok : ∃ st, index_ready L core k least = Ok st ∧
  match st with
  | None => ∃ l, l < length (layers_ L) ∧ window_exists L core l k = Ok true ∧
      (window_complete L core l k least = Ok false ∨ ∃ flags, out_ (core_views core) !! l = Some flags ∧ find_flag false flags = None)
  | Some any => (∀ l, l < length (layers_ L) → layer_ready l) ∧ (any = true ↔ ∃ l, l < length (layers_ L) ∧ window_exists L core l k = Ok true)
  end.
Proof.
  unfold index_ready.
  match goal with |- context [for_u 0 ?hi ?body ?init] =>
    destruct (for_u_inv 0 hi body (λ i st, match st with
      | None => ∃ l, l < length (layers_ L) ∧ window_exists L core l k = Ok true ∧
          (window_complete L core l k least = Ok false ∨ ∃ flags, out_ (core_views core) !! l = Some flags ∧ find_flag false flags = None)
      | Some any => (∀ l, l < i → layer_ready l) ∧ (any = true ↔ ∃ l, l < i ∧ window_exists L core l k = Ok true)
      end) init) as (st&Hst&Hinv) end; [lia| | |by exists st].
  - split; [lia|]. split; [done|]. intros (l&?&_). lia.
  - intros l st Hl Hinv. destruct st as [any|]; [|by apply returns_ok]. destruct Hinv as [Hall Hany].
    destruct (lookup_lt_is_Some_2 (layers_ L) l) as [layer Hlay]; [lia|].
    destruct (ly_layer L Hlayers l layer Hlay) as (_&commit&span&bounds&first&Hla).
    destruct (window_exists_ok bytes core Hc l layer commit span bounds first Hlay Hla k) as (e&He&_). rewrite He. cbn [mbind res_bind].
    destruct e; cbn [negb].
    + destruct (window_complete_ok core l layer commit span bounds first Hlay Hla k least) as (c&Hcc&_). rewrite Hcc. cbn [mbind res_bind].
      destruct c; cbn [negb]; [|apply returns_ok; exists l; split; [lia|]; by eauto].
      destruct (pk_layer L _ (co_pools _ _ _ Hc) l layer Hlay) as (pool&flags&_&Hfl&_). rewrite (vget_ok _ _ _ Hfl). cbn [mbind res_bind].
      apply returns_ok. case_bool_decide as Hff; [exists l; split; [lia|]; by eauto|].
      destruct (find_flag false flags) as [s|] eqn:Efl; [|done]. split; [|split; [intros _; exists l; split; [lia|done]|done]].
      intros l' Hl'. destruct (decide (l' = l)) as [->|]; [|apply Hall; lia]. intros _. eauto.
    + apply returns_ok. split.
      * intros l' Hl'. destruct (decide (l' = l)) as [->|]; [|apply Hall; lia]. intros He'. congruence.
      * rewrite Hany. split; intros (l'&Hl'&He'); exists l'; (split; [|done]); [lia|].
        destruct (decide (l' = l)) as [->|]; [congruence|lia].
Qed.

(** What happens to a layer when its index is handed over. *)
Definition layer_handed (l : nat) (pools : list (list window_view)) (out : list (list bool)) (views : list (option nat)) : Prop :=
  let v := core_views core in
  (window_exists L core l k = Ok false ∧ views !! l = Some None ∧ pools !! l = pools_ v !! l ∧ out !! l = out_ v !! l) ∨
  (window_exists L core l k = Ok true ∧ ∃ layer commit span bounds first s pool flags old,
     layers_ L !! l = Some layer ∧ layer_at L l (il_request layer) commit span bounds first ∧
     views !! l = Some (Some s) ∧ pools_ v !! l = Some pool ∧ out_ v !! l = Some flags ∧
     pool !! s = Some old ∧ flags !! s = Some false ∧
     pools !! l = Some (<[s := fresh_view (shot_of core) (il_request layer) span bounds k least old]> pool) ∧
     out !! l = Some (<[s := true]> flags)).

Lemma hand_over_ok : (∀ l, l < length (layers_ L) → layer_ready l) →
  ∃ pools out views, for_u 0 (length (layers_ L)) (hand_over L core k least) (pools_ (core_views core), out_ (core_views core), []) =
      Ok (pools, out, views) ∧
    length pools = length (layers_ L) ∧ length out = length (layers_ L) ∧ length views = length (layers_ L) ∧
    ∀ l, l < length (layers_ L) → layer_handed l pools out views.
Proof.
  intros Hready. set (v := core_views core) in *. pose proof (co_pools _ _ _ Hc) as Hp. fold v in Hp.
  destruct (for_u_inv 0 (length (layers_ L)) (hand_over L core k least) (λ i st,
    length st.1.1 = length (layers_ L) ∧ length st.1.2 = length (layers_ L) ∧ length st.2 = i ∧
    (∀ l, l < i → layer_handed l st.1.1 st.1.2 st.2) ∧ ∀ l, i ≤ l → st.1.1 !! l = pools_ v !! l ∧ st.1.2 !! l = out_ v !! l)
    (pools_ v, out_ v, [])) as ([[pools out] views]&Hrun&Hl1&Hl2&Hl3&Hall&_); cbn [fst snd] in *.
  - lia.
  - split_and!; [apply Hp..|done|lia|done].
  - intros l [[pools out] views] Hl (Hl1&Hl2&Hl3&Hall&Hrest). cbn [fst snd] in *.
    destruct (lookup_lt_is_Some_2 (layers_ L) l) as [layer Hlay]; [lia|].
    destruct (ly_layer L Hlayers l layer Hlay) as (_&commit&span&bounds&first&Hla).
    destruct (window_exists_ok bytes core Hc l layer commit span bounds first Hlay Hla k) as (e&He&_). unfold hand_over. rewrite He. cbn [mbind res_bind].
    destruct (Hrest l ltac:(lia)) as [Hpl Hol].
    assert (∀ l' pools' out' views', l' ≠ l → l' < l → layer_handed l' pools out views → pools' !! l' = pools !! l' → out' !! l' = out !! l' →
      views' !! l' = views !! l' → layer_handed l' pools' out' views') as Hkeep.
    { intros l' pools' out' views' _ _ Hh E1 E2 E3. unfold layer_handed in *. by rewrite E1, E2, E3. }
    destruct e; cbn [negb].
    + destruct (Hready l ltac:(lia) He) as (Hcm&flags&s&Hfl&Hff). rewrite (vget_ok _ _ _ Hlay). cbn [mbind res_bind].
      destruct (pk_layer L _ Hp l layer Hlay) as (pool&flags'&Hpool&Hfl'&Hlp&Hlf&_). fold v in Hfl. rewrite Hfl in Hfl'. injection Hfl' as <-.
      rewrite (vget_ok out l flags) by congruence. cbn [mbind res_bind]. rewrite Hff. rewrite (vget_ok pools l pool) by congruence. cbn [mbind res_bind].
      pose proof (find_flag_ok _ _ _ Hff) as Hs. pose proof (lookup_lt_Some _ _ _ Hs) as Hslt.
      destruct (lookup_lt_is_Some_2 pool s) as [old Hold]; [lia|]. rewrite (vget_ok _ _ _ Hold). cbn [mbind res_bind].
      rewrite !vset_ok by lia. cbn [mbind res_bind]. rewrite (vget_ok _ _ _ (la_spans _ _ _ _ _ _ _ Hla)), (vget_ok _ _ _ (la_bounds _ _ _ _ _ _ _ Hla)). cbn [mbind res_bind].
      destruct (ready_held bytes core Hc Hsize l layer commit span bounds first Hlay Hla least Hd He Hcm) as [[Hb Hend] _].
      change (match shot_of core with Some n => Z.of_nat n | None => (2 ^ 63 - 1)%Z end) with (end_of (shot_of core)).
      change (wr_offset (il_request layer) + k * period_ L)%Z with (anchor L (il_request layer) k).
      set (w := clip_rounds span (anchor L (il_request layer) k) (end_of (shot_of core))) in *.
      destruct (rounds_facts L _ _ _ _ (co_rounds _ _ _ Hc)) as (Hring&_&_). pose proof (size_formed bytes core Hc Hsize) as Hsz.
      destruct (rk_holds _ _ _ _ Hring (Z.to_nat (rr_begin w))) as (_&_&Hfr&_); [lia..|].
      assert (Nat.land (to_size (rr_begin w)) (ring_mask_ L) = Z.to_nat (rr_begin w) mod ring) as ->.
      { rewrite (ring_slot L Hok). rewrite <-(Z2Nat.id (rr_begin w)) at 1 by lia. by rewrite to_size_nat by lia. }
      rewrite (vget_ok _ _ _ Hfr). cbn [mbind res_bind]. repeat (rewrite vset_ok by lia; cbn [mbind res_bind]).
      apply returns_ok. cbn [fst snd]. rewrite !length_insert, length_app. split_and!; [done|done|simpl; lia| |].
      * intros l' Hl'. destruct (decide (l' = l)) as [->|Hne].
        -- right. split; [done|]. exists layer, commit, span, bounds, first, s, pool, flags, old. rewrite !list_lookup_insert_eq by lia.
           split_and!; try done. rewrite lookup_app_r by lia. by rewrite Hl3, Nat.sub_diag.
        -- apply Hkeep; [done|lia|apply Hall; lia|by apply list_lookup_insert_ne..|]. by rewrite lookup_app_l by lia.
      * intros l' Hl'. rewrite !list_lookup_insert_ne by lia. apply Hrest. lia.
    + apply returns_ok. cbn [fst snd]. rewrite length_app. split_and!; [done|done|simpl; lia| |intros l' Hl'; apply Hrest; lia].
      intros l' Hl'. destruct (decide (l' = l)) as [->|Hne].
      * left. split_and!; try done. rewrite lookup_app_r by lia. by rewrite Hl3, Nat.sub_diag.
      * apply Hkeep; [done|lia|apply Hall; lia|done..|]. by rewrite lookup_app_l by lia.
  - exists pools, out, views. done.
Qed.
End index.

(** ** The record of windows handed over *)

(** The rows of a publication, layer by layer, as [copy_window] gives them. *)
Definition collect_rows core (p : ingest_publication) : res (list (nat * window_rows)) :=
  for_u 0 (length (pub_views p)) (λ l acc,
    v ← vget (pub_views p) l;
    match v with
    | None => Ok acc
    | Some s =>
        pool ← vget (pools_ (core_views core)) l;
        view ← vget pool s;
        rows ← copy_window L core view;
        Ok (acc ++ [(l, rows)])
    end) [].

(** Window [k] of layer [l] as it was handed over: in the shot of [n] rounds once
    FINAL fixed it, before that in every shot that the measurements allow. *)
Definition handed_ok shot (bytes : list nat) (formed : nat) (h : nat * window_rows) : Prop :=
  ∃ layer commit span bounds first,
    layers_ L !! h.1 = Some layer ∧ layer_at L h.1 (il_request layer) commit span bounds first ∧
    let q := il_request layer in
    let k := rows_k h.2 in
    let w := rows_rounds h.2 in
    (first ≤ k)%Z ∧ (0 ≤ rr_begin w < rr_end w)%Z ∧ (rr_end w ≤ Z.of_nat formed)%Z ∧
    rows_first_row h.2 = row_start L shot (Z.to_nat (rr_begin w)) ∧ rows_detectors h.2 = dets L shot bytes w ∧
    match shot with
    | Some n => w = clip_rounds span (anchor L q k) (Z.of_nat n) ∧ rows_variant h.2 = variant_from bounds q k n ∧
                (anchor L q k + rr_begin commit < Z.of_nat n)%Z
    | None => w = mk_range (0 `max` (anchor L q k + rr_begin span)) (anchor L q k + rr_end span) ∧
              ∃ b, bounds_shot L bytes b ∧ rows_variant h.2 = variant_from bounds q k b ∧ key_terminal (rows_variant h.2) = None
    end.

(** Past the last index of layer [l] handed over. *)
Definition index_limit core (l : nat) : Z :=
  match shot_of core, final_instances_ (core_shot core) !! l with
  | Some _, Some i => (next_index_ (core_views core) `min` ir_end i)%Z
  | _, _ => next_index_ (core_views core)
  end.

Definition indices_of (l : nat) (handed : list (nat * window_rows)) : list Z :=
  rows_k ∘ snd <$> filter (λ h : nat * window_rows, h.1 = l) handed.

Record history_ok bytes core (handed : list (nat * window_rows)) : Prop := {
  hi_handed : Forall (handed_ok (shot_of core) bytes (formed core)) handed;
  hi_indices : ∀ l first, first_k_ L !! l = Some first → indices_of l handed = z_range first (index_limit core l);
  hi_out : ∀ l s view, view_out (core_views core) l s view → ∃ rows, (l, rows) ∈ handed ∧
    rows_k rows = wv_k view ∧ rows_rounds rows = wv_rounds view ∧ rows_variant rows = wv_variant view ∧ rows_first_row rows = wv_first_row view
}.

Lemma z_range_empty lo hi : (hi ≤ lo)%Z → z_range lo hi = [].
Proof. intros Hle. unfold z_range. by replace (Z.to_nat (hi - lo)) with 0 by lia. Qed.

Lemma z_range_snoc lo k : (lo ≤ k)%Z → z_range lo (k + 1) = z_range lo k ++ [k].
Proof.
  intros Hle. unfold z_range. replace (Z.to_nat (k + 1 - lo)) with (S (Z.to_nat (k - lo))) by lia.
  rewrite seq_S, fmap_app. cbn. do 2 f_equal. lia.
Qed.

Lemma indices_app l h1 h2 : indices_of l (h1 ++ h2) = indices_of l h1 ++ indices_of l h2.
Proof. unfold indices_of. by rewrite list.filter_app, fmap_app. Qed.

Lemma indices_none l handed : Forall (λ h, h.1 ≠ l) handed → indices_of l handed = [].
Proof. unfold indices_of. induction 1 as [|h handed Hne _ IH]; [done|]. by rewrite filter_cons_False. Qed.

(** ** The next index *)

Definition at_next core pools out publication : ingest_core :=
  mk_core (core_raw core) (core_formed core) (mk_pools pools out publication (next_index_ (core_views core) + 1)) (core_shot core).

Section step.
Context bytes core handed (Hc : core_ok L bytes core) (Hh : history_ok bytes core handed) (Hsize : (Z.of_nat (length bytes) < 2 ^ 63)%Z).
Context (Hd : done core = false).
Abbreviation k := (next_index_ (core_views core)).
Abbreviation v := (core_views core).

Lemma next_core pools out publication :
  pools_ok L (mk_pools pools out publication (k + 1)) →
  (∀ l s view, view_out (mk_pools pools out publication (k + 1)) l s view → rounds_held L (formed core) (wv_rounds view)) →
  core_ok L bytes (at_next core pools out publication).
Proof.
  intros Hp Hv. pose proof (lookup_lt_is_Some_2 (layers_ L) 0 (ly_some L Hlayers)) as [layer0 Hl0].
  destruct (ly_layer L Hlayers 0 layer0 Hl0) as (_&?&?&?&?&Hla0). pose proof (layer_period L _ _ _ _ _ _ Hla0) as Hper.
  destruct Hc as [H0 H1 H2 H3 H4 H5 H6]. split; unfold at_next; cbn [core_raw core_formed core_views core_shot next_index_]; try done.
  - destruct (shot_of core); [|done]. destruct H2 as (?&?&Hend). split_and!; try done. intros. apply Hend. lia.
  - lia.
  - intros _ l layer span Hl Hs. specialize (H6 Hd l layer span Hl Hs). unfold anchor in *. nia.
Qed.

(** The index of a layer that is passed over or handed over. *)
Lemma limit_next pools out publication l layer first e :
  layers_ L !! l = Some layer → first_k_ L !! l = Some first → window_exists L core l k = Ok e →
  z_range first (index_limit (at_next core pools out publication) l) = z_range first (index_limit core l) ++ (if (e : bool) then [k] else []).
Proof.
  intros Hl Hf He. destruct (ly_layer L Hlayers l layer Hl) as (_&commit&span&bounds&first'&Hla).
  rewrite (la_first _ _ _ _ _ _ _ Hla) in Hf. injection Hf as ->.
  destruct (window_exists_ok bytes core Hc l layer commit span bounds first Hl Hla k) as (e'&He'&Hex). rewrite He in He'. injection He' as <-.
  unfold index_limit. cbn [at_next core_shot core_views next_index_]. destruct (shot_of core) as [n|] eqn:Es.
  - destruct (final_instance bytes core Hc l layer Hl n Es) as (i&Hi&Hw). rewrite Hi.
    destruct (shot_pos bytes core Hc n Es) as [Hn _]. destruct (layer_instances L _ _ _ _ _ _ Hla n Hn) as (i'&Hw'&Hib&Hk). rewrite Hw in Hw'. injection Hw' as <-.
    specialize (Hk k). rewrite Hib in Hk. destruct e.
    + destruct (proj1 Hex eq_refl) as [Hfk Hnk]. specialize (Hnk n eq_refl). assert (first ≤ k < ir_end i)%Z as Hki by (apply Hk; done).
      rewrite !Z.min_l by lia. apply z_range_snoc. lia.
    + rewrite app_nil_r. assert (¬ (first ≤ k < ir_end i)%Z) as Hki.
      { intros [H1 H2]%Hk. destruct Hex as [_ Hex]. discriminate Hex. split; [done|]. intros n' [= <-]. done. }
      destruct (decide (first ≤ k)%Z); [f_equal; lia|]. rewrite !z_range_empty by lia. done.
  - destruct e.
    + apply z_range_snoc. by apply Hex.
    + rewrite app_nil_r. destruct (decide (first ≤ k)%Z) as [Hle|]; [|by rewrite !z_range_empty by lia].
      destruct Hex as [_ Hex]. discriminate Hex. split; [done|]. by intros n'.
Qed.

(** An index without windows is passed over. *)
Lemma skip_ok : (∀ l, l < length (layers_ L) → window_exists L core l k = Ok false) →
  let core' := at_next core (pools_ v) (out_ v) (publication_ v) in core_ok L bytes core' ∧ history_ok bytes core' handed.
Proof.
  intros Hno. split.
  - apply next_core; [destruct (co_pools _ _ _ Hc); by split|]. intros l s view Hv. by apply (co_views _ _ _ Hc l s).
  - destruct Hh as [H1 H2 H3]. split; [done| |done]. intros l first Hf.
    destruct (lookup_lt_is_Some_2 (layers_ L) l) as [layer Hl]; [rewrite <-(ly_first L Hlayers); by eapply lookup_lt_Some|].
    rewrite (H2 l first Hf). symmetry. rewrite (limit_next _ _ _ l layer first false Hl Hf (Hno l ltac:(by eapply lookup_lt_Some))). by rewrite app_nil_r.
Qed.

Section handed.
Context (least : nat) (Hleast : match shot_of core with Some n => least = n | None => bounds_shot L bytes least end).
Context (pools : list (list window_view)) (out : list (list bool)) (views : list (option nat)).
Context (Hlp : length pools = length (layers_ L)) (Hlo : length out = length (layers_ L)) (Hlv : length views = length (layers_ L)).
Context (Hall : ∀ l, l < length (layers_ L) → layer_handed core least l pools out views).
Context (Hready : ∀ l, l < length (layers_ L) → layer_ready core least l).
Abbreviation core' := (at_next core pools out (mk_publication k views)).

(** A view out is the old one, or the one just handed over. *)
Lemma handed_view l s view : view_out (core_views core') l s view →
  view_out v l s view ∨
  window_exists L core l k = Ok true ∧ ∃ layer commit span bounds first old,
    layers_ L !! l = Some layer ∧ layer_at L l (il_request layer) commit span bounds first ∧ views !! l = Some (Some s) ∧
    view = fresh_view (shot_of core) (il_request layer) span bounds k least old.
Proof.
  intros (pool'&flags'&Hp&Hv&Hf&Hs). cbn [at_next core_views pools_ out_] in Hp, Hf.
  destruct (Hall l) as [(_&_&Ep&Eo)|(He&layer&commit&span&bounds&first&s'&pool&flags&old&Hl&Hla&Hvs&Epl&Eol&Hold&Hfl&Ep&Eo)].
  { apply lookup_lt_Some in Hp. lia. }
  - left. exists pool', flags'. by rewrite <-Ep, <-Eo.
  - rewrite Ep in Hp. injection Hp as <-. rewrite Eo in Hf. injection Hf as <-. destruct (decide (s = s')) as [->|Hne].
    + right. split; [done|]. exists layer, commit, span, bounds, first, old. split_and!; try done.
      rewrite list_lookup_insert_eq in Hv by (by eapply lookup_lt_Some). by injection Hv as <-.
    + left. exists pool, flags. rewrite list_lookup_insert_ne in Hv by done. rewrite list_lookup_insert_ne in Hs by done. done.
Qed.

Lemma fresh_held l layer commit span bounds first old :
  layers_ L !! l = Some layer → layer_at L l (il_request layer) commit span bounds first → window_exists L core l k = Ok true →
  rounds_held L (formed core) (wv_rounds (fresh_view (shot_of core) (il_request layer) span bounds k least old)) ∧
  handed_ok (shot_of core) bytes (formed core) (l, rows_for L (shot_of core) bytes (fresh_view (shot_of core) (il_request layer) span bounds k least old)).
Proof.
  intros Hl Hla He. pose proof (lookup_lt_Some _ _ _ Hl) as Hlt. destruct (Hready l Hlt He) as (Hcm&_).
  destruct (ready_held bytes core Hc Hsize l layer commit span bounds first Hl Hla least Hd He Hcm) as [Hheld Hrng].
  destruct (window_exists_ok bytes core Hc l layer commit span bounds first Hl Hla k) as (e&He'&Hex). rewrite He in He'. injection He' as <-.
  destruct (proj1 Hex eq_refl) as [Hfk Hnk]. split; [done|].
  exists layer, commit, span, bounds, first. split; [done|]. split; [done|]. cbn [snd rows_for rows_k rows_rounds rows_variant rows_first_row rows_detectors fresh_view wv_k wv_rounds wv_variant wv_first_row].
  destruct Hheld as [Hb He']. split_and!; [done|lia|lia|lia|done|done|].
  destruct (shot_of core) as [n|] eqn:Es.
  - subst n. split_and!; [done..|]. by apply Hnk.
  - rewrite Hrng by done. split; [done|]. exists least. split_and!; [done..|].
    destruct (window_complete_ok core l layer commit span bounds first Hl Hla k least) as (c&Hc'&Hcomp). rewrite Hcm in Hc'. injection Hc' as <-. by apply Hcomp.
Qed.

Lemma handed_core : core_ok L bytes core'.
Proof.
  apply next_core.
  - split; cbn [pools_ out_]; [done..|]. intros l layer Hl. destruct (pk_layer L _ (co_pools _ _ _ Hc) l layer Hl) as (pool&flags&Hpl&Hfl&Hn1&Hn2&Hid).
    destruct (Hall l ltac:(by eapply lookup_lt_Some)) as [(_&_&Ep&Eo)|(He&layer'&commit&span&bounds&first&s&pool'&flags'&old&_&_&Hvs&Epl&Eol&Hold&_&Ep&Eo)].
    + exists pool, flags. rewrite Ep, Eo. done.
    + rewrite Hpl in Epl. injection Epl as <-. rewrite Hfl in Eol. injection Eol as <-. eexists _, _. split; [done|]. split; [done|].
      rewrite !length_insert. split_and!; [done..|]. intros s' view Hv. destruct (decide (s' = s)) as [->|Hne].
      * rewrite list_lookup_insert_eq in Hv by (by eapply lookup_lt_Some). injection Hv as <-. by apply (Hid s old).
      * rewrite list_lookup_insert_ne in Hv by done. by apply Hid.
  - intros l s view Hv. destruct (handed_view l s view Hv) as [Hold|(He&layer&commit&span&bounds&first&old&Hl&Hla&_&->)].
    + by apply (co_views _ _ _ Hc l s).
    + by apply (fresh_held l layer commit span bounds first old Hl Hla He).
Qed.

(** What [collect_rows] gathers. *)
Lemma collect_rows_ok : ∃ new, collect_rows core' (mk_publication k views) = Ok new ∧
  Forall (handed_ok (shot_of core) bytes (formed core)) new ∧
  (∀ l layer e, layers_ L !! l = Some layer → window_exists L core l k = Ok e → indices_of l new = if e then [k] else []) ∧
  (∀ l s pool view, views !! l = Some (Some s) → pools !! l = Some pool → pool !! s = Some view → (l, rows_for L (shot_of core) bytes view) ∈ new).
Proof.
  unfold collect_rows. cbn [pub_views]. rewrite Hlv.
  match goal with |- context [for_u 0 ?hi ?body ?init] =>
    destruct (for_u_inv 0 hi body (λ i new, Forall (λ h, h.1 < i ∧ handed_ok (shot_of core) bytes (formed core) h) new ∧
      (∀ l layer e, l < i → layers_ L !! l = Some layer → window_exists L core l k = Ok e → indices_of l new = if (e : bool) then [k] else []) ∧
      (∀ l s pool view, l < i → views !! l = Some (Some s) → pools !! l = Some pool → pool !! s = Some view → (l, rows_for L (shot_of core) bytes view) ∈ new))
      init) as (new&Hrun&Hf&Hi&Hin) end.
  - lia.
  - split_and!; [done|lia|lia].
  - intros l new [_ Hl] (Hf&Hi&Hin).
    assert (indices_of l new = []) as Hnil.
    { apply indices_none. eapply Forall_impl; [exact Hf|]. intros h [? _]. lia. }
    assert (∀ new, Forall (λ h, h.1 < l ∧ handed_ok (shot_of core) bytes (formed core) h) new → Forall (λ h, h.1 < l + 1 ∧ handed_ok (shot_of core) bytes (formed core) h) new) as Hup.
    { intros new' Hf'. eapply Forall_impl; [exact Hf'|]. intros h [? ?]. split; [lia|done]. }
    destruct (Hall l Hl) as [(He&Hv&_)|(He&layer&commit&span&bounds&first&s&pool&flags&old&Hlay&Hla&Hv&Epl&Eol&Hold&_&Ep&Eo)]; rewrite (vget_ok _ _ _ Hv); cbn [mbind res_bind].
    + apply returns_ok. split_and!; [by apply Hup| |].
      * intros l' layer' e Hl' Hlay' He'. destruct (decide (l' = l)) as [->|]; [|apply (Hi l' layer'); [lia|done..]].
        rewrite He in He'. by injection He' as <-.
      * intros l' s' pool' view Hl' Hv'. destruct (decide (l' = l)) as [->|]; [congruence|apply Hin; [lia|done]].
    + cbn [at_next core_views pools_]. rewrite (vget_ok _ _ _ Ep). cbn [mbind res_bind].
      set (view := fresh_view (shot_of core) (il_request layer) span bounds k least old) in *.
      assert (<[s:=view]> pool !! s = Some view) as Hview by (apply list_lookup_insert_eq; by eapply lookup_lt_Some).
      rewrite (vget_ok _ _ _ Hview). cbn [mbind res_bind]. destruct (fresh_held l layer commit span bounds first old Hlay Hla He) as [Hheld Hhok].
      destruct (rounds_facts L _ _ _ _ (co_rounds _ _ _ Hc)) as (Hring&Hform&Hst).
      rewrite (copy_window_ok L Hok (shot_of core) bytes core' view); [|done|exact Hheld|done|done|exact (size_formed bytes core Hc Hsize)].
      cbn [mbind res_bind]. apply returns_ok. split_and!.
      * apply Forall_app. split; [by apply Hup|]. apply Forall_singleton. split; [simpl; lia|exact Hhok].
      * intros l' layer' e Hl' Hlay' He'. rewrite indices_app. destruct (decide (l' = l)) as [->|Hne].
        -- rewrite He in He'. injection He' as <-. rewrite Hnil. unfold indices_of. rewrite filter_cons_True by done. done.
        -- rewrite (Hi l' layer' e) by (done || lia). unfold indices_of at 1. rewrite filter_cons_False by (simpl; congruence). by rewrite app_nil_r.
      * intros l' s' pool' view' Hl' Hv' Hp' Hw'. apply elem_of_app. destruct (decide (l' = l)) as [->|]; [right|left; apply (Hin l' s' pool' view'); [lia|done..]].
        rewrite Hv in Hv'. injection Hv' as <-. rewrite Ep in Hp'. injection Hp' as <-. rewrite Hview in Hw'. injection Hw' as <-. by left.
  - exists new. split; [exact Hrun|]. split_and!.
    + eapply Forall_impl; [exact Hf|]. by intros h [_ ?].
    + intros l layer e Hl He. apply (Hi l layer); [by eapply lookup_lt_Some|done..].
    + intros l s pool view Hv Hp. apply (Hin l s pool); [|done..]. rewrite <-Hlv. by eapply lookup_lt_Some.
Qed.

Lemma handed_history : ∃ new, collect_rows core' (mk_publication k views) = Ok new ∧ history_ok bytes core' (handed ++ new).
Proof.
  destruct collect_rows_ok as (new&Hnew&Hf&Hi&Hin). exists new. split; [exact Hnew|]. destruct Hh as [H1 H2 H3]. split.
  - apply Forall_app. done.
  - intros l first Hfk. destruct (lookup_lt_is_Some_2 (layers_ L) l) as [layer Hl]; [rewrite <-(ly_first L Hlayers); by eapply lookup_lt_Some|].
    destruct (ly_layer L Hlayers l layer Hl) as (_&commit&span&bounds&first'&Hla).
    destruct (window_exists_ok bytes core Hc l layer commit span bounds first' Hl Hla k) as (e&He&_).
    rewrite indices_app, (H2 l first Hfk), (Hi l layer e Hl He). symmetry. by apply (limit_next _ _ _ l layer).
  - intros l s view Hv. destruct (handed_view l s view Hv) as [Hold|(He&layer&commit&span&bounds&first&old&Hl&Hla&Hvs&->)].
    + destruct (H3 l s view Hold) as (rows&Hr&Hrest). exists rows. split; [apply elem_of_app; by left|done].
    + destruct Hv as (pool'&flags'&Hp&Hv&_&_). eexists. split; [apply elem_of_app; right; by eapply Hin|]. done.
Qed.
End handed.
End step.

(** ** [poll] *)

(** Why nothing is handed over. *)
Definition waits core (least : nat) : Prop :=
  done core = true ∨ ∃ l, l < length (layers_ L) ∧ let k := next_index_ (core_views core) in window_exists L core l k = Ok true ∧
    (window_complete L core l k least = Ok false ∨ ∃ flags, out_ (core_views core) !! l = Some flags ∧ find_flag false flags = None).

Lemma foldl_min_first (l : list Z) z : foldl Z.min z l = z ∨ foldl Z.min z l ∈ l.
Proof.
  revert z. induction l as [|x l IH]; intros z; cbn [foldl]; [by left|]. destruct (IH (z `min` x)%Z) as [->|Hin]; [|right; by right].
  destruct (Z.min_spec z x) as [[_ ->]|[_ ->]]; [by left|right; by left].
Qed.

Lemma first_index_at : ∃ l, first_k_ L !! l = Some (first_index L).
Proof.
  unfold first_index. pose proof (ly_some L Hlayers) as Hs. rewrite <-(ly_first L Hlayers) in Hs. destruct (first_k_ L) as [|k l]; [simpl in Hs; lia|].
  destruct (foldl_min_first l k) as [->|[i Hi]%list_elem_of_lookup]; [by exists 0|by exists (S i)].
Qed.

(** Before FINAL every index from the first on has a window. *)
Lemma index_has_window bytes core :
  core_ok L bytes core → shot_of core = None → ∃ l, l < length (layers_ L) ∧ window_exists L core l (next_index_ (core_views core)) = Ok true.
Proof.
  intros Hc Es. destruct first_index_at as [l Hl]. exists l. split; [rewrite <-(ly_first L Hlayers); by eapply lookup_lt_Some|].
  unfold window_exists. rewrite Es, (vget_ok _ _ _ Hl). cbn [mbind res_bind]. f_equal. apply Z.leb_le, Hc.
Qed.

Lemma done_next core : shot_of core ≠ None → done core = (index_end_ (core_shot core) <=? next_index_ (core_views core))%Z.
Proof. unfold done. by destruct (shot_of core). Qed.

Lemma poll_loop_ok bytes least : (Z.of_nat (length bytes) < 2 ^ 63)%Z → ∀ fuel core handed,
  core_ok L bytes core → history_ok bytes core handed →
  match shot_of core with Some n => least = n | None => bounds_shot L bytes least end →
  0 < fuel → (shot_of core ≠ None → Z.to_nat (index_end_ (core_shot core) - next_index_ (core_views core)) < fuel) →
  ∃ core' p, poll_loop fuel L core least = Ok (core', p) ∧ core_ok L bytes core' ∧
    core_raw core' = core_raw core ∧ core_formed core' = core_formed core ∧ core_shot core' = core_shot core ∧
    match p with
    | None => history_ok bytes core' handed ∧ waits core' least
    | Some p => ∃ new, collect_rows core' p = Ok new ∧ history_ok bytes core' (handed ++ new)
    end.
Proof.
  intros Hsize. induction fuel as [|fuel IH]; intros core handed Hc Hh Hleast Hf0 Hfuel; [lia|]. cbn [poll_loop].
  destruct (negb (bool_decide (shot_of core = None)) && (index_end_ (core_shot core) <=? next_index_ (core_views core))%Z) eqn:Edone.
  - exists core, None. split_and!; try done. left. apply andb_true_iff in Edone as [Hs%negb_true_iff%bool_decide_eq_false He]. by rewrite done_next.
  - assert (done core = false) as Hd.
    { destruct (decide (shot_of core = None)) as [Es|Es]; [unfold done; by rewrite Es|]. rewrite done_next by done.
      rewrite bool_decide_eq_false_2 in Edone by done. exact Edone. }
    destruct (index_ready_ok bytes core Hc least) as (st&->&Hst). cbn [mbind res_bind]. destruct st as [any|].
    + destruct Hst as [Hready Hany]. destruct any; cbn [negb].
      * destruct (hand_over_ok bytes core Hc Hsize Hd least Hready) as (pools&out&views&->&Hl1&Hl2&Hl3&Hall). cbn [mbind res_bind].
        eexists _, _. split; [done|]. split; [by eapply handed_core|].
        split_and!; try done. by eapply handed_history.
      * assert (∀ l, l < length (layers_ L) → window_exists L core l (next_index_ (core_views core)) = Ok false) as Hno.
        { intros l Hl. destruct (lookup_lt_is_Some_2 (layers_ L) l Hl) as [layer Hlay]. destruct (ly_layer L Hlayers l layer Hlay) as (_&commit&span&bounds&first&Hla).
          destruct (window_exists_ok bytes core Hc l layer commit span bounds first Hlay Hla (next_index_ (core_views core))) as ([]&He&_); [|done].
          destruct Hany as [_ Hany]. discriminate Hany. by exists l. }
        assert (shot_of core ≠ None) as Hs.
        { intros Es. destruct (index_has_window bytes core Hc Es) as (l&Hl&He). rewrite Hno in He by done. done. }
        destruct (skip_ok bytes core handed Hc Hh Hd Hno) as [Hc' Hh']. rewrite done_next in Hd by done. apply Z.leb_gt in Hd. specialize (Hfuel Hs).
        destruct (IH _ handed Hc' Hh' Hleast) as (core'&p&Hrun&Hrest); [lia|intros _; cbn; lia|]. exists core', p. split; [exact Hrun|exact Hrest].
    + exists core, None. split_and!; try done. right. done.
Qed.

Definition least_of core : nat := least_shot_rounds L (shot_of core) (core_raw core).

Lemma poll_ok bytes core handed :
  core_ok L bytes core → history_ok bytes core handed → (Z.of_nat (length bytes) < 2 ^ 63)%Z →
  ∃ core' p, poll L core = Ok (core', p) ∧ core_ok L bytes core' ∧
    core_raw core' = core_raw core ∧ core_formed core' = core_formed core ∧ core_shot core' = core_shot core ∧
    match p with
    | None => history_ok bytes core' handed ∧ (failed_ (core_shot core) = false → waits core' (least_of core))
    | Some p => ∃ new, collect_rows core' p = Ok new ∧ history_ok bytes core' (handed ++ new)
    end.
Proof.
  intros Hc Hh Hsize. unfold poll. destruct (failed_ (core_shot core)); [by exists core, None|].
  assert (match shot_of core with Some n => least_of core = n | None => bounds_shot L bytes (least_of core) end) as Hleast.
  { unfold least_of. pose proof (co_rounds _ _ _ Hc) as Hr. destruct (shot_of core) as [n|]; [done|]. by apply (least_ok L Hok bytes _ _ _ (ci_raw _ _ _ _ _ Hr)). }
  destruct (poll_loop_ok bytes (least_of core) Hsize (Z.to_nat (index_end_ (core_shot core) - next_index_ (core_views core)) + 1) core handed Hc Hh Hleast)
    as (core'&p&Hrun&Hrest); [lia|intros; lia|]. exists core', p. split; [exact Hrun|]. destruct p; [done|]. naive_solver.
Qed.
End poll.
