(* ===== verification/IngestLayout.v ===== *)
(** * The ingest core: what the constructor establishes

    A template that [make_ingest] accepts has rounds whose widths, rows and
    [D_sparse] are those that the layout stores by kind: the shots of the shortest
    lengths, which the constructor checks, hold every pair of neighbouring phases,
    so the checks speak for the shots of every length. *)

From S2P Require Import Prelude Rates Ordering Tensor SparseMatrix RoundLayout DetectorErrorModel ExtendedDem ChunkSpec ExperimentTemplate TemplateFacts WindowRequest WindowRequestFacts WindowPlace WindowBuild Ingest IngestRounds IngestViews.

Open Scope nat_scope.

Section template.
Context {R : Type} (t : experiment_template R) (Hok : template_ok t).
Abbreviation p := (length (t_prefix t)).
Abbreviation s := (length (t_suffix t)).

(** ** Phases of a shot *)

Definition meas (c : phase_chunks R) : nat := default 0 (pc_measurements c).

(** The measurements and rows of a shot fit the index type. *)
Definition shots_fit (n : nat) : Prop :=
  (Z.of_nat n < 2 ^ 64)%Z ∧ ∀ ps, shot_of t n ps →
    (Z.of_nat (sum_list_with meas ps) < 2 ^ 64)%Z ∧ (Z.of_nat (sum_list_with pc_rows ps) < 2 ^ 64)%Z.

(** Every phase of the chain has a measurement count. *)
Definition measured : Prop :=
  ∀ id, id ∈ chain_ids t → ∃ c m, map_at (t_phases t) id = Ok c ∧ pc_measurements c = Some m.

Lemma shot_size n : admits t n → t_repeats t = true → p + s + 1 ≤ n.
Proof. intros [Hn _] E. pose proof (ok_min t Hok E). lia. Qed.

Lemma phase_prefix n r : r < p → shot_phases t n !! r = t_prefix t !! r.
Proof. intros Hr. unfold shot_phases. destruct (t_repeats t); [by rewrite lookup_app_l|done]. Qed.

Lemma phase_bulk n r : t_repeats t = true → p ≤ r → r + s < n → shot_phases t n !! r = Some (t_bulk t).
Proof.
  intros E Hr Hn. unfold shot_phases. rewrite E, lookup_app_r by done. rewrite lookup_app_l by (rewrite length_replicate; lia).
  apply lookup_replicate_2. lia.
Qed.

Lemma phase_suffix n r : t_repeats t = true → admits t n → n ≤ r + s → shot_phases t n !! r = t_suffix t !! (r + s - n).
Proof.
  intros E Hn Hr. pose proof (shot_size n Hn E). unfold shot_phases. rewrite E, lookup_app_r by lia.
  rewrite lookup_app_r by (rewrite length_replicate; lia). rewrite length_replicate. f_equal. lia.
Qed.

(** A round of the shot of [n] rounds and one of the shot of [n'] rounds that
    have the same phases, before them too. *)
Record same_round (n r n' r' : nat) : Prop := {
  sr_lt : r' < n';
  sr_phase : shot_phases t n' !! r' = shot_phases t n !! r;
  sr_first : r' = 0 ↔ r = 0;
  sr_before : 0 < r → shot_phases t n' !! (r' - 1) = shot_phases t n !! (r - 1);
  sr_last : r' + 1 = n' ↔ r + 1 = n;
  sr_prefix : (r < p → r' = r) ∧ (p ≤ r → p ≤ r');
  sr_prefix_before : 0 < r → (r - 1 < p → r' - 1 = r - 1) ∧ (p ≤ r - 1 → p ≤ r' - 1)
}.

Definition probe : nat := if t_repeats t then t_min_rounds t + 2 else t_min_rounds t.

Lemma probe_admits : admits t probe.
Proof. unfold probe. split; destruct (t_repeats t); [lia|lia|done|done]. Qed.

(** The checked shots have every round of every shot. *)
Lemma probe_round n r : admits t n → r < n → ∃ n' r', t_min_rounds t ≤ n' ≤ probe ∧ admits t n' ∧ same_round n r n' r'.
Proof.
  intros Hn Hr. destruct (decide (n ≤ probe)) as [Hle|Hgt]; [exists n, r; destruct Hn; by repeat split|].
  assert (t_repeats t = true) as E.
  { destruct (t_repeats t) eqn:E; [done|]. destruct Hn as [_ Hf]. specialize (Hf E). unfold probe in Hgt. rewrite E in Hgt. lia. }
  pose proof (shot_size n Hn E) as Hs. pose proof (ok_min t Hok E) as Hm. unfold probe in *. rewrite E in *. set (n' := t_min_rounds t + 2) in *.
  assert (admits t n') as Hn' by (split; [unfold n'; lia|congruence]).
  assert (∃ r', r' < n' ∧ (r < p ∧ r' = r ∨ p ≤ r ∧ r + s < n ∧ p ≤ r' ∧ r' + s < n' ∧ (r = p ↔ r' = p) ∧ (r + s + 1 = n ↔ r' + s + 1 = n') ∨
    n ≤ r + s ∧ n' ≤ r' + s ∧ r' + s - n' = r + s - n)) as (r'&Hr'&Hcase).
  { destruct (decide (r < p)); [exists r; split; [unfold n'; lia|by left]|]. destruct (decide (n ≤ r + s)).
    - exists (n' + r - n). split; [unfold n'; lia|]. right. right. unfold n'. lia.
    - destruct (decide (r = p)) as [->|]; [exists p; split; [unfold n'; lia|right; left; unfold n'; lia]|].
      destruct (decide (r + s + 1 = n)); [exists (n' - s - 1)|exists (p + 1)]; (split; [unfold n'; lia|right; left; unfold n'; lia]). }
  exists n', r'. split; [unfold n'; lia|]. split; [done|].
  destruct Hcase as [[Hp ->]|[(H1&H2&H3&H4&H5&H6)|(H1&H2&H3)]].
  - split; try lia; [by rewrite !phase_prefix by lia|]. intros _. by rewrite !phase_prefix by lia.
  - split; try lia; [by rewrite !phase_bulk by done|]. intros H0. destruct (decide (r = p)) as [Hrp|Hrp].
    + rewrite !phase_prefix by lia. f_equal. lia.
    + by rewrite !phase_bulk by (done || lia).
  - split; try lia; [by rewrite !phase_suffix by done; f_equal|]. intros H0. destruct (decide (r + s = n)) as [Hrn|Hrn].
    + by rewrite !phase_bulk by (done || lia).
    + rewrite !phase_suffix by (done || lia). f_equal. lia.
Qed.

Lemma shots_fit_mono n n' : admits t n → admits t n' → n' ≤ n → shots_fit n → shots_fit n'.
Proof.
  intros Hn Hn' Hle [Hsz Hfit]. split; [lia|]. intros ps' Hs'. destruct (shot_exists t n Hok) as [ps Hs]. destruct (Hfit ps Hs) as [H1 H2].
  destruct (t_repeats t) eqn:E.
  2:{ unfold TemplateFacts.shot_of, shot_phases in Hs, Hs'. rewrite E in Hs, Hs'. by rewrite (built_as_unique _ _ _ _ Hs' Hs). }
  pose proof (shot_size n Hn E). pose proof (shot_size n' Hn' E).
  assert (∀ g : phase_chunks R → nat, sum_list_with g ps' ≤ sum_list_with g ps) as Hg; [|pose proof (Hg pc_rows); pose proof (Hg meas); lia].
  intros g. unfold TemplateFacts.shot_of, shot_phases in Hs, Hs'. rewrite E in Hs, Hs'.
  apply Forall2_app_inv_l in Hs as (a&b&Ha&Hb&->). apply Forall2_app_inv_l in Hb as (b1&c&Hb&Hc&->).
  apply Forall2_app_inv_l in Hs' as (a'&b'&Ha'&Hb'&->). apply Forall2_app_inv_l in Hb' as (b1'&c'&Hb'&Hc'&->).
  rewrite (built_as_unique _ _ _ _ Ha' Ha), (built_as_unique _ _ _ _ Hc' Hc), !sum_list_with_app.
  assert (sum_list_with g b1' ≤ sum_list_with g b1); [|lia].
  replace (n - p - s) with ((n' - p - s) + (n - n')) in Hb by lia. rewrite replicate_add in Hb. apply Forall2_app_inv_l in Hb as (x&y&Hx&_&->).
  rewrite (built_as_unique _ _ _ _ Hb' Hx), sum_list_with_app. lia.
Qed.

(** ** Offsets of a shot *)

Section shot.
Context n (Hadm : admits t n) (Hfit : shots_fit n) (Hmeas : measured).

Lemma phase_at r : r < n → ∃ id c m, shot_phases t n !! r = Some id ∧ map_at (t_phases t) id = Ok c ∧ pc_measurements c = Some m.
Proof.
  intros Hr. rewrite <-(length_shot_phases t Hok n Hadm) in Hr. destruct (lookup_lt_is_Some_2 _ _ Hr) as [id Hid].
  destruct (Hmeas id) as (c&m&Hc&Hm); [eapply shot_ids, list_elem_of_lookup_2, Hid|]. eauto 10.
Qed.

Lemma offsets : ∃ ps, shot_of t n ps ∧ length ps = n ∧ (∀ c, c ∈ ps → is_Some (pc_measurements c)) ∧
  (∀ r, r ≤ n → measurement_offset t r n = Ok (sum_list_with meas (take r ps))) ∧
  (∀ r, r ≤ n → row_offset t r n = Ok (sum_list_with pc_rows (take r ps))).
Proof.
  destruct (shot_exists t n Hok) as [ps Hs]. destruct Hfit as [Hsz Hf]. destruct (Hf ps Hs) as [Hm Hr]. exists ps. split; [done|].
  split; [by apply (shot_length t Hok n Hadm)|].
  assert (∀ c, c ∈ ps → is_Some (pc_measurements c)) as Hsome.
  { intros c [r Hc]%list_elem_of_lookup. destruct (Forall2_lookup_r _ _ _ _ _ Hs Hc) as (id&Hid&Hat).
    destruct (Hmeas id) as (c'&m&Hc'&Hm'); [eapply shot_ids, list_elem_of_lookup_2, Hid|]. rewrite Hat in Hc'. injection Hc' as <-. eauto. }
  split; [done|]. split.
  - intros r Hrn. unfold measurement_offset, meas. apply (sum_before_eq t Hok n Hadm Hsz ps); try done.
    + intros c Hc. destruct (Hsome c Hc) as [m ->]. done.
    + intros E. destruct (Hmeas (t_bulk t)) as (c&m&Hc&Hm'); [unfold chain_ids; rewrite E; set_solver|]. exists c. split; [done|]. by rewrite Hm'.
  - intros r Hrn. by apply (row_offset_eq t Hok n Hadm Hsz ps).
Qed.

Lemma sizes_at r id c m :
  r < n → shot_phases t n !! r = Some id → map_at (t_phases t) id = Ok c → pc_measurements c = Some m →
  width_of t r n = Ok m ∧ rows_of t r n = Ok (pc_rows c).
Proof.
  intros Hr Hid Hc Hm. destruct offsets as (ps&Hs&Hlen&_&Hmo&Hro). destruct Hfit as [Hsz Hf]. destruct (Hf ps Hs) as [Hmf Hrf].
  destruct (Forall2_lookup_l _ _ _ _ _ Hs Hid) as (c'&Hps&Hc'). rewrite Hc in Hc'. injection Hc' as <-.
  assert (∀ g : phase_chunks R → nat, (Z.of_nat (sum_list_with g ps) < 2 ^ 64)%Z →
    u64_sub (sum_list_with g (take (r + 1) ps)) (sum_list_with g (take r ps)) = g c) as Hsub.
  { intros g Hg. rewrite Nat.add_1_r, (take_S_r _ _ _ Hps), sum_list_with_app. cbn [sum_list_with].
    assert (sum_list_with g ps = sum_list_with g (take r ps) + (g c + sum_list_with g (drop (S r) ps))) as Hsum.
    { rewrite <-(take_drop_middle ps r c Hps) at 1. by rewrite sum_list_with_app. }
    rewrite u64_sub_le; lia. }
  unfold width_of, rows_of. rewrite !Hmo, !Hro by lia. cbn [mbind res_bind]. rewrite !Hsub by done. unfold meas. by rewrite Hm.
Qed.

Lemma d_at r id : r < n → shot_phases t n !! r = Some id → d_of t n r = (c ← get_phase (t_spec t) id; Ok (cs_D_sparse c)).
Proof.
  intros Hr Hid. unfold d_of. destruct Hfit as [Hsz _]. rewrite (t_phase_eq t Hok n Hadm Hsz r Hr), (vget_ok _ _ _ Hid). done.
Qed.
End shot.
End template.

(** ** Loops of the constructor *)

Lemma foldM_steps {S B} (f : B → S → res S) l s s' : foldM f l s = Ok s' → ∀ x, x ∈ l → ∃ a b, f x a = Ok b.
Proof.
  revert s. induction l as [|y l IH]; intros s Hf x Hx; [by apply elem_of_nil in Hx|]. cbn [foldM] in Hf. apply bind_ok in Hf as (s1&H1&Hf).
  apply elem_of_cons in Hx as [->|Hx]; [eauto|]. by eapply IH.
Qed.

Lemma for_u_steps {S} lo hi (f : nat → S → res S) s s' : for_u lo hi f s = Ok s' → ∀ i, lo ≤ i < hi → ∃ a b, f i a = Ok b.
Proof. intros Hf i Hi. apply (foldM_steps f _ _ _ Hf). apply elem_of_seq. lia. Qed.

(** A loop that appends, its elements by position. *)
Lemma foldM_app_inv {B X} (g : B → res X) l acc out :
  foldM (λ b acc, x ← g b; Ok (acc ++ [x])) l acc = Ok out →
  ∃ xs, out = acc ++ xs ∧ Forall2 (λ b x, g b = Ok x) l xs.
Proof.
  revert acc. induction l as [|b l IH]; intros acc Hf; cbn [foldM] in Hf; [injection Hf as <-; exists []; by rewrite app_nil_r|].
  apply bind_ok in Hf as (acc1&Hb&Hf). apply bind_ok in Hb as (x&Hx&[= <-]). destruct (IH _ Hf) as (xs&->&Hxs).
  exists (x :: xs). split; [by rewrite <-app_assoc|by constructor].
Qed.

Lemma foldl_min_nat l z : foldl min z l ≤ z ∧ (∀ x, x ∈ l → foldl min z l ≤ x) ∧ ∀ k, k ≤ z → (∀ x, x ∈ l → k ≤ x) → k ≤ foldl min z l.
Proof.
  revert z. induction l as [|y l IH]; intros z; cbn [foldl]; [split_and!; [done|by intros x ?%elem_of_nil|done]|].
  destruct (IH (z `min` y)) as (H1&H2&H3). split_and!; [lia|intros x [->|Hx]%elem_of_cons; [lia|by apply H2]|].
  intros k Hk Hall. apply H3; [apply Nat.min_glb; [done|apply Hall; by left]|intros; apply Hall; by right].
Qed.

Lemma foldl_max_nat l z : z ≤ foldl max z l ∧ ∀ x, x ∈ l → x ≤ foldl max z l.
Proof.
  revert z. induction l as [|y l IH]; intros z; cbn [foldl]; [split; [done|by intros x ?%elem_of_nil]|].
  destruct (IH (z `max` y)) as [H1 H2]. split; [lia|]. intros x [->|Hx]%elem_of_cons; [lia|by apply H2].
Qed.

Section measure.
Context {R : Type} (t : experiment_template R) (Hok : template_ok t).
Abbreviation p := (length (t_prefix t)).
Abbreviation s := (length (t_suffix t)).
Abbreviation pr := (probe t).

Lemma measure_rounds_inv n lo hi widths rows ds :
  measure_rounds t n lo hi = Ok (widths, rows, ds) → lo ≤ hi → length widths = hi - lo ∧
  ∀ j, j < hi - lo → ∃ w c d, width_of t (lo + j) n = Ok w ∧ rows_of t (lo + j) n = Ok c ∧ d_of t n (lo + j) = Ok d ∧
    widths !! j = Some w ∧ rows !! j = Some c ∧ ds !! j = Some d.
Proof.
  unfold measure_rounds, for_u. intros Hf Hle.
  assert (∀ l acc1 acc2 acc3, foldM (λ r st,
      let '(widths, rows, ds) := st in
      w ← width_of t r n; c ← rows_of t r n; d ← d_of t n r;
      Ok (widths ++ [w], rows ++ [c], ds ++ [d])) l (acc1, acc2, acc3) = Ok (widths, rows, ds) →
    ∃ ws cs dl, widths = acc1 ++ ws ∧ rows = acc2 ++ cs ∧ ds = acc3 ++ dl ∧ length ws = length l ∧
      ∀ j r, l !! j = Some r → ∃ w c d, width_of t r n = Ok w ∧ rows_of t r n = Ok c ∧ d_of t n r = Ok d ∧
        ws !! j = Some w ∧ cs !! j = Some c ∧ dl !! j = Some d) as Hloop.
  { clear. induction l as [|r l IH]; intros acc1 acc2 acc3 Hf; cbn [foldM] in Hf.
    - injection Hf as <- <- <-. exists [], [], []. rewrite !app_nil_r. done.
    - apply bind_ok in Hf as ([[b1 b2] b3]&Hb&Hf). apply bind_ok in Hb as (w&Hw&Hb). apply bind_ok in Hb as (c&Hc&Hb).
      apply bind_ok in Hb as (d&Hd&[= <- <- <-]). destruct (IH _ _ _ Hf) as (ws&cs&dl&->&->&->&Hl&Hall).
      exists (w :: ws), (c :: cs), (d :: dl). rewrite <-!app_assoc. split_and!; [done..|simpl; lia|].
      intros [|j] r' Hr'; [injection Hr' as <-; by eauto 10|]. by apply Hall. }
  destruct (Hloop _ _ _ _ Hf) as (ws&cs&dl&->&->&->&Hl&Hall). rewrite length_seq in Hl. split; [exact Hl|]. intros j Hj. apply Hall.
  apply lookup_seq. lia.
Qed.

Lemma measure_suffix_inv n lo hi rows ds :
  measure_suffix t n lo hi = Ok (rows, ds) → ∀ j, j < hi - lo → ∃ c d, rows_of t (lo + j) n = Ok c ∧ d_of t n (lo + j) = Ok d ∧
    rows !! j = Some c ∧ ds !! j = Some d.
Proof.
  unfold measure_suffix, for_u. intros Hf.
  assert (∀ l acc2 acc3, foldM (λ r st,
      let '(rows, ds) := st in
      c ← rows_of t r n; d ← d_of t n r;
      Ok (rows ++ [c], ds ++ [d])) l (acc2, acc3) = Ok (rows, ds) →
    ∃ cs dl, rows = acc2 ++ cs ∧ ds = acc3 ++ dl ∧ ∀ j r, l !! j = Some r → ∃ c d, rows_of t r n = Ok c ∧ d_of t n r = Ok d ∧
        cs !! j = Some c ∧ dl !! j = Some d) as Hloop.
  { clear. induction l as [|r l IH]; intros acc2 acc3 Hf; cbn [foldM] in Hf.
    - injection Hf as <- <-. exists [], []. rewrite !app_nil_r. done.
    - apply bind_ok in Hf as ([b2 b3]&Hb&Hf). apply bind_ok in Hb as (c&Hc&Hb).
      apply bind_ok in Hb as (d&Hd&[= <- <-]). destruct (IH _ _ Hf) as (cs&dl&->&->&Hall).
      exists (c :: cs), (d :: dl). rewrite <-!app_assoc. split_and!; [done..|].
      intros [|j] r' Hr'; [injection Hr' as <-; by eauto 10|]. by apply Hall. }
  destruct (Hloop _ _ _ Hf) as (cs&dl&->&->&Hall). intros j Hj. apply Hall. apply lookup_seq. lia.
Qed.

(** What [measure] stores. *)
Record measured_layout (L : ingest_layout R) : Prop := {
  ml_context : context_ L = t;
  ml_has_d : has_d_ L = has_D_sparse (t_spec t);
  ml_prefix_rounds : prefix_rounds_ L = p;
  ml_suffix_rounds : suffix_rounds_ L = s;
  ml_length : length (prefix_widths_ L) = p;
  ml_prefix : ∀ r, r < p → ∃ w c d, width_of t r pr = Ok w ∧ rows_of t r pr = Ok c ∧ d_of t pr r = Ok d ∧
    prefix_widths_ L !! r = Some w ∧ prefix_rows_ L !! r = Some c ∧ prefix_d_ L !! r = Some d ∧ c ≤ max_rows_ L;
  ml_bulk : t_repeats t = true → ∃ d, width_of t p pr = Ok (bulk_width_ L) ∧ rows_of t p pr = Ok (bulk_rows_ L) ∧ d_of t pr p = Ok d ∧
    bulk_d_ L = Some d ∧ bulk_rows_ L ≤ max_rows_ L;
  ml_suffix : t_repeats t = true → ∀ j, j < s → ∃ c d, rows_of t (pr - s + j) pr = Ok c ∧ d_of t pr (pr - s + j) = Ok d ∧
    suffix_rows_ L !! j = Some c ∧ suffix_d_ L !! j = Some d ∧ c ≤ max_rows_ L;
  ml_last : width_of t (pr - 1) pr = Ok (last_width_ L);
  ml_min : 1 ≤ min_forward_width_ L ∧ ∀ r, t_repeats t = true ∨ r + 1 < p → min_forward_width_ L ≤ forward_width L r;
  ml_max : (∀ r, forward_width L r ≤ max_width_ L) ∧ 1 ≤ last_width_ L ≤ max_width_ L;
  ml_fixed : t_repeats t = false → fixed_measurements_ L = u64 (sum_list (prefix_widths_ L))
}.

Lemma probe_bounds : (Z.of_nat pr < 2 ^ 64)%Z → 1 ≤ pr → u64_sub pr 1 = pr - 1 ∧ (t_repeats t = true → u64_sub pr s = pr - s ∧ p + s + 3 ≤ pr).
Proof.
  intros Hsz H1. split; [by apply u64_sub_le|]. intros E. pose proof (ok_min t Hok E). unfold probe in *. rewrite E in *. split; [|lia]. apply u64_sub_le; lia.
Qed.

Lemma measure_ok L : measure t = Ok L → (Z.of_nat pr < 2 ^ 64)%Z → 1 ≤ pr → measured_layout L.
Proof.
  intros Hm Hsz H1. destruct (probe_bounds Hsz H1) as [Hu1 Hus]. unfold measure in Hm.
  change (if t_repeats t then t_min_rounds t + 2 else t_min_rounds t) with pr in Hm. unfold prefix_rounds, suffix_rounds in Hm.
  apply bind_ok in Hm as ([[widths rows] ds]&Hpre&Hm). destruct (measure_rounds_inv _ _ _ _ _ _ Hpre ltac:(lia)) as [Hlen Hall].
  rewrite Nat.sub_0_r in Hlen, Hall. cbn [Nat.add] in Hall.
  apply bind_ok in Hm as ([[[bw br] bd] [srows sds]]&Hbulk&Hm). rewrite Hu1 in Hm.
  apply bind_ok in Hm as (lw&Hlw&Hm). apply bind_ok in Hm as (lr&Hlr&Hm). apply bind_ok in Hm as ([]&Hmin%throw_if_ok&[= <-]).
  apply Nat.eqb_neq in Hmin.
  destruct (foldl_min_nat widths (lw `min` (if t_repeats t then bw else lw))) as (Hm1&Hm2&_).
  destruct (foldl_max_nat widths (lw `max` bw)) as (Hx1&Hx2).
  destruct (foldl_max_nat rows (br `max` lr)) as (Hr1&Hr2). destruct (foldl_max_nat srows (foldl max (br `max` lr) rows)) as (Hs1&Hs2).
  set (forward := if t_repeats t then widths else take (p - 1) widths).
  destruct (foldl_min_nat forward (if t_repeats t then bw else lw)) as (Hf1&Hf2&Hf3).
  assert (∀ x, x ∈ forward → x ∈ widths) as Hsub by (intros x; unfold forward; destruct (t_repeats t); [done|]; intros [i [Hx _]%lookup_take_Some]%list_elem_of_lookup; by eapply list_elem_of_lookup_2).
  assert (t_repeats t = true → ∃ d, width_of t p pr = Ok bw ∧ rows_of t p pr = Ok br ∧ d_of t pr p = Ok d ∧ bd = Some d ∧ measure_suffix t pr (pr - s) pr = Ok (srows, sds)) as Hb.
  { intros E. rewrite E in Hbulk. apply bind_ok in Hbulk as (w&Hw&Hbulk). apply bind_ok in Hbulk as (c&Hc&Hbulk). apply bind_ok in Hbulk as (d&Hd&Hbulk).
    apply bind_ok in Hbulk as (st&Hst&Hbulk). injection Hbulk as <- <- <- ->. rewrite (proj1 (Hus E)) in Hst. by eauto 10. }
  assert (t_repeats t = false → bw = 0) as Hnb by (intros E; rewrite E in Hbulk; by injection Hbulk as <-).
  assert (∀ r, r < p → ∃ w, widths !! r = Some w ∧ w ∈ widths) as Hw by (intros r Hr; destruct (Hall r Hr) as (w&c&d&_&_&_&Hw&_); exists w; split; [done|by eapply list_elem_of_lookup_2]).
  split; cbn [context_ has_d_ prefix_rounds_ suffix_rounds_ prefix_widths_ prefix_rows_ prefix_d_ bulk_width_ bulk_rows_ bulk_d_ suffix_rows_ suffix_d_ last_width_ min_forward_width_ fixed_measurements_ max_width_ max_rows_]; try done.
  - destruct (t_repeats t) eqn:E; [done|]. by destruct (ok_fixed t Hok E) as [-> _].
  - intros r Hr. destruct (Hall r Hr) as (w&c&d&?&?&?&?&Hc&?). exists w, c, d. split_and!; try done. apply list_elem_of_lookup_2 in Hc. specialize (Hr2 c Hc). lia.
  - intros E. destruct (Hb E) as (d&?&?&?&?&_). exists d. split_and!; try done. lia.
  - intros E j Hj. destruct (Hb E) as (_&_&_&_&_&Hsuf). destruct (measure_suffix_inv _ _ _ _ _ Hsuf j) as (c&d&?&?&Hc&?); [destruct (Hus E); lia|].
    exists c, d. split_and!; try done. apply Hs2. by eapply list_elem_of_lookup_2.
  - unfold forward_width. cbn [prefix_rounds_ prefix_widths_ bulk_width_]. split.
    + apply Hf3; [destruct (t_repeats t); lia|]. intros x Hx%Hsub. specialize (Hm2 x Hx). lia.
    + intros r Hr. destruct (Nat.ltb_spec r p) as [Hlt|Hge]; [|destruct Hr as [E|?]; [rewrite E in Hf1 |- *; exact Hf1|lia]].
      destruct (Hw r Hlt) as (w&Hwr&_). rewrite Hwr. cbn [from_option id]. apply Hf2. unfold forward. destruct (t_repeats t); [by eapply list_elem_of_lookup_2|].
      destruct Hr as [?|Hr]; [done|]. apply list_elem_of_lookup. exists r. by rewrite lookup_take_lt by lia.
  - unfold forward_width. cbn [prefix_rounds_ prefix_widths_ bulk_width_]. split; [|lia].
    intros r. destruct (Nat.ltb_spec r p) as [Hlt|Hge]; [|lia]. destruct (Hw r Hlt) as (w&Hwr&Hin). rewrite Hwr. by apply Hx2.
  - intros E. by rewrite E.
Qed.

(** The loop of [sum_before] ran over every phase of the chain. *)
Lemma sizes_known (size : phase_chunks R → res nat) x :
  sum_before t pr pr size = Ok x → (Z.of_nat pr < 2 ^ 64)%Z → 1 ≤ pr →
  ∀ id, id ∈ chain_ids t → ∃ c m, map_at (t_phases t) id = Ok c ∧ size c = Ok m.
Proof.
  intros Hsum Hsz H1 id Hid. destruct (probe_bounds Hsz H1) as [_ Hus]. unfold sum_before in Hsum.
  apply bind_ok in Hsum as ([]&_&Hsum). apply bind_ok in Hsum as (t1&Hp&Hsum). apply bind_ok in Hsum as (t2&Hb&Hsuf).
  assert (p ≤ pr) as Hpp.
  { clear Hb. destruct (t_repeats t) eqn:E; [destruct (Hus eq_refl); lia|]. unfold probe. rewrite E. destruct (ok_fixed t Hok E). lia. }
  assert (∀ (m : nat) ids, (∀ i, i < m → ∃ a b, (id ← vget ids i; n ← (c ← map_at (t_phases t) id; size c); Ok (u64 (a + n))) = Ok b) → length ids ≤ m →
    id ∈ ids → ∃ c m, map_at (t_phases t) id = Ok c ∧ size c = Ok m) as Hloop.
  { intros m ids Hst Hl [i Hi]%list_elem_of_lookup. pose proof (lookup_lt_Some _ _ _ Hi). destruct (Hst i ltac:(lia)) as (a&b&Hab).
    rewrite (vget_ok _ _ _ Hi) in Hab. cbn [mbind res_bind] in Hab. apply bind_ok in Hab as (n&Hn&_). apply bind_ok in Hn as (c&Hc&Hn). eauto. }
  unfold chain_ids in Hid. rewrite !elem_of_app in Hid. destruct Hid as [Hid|[Hid|Hid]].
  - apply (Hloop p (t_prefix t)); [|done|done]. intros i Hi. apply (for_u_steps _ _ _ _ _ Hp). lia.
  - destruct (t_repeats t) eqn:E; [|destruct (ok_fixed t Hok E) as [Hn _]; rewrite Hn in Hid; by apply elem_of_nil in Hid].
    destruct (Hus eq_refl) as [Hu Hle]. rewrite Hu in Hsuf. apply (Hloop s (t_suffix t)); [|done|done].
    intros i Hi. destruct (for_u_steps _ _ _ _ _ Hsuf (pr - s + i)) as (a&b&Hab); [lia|]. exists a, b.
    by replace (pr - s + i - (pr - s)) with i in Hab by lia.
  - destruct (t_repeats t) eqn:E; [|by apply elem_of_nil in Hid]. apply list_elem_of_singleton in Hid as ->. destruct (Hus eq_refl) as [_ Hle].
    rewrite (proj2 (Nat.ltb_lt _ _)) in Hb by lia. cbn [andb] in Hb. apply bind_ok in Hb as (n&Hn&_). apply bind_ok in Hn as (c&Hc&Hn). eauto.
Qed.

Lemma measure_measured L : measured_layout L → (Z.of_nat pr < 2 ^ 64)%Z → 1 ≤ pr → measured t.
Proof.
  intros HL Hsz H1 id Hid. pose proof (ml_last L HL) as Hlast. unfold width_of in Hlast. apply bind_ok in Hlast as (b&Hb&_).
  rewrite Nat.sub_add in Hb by done. destruct (sizes_known _ b Hb Hsz H1 id Hid) as (c&m&Hc&Hm). exists c.
  destruct (pc_measurements c) as [m'|] eqn:E; [|done]. by exists m'.
Qed.
End measure.

(** ** Rounds by kind *)

Lemma counted_rows (bound : nat) d k out :
  foldM (λ index counted,
    if (index =? -1)%Z then Ok (counted + 1) else
    _ ← throw_if (u64 bound <=? to_size index) (bad_ingest "a phase's D_sparse reads a measurement past its round and the one before");
    Ok counted) d k = Ok out →
  Forall (λ i, i = (-1)%Z ∨ to_size i < bound) d ∧ out = k + length (filter (λ i, i = (-1)%Z) d).
Proof.
  revert k. induction d as [|i d IH]; intros k Hf; cbn [foldM] in Hf; [injection Hf as <-; split; [done|simpl; lia]|].
  rewrite filter_cons. destruct (Z.eqb_spec i (-1)) as [->|Hne].
  - rewrite decide_True by done. cbn [mbind res_bind] in Hf. destruct (IH _ Hf) as [H1 ->]. split; [constructor; [by left|done]|simpl; lia].
  - rewrite decide_False by done. apply bind_ok in Hf as (k'&Hk&Hf). apply bind_ok in Hk as ([]&Hk%throw_if_ok&[= <-]).
    destruct (IH _ Hf) as [H1 ->]. split; [constructor; [right|done]|done]. apply Nat.leb_gt in Hk.
    assert (u64 bound ≤ bound); [|lia]. unfold wrap. pose proof (Z.mod_le (Z.of_nat bound) (2 ^ 64)). lia.
Qed.

Lemma double_until_ok n : ∀ fuel i r, double_until fuel (2 ^ i) n = Ok r → i + fuel ≤ 64 → ∃ k, r = 2 ^ k ∧ n ≤ r.
Proof.
  induction fuel as [|fuel IH]; intros i r Hr Hi; cbn [double_until] in Hr; [done|]. destruct (Nat.ltb_spec (2 ^ i) n) as [Hlt|Hge].
  - destruct fuel as [|fuel]; [done|]. assert (u64 (2 ^ i * 2) = 2 ^ (i + 1)) as E.
    { rewrite Nat.add_1_r, Nat.pow_succ_r', Nat.mul_comm. apply wrap_small. rewrite Nat2Z.inj_mul, Nat2Z.inj_pow.
      change (Z.of_nat 2) with 2%Z. rewrite <-Z.pow_succ_r by lia. apply Z.pow_lt_mono_r; lia. }
    rewrite E in Hr. apply (IH (i + 1)); [done|lia].
  - injection Hr as <-. eauto.
Qed.

Section layout.
Context {R : Type} `{RateOps R} (t : experiment_template R) (Htok : template_ok t).
Context (L : ingest_layout R) (HL : measured_layout t L) (Hfit : shots_fit t (probe t)) (H1 : 1 ≤ probe t).
Context (Hchecked : ∀ n r, t_min_rounds t ≤ n ≤ probe t → r < n → check_round_form L n r = Ok tt).
Abbreviation p := (length (t_prefix t)).
Abbreviation s := (length (t_suffix t)).
Abbreviation pr := (probe t).

Lemma Hmeas : measured t.
Proof. apply (measure_measured t Htok L HL (proj1 Hfit) H1). Qed.

Lemma fit_probe n : admits t n → n ≤ pr → shots_fit t n.
Proof. intros Hn Hle. by apply (shots_fit_mono t Htok pr n (probe_admits t)). Qed.

(** The sizes of a round of the probe shot are those of its phase. *)
Lemma probe_sizes n r id c m :
  admits t n → n ≤ pr → r < n → shot_phases t n !! r = Some id → map_at (t_phases t) id = Ok c → pc_measurements c = Some m →
  width_of t r n = Ok m ∧ rows_of t r n = Ok (pc_rows c) ∧ d_of t n r = (ph ← get_phase (t_spec t) id; Ok (cs_D_sparse ph)).
Proof.
  intros Hn Hle Hr Hid Hc Hm. pose proof (fit_probe n Hn Hle) as Hf.
  destruct (sizes_at t Htok n Hn Hf Hmeas r id c m Hr Hid Hc Hm) as [Hw Hrw]. split_and!; [done..|]. by apply (d_at t Htok n Hn Hf).
Qed.

Lemma width_same n r n' r' : same_round t n r n' r' → width_at L (Some n') r' = width_at L (Some n) r.
Proof.
  intros [_ _ _ _ Hl [Hp1 Hp2] _]. unfold width_at, forward_width. rewrite (ml_prefix_rounds t L HL).
  destruct (Nat.eqb_spec (r' + 1) n'), (Nat.eqb_spec (r + 1) n); [done|naive_solver..|].
  destruct (Nat.ltb_spec r p) as [Hr|Hr]; [by rewrite (Hp1 Hr), (proj2 (Nat.ltb_lt _ _))|].
  specialize (Hp2 Hr). by rewrite (proj2 (Nat.ltb_ge _ _)).
Qed.

Lemma before_same n r n' r' : r < n → same_round t n r n' r' → before_width_at L (Some n') r' = before_width_at L (Some n) r.
Proof.
  intros Hr Hs. pose proof Hs as [Hlt _ Hf _ _ _ Hb]. unfold before_width_at.
  destruct (Nat.eqb_spec r' 0), (Nat.eqb_spec r 0); [done|naive_solver..|]. destruct (Hb ltac:(lia)) as [Hb1 Hb2].
  rewrite !width_before by lia. cbn [width_at]. unfold forward_width. rewrite (ml_prefix_rounds t L HL).
  destruct (Nat.ltb_spec (r - 1) p) as [Hp|Hp]; [by rewrite (Hb1 Hp), (proj2 (Nat.ltb_lt _ _))|].
  specialize (Hb2 Hp). by rewrite (proj2 (Nat.ltb_ge _ _)).
Qed.

(** What the check of a round says. *)
Lemma check_width n r : t_min_rounds t ≤ n ≤ pr → r < n → width_of t r n = Ok (width_at L (Some n) r).
Proof.
  intros Hn Hr. pose proof (Hchecked n r Hn Hr) as Hc. unfold check_round_form in Hc. rewrite (ml_context t L HL) in Hc.
  apply bind_ok in Hc as (w&Hw&Hc). apply bind_ok in Hc as (b&_&Hc). apply bind_ok in Hc as (c&_&Hc). apply bind_ok in Hc as (d&_&Hc).
  apply bind_ok in Hc as ([]&Hwe%throw_if_ok&_). apply negb_false_iff, Nat.eqb_eq in Hwe. by rewrite Hw, Hwe.
Qed.

Lemma check_form n r c d : t_min_rounds t ≤ n ≤ pr → r < n → rows_of t r n = Ok c → d_of t n r = Ok d →
  form_fits L d c r (before_width_at L (Some n) r) (width_at L (Some n) r).
Proof.
  intros Hn Hr Hc Hd. pose proof (Hchecked n r Hn Hr) as Hk. unfold check_round_form in Hk. rewrite (ml_context t L HL) in Hk.
  rewrite (check_width n r Hn Hr), Hc, Hd in Hk. cbn [mbind res_bind] in Hk.
  assert ((if r =? 0 then Ok 0 else width_of t (r - 1) n) = Ok (before_width_at L (Some n) r)) as Hb.
  { unfold before_width_at. destruct (Nat.eqb_spec r 0); [done|]. apply check_width; [done|lia]. }
  rewrite Hb in Hk. cbn [mbind res_bind] in Hk. apply bind_ok in Hk as ([]&_&Hk). apply bind_ok in Hk as ([]&Hm%throw_if_ok&Hk).
  unfold form_fits. destruct (has_d_ L); cbn [negb andb] in *.
  - apply bind_ok in Hk as (counted&Hf&Hk%throw_if_ok). apply negb_false_iff, Nat.eqb_eq in Hk as ->.
    destruct (counted_rows _ _ _ _ Hf) as [Hall ->]. split; [done|]. by rewrite length_sparse_rows.
  - apply orb_false_iff in Hm as [He%negb_false_iff%Nat.eqb_eq Hm]. split; [done|]. intros H0. apply andb_false_iff in Hm as [?%Nat.ltb_ge|?%negb_false_iff%Nat.eqb_eq]; [lia|done].
Qed.

(** [round_form] reads the phase of the round. *)
Lemma round_form_phase n r id c m :
  admits t n → r < n → shot_phases t n !! r = Some id → map_at (t_phases t) id = Ok c → pc_measurements c = Some m →
  ∃ d, round_form L (Some n) r = Ok (Some d, pc_rows c) ∧ pc_rows c ≤ max_rows_ L ∧ (ph ← get_phase (t_spec t) id; Ok (cs_D_sparse ph)) = Ok d.
Proof.
  intros Hn Hr Hid Hc Hm. pose proof (probe_admits t) as Hpa. destruct (probe_bounds t Htok (proj1 Hfit) H1) as [_ Hus].
  assert (∀ r', r' < pr → shot_phases t pr !! r' = Some id → rows_of t r' pr = Ok (pc_rows c) ∧
    d_of t pr r' = (ph ← get_phase (t_spec t) id; Ok (cs_D_sparse ph))) as Hread.
  { intros r' Hr' Hid'. by destruct (probe_sizes pr r' id c m Hpa ltac:(lia) Hr' Hid' Hc Hm) as (_&?&?). }
  unfold round_form. rewrite (ml_prefix_rounds t L HL), (ml_suffix_rounds t L HL). destruct (Nat.ltb_spec r p) as [Hp|Hp].
  - destruct (ml_prefix t L HL r Hp) as (w&c'&d&_&Hc'&Hd&_&Hlc&Hld&Hmr). rewrite phase_prefix in Hid by done.
    destruct (Hread r) as [E1 E2]; [destruct (t_repeats t) eqn:E; [destruct (Hus eq_refl); lia|unfold probe; rewrite E; destruct (ok_fixed t Htok E); lia]|by rewrite phase_prefix|].
    rewrite Hc' in E1. injection E1 as ->. rewrite Hd in E2. exists d. rewrite (vget_ok _ _ _ Hld), (vget_ok _ _ _ Hlc). done.
  - assert (t_repeats t = true) as E.
    { destruct (t_repeats t) eqn:E; [done|]. destruct (ok_fixed t Htok E) as [_ Hm']. destruct Hn as [_ Hf]. specialize (Hf E). lia. }
    destruct (Hus E) as [_ Hpp]. destruct (Nat.leb_spec n (r + s)) as [Hs|Hs].
    + rewrite phase_suffix in Hid by done. destruct (ml_suffix t L HL E (r + s - n)) as (c'&d&Hc'&Hd&Hlc&Hld&Hmr); [lia|].
      destruct (Hread (pr - s + (r + s - n))) as [E1 E2]; [lia|rewrite phase_suffix by (done || lia); rewrite <-Hid; f_equal; lia|].
      rewrite Hc' in E1. injection E1 as ->. rewrite Hd in E2. exists d. rewrite (vget_ok _ _ _ Hld), (vget_ok _ _ _ Hlc). done.
    + rewrite phase_bulk in Hid by done. injection Hid as <-. destruct (ml_bulk t L HL E) as (d&_&Hc'&Hd&Hbd&Hmr).
      destruct (Hread p) as [E1 E2]; [lia|by rewrite phase_bulk by (done || lia)|]. rewrite Hc' in E1. injection E1 as E1. rewrite E1 in Hmr |- *. rewrite Hd in E2. exists d. rewrite Hbd. done.
Qed.

Lemma layout_form n r : admits t n → r < n → ∃ d rows, round_form L (Some n) r = Ok (Some d, rows) ∧ rows ≤ max_rows_ L ∧
  form_fits L d rows r (before_width_at L (Some n) r) (width_at L (Some n) r).
Proof.
  intros Hn Hr. destruct (phase_at t Htok n Hn Hmeas r Hr) as (id&c&m&Hid&Hc&Hm).
  destruct (round_form_phase n r id c m Hn Hr Hid Hc Hm) as (d&Hf&Hmr&Hd). exists d, (pc_rows c). split; [done|]. split; [done|].
  destruct (probe_round t Htok n r Hn Hr) as (n'&r'&Hle&Hn'&Hs). rewrite <-(width_same _ _ _ _ Hs), <-(before_same _ _ _ _ Hr Hs).
  assert (form_fits L d (pc_rows c) r' (before_width_at L (Some n') r') (width_at L (Some n') r')) as Hff.
  { destruct (probe_sizes n' r' id c m Hn' ltac:(lia) (sr_lt _ _ _ _ _ Hs) ltac:(by rewrite (sr_phase _ _ _ _ _ Hs)) Hc Hm) as (_&Hrw&Hdd).
    apply check_form; [done|apply Hs|done|by rewrite Hdd]. }
  unfold form_fits in *. destruct (has_d_ L); [done|]. destruct Hff as [? Hb]. split; [done|]. intros Hpos. apply Hb.
  destruct (sr_first _ _ _ _ _ Hs). lia.
Qed.

(** The offsets of every shot that fits. *)
Lemma layout_width n r : admits t n → r < n → ∃ id c, shot_phases t n !! r = Some id ∧ map_at (t_phases t) id = Ok c ∧
  pc_measurements c = Some (width_at L (Some n) r) ∧ pc_rows c = (form_at L (Some n) r).2 ∧
  (ph ← get_phase (t_spec t) id; Ok (cs_D_sparse ph)) = Ok (form_at L (Some n) r).1.
Proof.
  intros Hn Hr. destruct (phase_at t Htok n Hn Hmeas r Hr) as (id&c&m&Hid&Hc&Hm). exists id, c. split; [done|]. split; [done|].
  destruct (round_form_phase n r id c m Hn Hr Hid Hc Hm) as (d&Hf&_&Hd). unfold form_at. rewrite Hf. split; [|done].
  destruct (probe_round t Htok n r Hn Hr) as (n'&r'&Hle&Hn'&Hs). rewrite Hm. f_equal. rewrite <-(width_same _ _ _ _ Hs).
  destruct (probe_sizes n' r' id c m Hn' ltac:(lia) (sr_lt _ _ _ _ _ Hs) ltac:(by rewrite (sr_phase _ _ _ _ _ Hs)) Hc Hm) as (Hw&_&_).
  rewrite check_width in Hw by (done || apply Hs). congruence.
Qed.

Lemma layout_offsets n : admits t n → shots_fit t n → ∀ r, r ≤ n →
  measurement_offset t r n = Ok (start_of L (Some n) r) ∧ row_offset t r n = Ok (row_start L (Some n) r).
Proof.
  intros Hn Hf. destruct (offsets t Htok n Hn Hf Hmeas) as (ps&Hs&Hlen&Hsome&Hmo&Hro).
  assert (∀ r, r ≤ n → sum_list_with meas (take r ps) = start_of L (Some n) r ∧ sum_list_with pc_rows (take r ps) = row_start L (Some n) r) as Hsum.
  { induction r as [|r IH]; intros Hr; [done|]. destruct (IH ltac:(lia)) as [IH1 IH2].
    destruct (layout_width n r Hn ltac:(lia)) as (id&c&Hid&Hc&Hm&Hrw&_). destruct (Forall2_lookup_l _ _ _ _ _ Hs Hid) as (c'&Hps&Hc').
    rewrite Hc in Hc'. injection Hc' as <-. rewrite (take_S_r _ _ _ Hps), !sum_list_with_app. cbn [sum_list_with start_of row_start].
    rewrite IH1, IH2, Hrw. unfold meas. rewrite Hm. cbn. lia. }
  intros r Hr. destruct (Hsum r Hr) as [E1 E2]. by rewrite Hmo, Hro, E1, E2.
Qed.
End layout.

(** ** Layers *)

(** What [collect_layer] leaves of a layer. *)
Definition layer_collected {R} `{RateOps R} (t : experiment_template R) (period : Z) (layer : ingest_layer R) (g : layer_geometry)
    (first : Z) (span : round_range) (bounds : variant_bounds) : Prop :=
  let q := il_request layer in
  check_request q = Ok tt ∧ wr_period q = period ∧ 1 ≤ il_max_views layer ≤ lg_max_views g ∧
  (∃ i, window_instances q 0 = Ok i ∧ ir_begin i = first) ∧ zone_span q = Ok span ∧ variant_bounds_of t q = Ok bounds ∧
  ∃ reach, model_reach t q = Ok reach ∧ (lg_lowest g ≤ wr_offset q + rr_begin span)%Z ∧ (wr_offset q + rr_end reach ≤ lg_highest g)%Z.

Lemma collect_inv {R} `{RateOps R} (t : experiment_template R) period layers g0 g :
  foldM (collect_layer t period) layers g0 = Ok g →
  ∃ fs sps bs, lg_first_k g = lg_first_k g0 ++ fs ∧ lg_spans g = lg_spans g0 ++ sps ∧ lg_bounds g = lg_bounds g0 ++ bs ∧
    length fs = length layers ∧ length sps = length layers ∧
    (lg_lowest g ≤ lg_lowest g0)%Z ∧ (lg_highest g0 ≤ lg_highest g)%Z ∧ lg_max_views g0 ≤ lg_max_views g ∧
    ∀ j layer, layers !! j = Some layer → ∃ first span bounds,
      fs !! j = Some first ∧ sps !! j = Some span ∧ bs !! j = Some bounds ∧ layer_collected t period layer g first span bounds.
Proof.
  revert g0. induction layers as [|layer layers IH]; intros g0 Hf; cbn [foldM] in Hf.
  - injection Hf as <-. exists [], [], []. rewrite !app_nil_r. split_and!; done || lia.
  - apply bind_ok in Hf as (g1&H1&Hf). unfold collect_layer in H1. apply bind_ok in H1 as ([]&Hq&H1). apply bind_ok in H1 as ([]&Hp%throw_if_ok&H1).
    apply bind_ok in H1 as ([]&Hv%throw_if_ok&H1). apply bind_ok in H1 as (i&Hi&H1). apply bind_ok in H1 as (span&Hs&H1).
    apply bind_ok in H1 as (bounds&Hb&H1). apply bind_ok in H1 as (reach&Hr&[= <-]).
    apply negb_false_iff, Z.eqb_eq in Hp. apply Nat.eqb_neq in Hv.
    destruct (IH _ Hf) as (fs&sps&bs&E1&E2&E3&L1&L2&M1&M2&M3&Hall). cbn [lg_first_k lg_spans lg_bounds lg_lowest lg_highest lg_max_views] in *.
    exists (ir_begin i :: fs), (span :: sps), (bounds :: bs). rewrite E1, E2, E3, <-!app_assoc. split_and!; try done; try (simpl; lia).
    intros [|j] layer' Hj; [|by apply Hall]. injection Hj as <-. exists (ir_begin i), span, bounds. split_and!; try done.
    split_and!; try done; try lia; [by exists i|]. exists reach. split_and!; [done|lia..].
Qed.

Section make.
Context {R : Type} `{RateOps R} (t : experiment_template R) (Htok : template_ok t) (Hfit : shots_fit t (probe t)) (H1 : 1 ≤ probe t).
Context (layers : list (ingest_layer R)) (L : ingest_layout R) (core : ingest_core) (Hmake : make_ingest (Some t) layers = Ok (L, core)).

Lemma make_inv : ∃ g L0, foldM (collect_layer t (period_ L)) layers (mk_geometry [] [] [] (2 ^ 63 - 1) (- 2 ^ 63) 0) = Ok g ∧ layers ≠ [] ∧
  measure t = Ok L0 ∧ check_forms L0 = Ok tt ∧ size_buffers layers g (period_ L) L0 = Ok L ∧ reset L (empty_core L) = Ok core.
Proof.
  unfold make_ingest in Hmake. apply bind_ok in Hmake as ([g period]&Hg&Hm). apply bind_ok in Hm as (L0&HL0&Hm). apply bind_ok in Hm as ([]&Hc&Hm).
  apply bind_ok in Hm as (L'&HL&Hm). apply bind_ok in Hm as (core'&Hcore&[= -> ->]).
  unfold collect_layers in Hg. destruct layers as [|front rest]; [done|]. apply bind_ok in Hg as (g'&Hg&[= <- <-]).
  assert (period_ L = wr_period (il_request front)) as Hp.
  { unfold size_buffers in HL. apply bind_ok in HL as (r&_&[= <-]). done. }
  exists g', L0. rewrite Hp. done.
Qed.

Lemma size_buffers_ok g L0 : size_buffers layers g (period_ L) L0 = Ok L → measured_layout t L0 →
  measured_layout t L ∧ layers_ L = layers ∧ lg_first_k g = first_k_ L ∧ lg_spans g = spans_ L ∧ lg_bounds g = bounds_ L ∧
  staged_slots_ L = suffix_rounds_ L + 4 + last_width_ L / min_forward_width_ L ∧
  record_limit_ L = u64 (to_size (period_ L) * max_width_ L) ∧
  (∃ k, ring_mask_ L + 1 = 2 ^ k) ∧
  u64 (u64 (to_size (lg_highest g - lg_lowest g) + suffix_rounds_ L `max` 1) + u64 ((lg_max_views g + 1) * to_size (period_ L)) +
       u64 (record_limit_ L + max_width_ L) / min_forward_width_ L + 1 + staged_slots_ L) ≤ ring_mask_ L + 1 ∧
  ∀ n r, check_round_form L n r = check_round_form L0 n r.
Proof.
  unfold size_buffers. intros Hs HL0. apply bind_ok in Hs as (r&Hr&HL). injection HL as HL. unfold power_of_two_at_least in Hr.
  destruct (double_until_ok _ size_bits 0 r Hr ltac:(done)) as (k&Hk&Hle).
  assert (1 ≤ r) as Hr1 by (rewrite Hk; pose proof (Nat.pow_nonzero 2 k); lia).
  rewrite <-HL at 1 2 3 4 5 6 7 8 9 10 11 12 13. cbn [layers_ first_k_ spans_ bounds_ staged_slots_ suffix_rounds_ last_width_ min_forward_width_ ring_mask_ period_ max_width_ record_limit_].
  rewrite <-HL. cbn [layers_ first_k_ spans_ bounds_ staged_slots_ suffix_rounds_ last_width_ min_forward_width_ ring_mask_ period_ max_width_ record_limit_].
  rewrite Nat.sub_add by done. split_and!; try done; [|by exists k].
  destruct HL0. by split.
Qed.

Lemma make_layout : measured_layout t L ∧ (∀ n r, t_min_rounds t ≤ n ≤ probe t → r < n → check_round_form L n r = Ok tt) ∧
  staged_slots_ L = suffix_rounds_ L + 4 + last_width_ L / min_forward_width_ L ∧ ∃ k, ring_mask_ L + 1 = 2 ^ k.
Proof.
  destruct make_inv as (g&L0&_&_&HL0&Hc&HL&_). pose proof (measure_ok t Htok L0 HL0 (proj1 Hfit) H1) as Hm.
  destruct (size_buffers_ok g L0 HL Hm) as (HmL&_&_&_&_&Hslots&_&Hring&_&Hchk). split_and!; try done.
  intros n r Hn Hr. rewrite Hchk. unfold check_forms in Hc. rewrite (ml_context t L0 Hm) in Hc.
  change (if t_repeats t then t_min_rounds t + 2 else t_min_rounds t) with (probe t) in Hc.
  destruct (for_u_steps _ _ _ _ _ Hc n ltac:(lia)) as ([]&[]&Hn'). destruct (for_u_steps _ _ _ _ _ Hn' r ltac:(lia)) as ([]&[]&Hr'). exact Hr'.
Qed.

Lemma Hml : measured_layout t L.
Proof. apply make_layout. Qed.

Lemma last_fixed : t_repeats t = false → probe t = length (t_prefix t) ∧ forward_width L (length (t_prefix t) - 1) = last_width_ L.
Proof.
  intros E. pose proof (ok_fixed t Htok E) as [_ Hmin]. assert (probe t = length (t_prefix t)) as Hp by (unfold probe; by rewrite E). split; [done|].
  destruct (ml_prefix t L Hml (length (t_prefix t) - 1)) as (w&c&d&Hw&_&_&Hl&_); [lia|].
  pose proof (ml_last t L Hml) as Hlast. rewrite Hp in Hlast, Hw. rewrite Hw in Hlast. injection Hlast as <-. unfold forward_width.
  by rewrite (ml_prefix_rounds t L Hml), (proj2 (Nat.ltb_lt _ _)), Hl by lia.
Qed.

Lemma last_bulk : t_repeats t = true → length (t_suffix t) = 0 → last_width_ L = bulk_width_ L.
Proof.
  intros E Hs. destruct make_layout as (Hm&Hchk&_). destruct (probe_bounds t Htok (proj1 Hfit) H1) as [_ Hb]. destruct (Hb E) as [_ Hpp].
  destruct (Hmeas t Htok L Hm Hfit H1 (t_bulk t)) as (c&m&Hc&Hcm); [unfold chain_ids; rewrite E; set_solver|].
  destruct (probe_sizes t Htok L Hm Hfit H1 (probe t) (probe t - 1) (t_bulk t) c m) as (Hw&_); [apply probe_admits|lia|lia|apply phase_bulk; [done|lia..]|done..|].
  destruct (probe_sizes t Htok L Hm Hfit H1 (probe t) (length (t_prefix t)) (t_bulk t) c m) as (Hw'&_); [apply probe_admits|lia|lia|apply phase_bulk; [done|lia..]|done..|].
  pose proof (ml_last t L Hm). destruct (ml_bulk t L Hm E) as (_&?&_). congruence.
Qed.

Lemma total_fixed : t_repeats t = false → fixed_measurements_ L = start_of L None (length (t_prefix t)).
Proof.
  intros E. destruct make_layout as (Hm&Hchk&_). destruct (last_fixed E) as [Hpr Hlast]. rewrite (ml_fixed t L Hm E).
  set (p := length (t_prefix t)) in *.
  assert (∀ r, r ≤ p → start_of L None r = sum_list (take r (prefix_widths_ L)) ∧ start_of L (Some p) r = start_of L None r) as Hsum.
  { induction r as [|r IH]; intros Hr; [done|]. destruct (IH ltac:(lia)) as [IH1 IH2]. cbn [start_of]. rewrite IH2, IH1.
    destruct (ml_prefix t L Hm r ltac:(lia)) as (w&_&_&_&_&_&Hw&_). rewrite (take_S_r _ _ _ Hw), sum_list_with_app. cbn [sum_list_with width_at].
    assert (forward_width L r = w) as Hf by (unfold forward_width; rewrite (ml_prefix_rounds t L Hm), (proj2 (Nat.ltb_lt _ _)), Hw by done; done).
    rewrite Hf. split; [unfold id; lia|]. destruct (Nat.eqb_spec (r + 1) p); [|done]. rewrite <-Hlast. replace (p - 1) with r by lia. by rewrite Hf. }
  destruct (Hsum p ltac:(lia)) as [H2 H3]. rewrite firstn_all2 in H2 by (rewrite (ml_length t L Hm); lia). rewrite H2. apply wrap_small.
  rewrite <-H2, <-H3. destruct (offsets t Htok (probe t) (probe_admits t) Hfit (Hmeas t Htok L Hm Hfit H1)) as (ps&Hs&Hlen&_&Hmo&_).
  destruct (layout_offsets t Htok L Hm Hfit H1 Hchk (probe t) (probe_admits t) Hfit (probe t) ltac:(lia)) as [Ho _].
  rewrite Hmo in Ho by lia. injection Ho as Ho. rewrite Hpr in Ho. rewrite <-Ho, firstn_all2 by lia. by apply (proj2 Hfit).
Qed.

Lemma make_layout_ok : layout_ok L.
Proof.
  destruct make_layout as (Hm&Hchk&Hslots&Hring). pose proof (ml_context t L Hm) as Ht. pose proof (ml_prefix_rounds t L Hm) as Hp.
  pose proof (ml_suffix_rounds t L Hm) as Hs. destruct (ml_min t L Hm), (ml_max t L Hm).
  split; rewrite ?Ht, ?Hp, ?Hs; try done.
  - apply (ok_min t Htok).
  - intros E. destruct (ok_fixed t Htok E) as [-> Hmin]. destruct (last_fixed E). split_and!; [done..|lia].
  - intros E. by apply last_fixed.
  - apply last_bulk.
  - apply total_fixed.
  - by rewrite Hslots, Hs.
  - intros n r Hn Hr. by apply (layout_form t Htok L Hm Hfit H1 Hchk).
Qed.

Lemma make_layers_ok : layers_ok L ∧ layers_ L = layers.
Proof.
  destruct make_inv as (g&L0&Hg&Hne&HL0&_&HL&_). pose proof (measure_ok t Htok L0 HL0 (proj1 Hfit) H1) as Hm0.
  destruct (size_buffers_ok g L0 HL Hm0) as (Hm&Hl&Hfk&Hsp&Hbd&_). destruct (collect_inv _ _ _ _ _ Hg) as (fs&sps&bs&E1&E2&E3&L1&L2&_&_&_&Hall).
  cbn [lg_first_k lg_spans lg_bounds app] in E1, E2, E3. split; [|done]. split.
  - rewrite Hl. destruct layers; [done|simpl; lia].
  - by rewrite <-Hsp, Hl, E2.
  - by rewrite <-Hfk, Hl, E1.
  - rewrite Hl. intros l layer Hlay. destruct (Hall l layer Hlay) as (first&span&bounds&Hf&Hs&Hb&Hcol). destruct Hcol as (Hq&Hp&Hv&(i&Hi&<-)&Hz&Hvb&_).
    split; [lia|]. destruct (check_request_decides (il_request layer)) as [[[commit Hrq] _]|[_ [msg E]]]; [|congruence].
    exists commit, span, bounds, (ir_begin i). pose proof (rq_anchor _ _ Hrq) as Ha. split; try done.
    + unfold zone_span, commit_of in Hz. rewrite (an_commit _ _ Ha) in Hz. by injection Hz as <-.
    + by rewrite <-Hsp, E2.
    + by rewrite <-Hbd, E3.
    + by rewrite (ml_context t L Hm).
    + by rewrite <-Hfk, E1.
    + rewrite (window_instances_eq _ _ _ Ha) in Hi. by injection Hi as <-.
Qed.
End make.
