(* ===== verification/IngestRun.v ===== *)
(** * The ingest core: runs

    A run is any sequence of records, polls, releases and resets.  The run keeps
    what a client sees: the measurements accepted since the last reset and the
    rows of every window at the moment it was handed over.  Every run keeps the
    invariant of the core and of the windows handed over. *)

From S2P Require Import Prelude Rates Ordering Tensor SparseMatrix RoundLayout DetectorErrorModel ExtendedDem ChunkSpec ExperimentTemplate TemplateFacts WindowRequest WindowRequestFacts WindowPlace WindowBuild Ingest IngestRounds IngestViews IngestLayout.

Open Scope nat_scope.

(** ** Operations *)

Inductive ingest_op :=
  | op_enqueue (data : list nat) (final : bool)
  | op_poll
  | op_release (l s : nat)
  | op_reset.

Record ingest_run := mk_run {
  run_core : ingest_core;
  run_bytes : list nat;
  run_handed : list (nat * window_rows)
}.

(** An exception leaves the core as the operation leaves it; the client goes on. *)
Definition ingest_step {R} `{RateOps R} (L : ingest_layout R) (op : ingest_op) (run : ingest_run) : res ingest_run :=
  let core := run_core run in
  match op with
  | op_enqueue data final =>
      match enqueue L core (Some data) (length data) final with
      | Ok (core, inl ingest_accepted) => Ok (mk_run core (run_bytes run ++ data) (run_handed run))
      | Ok (core, _) => Ok (mk_run core (run_bytes run) (run_handed run))
      | Throw _ => Ok run
      | Undef => Undef
      end
  | op_poll =>
      st ← poll L core;
      match st.2 with
      | None => Ok (mk_run st.1 (run_bytes run) (run_handed run))
      | Some p => new ← collect_rows L st.1 p; Ok (mk_run st.1 (run_bytes run) (run_handed run ++ new))
      end
  | op_release l s =>
      match pools_ (core_views core) !! l ≫= lookup s with
      | None => Ok run
      | Some view =>
          match release core (Some (l, s)) view with
          | Ok core => Ok (mk_run core (run_bytes run) (run_handed run))
          | Throw _ => Ok run
          | Undef => Undef
          end
      end
  | op_reset =>
      match reset L core with
      | Ok core => Ok (mk_run core [] [])
      | Throw _ => Ok run
      | Undef => Undef
      end
  end.

Definition run_ops {R} `{RateOps R} (L : ingest_layout R) (ops : list ingest_op) (run : ingest_run) : res ingest_run :=
  foldM (ingest_step L) ops run.

Definition op_bytes (op : ingest_op) : nat := match op with op_enqueue data _ => length data | _ => 0 end.

Section run.
Context {R : Type} `{RateOps R} (L : ingest_layout R) (Hok : layout_ok L) (Hlayers : layers_ok L).
Abbreviation t := (context_ L).
Abbreviation ring := (ring_mask_ L + 1).
Abbreviation formed core := (formed_ (core_formed core)).
Abbreviation shot_of core := (shot_rounds_ (core_shot core)).
Implicit Types core : ingest_core.

(** ** Reset *)

Definition ring_sizes (f : formed_rounds) : Prop :=
  length (ring_ f) = ring * max_rows_ L ∧ length (ring_rows_ f) = ring ∧ length (ring_round_ f) = ring ∧ length (ring_first_row_ f) = ring.

Lemma fresh_rounds raw f : buffers_ok L raw → ring_sizes f →
  cut_inv L None [] (mk_raw (staged_ raw) (staged_width_ raw) 0 0 0)
    (mk_formed (ring_ f) (ring_rows_ f) (ring_round_ f) (ring_first_row_ f) 0 0).
Proof.
  intros [Hs Hw] (H1&H2&H3&H4). pose proof (slots_pos L Hok). pose proof (lk_pos L Hok). split.
  - split; cbn; try done; lia || (intros; lia).
  - split; cbn; try done. intros; lia.
  - intros _ n Hn _. cbn. pose proof (admits_rounds L Hok n Hn). lia.
  - cbn [cutting rounds_cut_ partial_]. pose proof (lk_forward L Hok 0) as Hf. pose proof (lk_last L Hok).
    destruct (t_repeats t) eqn:E; [left; split; [by left|]; specialize (Hf (or_introl eq_refl)); lia|].
    destruct (lk_fixed L Hok E) as (_&_&Hp). destruct (decide (1 = prefix_rounds_ L)); [right; split_and!; [done|lia..]|].
    left. split; [right; lia|]. specialize (Hf ltac:(right; lia)). lia.
Qed.

Lemma first_index_le l first : first_k_ L !! l = Some first → (first_index L ≤ first)%Z.
Proof.
  unfold first_index. destruct (first_k_ L) as [|k ks]; [done|]. destruct (foldl_min_le Z.min (λ x : Z, Some x) ks k) as [H1 H2].
  { intros; lia. } { intros a x y [= <-]. lia. }
  intros Hl. apply list_elem_of_lookup_2, elem_of_cons in Hl as [->|Hl]; [done|]. by eapply H2.
Qed.

Lemma none_out out : existsb (λ pool, existsb (λ b : bool, b) pool) out = false →
  ∀ l s (flags : list bool), out !! l = Some flags → flags !! s ≠ Some true.
Proof.
  intros He l s flags Hl Hs. enough (existsb (λ pool, existsb (λ b : bool, b) pool) out = true) by congruence.
  apply existsb_exists. exists flags. split; [apply list_elem_of_In; by eapply list_elem_of_lookup_2|].
  apply existsb_exists. exists true. split; [apply list_elem_of_In; by eapply list_elem_of_lookup_2|done].
Qed.

Lemma reset_ok core core' :
  buffers_ok L (core_raw core) → ring_sizes (core_formed core) → pools_ok L (core_views core) → reset L core = Ok core' →
  core_ok L [] core' ∧ history_ok L [] core' [].
Proof.
  intros Hbuf Hring Hpools Hr. unfold reset in Hr. apply bind_ok in Hr as ([]&Hno%throw_if_ok&[= <-]).
  assert (∀ pub next l s view, ¬ view_out (mk_pools (pools_ (core_views core)) (out_ (core_views core)) pub next) l s view) as Hout.
  { intros pub next l s view (pool&flags&_&_&Hf&Hs). by eapply none_out in Hs. }
  split; split; cbn [core_raw core_formed core_views core_shot shot_rounds_ next_index_]; try done.
  - by apply fresh_rounds.
  - destruct Hpools. by split.
  - intros l s view Hv. by apply Hout in Hv.
  - intros. cbn [formed_]. lia.
  - intros l first Hl. cbn. rewrite z_range_empty; [done|]. by eapply first_index_le.
  - intros l s view Hv. by apply Hout in Hv.
Qed.

Lemma core_sizes bytes core : core_ok L bytes core → ring_sizes (core_formed core).
Proof. intros Hc. destruct (rounds_facts L _ _ _ _ (co_rounds _ _ _ Hc)) as ([? ? ? ? _ _]&_). done. Qed.

Lemma empty_core_ok core : reset L (empty_core L) = Ok core → core_ok L [] core ∧ history_ok L [] core [].
Proof.
  apply reset_ok; unfold empty_core; cbn [core_raw core_formed core_views].
  - unfold buffers_ok. cbn. by rewrite !length_replicate.
  - unfold ring_sizes. cbn. by rewrite !length_replicate.
  - split; cbn [pools_ out_]; [by rewrite length_imap|by rewrite length_fmap|]. intros l layer Hl.
    rewrite list_lookup_imap, list_lookup_fmap, Hl. eexists _, _. split; [done|]. split; [done|]. rewrite length_fmap, length_seq, length_replicate.
    split_and!; [done..|]. intros s view Hv. apply list_lookup_fmap_Some in Hv as (s'&->&[? _]%lookup_seq). cbn in *. split; [done|lia].
Qed.

(** ** Release *)

(** What a release changes: fewer views are out. *)
Definition returned core core' : Prop :=
  core_formed core' = core_formed core ∧ core_shot core' = core_shot core ∧
  next_index_ (core_views core') = next_index_ (core_views core) ∧
  ∀ l s view, view_out (core_views core') l s view → view_out (core_views core) l s view.

Lemma history_returned bytes core core' handed : returned core core' → history_ok L bytes core handed → history_ok L bytes core' handed.
Proof.
  intros (Ef&Es&En&Hsub) [H1 H2 H3]. split; [by rewrite Es, Ef| |].
  - intros l first Hl. rewrite (H2 l first Hl). unfold index_limit. by rewrite Es, En.
  - intros l s view Hv. by apply (H3 l s), Hsub.
Qed.

Lemma release_ok bytes core l s view :
  core_ok L bytes core → pools_ (core_views core) !! l ≫= lookup s = Some view →
  match release core (Some (l, s)) view with
  | Undef => False
  | Throw _ => ¬ view_out (core_views core) l s view
  | Ok core' => core_ok L bytes core' ∧ returned core core' ∧ ∀ view', ¬ view_out (core_views core') l s view'
  end.
Proof.
  intros Hc Hv. destruct (pools_ (core_views core) !! l) as [pool|] eqn:Ep; [|done]. cbn [mbind option_bind] in Hv.
  destruct (lookup_lt_is_Some_2 (layers_ L) l) as [layer Hl]; [rewrite <-(pk_pools L _ (co_pools _ _ _ Hc)); by eapply lookup_lt_Some|].
  destruct (pk_layer L _ (co_pools _ _ _ Hc) l layer Hl) as (pool'&flags&Hp&Hf&_&_&Hid). rewrite Ep in Hp. injection Hp as <-.
  destruct (Hid s view Hv) as [El Es]. unfold release. rewrite El, Es, Hf, bool_decide_eq_true_2 by done. cbn [andb].
  destruct (flags !! s) as [[]|] eqn:Efs; cbn [from_option id negb throw_if mbind res_bind].
  2,3: intros (pool'&flags'&_&_&Hf'&Hs'); rewrite Hf in Hf'; injection Hf' as <-; congruence.
  rewrite (vget_ok _ _ _ Hf). cbn [mbind res_bind]. rewrite vset_ok by (by eapply lookup_lt_Some). cbn [mbind res_bind].
  rewrite vset_ok by (by eapply lookup_lt_Some). cbn [mbind res_bind].
  set (out' := <[l:=<[s:=false]> flags]> (out_ (core_views core))).
  set (v' := mk_pools (pools_ (core_views core)) out' (publication_ (core_views core)) (next_index_ (core_views core))).
  assert (∀ l' s' view', view_out v' l' s' view' → view_out (core_views core) l' s' view' ∧ (l', s') ≠ (l, s)) as Hsub.
  { intros l' s' view' (pool'&flags'&H1&H2&H3&H4). cbn [v' pools_ out_] in H1, H3. unfold out' in H3. destruct (decide (l' = l)) as [->|Hne].
    - rewrite list_lookup_insert_eq in H3 by (by eapply lookup_lt_Some). injection H3 as <-. destruct (decide (s' = s)) as [->|Hne].
      + rewrite list_lookup_insert_eq in H4 by (by eapply lookup_lt_Some). done.
      + rewrite list_lookup_insert_ne in H4 by done. split; [by exists pool', flags|congruence].
    - rewrite list_lookup_insert_ne in H3 by done. split; [by exists pool', flags'|congruence]. }
  split_and!; [|split_and!; try done; intros l' s' view' Hv'; by apply (Hsub l' s')|intros view' Hv'; by destruct (Hsub l s view' Hv')].
  destruct Hc as [C1 C2 C3 C4 C5 C6 C7]. split; cbn [core_raw core_formed core_views core_shot next_index_]; try done.
  - destruct C4 as [P1 P2 P3]. split; cbn [v' pools_ out_]; [done|unfold out'; by rewrite length_insert|]. intros l' layer' Hl'.
    destruct (P3 l' layer' Hl') as (pool'&flags'&Q1&Q2&Q3&Q4&Q5). exists pool'. unfold out'. destruct (decide (l' = l)) as [->|Hne].
    + exists (<[s:=false]> flags). rewrite list_lookup_insert_eq by (by eapply lookup_lt_Some). rewrite length_insert. rewrite Hf in Q2. injection Q2 as <-. done.
    + exists flags'. by rewrite list_lookup_insert_ne.
  - intros l' s' view' Hv'. apply (C5 l' s'), Hsub, Hv'.
Qed.

(** ** Records *)

Lemma dets_same shot shot' bytes bytes' w :
  (∀ q, (rr_begin w ≤ Z.of_nat q < rr_end w)%Z → det_of L shot bytes q = det_of L shot' bytes' q) → (0 ≤ rr_begin w)%Z →
  dets L shot bytes w = dets L shot' bytes' w.
Proof.
  intros Hd Hb. unfold dets. f_equal. apply list_fmap_ext. intros i q Hq. apply Hd. apply lookup_seq in Hq. lia.
Qed.

(** The windows handed over before a record that does not end the shot. *)
Lemma handed_more bytes data raw f formed' h :
  rounds_inv L None bytes raw f → formed_ f ≤ formed' →
  handed_ok L None bytes (formed_ f) h → handed_ok L None (bytes ++ data) formed' h.
Proof.
  intros Hr Hle (layer&commit&span&bounds&first&Hl&Hla&Hk&Hw&Hend&Hrow&Hdet&Hrng&b&Hb&Hvar&Hterm).
  exists layer, commit, span, bounds, first. split; [done|]. split; [done|]. cbn zeta. split_and!; try done; try lia; [|by exists b; split; [apply bounds_shot_app|]].
  rewrite Hdet. destruct (rounds_facts L _ _ _ _ Hr) as (_&_&Hst). apply dets_same; [|lia]. intros q Hq. symmetry. apply det_of_app.
  pose proof (start_of_mono L None (q + 1) (formed_ f)). lia.
Qed.

Lemma variant_later bounds (q : window_request R) k b n :
  key_terminal (variant_from bounds q k b) = None → b ≤ n → variant_from bounds q k b = variant_from bounds q k n.
Proof.
  intros Ht Hle. unfold variant_from in *. cbn [key_terminal] in Ht. f_equal.
  destruct (Z.ltb_spec (Z.of_nat b - vb_end_rounds bounds) (wr_offset q + k * wr_period q + rr_end (vb_reach bounds))); [done|].
  by rewrite (proj2 (Z.ltb_ge _ _)) by lia.
Qed.

(** The same windows once FINAL fixes the shot. *)
Lemma handed_final bytes data raw f n h :
  rounds_inv L None bytes raw f → admits t n → formed_ f + suffix_rounds_ L ≤ n → (∀ b, bounds_shot L bytes b → b ≤ n) →
  handed_ok L None bytes (formed_ f) h → handed_ok L (Some n) (bytes ++ data) n h.
Proof.
  intros Hr Hn Hle Hbn (layer&commit&span&bounds&first&Hl&Hla&Hk&Hw&Hend&Hrow&Hdet&Hrng&b&Hb&Hvar&Hterm).
  exists layer, commit, span, bounds, first. pose proof (layer_span L _ _ _ _ _ _ Hla) as Hsp. set (w := rows_rounds h.2) in *.
  assert (rr_end w = (anchor L (il_request layer) (rows_k h.2) + rr_end span)%Z) as Hwe by (by rewrite Hrng).
  split; [done|]. split; [done|]. split_and!; try done; try lia.
  - rewrite Hrow. symmetry. apply row_start_known. intros i Hi. apply form_known; [done|lia].
  - rewrite Hdet. destruct (rounds_facts L _ _ _ _ Hr) as (_&_&Hst). apply dets_same; [|lia]. intros q Hq.
    rewrite (det_known L Hok n Hn) by lia. symmetry. apply det_of_app. pose proof (start_of_mono L None (q + 1) (formed_ f)). lia.
  - fold w. rewrite Hrng. unfold clip_rounds. f_equal. lia.
  - rewrite Hvar in Hterm |- *. apply variant_later; [done|]. by apply Hbn.
Qed.

(** The indices handed over are those of the layer's instances in the shot. *)
Lemma indices_final bytes core core' handed n l first :
  core_ok L bytes core' → shot_of core = None → shot_of core' = Some n → core_views core' = core_views core →
  Forall (handed_ok L (Some n) bytes n) handed → first_k_ L !! l = Some first →
  indices_of l handed = z_range first (index_limit core l) → indices_of l handed = z_range first (index_limit core' l).
Proof.
  intros Hc' Es Es' Hv Hall Hf Hi. rewrite Hi. unfold index_limit in *. rewrite Es in *. rewrite Es', Hv.
  destruct (lookup_lt_is_Some_2 (layers_ L) l) as [layer Hl]; [rewrite <-(ly_first L Hlayers); by eapply lookup_lt_Some|].
  destruct (final_instance L bytes core' Hc' l layer Hl n Es') as (i&->&Hw). set (next := next_index_ (core_views core)) in *.
  destruct (decide (next ≤ first)%Z); [rewrite !z_range_empty by lia; done|]. f_equal. rewrite Z.min_l; [done|].
  assert ((next - 1)%Z ∈ indices_of l handed) as Hin.
  { rewrite Hi. unfold z_range. apply list_elem_of_fmap. exists (Z.to_nat (next - 1 - first)). split; [lia|]. apply elem_of_seq. lia. }
  unfold indices_of in Hin. apply list_elem_of_fmap in Hin as (h&Hk&[Hhl Hh]%list_elem_of_filter). cbn in Hk.
  rewrite Forall_forall in Hall. destruct (Hall h Hh) as (layer'&commit&span&bounds&first'&Hl'&Hla&Hfk&_&_&_&_&_&_&Hcm).
  rewrite Hhl in Hl', Hla. rewrite Hl in Hl'. injection Hl' as <-. destruct (shot_pos L Hok bytes core' Hc' n Es') as [Hn _].
  destruct (layer_instances L _ _ _ _ _ _ Hla n Hn) as (i'&Hw'&_&Hik). rewrite Hw in Hw'. injection Hw' as <-.
  destruct (proj2 (Hik (rows_k h.2)) (conj Hfk Hcm)). lia.
Qed.

Lemma history_enqueue bytes core handed data core' :
  core_ok L bytes core → history_ok L bytes core handed → core_ok L (bytes ++ data) core' → core_views core' = core_views core →
  shot_of core = None → formed core ≤ formed core' →
  (∀ n, shot_of core' = Some n → formed core + suffix_rounds_ L ≤ n ∧ ∀ b, bounds_shot L bytes b → b ≤ n) →
  history_ok L (bytes ++ data) core' handed.
Proof.
  intros Hc [H1 H2 H3] Hc' Hv Es Hle Hfin. pose proof (co_rounds _ _ _ Hc) as Hr. rewrite Es in H1, Hr.
  assert (Forall (handed_ok L (shot_of core') (bytes ++ data) (formed core')) handed) as Hall.
  { eapply Forall_impl; [exact H1|]. intros h Hh. destruct (shot_of core') as [n|] eqn:Es'; [|by eapply handed_more].
    destruct (Hfin n eq_refl). destruct (shot_pos L Hok _ core' Hc' n Es') as [_ ->]. pose proof (co_rounds _ _ _ Hc') as Hr'. rewrite Es' in Hr'. eapply handed_final; [exact Hr|apply Hr'|done..]. }
  split; [done| |by rewrite Hv]. intros l first Hf. specialize (H2 l first Hf). destruct (shot_of core') as [n|] eqn:Es'.
  - destruct (shot_pos L Hok _ core' Hc' n Es') as [_ En]. rewrite En in Hall. by eapply (indices_final (bytes ++ data) core).
  - rewrite H2. unfold index_limit. by rewrite Es, Es', Hv.
Qed.

(** ** Runs *)

Record run_ok (run : ingest_run) : Prop := {
  rn_core : core_ok L (run_bytes run) (run_core run);
  rn_history : history_ok L (run_bytes run) (run_core run) (run_handed run)
}.

Lemma history_failed bytes core handed : history_ok L bytes core handed → history_ok L bytes (set_failed core) handed.
Proof. intros [? ? ?]. by split. Qed.

Lemma step_ok op run :
  run_ok run → (Z.of_nat (length (run_bytes run)) < 2 ^ 63)%Z →
  ∃ run', ingest_step L op run = Ok run' ∧ run_ok run' ∧ length (run_bytes run') ≤ length (run_bytes run) + op_bytes op.
Proof.
  intros [Hc Hh] Hsize. destruct run as [core bytes handed]. cbn [run_core run_bytes run_handed] in *.
  destruct op as [data final| |l s|]; cbn [ingest_step run_core run_bytes run_handed op_bytes].
  - pose proof (enqueue_ok L Hok Hlayers bytes core data final Hc) as He.
    destruct (enqueue L core (Some data) (length data) final) as [[core' [[]|e]]|e|]; try done; (eexists; split; [reflexivity|]).
    + destruct He as (Hc'&Hv&Es&Hle&_&Hfin). split; [split; [done|by eapply history_enqueue]|]. cbn. by rewrite length_app.
    + subst core'. split; [by split|cbn; lia].
    + subst core'. split; [split; [by apply core_ok_failed|by apply history_failed]|cbn; lia].
    + split; [by split|cbn; lia].
  - destruct (poll_ok L Hok Hlayers bytes core handed Hc Hh Hsize) as (core'&p&->&Hc'&_&_&_&Hp). cbn [mbind res_bind fst snd].
    destruct p as [p|]; [destruct Hp as (new&->&Hh')|destruct Hp as [Hh' _]]; (eexists; split; [reflexivity|]); (split; [by split|cbn; lia]).
  - destruct (pools_ (core_views core) !! l ≫= lookup s) as [view|] eqn:Ev; [|eexists; split; [reflexivity|]; split; [by split|cbn; lia]].
    pose proof (release_ok bytes core l s view Hc Ev) as Hrel.
    destruct (release core (Some (l, s)) view); [|eexists; split; [reflexivity|]; split; [by split|cbn; lia]|done].
    destruct Hrel as (?&?&_). eexists. split; [reflexivity|]. split; [split; [done|by eapply history_returned]|cbn; lia].
  - destruct (reset L core) as [core'|e|] eqn:Er.
    + destruct (reset_ok core core' (co_buffers _ _ _ Hc) (core_sizes _ _ Hc) (co_pools _ _ _ Hc) Er) as [? ?]. eexists. split; [reflexivity|]. split; [by split|cbn; lia].
    + eexists. split; [reflexivity|]. split; [by split|cbn; lia].
    + unfold reset in Er. destruct (existsb _ (out_ (core_views core))); done.
Qed.

Lemma run_ops_ok ops : ∀ run, run_ok run → (Z.of_nat (length (run_bytes run) + sum_list_with op_bytes ops) < 2 ^ 63)%Z →
  ∃ run', run_ops L ops run = Ok run' ∧ run_ok run' ∧ length (run_bytes run') ≤ length (run_bytes run) + sum_list_with op_bytes ops.
Proof.
  induction ops as [|op ops IH]; intros run Hrun Hsize; [exists run; split; [done|]; split; [done|simpl; lia]|]. cbn [sum_list_with] in *.
  destruct (step_ok op run Hrun ltac:(lia)) as (run1&Hs&Hrun1&Hl1). destruct (IH run1 Hrun1 ltac:(lia)) as (run'&Hr&Hrun'&Hl').
  exists run'. unfold run_ops in *. cbn [foldM]. rewrite Hs. split; [done|]. split; [done|lia].
Qed.

(** A view out reads what it read when it was handed over. *)
Lemma view_reads run l s view :
  run_ok run → (Z.of_nat (length (run_bytes run)) < 2 ^ 63)%Z → view_out (core_views (run_core run)) l s view →
  ∃ rows, (l, rows) ∈ run_handed run ∧ copy_window L (run_core run) view = Ok rows.
Proof.
  intros [Hc Hh] Hsize Hv. destruct (hi_out L _ _ _ Hh l s view Hv) as (rows&Hin&E1&E2&E3&E4). exists rows. split; [done|].
  destruct (rounds_facts L _ _ _ _ (co_rounds _ _ _ Hc)) as (Hring&Hform&Hst). pose proof (co_views _ _ _ Hc l s view Hv) as Hheld.
  rewrite (copy_window_ok L Hok (shot_of (run_core run)) (run_bytes run) (run_core run) view); [|done..|by eapply size_formed].
  pose proof (proj1 (Forall_forall _ _) (hi_handed L _ _ _ Hh) _ Hin) as (layer&commit&span&bounds&first&_&_&_&_&_&_&Hd&_). cbn [snd] in Hd.
  unfold rows_for. rewrite <-E1, <-E2, <-E3, <-E4, <-Hd. by destruct rows.
Qed.

(** When the core is done every layer has handed over its instances. *)
Lemma done_indices bytes core handed n l layer :
  core_ok L bytes core → history_ok L bytes core handed → shot_of core = Some n → done core = true → layers_ L !! l = Some layer →
  ∃ i, window_instances (il_request layer) n = Ok i ∧ indices_of l handed = z_range (ir_begin i) (ir_end i).
Proof.
  intros Hc Hh Es Hd Hl. destruct (final_instance L bytes core Hc l layer Hl n Es) as (i&Hi&Hw). exists i. split; [done|].
  destruct (ly_layer L Hlayers l layer Hl) as (_&commit&span&bounds&first&Hla). destruct (shot_pos L Hok bytes core Hc n Es) as [Hn _].
  destruct (layer_instances L _ _ _ _ _ _ Hla n Hn) as (i'&Hw'&Hib&_). rewrite Hw in Hw'. injection Hw' as <-.
  rewrite (hi_indices L _ _ _ Hh l first (la_first _ _ _ _ _ _ _ Hla)), Hib. f_equal. unfold index_limit. rewrite Es, Hi.
  pose proof (co_shot _ _ _ Hc) as Hs. rewrite Es in Hs. destruct Hs as (_&Hend&_). specialize (Hend i (list_elem_of_lookup_2 _ _ _ Hi)).
  unfold done in Hd. rewrite Es in Hd. apply Z.leb_le in Hd. lia.
Qed.
End run.

(** * The ingest core: the ring is large enough

    The constructor sizes the ring so that, with no view out and no window ready,
    a record within the limit always has room; the sizes it adds do not wrap for
    the requests it accepts. *)

(** ** Sizes *)

Section sizes.
Context {R : Type} `{RateOps R} (t : experiment_template R).

Lemma span_limited q commit : request_ok q commit → limited (span_of q commit).
Proof.
  intros Hq. assert (∀ z, z ∈ zones_of q commit → limited z) as Hl.
  { unfold zones_of. intros z [Hz|Hz%list_elem_of_singleton]%elem_of_app; [|rewrite Hz; apply (an_limited _ _ (rq_anchor _ _ Hq))].
    exact (proj1 (Forall_forall _ _) (rq_limited _ _ Hq) z Hz). }
  destruct (zone_span_bounds q commit) as (_&(z&Hz&Ez)&(z'&Hz'&Ez')). unfold limited. rewrite <-Ez, <-Ez'. split; [apply (Hl z Hz)|apply (Hl z' Hz')].
Qed.

Lemma reach_bounds q commit reach : request_ok q commit → model_reach t q = Ok reach →
  (rr_end (span_of q commit) ≤ rr_end reach ≤ 2 ^ 31 + Z.of_nat (t_max_span t))%Z.
Proof.
  intros Hq Hr. pose proof (span_limited q commit Hq) as [[_ _] [_ He]]. unfold window_round_limit in He.
  unfold model_reach, zone_span, commit_of in Hr. rewrite (an_commit _ _ (rq_anchor _ _ Hq)) in Hr. cbn [mbind res_bind] in Hr.
  change (foldl _ commit (wr_buffers q)) with (span_of q commit) in Hr. injection Hr as <-. cbn [rr_end].
  split; [lia|]. case_bool_decide; [|lia]. destruct (out_imports (wr_output q)) as [i|] eqn:Ei; [|lia].
  destruct (pt_imports _ _ (rq_ports _ _ Hq) i Ei) as ([_ [_ Hi]]&_). unfold window_round_limit in Hi. lia.
Qed.

(** The extent of the layers, from above. *)
Lemma collect_bounds period layers g0 g views :
  foldM (collect_layer t period) layers g0 = Ok g → (∀ layer, layer ∈ layers → il_max_views layer ≤ views) → lg_max_views g0 ≤ views →
  (lg_highest g0 ≤ 2 ^ 32 + Z.of_nat (t_max_span t))%Z → (- 2 ^ 32 ≤ lg_lowest g0)%Z →
  lg_max_views g ≤ views ∧ (lg_highest g ≤ 2 ^ 32 + Z.of_nat (t_max_span t))%Z ∧ (- 2 ^ 32 ≤ lg_lowest g)%Z.
Proof.
  revert g0. induction layers as [|layer layers IH]; intros g0 Hf Hv H1 H2 H3; cbn [foldM] in Hf; [by injection Hf as <-|].
  apply bind_ok in Hf as (g1&Hg&Hf). unfold collect_layer in Hg. apply bind_ok in Hg as ([]&Hq&Hg). apply bind_ok in Hg as ([]&_&Hg).
  apply bind_ok in Hg as ([]&_&Hg). apply bind_ok in Hg as (i&_&Hg). apply bind_ok in Hg as (span&Hs&Hg). apply bind_ok in Hg as (b&_&Hg).
  apply bind_ok in Hg as (reach&Hr&[= <-]). destruct (check_request_decides (il_request layer)) as [[[commit Hrq] _]|[_ [msg E]]]; [|congruence].
  pose proof (rq_anchor _ _ Hrq) as Ha. pose proof (an_offset _ _ Ha) as Ho. unfold within_limit, window_round_limit in Ho.
  unfold zone_span, commit_of in Hs. rewrite (an_commit _ _ Ha) in Hs. injection Hs as <-.
  change (foldl _ commit (wr_buffers (il_request layer))) with (span_of (il_request layer) commit) in *.
  pose proof (reach_bounds _ _ _ Hrq Hr). pose proof (span_limited _ _ Hrq) as [[Hb _] _]. unfold window_round_limit in Hb.
  apply (IH _ Hf); cbn [lg_max_views lg_highest lg_lowest]; [intros; apply Hv; by right| |lia..].
  apply Nat.max_lub; [done|]. apply Hv. by left.
Qed.
End sizes.

(** The sum that the constructor rounds up, without its wrap-around. *)
Lemma demand_fits d P views mw lw minw s limit slots ring :
  (Z.of_nat d ≤ 2 ^ 34)%Z → (Z.of_nat P ≤ 2 ^ 31)%Z → (Z.of_nat views ≤ 2 ^ 30)%Z → (Z.of_nat mw < 2 ^ 30)%Z → (Z.of_nat s < 2 ^ 31)%Z →
  lw ≤ mw → 1 ≤ minw → limit = u64 (P * mw) → slots = s + 4 + lw / minw →
  u64 (u64 (d + s `max` 1) + u64 ((views + 1) * P) + u64 (limit + mw) / minw + 1 + slots) ≤ ring →
  d + s `max` 1 + ((limit + mw) / minw + 1 + slots) ≤ ring.
Proof.
  intros Hd HP Hv Hmw Hs Hlw Hmin Hlim Hslots Hring.
  assert (Z.of_nat (P * mw) ≤ 2 ^ 31 * 2 ^ 30)%Z as Hpm by (rewrite Nat2Z.inj_mul; apply Z.mul_le_mono_nonneg; lia).
  assert (Z.of_nat ((views + 1) * P) ≤ (2 ^ 30 + 1) * 2 ^ 31)%Z as Hvp by (rewrite Nat2Z.inj_mul; apply Z.mul_le_mono_nonneg; lia).
  rewrite (wrap_small _ (P * mw)) in Hlim by lia.
  assert (∀ x, x / minw ≤ x) as Hdiv by (intros x; apply Nat.Div0.div_le_upper_bound; destruct minw; lia).
  pose proof (Hdiv lw). pose proof (Hdiv (limit + mw)). clear Hdiv.
  set (pm := P * mw) in *. set (vp := (views + 1) * P) in *. clearbody pm vp. subst limit.
  rewrite (wrap_small _ (d + _)), (wrap_small _ vp), (wrap_small _ (pm + mw)) in Hring by lia. set (q := (pm + mw) / minw) in *. set (w := lw / minw) in *.
  clearbody q w. rewrite wrap_small in Hring by lia. lia.
Qed.

(** What the ring holds: the rounds between the lowest and highest round of an
    index, the suffix, a record and the rounds not yet formed. *)
Definition ring_room {R} (L : ingest_layout R) : Prop :=
  ∃ lo hi, (∀ l layer span bounds, layers_ L !! l = Some layer → spans_ L !! l = Some span → bounds_ L !! l = Some bounds →
      lo ≤ wr_offset (il_request layer) + rr_begin span ∧ wr_offset (il_request layer) + rr_end (vb_reach bounds) ≤ hi ∧
      rr_end span ≤ rr_end (vb_reach bounds) ∧ vb_end_rounds bounds = Z.of_nat (suffix_rounds_ L) `max` 1)%Z ∧
    (hi - lo + Z.of_nat (suffix_rounds_ L) `max` 1 + Z.of_nat ((record_limit_ L + max_width_ L) / min_forward_width_ L + 1 + staged_slots_ L) ≤
     Z.of_nat (ring_mask_ L + 1))%Z.

Section make.
Context {R : Type} `{RateOps R} (t : experiment_template R) (Htok : template_ok t) (Hfit : shots_fit t (probe t)) (H1 : 1 ≤ probe t).
Context (layers : list (ingest_layer R)) (L : ingest_layout R) (core : ingest_core) (Hmake : make_ingest (Some t) layers = Ok (L, core)).

(** Sizes far from the width of the index type. *)
Record modest : Prop := {
  mo_span : (Z.of_nat (t_max_span t) < 2 ^ 31)%Z;
  mo_suffix : (Z.of_nat (suffix_rounds_ L) < 2 ^ 31)%Z;
  mo_width : (Z.of_nat (max_width_ L) < 2 ^ 30)%Z;
  mo_views : ∀ layer, layer ∈ layers → (Z.of_nat (il_max_views layer) < 2 ^ 30)%Z
}.

Lemma make_room : modest → ring_room L.
Proof.
  intros [M1 M2 M3 M4]. destruct (make_layers_ok t Htok Hfit H1 layers L core Hmake) as [Hly Hll].
  destruct (make_inv t layers L core Hmake) as (g&L0&Hg&Hne&HL0&_&HL&_). pose proof (measure_ok t Htok L0 HL0 (proj1 Hfit) H1) as Hm0.
  destruct (size_buffers_ok t H1 layers L g L0 HL Hm0) as (Hm&Hl&Hfk&Hsp&Hbd&Hslots&Hlim&_&Hring&_).
  destruct (collect_inv _ _ _ _ _ Hg) as (fs&sps&bs&E1&E2&E3&_&_&_&_&_&Hall). cbn [lg_first_k lg_spans lg_bounds app] in E1, E2, E3.
  destruct (collect_bounds t _ _ _ _ (Z.to_nat (2 ^ 30)) Hg) as (B1&B2&B3); [intros layer Hin; specialize (M4 layer Hin); lia|cbn; lia..|].
  assert (∀ l layer span bounds, layers_ L !! l = Some layer → spans_ L !! l = Some span → bounds_ L !! l = Some bounds →
      (lg_lowest g ≤ wr_offset (il_request layer) + rr_begin span ∧ wr_offset (il_request layer) + rr_end (vb_reach bounds) ≤ lg_highest g ∧
      rr_end span ≤ rr_end (vb_reach bounds) ∧ vb_end_rounds bounds = Z.of_nat (suffix_rounds_ L) `max` 1)%Z) as Hlay.
  { intros l layer span bounds Hlr Hs Hb. rewrite Hl in Hlr. destruct (Hall l layer Hlr) as (first&span'&bounds'&_&Hs'&Hb'&Hcol).
    rewrite <-Hsp, E2 in Hs. rewrite <-Hbd, E3 in Hb. rewrite Hs in Hs'. injection Hs' as <-. rewrite Hb in Hb'. injection Hb' as <-.
    destruct Hcol as (Hq&_&_&_&Hz&Hvb&reach&Hr&H2&H3). destruct (check_request_decides (il_request layer)) as [[[commit Hrq] _]|[_ [msg E]]]; [|congruence].
    unfold variant_bounds_of in Hvb. apply bind_ok in Hvb as ([]&_&Hvb). rewrite Hr in Hvb. injection Hvb as <-. cbn [vb_reach vb_end_rounds].
    pose proof (reach_bounds t _ _ _ Hrq Hr) as [Hre _]. unfold zone_span, commit_of in Hz. rewrite (an_commit _ _ (rq_anchor _ _ Hrq)) in Hz.
    injection Hz as <-. split_and!; [done..|]. unfold end_rounds, suffix_rounds. by rewrite (ml_suffix_rounds t L Hm). }
  exists (lg_lowest g), (lg_highest g). split; [done|].
  destruct (lookup_lt_is_Some_2 (layers_ L) 0 (ly_some L Hly)) as [layer0 Hl0]. destruct (ly_layer L Hly 0 layer0 Hl0) as (_&commit&span&bounds&first&Hla).
  destruct (Hlay 0 layer0 span bounds Hl0 (la_spans _ _ _ _ _ _ _ Hla) (la_bounds _ _ _ _ _ _ _ Hla)) as (G1&G2&G3&_).
  pose proof (layer_span L _ _ _ _ _ _ Hla) as Hspan. pose proof (layer_period L _ _ _ _ _ _ Hla) as Hper.
  pose proof (an_period _ _ (rq_anchor _ _ (la_request _ _ _ _ _ _ _ Hla))) as [_ [_ Hpl]]. unfold window_round_limit in Hpl. rewrite (la_period _ _ _ _ _ _ _ Hla) in Hpl.
  pose proof (ml_min t L Hm) as [Hmin _]. pose proof (ml_max t L Hm) as [_ Hlast].
  set (d := (lg_highest g - lg_lowest g)%Z) in *. assert (0 ≤ d ≤ 2 ^ 34)%Z as Hd by lia.
  assert (to_size d = Z.to_nat d) as Ed by (unfold to_size; by rewrite Z.mod_small by lia).
  assert (to_size (period_ L) = Z.to_nat (period_ L)) as Ep by (unfold to_size; by rewrite Z.mod_small by lia).
  rewrite Ed, Ep in *.
  pose proof (demand_fits (Z.to_nat d) (Z.to_nat (period_ L)) (lg_max_views g) (max_width_ L) (last_width_ L) (min_forward_width_ L) (suffix_rounds_ L)
    (record_limit_ L) (staged_slots_ L) (ring_mask_ L + 1)) as Hfits.
  specialize (Hfits ltac:(lia) ltac:(lia) ltac:(lia) M3 M2 (proj2 Hlast) Hmin Hlim Hslots Hring). lia.
Qed.
End make.

(** ** Progress *)

Section progress.
Context {R : Type} `{RateOps R} (L : ingest_layout R) (Hok : layout_ok L) (Hlayers : layers_ok L) (Hroom : ring_room L).
Abbreviation t := (context_ L).
Abbreviation formed core := (formed_ (core_formed core)).
Abbreviation shot_of core := (shot_rounds_ (core_shot core)).
Implicit Types core : ingest_core.

Definition none_held core : Prop := ∀ l s view, ¬ view_out (core_views core) l s view.

Lemma foldl_const {A B} (f : A → B → A) l a : (∀ x, x ∈ l → f a x = a) → foldl f a l = a.
Proof. induction l as [|x l IH]; intros Hf; cbn [foldl]; [done|]. rewrite Hf by (by left). apply IH. intros y Hy. apply Hf. by right. Qed.

Lemma foldl_min_ge {A} (g : A → Z) l a z : (z ≤ a)%Z → (∀ x, x ∈ l → z ≤ g x)%Z → (z ≤ foldl (λ h x, h `min` g x) a l)%Z.
Proof. revert a. induction l as [|x l IH]; intros a Ha Hl; cbn [foldl]; [done|]. apply IH; [apply Z.min_glb; [done|apply Hl; by left]|intros; apply Hl; by right]. Qed.

(** With no view out only unpublished windows hold rounds. *)
Lemma first_held_ge core z :
  none_held core → (z ≤ Z.of_nat (formed core))%Z →
  (∀ l layer span, layers_ L !! l = Some layer → spans_ L !! l = Some span →
    z ≤ 0 `max` (anchor L (il_request layer) (next_index_ (core_views core)) + rr_begin span))%Z →
  (z ≤ first_held_round L core)%Z.
Proof.
  intros Hno Hf Hl. unfold first_held_round. rewrite foldl_const.
  - destruct (done core); [done|]. apply foldl_min_ge; [done|]. intros [layer span] [i Hi]%list_elem_of_lookup. unfold zip_layers in Hi.
    apply lookup_zip_Some in Hi as [H1 H2]. exact (Hl i layer span H1 H2).
  - intros [pool flags] [l Hi]%list_elem_of_lookup. apply lookup_zip_Some in Hi as [H1 H2]. apply foldl_const.
    intros [view b] [s Hs]%list_elem_of_lookup. apply lookup_zip_Some in Hs as [H3 H4]. destruct b; [|done]. exfalso. apply (Hno l s view). by exists pool, flags.
Qed.

(** The layer that an index waits for: its window is not complete. *)
Lemma waits_incomplete bytes core least :
  core_ok L bytes core → none_held core → waits L core least → done core = true ∨
  ∃ l, l < length (layers_ L) ∧ window_exists L core l (next_index_ (core_views core)) = Ok true ∧
    window_complete L core l (next_index_ (core_views core)) least = Ok false.
Proof.
  intros Hc Hno [?|(l&Hl&He&[Hcm|(flags&Hf&Hff)])]; [by left|right; by exists l|exfalso].
  destruct (lookup_lt_is_Some_2 (layers_ L) l Hl) as [layer Hlay]. destruct (ly_layer L Hlayers l layer Hlay) as (Hmv&_).
  destruct (pk_layer L _ (co_pools _ _ _ Hc) l layer Hlay) as (pool&flags'&Hp&Hf'&Hlp&Hlf&_). rewrite Hf in Hf'. injection Hf' as <-.
  destruct (lookup_lt_is_Some_2 pool 0) as [view Hv]; [lia|]. destruct (lookup_lt_is_Some_2 flags 0) as [b Hb]; [lia|].
  apply (Hno l 0 view). exists pool, flags. split_and!; try done. destruct b; [done|]. exfalso. unfold find_flag in Hff.
  destruct (list_find (λ x, x = false) flags) as [[i x]|] eqn:Efind; [done|]. apply list_find_None in Efind. rewrite Forall_forall in Efind.
  by apply (Efind false); [eapply list_elem_of_lookup_2|].
Qed.

(** After FINAL nothing keeps a window back. *)
Lemma final_drains bytes core least n :
  core_ok L bytes core → none_held core → shot_of core = Some n → waits L core least → done core = true.
Proof.
  intros Hc Hno Es Hw. destruct (waits_incomplete bytes core least Hc Hno Hw) as [?|(l&Hl&_&Hcm)]; [done|exfalso].
  destruct (lookup_lt_is_Some_2 (layers_ L) l Hl) as [layer Hlay]. unfold window_complete in Hcm. rewrite (vget_ok _ _ _ Hlay), Es in Hcm. done.
Qed.

Section before.
Context bytes core (Hc : core_ok L bytes core) (Hno : none_held core) (Es : shot_of core = None) (Hw : waits L core (least_of L core)).
Abbreviation raw := (core_raw core).

Lemma before_inv : cut_inv L None bytes raw (core_formed core).
Proof. pose proof (co_rounds _ _ _ Hc) as Hr. by rewrite Es in Hr. Qed.

(** Every round that is held is near the round being cut. *)
Lemma held_near lo hi :
  (∀ l layer span bounds, layers_ L !! l = Some layer → spans_ L !! l = Some span → bounds_ L !! l = Some bounds →
      lo ≤ wr_offset (il_request layer) + rr_begin span ∧ wr_offset (il_request layer) + rr_end (vb_reach bounds) ≤ hi ∧
      rr_end span ≤ rr_end (vb_reach bounds) ∧ vb_end_rounds bounds = Z.of_nat (suffix_rounds_ L) `max` 1)%Z →
  (Z.of_nat (rounds_cut_ raw) - (hi - lo) - Z.of_nat (suffix_rounds_ L) `max` 1 - Z.of_nat (staged_slots_ L) ≤ first_held_round L core)%Z.
Proof.
  intros Hlay. pose proof before_inv as [Hraw _ _ Hcut]. pose proof (ro_gap _ _ _ _ _ _ Hraw) as Hgap. pose proof (lk_slots L Hok) as Hslots.
  destruct (least_ok L Hok _ _ _ _ Hraw) as (_&_&Hlag). set (k := next_index_ (core_views core)) in *.
  assert (Z.of_nat (rounds_cut_ raw) + 1 ≤ Z.of_nat (least_of L core) + Z.of_nat (last_width_ L / min_forward_width_ L))%Z as Hleast.
  { unfold least_of. rewrite Es. destruct (t_repeats t) eqn:E; [specialize (Hlag eq_refl); lia|]. unfold least_shot_rounds. rewrite E. cbn [negb].
    destruct (lk_fixed L Hok E) as (_&->&_). destruct Hcut as [[[?|?] _]|(_&?&_)]; [congruence|lia..]. }
  assert (∃ layer span bounds l, layers_ L !! l = Some layer ∧ spans_ L !! l = Some span ∧ bounds_ L !! l = Some bounds ∧
    (rr_begin span < rr_end span ∧
     (Z.of_nat (least_of L core) - Z.of_nat (suffix_rounds_ L) `max` 1 < anchor L (il_request layer) k + rr_end (vb_reach bounds) ∨
      Z.of_nat (formed core) < anchor L (il_request layer) k + rr_end (vb_reach bounds)))%Z) as (layer&span&bounds&l&Hl&Hs&Hb&Hne&Hwait).
  { destruct (waits_incomplete bytes core _ Hc Hno Hw) as [Hd|(l&Hl&_&Hcm)]; [unfold done in Hd; by rewrite Es in Hd|].
    destruct (lookup_lt_is_Some_2 (layers_ L) l Hl) as [layer Hlr]. destruct (ly_layer L Hlayers l layer Hlr) as (_&commit&span&bounds&first&Hla).
    pose proof (la_spans _ _ _ _ _ _ _ Hla) as Hs. pose proof (la_bounds _ _ _ _ _ _ _ Hla) as Hb. exists layer, span, bounds, l.
    destruct (Hlay l layer span bounds Hlr Hs Hb) as (_&_&H3&H4). pose proof (layer_span L _ _ _ _ _ _ Hla). split_and!; [done..|lia|].
    unfold window_complete in Hcm. rewrite (vget_ok _ _ _ Hlr), Es, (vget_ok _ _ _ Hb), (vget_ok _ _ _ Hs) in Hcm. cbn [mbind res_bind] in Hcm.
    injection Hcm as Hcm. apply andb_false_iff in Hcm as [Hcm%bool_decide_eq_false|Hcm%Z.leb_gt].
    - left. unfold variant_from in Hcm. cbn [key_terminal] in Hcm. rewrite (la_period _ _ _ _ _ _ _ Hla), H4 in Hcm. fold k in Hcm. revert Hcm.
      destruct (Z.ltb_spec (Z.of_nat (least_of L core) - Z.of_nat (suffix_rounds_ L) `max` 1) (wr_offset (il_request layer) + k * period_ L + rr_end (vb_reach bounds))); [intros _; unfold anchor; lia|done].
    - right. unfold anchor, k in *. lia. }
  destruct (Hlay l layer span bounds Hl Hs Hb) as (G1&G2&G3&_). unfold anchor in *.
  apply first_held_ge; [done|lia|]. intros l' layer' span' Hl' Hs'. destruct (ly_layer L Hlayers l' layer' Hl') as (_&commit'&span''&bounds'&first'&Hla').
  destruct (Hlay l' layer' span' bounds' Hl' Hs' (la_bounds _ _ _ _ _ _ _ Hla')) as (G1'&_). unfold anchor. fold k. lia.
Qed.

(** The rounds of a record within the limit. *)
Lemma record_rounds end_ len :
  len ≤ record_limit_ L → end_ ≤ rounds_cut_ raw + (partial_ raw + len) / min_forward_width_ L + 1 → has_room L core end_ = true.
Proof.
  intros Hlen Hend. destruct Hroom as (lo&hi&Hlay&Hring). pose proof (held_near lo hi Hlay) as Hheld. apply Z.leb_le.
  pose proof (ro_partial _ _ _ _ _ _ (ci_raw _ _ _ _ _ before_inv)) as Hp. pose proof (lk_pos L Hok).
  assert ((partial_ raw + len) / min_forward_width_ L ≤ (record_limit_ L + max_width_ L) / min_forward_width_ L) by (apply Nat.Div0.div_le_mono; lia). lia.
Qed.

Lemma final_end r len : start_of L None r + last_width_ L = length bytes + len → admits t (r + 1) →
  r + 1 ≤ rounds_cut_ raw + (partial_ raw + len) / min_forward_width_ L + 1.
Proof.
  intros Hr Hn. pose proof before_inv as [Hraw _ _ _]. pose proof (ro_len _ _ _ _ _ _ Hraw). pose proof (ro_cut _ _ _ _ _ _ Hraw). pose proof (lk_pos L Hok).
  destruct (decide (r ≤ rounds_cut_ raw)); [lia|].
  pose proof (forward_growth L Hok (rounds_cut_ raw) (r - rounds_cut_ raw)) as Hg. replace (rounds_cut_ raw + (r - rounds_cut_ raw)) with r in Hg by lia.
  assert (t_repeats t = true ∨ r < prefix_rounds_ L) as Hcase.
  { destruct (t_repeats t) eqn:E; [by left|right]. destruct (lk_fixed L Hok E) as (_&Hm&_). destruct Hn as [_ Hn]. specialize (Hn E). lia. }
  specialize (Hg Hcase). assert (r - rounds_cut_ raw ≤ (partial_ raw + len) / min_forward_width_ L); [|lia]. apply Nat.div_le_lower_bound; lia.
Qed.

(** No record within the limit is put off. *)
Lemma never_deferred data final core' :
  length data ≤ record_limit_ L → enqueue L core (Some data) (length data) final ≠ Ok (core', inl ingest_deferred).
Proof.
  intros Hlen He. unfold enqueue in He. apply bind_ok in He as ([]&_&He). rewrite (proj2 (Nat.ltb_ge _ _)) in He by done.
  rewrite bool_decide_eq_false_2, andb_false_r in He by done. apply bind_ok in He as (d&Hd&He).
  assert (d = data) as ->.
  { unfold read_n in Hd. cbn [from_option id] in Hd. rewrite (proj2 (Nat.leb_le _ _)) in Hd by lia. injection Hd as <-. by rewrite drop_0, firstn_all. }
  destruct final.
  - unfold enqueue_final in He. destruct (final_round_ok L Hok bytes core (length data) before_inv) as (res&Hf&Hres). rewrite Hf in He. cbn [mbind res_bind] in He.
    destruct res as [r|what]; [|done]. destruct (Hres r eq_refl) as (Hr&Hn&_).
    rewrite (record_rounds (r + 1) (length data) Hlen (final_end r (length data) Hr Hn)) in He. cbn [negb] in He.
    apply bind_ok in He as ([[raw' f'] [e|]]&_&He); [done|]. apply bind_ok in He as (i&_&He). done.
  - destruct (negb (t_repeats t) && _); [done|]. rewrite (record_rounds _ (length data) Hlen) in He by lia. cbn [negb] in He.
    apply bind_ok in He as ([[raw' f'] [e|]]&_&He); done.
Qed.
End before.
End progress.

(** ** A client that returns its views *)

(** Every view returned, then one [poll]. *)
Definition all_slots {R} (L : ingest_layout R) : list (nat * nat) :=
  mjoin (imap (λ l layer, pair l <$> seq 0 (il_max_views layer)) (layers_ L)).
Definition serve {R} (L : ingest_layout R) : list ingest_op := ((λ ls, op_release ls.1 ls.2) <$> all_slots L) ++ [op_poll].

Section serve.
Context {R : Type} `{RateOps R} (L : ingest_layout R) (Hok : layout_ok L) (Hlayers : layers_ok L).
Abbreviation shot_of core := (shot_rounds_ (core_shot core)).
Implicit Types core : ingest_core.

Lemma all_slots_elem l s layer : layers_ L !! l = Some layer → s < il_max_views layer → (l, s) ∈ all_slots L.
Proof.
  intros Hl Hs. apply list_elem_of_join. exists (pair l <$> seq 0 (il_max_views layer)). split.
  - apply list_elem_of_fmap. exists s. split; [done|]. apply elem_of_seq. lia.
  - apply list_elem_of_lookup. exists l. by rewrite list_lookup_imap, Hl.
Qed.

Lemma poll_loop_next least : ∀ fuel core core' p, poll_loop fuel L core least = Ok (core', p) →
  (next_index_ (core_views core) ≤ next_index_ (core_views core') ∧ (p ≠ None → next_index_ (core_views core) < next_index_ (core_views core')))%Z ∧
  (p = None → pools_ (core_views core') = pools_ (core_views core) ∧ out_ (core_views core') = out_ (core_views core)).
Proof.
  induction fuel as [|fuel IH]; intros core core' p Hp; cbn [poll_loop] in Hp; [done|].
  destruct (negb _ && _); [by injection Hp as <- <-|]. apply bind_ok in Hp as ([any|]&_&Hp); [|by injection Hp as <- <-].
  destruct any; cbn [negb] in Hp.
  - apply bind_ok in Hp as ([[pools out] views]&_&[= <- <-]). cbn. split; [lia|done].
  - destruct (IH _ _ _ Hp) as [[H1 H2] H3]. cbn in H1, H2, H3. split; [|done]. split; [lia|]. intros Hne. specialize (H2 Hne). lia.
Qed.

(** A release by slot, and one of every slot. *)
Lemma release_step bytes handed core l s :
  core_ok L bytes core → ∃ core', ingest_step L (op_release l s) (mk_run core bytes handed) = Ok (mk_run core' bytes handed) ∧
    core_ok L bytes core' ∧ returned core core' ∧ ∀ view, ¬ view_out (core_views core') l s view.
Proof.
  intros Hc. cbn [ingest_step run_core run_bytes run_handed]. destruct (pools_ (core_views core) !! l ≫= lookup s) as [view|] eqn:Ev.
  2:{ exists core. split_and!; try done. intros view (pool&flags&Hp&Hv&_). rewrite Hp in Ev. cbn in Ev. by rewrite Hv in Ev. }
  pose proof (release_ok L bytes core l s view Hc Ev) as Hrel.
  destruct (release core (Some (l, s)) view) as [core'|e|]; [exists core'; naive_solver|exists core|done].
  split_and!; try done. intros view' Hv'. apply Hrel. destruct Hv' as (pool&flags&Hp&Hv&Hf&Hs). rewrite Hp in Ev. cbn in Ev. rewrite Hv in Ev.
  injection Ev as <-. by exists pool, flags.
Qed.

Lemma returned_trans core core1 core2 : returned core core1 → returned core1 core2 → returned core core2.
Proof. intros (E1&E2&E3&H1) (F1&F2&F3&H2). split_and!; [congruence..|]. naive_solver. Qed.

Lemma release_slots bytes handed slots : ∀ core, core_ok L bytes core →
  ∃ core', run_ops L ((λ ls, op_release ls.1 ls.2) <$> slots) (mk_run core bytes handed) = Ok (mk_run core' bytes handed) ∧
    core_ok L bytes core' ∧ returned core core' ∧ ∀ l s view, (l, s) ∈ slots → ¬ view_out (core_views core') l s view.
Proof.
  induction slots as [|[l s] slots IH]; intros core Hc; [exists core; split_and!; try done; by intros l s view ?%elem_of_nil|].
  destruct (release_step bytes handed core l s Hc) as (core1&Hs&Hc1&Hr1&Hno1). destruct (IH core1 Hc1) as (core'&Hrun&Hc'&Hr'&Hno').
  exists core'. unfold run_ops in *. cbn [fmap list_fmap foldM fst snd]. rewrite Hs. split_and!; [exact Hrun|done|by eapply returned_trans|].
  intros l' s' view [[= -> ->]|Hin]%elem_of_cons Hv; [|by eapply Hno']. eapply Hno1. by apply Hr'.
Qed.

Lemma release_all bytes handed core : core_ok L bytes core →
  ∃ core', run_ops L ((λ ls, op_release ls.1 ls.2) <$> all_slots L) (mk_run core bytes handed) = Ok (mk_run core' bytes handed) ∧
    core_ok L bytes core' ∧ returned core core' ∧ none_held core'.
Proof.
  intros Hc. destruct (release_slots bytes handed (all_slots L) core Hc) as (core'&Hrun&Hc'&Hr&Hno). exists core'. split_and!; try done.
  intros l s view Hv. apply (Hno l s view); [|done]. destruct Hv as (pool&flags&Hp&Hv&Hf&Hs).
  destruct (lookup_lt_is_Some_2 (layers_ L) l) as [layer Hl]; [rewrite <-(pk_pools L _ (co_pools _ _ _ Hc')); by eapply lookup_lt_Some|].
  destruct (pk_layer L _ (co_pools _ _ _ Hc') l layer Hl) as (pool'&flags'&Hp'&_&Hlen&_). rewrite Hp in Hp'. injection Hp' as <-.
  apply (all_slots_elem l s layer Hl). rewrite <-Hlen. by eapply lookup_lt_Some.
Qed.

(** Indices left after FINAL. *)
Definition indices_left core : nat := Z.to_nat (index_end_ (core_shot core) - next_index_ (core_views core)).

Lemma run_ops_app ops1 ops2 run : run_ops L (ops1 ++ ops2) run = (run1 ← run_ops L ops1 run; run_ops L ops2 run1).
Proof. unfold run_ops. apply foldM_app. Qed.

Lemma serve_step run n :
  run_ok L run → (Z.of_nat (length (run_bytes run)) < 2 ^ 63)%Z → shot_of (run_core run) = Some n → failed_ (core_shot (run_core run)) = false →
  ∃ run', run_ops L (serve L) run = Ok run' ∧ run_ok L run' ∧ run_bytes run' = run_bytes run ∧ core_shot (run_core run') = core_shot (run_core run) ∧
    (done (run_core run') = true ∨ indices_left (run_core run') < indices_left (run_core run)).
Proof.
  intros [Hc Hh] Hsz Es Hnf. destruct run as [core bytes handed]. cbn [run_core run_bytes run_handed] in *. unfold serve. rewrite run_ops_app.
  destruct (release_all bytes handed core Hc) as (core1&->&Hc1&Hr&Hno). cbn [mbind res_bind]. pose proof (history_returned L _ _ _ _ Hr Hh) as Hh1.
  destruct Hr as (_&E1&E2&_). unfold run_ops. cbn [foldM ingest_step run_core run_bytes run_handed].
  destruct (poll_ok L Hok Hlayers bytes core1 handed Hc1 Hh1 Hsz) as (core'&p&Hp&Hc'&_&_&E3&Hrest). rewrite Hp. cbn [mbind res_bind fst snd].
  destruct p as [p|].
  - destruct Hrest as (new&Hnew&Hh'). rewrite Hnew. cbn [mbind res_bind]. eexists. split; [reflexivity|]. cbn [run_core run_bytes]. split; [by split|].
    split; [done|]. split; [congruence|]. unfold poll in Hp. rewrite E1, Hnf in Hp. apply poll_loop_next in Hp as [[_ Hlt] _]. specialize (Hlt ltac:(done)).
    destruct (done core') eqn:Ed; [by left|right]. rewrite done_next in Ed by congruence. apply Z.leb_gt in Ed. unfold indices_left. rewrite E3, E1 in *. lia.
  - destruct Hrest as [Hh' Hw]. cbn [mbind res_bind]. eexists. split; [reflexivity|]. cbn [run_core run_bytes]. split; [by split|].
    split; [done|]. split; [congruence|]. left. rewrite E1 in Hw. specialize (Hw Hnf).
    apply (final_drains L Hlayers bytes core' (least_of L core1) n); [done| |congruence|done].
    unfold poll in Hp. rewrite E1, Hnf in Hp. apply poll_loop_next in Hp as [_ Hsame]. destruct (Hsame eq_refl) as [Ep Eo].
    intros l s view (pool&flags&Hpl&Hv&Hf&Hs). apply (Hno l s view). exists pool, flags. by rewrite <-Ep, <-Eo.
Qed.

(** Served once per index left, and once more, the core is done. *)
Lemma serve_all n k : ∀ run,
  run_ok L run → (Z.of_nat (length (run_bytes run)) < 2 ^ 63)%Z → shot_of (run_core run) = Some n → failed_ (core_shot (run_core run)) = false →
  done (run_core run) = true ∨ indices_left (run_core run) < k →
  ∃ run', run_ops L (mjoin (replicate k (serve L))) run = Ok run' ∧ run_ok L run' ∧ run_bytes run' = run_bytes run ∧
    core_shot (run_core run') = core_shot (run_core run) ∧ done (run_core run') = true.
Proof.
  induction k as [|k IH]; intros run Hrun Hsz Es Hnf Hk; [exists run; destruct Hk; [done|lia]|].
  cbn [replicate mjoin list_join]. rewrite run_ops_app. destruct (serve_step run n Hrun Hsz Es Hnf) as (run1&->&Hrun1&Eb&E1&Hleft). cbn [mbind res_bind].
  destruct (IH run1 Hrun1) as (run'&Hr&Hok'&Eb'&E'&Hd); [by rewrite Eb|by rewrite E1|by rewrite E1| |].
  - destruct Hleft as [?|Hlt]; [by left|]. destruct Hk as [Hd|Hk]; [|right; lia]. rewrite done_next in Hd by congruence.
    apply Z.leb_le in Hd. unfold indices_left in Hlt. lia.
  - exists run'. split_and!; [done|done|congruence|congruence|done].
Qed.
End serve.

(** ** Complete shots are accepted *)

Section accept.
Context {R : Type} `{RateOps R} (L : ingest_layout R) (Hok : layout_ok L) (Hlayers : layers_ok L).
Abbreviation t := (context_ L).
Abbreviation start := (start_of L None).
Abbreviation shot_of core := (shot_rounds_ (core_shot core)).
Implicit Types core : ingest_core.

Section length.
Context n (Hn : admits t n).

Lemma forward_pos r : t_repeats t = true ∨ r + 1 < n → 1 ≤ forward_width L r.
Proof.
  intros Hr. pose proof (lk_pos L Hok). enough (min_forward_width_ L ≤ forward_width L r) by lia. apply (lk_forward L Hok).
  destruct (t_repeats t) eqn:E; [by left|right]. destruct Hr as [?|?]; [done|]. destruct (lk_fixed L Hok E) as (_&Hm&_). destruct Hn as [_ Hn']. specialize (Hn' E). lia.
Qed.

Lemma start_strict a b : a < b → t_repeats t = true ∨ b < n → start a < start b.
Proof.
  intros Hab Hb. induction Hab as [|b _ IH]; cbn [start_of width_at]; [pose proof (forward_pos a)|pose proof (forward_pos b)].
  - enough (1 ≤ forward_width L a) by lia. apply forward_pos. destruct Hb; [by left|right; lia].
  - assert (start a < start b) by (apply IH; destruct Hb; [by left|right; lia]). lia.
Qed.

(** The readout round is found from wherever the cut stands. *)
Lemma forward_finds fuel : ∀ r, r ≤ n - 1 → start (n - 1) ≤ start r + fuel →
  forward_to (S fuel) L (start (n - 1)) (start r) r = Ok (inl (start (n - 1), n - 1)).
Proof.
  pose proof (admits_rounds L Hok n Hn) as [_ Hn1].
  assert (∀ r, r < n - 1 → start r < start (n - 1)) as Hlt by (intros r Hr; apply start_strict; [done|right; lia]).
  assert (∀ f, forward_to (S f) L (start (n - 1)) (start (n - 1)) (n - 1) = Ok (inl (start (n - 1), n - 1))) as Hdone.
  { intros f. remember (S f) as m eqn:Em. rewrite Em. cbn [forward_to]. by rewrite Nat.ltb_irrefl. }
  induction fuel as [|fuel IH]; intros r Hr Hf; (destruct (decide (r = n - 1)) as [->|Hne]; [apply Hdone|]); specialize (Hlt r ltac:(lia)) as Hs; [lia|].
  remember (S fuel) as m eqn:Em. cbn [forward_to]. rewrite (proj2 (Nat.ltb_lt _ _)) by done.
  assert (negb (t_repeats t) && (prefix_rounds_ L <=? r + 1) = false) as ->.
  { destruct (t_repeats t) eqn:E; [done|]. destruct (lk_fixed L Hok E) as (_&Hm&_). destruct Hn as [_ Hn']. specialize (Hn' E). cbn. apply Nat.leb_gt. lia. }
  assert (start (r + 1) = start r + forward_width L r) as Es by (by rewrite Nat.add_1_r).
  pose proof (forward_pos r ltac:(right; lia)). pose proof (start_of_mono L None (r + 1) (n - 1) ltac:(lia)).
  rewrite (proj2 (Nat.ltb_ge _ _)) by lia. rewrite <-Es. apply IH; lia.
Qed.

Lemma back_finds r : n - 1 ≤ r → t_repeats t = true ∨ r < n → back_to L (start (n - 1)) (start r) r = (start (n - 1), n - 1).
Proof.
  intros Hr Hc. induction Hr as [|r Hr IH].
  - destruct (n - 1) eqn:E; [done|]. rewrite <-E at 1 2. cbn [back_to]. by rewrite E, Nat.ltb_irrefl.
  - cbn [back_to]. rewrite (proj2 (Nat.ltb_lt _ _)) by (apply start_strict; [lia|done]). change (start (S r)) with (start r + forward_width L r).
    rewrite Nat.add_sub. apply IH. destruct Hc; [by left|right; lia].
Qed.

Lemma final_round_finds bytes core len :
  cut_inv L None bytes (core_raw core) (core_formed core) → length bytes + len = start (n - 1) + last_width_ L →
  final_round L core len = Ok (inl (n - 1)).
Proof.
  intros Hinv Hlen. pose proof Hinv as [Hraw _ Hb Hcut]. pose proof (admits_rounds L Hok n Hn) as [_ Hn1]. unfold final_round.
  rewrite <-(ro_len _ _ _ _ _ _ Hraw), (ro_cut _ _ _ _ _ _ Hraw), Hlen. rewrite (proj2 (Nat.ltb_ge _ _)) by lia. rewrite Nat.add_sub.
  set (c := rounds_cut_ (core_raw core)) in *.
  assert (t_repeats t = true ∨ c < n) as Hc.
  { destruct (t_repeats t) eqn:E; [by left|right]. destruct (lk_fixed L Hok E) as (_&Hm&_). destruct Hn as [_ Hn']. specialize (Hn' E).
    destruct Hcut as [[[?|?] _]|(_&?&_)]; [congruence|unfold c; lia..]. }
  assert (∃ r, n - 1 ≤ r ∧ (t_repeats t = true ∨ r < n) ∧ forward_to (start (n - 1) + 1) L (start (n - 1)) (start c) c = Ok (inl (start r, r))) as (r&Hr1&Hr2&->).
  { rewrite Nat.add_1_r. destruct (decide (c ≤ n - 1)) as [Hle|Hgt]; [exists (n - 1); split_and!; [done|right; lia|apply forward_finds; lia]|].
    exists c. split_and!; [lia|done|]. cbn [forward_to]. rewrite (proj2 (Nat.ltb_ge _ _)); [done|]. apply start_of_mono. lia. }
  cbn [mbind res_bind]. rewrite (back_finds r Hr1 Hr2), Nat.eqb_refl. cbn [negb]. f_equal.
  assert ((if t_repeats t then n - 1 + 1 <? t_min_rounds t else negb (n - 1 + 1 =? t_min_rounds t)) = false) as ->.
  { rewrite Nat.sub_add by done. destruct Hn as [Hn' Hf]. destruct (t_repeats t); [apply Nat.ltb_ge; lia|]. apply negb_false_iff, Nat.eqb_eq. by apply Hf. }
  assert (formed_ (core_formed core) + suffix_rounds_ L ≤ n) as Hfb by (apply (Hb eq_refl n Hn); lia).
  destruct (Nat.ltb_spec 0 (suffix_rounds_ L)); [|by rewrite andb_false_r]. by rewrite (proj2 (Nat.ltb_ge _ _)) by lia.
Qed.
End length.

(** A record of a shot is taken or put off, never refused. *)
Lemma enqueue_takes bytes core data final n :
  core_ok L bytes core → shot_of core = None → failed_ (core_shot core) = false → admits t n → length data ≤ record_limit_ L →
  (if (final : bool) then length bytes + length data = start_of L (Some n) n else length bytes + length data ≤ start_of L (Some n) n) →
  ∃ core', (enqueue L core (Some data) (length data) final = Ok (core', inl ingest_deferred) ∧ core' = core) ∨
    (enqueue L core (Some data) (length data) final = Ok (core', inl ingest_accepted) ∧ (final = true → shot_of core' = Some n)).
Proof.
  intros Hc Es Hnf Hn Hlen Htotal. pose proof (co_rounds _ _ _ Hc) as Hr. rewrite Es in Hr. cbn [rounds_inv] in Hr.
  pose proof (admits_rounds L Hok n Hn) as [_ Hn1]. rewrite start_end in Htotal by done.
  pose proof (enqueue_ok L Hok Hlayers bytes core data final Hc) as He. unfold enqueue, check_open in *. rewrite Hnf, Es in *.
  change (bool_decide (None = None)) with true in *. cbn [throw_if negb mbind res_bind] in *. rewrite (proj2 (Nat.ltb_ge _ _)) in * by done.
  rewrite bool_decide_eq_false_2, andb_false_r in * by done. cbn [from_option id] in *.
  assert (read_n data 0 (length data) = Ok data) as Hread by (unfold read_n; rewrite (proj2 (Nat.leb_le _ _)) by lia; by rewrite drop_0, firstn_all).
  rewrite Hread in *. cbn [mbind res_bind] in *. destruct final.
  - unfold enqueue_final in *. rewrite (final_round_finds n Hn bytes core (length data) Hr Htotal) in *. cbn [mbind res_bind] in *. rewrite Nat.sub_add in * by done.
    destruct (has_room L core n); cbn [negb] in *; [|exists core; by left].
    destruct (finish_rounds L (n - 1) data (core_raw core, core_formed core)) as [[[raw f] [e|]]|e|]; cbn [mbind res_bind] in *; [|..|by destruct He as [?|?]|done].
    { apply (f_equal (λ c, shot_of c)) in He. cbn in He. congruence. }
    destruct (foldM _ (layers_ L) []) as [i|e|]; cbn [mbind res_bind] in *; [eexists; by right|by destruct He|done].
  - assert (negb (t_repeats t) && (fixed_measurements_ L <? cut_bytes_ (core_raw core) + partial_ (core_raw core) + length data) = false) as Efix.
    { destruct (t_repeats t) eqn:E; [done|]. cbn. apply Nat.ltb_ge. rewrite (lk_total L Hok E), <-(ro_len _ _ _ _ _ _ (ci_raw _ _ _ _ _ Hr)).
      rewrite <-(lk_last_fixed L Hok E) in Htotal. destruct (lk_fixed L Hok E) as (_&Hm&Hp). destruct Hn as [_ Hf]. specialize (Hf E). rewrite Hm in Hf. subst n.
      replace (start (prefix_rounds_ L)) with (start (S (prefix_rounds_ L - 1))) by (f_equal; lia). exact Htotal. }
    rewrite Efix in *. destruct (has_room L core _); cbn [negb] in *; [|exists core; by left].
    destruct (cut_ok L Hok None data (core_raw core) (core_formed core) bytes Hr) as (raw'&f'&->&_); [|eexists; by right].
    destruct (t_repeats t) eqn:E; [by left|right]. rewrite <-(lk_total L Hok E). apply Nat.ltb_ge in Efix. by rewrite (ro_len _ _ _ _ _ _ (ci_raw _ _ _ _ _ Hr)).
Qed.
End accept.
