(* ===== verification/IngestProps.v ===== *)
(** * The ingest core: what a client gets

    Against the experiment template: after FINAL the windows handed over are the
    windows of the shot, with the shot's own detectors; views out stay readable;
    nothing stalls when the client returns its views. *)

From Stdlib Require Import QArith.
From S2P Require Import Prelude Rates Ordering Tensor SparseMatrix RoundLayout DetectorErrorModel ExtendedDem ChunkSpec ExperimentTemplate TemplateFacts TemplateProps WindowRequest WindowRequestFacts WindowPlace WindowBuild CommitProps Ingest IngestRounds IngestViews IngestLayout IngestRun.

Open Scope nat_scope.

(** ** The shot, by its template *)

(** The measurements of round [r] in a shot of [n] rounds. *)
Definition round_measurements {R} (t : experiment_template R) (bytes : list nat) (n r : nat) : res (list nat) :=
  a ← measurement_offset t r n;
  b ← measurement_offset t (r + 1) n;
  Ok (take (b - a) (drop a bytes)).

(** Its detectors: by the [D_sparse] of its phase over the round and the one
    before, or by the memory convention when the spec has none. *)
Definition round_detectors {R} (t : experiment_template R) (bytes : list nat) (n r : nat) : res (list nat) :=
  current ← round_measurements t bytes n r;
  before ← (if r =? 0 then Ok None else b ← round_measurements t bytes n (r - 1); Ok (Some b));
  if has_D_sparse (t_spec t)
  then d ← d_of t n r; Ok (sparse_detectors d (default [] before) current)
  else Ok (memory_detectors_of before current).

Definition shot_detectors {R} (t : experiment_template R) (bytes : list nat) (n : nat) : res (list nat) :=
  for_u 0 n (λ r shot, d ← round_detectors t bytes n r; Ok (shot ++ d)) [].

(** Window [rows_k] of request [q] in a shot of [n] rounds with detectors [shot]. *)
Definition is_window {R} `{RateOps R} (t : experiment_template R) (q : window_request R) (n : nat) (shot : list nat) (rows : window_rows) : Prop :=
  ∃ span last,
    zone_span q = Ok span ∧
    rows_rounds rows = clip_rounds span (wr_offset q + rows_k rows * wr_period q) (Z.of_nat n) ∧
    window_variant t q (rows_k rows) n = Ok (rows_variant rows) ∧
    row_offset t (Z.to_nat (rr_begin (rows_rounds rows))) n = Ok (rows_first_row rows) ∧
    row_offset t (Z.to_nat (rr_end (rows_rounds rows))) n = Ok last ∧
    rows_detectors rows = take (last - rows_first_row rows) (drop (rows_first_row rows) shot).

Lemma shots_fit_max {R} (t : experiment_template R) n :
  template_ok t → admits t n → shots_fit t (n `max` probe t) → shots_fit t n ∧ shots_fit t (probe t).
Proof.
  intros Ht Hn Hf. assert (admits t (n `max` probe t)) as Hmax.
  { pose proof (probe_admits t). destruct (Nat.max_spec n (probe t)) as [[_ ->]|[_ ->]]; done. }
  split; (eapply shots_fit_mono; [done|exact Hmax| | |exact Hf]); [done|lia|apply probe_admits|lia].
Qed.

Section client.
Context {R : Type} `{RateOps R} (t : experiment_template R) (Htok : template_ok t) (Hfit : shots_fit t (probe t)).
Context (layers : list (ingest_layer R)) (L : ingest_layout R) (core : ingest_core) (Hmake : make_ingest (Some t) layers = Ok (L, core)).

Lemma probe_pos : 1 ≤ probe t.
Proof.
  destruct (probe t) as [|n] eqn:E; [exfalso|lia]. unfold make_ingest in Hmake. apply bind_ok in Hmake as ([g period]&_&Hm).
  apply bind_ok in Hm as (L0&HL0&_). unfold measure in HL0. change (if t_repeats t then t_min_rounds t + 2 else t_min_rounds t) with (probe t) in HL0. rewrite E in HL0.
  apply bind_ok in HL0 as ([[w r] d]&_&HL0). apply bind_ok in HL0 as ([[[? ?] ?] [? ?]]&_&HL0). apply bind_ok in HL0 as (lw&Hlw&_).
  unfold width_of in Hlw. apply bind_ok in Hlw as (b&Hb&_). unfold measurement_offset, sum_before in Hb. apply bind_ok in Hb as ([]&Hc&_).
  unfold check_round in Hc. apply bind_ok in Hc as ([]&_&Hc). apply bind_ok in Hc as ([]&_&Hc%throw_if_ok). apply Nat.ltb_ge in Hc. lia.
Qed.

Lemma client_layout : layout_ok L.
Proof. exact (make_layout_ok t Htok Hfit probe_pos layers L core Hmake). Qed.

Lemma client_layers : layers_ok L ∧ layers_ L = layers.
Proof. exact (make_layers_ok t Htok Hfit probe_pos layers L core Hmake). Qed.

Lemma client_measured : measured_layout t L ∧ ∀ n r, t_min_rounds t ≤ n ≤ probe t → r < n → check_round_form L n r = Ok tt.
Proof. by destruct (make_layout t Htok Hfit probe_pos layers L core Hmake) as (?&?&_). Qed.

Lemma client_start : run_ok L (mk_run core [] []).
Proof.
  destruct (make_inv t layers L core Hmake) as (g&L0&_&_&_&_&_&Hr).
  destruct (empty_core_ok L client_layout core Hr). by split.
Qed.

Lemma client_run ops : (Z.of_nat (sum_list_with op_bytes ops) < 2 ^ 63)%Z →
  ∃ run, run_ops L ops (mk_run core [] []) = Ok run ∧ run_ok L run ∧ (Z.of_nat (length (run_bytes run)) < 2 ^ 63)%Z.
Proof.
  intros Hsize. destruct (run_ops_ok L client_layout (proj1 client_layers) ops _ client_start Hsize) as (run&Hrun&Hr&Hl).
  exists run. split; [done|]. split; [done|]. cbn [run_bytes length Nat.add] in Hl. lia.
Qed.

Section shot.
Context (bytes : list nat) (n : nat) (Hn : admits t n) (Hfn : shots_fit t n) (Hbytes : length bytes = start_of L (Some n) n).
Abbreviation sh := (Some n).

Lemma client_offsets r : r ≤ n → measurement_offset t r n = Ok (start_of L sh r) ∧ row_offset t r n = Ok (row_start L sh r).
Proof. destruct client_measured as [Hm Hchk]. by apply (layout_offsets t Htok L Hm Hfit probe_pos Hchk). Qed.

Lemma round_measurements_eq r : r < n → round_measurements t bytes n r = Ok (round_bits L sh bytes r).
Proof.
  intros Hr. unfold round_measurements. rewrite (proj1 (client_offsets r ltac:(lia))), (proj1 (client_offsets (r + 1) ltac:(lia))). cbn [mbind res_bind].
  unfold round_bits. do 2 f_equal. rewrite Nat.add_1_r. cbn [start_of]. lia.
Qed.

Lemma round_detectors_eq r : r < n → round_detectors t bytes n r = Ok (det_of L sh bytes r).
Proof.
  intros Hr. destruct client_measured as [Hm Hchk]. unfold round_detectors. rewrite (round_measurements_eq r Hr). cbn [mbind res_bind].
  assert ((if r =? 0 then Ok None else b ← round_measurements t bytes n (r - 1); Ok (Some b)) =
    Ok (if r =? 0 then None else Some (round_bits L sh bytes (r - 1)))) as ->.
  { destruct (Nat.eqb_spec r 0); [done|]. by rewrite round_measurements_eq by lia. }
  cbn [mbind res_bind]. unfold det_of. rewrite (ml_has_d t L Hm). destruct (has_D_sparse (t_spec t)); [|done].
  destruct (layout_width t Htok L Hm Hfit probe_pos Hchk n r Hn Hr) as (id&c&Hid&_&_&_&Hd). rewrite (d_at t Htok n Hn Hfn r id Hr Hid), Hd. cbn [mbind res_bind]. done.
Qed.

Definition shot_vector : list nat := concat (det_of L sh bytes <$> seq 0 n).

Lemma shot_detectors_eq : shot_detectors t bytes n = Ok shot_vector.
Proof.
  unfold shot_detectors, shot_vector.
  destruct (for_u_inv 0 n (λ r shot, d ← round_detectors t bytes n r; Ok (shot ++ d)) (λ r shot, shot = concat (det_of L sh bytes <$> seq 0 r)) []) as (shot&Hs&->); [lia|done| |exact Hs].
  intros r shot Hr ->. rewrite round_detectors_eq by lia. cbn [mbind res_bind]. apply returns_ok.
  rewrite Nat.add_1_r, seq_S, fmap_app, concat_app. cbn. by rewrite app_nil_r.
Qed.

(** A range of rounds is a slice of the shot. *)
Lemma rounds_slice a b : a ≤ b → b ≤ n →
  concat (det_of L sh bytes <$> seq a (b - a)) = take (row_start L sh b - row_start L sh a) (drop (row_start L sh a) shot_vector).
Proof.
  intros Hab Hb.
  assert (∀ r, r ≤ n → length (concat (det_of L sh bytes <$> seq 0 r)) = row_start L sh r) as Hlen.
  { induction r as [|r IH]; intros Hr; [done|]. rewrite seq_S, fmap_app, concat_app, length_app, IH by lia. cbn [fmap list_fmap concat row_start Nat.add].
    rewrite app_nil_r. f_equal. apply (length_det_of L client_layout); [split; [by rewrite (ml_context t L (proj1 client_measured))|lia]|].
    rewrite Hbytes. apply start_of_mono. lia. }
  assert (shot_vector = concat (det_of L sh bytes <$> seq 0 a) ++ concat (det_of L sh bytes <$> seq a (b - a)) ++ concat (det_of L sh bytes <$> seq b (n - b))) as Hv.
  { unfold shot_vector. rewrite <-!concat_app, <-!fmap_app. do 2 f_equal. replace n with (a + ((b - a) + (n - b))) at 1 by lia.
    rewrite !seq_app. do 3 f_equal; lia. }
  pose proof (Hlen a ltac:(lia)) as Ha. pose proof (Hlen b Hb) as Hlb.
  assert (seq 0 b = seq 0 a ++ seq a (b - a)) as Es by (replace b with (a + (b - a)) at 1 by lia; by rewrite seq_app).
  rewrite Es, fmap_app, concat_app, length_app, Ha in Hlb. rewrite Hv, <-Ha, drop_app_length, Ha.
  rewrite take_app_le by lia. rewrite firstn_all2; [done|lia].
Qed.

(** What was handed over is a window of the shot. *)
Lemma handed_window h : handed_ok L sh bytes n h →
  ∃ layer, layers !! h.1 = Some layer ∧ is_window t (il_request layer) n shot_vector h.2.
Proof.
  destruct client_layers as [Hly Hll]. pose proof (ml_context t L (proj1 client_measured)) as Ht.
  intros (layer&commit&span&bounds&first&Hl&Hla&_&Hw&Hend&Hrow&Hdet&Hrng&Hvar&_). exists layer. split; [by rewrite <-Hll|].
  set (w := rows_rounds h.2) in *. exists span, (row_start L sh (Z.to_nat (rr_end w))). fold w.
  rewrite Hrow, (proj2 (client_offsets (Z.to_nat (rr_begin w)) ltac:(lia))), (proj2 (client_offsets (Z.to_nat (rr_end w)) ltac:(lia))). split_and!; try done.
  - unfold zone_span, commit_of. rewrite (an_commit _ _ (rq_anchor _ _ (la_request _ _ _ _ _ _ _ Hla))). cbn. by rewrite (la_span _ _ _ _ _ _ _ Hla).
  - rewrite (la_period _ _ _ _ _ _ _ Hla). exact Hrng.
  - unfold window_variant. rewrite <-Ht, (la_variant _ _ _ _ _ _ _ Hla). cbn. by rewrite Hvar.
  - rewrite Hdet. unfold dets. rewrite <-rounds_slice by lia. do 3 f_equal. lia.
Qed.
End shot.
End client.

(** ** Theorems *)

(** A core made for a template and its layers. *)
Record ingest_setup {R} `{RateOps R} (spec : dem_chunks_spec R) (t : experiment_template R) (layers : list (ingest_layer R))
    (L : ingest_layout R) (core : ingest_core) : Prop := {
  se_template : make_template spec = Ok t;
  se_countable : countable spec;
  se_joined : joined_spec spec;
  se_fits : shots_fit t (probe t);
  se_made : make_ingest (Some t) layers = Ok (L, core)
}.

Lemma setup_template {R} `{RateOps R} (spec : dem_chunks_spec R) t layers L core : ingest_setup spec t layers L core → template_ok t.
Proof. intros [Ht Hc Hj _ _]. by eapply make_template_ok. Qed.

(** C2. The ingest core hands over the shot.  Whatever records, polls, releases
    and resets a client issues, no access leaves a buffer.  Once a FINAL record
    fixes the shot at [n] rounds, [n] is a length the template admits and the
    measurements accepted since the last reset are exactly its measurements;
    every window handed over since then, before FINAL or after it, has the
    rounds, the variant, the first row and the detectors that its request has in
    this shot; and when the core is done each layer has handed over exactly its
    instances in this shot, each once and in order. *)
Theorem ingest_hands_over_shot {R} `{RateOps R} (spec : dem_chunks_spec R) t layers L core ops :
  ingest_setup spec t layers L core → (Z.of_nat (sum_list_with op_bytes ops) < 2 ^ 63)%Z →
  ∃ run, run_ops L ops (mk_run core [] []) = Ok run ∧
    ∀ n, shot_rounds_ (core_shot (run_core run)) = Some n → shots_fit t (n `max` probe t) →
      admits t n ∧ measurement_offset t n n = Ok (length (run_bytes run)) ∧
      ∃ shot, shot_detectors t (run_bytes run) n = Ok shot ∧
        (∀ l rows, (l, rows) ∈ run_handed run → ∃ layer, layers !! l = Some layer ∧ is_window t (il_request layer) n shot rows) ∧
        (done (run_core run) = true → ∀ l layer, layers !! l = Some layer →
          ∃ i, window_instances (il_request layer) n = Ok i ∧ indices_of l (run_handed run) = z_range (ir_begin i) (ir_end i)).
Proof.
  intros Hset Hsize. pose proof (setup_template _ _ _ _ _ Hset) as Htok. destruct Hset as [_ _ _ Hfit Hmake].
  destruct (client_run t Htok Hfit layers L core Hmake ops Hsize) as (run&Hrun&[Hc Hh]&Hsz). exists run. split; [done|].
  intros n Es Hmax. pose proof (co_rounds _ _ _ Hc) as Hr. rewrite Es in Hr. destruct Hr as (Hn&_&Hf&Hb).
  destruct (client_measured t Htok Hfit layers L core Hmake) as [Hm _]. rewrite (ml_context t L Hm) in Hn.
  destruct (shots_fit_max t n Htok Hn Hmax) as [Hfn _]. split; [done|]. rewrite Hb.
  split; [by apply (client_offsets t Htok Hfit layers L core Hmake n Hn Hfn n)|].
  exists (shot_vector L (run_bytes run) n). split; [by apply (shot_detectors_eq t Htok Hfit layers L core Hmake)|]. split.
  - intros l rows Hin. pose proof (proj1 (Forall_forall _ _) (hi_handed L _ _ _ Hh) _ Hin) as Hho. rewrite Es, Hf in Hho.
    exact (handed_window t Htok Hfit layers L core Hmake (run_bytes run) n Hn Hfn Hb (l, rows) Hho).
  - intros Hd l layer Hl. destruct (client_layers t Htok Hfit layers L core Hmake) as [Hly Hll]. rewrite <-Hll in Hl.
    by apply (done_indices L (client_layout t Htok Hfit layers L core Hmake) Hly (run_bytes run) (run_core run)).
Qed.

(** C12. Views out stay readable.  Whatever is enqueued, polled or released
    after it, a view that has not been released reads in full, and
    [copy_window] gives the very rows it gave when it was handed over. *)
Theorem views_stay_readable {R} `{RateOps R} (spec : dem_chunks_spec R) t layers L core ops run l s view :
  ingest_setup spec t layers L core → (Z.of_nat (sum_list_with op_bytes ops) < 2 ^ 63)%Z →
  run_ops L ops (mk_run core [] []) = Ok run → view_out (core_views (run_core run)) l s view →
  ∃ rows, (l, rows) ∈ run_handed run ∧ copy_window L (run_core run) view = Ok rows.
Proof.
  intros Hset Hsize Hrun Hv. pose proof (setup_template _ _ _ _ _ Hset) as Htok. destruct Hset as [_ _ _ Hfit Hmake].
  destruct (client_run t Htok Hfit layers L core Hmake ops Hsize) as (run'&Hrun'&Hok&Hsz). rewrite Hrun in Hrun'. injection Hrun' as <-.
  by apply (view_reads L (client_layout t Htok Hfit layers L core Hmake) run l s).
Qed.

(** C13. Nothing stalls.  When [poll] has no window to hand over and every view
    has been returned, the core is done if FINAL has fixed the shot; before that
    no record within the limit is deferred: the ring holds every round that a
    window still to come needs, next to those of the record. *)
Theorem ingest_never_stalls {R} `{RateOps R} (spec : dem_chunks_spec R) t layers L core ops run core' :
  ingest_setup spec t layers L core → modest t layers L → (Z.of_nat (sum_list_with op_bytes ops) < 2 ^ 63)%Z →
  run_ops L ops (mk_run core [] []) = Ok run → failed_ (core_shot (run_core run)) = false →
  poll L (run_core run) = Ok (core', None) → none_held core' →
  match shot_rounds_ (core_shot core') with
  | Some _ => done core' = true
  | None => ∀ data final core'', length data ≤ record_limit_ L →
      enqueue L core' (Some data) (length data) final ≠ Ok (core'', inl ingest_deferred)
  end.
Proof.
  intros Hset Hmod Hsize Hrun Hnf Hpoll Hno. pose proof (setup_template _ _ _ _ _ Hset) as Htok. destruct Hset as [_ _ _ Hfit Hmake].
  destruct (client_run t Htok Hfit layers L core Hmake ops Hsize) as (run'&Hrun'&[Hc Hh]&Hsz). rewrite Hrun in Hrun'. injection Hrun' as <-.
  pose proof (client_layout t Htok Hfit layers L core Hmake) as Hlay. destruct (client_layers t Htok Hfit layers L core Hmake) as [Hly _].
  pose proof (make_room t Htok Hfit (probe_pos t Hfit layers L core Hmake) layers L core Hmake Hmod) as Hroom.
  destruct (poll_ok L Hlay Hly _ _ _ Hc Hh Hsz) as (core1&p&Hp&Hc1&E1&E2&E3&Hrest). rewrite Hpoll in Hp. injection Hp as <- <-.
  destruct Hrest as [_ Hw]. specialize (Hw Hnf).
  assert (least_of L (run_core run) = least_of L core') as Hl by (unfold least_of; by rewrite E1, E3). rewrite Hl in Hw.
  destruct (shot_rounds_ (core_shot core')) as [n|] eqn:Es; [by eapply final_drains|].
  intros data final core''. by eapply never_deferred.
Qed.

(** C14. The whole shot is delivered.  After FINAL, a client that returns every
    view and polls, once for each index left and once more, has been handed
    every window of the shot: each layer's instances, each once and in order,
    whatever it was handed before. *)
Theorem final_shot_delivered {R} `{RateOps R} (spec : dem_chunks_spec R) t layers L core ops run n :
  ingest_setup spec t layers L core → (Z.of_nat (sum_list_with op_bytes ops) < 2 ^ 63)%Z →
  run_ops L ops (mk_run core [] []) = Ok run →
  shot_rounds_ (core_shot (run_core run)) = Some n → failed_ (core_shot (run_core run)) = false →
  ∃ run', run_ops L (mjoin (replicate (indices_left (run_core run) + 1) (serve L))) run = Ok run' ∧ run_bytes run' = run_bytes run ∧
    shot_rounds_ (core_shot (run_core run')) = Some n ∧ done (run_core run') = true ∧
    ∀ l layer, layers !! l = Some layer →
      ∃ i, window_instances (il_request layer) n = Ok i ∧ indices_of l (run_handed run') = z_range (ir_begin i) (ir_end i).
Proof.
  intros Hset Hsize Hrun Es Hnf. pose proof (setup_template _ _ _ _ _ Hset) as Htok. destruct Hset as [_ _ _ Hfit Hmake].
  destruct (client_run t Htok Hfit layers L core Hmake ops Hsize) as (run1&Hrun1&Hok&Hsz). rewrite Hrun in Hrun1. injection Hrun1 as <-.
  pose proof (client_layout t Htok Hfit layers L core Hmake) as Hlay. destruct (client_layers t Htok Hfit layers L core Hmake) as [Hly Hll].
  destruct (serve_all L Hlay Hly n (indices_left (run_core run) + 1) run Hok Hsz Es Hnf) as (run'&Hr&[Hc' Hh']&Eb&E&Hd); [right; lia|].
  exists run'. split_and!; [done|done|congruence|done|]. intros l layer Hl. rewrite <-Hll in Hl.
  apply (done_indices L Hlay Hly (run_bytes run') (run_core run')); [done..|congruence|done|done].
Qed.

(** C15. A shot is never refused.  While FINAL is outstanding, a record within
    the limit that continues a shot of [n] rounds, and a FINAL record that
    completes one, is accepted or deferred, whatever the rounds it cuts through
    and however many rounds are formed already; deferring changes nothing, and
    accepting FINAL fixes the shot at [n] rounds. *)
Theorem shot_records_taken {R} `{RateOps R} (spec : dem_chunks_spec R) t layers L core ops run n m data (final : bool) :
  ingest_setup spec t layers L core → (Z.of_nat (sum_list_with op_bytes ops) < 2 ^ 63)%Z →
  run_ops L ops (mk_run core [] []) = Ok run →
  shot_rounds_ (core_shot (run_core run)) = None → failed_ (core_shot (run_core run)) = false →
  admits t n → shots_fit t (n `max` probe t) → measurement_offset t n n = Ok m → length data ≤ record_limit_ L →
  (if final then length (run_bytes run) + length data = m else length (run_bytes run) + length data ≤ m) →
  ∃ core', enqueue L (run_core run) (Some data) (length data) final = Ok (core', inl ingest_deferred) ∧ core' = run_core run ∨
    enqueue L (run_core run) (Some data) (length data) final = Ok (core', inl ingest_accepted) ∧
      (final = true → shot_rounds_ (core_shot core') = Some n).
Proof.
  intros Hset Hsize Hrun Es Hnf Hn Hmax Hm Hlen Htotal. pose proof (setup_template _ _ _ _ _ Hset) as Htok. destruct Hset as [_ _ _ Hfit Hmake].
  destruct (client_run t Htok Hfit layers L core Hmake ops Hsize) as (run1&Hrun1&[Hc _]&_). rewrite Hrun in Hrun1. injection Hrun1 as <-.
  pose proof (client_layout t Htok Hfit layers L core Hmake) as Hlay. destruct (client_layers t Htok Hfit layers L core Hmake) as [Hly _].
  destruct (shots_fit_max t n Htok Hn Hmax) as [Hfn _]. rewrite (proj1 (client_offsets t Htok Hfit layers L core Hmake n Hn Hfn n ltac:(lia))) in Hm. injection Hm as <-.
  apply (enqueue_takes L Hlay Hly (run_bytes run)); try done. destruct (client_measured t Htok Hfit layers L core Hmake) as [HmL _]. by rewrite (ml_context t L HmL).
Qed.

(** ** An example

    The memory experiment of the templates' example with two layers of windows:
    two records of a shot of five rounds, the second FINAL. *)

Definition memory_ingest : list (ingest_layer Q) := [mk_ingest_layer anchor_request 2; mk_ingest_layer joining_request 2].

Definition memory_core : res (ingest_layout Q * ingest_core) := Eval vm_compute in make_ingest (Some memory_template) memory_ingest.
Definition memory_shot : list ingest_op :=
  [op_enqueue [1; 1; 0] false; op_poll; op_enqueue [1; 1] true; op_poll; op_poll].

Lemma memory_setup : ∃ L core, memory_core = Ok (L, core) ∧ ingest_setup memory_spec memory_template memory_ingest L core.
Proof.
  eexists _, _. split; [reflexivity|]. split.
  - exact memory_template_ok.
  - vm_compute. done.
  - intros _. vm_compute. reflexivity.
  - split; [vm_compute; reflexivity|]. intros ps' Hps'. change (probe memory_template) with 5 in Hps'.
    repeat match goal with
    | H : shot_of _ _ _ |- _ => unfold shot_of, built_as in H; cbn in H
    | H : Forall2 _ (_ :: _) _ |- _ => apply Forall2_cons_inv_l in H as (?&?&[= <-]&H&->)
    | H : Forall2 _ [] _ |- _ => apply Forall2_nil_inv_l in H as ->
    end. vm_compute. done.
  - vm_compute. reflexivity.
Qed.

Definition memory_run : res ingest_run :=
  Eval vm_compute in '(L, core) ← memory_core; run_ops L memory_shot (mk_run core [] []).

Lemma memory_run_eq L core : memory_core = Ok (L, core) → run_ops L memory_shot (mk_run core [] []) = memory_run.
Proof. intros [= <- <-]. vm_compute. reflexivity. Qed.

Lemma ingest_hands_over_shot_witness :
  ∃ run shot, memory_run = Ok run ∧ shot_detectors memory_template [1; 1; 0; 1; 1] 5 = Ok shot ∧ shot = [1; 0; 1; 1; 0] ∧
    (∀ l rows, (l, rows) ∈ run_handed run → ∃ layer, memory_ingest !! l = Some layer ∧ is_window memory_template (il_request layer) 5 shot rows) ∧
    indices_of 0 (run_handed run) = [0; 1]%Z ∧ indices_of 1 (run_handed run) = [1]%Z.
Proof.
  destruct memory_setup as (L&core&E&Hset).
  destruct (ingest_hands_over_shot memory_spec memory_template memory_ingest L core memory_shot Hset) as (run&Hrun&Hshot); [vm_compute; reflexivity|].
  rewrite (memory_run_eq L core E) in Hrun. exists run. injection Hrun as <-.
  destruct (Hshot 5 eq_refl (se_fits _ _ _ _ _ Hset)) as (_&_&shot&Hd&Hw&Hi). exists shot. split; [reflexivity|]. split; [exact Hd|].
  split; [vm_compute in Hd; congruence|]. split; [exact Hw|]. split; vm_compute; reflexivity.
Defined.

Lemma views_stay_readable_witness :
  ∃ L core run view rows, memory_core = Ok (L, core) ∧ memory_run = Ok run ∧ view_out (core_views (run_core run)) 0 0 view ∧
    (0, rows) ∈ run_handed run ∧ copy_window L (run_core run) view = Ok rows.
Proof.
  destruct memory_setup as (L&core&E&Hset). pose proof (memory_run_eq L core E) as Hr. unfold memory_run in Hr.
  match type of Hr with _ = Ok ?r => assert (∃ view, view_out (core_views (run_core r)) 0 0 view) as (view&Hv) end.
  { eexists _, _, _. split_and!; reflexivity. }
  destruct (views_stay_readable memory_spec memory_template memory_ingest L core memory_shot _ 0 0 view Hset ltac:(vm_compute; reflexivity) Hr Hv) as (rows&Hin&Hc).
  eexists L, core, _, view, rows. split; [exact E|]. split; [reflexivity|]. split; [exact Hv|]. split; [exact Hin|exact Hc].
Defined.

(** Before the second record every view is returned: it is taken. *)
Definition memory_returned : list ingest_op := [op_enqueue [1; 1; 0] false; op_poll; op_release 0 0].

Lemma ingest_never_stalls_witness :
  ∃ L core run core', memory_core = Ok (L, core) ∧ run_ops L memory_returned (mk_run core [] []) = Ok run ∧
    poll L (run_core run) = Ok (core', None) ∧
    ∀ core'', enqueue L core' (Some [1; 1]) 2 true ≠ Ok (core'', inl ingest_deferred).
Proof.
  destruct memory_setup as (L&core&E&Hset). pose proof (se_made _ _ _ _ _ Hset) as Hmade.
  assert (modest memory_template memory_ingest L) as Hmod.
  { injection E as <- <-. split; [vm_compute; reflexivity..|]. intros layer Hl. unfold memory_ingest in Hl. rewrite !elem_of_cons, elem_of_nil in Hl.
    destruct Hl as [->|[->|[]]]; vm_compute; reflexivity. }
  assert (∃ run core', run_ops L memory_returned (mk_run core [] []) = Ok run ∧ failed_ (core_shot (run_core run)) = false ∧
    poll L (run_core run) = Ok (core', None) ∧ (∀ l flags, out_ (core_views core') !! l = Some flags → true ∉ flags) ∧
    shot_rounds_ (core_shot core') = None ∧ record_limit_ L = 4) as (run&core'&H1&H2&H3&H4&H5&H6).
  { injection E as <- <-. eexists _, _. split; [vm_compute; reflexivity|]. split; [reflexivity|]. split; [vm_compute; reflexivity|]. split; [|split; reflexivity].
    intros [|[|l]] flags Hl; [injection Hl as <-..|done]; rewrite !elem_of_cons, elem_of_nil; intros [?|[?|[]]]; done. }
  exists L, core, run, core'. split; [exact E|]. split; [exact H1|]. split; [exact H3|].
  assert (none_held core') as Hno. { intros l s view (pool&flags&_&_&Hf&Hs). apply (H4 l flags Hf). by eapply list_elem_of_lookup_2. }
  pose proof (ingest_never_stalls memory_spec memory_template memory_ingest L core memory_returned run core' Hset Hmod ltac:(vm_compute; reflexivity) H1 H2 H3 Hno) as Hst.
  rewrite H5 in Hst. intros core''. apply (Hst [1; 1] true core''). rewrite H6. simpl. lia.
Defined.

Definition memory_final_record : list ingest_op := [op_enqueue [1; 1; 0] false; op_enqueue [1; 1] true].

Lemma final_shot_delivered_witness :
  ∃ L core run run', memory_core = Ok (L, core) ∧ run_ops L memory_final_record (mk_run core [] []) = Ok run ∧ run_handed run = [] ∧
    run_ops L (mjoin (replicate (indices_left (run_core run) + 1) (serve L))) run = Ok run' ∧
    indices_of 0 (run_handed run') = [0; 1]%Z ∧ indices_of 1 (run_handed run') = [1]%Z.
Proof.
  destruct memory_setup as (L&core&E&Hset).
  assert (∃ run, run_ops L memory_final_record (mk_run core [] []) = Ok run ∧ run_handed run = [] ∧ failed_ (core_shot (run_core run)) = false ∧
    shot_rounds_ (core_shot (run_core run)) = Some 5) as (run&H1&H2&H3&H4).
  { injection E as <- <-. eexists. split; [vm_compute; reflexivity|]. split_and!; reflexivity. }
  destruct (final_shot_delivered memory_spec memory_template memory_ingest L core memory_final_record run 5 Hset ltac:(vm_compute; reflexivity) H1 H4 H3)
    as (run'&Hr&_&_&_&Hall).
  exists L, core, run, run'. split; [exact E|]. split; [exact H1|]. split; [exact H2|]. split; [exact Hr|].
  split; [destruct (Hall 0 _ eq_refl) as (i&Hi&->)|destruct (Hall 1 _ eq_refl) as (i&Hi&->)]; vm_compute in Hi; injection Hi as <-; reflexivity.
Defined.

Lemma shot_records_taken_witness :
  ∃ L core run core', memory_core = Ok (L, core) ∧ run_ops L memory_returned (mk_run core [] []) = Ok run ∧
    (enqueue L (run_core run) (Some [1; 1]) 2 true = Ok (core', inl ingest_deferred) ∧ core' = run_core run ∨
     enqueue L (run_core run) (Some [1; 1]) 2 true = Ok (core', inl ingest_accepted) ∧ (true = true → shot_rounds_ (core_shot core') = Some 5)).
Proof.
  destruct memory_setup as (L&core&E&Hset).
  assert (∃ run, run_ops L memory_returned (mk_run core [] []) = Ok run ∧ run_bytes run = [1; 1; 0] ∧ failed_ (core_shot (run_core run)) = false ∧
    shot_rounds_ (core_shot (run_core run)) = None ∧ record_limit_ L = 4) as (run&H1&H2&H3&H4&H5).
  { injection E as <- <-. eexists. split; [vm_compute; reflexivity|]. split_and!; reflexivity. }
  destruct (shot_records_taken memory_spec memory_template memory_ingest L core memory_returned run 5 5 [1; 1] true Hset) as (core'&Hcase);
    [vm_compute; reflexivity|exact H1|exact H4|exact H3|split; [vm_compute; lia|done]|exact (se_fits _ _ _ _ _ Hset)|vm_compute; reflexivity|rewrite H5; simpl; lia|rewrite H2; reflexivity|].
  exists L, core, run, core'. split; [exact E|]. split; [exact H1|]. exact Hcase.
Defined.
