(* ===== verification/WindowVariants.v ===== *)
(** * Decoding windows: variants

    Windows of one variant are one window up to a shift: the phases, chunks, row
    and column counts that [window_from_dem_chunks] reads for an instance depend
    on its key alone, in a shot of any length, so a decoder built for one
    instance of a key serves every instance of it. *)

From Stdlib Require Import QArith.
From S2P Require Import Prelude Rates Ordering Tensor SparseMatrix RoundLayout DetectorErrorModel ExtendedDem ExtendedFacts ExtendedStitch ExtendedAll ChunkSpec ExperimentTemplate TemplateFacts TemplateProps WindowRequest WindowRequestFacts WindowModel WindowWorkload WindowShot WindowPlace WindowBuild CommitFacts CommitProps WindowProps Ingest IngestRounds IngestViews IngestLayout.

Open Scope nat_scope.

Definition shift_range (d : Z) (r : round_range) : round_range := mk_range (rr_begin r + d) (rr_end r + d).

Lemma empty_shift d r : empty_range (shift_range d r) = empty_range r.
Proof. unfold empty_range, shift_range. cbn [rr_begin rr_end]. destruct (Z.leb_spec (rr_end r) (rr_begin r)), (Z.leb_spec (rr_end r + d) (rr_begin r + d)); lia || done. Qed.

Lemma shift_zero r : shift_range 0 r = r.
Proof. destruct r. unfold shift_range. cbn. f_equal; lia. Qed.

Lemma z_range_shift d lo hi : z_range (lo + d) (hi + d) = (λ r, (r + d)%Z) <$> z_range lo hi.
Proof.
  unfold z_range. rewrite <-list_fmap_compose. replace (hi + d - (lo + d))%Z with (hi - lo)%Z by lia. apply list_fmap_ext. intros i x _. simpl. lia.
Qed.

Lemma foldl_same {A B} (f g : A → B → A) l x : (∀ a b, f a b = g a b) → foldl f x l = foldl g x l.
Proof. intros Hfg. revert x. induction l as [|b l IH]; intros x; cbn [foldl]; [done|]. by rewrite Hfg, IH. Qed.

Lemma map_res_shift {B} (f g : Z → res B) d lo hi :
  (∀ r, (lo ≤ r < hi)%Z → f (r + d)%Z = g r) → map_res f (z_range (lo + d) (hi + d)) = map_res g (z_range lo hi).
Proof.
  intros Hfg. unfold map_res. rewrite z_range_shift, foldM_map. apply foldM_ext. intros r out Hr%elem_of_z_range. by rewrite Hfg.
Qed.

(** Sums before a round, in two lists that agree between [lo] and [hi]. *)
Lemma sum_shift {A} (f : A → nat) (l l' : list A) (d lo hi : Z) :
  (0 ≤ lo)%Z → (0 ≤ lo + d)%Z → (hi ≤ Z.of_nat (length l))%Z →
  (∀ r, (lo ≤ r < hi)%Z → l' !! Z.to_nat (r + d) = l !! Z.to_nat r) →
  ∃ c, ∀ r, (lo ≤ r ≤ hi)%Z → Z.of_nat (sum_list_with f (take (Z.to_nat (r + d)) l')) = (Z.of_nat (sum_list_with f (take (Z.to_nat r) l)) + c)%Z.
Proof.
  intros H0 H1 H2 Hl.
  exists (Z.of_nat (sum_list_with f (take (Z.to_nat (lo + d)) l')) - Z.of_nat (sum_list_with f (take (Z.to_nat lo) l)))%Z.
  intros r Hr. replace r with (lo + Z.of_nat (Z.to_nat (r - lo)))%Z by lia. assert (lo + Z.of_nat (Z.to_nat (r - lo)) ≤ hi)%Z as Hk by lia. revert Hk.
  generalize (Z.to_nat (r - lo)) as k. clear r Hr. induction k as [|k IH]; intros Hk; [rewrite Z.add_0_r; lia|].
  specialize (IH ltac:(lia)). set (r := (lo + Z.of_nat k)%Z) in *. replace (lo + Z.of_nat (S k))%Z with (r + 1)%Z by lia.
  destruct (lookup_lt_is_Some_2 l (Z.to_nat r)) as [x Hx]; [lia|]. pose proof (Hl r ltac:(lia)) as Hx'. rewrite Hx in Hx'.
  replace (Z.to_nat (r + 1 + d)) with (S (Z.to_nat (r + d))) by lia. replace (Z.to_nat (r + 1)) with (S (Z.to_nat r)) by lia.
  rewrite (sum_take_S f l' _ _ Hx'), (sum_take_S f l _ _ Hx). lia.
Qed.

Lemma u64_sub_shift a b a' b' c : Z.of_nat a' = (Z.of_nat a + c)%Z → Z.of_nat b' = (Z.of_nat b + c)%Z → u64_sub a' b' = u64_sub a b.
Proof. intros Ha Hb. unfold u64_sub. rewrite Ha, Hb. do 2 f_equal. lia. Qed.

Lemma to_size_eq z : (0 ≤ z < 2 ^ 63)%Z → to_size z = Z.to_nat z.
Proof. intros Hz. unfold to_size. by rewrite Z.mod_small by lia. Qed.

(** ** Sorting and clipping move with the window *)

Section sort_map.
Context {A : Type} (R : A → A → Prop) `{!RelDecision R} (h : A → A) (Hh : ∀ x y, R (h x) (h y) ↔ R x y).

Lemma list_merge_fmap l1 l2 : list_merge R (h <$> l1) (h <$> l2) = h <$> list_merge R l1 l2.
Proof using Hh.
  revert l2. induction l1 as [|x l1 IH1]; intros l2; [by destruct l2|].
  induction l2 as [|y l2 IH2]; [done|]. change (h <$> x :: l1) with (h x :: (h <$> l1)). change (h <$> y :: l2) with (h y :: (h <$> l2)).
  rewrite !list_merge_cons, (decide_ext _ _ _ _ (Hh x y)). case_decide; cbn [fmap list_fmap].
  - f_equal. apply (IH1 (y :: l2)).
  - f_equal. apply IH2.
Qed.

Definition map_stack : list (option (list A)) → list (option (list A)) := map (option_map (map h)).

Lemma merge_to_stack_fmap st l : merge_list_to_stack R (map_stack st) (map h l) = map_stack (merge_list_to_stack R st l).
Proof using Hh.
  revert l. induction st as [|[l'|] st IH]; intros l; cbn [map_stack map option_map merge_list_to_stack]; [done| |done].
  f_equal. rewrite <-IH. f_equal. apply list_merge_fmap.
Qed.

Lemma merge_stack_fmap st : merge_stack R (map_stack st) = map h (merge_stack R st).
Proof using Hh.
  induction st as [|[l|] st IH]; cbn [map_stack map option_map merge_stack]; [done| |done].
  etrans; [|apply list_merge_fmap]. f_equal. exact IH.
Qed.

Lemma merge_sort_fmap l : merge_sort R (h <$> l) = h <$> merge_sort R l.
Proof using Hh.
  unfold merge_sort. cut (∀ st, merge_sort_aux R (map_stack st) (map h l) = map h (merge_sort_aux R st l)); [intros Hst; apply (Hst [])|].
  induction l as [|x l IH]; intros st; cbn [merge_sort_aux map]; [apply merge_stack_fmap|].
  rewrite <-IH. f_equal. apply (merge_to_stack_fmap st [x]).
Qed.
End sort_map.

Lemma sort_ranges_shift d l : sort_ranges (shift_range d <$> l) = shift_range d <$> sort_ranges l.
Proof. apply merge_sort_fmap. intros x y. unfold begins_before, shift_range. cbn [rr_begin]. lia. Qed.

(** ** Rounds that two shots have in common *)

Section template.
Context {R : Type} `{RateOps R} (t : experiment_template R).

(** An offset that moves by a constant. *)
Definition moves (f f' : nat → res nat) (d lo hi : Z) : Prop :=
  ∃ c, ∀ r, (lo ≤ r ≤ hi)%Z → ∃ x x', f (to_size r) = Ok x ∧ f' (to_size (r + d)) = Ok x' ∧ Z.of_nat x' = (Z.of_nat x + c)%Z.

(** The rounds [\[lo, hi)] of the shot of [n] rounds are the rounds
    [\[lo + d, hi + d)] of the shot of [n'] rounds. *)
Record agrees (n n' : nat) (d lo hi : Z) : Prop := {
  ag_chunk : ∀ r, (lo ≤ r < hi)%Z → t_chunk t (to_size (r + d)) n' = t_chunk t (to_size r) n;
  ag_phase : ∀ r, (lo ≤ r < hi)%Z → t_phase t (to_size (r + d)) n' = t_phase t (to_size r) n;
  ag_rows : moves (λ r, row_offset t r n) (λ r, row_offset t r n') d lo hi;
  ag_columns : moves (λ r, column_offset t r n) (λ r, column_offset t r n') d lo hi;
  ag_measurements : moves (λ r, measurement_offset t r n) (λ r, measurement_offset t r n') d lo hi
}.

Lemma moves_difference f f' d lo hi s r : moves f f' d lo hi → (lo ≤ s ≤ hi)%Z → (lo ≤ r ≤ hi)%Z →
  ∃ a b a' b', f (to_size r) = Ok a ∧ f (to_size s) = Ok b ∧ f' (to_size (r + d)) = Ok a' ∧ f' (to_size (s + d)) = Ok b' ∧
    u64_sub a' b' = u64_sub a b.
Proof.
  intros [c Hc] Hs Hr. destruct (Hc r Hr) as (a&a'&Ha&Ha'&E). destruct (Hc s Hs) as (b&b'&Hb&Hb'&E').
  exists a, b, a', b'. split_and!; try done. by eapply u64_sub_shift.
Qed.

Section shots.
Context (Htok : template_ok t) (Hmeas : measured t).
Context n cs (Hshot : shot_ok t n cs) (Hadm : admits t n) (Hfit : shots_fit t n).
Context n' cs' (Hshot' : shot_ok t n' cs') (Hadm' : admits t n') (Hfit' : shots_fit t n').
Context (d lo hi : Z).
Context (Hlo : (0 ≤ lo)%Z) (Hhi : (hi ≤ Z.of_nat n)%Z) (Hlo' : (0 ≤ lo + d)%Z) (Hhi' : (hi + d ≤ Z.of_nat n')%Z).
Abbreviation p := (Z.of_nat (length (t_prefix t))).
Abbreviation s := (Z.of_nat (length (t_suffix t))).
Context (Hleft : d = 0%Z ∨ (p ≤ lo ∧ p ≤ lo + d)%Z).
Context (Hright : Z.of_nat n' = (Z.of_nat n + d)%Z ∨ (hi + end_rounds t ≤ Z.of_nat n ∧ hi + d + end_rounds t ≤ Z.of_nat n')%Z).

Lemma phases_agree r : (lo ≤ r < hi)%Z →
  shot_phases t n' !! Z.to_nat (r + d) = shot_phases t n !! Z.to_nat r ∧ (r + d + 1 = Z.of_nat n' ↔ r + 1 = Z.of_nat n)%Z.
Proof.
  intros Hr. unfold end_rounds, suffix_rounds in Hright. split; [|lia]. destruct (t_repeats t) eqn:E.
  - pose proof (shot_size t Htok n Hadm E). pose proof (shot_size t Htok n' Hadm' E). destruct (decide (r < p)%Z).
    + rewrite !phase_prefix by lia. f_equal. lia.
    + destruct (decide (r + s < Z.of_nat n)%Z).
      * by rewrite !phase_bulk by (done || lia).
      * rewrite !(phase_suffix t Htok) by (done || lia). f_equal. lia.
  - destruct Hadm as [_ Hf], Hadm' as [_ Hf']. specialize (Hf E). specialize (Hf' E). destruct (ok_fixed t Htok E) as [_ Hp].
    assert (d = 0%Z) as -> by lia. rewrite Z.add_0_r. congruence.
Qed.

Lemma chunks_agree r : (lo ≤ r < hi)%Z → cs' !! Z.to_nat (r + d) = cs !! Z.to_nat r ∧ t_phase t (Z.to_nat (r + d)) n' = t_phase t (Z.to_nat r) n.
Proof.
  intros Hr. destruct (phases_agree r Hr) as [Hp Hend].
  assert (t_phase t (Z.to_nat (r + d)) n' = t_phase t (Z.to_nat r) n) as Hphase.
  { rewrite (t_phase_eq t Htok n' Hadm' (proj1 Hfit')) by lia. rewrite (t_phase_eq t Htok n Hadm (proj1 Hfit)) by lia. unfold vget. by rewrite Hp. }
  split; [|done]. pose proof (so_chunk _ _ _ Hshot (Z.to_nat r) ltac:(lia)) as Hc. pose proof (so_chunk _ _ _ Hshot' (Z.to_nat (r + d)) ltac:(lia)) as Hc'.
  pose proof (so_length _ _ _ Hshot). pose proof (so_length _ _ _ Hshot').
  destruct (lookup_lt_is_Some_2 cs (Z.to_nat r)) as [c Ec]; [lia|]. destruct (lookup_lt_is_Some_2 cs' (Z.to_nat (r + d))) as [c' Ec']; [lia|].
  rewrite (vget_ok _ _ _ Ec) in Hc. rewrite (vget_ok _ _ _ Ec') in Hc'. rewrite Ec, Ec'. unfold t_chunk in Hc, Hc'. rewrite Hphase in Hc'.
  assert ((Z.to_nat (r + d) + 1 <? n') = (Z.to_nat r + 1 <? n)) as El.
  { destruct (Nat.ltb_spec (Z.to_nat (r + d) + 1) n'), (Nat.ltb_spec (Z.to_nat r + 1) n); lia || done. }
  rewrite El in Hc'. congruence.
Qed.

Lemma shots_agree : agrees n n' d lo hi.
Proof.
  pose proof (so_small _ _ _ Hshot). pose proof (so_small _ _ _ Hshot').
  assert (∀ r, (lo ≤ r ≤ hi)%Z → to_size r = Z.to_nat r ∧ to_size (r + d) = Z.to_nat (r + d)) as Hts.
  { intros r Hr. split; apply to_size_eq; lia. }
  pose proof (so_length _ _ _ Hshot) as Hlen. pose proof (so_length _ _ _ Hshot') as Hlen'. split.
  - intros r Hr. destruct (Hts r ltac:(lia)) as [-> ->]. rewrite (so_chunk _ _ _ Hshot), (so_chunk _ _ _ Hshot') by lia. unfold vget. by rewrite (proj1 (chunks_agree r Hr)).
  - intros r Hr. destruct (Hts r ltac:(lia)) as [-> ->]. by apply chunks_agree.
  - destruct (sum_shift (offset_rows (sc_to_seam (spec_seam (t_spec t)))) cs cs' d lo hi) as [c Hc]; [lia..|intros; by apply chunks_agree|]. exists c. intros r Hr.
    destruct (Hts r Hr) as [-> ->]. eexists _, _. rewrite (so_row _ _ _ Hshot), (so_row _ _ _ Hshot') by lia. split_and!; [done..|]. by apply Hc.
  - destruct (sum_shift (λ c, length (e_error_rates c)) cs cs' d lo hi) as [c Hc]; [lia..|intros; by apply chunks_agree|]. exists c. intros r Hr.
    destruct (Hts r Hr) as [-> ->]. eexists _, _. rewrite (so_column _ _ _ Hshot), (so_column _ _ _ Hshot') by lia. split_and!; [done..|]. by apply Hc.
  - destruct (offsets t Htok n Hadm Hfit Hmeas) as (ps&Hps&Hpl&_&Hm&_). destruct (offsets t Htok n' Hadm' Hfit' Hmeas) as (ps'&Hps'&Hpl'&_&Hm'&_).
    destruct (sum_shift meas ps ps' d lo hi) as [c Hc]; [lia..| |].
    { intros r Hr. destruct (phases_agree r Hr) as [Hp _].
      destruct (lookup_lt_is_Some_2 ps (Z.to_nat r)) as [x Ex]; [lia|]. destruct (lookup_lt_is_Some_2 ps' (Z.to_nat (r + d))) as [x' Ex']; [lia|].
      destruct (Forall2_lookup_r _ _ _ _ _ Hps Ex) as (id&Hid&Hat). destruct (Forall2_lookup_r _ _ _ _ _ Hps' Ex') as (id'&Hid'&Hat'). congruence. }
    exists c. intros r Hr. destruct (Hts r Hr) as [-> ->]. eexists _, _. rewrite Hm, Hm' by lia. split_and!; [done..|]. by apply Hc.
Qed.
End shots.
End template.

(** ** A window moves with its anchor *)

Lemma foldM_commutes {S B} (f g : B → S → res S) (h : S → S) l s s' :
  (∀ b s s', b ∈ l → f b s = Ok s' → g b (h s) = Ok (h s')) → foldM f l s = Ok s' → foldM g l (h s) = Ok (h s').
Proof.
  revert s. induction l as [|b l IH]; intros s Hfg Hf; cbn [foldM] in *; [by injection Hf as <-|].
  apply bind_ok in Hf as (s1&Hb&Hf). rewrite (Hfg b s s1) by (done || set_solver). cbn [mbind res_bind].
  apply IH; [|done]. intros. eapply Hfg; [set_solver|done].
Qed.

(** The range that stands for no imports stays. *)
Definition shift_imports (d : Z) (r : round_range) : round_range := if bool_decide (r = mk_range 0 0) then r else shift_range d r.
Definition shift_send (d : Z) (send : window_send) : window_send :=
  mk_send (ws_id send) (ws_mode send) (shift_range d <$> ws_rounds send) (ws_rows send).

Section window.
Context {R : Type} `{RateOps R} (ref : template_ref R) (q : window_request R) (z : round_range) (Hq : request_ok q z).
Abbreviation t := (ref_template ref).
Abbreviation span := (span_of q z).

Definition shift_output (d : Z) (p : window_port R) : window_port R :=
  mk_port (wp_exists p) (wp_disposition p) (wp_boundary p) (wp_prior p) (shift_imports d (wp_imports p)).
Definition shift_placed (d k' : Z) (n' : nat) (w : placed_window R) : placed_window R :=
  mk_placed (pw_context w) k' n' (shift_range d (pw_rounds w)) (shift_range d (pw_commit w)) (shift_range d <$> pw_buffers w)
    (pw_input w) (shift_output d (pw_output w)) (shift_send d <$> pw_sends w).

(** [model_reach] of the request. *)
Definition reach_of : round_range :=
  mk_range (rr_begin span - 1)
    ((rr_end span + Z.of_nat (t_max_span t)) `max`
     (if bool_decide (out_disposition (wr_output q) = Some port_closed)
      then match out_imports (wr_output q) with Some i => rr_end i | None => (rr_end span + Z.of_nat (t_max_span t))%Z end else rr_end span)).

Lemma model_reach_eq : model_reach t q = Ok reach_of.
Proof using Hq. unfold model_reach, zone_span, commit_of. rewrite (an_commit _ _ (rq_anchor _ _ Hq)). done. Qed.

Context (n n' : nat) (a d : Z).
Abbreviation N := (Z.of_nat n).
Abbreviation N' := (Z.of_nat n').
Abbreviation prefix := (Z.of_nat (length (t_prefix t))).
Context (Hleft : d = 0%Z ∨ (prefix ≤ a + rr_begin reach_of ∧ prefix ≤ a + d + rr_begin reach_of)%Z).
Context (Hright : N' = (N + d)%Z ∨ (a + rr_end reach_of + end_rounds t ≤ N ∧ a + d + rr_end reach_of + end_rounds t ≤ N')%Z).
Abbreviation lo := (0 `max` (a + rr_begin reach_of))%Z.
Abbreviation hi := (N `min` (a + rr_end reach_of))%Z.
Context (Hag : agrees t n n' d lo hi).

Definition in_reach (zone : round_range) : Prop := (rr_begin reach_of ≤ rr_begin zone ∧ rr_end zone ≤ rr_end reach_of)%Z.

Lemma clip_shift zone : in_reach zone → clip_rounds zone (a + d) N' = shift_range d (clip_rounds zone a N).
Proof using Hleft Hright.
  intros [H1 H2]. assert (1 ≤ end_rounds t)%Z by (unfold end_rounds; lia). unfold clip_rounds, shift_range. cbn [rr_begin rr_end]. f_equal; lia.
Qed.

Lemma span_in_reach zone : (rr_begin span ≤ rr_begin zone)%Z → (rr_end zone ≤ rr_end span + Z.of_nat (t_max_span t))%Z → in_reach zone.
Proof. intros H1 H2. split; cbn [reach_of rr_begin rr_end]; lia. Qed.

Lemma row_from_shift s r : (lo ≤ s ≤ hi)%Z → (lo ≤ r ≤ hi)%Z → row_from t n' (s + d) (r + d) = row_from t n s r.
Proof using Hag.
  intros Hs Hr. destruct (moves_difference _ _ _ _ _ s r (ag_rows _ _ _ _ _ _ Hag) Hs Hr) as (x&y&x'&y'&H1&H2&H3&H4&E).
  unfold row_from. by rewrite H1, H2, H3, H4; cbn [mbind res_bind]; rewrite E.
Qed.

Lemma col_from_shift s r : (lo ≤ s ≤ hi)%Z → (lo ≤ r ≤ hi)%Z → col_from t n' (s + d) (r + d) = col_from t n s r.
Proof using Hag.
  intros Hs Hr. destruct (moves_difference _ _ _ _ _ s r (ag_columns _ _ _ _ _ _ Hag) Hs Hr) as (x&y&x'&y'&H1&H2&H3&H4&E).
  unfold col_from. by rewrite H1, H2, H3, H4; cbn [mbind res_bind]; rewrite E.
Qed.

Lemma place_send_shift s rs send : (lo ≤ s ≤ hi)%Z → rs ∈ wr_sends q →
  place_send t q z n a s rs = Ok send → place_send t q z n' (a + d) (s + d) rs = Ok (shift_send d send).
Proof using All.
  intros Hs Hrs Hp. unfold place_send in *. cbv zeta in *. apply bind_ok in Hp as (rounds&Hr&Hp). rewrite Hr. cbn [mbind res_bind].
  assert (∀ r, r ∈ rounds → in_reach r) as Hin.
  { pose proof (rq_sends _ _ Hq) as Hsend. rewrite Forall_forall in Hsend. specialize (Hsend rs Hrs). unfold send_ok in Hsend.
    destruct (zone_span_bounds q z) as (Hsp&_&_). destruct (is_default_send rs).
    - apply bind_ok in Hr as (first&Hf&[= <-]). intros r ->%list_elem_of_singleton.
      assert (∃ b, b ∈ zones_of q z ∧ nonempty b ∧ rr_begin b = first) as (b&Hb&Hne&<-).
      { destruct (String.eqb _ _).
        - unfold trailing_buffer in Hf. destruct (head _) as [b|] eqn:Hb; [|done]. injection Hf as <-. exists b.
          apply head_Some_elem_of in Hb as [_ Hb]%list_elem_of_filter. pose proof (rq_nonempty _ _ Hq) as Hn. rewrite Forall_forall in Hn.
          split_and!; [unfold zones_of; set_solver|by apply Hn|done].
        - injection Hf as <-. exists z. split_and!; [unfold zones_of; set_solver|apply (an_nonempty _ _ (rq_anchor _ _ Hq))|done]. }
      specialize (Hsp b Hb). unfold nonempty in Hne. apply span_in_reach; cbn [rr_begin rr_end]; lia.
    - injection Hr as <-. destruct Hsend as (_&_&Hok&_). intros r Hr. rewrite Forall_forall in Hok. destruct (Hok r Hr) as (_&_&H1&H2).
      apply span_in_reach; lia. }
  refine (foldM_commutes _ _ (shift_send d) _ (mk_send _ _ [] []) _ _ Hp). intros r send0 send1 Hr1 Hs1. rewrite (sort_ranges_perm rounds) in Hr1. specialize (Hin r Hr1).
  rewrite (clip_shift r Hin), empty_shift. set (c := clip_rounds r a N) in *. destruct (empty_range c) eqn:Ec; [by injection Hs1 as <-|].
  apply empty_range_false in Ec. unfold nonempty in Ec. destruct Hin as [Hi1 Hi2].
  assert (lo ≤ rr_begin c ∧ rr_end c ≤ hi)%Z as [Hc1 Hc2] by (unfold c, clip_rounds; cbn [rr_begin rr_end]; lia).
  apply bind_ok in Hs1 as (x&Hx&Hs1). apply bind_ok in Hs1 as (y&Hy&[= <-]). cbn [shift_range rr_begin rr_end].
  rewrite !row_from_shift, Hx, Hy by lia. cbn [mbind res_bind]. unfold shift_send. cbn [ws_rounds ws_rows ws_id ws_mode]. by rewrite fmap_app.
Qed.

Lemma clip_zones_shift commit bufs rounds : in_reach z →
  clip_zones q (clip_rounds z a N) a N = (bufs, rounds) →
  commit = clip_rounds z (a + d) N' → clip_zones q commit (a + d) N' = (shift_range d <$> bufs, shift_range d rounds).
Proof using Hleft Hright Hq.
  clear Hag. intros Hz Hc ->. rewrite (clip_shift z Hz). destruct (zone_span_bounds q z) as (Hsp&_&_). unfold clip_zones in *.
  set (step := λ (a0 M : Z) (st : list round_range * round_range) buffer, let '(buffers, rounds) := st in
    let clipped := clip_rounds buffer a0 M in if empty_range clipped then (buffers, rounds)
    else (buffers ++ [clipped], mk_range (rr_begin rounds `min` rr_begin clipped) (rr_end rounds `max` rr_end clipped))).
  assert (∀ l st, (∀ b, b ∈ l → in_reach b) →
    foldl (step (a + d)%Z N') (prod_map (fmap (shift_range d)) (shift_range d) st) l = prod_map (fmap (shift_range d)) (shift_range d) (foldl (step a N) st l)) as Hfold.
  { induction l as [|b l IH]; intros st Hl; [done|]. cbn [foldl]. rewrite <-(IH (step a N st b)) by (intros; apply Hl; set_solver). f_equal.
    destruct st as [bs r]. unfold step, prod_map. cbn [fst snd]. rewrite (clip_shift b) by (apply Hl; set_solver). rewrite empty_shift.
    destruct (empty_range (clip_rounds b a N)); [done|]. cbn [fst snd]. rewrite fmap_app. f_equal. unfold shift_range. cbn [rr_begin rr_end]. f_equal; lia. }
  specialize (Hfold (wr_buffers q) ([], clip_rounds z a N)). unfold prod_map at 1 in Hfold. cbn [fst snd fmap list_fmap] in Hfold. unfold step in Hfold. cbv zeta in Hfold.
  rewrite Hfold; cycle 1.
  { intros b Hb. destruct (Hsp b) as [H1 H2]; [unfold zones_of; set_solver|]. apply span_in_reach; lia. }
  destruct (foldl _ _ _) as [bs r] in Hc |- *. injection Hc as <- <-. cbn [prod_map fst snd]. by rewrite sort_ranges_shift.
Qed.

Context (k k' : Z) (Ha : a = (wr_offset q + k * wr_period q)%Z) (Ha' : (a + d = wr_offset q + k' * wr_period q)%Z).
Context (Hend : ∃ x, row_offset t n' n' = Ok x) (Hsmall : (N' < 2 ^ 62)%Z).

Record placed_in (w : placed_window R) : Prop := {
  pi_context : pw_context w = Some ref;
  pi_shot : pw_shot_rounds w = n;
  pi_rounds : pw_rounds w = clip_rounds span a N;
  pi_commit : pw_commit w = clip_rounds z a N;
  pi_nonempty : nonempty (clip_rounds z a N);
  pi_input : wp_exists (pw_input w) = (0 <? rr_begin (pw_rounds w))%Z;
  pi_imports : wp_imports (pw_output w) = mk_range 0 0 ∨
    ∃ i, wp_imports (pw_output w) = clip_rounds i a N ∧ in_reach i ∧ rr_begin i = rr_end span ∧ (rr_end (pw_rounds w) < N)%Z
}.

Lemma placed_in_reach w : place_window (Some ref) q k n = Ok w → placed_in w.
Proof using Hq Ha.
  clear Hag Hleft Hright Hend Ha' Hsmall. intros Hp. unfold place_window in Hp. cbv zeta in Hp. apply bind_ok in Hp as (a0&->%window_anchor_inv&Hp). rewrite <-Ha in Hp.
  apply bind_ok in Hp as ([]&_&Hp). apply bind_ok in Hp as (total&_&Hp).
  unfold commit_of in Hp. rewrite (an_commit _ _ (rq_anchor _ _ Hq)) in Hp. cbn [mbind res_bind] in Hp.
  apply bind_ok in Hp as (back&Hback&Hp).
  assert (rr_end back = rr_end span) as Eback.
  { apply (sorted_back q z); [|apply Hq|].
    - apply Forall_app. split; [apply Hq|apply Forall_singleton, (an_nonempty _ _ (rq_anchor _ _ Hq))].
    - unfold vget in Hback. destruct (_ !! _) eqn:E in Hback; [|done]. injection Hback as <-. rewrite last_lookup. by rewrite Nat.sub_1_r in E. }
  apply bind_ok in Hp as (commit0&->%clip_checked_inv&Hp). apply bind_ok in Hp as ([]&Hne%throw_if_ok%empty_range_false&Hp). pose proof (clip_zones_spec q z a N Hq Hne) as Hcz.
  destruct (clip_zones q (clip_rounds z a N) a N) as [bufs rounds] eqn:Ecz. destruct Hcz as [Er _].
  apply bind_ok in Hp as (di&Hdi&Hp). apply bind_ok in Hp as (do&Hdo&Hp). apply bind_ok in Hp as (prior&_&Hp). apply bind_ok in Hp as (sends&_&[= <-]).
  split; try done. cbn [pw_output pw_rounds wp_imports]. destruct (Z.ltb_spec (rr_end rounds) N) as [He|He]; cbn [andb]; [|by left].
  destruct (bool_decide_reflect (do = port_closed)) as [->|]; [|by left]. right. eexists. split; [reflexivity|]. unfold in_reach, reach_of. cbn [rr_begin rr_end].
  destruct (out_disposition (wr_output q)) as [o|] eqn:Eo; [|done]. injection Hdo as ->. rewrite bool_decide_true by done.
  destruct (zone_span_bounds q z) as (Hsp&_&_). destruct (Hsp z) as [Hz1 Hz2]; [unfold zones_of; set_solver|].
  pose proof (an_nonempty _ _ (rq_anchor _ _ Hq)) as Hzne. unfold nonempty in Hzne.
  destruct (out_imports (wr_output q)) as [i|] eqn:Ei; cbn [default from_option id rr_begin rr_end].
  - destruct (pt_imports _ _ (rq_ports _ _ Hq) i Ei) as (_&_&Hni&Hib). lia.
  - lia.
Qed.

Lemma place_window_shift w : place_window (Some ref) q k n = Ok w → place_window (Some ref) q k' n' = Ok (shift_placed d k' n' w).
Proof using All.
  intros Hp. pose proof (pi_nonempty _ (placed_in_reach _ Hp)) as Hinst. unfold place_window in *. cbv zeta in *.
  assert (in_reach z) as Hz.
  { destruct (zone_span_bounds q z) as (Hsp&_&_). destruct (Hsp z) as [H1 H2]; [unfold zones_of; set_solver|]. apply span_in_reach; lia. }
  destruct (anchor_fits q z k' N') as [Hanchor Hclip].
  { apply (instance_fits q z k' N' (rq_anchor _ _ Hq) Hsmall). rewrite <-Ha', (clip_shift z Hz). apply empty_range_false. rewrite empty_shift. by apply empty_range_false. }
  rewrite <-Ha' in Hanchor, Hclip. rewrite Hanchor. apply bind_ok in Hp as (a0&->%window_anchor_inv&Hp). rewrite <-Ha in Hp. cbn [mbind res_bind].
  apply bind_ok in Hp as ([]&Hcr&Hp). rewrite Hcr. apply bind_ok in Hp as (total&_&Hp). destruct Hend as [x ->]. cbn [mbind res_bind].
  unfold commit_of in *. rewrite (an_commit _ _ (rq_anchor _ _ Hq)) in *. cbn [mbind res_bind] in *.
  apply bind_ok in Hp as (back&Hback&Hp). rewrite Hback. cbn [mbind res_bind].
  destruct (zone_span_bounds q z) as (Hsp&_&_).
  assert (rr_end back = rr_end span) as Eback.
  { apply (sorted_back q z); [|apply Hq|].
    - apply Forall_app. split; [apply Hq|apply Forall_singleton, (an_nonempty _ _ (rq_anchor _ _ Hq))].
    - unfold vget in Hback. destruct (_ !! _) eqn:E in Hback; [|done]. injection Hback as <-. rewrite last_lookup. by rewrite Nat.sub_1_r in E. }
  apply bind_ok in Hp as (commit0&->%clip_checked_inv&Hp). rewrite Hclip. cbn [mbind res_bind].
  apply bind_ok in Hp as ([]&Hne%throw_if_ok&Hp). rewrite (clip_shift z Hz), empty_shift, Hne. cbn [throw_if mbind res_bind].
  pose proof (proj1 (empty_range_false _) Hne) as Hne'. pose proof (clip_zones_spec q z a N Hq Hne') as Hcz.
  destruct (clip_zones q (clip_rounds z a N) a N) as [bufs rounds] eqn:Ecz. destruct Hcz as [Er _].
  rewrite (clip_zones_shift _ bufs rounds Hz Ecz eq_refl) || rewrite <-(clip_shift z Hz), (clip_zones_shift _ bufs rounds Hz Ecz eq_refl).
  destruct (Hsp z) as [Hz1 Hz2]; [unfold zones_of; set_solver|]. assert (1 ≤ end_rounds t)%Z as H1 by (unfold end_rounds; lia).
  assert (rr_begin reach_of = rr_begin span - 1 ∧ rr_end span + Z.of_nat (t_max_span t) ≤ rr_end reach_of)%Z as [Hrb Hre] by (cbn; lia).
  unfold nonempty in Hne'. cbn [rr_begin rr_end clip_rounds] in Hne'. unfold shift_placed, shift_output.
  assert ((0 <? rr_begin (shift_range d rounds))%Z = (0 <? rr_begin rounds)%Z) as ->.
  { rewrite Er. cbn [shift_range clip_rounds rr_begin]. destruct (Z.ltb_spec 0 (0 `max` (a + rr_begin span))), (Z.ltb_spec 0 (0 `max` (a + rr_begin span) + d)); lia || done. }
  assert ((rr_end (shift_range d rounds) <? N')%Z = (rr_end rounds <? N)%Z) as ->.
  { rewrite Er. cbn [shift_range clip_rounds rr_end]. destruct (Z.ltb_spec (N `min` (a + rr_end span)) N), (Z.ltb_spec (N `min` (a + rr_end span) + d) N'); lia || done. }
  apply bind_ok in Hp as (di&Hdi&Hp). rewrite Hdi. apply bind_ok in Hp as (do&Hdo&Hp). rewrite Hdo. cbn [mbind res_bind]. apply bind_ok in Hp as (prior&Hprior&Hp). rewrite Hprior.
  cbn [mbind res_bind]. apply bind_ok in Hp as (sends&Hsends&[= <-]). cbn [shift_range rr_begin].
  match goal with |- (foldM ?f ?l ?s ≫= _) = _ => assert (foldM f l s = Ok (shift_send d <$> sends)) as -> end.
  { refine (foldM_commutes _ _ (fmap (shift_send d)) _ [] _ _ Hsends). intros rs out out' Hrs Ho. apply bind_ok in Ho as (send&Hsend&[= <-]).
    rewrite (place_send_shift _ rs send); [cbn [mbind res_bind]; by rewrite fmap_app| |done|done]. rewrite Er. cbn [clip_rounds rr_begin]. lia. }
  cbn [mbind res_bind pw_context pw_rounds pw_commit pw_buffers pw_input pw_output pw_sends wp_exists wp_disposition wp_boundary wp_prior wp_imports].
  do 2 f_equal; [by apply clip_shift|]. f_equal. unfold shift_imports. destruct (Z.ltb_spec (rr_end rounds) N) as [He|He]; cbn [andb]; [|by rewrite bool_decide_true].
  destruct (bool_decide_reflect (do = port_closed)) as [->|]; cbn [andb]; [|by rewrite bool_decide_true].
  rewrite bool_decide_false, clip_shift; [done|split; cbn [rr_begin rr_end default]|].
  all: destruct (out_imports (wr_output q)) as [i|] eqn:Ei; cbn [default from_option id rr_begin rr_end clip_rounds].
  all: try (destruct (pt_imports _ _ (rq_ports _ _ Hq) i Ei) as (_&_&Hni&Hib)).
  1,2,4: unfold nonempty in *; cbn [rr_begin rr_end] in *; lia.
  - unfold reach_of. cbn [rr_end]. destruct (out_disposition (wr_output q)) as [o|] eqn:Eo; [|done]. injection Hdo as ->. rewrite bool_decide_true, Ei by done. lia.
  - intros [= Hbad _]. lia.
  - intros [= Hbad _]. lia.
Qed.

(** What the instance reads lies in its reach. *)
Lemma column_zones_shift bufs s e : (lo ≤ s)%Z → (s ≤ e ≤ hi)%Z →
  column_zones (col_from t n' (s + d)) (shift_range d <$> bufs) (s + d) (e + d) = column_zones (col_from t n s) bufs s e.
Proof using All.
  intros Hs He. unfold column_zones. rewrite z_range_shift, foldM_map. apply foldM_ext. intros r zone Hr%elem_of_z_range.
  replace (r + d + 1)%Z with (r + 1 + d)%Z by lia. rewrite col_from_shift by lia. destruct (col_from t n s (r + 1)); cbn [mbind res_bind]; [|done..].
  do 2 f_equal. unfold zone_of_round. rewrite length_fmap. apply foldl_same. intros x b. rewrite list_lookup_fmap.
  destruct (bufs !! b) as [y|]; cbn [fmap option_fmap option_map shift_range rr_begin rr_end]; [|done].
  assert ((rr_begin y + d <=? r + d)%Z = (rr_begin y <=? r)%Z) as -> by (destruct (Z.leb_spec (rr_begin y + d) (r + d)), (Z.leb_spec (rr_begin y) r); lia || done).
  assert ((r + d <? rr_end y + d)%Z = (r <? rr_end y)%Z) as -> by (destruct (Z.ltb_spec (r + d) (rr_end y + d)), (Z.ltb_spec r (rr_end y)); lia || done).
  done.
Qed.

Lemma round_width_shift r : (lo ≤ r)%Z → (r + 1 ≤ hi)%Z → WindowModel.round_width t (r + d) n' = WindowModel.round_width t r n.
Proof using All.
  intros Hl Hh. destruct (moves_difference _ _ _ _ _ r (r + 1) (ag_measurements _ _ _ _ _ _ Hag)) as (x&y&x'&y'&H1&H2&H3&H4&E); [lia..|].
  unfold WindowModel.round_width. replace (r + d + 1)%Z with (r + 1 + d)%Z by lia. by rewrite H1, H2, H3, H4; cbn [mbind res_bind]; rewrite E.
Qed.

(** The window's rounds, in its reach. *)
Section reads.
Context (w : placed_window R) (Hw : placed_in w).
Abbreviation s := (rr_begin (pw_rounds w)).
Abbreviation e := (rr_end (pw_rounds w)).

Lemma rounds_in_reach : (lo ≤ s ∧ s < e ∧ e ≤ hi ∧ (0 < s → lo ≤ s - 1) ∧ e + Z.of_nat (t_max_span t) ≤ a + rr_end reach_of ∧
  (d = 0 ∨ 0 < s ∧ 0 < s + d) ∧ (N' = N + d ∨ e + Z.of_nat (t_max_span t) < N ∧ e + d + Z.of_nat (t_max_span t) < N'))%Z.
Proof using All.
  destruct (zone_span_bounds q z) as (Hsp&_&_). destruct (Hsp z) as [Hz1 Hz2]; [unfold zones_of; set_solver|].
  assert (1 ≤ end_rounds t)%Z as H1 by (unfold end_rounds; lia).
  assert (rr_begin reach_of = rr_begin span - 1 ∧ rr_end span + Z.of_nat (t_max_span t) ≤ rr_end reach_of)%Z as [Hrb Hre] by (cbn; lia).
  pose proof (pi_nonempty _ Hw) as Hne. unfold nonempty in Hne. cbn [clip_rounds rr_begin rr_end] in Hne. rewrite (pi_rounds _ Hw). cbn [clip_rounds rr_begin rr_end]. lia.
Qed.

Lemma commit_in_rounds : (s ≤ rr_begin (pw_commit w) ∧ rr_begin (pw_commit w) < rr_end (pw_commit w) ∧ rr_end (pw_commit w) ≤ e)%Z.
Proof using All.
  destruct (zone_span_bounds q z) as (Hsp&_&_). destruct (Hsp z) as [Hz1 Hz2]; [unfold zones_of; set_solver|].
  pose proof (pi_nonempty _ Hw) as Hne. unfold nonempty in Hne. rewrite (pi_rounds _ Hw), (pi_commit _ Hw). cbn [clip_rounds rr_begin rr_end] in *. lia.
Qed.

Lemma layout_shift : layout_measurements t (shift_range d (pw_rounds w)) n' = layout_measurements t (pw_rounds w) n.
Proof using All.
  destruct rounds_in_reach as (R1&R2&R3&R4&R5&R6&R7). unfold layout_measurements. cbn [shift_range rr_begin rr_end].
  assert ((if (0 <? s + d)%Z then WindowModel.round_width t (s + d - 1)%Z n' else Ok 0) = (if (0 <? s)%Z then WindowModel.round_width t (s - 1)%Z n else Ok 0)) as ->.
  { destruct (Z.ltb_spec 0 (s + d)), (Z.ltb_spec 0 s); try lia; [|done]. replace (s + d - 1)%Z with (s - 1 + d)%Z by lia. apply round_width_shift; lia. }
  destruct (if (0 <? s)%Z then _ else _) as [v| |]; cbn [mbind res_bind]; [|done..].
  rewrite z_range_shift, foldM_map. rewrite (foldM_ext _ (λ r st, let '(width, start) := st in
    w ← WindowModel.round_width t r n; Ok (width ++ [w], start ++ [u64 (default 0 (last start) + w)]))); [done|].
  intros r [width start] Hr%elem_of_z_range. by rewrite round_width_shift by lia.
Qed.

Lemma m2d_shift m : build_m2d t (shift_placed d k' n' w) m = build_m2d t w m.
Proof using All.
  destruct rounds_in_reach as (R1&R2&R3&R4&R5&R6&R7). destruct commit_in_rounds as (C1&C2&C3). unfold build_m2d.
  cbn [shift_placed shift_output pw_shot_rounds pw_rounds pw_commit pw_output wp_exists shift_range rr_begin rr_end]. rewrite (pi_shot _ Hw).
  rewrite z_range_shift, foldM_map.
  match goal with |- (foldM ?f ?l ?i ≫= _) = (foldM ?g _ _ ≫= _) => rewrite (foldM_ext f g l i) end.
  2:{ intros r rows Hr%elem_of_z_range. replace (r + d - (s + d))%Z with (r - s)%Z by lia.
      destruct (moves_difference _ _ _ _ _ r (r + 1) (ag_rows _ _ _ _ _ _ Hag)) as (x&y&x'&y'&H1&H2&H3&H4&E); [lia..|].
      replace (r + d + 1)%Z with (r + 1 + d)%Z by lia. rewrite H1, H2, H3, H4, (ag_phase _ _ _ _ _ _ Hag r) by lia. cbn [mbind res_bind]. rewrite E.
      assert ((0 <? r + d)%Z = (0 <? r)%Z) as -> by (destruct (Z.ltb_spec 0 (r + d)), (Z.ltb_spec 0 r); lia || done). done. }
  destruct (foldM _ _ []) as [rows| |]; cbn [mbind res_bind]; [|done..].
  assert ((rr_end (pw_commit w) + d <? N')%Z = (rr_end (pw_commit w) <? N)%Z) as ->.
  { rewrite (pi_commit _ Hw) in *. destruct (Z.ltb_spec (rr_end (clip_rounds z a N) + d) N'), (Z.ltb_spec (rr_end (clip_rounds z a N)) N); lia || done. }
  assert ((e + d =? rr_end (pw_commit w) + d)%Z = (e =? rr_end (pw_commit w))%Z) as ->.
  { apply eq_true_iff_eq. rewrite !Z.eqb_eq. lia. }
  set (wires := (if (rr_end (pw_commit w) <? N)%Z then [rr_end (pw_commit w)] else []) ++
    (if wp_exists (pw_output w) && negb (e =? rr_end (pw_commit w))%Z then [e] else [])).
  assert ((if (rr_end (pw_commit w) <? N)%Z then [(rr_end (pw_commit w) + d)%Z] else []) ++
    (if wp_exists (pw_output w) && negb (e =? rr_end (pw_commit w))%Z then [(e + d)%Z] else []) = (λ x, (x + d)%Z) <$> wires) as ->.
  { unfold wires. rewrite fmap_app. by destruct (_ <? N)%Z, (_ && _). }
  rewrite foldM_map. match goal with |- (foldM ?f ?l ?i ≫= _) = (foldM ?g _ _ ≫= _) => rewrite (foldM_ext f g l i) end; [done|].
  intros x [rows' sizes] _. by replace (x + d - 1 - (s + d))%Z with (x - 1 - s)%Z by lia.
Qed.

Lemma m2o_shift m : build_m2o t (shift_placed d k' n' w) m = build_m2o t w m.
Proof using All.
  destruct rounds_in_reach as (R1&R2&R3&R4&R5&R6&R7). unfold build_m2o.
  cbn [shift_placed pw_shot_rounds pw_rounds shift_range rr_begin rr_end]. rewrite (pi_shot _ Hw).
  assert ((e + d =? N')%Z = (e =? N)%Z) as -> by (apply eq_true_iff_eq; rewrite !Z.eqb_eq; lia).
  destruct (Z.eqb_spec e N) as [E|]; cbn [negb throw_if mbind res_bind]; [|done]. by replace (N' - 1 - (s + d))%Z with (N - 1 - s)%Z by lia.
Qed.
End reads.

Definition shift_window (w : decoding_window R) : decoding_window R :=
  mk_window (shift_placed d k' n' (dw_placed w)) (dw_model w) (dw_num_own_rows w) (dw_num_fault_columns w) (dw_num_virtual_outcome_columns w)
    (dw_num_crossing_columns w) (dw_num_logical_error_columns w) (dw_commit_columns w) (dw_parallel_conflicts w) (dw_fault_column_sources w)
    (dw_m2d w) (dw_num_virtual_outcomes w) (dw_num_measurements w) (dw_m2o w).

Lemma imports_shift (w : placed_window R) : placed_in w →
  let imports := wp_imports (pw_output w) in
  empty_range (shift_imports d imports) = empty_range imports ∧
  ((N' `min` (rr_end (pw_rounds w) + d + Z.of_nat (t_max_span t))) `max` rr_end (shift_imports d imports) =
   (N `min` (rr_end (pw_rounds w) + Z.of_nat (t_max_span t))) `max` rr_end imports + d)%Z ∧
  (rr_end imports ≤ hi)%Z ∧
  (empty_range imports = false → shift_imports d imports = shift_range d imports ∧ (lo ≤ rr_begin imports ≤ hi)%Z).
Proof using All.
  intros Hw imports. destruct (rounds_in_reach w Hw) as (R1&R2&R3&R4&R5&R6&R7). unfold shift_imports.
  destruct (pi_imports w Hw) as [E|(i&E&[I1 I2]&I3&I4)]; unfold imports; rewrite E.
  - rewrite bool_decide_true by done. cbn [rr_end]. split; [done|]. split; [lia|]. split; [lia|done].
  - pose proof (pi_rounds w Hw) as Er. rewrite Er in *. destruct (zone_span_bounds q z) as (Hsp&_&_). destruct (Hsp z) as [Hz1 Hz2]; [unfold zones_of; set_solver|].
    pose proof (pi_nonempty w Hw) as Hne. unfold nonempty in Hne. cbn [clip_rounds rr_begin rr_end] in *.
    rewrite bool_decide_false by (intros [= Hb _]; lia). rewrite empty_shift. unfold shift_range, empty_range. cbn [clip_rounds rr_begin rr_end].
    split; [done|]. split; [lia|]. split; [lia|]. intros Hemp%Z.leb_gt. split; [done|]. lia.
Qed.

Ltac peel Hw := let v := fresh "v" in let Hv := fresh "Hv" in apply bind_ok in Hw as (v&Hv&Hw); rewrite Hv; clear Hv; cbn [mbind res_bind].

(** What [window_from_dem_chunks] reads of the template for a placed window. *)
Record same_reads (s s' e : Z) (l0 l0' h0 h0' : Z) (imports imports' : round_range) (bufs bufs' : list round_range) (c c' : Z) (rounds rounds' : round_range) : Prop := {
  rd_rows : ∃ x y x' y', row_offset t (to_size s) n = Ok x ∧ row_offset t (to_size l0) n = Ok y ∧
    row_offset t (to_size s') n' = Ok x' ∧ row_offset t (to_size l0') n' = Ok y' ∧ u64_sub x' y' = u64_sub x y;
  rd_columns : ∃ x y x' y', column_offset t (to_size s) n = Ok x ∧ column_offset t (to_size l0) n = Ok y ∧
    column_offset t (to_size s') n' = Ok x' ∧ column_offset t (to_size l0') n' = Ok y' ∧ u64_sub x' y' = u64_sub x y;
  rd_chunks : chunks_between t n' l0' h0' = chunks_between t n l0 h0;
  rd_own : row_from t n' s' (e + d) = row_from t n s e;
  rd_empty : empty_range imports' = empty_range imports;
  rd_imports : (if empty_range imports then Ok 0 else row_from t n' s' (rr_begin imports')) = (if empty_range imports then Ok 0 else row_from t n s (rr_begin imports));
  rd_imports_end : (if empty_range imports then Ok 0 else row_from t n' s' (rr_end imports')) = (if empty_range imports then Ok 0 else row_from t n s (rr_end imports));
  rd_zones : column_zones (col_from t n' s') bufs' s' (e + d) = column_zones (col_from t n s) bufs s e;
  rd_commit : col_from t n' s' c' = col_from t n s c;
  rd_virtual : row_from t n' s' (s' + 1) = row_from t n s (s + 1);
  rd_layout : layout_measurements t rounds' n' = layout_measurements t rounds n
}.

Lemma reads_shift pw (truncated : bool) : placed_in pw → (truncated = true → 0 < rr_begin (pw_rounds pw))%Z →
  let s := rr_begin (pw_rounds pw) in let e := rr_end (pw_rounds pw) in let imports := wp_imports (pw_output pw) in
  same_reads s (s + d) e (if truncated then s - 1 else s) (if truncated then s + d - 1 else s + d)
    ((N `min` (e + Z.of_nat (t_max_span t))) `max` rr_end imports)
    ((N' `min` (e + d + Z.of_nat (t_max_span t))) `max` rr_end (shift_imports d imports)) imports (shift_imports d imports)
    (pw_buffers pw) (shift_range d <$> pw_buffers pw) (rr_begin (pw_commit pw)) (rr_begin (pw_commit pw) + d) (pw_rounds pw) (shift_range d (pw_rounds pw)).
Proof using All.
  intros Hin Htr. cbv zeta. destruct (rounds_in_reach pw Hin) as (R1&R2&R3&R4&R5&R6&R7). destruct (commit_in_rounds pw Hin) as (C1&C2&C3).
  destruct (imports_shift pw Hin) as (I1&->&I3&I4). pose proof (layout_shift pw Hin) as Hlayout.
  pose proof (column_zones_shift (pw_buffers pw)) as Hzones. pose proof row_from_shift as Hrow. pose proof col_from_shift as Hcol.
  pose proof (ag_rows _ _ _ _ _ _ Hag) as Hrows. pose proof (ag_columns _ _ _ _ _ _ Hag) as Hcolumns. pose proof (ag_chunk _ _ _ _ _ _ Hag) as Hchunk.
  set (s := rr_begin (pw_rounds pw)) in *. set (e := rr_end (pw_rounds pw)) in *. set (imports := wp_imports (pw_output pw)) in *. set (c := rr_begin (pw_commit pw)) in *.
  set (m := Z.of_nat (t_max_span t)) in *. set (ce := rr_end (pw_commit pw)) in *.
  replace (if truncated then s + d - 1 else s + d)%Z with ((if truncated then s - 1 else s) + d)%Z by (destruct truncated; lia).
  set (l0 := (if truncated then s - 1 else s)%Z).
  assert (lo ≤ l0 ≤ s)%Z as Hl0 by (unfold l0; destruct truncated; [specialize (Htr eq_refl)|]; lia).
  clear Ha Ha' Hend Hleft Hright Hag. split.
  - apply (moves_difference _ _ _ _ _ _ _ Hrows); lia.
  - apply (moves_difference _ _ _ _ _ _ _ Hcolumns); lia.
  - apply map_res_shift. intros r Hr. apply Hchunk. lia.
  - apply Hrow; lia.
  - done.
  - destruct (empty_range imports) eqn:Ee; [done|]. destruct (I4 eq_refl) as [-> ?]. cbn [shift_range rr_begin]. apply Hrow; lia.
  - destruct (empty_range imports) eqn:Ee; [done|]. apply empty_range_false in Ee. unfold nonempty in Ee. destruct (I4 eq_refl) as [-> ?]. cbn [shift_range rr_end]. apply Hrow; lia.
  - apply Hzones; lia.
  - apply Hcol; lia.
  - replace (s + d + 1)%Z with (s + 1 + d)%Z by lia. apply Hrow; lia.
  - done.
Qed.

Lemma window_shift m2o w : window_from_dem_chunks (Some ref) q k n m2o = Ok w → window_from_dem_chunks (Some ref) q k' n' m2o = Ok (shift_window w).
Proof using All.
  intros Hw. unfold window_from_dem_chunks in *. apply bind_ok in Hw as (pw&Hpw&Hw). rewrite (place_window_shift _ Hpw). cbn [mbind res_bind].
  pose proof (placed_in_reach _ Hpw) as Hin. pose proof (m2d_shift pw Hin) as Hm2d. pose proof (m2o_shift pw Hin) as Hm2o.
  pose proof (pi_input _ Hin) as Hinput. pose proof (reads_shift pw (wp_exists (pw_input pw) && bool_decide (wp_disposition (pw_input pw) = port_open) && bool_decide (wp_boundary (pw_input pw) = truncate)) Hin) as Hreads.
  destruct Hreads as [(x&y&x'&y'&H1&H2&H3&H4&E) (x2&y2&x2'&y2'&H5&H6&H7&H8&E2) D1 D2 D3 D4 D5 D6 D7 D8 D9].
  { rewrite Hinput, !andb_true_iff, Z.ltb_lt. tauto. }
  clear Hinput Hin Hpw. cbn [shift_placed shift_output pw_rounds pw_commit pw_input pw_output pw_buffers wp_imports shift_range rr_begin rr_end] in *.
  cbv zeta in *. rewrite H1, H2 in Hw. cbn [mbind res_bind] in Hw. rewrite H5, H6 in Hw. cbn [mbind res_bind] in Hw. rewrite H3, H4. cbn [mbind res_bind]. rewrite H7, H8. cbn [mbind res_bind].
  rewrite E, E2, D3. clear H1 H2 H3 H4 E H5 H6 H7 H8 E2.
  rewrite D1. do 2 peel Hw. rewrite D2. peel Hw. rewrite D4. peel Hw. rewrite D5. do 2 peel Hw. rewrite D6. do 3 peel Hw. rewrite D7. peel Hw. rewrite D8.
  do 9 peel Hw. rewrite D9. do 3 peel Hw. rewrite Hm2d. peel Hw. destruct m2o.
  - rewrite Hm2o. peel Hw. injection Hw as <-. reflexivity.
  - cbn [mbind res_bind] in *. injection Hw as <-. reflexivity.
Qed.
End window.

(** ** The list of variants *)

Lemma template_min {R} `{RateOps R} (spec : dem_chunks_spec R) t :
  make_template spec = Ok t → countable spec → joined_spec spec → t_repeats t = true →
  t_min_rounds t = 2 `max` (length (t_prefix t) + length (t_suffix t) + 1).
Proof.
  intros Hm Hcnt Hj Hrep. destruct (make_template_inv spec t Hm) as (_&_&_&Hsp&_). unfold split_phases in Hsp.
  destruct (has_repeating_phase spec) eqn:E; [|by apply bind_ok in Hsp as (pre&_&Hsp); destruct (last pre); congruence].
  apply bind_ok in Hsp as (lay&Hlay&Hsp). injection Hsp as _ Hp _ Hs _ Hmin.
  destruct (layout_spec spec lay Hcnt (Hj E) Hlay) as [Hl _]. rewrite minimum_rounds_eq in Hmin by done. rewrite <-Hp, <-Hs, <-Hmin. lia.
Qed.

Section variants.
Context {R : Type} `{RateOps R} (ref : template_ref R) (q : window_request R) (z : round_range) (Hq : request_ok q z).
Abbreviation t := (ref_template ref).
Abbreviation reach := (reach_of ref q z).
Abbreviation prefix := (Z.of_nat (length (t_prefix t))).

(** Window [k] has commit rounds in a shot of [n] rounds. *)
Definition is_instance (n : nat) (k : Z) : Prop := nonempty (clip_rounds z (anchor_of q k) (Z.of_nat n)).

Definition key_of (n : nat) (k : Z) : variant_key :=
  mk_key (if (anchor_of q k + rr_begin reach <? prefix)%Z then Some k else None)
    (if (Z.of_nat n - end_rounds t <? anchor_of q k + rr_end reach)%Z then Some (Z.of_nat n - anchor_of q k)%Z else None).

Lemma bounds_eq : variant_bounds_of t q = Ok (mk_bounds reach prefix (end_rounds t)).
Proof using Hq.
  unfold variant_bounds_of. rewrite (decides_returns _ _ _ (check_anchor_decides q)) by (exists z; apply Hq). cbn [mbind res_bind].
  by rewrite (model_reach_eq ref q z Hq).
Qed.

Lemma window_variant_eq n k : window_variant t q k n = Ok (key_of n k).
Proof using Hq. unfold window_variant. by rewrite bounds_eq. Qed.

(** The loop over the instances of the shots up to the probe. *)
Lemma variant_instances_spec probe : 1 ≤ t_min_rounds t → variant_probe_rounds t q = Ok probe → t_min_rounds t ≤ probe →
  returns (variant_instances t q) (λ vs, NoDup (vi_key <$> vs) ∧
    (∀ v, v ∈ vs → t_min_rounds t ≤ vi_num_rounds v < probe ∧ is_instance (vi_num_rounds v) (vi_k v) ∧ vi_key v = key_of (vi_num_rounds v) (vi_k v)) ∧
    (∀ n k, t_min_rounds t ≤ n < probe → is_instance n k → key_of n k ∈ vi_key <$> vs)).
Proof using Hq.
  intros H1 Hp Hle. unfold variant_instances. rewrite Hp. cbn [mbind res_bind].
  set (good := λ vs n, NoDup (vi_key <$> vs) ∧
    (∀ v, v ∈ vs → t_min_rounds t ≤ vi_num_rounds v < probe ∧ is_instance (vi_num_rounds v) (vi_k v) ∧ vi_key v = key_of (vi_num_rounds v) (vi_k v)) ∧
    (∀ n' k, t_min_rounds t ≤ n' < n → is_instance n' k → key_of n' k ∈ vi_key <$> vs)).
  apply (for_u_inv _ _ _ (λ n vs, good vs n)); [done|split_and!; [constructor|by intros v ?%elem_of_nil|lia]|].
  intros n vs Hn (Hnd&Hs&Hc). pose proof (window_instances_eq q z n (rq_anchor _ _ Hq)) as Hi. rewrite Hi. cbn [mbind res_bind].
  set (i := mk_index_range _ _) in *. assert (∀ k, (ir_begin i ≤ k < ir_end i)%Z ↔ is_instance n k) as Hin.
  { intros k. apply (window_instances_spec q z n i k (rq_anchor _ _ Hq) Hi). lia. }
  clearbody i. eapply returns_mono; [apply (foldM_inv _ (λ pre vs, good vs n ∧ ∀ k, k ∈ pre → key_of n k ∈ vi_key <$> vs))|].
  - split; [done|]. by intros k ?%elem_of_nil.
  - intros pre k post vs' Hl ((Hnd'&Hs'&Hc')&Hpre). rewrite window_variant_eq. cbn [mbind res_bind]. apply returns_ok.
    assert (is_instance n k) as Hk. { apply Hin, elem_of_z_range. rewrite Hl. set_solver. }
    destruct (existsb _ vs') eqn:E.
    + split; [done|]. intros k' [Hk'| ->%list_elem_of_singleton]%elem_of_app; [by apply Hpre|].
      apply existsb_exists in E as (v&Hv&Ev%bool_decide_eq_true). apply list_elem_of_fmap. exists v. split; [done|by apply list_elem_of_In].
    + assert (key_of n k ∉ vi_key <$> vs') as Hnew.
      { intros (v&Ev&Hv)%list_elem_of_fmap. apply not_true_iff_false in E. apply E, existsb_exists. exists v. rewrite bool_decide_true by done.
        split; [by apply list_elem_of_In|done]. }
      split; [split_and!|].
      * rewrite fmap_app. apply NoDup_app. split_and!; [done| |apply NoDup_singleton]. cbn [fmap list_fmap vi_key]. intros x Hx ->%list_elem_of_singleton. done.
      * intros v [Hv| ->%list_elem_of_singleton]%elem_of_app; [by apply Hs'|]. cbn [vi_num_rounds vi_k vi_key]. done.
      * intros n' k' Hn' Hk'. rewrite fmap_app. apply elem_of_app. left. by apply Hc'.
      * intros k' Hk'. rewrite fmap_app. apply elem_of_app. apply elem_of_app in Hk' as [Hk'| ->%list_elem_of_singleton]; [left; by apply Hpre|right]. by left.
  - intros vs' ((Hnd'&Hs'&Hc')&Hall). split_and!; [done|done|]. intros n' k Hn' Hk. destruct (decide (n' = n)) as [->|]; [|apply Hc'; [lia|done]].
    apply Hall, elem_of_z_range. by apply Hin.
Qed.

Definition bulk_index : Z := ceil_div (prefix - wr_offset q - rr_begin reach) (wr_period q).

Lemma period_pos : (1 ≤ wr_period q)%Z.
Proof using Hq. apply (an_period _ _ (rq_anchor _ _ Hq)). Qed.

Lemma bulk_index_le k : (bulk_index ≤ k)%Z ↔ (prefix ≤ anchor_of q k + rr_begin reach)%Z.
Proof using Hq. pose proof period_pos. unfold bulk_index, anchor_of. rewrite ceil_div_le by lia. lia. Qed.

Lemma anchor_mono k k' : (k ≤ k')%Z → (anchor_of q k ≤ anchor_of q k')%Z.
Proof using Hq. pose proof period_pos. intros Hk. unfold anchor_of. nia. Qed.

Lemma anchor_succ k : (anchor_of q (k + 1) = anchor_of q k + wr_period q)%Z.
Proof. unfold anchor_of. lia. Qed.

Lemma reach_of_bounds : (rr_begin reach < rr_begin z ∧ rr_begin z < rr_end z ∧ rr_end z ≤ rr_end reach)%Z.
Proof using Hq.
  destruct (zone_span_bounds q z) as (Hsp&_&_). destruct (Hsp z) as [Hz1 Hz2]; [unfold zones_of; set_solver|].
  pose proof (an_nonempty _ _ (rq_anchor _ _ Hq)) as Hne. unfold nonempty in Hne. cbn [reach_of rr_begin rr_end]. lia.
Qed.

Definition probe_end : Z := (anchor_of q (bulk_index + 1) + rr_end reach + end_rounds t + 1)%Z.

Lemma probe_rounds_eq : variant_probe_rounds t q = Ok (if t_repeats t then t_min_rounds t `max` Z.to_nat (probe_end `max` 0) else t_min_rounds t + 1).
Proof using Hq.
  unfold variant_probe_rounds. rewrite (decides_returns _ _ _ (check_request_decides q)) by eauto. cbn [mbind res_bind].
  destruct (t_repeats t); cbn [negb]; [|done]. unfold first_bulk_index. rewrite (model_reach_eq ref q z Hq). cbn [mbind res_bind]. done.
Qed.

Lemma instance_iff n k : 0 < n → is_instance n k ↔ (0 < anchor_of q k + rr_end z ∧ anchor_of q k + rr_begin z < Z.of_nat n)%Z.
Proof using Hq.
  intros Hn. pose proof (an_nonempty _ _ (rq_anchor _ _ Hq)) as Hne. unfold nonempty in Hne. unfold is_instance, nonempty. cbn [clip_rounds rr_begin rr_end]. lia.
Qed.

Context (Hmin : t_repeats t = true → t_min_rounds t = 2 `max` (length (t_prefix t) + length (t_suffix t) + 1)).

(** Every key of every shot is the key of an instance of a shorter one. *)
Lemma key_in_probe probe n k : variant_probe_rounds t q = Ok probe → 1 ≤ t_min_rounds t → admits t n → is_instance n k →
  ∃ n0 k0, t_min_rounds t ≤ n0 < probe ∧ is_instance n0 k0 ∧ key_of n0 k0 = key_of n k.
Proof using Hq Hmin.
  rewrite probe_rounds_eq. intros [= <-] H1 [Hn Hf] Hk. destruct (t_repeats t) eqn:Erep; [|exists n, k; rewrite (Hf eq_refl) in *; split; [lia|done]].
  specialize (Hmin eq_refl). pose proof reach_of_bounds as Hr. pose proof period_pos as Hper. pose proof (anchor_succ bulk_index) as Hsucc.
  pose proof (proj1 (bulk_index_le bulk_index) ltac:(lia)) as Hb. set (kb := bulk_index) in *. set (E := end_rounds t).
  assert (1 ≤ E ∧ Z.of_nat (length (t_suffix t)) ≤ E)%Z as HE by (unfold E, end_rounds, suffix_rounds; lia).
  assert (Z.of_nat (t_min_rounds t) + wr_period q + 2 ≤ probe_end)%Z as Hend by (unfold probe_end; fold kb E; lia).
  assert (probe_end = anchor_of q kb + wr_period q + rr_end reach + E + 1)%Z as Hpe by (unfold probe_end; fold kb E; lia).
  apply instance_iff in Hk; [|lia]. unfold key_of at 2. fold E.
  destruct (Z.ltb_spec (anchor_of q k + rr_begin reach) prefix) as [Hp|Hp].
  - assert (k ≤ kb)%Z as Hkb. { destruct (decide (kb ≤ k)%Z) as [Hge%bulk_index_le|]; lia. } pose proof (anchor_mono k kb Hkb).
    destruct (Z.ltb_spec (Z.of_nat n - E) (anchor_of q k + rr_end reach)).
    + exists n, k. split; [lia|]. split; [apply instance_iff; lia|]. unfold key_of. fold E.
      rewrite (proj2 (Z.ltb_lt _ _) Hp). by rewrite (proj2 (Z.ltb_lt _ _)) by lia.
    + exists (t_min_rounds t `max` Z.to_nat (anchor_of q k + rr_end reach + E)), k. split; [lia|].
      split; [apply instance_iff; lia|]. unfold key_of. fold E. rewrite (proj2 (Z.ltb_lt _ _) Hp). by rewrite (proj2 (Z.ltb_ge _ _)) by lia.
  - apply bulk_index_le in Hp. fold kb in Hp. destruct (Z.ltb_spec (Z.of_nat n - E) (anchor_of q k + rr_end reach)) as [Ht|Ht].
    + set (tau := (Z.of_nat n - anchor_of q k)%Z) in *. set (c := ceil_div (Z.of_nat (t_min_rounds t) - tau - wr_offset q) (wr_period q)).
      assert (∀ k0, (c ≤ k0 ↔ Z.of_nat (t_min_rounds t) ≤ anchor_of q k0 + tau)%Z) as Hc by (intros k0; unfold c, anchor_of; rewrite ceil_div_le by lia; lia).
      assert (∃ k0, kb ≤ k0 ∧ Z.of_nat (t_min_rounds t) ≤ anchor_of q k0 + tau < probe_end)%Z as (k0&Hk0&Hn0).
      { destruct (decide (c ≤ kb)%Z) as [Hle|Hgt].
        - exists kb. split; [done|]. apply Hc in Hle. lia.
        - exists c. split; [lia|]. split; [by apply Hc|]. assert (¬ (c ≤ c - 1)%Z) as Hno by lia. rewrite Hc in Hno.
          pose proof (anchor_succ (c - 1)) as Hs. replace (c - 1 + 1)%Z with c in Hs by lia. lia. }
      exists (Z.to_nat (anchor_of q k0 + tau)), k0. split; [lia|]. apply bulk_index_le in Hk0.
      split; [apply instance_iff; [lia|]; apply bulk_index_le in Hp; unfold tau in *; lia|].
      unfold key_of. fold E. rewrite (proj2 (Z.ltb_ge _ _)) by lia. rewrite (proj2 (Z.ltb_lt _ _)) by (unfold tau in *; lia). do 2 f_equal. lia.
    + exists (t_min_rounds t `max` Z.to_nat (anchor_of q kb + rr_end reach + E)), kb. split; [lia|].
      split; [apply instance_iff; lia|]. unfold key_of. fold E. rewrite (proj2 (Z.ltb_ge _ _)) by lia. by rewrite (proj2 (Z.ltb_ge _ _)) by lia.
Qed.
End variants.

(** ** One key, one window *)

Section one_key.
Context {R : Type} `{RateOps R} (ref : template_ref R) (q : window_request R) (z : round_range) (Hq : request_ok q z).
Abbreviation t := (ref_template ref).
Context (Htok : template_ok t) (Hmeas : measured t).
Context n cs (Hshot : shot_ok t n cs) (Hadm : admits t n) (Hfit : shots_fit t n).
Context n' cs' (Hshot' : shot_ok t n' cs') (Hadm' : admits t n') (Hfit' : shots_fit t n').
Context (k k' : Z) (Hkey : key_of ref q z n k = key_of ref q z n' k').
Abbreviation d := (anchor_of q k' - anchor_of q k)%Z.
Abbreviation reach := (reach_of ref q z).

Lemma key_sides :
  (d = 0%Z ∨ (Z.of_nat (length (t_prefix t)) ≤ anchor_of q k + rr_begin reach ∧ Z.of_nat (length (t_prefix t)) ≤ anchor_of q k + d + rr_begin reach)%Z) ∧
  (Z.of_nat n' = (Z.of_nat n + d)%Z ∨ (anchor_of q k + rr_end reach + end_rounds t ≤ Z.of_nat n ∧ anchor_of q k + d + rr_end reach + end_rounds t ≤ Z.of_nat n')%Z).
Proof using Hkey.
  clear -Hkey. pose proof (f_equal key_position Hkey) as Hpos. pose proof (f_equal key_terminal Hkey) as Hter. cbn [key_of key_position key_terminal] in Hpos, Hter.
  split; [revert Hpos|revert Hter].
  - destruct (Z.ltb_spec (anchor_of q k + rr_begin reach) (Z.of_nat (length (t_prefix t)))), (Z.ltb_spec (anchor_of q k' + rr_begin reach) (Z.of_nat (length (t_prefix t)))); try done.
    + intros [= ->]. left. lia.
    + right. lia.
  - destruct (Z.ltb_spec (Z.of_nat n - end_rounds t) (anchor_of q k + rr_end reach)), (Z.ltb_spec (Z.of_nat n' - end_rounds t) (anchor_of q k' + rr_end reach)); try done.
    + intros [= Hter]. left. lia.
    + right. lia.
Qed.

Lemma key_agrees : agrees t n n' d (0 `max` (anchor_of q k + rr_begin reach)) (Z.of_nat n `min` (anchor_of q k + rr_end reach)).
Proof using All.
  destruct key_sides as [Hl Hr]. assert (1 ≤ end_rounds t)%Z by (unfold end_rounds; lia).
  apply (shots_agree t Htok Hmeas n cs Hshot Hadm Hfit n' cs' Hshot' Hadm' Hfit'); lia.
Qed.

Lemma same_key_window m2o w : window_from_dem_chunks (Some ref) q k n m2o = Ok w →
  window_from_dem_chunks (Some ref) q k' n' m2o = Ok (shift_window n' d k' w).
Proof using All.
  destruct key_sides as [Hl Hr]. apply (window_shift ref q z Hq n n' (anchor_of q k) d Hl Hr key_agrees k k'); [done|unfold anchor_of; lia|eexists; apply (so_row _ _ _ Hshot'); lia|apply (so_small _ _ _ Hshot')].
Qed.
End one_key.

(** * Decoding windows: what a variant promises

    The variants listed for a request cover the shots of every length, and the
    window built for one instance of a variant decodes every instance of it. *)

(** Solving does not look at where the window lies. *)
Section solve.
Context {R : Type} (n' : nat) (d k' : Z) (w : decoding_window R).
Abbreviation w' := (shift_window n' d k' w).

Lemma map_res_fmap {A B C} (h : A → B) (f : B → res C) l : map_res f (h <$> l) = map_res (λ a, f (h a)) l.
Proof. unfold map_res. by rewrite foldM_map. Qed.

Lemma workspace_shift : make_window_workspace w' = make_window_workspace w.
Proof. unfold make_window_workspace. cbn [shift_window dw_placed dw_model shift_placed pw_sends]. by rewrite <-list_fmap_compose. Qed.

Lemma check_workspace_shift ws what : check_workspace w' ws what = check_workspace w ws what.
Proof.
  unfold check_workspace. cbn [shift_window dw_placed dw_model shift_placed pw_sends]. rewrite length_fmap. cbv zeta.
  rewrite (bool_decide_ext _ (Forall2 (λ v send, length v = length (ws_rows send)) (wo_sends (sol_outputs (wk_solution ws))) (pw_sends (dw_placed w)))); [done|].
  by rewrite Forall2_fmap_r.
Qed.

Lemma commit_window_shift detectors ws : commit_window w' detectors ws = commit_window w detectors ws.
Proof.
  unfold commit_window. rewrite check_workspace_shift. cbn [shift_window dw_placed dw_model dw_commit_columns shift_placed pw_sends].
  destruct (throw_if _ _); cbn [mbind res_bind]; [|done..]. destruct (check_workspace _ _ _); cbn [mbind res_bind]; [|done..].
  destruct (for_u _ _ _ _) as [[[committed delta] frame]| |]; cbn [mbind res_bind]; [|done..]. by rewrite map_res_fmap.
Qed.

Lemma solve_window_shift dec detectors ws : solve_window w' dec detectors ws = solve_window w dec detectors ws.
Proof.
  unfold solve_window. rewrite check_workspace_shift. change (run_decoder w' dec detectors) with (run_decoder w dec detectors). cbn [shift_window dw_model].
  destruct (throw_if _ _); cbn [mbind res_bind]; [|done..]. destruct (check_workspace _ _ _); cbn [mbind res_bind]; [|done..].
  destruct (run_decoder _ _ _ _) as [[[estimate converged] syndrome]| |]; cbn [mbind res_bind]; [|done..].
  destruct (for_u _ _ _ _) as [explained| |]; cbn [mbind res_bind]; [|done..]. destruct (for_u _ _ _ _) as [satisfied| |]; cbn [mbind res_bind]; [|done..].
  apply commit_window_shift.
Qed.
End solve.

(** ** The comparison of windows *)

Lemma counted_shift d b r : counted_from (b + d) (shift_range d r) = counted_from b r.
Proof. unfold counted_from. rewrite empty_shift. destruct (empty_range r); [done|]. cbn [shift_range rr_begin rr_end]. f_equal; lia. Qed.

Lemma counted_imports d b r : counted_from (b + d) (shift_imports d r) = counted_from b r.
Proof. unfold shift_imports. destruct (bool_decide_reflect (r = mk_range 0 0)) as [->|]; [done|apply counted_shift]. Qed.

Section compare.
Context {R : Type} `{RateOps R} (n' : nat) (d k' : Z) (w : decoding_window R) (Hno : wp_imports (pw_input (dw_placed w)) = mk_range 0 0).

(** [check_same_window_up_to_shift] cannot tell a window from its shift. *)
Lemma check_shift a : check_same_window_up_to_shift a (shift_window n' d k' w) = check_same_window_up_to_shift a w.
Proof.
  unfold check_same_window_up_to_shift. cbv zeta. cbn [shift_window dw_placed shift_placed pw_rounds pw_commit pw_buffers pw_input pw_output pw_sends].
  set (pw := dw_placed w). change (rr_begin (shift_range d (pw_rounds pw))) with (rr_begin (pw_rounds pw) + d)%Z.
  change (rr_end (shift_range d (pw_rounds pw))) with (rr_end (pw_rounds pw) + d)%Z. set (s := rr_begin (pw_rounds pw)). set (e := rr_end (pw_rounds pw)).
  replace (e + d - (s + d))%Z with (e - s)%Z by lia. rewrite counted_shift, <-list_fmap_compose.
  rewrite (list_fmap_ext (counted_from (s + d) ∘ shift_range d) (counted_from s) (pw_buffers pw)) by (intros; apply counted_shift).
  assert (∀ x, same_port x (pw_input pw) (rr_begin (pw_rounds (dw_placed a))) (s + d) = same_port x (pw_input pw) (rr_begin (pw_rounds (dw_placed a))) s) as ->.
  { intros x. unfold same_port, pw. by rewrite Hno. }
  assert (∀ x, same_port x (shift_output d (pw_output pw)) (rr_begin (pw_rounds (dw_placed a))) (s + d) = same_port x (pw_output pw) (rr_begin (pw_rounds (dw_placed a))) s) as ->.
  { intros x. unfold same_port. cbn [shift_output wp_exists wp_disposition wp_boundary wp_prior wp_imports]. by rewrite counted_imports. }
  rewrite length_fmap.
  match goal with |- context [for_u 0 ?m ?f tt] => match goal with |- _ = ?rhs => match rhs with context [for_u 0 m ?g tt] => assert (for_u 0 m f tt = for_u 0 m g tt) as -> end end end; [|done].
  apply foldM_ext. intros i [] _. destruct (vget (pw_sends (dw_placed a)) i) as [x| |]; cbn [mbind res_bind]; [|done..]. unfold vget. rewrite list_lookup_fmap.
  destruct (pw_sends pw !! i) as [y|]; cbn [fmap option_fmap option_map mbind res_bind]; [|done].
  unfold same_send. cbn [shift_send ws_id ws_mode ws_rounds ws_rows]. rewrite <-list_fmap_compose.
  by rewrite (list_fmap_ext (counted_from (s + d) ∘ shift_range d) (counted_from s) (ws_rounds y)) by (intros; apply counted_shift).
Qed.
End compare.

(** ** Theorems *)

Lemma checked_request {R} `{RateOps R} (q : window_request R) : check_request q = Ok tt → ∃ z, request_ok q z.
Proof. intros Hc. destruct (check_request_decides q) as [[Hz _]|[_ [msg E]]]; [done|congruence]. Qed.

Lemma placed_request {R} `{RateOps R} (ref : template_ref R) q k n w : place_window (Some ref) q k n = Ok w →
  (∃ z, request_ok q z) ∧ wp_imports (pw_input w) = mk_range 0 0.
Proof.
  intros Hp. unfold place_window in Hp. cbv zeta in Hp. apply bind_ok in Hp as (?&_&Hp). apply bind_ok in Hp as ([]&Hc&Hp). split; [by apply checked_request|].
  repeat (apply bind_ok in Hp as (?&_&Hp)). destruct (clip_zones _ _ _ _). repeat (apply bind_ok in Hp as (?&_&Hp)). by injection Hp as <-.
Qed.

Lemma template_min_pos {R} `{RateOps R} (spec : dem_chunks_spec R) t : make_template spec = Ok t → 2 ≤ t_min_rounds t.
Proof. intros Hm. apply (admits_two spec t _ Hm). done. Qed.

(** The keys listed, and the instances they are listed at. *)
Lemma variants_listed {R} `{RateOps R} (spec : dem_chunks_spec R) (ref : template_ref R) (q : window_request R) z :
  make_template spec = Ok (ref_template ref) → countable spec → joined_spec spec → request_ok q z →
  ∃ vs, variant_instances (ref_template ref) q = Ok vs ∧ NoDup (vi_key <$> vs) ∧
    (∀ v, v ∈ vs → admits (ref_template ref) (vi_num_rounds v) ∧ is_instance q z (vi_num_rounds v) (vi_k v) ∧ vi_key v = key_of ref q z (vi_num_rounds v) (vi_k v)) ∧
    (∀ n k, admits (ref_template ref) n → is_instance q z n k → key_of ref q z n k ∈ vi_key <$> vs).
Proof.
  intros Hm Hcnt Hj Hq. pose proof (template_min_pos spec _ Hm) as H2. pose proof (probe_rounds_eq ref q z Hq) as Hp.
  destruct (variant_instances_spec ref q z Hq _ ltac:(lia) Hp) as (vs&Hvs&Hnd&Hs&Hall); [destruct (t_repeats _); lia|].
  exists vs. split; [done|]. split; [done|]. split.
  - intros v Hv. destruct (Hs v Hv) as ([Hn Hn']&Hk&Ek). split; [split; [done|]|done]. intros E. rewrite E in Hn'. lia.
  - intros n k Hn Hk. destruct (key_in_probe ref q z Hq (template_min spec _ Hm Hcnt Hj) _ n k Hp ltac:(lia) Hn Hk) as (n0&k0&Hn0&Hk0&<-). by apply Hall.
Qed.

(** C17. The variants of a request cover its shots.  [variant_instances] returns:
    it lists distinct keys, each at an instance that has it in a shot the
    template admits; and the key of every instance of every admitted shot,
    however long, is among them. *)
Theorem variants_cover_shots {R} `{RateOps R} (spec : dem_chunks_spec R) (t : experiment_template R) (q : window_request R) :
  make_template spec = Ok t → countable spec → joined_spec spec → check_request q = Ok tt →
  ∃ vs, variant_instances t q = Ok vs ∧ NoDup (vi_key <$> vs) ∧
    (∀ v, v ∈ vs → admits t (vi_num_rounds v) ∧ window_variant t q (vi_k v) (vi_num_rounds v) = Ok (vi_key v) ∧
       ∃ i, window_instances q (vi_num_rounds v) = Ok i ∧ (ir_begin i ≤ vi_k v < ir_end i)%Z) ∧
    (∀ n k i, admits t n → window_instances q n = Ok i → (ir_begin i ≤ k < ir_end i)%Z →
       ∃ key, window_variant t q k n = Ok key ∧ key ∈ vi_key <$> vs).
Proof.
  intros Hm Hcnt Hj Hc. destruct (checked_request q Hc) as [z Hq]. pose proof (template_min_pos spec t Hm) as H2.
  destruct (ex_intro (λ r, ref_template r = t) (mk_ref 0 t) eq_refl) as [ref <-].
  assert (∀ n k i, 0 < n → window_instances q n = Ok i → (ir_begin i ≤ k < ir_end i)%Z ↔ is_instance q z n k) as Hin.
  { intros n k i Hn Hi. apply (window_instances_spec q z n i k (rq_anchor _ _ Hq) Hi Hn). }
  destruct (variants_listed spec ref q z Hm Hcnt Hj Hq) as (vs&Hvs&Hnd&Hs&Hall). exists vs. split; [done|]. split; [done|]. split.
  - intros v Hv. destruct (Hs v Hv) as (Hadm&Hk&Ek). split; [done|]. rewrite Ek, (window_variant_eq ref q z Hq). split; [done|]. eexists.
    split; [apply (window_instances_eq q z _ (rq_anchor _ _ Hq))|]. apply (Hin (vi_num_rounds v)); [destruct Hadm; lia|apply (window_instances_eq q z _ (rq_anchor _ _ Hq))|done].
  - intros n k i Hn Hi Hk. eexists. split; [apply (window_variant_eq ref q z Hq)|]. apply Hall; [done|]. apply (Hin n k i); [destruct Hn; lia|done|done].
Qed.

Lemma one_variant_window {R} `{RateOps R} (spec : dem_chunks_spec R) (ref : template_ref R) (q : window_request R)
    n cs n' cs' (k k' : Z) key (m2o : bool) (w : decoding_window R) :
  spec_shot spec (ref_template ref) n cs → shots_fit (ref_template ref) n →
  spec_shot spec (ref_template ref) n' cs' → shots_fit (ref_template ref) n' → measured (ref_template ref) →
  window_variant (ref_template ref) q k n = Ok key → window_variant (ref_template ref) q k' n' = Ok key →
  window_from_dem_chunks (Some ref) q k n m2o = Ok w →
  ∃ w', window_from_dem_chunks (Some ref) q k' n' m2o = Ok w' ∧
    check_same_window_up_to_shift w w' = check_same_window_up_to_shift w w ∧
    make_window_workspace w' = make_window_workspace w ∧
    ∀ dec detectors ws, solve_window w' dec detectors ws = solve_window w dec detectors ws.
Proof.
  intros Hs Hf Hs' Hf' Hmeas Hk Hk' Hw. unfold window_from_dem_chunks in Hw. pose proof Hw as Hpl. apply bind_ok in Hpl as (pw&Hpw&Hrest).
  destruct (placed_request ref q k n pw Hpw) as [[z Hq] Hno]. rewrite (window_variant_eq ref q z Hq) in Hk, Hk'. assert (key_of ref q z n k = key_of ref q z n' k') as Hkey by congruence.
  destruct (spec_shot_ok _ _ _ _ Hs) as [_ Hok]. destruct (spec_shot_ok _ _ _ _ Hs') as [_ Hok'].
  pose proof (make_template_ok _ _ (ss_template _ _ _ _ Hs) (ss_countable _ _ _ _ Hs) (ss_joined _ _ _ _ Hs)) as Htok.
  assert (dw_placed w = pw) as Epw. { repeat (apply bind_ok in Hrest as (?&_&Hrest)). by injection Hrest as <-. }
  eexists. split; [apply (same_key_window ref q z Hq Htok Hmeas n cs Hok (ss_admits _ _ _ _ Hs) Hf n' cs' Hok' (ss_admits _ _ _ _ Hs') Hf' k k' Hkey m2o w Hw)|].
  split; [apply check_shift; by rewrite Epw|]. split; [apply workspace_shift|]. intros. apply solve_window_shift.
Qed.

(** C16. Windows of one variant are one window up to a shift.  When two
    instances, of two shots or of one, have the same key and the window of one
    is built, the window of the other is built too;
    [check_same_window_up_to_shift] finds the same between them as between the
    window and itself; and the two are solved alike, whatever the decoder, the
    detectors and the workspace. *)
Theorem same_variant_same_window {R} `{RateOps R} (spec : dem_chunks_spec R) (ref : template_ref R) (q : window_request R)
    n cs n' cs' (k k' : Z) key (m2o : bool) (w : decoding_window R) :
  spec_shot spec (ref_template ref) n cs → shots_fit (ref_template ref) n →
  spec_shot spec (ref_template ref) n' cs' → shots_fit (ref_template ref) n' → measured (ref_template ref) →
  window_variant (ref_template ref) q k n = Ok key → window_variant (ref_template ref) q k' n' = Ok key →
  window_from_dem_chunks (Some ref) q k n m2o = Ok w →
  ∃ w', window_from_dem_chunks (Some ref) q k' n' m2o = Ok w' ∧
    check_same_window_up_to_shift w w' = check_same_window_up_to_shift w w ∧
    make_window_workspace w' = make_window_workspace w ∧
    ∀ dec detectors ws, solve_window w' dec detectors ws = solve_window w dec detectors ws.
Proof. intros. by eapply (one_variant_window spec ref q n cs n' cs'). Qed.

(** [check_translation_invariance] compares the first bulk window with itself. *)
Theorem translation_invariance_self {R} `{RateOps R} (spec : dem_chunks_spec R) (ref : template_ref R) (q : window_request R) z n cs :
  request_ok q z → t_repeats (ref_template ref) = true →
  n = t_min_rounds (ref_template ref) `max` Z.to_nat (anchor_of q (bulk_index ref q z + 1) + rr_end (reach_of ref q z) + end_rounds (ref_template ref)) →
  spec_shot spec (ref_template ref) n cs → shots_fit (ref_template ref) n → measured (ref_template ref) →
  check_translation_invariance (Some ref) q =
    (w ← window_from_dem_chunks (Some ref) q (bulk_index ref q z) n false; check_same_window_up_to_shift w w).
Proof.
  intros Hq Hrep Hn Hs Hf Hmeas. set (t := ref_template ref) in *. unfold check_translation_invariance.
  rewrite (decides_returns _ _ _ (check_request_decides q)) by eauto. cbn [mbind res_bind]. fold t. rewrite Hrep. cbn [negb].
  unfold first_bulk_index. pose proof (model_reach_eq ref q z Hq) as Hr. fold t in Hr. rewrite Hr. cbn [mbind res_bind].
  change (ceil_div _ _) with (bulk_index ref q z). fold (anchor_of q (bulk_index ref q z + 1)). set (kb := bulk_index ref q z) in *.
  replace (Z.to_nat _) with n by (rewrite Hn; lia).
  destruct (window_from_dem_chunks (Some ref) q kb n false) as [w| |] eqn:Hw; cbn [mbind res_bind]; [|done..].
  pose proof (proj1 (bulk_index_le ref q z Hq kb) ltac:(lia)) as Hb. pose proof (anchor_succ q kb) as Hsucc. pose proof (period_pos q z Hq) as Hper.
  assert (∀ k, (kb ≤ k ≤ kb + 1)%Z → window_variant t q k n = Ok (mk_key None None)) as Hv.
  { intros k Hk. unfold t. rewrite (window_variant_eq ref q z Hq). unfold key_of. fold t. assert (anchor_of q kb ≤ anchor_of q k ≤ anchor_of q (kb + 1))%Z as Ha.
    { split; apply (anchor_mono q z Hq); lia. }
    rewrite (proj2 (Z.ltb_ge _ _)) by (fold t in Hb; lia). by rewrite (proj2 (Z.ltb_ge _ _)) by lia. }
  destruct (one_variant_window spec ref q n cs n cs kb (kb + 1) _ false w Hs Hf Hs Hf Hmeas (Hv kb ltac:(lia)) (Hv (kb + 1)%Z ltac:(lia)) Hw) as (w'&->&Hc&_).
  cbn [mbind res_bind]. done.
Qed.

(** ** An example

    The memory experiment's shots of three to nine rounds: windows 1 of a shot of
    five rounds and 2 of a shot of nine both end with the round after their
    anchor. *)

Definition memory_shot_chunks (n : nat) : list (extended_dem Q) :=
  match dem_chunks_from_spec (with_num_rounds memory_spec n) with Ok cs => cs | _ => [] end.

Lemma memory_rounds n : 3 ≤ n ≤ 9 → n = 3 ∨ n = 4 ∨ n = 5 ∨ n = 6 ∨ n = 7 ∨ n = 8 ∨ n = 9.
Proof. lia. Qed.

Lemma memory_shot_spec n : 3 ≤ n ≤ 9 → spec_shot memory_spec memory_template n (memory_shot_chunks n).
Proof.
  intros Hn. split; try apply memory_spec_shot.
  - split; [vm_compute; lia|done].
  - destruct (memory_rounds n Hn) as [->|[->|[->|[->|[->|[->| ->]]]]]]; by vm_compute.
  - split.
    + eapply Forall_impl; [|intros c; apply memory_chunk_ok]. destruct (memory_rounds n Hn) as [->|[->|[->|[->|[->|[->| ->]]]]]]; vm_compute; repeat constructor.
    + destruct (memory_rounds n Hn) as [->|[->|[->|[->|[->|[->| ->]]]]]]; vm_compute; repeat constructor.
  - destruct (memory_rounds n Hn) as [->|[->|[->|[->|[->|[->| ->]]]]]]; split; by vm_compute.
  - destruct (memory_rounds n Hn) as [->|[->|[->|[->|[->|[->| ->]]]]]]; by vm_compute.
Qed.

Lemma memory_shots_fit n : 3 ≤ n ≤ 9 → shots_fit memory_template n.
Proof.
  intros Hn. split; [lia|]. intros ps Hps. destruct (memory_rounds n Hn) as [->|[->|[->|[->|[->|[->| ->]]]]]];
    repeat match goal with
    | H : shot_of _ _ _ |- _ => unfold shot_of, built_as in H; cbn in H
    | H : Forall2 _ (_ :: _) _ |- _ => apply Forall2_cons_inv_l in H as (?&?&[= <-]&H&->)
    | H : Forall2 _ [] _ |- _ => apply Forall2_nil_inv_l in H as ->
    end; by vm_compute.
Qed.

Lemma memory_measured : measured memory_template.
Proof.
  intros id Hid. assert (id ∈ [1; 3; 2]) as Hin by exact Hid. rewrite !elem_of_cons, elem_of_nil in Hin.
  destruct Hin as [->|[->|[->|[]]]]; eexists _, _; (split; vm_compute; reflexivity).
Qed.

Lemma variants_cover_shots_witness :
  ∃ vs key, variant_instances memory_template anchor_request = Ok vs ∧ window_variant memory_template anchor_request 25 101 = Ok key ∧ key ∈ vi_key <$> vs ∧
    length vs = 8.
Proof.
  destruct (variants_cover_shots memory_spec memory_template anchor_request) as (vs&Hvs&_&_&Hall).
  - exact memory_template_ok.
  - vm_compute. done.
  - intros _. vm_compute. reflexivity.
  - vm_compute. reflexivity.
  - destruct (Hall 101 25%Z (mk_index_range 0 26)) as (key&Hkey&Hin); [split; [vm_compute; lia|done]|vm_compute; reflexivity|cbn; lia|].
    exists vs, key. split; [exact Hvs|]. split; [exact Hkey|]. split; [exact Hin|]. vm_compute in Hvs. by injection Hvs as <-.
Defined.

Lemma same_variant_same_window_witness :
  ∃ w w', window_from_dem_chunks (Some memory_ref) anchor_request 1 5 false = Ok w ∧ window_from_dem_chunks (Some memory_ref) anchor_request 2 9 false = Ok w' ∧
    check_same_window_up_to_shift w w' = Ok tt ∧ ∀ dec detectors ws, solve_window w' dec detectors ws = solve_window w dec detectors ws.
Proof.
  destruct (window_from_dem_chunks (Some memory_ref) anchor_request 1 5 false) as [w| |] eqn:Ew; [|by vm_compute in Ew..].
  destruct (same_variant_same_window memory_spec memory_ref anchor_request 5 _ 9 _ 1 2 (mk_key None (Some 1%Z)) false w
    (memory_shot_spec 5 ltac:(lia)) (memory_shots_fit 5 ltac:(lia)) (memory_shot_spec 9 ltac:(lia)) (memory_shots_fit 9 ltac:(lia)) memory_measured) as (w'&Hw'&Hc&_&Hs).
  - vm_compute. reflexivity.
  - vm_compute. reflexivity.
  - exact Ew.
  - exists w, w'. split; [reflexivity|]. split; [exact Hw'|]. split; [|exact Hs]. rewrite Hc. vm_compute in Ew. injection Ew as <-. vm_compute. reflexivity.
Defined.
