(* ===== verification/DecodeWindow.v ===== *)
(** * The decode_window core

    Model of [decode_window_core]
    (libs/qec/lib/decoding_task/decoding_task_decode_window_core.cpp and its
    header) and of [make_window_decoder]: a layer's variants, each with its
    decoders and buffers, and the fire that runs the canonical workload on any
    instance of one.

    The members that the constructor fixes are a [decode_layout]; the members that
    change are a [decode_core].  A [window_fire] does not hold results: its
    detectors, its solution and its sends are references to the buffers of a
    variant, as in the code, and what they read is what the buffers hold.  Fires
    into different slots may overlap, so [fire] is the composition of the part up
    to the claim of a variant's decoder ([fire_begin]: the checks, the claim, the
    detectors) and the rest ([fire_end]: the decoder, the publication, the release);
    between the two other slots may act.  An operation that throws returns the
    core as the exception leaves it.  The store's windows and the inner decoders
    are arguments.  Exceptions carry the fixed part of their message. *)

From Stdlib Require Import QArith.
From S2P Require Import Prelude Rates Ordering Tensor SparseMatrix RoundLayout DetectorErrorModel Decoder ExtendedDem ChunkSpec ExperimentTemplate WindowRequest WindowModel WindowWorkload Ingest.

Open Scope nat_scope.

Inductive verify_residual_mode := verify_none | verify_fail | verify_report.

#[global] Instance verify_residual_mode_eq_dec : EqDecision verify_residual_mode.
Proof. solve_decision. Defined.

(** [window_send_value]; [sv_send] is [None] for a null pointer. *)
Record window_send_value := mk_send_value {
  sv_values : list nat;
  sv_send : option window_send;
  sv_first_row : nat
}.

Record window_send_payload := mk_payload {
  sp_values : list nat;
  sp_send : option window_send;
  sp_first_row : nat
}.

Definition copy_send (from : window_send_value) : window_send_payload :=
  mk_payload (sv_values from) (sv_send from) (sv_first_row from).
Definition receive_of (payload : window_send_payload) : window_send_value :=
  mk_send_value (sp_values payload) (sp_send payload) (sp_first_row payload).

(** A send of a fire: the variant, the buffer set and the index of the send
    whose values it points to. *)
Record fire_send := mk_fire_send { fs_source : option (nat * nat * nat); fs_first_row : nat }.

(** [window_fire]; [wf_buffers]: the variant and the buffer set that [detectors]
    and [solution] point to. *)
Record window_fire := mk_fire {
  wf_k : Z;
  wf_fired : bool;
  wf_checked : bool;
  wf_commit : round_range;
  wf_buffers : option (nat * nat);
  wf_sends : list fire_send;
  wf_failure : string;
  wf_variant : nat;
  wf_ticket : nat
}.

(** The locals of a fire that has claimed its variant. *)
Record pending_fire := mk_pending { pf_slot : nat; pf_variant : nat; pf_set : nat; pf_window : window_rows }.

(** ** Buffers of a variant and a set *)

Definition buffer_get {A} (b : list (list A)) (v s : nat) : res A := l ← vget b v; vget l s.
Definition buffer_set {A} (b : list (list A)) (v s : nat) (x : A) : res (list (list A)) :=
  l ← vget b v;
  l ← vset l s x;
  vset b v l.

(** A loop whose body may throw: the state it leaves, and the exception. *)
Fixpoint fold_until {S B} (f : B → S → res (S * option exn)) (l : list B) (s : S) : res (S * option exn) :=
  match l with
  | [] => Ok (s, None)
  | b :: l => r ← f b s; match r.2 with None => fold_until f l r.1 | Some e => Ok (r.1, Some e) end
  end.

Section core.
Context {R : Type} `{RateOps R}.

(** ** The inner decoder *)

(** What [get_decoder] builds, as far as a window uses it. *)
Record inner_decoder := mk_inner {
  id_errors : bool;
  id_syndrome_size : nat;
  id_block_size : nat;
  id_decode : decode_fn
}.

(** [get_decoder(name, decoder_init(h, {}, priors), ...)], a plugin's. *)
Definition decoder_source : Type := sparse_binary_matrix → list R → res inner_decoder.

Definition make_window_decoder (get_decoder : decoder_source) (w : decoding_window R) : res (option decode_fn) :=
  let columns := num_decoder_columns w in
  let rows := num_rows_ (wm_h (dw_model w)) in
  if (rows =? 0) || (columns =? 0) then Ok None else
  priors ← vslice (wm_priors (dw_model w)) 0 columns;
  dec ← get_decoder (wm_h (dw_model w)) priors;
  _ ← throw_if (negb (id_errors dec)) (InvalidArgument "make_window_decoder: decoder returns observables; a window needs its fault columns");
  _ ← throw_if (negb (id_syndrome_size dec =? rows) || negb (id_block_size dec =? columns))
        (InvalidArgument "make_window_decoder: decoder takes detectors and returns columns, but window has rows and decoder columns");
  Ok (Some (id_decode dec)).

(** ** Construction *)

(** [variant] without the buffers that a fire writes. *)
Record core_variant := mk_variant {
  va_key : variant_key;
  va_window : decoding_window R;
  va_decoders : list (option decode_fn)
}.

Record decode_layout := mk_decode_layout {
  dl_context : experiment_template R;
  dl_request : window_request R;
  dl_verify : verify_residual_mode;
  dl_span : round_range;
  dl_variants : list core_variant
}.

Record decode_core := mk_decode_core {
  dc_workspaces : list (list window_workspace);
  dc_detectors : list (list (list nat));
  dc_fires : list window_fire;
  dc_covered : list (list nat);
  dc_decoding : list bool;
  dc_counts : list nat
}.

Definition fire_fails (what : string) : exn := InvalidArgument ("decode_window: " +:+ what).

(** The buffer sets of a variant: one per slot for the bulk, else one. *)
Definition sets_of (key : variant_key) (slots : nat) : nat := if is_bulk key then slots else 1.

(** [stable_partition] by [bulk]. *)
Definition bulk_first (l : list core_variant) : list core_variant :=
  List.filter (λ v, is_bulk (va_key v)) l ++ List.filter (λ v, negb (is_bulk (va_key v))) l.

Definition empty_fire (q : window_request R) : window_fire :=
  mk_fire 0 false false (mk_range 0 0) None (replicate (length (wr_sends q)) (mk_fire_send None 0)) "" 0 0.

(** One pass of the constructor's loop: a variant, and the most imported rows. *)
Definition make_variant (get_decoder : decoder_source) (q : window_request R) (slots : nat)
    (entry : variant_key * decoding_window R) (st : list core_variant * nat) : res (list core_variant * nat) :=
  let '(key, w) := entry in
  let '(variants, imported) := st in
  decoders ← map_res (λ _, make_window_decoder get_decoder w) (seq 0 (sets_of key slots));
  _ ← throw_if (negb (bool_decide (ws_id <$> pw_sends (dw_placed w) = sq_id <$> wr_sends q)))
        (LogicError "decode_window: a window's sends are not its request's, in order");
  Ok (variants ++ [mk_variant key w decoders],
      imported `max` u64_sub (num_rows_ (wm_h (dw_model w))) (dw_num_own_rows w)).

(** The constructor; [found] is the store's answer to [find_windows]. *)
Definition make_decode_core (found : res (list (variant_key * decoding_window R))) (t : experiment_template R) (q : window_request R)
    (get_decoder : decoder_source) (slots : nat) (verify : verify_residual_mode) : res (decode_layout * decode_core) :=
  _ ← throw_if (slots =? 0) (fire_fails "no slot to fire into");
  span ← zone_span q;
  windows ← found;
  st ← foldM (make_variant get_decoder q slots) windows ([], 0);
  let '(variants, imported) := st in
  let variants := bulk_first variants in
  let sets v := sets_of (va_key v) slots in
  Ok (mk_decode_layout t q verify span variants,
      mk_decode_core ((λ v, replicate (sets v) (make_window_workspace (va_window v))) <$> variants)
        ((λ v, replicate (sets v) (replicate (num_rows_ (wm_h (dw_model (va_window v)))) 0)) <$> variants)
        (replicate slots (empty_fire q)) (replicate slots (replicate imported 0))
        (replicate (length variants) false) (replicate (length variants) 0)).

Implicit Types L : decode_layout.

Definition num_slots (core : decode_core) : nat := length (dc_fires core).
Definition num_variants L : nat := length (dl_variants L).

Definition check_slot (core : decode_core) (slot : nat) : res unit :=
  throw_if (num_slots core <=? slot) (fire_fails "slot does not exist").

(** ** The window of a fire *)

Definition anchor_at L (k : Z) : Z := (wr_offset (dl_request L) + k * wr_period (dl_request L))%Z.

(** The shot row where the window's first round starts. *)
Definition first_row L (window : window_rows) : res nat :=
  let t := dl_context L in
  let anchor := anchor_at L (rows_k window) in
  let begin := to_size (0 `max` rr_begin (rows_rounds window)) in
  let rounds :=
    match key_terminal (rows_variant window) with
    | Some terminal => to_size (anchor + terminal)
    | None => if t_repeats t
              then t_min_rounds t `max` u64 (to_size (0 `max` rr_end (rows_rounds window)) + suffix_rounds t)
              else t_min_rounds t
    end in
  row_offset t begin rounds.

Definition int64_max : Z := (2 ^ 63 - 1)%Z.

(** The index of the window's variant, when the window is this layer's window [k]. *)
Definition check_fired_window L (core : decode_core) (slot : nat) (window : window_rows) : res nat :=
  _ ← check_slot core slot;
  v ← match list_find (λ v, va_key v = rows_variant window) (dl_variants L) with
      | Some (v, _) => Ok v
      | None => Throw (fire_fails "window's variant is none of this layer's")
      end;
  let anchor := anchor_at L (rows_k window) in
  let rounds := clip_rounds (dl_span L) anchor
                  (match key_terminal (rows_variant window) with Some terminal => anchor + terminal | None => int64_max end)%Z in
  _ ← match key_position (rows_variant window) with
      | Some position => throw_if (negb (position =? rows_k window)%Z) (fire_fails "window carries another window's variant")
      | None => Ok tt
      end;
  first ← first_row L window;
  _ ← throw_if (negb (rows_first_row window =? first)) (fire_fails "window's first row is not where its round starts");
  _ ← throw_if (negb (bool_decide (rows_rounds window = rounds))) (fire_fails "window spans rounds, not this layer's window's");
  variant ← vget (dl_variants L) v;
  _ ← throw_if (negb (length (rows_detectors window) =? dw_num_own_rows (va_window variant)) || empty_range (rows_rounds window))
        (fire_fails "window holds rows, not those of its variant");
  Ok v.

(** The lambda [target]: the window's row of shot row [first_row + row], or [all]. *)
Definition target (window_first all first row : nat) : nat :=
  let shot_row := u64 (first + row) in
  if shot_row <? window_first then all else shot_row - window_first.

(** One row of a received send: whether the window takes it. *)
Definition check_received_row (own all : nat) (mode : send_mode) (tgt : nat) (st : list nat * nat) : res ((list nat * nat) * option exn) :=
  let '(covered, num_covered) := st in
  let delta := bool_decide (mode = send_delta) in
  if (if delta then own <=? tgt else (tgt <? own) || (all <=? tgt))
  then Ok (st, Some (fire_fails "send reaches a shot row which the window does not take")) else
  if delta then Ok (st, None) else
  c ← vget covered (tgt - own);
  if c =? 0 then covered ← vset covered (tgt - own) 1; Ok ((covered, num_covered + 1), None) else Ok (st, None).

Definition check_receive (window : window_rows) (own all : nat) (r : option window_send_value) (st : list nat * nat)
    : res ((list nat * nat) * option exn) :=
  match r with
  | Some (mk_send_value values (Some send) first) =>
      if negb (length values =? length (ws_rows send))
      then Ok (st, Some (fire_fails "a send has values for rows")) else
      fold_until (λ i st, row ← vget (ws_rows send) i;
                          check_received_row own all (ws_mode send) (target (rows_first_row window) all first row) st)
        (seq 0 (length values)) st
  | _ => Ok (st, None)
  end.

(** Every received row is checked, then that every imported row is reached. *)
Definition check_receives (window : window_rows) (own all : nat) (receives : list (option window_send_value)) (covered : list nat)
    : res (list nat * option exn) :=
  covered ← write_n covered 0 (replicate (all - own) 0);
  r ← fold_until (check_receive window own all) receives (covered, 0);
  let '((covered, num_covered), e) := r in
  Ok (covered, match e with
               | Some e => Some e
               | None => if num_covered =? all - own then None
                         else Some (fire_fails "window imports rows, but no residual reaches its imported row")
               end).

(** [d\[t\] ^= value & 1] for a delta, [d\[t\] = value & 1] for a residual. *)
Definition receive_value (window : window_rows) (all : nat) (send : window_send) (first : nat) (values : list nat) (i : nat) (d : list nat) : res (list nat) :=
  row ← vget (ws_rows send) i;
  value ← vget values i;
  let tgt := target (rows_first_row window) all first row in
  match ws_mode send with
  | send_delta => x ← vget d tgt; vset d tgt (Nat.lxor x (Nat.land value 1))
  | send_residual => vset d tgt (Nat.land value 1)
  end.

Definition apply_receive (window : window_rows) (all : nat) (r : option window_send_value) (d : list nat) : res (list nat) :=
  match r with
  | Some (mk_send_value values (Some send) first) => for_u 0 (length values) (receive_value window all send first values) d
  | _ => Ok d
  end.

Definition apply_receives (window : window_rows) (all : nat) (receives : list (option window_send_value)) (d : list nat) : res (list nat) :=
  foldM (apply_receive window all) receives d.

(** ** Firing *)

Definition with_covered (core : decode_core) (covered : list (list nat)) : decode_core :=
  mk_decode_core (dc_workspaces core) (dc_detectors core) (dc_fires core) covered (dc_decoding core) (dc_counts core).

Definition clear_fire (f : window_fire) (v ticket : nat) : window_fire :=
  mk_fire (wf_k f) false (wf_checked f) (wf_commit f) (wf_buffers f) (wf_sends f) "" v ticket.

(** A fire up to its decoder: a rejected one leaves its slot as it was. *)
Definition fire_begin L (core : decode_core) (slot : nat) (window : window_rows) (receives : list (option window_send_value))
    : res (decode_core * (pending_fire + exn)) :=
  match check_fired_window L core slot window with
  | Undef => Undef
  | Throw e => Ok (core, inr e)
  | Ok v =>
      variant ← vget (dl_variants L) v;
      let bulk := is_bulk (va_key variant) in
      let set := if bulk then slot else 0 in
      d ← buffer_get (dc_detectors core) v set;
      let own := dw_num_own_rows (va_window variant) in
      let all := length d in
      covered ← vget (dc_covered core) slot;
      checked ← check_receives window own all receives covered;
      all_covered ← vset (dc_covered core) slot checked.1;
      let core := with_covered core all_covered in
      match checked.2 with
      | Some e => Ok (core, inr e)
      | None =>
          taken ← vget (dc_decoding core) v;
          if negb (is_bulk (rows_variant window)) && taken
          then Ok (core, inr (LogicError "decode_window: window's variant is decoding in another slot")) else
          count ← vget (dc_counts core) v;
          out ← vget (dc_fires core) slot;
          let count := if bulk then count else u64 (count + 1) in
          decoding ← (if bulk then Ok (dc_decoding core) else vset (dc_decoding core) v true);
          counts ← (if bulk then Ok (dc_counts core) else vset (dc_counts core) v count);
          fires ← vset (dc_fires core) slot (clear_fire out v (if bulk then wf_ticket out else count));
          d ← write_n d 0 (rows_detectors window);
          d ← write_n d own (replicate (all - own) 0);
          d ← apply_receives window all receives d;
          detectors ← buffer_set (dc_detectors core) v set d;
          Ok (mk_decode_core (dc_workspaces core) detectors fires (dc_covered core) decoding counts,
              inl (mk_pending slot v set window))
      end
  end.

(** What [solve_window] leaves of a workspace when its decoder fails. *)
Definition torn_workspace (w : decoding_window R) (d : list nat) (ws : window_workspace) : window_workspace :=
  mk_workspace (soft_of <$> d) (replicate (length (wk_explained ws)) 0) (wk_delta ws)
    (mk_solution (replicate (length (sol_estimate (wk_solution ws))) 0) true true (sol_outputs (wk_solution ws))).

(** The first row where H e differs from d. *)
Fixpoint first_missed (explained d : list nat) : res nat :=
  match explained, d with
  | e :: explained, x :: d => if e =? Nat.land x 1 then m ← first_missed explained d; Ok (S m) else Ok 0
  | _, _ => Undef
  end.

(** [claim]'s destructor. *)
Definition release_claim L (core : decode_core) (v : nat) : res (list bool) :=
  variant ← vget (dl_variants L) v;
  if is_bulk (va_key variant) then Ok (dc_decoding core) else vset (dc_decoding core) v false.

(** The rest of a fire: the exception, if the decoder throws one. *)
Definition fire_end L (core : decode_core) (p : pending_fire) : res (decode_core * option exn) :=
  let '(mk_pending slot v set window) := p in
  variant ← vget (dl_variants L) v;
  let w := va_window variant in
  dec ← vget (va_decoders variant) set;
  d ← buffer_get (dc_detectors core) v set;
  ws ← buffer_get (dc_workspaces core) v set;
  out ← vget (dc_fires core) slot;
  decoding ← release_claim L core v;
  let leave ws out e :=
    workspaces ← buffer_set (dc_workspaces core) v set ws;
    fires ← vset (dc_fires core) slot out;
    Ok (mk_decode_core workspaces (dc_detectors core) fires (dc_covered core) decoding (dc_counts core), e) in
  match solve_window w dec d ws with
  | Undef => Undef
  | Throw e => leave (torn_workspace w d ws) out (Some e)
  | Ok ws =>
      if bool_decide (dl_verify L = verify_fail) && negb (sol_satisfied (wk_solution ws)) then
        missed ← first_missed (wk_explained ws) d;
        let failure := "decode_window: window's solution does not satisfy its detectors (verify_residual: fail): H e first differs from d at its " +:+
                       (if missed <? dw_num_own_rows w then "row" else "imported row") in
        leave ws (mk_fire (wf_k out) (wf_fired out) (wf_checked out) (wf_commit out) (wf_buffers out) (wf_sends out) failure (wf_variant out) (wf_ticket out)) None
      else
        commit ← commit_of (dl_request L);
        let anchor := anchor_at L (rows_k window) in
        let rounds := rows_rounds window in
        sends ← map_res (λ s,
                  _ ← vget (wo_sends (sol_outputs (wk_solution ws))) s;
                  _ ← vget (pw_sends (dw_placed w)) s;
                  Ok (mk_fire_send (Some (v, set, s)) (rows_first_row window))) (seq 0 (length (wf_sends out)));
        leave ws (mk_fire (rows_k window) true (negb (bool_decide (dl_verify L = verify_none)))
                    (mk_range (rr_begin rounds `max` (anchor + rr_begin commit)) (rr_end rounds `min` (anchor + rr_end commit)))
                    (Some (v, set)) sends (wf_failure out) (wf_variant out) (wf_ticket out)) None
  end.

(** [fire]: its record is the slot's. *)
Definition fire L (core : decode_core) (slot : nat) (window : window_rows) (receives : list (option window_send_value))
    : res (decode_core * option exn) :=
  r ← fire_begin L core slot window receives;
  match r.2 with
  | inr e => Ok (r.1, Some e)
  | inl p => fire_end L r.1 p
  end.

(** ** Resets and queries *)

Definition unfire (f : window_fire) : window_fire :=
  mk_fire (wf_k f) false (wf_checked f) (wf_commit f) (wf_buffers f) (wf_sends f) (wf_failure f) (wf_variant f) (wf_ticket f).

Definition with_fires (core : decode_core) (fires : list window_fire) : decode_core :=
  mk_decode_core (dc_workspaces core) (dc_detectors core) fires (dc_covered core) (dc_decoding core) (dc_counts core).

Definition reset_all (core : decode_core) : decode_core := with_fires core (unfire <$> dc_fires core).

Definition reset_slot (core : decode_core) (slot : nat) : res decode_core :=
  _ ← check_slot core slot;
  f ← vget (dc_fires core) slot;
  fires ← vset (dc_fires core) slot (unfire f);
  Ok (with_fires core fires).

Definition held (core : decode_core) (slot : nat) : res window_fire :=
  _ ← check_slot core slot;
  vget (dc_fires core) slot.

Definition holds L (core : decode_core) (f : window_fire) : res bool :=
  match dl_variants L !! wf_variant f with
  | None => Throw (OutOfRange "vector::at")
  | Some variant =>
      if is_bulk (va_key variant) then Ok true else
      count ← vget (dc_counts core) (wf_variant f);
      Ok (count =? wf_ticket f)
  end.

Definition send_index L (id : string) : res nat :=
  match list_find (λ s, sq_id s = id) (wr_sends (dl_request L)) with
  | Some (s, _) => Ok s
  | None => Throw (fire_fails "the layer has no send")
  end.

Definition max_send_rows L (s : nat) : res nat :=
  foldM (λ v most,
    match pw_sends (dw_placed (va_window v)) !! s with
    | None => Throw (OutOfRange "vector::at")
    | Some send => Ok (most `max` length (ws_rows send))
    end) (dl_variants L) 0.

(** ** Reading a fire's results *)

Definition fire_detectors (core : decode_core) (f : window_fire) : res (list nat) :=
  match wf_buffers f with
  | Some (v, set) => buffer_get (dc_detectors core) v set
  | None => Ok []
  end.

Definition fire_solution (core : decode_core) (f : window_fire) : res window_solution :=
  match wf_buffers f with
  | Some (v, set) => ws ← buffer_get (dc_workspaces core) v set; Ok (wk_solution ws)
  | None => Undef
  end.

Definition fire_send_value L (core : decode_core) (send : fire_send) : res window_send_value :=
  match fs_source send with
  | Some (v, set, s) =>
      ws ← buffer_get (dc_workspaces core) v set;
      variant ← vget (dl_variants L) v;
      values ← vget (wo_sends (sol_outputs (wk_solution ws))) s;
      send' ← vget (pw_sends (dw_placed (va_window variant))) s;
      Ok (mk_send_value values (Some send') (fs_first_row send))
  | None => Ok (mk_send_value [] None (fs_first_row send))
  end.
End core.
Arguments decode_layout R : clear implicits.
Arguments decode_core : clear implicits.
Arguments core_variant R : clear implicits.
Arguments inner_decoder : clear implicits.
Arguments decoder_source R : clear implicits.
