(* ===== verification/DecodeFire.v ===== *)
(** * The decode_window core: overlapping fires

    Fires of one core that overlap, as a step relation: a fire begins, other slots
    begin, end or are reset, the fire ends.  By rule induction: fires in flight
    never share a decoder or a buffer set, and what a fire published stays what
    its record reads for as long as [holds] says so. *)

From Stdlib Require Import QArith.
From S2P Require Import Prelude Rates Ordering Tensor SparseMatrix RoundLayout DetectorErrorModel Decoder ExtendedDem ChunkSpec ExperimentTemplate WindowRequest WindowModel WindowWorkload Ingest IngestRounds WindowVariants ExtendedFacts ExtendedStitch ExtendedAll TemplateFacts TemplateProps WindowRequestFacts Commitment WorkloadFacts WindowShot WindowPlace WindowBuild ShotRun CommitFacts CommitProps WindowProps IngestViews IngestLayout IngestRun IngestProps DecodeWindow.

Open Scope nat_scope.

(** ** Buffers *)

Section buffers.
Context {A : Type}.
Implicit Types b : list (list A).

Lemma buffer_get_ok b v s x : buffer_get b v s = Ok x ↔ ∃ l, b !! v = Some l ∧ l !! s = Some x.
Proof.
  unfold buffer_get, vget. split.
  - destruct (b !! v) as [l|]; cbn [mbind res_bind]; [|done]. destruct (l !! s) eqn:E; intros [= <-]. eauto.
  - intros (l&->&Hs). cbn [mbind res_bind]. by rewrite Hs.
Qed.

Lemma buffer_set_ok b v s x b' : buffer_set b v s x = Ok b' →
  ∃ l, b !! v = Some l ∧ s < length l ∧ b' = <[v := <[s := x]> l]> b.
Proof.
  unfold buffer_set. intros Hb. apply bind_ok in Hb as (l&Hl&Hb). apply bind_ok in Hb as (l'&Hl'&Hb).
  unfold vget in Hl. destruct (b !! v) as [l0|] eqn:E; [|done]. injection Hl as ->. unfold vset in Hl', Hb.
  destruct (decide (s < length l)); [|done]. injection Hl' as <-. destruct (decide (v < length b)); [|done]. injection Hb as <-. eauto.
Qed.

Lemma buffer_get_set b v s x b' v' s' : buffer_set b v s x = Ok b' →
  buffer_get b' v' s' = if decide (v' = v ∧ s' = s) then Ok x else buffer_get b v' s'.
Proof.
  intros (l&Hl&Hs&->)%buffer_set_ok. pose proof (lookup_lt_Some _ _ _ Hl) as Hv. unfold buffer_get, vget.
  destruct (decide (v' = v)) as [->|Hne].
  - rewrite list_lookup_insert_eq, Hl by done. cbn [mbind res_bind]. destruct (decide (s' = s)) as [->|Hne].
    + rewrite decide_True by done. by rewrite list_lookup_insert_eq by done.
    + rewrite decide_False by tauto. by rewrite list_lookup_insert_ne by done.
  - rewrite decide_False by tauto. by rewrite list_lookup_insert_ne by done.
Qed.
End buffers.

Lemma vget_inv {A} (l : list A) i x : vget l i = Ok x → l !! i = Some x.
Proof. unfold vget. destruct (l !! i); congruence. Qed.
Lemma vset_inv {A} (l : list A) i x l' : vset l i x = Ok l' → i < length l ∧ l' = <[i := x]> l.
Proof. unfold vset. case_decide; [|done]. by intros [= <-]. Qed.

Lemma length_vset {A} (l : list A) i x l' : vset l i x = Ok l' → length l' = length l.
Proof. intros [_ ->]%vset_inv. apply length_insert. Qed.

Lemma length_write_n {A} (buf : list A) i l buf' : write_n buf i l = Ok buf' → length buf' = length buf.
Proof.
  unfold write_n. destruct (Nat.leb_spec (i + length l) (length buf)); [|done]. intros [= <-]. rewrite !length_app, length_take, length_drop. lia.
Qed.

Lemma fold_until_preserve {S B} (f : B → S → res (S * option exn)) (I : S → Prop) l s r :
  (∀ b s r, b ∈ l → I s → f b s = Ok r → I r.1) → I s → fold_until f l s = Ok r → I r.1.
Proof.
  revert s. induction l as [|b l IH]; intros s Hf Hs Hr; cbn [fold_until] in Hr; [by injection Hr as <-|].
  apply bind_ok in Hr as (r1&Hb&Hr). assert (I r1.1) as H1 by (apply (Hf b s); [by left|done|done]).
  destruct r1.2; [by injection Hr as <-|]. apply (IH r1.1); [|done|done]. intros b' s' r' Hb'. apply Hf. by right.
Qed.

Section receives.
Implicit Types receives : list (option window_send_value).

Lemma length_apply_receives window all receives d d' : apply_receives window all receives d = Ok d' → length d' = length d.
Proof.
  intros Ha. apply (foldM_preserve _ (λ x, length x = length d)) in Ha; [done| |done]. intros r x x' _ Hx Hr.
  unfold apply_receive in Hr. destruct r as [[values [send|] first]|]; [|by injection Hr as <-..].
  apply (foldM_preserve _ (λ x, length x = length d)) in Hr; [done| |done]. intros i y y' _ Hy Hi.
  unfold receive_value in Hi. apply bind_ok in Hi as (row&_&Hi). apply bind_ok in Hi as (value&_&Hi).
  destruct (ws_mode send); [apply bind_ok in Hi as (z&_&Hi)|]; by rewrite (length_vset _ _ _ _ Hi).
Qed.

Lemma length_check_receives window own all receives covered r : check_receives window own all receives covered = Ok r → length r.1 = length covered.
Proof.
  intros Hc. unfold check_receives in Hc. apply bind_ok in Hc as (c0&H0%length_write_n&Hc). apply bind_ok in Hc as ([[c1 num] e]&Hf&[= <-]). cbn [fst].
  apply (fold_until_preserve _ (λ st, length st.1 = length covered)) in Hf; [done| |done]. clear. intros r [c n] r' _ Hl Hr. cbn [fst] in Hl. unfold check_receive in Hr.
  destruct r as [[values [send|] first]|]; [|by injection Hr as <-..]. destruct (negb _); [by injection Hr as <-|].
  apply (fold_until_preserve _ (λ st, length st.1 = length covered)) in Hr; [done| |done]. clear. intros i [c n] r' _ Hl Hr. cbn [fst] in Hl.
  apply bind_ok in Hr as (row&_&Hr). unfold check_received_row in Hr. destruct (if bool_decide _ then _ else _); [by injection Hr as <-|].
  destruct (bool_decide _); [by injection Hr as <-|]. apply bind_ok in Hr as (x&_&Hr). destruct (x =? 0); [|by injection Hr as <-].
  apply bind_ok in Hr as (c'&Hc'&[= <-]). cbn [fst]. by rewrite (length_vset _ _ _ _ Hc').
Qed.
End receives.

Section run.
Context {R : Type} `{RateOps R} (L : decode_layout R).
Implicit Types core : decode_core.

Definition set_of (var : core_variant R) (slot : nat) : nat := if is_bulk (va_key var) then slot else 0.

(** ** What an operation changes *)

(** A rejected fire writes only the scratch that every fire clears first. *)
Lemma fire_begin_rejected core slot window receives core' e :
  fire_begin L core slot window receives = Ok (core', inr e) →
  ∃ covered, core' = with_covered core covered ∧
    (covered = dc_covered core ∨ ∃ c c', dc_covered core !! slot = Some c ∧ covered = <[slot := c']> (dc_covered core) ∧ length c' = length c).
Proof.
  unfold fire_begin. destruct (check_fired_window L core slot window) as [v|x|]; [|by intros [= <- _]; exists (dc_covered core); destruct core; auto|done].
  intros Hf. apply bind_ok in Hf as (var&_&Hf). apply bind_ok in Hf as (d&_&Hf). apply bind_ok in Hf as (covered&Hcov%vget_inv&Hf). apply bind_ok in Hf as (checked&Hlen%length_check_receives&Hf).
  apply bind_ok in Hf as (allc&[_ ->]%vset_inv&Hf). destruct checked.2; [injection Hf as <- _; eauto 10|]. apply bind_ok in Hf as (taken&_&Hf).
  destruct (negb _ && _); [injection Hf as <- _; eauto 10|]. exfalso. repeat (apply bind_ok in Hf as (?&_&Hf)). done.
Qed.

Record begun core slot (window : window_rows) (core' : decode_core) (p : pending_fire) (v : nat) (var : core_variant R) (out : window_fire) (count : nat) (d : list nat) : Prop := {
  be_pending : p = mk_pending slot v (set_of var slot) window;
  be_checked : check_fired_window L core slot window = Ok v;
  be_variant : dl_variants L !! v = Some var;
  be_out : dc_fires core !! slot = Some out;
  be_count : dc_counts core !! v = Some count;
  be_free : is_bulk (va_key var) = false → dc_decoding core !! v = Some false;
  be_workspaces : dc_workspaces core' = dc_workspaces core;
  be_detectors : buffer_set (dc_detectors core) v (set_of var slot) d = Ok (dc_detectors core');
  be_length : ∃ d0, buffer_get (dc_detectors core) v (set_of var slot) = Ok d0 ∧ length d = length d0;
  be_covered : ∃ c c', dc_covered core !! slot = Some c ∧ dc_covered core' = <[slot := c']> (dc_covered core) ∧ length c' = length c;
  be_fires : dc_fires core' = <[slot := clear_fire out v (if is_bulk (va_key var) then wf_ticket out else u64 (count + 1))]> (dc_fires core);
  be_decoding : dc_decoding core' = if is_bulk (va_key var) then dc_decoding core else <[v := true]> (dc_decoding core);
  be_counts : dc_counts core' = if is_bulk (va_key var) then dc_counts core else <[v := u64 (count + 1)]> (dc_counts core)
}.

Lemma checked_variant core slot window v : check_fired_window L core slot window = Ok v →
  ∃ var, dl_variants L !! v = Some var ∧ va_key var = rows_variant window.
Proof.
  unfold check_fired_window. intros Hc. apply bind_ok in Hc as ([]&_&Hc). apply bind_ok in Hc as (v'&Hv&Hc).
  destruct (list_find _ _) as [[v0 var]|] eqn:E; [|done]. injection Hv as <-. apply list_find_Some in E as (Hvar&Hk&_).
  exists var. split; [|done]. repeat (apply bind_ok in Hc as (?&_&Hc)). by injection Hc as <-.
Qed.

Lemma fire_begin_accepted core slot window receives core' p :
  fire_begin L core slot window receives = Ok (core', inl p) → ∃ v var out count d, begun core slot window core' p v var out count d.
Proof.
  unfold fire_begin. destruct (check_fired_window L core slot window) as [v|x|] eqn:Hck; [|done..]. destruct (checked_variant _ _ _ _ Hck) as (var0&Hv0&Hk0).
  intros Hf. apply bind_ok in Hf as (var&Hvar%vget_inv&Hf). rewrite Hv0 in Hvar. injection Hvar as <-.
  apply bind_ok in Hf as (d0&Hd0&Hf). apply bind_ok in Hf as (covered&Hcov%vget_inv&Hf). apply bind_ok in Hf as (checked&Hlen%length_check_receives&Hf).
  apply bind_ok in Hf as (allc&[_ ->]%vset_inv&Hf). destruct checked.2; [done|]. apply bind_ok in Hf as (taken&Ht%vget_inv&Hf). cbn [with_covered dc_decoding dc_counts dc_fires dc_detectors dc_workspaces dc_covered] in *.
  destruct (negb _ && _) eqn:Ec; [done|]. apply bind_ok in Hf as (count&Hc%vget_inv&Hf). apply bind_ok in Hf as (out&Ho%vget_inv&Hf).
  apply bind_ok in Hf as (dec&Hdec&Hf). apply bind_ok in Hf as (cnt&Hcnt&Hf). apply bind_ok in Hf as (fs&[_ ->]%vset_inv&Hf).
  apply bind_ok in Hf as (d1&H1%length_write_n&Hf). apply bind_ok in Hf as (d2&H2%length_write_n&Hf). apply bind_ok in Hf as (d3&H3%length_apply_receives&Hf). apply bind_ok in Hf as (ds&Hds&[= <- <-]).
  exists v, var0, out, count, d3. unfold set_of. split; try done; cbn [dc_workspaces dc_detectors dc_fires dc_decoding dc_counts].
  - intros Hb. rewrite <-Hk0, Hb in Ec. cbn [negb andb] in Ec. by rewrite <-Ec.
  - exists d0. split; [done|congruence].
  - eauto 10.
  - by destruct (is_bulk (va_key var0)).
  - destruct (is_bulk (va_key var0)); [by injection Hdec as <-|]. by apply vset_inv in Hdec as [_ ->].
  - destruct (is_bulk (va_key var0)); [by injection Hcnt as <-|]. by apply vset_inv in Hcnt as [_ ->].
Qed.

Definition published core' (window : window_rows) v set (var : core_variant R) (ws : window_workspace) (out out' : window_fire) : Prop :=
  wf_fired out' = true ∧ wf_k out' = rows_k window ∧ wf_buffers out' = Some (v, set) ∧
  wf_sends out' = (λ s, mk_fire_send (Some (v, set, s)) (rows_first_row window)) <$> seq 0 (length (wf_sends out)) ∧
  (∀ s, s < length (wf_sends out) → is_Some (wo_sends (sol_outputs (wk_solution ws)) !! s) ∧ is_Some (pw_sends (dw_placed (va_window var)) !! s)).

Record ended core slot v set (window : window_rows) (core' : decode_core) (e : option exn) (var : core_variant R) (out out' : window_fire) (ws : window_workspace) : Prop := {
  en_variant : dl_variants L !! v = Some var;
  en_out : dc_fires core !! slot = Some out;
  en_workspaces : buffer_set (dc_workspaces core) v set ws = Ok (dc_workspaces core');
  en_solved : ∃ ws0 d dec, buffer_get (dc_workspaces core) v set = Ok ws0 ∧ buffer_get (dc_detectors core) v set = Ok d ∧
    (solve_window (va_window var) dec d ws0 = Ok ws ∨ ws = torn_workspace (va_window var) d ws0);
  en_detectors : dc_detectors core' = dc_detectors core;
  en_covered : dc_covered core' = dc_covered core;
  en_fires : dc_fires core' = <[slot := out']> (dc_fires core);
  en_decoding : dc_decoding core' = if is_bulk (va_key var) then dc_decoding core else <[v := false]> (dc_decoding core);
  en_counts : dc_counts core' = dc_counts core;
  en_same : wf_variant out' = wf_variant out ∧ wf_ticket out' = wf_ticket out;
  en_result : wf_fired out' = wf_fired out ∧ wf_sends out' = wf_sends out ∨ e = None ∧ published core' window v set var ws out out'
}.

Lemma map_res_inv {A B} (f : A → res B) (g : A → B) l out : map_res f l = Ok out → (∀ a b, a ∈ l → f a = Ok b → b = g a) → out = g <$> l ∧ ∀ a, a ∈ l → f a = Ok (g a).
Proof.
  intros Hm Hg. unfold map_res in Hm. assert (∀ l acc out, (∀ a b, a ∈ l → f a = Ok b → b = g a) → foldM (λ x out, y ← f x; Ok (out ++ [y])) l acc = Ok out →
    out = acc ++ (g <$> l) ∧ ∀ a, a ∈ l → f a = Ok (g a)) as Hgen.
  { clear. induction l as [|a l IH]; intros acc out Hg Hf; cbn [foldM] in Hf; [injection Hf as <-; split; [by rewrite app_nil_r|by intros a ?%elem_of_nil]|].
    apply bind_ok in Hf as (acc'&Ha&Hf). apply bind_ok in Ha as (b&Hb&[= <-]). pose proof (Hg a b ltac:(set_solver) Hb) as ->.
    destruct (IH _ _ (λ a b Ha, Hg a b ltac:(set_solver)) Hf) as [-> Hl]. split; [by rewrite <-app_assoc|]. intros x [->|Hx]%elem_of_cons; [done|by apply Hl]. }
  by apply (Hgen l [] out Hg).
Qed.

Lemma fire_end_inv core slot v set window core' e : fire_end L core (mk_pending slot v set window) = Ok (core', e) →
  ∃ var out out' ws, ended core slot v set window core' e var out out' ws.
Proof.
  unfold fire_end. intros Hf. apply bind_ok in Hf as (var&Hvar%vget_inv&Hf). apply bind_ok in Hf as (dec&_&Hf). apply bind_ok in Hf as (d&Hd&Hf).
  apply bind_ok in Hf as (ws&Hws0&Hf). apply bind_ok in Hf as (out&Ho%vget_inv&Hf). apply bind_ok in Hf as (decoding&Hdec&Hf).
  assert (decoding = if is_bulk (va_key var) then dc_decoding core else <[v := false]> (dc_decoding core)) as ->.
  { unfold release_claim in Hdec. rewrite (vget_ok _ _ _ Hvar) in Hdec. cbn [mbind res_bind] in Hdec. destruct (is_bulk _); [by injection Hdec as <-|]. by apply vset_inv in Hdec as [_ ->]. }
  destruct (solve_window _ _ _ _) as [ws'|x|] eqn:Esol; [| |done].
  - destruct (bool_decide _ && _).
    + apply bind_ok in Hf as (missed&_&Hf). apply bind_ok in Hf as (wss&Hws&Hf). apply bind_ok in Hf as (fs&[_ ->]%vset_inv&[= <- <-]).
      eexists var, out, _, ws'. split; try done; cbn; [by exists ws, d, dec; auto|]. by left.
    + apply bind_ok in Hf as (commit&_&Hf). apply bind_ok in Hf as (sends&Hsends&Hf).
      apply bind_ok in Hf as (wss&Hws&Hf). apply bind_ok in Hf as (fs&[_ ->]%vset_inv&[= <- <-]).
      eexists var, out, _, ws'. split; try done; cbn; [by exists ws, d, dec; auto|]. right. split; [done|].
      destruct (map_res_inv _ (λ s, mk_fire_send (Some (v, set, s)) (rows_first_row window)) _ _ Hsends) as [-> Hall].
      { intros s b _ Hb. apply bind_ok in Hb as (?&_&Hb). apply bind_ok in Hb as (?&_&Hb). congruence. }
      split_and!; [done..|]. intros s Hs. specialize (Hall s ltac:(apply elem_of_seq; lia)). apply bind_ok in Hall as (x&Hx%vget_inv&Hb). apply bind_ok in Hb as (y&Hy%vget_inv&_). eauto.
  - apply bind_ok in Hf as (wss&Hws&Hf). apply bind_ok in Hf as (fs&[_ ->]%vset_inv&[= <- <-]). eexists var, out, out, _. split; try done; [by exists ws, d, dec; auto|]. by left.
Qed.

(** ** Runs *)

(** What a fire published. *)
Record fire_results := mk_results { re_detectors : list nat; re_solution : window_solution; re_sends : list window_send_value }.

Definition read_fire core (f : window_fire) : res fire_results :=
  d ← fire_detectors core f;
  solution ← fire_solution core f;
  sends ← map_res (fire_send_value L core) (wf_sends f);
  Ok (mk_results d solution sends).

(** A core, the fires in flight by slot, and what the slots' last fires published. *)
Record fire_state := mk_state { fs_core : decode_core; fs_pending : gmap nat pending_fire; fs_results : gmap nat fire_results }.

(** A slot in flight neither fires nor is reset; [reset_all] needs every slot at rest. *)
Inductive fire_step : fire_state → fire_state → Prop :=
  | step_begin core pending results slot window receives core' p :
      pending !! slot = None → fire_begin L core slot window receives = Ok (core', inl p) →
      fire_step (mk_state core pending results) (mk_state core' (<[slot := p]> pending) (delete slot results))
  | step_reject core pending results slot window receives core' e :
      pending !! slot = None → fire_begin L core slot window receives = Ok (core', inr e) →
      fire_step (mk_state core pending results) (mk_state core' pending results)
  | step_publish core pending results slot p core' f r :
      pending !! slot = Some p → fire_end L core p = Ok (core', None) → held core' slot = Ok f → wf_fired f = true → read_fire core' f = Ok r →
      fire_step (mk_state core pending results) (mk_state core' (delete slot pending) (<[slot := r]> results))
  | step_lose core pending results slot p core' e f :
      pending !! slot = Some p → fire_end L core p = Ok (core', e) → held core' slot = Ok f → wf_fired f = false →
      fire_step (mk_state core pending results) (mk_state core' (delete slot pending) results)
  | step_reset core results :
      fire_step (mk_state core ∅ results) (mk_state (reset_all core) ∅ ∅)
  | step_reset_slot core pending results slot core' :
      pending !! slot = None → reset_slot core slot = Ok core' →
      fire_step (mk_state core pending results) (mk_state core' pending (delete slot results)).

(** Reachable in a number of steps. *)
Inductive fire_run (s0 : fire_state) : nat → fire_state → Prop :=
  | run_start : fire_run s0 0 s0
  | run_step n s s' : fire_run s0 n s → fire_step s s' → fire_run s0 (S n) s'.

(** ** The invariant *)

Definition variant_bulk (v : nat) : bool := match dl_variants L !! v with Some var => is_bulk (va_key var) | None => true end.
Definition slot_set (v slot : nat) : nat := if variant_bulk v then slot else 0.

(** A slot's record that counts: in flight or fired. *)
Definition live (s : fire_state) (slot : nat) (f : window_fire) : Prop :=
  dc_fires (fs_core s) !! slot = Some f ∧ (is_Some (fs_pending s !! slot) ∨ wf_fired f = true).

Record run_inv (bound : nat) (s : fire_state) : Prop := {
  ri_pending : ∀ slot p, fs_pending s !! slot = Some p → ∃ f window,
    p = mk_pending slot (wf_variant f) (slot_set (wf_variant f) slot) window ∧ dc_fires (fs_core s) !! slot = Some f ∧ wf_fired f = false ∧
    (variant_bulk (wf_variant f) = false → dc_decoding (fs_core s) !! wf_variant f = Some true ∧ dc_counts (fs_core s) !! wf_variant f = Some (wf_ticket f));
  ri_taken : ∀ v, dc_decoding (fs_core s) !! v = Some true → variant_bulk v = false ∧ ∃ slot p, fs_pending s !! slot = Some p ∧ pf_variant p = v;
  ri_counts : ∀ v c, dc_counts (fs_core s) !! v = Some c → c ≤ bound;
  ri_ticket : ∀ slot f, live s slot f → variant_bulk (wf_variant f) = false → ∃ c, dc_counts (fs_core s) !! wf_variant f = Some c ∧ wf_ticket f ≤ c;
  ri_unique : ∀ slot slot' f f', live s slot f → live s slot' f' → wf_variant f = wf_variant f' → variant_bulk (wf_variant f) = false →
    wf_ticket f = wf_ticket f' → slot = slot';
  ri_held : ∀ slot f, fs_pending s !! slot = None → dc_fires (fs_core s) !! slot = Some f → wf_fired f = true →
    ∃ r, fs_results s !! slot = Some r ∧ wf_buffers f = Some (wf_variant f, slot_set (wf_variant f) slot) ∧
      (∀ x, x ∈ wf_sends f → ∃ i, fs_source x = Some (wf_variant f, slot_set (wf_variant f) slot, i)) ∧
      (variant_bulk (wf_variant f) = true ∨ dc_counts (fs_core s) !! wf_variant f = Some (wf_ticket f) → read_fire (fs_core s) f = Ok r)
}.

Lemma set_of_slot v var slot : dl_variants L !! v = Some var → set_of var slot = slot_set v slot.
Proof. intros Hv. unfold set_of, slot_set, variant_bulk. by rewrite Hv. Qed.

Lemma bulk_of v var : dl_variants L !! v = Some var → variant_bulk v = is_bulk (va_key var).
Proof. intros Hv. unfold variant_bulk. by rewrite Hv. Qed.

(** Reading looks at one variant's buffer set. *)
Lemma read_frame core core' f v set : wf_buffers f = Some (v, set) → (∀ x, x ∈ wf_sends f → ∃ i, fs_source x = Some (v, set, i)) →
  buffer_get (dc_detectors core') v set = buffer_get (dc_detectors core) v set →
  buffer_get (dc_workspaces core') v set = buffer_get (dc_workspaces core) v set → read_fire core' f = read_fire core f.
Proof.
  intros Hb Hs Hd Hw. unfold read_fire, fire_detectors, fire_solution. rewrite Hb, Hd, Hw.
  destruct (buffer_get (dc_detectors core) v set); cbn [mbind res_bind]; [|done..]. destruct (buffer_get (dc_workspaces core) v set) eqn:Ew; cbn [mbind res_bind]; [|done..].
  assert (map_res (fire_send_value L core') (wf_sends f) = map_res (fire_send_value L core) (wf_sends f)) as ->; [|done].
  unfold map_res. apply foldM_ext. intros x acc Hx. unfold fire_send_value. destruct (Hs x Hx) as [i ->]. by rewrite Hw, Ew.
Qed.

Lemma begin_inv bound core pending results slot window receives core' p : (Z.of_nat (S bound) < 2 ^ 64)%Z →
  run_inv bound (mk_state core pending results) → pending !! slot = None → fire_begin L core slot window receives = Ok (core', inl p) →
  run_inv (S bound) (mk_state core' (<[slot := p]> pending) (delete slot results)).
Proof.
  intros Hbound [Hp Hk Hc Ht Hu Hh] Hno (v&var&out&count&d&[Ep _ Hv Hout Hcount Hfree Hws Hdet _ _ Hfires Hdec Hcnt])%fire_begin_accepted. cbn [fs_core fs_pending fs_results] in *.
  pose proof (Hc v count Hcount) as Hle. assert (u64 (count + 1) = count + 1) as Ew by (apply wrap_small; lia). rewrite Ew in *.
  rewrite <-(bulk_of v var Hv) in *. rewrite (set_of_slot v var slot Hv) in *.
  set (new := clear_fire out v (if variant_bulk v then wf_ticket out else count + 1)) in *.
  assert (dc_fires core' !! slot = Some new) as Hnew by (rewrite Hfires; apply list_lookup_insert_eq; by eapply lookup_lt_Some).
  assert (∀ b, b ≠ slot → dc_fires core' !! b = dc_fires core !! b) as Hother by (intros b Hb; rewrite Hfires; by apply list_lookup_insert_ne).
  assert (∀ b f, b ≠ slot → live (mk_state core' (<[slot := p]> pending) (delete slot results)) b f → live (mk_state core pending results) b f) as Hlive.
  { intros b f Hb [H1 H2]. unfold live in *. cbn [fs_core fs_pending] in *. rewrite lookup_insert_ne in H2 by done. by rewrite <-(Hother b Hb). }
  assert (∀ u c, dc_counts core' !! u = Some c → dc_counts core !! u = Some c ∨ u = v ∧ variant_bulk v = false ∧ c = count + 1) as Hcases.
  { intros u c. rewrite Hcnt. destruct (variant_bulk v); [by left|]. destruct (decide (u = v)) as [->|]; [|rewrite list_lookup_insert_ne by done; by left].
    rewrite list_lookup_insert_eq by (by eapply lookup_lt_Some). intros [= <-]. by right. }
  split; cbn [fs_core fs_pending fs_results].
  - intros b q. destruct (decide (b = slot)) as [->|Hb].
    + rewrite lookup_insert_eq. intros [= <-]. exists new, window. split; [exact Ep|]. split; [done|]. split; [done|]. cbn [new clear_fire wf_variant wf_ticket].
      intros Hbulk. rewrite Hdec, Hcnt, Hbulk. rewrite !list_lookup_insert_eq; [done|by eapply lookup_lt_Some|eapply lookup_lt_Some, Hfree; done].
    + rewrite lookup_insert_ne by done. intros (f&win&Eq&Hf&Hunf&Hclaim)%Hp. exists f, win. rewrite (Hother b Hb). split_and!; [done..|].
      intros Hbulk. destruct (Hclaim Hbulk) as [Hd1 Hc1]. rewrite Hdec, Hcnt. destruct (variant_bulk v) eqn:Ev; [done|].
      assert (wf_variant f ≠ v) by (intros Ef; rewrite Ef, (Hfree eq_refl) in Hd1; done). by rewrite !list_lookup_insert_ne by done.
  - intros u. rewrite Hdec. destruct (variant_bulk v) eqn:Ev.
    + intros (Hbu&b&q&Hq&Eq)%Hk. split; [done|]. exists b, q. split; [|done]. rewrite lookup_insert_ne; [done|congruence].
    + destruct (decide (u = v)) as [->|Hne].
      * intros _. split; [done|]. exists slot, p. rewrite lookup_insert_eq, Ep. done.
      * rewrite list_lookup_insert_ne by done. intros (Hbu&b&q&Hq&Eq)%Hk. split; [done|]. exists b, q. split; [|done]. rewrite lookup_insert_ne; [done|congruence].
  - intros u c [Hu'|(->&_&->)]%Hcases; [specialize (Hc u c Hu'); lia|lia].
  - intros b f Hl Hbulk. destruct (decide (b = slot)) as [->|Hb].
    + destruct Hl as [Hf _]. cbn [fs_core] in Hf. rewrite Hnew in Hf. injection Hf as <-. cbn [new clear_fire wf_variant wf_ticket] in *. exists (count + 1). rewrite Hcnt, Hbulk.
      split; [|lia]. apply list_lookup_insert_eq. by eapply lookup_lt_Some.
    + destruct (Ht b f (Hlive b f Hb Hl) Hbulk) as (c&Hcc&Hlec). rewrite Hcnt. destruct (variant_bulk v) eqn:Ev; [eauto|].
      destruct (decide (wf_variant f = v)) as [Ef|]; [|rewrite list_lookup_insert_ne by done; eauto]. rewrite Ef in *. exists (count + 1).
      rewrite list_lookup_insert_eq by (by eapply lookup_lt_Some). split; [done|]. rewrite Hcount in Hcc. injection Hcc as <-. lia.
  - assert (∀ b f, b ≠ slot → live (mk_state core' (<[slot := p]> pending) (delete slot results)) b f → wf_variant f = v → variant_bulk v = false → wf_ticket f ≤ count) as Hold.
    { intros b f Hb Hl Ef Hbulk. destruct (Ht b f (Hlive b f Hb Hl)) as (c&Hcc&Hlec); [by rewrite Ef|]. rewrite Ef, Hcount in Hcc. injection Hcc as <-. done. }
    assert (∀ f, live (mk_state core' (<[slot := p]> pending) (delete slot results)) slot f → f = new) as Hme by (intros f [Hf _]; cbn [fs_core] in Hf; congruence).
    intros b b' f f' Hl Hl' Ef Hbulk Etk. destruct (decide (b = slot)) as [->|Hb], (decide (b' = slot)) as [->|Hb']; [done| | |].
    + rewrite (Hme f Hl) in *. cbn [new clear_fire wf_variant wf_ticket] in *. rewrite Hbulk in Etk. specialize (Hold b' f' Hb' Hl' (eq_sym Ef) Hbulk). lia.
    + rewrite (Hme f' Hl') in *. cbn [new clear_fire wf_variant wf_ticket] in *. rewrite Ef in Hbulk. rewrite Hbulk in Etk. specialize (Hold b f Hb Hl Ef Hbulk). lia.
    + by eapply Hu; [apply (Hlive b f)|apply (Hlive b' f')|..].
  - intros b f Hpb Hf Hfired. destruct (decide (b = slot)) as [->|Hb]; [by rewrite lookup_insert_eq in Hpb|]. rewrite lookup_insert_ne in Hpb by done. rewrite (Hother b Hb) in Hf.
    destruct (Hh b f Hpb Hf Hfired) as (r&Hr&Hbuf&Hsends&Hread). exists r. rewrite lookup_delete_ne by done. split_and!; [done..|]. intros Hcond.
    assert (¬ (wf_variant f = v ∧ slot_set (wf_variant f) b = slot_set v slot) ∧ (variant_bulk (wf_variant f) = true ∨ dc_counts core !! wf_variant f = Some (wf_ticket f))) as [Hne Hcond'].
    { destruct (decide (wf_variant f = v)) as [Ef|Ef].
      - destruct (variant_bulk v) eqn:Ev.
        + split; [|left; by rewrite Ef]. intros [_ Es]. unfold slot_set in Es. rewrite Ef, Ev in Es. done.
        + exfalso. destruct (Ht b f) as (c&Hcc&Hlec); [split; [done|by right]|by rewrite Ef|]. rewrite Ef in *. rewrite Hcount in Hcc. injection Hcc as <-.
          destruct Hcond as [Hcond|Hcond]; [congruence|]. rewrite Hcnt, list_lookup_insert_eq in Hcond by (by eapply lookup_lt_Some). injection Hcond as Hcond. lia.
      - split; [tauto|]. destruct Hcond as [|Hcond]; [by left|right]. destruct (Hcases _ _ Hcond) as [|(?&_)]; done. }
    rewrite <-(Hread Hcond'). apply (read_frame core core' f (wf_variant f) (slot_set (wf_variant f) b) Hbuf Hsends).
    + rewrite (buffer_get_set _ _ _ _ _ _ _ Hdet). by rewrite decide_False.
    + by rewrite Hws.
Qed.

Lemma held_lookup core slot f : held core slot = Ok f → dc_fires core !! slot = Some f.
Proof. unfold held. intros Hh. by apply bind_ok in Hh as ([]&_&Hf%vget_inv). Qed.

Lemma end_inv bound core pending results slot p core' e f results' :
  run_inv bound (mk_state core pending results) → pending !! slot = Some p → fire_end L core p = Ok (core', e) → held core' slot = Ok f →
  (∀ b, b ≠ slot → results' !! b = results !! b) → (wf_fired f = true → ∃ r, results' !! slot = Some r ∧ read_fire core' f = Ok r) →
  run_inv bound (mk_state core' (delete slot pending) results').
Proof.
  intros [Hp Hk Hc Ht Hu Hh] Hpend Hend Hheld Hres Hnew. cbn [fs_core fs_pending fs_results] in *. destruct (Hp slot p Hpend) as (out&window&->&Hout&Hunf&Hclaim).
  destruct (fire_end_inv _ _ _ _ _ _ _ Hend) as (var&out0&out'&ws&[Hv Hout0 Hws _ Hdet _ Hfires Hdec Hcnt [Evar Etk] Hresult]).
  rewrite Hout in Hout0. injection Hout0 as <-. set (v := wf_variant out) in *. rewrite <-(bulk_of v var Hv) in *.
  assert (f = out') as ->. { apply held_lookup in Hheld. rewrite Hfires, list_lookup_insert_eq in Hheld by (by eapply lookup_lt_Some). by injection Hheld. }
  assert (dc_fires core' !! slot = Some out') as Hme by (rewrite Hfires; apply list_lookup_insert_eq; by eapply lookup_lt_Some).
  assert (∀ b, b ≠ slot → dc_fires core' !! b = dc_fires core !! b) as Hother by (intros b Hb; rewrite Hfires; by apply list_lookup_insert_ne).
  assert (∀ b g, b ≠ slot → live (mk_state core' (delete slot pending) results') b g → live (mk_state core pending results) b g) as Hlive.
  { intros b g Hb [H1 H2]. unfold live in *. cbn [fs_core fs_pending] in *. rewrite lookup_delete_ne in H2 by done. by rewrite <-(Hother b Hb). }
  assert (live (mk_state core pending results) slot out) as Hlout by (split; [done|left; by exists (mk_pending slot v (slot_set v slot) window)]).
  assert (∀ g, live (mk_state core' (delete slot pending) results') slot g → g = out') as Hthis by (intros g [Hg _]; cbn [fs_core] in Hg; congruence).
  (* No other live record of a prefix or terminal variant has the count for its ticket. *)
  assert (∀ b g, b ≠ slot → live (mk_state core pending results) b g → wf_variant g = v → variant_bulk v = false → dc_counts core !! v ≠ Some (wf_ticket g)) as Halone.
  { intros b g Hb Hl Eg Hbulk Hct. destruct (Hclaim Hbulk) as [_ Hct']. apply Hb. eapply (Hu b slot g out Hl Hlout); [done|by rewrite Eg|congruence]. }
  split; cbn [fs_core fs_pending fs_results].
  - intros b q Hq. destruct (decide (b = slot)) as [->|Hb]; [by rewrite lookup_delete_eq in Hq|]. rewrite lookup_delete_ne in Hq by done.
    destruct (Hp b q Hq) as (g&win&Eq&Hg&Hgu&Hgc). exists g, win. rewrite (Hother b Hb). split_and!; [done..|]. intros Hbulk. destruct (Hgc Hbulk) as [Hd1 Hc1].
    rewrite Hcnt. split; [|done]. rewrite Hdec. destruct (variant_bulk v) eqn:Ev; [done|]. destruct (decide (wf_variant g = v)) as [Eg|]; [|by rewrite list_lookup_insert_ne by done].
    exfalso. apply (Halone b g Hb); [split; [done|left; by exists q]|done|done|]. by rewrite <-Eg.
  - intros u. rewrite Hdec. destruct (variant_bulk v) eqn:Ev.
    + intros (Hbu&b&q&Hq&Eq)%Hk. split; [done|]. exists b, q. rewrite lookup_delete_ne; [done|]. intros <-. rewrite Hpend in Hq. injection Hq as <-. cbn [pf_variant] in Eq. congruence.
    + destruct (decide (u = v)) as [->|Hne].
      * destruct (Hclaim eq_refl) as [Hd1 _]. rewrite list_lookup_insert_eq by (by eapply lookup_lt_Some). done.
      * rewrite list_lookup_insert_ne by done. intros (Hbu&b&q&Hq&Eq)%Hk. split; [done|]. exists b, q. rewrite lookup_delete_ne; [done|].
        intros <-. rewrite Hpend in Hq. injection Hq as <-. cbn [pf_variant] in Eq. congruence.
  - rewrite Hcnt. done.
  - intros b g Hl Hbulk. rewrite Hcnt. destruct (decide (b = slot)) as [->|Hb].
    + rewrite (Hthis g Hl) in *. rewrite Evar, Etk in *. by apply (Ht slot out).
    + by apply (Ht b g (Hlive b g Hb Hl)).
  - assert (∀ b g, live (mk_state core' (delete slot pending) results') b g → ∃ g0, live (mk_state core pending results) b g0 ∧ wf_variant g0 = wf_variant g ∧ wf_ticket g0 = wf_ticket g) as Hold.
    { intros b g Hl. destruct (decide (b = slot)) as [->|Hb]; [rewrite (Hthis g Hl); by exists out|]. exists g. split; [by apply Hlive|done]. }
    intros b b' g g' (g0&Hg0&E1&E2)%Hold (g1&Hg1&E3&E4)%Hold Ev Hbulk Et. eapply (Hu b b' g0 g1); [done..|congruence|congruence|congruence].
  - intros b g Hpb Hg Hfired. destruct (decide (b = slot)) as [->|Hb].
    + rewrite Hme in Hg. injection Hg as <-. destruct (Hnew Hfired) as (r&Hr&Hread). exists r. rewrite Evar. fold v.
      destruct Hresult as [[Hbad _]|[_ (_&_&Hbuf&Hsends&_)]]; [congruence|]. split_and!; [done|done| |by rewrite Hread].
      intros x. rewrite Hsends. intros (i&->&_)%list_elem_of_fmap. by exists i.
    + rewrite lookup_delete_ne in Hpb by done. rewrite (Hother b Hb) in Hg. destruct (Hh b g Hpb Hg Hfired) as (r&Hr&Hbuf&Hsnd&Hread). exists r.
      rewrite (Hres b Hb), Hcnt. split_and!; [done..|]. intros Hcond. rewrite <-(Hread Hcond).
      apply (read_frame core core' g (wf_variant g) (slot_set (wf_variant g) b) Hbuf Hsnd); [by rewrite Hdet|]. rewrite (buffer_get_set _ _ _ _ _ _ _ Hws), decide_False; [done|].
      intros [Eg Es]. destruct (variant_bulk v) eqn:Ev.
      * unfold slot_set in Es. rewrite Eg, Ev in Es. done.
      * apply (Halone b g Hb); [split; [done|by right]|done|done|]. destruct Hcond as [Hcond|Hcond]; [rewrite Eg in Hcond; congruence|by rewrite <-Eg].
Qed.

Lemma reset_slot_inv bound core pending results slot core' :
  run_inv bound (mk_state core pending results) → pending !! slot = None → reset_slot core slot = Ok core' → run_inv bound (mk_state core' pending (delete slot results)).
Proof.
  intros [Hp Hk Hc Ht Hu Hh] Hno Hr. cbn [fs_core fs_pending fs_results] in *. unfold reset_slot in Hr. apply bind_ok in Hr as ([]&_&Hr). apply bind_ok in Hr as (f&Hf%vget_inv&Hr).
  apply bind_ok in Hr as (fs&[_ ->]%vset_inv&[= <-]).
  assert (∀ b, b ≠ slot → <[slot := unfire f]> (dc_fires core) !! b = dc_fires core !! b) as Hother by (intros; by apply list_lookup_insert_ne).
  assert (∀ b g, live (mk_state (with_fires core (<[slot := unfire f]> (dc_fires core))) pending (delete slot results)) b g → b ≠ slot ∧ live (mk_state core pending results) b g) as Hlive.
  { intros b g [H1 H2]. cbn [fs_core fs_pending with_fires dc_fires] in *. destruct (decide (b = slot)) as [->|Hb].
    - rewrite list_lookup_insert_eq in H1 by (by eapply lookup_lt_Some). injection H1 as <-. rewrite Hno in H2. destruct H2 as [[? ?]|?]; done.
    - rewrite Hother in H1 by done. done. }
  split; cbn [fs_core fs_pending fs_results with_fires dc_fires dc_counts dc_decoding].
  - intros b q Hq. destruct (decide (b = slot)) as [->|Hb]; [congruence|]. rewrite (Hother b Hb). by apply Hp.
  - done.
  - done.
  - intros b g [_ Hl]%Hlive. by apply (Ht b g).
  - intros b b' g g' [_ Hl]%Hlive [_ Hl']%Hlive. by apply (Hu b b' g g').
  - intros b g Hpb Hg Hfired. destruct (decide (b = slot)) as [->|Hb].
    + rewrite list_lookup_insert_eq in Hg by (by eapply lookup_lt_Some). by injection Hg as <-.
    + rewrite (Hother b Hb) in Hg. rewrite lookup_delete_ne by done. destruct (Hh b g Hpb Hg Hfired) as (r&?&Hbuf&Hsnd&Hread). exists r. split_and!; [done..|].
      intros Hcond. rewrite <-(Hread Hcond). by apply (read_frame _ _ g _ _ Hbuf Hsnd).
Qed.

Lemma run_inv_mono bound bound' s : bound ≤ bound' → run_inv bound s → run_inv bound' s.
Proof. intros Hle [Hp Hk Hc Ht Hu Hh]. split; try done. intros v c Hv. specialize (Hc v c Hv). lia. Qed.

Lemma fire_step_inv bound s s' : (Z.of_nat (S bound) < 2 ^ 64)%Z → run_inv bound s → fire_step s s' → run_inv (S bound) s'.
Proof.
  intros Hb Hi Hstep. destruct Hstep as [core pending results slot window receives core' p Hno Hbegin|core pending results slot window receives core' e Hno Hbegin|
    core pending results slot p core' f r Hp Hend Hheld Hfired Hread|core pending results slot p core' e f Hp Hend Hheld Hunf|core results|core pending results slot core' Hno Hreset].
  - by eapply begin_inv.
  - apply (run_inv_mono bound); [lia|]. destruct (fire_begin_rejected _ _ _ _ _ _ Hbegin) as (covered&->&_). by destruct Hi.
  - apply (run_inv_mono bound); [lia|]. apply (end_inv bound core pending results slot p core' None f); [done..| |].
    + intros b Hne. by apply lookup_insert_ne.
    + intros _. exists r. split; [apply lookup_insert_eq|done].
  - apply (run_inv_mono bound); [lia|]. apply (end_inv bound core pending results slot p core' e f); [done..|congruence].
  - apply (run_inv_mono bound); [lia|]. destruct Hi as [Hp Hk Hc Ht Hu Hh].
    assert (∀ b g, ¬ live (mk_state (reset_all core) ∅ ∅) b g) as Hlive.
    { intros b g [H1 H2]. cbn [fs_core fs_pending reset_all with_fires dc_fires] in *. rewrite list_lookup_fmap in H1. destruct (dc_fires core !! b); [|done]. injection H1 as <-.
      destruct H2 as [[? ?]|?]; done. }
    split; cbn [fs_core fs_pending fs_results].
    + done.
    + done.
    + done.
    + intros b g Hl. by destruct (Hlive b g).
    + intros b b' g g' Hl. by destruct (Hlive b g).
    + intros b g _ Hg Hfired. destruct (Hlive b g). split; [done|by right].
  - apply (run_inv_mono bound); [lia|]. by eapply reset_slot_inv.
Qed.

Definition at_rest core : Prop := (∀ slot f, dc_fires core !! slot = Some f → wf_fired f = false) ∧ (∀ v c, dc_counts core !! v = Some c → c = 0) ∧
  (∀ v b, dc_decoding core !! v = Some b → b = false).

Lemma start_inv core : at_rest core → run_inv 0 (mk_state core ∅ ∅).
Proof.
  intros (Hf&Hc&Hd). assert (∀ b g, ¬ live (mk_state core ∅ ∅) b g) as Hlive.
  { intros b g [H1 H2]. cbn [fs_core fs_pending] in *. destruct H2 as [[? ?]|Hg]; [done|]. rewrite (Hf b g H1) in Hg. done. }
  split; cbn [fs_core fs_pending fs_results].
  - done.
  - intros v Hv. by specialize (Hd v true Hv).
  - intros v c Hv. by rewrite (Hc v c Hv).
  - intros b g Hl. by destruct (Hlive b g).
  - intros b b' g g' Hl. by destruct (Hlive b g).
  - intros b g _ Hg Hfired. destruct (Hlive b g). split; [done|by right].
Qed.

Lemma run_invariant core n s : at_rest core → (Z.of_nat n < 2 ^ 64)%Z → fire_run (mk_state core ∅ ∅) n s → run_inv n s.
Proof.
  intros Hrest Hn Hrun. induction Hrun as [|n s s' Hrun IH Hstep]; [by apply start_inv|]. eapply fire_step_inv; [done|apply IH; lia|done].
Qed.
End run.

(** * The decode_window core: a fire implements the canonical workload

    Every buffer stays sized for its variant, so a fire makes no access outside
    one; a window of the shot, as the ingest core hands it over, is accepted, and
    what its fire computes on its variant's model is what [receive_send] and
    [solve_window] compute on the window's own. *)

(** ** Sizes *)

Section sizes.
Context {R : Type}.
Implicit Types w : decoding_window R.

Lemma length_flip_column m c v v' : flip_column m c v = Ok v' → length v' = length v.
Proof.
  unfold flip_column. intros Hf. apply bind_ok in Hf as (lo&_&Hf). apply bind_ok in Hf as (hi&_&Hf). unfold for_u in Hf.
  apply (foldM_preserve _ (λ u, length u = length v)) in Hf; [done| |done]. intros p u u' _ Hu Hp. apply bind_ok in Hp as (r&_&Hp).
  unfold flip_bit in Hp. apply bind_ok in Hp as (x&_&Hp). by rewrite (length_vset _ _ _ _ Hp).
Qed.

Lemma commit_sized w d ws ws' : sized_for w ws → commit_window w d ws = Ok ws' → sized_for w ws'.
Proof.
  intros (H1&H2&H3&H4&H5&H6&H7) Hc. unfold commit_window in Hc. cbv zeta in Hc. apply bind_ok in Hc as ([]&_&Hc). apply bind_ok in Hc as ([]&_&Hc).
  apply bind_ok in Hc as ([[committed delta] frame]&Hloop&Hc). apply bind_ok in Hc as (sends&Hsends&[= <-]).
  apply (foldM_preserve _ (λ st, length st.1.1 = length (wo_committed (sol_outputs (wk_solution ws))) ∧ length st.1.2 = length (wk_delta ws) ∧
    length st.2 = length (wo_frame (sol_outputs (wk_solution ws))))) in Hloop.
  - cbn [fst snd] in Hloop. destruct Hloop as (L1&L2&L3). unfold sized_for. cbn. split_and!; try done; try congruence.
    apply map_res_forall2 in Hsends. apply Forall2_flip. eapply Forall2_impl; [exact Hsends|]. intros send values Hv. unfold send_values in Hv.
    apply map_res_forall2, Forall2_length in Hv. done.
  - intros c [[com del] fr] st' _ (L1&L2&L3) Hb. cbn [fst snd] in *. apply bind_ok in Hb as (x&_&Hb). apply bind_ok in Hb as (com'&Hcom&Hb).
    pose proof (length_vset _ _ _ _ Hcom). destruct (_ =? 0); [injection Hb as <-; cbn [fst snd]; split_and!; congruence|].
    apply bind_ok in Hb as (del'&Hdel&Hb). apply bind_ok in Hb as (fr'&Hfr&[= <-]). cbn [fst snd].
    rewrite (length_flip_column _ _ _ _ Hdel), (length_flip_column _ _ _ _ Hfr). split_and!; congruence.
  - cbn [fst snd]. by rewrite !length_replicate.
Qed.

Lemma solve_sized w dec d ws ws' : sized_for w ws → solve_window w dec d ws = Ok ws' → sized_for w ws'.
Proof.
  intros Hs Hw. pose proof Hs as (H1&H2&H3&H4&H5&H6&H7). unfold solve_window in Hw. cbv zeta in Hw. apply bind_ok in Hw as ([]&Hl%throw_if_ok&Hw). apply bind_ok in Hw as ([]&_&Hw).
  apply negb_false_iff, Nat.eqb_eq in Hl. apply bind_ok in Hw as ([[est conv] syn]&Hdec&Hw). apply bind_ok in Hw as (explained&Hex&Hw). apply bind_ok in Hw as (sat&_&Hw).
  apply commit_sized in Hw; [done|]. unfold for_u in Hex. apply (foldM_preserve _ (λ v, length v = length (wk_explained ws))) in Hex.
  - unfold run_decoder in Hdec. unfold sized_for. cbn. split_and!; try done; try congruence.
    + destruct dec as [decode|]; [|done]. apply bind_ok in Hdec as (r&_&Hdec). apply bind_ok in Hdec as ([]&_&Hdec). apply bind_ok in Hdec as (e&_&[= _ _ <-]). by rewrite length_fmap.
    + destruct dec as [decode|]; [|injection Hdec as <- _ _; by rewrite length_replicate].
      apply bind_ok in Hdec as (r&_&Hdec). apply bind_ok in Hdec as ([]&_&Hdec). apply bind_ok in Hdec as (e&He&[= <- _ _]). unfold for_u in He.
      apply (foldM_preserve _ (λ v, length v = length (sol_estimate (wk_solution ws)))) in He; [congruence| |by rewrite length_replicate].
      intros c v v' _ Hv Hb. apply bind_ok in Hb as (x&_&Hb). by rewrite (length_vset _ _ _ _ Hb).
  - intros c v v' _ Hv Hb. apply bind_ok in Hb as (x&_&Hb). destruct (x =? 0); [by injection Hb as <-|]. by rewrite (length_flip_column _ _ _ _ Hb).
  - by rewrite length_replicate.
Qed.

Lemma torn_sized w d ws : sized_for w ws → length d = num_rows_ (wm_h (dw_model w)) → sized_for w (torn_workspace w d ws).
Proof. intros (H1&H2&H3&H4&H5&H6&H7) Hd. unfold sized_for, torn_workspace. cbn. rewrite length_fmap, !length_replicate. split_and!; done. Qed.
End sizes.

Section core.
Context {R : Type} `{RateOps R}.
Implicit Types core : decode_core.

(** What the constructor fixes. *)
Record layout_built (get_decoder : decoder_source R) (slots : nat) (L : decode_layout R) : Prop := {
  lb_slots : 0 < slots;
  lb_span : zone_span (dl_request L) = Ok (dl_span L);
  lb_decoders : ∀ var, var ∈ dl_variants L → ∃ dec, make_window_decoder get_decoder (va_window var) = Ok dec ∧ va_decoders var = replicate (sets_of (va_key var) slots) dec;
  lb_sends : ∀ var, var ∈ dl_variants L → ws_id <$> pw_sends (dw_placed (va_window var)) = sq_id <$> wr_sends (dl_request L)
}.

Record sized_core (L : decode_layout R) (slots : nat) core : Prop := {
  sc_fires : length (dc_fires core) = slots;
  sc_sends : Forall (λ f, length (wf_sends f) = length (wr_sends (dl_request L))) (dc_fires core);
  sc_covered : length (dc_covered core) = slots;
  sc_imported : Forall (λ c, ∀ var, var ∈ dl_variants L → u64_sub (num_rows_ (wm_h (dw_model (va_window var)))) (dw_num_own_rows (va_window var)) ≤ length c) (dc_covered core);
  sc_decoding : length (dc_decoding core) = length (dl_variants L);
  sc_counts : length (dc_counts core) = length (dl_variants L);
  sc_workspaces : Forall2 (λ wss var, length wss = sets_of (va_key var) slots ∧ Forall (sized_for (va_window var)) wss) (dc_workspaces core) (dl_variants L);
  sc_detectors : Forall2 (λ dss var, length dss = sets_of (va_key var) slots ∧ Forall (λ d, length d = num_rows_ (wm_h (dw_model (va_window var)))) dss) (dc_detectors core) (dl_variants L)
}.

Lemma same_result {A} (l : list nat) (x : res A) out : map_res (λ _, x) l = Ok out → l ≠ [] → ∃ a, x = Ok a ∧ out = replicate (length l) a.
Proof.
  intros Hm Hne. apply map_res_forall2 in Hm. destruct l as [|i l]; [done|]. apply Forall2_cons_inv_l in Hm as (a&out'&Ha&Hrest&->). exists a. split; [done|].
  cbn [length replicate]. f_equal. clear Hne. induction Hrest as [|? b ? ? Hb Hrest IH]; [done|]. cbn [length replicate]. rewrite Ha in Hb. injection Hb as <-. by f_equal.
Qed.

Lemma bulk_first_perm (l : list (core_variant R)) : bulk_first l ≡ₚ l.
Proof.
  unfold bulk_first. induction l as [|v l IH]; [done|]. cbn [List.filter]. destruct (is_bulk (va_key v)); cbn [negb app]; [by rewrite IH|].
  rewrite <-Permutation_middle. by rewrite IH.
Qed.

Lemma make_decode_core_built found t q get_decoder slots verify L core :
  make_decode_core found t q get_decoder slots verify = Ok (L, core) →
  dl_context L = t ∧ dl_request L = q ∧ dl_verify L = verify ∧
  (∃ windows, found = Ok windows ∧ (λ var, (va_key var, va_window var)) <$> dl_variants L ≡ₚ windows) ∧
  layout_built get_decoder slots L ∧ sized_core L slots core ∧ at_rest core.
Proof.
  unfold make_decode_core. intros Hm. apply bind_ok in Hm as ([]&Hs%throw_if_ok&Hm). apply Nat.eqb_neq in Hs. apply bind_ok in Hm as (span&Hspan&Hm).
  apply bind_ok in Hm as (windows&->&Hm). apply bind_ok in Hm as ([variants imported]&Hv&[= <- <-]). cbn [dl_context dl_request dl_verify dl_variants].
  assert ((λ var, (va_key var, va_window var)) <$> variants = windows ∧
    (∀ var, var ∈ variants → (∃ dec, make_window_decoder get_decoder (va_window var) = Ok dec ∧ va_decoders var = replicate (sets_of (va_key var) slots) dec) ∧
      ws_id <$> pw_sends (dw_placed (va_window var)) = sq_id <$> wr_sends q ∧ u64_sub (num_rows_ (wm_h (dw_model (va_window var)))) (dw_num_own_rows (va_window var)) ≤ imported)) as [Hwin Hall].
  { apply (foldM_ok_inv _ (λ pre st, (λ var, (va_key var, va_window var)) <$> st.1 = pre ∧
      ∀ var, var ∈ st.1 → (∃ dec, make_window_decoder get_decoder (va_window var) = Ok dec ∧ va_decoders var = replicate (sets_of (va_key var) slots) dec) ∧
      ws_id <$> pw_sends (dw_placed (va_window var)) = sq_id <$> wr_sends q ∧ u64_sub (num_rows_ (wm_h (dw_model (va_window var)))) (dw_num_own_rows (va_window var)) ≤ st.2)) in Hv; [done| |].
    - split; [done|]. by intros var ?%elem_of_nil.
    - intros pre [key w] post [vs imp] [vs' imp'] _ [Hpre Hvs] Hb. cbn [fst snd] in *. apply bind_ok in Hb as (decs&Hdecs&Hb). apply bind_ok in Hb as ([]&Hids%throw_if_ok&[= <- <-]).
      apply negb_false_iff, bool_decide_eq_true in Hids. split; [by rewrite fmap_app, Hpre|].
      intros var [Hin| ->%list_elem_of_singleton]%elem_of_app; [destruct (Hvs var Hin) as (?&?&?); split_and!; [done..|lia]|]. cbn [va_window va_decoders va_key].
      destruct (same_result _ _ _ Hdecs) as (dec&Hdec&->); [unfold sets_of; destruct (is_bulk key); cbn; destruct slots; done|]. rewrite length_seq. split_and!; [eauto|done|lia]. }
  pose proof (bulk_first_perm variants) as Hperm. split; [done|]. split; [done|]. split; [done|]. split; [exists windows; split; [done|by rewrite Hperm, Hwin]|]. split_and!.
  - split; cbn [dl_request dl_span dl_variants]; [lia|done|..]; intros var Hin; rewrite Hperm in Hin; by apply Hall.
  - split; cbn [dc_fires dc_covered dc_decoding dc_counts dc_workspaces dc_detectors dl_request dl_variants].
    + apply length_replicate.
    + apply Forall_replicate. cbn. apply length_replicate.
    + apply length_replicate.
    + apply Forall_replicate. intros var Hin. rewrite Hperm in Hin. rewrite length_replicate. by apply Hall.
    + apply length_replicate.
    + apply length_replicate.
    + apply Forall2_fmap_l. apply Forall_Forall2_diag. apply Forall_forall. intros var _. split; [apply length_replicate|]. apply Forall_replicate, make_window_workspace_sized.
    + apply Forall2_fmap_l. apply Forall_Forall2_diag. apply Forall_forall. intros var _. split; [apply length_replicate|]. apply Forall_replicate, length_replicate.
  - split; [|split]; cbn [dc_fires dc_counts dc_decoding].
    + intros slot f [-> _]%lookup_replicate. done.
    + intros v c [-> _]%lookup_replicate. done.
    + intros v b [-> _]%lookup_replicate. done.
Qed.

(** ** Sizes hold through a run *)

Lemma Forall_insert_same {A} (P : A → Prop) l i x : Forall P l → P x → Forall P (<[i := x]> l).
Proof. intros Hl Hx. apply Forall_lookup. intros j y. destruct (decide (j = i)) as [->|Hne]; [|rewrite list_lookup_insert_ne by done; by apply Forall_lookup_1].
  intros Hj. destruct (decide (i < length l)) as [Hi|Hi]; [rewrite list_lookup_insert_eq in Hj by done; congruence|]. rewrite list_insert_ge in Hj by lia. by eapply Forall_lookup_1. Qed.

Lemma buffers_set {A} (b b' : list (list A)) (l : list (core_variant R)) (num : core_variant R → nat) (P : core_variant R → A → Prop) v s x :
  Forall2 (λ xs var, length xs = num var ∧ Forall (P var) xs) b l → buffer_set b v s x = Ok b' → (∀ var, l !! v = Some var → P var x) →
  Forall2 (λ xs var, length xs = num var ∧ Forall (P var) xs) b' l.
Proof.
  intros Hb (xs&Hv&_&->)%buffer_set_ok Hx. destruct (Forall2_lookup_l _ _ _ _ _ Hb Hv) as (var&Hvar&Hl&HP).
  replace l with (<[v := var]> l) by (by apply list_insert_id). apply Forall2_insert; [done|]. rewrite length_insert. split; [done|]. apply Forall_insert_same; [done|by apply Hx].
Qed.

Lemma buffers_get {A} (b : list (list A)) (l : list (core_variant R)) (num : core_variant R → nat) (P : core_variant R → A → Prop) v s var :
  Forall2 (λ xs var, length xs = num var ∧ Forall (P var) xs) b l → l !! v = Some var → s < num var → ∃ x, buffer_get b v s = Ok x ∧ P var x.
Proof.
  intros Hb Hv Hs. destruct (Forall2_lookup_r _ _ _ _ _ Hb Hv) as (xs&Hxs&Hl&HP). destruct (lookup_lt_is_Some_2 xs s) as [x Hx]; [lia|].
  exists x. split; [apply buffer_get_ok; eauto|by eapply Forall_lookup_1].
Qed.

Section sized.
Context (L : decode_layout R) (slots : nat).

Lemma covered_sized core slot covered : sized_core L slots core →
  (covered = dc_covered core ∨ ∃ c c', dc_covered core !! slot = Some c ∧ covered = <[slot := c']> (dc_covered core) ∧ length c' = length c) →
  sized_core L slots (with_covered core covered).
Proof.
  intros [H1 H2 H3 H4 H5 H6 H7 H8] [->|(c&c'&Hc&->&Hl)]; split; cbn [with_covered dc_fires dc_covered dc_decoding dc_counts dc_workspaces dc_detectors]; try done; [by rewrite length_insert|].
  apply Forall_insert_same; [done|]. rewrite Hl. by apply (Forall_lookup_1 _ _ _ _ H4 Hc).
Qed.

Lemma begin_sized core slot window receives core' r : sized_core L slots core → fire_begin L core slot window receives = Ok (core', r) → sized_core L slots core'.
Proof.
  intros Hs Hb. destruct r as [p|e].
  - destruct (fire_begin_accepted _ _ _ _ _ _ _ Hb) as (v&var&out&count&d&[_ _ Hv Hout Hcount _ Hws Hdet (d0&Hd0&Hlen) Hcov Hfires Hdec Hcnt]).
    pose proof (covered_sized core slot (dc_covered core') Hs (or_intror Hcov)) as [_ _ C1 C2 _ _ _ _]. destruct Hs as [H1 H2 H3 H4 H5 H6 H7 H8]. cbn [with_covered dc_covered] in C1, C2. split; try done.
    + by rewrite Hfires, length_insert.
    + rewrite Hfires. apply Forall_insert_same; [done|]. cbn. by apply (Forall_lookup_1 _ _ _ _ H2 Hout).
    + rewrite Hdec. destruct (is_bulk _); [done|by rewrite length_insert].
    + rewrite Hcnt. destruct (is_bulk _); [done|by rewrite length_insert].
    + by rewrite Hws.
    + eapply (buffers_set _ _ _ _ (λ var d, length d = num_rows_ (wm_h (dw_model (va_window var)))) _ _ _ H8 Hdet). intros var' Hvar'. rewrite Hlen. apply buffer_get_ok in Hd0 as (ds&Hds&Hd0).
      destruct (Forall2_lookup_l _ _ _ _ _ H8 Hds) as (var0&Hvar0&_&HF). rewrite Hvar' in Hvar0. injection Hvar0 as <-. by apply (Forall_lookup_1 _ _ _ _ HF Hd0).
  - destruct (fire_begin_rejected _ _ _ _ _ _ _ Hb) as (covered&->&Hc). by apply (covered_sized core slot).
Qed.

Lemma end_sized core p core' e : sized_core L slots core → fire_end L core p = Ok (core', e) → sized_core L slots core'.
Proof.
  intros [H1 H2 H3 H4 H5 H6 H7 H8] He. destruct p as [slot v set window]. destruct (fire_end_inv _ _ _ _ _ _ _ _ He) as (var&out&out'&ws&[Hv Hout Hws (ws0&d&dec&Hws0&Hd&Hsol) Hdet Hcov Hfires Hdec Hcnt _ Hres]).
  pose proof (Forall_lookup_1 _ _ _ _ H2 Hout) as Hl. cbn beta in Hl. split.
  - by rewrite Hfires, length_insert.
  - rewrite Hfires. apply Forall_insert_same; [done|]. destruct Hres as [[_ ->]|[_ (_&_&_&->&_)]]; [done|]. by rewrite length_fmap, length_seq.
  - by rewrite Hcov.
  - by rewrite Hcov.
  - rewrite Hdec. destruct (is_bulk _); [done|by rewrite length_insert].
  - by rewrite Hcnt.
  - eapply (buffers_set _ _ _ _ (λ var, sized_for (va_window var)) _ _ _ H7 Hws). intros var' Hvar'. rewrite Hv in Hvar'. injection Hvar' as <-.
    apply buffer_get_ok in Hws0 as (wss&Hwss&Hws0), Hd as (dss&Hdss&Hd).
    destruct (Forall2_lookup_l _ _ _ _ _ H7 Hwss) as (var1&Hvar1&_&HF). rewrite Hv in Hvar1. injection Hvar1 as <-.
    destruct (Forall2_lookup_l _ _ _ _ _ H8 Hdss) as (var2&Hvar2&_&HF'). rewrite Hv in Hvar2. injection Hvar2 as <-.
    pose proof (Forall_lookup_1 _ _ _ _ HF Hws0) as Hsz. destruct Hsol as [Hsol| ->]; [by eapply solve_sized|]. apply torn_sized; [done|]. by apply (Forall_lookup_1 _ _ _ _ HF' Hd).
  - by rewrite Hdet.
Qed.

Lemma step_sized s s' : sized_core L slots (fs_core s) → fire_step L s s' → sized_core L slots (fs_core s').
Proof.
  intros Hs Hstep. destruct Hstep as [? ? ? ? ? ? ? ? _ Hb|? ? ? ? ? ? ? ? _ Hb|? ? ? ? ? ? ? ? _ He _ _ _|? ? ? ? ? ? ? ? _ He _ _|core results|core pending results slot core' _ Hr]; cbn [fs_core] in *.
  - by eapply begin_sized.
  - by eapply begin_sized.
  - by eapply end_sized.
  - by eapply end_sized.
  - destruct Hs as [H1 H2 H3 H4 H5 H6 H7 H8]. split; cbn [reset_all with_fires dc_fires]; try done; [by rewrite length_fmap|]. by apply Forall_fmap.
  - unfold reset_slot in Hr. apply bind_ok in Hr as ([]&_&Hr). apply bind_ok in Hr as (f&Hf%vget_inv&Hr). apply bind_ok in Hr as (fs&[_ ->]%vset_inv&[= <-]).
    destruct Hs as [H1 H2 H3 H4 H5 H6 H7 H8]. split; cbn [with_fires dc_fires]; try done; [by rewrite length_insert|]. apply Forall_insert_same; [done|]. cbn. by apply (Forall_lookup_1 _ _ _ _ H2 Hf).
Qed.

Lemma run_sized s0 n s : sized_core L slots (fs_core s0) → fire_run L s0 n s → sized_core L slots (fs_core s).
Proof. intros H0 Hr. induction Hr as [|n s s' Hr IH Hstep]; [done|]. by eapply step_sized. Qed.
End sized.
End core.

(** ** Receiving *)

Section receiving.
Context (window : window_rows) (own all : nat) (Hall : own ≤ all).
Abbreviation m := (all - own).
Abbreviation place first row := (target (rows_first_row window) all first row).

(** A receive whose rows the window takes in the send's mode. *)
Definition takes (r : option window_send_value) : Prop :=
  match r with
  | Some (mk_send_value values (Some send) first) => length values = length (ws_rows send) ∧
      ∀ row, row ∈ ws_rows send → match ws_mode send with send_delta => place first row < own | send_residual => own ≤ place first row < all end
  | _ => True
  end.

(** A residual reaches imported row [i]. *)
Definition reaches (r : option window_send_value) (i : nat) : Prop :=
  match r with
  | Some (mk_send_value values (Some send) first) => ws_mode send = send_residual ∧ ∃ row, row ∈ ws_rows send ∧ place first row = own + i
  | _ => False
  end.

Record counted (st : list nat * nat) : Prop := {
  cn_length : m ≤ length st.1;
  cn_bits : ∀ i x, i < m → st.1 !! i = Some x → x ≤ 1;
  cn_count : st.2 = sum_list (take m st.1)
}.

Lemma counted_set c num i : counted (c, num) → i < m → c !! i = Some 0 → counted (<[i := 1]> c, num + 1).
Proof.
  intros [H1 H2 H3] Hi Hc. cbn [fst snd] in *. split; cbn [fst snd].
  - by rewrite length_insert.
  - intros j x Hj. destruct (decide (j = i)) as [->|Hne]; [rewrite list_lookup_insert_eq by (by eapply lookup_lt_Some); intros [= <-]; lia|].
    rewrite list_lookup_insert_ne by done. by apply H2.
  - assert (take m c !! i = Some 0) as Ht by (by rewrite lookup_take_lt by done). rewrite take_insert_lt by done. subst num.
    rewrite <-(take_drop_middle _ _ _ Ht) at 1. pose proof (lookup_lt_Some _ _ _ Ht). rewrite insert_take_drop by done. rewrite !sum_list_with_app. simpl. lia.
Qed.

(** Rows marked stay marked. *)
Definition grows (c c' : list nat) : Prop := ∀ i, c !! i = Some 1 → c' !! i = Some 1.

Lemma grows_trans c1 c2 c3 : grows c1 c2 → grows c2 c3 → grows c1 c3.
Proof. intros H1 H2 i Hi. by apply H2, H1. Qed.

Lemma check_received_row_ok mode first row st : counted st →
  match mode with send_delta => place first row < own | send_residual => own ≤ place first row < all end →
  ∃ st', check_received_row own all mode (place first row) st = Ok (st', None) ∧ counted st' ∧ grows st.1 st'.1 ∧
    (mode = send_residual → st'.1 !! (place first row - own) = Some 1).
Proof.
  intros Hc Ht. destruct st as [c num]. unfold check_received_row. set (x := place first row) in *. destruct mode.
  - rewrite bool_decide_true by done. rewrite (proj2 (Nat.leb_gt _ _)) by done. exists (c, num). split_and!; [done|done|by intros i|done].
  - rewrite bool_decide_false by done. rewrite (proj2 (Nat.ltb_ge _ _)), (proj2 (Nat.leb_gt _ _)) by lia. cbn [orb].
    pose proof (cn_length _ Hc) as Hl. cbn [fst] in Hl. destruct (lookup_lt_is_Some_2 c (x - own)) as [b Hb]; [lia|]. rewrite (vget_ok _ _ _ Hb). cbn [mbind res_bind].
    pose proof (cn_bits _ Hc (x - own) b ltac:(lia) Hb) as Hbit. destruct (Nat.eqb_spec b 0) as [->|].
    + rewrite vset_ok by lia. cbn [mbind res_bind]. eexists. split; [done|]. split; [apply counted_set; [done|lia|done]|]. cbn [fst]. split.
      * intros i Hi. rewrite list_lookup_insert_ne; [done|]. intros <-. congruence.
      * intros _. apply list_lookup_insert_eq. lia.
    + exists (c, num). split_and!; [done|done|by intros i|]. intros _. cbn [fst]. rewrite Hb. f_equal. lia.
Qed.

Lemma check_receive_ok r st : counted st → takes r →
  ∃ st', check_receive window own all r st = Ok (st', None) ∧ counted st' ∧ grows st.1 st'.1 ∧ ∀ i, reaches r i → st'.1 !! i = Some 1.
Proof.
  intros Hc Ht. unfold check_receive. destruct r as [[values [send|] first]|]; [|by exists st; split_and!; [done|done|intros i|intros i []]..].
  destruct Ht as [Hl Hrows]. rewrite Hl, Nat.eqb_refl. cbn [negb]. cbn [reaches].
  assert (∀ l done st, (∀ i, i ∈ l → i < length (ws_rows send)) → counted st → (ws_mode send = send_residual → ∀ i row, i ∈ done → ws_rows send !! i = Some row → st.1 !! (place first row - own) = Some 1) →
    ∃ st', fold_until (λ i st, row ← vget (ws_rows send) i; check_received_row own all (ws_mode send) (place first row) st) l st = Ok (st', None) ∧ counted st' ∧ grows st.1 st'.1 ∧
      (ws_mode send = send_residual → ∀ i row, i ∈ done ++ l → ws_rows send !! i = Some row → st'.1 !! (place first row - own) = Some 1)) as Hloop.
  { clear Hc st. induction l as [|i l IH]; intros done st Hi Hc Hdone; cbn [fold_until].
    - exists st. rewrite app_nil_r. split_and!; [done|done|by intros i|done].
    - destruct (lookup_lt_is_Some_2 (ws_rows send) i) as [row Hrow]; [apply Hi; by left|]. rewrite (vget_ok _ _ _ Hrow). cbn [mbind res_bind].
      destruct (check_received_row_ok (ws_mode send) first row st Hc) as (st1&->&Hc1&Hg1&Hres); [apply Hrows; by eapply list_elem_of_lookup_2|]. cbn [mbind res_bind fst snd].
      destruct (IH (done ++ [i]) st1) as (st'&Hf&Hc'&Hg'&Hd'); [intros j Hj; apply Hi; by right|done| |].
      { intros Hm j row' [Hj| ->%list_elem_of_singleton]%elem_of_app Hr; [by apply Hg1, (Hdone Hm j)|]. rewrite Hrow in Hr. injection Hr as <-. by apply Hres. }
      exists st'. split_and!; [done|done|by eapply grows_trans|]. by rewrite <-app_assoc in Hd'. }
  destruct (Hloop (seq 0 (length (ws_rows send))) [] st) as (st'&Hf&Hc'&Hg'&Hd); [intros i Hi%elem_of_seq; lia|done|by intros ? ? ? ?%elem_of_nil|].
  exists st'. split_and!; [done..|]. intros i (Hm&row&[j Hj]%list_elem_of_lookup&Ep). pose proof (Hd Hm j row ltac:(apply elem_of_seq; apply lookup_lt_Some in Hj; lia) Hj) as Hx.
  rewrite Ep in Hx. by replace (own + i - own) with i in Hx by lia.
Qed.

Lemma check_receives_ok receives covered : Forall takes receives → (∀ i, i < m → ∃ r, r ∈ receives ∧ reaches r i) → m ≤ length covered →
  ∃ covered', check_receives window own all receives covered = Ok (covered', None).
Proof.
  intros Ht Hr Hl. unfold check_receives. destruct (write_n_ok covered 0 (replicate m 0)) as (c0&->&Hl0&Hz&_); [by rewrite length_replicate|]. cbn [mbind res_bind].
  assert (counted (c0, 0)) as Hc0.
  { assert (take m c0 = replicate m 0) as Etk.
    { apply list_eq. intros i. destruct (decide (i < m)) as [Hi|Hi].
      - rewrite lookup_take_lt by done. rewrite lookup_replicate_2 by done. apply (Hz i). by apply lookup_replicate_2.
      - rewrite !lookup_ge_None_2; [done|rewrite length_replicate; lia|rewrite length_take; lia]. }
    split; cbn [fst snd]; [by rewrite Hl0| |].
    - intros i x Hi Hx. rewrite <-(lookup_take_lt c0 m i Hi), Etk in Hx. apply lookup_replicate in Hx as [-> _]. lia.
    - rewrite Etk. clear. induction m; simpl; lia. }
  assert (∀ l st, Forall takes l → counted st → ∃ st', fold_until (check_receive window own all) l st = Ok (st', None) ∧ counted st' ∧ grows st.1 st'.1 ∧ ∀ r i, r ∈ l → reaches r i → st'.1 !! i = Some 1) as Hloop.
  { induction l as [|r l IH]; intros st Hl1 Hc; cbn [fold_until]; [exists st; split_and!; [done|done|by intros i|by intros r i ?%elem_of_nil]|].
    apply Forall_cons in Hl1 as [Hr1 Hl1]. destruct (check_receive_ok r st Hc Hr1) as (st1&->&Hc1&Hg1&Hre). cbn [mbind res_bind fst snd].
    destruct (IH st1 Hl1 Hc1) as (st'&Hf&Hc'&Hg'&Hall'). exists st'. split_and!; [done|done|by eapply grows_trans|]. intros r' i [->|Hin]%elem_of_cons Hri; [by apply Hg', Hre|by eapply Hall']. }
  destruct (Hloop receives (c0, 0) Ht Hc0) as ([c num]&->&Hc&_&Hcov). cbn [mbind res_bind]. exists c. do 2 f_equal.
  assert (take m c = replicate m 1) as Etk.
  { apply list_eq. intros i. destruct (decide (i < m)) as [Hi|Hi].
    - rewrite lookup_take_lt by done. rewrite lookup_replicate_2 by done. destruct (Hr i Hi) as (r&Hin&Hri). by apply (Hcov r i).
    - rewrite !lookup_ge_None_2; [done|rewrite length_replicate; lia|rewrite length_take; lia]. }
  pose proof (cn_count _ Hc) as Hn. cbn [fst snd] in Hn. rewrite Etk in Hn. assert (sum_list (replicate m 1) = m) as Es by (clear; induction m; simpl; lia). by rewrite Hn, Es, Nat.eqb_refl.
Qed.
End receiving.

Section sent.
Context {R : Type} `{RateOps R} (t : experiment_template R) (n : nat) (cs : list (extended_dem R)) (Hshot : shot_ok t n cs).
Context (ref : template_ref R) (Href : ref_template ref = t).
Context (receiver sender : decoding_window R) (q q' : window_request R) (k k' : Z) (s e cb ce ie s' e' cb' ce' ie' : nat).
Abbreviation base := (base (sc_to_seam (spec_seam (t_spec t))) cs).
Context (Hr : placed_ok t n cs q ref k (dw_placed receiver) s e cb ce ie) (Hs : placed_ok t n cs q' ref k' (dw_placed sender) s' e' cb' ce' ie').
Context (Hown : dw_num_own_rows receiver = base e - base s) (Hrows : num_rows_ (wm_h (dw_model receiver)) = base ie - base s).
Abbreviation own := (dw_num_own_rows receiver).
Abbreviation all := (num_rows_ (wm_h (dw_model receiver))).

(** A receive lands where [receive_send] puts it on the receiver's own window. *)
Lemma receive_send_core window j send send' values d d' :
  rows_first_row window = base s → pw_sends (dw_placed sender) !! j = Some send → ws_rows send' = ws_rows send → ws_mode send' = ws_mode send →
  receive_send receiver sender j values d = Ok d' →
  takes window own all (Some (mk_send_value values (Some send') (base s'))) ∧ apply_receive window all (Some (mk_send_value values (Some send') (base s'))) d = Ok d'.
Proof using All.
  intros HF Hj Erows Emode Hrs. unfold receive_send in Hrs. cbv zeta in Hrs.
  rewrite (pk_context _ _ _ _ _ _ _ _ _ _ _ _ Hr), (pk_context _ _ _ _ _ _ _ _ _ _ _ _ Hs), Nat.eqb_refl,
    (pk_shot _ _ _ _ _ _ _ _ _ _ _ _ Hr), (pk_shot _ _ _ _ _ _ _ _ _ _ _ _ Hs), Nat.eqb_refl in Hrs. cbn [negb orb throw_if mbind res_bind] in Hrs.
  apply bind_ok in Hrs as ([]&_&Hrs). apply bind_ok in Hrs as (send0&Hs0%vget_inv&Hrs). rewrite Hj in Hs0. injection Hs0 as <-.
  apply bind_ok in Hrs as ([]&Hlen%throw_if_ok&Hrs). apply orb_false_iff in Hlen as [Hlen Hlend]. apply negb_false_iff, Nat.eqb_eq in Hlen, Hlend.
  rewrite (pk_rounds _ _ _ _ _ _ _ _ _ _ _ _ Hr), (pk_rounds _ _ _ _ _ _ _ _ _ _ _ _ Hs), Href in Hrs. cbn [rr_begin] in Hrs.
  destruct (pk_bounds _ _ _ _ _ _ _ _ _ _ _ _ Hr) as (B1&B2&B3&B4&B5). destruct (pk_bounds _ _ _ _ _ _ _ _ _ _ _ _ Hs) as (C1&C2&C3&C4&C5).
  rewrite !(row_offset_z t n cs Hshot) in Hrs by lia. cbn [mbind res_bind] in Hrs. apply bind_ok in Hrs as (ib&Hib&Hrs). apply bind_ok in Hrs as (il&Hil&Hrs).
  apply bind_ok in Hrs as ([]&Hguard&Hrs).
  assert (ib = base e ∧ il = base ie ∨ ib = 0 ∧ il = 0) as Himports.
  { destruct (pk_imports _ _ _ _ _ _ _ _ _ _ _ _ Hr) as [(Hemp&_&_)|[Him Hlt]].
    - rewrite Hemp in Hib, Hil. injection Hib as <-. injection Hil as <-. by right.
    - left. rewrite Him in Hib, Hil. rewrite (proj2 (empty_range_false _)) in Hib, Hil by (unfold nonempty; cbn; lia). cbn [rr_begin rr_end] in Hib, Hil.
      rewrite (row_offset_z t n cs Hshot) in Hib, Hil by lia. injection Hib as <-. injection Hil as <-. done. }
  pose proof (base_mono t cs s e ltac:(lia)) as M1. pose proof (base_mono t cs e ie ltac:(lia)) as M2.
  pose proof (base_small t n cs Hshot e) as S1. pose proof (base_small t n cs Hshot ie) as S2.
  assert (∀ row, row ∈ ws_rows send → ∃ x, receiver_row receiver (ws_mode send) (base s) ib il (base s' + row) = Some x ∧ target (rows_first_row window) all (base s') row = x ∧
    match ws_mode send with send_delta => x < own | send_residual => own ≤ x < all end) as Htarget.
  { intros row Hrow. pose proof (foldM_each _ _ Hguard row Hrow) as Hok. apply throw_if_ok, bool_decide_eq_false in Hok.
    destruct (receiver_row _ _ _ _ _ _) as [x|] eqn:Ex; [|done]. exists x. split; [done|]. unfold receiver_row in Ex. unfold target. rewrite HF. destruct (ws_mode send).
    - destruct (Nat.leb_spec (base s) (base s' + row)); [|done]. destruct (Nat.ltb_spec (base s' + row - base s) own); [|done]. injection Ex as <-.
      rewrite wrap_small by lia. rewrite (proj2 (Nat.ltb_ge _ _)) by lia. done.
    - destruct (Nat.leb_spec ib (base s' + row)); [|done]. destruct (Nat.ltb_spec (base s' + row) il); [|done]. injection Ex as <-.
      destruct Himports as [[-> ->]|[-> ->]]; [|lia]. rewrite wrap_small by lia. rewrite (proj2 (Nat.ltb_ge _ _)) by lia. lia. }
  split.
  - cbn [takes]. rewrite Erows. split; [done|]. intros row Hrow. rewrite Emode. destruct (Htarget row Hrow) as (x&_&->&Hx). done.
  - cbn [apply_receive]. rewrite <-Hrs, Hlen. apply foldM_ext. intros i x Hi%elem_of_seq. unfold receive_value. rewrite Erows, Emode.
    destruct (lookup_lt_is_Some_2 (ws_rows send) i) as [row Hrow]; [lia|]. rewrite (vget_ok _ _ _ Hrow). cbn [mbind res_bind].
    destruct (Htarget row) as (y&Hy&->&_); [by eapply list_elem_of_lookup_2|]. rewrite Hy. destruct (vget values i); cbn [mbind res_bind]; done.
Qed.
End sent.

(** ** Solving on any workspace of the right size *)

Section solving.
Context {R : Type} (w : decoding_window R).

Lemma commit_any d ws0 ws1 r : sized_for w ws0 → sized_for w ws1 →
  sol_estimate (wk_solution ws0) = sol_estimate (wk_solution ws1) → sol_converged (wk_solution ws0) = sol_converged (wk_solution ws1) →
  sol_satisfied (wk_solution ws0) = sol_satisfied (wk_solution ws1) →
  commit_window w d ws1 = Ok r → ∃ r0, commit_window w d ws0 = Ok r0 ∧ wk_solution r0 = wk_solution r ∧ wk_explained r0 = wk_explained ws0.
Proof.
  intros H0 H1 E1 E2 E3 Hc. pose proof H0 as (_&_&L3&_&L5&L6&_). pose proof H1 as (_&_&M3&_&M5&M6&_). unfold commit_window in *. cbv zeta in *.
  rewrite check_workspace_ok in * by done. rewrite E1, E2, E3. apply bind_ok in Hc as ([]&->&Hc). cbn [mbind res_bind] in *.
  rewrite L3, L5, L6. rewrite M3, M5, M6 in Hc. apply bind_ok in Hc as ([[committed delta] frame]&->&Hc). cbn [mbind res_bind].
  apply bind_ok in Hc as (sends&->&[= <-]). eexists. split; [reflexivity|]. done.
Qed.

Lemma solve_any dec d ws0 ws1 r : sized_for w ws0 → sized_for w ws1 → solve_window w dec d ws1 = Ok r →
  ∃ r0, solve_window w dec d ws0 = Ok r0 ∧ wk_solution r0 = wk_solution r.
Proof.
  intros H0 H1 Hs. pose proof H0 as (L1&L2&L3&L4&L5&L6&L7). pose proof H1 as (M1&M2&M3&M4&M5&M6&M7). unfold solve_window in *. cbv zeta in *.
  rewrite check_workspace_ok in * by done. apply bind_ok in Hs as ([]&Hl&Hs). rewrite Hl. cbn [mbind res_bind] in *. rewrite L4, L2. rewrite M4, M2 in Hs.
  apply bind_ok in Hs as ([[est conv] syn]&Hdec&Hs). rewrite Hdec. cbn [mbind res_bind]. apply bind_ok in Hs as (explained&Hex&Hs). rewrite Hex. cbn [mbind res_bind].
  apply bind_ok in Hs as (sat&Hsat&Hs). rewrite Hsat. cbn [mbind res_bind].
  assert (length est = num_cols_ (wm_o (dw_model w)) ∧ (dec ≠ None → length syn = num_rows_ (wm_h (dw_model w)))) as [He Hsyn].
  { apply throw_if_ok, negb_false_iff, Nat.eqb_eq in Hl. unfold run_decoder in Hdec. destruct dec as [decode|]; [|injection Hdec as <- _ _; split; [by rewrite length_replicate|done]].
    apply bind_ok in Hdec as (r0&_&Hdec). apply bind_ok in Hdec as ([]&_&Hdec). apply bind_ok in Hdec as (e&Hloop&[= <- _ <-]). rewrite length_fmap. split; [|done].
    apply (foldM_preserve _ (λ v, length v = num_cols_ (wm_o (dw_model w)))) in Hloop; [done| |by rewrite length_replicate].
    intros c v v' _ Hv Hb. apply bind_ok in Hb as (x&_&Hb). by rewrite (length_vset _ _ _ _ Hb). }
  assert (length explained = num_rows_ (wm_h (dw_model w))) as Hel.
  { apply (foldM_preserve _ (λ v, length v = num_rows_ (wm_h (dw_model w)))) in Hex; [done| |by rewrite length_replicate].
    intros c v v' _ Hv Hb. apply bind_ok in Hb as (x&_&Hb). destruct (x =? 0); [by injection Hb as <-|]. by rewrite (length_flip_column _ _ _ _ Hb). }
  match type of Hs with commit_window w d ?x = _ => match goal with |- context [commit_window w d ?y] => destruct (commit_any d y x r) as (r0&Hr0&Es&_) end end; try done.
  - unfold sized_for. cbn. split_and!; try done. destruct dec; [by apply Hsyn|done].
  - unfold sized_for. cbn. split_and!; try done. destruct dec; [by apply Hsyn|done].
  - eauto.
Qed.

(** A solution that does not satisfy its detectors misses a row. *)
Lemma missed_row dec d ws r : sized_for w ws → solve_window w dec d ws = Ok r → sol_satisfied (wk_solution r) = false → ∃ m, first_missed (wk_explained r) d = Ok m.
Proof.
  intros H0 Hs Hf. pose proof H0 as (_&L2&_). unfold solve_window in Hs. cbv zeta in Hs. apply bind_ok in Hs as ([]&Hl%throw_if_ok&Hs). apply negb_false_iff, Nat.eqb_eq in Hl.
  apply bind_ok in Hs as ([]&_&Hs). apply bind_ok in Hs as ([[est conv] syn]&_&Hs). apply bind_ok in Hs as (explained&Hex&Hs). apply bind_ok in Hs as (sat&Hsat&Hs).
  assert (length explained = length d) as Hel.
  { apply (foldM_preserve _ (λ v, length v = length (wk_explained ws))) in Hex; [congruence| |by rewrite length_replicate].
    intros c v v' _ Hv Hb. apply bind_ok in Hb as (x&_&Hb). destruct (x =? 0); [by injection Hb as <-|]. by rewrite (length_flip_column _ _ _ _ Hb). }
  assert (wk_explained r = explained ∧ sol_satisfied (wk_solution r) = sat) as [-> Es].
  { unfold commit_window in Hs. cbv zeta in Hs. apply bind_ok in Hs as ([]&_&Hs). apply bind_ok in Hs as ([]&_&Hs). apply bind_ok in Hs as ([[? ?] ?]&_&Hs). apply bind_ok in Hs as (?&_&[= <-]). done. }
  rewrite Es in Hf. subst sat.
  assert (∃ i e x, explained !! i = Some e ∧ d !! i = Some x ∧ (e =? Nat.land x 1) = false) as Hbad.
  { destruct (decide (Exists (λ i, (default 0 (explained !! i) =? Nat.land (default 0 (d !! i)) 1) = false) (seq 0 (length explained)))) as [Hex'|Hno].
    - apply Exists_exists in Hex' as (i&Hi%elem_of_seq&Hb). destruct (lookup_lt_is_Some_2 explained i) as [e He]; [lia|]. destruct (lookup_lt_is_Some_2 d i) as [x Hx]; [lia|].
      rewrite He, Hx in Hb. eauto 10.
    - exfalso. assert (false = true) as Hft; [|done].
      apply (foldM_preserve _ (λ b, b = true)) in Hsat; [done| |done]. intros i b b' Hi -> Hb. apply bind_ok in Hb as (e&He%vget_inv&Hb). apply bind_ok in Hb as (x&Hx%vget_inv&[= <-]).
      cbn [andb]. destruct (e =? Nat.land x 1) eqn:E; [done|]. exfalso. apply Hno, Exists_exists. exists i. split; [apply elem_of_seq; apply elem_of_seq in Hi; lia|]. rewrite He, Hx. exact E. }
  clear -Hel Hbad. revert d Hel Hbad. induction explained as [|e explained IH]; intros [|x d] Hel (i&e0&x0&He&Hx&Hb); try done. cbn [first_missed].
  destruct (e =? Nat.land x 1) eqn:E; [|eauto]. destruct i as [|i]; [injection He as <-; injection Hx as <-; congruence|]. destruct (IH d) as [m ->]; [by injection Hel|eauto 10|]. eauto.
Qed.
End solving.

(** ** A fire of an accepted window *)

Section firing.
Context {R : Type} `{RateOps R} (get_decoder : decoder_source R) (slots : nat) (L : decode_layout R) (Hlb : layout_built get_decoder slots L).
Context (core : decode_core) (Hsized : sized_core L slots core) (slot : nat) (Hslot : slot < slots).
Context (window : window_rows) (v : nat) (var : core_variant R) (Hcheck : check_fired_window L core slot window = Ok v)
  (Hvar : dl_variants L !! v = Some var) (Hkey : va_key var = rows_variant window) (Hfree : is_bulk (va_key var) = false → dc_decoding core !! v = Some false).
Abbreviation w := (va_window var).
Abbreviation own := (dw_num_own_rows w).
Abbreviation all := (num_rows_ (wm_h (dw_model w))).
Context (Hall : own ≤ all) (Hsmall : (Z.of_nat all < 2 ^ 64)%Z) (Hown : length (rows_detectors window) = own).
Context (receives : list (option window_send_value)) (Htakes : Forall (takes window own all) receives)
  (Hreach : ∀ i, i < all - own → ∃ r, r ∈ receives ∧ reaches window own all r i).
Context (d : list nat) (Hd : apply_receives window all receives (rows_detectors window ++ replicate (all - own) 0) = Ok d).
Abbreviation set := (set_of var slot).

Lemma set_in : set < sets_of (va_key var) slots.
Proof using Hslot. clear - Hslot. unfold set_of, sets_of. destruct (is_bulk _); lia. Qed.

Lemma begin_ok : ∃ core', fire_begin L core slot window receives = Ok (core', inl (mk_pending slot v set window)) ∧ buffer_get (dc_detectors core') v set = Ok d.
Proof using All.
  destruct (buffers_get _ _ _ _ v set var (sc_detectors _ _ _ Hsized) Hvar set_in) as (d0&Hd0&Hl0).
  destruct (lookup_lt_is_Some_2 (dc_covered core) slot) as [c Hc]; [by rewrite (sc_covered _ _ _ Hsized)|].
  destruct (lookup_lt_is_Some_2 (dc_fires core) slot) as [out Hout]; [by rewrite (sc_fires _ _ _ Hsized)|]. pose proof (lookup_lt_Some _ _ _ Hvar) as Hv.
  destruct (lookup_lt_is_Some_2 (dc_counts core) v) as [count Hcount]; [by rewrite (sc_counts _ _ _ Hsized)|].
  destruct (lookup_lt_is_Some_2 (dc_decoding core) v) as [taken Htaken]; [by rewrite (sc_decoding _ _ _ Hsized)|].
  pose proof (Forall_lookup_1 _ _ _ _ (sc_imported _ _ _ Hsized) Hc var (list_elem_of_lookup_2 _ _ _ Hvar)) as Him. rewrite u64_sub_le in Him by done.
  destruct (check_receives_ok window own all Hall receives c Htakes Hreach Him) as [c' Hrec].
  destruct (write_n_ok d0 0 (rows_detectors window)) as (d1&Hd1&Hl1&Hat1&_); [lia|].
  destruct (write_n_ok d1 own (replicate (all - own) 0)) as (d2&Hd2&Hl2&Hat2&Hrest2); [rewrite length_replicate; lia|].
  assert (d2 = rows_detectors window ++ replicate (all - own) 0) as ->.
  { apply list_eq. intros i. destruct (decide (i < own)) as [Hi|Hi].
    - rewrite Hrest2 by lia. destruct (lookup_lt_is_Some_2 (rows_detectors window) i) as [x Hx]; [lia|]. rewrite lookup_app_l, Hx by lia. by apply (Hat1 i).
    - destruct (decide (i < all)) as [Hi'|Hi']; [|rewrite !lookup_ge_None_2; [done|rewrite length_app, length_replicate; lia|lia]].
      rewrite lookup_app_r, lookup_replicate_2 by lia. replace i with (own + (i - own)) at 1 by lia. apply Hat2, lookup_replicate_2. lia. }
  apply buffer_get_ok in Hd0 as Hb. destruct Hb as (ds&Hds&Hds0). set (det := <[v := <[set := d]> ds]> (dc_detectors core)).
  assert (buffer_set (dc_detectors core) v set d = Ok det) as Hset.
  { unfold buffer_set. rewrite (vget_ok _ _ _ Hds). cbn [mbind res_bind]. rewrite vset_ok by (by eapply lookup_lt_Some). cbn [mbind res_bind]. by rewrite vset_ok by (by eapply lookup_lt_Some). }
  unfold fire_begin. rewrite Hcheck, (vget_ok _ _ _ Hvar). cbn [mbind res_bind]. fold (set_of var slot). rewrite Hd0. cbn [mbind res_bind]. rewrite (vget_ok _ _ _ Hc). cbn [mbind res_bind].
  rewrite Hl0, Hrec. cbn [mbind res_bind fst snd]. rewrite vset_ok by (by eapply lookup_lt_Some). cbn [mbind res_bind with_covered dc_decoding dc_counts dc_fires dc_detectors dc_workspaces dc_covered].
  rewrite (vget_ok _ _ _ Htaken), <-Hkey. cbn [mbind res_bind].
  assert (negb (is_bulk (va_key var)) && taken = false) as ->. { destruct (is_bulk (va_key var)); [done|]. rewrite Hfree in Htaken by done. by injection Htaken as <-. }
  rewrite (vget_ok _ _ _ Hcount). cbn [mbind res_bind]. rewrite (vget_ok _ _ _ Hout). cbn [mbind res_bind].
  assert (∀ A (l : list A) x, v < length l → ∃ l', (if is_bulk (va_key var) then Ok l else vset l v x) = Ok l') as Hif.
  { intros A l x Hl. destruct (is_bulk _); [eauto|]. rewrite vset_ok by done. eauto. }
  destruct (Hif _ (dc_decoding core) true) as [dec' ->]; [by eapply lookup_lt_Some|]. cbn [mbind res_bind].
  match goal with |- context [if is_bulk (va_key var) then Ok (dc_counts core) else vset (dc_counts core) v ?x] => destruct (Hif _ (dc_counts core) x) as [cnt' ->]; [by eapply lookup_lt_Some|] end. cbn [mbind res_bind].
  rewrite vset_ok by (by eapply lookup_lt_Some). cbn [mbind res_bind]. rewrite Hd1. cbn [mbind res_bind]. rewrite Hd2. cbn [mbind res_bind]. rewrite Hd. cbn [mbind res_bind]. rewrite Hset. cbn [mbind res_bind].
  eexists. split; [reflexivity|]. cbn [dc_detectors]. rewrite (buffer_get_set _ _ _ _ _ _ _ Hset). by rewrite decide_True.
Qed.

Context (dec : option decode_fn) (Hdec : va_decoders var = replicate (sets_of (va_key var) slots) dec).
Context (ws : window_workspace) (Hsolve : solve_window w dec d (make_window_workspace w) = Ok ws).
Context (commit : round_range) (Hcommit : commit_of (dl_request L) = Ok commit).

Definition lost : bool := bool_decide (dl_verify L = verify_fail) && negb (sol_satisfied (wk_solution ws)).

(** A fire returns: it publishes the solution, or records why it does not. *)
Lemma fire_ok : ∃ core' f, fire L core slot window receives = Ok (core', None) ∧ dc_fires core' !! slot = Some f ∧
  if lost then wf_fired f = false ∧ wf_failure f ≠ ""
  else wf_fired f = true ∧ wf_k f = rows_k window ∧
    wf_commit f = mk_range (rr_begin (rows_rounds window) `max` (anchor_at L (rows_k window) + rr_begin commit)) (rr_end (rows_rounds window) `min` (anchor_at L (rows_k window) + rr_end commit)) ∧
    holds L core' f = Ok true ∧
    ∃ r, read_fire L core' f = Ok r ∧ re_detectors r = d ∧ re_solution r = wk_solution ws ∧ length (re_sends r) = length (pw_sends (dw_placed w)) ∧
      ∀ j values, wo_sends (sol_outputs (wk_solution ws)) !! j = Some values →
        ∃ send, pw_sends (dw_placed w) !! j = Some send ∧ re_sends r !! j = Some (mk_send_value values (Some send) (rows_first_row window)).
Proof using All.
  destruct begin_ok as (core1&Hb&Hd1). destruct (fire_begin_accepted _ _ _ _ _ _ _ Hb) as (v'&var'&out&count&d'&[Hp _ Hv' Hout Hcount _ _ _ _ _ Hfires _ Hcnt]).
  injection Hp as <- _. rewrite Hvar in Hv'. injection Hv' as <-. pose proof (begin_sized L slots _ _ _ _ _ _ Hsized Hb) as Hs1.
  set (out1 := clear_fire out v (if is_bulk (va_key var) then wf_ticket out else u64 (count + 1))) in *.
  assert (dc_fires core1 !! slot = Some out1) as Hout1 by (rewrite Hfires; apply list_lookup_insert_eq; by eapply lookup_lt_Some).
  destruct (buffers_get _ _ _ _ v set var (sc_workspaces _ _ _ Hs1) Hvar set_in) as (ws0&Hws0&Hsz0).
  destruct (solve_any w dec d ws0 (make_window_workspace w) ws Hsz0 (make_window_workspace_sized w) Hsolve) as (ws1&Hsol1&Esol). pose proof (solve_sized w dec d ws0 ws1 Hsz0 Hsol1) as Hsz1.
  apply buffer_get_ok in Hws0 as Hb0. destruct Hb0 as (wss&Hwss&Hwss0). set (wk := <[v := <[set := ws1]> wss]> (dc_workspaces core1)).
  assert (buffer_set (dc_workspaces core1) v set ws1 = Ok wk) as Hset.
  { unfold buffer_set. rewrite (vget_ok _ _ _ Hwss). cbn [mbind res_bind]. rewrite vset_ok by (by eapply lookup_lt_Some). cbn [mbind res_bind]. by rewrite vset_ok by (by eapply lookup_lt_Some). }
  assert (∃ decoding, release_claim L core1 v = Ok decoding) as [decoding Hrel].
  { unfold release_claim. rewrite (vget_ok _ _ _ Hvar). cbn [mbind res_bind]. destruct (is_bulk _); [eauto|]. rewrite vset_ok; [eauto|]. rewrite (sc_decoding _ _ _ Hs1). by eapply lookup_lt_Some. }
  unfold fire. rewrite Hb. cbn [mbind res_bind fst snd]. unfold fire_end. rewrite (vget_ok _ _ _ Hvar). cbn [mbind res_bind]. rewrite Hdec.
  rewrite (vget_ok _ _ dec) by (apply lookup_replicate_2, set_in). cbn [mbind res_bind]. rewrite Hd1. cbn [mbind res_bind]. rewrite Hws0. cbn [mbind res_bind]. rewrite (vget_ok _ _ _ Hout1). cbn [mbind res_bind].
  rewrite Hrel. cbn [mbind res_bind]. rewrite Hsol1. rewrite Esol. fold lost. destruct lost eqn:El.
  - apply andb_true_iff in El as [_ El%negb_true_iff]. rewrite <-Esol in El. destruct (missed_row w dec d ws0 ws1 Hsz0 Hsol1 El) as [m ->]. cbn [mbind res_bind]. rewrite Hset. cbn [mbind res_bind].
    rewrite vset_ok by (by eapply lookup_lt_Some). cbn [mbind res_bind]. eexists _, _. split; [reflexivity|]. cbn [dc_fires]. split; [apply list_lookup_insert_eq; by eapply lookup_lt_Some|].
    split; [done|]. cbn [wf_failure]. done.
  - rewrite Hcommit. cbn [mbind res_bind]. assert (length (wf_sends out1) = length (pw_sends (dw_placed w))) as Hns.
    { rewrite (Forall_lookup_1 _ _ _ _ (sc_sends _ _ _ Hs1) Hout1). pose proof (lb_sends _ _ _ Hlb var (list_elem_of_lookup_2 _ _ _ Hvar)) as Hids. apply (f_equal length) in Hids. by rewrite !length_fmap in Hids. }
    pose proof Hsz1 as (_&_&_&_&_&_&Hvals). rewrite Esol in Hvals. pose proof (Forall2_length _ _ _ Hvals) as Hlv.
    rewrite (map_res_eq _ (λ s, mk_fire_send (Some (v, set, s)) (rows_first_row window))).
    2: { intros s [_ Hs]%elem_of_seq. destruct (lookup_lt_is_Some_2 (pw_sends (dw_placed w)) s) as [send Hsend]; [lia|]. destruct (lookup_lt_is_Some_2 (wo_sends (sol_outputs (wk_solution ws))) s) as [vals Hvs]; [lia|].
         rewrite (vget_ok _ _ _ Hvs). cbn [mbind res_bind]. by rewrite (vget_ok _ _ _ Hsend). }
    cbn [mbind res_bind]. rewrite Hset. cbn [mbind res_bind]. rewrite vset_ok by (by eapply lookup_lt_Some). cbn [mbind res_bind]. eexists _, _. split; [reflexivity|]. cbn [dc_fires].
    split; [apply list_lookup_insert_eq; by eapply lookup_lt_Some|]. cbn [wf_fired wf_k wf_commit]. split; [done|]. split; [done|]. split; [done|]. split.
    + unfold holds. cbn [wf_variant wf_ticket out1 clear_fire]. rewrite Hvar. destruct (is_bulk (va_key var)) eqn:Ebulk; [done|]. cbn [dc_counts]. rewrite Hcnt.
      rewrite (vget_ok _ _ (u64 (count + 1))) by (apply list_lookup_insert_eq; by eapply lookup_lt_Some). cbn [mbind res_bind]. by rewrite Nat.eqb_refl.
    + unfold read_fire, fire_detectors, fire_solution. cbn [wf_buffers wf_sends dc_detectors dc_workspaces]. rewrite Hd1. cbn [mbind res_bind].
      assert (buffer_get wk v set = Ok ws1) as Hwk by (rewrite (buffer_get_set _ _ _ _ _ _ _ Hset); by rewrite decide_True). rewrite Hwk. cbn [mbind res_bind].
      set (value j := mk_send_value (default [] (wo_sends (sol_outputs (wk_solution ws)) !! j)) (pw_sends (dw_placed w) !! j) (rows_first_row window)).
      assert (∀ j, j < length (pw_sends (dw_placed w)) → ∃ send vals, pw_sends (dw_placed w) !! j = Some send ∧ wo_sends (sol_outputs (wk_solution ws)) !! j = Some vals) as Hj.
      { intros j Hlt. destruct (lookup_lt_is_Some_2 (pw_sends (dw_placed w)) j) as [send Hsend]; [lia|]. destruct (lookup_lt_is_Some_2 (wo_sends (sol_outputs (wk_solution ws))) j) as [vals Hvs]; [lia|]. eauto. }
      rewrite (map_res_eq _ (λ x, match fs_source x with Some (_, _, j) => value j | None => value 0 end)).
      2: { intros x (j&->&[_ Hlt]%elem_of_seq)%list_elem_of_fmap. destruct (Hj j ltac:(lia)) as (send&vals&Hsend&Hvs). unfold fire_send_value. cbn [fs_source fs_first_row dc_workspaces].
           rewrite Hwk. cbn [mbind res_bind]. rewrite (vget_ok _ _ _ Hvar). cbn [mbind res_bind]. rewrite Esol, (vget_ok _ _ _ Hvs). cbn [mbind res_bind]. rewrite (vget_ok _ _ _ Hsend). cbn [mbind res_bind].
           unfold value. by rewrite Hvs, Hsend. }
      cbn [mbind res_bind]. eexists. split; [reflexivity|]. cbn [re_detectors re_solution re_sends]. split; [done|]. split; [done|]. rewrite <-list_fmap_compose. split; [by rewrite length_fmap, length_seq|].
      intros j values Hvs. assert (j < length (pw_sends (dw_placed w))) as Hlt by (rewrite <-Hlv; by eapply lookup_lt_Some). destruct (Hj j Hlt) as (send&vals&Hsend&Hvs'). exists send. split; [done|].
      rewrite list_lookup_fmap, lookup_seq_lt by lia. cbn. unfold value. by rewrite Hvs, Hsend.
Qed.
End firing.
