(* ===== verification/DecodeProps.v ===== *)
(** * The decode_window core: what a client gets

    Fires that overlap do not interfere, and a window that the ingest core hands
    over is decoded as its own window would be. *)

From Stdlib Require Import QArith.
From S2P Require Import Prelude Rates Ordering Tensor SparseMatrix RoundLayout DetectorErrorModel Decoder ExtendedDem ExtendedFacts ExtendedStitch ExtendedAll ChunkSpec ExperimentTemplate TemplateFacts TemplateProps WindowRequest WindowRequestFacts WindowModel WindowWorkload Commitment WorkloadFacts WindowShot WindowPlace WindowBuild ShotRun CommitFacts CommitProps WindowProps Ingest IngestRounds IngestViews IngestLayout IngestRun IngestProps WindowVariants DecodeWindow DecodeFire.

Open Scope nat_scope.

(** ** The window's place in the shot *)

(** Rows before the suffix do not depend on the length of the shot. *)
Lemma row_offset_any {R} (t : experiment_template R) n n' r : template_ok t → admits t n → admits t n' → shots_fit t n → shots_fit t n' →
  r + length (t_suffix t) ≤ n → r + length (t_suffix t) ≤ n' → row_offset t r n' = row_offset t r n.
Proof.
  intros Hok Hn Hn' [Hz Hf] [Hz' Hf'] Hr Hr'. destruct (shot_exists t n Hok) as [ps Hs]. destruct (shot_exists t n' Hok) as [ps' Hs'].
  destruct (Hf ps Hs) as [_ H1]. destruct (Hf' ps' Hs') as [_ H2].
  rewrite (row_offset_eq t Hok n Hn Hz ps), (row_offset_eq t Hok n' Hn' Hz' ps') by (done || lia). do 2 f_equal.
  apply (built_as_unique t (take r (shot_phases t n))); [|by apply Forall2_take]. replace (take r (shot_phases t n)) with (take r (shot_phases t n')); [by apply Forall2_take|].
  apply list_eq. intros i. destruct (decide (i < r)) as [Hi|Hi]; [|by rewrite !lookup_take_ge by lia]. rewrite !lookup_take_lt by done. destruct (t_repeats t) eqn:E.
  - destruct (decide (i < length (t_prefix t))); [by rewrite !phase_prefix by done|]. by rewrite !phase_bulk by (done || lia).
  - unfold shot_phases. by rewrite E.
Qed.

Section accept.
Context {R : Type} `{RateOps R} (spec : dem_chunks_spec R) (ref : template_ref R) (q : window_request R) (z : round_range) (Hq : request_ok q z).
Abbreviation t := (ref_template ref).
Context (n : nat) (cs : list (extended_dem R)) (Hspec : spec_shot spec t n cs) (Hfit : shots_fit t n).
Context (shot : list nat) (Hlen : row_offset t n n = Ok (length shot)).
Context (rows : window_rows) (Hrows : is_window t q n shot rows) (Hinst : is_instance q z n (rows_k rows)).
Abbreviation a := (anchor_of q (rows_k rows)).
Abbreviation N := (Z.of_nat n).

Lemma accept_template : template_ok t ∧ shot_ok t n cs ∧ admits t n.
Proof using Hspec.
  destruct (spec_shot_ok _ _ _ _ Hspec) as [_ Hok]. split_and!; [|done|apply Hspec].
  apply (make_template_ok spec); apply Hspec.
Qed.

(** The rounds, the first row and the rows of the window, from its zones. *)
Record window_place (s e first last : nat) : Prop := {
  wp_span : clip_rounds (span_of q z) a N = mk_range (Z.of_nat s) (Z.of_nat e);
  wp_rounds : rows_rounds rows = mk_range (Z.of_nat s) (Z.of_nat e);
  wp_bounds : s < e ≤ n;
  wp_key : rows_variant rows = key_of ref q z n (rows_k rows);
  wp_first : row_offset t s n = Ok first ∧ rows_first_row rows = first;
  wp_last : row_offset t e n = Ok last;
  wp_detectors : rows_detectors rows = take (last - first) (drop first shot);
  wp_fits : first ≤ last ≤ length shot
}.

Lemma instance_placed : ∃ s e first last, window_place s e first last.
Proof using All.
  destruct Hrows as (span&last&Hsp&Hr&Hv&Hf&Hl&Hd). destruct accept_template as (Htok&Hok&Hadm).
  assert (span = span_of q z) as ->. { unfold zone_span, commit_of in Hsp. rewrite (an_commit _ _ (rq_anchor _ _ Hq)) in Hsp. cbn in Hsp. by injection Hsp as <-. }
  fold (anchor_of q (rows_k rows)) in Hr. destruct (zone_span_bounds q z) as (Hz&_&_). destruct (Hz z) as [Hz1 Hz2]; [unfold zones_of; set_solver|].
  unfold is_instance, nonempty in Hinst. cbn [clip_rounds rr_begin rr_end] in Hinst.
  exists (Z.to_nat (rr_begin (clip_rounds (span_of q z) a N))), (Z.to_nat (rr_end (clip_rounds (span_of q z) a N))), (rows_first_row rows), last.
  assert (clip_rounds (span_of q z) a N = mk_range (Z.of_nat (Z.to_nat (rr_begin (clip_rounds (span_of q z) a N)))) (Z.of_nat (Z.to_nat (rr_end (clip_rounds (span_of q z) a N))))) as Ec.
  { unfold clip_rounds. cbn [rr_begin rr_end]. f_equal; lia. }
  rewrite <-Hr in *. split; [rewrite <-Hr; exact Ec|exact Ec| | |by split|done|done|].
  - rewrite Hr. cbn [clip_rounds rr_begin rr_end]. lia.
  - rewrite (window_variant_eq ref q z Hq) in Hv. by injection Hv.
  - rewrite (so_row _ _ _ Hok) in Hf, Hl, Hlen by (rewrite ?Hr; cbn [clip_rounds rr_begin rr_end]; lia). injection Hf as <-. injection Hl as <-. injection Hlen as <-.
    split; apply (base_mono t cs); rewrite Hr; cbn [clip_rounds rr_begin rr_end]; lia.
Qed.

(** The instance's own window, with the detectors of its own rows. *)
Lemma instance_built m2o w : window_from_dem_chunks (Some ref) q (rows_k rows) n m2o = Ok w →
  ∃ s e cb ce ie hc oc, window_built t n cs q ref (rows_k rows) w s e cb ce ie hc oc ∧ rows_first_row rows = base (sc_to_seam (spec_seam (t_spec t))) cs s ∧
    rows_rounds rows = clip_rounds (span_of q z) a N ∧ pw_commit (dw_placed w) = clip_rounds z a N ∧ length (rows_detectors rows) = dw_num_own_rows w ∧
    dw_num_own_rows w ≤ num_rows_ (wm_h (dw_model w)) ∧ (Z.of_nat (num_rows_ (wm_h (dw_model w))) < 2 ^ 64)%Z ∧
    own_detectors w shot = Ok (rows_detectors rows ++ replicate (num_rows_ (wm_h (dw_model w)) - dw_num_own_rows w) 0).
Proof using All.
  intros Hw. destruct accept_template as (Htok&Hok&Hadm). destruct instance_placed as (s&e&first&last&[Hsp Hr Hb Hrk [Hf HF] Hl Hdet Hfits]).
  destruct (window_from_dem_chunks_built _ n cs Hok q ref (rows_k rows) w m2o eq_refl Hw) as (s1&e1&cb&ce&ie&hc&oc&Hbuilt). pose proof (wb_placed _ _ _ _ _ _ _ _ _ _ _ _ _ _ Hbuilt) as Hpk.
  assert (pw_commit (dw_placed w) = clip_rounds z a N ∧ pw_rounds (dw_placed w) = clip_rounds (span_of q z) a N) as [Hpc Hpr].
  { pose proof (place_window_at t n cs Hok ref eq_refl q z (rows_k rows) Hq (instance_fits q z (rows_k rows) _ (rq_anchor _ _ Hq) (so_small _ _ _ Hok) Hinst)) as Hat. rewrite (proj2 (empty_range_false _) Hinst) in Hat. destruct Hat as (pw&Hpw&Hpc&Hpr). unfold window_from_dem_chunks in Hw.
    rewrite Hpw in Hw. cbn [mbind res_bind] in Hw. assert (dw_placed w = pw) as -> by (repeat (apply bind_ok in Hw as (?&_&Hw)); by injection Hw as <-). done. }
  assert (s1 = s ∧ e1 = e) as [-> ->]. { rewrite (pk_rounds _ _ _ _ _ _ _ _ _ _ _ _ Hpk), Hsp in Hpr. injection Hpr. lia. }
  pose proof (wb_own _ _ _ _ _ _ _ _ _ _ _ _ _ _ Hbuilt) as Eown. pose proof (wb_rows _ _ _ _ _ _ _ _ _ _ _ _ _ _ Hbuilt) as Eall.
  destruct (pk_bounds _ _ _ _ _ _ _ _ _ _ _ _ Hpk) as (B1&B2&B3&B4&B5). rewrite (so_row _ _ _ Hok) in Hf, Hl by lia. injection Hf as Hf. injection Hl as Hl.
  pose proof (base_mono t cs s e ltac:(lia)) as M1. pose proof (base_mono t cs e ie ltac:(lia)) as M2. pose proof (base_small t n cs Hok ie) as S1.
  exists s, e, cb, ce, ie, hc, oc. rewrite Hsp. split_and!; [done|congruence|done|done| |lia|lia|].
  - rewrite Hdet, length_take, length_drop, Eown, Hf, Hl. lia.
  - unfold own_detectors. rewrite (pk_context _ _ _ _ _ _ _ _ _ _ _ _ Hpk), (pk_shot _ _ _ _ _ _ _ _ _ _ _ _ Hpk), (pk_rounds _ _ _ _ _ _ _ _ _ _ _ _ Hpk).
    cbn [rr_begin]. rewrite (row_offset_z _ n cs Hok) by lia. cbn [mbind res_bind]. rewrite Eown at 1. by rewrite Hf, Hl, <-Hdet.
Qed.

Context (L : decode_layout R) (Hctx : dl_context L = t) (Hreq : dl_request L = q) (Hspan : dl_span L = span_of q z).

Lemma first_row_eq : first_row L rows = Ok (rows_first_row rows).
Proof using All.
  destruct accept_template as (Htok&Hok&Hadm). destruct instance_placed as (s&e&first&last&[Hsp Hr Hb Hk [Hf ->] _ _ _]). pose proof (so_small _ _ _ Hok) as Hsmall.
  unfold first_row. rewrite Hctx, Hr. cbn [rr_begin rr_end]. replace (to_size (0 `max` Z.of_nat s)) with s by (rewrite Z.max_r by lia; rewrite to_size_nat by lia; done).
  unfold anchor_at. rewrite Hreq. fold (anchor_of q (rows_k rows)). rewrite Hk. unfold key_of. cbn [key_terminal].
  destruct (Z.ltb_spec (N - end_rounds t) (a + rr_end (reach_of ref q z))) as [Ht|Ht].
  - replace (a + (N - a))%Z with N by lia. by rewrite to_size_nat by lia.
  - destruct (t_repeats t) eqn:Erep; [|rewrite <-Hf; f_equal; symmetry; by apply Hadm].
    assert (Z.of_nat e + Z.of_nat (length (t_suffix t)) ≤ N)%Z as Hes.
    { assert (Z.of_nat e = rr_end (clip_rounds (span_of q z) a N)) as Ee by (by rewrite Hsp). cbn [clip_rounds rr_end] in Ee.
      unfold end_rounds, suffix_rounds in Ht. cbn [reach_of rr_end] in Ht. lia. }
    rewrite Z.max_r by lia. rewrite to_size_nat by lia. unfold suffix_rounds. rewrite wrap_small by lia. rewrite <-Hf.
    assert (admits t (t_min_rounds t `max` (e + length (t_suffix t)))) as Hadm' by (split; [lia|congruence]).
    apply row_offset_any; try done; try lia. apply (shots_fit_mono t Htok n); [done|done| |done]. destruct Hadm. lia.
Qed.

(** The window is accepted as window [k] of the variant with its key. *)
Lemma fired_window_ok core slot v var : slot < num_slots core → list_find (λ x, va_key x = rows_variant rows) (dl_variants L) = Some (v, var) →
  length (rows_detectors rows) = dw_num_own_rows (va_window var) → check_fired_window L core slot rows = Ok v.
Proof using All.
  intros Hslot Hfind Hown. destruct accept_template as (Htok&Hok&Hadm). destruct instance_placed as (s&e&first&last&[Hsp Hr Hb Hk _ _ _ _]). pose proof (so_small _ _ _ Hok) as Hsmall.
  apply list_find_Some in Hfind as Hv. destruct Hv as (Hvar&_&_). unfold check_fired_window, check_slot. rewrite (proj2 (Nat.leb_gt _ _)) by done. cbn [throw_if mbind res_bind].
  rewrite Hfind. cbn [mbind res_bind]. unfold anchor_at. rewrite Hreq. fold (anchor_of q (rows_k rows)). rewrite Hk. unfold key_of. cbn [key_position key_terminal].
  assert (match (if (a + rr_begin (reach_of ref q z) <? Z.of_nat (length (t_prefix t)))%Z then Some (rows_k rows) else None) with
    | Some position => throw_if (negb (position =? rows_k rows)%Z) (fire_fails "window carries another window's variant") | None => Ok tt end = Ok tt) as ->.
  { destruct (_ <? _)%Z; [|done]. by rewrite Z.eqb_refl. }
  cbn [mbind res_bind]. rewrite first_row_eq. cbn [mbind res_bind]. rewrite Nat.eqb_refl. cbn [negb throw_if mbind res_bind].
  match goal with |- context [bool_decide (rows_rounds rows = ?c)] => assert (rows_rounds rows = c) as Hc end.
  { rewrite Hr, <-Hsp, Hspan. unfold clip_rounds. f_equal. destruct (Z.ltb_spec (N - end_rounds t) (a + rr_end (reach_of ref q z))) as [Ht|Ht]; [lia|].
    unfold end_rounds in Ht. cbn [reach_of rr_end] in Ht. unfold int64_max. lia. }
  rewrite bool_decide_true by done. cbn [negb throw_if mbind res_bind]. rewrite (vget_ok _ _ _ Hvar). cbn [mbind res_bind]. rewrite Hown, Nat.eqb_refl. cbn [negb orb].
  rewrite (proj2 (empty_range_false _)); [done|]. rewrite Hr. unfold nonempty. cbn [rr_begin rr_end]. lia.
Qed.
End accept.

(** ** A core and its shot *)

(** A core made for a request: its store answers with the windows that
    [data_artifact_store::add_windows] builds, one for each listed variant, at the
    instance it is listed with. *)
Record decode_setup {R} `{RateOps R} (spec : dem_chunks_spec R) (ref : template_ref R) (q : window_request R) (get_decoder : decoder_source R)
    (slots : nat) (verify : verify_residual_mode) (m2o : bool) (L : decode_layout R) (core : decode_core) : Prop := {
  ds_template : make_template spec = Ok (ref_template ref);
  ds_countable : countable spec;
  ds_joined : joined_spec spec;
  ds_measured : measured (ref_template ref);
  ds_request : check_request q = Ok tt;
  ds_made : ∃ vs found, variant_instances (ref_template ref) q = Ok vs ∧
    make_decode_core (Ok found) (ref_template ref) q get_decoder slots verify = Ok (L, core) ∧
    Forall2 (λ v entry, entry.1 = vi_key v ∧ window_from_dem_chunks (Some ref) q (vi_k v) (vi_num_rounds v) m2o = Ok entry.2 ∧
      (∃ cs, spec_shot spec (ref_template ref) (vi_num_rounds v) cs) ∧ shots_fit (ref_template ref) (vi_num_rounds v)) vs found
}.

(** A send of a window of the shot with its values, and a receive that carries it. *)
Record sent R := mk_sent { se_window : decoding_window R; se_index : nat; se_values : list nat }.
Arguments mk_sent {R}.
Arguments se_window {R}.
Arguments se_index {R}.
Arguments se_values {R}.

Definition carries {R} (t : experiment_template R) (n : nat) (x : sent R) (r : window_send_value) : Prop :=
  ∃ send send', sv_values r = se_values x ∧ sv_send r = Some send' ∧ pw_sends (dw_placed (se_window x)) !! se_index x = Some send ∧
    ws_rows send' = ws_rows send ∧ ws_mode send' = ws_mode send ∧
    row_offset t (to_size (rr_begin (pw_rounds (dw_placed (se_window x))))) n = Ok (sv_first_row r).

(** A residual of the inputs lands on imported row [i] of window [w]. *)
Definition imported {R} (t : experiment_template R) (n : nat) (w : decoding_window R) (inputs : list (option (sent R))) (i : nat) : Prop :=
  ∃ x send first from row, Some x ∈ inputs ∧ pw_sends (dw_placed (se_window x)) !! se_index x = Some send ∧ ws_mode send = send_residual ∧ row ∈ ws_rows send ∧
    row_offset t (to_size (rr_begin (pw_rounds (dw_placed w)))) n = Ok first ∧
    row_offset t (to_size (rr_begin (pw_rounds (dw_placed (se_window x))))) n = Ok from ∧ from + row = first + dw_num_own_rows w + i.

(** The detectors of a window: its own rows of the shot, then every input's send. *)
Definition canonical_detectors {R} `{RateOps R} (w : decoding_window R) (shot : list nat) (inputs : list (option (sent R))) : res (list nat) :=
  d ← own_detectors w shot;
  foldM (λ input d, match input with Some x => receive_send w (se_window x) (se_index x) (se_values x) d | None => Ok d end) inputs d.

Section shot.
Context {R : Type} `{RateOps R} (spec : dem_chunks_spec R) (ref : template_ref R) (q : window_request R) (get_decoder : decoder_source R)
  (slots : nat) (verify : verify_residual_mode) (m2o : bool) (L : decode_layout R) (core0 : decode_core) (Hset : decode_setup spec ref q get_decoder slots verify m2o L core0).
Abbreviation t := (ref_template ref).
Context (n : nat) (cs : list (extended_dem R)) (Hspec : spec_shot spec t n cs) (Hfit : shots_fit t n).
Context (z : round_range) (Hq : request_ok q z).

(** The variant of an instance has the instance's own window, up to the shift. *)
Lemma variant_window k : is_instance q z n k →
  ∃ v var w d, list_find (λ x, va_key x = key_of ref q z n k) (dl_variants L) = Some (v, var) ∧ window_from_dem_chunks (Some ref) q k n m2o = Ok w ∧
    w = shift_window n d k (va_window var).
Proof using All.
  intros Hk. destruct Hset as [Hm Hcnt Hj Hmeas _ (vs&found&Hvs&Hmake&Hfound)]. destruct (make_decode_core_built _ _ _ _ _ _ _ _ Hmake) as (_&_&_&(ws&[= <-]&Hperm)&_).
  destruct (variants_listed spec ref q z Hm Hcnt Hj Hq) as (vs'&Hvs'&_&Hs&Hall). rewrite Hvs in Hvs'. injection Hvs' as <-.
  pose proof (Hall n k (ss_admits _ _ _ _ Hspec) Hk) as (v0&Ek0&Hv0)%list_elem_of_fmap.
  assert (∃ x, x ∈ dl_variants L ∧ va_key x = key_of ref q z n k) as (x&Hx&Ekx).
  { apply list_elem_of_lookup in Hv0 as [i Hi]. destruct (Forall2_lookup_l _ _ _ _ _ Hfound Hi) as (entry&He&Ee&_). apply list_elem_of_lookup_2 in He. rewrite <-Hperm in He.
    apply list_elem_of_fmap in He as (x&->&Hx). exists x. split; [done|]. cbn [fst] in Ee. congruence. }
  destruct (list_find_elem_of (λ x, va_key x = key_of ref q z n k) (dl_variants L) x Hx Ekx) as [[v var] Hfind]. exists v, var.
  apply list_find_Some in Hfind as Hvar. destruct Hvar as (Hvar&Ekv&_).
  assert ((va_key var, va_window var) ∈ found) as Hin. { rewrite <-Hperm. apply list_elem_of_fmap. exists var. split; [done|]. by eapply list_elem_of_lookup_2. }
  apply list_elem_of_lookup in Hin as [i Hi]. destruct (Forall2_lookup_r _ _ _ _ _ Hfound Hi) as (vi&Hvi&Ekey&Hw&(cs0&Hspec0)&Hfit0). cbn [fst snd] in *.
  destruct (Hs vi ltac:(by eapply list_elem_of_lookup_2)) as (_&_&Ekvi). destruct (spec_shot_ok _ _ _ _ Hspec) as [_ Hok]. destruct (spec_shot_ok _ _ _ _ Hspec0) as [_ Hok0].
  pose proof (make_template_ok _ _ Hm Hcnt Hj) as Htok.
  eexists _, _. split; [exact Hfind|]. split; [|reflexivity].
  apply (same_key_window ref q z Hq Htok Hmeas (vi_num_rounds vi) cs0 Hok0 (ss_admits _ _ _ _ Hspec0) Hfit0 n cs Hok (ss_admits _ _ _ _ Hspec) Hfit (vi_k vi) k); [congruence|done].
Qed.

(** The receives of a fire: each carries its input, a send of a window of the shot. *)
Definition delivers (input : option (sent R)) (r : option window_send_value) : Prop :=
  match input, r with
  | Some x, Some r => (∃ q' k' m, window_from_dem_chunks (Some ref) q' k' n m = Ok (se_window x)) ∧ carries t n x r
  | None, None => True
  | _, _ => False
  end.

Context (k : Z) (w : decoding_window R) (Hw : window_from_dem_chunks (Some ref) q k n m2o = Ok w) (rows : window_rows).

(** Receives land on the window as [receive_send] puts their inputs there. *)
Lemma receives_land s e cb ce ie hc oc inputs receives d d' :
  window_built t n cs q ref k w s e cb ce ie hc oc → rows_first_row rows = base (sc_to_seam (spec_seam (t_spec t))) cs s → Forall2 delivers inputs receives →
  foldM (λ input d, match input with Some x => receive_send w (se_window x) (se_index x) (se_values x) d | None => Ok d end) inputs d = Ok d' →
  let own := dw_num_own_rows w in let all := num_rows_ (wm_h (dw_model w)) in
  Forall (takes rows own all) receives ∧ apply_receives rows all receives d = Ok d' ∧
  ∀ i, i < all - own → imported t n w inputs i → ∃ r, r ∈ receives ∧ reaches rows own all r i.
Proof using Hspec.
  intros Hb HF Hd Hfold own all. destruct (spec_shot_ok _ _ _ _ Hspec) as [_ Hok]. pose proof (wb_placed _ _ _ _ _ _ _ _ _ _ _ _ _ _ Hb) as Hpk.
  pose proof (wb_own _ _ _ _ _ _ _ _ _ _ _ _ _ _ Hb) as Eown. pose proof (wb_rows _ _ _ _ _ _ _ _ _ _ _ _ _ _ Hb) as Eall.
  destruct (pk_bounds _ _ _ _ _ _ _ _ _ _ _ _ Hpk) as (B1&B2&B3&B4&B5).
  assert (∀ x r, delivers (Some x) (Some r) → ∃ q' k' s' e' cb' ce' ie' send send', placed_ok t n cs q' ref k' (dw_placed (se_window x)) s' e' cb' ce' ie' ∧
    r = mk_send_value (se_values x) (Some send') (base (sc_to_seam (spec_seam (t_spec t))) cs s') ∧ pw_sends (dw_placed (se_window x)) !! se_index x = Some send ∧
    ws_rows send' = ws_rows send ∧ ws_mode send' = ws_mode send) as Hsend.
  { intros x [vals snd first] ((q'&k'&m&Hx)&send&send'&E1&E2&E3&E4&E5&E6). cbn [sv_values sv_send sv_first_row] in *.
    destruct (window_from_dem_chunks_built _ n cs Hok q' ref k' _ m eq_refl Hx) as (s'&e'&cb'&ce'&ie'&hc'&oc'&Hb'). pose proof (wb_placed _ _ _ _ _ _ _ _ _ _ _ _ _ _ Hb') as Hpk'.
    destruct (pk_bounds _ _ _ _ _ _ _ _ _ _ _ _ Hpk') as (C1&C2&C3&C4&C5).
    rewrite (pk_rounds _ _ _ _ _ _ _ _ _ _ _ _ Hpk') in E6. cbn [rr_begin] in E6. rewrite (row_offset_z t n cs Hok) in E6 by lia. injection E6 as <-. subst vals snd. by eexists q', k', s', e', cb', ce', ie', send, send'. }
  split; [|split].
  - revert d Hfold. induction Hd as [|input r inputs receives Hir Hd IH]; intros d Hfold; [constructor|]. cbn [foldM] in Hfold. apply bind_ok in Hfold as (d1&H1&Hfold). constructor; [|by eapply IH].
    destruct input as [x|], r as [r|]; [|done..]. destruct (Hsend x r Hir) as (q'&k'&s'&e'&cb'&ce'&ie'&send&send'&Hpk'&->&Hsnd&Er&Em).
    by apply (receive_send_core t n cs Hok ref eq_refl w (se_window x) q q' k k' s e cb ce ie s' e' cb' ce' ie' Hpk Hpk' Eown Eall rows (se_index x) send send' (se_values x) d d1).
  - revert d Hfold. induction Hd as [|input r inputs receives Hir Hd IH]; intros d Hfold; [done|]. cbn [foldM] in Hfold. apply bind_ok in Hfold as (d1&H1&Hfold). unfold apply_receives. cbn [foldM].
    assert (apply_receive rows all r d = Ok d1) as ->; [|by apply IH].
    destruct input as [x|], r as [r|]; [|done..]. destruct (Hsend x r Hir) as (q'&k'&s'&e'&cb'&ce'&ie'&send&send'&Hpk'&->&Hsnd&Er&Em).
    by apply (receive_send_core t n cs Hok ref eq_refl w (se_window x) q q' k k' s e cb ce ie s' e' cb' ce' ie' Hpk Hpk' Eown Eall rows (se_index x) send send' (se_values x) d d1).
  - intros i Hi (x&send&first&from&row&Hx&Hsnd&Hmode&Hrow&Hf&Hfrom&Esum). apply list_elem_of_lookup in Hx as [p Hp]. destruct (Forall2_lookup_l _ _ _ _ _ Hd Hp) as (r&Hr&Hxr).
    exists r. split; [by eapply list_elem_of_lookup_2|]. destruct r as [r|]; [|done]. destruct (Hsend x r Hxr) as (q'&k'&s'&e'&cb'&ce'&ie'&send0&send'&Hpk'&->&Hsnd'&Er&Em).
    rewrite Hsnd in Hsnd'. injection Hsnd' as <-. cbn [reaches]. rewrite Em, Er. split; [done|]. exists row. split; [done|].
    destruct (pk_bounds _ _ _ _ _ _ _ _ _ _ _ _ Hpk') as (C1&C2&C3&C4&C5). rewrite (pk_rounds _ _ _ _ _ _ _ _ _ _ _ _ Hpk) in Hf. rewrite (pk_rounds _ _ _ _ _ _ _ _ _ _ _ _ Hpk') in Hfrom.
    cbn [rr_begin] in Hf, Hfrom. rewrite (row_offset_z t n cs Hok) in Hf, Hfrom by lia. injection Hf as <-. injection Hfrom as <-.
    pose proof (base_small t n cs Hok ie) as S1. pose proof (base_mono t cs s ie ltac:(lia)) as M1. unfold target. rewrite HF. fold own in Esum. unfold all in Hi. rewrite Eall in Hi.
    rewrite Esum. clear -S1 M1 Hi. rewrite wrap_small by lia. destruct (Nat.ltb_spec (base (sc_to_seam (spec_seam (t_spec t))) cs s + own + i) (base (sc_to_seam (spec_seam (t_spec t))) cs s)); lia.
Qed.
End shot.

(** ** Theorems *)

(** C4. Fires that overlap do not interfere.  In every state reached from a new
    core in fewer than 2^64 steps, whatever slots fire, end and are reset in
    between: two fires in flight never share a variant's decoder and buffers; and
    a slot at rest whose record is fired and which [holds] reads exactly the
    results its fire published. *)
Theorem fires_do_not_interfere {R} `{RateOps R} found (t : experiment_template R) q get_decoder slots verify L core steps s :
  make_decode_core found t q get_decoder slots verify = Ok (L, core) → fire_run L (mk_state core ∅ ∅) steps s → (Z.of_nat steps < 2 ^ 64)%Z →
  (∀ slot slot' p p', fs_pending s !! slot = Some p → fs_pending s !! slot' = Some p' → slot ≠ slot' → (pf_variant p, pf_set p) ≠ (pf_variant p', pf_set p')) ∧
  (∀ slot f, fs_pending s !! slot = None → held (fs_core s) slot = Ok f → wf_fired f = true → holds L (fs_core s) f = Ok true →
     ∃ r, fs_results s !! slot = Some r ∧ read_fire L (fs_core s) f = Ok r).
Proof.
  intros Hm Hrun Hn. destruct (make_decode_core_built _ _ _ _ _ _ _ _ Hm) as (_&_&_&_&_&_&Hrest). destruct (run_invariant L core steps s Hrest Hn Hrun) as [Hp _ _ _ Hu Hh]. split.
  - intros slot slot' p p' Hs Hs' Hne. destruct (Hp slot p Hs) as (f&window&->&Hf&_&Hc). destruct (Hp slot' p' Hs') as (f'&window'&->&Hf'&_&Hc'). cbn [pf_variant pf_set].
    intros [= Ev Es]. unfold slot_set in Es. rewrite <-Ev in Es, Hc'. destruct (variant_bulk L (wf_variant f)) eqn:Eb; [done|].
    destruct (Hc eq_refl) as [_ H1]. destruct (Hc' eq_refl) as [_ H2]. apply Hne. apply (Hu slot slot' f f'); [by split; eauto|by split; eauto|done|done|congruence].
  - intros slot f Hno Hf%held_lookup Hfired Hh0. destruct (Hh slot f Hno Hf Hfired) as (r&Hr&_&_&Hread). exists r. split; [done|]. apply Hread. unfold holds in Hh0. unfold variant_bulk.
    destruct (dl_variants L !! wf_variant f) as [var|]; [|done]. destruct (is_bulk (va_key var)); [by left|right]. apply bind_ok in Hh0 as (count&Hcount%vget_inv&[= E]).
    apply Nat.eqb_eq in E. by subst count.
Qed.

(** C3. A fire runs the canonical workload on the window it is given.  Take a
    core made for a request, at rest after any run, and a window of a shot as the
    ingest core hands it over.  Let [w] be the window that
    [window_from_dem_chunks] builds for it in this shot, [d] its own rows of the
    shot after [receive_send] of every input, and [ws] what [solve_window] makes
    of them on a new workspace.  If the receives carry the inputs and residuals
    reach every imported row, then [fire] into any slot returns without an
    exception, although it works on the variant's window, with buffers that
    earlier fires wrote.  Under [verify_fail], a solution that does not satisfy
    its detectors is not published and the failure is recorded; otherwise the
    slot holds the committed rounds of [w], [d], the solution, and sends that
    carry the values [w] sends to the windows that receive them. *)
Theorem fire_decodes_window {R} `{RateOps R} spec ref q get_decoder slots verify m2o (L : decode_layout R) core0 steps s n cs shot slot rows i inputs receives w d dec ws :
  decode_setup spec ref q get_decoder slots verify m2o L core0 →
  fire_run L (mk_state core0 ∅ ∅) steps s → (Z.of_nat steps < 2 ^ 64)%Z → fs_pending s = ∅ → slot < slots →
  spec_shot spec (ref_template ref) n cs → shots_fit (ref_template ref) n → row_offset (ref_template ref) n n = Ok (length shot) →
  window_instances q n = Ok i → (ir_begin i ≤ rows_k rows < ir_end i)%Z → is_window (ref_template ref) q n shot rows →
  window_from_dem_chunks (Some ref) q (rows_k rows) n m2o = Ok w → Forall2 (delivers ref n) inputs receives → canonical_detectors w shot inputs = Ok d →
  (∀ row, row < num_rows_ (wm_h (dw_model w)) - dw_num_own_rows w → imported (ref_template ref) n w inputs row) →
  make_window_decoder get_decoder w = Ok dec → solve_window w dec d (make_window_workspace w) = Ok ws →
  ∃ core' f, fire L (fs_core s) slot rows receives = Ok (core', None) ∧ held core' slot = Ok f ∧
    if bool_decide (verify = verify_fail) && negb (sol_satisfied (wk_solution ws)) then wf_fired f = false ∧ wf_failure f ≠ ""
    else wf_fired f = true ∧ wf_k f = rows_k rows ∧ wf_commit f = pw_commit (dw_placed w) ∧ holds L core' f = Ok true ∧
      ∃ r, read_fire L core' f = Ok r ∧ re_detectors r = d ∧ re_solution r = wk_solution ws ∧ length (re_sends r) = length (pw_sends (dw_placed w)) ∧
        ∀ j values, wo_sends (sol_outputs (wk_solution ws)) !! j = Some values → ∃ x, re_sends r !! j = Some x ∧ carries (ref_template ref) n (mk_sent w j values) x.
Proof.
  intros Hset Hrun Hsteps Hrest Hslot Hspec Hfit Hlen Hi Hk Hrows Hw Hdel Hd Himp Hdec Hsol. set (t := ref_template ref) in *.
  destruct (checked_request q (ds_request _ _ _ _ _ _ _ _ _ Hset)) as [z Hq]. destruct (accept_template spec ref n cs Hspec) as (Htok&Hok&Hadm).
  assert (0 < n) as Hn0 by (pose proof (template_min_pos spec t (ds_template _ _ _ _ _ _ _ _ _ Hset)); destruct Hadm; unfold t in *; lia).
  pose proof (proj1 (window_instances_spec q z n i (rows_k rows) (rq_anchor _ _ Hq) Hi Hn0) Hk) as Hinst. fold (is_instance q z n (rows_k rows)) in Hinst.
  destruct (ds_made _ _ _ _ _ _ _ _ _ Hset) as (vs&found&_&Hmake&_). destruct (make_decode_core_built _ _ _ _ _ _ _ _ Hmake) as (Hctx&Hreq&Hver&_&Hlb&Hsz0&Hat).
  pose proof (run_sized L slots (mk_state core0 ∅ ∅) _ _ Hsz0 Hrun) as Hsz. pose proof (run_invariant L core0 steps s Hat Hsteps Hrun) as Hinv.
  assert (dl_span L = span_of q z) as Hspan. { pose proof (lb_span _ _ _ Hlb) as Hz. rewrite Hreq in Hz. unfold zone_span, commit_of in Hz. rewrite (an_commit _ _ (rq_anchor _ _ Hq)) in Hz. by injection Hz as <-. }
  destruct (variant_window spec ref q get_decoder slots verify m2o L core0 Hset n cs Hspec Hfit z Hq (rows_k rows) Hinst) as (v&var&w'&sh&Hfind&Hw'&Ew).
  rewrite Hw in Hw'. injection Hw' as <-. apply list_find_Some in Hfind as Hv. destruct Hv as (Hvar&Hkey&_).
  destruct (instance_built spec ref q z Hq n cs Hspec Hfit shot Hlen rows Hrows Hinst m2o w Hw) as (s0&e0&cb&ce&ie&hc&oc&Hbuilt&HF&Hr&Hpc&Hown&Hle&Hsmall&Hdet).
  assert (rows_variant rows = key_of ref q z n (rows_k rows)) as Hrk by (destruct Hrows as (_&_&_&_&Hv&_); rewrite (window_variant_eq ref q z Hq) in Hv; by injection Hv).
  unfold canonical_detectors in Hd. rewrite Hdet in Hd. cbn [mbind res_bind] in Hd.
  destruct (receives_land spec ref q n cs Hspec (rows_k rows) w rows s0 e0 cb ce ie hc oc inputs receives _ d Hbuilt HF Hdel Hd) as (Htakes&Happ&Hreach).
  assert (dw_num_own_rows (va_window var) = dw_num_own_rows w ∧ dw_model (va_window var) = dw_model w) as [Eo Em] by (by rewrite Ew).
  assert (∃ dec', make_window_decoder get_decoder (va_window var) = Ok dec' ∧ va_decoders var = replicate (sets_of (va_key var) slots) dec') as (dec'&Hdec'&Hdecs).
  { apply (lb_decoders _ _ _ Hlb), (list_elem_of_lookup_2 _ v), Hvar. }
  assert (dec' = dec) as ->. { rewrite Ew in Hdec. change (make_window_decoder get_decoder (va_window var) = Ok dec) in Hdec. congruence. }
  assert (solve_window (va_window var) dec d (make_window_workspace (va_window var)) = Ok ws) as Hsol' by (by rewrite Ew, solve_window_shift, workspace_shift in Hsol).
  assert (check_fired_window L (fs_core s) slot rows = Ok v) as Hcheck.
  { apply (fired_window_ok spec ref q z Hq n cs Hspec Hfit shot Hlen rows Hrows Hinst L Hctx Hreq Hspan _ slot v var); [unfold num_slots; by rewrite (sc_fires _ _ _ Hsz)|by rewrite Hrk|by rewrite Eo]. }
  destruct (fire_ok get_decoder slots L Hlb (fs_core s) Hsz slot Hslot rows v var Hcheck Hvar) with (receives := receives) (d := d) (dec := dec) (ws := ws) (commit := z)
    as (core'&f&Hfire&Hheld&Hres); rewrite ?Eo, ?Em; try done.
  - congruence.
  - intros Hbulk. destruct (lookup_lt_is_Some_2 (dc_decoding (fs_core s)) v) as [taken Ht]; [rewrite (sc_decoding _ _ _ Hsz); by eapply lookup_lt_Some|]. destruct taken; [|done].
    destruct (ri_taken _ _ _ Hinv v Ht) as (_&b&p&Hp&_). by rewrite Hrest in Hp.
  - intros row Hrow. by apply Hreach, Himp.
  - rewrite Hreq. unfold commit_of. by rewrite (an_commit _ _ (rq_anchor _ _ Hq)).
  - exists core', f. split; [done|]. split. { unfold held, check_slot, num_slots. rewrite (proj2 (Nat.leb_gt _ _)) by (by eapply lookup_lt_Some). cbn [throw_if mbind res_bind]. by rewrite (vget_ok _ _ _ Hheld). }
    unfold lost in Hres. rewrite Hver in Hres. destruct (bool_decide _ && _); [done|]. destruct Hres as (H1&H2&H3&H4&r&H5&H6&H7&H8&H9). split_and!; [done|done| |done|].
    + rewrite H3, Hpc, Hr. unfold anchor_at, clip_rounds. rewrite Hreq. fold (anchor_of q (rows_k rows)). cbn [clip_rounds rr_begin rr_end].
      destruct (zone_span_bounds q z) as (Hz&_&_). destruct (Hz z) as [Hz1 Hz2]; [unfold zones_of; set_solver|]. f_equal; lia.
    + exists r. split; [done|]. split; [done|]. split; [done|]. split; [by rewrite H8, Ew; cbn; rewrite length_fmap|]. intros j values Hj. destruct (H9 j values Hj) as (send&Hsend&Hx). eexists. split; [exact Hx|].
      exists (shift_send sh send), send. cbn [sv_values sv_send sv_first_row se_window se_index se_values]. split_and!; [done|done| |done|done|].
      * rewrite Ew. cbn [shift_window dw_placed shift_placed pw_sends]. by rewrite list_lookup_fmap, Hsend.
      * pose proof (wb_placed _ _ _ _ _ _ _ _ _ _ _ _ _ _ Hbuilt) as Hpk. destruct (pk_bounds _ _ _ _ _ _ _ _ _ _ _ _ Hpk) as (B1&B2&B3&B4&B5).
        rewrite (pk_rounds _ _ _ _ _ _ _ _ _ _ _ _ Hpk). cbn [rr_begin]. rewrite (row_offset_z t n cs Hok) by lia. by rewrite HF.
Qed.

(** ** An example

    The memory experiment's two layers.  Two slots of the anchors' core fire bulk
    windows that overlap; the joining core fires window 1 of a shot of five rounds
    with what the anchors' windows 0 and 1 send. *)

Definition memory_inner : decoder_source Q := λ h priors,
  Ok (mk_inner true (num_rows_ h) (length priors)
    (λ _, Ok (if length priors =? 4 then [0; 0; 0; 1]%Q else replicate (length priors) 0%Q, true))).

Definition memory_found (q : window_request Q) : res (list (variant_key * decoding_window Q)) :=
  vs ← variant_instances memory_template q;
  map_res (λ v, w ← window_from_dem_chunks (Some memory_ref) q (vi_k v) (vi_num_rounds v) false; Ok (vi_key v, w)) vs.

Definition memory_anchors : res (decode_layout Q * decode_core) :=
  make_decode_core (memory_found anchor_request) memory_template anchor_request memory_inner 2 verify_none.
Definition memory_joining : res (decode_layout Q * decode_core) :=
  make_decode_core (memory_found joining_request) memory_template joining_request memory_inner 2 verify_fail.

Definition bulk_window (k : Z) (first : nat) : window_rows :=
  mk_rows k (mk_range (4 * k - 1) (4 * k + 3)) (mk_key None None) first [0; 1; 1; 0].

Lemma fires_do_not_interfere_witness :
  ∃ L core s f r, memory_anchors = Ok (L, core) ∧ fire_run L (mk_state core ∅ ∅) 3 s ∧ is_Some (fs_pending s !! 1) ∧ held (fs_core s) 0 = Ok f ∧ wf_k f = 1%Z ∧
    fs_results s !! 0 = Some r ∧ read_fire L (fs_core s) f = Ok r ∧ re_detectors r = [0; 1; 1; 0].
Proof.
  destruct memory_anchors as [[L core]| |] eqn:E; [|by vm_compute in E..]. pose proof E as Hmake. unfold memory_anchors in E.
  assert (∃ core1 p core2 p' core3 f r, fire_begin L core 0 (bulk_window 1 3) [] = Ok (core1, inl p) ∧ fire_begin L core1 1 (bulk_window 2 7) [] = Ok (core2, inl p') ∧
    fire_end L core2 p = Ok (core3, None) ∧ held core3 0 = Ok f ∧ wf_fired f = true ∧ wf_k f = 1%Z ∧ holds L core3 f = Ok true ∧ read_fire L core3 f = Ok r ∧ re_detectors r = [0; 1; 1; 0])
    as (core1&p&core2&p'&core3&f&r&H1&H2&H3&H4&H5&H6&H7&H8&H9).
  { vm_compute in E. injection E as <- <-. eexists _, _, _, _, _, _, _. split; [vm_compute; reflexivity|]. split; [vm_compute; reflexivity|]. split; [vm_compute; reflexivity|].
    split; [vm_compute; reflexivity|]. split; [reflexivity|]. split; [reflexivity|]. split; [vm_compute; reflexivity|]. split; [vm_compute; reflexivity|]. reflexivity. }
  set (s3 := mk_state core3 (delete 0 (<[1 := p']> (<[0 := p]> ∅))) (<[0 := r]> (delete 1 (delete 0 ∅)))).
  assert (fire_run L (mk_state core ∅ ∅) 3 s3) as Hrun.
  { eapply run_step; [eapply run_step; [eapply run_step; [apply run_start|]|]|].
    - eapply (step_begin L core ∅ ∅ 0 (bulk_window 1 3) [] core1 p (lookup_empty 0)), H1.
    - eapply (step_begin L core1 (<[0 := p]> ∅) (delete 0 ∅) 1 (bulk_window 2 7) [] core2 p'); [by rewrite lookup_insert_ne|exact H2].
    - eapply (step_publish L core2 (<[1 := p']> (<[0 := p]> ∅)) (delete 1 (delete 0 ∅)) 0 p core3 f r); [|exact H3|exact H4|exact H5|exact H8]. rewrite lookup_insert_ne by done. apply lookup_insert_eq. }
  destruct (fires_do_not_interfere _ _ _ _ _ _ L core 3 s3 Hmake Hrun ltac:(lia)) as [_ Hread].
  destruct (Hread 0 f (lookup_delete_eq _ _) H4 H5 H7) as (r'&Hr'&Hrd). cbn [s3 fs_core] in Hrd. rewrite H8 in Hrd. assert (r' = r) as -> by congruence.
  exists L, core, s3, f, r. split; [reflexivity|]. split; [exact Hrun|]. split; [exists p'; cbn [s3 fs_pending]; rewrite lookup_delete_ne by done; apply lookup_insert_eq|]. split; [exact H4|]. split; [exact H6|]. split; [exact Hr'|]. split; [exact H8|exact H9].
Defined.

Lemma memory_joining_setup : ∃ L core, memory_joining = Ok (L, core) ∧ decode_setup memory_spec memory_ref joining_request memory_inner 2 verify_fail false L core.
Proof.
  unfold memory_joining. destruct (memory_found joining_request) as [found| |] eqn:Ef; [|by vm_compute in Ef..].
  destruct (make_decode_core (Ok found) memory_template joining_request memory_inner 2 verify_fail) as [[L core]| |] eqn:E; [|by vm_compute in Ef; injection Ef as <-; vm_compute in E..].
  exists L, core. split; [reflexivity|]. split.
  - exact memory_template_ok.
  - vm_compute. done.
  - intros _. vm_compute. reflexivity.
  - exact memory_measured.
  - vm_compute. reflexivity.
  - unfold memory_found in Ef. destruct (variant_instances memory_template joining_request) as [vs| |] eqn:Evs; [|done..]. cbn [mbind res_bind] in Ef. exists vs, found.
    split; [exact Evs|]. split; [exact E|]. apply map_res_forall2 in Ef.
    assert (∀ v, v ∈ vs → 3 ≤ vi_num_rounds v ≤ 9) as Hvs by (apply Forall_forall; vm_compute in Evs; injection Evs as <-; repeat constructor).
    clear E Evs. induction Ef as [|v entry vs found Hv Ef IH]; [constructor|]. constructor; [|apply IH; intros v' Hv'; apply Hvs; by right].
    apply bind_ok in Hv as (w&Hw&[= <-]). pose proof (Hvs v ltac:(by left)) as Hn. split; [done|]. split; [exact Hw|]. split; [by eexists; apply memory_shot_spec|by apply memory_shots_fit].
Qed.

(** The anchors' sends to window 1, and the receives that carry them. *)
Definition memory_inputs : list (option (sent Q)) := [(λ w, mk_sent w 1 [1]) <$> memory_windows !! 1; (λ w, mk_sent w 0 [1]) <$> memory_windows !! 0].
Definition memory_receives : list (option window_send_value) :=
  [Some (mk_send_value [1] (Some (mk_send "backward" send_residual [] [1])) 3); Some (mk_send_value [1] (Some (mk_send "forward" send_delta [] [2])) 0)].
Definition memory_rows : window_rows := mk_rows 1 (mk_range 2 4) (mk_key None (Some 3%Z)) 2 [1; 1].

Lemma fire_decodes_window_witness :
  ∃ L core core' f r, memory_joining = Ok (L, core) ∧ fire L core 1 memory_rows memory_receives = Ok (core', None) ∧ held core' 1 = Ok f ∧
    wf_fired f = true ∧ wf_commit f = mk_range 2 4 ∧ read_fire L core' f = Ok r ∧ re_detectors r = [0; 1; 1] ∧ sol_satisfied (re_solution r) = true.
Proof.
  destruct memory_joining_setup as (L&core&E&Hset).
  destruct (memory_windows !! 2) as [w|] eqn:Ew; [|done]. destruct (memory_inner (wm_h (dw_model w)) [0; 0; 0; 0]%Q) as [inner| |] eqn:Ein; [|done..].
  destruct (solve_window w (Some (id_decode inner)) [0; 1; 1] (make_window_workspace w)) as [ws| |] eqn:Ews; [|by injection Ew as <-; injection Ein as <-; vm_compute in Ews..].
  destruct (fire_decodes_window memory_spec memory_ref joining_request memory_inner 2 verify_fail false L core 0 (mk_state core ∅ ∅) 5 (memory_shot_chunks 5) [0; 1; 1; 1; 1] 1 memory_rows (mk_index_range 1 2)
    memory_inputs memory_receives w [0; 1; 1] (Some (id_decode inner)) ws Hset) as (core'&f&Hfire&Hheld&Hres).
  - apply run_start.
  - lia.
  - reflexivity.
  - lia.
  - exact (memory_shot_spec 5 ltac:(lia)).
  - exact (memory_shots_fit 5 ltac:(lia)).
  - vm_compute. reflexivity.
  - vm_compute. reflexivity.
  - cbn. lia.
  - eexists _, 4. split_and!; vm_compute; reflexivity.
  - injection Ew as <-. vm_compute. reflexivity.
  - unfold memory_inputs, memory_receives. apply Forall2_cons_2; [|apply Forall2_cons_2; [|constructor]].
    + split; [exists anchor_request, 1%Z, false; vm_compute; reflexivity|]. eexists _, _. split_and!; vm_compute; reflexivity.
    + split; [exists anchor_request, 0%Z, false; vm_compute; reflexivity|]. eexists _, _. split_and!; vm_compute; reflexivity.
  - injection Ew as <-. vm_compute. reflexivity.
  - injection Ew as <-. intros [|row] Hrow; [|vm_compute in Hrow; lia]. eexists _, _, 2, 3, 1. split; [apply list_elem_of_here|]. split_and!; vm_compute; (reflexivity || constructor).
  - injection Ew as <-. injection Ein as <-. vm_compute. reflexivity.
  - exact Ews.
  - assert (sol_satisfied (wk_solution ws) = true) as Hsat by (injection Ew as <-; injection Ein as <-; vm_compute in Ews; by injection Ews as <-).
    rewrite Hsat in Hres. cbn [negb] in Hres. rewrite andb_false_r in Hres. destruct Hres as (H1&_&H2&_&r&H3&H4&H5&_).
    exists L, core, core', f, r. split; [exact E|]. split; [exact Hfire|]. split; [exact Hheld|]. split; [exact H1|]. split; [rewrite H2; by injection Ew as <-|]. split; [exact H3|]. split; [exact H4|]. by rewrite H5.
Defined.
